(* ===== verification/_CoqProject ===== *)
-Q . S2P
Prelude.v
Group.v
Countdown.v
Dag.v
DagFacts.v
DagRun.v
Scheduler.v
SchedulerProof.v
SchedulerSpec.v
TimedHeap.v
Event.v
EventLoop.v
Fiber.v
Actor.v
ActorSpec.v
IOBuf.v
IOBufInv.v
IOBufChain.v
IOBufMem.v
IOBufLife.v
IOBufOps.v
IOBufClone.v
IOBufSpec.v
Range.v
RangeProof.v
Cursor.v
CursorProof.v
CursorSpec.v
Spooky.v
SpookyProof.v
BufHash.v
Appender.v
AppenderProof.v
AppenderSpec.v
Serializer.v
SerializerProof.v
SerializerSpec.v
Protocol.v
ProtocolProof.v
ProtocolSpec.v
Base64.v
CacheMap.v
Arena.v
Strings.v
StringsProof.v
Lower.v
LowerProof.v
Uuid.v
Threads.v
Queue.v
QueueProof.v
Locks.v
Baton.v
BatonProof.v
Pool.v
PoolProof.v
PoolSafe.v
PoolSpec.v
PoolLive.v
Conv.v
ConvProof.v
Gen.v
GenProof.v
GenSpec.v
GenUse.v
GenString.v
GenStringProof.v
Json.v
JsonParse.v
JsonSafe.v
JsonText.v
JsonProof.v
UconvTables.v
Uconv.v
UconvProof.v
UconvUtf8.v
UconvSpec.v
Observable.v
IOPool.v
IOPoolProof.v
