(* ===== verification/Prelude.v ===== *)
(** * Raster: a verification library

    Raster (src/raster/) is a C++ framework for network services: an event loop that
    drives connections, buffers and cursors for their bytes, protocols that frame
    messages, groups and graphs of jobs that join the answers of back-ends, and the
    containers, locks and converters underneath.  This library models the core of it as
    functions that run and proves what makes each part correct.  The translation keeps the
    source's names; [Prelude] has what all files share.

    ** How code is modelled

    A call ends in an [outcome]: a value, or a [fault] - a failed assert, undefined
    behaviour (an access out of range, a dangling or null pointer, use of raw memory), a
    thrown exception with its text, or [OutOfFuel].  State is threaded by the monad [St];
    [wp m Q w] says that [m], run from [w], returns and that [Q] holds of the result, so that
    every theorem stated with it excludes faults and includes termination.  A w-bit
    integer is a [Z] wrapped by [u8] ... [u64] where the source computes at that width.
    A loop that is not structural has fuel; the fuel a definition passes is computed from its
    input (the number of objects for a walk round a chain, the number of bytes left for
    a loop that consumes them) and the theorems show that it is never exhausted.
    [readDataUntil] and the unbounded loops of the generators (a sequence, a cycle) take their
    fuel as an argument, since the code sets no bound.

    ** Parts, files and sources

    - parallel/Group.h: [Group].  The stack of free keys and the vector of counts
      implement a map from keys to answers missing ([group_run_refines]).
    - parallel/DAG.h, coroutine/Executor.h: [Countdown] (the counting argument), [Dag]
      (the model), [DagFacts], [DagRun].  The cycle test decides acyclicity
      ([hasCycle_correct]); a run executes every job once, after its
      dependencies ([dag_run_correct]).
    - parallel/Graph.h, Scheduler.h: [Scheduler] (jobs by name, and the graph whose jobs are
      fibers of many threads), [SchedulerProof] (every interleaving of their accesses),
      [SchedulerSpec] ([scheduler_correct]).
    - util/TimedHeap.h, util/Time.h, util/MapUtil.h: [TimedHeap].  Deadlines with lazy
      deletion implement a map from objects to deadlines ([timed_heap_refines]), over any
      queue with the laws of the class [PriorityQueue].
    - io/event/Event.h, Event.cpp: [Event]; io/event/EventLoop.cpp, EventHandler.cpp, Poll:
      [EventLoop].  Connections live in a store by address, so that use after delete is
      undefined.  Handling one event, expiring deadlines and any number of turns of
      the loop are safe and keep the invariant ([handle_correct],
      [checkTimeoutEvent_correct], [loopBody_safe]); one path is not
      ([onComplete_forward_faults]).
    - coroutine/Fiber.h, FiberManager.h, Executor.h: [Fiber].  A switch of contexts is a call of
      the code that the fiber runs until it yields or returns.  net/Actor.h, Actor.cpp,
      AsyncClient.h, AsyncClient.cpp, io/event/EventPool.cpp: [Actor], [ActorSpec].  A fiber that asks several
      back-ends is resumed once, when the last has answered ([fan_out_in]); kept-alive
      connections are reused; a second yield calls the callbacks of the first again
      ([second_yield_dangling]).
    - io/IOBuf.h, IOBuf.cpp: [IOBuf] (the model), [IOBufInv] (reference counts and
      ownership), [IOBufChain] (circular lists), [IOBufMem], [IOBufLife], [IOBufOps],
      [IOBufClone], [IOBufSpec] (what the class promises: memory is freed exactly when its last
      user goes, clones share and outlive, unshare isolates, coalesce and gather keep
      the bytes).
    - io/Cursor.h: [Cursor] and [CursorProof] (reading), [CursorSpec] (a cursor is a
      position in a byte list: [cursor_refines]), [Appender] and [AppenderProof]
      (writing), [AppenderSpec] ([appender_roundtrip]: written fields are read back).
    - util/SpookyHashV2.h, SpookyHashV2.cpp: [Spooky] (the hash on 64-bit words),
      [SpookyProof] ([spooky_incremental]: hashing in pieces is hashing the whole).  IOBufHash and
      IOBufEqual of io/IOBuf.cpp: [BufHash] ([iobuf_hash_correct]: both see only the bytes).
    - serializer/Serializer.h: [Serializer] (types, values and the two directions),
      [SerializerProof], [SerializerSpec].  Writing goes through the class [Out] with its law
      [OutLaw], which strings and chains of buffers keep; a value comes back through a
      chain that is coalesced ([buffers_roundtrip]), what is read has its type ([unserialize_typed]), and a
      message that is cut short is read past its end ([unserialize_truncated]).
    - net/Protocol.h, Protocol.cpp, protocol/binary/, Socket::recv and send, a part of
      io/TypedIOBuf.h: [Protocol], [ProtocolProof], [ProtocolSpec].  The end-to-end theorem
      [frame_transfer] composes encodeData, the Appender, the IOBuf chain, the Cursor, the two
      sockets' loops, the framing of HBinaryProtocol and decodeData;
      [readDataUntil_dangling] proves a use after free.
    - util/Range.h, Range.cpp (searching): [Range], [RangeProof].  The skipping search and the
      uninitialised byte set equal the plain searches.
    - util/Base64-inl.h: [Base64].  util/EvictingCacheMap.h: [CacheMap].  util/Arena.h,
      Arena.cpp: [Arena] (pieces are aligned, within a block and apart: [arena_pieces]; the size of a block may
      wrap around for sizes near 2^64: [arena_wraps]).
    - util/String.h, String-inl.h, String.cpp: [Strings], [StringsProof] (hexadecimal text,
      splitting and joining), [Lower], [LowerProof] (lowercasing by words equals
      lowercasing by characters).
    - util/Uuid.h, Uuid.cpp: [Uuid].  A thread's UUIDs differ
      ([uuids_distinct]) until a microsecond is asked for an eleventh time ([uuid_repeats]).
    - util/ProducerConsumerQueue.h: [Threads] (interleavings of accesses), [Queue],
      [QueueProof].  util/RWSpinLock.h, SpinLock.h: [Locks], state machines of any number
      of threads.  util/Baton.h, Futex.h: [Baton], [BatonProof] ([baton_handoff]).
    - concurrency/ThreadPool.h, ThreadPool.cpp, CPUThreadPool.h, CPUThreadPool.cpp,
      util/BlockingQueue.h, Sem.h: [Pool] (the model: any number of pool threads, a controlling
      thread, tasks added by anyone), [PoolProof], [PoolSafe] (the invariant), [PoolSpec]
      ([pool_safe]; [pool_exactly_once] and [join_drains]: each task's function is called once, or its
      expiration callback if the task is overdue), [PoolLive] ([pool_rests], and
      what goes wrong when a stopped pool is used again).
    - concurrency/Observable.h, Observer.h: [Observable].  Observers may
      subscribe and unsubscribe when they are called; an event goes to the subscriptions of its
      beginning ([observable_refines]).  The write lock of subscribing does not hold
      ([write_holder_does_not_hold]).
    - concurrency/IOThreadPool.h, IOThreadPool.cpp: [IOPool] (threads that run event loops, with the
      base class as far as a pool that only shrinks uses it), [IOPoolProof] (the invariant
      and [iopool_correct]: the calls for the tasks are made once and in order and a join makes them all, where
      calls of add do not overlap it; [late_add_null] where one does).
      io/event/EventLoopManager.h: in [IOPool] (one loop per thread; [exit_dangles]).
    - util/Conv.h, Conv.cpp: [Conv], [ConvProof].
    - enc/uconv.h, uconv.cpp and its tables cp936map.h, un2gbkmap.h, psedoutf8.h:
      [UconvTables] (the tables, row by row), [Uconv] (conversions between GBK, UTF-16 and
      UTF-8 and the guesses which of them a text is in), [UconvProof] (every index in
      bounds), [UconvUtf8] (one character), [UconvSpec] ([gbk_roundtrip], [uconv_safe],
      [gbk_tables]: where the two tables are inverse, and the entries where they are not).
    - util/json.cpp and what it uses of dynamic: [Json], [JsonParse] (the model),
      [JsonSafe] (any input), [JsonText] (strings), [JsonProof] (print and parse).
    - gen/Core-inl.h, Base.h, Base-inl.h, Combine-inl.h: [Gen] (generators as a pair of members
      on closures with state), [GenProof] (what each operator passes on), [GenSpec] (the
      syntax of pipelines and its list semantics: [pipe_correct], [pipe_contract]), [GenUse]
      (sinks, ordering, sampling, and the operators that break the contract).  gen/String.h,
      String-inl.h: [GenString], [GenStringProof] ([stream_splitter_correct],
      [resplit_correct], [split_unsplit]).

    Interactions: the event loop calls the protocol's readData and writeData through
    arguments that may do anything; Protocol.v is what they do on the buffers.
    Cursors, appenders and the protocol are proved against the lemmas of IOBufOps and
    IOBufSpec; the serializer writes through the appender and reads a coalesced
    chain.  JSON uses the integer conversions of Conv; readDataUntil uses the search of
    Range.  The scheduler closes and runs the graph of Dag.v; Actor.v counts answers with the groups of
    Group.v and runs fibers of Fiber.v; UUIDs print with hexlify.
    Observers run in the closures of Gen.v.  The hash of a chain reads it through a cursor; the generators of text search with Range and
    feed the closures of Gen.

    ** What is a parameter

    [uninit] (what fresh memory holds) and [mem_limit] (what malloc can provide) for the buffers;
    the uninitialised arrays of the byte set; the clock, accept and socket options, and the
    classes [Epoll] for epoll_ctl(2) and [Net] for recv(2) and send(2), with the laws
    [StreamNet] of a reliable stream (an instance is [Pipe]); [PriorityQueue],
    [IntrusiveIndex], [HashOrder] and [Doubles] for std::priority_queue, the
    intrusive hash set, the iteration order of an unordered_map (and whether it compares keys whose hashes differ) and the double-conversion
    library, [StdAlgorithms] and [Iteration] for std::sort, the heap algorithms and the order
    of an unordered container in the generators, each with an instance that shows its laws can
    hold; the clocks, random
    choices and the code that fibers, tasks and jobs run; the addresses of new threads; for UUIDs
    the readings of the clock, the random bytes and the hardware address.

    ** Assumptions worth knowing

    Allocation sizes are below 2^61 and within [mem_limit] in the theorems on buffers
    (the models themselves return the failure).  A call of reserve or resize fails where the [limits] of its container
    say so; that containers can grow element by element, and that there is memory for an object of a small fixed size
    (IOBuf::operator new among them), is assumed.  recv(2) and send(2) move less than 2^31 bytes in a call, so that their
    results fit the int they are stored in.  The appender's theorems ask that the last
    element does not share its memory, as the source's comments do.  Threads
    interleave access by access over a sequentially consistent memory.  asserts are on.

    ** Not modelled

    The switch of contexts itself (boost.context), the HTTP, thrift and protobuf encodings (they drive vendored
    parsers and generated classes), files, TLS, compression, logging and configuration
    (wrappers of libraries and system calls), character properties, the small hashes of
    util/Hash.h, and floating-point conversion.  Of modelled parts: the iterator classes, the
    accessors of Range and dynamic, formatted printing, move semantics in generators, and growing
    a pool of I/O threads.

    ** What could follow

    Cloning a range of a chain through a cursor (modelled, not yet proved), reserve, and the
    locked containers. *)
From Stdlib Require Export ZArith Lia.
From stdpp Require Export base gmap sets list strings numbers option.
Export list_relations.list.

Declare Scope raster_scope.
Delimit Scope raster_scope with raster.
Open Scope Z_scope.

(** ** Outcomes: what running a piece of C++ can end in *)

(** The ways a call can end other than by returning: a failed [assert], an
    operation the language leaves undefined (an access out of range, a null
    dereference, use of a destroyed object), a thrown exception, and a loop
    that did not end within the fuel the model gave it. *)
Inductive fault :=
| AssertFailed
| Undefined
| Thrown (what : string)
| OutOfFuel.

Inductive outcome (A : Type) :=
| Ret (a : A)
| Err (e : fault).
Arguments Ret {A} a.
Arguments Err {A} e.

#[global] Instance outcome_ret : MRet outcome := fun A a => Ret a.
#[global] Instance outcome_bind : MBind outcome := fun A B f m =>
  match m with Ret a => f a | Err e => Err e end.
#[global] Instance outcome_fmap : FMap outcome := fun A B f m =>
  match m with Ret a => Ret (f a) | Err e => Err e end.

#[global] Instance fault_eq_dec : EqDecision fault.
Proof. solve_decision. Defined.

(** [assert(b)] and the access checks of the model. *)
Definition check (b : bool) (e : fault) : outcome unit :=
  if b then Ret tt else Err e.
Definition of_option {A} (e : fault) (o : option A) : outcome A :=
  match o with Some a => Ret a | None => Err e end.

(** reserve(n) of a container: max_size() of its type, and how many elements there is memory
    for. *)
Record limits := mk_limits { max_size : Z; affords : Z }.
Definition container_reserve (lim : limits) (n : Z) : outcome unit :=
  if max_size lim <? n then Err (Thrown "length_error: reserve")
  else if affords lim <? n then Err (Thrown "bad_alloc") else Ret tt.
Definition reservable (lim : limits) (n : Z) : Prop := n ≤ max_size lim ∧ n ≤ affords lim.

Lemma bind_ret_inv {A B} (m : outcome A) (f : A → outcome B) b :
  mbind f m = Ret b → ∃ a, m = Ret a ∧ f a = Ret b.
Proof. destruct m; cbn; [eauto | discriminate]. Qed.

Lemma check_ret_inv b e u : check b e = Ret u → b = true.
Proof. by destruct b. Qed.

Lemma container_reserve_ok lim n : reservable lim n → container_reserve lim n = Ret tt.
Proof. intros [H1 H2]. unfold container_reserve. by rewrite (proj2 (Z.ltb_ge _ _) H1), (proj2 (Z.ltb_ge _ _) H2). Qed.

Lemma of_option_ret_inv {A} e (o : option A) a :
  of_option e o = Ret a → o = Some a.
Proof. destruct o; cbn; congruence. Qed.

(** Break up every hypothesis that says a composed computation returned. *)
Ltac inv_ret :=
  repeat match goal with
  | H : mbind _ _ = Ret _ |- _ =>
      let a := fresh "r" in let Ha := fresh "Hr" in
      apply bind_ret_inv in H as (a & Ha & H)
  | H : check _ _ = Ret _ |- _ => apply check_ret_inv in H
  | H : of_option _ _ = Ret _ |- _ => apply of_option_ret_inv in H
  | H : Ret _ = Ret _ |- _ => injection H; clear H; intros; subst
  | H : Err _ = Ret _ |- _ => discriminate H
  end.

(** ** Machine integers: a w-bit integer is a [Z] wrapped at its width *)

Definition u8 (x : Z) : Z := x mod 2 ^ 8.
Definition u16 (x : Z) : Z := x mod 2 ^ 16.
Definition u32 (x : Z) : Z := x mod 2 ^ 32.
Definition u64 (x : Z) : Z := x mod 2 ^ 64.

Lemma u8_range x : 0 ≤ u8 x < 2 ^ 8.
Proof. apply Z.mod_pos_bound; lia. Qed.
Lemma u16_range x : 0 ≤ u16 x < 2 ^ 16.
Proof. apply Z.mod_pos_bound; lia. Qed.
Lemma u32_range x : 0 ≤ u32 x < 2 ^ 32.
Proof. apply Z.mod_pos_bound; lia. Qed.
Lemma u64_range x : 0 ≤ u64 x < 2 ^ 64.
Proof. apply Z.mod_pos_bound; lia. Qed.

Lemma u8_small x : 0 ≤ x < 2 ^ 8 → u8 x = x.
Proof. apply Z.mod_small. Qed.
Lemma u16_small x : 0 ≤ x < 2 ^ 16 → u16 x = x.
Proof. apply Z.mod_small. Qed.
Lemma u32_small x : 0 ≤ x < 2 ^ 32 → u32 x = x.
Proof. apply Z.mod_small. Qed.
Lemma u64_small x : 0 ≤ x < 2 ^ 64 → u64 x = x.
Proof. apply Z.mod_small. Qed.

Create HintDb raster.
#[export] Hint Resolve u8_range u16_range u32_range u64_range : raster.
Create Rewrite HintDb raster.
#[export] Hint Rewrite u8_small u16_small u32_small u64_small using lia : raster.

(** ** Vectors: std::vector accessed by an unsigned index *)

(** [v[i]], undefined out of range. *)
Definition vget {A} (v : list A) (i : Z) : outcome A :=
  of_option Undefined (if 0 <=? i then v !! Z.to_nat i else None).

(** [v[i] = x], undefined out of range. *)
Definition vset {A} (v : list A) (i : Z) (x : A) : outcome (list A) :=
  if (0 <=? i) && (i <? Z.of_nat (length v))
  then Ret (<[Z.to_nat i := x]> v) else Err Undefined.

(** [v.resize(n, x)]: cut to [n] elements or fill with [x] up to [n]. *)
Definition vresize {A} (v : list A) (n : Z) (x : A) : list A :=
  resize (Z.to_nat n) x v.

Lemma vget_ret {A} (v : list A) i x :
  vget v i = Ret x ↔ 0 ≤ i ∧ v !! Z.to_nat i = Some x.
Proof.
  unfold vget. destruct (Z.leb_spec 0 i); destruct (v !! Z.to_nat i) eqn:E;
    cbn; naive_solver (congruence || lia).
Qed.

Lemma vset_ret {A} (v w : list A) i x :
  vset v i x = Ret w ↔
  0 ≤ i < Z.of_nat (length v) ∧ w = <[Z.to_nat i := x]> v.
Proof.
  unfold vset. destruct (Z.leb_spec 0 i), (Z.ltb_spec i (Z.of_nat (length v)));
    cbn; naive_solver (congruence || lia).
Qed.

(** ** Stateful computations: a state threaded through fallible steps *)

Definition St (W A : Type) : Type := W → outcome (A * W).

#[global] Instance St_ret W : MRet (St W) := fun A a w => Ret (a, w).
#[global] Instance St_bind W : MBind (St W) := fun A B f m w =>
  match m w with Ret (a, w') => f a w' | Err e => Err e end.

Definition get {W} : St W W := fun w => Ret (w, w).
Definition gets {W A} (f : W → A) : St W A := fun w => Ret (f w, w).
Definition modify {W} (f : W → W) : St W unit := fun w => Ret (tt, f w).
Definition throw {W A} (e : fault) : St W A := fun _ => Err e.
Definition lift {W A} (o : outcome A) : St W A := fun w =>
  match o with Ret a => Ret (a, w) | Err e => Err e end.
Definition assert_ {W} (b : bool) : St W unit := lift (check b AssertFailed).

(** [wp m Q w]: run from [w], [m] returns, in a state and with a value for which
    [Q] holds. *)
Definition wp {W A} (m : St W A) (Q : A → W → Prop) (w : W) : Prop :=
  match m w with Ret (a, w') => Q a w' | Err _ => False end.

Section wp.
Context {W : Type}.

Lemma wp_ret {A} (a : A) (Q : A → W → Prop) w : Q a w → wp (mret a) Q w.
Proof. done. Qed.

Lemma wp_bind {A B} (m : St W A) (f : A → St W B) Q w :
  wp m (fun a => wp (f a) Q) w → wp (m ≫= f) Q w.
Proof. unfold wp, mbind, St_bind. by destruct (m w) as [[a w']|]. Qed.

Lemma wp_seq {A B C} (m : St W A) (f : A → St W B) (k : B → St W C) Q w :
  wp (m ≫= f) (fun b => wp (k b) Q) w → wp (a ← m; b ← f a; k b) Q w.
Proof.
  unfold wp, mbind, St_bind. destruct (m w) as [[a w']|]; [|done].
  by destruct (f a w') as [[b w'']|].
Qed.

Lemma wp_mono {A} (m : St W A) (P Q : A → W → Prop) w :
  wp m P w → (∀ a w', P a w' → Q a w') → wp m Q w.
Proof. unfold wp. destruct (m w) as [[a w']|]; auto. Qed.

Lemma wp_gets {A} (f : W → A) Q w : Q (f w) w → wp (gets f) Q w.
Proof. done. Qed.

Lemma wp_modify (f : W → W) (Q : unit → W → Prop) w : Q tt (f w) → wp (modify f) Q w.
Proof. done. Qed.

Lemma wp_assert b (Q : unit → W → Prop) w : b = true → Q tt w → wp (assert_ b) Q w.
Proof. by intros ->. Qed.

Lemma wp_lift {A} (o : outcome A) (a : A) (Q : A → W → Prop) w :
  o = Ret a → Q a w → wp (lift o) Q w.
Proof. by intros ->. Qed.

Lemma wp_conj {A} (m : St W A) (P Q : A → W → Prop) w :
  wp m P w → wp m Q w → wp m (fun a w' => P a w' ∧ Q a w') w.
Proof. unfold wp. by destruct (m w) as [[a w']|]. Qed.

Lemma wp_elim {A} (m : St W A) Q w :
  wp m Q w → ∃ a w', m w = Ret (a, w') ∧ Q a w'.
Proof. unfold wp. destruct (m w) as [[a w']|]; [eauto|done]. Qed.

Lemma wp_intro {A} (m : St W A) (Q : A → W → Prop) w a w' :
  m w = Ret (a, w') → Q a w' → wp m Q w.
Proof. unfold wp. by intros ->. Qed.
End wp.

(** Step through the beginning of a computation. *)
Ltac wp_step :=
  lazymatch goal with
  | |- wp (if ?b then _ else _) _ _ => destruct b eqn:?
  | |- wp (mbind _ _) _ _ => apply wp_bind
  | |- wp (gets _) _ _ => apply wp_gets
  | |- wp (modify _) _ _ => apply wp_modify
  | |- wp (mret _) _ _ => apply wp_ret
  end.
Ltac wp_steps := repeat (wp_step; cbn beta).
