(* ===== verification/Group.v ===== *)
(** raster/parallel/Group.h: the counting groups that join the answers of
    several back-end requests.  [Module Group] holds the class as the source has
    it (the stack of free keys, the vector of counts, the capacity that
    doubles); [Module GroupSpec] is the contract a caller relies on, a finite
    map from the keys in use to the number of answers still missing; the
    theorems are a forward simulation between the two. *)
From S2P Require Import Prelude.

Module Group.

(** The fields of class [Group]; the lock is taken for the whole of each
    operation, so an operation is one step. *)
Record group := mk_group {
  capacity_ : Z;
  groupKeys_ : list Z;      (* the stack, top first *)
  groupCounts_ : list Z
}.

(** for (Key i = capacity_; i >= bound; --i) groupKeys_.push(i); *)
Fixpoint increase_loop (fuel : nat) (i bound : Z) (keys : list Z)
    : outcome (list Z) :=
  match fuel with
  | O => Err OutOfFuel
  | S fuel =>
      if bound <=? i then increase_loop fuel (u64 (i - 1)) bound (i :: keys)
      else Ret keys
  end.

Definition increase (bound : Z) (g : group) : outcome group :=
  keys ← increase_loop (S (Z.to_nat (capacity_ g))) (capacity_ g) bound
           (groupKeys_ g);
  Ret (mk_group (capacity_ g) keys
         (vresize (groupCounts_ g) (u64 (capacity_ g + 1)) 0)).

(** The constructor. *)
Definition Group (capacity : Z) : outcome group :=
  increase 1 (mk_group capacity [] []).

Definition create (groupSize : Z) (g : group) : outcome (Z * group) :=
  g ← (if decide (groupKeys_ g = [])
       then increase (Z.of_nat (length (groupCounts_ g)))
              (mk_group (u64 (capacity_ g * 2)) (groupKeys_ g) (groupCounts_ g))
       else Ret g);
  _ ← check (0 <? groupSize) AssertFailed;
  match groupKeys_ g with
  | [] => Err Undefined
  | key :: keys =>
      counts ← vset (groupCounts_ g) key groupSize;
      Ret (key, mk_group (capacity_ g) keys counts)
  end.

Definition finish (key : Z) (g : group) : outcome (bool * group) :=
  if key =? 0 then Ret (true, g) else
  c ← vget (groupCounts_ g) key;
  _ ← check (0 <? c) AssertFailed;
  counts ← vset (groupCounts_ g) key (c - 1);
  if c - 1 <=? 0
  then Ret (true, mk_group (capacity_ g) (key :: groupKeys_ g) counts)
  else Ret (false, mk_group (capacity_ g) (groupKeys_ g) counts).

Definition count (g : group) : Z :=
  u64 (capacity_ g - Z.of_nat (length (groupKeys_ g))).

(** The representation invariant: the free keys are distinct, lie in
    [1 .. capacity], and are exactly the keys whose count is zero. *)
Record wf (g : group) : Prop := {
  wf_cap : 1 ≤ capacity_ g < 2 ^ 64 - 1;
  wf_len : Z.of_nat (length (groupCounts_ g)) = capacity_ g + 1;
  wf_zero : groupCounts_ g !! 0%nat = Some 0;
  wf_nonneg : Forall (fun c => 0 ≤ c) (groupCounts_ g);
  wf_nodup : NoDup (groupKeys_ g);
  wf_free : ∀ k, k ∈ groupKeys_ g ↔
              1 ≤ k ≤ capacity_ g ∧ groupCounts_ g !! Z.to_nat k = Some 0
}.

End Group.

Module GroupSpec.
Import Group.

(** The contract: the keys in use, each with the finishes still to come. *)
Abbreviation state := (gmap Z Z).

Inductive op := Create (n : Z) | Finish (k : Z).
Inductive out := Key (k : Z) | Last (b : bool).

(** A creation hands out some key that is not in use; a finish counts one
    down and reports, and frees the key, when it was the last one.  Key 0 is
    the key of no group: finishing it always reports true. *)
Inductive step : state → op → out → state → Prop :=
| step_create m n k :
    0 < n → 1 ≤ k → m !! k = None → step m (Create n) (Key k) (<[k:=n]> m)
| step_finish_zero m :
    step m (Finish 0) (Last true) m
| step_finish_last m k :
    k ≠ 0 → m !! k = Some 1 → step m (Finish k) (Last true) (delete k m)
| step_finish_more m k c :
    k ≠ 0 → m !! k = Some c → 1 < c →
    step m (Finish k) (Last false) (<[k:=c-1]> m).

Inductive steps : state → list op → list out → state → Prop :=
| steps_nil m : steps m [] [] m
| steps_cons m o r m1 os rs m2 :
    step m o r m1 → steps m1 os rs m2 → steps m (o :: os) (r :: rs) m2.

(** What a caller may ask for in a state: groups have members, and a finish
    is for a group in use. *)
Definition legal (m : state) (o : op) : Prop :=
  match o with
  | Create n => 0 < n
  | Finish k => k = 0 ∨ is_Some (m !! k)
  end.

(** The same condition, decided on the representation. *)
Definition legal_in (g : group) (o : op) : bool :=
  match o with
  | Create n => 0 <? n
  | Finish k =>
      (k =? 0) ||
      match vget (groupCounts_ g) k with Ret c => 0 <? c | Err _ => false end
  end.

(** The implementation run on one operation, and on a sequence of them. *)
Definition exec (o : op) (g : group) : outcome (out * group) :=
  match o with
  | Create n => '(k, g') ← create n g; Ret (Key k, g')
  | Finish k => '(b, g') ← finish k g; Ret (Last b, g')
  end.

Fixpoint run (os : list op) (g : group) : outcome (list out * group) :=
  match os with
  | [] => Ret ([], g)
  | o :: os =>
      '(r, g) ← exec o g; '(rs, g) ← run os g; Ret (r :: rs, g)
  end.

(** The keys in use, read off the representation. *)
Definition refines (g : group) (m : state) : Prop :=
  wf g ∧ ∀ k c, m !! k = Some c ↔
    1 ≤ k ∧ 0 < c ∧ groupCounts_ g !! Z.to_nat k = Some c.

End GroupSpec.

Section group_proofs.
Import Group GroupSpec.

(** ** The loop and the resize of [increase] *)

Lemma increase_loop_spec fuel i bound keys :
  1 ≤ bound → 0 ≤ i < 2 ^ 64 → (i < Z.of_nat fuel)%Z →
  increase_loop fuel i bound keys = Ret (seqZ bound (i - bound + 1) ++ keys).
Proof.
  revert i keys. induction fuel as [|fuel IH]; intros i keys Hb Hi Hf; [lia|].
  cbn. destruct (Z.leb_spec bound i).
  - rewrite u64_small, IH by lia.
    replace (i - bound + 1) with (Z.of_nat (S (Z.to_nat (i - bound)))) by lia.
    replace (i - 1 - bound + 1) with (Z.of_nat (Z.to_nat (i - bound))) by lia.
    rewrite seqZ_S, <-(assoc_L (++)). cbn. do 3 f_equal. lia.
  - rewrite (seqZ_nil bound) by lia. done.
Qed.

Lemma increase_spec bound g :
  1 ≤ bound → 0 ≤ capacity_ g < 2 ^ 64 - 1 →
  increase bound g =
    Ret (mk_group (capacity_ g)
           (seqZ bound (capacity_ g - bound + 1) ++ groupKeys_ g)
           (vresize (groupCounts_ g) (capacity_ g + 1) 0)).
Proof.
  intros Hb Hc. unfold increase.
  rewrite increase_loop_spec, u64_small by lia. done.
Qed.

Lemma vresize_grow {A} (v : list A) n x :
  Z.of_nat (length v) ≤ n →
  vresize v n x = v ++ replicate (Z.to_nat n - length v) x.
Proof. intros. unfold vresize. apply resize_ge. lia. Qed.

(** Growing by fresh keys keeps the invariant. *)
Lemma grow_wf g cap :
  wf g → groupKeys_ g = [] → capacity_ g < cap < 2 ^ 64 - 1 →
  wf (mk_group cap (seqZ (capacity_ g + 1) (cap - capacity_ g))
        (vresize (groupCounts_ g) (cap + 1) 0)).
Proof.
  intros [Hcap Hlen Hz Hnn Hnd Hfree] Hk Hc.
  rewrite vresize_grow by lia.
  split; cbn; [lia|..].
  - rewrite length_app, length_replicate. lia.
  - by apply lookup_app_l_Some.
  - apply Forall_app; split; [done|]. apply Forall_replicate. lia.
  - apply NoDup_seqZ.
  - intros k. rewrite elem_of_seqZ.
    destruct (decide (k ≤ capacity_ g)).
    + split; [lia|]. intros [? Hl].
      rewrite lookup_app_l in Hl by lia.
      assert (k ∈ groupKeys_ g) as Hin by (apply Hfree; split; [lia|done]).
      rewrite Hk in Hin. set_solver.
    + rewrite lookup_app_r by lia. split; [|lia].
      intros. split; [lia|]. apply lookup_replicate. lia.
Qed.

Lemma Group_wf cap :
  1 ≤ cap < 2 ^ 64 - 1 →
  ∃ g, Group cap = Ret g ∧ wf g ∧ capacity_ g = cap ∧
    (∀ c, c ∈ groupCounts_ g → c = 0).
Proof.
  intros Hc. unfold Group. rewrite increase_spec by (cbn; lia).
  eexists; split; [done|]. cbn. rewrite app_nil_r, vresize_grow by (cbn; lia).
  cbn. rewrite Nat.sub_0_r.
  split; [|split; [done|]]; [split; cbn|].
  - lia.
  - rewrite length_replicate. lia.
  - apply lookup_replicate. lia.
  - apply Forall_replicate. lia.
  - apply NoDup_seqZ.
  - intros k. rewrite elem_of_seqZ, lookup_replicate. lia.
  - intros c ?%elem_of_replicate. naive_solver.
Qed.

(** ** Taking a key and counting one down *)

Lemma take_key_wf g k keys n :
  wf g → groupKeys_ g = k :: keys → 0 < n →
  wf (mk_group (capacity_ g) keys (<[Z.to_nat k := n]> (groupCounts_ g))).
Proof.
  intros [Hcap Hlen Hz Hnn Hnd Hfree] Hk Hn.
  assert (k ∈ groupKeys_ g) as [Hkr Hk0]%Hfree by (rewrite Hk; set_solver).
  rewrite Hk in Hnd. apply NoDup_cons in Hnd as [Hnin Hnd].
  split; cbn; [done|..|done|].
  - by rewrite length_insert.
  - rewrite list_lookup_insert_ne by lia. done.
  - apply Forall_insert; [done|lia].
  - intros k'. specialize (Hfree k'). rewrite Hk, elem_of_cons in Hfree.
    destruct (decide (k' = k)) as [->|Hne].
    + rewrite list_lookup_insert_eq by (apply lookup_lt_Some in Hk0; done).
      split; [done|]. intros [_ [= ->]]. lia.
    + split.
      * intros Hin. destruct Hfree as [Hf _].
        destruct Hf as [? ?]; [by right|].
        rewrite list_lookup_insert_ne by lia. done.
      * intros [? Hl]. rewrite list_lookup_insert_ne in Hl by lia.
        destruct Hfree as [_ [?|?]]; done.
Qed.

Lemma count_down_wf g k c keys :
  wf g → 1 ≤ k → groupCounts_ g !! Z.to_nat k = Some c → 0 < c →
  keys = (if decide (c = 1) then k :: groupKeys_ g else groupKeys_ g) →
  wf (mk_group (capacity_ g) keys (<[Z.to_nat k := c - 1]> (groupCounts_ g))).
Proof.
  intros [Hcap Hlen Hz Hnn Hnd Hfree] Hk Hl Hc ->.
  pose proof (lookup_lt_Some _ _ _ Hl).
  assert (k ∉ groupKeys_ g) as Hnin by (rewrite Hfree, Hl; naive_solver lia).
  split; cbn; [done|..].
  - by rewrite length_insert.
  - rewrite list_lookup_insert_ne by lia. done.
  - apply Forall_insert; [done|lia].
  - case_decide; [by apply NoDup_cons|done].
  - intros k'. destruct (decide (k' = k)) as [->|Hne].
    + rewrite list_lookup_insert_eq by done.
      case_decide; [subst; set_solver by lia|]. naive_solver lia.
    + assert (k' ∈ (if decide (c = 1) then k :: groupKeys_ g
                    else groupKeys_ g) ↔ k' ∈ groupKeys_ g) as ->.
      { case_decide; [|done]. rewrite elem_of_cons. naive_solver. }
      rewrite Hfree. split; intros [? ?]; (split; [done|]).
      * rewrite list_lookup_insert_ne by lia. done.
      * rewrite list_lookup_insert_ne in * by lia. done.
Qed.

(** ** The simulation *)

Lemma refines_init cap g : 
  1 ≤ cap < 2 ^ 64 - 1 → Group cap = Ret g → refines g ∅.
Proof.
  intros Hc Hg. destruct (Group_wf cap Hc) as (g' & Hg' & Hwf & _ & Hz).
  assert (g' = g) as -> by congruence. split; [done|].
  intros k c. rewrite lookup_empty. split; [done|].
  intros (_ & ? & Hl). apply list_elem_of_lookup_2, Hz in Hl. lia.
Qed.

(** A key that is free in the representation is free in the map. *)
Lemma refines_free g m k :
  refines g m → k ∈ groupKeys_ g → m !! k = None.
Proof.
  intros [Hwf Hm] Hin. apply (wf_free g Hwf) in Hin as [? Hl].
  destruct (m !! k) eqn:E; [|done]. apply Hm in E as (_&?&?). 
  naive_solver lia.
Qed.

(** Writing a count moves the map along. *)
Lemma refines_write g g' m k c :
  refines g m → wf g' → 1 ≤ k ≤ capacity_ g → 0 ≤ c →
  groupCounts_ g' = <[Z.to_nat k := c]> (groupCounts_ g) →
  refines g' (if decide (c = 0) then delete k m else <[k:=c]> m).
Proof.
  intros [Hwf Hm] Hwf' Hk Hc Heq. split; [done|]. rewrite Heq.
  pose proof (wf_len g Hwf). intros k' c'.
  destruct (decide (k' = k)) as [->|Hne].
  - rewrite list_lookup_insert_eq by lia.
    case_decide; simplify_map_eq; naive_solver lia.
  - destruct (decide (1 ≤ k')).
    + rewrite list_lookup_insert_ne by lia. rewrite <-Hm.
      case_decide; by simplify_map_eq.
    + split; [|lia]. intros Hl.
      assert (m !! k' = Some c') as ?%Hm by (case_decide; by simplify_map_eq).
      lia.
Qed.

Lemma create_pop g m k keys n :
  refines g m → groupKeys_ g = k :: keys → 0 < n →
  let g' := mk_group (capacity_ g) keys (<[Z.to_nat k := n]> (groupCounts_ g)) in
  vset (groupCounts_ g) k n = Ret (groupCounts_ g') ∧ 1 ≤ k ∧
  m !! k = None ∧ refines g' (<[k:=n]> m).
Proof.
  intros Hr Hk Hn g'. pose proof Hr as [Hwf _].
  assert (k ∈ groupKeys_ g) as Hin by (rewrite Hk; set_solver).
  pose proof (refines_free _ _ _ Hr Hin).
  apply (wf_free g Hwf) in Hin as [? ?]. pose proof (wf_len g Hwf).
  split_and!; [|lia|done|].
  - apply vset_ret. split; [lia|done].
  - pose proof (refines_write g g' m k n) as Hw.
    rewrite decide_False in Hw by lia. apply Hw; [done| |lia|lia|done].
    by apply take_key_wf.
Qed.

(** The first lines of [create]: afterwards there is a key to take. *)
Lemma refill_spec g m :
  refines g m → capacity_ g < 2 ^ 62 →
  ∃ g1, (if decide (groupKeys_ g = [])
         then increase (Z.of_nat (length (groupCounts_ g)))
                (mk_group (u64 (capacity_ g * 2)) (groupKeys_ g) (groupCounts_ g))
         else Ret g) = Ret g1 ∧
    refines g1 m ∧ groupKeys_ g1 ≠ [] ∧ capacity_ g1 ≤ 2 * capacity_ g.
Proof.
  intros Hr Hc. pose proof Hr as [Hwf Hm].
  pose proof (wf_cap g Hwf). pose proof (wf_len g Hwf) as Hlen.
  case_decide as He; [|eexists; split_and!; [done..|lia]].
  rewrite u64_small, increase_spec by (cbn; lia). cbn. rewrite He, app_nil_r, Hlen.
  replace (capacity_ g * 2 - (capacity_ g + 1) + 1)
    with (capacity_ g * 2 - capacity_ g) by lia.
  eexists; split; [done|]. split_and!; cbn; [|rewrite seqZ_cons by lia; done|lia].
  split; [apply grow_wf; [done|done|lia]|]. intros k c. cbn.
  rewrite vresize_grow, Hm by lia. split; intros (?&?&Hl); split_and!; [done..| |done|done|].
  - by apply lookup_app_l_Some.
  - apply lookup_app_Some in Hl as [?|[? Hl]]; [done|].
    apply lookup_replicate in Hl. lia.
Qed.

Lemma create_refines g m n :
  refines g m → 0 < n → capacity_ g < 2 ^ 62 →
  ∃ k g', create n g = Ret (k, g') ∧ step m (Create n) (Key k) (<[k:=n]> m) ∧
    refines g' (<[k:=n]> m) ∧ capacity_ g' ≤ 2 * capacity_ g.
Proof.
  intros Hr Hn Hc. unfold create.
  destruct (refill_spec g m Hr Hc) as (g1 & -> & Hr1 & Hne & Hcap). cbn.
  rewrite (proj2 (Z.ltb_lt 0 n)) by done. cbn.
  destruct (groupKeys_ g1) as [|k keys] eqn:Hk; [done|].
  destruct (create_pop g1 m k keys n Hr1 Hk Hn) as (-> & Hk1 & Hfree & Hr').
  eexists _, _. split; [done|]. split; [by constructor|]. by split.
Qed.

Lemma finish_refines g m k :
  refines g m → legal m (Finish k) →
  ∃ b g' m', finish k g = Ret (b, g') ∧ step m (Finish k) (Last b) m' ∧
    refines g' m' ∧ capacity_ g' = capacity_ g.
Proof.
  intros Hr Hl. pose proof Hr as [Hwf Hm]. unfold finish.
  destruct (Z.eqb_spec k 0) as [->|Hk0].
  { eexists _, _, _. split; [done|]. split; [constructor|done]. }
  destruct Hl as [?|[c Hc]]; [done|].
  pose proof Hc as (Hk1 & Hc0 & Hlk)%Hm.
  pose proof (lookup_lt_Some _ _ _ Hlk). pose proof (wf_len g Hwf).
  rewrite (proj2 (vget_ret (groupCounts_ g) k c)) by (split; [lia|done]). cbn.
  rewrite (proj2 (Z.ltb_lt 0 c)) by done. cbn.
  rewrite (proj2 (vset_ret (groupCounts_ g) _ k (c - 1))) by (split; [lia|done]). cbn.
  pose proof (count_down_wf g k c _ Hwf Hk1 Hlk Hc0 eq_refl) as Hwf'.
  assert (1 ≤ k ≤ capacity_ g) as Hkr by lia.
  assert (0 ≤ c - 1) as Hc1 by lia.
  pose proof (refines_write g _ m k (c - 1) Hr Hwf' Hkr Hc1 eq_refl) as Hr'.
  destruct (Z.leb_spec (c - 1) 0).
  - assert (c = 1) as -> by lia.
    rewrite !decide_True in Hr' by done.
    eexists _, _, _. split; [done|]. split; [|split; [exact Hr'|done]].
    by constructor.
  - rewrite !decide_False in Hr' by lia.
    eexists _, _, _. split; [done|]. split; [|split; [exact Hr'|done]].
    econstructor; [done..|lia].
Qed.

(** The capacity leaves room for [n] more doublings. *)
Definition room (g : group) (n : nat) : Prop :=
  capacity_ g * 2 ^ Z.of_nat n < 2 ^ 62.

Lemma room_S g n : wf g → room g (S n) → capacity_ g < 2 ^ 62.
Proof.
  intros Hwf. pose proof (wf_cap g Hwf). unfold room.
  rewrite Nat2Z.inj_succ, Z.pow_succ_r by lia.
  pose proof (Z.pow_pos_nonneg 2 (Z.of_nat n)). nia.
Qed.

Lemma room_step g g' n :
  room g (S n) → 0 ≤ capacity_ g' ≤ 2 * capacity_ g → room g' n.
Proof.
  unfold room. rewrite Nat2Z.inj_succ, Z.pow_succ_r by lia.
  pose proof (Z.pow_pos_nonneg 2 (Z.of_nat n)). nia.
Qed.

Lemma exec_refines g m o n :
  refines g m → legal m o → room g (S n) →
  ∃ r g' m', exec o g = Ret (r, g') ∧ step m o r m' ∧ refines g' m' ∧ room g' n.
Proof.
  intros Hr Hl Hroom. pose proof Hr as [Hwf _]. pose proof (wf_cap g Hwf).
  destruct o as [s|k]; cbn.
  - destruct (create_refines g m s Hr Hl (room_S g n Hwf Hroom))
      as (k & g' & -> & Hs & Hr' & Hc). cbn.
    pose proof Hr' as [Hwf' _]. pose proof (wf_cap g' Hwf').
    eexists _, _, _. split_and!; [done..|]. eapply room_step; [done|lia].
  - destruct (finish_refines g m k Hr Hl) as (b & g' & m' & -> & Hs & Hr' & Hc).
    cbn. eexists _, _, _. split_and!; [done..|].
    eapply room_step; [done|lia].
Qed.

(** The calls of [os], made one after the other on [g], are all legal. *)
Fixpoint legal_run (g : group) (os : list op) : bool :=
  match os with
  | [] => true
  | o :: os =>
      legal_in g o &&
      match exec o g with Ret (_, g') => legal_run g' os | Err _ => false end
  end.

Lemma legal_in_spec g m o : refines g m → legal_in g o = true → legal m o.
Proof.
  intros [Hwf Hm]. destruct o as [n|k]; cbn; [lia|].
  destruct (Z.eqb_spec k 0); [by left|]. cbn.
  destruct (vget (groupCounts_ g) k) as [c|] eqn:E; [|done]. intros Hc.
  apply vget_ret in E as [? E]. right. exists c. apply Hm. split_and!; [lia..|done].
Qed.

(** Simulation: on every sequence of calls a client may make, however the
    calls of different groups interleave, the class returns, and returns what
    the contract allows: fresh keys from create, and true from finish exactly
    for the last member of a group. *)
Theorem group_run_refines os g m :
  refines g m → legal_run g os = true → room g (length os) →
  ∃ rs g' m', run os g = Ret (rs, g') ∧ steps m os rs m' ∧ refines g' m'.
Proof.
  revert g m. induction os as [|o os IH]; intros g m Hr Hl Hroom; cbn.
  - eexists _, _, _. split_and!; [done|constructor|done].
  - apply andb_prop in Hl as [Ho Hos]. apply (legal_in_spec g m o Hr) in Ho.
    destruct (exec_refines g m o _ Hr Ho Hroom)
      as (r & g1 & m1 & He & Hs & Hr1 & Hroom1). rewrite He in Hos |- *. cbn.
    destruct (IH g1 m1 Hr1 Hos Hroom1) as (rs & g2 & m2 & -> & Hss & Hr2).
    eexists _, _, _. split_and!; [done|by econstructor|done].
Qed.

(** The free keys and the keys in use together are [1 .. capacity]. *)
Lemma free_plus_used g m :
  refines g m → Z.of_nat (length (groupKeys_ g) + size m) = capacity_ g.
Proof.
  intros Hr. pose proof Hr as [Hwf Hm]. pose proof (wf_cap g Hwf).
  rewrite <-(size_list_to_set (C:=gset Z) (groupKeys_ g)) by apply (wf_nodup g Hwf).
  rewrite <-(size_dom m), <-size_union.
  - assert (list_to_set (groupKeys_ g) ∪ dom m =
             list_to_set (C:=gset Z) (seqZ 1 (capacity_ g))) as ->.
    { apply set_eq. intros k.
      rewrite elem_of_union, !elem_of_list_to_set, elem_of_dom, elem_of_seqZ.
      rewrite (wf_free g Hwf). split.
      - intros [[? _]|[c (?&?&Hl)%Hm]]; [lia|].
        apply lookup_lt_Some in Hl. pose proof (wf_len g Hwf). lia.
      - intros Hk. destruct (lookup_lt_is_Some_2 (groupCounts_ g) (Z.to_nat k))
          as [c Hc]; [pose proof (wf_len g Hwf); lia|].
        pose proof (Forall_lookup_1 _ _ _ _ (wf_nonneg g Hwf) Hc) as Hc0. cbn in Hc0.
        destruct (decide (c = 0)) as [->|]; [left; split; [lia|done]|].
        right. exists c. apply Hm. split_and!; [lia|lia|done]. }
    rewrite size_list_to_set by apply NoDup_seqZ. rewrite length_seqZ. lia.
  - intros k. rewrite elem_of_list_to_set, elem_of_dom.
    intros Hf [c Hc]. rewrite (refines_free g m k Hr Hf) in Hc. done.
Qed.

(** [count] is the number of groups in use. *)
Theorem group_count_used g m : refines g m → count g = Z.of_nat (size m).
Proof.
  intros Hr. pose proof (free_plus_used g m Hr). pose proof Hr as [Hwf _].
  pose proof (wf_cap g Hwf). unfold count. rewrite u64_small; lia.
Qed.

(** The scenario of GroupTest.cpp with capacity 2: three groups, the third
    needs the capacity to double, their finishes interleaved. *)
Definition demo_ops : list op :=
  [Create 1; Create 2; Create 2; Finish 2; Finish 3; Finish 1; Finish 2; Finish 3].

Definition demo_group : group := mk_group 2 [1; 2] [0; 0; 0].

Lemma demo_refines : refines demo_group ∅.
Proof. by apply (refines_init 2). Qed.

Lemma group_run_refines_witness :
  ∃ rs g' m', run demo_ops demo_group = Ret (rs, g') ∧
    steps ∅ demo_ops rs m' ∧ refines g' m'.
Proof.
  apply (group_run_refines demo_ops demo_group ∅).
  - exact demo_refines.
  - reflexivity.
  - vm_compute. reflexivity.
Defined.

Lemma group_count_used_witness : count demo_group = Z.of_nat (size (∅ : state)).
Proof. apply (group_count_used demo_group ∅). exact demo_refines. Defined.
End group_proofs.
