(* ===== verification/Countdown.v ===== *)
(** The argument that hasCycle and the scheduling of DAG.h share: a finite
    graph in which every node counts the edges into it that have not been used
    yet, and joins a list of "reached" nodes when its count comes to zero.
    Nothing here is about C++; Dag.v instantiates it twice. *)
From S2P Require Import Prelude.

(** Occurrences of [b] in a list of keys. *)
Abbreviation occ b l := (count_occ Nat.eq_dec l b).

Lemma occ_zero b l : occ b l = 0%nat ↔ b ∉ l.
Proof. rewrite list_elem_of_In. symmetry. apply count_occ_not_In. Qed.

Lemma occ_pos b l : b ∈ l → (1 ≤ occ b l)%nat.
Proof. rewrite list_elem_of_In, (count_occ_In Nat.eq_dec). lia. Qed.

Lemma occ_le_length b l : (occ b l ≤ length l)%nat.
Proof. induction l as [|x l IH]; cbn; [lia|]. destruct Nat.eq_dec; lia. Qed.

Lemma occ_cons b x l : occ b (x :: l) = ((if decide (x = b) then 1 else 0) + occ b l)%nat.
Proof. cbn. destruct Nat.eq_dec; case_decide; done || lia. Qed.

(** Nodes below [n], each with a predecessor of the same kind under [R],
    contain a cycle of [R]: the backward walk must come around. *)
Section walks.
Context (R : relation nat) (m : nat).

Lemma back_walk (Q : nat → Prop) b :
  (∀ b, Q b → ∃ a, Q a ∧ R a b) → Q b →
  ∀ k, ∃ l, length l = S k ∧ (∀ x, x ∈ l → Q x) ∧
    ∀ i x y, l !! i = Some x → l !! S i = Some y → R x y.
Proof.
  intros Hpred Hb. induction k as [|k (l & Hlen & HQ & Hl)].
  - exists [b]. split_and!; [done|set_solver|]. intros [|?]; done.
  - destruct l as [|x l]; [done|].
    destruct (Hpred x) as (a & Ha & Hax); [set_solver|].
    exists (a :: x :: l). split_and!; [cbn in *; lia|set_solver|].
    intros [|i] y z; cbn; [intros; by simplify_eq|]. apply (Hl i).
Qed.

Lemma walk_tc (l : list nat) i j x y :
  (∀ i x y, l !! i = Some x → l !! S i = Some y → R x y) →
  l !! i = Some x → l !! (S (i + j))%nat = Some y → tc R x y.
Proof.
  intros Hl. revert i x. induction j as [|j IH]; intros i x Hx Hy.
  - rewrite Nat.add_0_r in Hy. apply tc_once. by apply (Hl i).
  - destruct (lookup_lt_is_Some_2 l (S i)) as [z Hz].
    { apply lookup_lt_Some in Hy. lia. }
    apply tc_l with z; [by apply (Hl i)|]. apply (IH (S i)); [done|].
    rewrite <-Hy. f_equal. lia.
Qed.

Lemma no_start_cyclic (Q : nat → Prop) b :
  (∀ b, Q b → ∃ a, Q a ∧ R a b) → (∀ b, Q b → (b < m)%nat) → Q b → ∃ x, tc R x x.
Proof.
  intros Hpred Hn Hb. destruct (back_walk Q b Hpred Hb m) as (l & Hlen & HQ & Hl).
  destruct (finite.list_pigeonhole l (seq 0 m)) as (i & j & x & Hij & Hi & Hj).
  - intros x Hx%HQ%Hn. apply elem_of_seq. lia.
  - rewrite length_seq. lia.
  - exists x. apply (walk_tc l i (j - i - 1) x x Hl Hi). rewrite <-Hj. f_equal. lia.
Qed.
End walks.

Lemma tc_flip (R : relation nat) x y : tc (flip R) x y → tc R y x.
Proof. induction 1 as [x y H|x z y H _ IH]; [by apply tc_once|by eapply tc_r]. Qed.

Section counts.
Context (n : nat).

(** Edges into [b] among the remaining edges [rem]. *)
Definition cnt (rem : nat → list nat) (b : nat) : nat :=
  sum_list_with (fun a => occ b (rem a)) (seq 0 n).

Definition upd (rem : nat → list nat) (i : nat) (l : list nat) (a : nat) : list nat :=
  if decide (a = i) then l else rem a.

Lemma upd_eq rem i l : upd rem i l i = l.
Proof. unfold upd. by rewrite decide_True. Qed.
Lemma upd_ne rem i l a : a ≠ i → upd rem i l a = rem a.
Proof. intros. unfold upd. by rewrite decide_False. Qed.

Lemma sum_with_upd (f g : nat → nat) i l :
  NoDup l → i ∈ l → (∀ a, a ≠ i → f a = g a) →
  (sum_list_with f l + g i = sum_list_with g l + f i)%nat.
Proof.
  intros Hnd Hin Hfg. induction Hnd as [|x l Hx Hnd IH]; [set_solver|].
  cbn. apply elem_of_cons in Hin as [->|Hin].
  - assert (sum_list_with f l = sum_list_with g l) as ->; [|lia].
    clear -Hx Hfg. induction l as [|y l IH]; [done|]. cbn.
    rewrite Hfg, IH by set_solver. done.
  - rewrite (Hfg x) by set_solver. specialize (IH Hin). lia.
Qed.

Lemma cnt_upd rem i l b :
  (i < n)%nat → (cnt (upd rem i l) b + occ b (rem i) = cnt rem b + occ b l)%nat.
Proof.
  intros Hi. unfold cnt.
  pose proof (sum_with_upd (fun a => occ b (upd rem i l a))
                (fun a => occ b (rem a)) i (seq 0 n)) as H.
  cbn beta in H. rewrite upd_eq in H. apply H.
  - apply NoDup_seq.
  - apply elem_of_seq. lia.
  - intros a Ha. by rewrite upd_ne.
Qed.

Lemma cnt_ext rem rem' b :
  (∀ a, (a < n)%nat → occ b (rem a) = occ b (rem' a)) → cnt rem b = cnt rem' b.
Proof.
  intros Hext. unfold cnt. assert (∀ a, a ∈ seq 0 n → occ b (rem a) = occ b (rem' a))
    as H by (intros a ?%elem_of_seq; apply Hext; lia).
  clear Hext. induction (seq 0 n) as [|x l IH]; cbn; [done|].
  rewrite H, IH by set_solver. done.
Qed.

Lemma cnt_zero rem b : cnt rem b = 0%nat ↔ ∀ a, (a < n)%nat → b ∉ rem a.
Proof.
  unfold cnt. setoid_rewrite <-occ_zero.
  assert (∀ l, sum_list_with (fun a => occ b (rem a)) l = 0%nat ↔
            ∀ a, a ∈ l → occ b (rem a) = 0%nat) as H.
  { induction l as [|x l IH]; cbn; [set_solver|].
    rewrite Nat.eq_add_0, IH. set_solver. }
  rewrite H. setoid_rewrite elem_of_seq. split; intros Hall a ?; apply Hall; lia.
Qed.

End counts.

Section graph.
Context (n : nat) (nx : nat → list nat).

Definition edge (a b : nat) : Prop := (a < n)%nat ∧ b ∈ nx a.
Definition cyclic : Prop := ∃ a, tc edge a a.
Definition closed : Prop := ∀ a b, edge a b → (b < n)%nat.

Abbreviation cnt := (cnt n).

Lemma cnt_le_total b :
  (cnt nx b ≤ sum_list_with (fun a => length (nx a)) (seq 0 n))%nat.
Proof.
  unfold cnt. induction (seq 0 n) as [|x l IH]; cbn; [lia|].
  pose proof (occ_le_length b (nx x)). lia.
Qed.

(** ** Orders *)

(** Every node of the list comes before (the list is latest first) all the
    nodes with an edge into it. *)
Fixpoint topo (E : list nat) : Prop :=
  match E with
  | [] => True
  | b :: E => (∀ a, edge a b → a ∈ E) ∧ topo E
  end.

Lemma topo_app E1 E2 : topo (E1 ++ E2) → topo E2.
Proof. induction E1; cbn; [done|tauto]. Qed.

Lemma topo_tc E1 b E2 a :
  topo (E1 ++ b :: E2) → tc edge a b → a ∈ E2.
Proof.
  intros Ht Htc. revert E1 E2 Ht. induction Htc as [a b H|a c b H Htc IH]; intros E1 E2 Ht.
  - apply topo_app in Ht as [Hb _]. by apply Hb.
  - pose proof (IH _ _ Ht) as (F1 & F2 & ->)%list_elem_of_split.
    apply topo_app in Ht as [_ Ht]. apply topo_app in Ht as [Hc _].
    apply elem_of_app; right. apply elem_of_cons; right. by apply Hc.
Qed.

Lemma topo_acyclic E b : NoDup E → topo E → b ∈ E → ¬ tc edge b b.
Proof.
  intros Hnd Ht (E1 & E2 & ->)%list_elem_of_split Htc.
  apply (topo_tc _ _ _ _ Ht) in Htc.
  apply NoDup_app in Hnd as (_ & _ & [? _]%NoDup_cons). done.
Qed.

(** Some node has no successor, unless the graph is cyclic or empty. *)
Lemma acyclic_leaf : ¬ cyclic → closed → (0 < n)%nat → ∃ a, (a < n)%nat ∧ nx a = [].
Proof.
  intros Hac Hcl Hn.
  destruct (decide (Exists (fun a => nx a = []) (seq 0 n))) as [Hex|Hno].
  - apply Exists_exists in Hex as (a & Ha%elem_of_seq & ?). exists a. split; [lia|done].
  - contradict Hac.
    destruct (no_start_cyclic (flip edge) n (fun b => b < n)%nat 0) as [x Hx]; [|done|done|].
    + intros b Hb. destruct (nx b) as [|c l] eqn:Hnx.
      * contradict Hno. apply Exists_exists. exists b. split; [apply elem_of_seq; lia|done].
      * exists c. assert (edge b c) as He by (split; [done|rewrite Hnx; set_solver]).
        split; [by eapply Hcl|done].
    + exists x. by apply tc_flip.
Qed.

(** In a complete order the latest node has no successor. *)
Lemma topo_head x E : NoDup (x :: E) → topo (x :: E) → ¬ cyclic →
  ∀ y, edge x y → y ∉ x :: E.
Proof.
  intros [Hx Hnd]%NoDup_cons [Hpx Ht] Hac y Hxy [->|Hy]%elem_of_cons.
  - apply Hac. exists x. by apply tc_once.
  - apply list_elem_of_split in Hy as (E1 & E2 & ->).
    apply topo_app in Ht as [Hp _]. apply Hx. specialize (Hp x Hxy). set_solver.
Qed.

(** ** The invariant of a countdown *)

(** [E]: the nodes reached, latest first; [rem]: the edges not used yet. *)
Record inv (E : list nat) (rem : nat → list nat) : Prop := {
  inv_nodup : NoDup E;
  inv_lt : ∀ b, b ∈ E → (b < n)%nat;
  inv_zero : ∀ b, (b < n)%nat → b ∈ E ↔ cnt rem b = 0%nat;
  inv_full : ∀ a, a ∉ E → rem a = nx a;
  inv_topo : topo E
}.

Lemma inv_length_le E rem : inv E rem → (length E ≤ n)%nat.
Proof.
  intros Hinv. rewrite <-(length_seq n 0).
  apply submseteq_length, NoDup_submseteq; [by eapply inv_nodup|].
  intros b Hb. apply elem_of_seq. pose proof (inv_lt _ _ Hinv b Hb). lia.
Qed.

(** Using one edge of a node already reached. *)
Lemma inv_use E rem i key l :
  inv E rem → i ∈ E → rem i = key :: l → (key < n)%nat →
  (cnt (upd rem i l) key + 1 = cnt rem key)%nat ∧
  (cnt (upd rem i l) key = 0%nat → key ∉ E ∧ inv (key :: E) (upd rem i l)) ∧
  (cnt (upd rem i l) key ≠ 0%nat → inv E (upd rem i l)).
Proof.
  intros Hinv Hi Hrem Hkey. destruct Hinv as [Hnd Hlt Hz Hfull Htopo].
  pose proof (Hlt i Hi) as Hin.
  assert (∀ b, (cnt (upd rem i l) b + (if decide (key = b) then 1 else 0)
                = cnt rem b)%nat) as Hcnt.
  { intros b. pose proof (cnt_upd n rem i l b Hin) as H.
    rewrite Hrem, occ_cons in H. lia. }
  pose proof (Hcnt key) as Hk. rewrite decide_True in Hk by done.
  assert (key ∉ E) as HkE by (rewrite (Hz key Hkey); lia).
  assert (∀ a, a ∉ E → upd rem i l a = nx a) as Hfull'.
  { intros a Ha. rewrite upd_ne by (intros ->; done). by apply Hfull. }
  split; [done|]. split.
  - intros H0. split; [done|]. split.
    + by apply NoDup_cons.
    + set_solver.
    + intros b Hb. specialize (Hcnt b). rewrite elem_of_cons, (Hz b Hb).
      case_decide; [subst; naive_solver|]. naive_solver lia.
    + intros a Ha. apply Hfull'. set_solver.
    + cbn. split; [|done]. intros a [Ha Hab].
      destruct (decide (a ∈ E)) as [|Hna]; [done|].
      pose proof (proj1 (cnt_zero n _ key) H0 a Ha) as Hno.
      rewrite Hfull' in Hno by done. done.
  - intros H0. split; try done.
    intros b Hb. specialize (Hcnt b). rewrite (Hz b Hb).
    case_decide; [subst; lia|]. lia.
Qed.

Lemma inv_ext E rem rem' :
  (∀ a, (a < n)%nat → rem a ≡ₚ rem' a) → (∀ a, a ∉ E → rem a = rem' a) →
  inv E rem → inv E rem'.
Proof.
  intros Hp Heq [Hnd Hlt Hz Hfull Htopo]. split; try done.
  - intros b Hb. rewrite (Hz b Hb). f_equiv. apply cnt_ext. intros a Ha.
    by apply Permutation_count_occ, Hp.
  - intros a Ha. rewrite <-Heq by done. by apply Hfull.
Qed.

(** When the reached nodes have no unused edges, either every node has been
    reached or the graph has a cycle. *)
Lemma inv_stuck E rem b :
  inv E rem → (∀ a, a ∈ E → rem a = []) → (b < n)%nat → b ∉ E → cyclic.
Proof.
  intros Hinv Hdone Hb HbE.
  apply (no_start_cyclic edge n (fun b => (b < n)%nat ∧ b ∉ E) b); [|tauto|done].
  clear b Hb HbE. intros b [Hb HbE].
  destruct Hinv as [Hnd Hlt Hz Hfull Htopo].
  destruct (decide (Exists (fun a => b ∈ rem a) (seq 0 n))) as [Hex|Hno].
  - apply Exists_exists in Hex as (a & Ha%elem_of_seq & Hab).
    assert (a ∉ E) as HaE by (intros Hin; rewrite (Hdone a Hin) in Hab; set_solver).
    exists a. split; [split; [lia|done]|]. split; [lia|]. by rewrite <-Hfull.
  - contradict HbE. apply (Hz b Hb). apply cnt_zero. intros a Ha Hab.
    apply Hno, Exists_exists. exists a. split; [apply elem_of_seq; lia|done].
Qed.
End graph.
