(* ===== verification/Dag.v ===== *)
(** raster/parallel/DAG.h, with the parts of raster/coroutine/Executor.h it
    drives: the dependency graph of jobs.

    [Module Dag] is the class: nodes added with their executor, edges added by
    [dependency], the cycle test of [hasCycle], the source and sink added by
    [go], and the scheduling that counts every node's [waitCount] down and runs
    a node when it reaches zero, as class [DAG] does it: recursively, on
    the caller's stack. Scheduler.v has the [ActorDAG] of Scheduler.h, whose jobs
    are queued as fibers. *)
From S2P Require Import Prelude.

Module Dag.

(** What an executor's list of schedule functions holds: the bound
    [DAG::schedule(this, key)] of [DAG::add], or a function of somebody else. *)
Inductive closure := ScheduleNode (key : nat) | Other (tag : nat).

(** The lists of class [Executor], by executor. *)
Record executor := mk_executor {
  callbacks_ : list closure;
  schedules_ : list closure
}.
Definition no_executor : executor := mk_executor [] [].

Record node := mk_node {
  nexec : option nat;       (* ExecutorPtr; None is nullptr *)
  nexts : list nat;
  hasPrev : bool;
  waitCount : Z             (* std::atomic<size_t> *)
}.

(** What running the graph shows outside. *)
Inductive event := Run (e : nat) | Call (tag : nat).

(** The graph, the executors it shares with its clients, and what has
    happened, latest first. *)
Record dag := mk_dag {
  nodes_ : list node;
  execs : gmap nat executor;
  trace : list event
}.
Definition set_nodes (ns : list node) (d : dag) : dag :=
  mk_dag ns (execs d) (trace d).
Definition log (ev : event) (d : dag) : dag :=
  mk_dag (nodes_ d) (execs d) (ev :: trace d).
Definition executor_of (d : dag) (e : nat) : executor :=
  default no_executor (execs d !! e).

Definition size (d : dag) : nat := length (nodes_ d).
Definition empty (d : dag) : bool := bool_decide (nodes_ d = []).

(** [Executor::addSchedule]. *)
Definition addSchedule (e : nat) (f : closure) (d : dag) : dag :=
  let x := executor_of d e in
  mk_dag (nodes_ d)
    (<[e := mk_executor (callbacks_ x) (schedules_ x ++ [f])]> (execs d)) (trace d).

(** [Executor::addCallback]. *)
Definition addCallback (e : nat) (f : closure) (d : dag) : dag :=
  let x := executor_of d e in
  mk_dag (nodes_ d)
    (<[e := mk_executor (callbacks_ x ++ [f]) (schedules_ x)]> (execs d)) (trace d).

Definition addNode (e : option nat) (d : dag) : nat * dag :=
  (size d, set_nodes (nodes_ d ++ [mk_node e [] false 0]) d).

Definition add (e : nat) (d : dag) : nat * dag :=
  addNode (Some e) (addSchedule e (ScheduleNode (size d)) d).

Definition push_next (b : nat) (n : node) : node :=
  mk_node (nexec n) (nexts n ++ [b]) (hasPrev n) (waitCount n).
Definition add_prev (n : node) : node :=
  mk_node (nexec n) (nexts n) true (u64 (waitCount n + 1)).

(** a -> b; both keys must be keys of nodes. *)
Definition dependency (a b : nat) (d : dag) : outcome dag :=
  if (a <? size d)%nat && (b <? size d)%nat
  then Ret (set_nodes (alter add_prev b (alter (push_next b) a (nodes_ d))) d)
  else Err Undefined.

(** ** hasCycle: remove the edges out of nodes without incoming ones *)

(** One edge list being popped from the back: [--targets[next]], and the node
    is pushed when it was its last incoming edge. *)
Fixpoint drain (edges : list nat) (targets : list Z) (keys : list nat)
    : outcome (list Z * list nat) :=
  match edges with
  | [] => Ret (targets, keys)
  | next :: edges =>
      t ← of_option Undefined (targets !! next);
      let t := u64 (t - 1) in
      drain edges (<[next := t]> targets)
        (if t =? 0 then next :: keys else keys)
  end.

(** while (!keys.empty()); [keys] is the vector with its back first. *)
Fixpoint drain_all (fuel : nat) (nx : list (list nat)) (targets : list Z)
    (keys : list nat) : outcome (list (list nat)) :=
  match fuel with
  | O => Err OutOfFuel
  | S fuel =>
      match keys with
      | [] => Ret nx
      | key :: keys =>
          edges ← of_option Undefined (nx !! key);
          '(targets, keys) ← drain (rev edges) targets keys;
          drain_all fuel (<[key := []]> nx) targets keys
      end
  end.

(** targets[key]++ for every edge. *)
Fixpoint count_targets (edges : list nat) (targets : list Z) : outcome (list Z) :=
  match edges with
  | [] => Ret targets
  | key :: edges =>
      t ← of_option Undefined (targets !! key);
      count_targets edges (<[key := u64 (t + 1)]> targets)
  end.

(** The keys of the nodes for which [p] holds, in the order of the keys. *)
Definition keys_where (p : node → bool) (ns : list node) : list nat :=
  List.filter (fun key => match ns !! key with Some n => p n | None => false end)
    (seq 0 (length ns)).

Definition rootNodes (d : dag) : list nat := keys_where (fun n => negb (hasPrev n)) (nodes_ d).
Definition leafNodes (d : dag) : list nat :=
  keys_where (fun n => bool_decide (nexts n = [])) (nodes_ d).

Definition hasCycle (d : dag) : outcome bool :=
  let nx := nexts <$> nodes_ d in
  targets ← count_targets (concat nx) (replicate (size d) 0);
  nx ← drain_all (S (size d)) nx targets (rev (rootNodes d));
  Ret (existsb (fun edges => negb (bool_decide (edges = []))) nx).

(** ** go: close the graph with a source and a sink *)

Fixpoint dependencies (es : list (nat * nat)) (d : dag) : outcome dag :=
  match es with
  | [] => Ret d
  | (a, b) :: es => d ← dependency a b d; dependencies es d
  end.

Definition go (e : nat) (d : dag) : outcome (nat * dag) :=
  c ← hasCycle d;
  if c : bool then Err (Thrown "Cycle in DAG graph") else
  let roots := rootNodes d in
  let leaves := leafNodes d in
  let '(sourceKey, d) := addNode None d in
  d ← dependencies (pair sourceKey <$> roots) d;
  let '(sinkKey, d) := addNode (Some e) d in
  d ← dependencies ((fun key => (key, sinkKey)) <$> leaves) d;
  Ret (sourceKey, d).

(** ** Scheduling *)

(** [--nodes_[key].waitCount], with its new value. *)
Definition decrement (key : nat) (d : dag) : outcome (Z * node * dag) :=
  n ← of_option Undefined (nodes_ d !! key);
  let w := u64 (waitCount n - 1) in
  Ret (w, n, set_nodes (<[key := mk_node (nexec n) (nexts n) (hasPrev n) w]> (nodes_ d)) d).

Section run.
Variable schedule : nat → dag → outcome dag.

(** for (auto& f : callbacks_) f(); *)
Fixpoint call_all (fs : list closure) (d : dag) : outcome dag :=
  match fs with
  | [] => Ret d
  | ScheduleNode key :: fs => d ← schedule key d; call_all fs d
  | Other tag :: fs => call_all fs (log (Call tag) d)
  end.

(** [DAG::execute]: run, callback, schedule; a null executor is not one. *)
Definition execute (e : option nat) (d : dag) : outcome dag :=
  match e with
  | None => Err Undefined
  | Some e =>
      let d := log (Run e) d in
      d ← call_all (callbacks_ (executor_of d e)) d;
      call_all (schedules_ (executor_of d e)) d
  end.

Fixpoint schedule_nexts (keys : list nat) (d : dag) : outcome dag :=
  match keys with
  | [] => Ret d
  | key :: keys =>
      '(w, n, d) ← decrement key d;
      d ← (if w =? 0 then execute (nexec n) d else Ret d);
      schedule_nexts keys d
  end.
End run.

(** [DAG::schedule]; the fuel bounds the depth of the recursion. *)
Fixpoint schedule (fuel : nat) (i : nat) (d : dag) : outcome dag :=
  match fuel with
  | O => Err OutOfFuel
  | S fuel =>
      n ← of_option Undefined (nodes_ d !! i);
      schedule_nexts (schedule fuel) (nexts n) d
  end.

End Dag.

(** The graph of DAGTest.cpp. *)
Definition test_dag : outcome Dag.dag :=
  let d := Dag.mk_dag [] ∅ [] in
  let d := (Dag.add 4 (Dag.add 3 (Dag.add 2 (Dag.add 1 (Dag.add 0 d).2).2).2).2).2 in
  Dag.dependencies [(0,3); (1,3); (2,4); (3,4)]%nat d.
Example test_run :
  (d ← test_dag; '(s, d) ← Dag.go 5 d; d ← Dag.schedule 8 s d; Ret (rev (Dag.trace d)))
  = Ret (Dag.Run <$> [0; 1; 3; 2; 4; 5]%nat).
Proof. vm_compute. reflexivity. Qed.
