(* ===== verification/DagFacts.v ===== *)
(** Theorems on DAG.h: the cycle test decides acyclicity, and a run of the
    closed graph executes every job once, in an order that respects every
    dependency, the sink last. *)
From S2P Require Import Prelude Countdown Dag.

Section dag_facts.
Import Dag.

(** The out-edges of a key. *)
Definition nx (d : dag) (a : nat) : list nat :=
  match nodes_ d !! a with Some n => nexts n | None => [] end.

Definition total (d : dag) : nat := sum_list_with (fun a => length (nx d a)) (seq 0 (size d)).

(** What [add] and [dependency] maintain. *)
Record wf (d : dag) : Prop := {
  wf_closed : closed (size d) (nx d);
  wf_wait : ∀ b n, nodes_ d !! b = Some n →
    waitCount n = Z.of_nat (cnt (size d) (nx d) b);
  wf_prev : ∀ b n, nodes_ d !! b = Some n →
    hasPrev n = true ↔ cnt (size d) (nx d) b ≠ 0%nat;
  wf_total : Z.of_nat (total d) < 2 ^ 64
}.

(** ** hasCycle *)

(** The vector [targets] holds the counts of the remaining edges. *)
Definition tracks (n : nat) (rem : nat → list nat) (targets : list Z) : Prop :=
  length targets = n ∧
  ∀ b, (b < n)%nat → targets !! b = Some (Z.of_nat (cnt n rem b)) ∧
    Z.of_nat (cnt n rem b) < 2 ^ 64.

Lemma tracks_use n rem targets i key l :
  tracks n rem targets → (i < n)%nat → (key < n)%nat → rem i = key :: l →
  targets !! key = Some (Z.of_nat (cnt n rem key)) ∧
  u64 (Z.of_nat (cnt n rem key) - 1) = Z.of_nat (cnt n (upd rem i l) key) ∧
  tracks n (upd rem i l)
    (<[key := Z.of_nat (cnt n (upd rem i l) key)]> targets).
Proof.
  intros [Hlen Ht] Hi Hk Hrem. destruct (Ht key Hk) as [Htk Hb].
  assert (∀ b, (cnt n (upd rem i l) b + (if decide (key = b) then 1 else 0)
                = cnt n rem b)%nat) as Hcnt.
  { intros b. pose proof (cnt_upd n rem i l b Hi) as H.
    rewrite Hrem, occ_cons in H. lia. }
  pose proof (Hcnt key) as Hck. rewrite decide_True in Hck by done.
  split; [done|]. split; [rewrite u64_small; lia|].
  split; [by rewrite length_insert|]. intros b Hbn.
  destruct (Ht b Hbn) as [Htb Hbb]. specialize (Hcnt b).
  split; [|lia]. destruct (decide (key = b)) as [->|Hne].
  - rewrite list_lookup_insert_eq by lia. done.
  - rewrite list_lookup_insert_ne, Htb by done. do 2 f_equal. lia.
Qed.

Section kahn.
Context (n : nat) (g : nat → list nat).
Hypothesis Hclosed : closed n g.

Lemma drain_spec edges : ∀ E rem targets keys key,
  inv n g E rem → tracks n rem targets → key ∈ E → rem key = edges →
  (∀ b, b ∈ edges → (b < n)%nat) →
  ∃ targets' new, drain edges targets keys = Ret (targets', new ++ keys) ∧
    inv n g (new ++ E) (upd rem key []) ∧ tracks n (upd rem key []) targets' ∧
    (∀ b, b ∈ new → b ∉ E).
Proof.
  induction edges as [|next edges IH]; intros E rem targets keys key Hinv Ht Hk Hrem Hlt.
  - exists targets, []. cbn. split; [done|]. split; [|split; [|set_solver]].
    + eapply inv_ext; [..|exact Hinv]; intros a; unfold upd; case_decide;
        subst; try done; by rewrite Hrem.
    + destruct Ht as [Hl Ht]. split; [done|]. intros b Hb.
      assert (cnt n (upd rem key []) b = cnt n rem b) as ->; [|by apply Ht].
      apply cnt_ext. intros a _. unfold upd. case_decide; [subst; by rewrite Hrem|done].
  - assert (next < n)%nat as Hn by set_solver.
    pose proof (inv_lt _ _ _ _ Hinv key Hk) as Hkn.
    destruct (tracks_use _ _ _ _ _ _ Ht Hkn Hn Hrem) as (Htn & Hw & Ht').
    destruct (inv_use _ _ _ _ _ _ _ Hinv Hk Hrem Hn) as (Hdec & Hz & Hnz).
    cbn. rewrite Htn. cbn. rewrite Hw.
    assert (upd rem key edges key = edges) as Hrem' by apply upd_eq.
    set (rem1 := upd rem key edges) in *.
    assert (∀ F, inv n g F (upd rem1 key []) → inv n g F (upd rem key [])) as Hext.
    { intros F. apply inv_ext; intros a; subst rem1; unfold upd; by case_decide. }
    assert (∀ t, tracks n (upd rem1 key []) t → tracks n (upd rem key []) t) as Hext'.
    { intros t [? Ht1]. split; [done|]. intros b Hb.
      assert (cnt n (upd rem key []) b = cnt n (upd rem1 key []) b) as ->; [|by apply Ht1].
      apply cnt_ext. intros a _. subst rem1. unfold upd. by case_decide. }
    destruct (Z.eqb_spec (Z.of_nat (cnt n rem1 next)) 0) as [H0|H0].
    + destruct (Hz ltac:(lia)) as [HnE Hinv'].
      destruct (IH (next :: E) rem1 _ (next :: keys) key Hinv' Ht' ltac:(set_solver) Hrem'
                  ltac:(set_solver)) as (t' & new & -> & Hi & Htr & Hnew).
      exists t', (new ++ [next]). rewrite <-!(assoc_L (++)). cbn.
      split; [done|]. split; [by apply Hext|]. split; [by apply Hext'|]. set_solver.
    + destruct (IH E rem1 _ keys key (Hnz ltac:(lia)) Ht' Hk Hrem' ltac:(set_solver))
        as (t' & new & -> & Hi & Htr & Hnew).
      exists t', new. split; [done|]. split; [by apply Hext|]. split; [by apply Hext'|done].
Qed.

(** The outer loop ends with every reached node drained. *)
Lemma drain_all_spec fuel : ∀ E rem nxs targets keys,
  inv n g E rem → tracks n rem targets → NoDup keys → keys ⊆ E →
  (∀ a, a ∈ keys → rem a = g a) → (∀ a, a ∈ E → a ∉ keys → rem a = []) →
  length nxs = n → (∀ a, (a < n)%nat → nxs !! a = Some (rem a)) →
  (n + length keys < fuel + length E)%nat →
  ∃ nxs' E' rem', drain_all fuel nxs targets keys = Ret nxs' ∧
    inv n g E' rem' ∧ (∀ a, a ∈ E' → rem' a = []) ∧ length nxs' = n ∧
    ∀ a, (a < n)%nat → nxs' !! a = Some (rem' a).
Proof.
  induction fuel as [|fuel IH];
    intros E rem nxs targets keys Hinv Ht Hnd Hsub Hfull Hdone Hlen Hnxs Hfuel.
  { assert (length E ≤ n)%nat; [by eapply inv_length_le|lia]. }
  cbn. destruct keys as [|key keys].
  { exists nxs, E, rem. split_and!; try done. intros a Ha. apply Hdone; set_solver. }
  apply NoDup_cons in Hnd as [Hnk Hnd].
  assert (key ∈ E) as HkE by set_solver.
  pose proof (inv_lt _ _ _ _ Hinv key HkE) as Hkn.
  rewrite Hnxs by done. cbn. rewrite Hfull by set_solver.
  set (rem1 := upd rem key (rev (g key))).
  assert (inv n g E rem1) as Hinv1.
  { eapply inv_ext; [..|exact Hinv]; intros a; subst rem1; unfold upd; case_decide; subst;
      try done. intros _. rewrite Hfull by set_solver. apply Permutation_rev. }
  assert (tracks n rem1 targets) as Ht1.
  { destruct Ht as [? Ht]. split; [done|]. intros b Hb.
    assert (cnt n rem1 b = cnt n rem b) as ->; [|by apply Ht].
    apply cnt_ext. intros a _. subst rem1. unfold upd. case_decide; [subst|done].
    rewrite Hfull by set_solver. symmetry. apply Permutation_count_occ, Permutation_rev. }
  destruct (drain_spec (rev (g key)) E rem1 targets keys key Hinv1 Ht1 HkE)
    as (t' & new & -> & Hinv' & Ht' & Hnew).
  { apply upd_eq. }
  { intros b. rewrite list_elem_of_In, <-in_rev, <-list_elem_of_In. intros Hb.
    apply (Hclosed key). by split. }
  cbn.
  destruct (IH (new ++ E) (upd rem1 key []) (<[key:=[]]> nxs) t' (new ++ keys))
    as (nxs' & E' & rem' & Hd & Hrest); [exact Hinv'|exact Ht'|..].
  - apply NoDup_app. split_and!; [|set_solver|done].
    pose proof (inv_nodup _ _ _ _ Hinv') as Hnd'. by apply NoDup_app in Hnd' as [? _].
  - set_solver.
  - intros a [Ha|Ha]%elem_of_app.
    + assert (a ∉ E) as HaE by auto. rewrite upd_ne by (intros ->; done).
      subst rem1. rewrite upd_ne by (intros ->; done). by eapply inv_full.
    + rewrite upd_ne by (intros ->; done).
      subst rem1. rewrite upd_ne by (intros ->; done). apply Hfull. set_solver.
  - intros a Ha Hak. destruct (decide (a = key)) as [->|Hne]; [apply upd_eq|].
    rewrite upd_ne by done. subst rem1. rewrite upd_ne by done. apply Hdone; set_solver.
  - by rewrite length_insert.
  - intros a Ha. destruct (decide (a = key)) as [->|Hne].
    + rewrite list_lookup_insert_eq by lia. by rewrite upd_eq.
    + rewrite list_lookup_insert_ne by done. rewrite upd_ne by done.
      subst rem1. rewrite upd_ne by done. by apply Hnxs.
  - rewrite !length_app. cbn in Hfuel. lia.
  - by exists nxs', E', rem'.
Qed.
End kahn.

Lemma occ_concat b (ls : list (list nat)) :
  occ b (concat ls) = sum_list_with (fun l => occ b l) ls.
Proof.
  induction ls as [|l ls IH]; cbn; [done|]. by rewrite count_occ_app, IH.
Qed.

Lemma nexts_seq d : nexts <$> nodes_ d = nx d <$> seq 0 (size d).
Proof.
  apply list_eq. intros i. rewrite !list_lookup_fmap.
  destruct (nodes_ d !! i) as [nd|] eqn:Hi.
  - rewrite lookup_seq_lt by (apply lookup_lt_Some in Hi; done). cbn.
    unfold nx. by rewrite Hi.
  - rewrite lookup_seq_ge by (apply lookup_ge_None in Hi; done). done.
Qed.

Lemma sum_list_with_fmap {A B} (f : A → B) (w : B → nat) l :
  sum_list_with w (f <$> l) = sum_list_with (fun a => w (f a)) l.
Proof. induction l as [|x l IH]; cbn; [done|]. by rewrite IH. Qed.

Lemma cnt_concat d b : cnt (size d) (nx d) b = occ b (concat (nexts <$> nodes_ d)).
Proof. by rewrite occ_concat, nexts_seq, sum_list_with_fmap. Qed.

Lemma total_concat d : length (concat (nexts <$> nodes_ d)) = total d.
Proof.
  rewrite nexts_seq. unfold total. induction (seq 0 (size d)) as [|x l IH]; cbn; [done|].
  by rewrite length_app, IH.
Qed.

Lemma count_targets_spec es : ∀ targets,
  (∀ b, b ∈ es → (b < length targets)%nat) →
  (∀ b t, targets !! b = Some t → 0 ≤ t ∧ t + Z.of_nat (length es) < 2 ^ 64) →
  ∃ targets', count_targets es targets = Ret targets' ∧
    length targets' = length targets ∧
    ∀ b t, targets !! b = Some t → targets' !! b = Some (t + Z.of_nat (occ b es)).
Proof.
  induction es as [|k es IH]; intros targets Hlt Hb.
  - exists targets. split_and!; [done..|]. intros b t ->. f_equal. cbn. lia.
  - destruct (lookup_lt_is_Some_2 targets k) as [tk Hk]; [apply Hlt; set_solver|].
    cbn. rewrite Hk. cbn. destruct (Hb k tk Hk) as [? ?].
    assert (k < length targets)%nat by (apply lookup_lt_Some in Hk; done).
    cbn [length] in *. rewrite u64_small by lia.
    destruct (IH (<[k:=tk+1]> targets)) as (t' & -> & Hlen & Ht').
    + intros b ?. rewrite length_insert. apply Hlt. set_solver.
    + intros b t [(<- & <- & _)|[_ Hbt%Hb]]%list_lookup_insert_Some; lia.
    + exists t'. rewrite Hlen, length_insert. split_and!; [done..|].
      intros b t Hbt. cbn. destruct (Nat.eq_dec k b) as [->|Hne].
      * rewrite (Ht' b (tk + 1)) by (rewrite list_lookup_insert_eq; done).
        f_equal. simplify_eq. lia.
      * apply Ht'. rewrite list_lookup_insert_ne by done. done.
Qed.

Lemma elem_of_keys_where p ns k :
  k ∈ keys_where p ns ↔ ∃ nd, ns !! k = Some nd ∧ p nd = true.
Proof.
  unfold keys_where. rewrite list_elem_of_In, filter_In, <-list_elem_of_In, elem_of_seq.
  split.
  - intros [_ H]. destruct (ns !! k) as [nd|]; naive_solver.
  - intros (nd & Hk & Hp). rewrite Hk. apply lookup_lt_Some in Hk. split; [lia|done].
Qed.

Lemma NoDup_keys_where p ns : NoDup (keys_where p ns).
Proof.
  unfold keys_where. apply NoDup_ListNoDup, List.NoDup_filter, NoDup_ListNoDup, NoDup_seq.
Qed.

Lemma elem_of_rootNodes d k :
  wf d → k ∈ rootNodes d ↔ (k < size d)%nat ∧ cnt (size d) (nx d) k = 0%nat.
Proof.
  intros Hwf. unfold rootNodes. rewrite elem_of_keys_where. split.
  - intros (nd & Hk & Hp). split; [by eapply lookup_lt_Some|].
    pose proof (wf_prev d Hwf k nd Hk) as Hpr. destruct (hasPrev nd); [done|].
    destruct (decide (cnt (size d) (nx d) k = 0%nat)) as [|Hne]; [done|].
    apply Hpr in Hne. done.
  - intros [Hlt Hz]. destruct (lookup_lt_is_Some_2 (nodes_ d) k Hlt) as [nd Hk].
    exists nd. split; [done|]. pose proof (wf_prev d Hwf k nd Hk) as Hpr.
    destruct (hasPrev nd); [|done]. exfalso. by apply (proj1 Hpr).
Qed.

(** Where every countdown of a well-formed graph starts: no edge used, and the
    nodes without incoming edges reached. *)
Lemma inv_roots d roots :
  wf d → roots ≡ₚ rootNodes d → inv (size d) (nx d) roots (nx d).
Proof.
  intros Hwf Hp. assert (∀ b, b ∈ roots ↔ (b < size d)%nat ∧
    cnt (size d) (nx d) b = 0%nat) as Hin by (intros b; rewrite Hp; by apply elem_of_rootNodes).
  split.
  - rewrite Hp. apply NoDup_keys_where.
  - intros b ?%Hin. tauto.
  - intros b Hb. rewrite Hin. tauto.
  - done.
  - assert (∀ a b, b ∈ roots → ¬ edge (size d) (nx d) a b) as Hno.
    { intros a b [_ Hz]%Hin [Ha Hab]. by apply (proj1 (cnt_zero _ _ _) Hz a). }
    clear Hin Hp. induction roots as [|b E IH]; cbn; [done|]. split.
    + intros a Hab. exfalso. apply (Hno a b); [set_solver|done].
    + apply IH. intros a b' ?. apply Hno. set_solver.
Qed.

Lemma tracks_init d :
  wf d → ∃ targets,
    count_targets (concat (nexts <$> nodes_ d)) (replicate (size d) 0) = Ret targets ∧
    tracks (size d) (nx d) targets.
Proof.
  intros Hwf. pose proof (wf_total d Hwf) as Htot.
  destruct (count_targets_spec (concat (nexts <$> nodes_ d)) (replicate (size d) 0))
    as (t' & Heq & Hlen & Ht').
  - intros b (l & Hl%list_elem_of_In & Hb%list_elem_of_In)%list_elem_of_In%in_concat.
    rewrite length_replicate.
    rewrite nexts_seq in Hl. apply list_elem_of_fmap in Hl as (a & -> & Ha%elem_of_seq).
    apply (wf_closed d Hwf a). split; [lia|done].
  - intros b t [-> _]%lookup_replicate. rewrite total_concat. lia.
  - exists t'. rewrite length_replicate in Hlen.
    split; [done|]. split; [done|]. intros b Hb. rewrite cnt_concat. split.
    + rewrite (Ht' b 0); [done|]. by apply lookup_replicate.
    + pose proof (occ_le_length b (concat (nexts <$> nodes_ d))).
      rewrite total_concat in *. lia.
Qed.

(** [hasCycle] always answers, and answers true exactly when some node
    depends on itself through the edges. *)
Lemma hasCycle_spec d :
  wf d → ∃ c, hasCycle d = Ret c ∧ (c = true ↔ cyclic (size d) (nx d)).
Proof.
  intros Hwf. unfold hasCycle. cbn zeta.
  destruct (tracks_init d Hwf) as (targets & -> & Htr). cbn [mbind outcome_bind].
  pose proof (inv_roots d (rev (rootNodes d)) Hwf (symmetry (Permutation_rev _))) as Hinv.
  destruct (drain_all_spec (size d) (nx d) (wf_closed d Hwf) (S (size d)) _ _
              (nexts <$> nodes_ d) targets (rev (rootNodes d)) Hinv Htr)
    as (nxs & E & rem & -> & HinvE & Hdone & Hlen & Hnxs); try done.
  - by eapply inv_nodup.
  - by rewrite length_fmap.
  - intros a Ha. rewrite nexts_seq, list_lookup_fmap, lookup_seq_lt by done. done.
  - lia.
  - eexists; split; [done|]. rewrite existsb_exists. split.
    + intros (l & [a Hl]%list_elem_of_In%list_elem_of_lookup & Hne).
      assert (a < size d)%nat as Ha by (apply lookup_lt_Some in Hl; lia).
      rewrite Hnxs in Hl by done. simplify_eq.
      apply (inv_stuck _ _ E rem a HinvE Hdone Ha). intros HaE.
      rewrite (Hdone a HaE) in Hne. done.
    + intros [a Htc]. assert (∃ b, edge (size d) (nx d) a b) as (b & Ha & Hab).
      { inversion Htc; subst; eauto. }
      assert (a ∉ E) as HaE.
      { intros HaE. by eapply (topo_acyclic _ _ E a (inv_nodup _ _ _ _ HinvE)
          (inv_topo _ _ _ _ HinvE) HaE). }
      exists (rem a). split.
      * apply list_elem_of_In, list_elem_of_lookup. exists a. by apply Hnxs.
      * rewrite (inv_full _ _ _ _ HinvE a HaE). apply negb_true_iff, bool_decide_eq_false.
        intros Hnil. rewrite Hnil in Hab. set_solver.
Qed.

(** ** Running the graph on one stack *)

(** The executors that have run, latest first. *)
Definition runs (d : dag) : list nat :=
  omap (fun ev => match ev with Run e => Some e | Call _ => None end) (trace d).

(** The nodes a list of closures schedules. *)
Definition nodes_of (fs : list closure) : list nat :=
  omap (fun f => match f with ScheduleNode k => Some k | Other _ => None end) fs.

(** Running changes counts and the trace, not the graph. *)
Definition same (d0 d : dag) : Prop :=
  execs d = execs d0 ∧ size d = size d0 ∧
  ∀ k nd, nodes_ d !! k = Some nd →
    ∃ nd0, nodes_ d0 !! k = Some nd0 ∧ nexec nd = nexec nd0 ∧ nexts nd = nexts nd0.

Section schedule.
Context (d0 : dag).
Let n := size d0.
Let g := nx d0.
Hypothesis Hclosed : closed n g.

(** The executor of a node, and that it schedules this node and no other (or
    none, when the node has no successors). *)
Definition ename (k : nat) : nat := default 0%nat (nodes_ d0 !! k ≫= nexec).
Definition owns (k : nat) : Prop :=
  ∃ nd e, nodes_ d0 !! k = Some nd ∧ nexec nd = Some e ∧
    nodes_of (callbacks_ (executor_of d0 e)) = [] ∧
    (nodes_of (schedules_ (executor_of d0 e)) = [k] ∨
     nodes_of (schedules_ (executor_of d0 e)) = [] ∧ nexts nd = []).

Definition ok (d : dag) (rem : nat → list nat) : Prop :=
  same d0 d ∧ ∀ b nd, nodes_ d !! b = Some nd →
    waitCount nd = Z.of_nat (cnt n rem b) ∧ Z.of_nat (cnt n rem b) < 2 ^ 64.

Lemma ok_nexts d rem i nd : ok d rem → nodes_ d !! i = Some nd → nexts nd = g i.
Proof.
  intros [(_ & _ & Hs) _] Hi. destruct (Hs i nd Hi) as (nd0 & H0 & _ & ->).
  subst g. unfold nx. by rewrite H0.
Qed.

Lemma ok_lookup d rem i : ok d rem → (i < n)%nat → ∃ nd, nodes_ d !! i = Some nd.
Proof.
  intros [(_ & Hsz & _) _] Hi. apply lookup_lt_is_Some_2.
  change (i < size d)%nat. rewrite Hsz. done.
Qed.

Lemma ok_decrement d rem i key l :
  ok d rem → (i < n)%nat → (key < n)%nat → rem i = key :: l →
  ∃ nd d', decrement key d = Ret (Z.of_nat (cnt n (upd rem i l) key), nd, d') ∧
    nodes_ d !! key = Some nd ∧ ok d' (upd rem i l) ∧ runs d' = runs d.
Proof.
  intros Hok Hi Hk Hrem. destruct (ok_lookup d rem key Hok Hk) as [nd Hnd].
  pose proof Hok as [(He & Hsz & Hs) Hw].
  assert (∀ b, (cnt n (upd rem i l) b + (if decide (key = b) then 1 else 0)
                = cnt n rem b)%nat) as Hcnt.
  { intros b. pose proof (cnt_upd n rem i l b Hi) as H.
    rewrite Hrem, occ_cons in H. lia. }
  pose proof (Hcnt key) as Hck. rewrite decide_True in Hck by done.
  destruct (Hw key nd Hnd) as [Hwk Hbk].
  unfold decrement. rewrite Hnd. cbn. rewrite Hwk, u64_small by lia.
  replace (Z.of_nat (cnt n rem key) - 1) with (Z.of_nat (cnt n (upd rem i l) key)) by lia.
  eexists _, _. split; [done|]. split; [done|]. split; [|done]. split.
  - split; [done|]. split; [unfold size in *; cbn; by rewrite length_insert|].
    cbn. intros k nd' [(<- & <- & _)|[_ Hk']]%list_lookup_insert_Some; cbn; by apply Hs.
  - cbn. intros b nd' [(<- & <- & _)|[Hne Hb]]%list_lookup_insert_Some; cbn; [lia|].
    destruct (Hw b nd' Hb) as [-> ?]. specialize (Hcnt b).
    rewrite decide_False in Hcnt by done. lia.
Qed.

(** What scheduling node [i] does to the countdown. *)
Definition sched_post (E : list nat) (rem : nat → list nat) (i : nat) (d d' : dag) : Prop :=
  ∃ new rem', inv n g (new ++ E) rem' ∧ ok d' rem' ∧ rem' i = [] ∧
    (∀ a, a ∈ E → a ≠ i → rem' a = rem a) ∧ (∀ a, a ∈ new → rem' a = []) ∧
    runs d' = (ename <$> new) ++ runs d.

Definition sched_spec (fuel : nat) : Prop := ∀ i d E rem,
  inv n g E rem → ok d rem → i ∈ E → rem i = g i → (n < fuel + length E)%nat →
  ∃ d', schedule fuel i d = Ret d' ∧ sched_post E rem i d d'.

Lemma call_all_none sch fs d :
  nodes_of fs = [] → ∃ d', call_all sch fs d = Ret d' ∧
    nodes_ d' = nodes_ d ∧ execs d' = execs d ∧ runs d' = runs d.
Proof.
  revert d. induction fs as [|[k|t] fs IH]; intros d; cbn; [eauto|done|].
  intros Hfs. destruct (IH (log (Call t) d) Hfs) as (d' & -> & ? & ? & ?).
  eexists; split; [done|]. done.
Qed.

Lemma call_all_one sch k fs d :
  nodes_of fs = [k] → ∃ d1, nodes_ d1 = nodes_ d ∧ execs d1 = execs d ∧ runs d1 = runs d ∧
    ∀ d2, sch k d1 = Ret d2 → ∃ d', call_all sch fs d = Ret d' ∧
      nodes_ d' = nodes_ d2 ∧ execs d' = execs d2 ∧ runs d' = runs d2.
Proof.
  revert d. induction fs as [|[k'|t] fs IH]; intros d; cbn; [done|..].
  - intros [= -> Hfs]. exists d. split_and!; [done..|]. intros d2 ->. cbn.
    by apply call_all_none.
  - intros Hfs. destruct (IH (log (Call t) d) Hfs) as (d1 & H1 & H2 & H3 & H4).
    by exists d1.
Qed.

Lemma ok_quiet d d' rem :
  ok d rem → nodes_ d' = nodes_ d → execs d' = execs d → ok d' rem.
Proof.
  intros [(? & ? & ?) ?] Hn He. unfold ok, same, size. rewrite Hn, He. done.
Qed.

(** Executing a node just reached. *)
Lemma execute_spec fuel key nd d E rem :
  sched_spec fuel → inv n g (key :: E) rem → ok d rem → rem key = g key → owns key →
  nodes_ d !! key = Some nd → (n < fuel + S (length E))%nat →
  ∃ d', execute (schedule fuel) (nexec nd) d = Ret d' ∧
    ∃ new rem', inv n g (new ++ key :: E) rem' ∧ ok d' rem' ∧ rem' key = [] ∧
    (∀ a, a ∈ E → a ≠ key → rem' a = rem a) ∧ (∀ a, a ∈ new → rem' a = []) ∧
    runs d' = (ename <$> new) ++ ename key :: runs d.
Proof.
  intros IH Hinv Hok Hrem (nd0 & e & Hnd0 & He & Hcb & Hsc) Hnd Hfuel.
  pose proof Hok as [(Hex & _ & Hs) _].
  destruct (Hs key nd Hnd) as (nd0' & ? & Hne & Hnx). simplify_eq.
  assert (ename key = e) as Hen by (unfold ename; rewrite Hnd0; cbn; by rewrite He).
  rewrite Hne, He. cbn.
  replace (executor_of (log (Run e) d) e) with (executor_of d0 e)
    by (unfold executor_of; cbn; by rewrite Hex).
  destruct (call_all_none (schedule fuel) _ (log (Run e) d) Hcb)
    as (d1 & -> & Hn1 & He1 & Hr1). cbn.
  replace (executor_of d1 e) with (executor_of d0 e)
    by (unfold executor_of; rewrite He1; cbn; by rewrite Hex).
  assert (ok d1 rem) as Hok1 by (by eapply ok_quiet).
  destruct Hsc as [Hsc|[Hsc Hnil]].
  - destruct (call_all_one (schedule fuel) key _ d1 Hsc) as (d2 & Hn2 & He2 & Hr2 & Hcall).
    destruct (IH key d2 (key :: E) rem Hinv) as (d3 & Hd3 & new & rem' & Hpost).
    { by eapply ok_quiet. } { set_solver. } { done. } { cbn. lia. }
    destruct (Hcall d3 Hd3) as (d' & -> & Hn' & He' & Hr').
    destruct Hpost as (Hi' & Ho' & Hk' & Ha' & Hnew & Hruns).
    exists d'. split; [done|]. exists new, rem'. split_and!; try done.
    + by eapply ok_quiet.
    + intros a Ha Hne'. apply Ha'; [set_solver|done].
    + rewrite Hr', Hruns, Hr2, Hr1, Hen. done.
  - destruct (call_all_none (schedule fuel) _ d1 Hsc) as (d' & -> & Hn' & He' & Hr').
    exists d'. split; [done|]. exists [], rem. cbn. split_and!; try done.
    + by eapply ok_quiet.
    + rewrite Hrem. unfold g, nx. by rewrite Hnd0.
    + set_solver.
    + rewrite Hr', Hr1, Hen. done.
Qed.

Hypothesis Howns : ∀ a b, edge n g a b → owns b.

Lemma schedule_nexts_spec fuel l : sched_spec fuel → ∀ i d E rem,
  inv n g E rem → ok d rem → i ∈ E → rem i = l → (∀ b, b ∈ l → edge n g i b) →
  (n < S fuel + length E)%nat →
  ∃ d', schedule_nexts (schedule fuel) l d = Ret d' ∧ sched_post E rem i d d'.
Proof.
  intros IHf. induction l as [|key l IH]; intros i d E rem Hinv Hok Hi Hrem Hl Hfuel.
  { exists d. split; [done|]. exists [], rem. cbn. split_and!; set_solver. }
  assert (edge n g i key) as Hik by set_solver.
  assert (key < n)%nat as Hk by (by eapply Hclosed).
  pose proof (inv_lt _ _ _ _ Hinv i Hi) as Hin.
  destruct (ok_decrement d rem i key l Hok Hin Hk Hrem) as (nd & d1 & Hdec & Hnd & Hok1 & Hr1).
  destruct (inv_use _ _ _ _ _ _ _ Hinv Hi Hrem Hk) as (_ & Hz & Hnz).
  cbn. rewrite Hdec. cbn. set (rem1 := upd rem i l) in *.
  assert (rem1 i = l) as Hrem1 by apply upd_eq.
  destruct (Z.eqb_spec (Z.of_nat (cnt n rem1 key)) 0) as [H0|H0].
  - destruct (Hz ltac:(lia)) as [HkE Hinv1].
    assert (i ≠ key) as Hne by (intros ->; done).
    destruct (ok_lookup d1 rem1 key Hok1 Hk) as [nd1 Hnd1].
    assert (nexec nd = nexec nd1) as ->.
    { destruct Hok as [(_ & _ & Hs) _], Hok1 as [(_ & _ & Hs1) _].
      destruct (Hs _ _ Hnd) as (? & ? & -> & _), (Hs1 _ _ Hnd1) as (? & ? & -> & _).
      by simplify_eq. }
    destruct (execute_spec fuel key nd1 d1 E rem1 IHf Hinv1 Hok1)
      as (d2 & -> & new & rem2 & Hinv2 & Hok2 & Hk2 & HE2 & Hn2 & Hr2);
      [|by eapply Howns|done|lia|].
    { unfold rem1. rewrite upd_ne by done. by eapply inv_full. }
    cbn. assert (rem2 i = l) as Hrem2 by (rewrite HE2; done).
    destruct (IH i d2 (new ++ key :: E) rem2 Hinv2 Hok2) as (d3 & -> & Hpost);
      [set_solver|done|set_solver|rewrite length_app; cbn; lia|].
    exists d3. split; [done|].
    destruct Hpost as (new3 & rem3 & Hinv3 & Hok3 & Hi3 & HE3 & Hn3 & Hr3).
    pose proof (inv_nodup _ _ _ _ Hinv2) as (_ & Hdisj & _)%NoDup_app.
    exists (new3 ++ new ++ [key]), rem3. rewrite <-!(assoc_L (++)).
    split_and!; try done.
    + intros a Ha Hai. rewrite HE3, HE2 by set_solver. unfold rem1. by rewrite upd_ne.
    + intros a [Ha|[Ha|Ha]%elem_of_app]%elem_of_app; [by apply Hn3|..].
      * rewrite HE3; [by apply Hn2|set_solver|]. intros ->. apply (Hdisj i); set_solver.
      * assert (a = key) as -> by set_solver. rewrite HE3; [done|set_solver|done].
    + rewrite Hr3, Hr2, Hr1, !fmap_app, <-!(assoc_L (++)). done.
  - cbn. destruct (IH i d1 E rem1 (Hnz ltac:(lia)) Hok1 Hi Hrem1) as (d2 & -> & Hpost);
      [set_solver|done|].
    exists d2. split; [done|].
    destruct Hpost as (new3 & rem3 & Hinv3 & Hok3 & Hi3 & HE3 & Hn3 & Hr3).
    exists new3, rem3. split_and!; try done.
    + intros a Ha Hai. rewrite HE3 by done. unfold rem1. by rewrite upd_ne.
    + by rewrite Hr3, Hr1.
Qed.

Lemma schedule_spec fuel : sched_spec fuel.
Proof.
  induction fuel as [|fuel IH]; intros i d E rem Hinv Hok Hi Hrem Hfuel.
  { assert (length E ≤ n)%nat; [|lia]. by apply (inv_length_le n g E rem). }
  destruct (ok_lookup d rem i Hok (inv_lt _ _ _ _ Hinv i Hi)) as [nd Hnd].
  cbn. rewrite Hnd. cbn. rewrite (ok_nexts d rem i nd Hok Hnd).
  apply (schedule_nexts_spec fuel (g i) IH); try done.
  intros b Hb. split; [by eapply inv_lt|done].
Qed.
End schedule.
End dag_facts.
