(* ===== verification/DagRun.v ===== *)
(** Building the graph keeps it well formed, [go] closes it with a source and a
    sink, and running the closed graph executes every job exactly once. *)
From S2P Require Import Prelude Countdown Dag DagFacts.

Section dag_run.
Import Dag.

(** ** Nodes and edges being added *)

Lemma size_addNode e d : size (addNode e d).2 = S (size d).
Proof. unfold size. cbn. rewrite length_app. cbn. lia. Qed.

Lemma nx_addNode e d a : nx (addNode e d).2 a = nx d a.
Proof.
  unfold nx. cbn. destruct (decide (a < size d)%nat) as [Hlt|Hge].
  - by rewrite lookup_app_l.
  - unfold size in Hge. rewrite lookup_app_r by lia.
    rewrite (lookup_ge_None_2 (nodes_ d)) by lia.
    destruct (a - length (nodes_ d))%nat as [|[|?]]; done.
Qed.

Lemma nx_ge d a : (size d ≤ a)%nat → nx d a = [].
Proof. intros. unfold nx. by rewrite lookup_ge_None_2. Qed.

Lemma sum_seq_S (w : nat → nat) m :
  sum_list_with w (seq 0 (S m)) = (sum_list_with w (seq 0 m) + w m)%nat.
Proof. rewrite seq_S, sum_list_with_app. cbn. lia. Qed.

Lemma sum_with_ext (w w' : nat → nat) l :
  (∀ a, w a = w' a) → sum_list_with w l = sum_list_with w' l.
Proof. intros H. induction l as [|x l IH]; cbn; [done|]. by rewrite H, IH. Qed.

Lemma cnt_addNode e d b :
  cnt (size (addNode e d).2) (nx (addNode e d).2) b = cnt (size d) (nx d) b.
Proof.
  rewrite size_addNode. unfold cnt. rewrite sum_seq_S. cbn beta.
  rewrite nx_addNode, nx_ge by lia.
  cbn [count_occ length]. rewrite Nat.add_0_r. apply sum_with_ext. intros a. by rewrite nx_addNode.
Qed.

Lemma total_addNode e d : total (addNode e d).2 = total d.
Proof.
  unfold total. rewrite size_addNode, sum_seq_S. cbn beta.
  rewrite nx_addNode, nx_ge by lia.
  cbn [count_occ length]. rewrite Nat.add_0_r. apply sum_with_ext. intros a. by rewrite nx_addNode.
Qed.

Lemma addNode_wf e d : wf d → wf (addNode e d).2.
Proof.
  intros Hwf. assert (∀ b nd, nodes_ (addNode e d).2 !! b = Some nd →
    nodes_ d !! b = Some nd ∨ b = size d ∧ nd = mk_node e [] false 0) as Hl.
  { cbn. intros b nd [?|[? H]]%lookup_app_Some; [by left|right].
    apply list_lookup_singleton_Some in H as [? <-]. unfold size. split; [lia|done]. }
  assert (cnt (size d) (nx d) (size d) = 0%nat) as Hz.
  { apply cnt_zero. intros a Ha Hin. pose proof (wf_closed d Hwf a (size d) (conj Ha Hin)). lia. }
  split.
  - intros a b [Ha Hab]. rewrite nx_addNode in Hab. rewrite size_addNode.
    destruct (decide (a < size d)%nat).
    + pose proof (wf_closed d Hwf a b). unfold edge in *. naive_solver lia.
    + rewrite nx_ge in Hab by lia. set_solver.
  - intros b nd [Hb|[-> ->]]%Hl; rewrite cnt_addNode; [by apply wf_wait|].
    rewrite Hz. done.
  - intros b nd [Hb|[-> ->]]%Hl; rewrite cnt_addNode; [by apply wf_prev|].
    rewrite Hz. done.
  - rewrite total_addNode. by apply wf_total.
Qed.

Lemma dependency_ret a b d :
  (a < size d)%nat → (b < size d)%nat → ∃ d', dependency a b d = Ret d' ∧
    size d' = size d ∧ execs d' = execs d ∧ trace d' = trace d ∧
    (nexec <$> nodes_ d') = (nexec <$> nodes_ d) ∧
    ∀ x, nx d' x = if decide (x = a) then nx d a ++ [b] else nx d x.
Proof.
  intros Ha Hb. unfold dependency.
  rewrite (proj2 (Nat.ltb_lt _ _) Ha), (proj2 (Nat.ltb_lt _ _) Hb). cbn.
  eexists; split; [done|]. split_and!; try done.
  - unfold size. cbn. by rewrite !length_alter.
  - cbn. apply list_eq. intros i. rewrite !list_lookup_fmap, !list_lookup_alter.
    repeat case_decide; subst; by destruct (nodes_ d !! _).
  - intros x. unfold nx. cbn. rewrite !list_lookup_alter.
    destruct (lookup_lt_is_Some_2 (nodes_ d) a Ha) as [na Hna].
    destruct (decide (a = x)) as [->|Hne].
    + rewrite (decide_True (P:=x = x)) by done.
      case_decide; subst; rewrite ?(decide_True (P:=x = x)), Hna by done; done.
    + rewrite (decide_False (P:=x = a)) by done.
      case_decide; subst; rewrite ?(decide_False (P:=a = x)) by done;
        by destruct (nodes_ d !! x).
Qed.

Lemma dependency_lookup a b d d' k nd :
  dependency a b d = Ret d' → nodes_ d' !! k = Some nd →
  ∃ nd0, nodes_ d !! k = Some nd0 ∧
    waitCount nd = (if decide (k = b) then u64 (waitCount nd0 + 1) else waitCount nd0) ∧
    hasPrev nd = (if decide (k = b) then true else hasPrev nd0).
Proof.
  unfold dependency. destruct (_ && _); [|done]. intros [= <-]. cbn.
  rewrite !list_lookup_alter. intros H.
  destruct (decide (b = k)) as [->|]; destruct (decide (a = k)) as [->|];
    destruct (nodes_ d !! k) as [nd0|]; cbn in H; simplify_eq;
    eexists; (split; [done|]);
    rewrite ?(decide_True (P:=k = k)), ?(decide_False (P:=k = b)) by done; done.
Qed.

Lemma dependency_inv a b d d' :
  dependency a b d = Ret d' → (a < size d)%nat ∧ (b < size d)%nat ∧
    size d' = size d ∧ execs d' = execs d ∧
    (nexec <$> nodes_ d') = (nexec <$> nodes_ d) ∧
    ∀ x, nx d' x = if decide (x = a) then nx d a ++ [b] else nx d x.
Proof.
  intros Hd. assert (a < size d ∧ b < size d)%nat as [Ha Hb].
  { unfold dependency in Hd. destruct (_ && _) eqn:E; [|done].
    apply andb_prop in E as [?%Nat.ltb_lt ?%Nat.ltb_lt]. done. }
  destruct (dependency_ret a b d Ha Hb) as (d1 & Hd1 & ?).
  assert (d1 = d') as -> by congruence. naive_solver.
Qed.

Lemma total_dependency a b d d' : dependency a b d = Ret d' → total d' = S (total d).
Proof.
  intros (Ha & Hb & Hsz & _ & _ & Hnx)%dependency_inv. unfold total. rewrite Hsz.
  pose proof (sum_with_upd (fun x => length (nx d' x)) (fun x => length (nx d x)) a
                (seq 0 (size d)) (NoDup_seq _ _)) as H.
  cbn beta in H. rewrite (Hnx a), decide_True, length_app in H by done. cbn [length] in H.
  rewrite <-(Nat.add_cancel_r _ _ (length (nx d a))), H; [lia|apply elem_of_seq; lia|].
  intros x Hx. rewrite Hnx. by rewrite decide_False.
Qed.

Lemma dependency_wf a b d d' :
  wf d → dependency a b d = Ret d' → Z.of_nat (S (total d)) < 2 ^ 64 → wf d'.
Proof.
  intros Hwf Hd Htot. pose proof (total_dependency a b d d' Hd) as Htd.
  pose proof (dependency_inv a b d d' Hd) as (Ha & Hb & Hsz & _ & _ & Hnx).
  assert (∀ x, nx d' x = upd (nx d) a (nx d a ++ [b]) x) as Hupd by (intros; apply Hnx).
  assert (∀ y, cnt (size d) (nx d') y =
            (cnt (size d) (nx d) y + if decide (y = b) then 1 else 0)%nat) as Hcnt.
  { intros y. rewrite (cnt_ext _ _ (upd (nx d) a (nx d a ++ [b])))
      by (intros; by rewrite Hupd).
    pose proof (cnt_upd (size d) (nx d) a (nx d a ++ [b]) y Ha) as H.
    rewrite count_occ_app in H. cbn in H. destruct Nat.eq_dec; case_decide; subst; try done; lia. }
  split; rewrite ?Hsz.
  - intros x y [Hx Hy]. rewrite Hnx in Hy. case_decide; subst.
    + apply elem_of_app in Hy as [Hy|Hy]; [by apply (wf_closed d Hwf a); split|set_solver].
    + by apply (wf_closed d Hwf x); split.
  - intros k nd (nd0 & Hk & Hw & _)%(dependency_lookup _ _ _ _ _ _ Hd).
    rewrite Hw, (wf_wait d Hwf k nd0 Hk), Hcnt. case_decide; [|lia].
    pose proof (cnt_le_total (size d) (nx d) k) as Hle. fold (total d) in Hle.
    rewrite u64_small by lia. lia.
  - intros k nd (nd0 & Hk & _ & Hp)%(dependency_lookup _ _ _ _ _ _ Hd).
    rewrite Hp, Hcnt. pose proof (wf_prev d Hwf k nd0 Hk). case_decide; [naive_solver lia|].
    rewrite Nat.add_0_r. done.
  - rewrite Htd. done.
Qed.

(** The successors [a] gets from a list of edges. *)
Definition targets_of (a : nat) (es : list (nat * nat)) : list nat :=
  omap (fun e => if decide (e.1 = a) then Some e.2 else None) es.

Lemma dependencies_ret es : ∀ d,
  wf d → (∀ a b, (a, b) ∈ es → (a < size d)%nat ∧ (b < size d)%nat) →
  Z.of_nat (total d + length es) < 2 ^ 64 →
  ∃ d', dependencies es d = Ret d' ∧ wf d' ∧ size d' = size d ∧ execs d' = execs d ∧
    trace d' = trace d ∧ (nexec <$> nodes_ d') = (nexec <$> nodes_ d) ∧
    total d' = (total d + length es)%nat ∧ ∀ x, nx d' x = nx d x ++ targets_of x es.
Proof.
  induction es as [|[a b] es IH]; intros d Hwf Hes Htot; cbn.
  { eexists; split_and!; [done..|lia|]. intros. by rewrite app_nil_r. }
  destruct (Hes a b) as [Ha Hb]; [set_solver|].
  destruct (dependency_ret a b d Ha Hb) as (d1 & Hd & Hsz & He & Htr & Hne & Hnx).
  pose proof (total_dependency a b d d1 Hd) as Ht1.
  assert (wf d1) as Hwf1 by (apply (dependency_wf a b d); [done|done|cbn in Htot; lia]).
  rewrite Hd. cbn. destruct (IH d1 Hwf1) as (d' & -> & H).
  { intros x y Hxy. rewrite Hsz. apply Hes. set_solver. }
  { cbn in Htot. lia. }
  destruct H as (Hwf' & Hs' & He' & Htr' & Hne' & Ht' & Hnx').
  exists d'. split_and!; [done|done|congruence..|lia|].
  intros x. rewrite Hnx', Hnx. cbn.
  case_decide as Hx; case_decide as Hx'; subst; try done. by rewrite <-(assoc_L (++)).
Qed.

Lemma targets_of_source a s l :
  targets_of a (pair s <$> l) = if decide (s = a) then l else [].
Proof.
  unfold targets_of. induction l as [|x l IH]; cbn; [by case_decide|].
  destruct (decide (s = a)); cbn; by rewrite IH.
Qed.

Lemma targets_of_sink a t l :
  NoDup l → targets_of a ((fun k => (k, t)) <$> l) = if decide (a ∈ l) then [t] else [].
Proof.
  unfold targets_of. induction l as [|x l IH]; cbn; [done|].
  intros [Hx Hl]%NoDup_cons. rewrite (IH Hl). destruct (decide (x = a)) as [->|Hne].
  - rewrite decide_False, decide_True by set_solver. done.
  - repeat case_decide; set_solver.
Qed.

Lemma elem_of_leafNodes d a : a ∈ leafNodes d ↔ (a < size d)%nat ∧ nx d a = [].
Proof.
  unfold leafNodes, nx. rewrite elem_of_keys_where. split.
  - intros (nd & Hk & Hp%bool_decide_eq_true). rewrite Hk. split; [by eapply lookup_lt_Some|done].
  - intros [Ha Hn]. destruct (lookup_lt_is_Some_2 (nodes_ d) a Ha) as [nd Hk].
    rewrite Hk in Hn. exists nd. split; [done|]. by apply bool_decide_eq_true.
Qed.

Lemma keys_where_length p ns : (length (keys_where p ns) ≤ length ns)%nat.
Proof.
  unfold keys_where. rewrite <-(length_seq (length ns) 0) at 2. apply filter_length_le.
Qed.

(** The graph that [go] leaves. *)
Definition closed_nx (d : dag) (x : nat) : list nat :=
  if decide (x < size d)%nat
  then if decide (nx d x = []) then [S (size d)] else nx d x
  else if decide (x = size d) then rootNodes d else [].

Lemma go_ret d e :
  wf d → hasCycle d = Ret false → Z.of_nat (total d + 2 * size d) < 2 ^ 64 →
  ∃ d', go e d = Ret (size d, d') ∧ wf d' ∧ size d' = S (S (size d)) ∧
    execs d' = execs d ∧ trace d' = trace d ∧
    (nexec <$> nodes_ d') = (nexec <$> nodes_ d) ++ [None; Some e] ∧
    ∀ x, nx d' x = closed_nx d x.
Proof.
  intros Hwf Hc Htot. unfold go. rewrite Hc. cbn [mbind outcome_bind].
  set (d1 := (addNode None d).2). change (addNode None d) with (size d, d1). cbn iota beta.
  pose proof (addNode_wf None d Hwf) as Hwf1. fold d1 in Hwf1.
  pose proof (size_addNode None d) as Hs1. fold d1 in Hs1.
  pose proof (total_addNode None d) as Ht1. fold d1 in Ht1.
  pose proof (keys_where_length (fun n => negb (hasPrev n)) (nodes_ d)) as Hr.
  pose proof (keys_where_length (fun n => bool_decide (nexts n = [])) (nodes_ d)) as Hl.
  fold (rootNodes d) in Hr. fold (leafNodes d) in Hl. fold (size d) in Hr, Hl.
  destruct (dependencies_ret (pair (size d) <$> rootNodes d) d1 Hwf1)
    as (d2 & -> & Hwf2 & Hs2 & He2 & Htr2 & Hn2 & Ht2 & Hnx2).
  { intros a b (k & [= -> ->] & Hk)%list_elem_of_fmap.
    apply elem_of_rootNodes in Hk as [? _]; [lia|done]. }
  { rewrite length_fmap. lia. }
  rewrite length_fmap in Ht2. cbn [mbind outcome_bind].
  set (d3 := (addNode (Some e) d2).2).
  change (addNode (Some e) d2) with (size d2, d3). cbn iota beta.
  pose proof (addNode_wf (Some e) d2 Hwf2) as Hwf3. fold d3 in Hwf3.
  pose proof (size_addNode (Some e) d2) as Hs3. fold d3 in Hs3.
  pose proof (total_addNode (Some e) d2) as Ht3. fold d3 in Ht3.
  destruct (dependencies_ret ((fun key => (key, size d2)) <$> leafNodes d) d3 Hwf3)
    as (d4 & -> & Hwf4 & Hs4 & He4 & Htr4 & Hn4 & Ht4 & Hnx4).
  { intros a b (k & [= -> ->] & Hk)%list_elem_of_fmap.
    apply elem_of_leafNodes in Hk as [? _]. lia. }
  { rewrite length_fmap. lia. }
  exists d4. split; [done|]. split_and!; try done.
  - lia.
  - rewrite He4. cbn. by rewrite He2.
  - rewrite Htr4. cbn. by rewrite Htr2.
  - rewrite Hn4. unfold d3. cbn [addNode snd nodes_ set_nodes]. rewrite fmap_app, Hn2.
    unfold d1. cbn [addNode snd nodes_ set_nodes]. rewrite fmap_app, <-(assoc_L (++)). done.
  - intros x. rewrite Hnx4. unfold d3 at 1. rewrite nx_addNode, Hnx2. unfold d1 at 1.
    rewrite nx_addNode, targets_of_source, targets_of_sink by apply NoDup_keys_where.
    unfold closed_nx. rewrite Hs2, Hs1.
    destruct (decide (x < size d)%nat) as [Hx|Hx].
    + rewrite decide_False, app_nil_r by lia.
      destruct (decide (nx d x = [])) as [Hnil|Hnil].
      * rewrite Hnil, decide_True by (by apply elem_of_leafNodes). done.
      * rewrite decide_False, app_nil_r by (intros [_ ?]%elem_of_leafNodes; done). done.
    + rewrite nx_ge by lia. rewrite (decide_False (P:=x ∈ _)), app_nil_r
        by (intros [? _]%elem_of_leafNodes; done).
      repeat case_decide; done || congruence.
Qed.

(** ** The closed graph *)

Section closed_graph.
Context (d d' : dag).
Hypothesis Hwf : wf d.
Hypothesis Hsize : size d' = S (S (size d)).
Hypothesis Hnx : ∀ x, nx d' x = closed_nx d x.

Lemma closed_edge a b :
  edge (size d') (nx d') a b ↔
    edge (size d) (nx d) a b ∨
    (a < size d)%nat ∧ nx d a = [] ∧ b = S (size d) ∨
    a = size d ∧ b ∈ rootNodes d.
Proof.
  unfold edge. rewrite Hsize, Hnx. unfold closed_nx. split.
  - intros [Ha Hab]. destruct (decide (a < size d)%nat).
    + case_decide; [right; left; set_solver|by left].
    + case_decide; [subst; by right; right|set_solver].
  - intros [[Ha Hab]|[(Ha & Hn & ->)|[-> Hb]]].
    + split; [lia|]. rewrite decide_True by done. rewrite decide_False; [done|].
      intros Hn. rewrite Hn in Hab. set_solver.
    + split; [lia|]. rewrite !decide_True by done. set_solver.
    + split; [lia|]. rewrite decide_False, decide_True by lia. done.
Qed.

Lemma closed_edge_to a b :
  edge (size d') (nx d') a b → (b < size d)%nat ∨ b = S (size d).
Proof.
  intros [H|[(_ & _ & ->)|[_ Hb]]]%closed_edge; [|by right|].
  - left. by eapply wf_closed.
  - left. by apply elem_of_rootNodes in Hb as [? _].
Qed.

Lemma closed_acyclic : ¬ cyclic (size d) (nx d) → ¬ cyclic (size d') (nx d').
Proof.
  intros Hac [x Hx].
  assert (∀ a b, tc (edge (size d') (nx d')) a b → (a < size d)%nat →
    (b < size d)%nat → tc (edge (size d) (nx d)) a b) as Htc.
  { intros a b H. induction H as [a b H|a c b H Hcb IH]; intros Ha Hb.
    - apply closed_edge in H as [H|[(_ & _ & ->)|[-> _]]]; [by apply tc_once|lia..].
    - assert (∃ y, edge (size d') (nx d') c y) as [y Hy] by (inversion Hcb; eauto).
      assert (c < size d)%nat as Hc.
      { destruct (closed_edge_to _ _ H) as [?| ->]; [done|].
        apply closed_edge in Hy as [[? _]|[(? & _)|[? _]]]; lia. }
      apply closed_edge in H as [H|[(_ & _ & ->)|[-> _]]]; [|lia..].
      eapply tc_l; [done|by apply IH]. }
  assert (∃ y, edge (size d') (nx d') x y) as [y Hy] by (inversion Hx; eauto).
  assert (∀ a b, tc (edge (size d') (nx d')) a b → (b < size d)%nat ∨ b = S (size d)) as Hto.
  { intros a b H. induction H; [by eapply closed_edge_to|done]. }
  apply Hac. exists x. destruct (Hto _ _ Hx) as [Hlt|Heq]; [by apply Htc|].
  apply closed_edge in Hy as [[? _]|[(? & _)|[? _]]]; lia.
Qed.

Hypothesis Hwf' : wf d'.

(** The source is the only node without incoming edges. *)
Lemma closed_root :
  ¬ cyclic (size d) (nx d) → (0 < size d)%nat → [size d] ≡ₚ rootNodes d'.
Proof.
  intros Hac Hpos. apply NoDup_Permutation;
    [apply NoDup_singleton|apply NoDup_keys_where|].
  intros b. rewrite list_elem_of_singleton, elem_of_rootNodes by done.
  rewrite cnt_zero. split.
  - intros ->. split; [lia|]. intros a Ha Hin.
    destruct (closed_edge_to a (size d)); [by split|lia..].
  - intros [Hb Hno]. assert (∀ a, ¬ edge (size d') (nx d') a b) as Hno'.
    { intros a [Ha Hin]. by apply (Hno a). }
    destruct (decide (b = size d)) as [|Hne]; [done|]. exfalso.
    destruct (decide (b < size d)%nat) as [Hlt|Hge].
    + destruct (decide (b ∈ rootNodes d)) as [Hr|Hr].
      * apply (Hno' (size d)), closed_edge. by right; right.
      * apply Hr, elem_of_rootNodes; [done|]. split; [done|].
        apply cnt_zero. intros a Ha Hin. apply (Hno' a), closed_edge. left. by split.
    + destruct (acyclic_leaf (size d) (nx d) Hac (wf_closed d Hwf) Hpos) as (a & Ha & Hn).
      apply (Hno' a), closed_edge. right; left. split_and!; [done..|lia].
Qed.
End closed_graph.

(** ** Executors and nodes *)

(** Every node has its executor, which schedules exactly that node. *)
Definition owned (d : dag) : Prop := ∀ k nd, nodes_ d !! k = Some nd →
  ∃ e, nexec nd = Some e ∧ nodes_of (callbacks_ (executor_of d e)) = [] ∧
    nodes_of (schedules_ (executor_of d e)) = [k].

(** An executor the graph does not know yet. *)
Definition fresh (d : dag) (e : nat) : Prop :=
  nodes_of (callbacks_ (executor_of d e)) = [] ∧
  nodes_of (schedules_ (executor_of d e)) = [].

Lemma nodes_of_app fs gs : nodes_of (fs ++ gs) = nodes_of fs ++ nodes_of gs.
Proof. unfold nodes_of. apply omap_app. Qed.

Lemma add_owned d e : owned d → fresh d e → owned (add e d).2.
Proof.
  intros Hown [Hcb Hsc] k nd. cbn.
  assert (∀ e', e' ≠ e → executor_of (add e d).2 e' = executor_of d e') as Hother.
  { intros e' Hne. unfold executor_of. cbn. by rewrite lookup_insert_ne. }
  assert (executor_of (add e d).2 e =
    mk_executor (callbacks_ (executor_of d e))
      (schedules_ (executor_of d e) ++ [ScheduleNode (size d)])) as Hme.
  { unfold executor_of at 1. cbn. by rewrite lookup_insert_eq. }
  intros [Hk|[Hge Hk]]%lookup_app_Some.
  - destruct (Hown k nd Hk) as (e' & He' & Hc & Hs). exists e'.
    assert (e' ≠ e) as Hne by (intros ->; by rewrite Hsc in Hs).
    change (nexec nd = Some e' ∧
      nodes_of (callbacks_ (executor_of (add e d).2 e')) = [] ∧
      nodes_of (schedules_ (executor_of (add e d).2 e')) = [k]).
    by rewrite Hother.
  - apply list_lookup_singleton_Some in Hk as [Hk <-]. exists e. cbn [nexec].
    change (Some e = Some e ∧
      nodes_of (callbacks_ (executor_of (add e d).2 e)) = [] ∧
      nodes_of (schedules_ (executor_of (add e d).2 e)) = [k]).
    rewrite Hme. cbn [callbacks_ schedules_]. rewrite nodes_of_app, Hcb, Hsc. cbn.
    unfold size. split_and!; [done..|]. f_equal. lia.
Qed.

Lemma wf_nodes d d' : nodes_ d' = nodes_ d → wf d → wf d'.
Proof.
  intros Hn [H1 H2 H3 H4]. assert (size d' = size d) as Hs by (unfold size; by rewrite Hn).
  assert (∀ x, nx d' x = nx d x) as Hx by (intros; unfold nx; by rewrite Hn).
  assert (∀ b, cnt (size d) (nx d') b = cnt (size d) (nx d) b) as Hc.
  { intros. apply cnt_ext. intros. by rewrite Hx. }
  split; rewrite ?Hs, ?Hn.
  - intros a b. unfold edge. rewrite Hx. apply H1.
  - intros b nd. rewrite Hc. apply H2.
  - intros b nd. rewrite Hc. apply H3.
  - unfold total. rewrite Hs. erewrite sum_with_ext; [exact H4|]. intros. by rewrite Hx.
Qed.

Lemma add_wf d e : wf d → wf (add e d).2.
Proof. intros Hwf. apply addNode_wf. by apply (wf_nodes d). Qed.

Lemma dependency_owned a b d d' : owned d → dependency a b d = Ret d' → owned d'.
Proof.
  intros Hown Hd k nd Hk.
  apply dependency_inv in Hd as (_ & _ & _ & He & Hne & _).
  assert ((nexec <$> nodes_ d') !! k = Some (nexec nd)) as Hl
    by (rewrite list_lookup_fmap, Hk; done).
  rewrite Hne, list_lookup_fmap in Hl.
  destruct (nodes_ d !! k) as [nd0|] eqn:Hk0; [|done]. cbn in Hl. simplify_eq.
  unfold executor_of. rewrite He. destruct (Hown k nd0 Hk0) as (e & ? & ? & ?).
  exists e. split_and!; [congruence|done..].
Qed.

(** ** The run *)

(** [a] stands before [b] in the list. *)
Definition before (a b : nat) (l : list nat) : Prop :=
  ∃ l1 l2 l3, l = l1 ++ a :: l2 ++ b :: l3.

Lemma topo_before m f E a b :
  topo m f E → edge m f a b → b ∈ E → before a b (rev E).
Proof.
  intros Ht Hab (E1 & E2 & ->)%list_elem_of_split.
  assert (a ∈ E2) as (F1 & F2 & ->)%list_elem_of_split
    by (eapply topo_tc; [done|by apply tc_once]).
  exists (rev F2), (rev F1), (rev E1).
  rewrite !rev_app_distr. cbn. rewrite rev_app_distr. cbn.
  by rewrite <-!(assoc_L (++)).
Qed.

Lemma before_app a b l1 l2 l :
  NoDup (l1 ++ l ++ l2) → a ∈ l → b ∈ l → before a b (l1 ++ l ++ l2) → before a b l.
Proof.
  intros Hnd Ha Hb (k1 & k2 & k3 & Heq).
  apply list_elem_of_lookup in Ha as [i Hi]. apply list_elem_of_lookup in Hb as [j Hj].
  assert ((l1 ++ l ++ l2) !! (length l1 + i)%nat = Some a) as Hi'.
  { rewrite lookup_app_r, lookup_app_l by (apply lookup_lt_Some in Hi; lia).
    rewrite <-Hi. f_equal. lia. }
  assert ((l1 ++ l ++ l2) !! (length l1 + j)%nat = Some b) as Hj'.
  { rewrite lookup_app_r, lookup_app_l by (apply lookup_lt_Some in Hj; lia).
    rewrite <-Hj. f_equal. lia. }
  assert ((l1 ++ l ++ l2) !! length k1 = Some a) as Hk.
  { rewrite Heq. by apply list_lookup_middle. }
  assert ((l1 ++ l ++ l2) !! (length k1 + S (length k2))%nat = Some b) as Hk'.
  { rewrite Heq, lookup_app_r by lia. replace (length k1 + S (length k2) - length k1)%nat
      with (S (length k2)) by lia. cbn. by apply list_lookup_middle. }
  pose proof (NoDup_lookup _ _ _ _ Hnd Hi' Hk). pose proof (NoDup_lookup _ _ _ _ Hnd Hj' Hk').
  exists (take i l), (take (j - i - 1) (drop (S i) l)), (drop (S j) l).
  rewrite <-(take_drop_middle l i a Hi) at 1. do 2 f_equal.
  assert (drop (S i) l !! (j - i - 1)%nat = Some b) as Hd.
  { rewrite lookup_drop, <-Hj. f_equal. lia. }
  rewrite <-(take_drop_middle _ _ _ Hd) at 1. do 2 f_equal.
  rewrite drop_drop. f_equal. lia.
Qed.

(** All nodes of the closed graph get reached, the source first and the sink
    last. *)
Lemma closed_order d d' E rem :
  wf d → size d' = S (S (size d)) → (∀ x, nx d' x = closed_nx d x) →
  ¬ cyclic (size d) (nx d) → (0 < size d)%nat →
  inv (size d') (nx d') (E ++ [size d]) rem → (∀ a, a ∈ E ++ [size d] → rem a = []) →
  ∃ order, E = S (size d) :: rev order ∧ order ≡ₚ seq 0 (size d) ∧
    ∀ a b, edge (size d) (nx d) a b → before a b order.
Proof.
  intros Hwf Hsz Hnx Hac Hpos Hinv Hdone.
  pose proof (closed_acyclic d d' Hwf Hsz Hnx Hac) as Hac'.
  assert (∀ b, (b < size d')%nat → b ∈ E ++ [size d]) as Hall.
  { intros b Hb. destruct (decide (b ∈ E ++ [size d])) as [|Hb']; [done|].
    exfalso. apply Hac'. by apply (inv_stuck _ _ _ _ b Hinv). }
  pose proof (inv_nodup _ _ _ _ Hinv) as Hnd. pose proof (inv_topo _ _ _ _ Hinv) as Htopo.
  destruct E as [|x E].
  { specialize (Hall (S (size d))). rewrite Hsz in Hall. set_solver by lia. }
  assert (x = S (size d)) as ->.
  { assert (∀ y, ¬ edge (size d') (nx d') x y) as Hno.
    { intros y Hy. apply (topo_head _ _ x (E ++ [size d]) Hnd Htopo Hac' y Hy).
      apply Hall. destruct (closed_edge_to d d' Hwf Hsz Hnx x y Hy); lia. }
    assert (x < size d')%nat as Hx by (eapply inv_lt; [exact Hinv|set_solver]).
    destruct (decide (x < size d)%nat) as [Hlt|Hge].
    - destruct (nx d x) as [|y l] eqn:Hx'; exfalso.
      + apply (Hno (S (size d))), (closed_edge d d' Hwf Hsz Hnx). right; left. done.
      + apply (Hno y), (closed_edge d d' Hwf Hsz Hnx). left. split; [done|].
        rewrite Hx'. set_solver.
    - destruct (decide (x = size d)) as [->|]; [|lia]. exfalso.
      cbn in Hnd. apply NoDup_cons in Hnd as [Hnd _]. apply Hnd. set_solver. }
  cbn in Hnd, Hall. apply NoDup_cons in Hnd as [Hs Hnd].
  pose proof Hnd as (HndE & Hsrc & _)%NoDup_app.
  exists (rev E). rewrite rev_involutive. split; [done|]. split.
  - apply NoDup_Permutation; [by rewrite <-Permutation_rev|apply NoDup_seq|].
    intros b. rewrite <-Permutation_rev, elem_of_seq. split.
    + intros Hb. assert (b < size d')%nat by (eapply inv_lt; [exact Hinv|set_solver]).
      assert (b ≠ size d) by (intros ->; apply (Hsrc (size d)); set_solver).
      assert (b ≠ S (size d)) by (intros ->; set_solver). lia.
    + intros Hb. specialize (Hall b ltac:(lia)).
      rewrite elem_of_cons, elem_of_app, list_elem_of_singleton in Hall.
      destruct Hall as [?|[?|?]]; lia || done.
  - intros a b Hab. pose proof (wf_closed d Hwf a b Hab) as Hb. pose proof Hab as [Ha _].
    assert (edge (size d') (nx d') a b) as Hab' by (apply (closed_edge d d' Hwf Hsz Hnx); by left).
    assert (∀ c, (c < size d)%nat → c ∈ E) as HinE.
    { intros c Hc. specialize (Hall c ltac:(lia)).
      rewrite elem_of_cons, elem_of_app, list_elem_of_singleton in Hall.
      destruct Hall as [?|[?|?]]; lia || done. }
    pose proof (topo_before _ _ _ a b Htopo Hab') as Hbf.
    cbn in Hbf. rewrite rev_app_distr in Hbf. cbn in Hbf.
    apply (before_app a b [size d] [S (size d)]).
    + change ([size d] ++ rev E ++ [S (size d)]) with ((size d :: rev E) ++ [S (size d)]).
      rewrite <-(rev_involutive [S (size d)]). apply NoDup_app. cbn. split_and!.
      * apply NoDup_cons. split; [|by rewrite <-Permutation_rev].
        rewrite <-Permutation_rev. intros Hin. apply (Hsrc _ Hin). set_solver.
      * intros c Hc ->%list_elem_of_singleton. rewrite <-Permutation_rev in Hc.
        set_solver by lia.
      * apply NoDup_singleton.
    + rewrite <-Permutation_rev. by apply HinE.
    + rewrite <-Permutation_rev. by apply HinE.
    + apply Hbf. specialize (HinE b Hb). set_solver.
Qed.

(** The executors of the closed graph. *)
Section closed_executors.
Context (d d' : dag) (e : nat).
Hypothesis Hsize : size d' = S (S (size d)).
Hypothesis Hex : execs d' = execs d.
Hypothesis Hnames : (nexec <$> nodes_ d') = (nexec <$> nodes_ d) ++ [None; Some e].

Lemma closed_exec k nd' : nodes_ d' !! k = Some nd' →
  (k < size d)%nat ∧ (∃ nd, nodes_ d !! k = Some nd ∧ nexec nd = nexec nd') ∨
  k = size d ∨ k = S (size d) ∧ nexec nd' = Some e.
Proof.
  intros Hk. assert ((nexec <$> nodes_ d') !! k = Some (nexec nd')) as Hl
    by (rewrite list_lookup_fmap, Hk; done).
  rewrite Hnames in Hl. apply lookup_app_Some in Hl as [Hl|[Hge Hl]].
  - left. rewrite list_lookup_fmap in Hl. destruct (nodes_ d !! k) as [nd|] eqn:Hnd; [|done].
    split; [by eapply lookup_lt_Some|]. exists nd. split; [done|]. cbn in Hl. congruence.
  - rewrite length_fmap in *. right. fold (size d) in *.
    destruct (k - size d)%nat as [|[|j]] eqn:E; cbn in Hl; simplify_eq;
      [left; lia|right; split; [lia|done]].
Qed.

Lemma closed_ename_sink : ename d' (S (size d)) = e.
Proof.
  unfold ename. destruct (lookup_lt_is_Some_2 (nodes_ d') (S (size d))) as [nd Hnd].
  { fold (size d'). lia. }
  rewrite Hnd. cbn. destruct (closed_exec _ _ Hnd) as [[? _]|[?|[_ ->]]]; [lia..|done].
Qed.

Lemma closed_ename k : (k < size d)%nat → ename d' k = ename d k.
Proof.
  intros Hk. unfold ename. destruct (lookup_lt_is_Some_2 (nodes_ d') k) as [nd Hnd].
  { fold (size d'). lia. }
  rewrite Hnd. destruct (closed_exec _ _ Hnd) as [[_ (nd0 & -> & Heq)]|[?|[? _]]]; [|lia..].
  cbn. by rewrite Heq.
Qed.

Lemma closed_owns a b :
  wf d → (∀ x, nx d' x = closed_nx d x) → owned d → fresh d e →
  edge (size d') (nx d') a b → owns d' b.
Proof.
  intros Hwf Hnx Hown [Hfc Hfs] Hab.
  destruct (closed_edge_to d d' Hwf Hsize Hnx a b Hab) as [Hb|Hb];
    destruct (lookup_lt_is_Some_2 (nodes_ d') b) as [nd Hnd]; try (fold (size d'); lia);
    destruct (closed_exec b nd Hnd) as [[? (nd0 & Hnd0 & Heq)]|[?|[? He]]]; try lia;
    unfold owns, executor_of in *; rewrite Hex.
  - destruct (Hown b nd0 Hnd0) as (e' & He' & Hc & Hs).
    exists nd, e'. split_and!; [done|congruence|done|by left].
  - exists nd, e. split; [done|]. split; [done|]. split; [done|]. right. split; [done|].
    pose proof (Hnx b) as Hn. unfold nx at 1 in Hn. rewrite Hnd in Hn. rewrite Hn.
    unfold closed_nx. by rewrite !decide_False by lia.
Qed.
End closed_executors.

(** The graphs a client can build: jobs added with executors of their own, and
    dependencies between jobs already added. *)
Inductive built : dag → Prop :=
| built_empty ex tr : built (mk_dag [] ex tr)
| built_add d e : built d → fresh d e → built (add e d).2
| built_dependency d a b d' : built d → dependency a b d = Ret d' → built d'.

Lemma built_ok d : built d → Z.of_nat (total d) < 2 ^ 64 → wf d ∧ owned d.
Proof.
  induction 1 as [ex tr|d e _ IH Hf|d a b d' _ IH Hd]; intros Ht.
  - split; [|by intros k nd ?]. split; [|by intros ? ? ?..|done].
    intros a b [Ha _]. unfold size in Ha. cbn in Ha. lia.
  - assert (total (add e d).2 = total d) as Heq
      by exact (total_addNode (Some e) (addSchedule e (ScheduleNode (size d)) d)).
    destruct IH as [Hwf Hown]; [lia|]. split; [by apply add_wf|by apply add_owned].
  - pose proof (total_dependency _ _ _ _ Hd). destruct IH as [Hwf Hown]; [lia|].
    split; [apply (dependency_wf a b d); [done|done|lia]|by eapply dependency_owned].
Qed.

(** C21. On every graph a client can build, [hasCycle] terminates and
    answers true exactly when some job depends on itself, directly or through
    other jobs. *)
Theorem hasCycle_correct d :
  built d → Z.of_nat (total d) < 2 ^ 64 →
  ∃ c, hasCycle d = Ret c ∧ (c = true ↔ cyclic (size d) (nx d)).
Proof. intros Hb Ht. apply hasCycle_spec. by apply built_ok. Qed.

(** C22. Closing and running an acyclic graph of jobs terminates, within a
    recursion depth of the number of jobs plus three, and runs every job
    exactly once, each after all the jobs it depends on, and then the sink. *)
Theorem dag_run_correct d e :
  built d → fresh d e → nodes_ d ≠ [] → hasCycle d = Ret false →
  Z.of_nat (total d + 2 * size d) < 2 ^ 64 →
  ∃ src d1 d2 order, go e d = Ret (src, d1) ∧
    schedule (size d + 3) src d1 = Ret d2 ∧
    order ≡ₚ seq 0 (size d) ∧
    rev (runs d2) = rev (runs d) ++ (ename d <$> order) ++ [e] ∧
    ∀ a b, edge (size d) (nx d) a b → before a b order.
Proof.
  intros Hb Hfresh Hne Hc Htot. destruct (built_ok d Hb) as [Hwf Hown]; [lia|].
  assert (¬ cyclic (size d) (nx d)) as Hac.
  { destruct (hasCycle_spec d Hwf) as (c & Hc' & Hcyc). intros Hcy%Hcyc. congruence. }
  assert (0 < size d)%nat as Hpos by (unfold size; destruct (nodes_ d); [done|cbn; lia]).
  destruct (go_ret d e Hwf Hc Htot) as (d1 & Hgo & Hwf1 & Hsz & Hex & Htr & Hne1 & Hnx).
  pose proof (inv_roots d1 [size d] Hwf1 (closed_root d d1 Hwf Hsz Hnx Hwf1 Hac Hpos)) as Hinv.
  assert (ok d1 d1 (nx d1)) as Hok.
  { split; [split_and!; [done..|]; by eauto|]. intros b nd Hbn.
    split; [by apply wf_wait|]. pose proof (cnt_le_total (size d1) (nx d1) b) as Hle.
    pose proof (wf_total d1 Hwf1). fold (total d1) in Hle. lia. }
  assert (∀ a b, edge (size d1) (nx d1) a b → owns d1 b) as Howns.
  { intros a b Hab. by apply (closed_owns d d1 e Hsz Hex Hne1 a). }
  destruct (schedule_spec d1 (wf_closed d1 Hwf1) Howns (size d + 3) (size d) d1 [size d]
              (nx d1) Hinv Hok) as (d2 & Hrun & new & rem & Hinv2 & _ & Hs & _ & Hnew & Hruns);
    [set_solver|done|cbn; lia|].
  destruct (closed_order d d1 new rem Hwf Hsz Hnx Hac Hpos Hinv2) as (order & -> & Hp & Hbf).
  { intros a [Ha| ->%list_elem_of_singleton]%elem_of_app; [by apply Hnew|done]. }
  exists (size d), d1, d2, order. split_and!; [done..| |done].
  rewrite Hruns. cbn [fmap list_fmap]. rewrite rev_app_distr. unfold runs. rewrite Htr.
  f_equal. cbn. rewrite (closed_ename_sink d d1 e Hsz Hne1). f_equal.
  change (list_fmap _ _ ?f ?l) with (map f l).
  rewrite map_rev, rev_involutive. apply map_ext_in. intros k Hk.
  apply (closed_ename d d1 e Hsz Hne1).
  assert (k ∈ seq 0 (size d)) as Hin%elem_of_seq; [|lia].
  rewrite <-Hp. by apply list_elem_of_In.
Qed.

(** The graph of DAGTest.cpp, for the witnesses. *)
Definition test_graph : dag :=
  match test_dag with Ret d => d | Err _ => mk_dag [] ∅ [] end.

Lemma built_dependencies es : ∀ d d', built d → dependencies es d = Ret d' → built d'.
Proof.
  induction es as [|[a b] es IH]; cbn; intros d d' Hb H; inv_ret; [done|].
  eapply IH; [|done]. by eapply built_dependency.
Qed.

Lemma test_graph_built : built test_graph.
Proof.
  assert (test_dag = Ret test_graph) as H by (vm_compute; reflexivity).
  eapply built_dependencies; [|exact H].
  repeat (apply built_add; [|split; reflexivity]). constructor.
Qed.

Lemma hasCycle_correct_witness :
  ∃ c, hasCycle test_graph = Ret c ∧ (c = true ↔ cyclic (size test_graph) (nx test_graph)).
Proof. apply (hasCycle_correct test_graph); [exact test_graph_built|reflexivity]. Defined.

Lemma dag_run_correct_witness :
  ∃ src d1 d2 order, go 5 test_graph = Ret (src, d1) ∧
    schedule (size test_graph + 3) src d1 = Ret d2 ∧
    order ≡ₚ seq 0 (size test_graph) ∧
    rev (runs d2) = rev (runs test_graph) ++ (ename test_graph <$> order) ++ [5%nat] ∧
    ∀ a b, edge (size test_graph) (nx test_graph) a b → before a b order.
Proof.
  apply (dag_run_correct test_graph 5).
  - exact test_graph_built.
  - split; reflexivity.
  - discriminate.
  - reflexivity.
  - reflexivity.
Defined.
End dag_run.
