(* ===== verification/Scheduler.v ===== *)
(** parallel/Scheduler.h and Graph.h: jobs by name, and the graph run by actors. ActorDAG::execute
    queues an executor as a fiber, which some thread of a pool runs, and which counts the jobs after
    it down when its function has returned; the fibers of several threads interleave, access by access. *)
From S2P Require Import Prelude Dag.

(** ** ActorDAG *)

Module ActorDag.
Import Dag.

(** A fiber: queued, in the executor's function, or in Executor::schedule() after it, where [keys] are the nodes that DAG::schedule
    has still to count down and [fs] the schedule functions still to call. *)
Inductive task :=
| Queued (e : nat)
| Running (e : nat)
| Calling (keys : list nat) (fs : list closure).

(** The functions of executors beginning and returning, latest first. *)
Inductive hev := Began (e : nat) | Ended (e : nat).

Record state := mk_state { dag_ : dag; tasks : list task; hist : list hev }.

(** One access of the fiber [j]. *)
Definition exec (j : nat) (s : state) : option (outcome state) :=
  t ← tasks s !! j;
  let become t := <[j := t]> (tasks s) in
  match t with
  | Queued e => Some (Ret (mk_state (log (Run e) (dag_ s)) (become (Running e)) (Began e :: hist s)))
  | Running e => Some (Ret (mk_state (dag_ s) (become (Calling [] (schedules_ (executor_of (dag_ s) e)))) (Ended e :: hist s)))
  | Calling [] [] => Some (Ret (mk_state (dag_ s) (delete j (tasks s)) (hist s)))
  | Calling [] (ScheduleNode i :: fs) => Some (
      n ← of_option Undefined (nodes_ (dag_ s) !! i);
      Ret (mk_state (dag_ s) (become (Calling (nexts n) fs)) (hist s)))
  | Calling [] (Other tag :: fs) => Some (Ret (mk_state (log (Call tag) (dag_ s)) (become (Calling [] fs)) (hist s)))
  | Calling (key :: keys) fs => Some (
      '(w, n, d) ← decrement key (dag_ s);
      if w =? 0 then
        e ← of_option Undefined (nexec n);
        Ret (mk_state d (become (Calling keys fs) ++ [Queued e]) (hist s))
      else Ret (mk_state d (become (Calling keys fs)) (hist s)))
  end.
Inductive step : state → state → Prop := step_exec j s s' : exec j s = Some (Ret s') → step s s'.

(** The client's fiber has yielded: its callback, the bound ActorDAG::schedule of the source, is called. *)
Definition start (src : nat) (d : dag) : state := mk_state d [Calling [] [ScheduleNode src]] [].
End ActorDag.

(** ** Graph and Scheduler *)

Module Scheduler.
Import Dag.

(** struct Graph: the edges by name. *)
Definition Graph := list (string * list string).
Definition graph_add (node : string) (next : list string) (g : Graph) : Graph := g ++ [(node, next)].
Fixpoint graph_get (node : string) (g : Graph) : outcome (string * list string) :=
  match g with
  | [] => Err (Thrown node)
  | p :: g => if decide (p.1 = node) then Ret p else graph_get node g
  end.

Record scheduler := mk_scheduler { dag_ : dag; graph_ : Graph; map_ : gmap string nat; setup_ : bool }.
Definition empty : scheduler := mk_scheduler (mk_dag [] ∅ []) [] ∅ false.

(** void add(executor, name, next) *)
Definition add (e : nat) (name : string) (next : list string) (s : scheduler) : scheduler :=
  let '(key, d) := Dag.add e (dag_ s) in
  mk_scheduler d (graph_add name next (graph_ s)) (<[name := key]> (map_ s)) (setup_ s).
(** void init(graph, ctx), with the executors that makeReflectObject makes for the names. *)
Fixpoint init (jobs : list (nat * string * list string)) (s : scheduler) : scheduler :=
  match jobs with [] => s | (e, name, next) :: jobs => init jobs (add e name next s) end.

(** map_[name]: an unknown name is inserted with the key 0. *)
Definition lookup_key (name : string) (m : gmap string nat) : nat * gmap string nat :=
  match m !! name with Some k => (k, m) | None => (0%nat, <[name := 0%nat]> m) end.

Fixpoint set_nexts (node : string) (next : list string) (d : dag) (m : gmap string nat) : outcome (dag * gmap string nat) :=
  match next with
  | [] => Ret (d, m)
  | q :: next =>
      let '(a, m) := lookup_key node m in
      let '(b, m) := lookup_key q m in
      d ← dependency a b d;
      set_nexts node next d m
  end.
Fixpoint set_edges (g : Graph) (d : dag) (m : gmap string nat) : outcome (dag * gmap string nat) :=
  match g with
  | [] => Ret (d, m)
  | (node, next) :: g => '(d, m) ← set_nexts node next d m; set_edges g d m
  end.
(** void setDependency() *)
Definition setDependency (s : scheduler) : outcome scheduler :=
  '(d, m) ← set_edges (graph_ s) (dag_ s) (map_ s);
  Ret (mk_scheduler d (graph_ s) m true).

(** void run(), by the fiber of the executor [e], up to its yield: the fibers that it starts. *)
Definition run (e : nat) (s : scheduler) : outcome (option ActorDag.state * scheduler) :=
  if Dag.empty (dag_ s) then Ret (None, s) else
  s ← setDependency s;
  '(src, d) ← go e (dag_ s);
  let d := addCallback e (ScheduleNode src) d in
  Ret (Some (ActorDag.start src d), mk_scheduler d (graph_ s) (map_ s) (setup_ s)).
End Scheduler.

(** The newest fiber first. *)
Example diamond : let s := Scheduler.init [(0%nat, "a", ["c"; "d"]); (1%nat, "b", ["d"]); (2%nat, "c", ["d"]); (3%nat, "d", [])]%string Scheduler.empty in
  match Scheduler.run 9 s with
  | Ret (Some st, _) =>
      (fix go n st := match n with O => ActorDag.hist st | S n =>
         match ActorDag.exec (length (ActorDag.tasks st) - 1) st with Some (Ret st) => go n st | _ => ActorDag.hist st end end) 100%nat st
      = rev [ActorDag.Began 0; ActorDag.Ended 0; ActorDag.Began 2; ActorDag.Ended 2; ActorDag.Began 1; ActorDag.Ended 1; ActorDag.Began 3; ActorDag.Ended 3; ActorDag.Began 9; ActorDag.Ended 9]%nat
  | _ => False
  end.
Proof. vm_compute. reflexivity. Qed.
