(* ===== verification/SchedulerProof.v ===== *)
(** Graphs of jobs run by concurrent fibers: in every interleaving each job begins once, after the jobs it depends
    on have ended, the client is resumed after all of them, and the run takes a number of steps that is known
    when it starts. *)
From S2P Require Import Prelude Countdown Dag DagFacts DagRun Scheduler.

Module SchedulerProof.
Import Dag ActorDag.

(** Replacing one of two related lists' elements. *)
Lemma Forall2_replace {A B} (R R' : A → B → Prop) l k j x y :
  Forall2 R l k → k !! j = Some y → (∀ j' x' y', j' ≠ j → l !! j' = Some x' → k !! j' = Some y' → R x' y' → R' x' y') → R' x y →
  Forall2 R' (<[j := x]> l) k.
Proof.
  intros H Hy HR Hx. apply Forall2_same_length_lookup_2; [rewrite length_insert; by eapply Forall2_length|].
  intros i a b Ha Hb. destruct (decide (i = j)) as [->|Hne].
  - assert (j < length l)%nat by (apply Forall2_length in H; rewrite H; by eapply lookup_lt_Some).
    rewrite list_lookup_insert_eq in Ha by done. by simplify_eq.
  - rewrite list_lookup_insert_ne in Ha by done. apply (HR i); try done. by eapply Forall2_lookup_lr.
Qed.
Lemma Forall2_remove {A B} (R : A → B → Prop) l k j : Forall2 R l k → Forall2 R (delete j l) (delete j k).
Proof. intros H. revert j. induction H as [|x y l k Hxy H IH]; intros [|j]; cbn; auto. Qed.
Lemma NoDup_remove {A} (k : list A) j : NoDup k → NoDup (delete j k).
Proof. intros H. eapply sublist_NoDup; [exact H|]. apply sublist_delete. Qed.

Section actors.
Context (d0 : dag) (src snk : nat).
Let n := size d0.
Let g := nx d0.
Hypothesis Hclosed : closed n g.
Hypothesis Hacyclic : ¬ cyclic n g.
Hypothesis Hsrc : (src < n)%nat.
(** Each node but the source has an executor of its own, which schedules it, or nothing. *)
Definition scheduled (k : nat) : Prop := ∃ nd e, nodes_ d0 !! k = Some nd ∧ nexec nd = Some e ∧
  (nodes_of (schedules_ (executor_of d0 e)) = [k] ∨ nodes_of (schedules_ (executor_of d0 e)) = [] ∧ g k = []).
Hypothesis Hown : ∀ k, (k < n)%nat → k ≠ src → scheduled k.
(** Only the sink is without successors. *)
Hypothesis Hsink : ∀ k, (k < n)%nat → g k = [] → k = snk.

Inductive phase := Unreached | InQueue | InRun | InCalls.
#[local] Instance phase_eq_dec : EqDecision phase.
Proof. solve_decision. Defined.

Definition task_of (rem : nat → list nat) (ph : nat → phase) (t : task) (i : nat) : Prop :=
  match t with
  | Queued e => ph i = InQueue ∧ rem i = g i ∧ i ≠ src ∧ ename d0 i = e
  | Running e => ph i = InRun ∧ rem i = g i ∧ i ≠ src ∧ ename d0 i = e
  | Calling keys fs => ph i = InCalls ∧ ((nodes_of fs = [] ∧ keys = rem i) ∨ (keys = [] ∧ nodes_of fs = [i] ∧ rem i = g i))
  end.

(** What has to have ended when [b] begins. *)
Definition needs (b a : nat) : Prop := a ≠ src ∧ (edge n g a b ∨ b = snk ∧ (a < n)%nat ∧ a ≠ snk).
(** The history by node: (k, false) is the beginning of node k's function, (k, true) its end. *)
Definition name_hev (x : nat * bool) : hev := if x.2 then Ended (ename d0 x.1) else Began (ename d0 x.1).
Definition ordered (gh : list (nat * bool)) : Prop :=
  ∀ g1 b g2, gh = g1 ++ (b, false) :: g2 → ∀ a, needs b a → (a, true) ∈ g2.

Record ginv (s : state) (E : list nat) (rem : nat → list nat) (who : list nat) (ph : nat → phase) (gh : list (nat * bool)) : Prop := {
  gi_inv : inv n g E rem;
  gi_rem : ∀ a b, b ∈ rem a → b ∈ g a;
  gi_ok : ok d0 (dag_ s) rem;
  gi_tasks : Forall2 (task_of rem ph) (tasks s) who;
  gi_who : NoDup who;
  gi_in : ∀ i, i ∈ who → i ∈ E;
  gi_src : src ∈ E ∧ ph src = InCalls;
  gi_E : ∀ i, i ∈ E ↔ ph i ≠ Unreached;
  gi_idle : ∀ i, i ∈ E → i ∉ who → rem i = [] ∧ ph i = InCalls;
  gi_hist : hist s = map name_hev gh;
  gi_nodup : NoDup gh;
  gi_began : ∀ i, (i, false) ∈ gh ↔ i ≠ src ∧ (ph i = InRun ∨ ph i = InCalls);
  gi_ended : ∀ i, (i, true) ∈ gh ↔ i ≠ src ∧ ph i = InCalls;
  gi_ordered : ordered gh
}.

(** A reached node has edges left only while its task has; before it has ended it has them all. *)
Lemma early_edges s E rem who ph gh i : ginv s E rem who ph gh → ph i ≠ InCalls → rem i = g i.
Proof.
  intros H Hp. destruct (decide (i ∈ E)) as [Hi|Hi]; [|by apply (inv_full _ _ _ _ (gi_inv _ _ _ _ _ _ H))].
  destruct (decide (i ∈ who)) as [Hw|Hw]; [|by destruct (gi_idle _ _ _ _ _ _ H i Hi Hw)].
  apply list_elem_of_lookup in Hw as [j Hj]. destruct (Forall2_lookup_r _ _ _ _ _ (gi_tasks _ _ _ _ _ _ H) Hj) as (t & _ & Ht).
  destruct t; cbn in Ht; naive_solver.
Qed.
(** So the predecessors of a reached node have ended. *)
Lemma reached_pred s E rem who ph gh a b : ginv s E rem who ph gh → b ∈ E → edge n g a b → ph a = InCalls.
Proof.
  intros H Hb [Ha Hab]. destruct (decide (ph a = InCalls)) as [|Hp]; [done|]. pose proof (early_edges _ _ _ _ _ _ a H Hp) as Hr.
  assert (b < n)%nat as Hbn by (by eapply inv_lt; [apply H|]). apply (inv_zero _ _ _ _ (gi_inv _ _ _ _ _ _ H) b Hbn) in Hb.
  pose proof (proj1 (cnt_zero n rem b) Hb a Ha) as Hno. by rewrite Hr in Hno.
Qed.
(** And when the sink has been reached, everything else has. *)
Lemma reached_sink s E rem who ph gh a : ginv s E rem who ph gh → snk ∈ E → (a < n)%nat → a ≠ snk → ph a = InCalls.
Proof.
  intros H Hs Ha Hne. destruct (decide (ph a = InCalls)) as [|Hp]; [done|]. exfalso. apply Hacyclic.
  destruct (no_start_cyclic (flip (edge n g)) n (fun x => (x < n)%nat ∧ x ≠ snk ∧ ph x ≠ InCalls) a) as [x Hx]; [|tauto|done|exists x; by apply tc_flip].
  clear a Ha Hne Hp. intros x (Hx & Hxs & Hp). destruct (g x) as [|c l] eqn:Hg; [by destruct Hxs; apply Hsink|].
  assert (edge n g x c) as Hxc by (split; [done|rewrite Hg; set_solver]). exists c. split; [|done]. split; [by eapply Hclosed|]. split.
  - intros ->. destruct Hp. by apply (reached_pred _ _ _ _ _ _ x snk H).
  - intros Hc. assert (c ∈ E) as HcE by (apply (gi_E _ _ _ _ _ _ H); congruence). destruct Hp. by apply (reached_pred _ _ _ _ _ _ x c H).
Qed.
Lemma reached_needs s E rem who ph gh b a : ginv s E rem who ph gh → b ∈ E → needs b a → (a, true) ∈ gh.
Proof.
  intros H Hb [Hne Hn]. apply (gi_ended _ _ _ _ _ _ H). split; [done|]. destruct Hn as [Hab|(-> & Ha & Has)]; [by eapply reached_pred|by eapply reached_sink].
Qed.
Lemma ordered_end gh k : ordered gh → ordered ((k, true) :: gh).
Proof. intros Ho [|x g1] b g2 Hg a Ha; [done|]. injection Hg as <- Hg. by eapply Ho. Qed.
Lemma ordered_begin gh k : ordered gh → (∀ a, needs k a → (a, true) ∈ gh) → ordered ((k, false) :: gh).
Proof. intros Ho Hk [|x g1] b g2 Hg a Ha; [injection Hg as <- <-; auto|]. injection Hg as <- Hg. by eapply Ho. Qed.

(** ** One access keeps the invariant *)

Definition moved (ph : nat → phase) (i : nat) (x : phase) (a : nat) : phase := if decide (a = i) then x else ph a.
Lemma moved_eq ph i x : moved ph i x i = x.
Proof. unfold moved. by rewrite decide_True. Qed.
Lemma moved_ne ph i x a : a ≠ i → moved ph i x a = ph a.
Proof. intros. unfold moved. by rewrite decide_False. Qed.

Lemma task_of_frame rem ph rem' ph' t i : rem' i = rem i → ph' i = ph i → task_of rem ph t i → task_of rem' ph' t i.
Proof. intros Hr Hp. destruct t; cbn; by rewrite Hr, Hp. Qed.
Lemma who_ne s E rem who ph gh j j' i i' : ginv s E rem who ph gh → who !! j = Some i → j' ≠ j → who !! j' = Some i' → i' ≠ i.
Proof. intros H Hj Hne Hj' ->. destruct Hne. exact (NoDup_lookup who j' j i (gi_who _ _ _ _ _ _ H) Hj' Hj). Qed.

(** The task [j] of node [i] becomes [t], and nothing else of the other nodes changes. *)
Lemma tasks_become s E rem who ph gh j i t rem' ph' : ginv s E rem who ph gh → who !! j = Some i →
  (∀ a, a ≠ i → a ∈ E → rem' a = rem a ∧ ph' a = ph a) → task_of rem' ph' t i → Forall2 (task_of rem' ph') (<[j := t]> (tasks s)) who.
Proof.
  intros H Hi Hf Ht. eapply Forall2_replace; [apply H|exact Hi| |done]. intros j' t' i' Hne _ Hj' Ht'.
  destruct (Hf i') as [Hr Hp]; [by eapply who_ne|apply (gi_in _ _ _ _ _ _ H); by eapply list_elem_of_lookup_2|]. by eapply task_of_frame.
Qed.

Section case.
Context (s : state) (E : list nat) (rem : nat → list nat) (who : list nat) (ph : nat → phase) (gh : list (nat * bool)).
Hypothesis H : ginv s E rem who ph gh.
Context (j i : nat) (Hi : who !! j = Some i).

Lemma i_reached : i ∈ E ∧ (i < n)%nat.
Proof. assert (i ∈ E) as Hin by (apply (gi_in _ _ _ _ _ _ H); by eapply list_elem_of_lookup_2). split; [done|]. by apply (inv_lt _ _ _ _ (gi_inv _ _ _ _ _ _ H)). Qed.

(** The node's phase moves on; the graph and the counts stay. *)
Lemma phase_moves d' t x k gh' : ok d0 d' rem → task_of rem (moved ph i x) t i → i ≠ src → x ≠ Unreached →
  gh' = (i, k) :: gh → (i, k) ∉ gh → ordered gh' →
  (∀ y, (y, false) ∈ gh' ↔ y ≠ src ∧ (moved ph i x y = InRun ∨ moved ph i x y = InCalls)) →
  (∀ y, (y, true) ∈ gh' ↔ y ≠ src ∧ moved ph i x y = InCalls) →
  ginv (mk_state d' (<[j := t]> (tasks s)) (name_hev (i, k) :: hist s)) E rem who (moved ph i x) gh'.
Proof.
  intros Hok Ht Hne Hx -> Hk Ho Hb He. destruct i_reached as [HiE _]. split; cbn [dag_ tasks hist]; try done; try apply H.
  - eapply tasks_become; [exact H|exact Hi| |done]. intros a Ha _. split; [done|by apply moved_ne].
  - destruct (gi_src _ _ _ _ _ _ H) as [Hs1 Hs2]. split; [done|]. by rewrite moved_ne by congruence.
  - intros a. destruct (decide (a = i)) as [->|Ha]; [by rewrite moved_eq|]. rewrite moved_ne by done. apply H.
  - intros a HaE Ha. rewrite moved_ne by (intros ->; apply Ha; by eapply list_elem_of_lookup_2). by apply H.
  - cbn. by rewrite (gi_hist _ _ _ _ _ _ H).
  - constructor; [done|apply H].
Qed.

Lemma case_begin e : tasks s !! j = Some (Queued e) →
  ginv (mk_state (log (Run e) (dag_ s)) (<[j := Running e]> (tasks s)) (Began e :: hist s)) E rem who (moved ph i InRun) ((i, false) :: gh).
Proof.
  intros Hj. pose proof (Forall2_lookup_lr _ _ _ _ _ _ (gi_tasks _ _ _ _ _ _ H) Hj Hi) as (Hp & Hr & Hne & <-). destruct i_reached as [HiE _].
  apply (phase_moves _ _ InRun false); try done.
  - apply (gi_ok _ _ _ _ _ _ H).
  - cbn. by rewrite moved_eq.
  - rewrite (gi_began _ _ _ _ _ _ H). naive_solver congruence.
  - apply ordered_begin; [apply H|]. intros a Ha. by eapply reached_needs.
  - intros y. rewrite elem_of_cons, (gi_began _ _ _ _ _ _ H). unfold moved. destruct (decide (y = i)) as [->|Hy]; naive_solver congruence.
  - intros y. rewrite elem_of_cons, (gi_ended _ _ _ _ _ _ H). unfold moved. destruct (decide (y = i)) as [->|Hy]; naive_solver congruence.
Qed.

Lemma case_end e : tasks s !! j = Some (Running e) →
  ginv (mk_state (dag_ s) (<[j := Calling [] (schedules_ (executor_of (dag_ s) e))]> (tasks s)) (Ended e :: hist s)) E rem who (moved ph i InCalls) ((i, true) :: gh).
Proof.
  intros Hj. pose proof (Forall2_lookup_lr _ _ _ _ _ _ (gi_tasks _ _ _ _ _ _ H) Hj Hi) as (Hp & Hr & Hne & <-). destruct i_reached as [HiE Hin].
  assert (executor_of (dag_ s) (ename d0 i) = executor_of d0 (ename d0 i)) as ->.
  { destruct (gi_ok _ _ _ _ _ _ H) as [(He & _) _]. unfold executor_of. by rewrite He. }
  apply (phase_moves _ _ InCalls true); try done.
  - apply (gi_ok _ _ _ _ _ _ H).
  - cbn. rewrite moved_eq. split; [done|]. destruct (Hown i Hin Hne) as (nd & e & Hnd & Hne' & Hs). unfold ename. rewrite Hnd. cbn. rewrite Hne'. cbn.
    destruct Hs as [Hs|[Hs Hg]]; [by right|left]. rewrite Hr. by split.
  - rewrite (gi_ended _ _ _ _ _ _ H). naive_solver congruence.
  - apply ordered_end, H.
  - intros y. rewrite elem_of_cons, (gi_began _ _ _ _ _ _ H). unfold moved. destruct (decide (y = i)) as [->|Hy]; naive_solver congruence.
  - intros y. rewrite elem_of_cons, (gi_ended _ _ _ _ _ _ H). unfold moved. destruct (decide (y = i)) as [->|Hy]; naive_solver congruence.
Qed.

(** A task that goes on with its calls: node [i] keeps its phase. *)
Lemma case_call d' t E' rem' who' ph' ts' : ok d0 d' rem' → inv n g E' rem' → (∀ a b, b ∈ rem' a → b ∈ g a) →
  Forall2 (task_of rem' ph') ts' who' → NoDup who' → (∀ a, a ∈ who' → a ∈ E') → (∀ a, a ∈ E → a ∈ E') →
  (∀ a, a ∈ E' ↔ ph' a ≠ Unreached) → (∀ a, a ∈ E' → a ∉ who' → rem' a = [] ∧ ph' a = InCalls) →
  (∀ a, ph' a ≠ ph a → ph a = Unreached ∧ ph' a = InQueue) → t = ts' →
  ginv (mk_state d' t (hist s)) E' rem' who' ph' gh.
Proof.
  intros Hok Hinv Hrem Hts Hnd Hin Hsub HE Hidle Hph ->.
  assert (Hsame : ∀ a, ph a ≠ Unreached → ph' a = ph a).
  { intros a Ha. destruct (decide (ph' a = ph a)) as [|Hn]; [done|]. by destruct (Hph a Hn). }
  assert (Hkeep : ∀ a x, x = InRun ∨ x = InCalls → ph' a = x ↔ ph a = x).
  { intros a x Hx. destruct (decide (ph' a = ph a)) as [->|Hn]; [done|]. destruct (Hph a Hn) as [E1 E2]. rewrite E1, E2. naive_solver. }
  split; cbn [dag_ tasks hist]; try done; try apply H.
  - destruct (gi_src _ _ _ _ _ _ H) as [H1 H2]. split; [by apply Hsub|]. rewrite Hsame; congruence.
  - intros a. rewrite (gi_began _ _ _ _ _ _ H), !Hkeep by auto. done.
  - intros a. rewrite (gi_ended _ _ _ _ _ _ H), Hkeep by auto. done.
Qed.

Lemma case_finish : tasks s !! j = Some (Calling [] []) → ginv (mk_state (dag_ s) (delete j (tasks s)) (hist s)) E rem (delete j who) ph gh.
Proof.
  intros Hj. pose proof (Forall2_lookup_lr _ _ _ _ _ _ (gi_tasks _ _ _ _ _ _ H) Hj Hi) as (Hp & Hr).
  assert (rem i = []) as Hr' by (destruct Hr as [[_ <-]|(_ & Hs & _)]; done).
  eapply case_call; try reflexivity; try done; try apply H.
  - apply Forall2_remove, H.
  - apply NoDup_remove, H.
  - intros a Ha. apply (gi_in _ _ _ _ _ _ H). eapply elem_of_sublist; [exact Ha|]. apply sublist_delete.
  - intros a HaE Ha. destruct (decide (a = i)) as [->|Hne]; [done|]. apply (gi_idle _ _ _ _ _ _ H); [done|]. intros [j' Hj']%list_elem_of_lookup.
    apply Ha. destruct (decide (j' = j)) as [->|Hjj]; [congruence|]. apply list_elem_of_lookup.
    destruct (decide (j' < j)%nat); [exists j'; by rewrite list_lookup_delete_lt|].
    exists (j' - 1)%nat. rewrite list_lookup_delete_ge by lia. replace (S (j' - 1)) with j' by lia. done.
Qed.

Lemma case_same d' t : ok d0 d' rem → task_of rem ph t i → ginv (mk_state d' (<[j := t]> (tasks s)) (hist s)) E rem who ph gh.
Proof.
  intros Hok Ht. eapply case_call; try reflexivity; try done; try apply H.
  eapply tasks_become; [exact H|exact Hi|done|done].
Qed.

(** Counting one node down; at zero it is queued. *)
Lemma case_count key keys fs : tasks s !! j = Some (Calling (key :: keys) fs) → ∃ nd d',
  decrement key (dag_ s) = Ret (Z.of_nat (cnt n (upd rem i keys) key), nd, d') ∧
  (cnt n (upd rem i keys) key = 0%nat → key ∉ E ∧ (key < n)%nat ∧ nexec nd = Some (ename d0 key) ∧
    ginv (mk_state d' (<[j := Calling keys fs]> (tasks s) ++ [Queued (ename d0 key)]) (hist s)) (key :: E) (upd rem i keys) (who ++ [key]) (moved ph key InQueue) gh) ∧
  (cnt n (upd rem i keys) key ≠ 0%nat → ginv (mk_state d' (<[j := Calling keys fs]> (tasks s)) (hist s)) E (upd rem i keys) who ph gh).
Proof.
  intros Hj. pose proof (Forall2_lookup_lr _ _ _ _ _ _ (gi_tasks _ _ _ _ _ _ H) Hj Hi) as (Hp & [[Hfs Hr]|(? & _)]); [|done]. symmetry in Hr.
  destruct i_reached as [HiE Hin]. assert (i ∈ who) as Hiw by (by eapply list_elem_of_lookup_2).
  assert (edge n g i key) as Hik.
  { split; [done|]. apply (gi_rem _ _ _ _ _ _ H). rewrite Hr. set_solver. }
  assert (key < n)%nat as Hk by (by eapply Hclosed).
  destruct (ok_decrement d0 _ rem i key keys (gi_ok _ _ _ _ _ _ H) Hin Hk Hr) as (nd & d' & Hdec & Hnd & Hok' & _).
  destruct (inv_use _ _ _ _ _ _ _ (gi_inv _ _ _ _ _ _ H) HiE Hr Hk) as (_ & Hz & Hnz).
  assert (Hrem : ∀ a b, b ∈ upd rem i keys a → b ∈ g a).
  { intros a b. unfold upd. case_decide as Ea; [|apply H]. subst a. intros Hb. apply (gi_rem _ _ _ _ _ _ H). rewrite Hr. set_solver. }
  assert (Hidle : ∀ a, a ∈ E → a ∉ who → upd rem i keys a = [] ∧ ph a = InCalls).
  { intros a HaE Ha. rewrite upd_ne by congruence. by apply (gi_idle _ _ _ _ _ _ H). }
  exists nd, d'. split; [done|]. split.
  - intros H0. destruct (Hz H0) as [HkE Hinv']. assert (key ∉ who) as Hkw by (intros ?; by apply HkE, (gi_in _ _ _ _ _ _ H)).
    assert (key ≠ src) as Hks by (intros ->; apply HkE, (gi_src _ _ _ _ _ _ H)). assert (i ≠ key) as Hne by congruence.
    split; [done|]. split; [done|]. split.
    { destruct (Hown key Hk Hks) as (nd0 & e & Hnd0 & He & _). destruct (gi_ok _ _ _ _ _ _ H) as [(_ & _ & Hs) _].
      destruct (Hs key nd Hnd) as (nd1 & Hnd1 & -> & _). unfold ename. rewrite Hnd0. cbn. rewrite He. cbn. congruence. }
    eapply case_call; try reflexivity; try done.
    + apply Forall2_app; [eapply tasks_become; [exact H|exact Hi| |]|].
      * intros a Ha HaE. rewrite upd_ne, moved_ne by congruence. done.
      * cbn. rewrite moved_ne, upd_eq by done. auto.
      * constructor; [|constructor]. cbn. rewrite moved_eq, upd_ne by done. split_and!; try done. by apply (inv_full _ _ _ _ (gi_inv _ _ _ _ _ _ H)).
    + apply NoDup_app. split; [apply H|]. split; [set_solver|apply NoDup_singleton].
    + intros a [Ha| ->%list_elem_of_singleton]%elem_of_app; [|set_solver]. right. by apply (gi_in _ _ _ _ _ _ H).
    + set_solver.
    + intros a. rewrite elem_of_cons. destruct (decide (a = key)) as [->|Ha]; [rewrite moved_eq; naive_solver|]. rewrite moved_ne by done.
      rewrite (gi_E _ _ _ _ _ _ H). naive_solver.
    + intros a [->|HaE]%elem_of_cons Ha; [set_solver|]. rewrite moved_ne by (intros ->; done). apply Hidle; set_solver.
    + intros a. destruct (decide (a = key)) as [->|Ha]; [|by rewrite moved_ne]. intros _. rewrite moved_eq. split; [|done].
      destruct (decide (ph key = Unreached)) as [|Hu]; [done|]. by apply (gi_E _ _ _ _ _ _ H) in Hu.
  - intros H0. eapply case_call; try reflexivity; try done; try apply H; [by apply Hnz|].
    eapply tasks_become; [exact H|exact Hi| |].
    + intros a Ha _. by rewrite upd_ne.
    + cbn. rewrite upd_eq. auto.
Qed.
End case.

(** ** The steps left *)

Definition weight_calls (fs : list closure) : nat :=
  sum_list_with (fun f => match f with ScheduleNode k => S (length (g k)) | Other _ => 1%nat end) fs.
Definition weight_of (e : nat) : nat := weight_calls (schedules_ (executor_of d0 e)).
Definition weight (t : task) : nat :=
  match t with
  | Queued e => 3 + weight_of e
  | Running e => 2 + weight_of e
  | Calling keys fs => 1 + length keys + weight_calls fs
  end.
Definition unreached (E : list nat) : nat :=
  sum_list_with (fun i => if decide (i ∈ E) then 0 else 3 + weight_of (ename d0 i))%nat (seq 0 n).
Definition left_over (s : state) (E : list nat) : nat := sum_list_with weight (tasks s) + unreached E.

Lemma sum_insert {A} (w : A → nat) l j x y : l !! j = Some x → (sum_list_with w (<[j := y]> l) + w x = sum_list_with w l + w y)%nat.
Proof.
  revert j. induction l as [|z l IH]; intros [|j] Hj; try done; [injection Hj as ->; cbn; lia|]. specialize (IH j Hj).
  change (<[S j := y]> (z :: l)) with (z :: <[j := y]> l). cbn [sum_list_with]. lia.
Qed.
Lemma sum_delete {A} (w : A → nat) l j x : l !! j = Some x → (sum_list_with w (delete j l) + w x = sum_list_with w l)%nat.
Proof.
  revert j. induction l as [|z l IH]; intros [|j] Hj; try done; [injection Hj as ->; cbn; lia|]. specialize (IH j Hj).
  change (delete (S j) (z :: l)) with (z :: delete j l). cbn [sum_list_with]. lia.
Qed.
Lemma unreached_cons key E : key ∉ E → (key < n)%nat → (unreached (key :: E) + (3 + weight_of (ename d0 key)) = unreached E)%nat.
Proof.
  intros HkE Hk. unfold unreached.
  pose proof (sum_with_upd (fun i => if decide (i ∈ key :: E) then 0 else 3 + weight_of (ename d0 i))%nat
    (fun i => if decide (i ∈ E) then 0 else 3 + weight_of (ename d0 i))%nat key (seq 0 n) (NoDup_seq _ _)) as Hs. cbn beta in Hs.
  rewrite (decide_True (P := key ∈ key :: E)), (decide_False (P := key ∈ E)) in Hs by set_solver.
  rewrite Hs; [lia|apply elem_of_seq; lia|]. intros a Ha. destruct (decide (a ∈ E)); [by rewrite decide_True by set_solver|by rewrite decide_False by set_solver].
Qed.

Definition lives (s : state) (k : nat) (gh : list (nat * bool)) : Prop := ∃ E rem who ph, ginv s E rem who ph gh ∧ left_over s E = k.

Lemma exec_lives s k gh j r : lives s k gh → exec j s = Some r →
  ∃ s' k' gh', r = Ret s' ∧ k = S k' ∧ lives s' k' gh' ∧ ∃ new, gh' = new ++ gh.
Proof.
  intros (E & rem & who & ph & H & <-) He. unfold exec in He. destruct (tasks s !! j) as [t|] eqn:Hj; [|done]. cbn [mbind option_bind] in He.
  destruct (Forall2_lookup_l _ _ _ _ _ (gi_tasks _ _ _ _ _ _ H) Hj) as (i & Hi & Ht).
  pose proof (fun y => sum_insert weight (tasks s) j t y Hj) as Hsum. unfold left_over.
  assert (Hsched : ∀ e, weight_calls (schedules_ (executor_of (dag_ s) e)) = weight_of e).
  { intros e. destruct (gi_ok _ _ _ _ _ _ H) as [(Hex & _) _]. unfold weight_of, executor_of. by rewrite Hex. }
  destruct t as [e|e|[|key keys] fs].
  - injection He as <-. eexists _, _, _. split; [done|]. split; [|split; [eexists E, rem, who, _; split; [by eapply case_begin|reflexivity]|by eexists [_]]].
    specialize (Hsum (Running e)). unfold left_over. cbn in *. lia.
  - injection He as <-. eexists _, _, _. split; [done|]. split; [|split; [eexists E, rem, who, _; split; [by eapply case_end|reflexivity]|by eexists [_]]].
    specialize (Hsum (Calling [] (schedules_ (executor_of (dag_ s) e)))). unfold left_over. cbn in *. rewrite Hsched in Hsum. lia.
  - destruct fs as [|[k|tag] fs].
    + injection He as <-. eexists _, _, _. split; [done|]. split; [|split; [exists E, rem, (delete j who), ph; split; [by eapply case_finish|reflexivity]|by exists []]].
      pose proof (sum_delete weight (tasks s) j _ Hj). unfold left_over. cbn in *. lia.
    + destruct Ht as (Hp & [[Hfs _]|(_ & Hfs & Hr)]); [done|]. cbn in Hfs. injection Hfs as -> Hfs. destruct (i_reached _ _ _ _ _ _ H j i Hi) as [_ Hin].
      destruct (ok_lookup d0 _ rem i (gi_ok _ _ _ _ _ _ H) Hin) as [nd Hnd]. rewrite Hnd in He. cbn in He. injection He as <-.
      rewrite (ok_nexts d0 _ rem i nd (gi_ok _ _ _ _ _ _ H) Hnd).
      eexists _, _, _. split; [done|]. split; [|split; [exists E, rem, who, ph; split; [|reflexivity]|by exists []]].
      * specialize (Hsum (Calling (nx d0 i) fs)). unfold left_over. cbn in *. fold g (weight_calls fs) in Hsum |- *.
        lia.
      * eapply case_same; [exact H|exact Hi|apply H|]. cbn. rewrite Hr. auto.
    + injection He as <-. eexists _, _, _. split; [done|]. split; [|split; [exists E, rem, who, ph; split; [|reflexivity]|by exists []]].
      * specialize (Hsum (Calling [] fs)). unfold left_over. cbn in *. fold (weight_calls fs) in Hsum. lia.
      * eapply case_same; [exact H|exact Hi|apply (gi_ok _ _ _ _ _ _ H)|exact Ht].
  - destruct (case_count _ _ _ _ _ _ H j i Hi key keys fs Hj) as (nd & d' & Hdec & Hz & Hnz). rewrite Hdec in He. cbn in He.
    specialize (Hsum (Calling keys fs)). cbn in Hsum. destruct (Z.eqb_spec (Z.of_nat (cnt n (upd rem i keys) key)) 0) as [E0|E0].
    + destruct (Hz ltac:(lia)) as (HkE & Hk & Hex & Hg). rewrite Hex in He. cbn in He. injection He as <-.
      eexists _, _, _. split; [done|]. split; [|split; [eexists (key :: E), _, _, _; split; [exact Hg|reflexivity]|by exists []]].
      unfold left_over. cbn [tasks]. rewrite sum_list_with_app. pose proof (unreached_cons key E HkE Hk). cbn. lia.
    + injection He as <-. eexists _, _, _. split; [done|]. split; [|split; [eexists E, _, _, _; split; [apply Hnz; lia|reflexivity]|by exists []]].
      unfold left_over. cbn. lia.
Qed.

(** ** A whole run *)

Lemma start_lives : inv n g [src] g → ok d0 d0 g → ∃ k, lives (start src d0) k [].
Proof.
  intros Hinv Hok. exists (left_over (start src d0) [src]), [src], g, [src], (moved (fun _ => Unreached) src InCalls). split; [|done].
  split; cbn [start dag_ tasks hist]; try done.
  - constructor; [|constructor]. cbn. rewrite moved_eq. auto.
  - apply NoDup_singleton.
  - split; [set_solver|apply moved_eq].
  - intros i. rewrite list_elem_of_singleton. unfold moved. case_decide; naive_solver.
  - constructor.
  - intros i. unfold moved. case_decide; set_solver.
  - intros i. unfold moved. case_decide; set_solver.
  - intros [|? ?] b g2 E; discriminate E.
Qed.

Lemma lives_nsteps m : ∀ s k gh s', lives s k gh → nsteps step m s s' → (m ≤ k)%nat ∧ ∃ gh', lives s' (k - m) gh'.
Proof.
  induction m as [|m IH]; intros s k gh s' Hl Hs; inversion Hs as [|? ? s1 ? [j ? ? He] Hs']; subst; [rewrite Nat.sub_0_r; split; [lia|eauto]|].
  destruct (exec_lives _ _ _ _ _ Hl He) as (s2 & k' & gh' & E & -> & Hl' & _). injection E as <-.
  destruct (IH _ _ _ _ Hl' Hs') as (Hle & gh2 & Hl2). split; [lia|]. by exists gh2.
Qed.

(** When no fiber is left, every node's function has ended. *)
Lemma lives_done s k gh : lives s k gh → tasks s = [] → k = 0%nat ∧ ∀ b, (b < n)%nat → b ≠ src → (b, true) ∈ gh.
Proof.
  intros (E & rem & who & ph & H & <-) Ht. pose proof (gi_tasks _ _ _ _ _ _ H) as Hf. rewrite Ht in Hf. inversion Hf; subst.
  assert (Hall : ∀ b, (b < n)%nat → b ∈ E).
  { intros b Hb. destruct (decide (b ∈ E)) as [|Hn]; [done|]. destruct Hacyclic. eapply inv_stuck; [apply H| |exact Hb|exact Hn].
    intros a Ha. apply (gi_idle _ _ _ _ _ _ H a Ha), not_elem_of_nil. }
  split.
  - unfold left_over, unreached. rewrite Ht. cbn. assert (∀ l, (∀ b, b ∈ l → b ∈ E) → sum_list_with (fun i => if decide (i ∈ E) then 0 else 3 + weight_of (ename d0 i))%nat l = 0%nat) as Hs.
    { intros l. induction l as [|b l IH]; intros Hl; [done|]. cbn. rewrite decide_True by (apply Hl; set_solver). apply IH. set_solver. }
    apply Hs. intros b Hb%elem_of_seq. apply Hall. lia.
  - intros b Hb Hne. apply (gi_ended _ _ _ _ _ _ H). split; [done|]. apply (gi_idle _ _ _ _ _ _ H b (Hall b Hb)), not_elem_of_nil.
Qed.
Lemma lives_zero s gh : lives s 0 gh → tasks s = [].
Proof. intros (E & rem & who & ph & H & Hk). unfold left_over in Hk. destruct (tasks s) as [|[e|e|keys fs] ts]; cbn in Hk; [done|lia..]. Qed.

Lemma lives_safe s k gh : lives s k gh → (∀ j err, exec j s ≠ Some (Err err)) ∧ hist s = map name_hev gh ∧ NoDup gh ∧ ordered gh ∧
  ∀ i x, (i, x) ∈ gh → (i < n)%nat ∧ i ≠ src.
Proof.
  intros Hl. split.
  - intros j err He. destruct (exec_lives _ _ _ _ _ Hl He) as (s' & k' & gh' & E & _). discriminate E.
  - destruct Hl as (E & rem & who & ph & H & _). split; [apply H|]. split; [apply H|]. split; [apply H|].
    intros i x Hi. assert (i ≠ src ∧ ph i ≠ Unreached) as [Hne Hp].
    { destruct x; [apply (gi_ended _ _ _ _ _ _ H) in Hi|apply (gi_began _ _ _ _ _ _ H) in Hi]; naive_solver congruence. }
    split; [|done]. apply (gi_E _ _ _ _ _ _ H) in Hp. by apply (inv_lt _ _ _ _ (gi_inv _ _ _ _ _ _ H)).
Qed.
End actors.
End SchedulerProof.
