(* ===== verification/SchedulerSpec.v ===== *)
(** The Scheduler end to end: jobs given by name, their dependencies, and the fibers that run them. *)
From S2P Require Import Prelude Countdown Dag DagFacts DagRun Scheduler SchedulerProof.

Module SchedulerSpec.
Import Dag ActorDag SchedulerProof.

(** ** The graph that go leaves, as the fibers find it *)
Section closed_dag.
Context (d : dag) (e : nat).
Hypothesis Hwf : wf d.
Hypothesis Hown : owned d.
Hypothesis Hfresh : fresh d e.
Hypothesis Hpos : (0 < size d)%nat.
Hypothesis Hc : hasCycle d = Ret false.
Hypothesis Htot : Z.of_nat (total d + 2 * size d) < 2 ^ 64.

Lemma schedules_addCallback f d1 e' : schedules_ (executor_of (addCallback e f d1) e') = schedules_ (executor_of d1 e').
Proof. unfold addCallback, executor_of. cbn. destruct (decide (e' = e)) as [->|Hne]; [by rewrite lookup_insert_eq|by rewrite lookup_insert_ne]. Qed.

Lemma go_actors : ∃ d1, let d0 := addCallback e (ScheduleNode (size d)) d1 in
  go e d = Ret (size d, d1) ∧ size d0 = S (S (size d)) ∧ ename d0 (S (size d)) = e ∧ (∀ k, (k < size d)%nat → ename d0 k = ename d k) ∧
  (∀ a b, edge (size d) (nx d) a b → edge (size d0) (nx d0) a b) ∧
  closed (size d0) (nx d0) ∧ ¬ cyclic (size d0) (nx d0) ∧ (∀ k, (k < size d0)%nat → k ≠ size d → scheduled d0 k) ∧
  (∀ k, (k < size d0)%nat → nx d0 k = [] → k = S (size d)) ∧ inv (size d0) (nx d0) [size d] (nx d0) ∧ ok d0 d0 (nx d0).
Proof.
  assert (Hac : ¬ cyclic (size d) (nx d)).
  { destruct (hasCycle_spec d Hwf) as (c & Hc' & Hcyc). intros Hcy%Hcyc. congruence. }
  destruct (go_ret d e Hwf Hc Htot) as (d1 & Hgo & Hwf1 & Hsz & Hex & Htr & Hne1 & Hnx). exists d1. intros d0.
  assert (Hwf0 : wf d0) by (by apply (wf_nodes d1)). assert (Hnx0 : ∀ x, nx d0 x = closed_nx d x) by apply Hnx. assert (Hsz0 : size d0 = S (S (size d))) by apply Hsz.
  split; [done|]. split; [done|]. split; [by apply (closed_ename_sink d d1 e Hsz Hne1)|]. split; [by apply (closed_ename d d1 e Hsz Hne1)|].
  split; [intros a b Hab; apply (closed_edge d d0 Hwf Hsz0 Hnx0); by left|]. split; [by apply wf_closed|]. split; [by apply (closed_acyclic d d0)|].
  split; [|split; [|split]].
  - intros k Hk Hks. destruct (lookup_lt_is_Some_2 (nodes_ d0) k Hk) as [nd Hnd].
    destruct (closed_exec d d1 e Hsz Hne1 k nd Hnd) as [[Hk' (nd0 & Hnd0 & He)]|[?|[-> He]]]; [| |].
    + destruct (Hown k nd0 Hnd0) as (e' & He' & _ & Hs). exists nd, e'. split; [done|]. split; [congruence|]. left.
      unfold d0. rewrite schedules_addCallback. unfold executor_of. by rewrite Hex.
    + done.
    + exists nd, e. split; [done|]. split; [done|]. right. split; [|rewrite Hnx0; unfold closed_nx; by rewrite !decide_False by lia].
      unfold d0. rewrite schedules_addCallback. unfold executor_of. rewrite Hex. apply Hfresh.
  - intros k Hk. rewrite Hnx0. unfold closed_nx. destruct (decide (k < size d)%nat); [by case_decide|]. destruct (decide (k = size d)) as [->|]; [|lia].
    intros Hr.
    exfalso. assert (∃ r, r ∈ rootNodes d) as [r Hrr]; [|rewrite Hr in Hrr; by apply elem_of_nil in Hrr].
    destruct (decide (rootNodes d = [])) as [Hn|Hn]; [|destruct (rootNodes d) as [|r ?]; [done|exists r; set_solver]].
    destruct Hac. apply (no_start_cyclic (edge (size d) (nx d)) (size d) (fun b => b < size d)%nat 0); [|done|done].
    intros b Hb. destruct (decide (Exists (fun a => b ∈ nx d a) (seq 0 (size d)))) as [He|He].
    + apply Exists_exists in He as (a & Ha%elem_of_seq & Hab). exists a. split; [lia|]. split; [lia|done].
    + assert (b ∈ rootNodes d) as Hbr; [|rewrite Hn in Hbr; by apply elem_of_nil in Hbr]. apply elem_of_rootNodes; [done|]. split; [done|].
      apply cnt_zero. intros a Ha Hab. apply He, Exists_exists. exists a. split; [apply elem_of_seq; lia|done].
  - apply (inv_roots d0 [size d] Hwf0 (closed_root d d0 Hwf Hsz0 Hnx0 Hwf0 Hac Hpos)).
  - split; [split_and!; [done..|]; by eauto|]. intros b nd Hbn. split; [by apply wf_wait|].
    pose proof (cnt_le_total (size d0) (nx d0) b) as Hle. pose proof (wf_total d0 Hwf0). fold (total d0) in Hle. lia.
Qed.
End closed_dag.

(** ** Jobs by name *)

Import Scheduler.
#[local] Abbreviation job := (nat * string * list string)%type.
Definition exs (js : list job) : list nat := (fun j => j.1.1) <$> js.
Definition names (js : list job) : list string := (fun j => j.1.2) <$> js.
Definition edges_of (js : list job) : Graph := (fun j => (j.1.2, j.2)) <$> js.

(** What the scheduler holds after the jobs [js] were added. *)
Record holds (s : scheduler) (js : list job) : Prop := {
  h_built : built (Scheduler.dag_ s);
  h_exec : nexec <$> nodes_ (Scheduler.dag_ s) = Some <$> exs js;
  h_nx : ∀ x, nx (Scheduler.dag_ s) x = [];
  h_graph : graph_ s = edges_of js;
  h_map : ∀ i nm, names js !! i = Some nm → map_ s !! nm = Some i;
  h_fresh : ∀ e, e ∉ exs js → fresh (Scheduler.dag_ s) e
}.

Lemma h_size s js : holds s js → size (Scheduler.dag_ s) = length js.
Proof. intros H. pose proof (f_equal length (h_exec _ _ H)) as E. unfold exs in E. by rewrite !length_fmap in E. Qed.

Lemma add_holds s js e nm next : holds s js → e ∉ exs js → nm ∉ names js → holds (Scheduler.add e nm next s) (js ++ [(e, nm, next)]).
Proof.
  intros H He Hn. pose proof (h_size s js H) as Hsz. split; cbn [Scheduler.add Dag.add addNode Scheduler.dag_ graph_ map_].
  - apply (built_add (Scheduler.dag_ s) e); [apply H|by apply (h_fresh _ _ H)].
  - cbn. unfold exs. rewrite !fmap_app, (h_exec _ _ H). done.
  - intros x. exact (eq_trans (nx_addNode (Some e) (addSchedule e (ScheduleNode (size (Scheduler.dag_ s))) (Scheduler.dag_ s)) x) (h_nx _ _ H x)).
  - unfold edges_of, graph_add. rewrite fmap_app, (h_graph _ _ H). done.
  - intros i nm' Hi. unfold names in Hi. rewrite fmap_app in Hi. apply lookup_app_Some in Hi as [Hi|[Hge Hi]].
    + rewrite lookup_insert_ne; [by apply (h_map _ _ H)|]. intros ->. apply Hn. by eapply list_elem_of_lookup_2.
    + apply list_lookup_singleton_Some in Hi as [Hi <-]. cbn. rewrite lookup_insert_eq. rewrite length_fmap in *. f_equal. change (size (Scheduler.dag_ s) = i).
      lia.
  - intros e' He'. unfold exs in He'. rewrite fmap_app in He'. assert (e' ∉ exs js ∧ e' ≠ e) as [H1 H2] by (cbn in He'; set_solver).
    destruct (h_fresh _ _ H e' H1) as [F1 F2]. unfold fresh, executor_of in *. cbn. by rewrite lookup_insert_ne.
Qed.

Lemma init_holds js : ∀ s done, holds s done → NoDup (exs (done ++ js)) → NoDup (names (done ++ js)) → holds (init js s) (done ++ js).
Proof.
  induction js as [|[[e nm] next] js IH]; intros s done H He Hn; [by rewrite app_nil_r|]. cbn [init].
  change ((e, nm, next) :: js) with ([(e, nm, next)] ++ js) in *. rewrite app_assoc in He, Hn |- *. apply IH; [|done|done]. unfold exs, names in *.
  rewrite !fmap_app in He. rewrite !fmap_app in Hn. apply NoDup_app in He as (He & _). apply NoDup_app in Hn as (Hn & _).
  apply add_holds; [done| |]; unfold exs, names; [apply NoDup_app in He as (_ & He & _)|apply NoDup_app in Hn as (_ & Hn & _)]; cbn in *; set_solver.
Qed.
Lemma empty_holds : holds Scheduler.empty [].
Proof. split; try done; by constructor. Qed.

(** *** setDependency *)
Definition key_of (m : gmap string nat) (q : string) : nat := default 0%nat (m !! q).
Definition key_edges (m : gmap string nat) (g : Graph) : list (nat * nat) := p ← g; (fun q => (key_of m p.1, key_of m q)) <$> p.2.
Lemma lookup_known m q : is_Some (m !! q) → lookup_key q m = (key_of m q, m).
Proof. intros [k Hk]. unfold lookup_key, key_of. by rewrite Hk. Qed.
Lemma dependencies_app es1 es2 d : dependencies (es1 ++ es2) d = (d ← dependencies es1 d; dependencies es2 d).
Proof. revert d. induction es1 as [|[a b] es1 IH]; intros d; [done|]. cbn. destruct (dependency a b d); cbn; auto. Qed.
Lemma set_nexts_eq m node next : is_Some (m !! node) → Forall (fun q => is_Some (m !! q)) next → ∀ d,
  set_nexts node next d m = (d ← dependencies ((fun q => (key_of m node, key_of m q)) <$> next) d; Ret (d, m)).
Proof.
  intros Hn. induction 1 as [|q next Hq _ IH]; intros d; [done|]. cbn. rewrite !lookup_known by done.
  destruct (dependency (key_of m node) (key_of m q) d) as [d'|]; cbn; [apply IH|done].
Qed.
Lemma set_edges_eq m g : Forall (fun p => is_Some (m !! p.1) ∧ Forall (fun q => is_Some (m !! q)) p.2) g → ∀ d,
  set_edges g d m = (d ← dependencies (key_edges m g) d; Ret (d, m)).
Proof.
  induction 1 as [|[node next] g [Hn Hq] _ IH]; intros d; [done|]. cbn [set_edges]. unfold key_edges. cbn [mbind list_bind].
  rewrite dependencies_app, set_nexts_eq by done. cbn. destruct (dependencies _ d) as [d'|]; cbn; [apply IH|done].
Qed.

(** *** The graph of the jobs *)

(** Job [b] is to run after job [a]: the name of [b] is among the next ones of [a]. Jobs are told by their executors. *)
Definition depends (js : list job) (a b : nat) : Prop := ∃ ja jb, ja ∈ js ∧ jb ∈ js ∧ ja.1.1 = a ∧ jb.1.1 = b ∧ jb.1.2 ∈ ja.2.
Record jobs_ok (js : list job) : Prop := {
  jo_exs : NoDup (exs js);
  jo_names : NoDup (names js);
  jo_known : ∀ j q, j ∈ js → q ∈ j.2 → q ∈ names js;
  jo_some : js ≠ [];
  jo_size : Z.of_nat (sum_list_with (fun j : job => length j.2) js + 2 * length js) < 2 ^ 64
}.

Lemma key_edges_length m (l : list job) : length (key_edges m (edges_of l)) = sum_list_with (fun j : job => length j.2) l.
Proof.
  induction l as [|j l IH]; [done|]. unfold key_edges, edges_of in *. rewrite fmap_cons, bind_cons, length_app, length_fmap. cbn [sum_list_with snd fst]. by rewrite IH.
Qed.

Section jobs.
Context (js : list job) (Hjs : jobs_ok js).
Let s0 := init js Scheduler.empty.
Let m := map_ s0.

Lemma s0_holds : holds s0 js.
Proof. apply (init_holds js Scheduler.empty []); [apply empty_holds|apply Hjs|apply Hjs]. Qed.
Lemma key_at i j : js !! i = Some j → m !! j.1.2 = Some i ∧ key_of m j.1.2 = i.
Proof.
  intros Hi. assert (m !! j.1.2 = Some i) as E; [|split; [done|unfold key_of; by rewrite E]].
  apply (h_map _ _ s0_holds). unfold names. by rewrite list_lookup_fmap, Hi.
Qed.
Lemma name_at q : q ∈ names js → ∃ i j, js !! i = Some j ∧ j.1.2 = q.
Proof. intros (j & -> & [i Hi]%list_elem_of_lookup)%list_elem_of_fmap. eauto. Qed.
Lemma known_names : Forall (fun p => is_Some (m !! p.1) ∧ Forall (fun q => is_Some (m !! q)) p.2) (edges_of js).
Proof.
  assert (Hk : ∀ q, q ∈ names js → is_Some (m !! q)) by (intros q (i & j & Hi & <-)%name_at; destruct (key_at i j Hi) as [-> _]; eauto).
  apply list.Forall_forall. intros p (j & -> & Hj)%list_elem_of_fmap. cbn. split.
  - apply Hk. apply list_elem_of_fmap. eauto.
  - apply list.Forall_forall. intros q Hq. apply Hk. by eapply (jo_known _ Hjs).
Qed.

Definition es : list (nat * nat) := key_edges m (edges_of js).
Lemma in_es a b : (a, b) ∈ es ↔ ∃ ja jb, js !! a = Some ja ∧ js !! b = Some jb ∧ jb.1.2 ∈ ja.2.
Proof.
  unfold es, key_edges. rewrite list_elem_of_bind. split.
  - intros (p & Hab & (ja & -> & [i Hi]%list_elem_of_lookup)%list_elem_of_fmap). cbn in Hab. apply list_elem_of_fmap in Hab as (q & [= -> ->] & Hq).
    destruct (name_at q) as (k & jb & Hk & <-); [apply (jo_known _ Hjs ja); [by eapply list_elem_of_lookup_2|done]|].
    destruct (key_at i ja Hi) as [_ ->], (key_at k jb Hk) as [_ ->]. eauto 6.
  - intros (ja & jb & Ha & Hb & Hq). exists (ja.1.2, ja.2). split.
    + apply list_elem_of_fmap. exists jb.1.2. destruct (key_at a ja Ha) as [_ E1], (key_at b jb Hb) as [_ E2]. cbn. by rewrite E1, E2.
    + apply list_elem_of_fmap. exists ja. split; [done|]. by eapply list_elem_of_lookup_2.
Qed.
Lemma es_length : length es = sum_list_with (fun j : job => length j.2) js.
Proof. apply key_edges_length. Qed.

Lemma in_targets a b l : b ∈ targets_of a l ↔ (a, b) ∈ l.
Proof.
  unfold targets_of. rewrite list_elem_of_omap. split.
  - intros ([a' b'] & Hin & Hd). cbn in Hd. destruct (decide (a' = a)) as [->|]; by simplify_eq.
  - intros Hin. exists (a, b). split; [done|]. cbn. by rewrite decide_True.
Qed.

Lemma prepared : ∃ d1, setDependency s0 = Ret (mk_scheduler d1 (graph_ s0) m true) ∧ wf d1 ∧ owned d1 ∧ size d1 = length js ∧
  (∀ k, ename d1 k = default 0%nat (exs js !! k)) ∧ (∀ e, e ∉ exs js → fresh d1 e) ∧
  (∀ a b, edge (size d1) (nx d1) a b ↔ (a, b) ∈ es) ∧ total d1 = length es.
Proof.
  pose proof s0_holds as H. pose proof (h_size _ _ H) as Hsz. assert (Ht0 : total (Scheduler.dag_ s0) = 0%nat).
  { unfold total. induction (seq 0 (size (Scheduler.dag_ s0))) as [|x l IH]; [done|]. cbn. by rewrite IH, (h_nx _ _ H). }
  destruct (built_ok _ (h_built _ _ H)) as [Hwf Hown]; [lia|].
  assert (Hin : ∀ a b, (a, b) ∈ es → (a < size (Scheduler.dag_ s0))%nat ∧ (b < size (Scheduler.dag_ s0))%nat).
  { intros a b (ja & jb & Ha%lookup_lt_Some & Hb%lookup_lt_Some & _)%in_es. lia. }
  destruct (dependencies_ret es _ Hwf Hin) as (d1 & Hd & Hwf1 & Hs1 & Hx1 & Ht1 & Hn1 & Htot & Hnx1); [pose proof (jo_size _ Hjs); rewrite es_length; lia|].
  exists d1. unfold setDependency. rewrite (h_graph _ _ H), (set_edges_eq m) by apply known_names. fold es. rewrite Hd. cbn. split; [done|]. split; [done|].
  assert (built d1) as Hb1 by (eapply built_dependencies; [apply (h_built _ _ H)|exact Hd]).
  split; [apply (built_ok _ Hb1); pose proof (jo_size _ Hjs); rewrite Htot, es_length; lia|]. split; [lia|].
  split; [|split; [|split]].
  - intros k. unfold ename. pose proof (f_equal (fun l => mjoin (l !! k)) Hn1) as E. cbn in E. rewrite (h_exec _ _ H), !list_lookup_fmap in E.
    destruct (nodes_ d1 !! k), (exs js !! k); cbn in *; try done; by rewrite E.
  - intros e He. destruct (h_fresh _ _ H e He) as [F1 F2]. unfold fresh, executor_of in *. by rewrite Hx1.
  - intros a b. unfold edge. rewrite Hnx1, (h_nx _ _ H). cbn. rewrite in_targets. split; [tauto|]. intros Hab. split; [|done]. destruct (Hin a b Hab). lia.
  - rewrite Htot, Ht0. done.
Qed.

(** *** Keys and executors *)
Definition ex (k : nat) : nat := default 0%nat (exs js !! k).
Lemma ex_at i j : js !! i = Some j → ex i = j.1.1.
Proof. intros Hi. unfold ex, exs. by rewrite list_lookup_fmap, Hi. Qed.
Lemma ex_inj a b : (a < length js)%nat → (b < length js)%nat → ex a = ex b → a = b.
Proof.
  intros [ja Ha]%lookup_lt_is_Some_2 [jb Hb]%lookup_lt_is_Some_2 E. rewrite (ex_at a ja Ha), (ex_at b jb Hb) in E.
  apply (NoDup_lookup (exs js) a b ja.1.1 (jo_exs _ Hjs)); unfold exs; rewrite list_lookup_fmap; [by rewrite Ha|rewrite Hb; cbn; by rewrite E].
Qed.
Lemma ex_in x : x ∈ exs js ↔ ∃ k, (k < length js)%nat ∧ ex k = x.
Proof.
  split.
  - intros (j & -> & [i Hi]%list_elem_of_lookup)%list_elem_of_fmap. exists i. split; [by eapply lookup_lt_Some|by apply ex_at].
  - intros (k & [j Hj]%lookup_lt_is_Some_2 & <-). rewrite (ex_at k j Hj). apply list_elem_of_fmap. exists j. split; [done|]. by eapply list_elem_of_lookup_2.
Qed.
Lemma es_lt a b : (a, b) ∈ es → (a < length js)%nat ∧ (b < length js)%nat.
Proof. intros (ja & jb & ?%lookup_lt_Some & ?%lookup_lt_Some & _)%in_es. done. Qed.
Lemma es_depends a b : (a, b) ∈ es → depends js (ex a) (ex b).
Proof.
  intros (ja & jb & Ha & Hb & Hq)%in_es. exists ja, jb. rewrite (ex_at a ja Ha), (ex_at b jb Hb). split_and!; try done; by eapply list_elem_of_lookup_2.
Qed.
Lemma depends_es x y : depends js x y → ∃ a b, (a, b) ∈ es ∧ ex a = x ∧ ex b = y.
Proof.
  intros (ja & jb & [a Ha]%list_elem_of_lookup & [b Hb]%list_elem_of_lookup & <- & <- & Hq). exists a, b.
  split; [apply in_es; eauto|]. by rewrite (ex_at a ja Ha), (ex_at b jb Hb).
Qed.
Lemma cyclic_depends k g : (∀ a b, edge k g a b ↔ (a, b) ∈ es) → cyclic k g ↔ ∃ x, tc (depends js) x x.
Proof.
  intros He. assert (Hfwd : ∀ a b, tc (edge k g) a b → tc (depends js) (ex a) (ex b)).
  { intros a b H. induction H as [a b H|a c b H _ IH]; [by apply tc_once, es_depends, He|]. eapply tc_l; [by apply es_depends, He|done]. }
  assert (Hbwd : ∀ x y, tc (depends js) x y → ∃ a b, tc (edge k g) a b ∧ ex a = x ∧ ex b = y).
  { intros x y H. induction H as [x y H|x z y H _ (c & b & IH & <- & <-)].
    - apply depends_es in H as (a & b & H%He & <- & <-). exists a, b. split; [by apply tc_once|done].
    - apply depends_es in H as (a & c' & H & <- & E). exists a, b. split; [|done].
      assert (c < length js)%nat as Hc by (inversion IH as [? ? Hx|? ? ? Hx]; subst; apply He, es_lt in Hx; tauto).
      apply ex_inj in E as ->; [|by apply (es_lt a c')|done]. eapply tc_l; [by apply He|done]. }
  split; [intros [a Ha]; eauto|]. intros [x Hx]. destruct (Hbwd x x Hx) as (a & b & Hab & <- & E).
  assert (a = b) as ->; [|by exists b]. apply ex_inj; [| |done].
  - inversion Hab as [? ? H|? ? ? H]; subst; apply He, es_lt in H; tauto.
  - clear E Hx. induction Hab as [a b H|a c b H _ IH]; [apply He, es_lt in H; tauto|done].
Qed.

Lemma jobs_pos : (0 < length js)%nat.
Proof. assert (∀ l : list job, l ≠ [] → (0 < length l)%nat) as H by (intros [|? ?] ?; [done|cbn; lia]). apply H, Hjs. Qed.

(** *** A state of a run, told by executors *)

Section told.
Context (d0 : dag) (e : nat) (gh : list (nat * bool)).
Let src := length js.
Let snk := S (length js).
Hypothesis He : e ∉ exs js.
Hypothesis Hsnk : ename d0 snk = e.
Hypothesis Hex : ∀ k, (k < length js)%nat → ename d0 k = ex k.
Hypothesis Hdom : ∀ i x, (i, x) ∈ gh → (i < S (S (length js)))%nat ∧ i ≠ src.

Lemma node_inj a b : (a < S (S (length js)))%nat → a ≠ src → (b < S (S (length js)))%nat → b ≠ src → ename d0 a = ename d0 b → a = b.
Proof.
  intros Ha Has Hb Hbs E. subst src snk. destruct (decide (a = S (length js))) as [->|Ha'], (decide (b = S (length js))) as [->|Hb']; [done| | |].
  - rewrite Hsnk, Hex in E by lia. destruct He. apply ex_in. exists b. split; [lia|done].
  - rewrite Hsnk, Hex in E by lia. destruct He. apply ex_in. exists a. split; [lia|done].
  - rewrite !Hex in E by lia. apply ex_inj; [lia|lia|done].
Qed.
Lemma told_nodup : NoDup gh → NoDup (map (name_hev d0) gh).
Proof.
  intros Hnd. assert (Hd := Hdom). clear Hdom. induction Hnd as [|[a x] l Ha Hnd IH]; [constructor|]. cbn. constructor.
  - intros ([b y] & E & Hb)%list_elem_of_fmap. apply Ha. unfold name_hev in E. cbn in E.
    destruct (Hd a x ltac:(set_solver)), (Hd b y ltac:(set_solver)).
    destruct x, y; try done; injection E as E; by rewrite (node_inj a b).
  - apply IH. intros i y Hi. apply (Hd i y). set_solver.
Qed.
(** An event in the history is one of a node, and what is before it is before that. *)
Lemma told_split b h1 h2 : (b < S (S (length js)))%nat → b ≠ src → map (name_hev d0) gh = h1 ++ Began (ename d0 b) :: h2 →
  ∃ g1 g2, gh = g1 ++ (b, false) :: g2 ∧ h2 = map (name_hev d0) g2.
Proof.
  intros Hb Hbs E. apply map_eq_app in E as (g1 & g' & -> & _ & E). apply map_eq_cons in E as ([b' x] & g2 & -> & E & <-).
  exists g1, g2. destruct x; unfold name_hev in E; cbn in E; [done|]. injection E as E. destruct (Hdom b' false) as [H1 H2]; [set_solver|].
  split; [|done]. by rewrite (node_inj b' b).
Qed.
Lemma told_ended a g2 : (a, true) ∈ g2 → Ended (ename d0 a) ∈ map (name_hev d0) g2.
Proof. intros Ha. apply list_elem_of_fmap. by exists (a, true). Qed.
End told.

Definition run_ok (e N m : nat) (s : ActorDag.state) : Prop :=
  (∀ j err, exec j s ≠ Some (Err err)) ∧ (m ≤ N)%nat ∧ (tasks s = [] ↔ m = N) ∧ NoDup (hist s) ∧
  (∀ a b h1 h2, depends js a b → hist s = h1 ++ Began b :: h2 → Ended a ∈ h2) ∧
  (∀ a h1 h2, a ∈ exs js → hist s = h1 ++ Began e :: h2 → Ended a ∈ h2) ∧
  (tasks s = [] → ∀ a, a ∈ exs js ∨ a = e → Ended a ∈ hist s).

Lemma run_spec e : e ∉ exs js →
  (∃ x, tc (depends js) x x) ∧ run e s0 = Err (Thrown "Cycle in DAG graph") ∨
  ¬ (∃ x, tc (depends js) x x) ∧ ∃ st s' N, run e s0 = Ret (Some st, s') ∧ ∀ m s, nsteps step m st s → run_ok e N m s.
Proof.
  intros He. destruct prepared as (d1 & Hset & Hwf & Hown & Hsz & Hen & Hfr & Hed & Htot).
  assert (Hne : Dag.empty (Scheduler.dag_ s0) = false).
  { apply bool_decide_eq_false. intros E. pose proof (h_size _ _ s0_holds) as Hl. unfold size in Hl. rewrite E in Hl. pose proof jobs_pos. cbn in Hl. lia. }
  assert (Hpos : (0 < size d1)%nat) by (rewrite Hsz; apply jobs_pos).
  unfold run. rewrite Hne, Hset. cbn [mbind outcome_bind Scheduler.dag_]. destruct (hasCycle_spec d1 Hwf) as (c & Hc & Hcyc).
  rewrite (cyclic_depends _ _ Hed) in Hcyc. destruct c; [left; split; [tauto|]; unfold go; by rewrite Hc|]. right. split; [naive_solver|].
  destruct (go_actors d1 e Hwf Hown (Hfr e He) Hpos Hc) as (d2 & Hgo & Hsz0 & Hsnk & Hex & Hedge & Hcl & Hac & Hsch & Hsink & Hinv & Hok).
  { rewrite Htot, es_length, Hsz. apply (jo_size _ Hjs). }
  rewrite Hgo. cbn [mbind outcome_bind]. set (d0 := addCallback e _ d2) in *. rewrite Hsz in *.
  assert (Hsrc : (length js < size d0)%nat) by lia.
  destruct (start_lives d0 (length js) (S (length js)) Hcl Hac Hsrc Hsch Hsink Hinv Hok) as [N HN]. eexists _, _, N. split; [done|]. intros m' s Hst.
  destruct (lives_nsteps d0 _ _ Hcl Hac Hsrc Hsch Hsink m' _ _ _ _ HN Hst) as (Hle & gh & Hl).
  destruct (lives_safe d0 _ _ Hcl Hac Hsrc Hsch Hsink _ _ _ Hl) as (Hsafe & Hhist & Hnd & Hord & Hdom). rewrite Hsz0 in Hdom.
  assert (Hex' : ∀ k, (k < length js)%nat → ename d0 k = ex k) by (intros k Hk; rewrite Hex by done; apply Hen).
  assert (Hkey : ∀ a, a ∈ exs js → ∃ k, (k < length js)%nat ∧ ename d0 k = a) by (intros a (k & Hk & <-)%ex_in; exists k; split; [done|auto]).
  split; [done|]. split; [done|]. split; [|split; [|split; [|split]]].
  - split; [intros Ht; destruct (lives_done d0 _ _ Hcl Hac Hsrc Hsch Hsink _ _ _ Hl Ht); lia|]. intros ->. rewrite Nat.sub_diag in Hl. by eapply lives_zero.
  - rewrite Hhist. by eapply told_nodup.
  - intros a b h1 h2 (ka & kb & Hk & <- & <-)%depends_es E. destruct (es_lt ka kb Hk) as [Hka Hkb]. rewrite <- Hex' in E |- * by done. rewrite Hhist in E.
    eapply told_split in E as (g1 & g2 & Eg & ->); [|done..|lia|lia]. apply told_ended. apply (Hord g1 kb g2 Eg). split; [lia|]. left. by apply Hedge, Hed.
  - intros a h1 h2 (ka & Hka & <-)%Hkey E. rewrite <- Hsnk in E. rewrite Hhist in E. eapply told_split in E as (g1 & g2 & Eg & ->); [|done..|lia|lia].
    apply told_ended. apply (Hord g1 _ g2 Eg). split; [lia|]. right. split; [done|]. lia.
  - intros Ht a Ha. destruct (lives_done d0 _ _ Hcl Hac Hsrc Hsch Hsink _ _ _ Hl Ht) as [_ Hall]. rewrite Hhist.
    destruct Ha as [(k & Hk & <-)%Hkey| ->]; [|rewrite <- Hsnk]; apply told_ended, Hall; lia.
Qed.
End jobs.

(** C24. A graph of named jobs, run by fibers of any number of threads: when the names are distinct, the executors too, and every next name is known,
    Scheduler::run throws exactly if some job depends on itself, directly or through others. Otherwise, in every interleaving of the fibers,
    no access faults, every function begins and returns at most once, a job begins only after every job it depends on has
    returned, and the client is resumed only after all of them; every interleaving ends after the same number N of
    accesses, and then every job and the client have run. *)
Theorem scheduler_correct (js : list (nat * string * list string)) (e : nat) :
  jobs_ok js → e ∉ exs js →
  (∃ x, tc (depends js) x x) ∧ Scheduler.run e (Scheduler.init js Scheduler.empty) = Err (Thrown "Cycle in DAG graph") ∨
  ¬ (∃ x, tc (depends js) x x) ∧ ∃ st s' N, Scheduler.run e (Scheduler.init js Scheduler.empty) = Ret (Some st, s') ∧
    ∀ m s, nsteps ActorDag.step m st s → run_ok js e N m s.
Proof. intros Hjs He. by apply run_spec. Qed.

(** A next name that no job has: operator[] of the map makes it the first job's, which silently runs after the job that
    names it. *)
Theorem unknown_next_is_first : ∃ st s', Scheduler.run 9 (Scheduler.init [(0%nat, "a", []); (1%nat, "b", ["typo"])]%string Scheduler.empty) = Ret (Some st, s') ∧
  nx (Scheduler.dag_ s') 1 = [0%nat] ∧ map_ s' !! "typo"%string = Some 0%nat.
Proof. eexists _, _. split; [vm_compute; reflexivity|]. split; vm_compute; reflexivity. Qed.

Module Demo.
Definition demo_jobs : list (nat * string * list string) := [(0%nat, "a", ["c"; "d"]); (1%nat, "b", ["d"]); (2%nat, "c", ["d"]); (3%nat, "d", [])]%string.
Lemma demo_jobs_ok : jobs_ok demo_jobs.
Proof.
  split; [apply (bool_decide_unpack _); vm_compute; exact I|apply (bool_decide_unpack _); vm_compute; exact I| |done|by vm_compute].
  intros j q Hj Hq. assert (Forall (fun j => Forall (fun q => q ∈ names demo_jobs) j.2) demo_jobs) as Hf by (apply (bool_decide_unpack _); vm_compute; exact I).
  rewrite list.Forall_forall in Hf. specialize (Hf j Hj). rewrite list.Forall_forall in Hf. by apply Hf.
Qed.
Lemma scheduler_correct_witness : ∃ st s' N, Scheduler.run 9 (Scheduler.init demo_jobs Scheduler.empty) = Ret (Some st, s') ∧ ∀ m s, nsteps ActorDag.step m st s → run_ok demo_jobs 9 N m s.
Proof.
  destruct (scheduler_correct demo_jobs 9 demo_jobs_ok) as [[_ E]|[_ H]]; [|vm_compute in E; discriminate E|exact H].
  apply (bool_decide_unpack _). vm_compute. exact I.
Defined.
End Demo.
End SchedulerSpec.
