(* ===== verification/TimedHeap.v ===== *)
(** raster/util/TimedHeap.h with struct Timeout of raster/util/Time.h and
    get_default of raster/util/MapUtil.h: the deadlines of an event loop.

    std::priority_queue is an interface here, [PriorityQueue]: the standard fixes
    which elements it may give out, not the order of equal ones, so the theorems
    are proved for every queue with these laws; [sorted_queue] is one. *)
From Stdlib Require Import Sorted.
From S2P Require Import Prelude.

(** ** Timeouts *)

(** Objects are known by their address; 0 is the null pointer. *)
Record Timeout := mk_timeout {
  data : Z;
  deadline : Z;
  repeat : bool
}.

Definition no_timeout : Timeout := mk_timeout 0 0 false.

(** operator== and operator< compare deadlines only. *)
Definition timeout_eqb (x y : Timeout) : bool := deadline x =? deadline y.
Definition timeout_ltb (x y : Timeout) : bool := deadline x <? deadline y.

(** [get_default(map, key)] with the default-constructed value. *)
Definition get_default {A} (m : gmap Z A) (k : Z) (dflt : A) : A :=
  match m !! k with Some v => v | None => dflt end.

(** ** The priority queue the heap is built on *)

Class PriorityQueue (H : Type) := {
  pq_empty : H;
  pq_push : Timeout → H → H;
  pq_top : H → option Timeout;
  pq_pop : H → H;
  pq_elems : H → list Timeout;
  pq_elems_empty : pq_elems pq_empty = [];
  pq_elems_push t h : pq_elems (pq_push t h) ≡ₚ t :: pq_elems h;
  pq_top_none h : pq_top h = None → pq_elems h = [];
  pq_top_some h t : pq_top h = Some t → pq_elems h ≡ₚ t :: pq_elems (pq_pop h);
  pq_top_least h t u : pq_top h = Some t → u ∈ pq_elems h → timeout_ltb u t = false
}.

(** A queue kept as a list in order of the deadlines. *)
Module SortedQueue.
Fixpoint insert (t : Timeout) (l : list Timeout) : list Timeout :=
  match l with
  | [] => [t]
  | u :: l => if timeout_ltb u t then u :: insert t l else t :: u :: l
  end.

Record queue := mk_queue {
  elems : list Timeout;
  sorted : StronglySorted (fun t u => deadline t ≤ deadline u) elems
}.

Lemma insert_perm t l : insert t l ≡ₚ t :: l.
Proof.
  induction l as [|u l IH]; cbn; [done|]. destruct (timeout_ltb u t); [|done].
  rewrite IH. apply Permutation_swap.
Qed.

Lemma insert_sorted t l :
  StronglySorted (fun t u => deadline t ≤ deadline u) l →
  StronglySorted (fun t u => deadline t ≤ deadline u) (insert t l).
Proof.
  induction 1 as [|u l Hl IH Hu]; cbn; [by repeat constructor|].
  unfold timeout_ltb. destruct (Z.ltb_spec (deadline u) (deadline t)).
  - constructor; [done|]. rewrite insert_perm. constructor; [lia|done].
  - constructor; [by constructor|]. constructor; [lia|].
    eapply Forall_impl; [done|]. cbn. lia.
Qed.

Lemma tail_sorted l :
  StronglySorted (fun t u => deadline t ≤ deadline u) l →
  StronglySorted (fun t u => deadline t ≤ deadline u) (tail l).
Proof. destruct 1; [constructor|done]. Qed.

Definition push (t : Timeout) (q : queue) : queue :=
  mk_queue (insert t (elems q)) (insert_sorted t _ (sorted q)).
Definition pop (q : queue) : queue :=
  mk_queue (tail (elems q)) (tail_sorted _ (sorted q)).
End SortedQueue.

#[global] Program Instance sorted_queue : PriorityQueue SortedQueue.queue := {|
  pq_empty := SortedQueue.mk_queue [] (SSorted_nil _);
  pq_push := SortedQueue.push;
  pq_top q := head (SortedQueue.elems q);
  pq_pop := SortedQueue.pop;
  pq_elems := SortedQueue.elems
|}.
Next Obligation. done. Qed.
Next Obligation. intros. apply SortedQueue.insert_perm. Qed.
Next Obligation. intros [[|]]; done. Qed.
Next Obligation. intros [[|]]; cbn; naive_solver. Qed.
Next Obligation.
  intros [[|x l] Hs]; cbn; [done|]. intros t u [= ->] Hu. unfold timeout_ltb.
  apply Z.ltb_ge. apply elem_of_cons in Hu as [->|Hu]; [done|].
  apply StronglySorted_inv in Hs as [_ Hs]. rewrite Forall_forall in Hs. by apply Hs.
Qed.

(** ** The timed heap *)

Section timed_heap.
Context {H : Type} `{PriorityQueue H}.

Record timed_heap := mk_timed_heap {
  map_ : gmap Z Timeout;
  heap_ : H
}.

Definition empty_heap : timed_heap := mk_timed_heap ∅ pq_empty.

Definition push (v : Timeout) (th : timed_heap) : timed_heap :=
  if data v =? 0 then th
  else mk_timed_heap (<[data v := v]> (map_ th)) (pq_push v (heap_ th)).

(** The loop of [pop]; each turn that goes on takes an element off the heap. *)
Fixpoint pop_loop (fuel : nat) (now : Z) (th : timed_heap)
    : outcome (Timeout * timed_heap) :=
  match fuel with
  | O => Err OutOfFuel
  | S fuel =>
      match pq_top (heap_ th) with
      | None => Ret (no_timeout, th)
      | Some timeout =>
          if timeout_eqb (get_default (map_ th) (data timeout) no_timeout) timeout
          then if deadline timeout <=? now
               then Ret (timeout, mk_timed_heap (delete (data timeout) (map_ th))
                                    (pq_pop (heap_ th)))
               else Ret (no_timeout, th)
          else pop_loop fuel now (mk_timed_heap (map_ th) (pq_pop (heap_ th)))
      end
  end.

Definition pop (now : Z) (th : timed_heap) : outcome (Timeout * timed_heap) :=
  pop_loop (S (length (pq_elems (heap_ th)))) now th.

Definition erase (k : Z) (th : timed_heap) : timed_heap :=
  if k =? 0 then th else mk_timed_heap (delete k (map_ th)) (heap_ th).

(** Every live timeout stands under its own address and is still in the heap;
    no deadline in the heap is the zero of a default-constructed one
    (deadlines are unsigned). *)
Record heap_wf (th : timed_heap) : Prop := {
  live_here : ∀ k t, map_ th !! k = Some t →
    data t = k ∧ k ≠ 0 ∧ t ∈ pq_elems (heap_ th);
  no_zero : ∀ t, t ∈ pq_elems (heap_ th) → 0 < deadline t ∧ data t ≠ 0
}.

Lemma empty_wf : heap_wf empty_heap.
Proof. split; cbn; [by intros ??|]. rewrite pq_elems_empty. set_solver. Qed.

Lemma push_wf v th : heap_wf th → 0 < deadline v → heap_wf (push v th).
Proof.
  intros [Hl Hz] Hd. unfold push. destruct (Z.eqb_spec (data v) 0); [done|].
  split; cbn.
  - intros k t [[<- <-]|[Hne Hk]]%lookup_insert_Some; rewrite pq_elems_push.
    + set_solver.
    + apply Hl in Hk. set_solver.
  - intros t. rewrite pq_elems_push. intros [->|Ht]%elem_of_cons; [done|by apply Hz].
Qed.

Lemma erase_wf k th : heap_wf th → heap_wf (erase k th).
Proof.
  intros [Hl Hz]. unfold erase. destruct (Z.eqb_spec k 0); [done|].
  split; cbn; [|done]. intros k' t [_ Hk]%lookup_delete_Some. by apply Hl.
Qed.

(** Dropping the top is harmless when it is not a live timeout. *)
Lemma drop_stale th t :
  heap_wf th → pq_top (heap_ th) = Some t →
  timeout_eqb (get_default (map_ th) (data t) no_timeout) t = false →
  heap_wf (mk_timed_heap (map_ th) (pq_pop (heap_ th))).
Proof.
  intros [Hl Hz] Ht Hne. pose proof (pq_top_some _ _ Ht) as Hp. split; cbn.
  - intros k u Hk. destruct (Hl k u Hk) as (Hd & Hk0 & Hu). split_and!; [done..|].
    rewrite Hp in Hu. apply elem_of_cons in Hu as [->|]; [|done].
    unfold get_default, timeout_eqb in Hne. rewrite Hd, Hk in Hne. lia.
  - intros u Hu. apply Hz. rewrite Hp. set_solver.
Qed.

(** [pop] terminates and gives out, among the live timeouts, one with the
    least deadline if that deadline has passed, and removes it; when no live
    timeout is due it gives out none and forgets none. *)
Lemma pop_spec now th :
  heap_wf th → ∃ t th', pop now th = Ret (t, th') ∧ heap_wf th' ∧
    ((data t = 0 ∧ map_ th' = map_ th ∧
        ∀ k u, map_ th !! k = Some u → now < deadline u) ∨
     (∃ u, map_ th !! data t = Some u ∧ deadline t = deadline u ∧ deadline t ≤ now ∧
        map_ th' = delete (data t) (map_ th) ∧
        ∀ k v, map_ th !! k = Some v → deadline t ≤ deadline v)).
Proof.
  unfold pop. remember (S _) as fuel eqn:Hf.
  assert (length (pq_elems (heap_ th)) < fuel)%nat as Hlen by lia. clear Hf.
  revert th Hlen. induction fuel as [|fuel IH]; intros th Hlen Hwf; [lia|]. cbn.
  destruct (pq_top (heap_ th)) as [t|] eqn:Ht.
  2: { apply pq_top_none in Ht. eexists _, _. split; [done|]. split; [done|]. left.
       split_and!; [done..|]. intros k u Hk. apply (live_here th Hwf) in Hk.
       rewrite Ht in Hk. set_solver. }
  pose proof (pq_top_some _ _ Ht) as Hp.
  destruct (timeout_eqb _ t) eqn:He.
  - assert (∀ k v, map_ th !! k = Some v → deadline t ≤ deadline v) as Hmin.
    { intros k v (_ & _ & Hv)%(live_here th Hwf).
      pose proof (pq_top_least _ _ _ Ht Hv) as Hlt. unfold timeout_ltb in Hlt. lia. }
    assert (∃ u, map_ th !! data t = Some u ∧ deadline t = deadline u) as (u & Hu & Hdu).
    { unfold get_default, timeout_eqb in He. apply Z.eqb_eq in He.
      destruct (map_ th !! data t) as [u|]; cbn in He; [exists u; split; [done|lia]|].
      destruct (no_zero th Hwf t) as [? _]; [rewrite Hp; set_solver|]. cbn in He. lia. }
    destruct (Z.leb_spec (deadline t) now) as [Hd|Hd].
    + eexists _, _. split; [done|]. split; [|right; eexists; split_and!; done].
      split; cbn.
      * intros k v [Hne Hk]%lookup_delete_Some.
        destruct (live_here th Hwf k v Hk) as (Hdk & Hk0 & Hv). split_and!; [done..|].
        rewrite Hp in Hv. apply elem_of_cons in Hv as [->|]; [congruence|done].
      * intros v Hv. apply (no_zero th Hwf). rewrite Hp. set_solver.
    + eexists _, _. split; [done|]. split; [done|]. left. split_and!; [done..|].
      intros k v Hk%Hmin. lia.
  - assert (length (pq_elems (heap_ th)) = S (length (pq_elems (pq_pop (heap_ th)))))
      as Hl by (by rewrite Hp).
    destruct (IH (mk_timed_heap (map_ th) (pq_pop (heap_ th))))
      as (r & th' & -> & Hwf' & Hr); [cbn [heap_]; lia|by eapply drop_stale|].
    eexists _, _. by split.
Qed.

(** ** The contract: a finite map from objects to deadlines *)

Inductive op := Push (t : Timeout) | Erase (k : Z) | Pop (now : Z).
Inductive out := Silent | Due (k : Z) | NoneDue.

Inductive spec_step : gmap Z Z → op → out → gmap Z Z → Prop :=
| spec_push m t :
    spec_step m (Push t) Silent (if data t =? 0 then m else <[data t := deadline t]> m)
| spec_erase m k : spec_step m (Erase k) Silent (delete k m)
| spec_due m now k d :
    m !! k = Some d → d ≤ now → (∀ k' d', m !! k' = Some d' → d ≤ d') →
    spec_step m (Pop now) (Due k) (delete k m)
| spec_none m now :
    (∀ k d, m !! k = Some d → now < d) → spec_step m (Pop now) NoneDue m.

Inductive spec_steps : gmap Z Z → list op → list out → gmap Z Z → Prop :=
| spec_nil m : spec_steps m [] [] m
| spec_cons m o r m1 os rs m2 :
    spec_step m o r m1 → spec_steps m1 os rs m2 → spec_steps m (o :: os) (r :: rs) m2.

Definition exec (o : op) (th : timed_heap) : outcome (out * timed_heap) :=
  match o with
  | Push t => Ret (Silent, push t th)
  | Erase k => Ret (Silent, erase k th)
  | Pop now =>
      '(t, th) ← pop now th;
      Ret (if data t =? 0 then NoneDue else Due (data t), th)
  end.

Fixpoint run (os : list op) (th : timed_heap) : outcome (list out * timed_heap) :=
  match os with
  | [] => Ret ([], th)
  | o :: os => '(r, th) ← exec o th; '(rs, th) ← run os th; Ret (r :: rs, th)
  end.

Definition live (th : timed_heap) : gmap Z Z := deadline <$> map_ th.

Lemma live_lookup th k d :
  live th !! k = Some d ↔ ∃ t, map_ th !! k = Some t ∧ deadline t = d.
Proof. unfold live. rewrite lookup_fmap_Some. naive_solver. Qed.

Lemma heap_exec_refines o th :
  heap_wf th → (∀ t, o = Push t → 0 < deadline t) →
  ∃ r th', exec o th = Ret (r, th') ∧ heap_wf th' ∧ spec_step (live th) o r (live th').
Proof.
  intros Hwf Ho. destruct o as [t|k|now]; unfold exec.
  - eexists _, _. split; [done|]. split; [apply push_wf; auto|].
    replace (live (push t th)) with (if data t =? 0 then live th
      else <[data t := deadline t]> (live th)); [constructor|].
    unfold push, live. destruct (data t =? 0); cbn; [done|by rewrite fmap_insert].
  - eexists _, _. split; [done|]. split; [by apply erase_wf|].
    replace (live (erase k th)) with (delete k (live th)); [constructor|].
    unfold erase, live. destruct (Z.eqb_spec k 0) as [->|]; cbn; rewrite <-fmap_delete; [|done].
    f_equal. apply delete_id. destruct (map_ th !! 0) as [t|] eqn:E; [|done].
    apply (live_here th Hwf) in E. tauto.
  - destruct (pop_spec now th Hwf) as (t & th' & -> & Hwf' & Hr). cbn.
    eexists _, _. split; [done|]. split; [done|].
    destruct Hr as [(Hd & Hm & Hall)|(u & Hu & Hdu & Hle & Hm & Hmin)].
    + rewrite Hd. cbn. unfold live. rewrite Hm. constructor.
      intros k d (v & Hv & <-)%live_lookup. by eapply Hall.
    + destruct (live_here th Hwf _ _ Hu) as (_ & Hne & _).
      rewrite (proj2 (Z.eqb_neq _ _) Hne).
      unfold live. rewrite Hm, fmap_delete. apply (spec_due _ _ _ (deadline t)); [|done|].
      * apply live_lookup. eauto.
      * intros k' d' (v & Hv & <-)%live_lookup. by eapply Hmin.
Qed.

(** C36. However pushes, erasures and polls interleave, every poll terminates
    and behaves as on a plain map from objects to their latest deadline: it
    gives out an object with the earliest deadline when that has passed, and
    nothing otherwise.  In particular an object erased or pushed again with a
    later deadline is never given out for its old one. *)
Theorem timed_heap_refines os th :
  heap_wf th → (∀ t, Push t ∈ os → 0 < deadline t) →
  ∃ rs th', run os th = Ret (rs, th') ∧ heap_wf th' ∧ spec_steps (live th) os rs (live th').
Proof.
  revert th. induction os as [|o os IH]; intros th Hwf Hos; cbn.
  - eexists _, _. split_and!; [done..|constructor].
  - destruct (heap_exec_refines o th Hwf) as (r & th1 & -> & Hwf1 & Hs).
    { intros t ->. apply Hos. set_solver. }
    cbn. destruct (IH th1 Hwf1) as (rs & th2 & -> & Hwf2 & Hss).
    { intros t ?. apply Hos. set_solver. }
    eexists _, _. split; [done|]. split; [done|]. by econstructor.
Qed.
End timed_heap.
Arguments timed_heap : clear implicits.

(** TimedHeapTest.cpp in small: an object pushed twice, one erased. *)
Definition demo_ops : list op :=
  [Push (mk_timeout 1 100 false); Push (mk_timeout 2 50 true);
   Push (mk_timeout 1 70 false); Erase 2; Pop 60; Pop 80; Pop 200].

Example demo_run :
  (fst <$> run demo_ops (empty_heap (H:=SortedQueue.queue)))
  = Ret [Silent; Silent; Silent; Silent; NoneDue; Due 1; NoneDue].
Proof. reflexivity. Qed.

Lemma timed_heap_refines_witness :
  ∃ rs th', run demo_ops (empty_heap (H:=SortedQueue.queue)) = Ret (rs, th') ∧
    heap_wf th' ∧ spec_steps (live (empty_heap (H:=SortedQueue.queue))) demo_ops rs (live th').
Proof.
  apply (timed_heap_refines demo_ops empty_heap).
  - apply empty_wf.
  - intros t. unfold demo_ops. rewrite !elem_of_cons, elem_of_nil. naive_solver.
Defined.
