(* ===== verification/Event.v ===== *)
(** raster/io/event/Event.h and Event.cpp, with the constants of
    raster/net/Socket.h and struct TimeoutOption of raster/net/NetUtil.h: one
    connection's record, its life-cycle type, its time stamps and deadlines.

    Buffers are kept as their contents (IOBuf.v has the buffers themselves);
    the clock is an argument of every operation that reads it. *)
From S2P Require Import Prelude TimedHeap.

(** Event's first anonymous enum. *)
Inductive etype :=
| INIT | FAIL | LISTEN | TIMEOUT | ERROR
| TOREAD | READING | READED
| TOWRITE | WRITING | WRITED
| NEXT | CONNECT | WAKER.

#[global] Instance etype_eq_dec : EqDecision etype.
Proof. solve_decision. Defined.

Definition etype_code (t : etype) : Z :=
  match t with
  | INIT => 0 | FAIL => 1 | LISTEN => 2 | TIMEOUT => 3 | ERROR => 4
  | TOREAD => 5 | READING => 6 | READED => 7
  | TOWRITE => 8 | WRITING => 9 | WRITED => 10
  | NEXT => 11 | CONNECT => 12 | WAKER => 13
  end.

(** Event's second anonymous enum. *)
Inductive action := NO_ACTION | FORWARD.
#[global] Instance action_eq_dec : EqDecision action.
Proof. solve_decision. Defined.

(** Socket's enum; the waker's role is -1. *)
Inductive role := ROLE_NONE | LISTENER | SERVER | CLIENT | ROLE_WAKER.
#[global] Instance role_eq_dec : EqDecision role.
Proof. solve_decision. Defined.

Definition LTIMEOUT : Z := 600000000.
Definition LCOUNT : Z := 80000.

Record TimeoutOption := mk_timeoutOption {
  ctimeout : Z;
  rtimeout : Z;
  wtimeout : Z
}.

(** What an event needs of its Channel: the id, which is the port of the peer,
    the timeouts, and whether it can create processors. *)
Record channel := mk_channel {
  channel_id : Z;
  channel_timeout : TimeoutOption;
  channel_processor : bool
}.

Record timestamp := mk_timestamp { stage : etype; stamp : Z }.

Record event := mk_event {
  seqid_ : Z;
  type_ : etype;
  group_ : Z;
  action_ : action;
  channel_ : channel;
  fd_ : Z;                    (* of the socket, or of the waker *)
  role_ : role;
  executor_ : option nat;
  rbuf_ : list Z;
  wbuf_ : list Z;
  rlen_ : Z;
  wlen_ : Z;
  timestamps_ : list timestamp;
  timeoutOpt_ : TimeoutOption
}.

(** Assignments to single fields. *)
Definition with_type (t : etype) (e : event) : event :=
  mk_event (seqid_ e) t (group_ e) (action_ e) (channel_ e) (fd_ e) (role_ e)
    (executor_ e) (rbuf_ e) (wbuf_ e) (rlen_ e) (wlen_ e) (timestamps_ e) (timeoutOpt_ e).
Definition with_timestamps (ts : list timestamp) (e : event) : event :=
  mk_event (seqid_ e) (type_ e) (group_ e) (action_ e) (channel_ e) (fd_ e) (role_ e)
    (executor_ e) (rbuf_ e) (wbuf_ e) (rlen_ e) (wlen_ e) ts (timeoutOpt_ e).
Definition setGroup (g : Z) (e : event) : event :=
  mk_event (seqid_ e) (type_ e) g (action_ e) (channel_ e) (fd_ e) (role_ e)
    (executor_ e) (rbuf_ e) (wbuf_ e) (rlen_ e) (wlen_ e) (timestamps_ e) (timeoutOpt_ e).
Definition setForward (e : event) : event :=
  mk_event (seqid_ e) (type_ e) (group_ e) FORWARD (channel_ e) (fd_ e) (role_ e)
    (executor_ e) (rbuf_ e) (wbuf_ e) (rlen_ e) (wlen_ e) (timestamps_ e) (timeoutOpt_ e).
Definition setExecutor (x : option nat) (e : event) : event :=
  mk_event (seqid_ e) (type_ e) (group_ e) (action_ e) (channel_ e) (fd_ e) (role_ e)
    x (rbuf_ e) (wbuf_ e) (rlen_ e) (wlen_ e) (timestamps_ e) (timeoutOpt_ e).
Definition with_buffers (rb wb : list Z) (rl wl : Z) (e : event) : event :=
  mk_event (seqid_ e) (type_ e) (group_ e) (action_ e) (channel_ e) (fd_ e) (role_ e)
    (executor_ e) rb wb rl wl (timestamps_ e) (timeoutOpt_ e).

Definition isForward (e : event) : bool := bool_decide (action_ e = FORWARD).

(** ** Time *)

Definition starttime (e : event) : Z :=
  match timestamps_ e with [] => 0 | t :: _ => stamp t end.

(** [timePassed(starttime())] at the time [now]. *)
Definition cost (now : Z) (e : event) : Z :=
  match timestamps_ e with [] => 0 | _ => u64 (now - starttime e) end.

(** Every stamp after the first is relative to the first. *)
Definition record (t : timestamp) (e : event) : event :=
  let t := match timestamps_ e with
           | [] => t
           | _ => mk_timestamp (stage t) (u64 (stamp t - starttime e))
           end in
  with_timestamps (timestamps_ e ++ [t]) e.

Definition setType (now : Z) (t : etype) (e : event) : event :=
  record (mk_timestamp t now) (with_type t e).

Definition restart (now : Z) (e : event) : event :=
  with_timestamps [mk_timestamp INIT now] e.

(** [int] addition wraps as compiled. *)
Definition i32 (x : Z) : Z := (x + 2 ^ 31) mod 2 ^ 32 - 2 ^ 31.

Definition reset (now : Z) (e : event) : event :=
  let e := restart now e in
  mk_event (Z.max (i32 (seqid_ e + 1)) 1) INIT 0 NO_ACTION (channel_ e) (fd_ e) (role_ e)
    None [] [] 0 0 (timestamps_ e) (timeoutOpt_ e).

(** The constructor of an event on a socket. *)
Definition Event (now : Z) (c : channel) (fd : Z) (r : role) : event :=
  reset now (mk_event 0 INIT 0 NO_ACTION c fd r None [] [] 0 0 [] (channel_timeout c)).

(** The constructor of the event of the waker. *)
Definition WakerEvent (fd : Z) : event :=
  mk_event 0 WAKER 0 NO_ACTION (mk_channel 0 (mk_timeoutOption 0 0 0) false) fd ROLE_WAKER
    None [] [] 0 0 [] (mk_timeoutOption 0 0 0).

Definition edeadline (p : Z) (e : event) : Timeout :=
  mk_timeout p (u64 (starttime e + LTIMEOUT)) true.
Definition cdeadline (p : Z) (e : event) : Timeout :=
  mk_timeout p (u64 (starttime e + ctimeout (timeoutOpt_ e))) false.
Definition rdeadline (p : Z) (e : event) : Timeout :=
  mk_timeout p (u64 (starttime e + rtimeout (timeoutOpt_ e))) false.
Definition wdeadline (p : Z) (e : event) : Timeout :=
  mk_timeout p (u64 (starttime e + wtimeout (timeoutOpt_ e))) false.

Definition isConnectTimeout (now : Z) (e : event) : bool :=
  ctimeout (timeoutOpt_ e) <? cost now e.
Definition isReadTimeout (now : Z) (e : event) : bool :=
  rtimeout (timeoutOpt_ e) <? cost now e.
Definition isWriteTimeout (now : Z) (e : event) : bool :=
  wtimeout (timeoutOpt_ e) <? cost now e.

Definition typeName (e : event) : string :=
  let TYPE_NAMES :=
    ["INIT"; "FAIL"; "LISTEN"; "TIMEOUT"; "ERROR"; "TOREAD"; "READING"; "READED";
     "TOWRITE"; "WRITING"; "WRITED"; "NEXT"; "CONNECT"; "WAKER"; "UNKNOWN"]%string in
  let n := Z.of_nat (length TYPE_NAMES) - 1 in
  let i := if (0 <=? etype_code (type_ e)) && (etype_code (type_ e) <? n)
           then etype_code (type_ e) else n in
  nth (Z.to_nat i) TYPE_NAMES ""%string.

(** ** Facts *)

(** The clock and the timeouts stay far from the width of their type. *)
Definition small (x : Z) : Prop := 0 ≤ x < 2 ^ 62.
Definition option_ok (o : TimeoutOption) : Prop :=
  small (ctimeout o) ∧ small (rtimeout o) ∧ small (wtimeout o).

(** An event with a start time and sane timeouts. *)
Record event_ok (e : event) : Prop := {
  ok_start : timestamps_ e ≠ [];
  ok_small : 0 < starttime e < 2 ^ 62;
  ok_option : option_ok (timeoutOpt_ e);
  ok_channel : option_ok (channel_timeout (channel_ e))
}.

Lemma record_fields t e :
  type_ (record t e) = type_ e ∧ fd_ (record t e) = fd_ e ∧ role_ (record t e) = role_ e ∧
  action_ (record t e) = action_ e.
Proof. done. Qed.

Lemma setType_ok now t e : event_ok e → event_ok (setType now t e).
Proof.
  intros [Hs Hsm Ho Hc]. unfold setType, record.
  destruct e as [? ? ? ? ? ? ? ? ? ? ? ? ts ?]. cbn in *.
  destruct ts as [|t0 ts]; [done|]. by split.
Qed.

Lemma restart_ok now e : event_ok e → 0 < now < 2 ^ 62 → event_ok (restart now e).
Proof. intros [Hs Hsm Ho Hc] Hn. by split. Qed.

Lemma reset_ok now e : event_ok e → 0 < now < 2 ^ 62 → event_ok (reset now e).
Proof. intros [Hs Hsm Ho Hc] Hn. by split. Qed.

Lemma Event_ok now c fd r :
  option_ok (channel_timeout c) → 0 < now < 2 ^ 62 → event_ok (Event now c fd r).
Proof. intros Ho Hn. by split. Qed.

Lemma deadlines_pos p e :
  event_ok e → 0 < deadline (edeadline p e) < 2 ^ 63 ∧
  0 < deadline (rdeadline p e) < 2 ^ 63 ∧ 0 < deadline (wdeadline p e) < 2 ^ 63.
Proof.
  intros [Hs Hsm (Hc & Hr & Hw) _]. unfold small in *. cbn.
  unfold LTIMEOUT. rewrite !u64_small by lia. lia.
Qed.
