(* ===== verification/EventLoop.v ===== *)
(** raster/io/event/EventLoop.cpp, EventHandler.cpp and Poll.h/Poll.cpp: the loop
    that dispatches the connections handed over by other threads, expires their
    deadlines, polls, and runs the handler of each ready connection.

    The kernel and the protocol are interfaces.  [Epoll] is what epoll_ctl(2)
    promises of the interest set; the other system calls (the clock, accept,
    socket options, SO_ERROR) and the virtual readData and writeData of the
    connection's Protocol are arguments of the section, the n-th system call
    being answered by the n-th value.  Events live in a store by address: a
    [delete] takes the object out of it, and using an address that is not in
    it is undefined. *)
From S2P Require Import Prelude TimedHeap Event.

Inductive epoll_op := EPOLL_CTL_ADD | EPOLL_CTL_DEL.
Definition EPOLLIN : Z := 1.
Definition EPOLLOUT : Z := 4.

(** The interest set of an epoll descriptor: for every file descriptor in it, the
    event mask and the user pointer. *)
Class Epoll (P : Type) := {
  ep_ctl : epoll_op → Z → Z → Z → P → Z * P;
  ep_find : Z → P → option (Z * Z);
  (** Adding succeeds only for a descriptor not in the set; a failure changes
      nothing. *)
  ep_add fd m p s :
    let '(r, s') := ep_ctl EPOLL_CTL_ADD fd m p s in
    (r = -1 ∧ ∀ fd', ep_find fd' s' = ep_find fd' s) ∨
    (r = 0 ∧ ep_find fd s = None ∧
       ∀ fd', ep_find fd' s' = if decide (fd' = fd) then Some (m, p) else ep_find fd' s);
  (** After a deletion, successful or not, the descriptor is not in the set. *)
  ep_del fd m p s fd' :
    ep_find fd' (ep_ctl EPOLL_CTL_DEL fd m p s).2 =
      if decide (fd' = fd) then None else ep_find fd' s
}.

(** A set kept as a finite map. *)
#[global] Program Instance gmap_epoll : Epoll (gmap Z (Z * Z)) := {|
  ep_ctl op fd m p s :=
    match op with
    | EPOLL_CTL_ADD =>
        match s !! fd with Some _ => (-1, s) | None => (0, <[fd := (m, p)]> s) end
    | EPOLL_CTL_DEL =>
        match s !! fd with Some _ => (0, delete fd s) | None => (-1, s) end
    end;
  ep_find fd s := s !! fd
|}.
Next Obligation.
  intros fd m p s. cbn. destruct (s !! fd) eqn:E; [by left|]. right.
  split_and!; [done..|]. intros fd'. rewrite lookup_insert.
  repeat case_decide; congruence.
Qed.
Next Obligation.
  intros fd m p s fd'. cbn. destruct (s !! fd) eqn:E; cbn; [rewrite lookup_delete|];
    repeat case_decide; congruence.
Qed.

Section loop.
Context {H : Type} `{!PriorityQueue H} {P : Type} `{!Epoll P}.

Record world := mk_world {
  store : gmap Z event;  (* the heap: live Event objects by address *)
  next_ptr : Z;  (* the next address *)
  poll_ : P;  (* the epoll set *)
  deadlineHeap_ : timed_heap H;
  events_ : list Z;  (* handed over by other threads *)
  callbacks_ : list nat;  (* handed over by other threads, by name *)
  stop_ : bool;
  loopThread_ : bool;  (* whether a thread is in the loop *)
  listenFds_ : list Z;
  handed : list Z;  (* events passed to Actor::execute, latest first *)
  called : list nat;  (* callbacks run, latest first *)
  sockets : Z;  (* Socket::count_ *)
  wakes : nat;  (* bytes in the waker's pipe *)
  tick : nat  (* system calls made so far *)
}.

Definition set_store (x : gmap Z event) (w : world) : world :=
  mk_world x (next_ptr w) (poll_ w) (deadlineHeap_ w) (events_ w) (callbacks_ w) (stop_ w) (loopThread_ w) (listenFds_ w) (handed w) (called w) (sockets w) (wakes w) (tick w).
Definition set_poll (x : P) (w : world) : world :=
  mk_world (store w) (next_ptr w) x (deadlineHeap_ w) (events_ w) (callbacks_ w) (stop_ w) (loopThread_ w) (listenFds_ w) (handed w) (called w) (sockets w) (wakes w) (tick w).
Definition set_deadlineHeap (x : timed_heap H) (w : world) : world :=
  mk_world (store w) (next_ptr w) (poll_ w) x (events_ w) (callbacks_ w) (stop_ w) (loopThread_ w) (listenFds_ w) (handed w) (called w) (sockets w) (wakes w) (tick w).
Definition set_events (x : list Z) (w : world) : world :=
  mk_world (store w) (next_ptr w) (poll_ w) (deadlineHeap_ w) x (callbacks_ w) (stop_ w) (loopThread_ w) (listenFds_ w) (handed w) (called w) (sockets w) (wakes w) (tick w).
Definition set_callbacks (x : list nat) (w : world) : world :=
  mk_world (store w) (next_ptr w) (poll_ w) (deadlineHeap_ w) (events_ w) x (stop_ w) (loopThread_ w) (listenFds_ w) (handed w) (called w) (sockets w) (wakes w) (tick w).
Definition set_stop (x : bool) (w : world) : world :=
  mk_world (store w) (next_ptr w) (poll_ w) (deadlineHeap_ w) (events_ w) (callbacks_ w) x (loopThread_ w) (listenFds_ w) (handed w) (called w) (sockets w) (wakes w) (tick w).
Definition set_loopThread (x : bool) (w : world) : world :=
  mk_world (store w) (next_ptr w) (poll_ w) (deadlineHeap_ w) (events_ w) (callbacks_ w) (stop_ w) x (listenFds_ w) (handed w) (called w) (sockets w) (wakes w) (tick w).
Definition set_listenFds (x : list Z) (w : world) : world :=
  mk_world (store w) (next_ptr w) (poll_ w) (deadlineHeap_ w) (events_ w) (callbacks_ w) (stop_ w) (loopThread_ w) x (handed w) (called w) (sockets w) (wakes w) (tick w).
Definition set_handed (x : list Z) (w : world) : world :=
  mk_world (store w) (next_ptr w) (poll_ w) (deadlineHeap_ w) (events_ w) (callbacks_ w) (stop_ w) (loopThread_ w) (listenFds_ w) x (called w) (sockets w) (wakes w) (tick w).
Definition set_called (x : list nat) (w : world) : world :=
  mk_world (store w) (next_ptr w) (poll_ w) (deadlineHeap_ w) (events_ w) (callbacks_ w) (stop_ w) (loopThread_ w) (listenFds_ w) (handed w) x (sockets w) (wakes w) (tick w).
Definition set_sockets (x : Z) (w : world) : world :=
  mk_world (store w) (next_ptr w) (poll_ w) (deadlineHeap_ w) (events_ w) (callbacks_ w) (stop_ w) (loopThread_ w) (listenFds_ w) (handed w) (called w) x (wakes w) (tick w).
Definition set_wakes (x : nat) (w : world) : world :=
  mk_world (store w) (next_ptr w) (poll_ w) (deadlineHeap_ w) (events_ w) (callbacks_ w) (stop_ w) (loopThread_ w) (listenFds_ w) (handed w) (called w) (sockets w) x (tick w).
Definition set_tick (x : nat) (w : world) : world :=
  mk_world (store w) (next_ptr w) (poll_ w) (deadlineHeap_ w) (events_ w) (callbacks_ w) (stop_ w) (loopThread_ w) (listenFds_ w) (handed w) (called w) (sockets w) (wakes w) x.
Definition put_new (e : event) (w : world) : world :=
  mk_world (<[next_ptr w := e]> (store w)) (next_ptr w + 1) (poll_ w) (deadlineHeap_ w) (events_ w) (callbacks_ w) (stop_ w) (loopThread_ w) (listenFds_ w) (handed w) (called w) (sockets w) (wakes w) (tick w).

Abbreviation M := (St world).

(** ** The system *)

Context (clock : nat → Z) (sys_accept : nat → Z) (sys_socket : nat → Z)
        (sys_option : nat → bool) (sys_error : nat → option Z)
        (sys_wait : nat → P → list Z).

(** One system call: its answer, and the count moves on. *)
Definition syscall {A} (answers : nat → A) : M A :=
  n ← gets tick; _ ← modify (set_tick (S n)); mret (answers n).
Definition timestampNow : M Z := syscall clock.

(** ** Objects *)

Definition deref (p : Z) : M event :=
  w ← get; lift (of_option Undefined (store w !! p)).
Definition assign (p : Z) (f : event → event) : M unit :=
  e ← deref p; modify (fun w => set_store (<[p := f e]> (store w)) w).

(** [new Event(channel, socket)]. *)
Definition new_event (c : channel) (fd : Z) (r : role) : M Z :=
  now ← timestampNow;
  p ← gets next_ptr;
  _ ← modify (put_new (Event now c fd r));
  mret p.

(** [~Socket] of the last reference to a socket. *)
Definition close_socket : M unit := modify (fun w => set_sockets (sockets w - 1) w).

(** [delete event], with the socket only this event refers to. *)
Definition delete_event (p : Z) : M unit :=
  _ ← deref p;
  _ ← modify (fun w => set_store (delete p (store w)) w);
  close_socket.

Definition set_type (p : Z) (t : etype) : M unit :=
  now ← timestampNow; assign p (setType now t).

(** [Socket(int fd)]: a fresh descriptor for 0; -1 is no socket. *)
Definition Socket (fd : Z) : M Z :=
  fd ← (if fd =? 0 then syscall sys_socket else mret fd);
  _ ← (if fd =? -1 then mret tt else modify (fun w => set_sockets (sockets w + 1) w));
  mret fd.

(** The chain of option calls of a new socket, up to the first that fails. *)
Fixpoint all_options (n : nat) : M bool :=
  match n with
  | O => mret true
  | S n => ok ← syscall sys_option; if ok : bool then all_options n else mret false
  end.

(** ** Poll *)

Definition control (op : epoll_op) (fd events ptr : Z) : M unit :=
  modify (fun w => set_poll (ep_ctl op fd events ptr (poll_ w)).2 w).
Definition poll_add (fd events ptr : Z) : M unit := control EPOLL_CTL_ADD fd events ptr.
Definition poll_remove (fd : Z) : M unit := control EPOLL_CTL_DEL fd 0 0.

(** ** EventLoop: registering and unregistering *)

Definition heap_push (t : Timeout) : M unit :=
  modify (fun w => set_deadlineHeap (TimedHeap.push t (deadlineHeap_ w)) w).
Definition heap_erase (p : Z) : M unit :=
  modify (fun w => set_deadlineHeap (TimedHeap.erase p (deadlineHeap_ w)) w).

Definition addListenEvent (p : Z) : M unit :=
  e ← deref p;
  _ ← assert_ (bool_decide (type_ e = LISTEN));
  poll_add (fd_ e) EPOLLIN p.

Definition addReadEvent (p : Z) : M unit :=
  e ← deref p;
  _ ← assert_ (bool_decide (type_ e = NEXT) || bool_decide (type_ e = TOREAD));
  _ ← heap_push (if bool_decide (type_ e = NEXT) then edeadline p e else rdeadline p e);
  poll_add (fd_ e) EPOLLIN p.

Definition addWriteEvent (p : Z) : M unit :=
  e ← deref p;
  _ ← assert_ (bool_decide (type_ e = CONNECT) || bool_decide (type_ e = TOWRITE));
  _ ← heap_push (wdeadline p e);
  poll_add (fd_ e) EPOLLOUT p.

Definition dispatchEvent (p : Z) : M unit :=
  e ← deref p;
  match type_ e with
  | LISTEN => addListenEvent p
  | NEXT | TOREAD => addReadEvent p
  | CONNECT | TOWRITE => addWriteEvent p
  | _ => mret tt                      (* "cannot add event" *)
  end.

Definition removeEvent (p : Z) : M unit :=
  _ ← heap_erase p;
  e ← deref p;
  poll_remove (fd_ e).

Definition restartEvent (p : Z) : M unit :=
  _ ← heap_erase p;
  now ← timestampNow;
  _ ← assign p (restart now);
  e ← deref p;
  heap_push (rdeadline p e).

(** ** EventHandler *)

(** [Singleton<Actor>::get()->execute(event)]: the object must be there. *)
Definition actor_execute (p : Z) : M unit :=
  _ ← deref p; modify (fun w => set_handed (p :: handed w) w).

Definition closePeer (p : Z) : M unit :=
  _ ← removeEvent p;
  e ← deref p;
  if bool_decide (role_ e = CLIENT)
  then _ ← set_type p FAIL; actor_execute p
  else delete_event p.

Definition onTimeout (p : Z) : M unit :=
  e ← deref p;
  _ ← assert_ (bool_decide (type_ e = TIMEOUT));
  closePeer p.

Definition onError (p : Z) : M unit :=
  e ← deref p;
  _ ← assert_ (bool_decide (type_ e = ERROR));
  closePeer p.

Context (connectionLimit : Z).

Definition onListen (p : Z) : M unit :=
  e ← deref p;
  _ ← assert_ (bool_decide (type_ e = LISTEN));
  fd ← syscall sys_accept;
  fd ← Socket fd;
  if fd =? -1 then mret tt else
  ok ← all_options 3;
  if negb ok then close_socket else
  n ← gets sockets;
  if connectionLimit <=? n then close_socket else
  q ← new_event (channel_ e) fd SERVER;
  now ← timestampNow;
  e' ← deref q;
  if isConnectTimeout now e'
  then _ ← set_type q TIMEOUT; onTimeout q
  else _ ← set_type q NEXT; dispatchEvent q.

Definition onConnect (p : Z) : M unit :=
  e ← deref p;
  _ ← assert_ (bool_decide (type_ e = CONNECT));
  now ← timestampNow;
  if isConnectTimeout now e then _ ← set_type p TIMEOUT; onTimeout p else
  r ← syscall sys_error;
  let err := default 1 r in
  if negb (err =? 0) then _ ← set_type p ERROR; onError p
  else set_type p TOWRITE.

Definition onComplete (p : Z) : M unit :=
  e ← deref p;
  now ← timestampNow;
  if bool_decide (type_ e = READED) && isReadTimeout now e
  then _ ← set_type p TIMEOUT; onTimeout p else
  if bool_decide (type_ e = WRITED) && isWriteTimeout now e
  then _ ← set_type p TIMEOUT; onTimeout p else
  _ ← removeEvent p;
  match type_ e with
  | READED =>
      _ ← (if bool_decide (role_ e = CLIENT) && isForward e
           then delete_event p else mret tt);
      actor_execute p
  | WRITED =>
      _ ← (if bool_decide (role_ e = SERVER)
           then now ← timestampNow; _ ← assign p (reset now); set_type p NEXT
           else set_type p TOREAD);
      dispatchEvent p
  | _ => mret tt
  end.

(** The virtual [Event::readData] and [Event::writeData]: given the number of
    system calls so far, the code they return, the event they leave and the
    number of system calls they made. *)
Context (readData writeData : nat → event → Z * event * nat).

Definition transfer (io : nat → event → Z * event * nat) (p : Z) : M Z :=
  n ← gets tick;
  e ← deref p;
  let '(r, e', k) := io n e in
  _ ← assign p (fun _ => e');
  _ ← modify (set_tick (n + k));
  mret r.

Definition onRead (p : Z) : M unit :=
  _ ← set_type p READING;
  r ← transfer readData p;
  if r =? -1 then
    e ← deref p;
    if bool_decide (type_ e = TIMEOUT) then onTimeout p
    else _ ← set_type p ERROR; onError p
  else if r =? 0 then _ ← set_type p READED; onComplete p
  else if r =? 1 then mret tt
  else if r =? 2 then closePeer p
  else mret tt.

Definition onWrite (p : Z) : M unit :=
  _ ← set_type p WRITING;
  r ← transfer writeData p;
  if r =? -1 then
    e ← deref p;
    if bool_decide (type_ e = TIMEOUT) then onTimeout p
    else _ ← set_type p ERROR; onError p
  else if r =? 0 then _ ← set_type p WRITED; onComplete p
  else mret tt.

Definition handle (p : Z) : M unit :=
  e ← deref p;
  match type_ e with
  | LISTEN => onListen p
  | CONNECT => onConnect p
  | NEXT => _ ← restartEvent p; onRead p        (* falls through *)
  | TOREAD | READING => onRead p
  | TOWRITE | WRITING => onWrite p
  | TIMEOUT => onTimeout p
  | _ => closePeer p
  end.

(** ** EventLoop: the loop *)

(** Enough turns for every live deadline to be put off past [now], or expired. *)
Definition timeout_fuel (now : Z) (th : timed_heap H) : nat :=
  S (map_fold (fun _ t n => (n + 2 + Z.to_nat ((now - deadline t) / LTIMEOUT))%nat) 0%nat
       (map_ th)).

Fixpoint checkTimeout_loop (fuel : nat) (now : Z) : M unit :=
  match fuel with
  | O => throw OutOfFuel
  | S fuel =>
      th ← gets deadlineHeap_;
      '(t, th) ← lift (TimedHeap.pop now th);
      _ ← modify (set_deadlineHeap th);
      if data t =? 0 then mret tt else
      n ← gets sockets;
      _ ← (if repeat t && (n <? LCOUNT)
           then heap_push (mk_timeout (data t) (u64 (deadline t + LTIMEOUT)) (repeat t))
           else _ ← set_type (data t) TIMEOUT; onTimeout (data t));
      checkTimeout_loop fuel now
  end.

Definition checkTimeoutEvent : M unit :=
  now ← timestampNow;
  th ← gets deadlineHeap_;
  checkTimeout_loop (timeout_fuel now th) now.

Fixpoint for_each (f : Z → M unit) (l : list Z) : M unit :=
  match l with [] => mret tt | x :: l => _ ← f x; for_each f l end.

Definition consume : M unit := modify (set_wakes 0).
Definition wake : M unit := modify (fun w => set_wakes (S (wakes w)) w).

(** One ready descriptor: the waker's pipe is emptied, anything else handled. *)
Definition handle_ready (p : Z) : M unit :=
  if p =? 0 then mret tt else
  e ← deref p;
  if bool_decide (type_ e = WAKER) then consume else handle p.

Definition take_events : M (list Z) :=
  es ← gets events_; _ ← modify (set_events []); mret es.
Definition run_callbacks : M unit :=
  cs ← gets callbacks_; _ ← modify (set_callbacks []);
  modify (fun w => set_called (rev cs ++ called w) w).

(** One turn of the loop; [loopOnce] does not poll. *)
Definition loop_turn (once : bool) : M unit :=
  es ← take_events;
  _ ← for_each dispatchEvent es;
  _ ← run_callbacks;
  _ ← checkTimeoutEvent;
  if once then mret tt else
  s ← gets poll_;
  ready ← syscall (fun n => sys_wait n s);
  for_each handle_ready ready.

(** while (!stop_), for at most [turns] turns. *)
Fixpoint loop_turns (once : bool) (turns : nat) : M unit :=
  match turns with
  | O => mret tt
  | S turns =>
      stop ← gets stop_;
      if stop : bool then mret tt else
      _ ← loop_turn once;
      if once then mret tt else loop_turns once turns
  end.

Definition loopBody (once : bool) (turns : nat) : M unit :=
  _ ← modify (set_loopThread true);
  _ ← loop_turns once turns;
  _ ← modify (set_stop false);
  modify (set_loopThread false).

Definition loop_stop (waker_fd : Z) : M unit :=
  _ ← poll_remove waker_fd;
  fds ← gets listenFds_;
  _ ← for_each poll_remove fds;
  modify (set_stop true).

Definition addEvent (p : Z) : M unit :=
  _ ← modify (fun w => set_events (events_ w ++ [p]) w); wake.
Definition addCallback (c : nat) : M unit :=
  _ ← modify (fun w => set_callbacks (callbacks_ w ++ [c]) w); wake.

(** The constructor: an empty loop whose waker is polled for input. *)
Definition EventLoop (waker_fd : Z) (s : P) : world :=
  mk_world {[ 1 := WakerEvent waker_fd ]} 2
    (ep_ctl EPOLL_CTL_ADD waker_fd EPOLLIN 1 s).2 empty_heap [] [] false false [] [] [] 0 0 0.

(** [listen]: a listening socket with its options, bound and listening. *)
Definition listen (c : channel) : M unit :=
  fd ← Socket 0;
  if fd =? -1 then throw (Thrown "socket listen failed") else
  ok ← all_options 5;
  if negb ok then throw (Thrown "socket listen failed") else
  p ← new_event c fd LISTENER;
  _ ← modify (fun w => set_listenFds (listenFds_ w ++ [fd]) w);
  _ ← set_type p LISTEN;
  dispatchEvent p.


(** ** The invariant *)

(** The types an event can have while it is in the interest set. *)
Definition pollable (t : etype) : Prop :=
  t ∈ [LISTEN; CONNECT; NEXT; TOREAD; READING; TOWRITE; WRITING; WAKER].

(** [X]: the event a handler is at work on, whose type may be any. *)
Record wf_gen (X : Z → Prop) (w : world) : Prop := {
  wf_next : 0 < next_ptr w;
  wf_ptr : ∀ p e, store w !! p = Some e → 0 < p < next_ptr w;
  wf_ev : ∀ p e, store w !! p = Some e → type_ e ≠ WAKER → event_ok e;
  wf_fwd : ∀ p e, store w !! p = Some e → action_ e = FORWARD → type_ e = WRITED;
  wf_poll : ∀ fd m p, ep_find fd (poll_ w) = Some (m, p) →
    ∃ e, store w !! p = Some e ∧ fd_ e = fd ∧ (X p ∨ pollable (type_ e));
  wf_heap : heap_wf (deadlineHeap_ w);
  wf_live : ∀ p t, map_ (deadlineHeap_ w) !! p = Some t →
    ∃ e, store w !! p = Some e ∧ type_ e ≠ WAKER ∧ action_ e = NO_ACTION ∧ p ∉ events_ w;
  wf_pend : ∀ p, p ∈ events_ w → ∃ e, store w !! p = Some e ∧ type_ e ≠ WAKER
}.
Definition wf (w : world) : Prop := wf_gen (fun _ => False) w.

(** No entry of the interest set and no deadline refers to [p]. *)
Definition unregistered (p : Z) (w : world) : Prop :=
  (∀ fd m, ep_find fd (poll_ w) ≠ Some (m, p)) ∧ map_ (deadlineHeap_ w) !! p = None.

(** What running a handler for [p] amounts to: the event stays in the loop's
    hands, or it is passed to the actor, or it is gone; in the last two cases
    nothing in the loop refers to it any more. *)
Inductive fate (p : Z) (w w' : world) : Prop :=
| Kept e : store w' !! p = Some e → pollable (type_ e) → handed w' = handed w → fate p w w'
| Handed e : store w' !! p = Some e → handed w' = p :: handed w → unregistered p w' → fate p w w'
| Gone : store w' !! p = None → handed w' = handed w → unregistered p w' → fate p w w'.

Record handled (p : Z) (w w' : world) : Prop := {
  h_wf : wf w';
  h_events : events_ w' = events_ w;
  h_others : ∀ q, q ≠ p → is_Some (store w !! q) → store w' !! q = store w !! q;
  h_fate : fate p w w'
}.

(** Between the start of a handler in [w0] and a point inside it. *)
Record near (p : Z) (w0 w : world) (e : event) : Prop := {
  n_here : store w !! p = Some e;
  n_type : type_ e ≠ WAKER;
  n_action : action_ e = NO_ACTION;
  n_pend : p ∉ events_ w;
  n_others : ∀ q, q ≠ p → is_Some (store w0 !! q) → store w !! q = store w0 !! q;
  n_events : events_ w = events_ w0;
  n_handed : handed w = handed w0;
  n_wf : wf_gen (eq p) w
}.

Lemma wf_weaken X w : wf w → wf_gen X w.
Proof.
  intros [? ? ? ? Hp ? ? ?]. split; try done. intros fd m p Hf.
  destruct (Hp fd m p Hf) as (e & ? & ? & [[]|?]). eauto.
Qed.

Lemma wf_unexempt p w e :
  wf_gen (eq p) w → store w !! p = Some e → pollable (type_ e) → wf w.
Proof.
  intros [? ? ? ? Hp ? ? ?] Hs Ht. split; try done. intros fd m q Hf.
  destruct (Hp fd m q Hf) as (e' & He & ? & [<-|?]); eauto.
  simplify_eq. eauto.
Qed.

Lemma wf_unregistered p w : wf_gen (eq p) w → unregistered p w → wf w.
Proof.
  intros [? ? ? ? Hp ? ? ?] [Hu _]. split; try done. intros fd m q Hf.
  destruct (Hp fd m q Hf) as (e' & He & ? & [<-|?]); [by apply Hu in Hf|eauto].
Qed.

(** ** What the primitives do *)

Lemma wp_syscall {A} (answers : nat → A) Q w :
  Q (answers (tick w)) (set_tick (S (tick w)) w) → wp (syscall answers) Q w.
Proof. done. Qed.

Lemma wp_deref p e (Q : event → world → Prop) w :
  store w !! p = Some e → Q e w → wp (deref p) Q w.
Proof.
  intros Hs HQ. unfold deref. apply wp_bind. eapply wp_intro; [done|].
  apply (wp_lift _ e); [by rewrite Hs|done].
Qed.

Lemma wp_assign p f e (Q : unit → world → Prop) w :
  store w !! p = Some e → Q tt (set_store (<[p := f e]> (store w)) w) → wp (assign p f) Q w.
Proof. intros Hs HQ. unfold assign. apply wp_bind. by apply (wp_deref p e). Qed.

Lemma near_tick p w0 w e n : near p w0 w e → near p w0 (set_tick n w) e.
Proof. intros [? ? ? ? ? ? ? []]. by split. Qed.

(** Changing the event at work, keeping its descriptor. *)
Lemma near_assign p w0 w e f :
  near p w0 w e → fd_ (f e) = fd_ e → type_ (f e) ≠ WAKER → action_ (f e) = NO_ACTION →
  (event_ok e → event_ok (f e)) →
  near p w0 (set_store (<[p := f e]> (store w)) w) (f e).
Proof.
  intros [Hh Ht Ha Hp Ho He Hd Hwf] Hfd Hty Hac Hok.
  destruct Hwf as [H0 H1 H2 H3 H4 H5 H6 H7].
  split; cbn; try done.
  - by rewrite lookup_insert_eq.
  - intros q Hq Hs. rewrite lookup_insert_ne by done. by apply Ho.
  - split; cbn; try done.
    + intros q e' [[<- <-]|[? ?]]%lookup_insert_Some; eauto.
    + intros q e' [[<- <-]|[? ?]]%lookup_insert_Some; eauto.
    + intros q e' [[<- <-]|[? ?]]%lookup_insert_Some; [congruence|eauto].
    + intros fd m q Hf. destruct (H4 fd m q Hf) as (e' & He' & Hf' & Hx).
      destruct (decide (q = p)) as [->|Hne].
      * exists (f e). rewrite lookup_insert_eq. simplify_eq. naive_solver.
      * exists e'. by rewrite lookup_insert_ne.
    + intros q t Hq. destruct (H6 q t Hq) as (e' & He' & ? & ? & ?).
      destruct (decide (q = p)) as [->|Hne].
      * exists (f e). by rewrite lookup_insert_eq.
      * exists e'. by rewrite lookup_insert_ne.
    + intros q Hq. destruct (H7 q Hq) as (e' & He' & ?).
      destruct (decide (q = p)) as [->|Hne]; [done|].
      exists e'. by rewrite lookup_insert_ne.
Qed.

Lemma near_ok p w0 w e : near p w0 w e → event_ok e.
Proof. intros Hn. eapply wf_ev; [by eapply n_wf|by eapply n_here|by eapply n_type]. Qed.

Lemma near_pos p w0 w e : near p w0 w e → p ≠ 0.
Proof. intros Hn. pose proof (wf_ptr _ _ (n_wf _ _ _ _ Hn) p e (n_here _ _ _ _ Hn)). lia. Qed.

Lemma near_erase p w0 w e :
  near p w0 w e → near p w0 (set_deadlineHeap (TimedHeap.erase p (deadlineHeap_ w)) w) e.
Proof.
  intros [Hh Ht Ha Hp Ho He Hd [H0 H1 H2 H3 H4 H5 H6 H7]]. split; try done.
  split; cbn; try done; [by apply erase_wf|].
  intros q t. unfold TimedHeap.erase. destruct (p =? 0); cbn; [apply H6|].
  intros [_ Hq]%lookup_delete_Some. by eapply H6.
Qed.

Lemma near_push p w0 w e t :
  near p w0 w e → data t = p → 0 < deadline t →
  near p w0 (set_deadlineHeap (TimedHeap.push t (deadlineHeap_ w)) w) e.
Proof.
  intros Hn Hdt Hdl. pose proof (near_pos _ _ _ _ Hn) as Hp0.
  destruct Hn as [Hh Ht Ha Hp Ho He Hd [H0 H1 H2 H3 H4 H5 H6 H7]]. split; try done.
  split; cbn; try done; [by apply push_wf|].
  intros q u. unfold TimedHeap.push. rewrite Hdt.
  destruct (Z.eqb_spec p 0); [done|]. cbn.
  intros [[<- <-]|[_ Hq]]%lookup_insert_Some; [by exists e|by eapply H6].
Qed.

Lemma near_poll_add p w0 w e m :
  near p w0 w e →
  near p w0 (set_poll (ep_ctl EPOLL_CTL_ADD (fd_ e) m p (poll_ w)).2 w) e.
Proof.
  intros [Hh Ht Ha Hp Ho He Hd [H0 H1 H2 H3 H4 H5 H6 H7]]. split; try done.
  split; cbn; try done. intros fd m' q.
  pose proof (ep_add (fd_ e) m p (poll_ w)) as Hadd.
  destruct (ep_ctl _ _ _ _ _) as [r s'].
  destruct Hadd as [[_ Heq]|(_ & _ & Heq)]; cbn; rewrite Heq; [apply H4|].
  case_decide as Hfd; [|apply H4]. intros [= <- <-]. exists e. split_and!; [done..|by left].
Qed.

Lemma near_poll_remove p w0 w e :
  near p w0 w e →
  near p w0 (set_poll (ep_ctl EPOLL_CTL_DEL (fd_ e) 0 0 (poll_ w)).2 w) e ∧
  ∀ fd m, ep_find fd (ep_ctl EPOLL_CTL_DEL (fd_ e) 0 0 (poll_ w)).2 ≠ Some (m, p).
Proof.
  intros [Hh Ht Ha Hp Ho He Hd [H0 H1 H2 H3 H4 H5 H6 H7]]. split.
  - split; try done. split; cbn; try done. intros fd m q.
    rewrite ep_del. case_decide; [done|]. apply H4.
  - intros fd m. rewrite ep_del. case_decide as Hfd; [done|].
    intros (e' & He' & Hf' & _)%H4. simplify_eq.
Qed.

(** ** The handlers *)

Hypothesis clock_ok : ∀ n, 0 < clock n < 2 ^ 62.

(** What the loop relies on of a Protocol: it works on the buffers and lengths,
    and the only type it sets is TIMEOUT, with the code -1. *)
Definition io_ok (io : nat → event → Z * event * nat) : Prop :=
  ∀ n e r e' k, io n e = (r, e', k) →
    fd_ e' = fd_ e ∧ role_ e' = role_ e ∧ action_ e' = action_ e ∧
    (type_ e' = type_ e ∨ type_ e' = TIMEOUT ∧ r = -1) ∧ (event_ok e → event_ok e').
Hypothesis read_ok : io_ok readData.
Hypothesis write_ok : io_ok writeData.

Lemma wp_set_type p t w0 w e (Q : unit → world → Prop) :
  near p w0 w e → t ≠ WAKER →
  (∀ e' w', near p w0 w' e' → type_ e' = t → role_ e' = role_ e →
    (unregistered p w → unregistered p w') → Q tt w') →
  wp (set_type p t) Q w.
Proof.
  intros Hn Ht HQ. unfold set_type, timestampNow. apply wp_bind, wp_syscall.
  apply (near_tick _ _ _ _ (S (tick w))) in Hn.
  apply (wp_assign p _ e); [by eapply n_here|].
  eapply HQ; [apply near_assign; try done| | |]; try done.
  - cbn. by eapply n_action.
  - intros ?. by apply setType_ok.
Qed.

Lemma wp_removeEvent p w0 w e (Q : unit → world → Prop) :
  near p w0 w e → (∀ w', near p w0 w' e → unregistered p w' → Q tt w') →
  wp (removeEvent p) Q w.
Proof.
  intros Hn HQ. unfold removeEvent, heap_erase, poll_remove, control.
  apply wp_bind, wp_modify. pose proof (near_pos _ _ _ _ Hn) as Hp0.
  assert (map_ (TimedHeap.erase p (deadlineHeap_ w)) !! p = None) as Her.
  { unfold TimedHeap.erase. destruct (Z.eqb_spec p 0); [done|]. apply lookup_delete_eq. }
  apply near_erase in Hn.
  apply wp_bind, (wp_deref p e); [by eapply n_here|]. apply wp_modify.
  apply near_poll_remove in Hn as [Hn Hun]. apply HQ; [done|]. by split.
Qed.

Lemma wp_actor_execute p w0 w e :
  near p w0 w e → unregistered p w → wp (actor_execute p) (fun _ => handled p w0) w.
Proof.
  intros Hn Hu. unfold actor_execute.
  apply wp_bind, (wp_deref p e); [by eapply n_here|]. apply wp_modify.
  destruct Hn as [Hh Ht Ha Hp Ho He Hd Hwf].
  apply wf_unregistered in Hwf; [|done].
  split; [|done|done|].
  - destruct Hwf. by split.
  - eapply Handed; [done|cbn; by rewrite Hd|done].
Qed.

Lemma wp_delete_event p w0 w e :
  near p w0 w e → unregistered p w →
  wp (delete_event p) (fun _ w' => handled p w0 w' ∧ handed w' = handed w0) w.
Proof.
  intros Hn Hu. unfold delete_event, close_socket.
  apply wp_bind, (wp_deref p e); [by eapply n_here|].
  apply wp_bind, wp_modify, wp_modify.
  destruct Hn as [Hh Ht Ha Hp Ho He Hd Hwf].
  apply wf_unregistered in Hwf; [|done]. destruct Hu as [Hu1 Hu2].
  split; [|done]. split; cbn; [|done| |].
  - destruct Hwf as [H0 H1 H2 H3 H4 H5 H6 H7]. split; cbn; try done.
    + intros q e' [_ Hq]%lookup_delete_Some. eauto.
    + intros q e' [_ Hq]%lookup_delete_Some. eauto.
    + intros q e' [_ Hq]%lookup_delete_Some. eauto.
    + intros fd m q Hf. destruct (H4 fd m q Hf) as (e' & He' & ?).
      exists e'. rewrite lookup_delete_ne; [done|]. intros ->. by apply Hu1 in Hf.
    + intros q t Hq. destruct (H6 q t Hq) as (e' & He' & ?).
      exists e'. rewrite lookup_delete_ne; [done|]. intros ->. congruence.
    + intros q Hq. destruct (H7 q Hq) as (e' & He' & ?).
      exists e'. rewrite lookup_delete_ne; [done|]. by intros ->.
  - intros q Hq Hs. rewrite lookup_delete_ne by done. by apply Ho.
  - apply Gone; [by apply lookup_delete_eq|done|by split].
Qed.

Lemma wp_closePeer p w0 w e :
  near p w0 w e → wp (closePeer p) (fun _ => handled p w0) w.
Proof.
  intros Hn. unfold closePeer. apply wp_bind.
  eapply wp_removeEvent; [done|]. intros w1 Hn1 Hu1.
  apply wp_bind, (wp_deref p e); [by eapply n_here|]. wp_step.
  - apply wp_bind. eapply wp_set_type; [done..|]. intros e2 w2 Hn2 _ _ Hu2.
    eapply wp_actor_execute; [done|auto].
  - eapply wp_mono; [by eapply wp_delete_event|]. by intros _ w' [? _].
Qed.

Lemma wp_onTimeout p w0 w e :
  near p w0 w e → type_ e = TIMEOUT → wp (onTimeout p) (fun _ => handled p w0) w.
Proof.
  intros Hn Ht. unfold onTimeout. apply wp_bind, (wp_deref p e); [by eapply n_here|].
  apply wp_bind, wp_assert; [by rewrite bool_decide_true|]. by eapply wp_closePeer.
Qed.

Lemma wp_onError p w0 w e :
  near p w0 w e → type_ e = ERROR → wp (onError p) (fun _ => handled p w0) w.
Proof.
  intros Hn Ht. unfold onError. apply wp_bind, (wp_deref p e); [by eapply n_here|].
  apply wp_bind, wp_assert; [by rewrite bool_decide_true|]. by eapply wp_closePeer.
Qed.

Lemma wp_time_out p w0 w e :
  near p w0 w e →
  wp (_ ← set_type p TIMEOUT; onTimeout p) (fun _ => handled p w0) w.
Proof.
  intros Hn. apply wp_bind. eapply wp_set_type; [done..|]. intros e2 w2 Hn2 Ht _ _.
  by eapply wp_onTimeout.
Qed.

Lemma wp_fail p w0 w e :
  near p w0 w e → wp (_ ← set_type p ERROR; onError p) (fun _ => handled p w0) w.
Proof.
  intros Hn. apply wp_bind. eapply wp_set_type; [done..|]. intros e2 w2 Hn2 Ht _ _.
  by eapply wp_onError.
Qed.

(** A handler that leaves the event registered with a pollable type. *)
Lemma near_kept p w0 w e : near p w0 w e → pollable (type_ e) → handled p w0 w.
Proof.
  intros Hn Ht. destruct Hn as [Hh ? ? ? ? ? ? Hwf].
  split; [by eapply wf_unexempt|done..|]. by eapply Kept.
Qed.

(** Dispatching puts the event back under a deadline and into the set. *)
Lemma wp_dispatchEvent p w0 w e :
  near p w0 w e → type_ e ∈ [LISTEN; CONNECT; NEXT; TOREAD; TOWRITE] →
  wp (dispatchEvent p) (fun _ w' => handled p w0 w' ∧ handed w' = handed w0) w.
Proof.
  intros Hn Ht. pose proof (n_handed _ _ _ _ Hn) as Hha. pose proof (near_ok _ _ _ _ Hn) as Hok.
  destruct (deadlines_pos p e Hok) as (He & Hr & Hw).
  assert (0 < deadline (edeadline p e)) as He0 by lia.
  assert (0 < deadline (rdeadline p e)) as Hr0 by lia.
  assert (0 < deadline (wdeadline p e)) as Hw0 by lia. clear He Hr Hw.
  assert (pollable (type_ e)) as Hpo.
  { unfold pollable. rewrite !elem_of_cons, elem_of_nil in *. tauto. }
  assert (∀ m, handled p w0 (set_poll (ep_ctl EPOLL_CTL_ADD (fd_ e) m p (poll_ w)).2 w)) as Hadd.
  { intros m. eapply near_kept; [by apply near_poll_add|done]. }
  assert (∀ t m, data t = p → 0 < deadline t → handled p w0
    (set_poll (ep_ctl EPOLL_CTL_ADD (fd_ e) m p (poll_ w)).2
      (set_deadlineHeap (TimedHeap.push t (deadlineHeap_ w)) w))) as Hpush.
  { intros t m Hd Hz. eapply near_kept; [|done].
    apply (near_push _ _ _ _ t) in Hn; [|done..].
    by apply (near_poll_add _ _ _ _ m) in Hn. }
  unfold dispatchEvent. apply wp_bind, (wp_deref p e); [by eapply n_here|].
  rewrite !elem_of_cons, elem_of_nil in Ht.
  destruct Ht as [Hty|[Hty|[Hty|[Hty|[Hty|[]]]]]]; rewrite Hty;
    unfold addListenEvent, addReadEvent, addWriteEvent;
    (apply wp_bind, (wp_deref p e); [by eapply n_here|]);
    rewrite Hty; (apply wp_bind, wp_assert; [done|]).
  - apply wp_modify. split; [apply Hadd|done].
  - apply wp_bind, wp_modify, wp_modify. split; [apply Hpush; [done|exact Hw0]|done].
  - apply wp_bind, wp_modify, wp_modify. split; [apply Hpush; [done|exact He0]|done].
  - apply wp_bind, wp_modify, wp_modify. split; [apply Hpush; [done|exact Hr0]|done].
  - apply wp_bind, wp_modify, wp_modify. split; [apply Hpush; [done|exact Hw0]|done].
Qed.

Lemma wp_onComplete p w0 w e :
  near p w0 w e → type_ e = READED ∨ type_ e = WRITED →
  wp (onComplete p) (fun _ => handled p w0) w.
Proof.
  intros Hn Ht. unfold onComplete.
  apply wp_bind, (wp_deref p e); [by eapply n_here|].
  unfold timestampNow at 1. apply wp_bind, wp_syscall.
  apply (near_tick _ _ _ _ (S (tick w))) in Hn.
  wp_step; [by eapply wp_time_out|]. wp_step; [by eapply wp_time_out|].
  apply wp_bind. eapply wp_removeEvent; [done|]. intros w1 Hn1 Hu1.
  destruct Ht as [Ht|Ht]; rewrite Ht.
  - assert (isForward e = false) as ->.
    { unfold isForward. rewrite (n_action _ _ _ _ Hn). done. }
    rewrite andb_false_r. apply wp_bind, wp_ret. by eapply wp_actor_execute.
  - apply wp_bind. wp_step.
    + unfold timestampNow. apply wp_bind, wp_syscall, wp_bind.
      apply (near_tick _ _ _ _ (S (tick w1))) in Hn1.
      apply (wp_assign p _ e); [by eapply n_here|].
      apply (near_assign _ _ _ _ (reset (clock (tick w1)))) in Hn1; try done.
      2: { intros ?. apply reset_ok; [done|]. apply clock_ok. }
      eapply wp_set_type; [done..|]. intros e2 w2 Hn2 Ht2 _ _.
      eapply wp_mono; [eapply wp_dispatchEvent; [done|]|by intros _ w' [? _]].
      rewrite Ht2. by repeat constructor.
    + eapply wp_set_type; [done..|]. intros e2 w2 Hn2 Ht2 _ _.
      eapply wp_mono; [eapply wp_dispatchEvent; [done|]|by intros _ w' [? _]].
      rewrite Ht2. by repeat constructor.
Qed.

Lemma wp_transfer io p w0 w e (Q : Z → world → Prop) :
  io_ok io → near p w0 w e →
  (∀ r e' w', near p w0 w' e' → type_ e' = type_ e ∨ type_ e' = TIMEOUT ∧ r = -1 → Q r w') →
  wp (transfer io p) Q w.
Proof.
  intros Hio Hn HQ. unfold transfer. apply wp_bind, wp_gets.
  apply wp_bind, (wp_deref p e); [by eapply n_here|].
  destruct (io (tick w) e) as [[r e'] k] eqn:Hr.
  destruct (Hio _ _ _ _ _ Hr) as (Hfd & Hro & Ha & Ht & Hok).
  apply wp_bind, (wp_assign p _ e); [by eapply n_here|].
  apply wp_bind, wp_modify, wp_ret.
  apply (near_assign _ _ _ _ (fun _ => e')) in Hn as Hn'; try done.
  - eapply HQ; [by apply near_tick|done].
  - destruct Ht as [->|[-> _]]; [by eapply n_type|done].
  - rewrite Ha. by eapply n_action.
Qed.

Lemma wp_onRead p w0 w e : near p w0 w e → wp (onRead p) (fun _ => handled p w0) w.
Proof.
  intros Hn. unfold onRead. apply wp_bind. eapply wp_set_type; [done..|].
  intros e1 w1 Hn1 Ht1 _ _. apply wp_bind. eapply wp_transfer; [exact read_ok|done|].
  intros r e2 w2 Hn2 Ht2. wp_step.
  - apply wp_bind, (wp_deref p e2); [by eapply n_here|]. wp_step.
    + eapply wp_onTimeout; [done|]. by eapply bool_decide_eq_true.
    + by eapply wp_fail.
  - assert (type_ e2 = READING) as Ht.
    { destruct Ht2 as [->|[_ ->]]; [done|]. discriminate. }
    wp_step; [|wp_step; [|wp_step]].
    + apply wp_bind. eapply wp_set_type; [done..|]. intros e3 w3 Hn3 Ht3 _ _.
      eapply wp_onComplete; [done|by left].
    + apply wp_ret. eapply near_kept; [done|]. rewrite Ht. by repeat constructor.
    + by eapply wp_closePeer.
    + apply wp_ret. eapply near_kept; [done|]. rewrite Ht. by repeat constructor.
Qed.

Lemma wp_onWrite p w0 w e : near p w0 w e → wp (onWrite p) (fun _ => handled p w0) w.
Proof.
  intros Hn. unfold onWrite. apply wp_bind. eapply wp_set_type; [done..|].
  intros e1 w1 Hn1 Ht1 _ _. apply wp_bind. eapply wp_transfer; [exact write_ok|done|].
  intros r e2 w2 Hn2 Ht2. wp_step.
  - apply wp_bind, (wp_deref p e2); [by eapply n_here|]. wp_step.
    + eapply wp_onTimeout; [done|]. by eapply bool_decide_eq_true.
    + by eapply wp_fail.
  - assert (type_ e2 = WRITING) as Ht.
    { destruct Ht2 as [->|[_ ->]]; [done|]. discriminate. }
    wp_step.
    + apply wp_bind. eapply wp_set_type; [done..|]. intros e3 w3 Hn3 Ht3 _ _.
      eapply wp_onComplete; [done|by right].
    + apply wp_ret. eapply near_kept; [done|]. rewrite Ht. by repeat constructor.
Qed.

Lemma wp_onConnect p w0 w e :
  near p w0 w e → type_ e = CONNECT → wp (onConnect p) (fun _ => handled p w0) w.
Proof.
  intros Hn Ht. unfold onConnect. apply wp_bind, (wp_deref p e); [by eapply n_here|].
  apply wp_bind, wp_assert; [by rewrite bool_decide_true|].
  unfold timestampNow at 1. apply wp_bind, wp_syscall.
  apply (near_tick _ _ _ _ (S (tick w))) in Hn.
  wp_step; [by eapply wp_time_out|].
  apply wp_bind, wp_syscall. eapply near_tick in Hn.
  wp_step; [by eapply wp_fail|].
  eapply wp_set_type; [done..|]. intros e1 w1 Hn1 Ht1 _ _.
  eapply near_kept; [done|]. rewrite Ht1. by repeat constructor.
Qed.

(** ** A new connection *)

Lemma wp_closePeer_server p w0 w e :
  near p w0 w e → role_ e ≠ CLIENT →
  wp (closePeer p) (fun _ w' => handled p w0 w' ∧ handed w' = handed w0) w.
Proof.
  intros Hn Hr. unfold closePeer. apply wp_bind.
  eapply wp_removeEvent; [done|]. intros w1 Hn1 Hu1.
  apply wp_bind, (wp_deref p e); [by eapply n_here|].
  rewrite bool_decide_false by done. by eapply wp_delete_event.
Qed.

(** The world right after [new Event]. *)
Lemma near_new w c fd r n :
  wf w → option_ok (channel_timeout c) →
  near (next_ptr w) w (put_new (Event (clock n) c fd r) w) (Event (clock n) c fd r).
Proof.
  intros Hwf Hc. set (e := Event _ _ _ _). set (q := next_ptr w).
  assert (event_ok e) as Hok by (apply Event_ok; [done|apply clock_ok]).
  assert (∀ p e', store w !! p = Some e' → p ≠ q) as Hfresh.
  { intros p e' Hp. apply (wf_ptr _ _ Hwf) in Hp. lia. }
  destruct Hwf as [H0 H1 H2 H3 H4 H5 H6 H7]. split; cbn; try done.
  - by rewrite lookup_insert_eq.
  - intros (e' & He' & _)%H7. by apply Hfresh in He'.
  - intros p Hp _. by rewrite lookup_insert_ne.
  - split; cbn; [lia| | | | |done| |].
    + intros p e' [[<- <-]|[? ?%H1]]%lookup_insert_Some; lia.
    + intros p e' [[<- <-]|[? ?]]%lookup_insert_Some; eauto.
    + intros p e' [[<- <-]|[? ?]]%lookup_insert_Some; [done|eauto].
    + intros fd' m p Hf. destruct (H4 fd' m p Hf) as (e' & He' & ? & [[]|?]).
      exists e'. rewrite lookup_insert_ne by (symmetry; by eapply Hfresh). auto.
    + intros p t Hp. destruct (H6 p t Hp) as (e' & He' & ?).
      exists e'. by rewrite lookup_insert_ne by (symmetry; by eapply Hfresh).
    + intros p Hp. destruct (H7 p Hp) as (e' & He' & ?).
      exists e'. by rewrite lookup_insert_ne by (symmetry; by eapply Hfresh).
Qed.

(** Work on another, new event leaves the event at work where it was. *)
Lemma handled_other p q w0 w e w' :
  near p w0 w e → pollable (type_ e) → p ≠ q →
  (∀ x, is_Some (store w0 !! x) → x ≠ q) →
  handled q w w' → handed w' = handed w → handled p w0 w'.
Proof.
  intros Hn Hpo Hne Hq [Hwf He Ho Hf] Hh. destruct Hn as [? ? ? ? Hno ? ? ?].
  split; [done|congruence| |].
  - intros x Hx Hs. rewrite Ho; [by apply Hno|by apply Hq|]. rewrite Hno; done.
  - eapply Kept; [|exact Hpo|congruence]. rewrite Ho; done.
Qed.

Lemma near_sockets p w0 w e n : near p w0 w e → near p w0 (set_sockets n w) e.
Proof. intros [? ? ? ? ? ? ? []]. by split. Qed.

Lemma wp_all_options p w0 e (Q : bool → world → Prop) n : ∀ w,
  near p w0 w e → (∀ b w', near p w0 w' e → next_ptr w' = next_ptr w → Q b w') →
  wp (all_options n) Q w.
Proof.
  induction n as [|n IH]; intros w Hn HQ; cbn; [apply wp_ret; by apply HQ|].
  apply wp_bind, wp_syscall. apply (near_tick _ _ _ _ (S (tick w))) in Hn.
  wp_step; [|apply wp_ret; by apply HQ]. apply IH; [done|]. intros b w' Hn' Hp. by apply HQ.
Qed.

Lemma wp_Socket p w0 w e fd (Q : Z → world → Prop) :
  near p w0 w e → (∀ fd w', near p w0 w' e → next_ptr w' = next_ptr w → Q fd w') →
  wp (Socket fd) Q w.
Proof.
  intros Hn HQ. unfold Socket.
  assert (∀ fd w1, near p w0 w1 e → next_ptr w1 = next_ptr w →
    wp (_ ← (if fd =? -1 then mret tt else
          modify (fun w => set_sockets (sockets w + 1) w)); mret fd) Q w1) as Hrest.
  { intros fd' w1 Hn1 Hp. apply wp_bind. wp_step.
    - apply wp_ret, wp_ret. by apply HQ.
    - apply wp_modify, wp_ret. apply HQ; [by apply near_sockets|done]. }
  apply wp_bind. wp_step.
  - apply wp_syscall. apply Hrest; [by apply near_tick|done].
  - apply wp_ret. by apply Hrest.
Qed.

Lemma wp_onListen p w0 w e :
  near p w0 w e → next_ptr w = next_ptr w0 → wf w0 → type_ e = LISTEN →
  wp (onListen p) (fun _ => handled p w0) w.
Proof.
  intros Hn Hnp Hw0 Ht. assert (pollable (type_ e)) as Hpo by (rewrite Ht; by repeat constructor).
  assert (∀ n w1, near p w0 w1 e → handled p w0 (set_sockets n w1)) as Hdone.
  { intros n w1 Hn1. eapply near_kept; [by apply near_sockets|done]. }
  unfold onListen. apply wp_bind, (wp_deref p e); [by eapply n_here|].
  apply wp_bind, wp_assert; [by rewrite bool_decide_true|].
  apply wp_bind, wp_syscall. eapply near_tick in Hn.
  apply wp_bind. eapply wp_Socket; [done|]. intros fd w1 Hn1 Hp1.
  wp_step; [apply wp_ret; by eapply near_kept|].
  apply wp_bind. eapply wp_all_options; [done|]. intros b w2 Hn2 Hp2.
  wp_step; [apply wp_modify; by apply Hdone|].
  apply wp_bind, wp_gets. wp_step; [apply wp_modify; by apply Hdone|].
  unfold new_event, timestampNow at 1. apply wp_bind, wp_bind, wp_syscall, wp_bind, wp_gets.
  apply wp_bind, wp_modify, wp_ret. set (w3 := set_tick (S (tick w2)) w2).
  assert (near p w0 w3 e) as Hn3 by (by apply near_tick).
  assert (wf w3) as Hwf3 by (eapply wf_unexempt; [by eapply n_wf|by eapply n_here|done]).
  pose proof (near_ok _ _ _ _ Hn3) as Hok.
  pose proof (near_new w3 (channel_ e) fd SERVER (tick w2) Hwf3 (ok_channel _ Hok)) as Hq.
  set (q := next_ptr w3) in *. set (e' := Event _ _ _ _) in *.
  assert (∀ x, is_Some (store w0 !! x) → x ≠ q) as Hqx.
  { intros x [ex Hx]. apply (wf_ptr _ _ Hw0) in Hx. cbn in Hp1. subst q. cbn. lia. }
  assert (p ≠ q) as Hpq.
  { pose proof (wf_ptr _ _ Hwf3 p e (n_here _ _ _ _ Hn3)). lia. }
  apply wp_bind, wp_syscall.
  apply (near_tick _ _ _ _ (S (tick (put_new e' w3)))) in Hq.
  apply wp_bind, (wp_deref q e'); [by eapply n_here|]. wp_step.
  - apply wp_bind. eapply wp_set_type; [done..|]. intros e1 w4 Hn4 Ht4 Hr4 _.
    unfold onTimeout. apply wp_bind, (wp_deref q e1); [by eapply n_here|].
    apply wp_bind, wp_assert; [by rewrite bool_decide_true|].
    eapply wp_mono; [eapply wp_closePeer_server; [done|by rewrite Hr4]|].
    intros _ w5 [Hh5 Hd5]. by eapply handled_other.
  - apply wp_bind. eapply wp_set_type; [done..|]. intros e1 w4 Hn4 Ht4 Hr4 _.
    eapply wp_mono; [eapply wp_dispatchEvent; [done|rewrite Ht4; by repeat constructor]|].
    intros _ w5 [Hh5 Hd5]. by eapply handled_other.
Qed.

(** An event the loop may run the handler for. *)
Definition can_handle (p : Z) (w : world) : Prop :=
  ∃ e, store w !! p = Some e ∧ type_ e ≠ WAKER ∧ action_ e = NO_ACTION ∧ p ∉ events_ w.

Lemma near_start p w : wf w → can_handle p w → ∃ e, near p w w e.
Proof. intros Hwf (e & ? & ? & ? & ?). exists e. split; try done. by apply wf_weaken. Qed.

Lemma wp_handle p w : wf w → can_handle p w → wp (handle p) (fun _ => handled p w) w.
Proof.
  intros Hwf Hc. destruct (near_start p w Hwf Hc) as [e Hn].
  unfold handle. apply wp_bind, (wp_deref p e); [by eapply n_here|].
  destruct (type_ e) eqn:Ht; try by eapply wp_closePeer.
  - by eapply wp_onListen.
  - by eapply wp_onTimeout.
  - by eapply wp_onRead.
  - by eapply wp_onRead.
  - by eapply wp_onWrite.
  - by eapply wp_onWrite.
  - apply wp_bind. unfold restartEvent, heap_erase, heap_push, timestampNow.
    apply wp_bind, wp_modify. apply near_erase in Hn.
    apply wp_bind, wp_syscall. eapply near_tick in Hn.
    apply wp_bind, (wp_assign p _ e); [by eapply n_here|].
    apply (near_assign _ _ _ _ (restart (clock (tick w)))) in Hn as Hn1; try done.
    + clear Hn. rename Hn1 into Hn. set (e1 := restart _ e) in *.
      apply wp_bind, (wp_deref p e1); [by eapply n_here|]. apply wp_modify.
      destruct (deadlines_pos p e1 (near_ok _ _ _ _ Hn)) as (_ & Hd & _).
      apply (near_push _ _ _ _ (rdeadline p e1)) in Hn; [|done|lia].
      by eapply wp_onRead.
    + cbn. congruence.
    + cbn. by eapply n_action.
    + intros ?. apply restart_ok; [done|apply clock_ok].
  - by eapply wp_onConnect.
Qed.

(** ** Deadlines *)

Lemma closePeer_heap p w e :
  store w !! p = Some e →
  wp (closePeer p) (fun _ w' => deadlineHeap_ w' = TimedHeap.erase p (deadlineHeap_ w)) w.
Proof.
  intros Hs. unfold closePeer, removeEvent, heap_erase, poll_remove, control.
  apply wp_bind, wp_bind, wp_modify, wp_bind, (wp_deref p e), wp_modify; [done|].
  apply wp_bind, (wp_deref p e); [done|]. wp_step.
  - unfold set_type, timestampNow. apply wp_bind, wp_bind, wp_syscall, (wp_assign p _ e); [done|].
    unfold actor_execute. eapply wp_bind, wp_deref; [cbn; apply lookup_insert_eq|].
    by apply wp_modify.
  - unfold delete_event, close_socket. apply wp_bind, (wp_deref p e); [done|].
    by apply wp_bind, wp_modify, wp_modify.
Qed.

(** One expiry: the event is out of the loop's hands and so is its deadline. *)
Lemma wp_expire p w :
  wf w → can_handle p w →
  wp (_ ← set_type p TIMEOUT; onTimeout p)
     (fun _ w' => handled p w w' ∧
        deadlineHeap_ w' = TimedHeap.erase p (deadlineHeap_ w)) w.
Proof.
  intros Hwf Hc. destruct (near_start p w Hwf Hc) as [e Hn].
  apply wp_conj; [by eapply wp_time_out|].
  unfold set_type, timestampNow. apply wp_bind, wp_bind, wp_syscall.
  apply (wp_assign p _ e); [cbn; by eapply n_here|]. unfold onTimeout.
  eapply wp_bind, wp_deref; [cbn; apply lookup_insert_eq|].
  apply wp_bind, wp_assert; [done|].
  eapply wp_mono; [eapply closePeer_heap; cbn; apply lookup_insert_eq|]. done.
Qed.

(** How often a deadline can still come up at the time [now]. *)
Definition weight (now : Z) (t : Timeout) : nat :=
  if deadline t <=? now then (2 + Z.to_nat ((now - deadline t) / LTIMEOUT))%nat else 1%nat.
Definition weights (now : Z) (m : gmap Z Timeout) : nat :=
  map_fold (fun _ t n => (n + weight now t)%nat) 0%nat m.

Lemma weights_insert now m k t :
  m !! k = None → weights now (<[k := t]> m) = (weights now m + weight now t)%nat.
Proof. intros Hk. unfold weights. rewrite map_fold_insert_L; [done|intros; lia|done]. Qed.

Lemma weights_delete now m k t :
  m !! k = Some t → weights now m = (weights now (delete k m) + weight now t)%nat.
Proof.
  intros Hk. rewrite <-(insert_delete_id m k t Hk) at 1.
  apply weights_insert, lookup_delete_eq.
Qed.

Lemma weight_same now t u : deadline t = deadline u → weight now t = weight now u.
Proof. unfold weight. by intros ->. Qed.

Lemma weight_later now k d r r' :
  d ≤ now → (weight now (mk_timeout k (d + LTIMEOUT) r) < weight now (mk_timeout k d r'))%nat.
Proof.
  intros Hd. unfold weight. cbn. rewrite (proj2 (Z.leb_le d now) Hd).
  destruct (Z.leb_spec (d + LTIMEOUT) now); [|lia].
  replace (now - (d + LTIMEOUT)) with (now - d + (-1) * LTIMEOUT) by lia.
  rewrite Z.div_add by done. unfold LTIMEOUT in *.
  assert (1 ≤ (now - d) / 600000000); [|lia]. apply Z.div_le_lower_bound; lia.
Qed.

Lemma weights_fuel now th : (weights now (map_ th) < timeout_fuel now th)%nat.
Proof.
  unfold weights, timeout_fuel. apply Nat.lt_succ_r. generalize (map_ th). intros m.
  induction m as [|k t m Hk IH] using map_ind; [done|].
  rewrite !map_fold_insert_L by (done || intros; lia).
  assert (weight now t ≤ 2 + Z.to_nat ((now - deadline t) / LTIMEOUT))%nat
    by (unfold weight; destruct (deadline t <=? now); lia). lia.
Qed.

(** From [w] to [w'] the deadlines that are not due have been left alone. *)
Definition undisturbed (now : Z) (w w' : world) : Prop :=
  ∀ q t, map_ (deadlineHeap_ w) !! q = Some t → now < deadline t →
    map_ (deadlineHeap_ w') !! q = Some t ∧ store w' !! q = store w !! q.

Lemma wf_set_heap w th :
  wf w → heap_wf th → (∀ q t, map_ th !! q = Some t → can_handle q w) →
  wf (set_deadlineHeap th w).
Proof. intros [] Hth Hlive. by split. Qed.

Lemma wp_checkTimeout_loop now fuel : ∀ w,
  wf w → 0 < now < 2 ^ 62 → (weights now (map_ (deadlineHeap_ w)) < fuel)%nat →
  wp (checkTimeout_loop fuel now)
     (fun _ w' => wf w' ∧ events_ w' = events_ w ∧ undisturbed now w w' ∧
        ∀ q t, map_ (deadlineHeap_ w') !! q = Some t → now < deadline t) w.
Proof.
  induction fuel as [|fuel IH]; intros w Hwf Hnow Hfuel; [lia|].
  cbn [checkTimeout_loop]. apply wp_bind, wp_gets.
  destruct (pop_spec now (deadlineHeap_ w) (wf_heap _ _ Hwf)) as (t & th & Hpop & Hth & Hcase).
  apply wp_bind, (wp_lift _ (t, th)); [done|]. apply wp_bind, wp_modify.
  destruct Hcase as [(Hd0 & Hmap & Hlate)|(u & Hu & Hdu & Hdue & Hmap & Hmin)].
  - rewrite Hd0. apply wp_ret. split_and!; [|done| |].
    + apply wf_set_heap; [done..|]. rewrite Hmap. intros q v Hq. by eapply (wf_live _ _ Hwf).
    + intros q v Hq _. cbn. by rewrite Hmap.
    + cbn. rewrite Hmap. by eapply Hlate.
  - destruct (live_here _ (wf_heap _ _ Hwf) _ _ Hu) as (_ & Hne & _).
    rewrite (proj2 (Z.eqb_neq _ _) Hne).
    assert (weights now (map_ (deadlineHeap_ w)) =
      (weights now (map_ th) + weight now t)%nat) as Hwt.
    { rewrite (weights_delete now _ _ _ Hu), Hmap, (weight_same now t u Hdu). done. }
    set (w1 := set_deadlineHeap th w).
    assert (can_handle (data t) w1) as Hcan by (by eapply (wf_live _ _ Hwf)).
    assert (wf w1) as Hwf1.
    { apply wf_set_heap; [done..|]. rewrite Hmap.
      intros q v [_ Hq]%lookup_delete_Some. by eapply (wf_live _ _ Hwf). }
    assert (∀ q v, map_ (deadlineHeap_ w) !! q = Some v → now < deadline v →
      q ≠ data t ∧ map_ th !! q = Some v) as Hother.
    { intros q v Hq Hlt. assert (q ≠ data t) as Hqt by (intros ->; simplify_eq; lia).
      rewrite Hmap. by rewrite lookup_delete_ne. }
    apply wp_bind, wp_gets. apply wp_bind. wp_step.
    + apply wp_modify. pose proof (live_here _ (wf_heap _ _ Hwf) _ _ Hu) as Hul.
      assert (0 < deadline t) as Hpos.
      { rewrite Hdu. apply (no_zero _ (wf_heap _ _ Hwf)). by apply Hul. }
      rewrite u64_small by (unfold LTIMEOUT; lia).
      set (t' := mk_timeout _ _ _).
      assert (TimedHeap.push t' th = mk_timed_heap (<[data t := t']> (map_ th))
        (pq_push t' (heap_ th))) as Hpush.
      { unfold TimedHeap.push. cbn [data t']. by rewrite (proj2 (Z.eqb_neq _ _) Hne). }
      assert (map_ th !! data t = None) as Hnone by (rewrite Hmap; apply lookup_delete_eq).
      set (w2 := set_deadlineHeap (TimedHeap.push t' (deadlineHeap_ w1)) w1).
      assert (wf w2) as Hwf2.
      { apply wf_set_heap; [done|apply push_wf; [done|cbn; unfold LTIMEOUT; lia]|].
        change (deadlineHeap_ w1) with th. rewrite Hpush. cbn. intros q v [[<- _]|[_ Hq]]%lookup_insert_Some; [done|].
        rewrite Hmap in Hq. apply lookup_delete_Some in Hq as [_ Hq]. by eapply (wf_live _ _ Hwf). }
      eapply wp_mono; [apply IH; [done|done|]|].
      * change (deadlineHeap_ w2) with (TimedHeap.push t' th). rewrite Hpush. cbn [map_].
        rewrite weights_insert by done.
        pose proof (weight_later now (data t) (deadline t) (repeat t) (repeat t) Hdue) as Hlt.
        destruct t; cbn in *. fold t' in Hlt. lia.
      * intros _ w3 (Hwf3 & He3 & Hun3 & Hlate3). split_and!; [done..| |done].
        intros q v Hq Hlt. destruct (Hother q v Hq Hlt) as [Hqt Hq1].
        apply (Hun3 q v); [|done]. change (deadlineHeap_ w2) with (TimedHeap.push t' th).
        rewrite Hpush. cbn [map_]. by rewrite lookup_insert_ne.
    + eapply wp_mono; [by apply wp_expire|]. intros _ w2 [Hh Heap].
      destruct Hh as [Hwf2 He2 Ho2 _]. cbn in Heap.
      eapply wp_mono; [apply IH; [done|done|]|].
      * rewrite Heap. unfold TimedHeap.erase.
        destruct (Z.eqb_spec (data t) 0); [done|]. cbn [map_].
        rewrite delete_id by (rewrite Hmap; apply lookup_delete_eq).
        assert (1 ≤ weight now t)%nat by (unfold weight; case_match; lia). lia.
      * intros _ w3 (Hwf3 & He3 & Hun3 & Hlate3).
        split_and!; [done|by rewrite He3, He2| |done].
        intros q v Hq Hlt. destruct (Hother q v Hq Hlt) as [Hqt Hq1].
        destruct (Hun3 q v) as [? Hs]; [|done|].
        { rewrite Heap. unfold TimedHeap.erase.
          destruct (Z.eqb_spec (data t) 0); [done|]. cbn [map_]. by rewrite lookup_delete_ne. }
        split; [done|]. rewrite Hs. apply Ho2; [done|].
        destruct (wf_live _ _ Hwf q v Hq) as (e & He & _). cbn. by exists e.
Qed.

Lemma wf_set_tick n w : wf w → wf (set_tick n w).
Proof. intros []. by split. Qed.

Lemma wp_checkTimeoutEvent w :
  wf w →
  wp checkTimeoutEvent
     (fun _ w' => wf w' ∧ events_ w' = events_ w ∧ undisturbed (clock (tick w)) w w' ∧
        ∀ q t, map_ (deadlineHeap_ w') !! q = Some t → clock (tick w) < deadline t) w.
Proof.
  intros Hwf. unfold checkTimeoutEvent, timestampNow. apply wp_bind, wp_syscall.
  apply wp_bind, wp_gets. apply (wf_set_tick (S (tick w))) in Hwf.
  apply (wp_checkTimeout_loop _ _ _ Hwf (clock_ok _)). apply weights_fuel.
Qed.

(** ** A turn of the loop *)

Lemma dispatchEvent_store p w e :
  store w !! p = Some e →
  wp (dispatchEvent p) (fun _ w' => store w' = store w ∧ events_ w' = events_ w) w.
Proof.
  intros Hs. unfold dispatchEvent. apply wp_bind, (wp_deref p e); [done|].
  destruct (type_ e) eqn:Ht; try (by apply wp_ret);
    unfold addListenEvent, addReadEvent, addWriteEvent;
    (apply wp_bind, (wp_deref p e); [done|]); rewrite Ht; (apply wp_bind, wp_assert; [done|]);
    try (by apply wp_modify); by apply wp_bind, wp_modify, wp_modify.
Qed.

Lemma wp_dispatch p w e :
  wf w → events_ w = [] → store w !! p = Some e → type_ e ≠ WAKER →
  wp (dispatchEvent p) (fun _ w' => wf w' ∧ store w' = store w ∧ events_ w' = events_ w) w.
Proof.
  intros Hwf He Hs Ht. apply wp_conj; [|by eapply dispatchEvent_store].
  destruct (decide (type_ e ∈ [LISTEN; CONNECT; NEXT; TOREAD; TOWRITE])) as [Hin|Hout].
  - assert (action_ e = NO_ACTION) as Ha.
    { destruct (action_ e) eqn:Hac; [done|]. rewrite (wf_fwd _ _ Hwf p e Hs Hac) in Hin.
      repeat (apply elem_of_cons in Hin as [Hin|Hin]; [done|]). by apply elem_of_nil in Hin. }
    destruct (near_start p w Hwf) as [e' Hn].
    { exists e. split_and!; [done..|]. rewrite He. apply not_elem_of_nil. }
    pose proof (n_here _ _ _ _ Hn). simplify_eq.
    eapply wp_mono; [by eapply wp_dispatchEvent|]. by intros _ w' [[? ? ? ?] _].
  - unfold dispatchEvent. apply wp_bind, (wp_deref p e); [done|].
    destruct (type_ e) eqn:Hty; try (by apply wp_ret); contradict Hout; by repeat constructor.
Qed.

Lemma wp_dispatch_all es : ∀ w,
  wf w → events_ w = [] → (∀ p, p ∈ es → ∃ e, store w !! p = Some e ∧ type_ e ≠ WAKER) →
  wp (for_each dispatchEvent es) (fun _ w' => wf w' ∧ events_ w' = []) w.
Proof.
  induction es as [|p es IH]; intros w Hwf He Hes; cbn; [by apply wp_ret|].
  destruct (Hes p) as (e & Hs & Ht); [set_solver|]. apply wp_bind.
  eapply wp_mono; [by eapply wp_dispatch|]. intros _ w1 (Hwf1 & Hst & He1).
  apply IH; [done|congruence|]. intros q Hq. rewrite Hst. apply Hes. set_solver.
Qed.

(** What epoll_wait(2) gives: entries of the interest set, each at most once. *)
Hypothesis wait_ok : ∀ n s, ∃ fds, NoDup fds ∧
  Forall2 (fun fd p => ∃ m, ep_find fd s = Some (m, p)) fds (sys_wait n s).

Lemma ready_ok n w :
  wf w → NoDup (sys_wait n (poll_ w)) ∧
    ∀ p, p ∈ sys_wait n (poll_ w) → ∃ e, store w !! p = Some e ∧ action_ e = NO_ACTION.
Proof.
  intros Hwf. destruct (wait_ok n (poll_ w)) as (fds & Hnd & Hall).
  assert (∀ p fd m, ep_find fd (poll_ w) = Some (m, p) →
    ∃ e, store w !! p = Some e ∧ fd_ e = fd ∧ action_ e = NO_ACTION) as Hent.
  { intros p fd m Hf. destruct (wf_poll _ _ Hwf _ _ _ Hf) as (e & He & Hfd & [[]|Hpo]).
    exists e. split_and!; [done..|]. destruct (action_ e) eqn:Ha; [done|].
    rewrite (wf_fwd _ _ Hwf _ _ He Ha) in Hpo. unfold pollable in Hpo.
    repeat (apply elem_of_cons in Hpo as [Hpo|Hpo]; [done|]). by apply elem_of_nil in Hpo. }
  split.
  - induction Hall as [|fd p fds ps [m Hf] Hall IH]; [constructor|].
    apply NoDup_cons in Hnd as [Hnin Hnd]. apply NoDup_cons. split; [|by apply IH].
    intros Hin. destruct (Hent _ _ _ Hf) as (e & He & Hfd & _).
    apply list_elem_of_lookup in Hin as [i Hi].
    destruct (Forall2_lookup_r _ _ _ _ _ Hall Hi) as (fd' & Hfd' & m' & Hf').
    destruct (Hent _ _ _ Hf') as (e' & He' & Hfd2 & _). simplify_eq.
    apply Hnin. by eapply list_elem_of_lookup_2.
  - intros p Hp. apply list_elem_of_lookup in Hp as [i Hi].
    destruct (Forall2_lookup_r _ _ _ _ _ Hall Hi) as (fd & _ & m & Hf).
    destruct (Hent _ _ _ Hf) as (e & ? & _ & ?). eauto.
Qed.

Lemma wp_handle_all ready : ∀ w,
  wf w → events_ w = [] → NoDup ready →
  (∀ p, p ∈ ready → ∃ e, store w !! p = Some e ∧ action_ e = NO_ACTION) →
  wp (for_each handle_ready ready) (fun _ w' => wf w' ∧ events_ w' = []) w.
Proof.
  induction ready as [|p ready IH]; intros w Hwf He Hnd Hr; cbn; [by apply wp_ret|].
  apply NoDup_cons in Hnd as [Hp Hnd]. destruct (Hr p) as (e & Hs & Ha); [set_solver|].
  pose proof (wf_ptr _ _ Hwf p e Hs) as Hp0. apply wp_bind. unfold handle_ready.
  rewrite (proj2 (Z.eqb_neq p 0)) by lia. apply wp_bind, (wp_deref p e); [done|].
  wp_step.
  - apply wp_modify. apply IH; [destruct Hwf; by split|done|done|].
    intros q Hq. apply Hr. set_solver.
  - eapply wp_mono; [apply (wp_handle p w Hwf)|].
    + exists e. apply bool_decide_eq_false in Heqb. split_and!; [done..|].
      rewrite He. apply not_elem_of_nil.
    + intros _ w1 [Hwf1 He1 Ho1 _]. apply IH; [done|congruence|done|].
      intros q Hq. destruct (Hr q) as (eq' & Hsq & Haq); [set_solver|].
      exists eq'. rewrite Ho1; [done|by intros ->|by eexists].
Qed.

Lemma wp_loop_turn once w :
  wf w → wp (loop_turn once) (fun _ w' => wf w' ∧ events_ w' = []) w.
Proof.
  intros Hwf. unfold loop_turn, take_events.
  apply wp_bind, wp_bind, wp_gets, wp_bind, wp_modify, wp_ret.
  assert (wf (set_events [] w)) as Hwf0.
  { destruct Hwf as [H0 H1 H2 H3 H4 H5 H6 H7]. split; cbn; try done.
    - intros p t Hp. destruct (H6 p t Hp) as (e & ? & ? & ? & _).
      exists e. split_and!; [done..|]. apply not_elem_of_nil.
    - intros p Hp. by apply elem_of_nil in Hp. }
  apply wp_bind. eapply wp_mono; [apply wp_dispatch_all; [done|done|by apply (wf_pend _ _ Hwf)]|].
  intros _ w1 [Hwf1 He1]. apply wp_bind. unfold run_callbacks.
  apply wp_bind, wp_gets, wp_bind, wp_modify, wp_modify.
  apply wp_bind. eapply wp_mono; [apply wp_checkTimeoutEvent; destruct Hwf1; by split|].
  intros _ w2 (Hwf2 & He2 & _). cbn in He2. wp_step; [apply wp_ret; split; [done|cbn; congruence]|].
  apply wp_bind, wp_gets, wp_bind, wp_syscall.
  destruct (ready_ok (tick w2) w2 Hwf2) as [Hnd Hr].
  apply wp_handle_all; [by apply wf_set_tick|cbn; congruence|done|done].
Qed.

(** C34. The handler of a connection that is ready never faults, whatever the
    system calls and the protocol answer: it terminates, keeps the invariant of
    the loop, touches no other connection, and leaves its own connection in the
    loop with a type that can be polled, or passes it to the actor once, or
    destroys it, the last two only after every reference the loop held to it
    is gone. *)
Theorem handle_correct p w :
  wf w → can_handle p w → ∃ w', handle p w = Ret (tt, w') ∧ handled p w w'.
Proof.
  intros Hwf Hc. destruct (wp_elim _ _ _ (wp_handle p w Hwf Hc)) as ([] & w' & ? & ?). eauto.
Qed.

(** Expiring deadlines terminates, also when long-polling connections are
    put off again and again; afterwards every deadline still registered lies in
    the future, and connections whose deadline had not come are as they were. *)
Theorem checkTimeoutEvent_correct w :
  wf w → ∃ w', checkTimeoutEvent w = Ret (tt, w') ∧ wf w' ∧
    undisturbed (clock (tick w)) w w' ∧
    ∀ q t, map_ (deadlineHeap_ w') !! q = Some t → clock (tick w) < deadline t.
Proof.
  intros Hwf. destruct (wp_elim _ _ _ (wp_checkTimeoutEvent w Hwf))
    as ([] & w' & ? & ? & _ & ? & ?). eauto.
Qed.

(** C35. The loop is safe for any number of turns: no turn dereferences a
    destroyed connection or fails an assertion, and the invariant holds when the
    loop is left. *)
Theorem loopBody_safe once turns w :
  wf w → ∃ w', loopBody once turns w = Ret (tt, w') ∧ wf w' ∧
    stop_ w' = false ∧ loopThread_ w' = false.
Proof.
  intros Hwf. assert (∀ n w, wf w → wp (loop_turns once n) (fun _ => wf) w) as Hturns.
  { induction n as [|n IH]; intros w0 Hwf0; cbn; [by apply wp_ret|].
    apply wp_bind, wp_gets. wp_step; [by apply wp_ret|].
    apply wp_bind. eapply wp_mono; [by apply wp_loop_turn|]. intros _ w' [Hwf' _].
    wp_step; [by apply wp_ret|by apply IH]. }
  assert (wp (loopBody once turns)
    (fun _ w' => wf w' ∧ stop_ w' = false ∧ loopThread_ w' = false) w) as Hbody.
  { unfold loopBody. apply wp_bind, wp_modify, wp_bind.
    eapply wp_mono; [apply Hturns; destruct Hwf; by split|]. intros [] w' Hwf'.
    apply wp_bind, wp_modify, wp_modify. split; [|done]. destruct Hwf'. by split. }
  destruct (wp_elim _ _ _ Hbody) as ([] & w' & Hret & Hok). by exists w'.
Qed.

(** A new loop satisfies the invariant. *)
Lemma EventLoop_wf fd s : (∀ fd', ep_find fd' s = None) → wf (EventLoop fd s).
Proof.
  intros Hs. split; cbn; try done.
  - intros p e [<- <-]%lookup_singleton_Some. lia.
  - intros p e [<- <-]%lookup_singleton_Some. done.
  - intros p e [<- <-]%lookup_singleton_Some. done.
  - intros fd' m p. pose proof (ep_add fd EPOLLIN 1 s) as Ha.
    destruct (ep_ctl _ _ _ _ _) as [r s']; cbn.
    destruct Ha as [[_ ->]|(_ & _ & ->)]; [by rewrite Hs|].
    case_decide; [|by rewrite Hs]. intros [= <- <-]. eexists.
    rewrite lookup_singleton_eq. subst. split_and!; [done..|right]. by repeat constructor.
  - apply empty_wf.
  - by intros p Hp%elem_of_nil.
Qed.

(** When a client connection marked for forwarding has read its response in
    time, the handler destroys it and then passes it to the actor: the object is
    used after it is gone. *)
Theorem onComplete_forward_faults p e w :
  store w !! p = Some e → type_ e = READED → role_ e = CLIENT → action_ e = FORWARD →
  isReadTimeout (clock (tick w)) e = false → onComplete p w = Err Undefined.
Proof.
  intros Hs Ht Hr Ha Hrt.
  assert (∀ w', store w' !! p = Some e → deref p w' = Ret (e, w')) as Hd.
  { intros w' Hw'. unfold deref, mbind, St_bind, get, lift. by rewrite Hw'. }
  assert (∀ w', store w' = delete p (store w) → deref p w' = Err Undefined) as Hu.
  { intros w' Hw'. unfold deref, mbind, St_bind, get, lift. rewrite Hw'.
    by rewrite lookup_delete_eq. }
  unfold onComplete, removeEvent, delete_event, actor_execute, timestampNow, syscall,
    heap_erase, poll_remove, control, close_socket, isForward.
  unfold mbind, St_bind, gets, modify, mret, St_ret. rewrite Hd by done. cbn.
  rewrite Hrt, Ht, Hr, Ha.
  rewrite bool_decide_true, (bool_decide_false (READED = WRITED)), !bool_decide_true by done.
  cbn. rewrite Hd by done. cbn. rewrite Hd by done. cbn. by rewrite Hu.
Qed.

(** A connection of the type Actor::forwardEvent gives it is not registered with
    the loop: it is neither polled nor given a deadline. *)
Theorem dispatchEvent_writed_ignored p e w :
  store w !! p = Some e → type_ e = WRITED → dispatchEvent p w = Ret (tt, w).
Proof.
  intros Hs Ht. unfold dispatchEvent, deref, mbind, St_bind, get, lift. rewrite Hs. cbn.
  by rewrite Ht.
Qed.
End loop.
Arguments world : clear implicits.

(** ** A loop with one connection *)

Definition demo_option : TimeoutOption := mk_timeoutOption 1000 1000 1000.
Definition demo_channel : channel := mk_channel 80 demo_option true.
Definition demo_event : event := setType 200 NEXT (Event 100 demo_channel 7 SERVER).

Definition demo_world : world SortedQueue.queue (gmap Z (Z * Z)) :=
  mk_world {[ 1 := WakerEvent 3; 2 := demo_event ]} 3
    {[ 3 := (EPOLLIN, 1); 7 := (EPOLLIN, 2) ]}
    (TimedHeap.push (edeadline 2 demo_event) empty_heap) [] [] false false [] [] [] 1 0 0.

Definition demo_clock (n : nat) : Z := 300.
(** Everything is read at once, nothing can be written yet. *)
Definition demo_read (n : nat) (e : event) : Z * event * nat :=
  (0, with_buffers [1; 2; 3] (wbuf_ e) 0 (wlen_ e) e, 1%nat).
Definition demo_write (n : nat) (e : event) : Z * event * nat := (1, e, 1%nat).
(** The connection is ready when the loop polls first, nothing is later. *)
Definition demo_wait (n : nat) (s : gmap Z (Z * Z)) : list Z :=
  if Nat.eqb n 1 then default [] ((fun x => [x.2]) <$> s !! 7) else [].

Lemma demo_wf : wf demo_world.
Proof.
  assert (heap_wf (deadlineHeap_ demo_world)) as Hheap.
  { apply (push_wf (edeadline 2 demo_event) empty_heap); [apply empty_wf|by vm_compute]. }
  split; [| | | | |exact Hheap| |]; clear Hheap; cbn; try done.
  - intros p e [[<- <-]|[? [<- <-]%lookup_singleton_Some]]%lookup_insert_Some; lia.
  - intros p e [[<- <-]|[? [<- <-]%lookup_singleton_Some]]%lookup_insert_Some; [done|].
    intros _. apply setType_ok, Event_ok; [|lia]. by vm_compute.
  - intros p e [[<- <-]|[? [<- <-]%lookup_singleton_Some]]%lookup_insert_Some; done.
  - intros fd m p [[<- [= <- <-]]|[? [<- [= <- <-]]%lookup_singleton_Some]]%lookup_insert_Some;
      (eexists; split; [reflexivity|split; [done|right; by repeat constructor]]).
  - intros p t [[<- <-]|[? Hp]]%lookup_insert_Some; [|by rewrite lookup_empty in Hp].
    eexists. split_and!; [reflexivity|done|done|apply not_elem_of_nil].
  - by intros p Hp%elem_of_nil.
Qed.

Lemma demo_clock_ok : ∀ n, 0 < demo_clock n < 2 ^ 62.
Proof. intros n. unfold demo_clock. lia. Qed.
Lemma demo_read_ok : io_ok demo_read.
Proof.
  intros n e r e' k [= <- <- <-]. split_and!; try done; [by left|]. intros []. by split.
Qed.
Lemma demo_write_ok : io_ok demo_write.
Proof. intros n e r e' k [= <- <- <-]. split_and!; try done. by left. Qed.
Lemma demo_wait_ok n s :
  ∃ fds, NoDup fds ∧ Forall2 (fun fd p => ∃ m, ep_find fd s = Some (m, p)) fds (demo_wait n s).
Proof.
  unfold demo_wait. destruct (Nat.eqb n 1); [|exists []; by repeat constructor].
  destruct (s !! 7) as [[m p]|] eqn:E; cbn.
  - exists [7]. split; [apply NoDup_singleton|]. repeat constructor. by exists m.
  - exists []. by repeat constructor.
Qed.
Lemma demo_can_handle : can_handle 2 demo_world.
Proof. exists demo_event. split_and!; [done..|apply not_elem_of_nil]. Qed.

Definition demo_handle := handle demo_clock (fun _ => 8) (fun _ => 9) (fun _ => true)
  (fun _ => Some 0) 100 demo_read demo_write.
Definition demo_loop := loopBody demo_clock (fun _ => 8) (fun _ => 9) (fun _ => true)
  (fun _ => Some 0) demo_wait 100 demo_read demo_write.

(** The connection is read and passed to the actor. *)
Example demo_handle_run :
  ((fun r => handed r.2) <$> demo_handle 2 demo_world) = Ret [2].
Proof. vm_compute. reflexivity. Qed.
Example demo_loop_run :
  ((fun r => handed r.2) <$> demo_loop false 3 demo_world) = Ret [2].
Proof. vm_compute. reflexivity. Qed.

Lemma handle_correct_witness :
  ∃ w', demo_handle 2 demo_world = Ret (tt, w') ∧ handled 2 demo_world w'.
Proof.
  apply handle_correct;
    [apply demo_clock_ok|apply demo_read_ok|apply demo_write_ok|apply demo_wf|apply demo_can_handle].
Defined.

Lemma checkTimeoutEvent_correct_witness :
  ∃ w', checkTimeoutEvent demo_clock demo_world = Ret (tt, w') ∧ wf w' ∧
    undisturbed 300 demo_world w' ∧
    ∀ q t, map_ (deadlineHeap_ w') !! q = Some t → 300 < deadline t.
Proof. apply (checkTimeoutEvent_correct demo_clock demo_clock_ok demo_world demo_wf). Defined.

Lemma loopBody_safe_witness :
  ∃ w', demo_loop false 3 demo_world = Ret (tt, w') ∧ wf w' ∧
    stop_ w' = false ∧ loopThread_ w' = false.
Proof.
  apply loopBody_safe;
    [apply demo_clock_ok|apply demo_read_ok|apply demo_write_ok|apply demo_wait_ok|apply demo_wf].
Defined.

(** A forwarded client connection whose response is complete. *)
Definition forwarded_event : event :=
  setType 200 READED (setForward (Event 100 demo_channel 7 CLIENT)).
Definition forwarded_world : world SortedQueue.queue (gmap Z (Z * Z)) :=
  set_store {[ 1 := WakerEvent 3; 2 := forwarded_event ]} demo_world.

Lemma onComplete_forward_faults_witness :
  onComplete demo_clock 2 forwarded_world = Err Undefined.
Proof. apply (onComplete_forward_faults demo_clock 2 forwarded_event); reflexivity. Defined.
