(* ===== verification/Fiber.v ===== *)
(** coroutine/Fiber.h, FiberManager.h, GenericExecutor.h, Executor.h: fibers, the
    user-level threads that handle a request. A fiber's code is the list of the things it
    does; a context switch (ucontext or boost.context) keeps what is left of it. The rest of
    the process is a parameter: what a thing done by a fiber does to it, and what a
    callback does to it. *)
From S2P Require Import Prelude.

Module Fiber.

Inductive status := INIT | RUNABLE | RUNNING | BLOCK | EXIT.
#[global] Instance status_eq_dec : EqDecision status.
Proof. solve_decision. Defined.

Record timestamp := mk_timestamp { stage : status; stamp : Z }.

(** char statusLabel() const. *)
Definition statusLabel (s : status) : string :=
  match s with INIT => "I" | RUNABLE => "A" | RUNNING => "R" | BLOCK => "B" | EXIT => "Q" end.

Section fiber.
(** [U]: the rest of the process; [B]: things a fiber does, given its executor: they may add
    callbacks to the executor, and may end in a call of FiberManager::yield(); [C]: the
    closures an executor keeps. *)
Context {U B C : Type}.
Context (sys : B → nat → U → outcome (U * list C * bool)) (call : C → U → outcome U).

(** class Executor: its lists of closures, and its fiber. *)
Record Executor := mk_executor {
  callbacks_ : list C;
  schedules_ : list C;
  fiber : option Z
}.

(** class Fiber, with what its context will run when it is resumed. *)
Record Fiber := mk_fiber {
  status_ : status;
  context_ : list B;
  executor_ : nat;
  qstart_ : Z;
  timestamps_ : list timestamp
}.

(** Live objects by address, the thread's current fiber, the counter of fibers, the clock. *)
Record world := mk_world {
  fibers : gmap Z Fiber;
  executors : gmap nat Executor;
  fiber_ : option Z;
  count_ : Z;
  now : Z;
  user : U
}.

Definition set_fibers x w := mk_world x (executors w) (fiber_ w) (count_ w) (now w) (user w).
Definition set_executors x w := mk_world (fibers w) x (fiber_ w) (count_ w) (now w) (user w).
Definition set_fiber_ x w := mk_world (fibers w) (executors w) x (count_ w) (now w) (user w).
Definition set_count x w := mk_world (fibers w) (executors w) (fiber_ w) x (now w) (user w).
Definition set_user x w := mk_world (fibers w) (executors w) (fiber_ w) (count_ w) (now w) x.

Definition M := St world.
Definition deref (p : Z) : M Fiber := fun w => f ← of_option Undefined (fibers w !! p); Ret (f, w).
Definition store (p : Z) (f : Fiber) : M unit := modify (fun w => set_fibers (<[p := f]> (fibers w)) w).
Definition deref_executor (x : nat) : M Executor := fun w => e ← of_option Undefined (executors w !! x); Ret (e, w).

(** ** class Executor *)

Definition addCallbacks (x : nat) (cs : list C) : M unit :=
  e ← deref_executor x;
  modify (fun w => set_executors (<[x := mk_executor (callbacks_ e ++ cs) (schedules_ e) (fiber e)]> (executors w)) w).
Definition addSchedule (x : nat) (c : C) : M unit :=
  e ← deref_executor x;
  modify (fun w => set_executors (<[x := mk_executor (callbacks_ e) (schedules_ e ++ [c]) (fiber e)]> (executors w)) w).

(** The loops of callback() and schedule(). *)
Fixpoint call_all (cs : list C) : M unit :=
  match cs with
  | [] => mret tt
  | c :: r => fun w : world => u ← call c (user w); call_all r (set_user u w)
  end.
Definition callback (x : nat) : M unit := e ← deref_executor x; call_all (callbacks_ e).
Definition schedule (x : nat) : M unit := e ← deref_executor x; call_all (schedules_ e).

(** ** class Fiber *)

Definition starttime (f : Fiber) : Z := match timestamps_ f with [] => 0 | t :: _ => stamp t end.
Definition record (t : timestamp) (f : Fiber) : Fiber :=
  let t := match timestamps_ f with [] => t | _ => mk_timestamp (stage t) (u64 (stamp t - starttime f)) end in
  mk_fiber (status_ f) (context_ f) (executor_ f) (qstart_ f) (timestamps_ f ++ [t]).
Definition cost (now : Z) (f : Fiber) : Z := match timestamps_ f with [] => 0 | _ => u64 (now - starttime f) end.
Definition setStatus (now : Z) (s : status) (f : Fiber) : Fiber :=
  record (mk_timestamp s now) (mk_fiber s (context_ f) (executor_ f) (qstart_ f) (timestamps_ f)).

(** bool isTimeout(): qtimeout_ is 300000. *)
Definition qtimeout_ : Z := 300000.
Definition isTimeout (now : Z) (f : Fiber) : bool := (0 <? qtimeout_) && (qtimeout_ <? u64 (now - qstart_ f)).

(** Fiber(stackSize, executor) at the address [p]; [code] is what executor->run() does. *)
Definition new_Fiber (p : Z) (x : nat) (code : list B) : M unit :=
  e ← deref_executor x;
  modify (fun w => set_count (count_ w + 1)
    (set_executors (<[x := mk_executor (callbacks_ e) (schedules_ e) (Some p)]> (executors w))
      (set_fibers (<[p := mk_fiber INIT code x (now w) [mk_timestamp INIT (now w)]]> (fibers w)) w))).

(** delete fiber: the executor goes with its last owner. *)
Definition delete_Fiber (p : Z) : M unit :=
  f ← deref p;
  modify (fun w => set_count (count_ w - 1) (set_executors (delete (executor_ f) (executors w)) (set_fibers (delete p (fibers w)) w))).

(** void yield(int status), up to the switch. *)
Definition yield (p : Z) (s : status) : M unit :=
  f ← deref p;
  _ ← assert_ (bool_decide (status_ f = RUNNING));
  w ← get;
  store p (setStatus (now w) s f).

(** ** class FiberManager *)

Definition update (p : Z) : M unit := modify (set_fiber_ (Some p)).
(** bool yield() and bool exit(): whether the thread runs a fiber. *)
Definition yield_current (s : status) : M bool :=
  o ← gets fiber_;
  match o with
  | Some p => _ ← yield p s; mret true
  | None => mret false
  end.
Definition manager_yield : M bool := yield_current BLOCK.
Definition manager_exit : M bool := yield_current EXIT.
Definition getCurrentExecutor : M (option nat) :=
  o ← gets fiber_;
  match o with Some p => f ← deref p; mret (Some (executor_ f)) | None => mret None end.

(** What the fiber does from the switch to it to the switch away: its handle() until a
    yield, and at the end of it GenericExecutor::run calls exit(). *)
Fixpoint activate (p : Z) (x : nat) (code : list B) : M unit :=
  match code with
  | [] => _ ← manager_exit; mret tt
  | b :: r => fun w : world =>
      '(u, cs, y) ← sys b x (user w);
      (_ ← addCallbacks x cs;
       if (y : bool) then
         _ ← manager_yield;
         f ← deref p;
         store p (mk_fiber (status_ f) r (executor_ f) (qstart_ f) (timestamps_ f))
       else activate p x r) (set_user u w)
  end.

(** void execute() *)
Definition execute (p : Z) : M unit :=
  f ← deref p;
  _ ← assert_ (bool_decide (status_ f = RUNABLE));
  w ← get;
  _ ← store p (setStatus (now w) RUNNING f);
  activate p (executor_ f) (context_ f).

(** static void run(Fiber* fiber) *)
Definition run (p : Z) : M unit :=
  _ ← update p;
  f ← deref p;
  w ← get;
  _ ← store p (setStatus (now w) RUNABLE f);
  _ ← execute p;
  f ← deref p;
  match status_ f with
  | BLOCK => callback (executor_ f)
  | INIT | RUNABLE | RUNNING | EXIT => _ ← schedule (executor_ f); delete_Fiber p
  end.

(** ** What a run of a fiber comes to *)

(** The code up to the next yield, over the rest of the process alone: the callbacks it
    added, and what is left of the code if it yielded. *)
Fixpoint segment (x : nat) (code : list B) (u : U) : outcome (U * list C * option (list B)) :=
  match code with
  | [] => Ret (u, [], None)
  | b :: r =>
      '(u, cs, y) ← sys b x u;
      if (y : bool) then Ret (u, cs, Some r)
      else '(u, cs', o) ← segment x r u; Ret (u, cs ++ cs', o)
  end.
Fixpoint calls (cs : list C) (u : U) : outcome U :=
  match cs with [] => Ret u | c :: r => u ← call c u; calls r u end.

(** The fiber after the switch away from it: blocked, or at its end. *)
Definition switched (now : Z) (o : option (list B)) (f : Fiber) : Fiber :=
  match o with
  | Some r => let f' := setStatus now BLOCK f in mk_fiber (status_ f') r (executor_ f') (qstart_ f') (timestamps_ f')
  | None => setStatus now EXIT f
  end.
Definition more_callbacks (cs : list C) (e : Executor) : Executor :=
  mk_executor (callbacks_ e ++ cs) (schedules_ e) (fiber e).

(** The worlds in which run() can leave a fiber: blocked with the rest of its code, or gone. *)
Definition blocked (p : Z) (f : Fiber) (e : Executor) (cs : list C) (r : list B) (u : U) (w : world) : world :=
  mk_world (<[p := switched (now w) (Some r) (setStatus (now w) RUNNING (setStatus (now w) RUNABLE f))]> (fibers w))
    (<[executor_ f := more_callbacks cs e]> (executors w)) (Some p) (count_ w) (now w) u.
Definition gone (p : Z) (f : Fiber) (u : U) (w : world) : world :=
  mk_world (delete p (fibers w)) (delete (executor_ f) (executors w)) (Some p) (count_ w - 1) (now w) u.

Lemma call_all_eq cs w : call_all cs w = match calls cs (user w) with Ret u => Ret (tt, set_user u w) | Err e => Err e end.
Proof.
  revert w. induction cs as [|c cs IH]; intros w; cbn; [by destruct w|].
  destruct (call c (user w)) as [u|]; [|done]. cbn. rewrite IH. cbn. by destruct (calls cs u).
Qed.

Lemma bind_ret {A D} (m : M A) (k : A → M D) w a w' : m w = Ret (a, w') → (m ≫= k) w = k a w'.
Proof. intros H. unfold mbind, St_bind. by rewrite H. Qed.

Lemma deref_eq p w f : fibers w !! p = Some f → deref p w = Ret (f, w).
Proof. intros H. unfold deref. by rewrite H. Qed.
Lemma deref_executor_eq x w e : executors w !! x = Some e → deref_executor x w = Ret (e, w).
Proof. intros H. unfold deref_executor. by rewrite H. Qed.
Lemma addCallbacks_eq x cs w e : executors w !! x = Some e →
  addCallbacks x cs w = Ret (tt, set_executors (<[x := more_callbacks cs e]> (executors w)) w).
Proof. intros H. unfold addCallbacks. by rewrite (bind_ret _ _ _ _ _ (deref_executor_eq _ _ _ H)). Qed.
Lemma yield_current_eq st p w f : fiber_ w = Some p → fibers w !! p = Some f → status_ f = RUNNING →
  yield_current st w = Ret (true, set_fibers (<[p := setStatus (now w) st f]> (fibers w)) w).
Proof.
  intros Hp Hf Hs. unfold yield_current. rewrite (bind_ret _ _ w (Some p) w) by (unfold gets; by rewrite Hp).
  assert (yield p st w = Ret (tt, set_fibers (<[p := setStatus (now w) st f]> (fibers w)) w)) as Hy.
  { unfold yield. rewrite (bind_ret _ _ _ _ _ (deref_eq _ _ _ Hf)).
    rewrite (bind_ret _ _ w tt w); [done|]. by rewrite bool_decide_eq_true_2. }
  by rewrite (bind_ret _ _ _ _ _ Hy).
Qed.

Lemma activate_eq p x code w f e : fibers w !! p = Some f → status_ f = RUNNING → executors w !! x = Some e → fiber_ w = Some p →
  activate p x code w =
  match segment x code (user w) with
  | Err er => Err er
  | Ret (u, cs, o) =>
      Ret (tt, mk_world (<[p := switched (now w) o f]> (fibers w)) (<[x := more_callbacks cs e]> (executors w)) (Some p) (count_ w) (now w) u)
  end.
Proof.
  revert w e. induction code as [|b code IH]; intros w e Hf Hs He Hp.
  - cbn [activate segment]. rewrite (bind_ret _ _ _ _ _ (yield_current_eq EXIT _ _ _ Hp Hf Hs)).
    unfold more_callbacks. rewrite app_nil_r. replace (mk_executor (callbacks_ e) (schedules_ e) (fiber e)) with e by by destruct e.
    rewrite (insert_id (executors w) x e He). destruct w; cbn in *. by subst.
  - cbn [activate segment]. destruct (sys b x (user w)) as [[[u cs] y]|er]; [|done].
    change (mbind ?k (Ret ?a)) with (k a). cbn beta iota.
    rewrite (bind_ret _ _ _ _ _ (addCallbacks_eq x cs (set_user u w) e He)). destruct y.
    + rewrite (bind_ret _ _ _ _ _ (yield_current_eq BLOCK p (set_executors _ (set_user u w)) f Hp Hf Hs)).
      rewrite (bind_ret _ _ _ _ _ (deref_eq p _ _ (lookup_insert_eq _ _ _))). unfold store, modify. cbn.
      unfold set_fibers. cbn. by rewrite insert_insert_eq, Hp.
    + rewrite (IH _ (more_callbacks cs e)); cbn; [|done|done|by rewrite lookup_insert_eq|done].
      destruct (segment x code u) as [[[u' cs'] o]|er]; [|done]. cbn. unfold more_callbacks. cbn.
      by rewrite insert_insert_eq, app_assoc.
Qed.

Lemma run_eq p w f e : fibers w !! p = Some f → executors w !! executor_ f = Some e →
  run p w =
  match segment (executor_ f) (context_ f) (user w) with
  | Err er => Err er
  | Ret (u, cs, Some r) =>
      match calls (callbacks_ e ++ cs) u with Ret u' => Ret (tt, blocked p f e cs r u' w) | Err er => Err er end
  | Ret (u, cs, None) =>
      match calls (schedules_ e) u with Ret u' => Ret (tt, gone p f u' w) | Err er => Err er end
  end.
Proof.
  intros Hf He. unfold run. rewrite (bind_ret _ _ w tt (set_fiber_ (Some p) w)) by done.
  rewrite (bind_ret _ _ _ _ _ (deref_eq p (set_fiber_ (Some p) w) f Hf)). rewrite (bind_ret _ _ _ _ _ eq_refl).
  rewrite (bind_ret _ _ _ _ _ eq_refl).
  set (f1 := setStatus _ RUNABLE f). set (w1 := set_fibers _ _).
  assert (execute p w1 = match segment (executor_ f) (context_ f) (user w) with Err er => Err er | Ret (u, cs, o) =>
    Ret (tt, mk_world (<[p := switched (now w) o (setStatus (now w) RUNNING f1)]> (fibers w)) (<[executor_ f := more_callbacks cs e]> (executors w)) (Some p) (count_ w) (now w) u) end) as Hx.
  { unfold execute. rewrite (bind_ret _ _ _ _ _ (deref_eq p w1 f1 (lookup_insert_eq _ _ _))).
    rewrite (bind_ret _ _ w1 tt w1) by done. rewrite (bind_ret _ _ _ _ _ eq_refl). rewrite (bind_ret _ _ _ _ _ eq_refl).
    erewrite (activate_eq p _ _ _ (setStatus (now w) RUNNING f1) e); [|apply lookup_insert_eq|done|exact He|done]. cbn.
    destruct (segment _ _ _) as [[[u cs] o]|er]; [|done]. by rewrite !insert_insert_eq. }
  destruct (segment _ _ _) as [[[u cs] o]|er]; [|unfold mbind at 1, St_bind; by rewrite Hx].
  rewrite (bind_ret _ _ _ _ _ Hx). rewrite (bind_ret _ _ _ _ _ (deref_eq p _ _ (lookup_insert_eq _ _ _))).
  destruct o as [r|].
  - match goal with |- match ?st with _ => _ end _ = _ => change st with BLOCK end. cbv iota. change (executor_ (switched _ _ _)) with (executor_ f).
    unfold callback. rewrite (bind_ret _ _ _ _ _ (deref_executor_eq _ _ _ (lookup_insert_eq _ _ _))). rewrite call_all_eq. cbn. by destruct (calls _ u).
  - match goal with |- match ?st with _ => _ end _ = _ => change st with EXIT end. cbv iota. change (executor_ (switched _ _ _)) with (executor_ f).
    match goal with |- (schedule ?x ≫= _) ?W = _ => set (w2 := W);
      assert (schedule x w2 = match calls (schedules_ e) u with Ret u' => Ret (tt, set_user u' w2) | Err er => Err er end) as Hs end.
    { unfold schedule. rewrite (bind_ret _ _ _ _ _ (deref_executor_eq _ _ _ (lookup_insert_eq _ _ _))). by rewrite call_all_eq. }
    destruct (calls _ u) as [u'|er]; [|unfold mbind, St_bind; by rewrite Hs]. rewrite (bind_ret _ _ _ _ _ Hs).
    unfold delete_Fiber. rewrite (bind_ret _ _ _ _ _ (deref_eq _ _ _ (lookup_insert_eq _ _ _))).
    unfold modify, gone, set_count, set_executors, set_fibers. cbn. by rewrite !delete_insert_eq.
Qed.

(** What resuming a fiber does, on every path: FiberManager::run on a live fiber runs its code to the
    next yield or to its end and fails only where that code or a closure fails (its own
    assertions hold). A fiber that yields is left blocked with exactly the rest of its code, after its
    callbacks - all those ever added - were called in order; one that ends is deleted once, with its
    executor, after the schedule closures were called, and the count of fibers goes down by one. *)
Theorem fiber_run_eq p w f e : fibers w !! p = Some f → executors w !! executor_ f = Some e →
  run p w =
  match segment (executor_ f) (context_ f) (user w) with
  | Err er => Err er
  | Ret (u, cs, Some r) =>
      match calls (callbacks_ e ++ cs) u with Ret u' => Ret (tt, blocked p f e cs r u' w) | Err er => Err er end
  | Ret (u, cs, None) =>
      match calls (schedules_ e) u with Ret u' => Ret (tt, gone p f u' w) | Err er => Err er end
  end.
Proof. apply run_eq. Qed.
End fiber.
End Fiber.
