(* ===== verification/Actor.v ===== *)
(** net/Actor.h, Actor.cpp, AsyncClient.h, AsyncClient.cpp, AsyncClientExecutor.h and
    io/event/EventPool.h, EventPool.cpp, EventExecutor.h: how fibers, connections and
    groups work together. A fiber connects clients, hands their events to the I/O loop when
    it yields, and is put back in a CPU pool when the answers are there. *)
From S2P Require Import Prelude Group Event Fiber.

Module Actor.
Import Event.

(** struct Peer. *)
Record Peer := mk_peer { host : string; port : Z }.
#[global] Instance Peer_eq_dec : EqDecision Peer.
Proof. solve_decision. Defined.
#[global] Instance Peer_countable : Countable Peer.
Proof. apply (inj_countable' (fun p => (host p, port p)) (fun x => mk_peer x.1 x.2)). by intros []. Defined.

(** The members of AsyncClient. *)
Record AsyncClient := mk_client {
  peer_ : Peer;
  keepalive_ : bool;
  callbackMode_ : bool;
  client_event : option nat;      (* event_ *)
  client_channel : channel
}.

Record ForwardTarget := mk_forward { fport : Z; fpeer : Peer; flow : Z }.

(** What fibers do with clients; [up] and [ok] are what the network answers: whether an idle
    connection is still connected, whether a new one can be made. *)
Inductive act :=
| Do (n : nat)
| Connect (c : nat) (up ok : bool) (fd : Z)
| Close (c : nat)
| Yield
| YieldAll (cs : list nat)
| SetType (p : nat) (t : etype).

(** std::bind(&Actor::addEvent, actor, event) *)
Inductive closure := AddEvent (p : nat).

Record actor := mk_actor {
  events : gmap nat (event * Peer);                       (* live events, with their socket's peer *)
  next : nat;                                             (* the next address *)
  clients : gmap nat AsyncClient;
  eventPools : gmap Z (gmap Peer (list nat));             (* EventPoolManager, EventPool *)
  group_ : Group.group;
  loop : list nat;                                        (* events given to the I/O loop *)
  cpuPools : list Z;                                      (* keys of cpuPoolMap_ *)
  posted : list (Z * Z);                                  (* pool->add(bind(run, fiber)) *)
  forwarding : bool;
  forwards_ : list ForwardTarget;
  tick : nat;
  done : list nat                                         (* what fibers did, in order *)
}.

Definition set_events x u := mk_actor x (next u) (clients u) (eventPools u) (group_ u) (loop u) (cpuPools u) (posted u) (forwarding u) (forwards_ u) (tick u) (done u).
Definition set_next x u := mk_actor (events u) x (clients u) (eventPools u) (group_ u) (loop u) (cpuPools u) (posted u) (forwarding u) (forwards_ u) (tick u) (done u).
Definition set_clients x u := mk_actor (events u) (next u) x (eventPools u) (group_ u) (loop u) (cpuPools u) (posted u) (forwarding u) (forwards_ u) (tick u) (done u).
Definition set_pools x u := mk_actor (events u) (next u) (clients u) x (group_ u) (loop u) (cpuPools u) (posted u) (forwarding u) (forwards_ u) (tick u) (done u).
Definition set_group x u := mk_actor (events u) (next u) (clients u) (eventPools u) x (loop u) (cpuPools u) (posted u) (forwarding u) (forwards_ u) (tick u) (done u).
Definition set_loop x u := mk_actor (events u) (next u) (clients u) (eventPools u) (group_ u) x (cpuPools u) (posted u) (forwarding u) (forwards_ u) (tick u) (done u).
Definition set_posted x u := mk_actor (events u) (next u) (clients u) (eventPools u) (group_ u) (loop u) (cpuPools u) x (forwarding u) (forwards_ u) (tick u) (done u).
Definition set_tick x u := mk_actor (events u) (next u) (clients u) (eventPools u) (group_ u) (loop u) (cpuPools u) (posted u) (forwarding u) (forwards_ u) x (done u).
Definition set_done x u := mk_actor (events u) (next u) (clients u) (eventPools u) (group_ u) (loop u) (cpuPools u) (posted u) (forwarding u) (forwards_ u) (tick u) x.

Section actor.
(** The clock, rand(3), and the socket for a forwarded event, if one can be connected. *)
Context (clock : nat → Z) (rand : nat → Z) (forward_fd : nat → option Z).

Definition M := St actor.
Definition tick_ : M nat := fun u => Ret (tick u, set_tick (S (tick u)) u).
Definition deref (p : nat) : M event := fun u => '(e, _) ← of_option Undefined (events u !! p); Ret (e, u).
Definition assign (p : nat) (f : event → event) : M unit := fun u =>
  '(e, peer) ← of_option Undefined (events u !! p); Ret (tt, set_events (<[p := (f e, peer)]> (events u)) u).
Definition set_type (p : nat) (t : etype) : M unit :=
  n ← tick_; assign p (setType (clock n) t).
Definition deref_client (c : nat) : M AsyncClient := fun u => x ← of_option Undefined (clients u !! c); Ret (x, u).
Definition set_event (c : nat) (o : option nat) : M unit :=
  x ← deref_client c;
  modify (fun u => set_clients (<[c := mk_client (peer_ x) (keepalive_ x) (callbackMode_ x) o (client_channel x)]> (clients u)) u).

(** ** EventPool *)

(** EventPool* getPool(int id): made when it is first asked for. *)
Definition getPool (id : Z) : M (gmap Peer (list nat)) := fun u =>
  match eventPools u !! id with
  | Some q => Ret (q, u)
  | None => Ret (∅, set_pools (<[id := ∅]> (eventPools u)) u)
  end.
(** std::shared_ptr<Event> get(const Peer& peer) *)
Definition pool_get (id : Z) (peer : Peer) : M (option nat) :=
  q ← getPool id;
  match default [] (q !! peer) with
  | [] => _ ← modify (fun u => set_pools (<[id := <[peer := []]> q]> (eventPools u)) u); mret None
  | p :: r => _ ← modify (fun u => set_pools (<[id := <[peer := r]> q]> (eventPools u)) u); mret (Some p)
  end.
(** bool giveBack(const std::shared_ptr<Event>& event) *)
Definition deref_peer (p : nat) : M Peer := fun u => '(_, peer) ← of_option Undefined (events u !! p); Ret (peer, u).
Definition giveBack (id : Z) (p : nat) : M bool :=
  peer ← deref_peer p;
  q ← getPool id;
  let l := default [] (q !! peer) in
  if 1000000 <? Z.of_nat (length l) then
    _ ← modify (fun u => set_pools (<[id := <[peer := l]> q]> (eventPools u)) u); mret false
  else
    _ ← modify (fun u => set_pools (<[id := <[peer := l ++ [p]]> q]> (eventPools u)) u); mret true.

(** size_t count() const *)
Definition pool_count (q : gmap Peer (list nat)) : Z := map_fold (fun _ l n => n + Z.of_nat (length l)) 0 q.

(** ** AsyncClient *)

(** std::make_shared<Event>(channel, socket), at the next address. *)
Definition new_event (c : channel) (peer : Peer) (fd : Z) : M nat :=
  n ← tick_;
  p ← gets next;
  _ ← modify (fun u => set_next (S p) (set_events (<[p := (Event (clock n) c fd CLIENT, peer)]> (events u)) u));
  mret p.

(** An event is destroyed when its last owner lets go of it. *)
Definition owned (p : nat) (u : actor) : bool :=
  bool_decide (map_Exists (fun _ c => client_event c = Some p) (clients u)) ||
  bool_decide (map_Exists (fun _ q => map_Exists (fun _ l => p ∈ l) q) (eventPools u)).
Definition release (p : nat) : M unit := modify (fun u =>
  if owned p u then u else set_events (delete p (events u)) u).

(** event_ = ... of a client. *)
Definition replace_event (c : nat) (o : option nat) : M unit :=
  x ← deref_client c;
  _ ← set_event c o;
  match client_event x with Some p => release p | None => mret tt end.

(** The second half of initConnection(): a new connection. *)
Definition connect_new (c : nat) (ok : bool) (fd : Z) : M bool :=
  x ← deref_client c;
  if (ok : bool) then
    p ← new_event (client_channel x) (peer_ x) fd;
    _ ← set_type p CONNECT;
    _ ← replace_event c (Some p);
    mret true
  else mret false.

(** bool initConnection() *)
Definition initConnection (c : nat) (up ok : bool) (fd : Z) : M bool :=
  x ← deref_client c;
  if keepalive_ x then
    o ← pool_get (port (peer_ x)) (peer_ x);
    match o with
    | Some p =>
        if (up : bool) then
          n ← tick_;
          _ ← assign p (reset (clock n));
          _ ← set_type p TOWRITE;
          _ ← replace_event c (Some p);
          mret true
        else
          r ← connect_new c ok fd;
          _ ← release p;
          mret r
    | None => connect_new c ok fd
    end
  else connect_new c ok fd.

(** void freeConnection(); close() calls it. *)
Definition freeConnection (c : nat) : M unit :=
  x ← deref_client c;
  _ ← (if keepalive_ x then
         p ← lift (of_option Undefined (client_event x));
         e ← deref p;
         if bool_decide (type_ e = FAIL) then mret tt
         else _ ← giveBack (port (peer_ x)) p; mret tt
       else mret tt);
  replace_event c None.

(** bool connect(), by a fiber whose executor is [x]: the callbacks it adds. *)
Definition connect (c : nat) (up ok : bool) (fd : Z) (x : nat) : M (bool * list closure) :=
  r ← initConnection c up ok fd;
  if (r : bool) then
    cl ← deref_client c;
    p ← lift (of_option Undefined (client_event cl));
    if callbackMode_ cl then mret (true, [])
    else _ ← assign p (setExecutor (Some x)); mret (true, [AddEvent p])
  else mret (false, []).

(** ** Actor *)

Fixpoint all_free (ps : list nat) : M bool :=
  match ps with
  | [] => mret true
  | p :: r => e ← deref p; if Event.group_ e =? 0 then all_free r else mret false
  end.
Fixpoint set_groups (g : Z) (ps : list nat) : M unit :=
  match ps with [] => mret tt | p :: r => _ ← assign p (setGroup g); set_groups g r end.
Definition create_group (n : Z) : M Z := fun u =>
  '(g, grp) ← Group.create n (group_ u); Ret (g, set_group grp u).
Definition finish_group (g : Z) : M bool := fun u =>
  '(b, grp) ← Group.finish g (group_ u); Ret (b, set_group grp u).
(** bool waitGroup(const std::vector<Event*>& events) *)
Definition waitGroup (ps : list nat) : M bool :=
  b ← all_free ps;
  if (b : bool) then
    g ← create_group (Z.of_nat (length ps));
    _ ← set_groups g ps;
    mret true
  else mret false.

(** The events of the clients that are connected. *)
Fixpoint connected_events (cs : list nat) : M (list nat) :=
  match cs with
  | [] => mret []
  | c :: r => x ← deref_client c; ps ← connected_events r;
              mret (match client_event x with Some p => p :: ps | None => ps end)
  end.
(** bool MultiAsyncClient::yield() and yieldMultiTask, up to the switch: whether it yields. *)
Definition yieldMulti (cs : list nat) : M bool :=
  match cs with
  | [] => mret false
  | _ => ps ← connected_events cs; waitGroup ps
  end.

(** void forwardEvent(Event* event, const Peer& peer) *)
Definition forwardEvent (p : nat) (peer : Peer) : M unit :=
  n ← tick_;
  match forward_fd n with
  | Some fd =>
      e ← deref p;
      q ← new_event (channel_ e) peer fd;
      _ ← assign q (fun e' => with_buffers (rbuf_ e') (wbuf_ e) (rlen_ e') (wlen_ e') e');
      _ ← assign q setForward;
      _ ← set_type q WRITED;
      modify (fun u => set_loop (loop u ++ [q]) u)
  | None => mret tt
  end.
Fixpoint forward_all (p : nat) (fs : list ForwardTarget) : M unit :=
  match fs with
  | [] => mret tt
  | f :: r =>
      e ← deref p;
      n ← tick_;
      _ ← (if (fport f =? channel_id (channel_ e)) && (rand n mod 100 <? flow f) then forwardEvent p (fpeer f) else mret tt);
      forward_all p r
  end.
(** void addEvent(Event* event) *)
Definition addEvent (p : nat) : M unit :=
  u ← get;
  _ ← (if forwarding u then
         e ← deref p;
         if bool_decide (role_ e = CLIENT) then forward_all p (forwards_ u) else mret tt
       else mret tt);
  modify (fun u => set_loop (loop u ++ [p]) u).

(** void addFiber(Fiber* fiber, int poolId): no pool is a null dereference. *)
Definition addFiber (p : Z) (poolId : Z) : M unit :=
  u ← get;
  id ← lift (if bool_decide (poolId ∈ cpuPools u) then Ret poolId
             else if bool_decide (0 ∈ cpuPools u) then Ret 0 else Err Undefined);
  modify (fun u => set_posted (posted u ++ [(id, p)]) u).

(** What a fiber does, and what an executor's closures do. *)
Definition sys (a : act) (x : nat) (u : actor) : outcome (actor * list closure * bool) :=
  match a with
  | Do n => Ret (set_done (done u ++ [n]) u, [], false)
  | Connect c up ok fd => '((_, cs), u) ← connect c up ok fd x u; Ret (u, cs, false)
  | Close c => '(_, u) ← freeConnection c u; Ret (u, [], false)
  | Yield => Ret (u, [], true)
  | YieldAll cs => '(b, u) ← yieldMulti cs u; Ret (u, [], b)
  | SetType p t => '(_, u) ← set_type p t u; Ret (u, [], false)
  end.
Definition call (c : closure) (u : actor) : outcome actor :=
  match c with AddEvent p => '(_, u) ← addEvent p u; Ret u end.

(** ** Events that are ready *)

Notation world := (@Fiber.world actor act closure).
Definition at_user {A} (m : M A) : St world A := fun w => '(a, u) ← m (Fiber.user w); Ret (a, Fiber.set_user u w).

(** void execute(const ExecutorPtr& executor, int poolId); [code] is what run() does, [p] the
    address of a fiber made for it. *)
Definition execute_executor (x : nat) (code : list act) (p : Z) (poolId : Z) : St world unit :=
  e ← Fiber.deref_executor x;
  match Fiber.fiber e with
  | Some q => at_user (addFiber q poolId)
  | None => _ ← Fiber.new_Fiber p x code; at_user (addFiber p poolId)
  end.

(** void execute(Event* event): a request gets a new executor [x] that runs the service's
    [code] and then answers; an answer resumes the fiber that waits for it. *)
Definition execute_event (p : nat) (x : nat) (code : list act) (q : Z) : St world unit :=
  e ← at_user (deref p);
  match executor_ e with
  | None =>
      _ ← modify (fun w => Fiber.set_executors (<[x := Fiber.mk_executor [] [AddEvent p] None]> (Fiber.executors w)) w);
      _ ← at_user (assign p (setExecutor (Some x)));
      execute_executor x (code ++ [SetType p TOWRITE]) q (channel_id (channel_ e))
  | Some x =>
      let i := Event.group_ e in
      _ ← at_user (assign p (setGroup 0));
      last ← at_user (if i =? 0 then mret true else finish_group i);
      if (last : bool) then
        ex ← Fiber.deref_executor x;
        f ← lift (of_option Undefined (Fiber.fiber ex));
        _ ← Fiber.deref f;
        at_user (addFiber f (channel_id (channel_ e)))
      else mret tt
  end.

(** AsyncClientExecutor::handle, in callback mode: wait for the answer, then the callback. *)
Definition client_code (callback : list act) : list act := Yield :: callback.
Definition execute_client (c : nat) (callback : list act) (x : nat) (q : Z) : St world unit :=
  cl ← at_user (deref_client c);
  _ ← assert_ (callbackMode_ cl);
  ev ← lift (of_option Undefined (client_event cl));
  _ ← modify (fun w => Fiber.set_executors (<[x := Fiber.mk_executor [AddEvent ev] [] None]> (Fiber.executors w)) w);
  execute_executor x (client_code callback) q 0.

End actor.
End Actor.
