(* ===== verification/ActorSpec.v ===== *)
(** Fibers, groups and connections together: what a fiber that waits for several answers, a
    client that is kept alive, and a client that is misused come to. *)
From S2P Require Import Prelude Group Event Fiber Actor.

Module ActorSpec.
Import Event Actor.

Section answers.
Context (clock : nat → Z) (rand : nat → Z) (forward_fd : nat → option Z).
Notation world := (@Fiber.world actor act closure).

(** The pool that addFiber chooses. *)
Definition chosen (u : actor) (id : Z) : option Z :=
  if decide (id ∈ cpuPools u) then Some id else if decide (0 ∈ cpuPools u) then Some 0 else None.

(** An event whose answer a fiber with executor [x] waits for in group [g]. *)
Definition awaited (x : nat) (g : Z) (u : actor) (p : nat) : Prop :=
  ∃ e peer, events u !! p = Some (e, peer) ∧ executor_ e = Some x ∧ Event.group_ e = g.

Lemma bind_eq {W A D} (m : St W A) (k : A → St W D) w a w' : m w = Ret (a, w') → (m ≫= k) w = k a w'.
Proof. intros H. unfold mbind, St_bind. by rewrite H. Qed.
Lemma at_user_eq {A} (m : M A) (w : world) a u : m (Fiber.user w) = Ret (a, u) → at_user m w = Ret (a, Fiber.set_user u w).
Proof. intros H. unfold at_user. by rewrite H. Qed.

(** The world after the answer of event [p] was taken off its group. *)
Definition answered (p : nat) (e : event) (peer : Peer) (grp : Group.group) (w : world) : world :=
  Fiber.set_user (set_group grp (set_events (<[p := (setGroup 0 e, peer)]> (events (Fiber.user w))) (Fiber.user w))) w.

Lemma execute_answer p e peer x y code q g (w : world) b grp :
  events (Fiber.user w) !! p = Some (e, peer) → executor_ e = Some x → Event.group_ e = g → g ≠ 0 →
  Group.finish g (group_ (Fiber.user w)) = Ret (b, grp) →
  execute_event p y code q w =
  (if b then ex ← Fiber.deref_executor x; f ← lift (of_option Undefined (Fiber.fiber ex)); _ ← Fiber.deref f;
        at_user (addFiber f (channel_id (channel_ e)))
   else mret tt) (answered p e peer grp w).
Proof.
  intros Hp Hx Hg Hne Hf. unfold execute_event.
  rewrite (bind_eq _ _ _ _ _ (at_user_eq (deref p) w e (Fiber.user w) ltac:(unfold deref; by rewrite Hp))).
  replace (Fiber.set_user (Fiber.user w) w) with w by by destruct w. rewrite Hx.
  rewrite (bind_eq _ _ _ _ _ (at_user_eq (assign p (setGroup 0)) _ tt (set_events (<[p := (setGroup 0 e, peer)]> (events (Fiber.user w))) (Fiber.user w))
    ltac:(unfold assign; cbn; by rewrite Hp))).
  rewrite Hg. rewrite (proj2 (Z.eqb_neq g 0)) by done.
  set (u1 := set_events _ (Fiber.user w)).
  rewrite (bind_eq _ _ _ _ _ (at_user_eq (finish_group g) (Fiber.set_user u1 w) b (set_group grp u1)
    ltac:(unfold finish_group; change (group_ _) with (group_ (Fiber.user w)); by rewrite Hf))). done.
Qed.
(** The I/O loop hands over the events that are ready, one after the other. *)
Fixpoint execute_all (ps : list nat) : St world unit :=
  match ps with [] => mret tt | p :: r => _ ← execute_event p 0 [] 0; execute_all r end.

(** What handing over the answers of [ps] changes. *)
Record handed (ps : list nat) (w w' : world) : Prop := {
  h_fibers : Fiber.fibers w' = Fiber.fibers w;
  h_executors : Fiber.executors w' = Fiber.executors w;
  h_posted : posted (Fiber.user w') = posted (Fiber.user w);
  h_pools : cpuPools (Fiber.user w') = cpuPools (Fiber.user w);
  h_other : ∀ p, p ∉ ps → events (Fiber.user w') !! p = events (Fiber.user w) !! p;
  h_free : ∀ p, p ∈ ps → ∃ e peer, events (Fiber.user w') !! p = Some (e, peer) ∧ Event.group_ e = 0
}.

Lemma answers_early x g c ps (w : world) m : NoDup ps → g ≠ 0 → (∀ p, p ∈ ps → awaited x g (Fiber.user w) p) →
  GroupSpec.refines (group_ (Fiber.user w)) m → m !! g = Some c → Z.of_nat (length ps) < c →
  ∃ w', execute_all ps w = Ret (tt, w') ∧ handed ps w w' ∧
    GroupSpec.refines (group_ (Fiber.user w')) (<[g := c - Z.of_nat (length ps)]> m).
Proof.
  revert w m c. induction ps as [|p ps IH]; intros w m c Hnd Hg Haw Hr Hm Hc.
  - exists w. split; [done|]. split; [by split; try done; intros ? ?%elem_of_nil|]. cbn. rewrite Z.sub_0_r. by rewrite insert_id.
  - apply NoDup_cons in Hnd as [Hnp Hnd]. destruct (Haw p ltac:(by left)) as (e & peer & He & Hx & Hge).
    destruct (finish_refines _ m g Hr) as (b & grp & m' & Hf & Hs & Hr' & _); [right; eauto|].
    cbn [length] in Hc. inversion Hs as [|?|? ? ? H1|? ? c' ? H1 H2]; subst; [done|rewrite Hm in H1; injection H1 as ->; lia|].
    rewrite Hm in H1. injection H1 as <-.
    pose proof (execute_answer p e peer x 0 [] 0 (Event.group_ e) w false grp He Hx eq_refl Hg Hf) as Hex. cbn in Hex.
    destruct (IH (answered p e peer grp w) (<[Event.group_ e := c - 1]> m) (c - 1)) as (w' & Hw' & Hh & Hr'').
    + done.
    + done.
    + intros p' Hin. destruct (Haw p' ltac:(by right)) as (e' & peer' & He' & ? & ?). exists e', peer'. split; [|done].
      cbn. rewrite lookup_insert_ne by (intros ->; done). done.
    + done.
    + by rewrite lookup_insert_eq.
    + lia.
    + exists w'. split; [cbn [execute_all]; by rewrite (bind_eq _ _ _ _ _ Hex)|]. split.
      * destruct Hh as [F1 F2 F3 F4 F5 F6]. split; try done.
        -- intros p' [Hn1 Hn2]%not_elem_of_cons. rewrite F5 by done. cbn. by rewrite lookup_insert_ne.
        -- intros p' [->|Hin]%elem_of_cons; [|by apply F6]. exists (setGroup 0 e), peer. rewrite F5 by done. cbn. by rewrite lookup_insert_eq.
      * rewrite insert_insert_eq in Hr''. replace (c - Z.of_nat (length (p :: ps))) with (c - 1 - Z.of_nat (length ps)) by (cbn; lia). done.
Qed.
Lemma addFiber_eq f id u k : chosen u id = Some k → addFiber f id u = Ret (tt, set_posted (posted u ++ [(k, f)]) u).
Proof.
  unfold chosen, addFiber. intros H. rewrite (bind_eq _ _ u u u) by done.
  rewrite (bind_eq _ _ u k u); [done|]. unfold lift.
  destruct (decide (id ∈ cpuPools u)) as [Hi|Hi]; [rewrite bool_decide_eq_true_2 by done; by injection H as <-|rewrite bool_decide_eq_false_2 by done].
  destruct (decide (0 ∈ cpuPools u)) as [Hz|Hz]; [rewrite bool_decide_eq_true_2 by done; by injection H as <-|done].
Qed.

Lemma answers_last x g p e peer ex f k (w : world) m : g ≠ 0 → events (Fiber.user w) !! p = Some (e, peer) → executor_ e = Some x → Event.group_ e = g →
  GroupSpec.refines (group_ (Fiber.user w)) m → m !! g = Some 1 →
  Fiber.executors w !! x = Some ex → Fiber.fiber ex = Some f → is_Some (Fiber.fibers w !! f) →
  chosen (Fiber.user w) (channel_id (channel_ e)) = Some k →
  ∃ w', execute_event p 0 [] 0 w = Ret (tt, w') ∧ Fiber.fibers w' = Fiber.fibers w ∧
    posted (Fiber.user w') = posted (Fiber.user w) ++ [(k, f)] ∧ GroupSpec.refines (group_ (Fiber.user w')) (delete g m).
Proof.
  intros Hg He Hx Hge Hr Hm Hex Hfib [fb Hfb] Hk.
  destruct (finish_refines _ m g Hr) as (b & grp & m' & Hf & Hs & Hr' & _); [right; eauto|].
  inversion Hs as [|?|? ? ? H1|? ? c' ? H1 H2]; subst; [done| |rewrite Hm in H1; injection H1 as <-; lia].
  rewrite (execute_answer p e peer x 0 [] 0 (Event.group_ e) w true grp He Hx eq_refl Hg Hf). set (w1 := answered _ _ _ _ _).
  rewrite (bind_eq _ _ w1 ex w1) by (unfold Fiber.deref_executor; cbn; by rewrite Hex).
  rewrite (bind_eq _ _ w1 f w1) by (unfold lift; by rewrite Hfib).
  rewrite (bind_eq _ _ w1 fb w1) by (unfold Fiber.deref; cbn; by rewrite Hfb).
  rewrite (at_user_eq _ _ _ _ (addFiber_eq f _ (Fiber.user w1) k Hk)). eexists. split; [done|]. done.
Qed.

(** ** Waiting for several answers *)

Lemma all_free_eq ps u : (∀ p, p ∈ ps → ∃ e peer, events u !! p = Some (e, peer) ∧ Event.group_ e = 0) → all_free ps u = Ret (true, u).
Proof.
  induction ps as [|p ps IH]; intros H; [done|]. cbn [all_free]. destruct (H p ltac:(by left)) as (e & peer & He & Hg).
  rewrite (bind_eq _ _ u e u) by (unfold deref; by rewrite He). rewrite Hg. cbn. apply IH. intros p' Hp'. apply H. by right.
Qed.

(** The events after setGroup. *)
Definition grouped (g : Z) (ps : list nat) (es es' : gmap nat (event * Peer)) : Prop :=
  ∀ p, es' !! p = if decide (p ∈ ps) then (fun ep => (setGroup g ep.1, ep.2)) <$> es !! p else es !! p.

Lemma set_groups_eq g ps u : NoDup ps → (∀ p, p ∈ ps → is_Some (events u !! p)) →
  ∃ es', set_groups g ps u = Ret (tt, set_events es' u) ∧ grouped g ps (events u) es'.
Proof.
  revert u. induction ps as [|p ps IH]; intros u Hnd H.
  - exists (events u). split; [by destruct u|]. intros p. rewrite decide_False by (by intros ?%elem_of_nil). done.
  - apply NoDup_cons in Hnd as [Hn Hnd]. destruct (H p ltac:(by left)) as [[e peer] He]. cbn [set_groups].
    set (u1 := set_events (<[p := (setGroup g e, peer)]> (events u)) u).
    destruct (IH u1) as (es' & Hes & Hgr); [done|intros p' Hp'; destruct (decide (p' = p)) as [->|]; cbn; [rewrite lookup_insert_eq; eauto|rewrite lookup_insert_ne by done; apply H; by right]|].
    exists es'. split.
    + rewrite (bind_eq _ _ u tt u1) by (unfold assign; by rewrite He). by rewrite Hes.
    + intros p'. rewrite Hgr. unfold u1. cbn [events set_events]. destruct (decide (p' = p)) as [->|Hne].
      * rewrite decide_False by done. rewrite decide_True by by left. by rewrite lookup_insert_eq, He.
      * rewrite lookup_insert_ne by done. destruct (decide (p' ∈ ps)); [by rewrite decide_True by by right|].
        rewrite decide_False by (by intros [?|?]%elem_of_cons). done.
Qed.
(** MultiAsyncClient::yield, up to the switch. *)
Lemma yieldMulti_eq cs es u m : connected_events cs u = Ret (es, u) → cs ≠ [] → es ≠ [] → NoDup es →
  (∀ p, p ∈ es → ∃ e peer, events u !! p = Some (e, peer) ∧ Event.group_ e = 0) →
  GroupSpec.refines (group_ u) m → Group.capacity_ (group_ u) < 2 ^ 62 →
  ∃ g grp evs, yieldMulti cs u = Ret (true, set_events evs (set_group grp u)) ∧ 1 ≤ g ∧ m !! g = None ∧
    GroupSpec.refines grp (<[g := Z.of_nat (length es)]> m) ∧ grouped g es (events u) evs.
Proof.
  intros Hce Hcs Hes Hnd Hfree Hr Hcap.
  destruct (create_refines _ m (Z.of_nat (length es)) Hr) as (g & grp & Hc & Hs & Hr' & _); [destruct es; [done|cbn; lia]|done|].
  inversion Hs; subst. destruct (set_groups_eq g es (set_group grp u) Hnd) as (evs & Hsg & Hgr).
  { intros p Hp. destruct (Hfree p Hp) as (e & peer & He & _). exists (e, peer). done. }
  exists g, grp, evs. split_and!; try done. unfold yieldMulti. destruct cs as [|c cs]; [done|].
  rewrite (bind_eq _ _ _ _ _ Hce). unfold waitGroup. rewrite (bind_eq _ _ _ _ _ (all_free_eq _ _ Hfree)). cbv iota.
  rewrite (bind_eq _ _ u g (set_group grp u)) by (unfold create_group; by rewrite Hc).
  by rewrite (bind_eq _ _ _ _ _ Hsg).
Qed.

(** The callbacks of a fiber that yields, when no event is forwarded. *)
Lemma calls_loop ps u : forwarding u = false →
  Fiber.calls (call clock rand forward_fd) (map AddEvent ps) u = Ret (set_loop (loop u ++ ps) u).
Proof.
  revert u. induction ps as [|p ps IH]; intros u Hf; cbn [map Fiber.calls].
  - rewrite app_nil_r. by destruct u.
  - assert (call clock rand forward_fd (AddEvent p) u = Ret (set_loop (loop u ++ [p]) u)) as ->.
    { unfold call, addEvent. unfold mbind, outcome_bind, St_bind. cbn. by rewrite Hf. }
    cbn [mbind outcome_bind]. rewrite IH by done. cbn. by rewrite <- app_assoc.
Qed.
(** C6. Waiting for several back-ends, end to end: a fiber that comes to MultiAsyncClient::yield() with the
    connected clients' events [es] blocks with exactly the rest of its code and hands the events to
    the I/O loop; then, in whatever order the events become ready, every answer but the last
    leaves the CPU pools alone and the last one posts the fiber, once - no answer is lost or counted
    twice, and the group's key is free again. *)
Theorem fan_out_in f (w : world) fb ex cs r es cbs m :
  Fiber.fibers w !! f = Some fb → Fiber.context_ fb = YieldAll cs :: r →
  Fiber.executors w !! Fiber.executor_ fb = Some ex → Fiber.fiber ex = Some f → Fiber.callbacks_ ex = map AddEvent cbs →
  forwarding (Fiber.user w) = false → 0 ∈ cpuPools (Fiber.user w) →
  connected_events cs (Fiber.user w) = Ret (es, Fiber.user w) → cs ≠ [] → es ≠ [] → NoDup es →
  (∀ p, p ∈ es → awaited (Fiber.executor_ fb) 0 (Fiber.user w) p) →
  GroupSpec.refines (group_ (Fiber.user w)) m → Group.capacity_ (group_ (Fiber.user w)) < 2 ^ 62 →
  ∃ w1 fb1, Fiber.run (sys clock) (call clock rand forward_fd) f w = Ret (tt, w1) ∧
    Fiber.fibers w1 !! f = Some fb1 ∧ Fiber.status_ fb1 = Fiber.BLOCK ∧ Fiber.context_ fb1 = r ∧
    loop (Fiber.user w1) = loop (Fiber.user w) ++ cbs ∧ posted (Fiber.user w1) = posted (Fiber.user w) ∧
    ∀ ps p, ps ++ [p] ≡ₚ es → ∃ w2 w3 k,
      execute_all ps w1 = Ret (tt, w2) ∧ posted (Fiber.user w2) = posted (Fiber.user w) ∧
      execute_event p 0 [] 0 w2 = Ret (tt, w3) ∧ posted (Fiber.user w3) = posted (Fiber.user w) ++ [(k, f)] ∧
      Fiber.fibers w3 !! f = Some fb1 ∧ GroupSpec.refines (group_ (Fiber.user w3)) m.
Proof.
  intros Hf Hcode Hx Hfx Hcb Hfw Hpool Hce Hcs Hes Hnd Haw Hr Hcap.
  destruct (yieldMulti_eq cs es (Fiber.user w) m) as (g & grp & evs & Hy & Hg1 & Hgm & Hr' & Hgr); try done.
  { intros p Hp. destruct (Haw p Hp) as (e & peer & He & _ & Hg). eauto. }
  set (u1 := set_events evs (set_group grp (Fiber.user w))).
  assert (Fiber.run (sys clock) (call clock rand forward_fd) f w =
    Ret (tt, Fiber.blocked f fb ex [] r (set_loop (loop u1 ++ cbs) u1) w)) as Hrun.
  { rewrite (Fiber.run_eq _ _ f w fb ex Hf Hx), Hcode. cbn [Fiber.segment].
    assert (sys clock (YieldAll cs) (Fiber.executor_ fb) (Fiber.user w) = Ret (u1, [], true)) as -> by (unfold sys; by rewrite Hy).
    cbn [mbind outcome_bind].
    rewrite Hcb, app_nil_r, calls_loop by done. done. }
  eexists _, _. split; [exact Hrun|]. split; [apply lookup_insert_eq|]. split_and!; try done.
  intros ps p Hperm. set (w1 := Fiber.blocked _ _ _ _ _ _ _).
  assert (∀ q, q ∈ ps ++ [p] → awaited (Fiber.executor_ fb) g (Fiber.user w1) q) as Haw1.
  { intros q Hq. rewrite Hperm in Hq. destruct (Haw q Hq) as (e & peer & He & Hxe & _). exists (setGroup g e), peer.
    split; [|done]. cbn. rewrite Hgr, decide_True by done. by rewrite He. }
  rewrite <- Hperm in Hnd. apply NoDup_app in Hnd as (Hnd & Hnp & _).
  assert (p ∉ ps) as Hp by (intros Hin; apply (Hnp p Hin); by left).
  destruct (answers_early (Fiber.executor_ fb) g (Z.of_nat (length es)) ps w1 (<[g := Z.of_nat (length es)]> m)) as (w2 & H2 & Hh & Hr2); [done|lia| |done|by rewrite lookup_insert_eq|rewrite <- Hperm, length_app; cbn; lia|].
  { intros q Hq. apply Haw1. rewrite elem_of_app. by left. }
  destruct Hh as [F1 F2 F3 F4 F5 F6].
  destruct (Haw1 p ltac:(rewrite elem_of_app; right; by left)) as (e & peer & He & Hxe & Hge).
  assert (∃ k, chosen (Fiber.user w2) (channel_id (channel_ e)) = Some k) as [k Hk].
  { unfold chosen. rewrite F4. destruct (decide _); [eauto|]. rewrite decide_True by done. eauto. }
  rewrite insert_insert_eq in Hr2. replace (Z.of_nat (length es) - Z.of_nat (length ps)) with 1 in Hr2 by (rewrite <- Hperm, length_app; cbn; lia).
  destruct (answers_last (Fiber.executor_ fb) g p e peer (Fiber.more_callbacks [] ex) f k w2 (<[g := 1]> m)) as (w3 & H3 & Hfib & Hpo & Hr3); try done; [lia|by rewrite F5|by rewrite lookup_insert_eq|rewrite F2; apply lookup_insert_eq|rewrite F1; cbn; rewrite lookup_insert_eq; eauto|].
  exists w2, w3, k. split_and!; [done|by rewrite F3|done|by rewrite Hpo, F3|rewrite Hfib, F1; apply lookup_insert_eq|].
  rewrite delete_insert_eq, delete_id in Hr3; done.
Qed.
End answers.
(** ** Keeping connections alive *)

Section clients.
Context (clock : nat → Z).

Lemma deref_client_eq c u x : clients u !! c = Some x → deref_client c u = Ret (x, u).
Proof. intros H. unfold deref_client. by rewrite H. Qed.

(** A client that is kept alive cannot be closed without a connection: close(), which the destructor also
    calls, dereferences event_ even when it is null - before the first connect(), after a failed one, or
    when close() was called already. *)
Theorem close_unconnected c u x : clients u !! c = Some x → keepalive_ x = true → client_event x = None →
  freeConnection c u = Err Undefined.
Proof.
  intros Hc Hk He. unfold freeConnection. rewrite (bind_eq _ _ _ _ _ (deref_client_eq _ _ _ Hc)).
  rewrite Hk, He. done.
Qed.
(** The idle connections to a peer. *)
Definition idle (u : actor) (peer : Peer) : list nat :=
  default [] (default ∅ (eventPools u !! port peer) !! peer).
Definition without_event (x : AsyncClient) (o : option nat) : AsyncClient :=
  mk_client (peer_ x) (keepalive_ x) (callbackMode_ x) o (client_channel x).

Lemma getPool_eq id u : ∃ ps, getPool id u = Ret (default ∅ (eventPools u !! id), set_pools ps u) ∧ (∀ q, <[id := q]> ps = <[id := q]> (eventPools u)).
Proof.
  unfold getPool. destruct (eventPools u !! id) as [q|]; cbn.
  - exists (eventPools u). split; [by destruct u|done].
  - exists (<[id := ∅]> (eventPools u)). split; [done|]. intros q. by rewrite insert_insert_eq.
Qed.

Lemma giveBack_eq p e peer u : events u !! p = Some (e, peer) → Z.of_nat (length (idle u peer)) ≤ 1000000 →
  giveBack (port peer) p u =
  Ret (true, set_pools (<[port peer := <[peer := idle u peer ++ [p]]> (default ∅ (eventPools u !! port peer))]> (eventPools u)) u).
Proof.
  intros He Hl. unfold giveBack. rewrite (bind_eq _ _ u peer u) by (unfold deref_peer; by rewrite He).
  destruct (getPool_eq (port peer) u) as (ps & Hg & Hps). rewrite (bind_eq _ _ _ _ _ Hg).
  unfold idle in *. rewrite (proj2 (Z.ltb_ge _ _)) by done. unfold mbind, St_bind, modify. cbn. unfold set_pools. cbn. by rewrite Hps.
Qed.

Lemma pool_get_eq peer u p r : idle u peer = p :: r →
  pool_get (port peer) peer u = Ret (Some p, set_pools (<[port peer := <[peer := r]> (default ∅ (eventPools u !! port peer))]> (eventPools u)) u).
Proof.
  intros Hi. unfold pool_get. destruct (getPool_eq (port peer) u) as (ps & Hg & Hps). rewrite (bind_eq _ _ _ _ _ Hg).
  unfold idle in Hi. rewrite Hi. unfold mbind, St_bind, modify. cbn. unfold set_pools. cbn. by rewrite Hps.
Qed.

Lemma replace_event_eq c x o u : clients u !! c = Some x →
  replace_event c o u =
  (match client_event x with Some p => release p | None => mret tt end) (set_clients (<[c := without_event x o]> (clients u)) u).
Proof.
  intros Hc. unfold replace_event. rewrite (bind_eq _ _ _ _ _ (deref_client_eq _ _ _ Hc)).
  rewrite (bind_eq _ _ u tt (set_clients (<[c := without_event x o]> (clients u)) u)); [done|].
  unfold set_event. by rewrite (bind_eq _ _ _ _ _ (deref_client_eq _ _ _ Hc)).
Qed.

Lemma release_idle p peer u : p ∈ idle u peer → release p u = Ret (tt, u).
Proof.
  intros Hin. unfold release, modify. unfold owned. rewrite (bool_decide_eq_true_2 (map_Exists (fun _ q => map_Exists (fun _ l => p ∈ l) q) (eventPools u))); [by rewrite orb_true_r|].
  unfold idle in Hin. destruct (eventPools u !! port peer) as [q|] eqn:Hq; cbn in Hin; [|rewrite lookup_empty in Hin; by apply elem_of_nil in Hin].
  destruct (q !! peer) as [l|] eqn:Hl; cbn in Hin; [|by apply elem_of_nil in Hin].
  apply map_Exists_lookup. exists (port peer), q. split; [done|]. apply map_Exists_lookup. by exists peer, l.
Qed.
Lemma freeConnection_eq c u x p e : clients u !! c = Some x → keepalive_ x = true → client_event x = Some p →
  events u !! p = Some (e, peer_ x) → type_ e ≠ FAIL → Z.of_nat (length (idle u (peer_ x))) ≤ 1000000 →
  freeConnection c u = Ret (tt, set_clients (<[c := without_event x None]> (clients u))
    (set_pools (<[port (peer_ x) := <[peer_ x := idle u (peer_ x) ++ [p]]> (default ∅ (eventPools u !! port (peer_ x)))]> (eventPools u)) u)).
Proof.
  intros Hc Hk Hev He Ht Hl. unfold freeConnection. rewrite (bind_eq _ _ _ _ _ (deref_client_eq _ _ _ Hc)). rewrite Hk, Hev.
  set (u1 := set_pools _ u).
  rewrite (bind_eq _ _ u tt u1).
  - rewrite (replace_event_eq c x None u1 Hc), Hev. apply (release_idle p (peer_ x)).
    unfold idle, u1. cbn. rewrite lookup_insert_eq. cbn. rewrite lookup_insert_eq. cbn. rewrite elem_of_app. right. by left.
  - rewrite (bind_eq _ _ u p u) by done. rewrite (bind_eq _ _ u e u) by (unfold deref; by rewrite He).
    rewrite bool_decide_eq_false_2 by done. by rewrite (bind_eq _ _ _ _ _ (giveBack_eq p e (peer_ x) u He Hl)).
Qed.

(** A connection that is kept alive comes back: when a client with the peer's only idle connection closes
    and connects again while the socket is still connected, it gets the same event, reset
    for a new request (the next sequence number, to be written) and no new connection is made;
    between the two calls the event stays alive in the pool. *)
Theorem keepalive_reuse c u x p e ok fd : clients u !! c = Some x → keepalive_ x = true → client_event x = Some p →
  events u !! p = Some (e, peer_ x) → type_ e ≠ FAIL → idle u (peer_ x) = [] →
  ∃ u1 u2 e2, freeConnection c u = Ret (tt, u1) ∧ events u1 !! p = Some (e, peer_ x) ∧ idle u1 (peer_ x) = [p] ∧
    initConnection clock c true ok fd u1 = Ret (true, u2) ∧ clients u2 !! c = Some x ∧ idle u2 (peer_ x) = [] ∧ next u2 = next u ∧
    events u2 !! p = Some (e2, peer_ x) ∧ type_ e2 = TOWRITE ∧ seqid_ e2 = Z.max (i32 (seqid_ e + 1)) 1 ∧ Event.group_ e2 = 0.
Proof.
  intros Hc Hk Hev He Ht Hi. eexists. do 2 eexists.
  split; [apply (freeConnection_eq c u x p e); try done; rewrite Hi; cbn; lia|].
  set (u1 := set_clients _ _).
  assert (idle u1 (peer_ x) = [p]) as Hi1. { unfold idle, u1. cbn. rewrite lookup_insert_eq. cbn. rewrite lookup_insert_eq. cbn. by rewrite Hi. }
  assert (clients u1 !! c = Some (without_event x None)) as Hc1 by (unfold u1; cbn; by rewrite lookup_insert_eq).
  split; [done|]. split; [done|]. split.
  - unfold initConnection. rewrite (bind_eq _ _ _ _ _ (deref_client_eq _ _ _ Hc1)). cbn [keepalive_ without_event]. rewrite Hk.
    rewrite (bind_eq _ _ _ _ _ (pool_get_eq (peer_ x) u1 p [] Hi1)). cbv iota.
    set (u2 := set_pools _ u1).
    rewrite (bind_eq tick_ _ u2 (tick u2) (set_tick (S (tick u2)) u2) eq_refl). set (u3 := set_tick _ u2).
    set (e3 := reset (clock (tick u2)) e). set (u4 := set_events (<[p := (e3, peer_ x)]> (events u3)) u3).
    rewrite (bind_eq (assign p (reset (clock (tick u2)))) _ u3 tt u4) by (unfold assign; change (events u3 !! p) with (events u !! p); by rewrite He).
    set (u5 := set_events (<[p := (setType (clock (tick u4)) TOWRITE e3, peer_ x)]> (events u4)) (set_tick (S (tick u4)) u4)).
    rewrite (bind_eq (set_type clock p TOWRITE) _ u4 tt u5) by
      (unfold set_type; rewrite (bind_eq tick_ _ u4 (tick u4) (set_tick (S (tick u4)) u4) eq_refl); unfold assign; cbn; by rewrite lookup_insert_eq).
    rewrite (bind_eq (replace_event c (Some p)) _ u5 tt (set_clients (<[c := without_event (without_event x None) (Some p)]> (clients u5)) u5)); [reflexivity|].
    by rewrite (replace_event_eq c _ (Some p) u5 Hc1).
  - cbn. rewrite !insert_insert_eq, !lookup_insert_eq. unfold without_event. cbn.
    split; [by rewrite <- Hev; destruct x|]. split; [|by split_and!].
    unfold idle. cbn. rewrite lookup_insert_eq. cbn. by rewrite lookup_insert_eq.
Qed.

(** MultiAsyncClient::yield() with no client connected asks for an empty group, which fails. *)
Theorem yield_unconnected_fails cs u m : cs ≠ [] → connected_events cs u = Ret ([], u) →
  GroupSpec.refines (group_ u) m → Group.capacity_ (group_ u) < 2 ^ 62 → yieldMulti cs u = Err AssertFailed.
Proof.
  intros Hcs Hce Hr Hcap. unfold yieldMulti. destruct cs as [|c cs]; [done|]. rewrite (bind_eq _ _ _ _ _ Hce).
  unfold waitGroup. rewrite (bind_eq _ _ u true u) by done. unfold create_group, Group.create.
  destruct (refill_spec _ m Hr Hcap) as (g1 & Hg & _). unfold mbind at 1, St_bind. rewrite Hg. done.
Qed.
End clients.

(** ** A small process *)

Module Demo.
Definition clk (n : nat) : Z := 1000.
Definition rnd (n : nat) : Z := 0.
Definition no_forward (n : nat) : option Z := None.
Definition opt : TimeoutOption := mk_timeoutOption 100 100 100.
Definition chan : channel := mk_channel 80 opt false.
Definition peer : Peer := mk_peer "backend" 80.
Definition cl : AsyncClient := mk_client peer false false None chan.
Definition kept : AsyncClient := mk_client peer true false None chan.

Definition process (c0 c1 : AsyncClient) : actor :=
  mk_actor ∅ 0 (<[0%nat := c0]> (<[1%nat := c1]> ∅)) ∅ (Group.mk_group 2 [1; 2] [0; 0; 0]) [] [0] [] false [] 0 [].
(** One fiber, at 100, whose executor 5 does [code]. *)
Definition start (code : list act) (u : actor) : @Fiber.world actor act closure :=
  Fiber.mk_world {[ 100 := Fiber.mk_fiber Fiber.INIT code 5 1000 [Fiber.mk_timestamp Fiber.INIT 1000] ]}
    {[ 5%nat := Fiber.mk_executor [] [] (Some 100) ]} None 1 1000 u.
Definition resume : St (@Fiber.world actor act closure) unit := Fiber.run (sys clk) (call clk rnd no_forward) 100.

(** Callbacks are never removed from an executor: a fiber that talks to one back-end, closes that client,
    and then talks to a second one hands the first client's event to the I/O loop again
    - an event that has been destroyed. *)
Theorem second_yield_dangling :
  ∃ w, (_ ← resume; _ ← execute_event 0 0 [] 0; resume)
         (start [Connect 0 false true 3; Yield; Close 0; Connect 1 false true 4; Yield] (process cl cl)) = Ret (tt, w) ∧
    loop (Fiber.user w) = [0%nat; 0%nat; 1%nat] ∧ events (Fiber.user w) !! 0%nat = None.
Proof. eexists. split; [vm_compute; reflexivity|]. split; vm_compute; reflexivity. Qed.
(** Two clients connected, the fiber about to wait for both. *)
Definition both : actor :=
  match (_ ← connect clk 0 false true 3 5; connect clk 1 false true 4 5) (process cl cl) with Ret (_, u) => u | Err _ => process cl cl end.
Definition waiting : @Fiber.world actor act closure :=
  Fiber.set_executors {[ 5%nat := Fiber.mk_executor [AddEvent 0; AddEvent 1] [] (Some 100) ]} (start [YieldAll [0%nat; 1%nat]; Do 7] both).

Lemma fan_out_in_witness : ∃ w1, resume waiting = Ret (tt, w1) ∧ loop (Fiber.user w1) = [0%nat; 1%nat] ∧
  ∃ w2 w3 k, execute_all [1%nat] w1 = Ret (tt, w2) ∧ posted (Fiber.user w2) = [] ∧
    execute_event 0 0 [] 0 w2 = Ret (tt, w3) ∧ posted (Fiber.user w3) = [(k, 100)].
Proof.
  destruct (fan_out_in clk rnd no_forward 100 waiting (Fiber.mk_fiber Fiber.INIT [YieldAll [0%nat; 1%nat]; Do 7] 5 1000 [Fiber.mk_timestamp Fiber.INIT 1000])
    (Fiber.mk_executor [AddEvent 0; AddEvent 1] [] (Some 100)) [0%nat; 1%nat] [Do 7] [0%nat; 1%nat] [0%nat; 1%nat] ∅)
    as (w1 & fb1 & Hrun & _ & _ & _ & Hloop & _ & Hall).
  1-6: vm_compute; reflexivity.
  1: by left.
  1: vm_compute; reflexivity.
  1-2: discriminate.
  1: apply (bool_decide_unpack _); vm_compute; exact I.
  1: { intros p [->|[->|[]%elem_of_nil]%elem_of_cons]%elem_of_cons; eexists _, _; (split; [vm_compute; reflexivity|split; vm_compute; reflexivity]). }
  1: exact demo_refines.
  1: vm_compute; reflexivity.
  exists w1. split; [exact Hrun|]. split; [exact Hloop|].
  destruct (Hall [1%nat] 0%nat) as (w2 & w3 & k & H1 & H2 & H3 & H4 & _ & _); [apply Permutation_swap|].
  exists w2, w3, k. split; [exact H1|]. split; [exact H2|]. split; [exact H3|exact H4].
Defined.

Lemma close_unconnected_witness : freeConnection 0 (process kept cl) = Err Undefined.
Proof. apply (close_unconnected 0 (process kept cl) kept); vm_compute; reflexivity. Defined.

(** A client kept alive, connected. *)
Definition kept_on : actor :=
  match connect clk 0 false true 3 5 (process kept cl) with Ret (_, u) => u | Err _ => process kept cl end.

Lemma keepalive_reuse_witness : ∃ u1 u2, freeConnection 0 kept_on = Ret (tt, u1) ∧ initConnection clk 0 true false 9 u1 = Ret (true, u2) ∧ next u2 = 1%nat.
Proof.
  destruct (keepalive_reuse clk 0 kept_on (mk_client peer true false (Some 0%nat) chan) 0 (setExecutor (Some 5%nat) (setType 1000 CONNECT (Event 1000 chan 3 CLIENT))) false 9)
    as (u1 & u2 & e2 & H1 & _ & _ & H2 & _ & _ & H3 & _); [vm_compute; reflexivity..|discriminate|vm_compute; reflexivity|].
  exists u1, u2. split; [exact H1|]. split; [exact H2|exact H3].
Defined.

(** A fiber that runs to its end. *)
Lemma fiber_run_eq_witness : ∃ w, resume (start [Do 1] (process cl cl)) = Ret (tt, w) ∧ Fiber.fibers w = ∅ ∧ Fiber.count_ w = 0.
Proof.
  unfold resume. rewrite (Fiber.fiber_run_eq (sys clk) (call clk rnd no_forward) 100 _ (Fiber.mk_fiber Fiber.INIT [Do 1] 5 1000 [Fiber.mk_timestamp Fiber.INIT 1000])
    (Fiber.mk_executor [] [] (Some 100))); [|vm_compute; reflexivity..].
  eexists. split; [vm_compute; reflexivity|split; vm_compute; reflexivity].
Defined.
End Demo.
End ActorSpec.
