(* ===== verification/IOBuf.v ===== *)
(** raster/io/IOBuf.h and IOBuf.cpp: chains of reference-counted byte buffers.

    The model keeps the memory the class manages by hand.  A [heap] holds the
    IOBuf objects by address, the blocks of bytes, the SharedInfo objects and
    the HeapStorage prefixes; a pointer into a block is a block and an offset.
    Chains are the circular doubly linked lists of the source, and a pointer
    that is not in its map is dangling, so using it is undefined.  Sizes are
    uint64_t and wrap.  [assert] and DCHECK are checked, as in a debug build.

    [uninit] gives the contents of fresh memory and [mem_limit] the largest
    size malloc(3) can provide. *)
From S2P Require Import Prelude.

Module IOBuf.

(** ** The data *)

(** A pointer to bytes: a block (0 is null) and an offset. *)
Record ptr := mk_ptr { blk : Z; off : Z }.
Definition nullptr : ptr := mk_ptr 0 0.
Definition padd (p : ptr) (n : Z) : ptr := mk_ptr (blk p) (off p + n).

Definition kFlagFreeSharedInfo : Z := 1.
Definition kFlagMaybeShared : Z := 2.
Definition kFlagMask : Z := 3.

Definition kIOBufInUse : Z := 1.
Definition kDataInUse : Z := 2.
Definition kHeapMagic : Z := 42405.
Definition kDefaultCombinedBufSize : Z := 1024.

(** sizeof(SharedInfo) and offsetof(HeapFullStorage, align). *)
Definition sizeof_SharedInfo : Z := 24.
Definition offsetof_align : Z := 96.

Record iobuf := mk_iobuf {
  next_ : Z;
  prev_ : Z;
  data_ : ptr;
  buf_ : ptr;
  length_ : Z;
  capacity_ : Z;
  flagsAndSharedInfo_ : Z
}.

(** FreeFunction: none, freeInternalBuf, or the user's. *)
Inductive free_fn := FreeMalloc | FreeInternal | FreeUser (f : Z).
#[global] Instance free_fn_eq_dec : EqDecision free_fn.
Proof. solve_decision. Defined.

Record shared_info := mk_shared_info {
  freeFn : free_fn;
  userData : Z;
  refcount : Z;
  host : Z  (* the block or storage the object lies in, or 0 for one made by new *)
}.

(** A HeapStorage: its prefix and, for a combined one, the block behind it. *)
Record heap_storage := mk_heap_storage {
  magic : Z;
  sflags : Z;
  sblock : Z
}.

Record heap := mk_heap {
  bufs : gmap Z iobuf;
  mem : gmap Z (list Z);
  infos : gmap Z shared_info;
  stores : gmap Z heap_storage;
  brk : Z;  (* the next address *)
  freed : list (Z * ptr * Z)  (* calls of user free functions, latest first *)
}.

Definition set_bufs x h := mk_heap x (mem h) (infos h) (stores h) (brk h) (freed h).
Definition set_mem x h := mk_heap (bufs h) x (infos h) (stores h) (brk h) (freed h).
Definition set_infos x h := mk_heap (bufs h) (mem h) x (stores h) (brk h) (freed h).
Definition set_stores x h := mk_heap (bufs h) (mem h) (infos h) x (brk h) (freed h).
Definition set_brk x h := mk_heap (bufs h) (mem h) (infos h) (stores h) x (freed h).
Definition set_freed x h := mk_heap (bufs h) (mem h) (infos h) (stores h) (brk h) x.

Abbreviation M := (St heap).

(** ** The packed word *)

Definition packFlagsAndSharedInfo (flags info : Z) : Z := Z.lor flags info.
Definition sharedInfo (b : iobuf) : Z := Z.land (flagsAndSharedInfo_ b) (Z.lnot kFlagMask).
Definition flags (b : iobuf) : Z := Z.land (flagsAndSharedInfo_ b) kFlagMask.

Definition with_links (n p : Z) (b : iobuf) : iobuf :=
  mk_iobuf n p (data_ b) (buf_ b) (length_ b) (capacity_ b) (flagsAndSharedInfo_ b).
Definition with_next (n : Z) (b : iobuf) : iobuf := with_links n (prev_ b) b.
Definition with_prev (p : Z) (b : iobuf) : iobuf := with_links (next_ b) p b.
Definition with_view (d : ptr) (n : Z) (b : iobuf) : iobuf :=
  mk_iobuf (next_ b) (prev_ b) d (buf_ b) n (capacity_ b) (flagsAndSharedInfo_ b).
Definition with_word (w : Z) (b : iobuf) : iobuf :=
  mk_iobuf (next_ b) (prev_ b) (data_ b) (buf_ b) (length_ b) (capacity_ b) w.
Definition with_buffer (d p : ptr) (n c w : Z) (b : iobuf) : iobuf :=
  mk_iobuf (next_ b) (prev_ b) d p n c w.

Definition setFlags (f : Z) (b : iobuf) : iobuf :=
  with_word (Z.lor (flagsAndSharedInfo_ b) f) b.
Definition clearFlags (f : Z) (b : iobuf) : iobuf :=
  with_word (Z.land (flagsAndSharedInfo_ b) (Z.lnot f)) b.

(** ** Memory *)

Definition deref (p : Z) : M iobuf :=
  h ← get; lift (of_option Undefined (bufs h !! p)).
Definition put (p : Z) (b : iobuf) : M unit :=
  modify (fun h => set_bufs (<[p := b]> (bufs h)) h).
Definition assign (p : Z) (f : iobuf → iobuf) : M unit := b ← deref p; put p (f b).
Definition info_at (i : Z) : M shared_info :=
  h ← get; lift (of_option Undefined (infos h !! i)).

Definition slice (o n : Z) (l : list Z) : list Z := take (Z.to_nat n) (drop (Z.to_nat o) l).
Definition splice (o : Z) (new l : list Z) : list Z :=
  take (Z.to_nat o) l ++ new ++ drop (Z.to_nat o + length new) l.
Definition in_range (o n : Z) (l : list Z) : bool :=
  (0 <=? o) && (0 <=? n) && (o + n <=? Z.of_nat (length l)).

(** Reading [n] bytes; reading none touches no memory. *)
Definition load (p : ptr) (n : Z) : M (list Z) :=
  if n =? 0 then mret [] else
  h ← get;
  l ← lift (of_option Undefined (mem h !! blk p));
  if in_range (off p) n l then mret (slice (off p) n l) else throw Undefined.

Definition store (p : ptr) (bs : list Z) : M unit :=
  match bs with
  | [] => mret tt
  | _ =>
      h ← get;
      l ← lift (of_option Undefined (mem h !! blk p));
      if in_range (off p) (Z.of_nat (length bs)) l
      then modify (set_mem (<[blk p := splice (off p) bs l]> (mem h)))
      else throw Undefined
  end.

(** memcpy and memmove: the source is read before the target is written. *)
Definition memmove (dst src : ptr) (n : Z) : M unit := bs ← load src n; store dst bs.

(** Addresses are multiples of 8. *)
Definition fresh : M Z :=
  a ← gets brk; _ ← modify (set_brk (a + 8)); mret a.

Section alloc.
Context (uninit : Z → Z → Z) (mem_limit : Z).

(** malloc(size), of which the first [n] bytes are used as bytes. *)
Definition malloc (size n : Z) : M (option Z) :=
  if mem_limit <? size then mret None else
  a ← fresh;
  _ ← modify (fun h => set_mem (<[a := uninit a <$> seqZ 0 n]> (mem h)) h);
  mret (Some a).

(** free(buf): the block and the SharedInfo in it. *)
Definition free (p : ptr) : M unit :=
  h ← get;
  match mem h !! blk p with
  | Some _ =>
      if off p =? 0
      then modify (fun h => set_infos (filter (fun '(_, s) => host s ≠ blk p) (infos h))
                              (set_mem (delete (blk p) (mem h)) h))
      else throw Undefined
  | None => throw Undefined
  end.

(** ** Storage of IOBuf objects *)

Definition releaseStorage (storage freeFlags : Z) : M unit :=
  h ← get;
  s ← lift (of_option Undefined (stores h !! storage));
  _ ← assert_ (magic s =? kHeapMagic);
  _ ← assert_ (Z.land (sflags s) freeFlags =? freeFlags);
  let newFlags := Z.land (sflags s) (Z.lnot freeFlags) in
  if newFlags =? 0 then
    _ ← modify (fun h => set_stores (delete storage (stores h)) h);
    if sblock s =? 0 then mret tt else free (mk_ptr (sblock s) 0)
  else modify (fun h => set_stores (<[storage := mk_heap_storage (magic s) newFlags (sblock s)]>
                                      (stores h)) h).

(** IOBuf::operator new for an object alone, for which there is always memory; [mem_limit] is about
    the buffers. *)
Definition operator_new : M Z :=
  p ← fresh;
  _ ← modify (fun h => set_stores (<[p := mk_heap_storage kHeapMagic kIOBufInUse 0]> (stores h)) h);
  mret p.
Definition operator_delete (p : Z) : M unit := releaseStorage p kIOBufInUse.

(** ** External buffers *)

Definition goodExtBufferSize (minCapacity : Z) : Z :=
  let minSize := u64 (minCapacity + sizeof_SharedInfo) in
  u64 (Z.land (minSize + 7) (Z.lnot 7)).

(** The SharedInfo at the end of the block; gives it and the capacity. *)
Definition initExtBuffer (b mallocSize : Z) : M (Z * Z) :=
  i ← fresh;
  _ ← modify (fun h => set_infos (<[i := mk_shared_info FreeMalloc 0 1 b]> (infos h)) h);
  mret (i, mallocSize - sizeof_SharedInfo).

Definition allocExtBuffer (minCapacity : Z) : M (Z * Z * Z) :=
  let mallocSize := goodExtBufferSize minCapacity in
  r ← malloc mallocSize (mallocSize - sizeof_SharedInfo);
  match r with
  | None => throw (Thrown "bad_alloc")
  | Some b => '(i, c) ← initExtBuffer b mallocSize; mret (b, i, c)
  end.

Definition freeExtBuffer (p : Z) : M unit :=
  b ← deref p;
  _ ← assert_ (negb (sharedInfo b =? 0));
  s ← info_at (sharedInfo b);
  match freeFn s with
  | FreeUser f => modify (fun h => set_freed ((f, buf_ b, userData s) :: freed h) h)
  | FreeInternal => releaseStorage (userData s) kDataInUse
  | FreeMalloc => free (buf_ b)
  end.

(** [delete sharedInfo()] of one made by new. *)
Definition delete_info (i : Z) : M unit :=
  s ← info_at i;
  if host s =? 0 then modify (fun h => set_infos (delete i (infos h)) h) else throw Undefined.

Definition decrementRefcount (p : Z) : M unit :=
  b ← deref p;
  let info := sharedInfo b in
  if info =? 0 then mret tt else
  s ← info_at info;
  _ ← modify (fun h => set_infos (<[info := mk_shared_info (freeFn s) (userData s)
                                     (u32 (refcount s - 1)) (host s)]> (infos h)) h);
  if 1 <? refcount s then mret tt else
  _ ← freeExtBuffer p;
  if Z.land (flags b) kFlagFreeSharedInfo =? 0 then mret tt else delete_info info.

(** ** Room *)

Definition headroom (b : iobuf) : Z := u64 (off (data_ b) - off (buf_ b)).
Definition tail (b : iobuf) : ptr := padd (data_ b) (length_ b).
Definition bufferEnd (b : iobuf) : ptr := padd (buf_ b) (capacity_ b).
Definition tailroom (b : iobuf) : Z := u64 (off (bufferEnd b) - off (tail b)).

Definition advance (p amount : Z) : M unit :=
  b ← deref p;
  _ ← assert_ (amount <=? tailroom b);
  _ ← (if 0 <? length_ b then memmove (padd (data_ b) amount) (data_ b) (length_ b) else mret tt);
  assign p (with_view (padd (data_ b) amount) (length_ b)).

Definition retreat (p amount : Z) : M unit :=
  b ← deref p;
  _ ← assert_ (amount <=? headroom b);
  _ ← (if 0 <? length_ b then memmove (padd (data_ b) (- amount)) (data_ b) (length_ b) else mret tt);
  assign p (with_view (padd (data_ b) (- amount)) (length_ b)).

Definition prepend (p amount : Z) : M unit :=
  b ← deref p;
  _ ← assert_ (amount <=? headroom b);
  assign p (with_view (padd (data_ b) (- amount)) (u64 (length_ b + amount))).

Definition append (p amount : Z) : M unit :=
  b ← deref p;
  _ ← assert_ (amount <=? tailroom b);
  assign p (with_view (data_ b) (u64 (length_ b + amount))).

Definition trimStart (p amount : Z) : M unit :=
  b ← deref p;
  _ ← assert_ (amount <=? length_ b);
  assign p (with_view (padd (data_ b) amount) (u64 (length_ b - amount))).

Definition trimEnd (p amount : Z) : M unit :=
  b ← deref p;
  _ ← assert_ (amount <=? length_ b);
  assign p (with_view (data_ b) (u64 (length_ b - amount))).

Definition clear (p : Z) : M unit := assign p (fun b => with_view (buf_ b) 0 b).

(** ** Construction *)

(** IOBuf(InternalConstructor, ...) at the address [p]. *)
Definition construct (p : Z) (word : Z) (buf : ptr) (capacity : Z) (data : ptr) (length : Z)
    : M unit :=
  _ ← assert_ (off buf <=? off data);
  _ ← assert_ (off data + length <=? off buf + capacity);
  put p (mk_iobuf p p data buf length capacity word).

(** IOBuf() at the address [p]. *)
Definition construct_empty (p : Z) : M unit := put p (mk_iobuf p p nullptr nullptr 0 0 0).

Definition createCombined (capacity : Z) : M Z :=
  let mallocSize := u64 (offsetof_align + capacity) in
  p ← fresh;
  r ← malloc mallocSize (mallocSize - offsetof_align);
  match r with
  | None => throw Undefined                 (* the null pointer is not checked *)
  | Some a =>
      i ← fresh;
      _ ← modify (fun h => set_stores
            (<[p := mk_heap_storage kHeapMagic (Z.lor kIOBufInUse kDataInUse) a]> (stores h)) h);
      _ ← modify (fun h => set_infos (<[i := mk_shared_info FreeInternal p 1 a]> (infos h)) h);
      _ ← construct p (packFlagsAndSharedInfo 0 i) (mk_ptr a 0) (mallocSize - offsetof_align)
            (mk_ptr a 0) 0;
      mret p
  end.

(** IOBuf(CREATE, capacity) made by new. *)
Definition createSeparate (capacity : Z) : M Z :=
  p ← operator_new;
  '(a, i, c) ← allocExtBuffer capacity;
  _ ← put p (mk_iobuf p p (mk_ptr a 0) (mk_ptr a 0) 0 c i);
  mret p.

Definition create (capacity : Z) : M Z :=
  if capacity <=? kDefaultCombinedBufSize then createCombined capacity
  else createSeparate capacity.

(** takeOwnership with a free function that cannot fail: the buffer becomes the
    new object's. *)
Definition takeOwnership (buf : ptr) (capacity length : Z) (fn : free_fn) (user : Z) : M Z :=
  p ← operator_new;
  i ← fresh;
  _ ← modify (fun h => set_infos (<[i := mk_shared_info fn user 1 0]> (infos h)) h);
  _ ← put p (mk_iobuf p p buf buf length capacity
               (packFlagsAndSharedInfo kFlagFreeSharedInfo i));
  mret p.

Definition wrapBuffer (buf : ptr) (capacity : Z) : M Z :=
  p ← operator_new;
  _ ← construct p 0 buf capacity buf capacity;
  mret p.

Definition copyBuffer (bs : list Z) (headroom minTailroom : Z) : M Z :=
  let size := Z.of_nat (length bs) in
  p ← create (u64 (headroom + size + minTailroom));
  _ ← advance p headroom;
  b ← deref p;
  _ ← store (data_ b) bs;
  _ ← append p size;
  mret p.

Definition maybeCopyBuffer (bs : list Z) (headroom minTailroom : Z) : M Z :=
  match bs with [] => mret 0 | _ => copyBuffer bs headroom minTailroom end.

(** ** Chains *)

Definition isChained (p : Z) : M bool :=
  b ← deref p;
  _ ← assert_ (Bool.eqb (next_ b =? p) (prev_ b =? p));
  mret (negb (next_ b =? p)).

Definition prependChain (this other : Z) : M unit :=
  o ← deref other;
  let otherTail := prev_ o in
  b ← deref this;
  _ ← assign (prev_ b) (with_next other);
  _ ← assign other (with_prev (prev_ b));
  _ ← assign otherTail (with_next this);
  assign this (with_prev otherTail).

Definition appendChain (this other : Z) : M unit :=
  b ← deref this; prependChain (next_ b) other.

Definition unlink (p : Z) : M unit :=
  b ← deref p;
  _ ← assign (next_ b) (with_prev (prev_ b));
  b ← deref p;
  _ ← assign (prev_ b) (with_next (next_ b));
  assign p (with_links p p).

(** Gives the next element, or null when there is none. *)
Definition pop (p : Z) : M Z :=
  b ← deref p;
  let next := next_ b in
  _ ← unlink p;
  mret (if next =? p then 0 else next).

Definition separateChain (this head tail : Z) : M Z :=
  _ ← assert_ (negb (head =? this));
  _ ← assert_ (negb (tail =? this));
  hd ← deref head;
  tl ← deref tail;
  _ ← assign (prev_ hd) (with_next (next_ tl));
  hd ← deref head;
  tl ← deref tail;
  _ ← assign (next_ tl) (with_prev (prev_ hd));
  _ ← assign head (with_prev tail);
  _ ← assign tail (with_next head);
  mret head.

(** Every walk round a chain ends within as many steps as there are objects. *)
Definition chain_fuel : M nat := gets (fun h => S (size (bufs h))).

(** for (current = next_; current != end; current = current->next_) with an
    accumulator. *)
Fixpoint walk {A} (fuel : nat) (f : A → Z → iobuf → M A) (acc : A) (current stop : Z) : M A :=
  match fuel with
  | O => throw OutOfFuel
  | S fuel =>
      if current =? stop then mret acc else
      b ← deref current;
      acc ← f acc current b;
      b ← deref current;
      walk fuel f acc (next_ b) stop
  end.

Definition countChainElements (p : Z) : M Z :=
  b ← deref p; n ← chain_fuel;
  walk n (fun k _ _ => mret (u64 (k + 1))) 1 (next_ b) p.

Definition computeChainDataLength (p : Z) : M Z :=
  b ← deref p; n ← chain_fuel;
  walk n (fun k _ c => mret (u64 (k + length_ c))) (length_ b) (next_ b) p.

(** do ... while (current != this), stopping at the first non-empty element. *)
Fixpoint empty_loop (fuel : nat) (current this : Z) : M bool :=
  match fuel with
  | O => throw OutOfFuel
  | S fuel =>
      b ← deref current;
      if negb (length_ b =? 0) then mret false else
      if next_ b =? this then mret true else empty_loop fuel (next_ b) this
  end.
Definition empty (p : Z) : M bool := n ← chain_fuel; empty_loop n p p.

(** ** Destruction *)

(** ~IOBuf of an object that is alone, then [delete]. *)
Definition delete_one (p : Z) : M unit :=
  _ ← decrementRefcount p;
  _ ← modify (fun h => set_bufs (delete p (bufs h)) h);
  operator_delete p.

(** while (next_ != this) next_->unlink(), which deletes it. *)
Fixpoint delete_rest (fuel : nat) (p : Z) : M unit :=
  match fuel with
  | O => throw OutOfFuel
  | S fuel =>
      b ← deref p;
      if next_ b =? p then mret tt else
      let q := next_ b in
      _ ← unlink q;
      _ ← delete_one q;
      delete_rest fuel p
  end.

(** The destruction of the head of a chain that was made by new. *)
Definition destroy (p : Z) : M unit :=
  n ← chain_fuel; _ ← delete_rest n p; delete_one p.

(** ~IOBuf of a local object. *)
Definition destroy_local (p : Z) : M unit :=
  n ← chain_fuel; _ ← delete_rest n p; _ ← decrementRefcount p;
  modify (fun h => set_bufs (delete p (bufs h)) h).

(** operator=(IOBuf&&). *)
Definition move_assign (this other : Z) : M unit :=
  if this =? other then mret tt else
  n ← chain_fuel;
  _ ← delete_rest n this;
  _ ← decrementRefcount this;
  o ← deref other;
  _ ← assign this (with_buffer (data_ o) (buf_ o) (length_ o) (capacity_ o) (flagsAndSharedInfo_ o));
  _ ← assign other (with_buffer nullptr nullptr 0 0 0);
  o ← deref other;
  _ ← (if next_ o =? other then mret tt else
       _ ← assign this (with_next (next_ o));
       _ ← assign (next_ o) (with_prev this);
       _ ← assign other (with_next other);
       o ← deref other;
       _ ← assign this (with_prev (prev_ o));
       _ ← assign (prev_ o) (with_next this);
       assign other (with_prev other));
  o ← deref other;
  _ ← assert_ (prev_ o =? other);
  assert_ (next_ o =? other).

(** ** Sharing *)

(** const methods set and clear the flag too. *)
Definition isSharedOne (p : Z) : M bool :=
  b ← deref p;
  if sharedInfo b =? 0 then mret true else
  if Z.land (flags b) kFlagMaybeShared =? 0 then mret false else
  s ← info_at (sharedInfo b);
  if 1 <? refcount s then mret true
  else _ ← assign p (clearFlags kFlagMaybeShared); mret false.

Definition isManagedOne (p : Z) : M bool := b ← deref p; mret (negb (sharedInfo b =? 0)).

Fixpoint isShared_loop (fuel : nat) (current this : Z) : M bool :=
  match fuel with
  | O => throw OutOfFuel
  | S fuel =>
      r ← isSharedOne current;
      if r : bool then mret true else
      b ← deref current;
      if next_ b =? this then mret false else isShared_loop fuel (next_ b) this
  end.
Definition isShared (p : Z) : M bool := n ← chain_fuel; isShared_loop n p p.

Fixpoint isManaged_loop (fuel : nat) (current this : Z) : M bool :=
  match fuel with
  | O => throw OutOfFuel
  | S fuel =>
      r ← isManagedOne current;
      if negb r then mret false else
      b ← deref current;
      if next_ b =? this then mret true else isManaged_loop fuel (next_ b) this
  end.
Definition isManaged (p : Z) : M bool := n ← chain_fuel; isManaged_loop n p p.

(** other = IOBuf(InternalConstructor(), ...): a temporary is moved. *)
Definition cloneOneInto (p other : Z) : M unit :=
  b ← deref p;
  let info := sharedInfo b in
  _ ← (if info =? 0 then mret tt else assign p (setFlags kFlagMaybeShared));
  b ← deref p;
  tmp ← fresh;
  _ ← construct tmp (flagsAndSharedInfo_ b) (buf_ b) (capacity_ b) (data_ b) (length_ b);
  _ ← move_assign other tmp;
  _ ← destroy_local tmp;
  if info =? 0 then mret tt else
  s ← info_at info;
  modify (fun h => set_infos (<[info := mk_shared_info (freeFn s) (userData s)
                                 (u32 (refcount s + 1)) (host s)]> (infos h)) h).

Definition cloneOne (p : Z) : M Z :=
  q ← operator_new;
  _ ← construct_empty q;
  _ ← cloneOneInto p q;
  mret q.

(** cloneInto: the copies are chained to a local object, which is moved. *)
Definition cloneInto (p other : Z) : M unit :=
  tmp ← fresh;
  _ ← construct_empty tmp;
  _ ← cloneOneInto p tmp;
  b ← deref p; n ← chain_fuel;
  _ ← walk n (fun _ current _ => q ← cloneOne current; prependChain tmp q) tt (next_ b) p;
  _ ← move_assign other tmp;
  destroy_local tmp.

Definition clone (p : Z) : M Z :=
  q ← operator_new;
  _ ← construct_empty q;
  _ ← cloneInto p q;
  mret q.

(** ** Own copies *)

Definition unshareOneSlow (p : Z) : M unit :=
  b ← deref p;
  '(a, i, _) ← allocExtBuffer (capacity_ b);
  let headlen := headroom b in
  _ ← memmove (mk_ptr a headlen) (data_ b) (length_ b);
  _ ← decrementRefcount p;
  assign p (with_buffer (mk_ptr a headlen) (mk_ptr a 0) (length_ b) (capacity_ b)
              (packFlagsAndSharedInfo 0 i)).

Definition unshareOne (p : Z) : M unit :=
  r ← isSharedOne p; if r : bool then unshareOneSlow p else mret tt.

Definition makeManagedOne (p : Z) : M unit :=
  r ← isManagedOne p; if r : bool then mret tt else unshareOneSlow p.

(** The copying loop: do ... while (current != end). *)
Fixpoint copy_loop (fuel : nat) (dst : ptr) (remaining current stop : Z) : M (Z * Z) :=
  match fuel with
  | O => throw OutOfFuel
  | S fuel =>
      c ← deref current;
      _ ← assert_ (length_ c <=? remaining);
      let remaining := remaining - length_ c in
      _ ← memmove dst (data_ c) (length_ c);
      if next_ c =? stop then mret (remaining, next_ c)
      else copy_loop fuel (padd dst (length_ c)) remaining (next_ c) stop
  end.

Definition coalesceAndReallocate (this newHeadroom newLength stop newTailroom : Z) : M unit :=
  let newCapacity := u64 (newLength + newHeadroom + newTailroom) in
  '(a, i, actualCapacity) ← allocExtBuffer newCapacity;
  n ← chain_fuel;
  '(remaining, current) ← copy_loop n (mk_ptr a newHeadroom) newLength this stop;
  _ ← assert_ (remaining =? 0);
  _ ← decrementRefcount this;
  _ ← assign this (with_buffer (mk_ptr a newHeadroom) (mk_ptr a 0) newLength actualCapacity
                     (packFlagsAndSharedInfo 0 i));
  chained ← isChained this;
  if chained : bool then
    b ← deref this;
    c ← deref current;
    hd ← separateChain this (next_ b) (prev_ c);
    destroy hd
  else mret tt.

(** The overload that keeps the head room and the tail room of the chain. *)
Definition coalesceAndReallocate_keep (this newLength stop : Z) : M unit :=
  b ← deref this;
  e ← deref stop;
  l ← deref (prev_ e);
  coalesceAndReallocate this (headroom b) newLength stop (tailroom l).

Definition coalesceSlow (this : Z) : M unit :=
  chained ← isChained this;
  _ ← assert_ chained;
  newLength ← computeChainDataLength this;
  _ ← coalesceAndReallocate_keep this newLength this;
  chained ← isChained this;
  assert_ (negb chained).

(** The first elements whose lengths make up [maxLength], and the element after
    them. *)
Fixpoint gather_loop (fuel : nat) (newLength current this maxLength : Z) : M (Z * Z) :=
  match fuel with
  | O => throw OutOfFuel
  | S fuel =>
      c ← deref current;
      let newLength := u64 (newLength + length_ c) in
      if maxLength <=? newLength then mret (newLength, next_ c) else
      if next_ c =? this then throw (Thrown "overflow_error")
      else gather_loop fuel newLength (next_ c) this maxLength
  end.

Definition coalesceSlow_max (this maxLength : Z) : M unit :=
  chained ← isChained this;
  _ ← assert_ chained;
  b ← deref this;
  _ ← assert_ (length_ b <? maxLength);
  n ← chain_fuel;
  '(newLength, stop) ← gather_loop n 0 this this maxLength;
  _ ← coalesceAndReallocate_keep this newLength stop;
  b ← deref this;
  assert_ (maxLength <=? length_ b).

Definition coalesce (this : Z) : M (ptr * Z) :=
  chained ← isChained this;
  _ ← (if chained : bool then coalesceSlow this else mret tt);
  b ← deref this;
  mret (data_ b, length_ b).

Definition gather (this maxLength : Z) : M unit :=
  chained ← isChained this;
  b ← deref this;
  if negb chained || (maxLength <=? length_ b) then mret tt
  else coalesceSlow_max this maxLength.

Fixpoint unshareChained_loop (fuel : nat) (current this : Z) : M bool :=
  match fuel with
  | O => throw OutOfFuel
  | S fuel =>
      r ← isSharedOne current;
      if r : bool then mret true else
      b ← deref current;
      if next_ b =? this then mret false else unshareChained_loop fuel (next_ b) this
  end.
Definition unshareChained (this : Z) : M unit :=
  chained ← isChained this;
  _ ← assert_ chained;
  n ← chain_fuel;
  r ← unshareChained_loop n this this;
  if r : bool then coalesceSlow this else mret tt.

Definition unshare (this : Z) : M unit :=
  chained ← isChained this;
  if chained : bool then unshareChained this else unshareOne this.

Definition makeManagedChained (this : Z) : M unit :=
  chained ← isChained this;
  _ ← assert_ chained;
  _ ← makeManagedOne this;
  b ← deref this;
  n ← chain_fuel;
  walk n (fun _ current _ => makeManagedOne current) tt (next_ b) this.

Definition makeManaged (this : Z) : M unit :=
  chained ← isChained this;
  if chained : bool then makeManagedChained this else makeManagedOne this.

(** ** Growing *)

(** realloc(buf_, size) of the block of [p]: the contents are kept. *)
Definition realloc (p : ptr) (size n : Z) : M (option Z) :=
  h ← get;
  old ← lift (of_option Undefined (mem h !! blk p));
  if negb (off p =? 0) then throw Undefined else
  r ← malloc size n;
  match r with
  | None => mret None
  | Some a =>
      _ ← modify (fun h => set_mem (<[a := take (Z.to_nat n) old ++
                    drop (length old) (uninit a <$> seqZ 0 n)]> (mem h)) h);
      _ ← free p;
      mret (Some a)
  end.

Definition reserveSlow (p minHeadroom minTailroom : Z) : M unit :=
  b ← deref p;
  let newCapacity := u64 (length_ b + minHeadroom + minTailroom) in
  _ ← assert_ (newCapacity <? 2 ^ 32 - 1);
  sh ← isSharedOne p;
  _ ← assert_ (negb sh);
  b ← deref p;
  if u64 (minHeadroom + minTailroom) <=? u64 (headroom b + tailroom b) then
    let newData := padd (buf_ b) minHeadroom in
    _ ← memmove newData (data_ b) (length_ b);
    assign p (with_view newData (length_ b))
  else
  s ← info_at (sharedInfo b);
  let oldHeadroom := headroom b in
  let grow := bool_decide (freeFn s = FreeMalloc) && negb (length_ b =? 0)
              && (minHeadroom <=? oldHeadroom)
              && (u64 (u64 (capacity_ b - length_ b) * 2) <=? length_ b) in
  '(a, size, newHeadroom) ←
    (if grow then
       let size := goodExtBufferSize (u64 (newCapacity + (oldHeadroom - minHeadroom))) in
       r ← realloc (buf_ b) size (size - sizeof_SharedInfo);
       match r with
       | None => throw (Thrown "bad_alloc")
       | Some a => mret (a, size, oldHeadroom)
       end
     else
       let size := goodExtBufferSize newCapacity in
       r ← malloc size (size - sizeof_SharedInfo);
       match r with
       | None => throw (Thrown "bad_alloc")
       | Some a =>
           _ ← memmove (mk_ptr a minHeadroom) (data_ b) (length_ b);
           _ ← freeExtBuffer p;
           mret (a, size, minHeadroom)
       end);
  '(i, cap) ← initExtBuffer a size;
  _ ← (if Z.land (flags b) kFlagFreeSharedInfo =? 0 then mret tt
       else delete_info (sharedInfo b));
  assign p (with_buffer (mk_ptr a newHeadroom) (mk_ptr a 0) (length_ b) cap
              (packFlagsAndSharedInfo 0 i)).

Definition reserve (p minHeadroom minTailroom : Z) : M unit :=
  b ← deref p;
  if (minHeadroom <=? headroom b) && (minTailroom <=? tailroom b) then mret tt else
  if (length_ b =? 0) && (u64 (minHeadroom + minTailroom) <=? u64 (headroom b + tailroom b))
  then assign p (with_view (padd (buf_ b) minHeadroom) 0)
  else reserveSlow p minHeadroom minTailroom.

(** createChain: the loop adds buffers until the capacity is reached. *)
Fixpoint createChain_loop (fuel : nat) (out allocated total maxBuf : Z) : M unit :=
  match fuel with
  | O => throw OutOfFuel
  | S fuel =>
      if total <=? allocated then mret tt else
      q ← create (Z.min (total - allocated) maxBuf);
      b ← deref q;
      _ ← prependChain out q;
      createChain_loop fuel out (u64 (allocated + capacity_ b)) total maxBuf
  end.
Definition createChain (totalCapacity maxBufCapacity : Z) : M Z :=
  out ← create (Z.min totalCapacity maxBufCapacity);
  b ← deref out;
  _ ← createChain_loop (S (Z.to_nat totalCapacity)) out (capacity_ b) totalCapacity maxBufCapacity;
  mret out.

(** ** Reading out *)

Definition moveToString (p : Z) : M (list Z) :=
  b ← deref p;
  let i := sharedInfo b in
  take ← (if i =? 0 then mret true else
          s ← info_at i;
          if negb (bool_decide (freeFn s = FreeMalloc)) then mret true else
          if negb (headroom b =? 0) then mret true else
          if tailroom b =? 0 then mret true else
          r ← isShared p;
          if r : bool then mret true else isChained p);
  _ ← (if take : bool then
         n ← computeChainDataLength p;
         coalesceAndReallocate p 0 n p 1
       else mret tt);
  b ← deref p;
  _ ← store (tail b) [0];
  str ← load (data_ b) (length_ b);
  _ ← (if Z.land (flags b) kFlagFreeSharedInfo =? 0 then mret tt
       else delete_info (sharedInfo b));
  _ ← assign p (with_buffer (data_ b) nullptr (length_ b) (capacity_ b) 0);
  _ ← clear p;
  mret str.

(** appendToIov: the non-empty elements' data. *)
Fixpoint appendToIov_loop (fuel : nat) (iov : list (ptr * Z)) (current this : Z)
    : M (list (ptr * Z)) :=
  match fuel with
  | O => throw OutOfFuel
  | S fuel =>
      b ← deref current;
      let iov := if 0 <? length_ b then iov ++ [(data_ b, length_ b)] else iov in
      if next_ b =? this then mret iov else appendToIov_loop fuel iov (next_ b) this
  end.
Definition getIov (p : Z) : M (list (ptr * Z)) := n ← chain_fuel; appendToIov_loop n [] p p.

(** fillIov: at most [len] entries, and 0 when they do not suffice. *)
Fixpoint fillIov_loop (fuel : nat) (iov : list (ptr * Z)) (len current this : Z)
    : M (list (ptr * Z) * Z) :=
  match fuel with
  | O => throw OutOfFuel
  | S fuel =>
      if len <=? Z.of_nat (length iov) then mret (iov, 0) else
      b ← deref current;
      let iov := if 0 <? length_ b then iov ++ [(data_ b, length_ b)] else iov in
      if next_ b =? this then mret (iov, Z.of_nat (length iov))
      else fillIov_loop fuel iov len (next_ b) this
  end.
Definition fillIov (p len : Z) : M (list (ptr * Z) * Z) :=
  n ← chain_fuel; fillIov_loop n [] len p p.

End alloc.
End IOBuf.
