(* ===== verification/IOBufInv.v ===== *)
(** The invariant of the memory behind IOBuf objects, and the operations that
    take and give up references to it.

    The invariant is stated for a map [R] of the holders of a reference, which
    between two calls of the class are the live objects, and inside a call may
    lack the object that has just given up its reference or have one more for a
    buffer just allocated.  It says that each SharedInfo counts its holders,
    that two holders have the same block exactly when they have the same
    SharedInfo, that every block is there as long as it has a holder, and that
    each block is a holder's, a storage's or the user's. *)
From S2P Require Import Prelude IOBuf.
Import IOBuf.

(** An object without its links. *)
Definition strip (b : iobuf) : iobuf := with_links 0 0 b.
Definition holders (h : heap) : gmap Z iobuf := strip <$> bufs h.

Definition owns (i : Z) (kb : Z * iobuf) : Prop := sharedInfo kb.2 = i.
#[global] Instance owns_dec i kb : Decision (owns i kb) := decide (sharedInfo kb.2 = i).
Definition owners (R : gmap Z iobuf) (i : Z) : nat := size (filter (owns i) R).

(** The data lies in the buffer and the buffer in its block. *)
Record geo (m : gmap Z (list Z)) (b : iobuf) : Prop := {
  geo_len : 0 ≤ length_ b;
  geo_off : 0 ≤ off (buf_ b) ≤ off (data_ b);
  geo_end : off (data_ b) + length_ b ≤ off (buf_ b) + capacity_ b < 2 ^ 62;
  geo_blk : blk (data_ b) = blk (buf_ b);
  geo_mem : 0 < capacity_ b → ∃ l, m !! blk (buf_ b) = Some l ∧
              off (buf_ b) + capacity_ b ≤ Z.of_nat (length l)
}.

Definition data_in_use (st : heap_storage) : bool := Z.testbit (sflags st) 1.
Definition iobuf_in_use (st : heap_storage) : bool := Z.testbit (sflags st) 0.

#[global] Arguments data_in_use _ : simpl never.
#[global] Arguments iobuf_in_use _ : simpl never.

(** What SharedInfo [s] has to say for the holder [b]. *)
Definition backs (h : heap) (b : iobuf) (s : shared_info) : Prop :=
  (host s = 0 ∨ host s = blk (buf_ b)) ∧
  (Z.land (flags b) kFlagFreeSharedInfo = 0 ↔ host s ≠ 0) ∧
  match freeFn s with
  | FreeMalloc => off (buf_ b) = 0 ∧ is_Some (mem h !! blk (buf_ b))
  | FreeInternal => host s ≠ 0 ∧ ∃ st, stores h !! userData s = Some st ∧
      sblock st = blk (buf_ b) ∧ data_in_use st = true
  | FreeUser _ => host s = 0 ∧ blk (buf_ b) ≠ 0
  end.

(** A SharedInfo nobody refers to any more lies in a storage whose IOBuf lives on. *)
Definition dead (h : heap) (s : shared_info) : Prop :=
  freeFn s = FreeInternal ∧ host s ≠ 0 ∧
  ∃ st, stores h !! userData s = Some st ∧ sblock st = host s ∧ data_in_use st = false.

Record store_ok (R : gmap Z iobuf) (h : heap) (p : Z) (st : heap_storage) : Prop := {
  so_magic : magic st = kHeapMagic;
  so_flags : 0 < sflags st < 4;
  so_alone : sblock st = 0 → sflags st = 1;
  so_block : sblock st ≠ 0 → is_Some (mem h !! sblock st);
  so_data : data_in_use st = true → ∃ i s, infos h !! i = Some s ∧
              freeFn s = FreeInternal ∧ userData s = p ∧ 0 < refcount s;
  so_free : sblock st ≠ 0 → data_in_use st = false → ∀ k b, R !! k = Some b → blk (buf_ b) ≠ sblock st
}.

Record inv (U : gset Z) (R : gmap Z iobuf) (h : heap) : Prop := {
  i_brk : 0 < brk h ∧ brk h mod 8 = 0;
  i_key : ∀ k b, R !! k = Some b → k < brk h ∧ 0 ≤ blk (buf_ b) < brk h;
  i_mem : ∀ a l, mem h !! a = Some l → 0 < a < brk h;
  i_infos : ∀ i s, infos h !! i = Some s → 0 < i < brk h ∧ i mod 8 = 0;
  i_stores : ∀ p st, stores h !! p = Some st → p < brk h;
  i_geo : ∀ k b, R !! k = Some b → geo (mem h) b;
  i_backs : ∀ k b, R !! k = Some b → sharedInfo b ≠ 0 →
    ∃ s, infos h !! sharedInfo b = Some s ∧ backs h b s;
  i_same : ∀ j k b c, R !! j = Some b → R !! k = Some c → sharedInfo b ≠ 0 →
    sharedInfo b = sharedInfo c → buf_ b = buf_ c;
  i_diff : ∀ j k b c, R !! j = Some b → R !! k = Some c → sharedInfo b ≠ 0 →
    sharedInfo b ≠ sharedInfo c → blk (buf_ b) ≠ blk (buf_ c);
  i_count : ∀ i s, infos h !! i = Some s → refcount s = Z.of_nat (owners R i) ∧ refcount s < 2 ^ 32;
  i_dead : ∀ i s, infos h !! i = Some s → refcount s = 0 → dead h s;
  i_store : ∀ p st, stores h !! p = Some st → store_ok R h p st;
  i_sep : ∀ p q st st', stores h !! p = Some st → stores h !! q = Some st' →
    sblock st = sblock st' → sblock st ≠ 0 → p = q;
  i_leak : ∀ a l, mem h !! a = Some l → a ∈ U ∨
    (∃ k b s, R !! k = Some b ∧ sharedInfo b ≠ 0 ∧ infos h !! sharedInfo b = Some s ∧
              freeFn s = FreeMalloc ∧ blk (buf_ b) = a) ∨
    (∃ p st, stores h !! p = Some st ∧ sblock st = a);
  i_maybe : ∀ k b s, R !! k = Some b → sharedInfo b ≠ 0 → infos h !! sharedInfo b = Some s →
    1 < refcount s → Z.land (flags b) kFlagMaybeShared ≠ 0
}.

(** ** The packed word *)

Lemma land_mask_split w : Z.lor (Z.land w kFlagMask) (Z.land w (Z.lnot kFlagMask)) = w.
Proof.
  apply Z.bits_inj'. intros n Hn. rewrite Z.lor_spec, !Z.land_spec, Z.lnot_spec by done.
  by destruct (Z.testbit w n), (Z.testbit kFlagMask n).
Qed.

(** Bits of a multiple of 8 and of the mask. *)
Lemma mult8_low i n : i mod 8 = 0 → 0 ≤ n < 3 → Z.testbit i n = false.
Proof.
  intros Hi Hn. rewrite <-(Z.mod_pow2_bits_low i 3) by lia.
  change (2 ^ 3) with 8. by rewrite Hi, Z.bits_0.
Qed.

Lemma mask_bits n : 0 ≤ n → Z.testbit kFlagMask n = bool_decide (n < 2).
Proof.
  intros Hn. change kFlagMask with (Z.ones 2). destruct (decide (n < 2)) as [Hlt|Hge].
  - rewrite bool_decide_true by done. apply Z.ones_spec_low. lia.
  - rewrite bool_decide_false by done. apply Z.ones_spec_high. lia.
Qed.

Lemma pack_sharedInfo f i b :
  0 ≤ f < 4 → i mod 8 = 0 →
  flagsAndSharedInfo_ b = packFlagsAndSharedInfo f i → sharedInfo b = i ∧ flags b = f.
Proof.
  intros Hf Hi Hw. unfold sharedInfo, flags. rewrite Hw. unfold packFlagsAndSharedInfo.
  assert (∀ n, 2 ≤ n → Z.testbit f n = false) as Hfb.
  { intros n Hn. destruct (decide (f = 0)) as [->|Hne]; [apply Z.bits_0|].
    apply Z.bits_above_log2; [lia|]. assert (Z.log2 f < 2); [|lia].
    apply Z.log2_lt_pow2; lia. }
  split; apply Z.bits_inj'; intros n Hn;
    rewrite Z.land_spec, ?Z.lnot_spec, mask_bits, Z.lor_spec by done.
  - case_bool_decide; cbn.
    + rewrite (mult8_low i) by lia. by rewrite andb_false_r.
    + rewrite Hfb by lia. by rewrite andb_true_r.
  - case_bool_decide; cbn.
    + rewrite (mult8_low i) by lia. by rewrite orb_false_r, andb_true_r.
    + rewrite (Hfb n) by lia. by rewrite andb_false_r.
Qed.

Lemma setFlags_sharedInfo f b : 0 ≤ f < 4 → sharedInfo (setFlags f b) = sharedInfo b.
Proof.
  intros Hf. unfold sharedInfo, setFlags; cbn. rewrite Z.land_lor_distr_l.
  replace (Z.land f (Z.lnot kFlagMask)) with 0; [by rewrite Z.lor_0_r|].
  assert (f = 0 ∨ f = 1 ∨ f = 2 ∨ f = 3) as [->|[->|[->| ->]]] by lia; done.
Qed.

Lemma clearFlags_sharedInfo f b :
  0 ≤ f < 4 → sharedInfo (clearFlags f b) = sharedInfo b.
Proof.
  intros Hf. unfold sharedInfo, clearFlags; cbn. rewrite <-Z.land_assoc. f_equal.
  assert (f = 0 ∨ f = 1 ∨ f = 2 ∨ f = 3) as [->|[->|[->| ->]]] by lia; done.
Qed.

(** Setting or clearing the other flag leaves the ownership of the SharedInfo. *)
Lemma setFlags_free b :
  Z.land (flags (setFlags kFlagMaybeShared b)) kFlagFreeSharedInfo
  = Z.land (flags b) kFlagFreeSharedInfo.
Proof.
  unfold flags, setFlags; cbn [flagsAndSharedInfo_ with_word].
  rewrite !Z.land_lor_distr_l. cbn. by rewrite Z.lor_0_r.
Qed.
Lemma clearFlags_free b :
  Z.land (flags (clearFlags kFlagMaybeShared b)) kFlagFreeSharedInfo
  = Z.land (flags b) kFlagFreeSharedInfo.
Proof.
  unfold flags, clearFlags; cbn [flagsAndSharedInfo_ with_word].
  by rewrite <-!Z.land_assoc.
Qed.

(** ** Counting holders *)

Lemma owners_insert R k b i :
  R !! k = None →
  owners (<[k := b]> R) i = ((if decide (sharedInfo b = i) then 1 else 0) + owners R i)%nat.
Proof.
  intros Hk. unfold owners. rewrite map_filter_insert. unfold owns at 1; cbn.
  destruct (decide (sharedInfo b = i)).
  - rewrite map_size_insert_None; [done|]. apply map_lookup_filter_None. by left.
  - by rewrite delete_id.
Qed.

Lemma owners_delete R k b i :
  R !! k = Some b →
  owners R i = ((if decide (sharedInfo b = i) then 1 else 0) + owners (delete k R) i)%nat.
Proof.
  intros Hk. rewrite <-(insert_delete_id R k b Hk) at 1. apply owners_insert, lookup_delete_eq.
Qed.

Lemma owners_pos R i : (0 < owners R i)%nat → ∃ k b, R !! k = Some b ∧ sharedInfo b = i.
Proof.
  intros Hp. assert (filter (owns i) R ≠ ∅) as Hne.
  { intros He. unfold owners in Hp. rewrite He, map_size_empty in Hp. lia. }
  apply map_choose in Hne as (k & b & [Hk Ho]%map_lookup_filter_Some). eauto.
Qed.

Lemma owners_two R j k b c i :
  R !! j = Some b → R !! k = Some c → j ≠ k → sharedInfo b = i → sharedInfo c = i →
  (2 ≤ owners R i)%nat.
Proof.
  intros Hj Hk Hne Hb Hc. rewrite (owners_delete R j b i Hj), decide_True by done.
  rewrite (owners_delete (delete j R) k c i), decide_True by (done || by rewrite lookup_delete_ne).
  lia.
Qed.

(** A SharedInfo with references has a holder. *)
Lemma inv_holder U R h i s :
  inv U R h → infos h !! i = Some s → 0 < refcount s →
  ∃ k b, R !! k = Some b ∧ sharedInfo b = i ∧ backs h b s ∧ i ≠ 0.
Proof.
  intros Hi Hs Hr. destruct (i_count _ _ _ Hi _ _ Hs) as [Hc _].
  destruct (owners_pos R i) as (k & b & Hk & Hb); [lia|].
  pose proof (i_infos _ _ _ Hi _ _ Hs). exists k, b. split_and!; [done..| |lia].
  destruct (i_backs _ _ _ Hi k b Hk) as (s' & Hs' & Hbk); [lia|]. rewrite Hb in Hs'. by simplify_eq.
Qed.

(** Managed memory is not null. *)
Lemma managed_blk U R h k b : inv U R h → R !! k = Some b → sharedInfo b ≠ 0 → blk (buf_ b) ≠ 0.
Proof.
  intros Hi Hk Hn. destruct (i_backs _ _ _ Hi k b Hk Hn) as (s & _ & Hh & _ & B3).
  destruct (freeFn s).
  - destruct B3 as [_ [l Hl]]. pose proof (i_mem _ _ _ Hi _ _ Hl). lia.
  - destruct B3 as [? _]. destruct Hh; congruence.
  - apply B3.
Qed.

(** ** Giving up a reference *)

Definition heapobj (h : heap) (p : Z) : Prop :=
  ∃ st, stores h !! p = Some st ∧ iobuf_in_use st = true.

(** The blocks of the holders [R] are the same. *)
Definition same_blocks (R : gmap Z iobuf) (h h' : heap) : Prop :=
  ∀ k b, R !! k = Some b → mem h' !! blk (buf_ b) = mem h !! blk (buf_ b).

Definition with_refcount (n : Z) (s : shared_info) : shared_info :=
  mk_shared_info (freeFn s) (userData s) n (host s).

Definition same_info (s s' : shared_info) : Prop :=
  freeFn s' = freeFn s ∧ userData s' = userData s ∧ host s' = host s.

(** Going from [h] to [h'] holders and memory only disappear. *)
Record shrinks (R R' : gmap Z iobuf) (h h' : heap) : Prop := {
  sh_R : R' ⊆ R;
  sh_brk : brk h' = brk h;
  sh_mem : ∀ a l, mem h' !! a = Some l → mem h !! a = Some l;
  sh_infos : ∀ i s', infos h' !! i = Some s' → ∃ s, infos h !! i = Some s ∧ same_info s s' ∧
    refcount s' = Z.of_nat (owners R' i) ∧ refcount s' < 2 ^ 32 ∧ refcount s' ≤ refcount s;
  sh_stores : ∀ p st', stores h' !! p = Some st' → ∃ st, stores h !! p = Some st ∧
    sblock st' = sblock st;
  sh_blocks : same_blocks R' h h';
  sh_backs : ∀ k b, R' !! k = Some b → sharedInfo b ≠ 0 → is_Some (infos h' !! sharedInfo b);
  sh_internal : ∀ k b s, R' !! k = Some b → sharedInfo b ≠ 0 → infos h !! sharedInfo b = Some s →
    freeFn s = FreeInternal → ∀ st, stores h !! userData s = Some st → data_in_use st = true →
    ∃ st', stores h' !! userData s = Some st' ∧ sblock st' = sblock st ∧ data_in_use st' = true
}.

Lemma inv_shrink U R R' h h' :
  inv U R h → shrinks R R' h h' →
  (∀ i s', infos h' !! i = Some s' → refcount s' = 0 → dead h' s') →
  (∀ p st', stores h' !! p = Some st' → store_ok R' h' p st') →
  (∀ a l, mem h' !! a = Some l → a ∈ U ∨
    (∃ k b s, R' !! k = Some b ∧ sharedInfo b ≠ 0 ∧ infos h' !! sharedInfo b = Some s ∧
              freeFn s = FreeMalloc ∧ blk (buf_ b) = a) ∨
    (∃ p st, stores h' !! p = Some st ∧ sblock st = a)) →
  inv U R' h'.
Proof.
  intros Hi [HR Hb Hm Hinf Hst Hbl Hbk Hint] Hdead Hstore Hleak.
  assert (∀ k b, R' !! k = Some b → R !! k = Some b) as HR'.
  { intros k b Hk. by eapply lookup_weaken. }
  split; rewrite ?Hb; try assumption.
  - by eapply i_brk.
  - intros k b Hk. eapply i_key; eauto.
  - intros a l Ha. eapply i_mem; eauto.
  - intros i s Hs. destruct (Hinf i s Hs) as (s0 & ? & _). eapply i_infos; eauto.
  - intros p st Hp. destruct (Hst p st Hp) as (st0 & ? & _). eapply i_stores; eauto.
  - intros k b Hk. destruct (i_geo _ _ _ Hi k b (HR' _ _ Hk)) as [? ? ? ? Hg].
    split; [done..|]. rewrite (Hbl k b Hk). done.
  - intros k b Hk Hn. destruct (Hbk k b Hk Hn) as [s' Hs']. exists s'. split; [done|].
    destruct (Hinf _ _ Hs') as (s & Hs & (Hf & Hu & Hh) & _).
    destruct (i_backs _ _ _ Hi k b (HR' _ _ Hk) Hn) as (s1 & Hs1 & B1 & B2 & B3).
    assert (s1 = s) as -> by congruence.
    unfold backs. rewrite Hf, Hu, Hh, (Hbl k b Hk). split_and!; [done..|].
    destruct (freeFn s) eqn:E; [done| |done].
    destruct B3 as (? & st & Hst0 & Hsb & Hd).
    destruct (Hint k b s Hk Hn Hs E st Hst0 Hd) as (st' & ? & ? & ?). split; [done|].
    exists st'. split_and!; congruence.
  - intros j k b c Hj Hk. eapply i_same; eauto.
  - intros j k b c Hj Hk. eapply i_diff; eauto.
  - intros i s Hs. by destruct (Hinf i s Hs) as (s0 & _ & _ & ? & ? & _).
  - intros p q st st' Hp Hq Heq Hne.
    destruct (Hst p st Hp) as (st0 & Hp0 & Hb0), (Hst q st' Hq) as (st1 & Hq1 & Hb1).
    apply (i_sep _ _ _ Hi p q st0 st1); congruence.
  - intros k b s' Hk Hn Hs' Hr. destruct (Hinf _ _ Hs') as (s & Hs & _ & _ & _ & Hle).
    apply (i_maybe _ _ _ Hi k b s); [auto|done|done|lia].
Qed.

(** The SharedInfo in the block of a holder is that holder's. *)
Lemma inv_host U R h k b i s :
  inv U R h → R !! k = Some b → sharedInfo b ≠ 0 → infos h !! i = Some s →
  host s = blk (buf_ b) → host s ≠ 0 → i = sharedInfo b.
Proof.
  intros Hi Hk Hn Hs Hh H0. destruct (i_count _ _ _ Hi i s Hs) as [Hc _].
  destruct (decide (refcount s = 0)) as [Hz|Hz].
  - destruct (i_dead _ _ _ Hi i s Hs Hz) as (_ & _ & st & Hst & Hb & Hd).
    destruct (so_free _ _ _ _ (i_store _ _ _ Hi _ _ Hst)) with k b; congruence.
  - destruct (inv_holder _ _ _ _ _ Hi Hs) as (k' & c & Hk' & Hc' & Hbk & _); [lia|].
    destruct Hbk as ([?|Hbk] & _); [done|].
    destruct (decide (sharedInfo b = sharedInfo c)) as [|Hne]; [congruence|].
    destruct (i_diff _ _ _ Hi k k' b c Hk Hk' Hn Hne). congruence.
Qed.

Lemma owners_delete_ne R p b i :
  R !! p = Some b → sharedInfo b ≠ i → owners (delete p R) i = owners R i.
Proof. intros Hp Hne. by rewrite (owners_delete R p b i Hp), decide_False. Qed.

(** One holder fewer of a block that has others, or of a buffer without a
    SharedInfo. *)
Lemma inv_drop_unmanaged U R h p b :
  inv U R h → R !! p = Some b → sharedInfo b = 0 → inv U (delete p R) h.
Proof.
  intros Hi Hp Hb.
  assert (∀ k c, delete p R !! k = Some c → R !! k = Some c) as Hdel.
  { by intros k c [_ ?]%lookup_delete_Some. }
  eapply inv_shrink; [done|split; try done; eauto| | |].
  - apply delete_subseteq.
  - intros i s Hs. exists s. destruct (i_count _ _ _ Hi i s Hs) as [-> ?].
    rewrite (owners_delete_ne R p b i); [done..|]. pose proof (i_infos _ _ _ Hi _ _ Hs). lia.
  - intros k c Hk Hn. destruct (i_backs _ _ _ Hi k c (Hdel _ _ Hk) Hn) as (? & ? & _). eauto.
  - by eapply i_dead.
  - intros q st Hq. destruct (i_store _ _ _ Hi q st Hq). split; eauto.
  - intros a l Ha. destruct (i_leak _ _ _ Hi a l Ha) as [?|[(k & c & s & Hk & ? & ?)|?]]; eauto 10.
    right; left. exists k, c, s. split; [|done].
    apply lookup_delete_Some. split; [congruence|done].
Qed.

Lemma inv_drop_shared U R h p b s :
  inv U R h → R !! p = Some b → infos h !! sharedInfo b = Some s → 1 < refcount s →
  inv U (delete p R)
    (set_infos (<[sharedInfo b := with_refcount (refcount s - 1) s]> (infos h)) h).
Proof.
  intros Hi Hp Hs Hr. set (i := sharedInfo b) in *.
  destruct (i_count _ _ _ Hi i s Hs) as [Hc Hlt].
  rewrite (owners_delete R p b i Hp), decide_True in Hc by done.
  assert (∀ k c, delete p R !! k = Some c → R !! k = Some c) as Hdel.
  { by intros k c [_ ?]%lookup_delete_Some. }
  destruct (owners_pos (delete p R) i) as (k0 & c0 & Hk0 & Hc0); [lia|].
  pose proof (i_infos _ _ _ Hi _ _ Hs) as Hipos.
  eapply inv_shrink; [done|split; try done; cbn; eauto| | |]; cbn.
  - apply delete_subseteq.
  - intros j s' [[<- <-]|[Hne Hj]]%lookup_insert_Some.
    + exists s. split_and!; cbn; (done || lia).
    + exists s'. destruct (i_count _ _ _ Hi j s' Hj) as [-> ?].
      by rewrite (owners_delete_ne R p b j).
  - intros k c Hk Hn. rewrite lookup_insert_is_Some'. right.
    destruct (i_backs _ _ _ Hi k c (Hdel _ _ Hk) Hn) as (? & ? & _). eauto.
  - intros j s' [[<- <-]|[Hne Hj]]%lookup_insert_Some Hz; cbn in *; [lia|].
    by apply (i_dead _ _ _ Hi j s').
  - intros q st Hq. destruct (i_store _ _ _ Hi q st Hq) as [? ? ? ? Hd ?]. split; cbn; eauto.
    intros Hu. destruct (Hd Hu) as (j & s' & Hj & ? & ? & ?).
    destruct (decide (j = i)) as [->|Hne].
    + exists i, (with_refcount (refcount s - 1) s). rewrite lookup_insert_eq. simplify_eq.
      split_and!; [done..|cbn; lia].
    + exists j, s'. by rewrite lookup_insert_ne.
  - intros a l Ha. destruct (i_leak _ _ _ Hi a l Ha) as [?|[(k & c & s' & Hk & ? & Hs' & ? & ?)|?]]; eauto 10.
    right; left. destruct (decide (sharedInfo c = i)) as [Hci|Hci].
    + exists k0, c0, (with_refcount (refcount s - 1) s). rewrite Hc0, lookup_insert_eq.
      rewrite Hci in Hs'. simplify_eq. split_and!; [done|lia|done|done|].
      f_equal. apply (i_same _ _ _ Hi k0 k); [eauto..|lia|lia].
    + exists k, c, s'. rewrite lookup_insert_ne by done. split_and!; [|done..].
      apply lookup_delete_Some. split; [|done]. intros <-. subst i. congruence.
Qed.

(** *** The last holder *)

Section last.
Context (U : gset Z) (R : gmap Z iobuf) (h : heap) (p : Z) (b : iobuf) (s : shared_info).
Hypothesis Hi : inv U R h.
Hypothesis Hp : R !! p = Some b.
Hypothesis Hn : sharedInfo b ≠ 0.
Hypothesis Hs : infos h !! sharedInfo b = Some s.
Hypothesis Hr : refcount s = 1.
Local Notation i := (sharedInfo b).
Local Notation a := (blk (buf_ b)).

Lemma last_backs : backs h b s.
Proof. destruct (i_backs _ _ _ Hi p b Hp Hn) as (s' & ? & ?). by simplify_eq. Qed.

Lemma last_others k c : delete p R !! k = Some c → R !! k = Some c ∧ sharedInfo c ≠ i ∧ blk (buf_ c) ≠ a.
Proof.
  intros [Hne Hk]%lookup_delete_Some.
  destruct (i_count _ _ _ Hi _ _ Hs) as [Hc _].
  assert (sharedInfo c ≠ i) as Hci.
  { intros Hci. pose proof (owners_two R p k b c i Hp Hk Hne eq_refl Hci). lia. }
  split_and!; [done..|]. apply not_eq_sym. by apply (i_diff _ _ _ Hi p k b c).
Qed.

(** What remains after the SharedInfo of [b] is gone. *)
Lemma last_shrinks h' :
  brk h' = brk h → infos h' = delete i (infos h) →
  (mem h' = mem h ∨ mem h' = delete a (mem h)) →
  (∀ q, stores h' !! q = stores h !! q ∨
     stores h' !! q = None ∧ ∃ st, stores h !! q = Some st ∧ sblock st = a) →
  shrinks R (delete p R) h h'.
Proof.
  intros Hb Hinf Hm Hst. split; try done.
  - apply delete_subseteq.
  - destruct Hm as [-> | ->]; [done|]. by intros ?? [_ ?]%lookup_delete_Some.
  - rewrite Hinf. intros j s' [Hne Hj]%lookup_delete_Some. exists s'.
    destruct (i_count _ _ _ Hi j s' Hj) as [-> ?]. by rewrite (owners_delete_ne R p b j).
  - intros q st' Hq. destruct (Hst q) as [E|[E _]]; rewrite E in Hq; [eauto|done].
  - intros k c Hk. destruct (last_others k c Hk) as (_ & _ & Hne).
    destruct Hm as [-> | ->]; [done|]. by rewrite lookup_delete_ne.
  - intros k c Hk Hcn. destruct (last_others k c Hk) as (Hk' & Hci & _). rewrite Hinf.
    rewrite lookup_delete_ne by done.
    destruct (i_backs _ _ _ Hi k c Hk' Hcn) as (s' & ? & _). eauto.
  - intros k c s' Hk Hcn Hs' Hf st0 Hst0 Hd0.
    destruct (Hst (userData s')) as [E|(_ & st & Hst1 & Hsb)]; [exists st0; by rewrite E|].
    destruct (last_others k c Hk) as (Hk' & _ & Hne).
    destruct (i_backs _ _ _ Hi k c Hk' Hcn) as (s2 & Hs2 & _ & _ & Hb3).
    assert (s2 = s') as -> by congruence. rewrite Hf in Hb3.
    destruct Hb3 as (_ & st2 & ? & ? & _). simplify_eq. congruence.
Qed.

(** A block given to free(3) belongs to no storage. *)
Lemma last_not_stored q st : freeFn s = FreeMalloc → stores h !! q = Some st → sblock st ≠ a.
Proof.
  intros Hf Hq Ha. destruct last_backs as (_ & _ & Hb3). rewrite Hf in Hb3.
  destruct Hb3 as [_ [l Hl]]. pose proof (i_mem _ _ _ Hi a l Hl) as Hpos.
  destruct (i_store _ _ _ Hi q st Hq) as [_ _ _ _ Hd Hfr].
  destruct (data_in_use st) eqn:E; [|by apply (Hfr ltac:(lia) eq_refl p b)].
  destruct (Hd eq_refl) as (j & s' & Hj & Hf' & Hu & Hr').
  destruct (inv_holder _ _ _ _ _ Hi Hj Hr') as (k & c & Hk & Hcj & (_ & _ & Hbc) & _).
  rewrite Hf' in Hbc. destruct Hbc as (_ & st' & Hst' & Hsb & _). simplify_eq.
  destruct (i_diff _ _ _ Hi p k b c Hp Hk Hn); [|congruence].
  intros E'. rewrite <-E', Hs in Hj. simplify_eq. congruence.
Qed.

Lemma inv_drop_malloc :
  freeFn s = FreeMalloc →
  inv U (delete p R) (set_infos (delete i (infos h)) (set_mem (delete a (mem h)) h)).
Proof.
  intros Hf. eapply inv_shrink; [done|apply last_shrinks; cbn; auto| | |]; cbn.
  - intros j s' [Hne Hj]%lookup_delete_Some. by apply (i_dead _ _ _ Hi j).
  - intros q st Hq. pose proof (last_not_stored q st Hf Hq) as Hna.
    destruct (i_store _ _ _ Hi q st Hq) as [? ? ? Hbl Hd Hfr]. split; cbn; try done.
    + rewrite lookup_delete_ne by done. done.
    + intros Hu. destruct (Hd Hu) as (j & s' & Hj & Hf' & ?). exists j, s'.
      rewrite lookup_delete_ne; [done|]. intros <-. rewrite Hs in Hj. simplify_eq. congruence.
    + intros Hz Hu k c [_ Hk]%lookup_delete_Some. by eapply Hfr.
  - intros a' l [Hne Ha]%lookup_delete_Some.
    destruct (i_leak _ _ _ Hi a' l Ha) as [?|[(k & c & s' & Hk & Hcn & Hs' & Hf' & <-)|?]]; auto.
    right; left. assert (p ≠ k) as Hpk by congruence.
    exists k, c, s'. assert (delete p R !! k = Some c) as Hdk by (by rewrite lookup_delete_ne).
    destruct (last_others k c Hdk) as (_ & Hci & _). by rewrite (lookup_delete_ne (infos h)).
Qed.

Lemma inv_drop_user x f :
  freeFn s = FreeUser f →
  inv U (delete p R) (set_infos (delete i (infos h)) (set_freed x h)).
Proof.
  intros Hf. eapply inv_shrink; [done|apply last_shrinks; cbn; auto| | |]; cbn.
  - intros j s' [Hne Hj]%lookup_delete_Some. by apply (i_dead _ _ _ Hi j).
  - intros q st Hq. destruct (i_store _ _ _ Hi q st Hq) as [? ? ? Hbl Hd Hfr]. split; cbn; try done.
    + intros Hu. destruct (Hd Hu) as (j & s' & Hj & Hf' & ?). exists j, s'.
      rewrite lookup_delete_ne; [done|]. intros <-. rewrite Hs in Hj. simplify_eq. congruence.
    + intros Hz Hu k c [_ Hk]%lookup_delete_Some. by eapply Hfr.
  - intros a' l Ha.
    destruct (i_leak _ _ _ Hi a' l Ha) as [?|[(k & c & s' & Hk & Hcn & Hs' & Hf' & <-)|?]]; auto.
    right; left. assert (p ≠ k) as Hpk.
    { intros <-. assert (c = b) as -> by congruence. rewrite Hs in Hs'. simplify_eq. congruence. }
    exists k, c, s'. assert (delete p R !! k = Some c) as Hdk by (by rewrite lookup_delete_ne).
    destruct (last_others k c Hdk) as (_ & Hci & _). by rewrite (lookup_delete_ne (infos h)).
Qed.

Context (st : heap_storage).
Hypothesis Hf : freeFn s = FreeInternal.
Hypothesis Hst : stores h !! userData s = Some st.

Lemma last_storage : sblock st = a ∧ data_in_use st = true ∧ host s = a ∧ a ≠ 0.
Proof.
  destruct last_backs as (Hh & _ & Hb3). rewrite Hf in Hb3.
  destruct Hb3 as (Hh0 & st' & ? & ? & ?). simplify_eq. destruct Hh; [done|].
  split_and!; [done..|congruence].
Qed.

(** Another storage is not touched by this one. *)
Lemma last_other_storage q st' :
  stores h !! q = Some st' → q ≠ userData s → sblock st' ≠ a.
Proof.
  destruct last_storage as (Hsb & _ & _ & Ha). intros Hq Hne Heq.
  apply Hne. apply (i_sep _ _ _ Hi q (userData s) st' st); congruence.
Qed.

Lemma inv_drop_storage_free :
  inv U (delete p R)
    (set_stores (delete (userData s) (stores h))
       (set_infos (delete i (infos h)) (set_mem (delete a (mem h)) h))).
Proof.
  destruct last_storage as (Hsb & Hd & Hh & Ha).
  eapply inv_shrink; [done|apply last_shrinks; cbn; auto| | |]; cbn.
  - intros q. destruct (decide (q = userData s)) as [->|Hne].
    + right. rewrite lookup_delete_eq. eauto.
    + left. by rewrite lookup_delete_ne.
  - intros j s' [Hne Hj]%lookup_delete_Some Hz.
    destruct (i_dead _ _ _ Hi j s' Hj Hz) as (? & ? & st' & Hst' & ? & Hd').
    split_and!; [done..|]. exists st'. cbn. rewrite lookup_delete_ne; [done|].
    intros E. rewrite E in Hst. simplify_eq. congruence.
  - intros q st' [Hq Hqs]%lookup_delete_Some.
    pose proof (last_other_storage q st' Hqs (not_eq_sym Hq)) as Hna.
    destruct (i_store _ _ _ Hi q st' Hqs) as [? ? ? Hbl Hd' Hfr]. split; cbn; try done.
    + by rewrite lookup_delete_ne.
    + intros Hu. destruct (Hd' Hu) as (j & s' & Hj & Hf' & Hus & ?). exists j, s'.
      rewrite lookup_delete_ne; [done|]. intros <-. rewrite Hs in Hj. simplify_eq.
    + intros Hz Hu k c [_ Hk]%lookup_delete_Some. by eapply Hfr.
  - intros a' l [Hne Ha']%lookup_delete_Some.
    destruct (i_leak _ _ _ Hi a' l Ha') as [?|[(k & c & s' & Hk & Hcn & Hs' & Hf' & <-)|(q & st' & Hq & <-)]]; auto.
    + right; left. assert (p ≠ k) as Hpk by congruence.
      exists k, c, s'. assert (delete p R !! k = Some c) as Hdk by (by rewrite lookup_delete_ne).
      destruct (last_others k c Hdk) as (_ & Hci & _). by rewrite (lookup_delete_ne (infos h)).
    + right; right. exists q, st'. rewrite lookup_delete_ne; [done|]. intros <-. congruence.
Qed.

Lemma inv_drop_storage_keep :
  sflags st = 3 →
  inv U (delete p R)
    (set_stores (<[userData s := mk_heap_storage (magic st) 1 (sblock st)]> (stores h))
       (set_infos (<[i := with_refcount 0 s]> (infos h)) h)).
Proof.
  intros Hfl. destruct last_storage as (Hsb & Hd & Hh & Ha).
  destruct (i_count _ _ _ Hi _ _ Hs) as [Hc Hlt].
  rewrite (owners_delete R p b i Hp), decide_True in Hc by done.
  eapply inv_shrink; [done|split; try done; cbn| | |]; cbn.
  - apply delete_subseteq.
  - intros j s' [[<- <-]|[Hne Hj]]%lookup_insert_Some.
    + exists s. split_and!; cbn; (done || lia).
    + exists s'. destruct (i_count _ _ _ Hi j s' Hj) as [-> ?].
      by rewrite (owners_delete_ne R p b j).
  - intros q st' [[<- <-]|[Hne Hq]]%lookup_insert_Some; eauto.
  - intros k c Hk Hcn. destruct (last_others k c Hk) as (Hk' & Hci & _).
    rewrite lookup_insert_ne by done.
    destruct (i_backs _ _ _ Hi k c Hk' Hcn) as (s' & ? & _). eauto.
  - intros k c s' Hk Hcn Hs' Hf' st0 Hst0 Hd0. exists st0.
    rewrite lookup_insert_ne; [done|]. intros E.
    destruct (last_others k c Hk) as (Hk' & _ & Hne).
    destruct (i_backs _ _ _ Hi k c Hk' Hcn) as (s2 & Hs2 & _ & _ & Hb3).
    assert (s2 = s') as -> by congruence. rewrite Hf' in Hb3.
    destruct Hb3 as (_ & st2 & ? & ? & _). rewrite E in Hst. simplify_eq. congruence.
  - intros j s' [[<- <-]|[Hne Hj]]%lookup_insert_Some Hz.
    + split_and!; [done|cbn; congruence|]. eexists. cbn. rewrite lookup_insert_eq.
      split_and!; [done| |done]. cbn. congruence.
    + destruct (i_dead _ _ _ Hi j s' Hj Hz) as (? & ? & st' & Hst' & ? & Hd').
      split_and!; [done..|]. exists st'. cbn. rewrite lookup_insert_ne; [done|].
      intros E. rewrite E in Hst. simplify_eq. congruence.
  - intros q st' [[<- <-]|[Hq Hqs]]%lookup_insert_Some.
    + destruct (i_store _ _ _ Hi _ _ Hst) as [? ? ? Hbl Hd' Hfr]. split; cbn; try done.
      intros _ _ k c Hk. rewrite Hsb. by apply (last_others k c).
    + destruct (i_store _ _ _ Hi q st' Hqs) as [? ? ? Hbl Hd' Hfr]. split; cbn; try done.
      * intros Hu. destruct (Hd' Hu) as (j & s' & Hj & Hf' & Hus & ?). exists j, s'.
        rewrite lookup_insert_ne; [done|]. intros <-. rewrite Hs in Hj. simplify_eq.
      * intros Hz Hu k c [_ Hk]%lookup_delete_Some. by eapply Hfr.
  - intros a' l Ha'.
    destruct (i_leak _ _ _ Hi a' l Ha') as [?|[(k & c & s' & Hk & Hcn & Hs' & Hf' & <-)|(q & st' & Hq & <-)]]; auto.
    + right; left. assert (p ≠ k) as Hpk.
      { intros <-. assert (c = b) as -> by congruence. rewrite Hs in Hs'. simplify_eq. congruence. }
      exists k, c, s'. assert (delete p R !! k = Some c) as Hdk by (by rewrite lookup_delete_ne).
      destruct (last_others k c Hdk) as (_ & Hci & _). by rewrite lookup_insert_ne.
    + right; right. destruct (decide (q = userData s)) as [->|Hne].
      * eexists _, _. rewrite lookup_insert_eq. split; [done|]. cbn. congruence.
      * exists q, st'. by rewrite lookup_insert_ne.
Qed.
End last.

(** What a step on the memory leaves: the objects, the blocks of the holders
    [R], and which objects were made by new. *)
Record frames (R : gmap Z iobuf) (h h' : heap) : Prop := {
  f_bufs : bufs h' = bufs h;
  f_blocks : same_blocks R h h';
  f_heap : ∀ q, heapobj h' q ↔ heapobj h q;
  f_brk : brk h ≤ brk h'
}.

Lemma frames_refl R h : frames R h h.
Proof. split; try done. Qed.

Lemma wp_deref_buf p b (Q : iobuf → heap → Prop) h :
  bufs h !! p = Some b → Q b h → wp (deref p) Q h.
Proof. intros Hp HQ. unfold deref. apply wp_bind, (wp_lift _ b); [by rewrite Hp|done]. Qed.

Lemma wp_assign_buf p f b (Q : unit → heap → Prop) h :
  bufs h !! p = Some b → Q tt (set_bufs (<[p := f b]> (bufs h)) h) → wp (assign p f) Q h.
Proof. intros Hp HQ. unfold assign. apply wp_bind. by apply (wp_deref_buf p b). Qed.

Lemma wp_info_at i s (Q : shared_info → heap → Prop) h :
  infos h !! i = Some s → Q s h → wp (info_at i) Q h.
Proof. intros Hp HQ. unfold info_at. apply wp_bind, (wp_lift _ s); [by rewrite Hp|done]. Qed.

Lemma wp_free a l (Q : unit → heap → Prop) h :
  mem h !! a = Some l →
  Q tt (set_infos (filter (fun '(_, s) => host s ≠ a) (infos h)) (set_mem (delete a (mem h)) h)) →
  wp (free (mk_ptr a 0)) Q h.
Proof. intros Hm HQ. unfold free. apply wp_bind. eapply wp_intro; [done|]. cbn. by rewrite Hm. Qed.

Lemma sflags_cases R h p st :
  store_ok R h p st → data_in_use st = true → sflags st = 2 ∨ sflags st = 3.
Proof.
  intros [_ Hfl _ _ _ _]. unfold data_in_use.
  assert (sflags st = 1 ∨ sflags st = 2 ∨ sflags st = 3) as [-> | ?] by lia; [done|auto].
Qed.

(** The SharedInfo objects in a holder's block, after its count was set. *)
Lemma filter_host U R h p b s n :
  inv U R h → R !! p = Some b → sharedInfo b ≠ 0 → infos h !! sharedInfo b = Some s →
  blk (buf_ b) ≠ 0 →
  filter (fun '(_, s') => host s' ≠ blk (buf_ b))
    (<[sharedInfo b := with_refcount n s]> (infos h)) =
  if decide (host s = blk (buf_ b)) then delete (sharedInfo b) (infos h)
  else <[sharedInfo b := with_refcount n s]> (infos h).
Proof.
  intros Hi Hp Hn Hs Ha. apply map_eq. intros j. apply option_eq. intros s'.
  rewrite map_lookup_filter_Some, lookup_insert_Some.
  destruct (decide (host s = blk (buf_ b))) as [Hh|Hh].
  - rewrite lookup_delete_Some. split.
    + intros [[[<- <-]|[Hne Hj]] Hne']; [done|]. by split.
    + intros [Hne Hj]. split; [by right|]. intros E. apply Hne.
      symmetry. apply (inv_host U R h p b j s'); (done || congruence).
  - rewrite lookup_insert_Some. split; [by intros [? _]|]. intros Hj. split; [done|].
    destruct Hj as [[<- <-]|[Hne Hj]]; [done|]. intros E. apply Hne.
    symmetry. apply (inv_host U R h p b j s'); (done || congruence).
Qed.

Section decrement.
Context (U : gset Z) (R : gmap Z iobuf) (h : heap) (p : Z) (b c : iobuf).
Hypothesis Hi : inv U R h.
Hypothesis Hp : R !! p = Some b.
Hypothesis Hc : bufs h !! p = Some c.
Hypothesis Hbc : strip c = strip b.

Let drop (_ : unit) (h' : heap) : Prop := inv U (delete p R) h' ∧ frames (delete p R) h h'.

(** The last reference to a block of malloc. *)
Lemma wp_last_malloc s :
  sharedInfo b ≠ 0 → infos h !! sharedInfo b = Some s → refcount s = 1 → freeFn s = FreeMalloc →
  wp (_ ← freeExtBuffer p;
      if Z.land (flags c) kFlagFreeSharedInfo =? 0 then mret tt else delete_info (sharedInfo c))
     drop (set_infos (<[sharedInfo c := with_refcount (u32 (refcount s - 1)) s]> (infos h)) h).
Proof.
  intros Hn Hs Hr Hf. destruct (last_backs U R h p b s Hi Hp Hn Hs) as (Hh & Hfl & Hb3).
  rewrite Hf in Hb3. destruct Hb3 as (Hoff & l & Hl).
  assert (blk (buf_ b) ≠ 0) as Ha by (pose proof (i_mem _ _ _ Hi _ _ Hl); lia).
  assert (sharedInfo c = sharedInfo b ∧ buf_ c = buf_ b ∧ flags c = flags b) as (Ec & Eb & Ef).
  { unfold sharedInfo, flags. injection Hbc. by intros -> ? ? -> ?. }
  pose proof (inv_drop_malloc U R h p b s Hi Hp Hn Hs Hr Hf) as Hinv.
  assert (frames (delete p R) h
    (set_infos (delete (sharedInfo b) (infos h)) (set_mem (delete (blk (buf_ b)) (mem h)) h))) as Hfr.
  { split; try done. intros k d Hk. cbn.
    destruct (last_others U R h p b s Hi Hp Hn Hs Hr k d Hk) as (_ & _ & Hne).
    by rewrite lookup_delete_ne. }
  apply wp_bind. unfold freeExtBuffer.
  apply wp_bind, (wp_deref_buf p c); [done|].
  apply wp_bind, wp_assert; [rewrite Ec; by apply negb_true_iff, Z.eqb_neq|].
  apply wp_bind, (wp_info_at _ (with_refcount (u32 (refcount s - 1)) s)); [by cbn; rewrite lookup_insert_eq|].
  cbn [freeFn with_refcount]. rewrite Hf, Ec, Ef.
  replace (buf_ c) with (mk_ptr (blk (buf_ b)) 0) by (rewrite Eb, <-Hoff; by destruct (buf_ b)).
  eapply wp_free; [done|]. cbn [infos set_mem set_infos].
  rewrite (filter_host U R h p b s _ Hi Hp Hn Hs Ha).
  destruct (decide (host s = blk (buf_ b))) as [Hhb|Hhb].
  - rewrite (proj2 (Z.eqb_eq _ _)) by (apply Hfl; congruence). by apply wp_ret.
  - destruct Hh as [Hh|]; [|done].
    rewrite (proj2 (Z.eqb_neq _ _)) by (intros E; by apply Hfl in E).
    unfold delete_info. apply wp_bind.
    eapply wp_info_at; [cbn; by rewrite lookup_insert_eq|]. cbn [host with_refcount].
    rewrite Hh. apply wp_modify. cbn. by rewrite delete_insert_eq.
Qed.

(** The last reference to a block with a free function of the user. *)
Lemma wp_last_user s f :
  sharedInfo b ≠ 0 → infos h !! sharedInfo b = Some s → refcount s = 1 → freeFn s = FreeUser f →
  wp (_ ← freeExtBuffer p;
      if Z.land (flags c) kFlagFreeSharedInfo =? 0 then mret tt else delete_info (sharedInfo c))
     drop (set_infos (<[sharedInfo c := with_refcount (u32 (refcount s - 1)) s]> (infos h)) h).
Proof.
  intros Hn Hs Hr Hf. destruct (last_backs U R h p b s Hi Hp Hn Hs) as (Hh & Hfl & Hb3).
  rewrite Hf in Hb3. destruct Hb3 as [Hb3 _].
  assert (sharedInfo c = sharedInfo b ∧ flags c = flags b) as (Ec & Ef).
  { unfold sharedInfo, flags. injection Hbc. by intros -> ? ? ? ?. }
  apply wp_bind. unfold freeExtBuffer.
  apply wp_bind, (wp_deref_buf p c); [done|].
  apply wp_bind, wp_assert; [rewrite Ec; by apply negb_true_iff, Z.eqb_neq|].
  apply wp_bind, (wp_info_at _ (with_refcount (u32 (refcount s - 1)) s)); [by cbn; rewrite lookup_insert_eq|].
  cbn [freeFn with_refcount]. rewrite Hf, Ec, Ef. apply wp_modify.
  rewrite (proj2 (Z.eqb_neq _ _)) by (intros E; by apply Hfl in E).
  unfold delete_info. apply wp_bind.
  eapply wp_info_at; [cbn; by rewrite lookup_insert_eq|]. cbn [host with_refcount].
  rewrite Hb3. apply wp_modify. cbn. split.
  - rewrite delete_insert_eq. by eapply (inv_drop_user U R h p b s).
  - split; try done.
Qed.

(** The last reference to the data of a combined storage. *)
Lemma wp_last_internal s :
  sharedInfo b ≠ 0 → infos h !! sharedInfo b = Some s → refcount s = 1 → freeFn s = FreeInternal →
  wp (_ ← freeExtBuffer p;
      if Z.land (flags c) kFlagFreeSharedInfo =? 0 then mret tt else delete_info (sharedInfo c))
     drop (set_infos (<[sharedInfo c := with_refcount (u32 (refcount s - 1)) s]> (infos h)) h).
Proof.
  intros Hn Hs Hr Hf. destruct (last_backs U R h p b s Hi Hp Hn Hs) as (Hh & Hfl & Hb3).
  rewrite Hf in Hb3. destruct Hb3 as (Hh0 & st & Hst & Hsb & Hd).
  destruct (last_storage U R h p b s Hi Hp Hn Hs st Hf Hst) as (_ & _ & Hha & Ha).
  assert (sharedInfo c = sharedInfo b ∧ flags c = flags b) as (Ec & Ef).
  { unfold sharedInfo, flags. injection Hbc. by intros -> ? ? ? ?. }
  pose proof (i_store _ _ _ Hi _ _ Hst) as Hok.
  apply wp_bind. unfold freeExtBuffer.
  apply wp_bind, (wp_deref_buf p c); [done|].
  apply wp_bind, wp_assert; [rewrite Ec; by apply negb_true_iff, Z.eqb_neq|].
  apply wp_bind, (wp_info_at _ (with_refcount (u32 (refcount s - 1)) s)); [by cbn; rewrite lookup_insert_eq|].
  cbn [freeFn userData with_refcount]. rewrite Hf, Ec, Ef.
  rewrite (proj2 (Z.eqb_eq (Z.land _ _) 0)) by (apply Hfl; congruence).
  unfold releaseStorage. apply wp_bind. eapply wp_intro; [done|].
  apply wp_bind. eapply (wp_lift _ st); [cbn; by rewrite Hst|].
  apply wp_bind, wp_assert; [by apply Z.eqb_eq, (so_magic _ _ _ _ Hok)|].
  destruct (sflags_cases _ _ _ _ Hok Hd) as [Hfl2|Hfl3].
  - rewrite Hfl2. apply wp_bind, wp_assert; [done|]. cbn -[wp free].
    apply wp_bind, wp_modify. rewrite Hsb, (proj2 (Z.eqb_neq _ _) Ha).
    destruct (so_block _ _ _ _ Hok) as [l Hl]; [congruence|]. rewrite Hsb in Hl.
    eapply wp_free; [done|]. cbn [infos set_mem set_infos set_stores].
    rewrite (filter_host U R h p b s _ Hi Hp Hn Hs Ha), decide_True by done.
    apply wp_ret. split; [by eapply (inv_drop_storage_free U R h p b s Hi Hp Hn Hs Hr st)|].
    split; try done.
    + intros k d Hk. cbn.
      destruct (last_others U R h p b s Hi Hp Hn Hs Hr k d Hk) as (_ & _ & Hne).
      by rewrite lookup_delete_ne.
    + intros q. unfold heapobj; cbn. split.
      * intros (st' & [_ ?]%lookup_delete_Some & ?). eauto.
      * intros (st' & Hq & Hu). exists st'. split; [|done]. apply lookup_delete_Some.
        split; [|done]. intros <-. simplify_eq. unfold iobuf_in_use in Hu. by rewrite Hfl2 in Hu.
  - rewrite Hfl3. apply wp_bind, wp_assert; [done|]. cbn -[wp]. apply wp_modify, wp_ret.
    rewrite Hr. split; [by eapply (inv_drop_storage_keep U R h p b s Hi Hp Hn Hs Hr st)|].
    split; try done. intros q. unfold heapobj; cbn. split.
    + intros (st' & [[<- <-]|[_ ?]]%lookup_insert_Some & ?); [|by eauto].
      exists st. split; [done|]. unfold iobuf_in_use. by rewrite Hfl3.
    + intros (st' & Hq & Hu). destruct (decide (q = userData s)) as [->|Hne].
      * eexists. by rewrite lookup_insert_eq.
      * exists st'. by rewrite lookup_insert_ne.
Qed.

(** A reference is given up: the memory is freed with the last one. *)
Lemma wp_decrementRefcount : wp (decrementRefcount p) drop h.
Proof.
  assert (sharedInfo c = sharedInfo b) as Ec.
  { unfold sharedInfo. injection Hbc. by intros -> ? ? ? ?. }
  unfold decrementRefcount. apply wp_bind, (wp_deref_buf p c); [done|]. rewrite Ec. wp_step.
  - apply Z.eqb_eq in Heqb0. apply wp_ret. split; [by eapply inv_drop_unmanaged|apply frames_refl].
  - apply Z.eqb_neq in Heqb0. destruct (i_backs _ _ _ Hi p b Hp Heqb0) as (s & Hs & Hbk).
    apply wp_bind, (wp_info_at _ s); [done|]. apply wp_bind, wp_modify. wp_step.
    + apply Z.ltb_lt in Heqb1. apply wp_ret. split; [|split; try done].
      destruct (i_count _ _ _ Hi _ _ Hs) as [_ ?]. rewrite u32_small by lia.
      by eapply inv_drop_shared.
    + apply Z.ltb_ge in Heqb1. destruct (i_count _ _ _ Hi _ _ Hs) as [Hcnt _].
      rewrite (owners_delete R p b _ Hp), decide_True in Hcnt by done.
      assert (refcount s = 1) as Hr by lia. rewrite <-Ec.
      fold (with_refcount (u32 (refcount s - 1)) s).
      destruct (freeFn s) eqn:Hf.
      * by apply wp_last_malloc.
      * by apply wp_last_internal.
      * by eapply wp_last_user.
Qed.
End decrement.

(** ** Taking references *)

Lemma inv_set_brk U R h n :
  inv U R h → brk h ≤ n → n mod 8 = 0 → inv U R (set_brk n h).
Proof.
  intros [Hb Hk Hm Hin Hst ? ? ? ? ? ? Hso ? ? Hmb] Hn H8. split; cbn; try done.
  - lia.
  - intros k b Hkb. specialize (Hk k b Hkb). lia.
  - intros a l Ha. specialize (Hm a l Ha). lia.
  - intros i s Hs. specialize (Hin i s Hs). lia.
  - intros p st Hp. specialize (Hst p st Hp). lia.
  - intros p st Hp. by destruct (Hso p st Hp).
Qed.

(** New memory, the user's until somebody holds it. *)
Lemma inv_new_block U R h a l :
  inv U R h → mem h !! a = None → 0 < a < brk h →
  inv ({[a]} ∪ U) R (set_mem (<[a := l]> (mem h)) h).
Proof.
  intros [Hb Hk Hm Hin Hst Hg Hbk ? ? ? ? Hso ? Hlk Hmb] Ha Hr. split; cbn; try done.
  - intros a' l' [[<- _]|[_ ?]]%lookup_insert_Some; [done|eauto].
  - intros k b Hkb. destruct (Hg k b Hkb) as [? ? ? ? Hgm]. split; [done..|].
    intros Hc. destruct (Hgm Hc) as (l' & Hl' & ?). exists l'.
    rewrite lookup_insert_ne; [done|congruence].
  - intros k b Hkb Hn. destruct (Hbk k b Hkb Hn) as (s & Hs & B1 & B2 & B3). exists s.
    split; [done|]. unfold backs. split_and!; [done..|]. revert B3. destruct (freeFn s); intros B3; [|exact B3..]. destruct B3 as [? [l' ?]].
    split; [done|]. cbn. rewrite lookup_insert_ne; [eauto|congruence].
  - intros p st Hp. destruct (Hso p st Hp) as [? ? ? Hbl ? ?]. split; try done. cbn.
    intros Hz. destruct (Hbl Hz) as [l' ?]. rewrite lookup_insert_ne; [eauto|congruence].
  - intros a' l' [[<- _]|[_ Ha']]%lookup_insert_Some; [left; set_solver|].
    destruct (Hlk a' l' Ha') as [?|?]; [left; set_solver|auto].
Qed.

(** A block of malloc with a holder is not the user's. *)
Lemma inv_claim U R h a k b s :
  inv ({[a]} ∪ U) R h → R !! k = Some b → sharedInfo b ≠ 0 → infos h !! sharedInfo b = Some s →
  freeFn s = FreeMalloc → blk (buf_ b) = a → inv U R h.
Proof.
  intros [Hb Hk Hm Hin Hst Hg Hbk ? ? ? ? Hso ? Hlk Hmb] Hkb Hn Hs Hf Ha. split; try done.
  intros a' l' Ha'. destruct (decide (a' = a)) as [->|Hne]; [by eauto 10|].
  destruct (Hlk a' l' Ha') as [[?|?]%elem_of_union|?]; [set_solver|auto|auto].
Qed.
Lemma inv_claim_storage U R h a p st :
  inv ({[a]} ∪ U) R h → stores h !! p = Some st → sblock st = a → inv U R h.
Proof.
  intros [Hb Hk Hm Hin Hst Hg Hbk ? ? ? ? Hso ? Hlk Hmb] Hp Ha. split; try done.
  intros a' l' Ha'. destruct (decide (a' = a)) as [->|Hne]; [by eauto 10|].
  destruct (Hlk a' l' Ha') as [[?|?]%elem_of_union|?]; [set_solver|auto|auto].
Qed.

Lemma inv_new_store U R h p :
  inv U R h → stores h !! p = None → p < brk h →
  inv U R (set_stores (<[p := mk_heap_storage kHeapMagic kIOBufInUse 0]> (stores h)) h).
Proof.
  intros Hi Hp Hb. pose proof Hi as [Hbr Hk Hm Hin Hst Hg Hbk ? ? ? Hdead Hso Hsep Hlk Hmb].
  assert (∀ q st, stores h !! q = Some st →
    <[p := mk_heap_storage kHeapMagic kIOBufInUse 0]> (stores h) !! q = Some st) as Hold.
  { intros q st Hq. rewrite lookup_insert_ne; [done|congruence]. }
  split; cbn; try done.
  - intros q st [[<- _]|[_ ?]]%lookup_insert_Some; [done|eauto].
  - intros k b Hkb Hn. destruct (Hbk k b Hkb Hn) as (s & Hs & B1 & B2 & B3). exists s.
    split; [done|]. unfold backs. split_and!; [done..|]. revert B3. destruct (freeFn s); intros B3; [exact B3| |exact B3].
    destruct B3 as (? & st & ? & ?). cbn. eauto 10.
  - intros i s Hs Hz. destruct (Hdead i s Hs Hz) as (? & ? & st & ? & ?).
    split_and!; [done..|]. cbn. eauto.
  - intros q st [[<- <-]|[_ Hq]]%lookup_insert_Some.
    + split; cbn; try done.
    + by destruct (Hso q st Hq).
  - intros q q' st st' [[<- <-]|[_ Hq]]%lookup_insert_Some [[<- <-]|[_ Hq']]%lookup_insert_Some;
      cbn; try done; try congruence. by apply Hsep.
  - intros a l Ha. destruct (Hlk a l Ha) as [?|[?|(q & st & ? & ?)]]; eauto 10.
Qed.

(** A new SharedInfo with its holder. *)
Record newcomer (R : gmap Z iobuf) (h : heap) (k : Z) (b : iobuf) (s : shared_info) : Prop := {
  nc_info : infos h !! sharedInfo b = None;
  nc_addr : 0 < sharedInfo b < brk h ∧ sharedInfo b mod 8 = 0;
  nc_count : refcount s = 1;
  nc_key : R !! k = None ∧ k < brk h;
  nc_geo : geo (mem h) b;
  nc_blk : 0 ≤ blk (buf_ b) < brk h;
  nc_fresh : ∀ j c, R !! j = Some c → blk (buf_ c) ≠ blk (buf_ b);
  nc_stores : ∀ p st, stores h !! p = Some st → sblock st ≠ 0 → sblock st ≠ blk (buf_ b)
}.

Lemma inv_new_info U R h k b s h' :
  inv U R h → newcomer R h k b s →
  bufs h' = bufs h → mem h' = mem h → brk h' = brk h → infos h' = <[sharedInfo b := s]> (infos h) →
  (stores h' = stores h ∨
   ∃ p, stores h !! p = None ∧ p < brk h ∧ freeFn s = FreeInternal ∧ userData s = p ∧
     blk (buf_ b) ≠ 0 ∧ is_Some (mem h !! blk (buf_ b)) ∧
     stores h' = <[p := mk_heap_storage kHeapMagic 3 (blk (buf_ b))]> (stores h)) →
  backs h' b s →
  inv U (<[k := b]> R) h'.
Proof.
  intros Hi [Hn1 Hn2 Hn3 [Hn4 Hn5] Hn6 Hn7 Hn8 Hn9] Hbf Hm Hb Hinf Hst Hback.
  pose proof Hi as [Hbr Hk Hmm Hin Hsts Hg Hbk Hsame Hdiff Hcnt Hdead Hso Hsep Hlk Hmb].
  assert (∀ q st, stores h !! q = Some st → stores h' !! q = Some st) as Hold.
  { intros q st Hq. destruct Hst as [->|(p & Hp & _ & _ & _ & _ & _ & ->)]; [done|].
    rewrite lookup_insert_ne; [done|congruence]. }
  assert (∀ q st, stores h' !! q = Some st → stores h !! q = Some st ∨
    q < brk h ∧ freeFn s = FreeInternal ∧ userData s = q ∧ stores h !! q = None ∧
    blk (buf_ b) ≠ 0 ∧ is_Some (mem h !! blk (buf_ b)) ∧
    st = mk_heap_storage kHeapMagic 3 (blk (buf_ b))) as Hnew.
  { intros q st. destruct Hst as [->|(p & Hp & Hpb & Hf & Hu & Hz & Hl & ->)]; [auto|].
    intros [[<- <-]|[_ Hq]]%lookup_insert_Some; [right; eauto 10|by left]. }
  assert (∀ j c, R !! j = Some c → sharedInfo c ≠ sharedInfo b) as Hother.
  { intros j c Hj E. destruct (Hbk j c Hj) as (s' & Hs' & _); [lia|]. congruence. }
  assert (∀ j s', infos h !! j = Some s' → infos h' !! j = Some s') as Hinf'.
  { intros j s' Hj. rewrite Hinf, lookup_insert_ne; [done|congruence]. }
  assert (owners R (sharedInfo b) = 0%nat) as Hz.
  { destruct (decide (owners R (sharedInfo b) = 0%nat)) as [|Hz]; [done|].
    destruct (owners_pos R (sharedInfo b)) as (j & c & Hj & E); [lia|]. by destruct (Hother j c Hj). }
  split; rewrite ?Hb, ?Hm; try done.
  - intros j c [[<- <-]|[_ ?]]%lookup_insert_Some; eauto.
  - rewrite Hinf. intros i s' [[<- <-]|[_ ?]]%lookup_insert_Some; eauto.
  - intros q st Hq. destruct (Hnew q st Hq) as [?|(? & _)]; eauto.
  - intros j c [[<- <-]|[_ ?]]%lookup_insert_Some; eauto.
  - intros j c [[<- <-]|[_ Hj]]%lookup_insert_Some Hcn.
    + exists s. split; [by rewrite Hinf, lookup_insert_eq|done].
    + destruct (Hbk j c Hj Hcn) as (s' & Hs' & B1 & B2 & B3). exists s'.
      split; [eauto|]. unfold backs. split_and!; [done..|]. rewrite Hm.
      revert B3. destruct (freeFn s'); intros B3; [exact B3| |exact B3]. destruct B3 as (? & st & ? & ?). eauto 10.
  - intros j j' c c' [[<- <-]|[_ Hj]]%lookup_insert_Some [[<- <-]|[_ Hj']]%lookup_insert_Some Hc E;
      try done; [by destruct (Hother _ _ Hj')|by destruct (Hother _ _ Hj)|by eapply Hsame].
  - intros j j' c c' [[<- <-]|[_ Hj]]%lookup_insert_Some [[<- <-]|[_ Hj']]%lookup_insert_Some Hc E;
      try done; [by apply not_eq_sym, (Hn8 j')|by eapply Hn8|by eapply Hdiff].
  - intros i s'. rewrite Hinf, owners_insert by done.
    intros [[<- <-]|[Hne Hs']]%lookup_insert_Some.
    + rewrite decide_True, Hz by done. lia.
    + rewrite decide_False by done. by apply Hcnt.
  - intros i s'. rewrite Hinf. intros [[<- <-]|[Hne Hs']]%lookup_insert_Some Hr; [lia|].
    destruct (Hdead i s' Hs' Hr) as (? & ? & st & ? & ?). split_and!; [done..|]. eauto.
  - intros q st Hq. destruct (Hnew q st Hq) as [Hq'|(_ & Hf & Hu & _ & Hnz & Hl & ->)].
    + destruct (Hso q st Hq') as [? ? ? ? Hd Hfr]. split; rewrite ?Hm; try done.
      * intros Hud. destruct (Hd Hud) as (j & s' & ? & ?). eauto 10.
      * intros Hsz Hud j c [[<- <-]|[_ Hj]]%lookup_insert_Some; [by apply not_eq_sym, (Hn9 q)|eauto].
    + split; cbn; rewrite ?Hm; try done. intros _. exists (sharedInfo b), s.
      rewrite Hinf, lookup_insert_eq. split_and!; (done || lia).
  - intros q q' st st' Hq Hq' E Hne.
    destruct (Hnew q st Hq) as [Hq1|(_ & _ & <- & _ & _ & _ & ->)],
      (Hnew q' st' Hq') as [Hq1'|(_ & _ & <- & _ & _ & _ & ->)]; cbn in *; try done.
    + by apply (Hsep q q' st st').
    + by destruct (Hn9 q st Hq1).
    + by destruct (Hn9 q' st' Hq1'); [congruence|].
  - intros a l Ha. destruct (Hlk a l Ha) as [?|[(j & c & s' & Hj & ? & ? & ?)|(q & st & ? & ?)]];
      [auto| |eauto 10].
    right; left. exists j, c, s'. rewrite lookup_insert_ne by congruence. eauto.
  - intros j c s'. rewrite Hinf. intros [[<- <-]|[_ Hj]]%lookup_insert_Some Hcn.
    + rewrite lookup_insert_eq. intros [= <-]. lia.
    + rewrite lookup_insert_ne by (by apply not_eq_sym, (Hother j)). eauto.
Qed.

(** Another holder of the same buffer. *)
Lemma inv_share U R h j k b c s :
  inv U R h → R !! j = Some c → sharedInfo c ≠ 0 → infos h !! sharedInfo c = Some s →
  refcount s < 2 ^ 32 - 1 → R !! k = None → k < brk h → geo (mem h) b →
  sharedInfo b = sharedInfo c → buf_ b = buf_ c →
  Z.land (flags b) kFlagFreeSharedInfo = Z.land (flags c) kFlagFreeSharedInfo →
  Z.land (flags b) kFlagMaybeShared ≠ 0 → Z.land (flags c) kFlagMaybeShared ≠ 0 →
  inv U (<[k := b]> R)
    (set_infos (<[sharedInfo c := with_refcount (refcount s + 1) s]> (infos h)) h).
Proof.
  intros Hi Hj Hn Hs Hr Hk Hkb Hgeo Ei Eb Ef Fb Fc. set (i := sharedInfo c) in *.
  pose proof Hi as [Hbr Hkey Hmm Hin Hsts Hg Hbk Hsame Hdiff Hcnt Hdead Hso Hsep Hlk Hmb].
  destruct (Hcnt i s Hs) as [Hc Hlt].
  assert (∀ x s', infos h !! x = Some s' → x ≠ i →
    <[i := with_refcount (refcount s + 1) s]> (infos h) !! x = Some s') as Hold.
  { intros x s' Hx Hne. by rewrite lookup_insert_ne. }
  assert (∀ x d, <[k := b]> R !! x = Some d → ∃ y e, R !! y = Some e ∧ sharedInfo d = sharedInfo e ∧
    buf_ d = buf_ e ∧ Z.land (flags d) kFlagFreeSharedInfo = Z.land (flags e) kFlagFreeSharedInfo) as Hrep.
  { intros x d [[<- <-]|[_ Hx]]%lookup_insert_Some; eauto 10. }
  split; cbn; try done.
  - intros x d [[<- <-]|[_ Hx]]%lookup_insert_Some; [|eauto]. rewrite Eb. split; [done|by eapply Hkey].
  - intros x s' [[<- _]|[_ Hx]]%lookup_insert_Some; eauto.
  - intros x d [[<- <-]|[_ Hx]]%lookup_insert_Some; eauto.
  - intros x d Hx Hdn. destruct (Hrep x d Hx) as (y & e & Hy & E1 & E2 & E3). rewrite E1 in *.
    destruct (Hbk y e Hy Hdn) as (s' & Hs' & HB).
    exists (if decide (sharedInfo e = i) then with_refcount (refcount s + 1) s' else s').
    unfold backs in *. cbn. rewrite E2, E3.
    destruct (decide (sharedInfo e = i)) as [E|Hne]; [|by rewrite lookup_insert_ne].
    rewrite E in *. rewrite lookup_insert_eq. simplify_eq. by split.
  - intros x x' d d' Hx Hx' Hdn E.
    destruct (Hrep x d Hx) as (y & e & Hy & E1 & E2 & _), (Hrep x' d' Hx') as (y' & e' & Hy' & E1' & E2' & _).
    rewrite E2, E2'. apply (Hsame y y'); congruence.
  - intros x x' d d' Hx Hx' Hdn E.
    destruct (Hrep x d Hx) as (y & e & Hy & E1 & E2 & _), (Hrep x' d' Hx') as (y' & e' & Hy' & E1' & E2' & _).
    rewrite E2, E2'. apply (Hdiff y y'); congruence.
  - intros x s'. rewrite owners_insert by done. intros [[<- <-]|[Hne Hx]]%lookup_insert_Some; cbn.
    + rewrite decide_True by done. lia.
    + rewrite decide_False by congruence. by apply Hcnt.
  - intros x s' [[<- <-]|[Hne Hx]]%lookup_insert_Some Hz; cbn in *; [lia|by apply (Hdead x)].
  - intros q st Hq. destruct (Hso q st Hq) as [? ? ? ? Hd Hfr]. split; cbn; try done.
    + intros Hu. destruct (Hd Hu) as (x & s' & Hx & ? & ? & ?).
      destruct (decide (x = i)) as [->|Hne]; [|by eauto 10].
      exists i, (with_refcount (refcount s + 1) s). rewrite lookup_insert_eq. simplify_eq.
      split_and!; cbn; (done || lia).
    + intros Hz Hu x d Hx. destruct (Hrep x d Hx) as (y & e & Hy & _ & -> & _). eauto.
  - intros a l Ha. destruct (Hlk a l Ha) as [?|[(x & d & s' & Hx & Hdn & Hs' & Hf & ?)|?]]; auto.
    right; left. exists x, d.
    exists (if decide (sharedInfo d = i) then with_refcount (refcount s + 1) s' else s').
    rewrite lookup_insert_ne by congruence.
    destruct (decide (sharedInfo d = i)) as [E|Hne]; [|by rewrite lookup_insert_ne].
    rewrite E in *. rewrite lookup_insert_eq. by simplify_eq.
  - intros x d s' [[<- <-]|[_ Hx]]%lookup_insert_Some Hdn; [done|].
    intros [[E _]|[Hne Hs']]%lookup_insert_Some Hr'; [|by eapply Hmb].
    destruct (decide (x = j)) as [->|Hxj]; [by simplify_eq|].
    apply (Hmb x d s); [done|done|by rewrite <-E|].
    pose proof (owners_two R x j d c i Hx Hj Hxj (eq_sym E) eq_refl). lia.
Qed.

(** A holder changes its view of its buffer, or its other flag. *)
Lemma inv_replace U R h k b b' :
  inv U R h → R !! k = Some b → geo (mem h) b' →
  sharedInfo b' = sharedInfo b → buf_ b' = buf_ b →
  Z.land (flags b') kFlagFreeSharedInfo = Z.land (flags b) kFlagFreeSharedInfo →
  (∀ s, infos h !! sharedInfo b = Some s → 1 < refcount s → Z.land (flags b') kFlagMaybeShared ≠ 0) →
  inv U (<[k := b']> R) h.
Proof.
  intros Hi Hk Hgeo Ei Eb Ef Fm.
  pose proof Hi as [Hbr Hkey Hmm Hin Hsts Hg Hbk Hsame Hdiff Hcnt Hdead Hso Hsep Hlk Hmb].
  assert (∀ x d, <[k := b']> R !! x = Some d → ∃ y e, R !! y = Some e ∧ sharedInfo d = sharedInfo e ∧
    buf_ d = buf_ e ∧ Z.land (flags d) kFlagFreeSharedInfo = Z.land (flags e) kFlagFreeSharedInfo) as Hrep.
  { intros x d [[<- <-]|[_ Hx]]%lookup_insert_Some; eauto 10. }
  assert (∀ i, owners (<[k := b']> R) i = owners R i) as Hown.
  { intros i. rewrite (owners_delete R k b i Hk), <-insert_delete_eq.
    rewrite owners_insert by apply lookup_delete_eq. by rewrite Ei. }
  split; try done.
  - intros x d [[<- <-]|[_ Hx]]%lookup_insert_Some; [rewrite Eb|]; eauto.
  - intros x d [[<- <-]|[_ Hx]]%lookup_insert_Some; eauto.
  - intros x d Hx Hdn. destruct (Hrep x d Hx) as (y & e & Hy & E1 & E2 & E3). rewrite E1 in *.
    destruct (Hbk y e Hy Hdn) as (s' & Hs' & HB). exists s'. unfold backs in *. by rewrite E2, E3.
  - intros x x' d d' Hx Hx' Hdn E.
    destruct (Hrep x d Hx) as (y & e & Hy & E1 & E2 & _), (Hrep x' d' Hx') as (y' & e' & Hy' & E1' & E2' & _).
    rewrite E2, E2'. apply (Hsame y y'); congruence.
  - intros x x' d d' Hx Hx' Hdn E.
    destruct (Hrep x d Hx) as (y & e & Hy & E1 & E2 & _), (Hrep x' d' Hx') as (y' & e' & Hy' & E1' & E2' & _).
    rewrite E2, E2'. apply (Hdiff y y'); congruence.
  - intros i s Hs. rewrite Hown. by apply Hcnt.
  - intros q st Hq. destruct (Hso q st Hq) as [? ? ? ? Hd Hfr]. split; cbn; try done.
    intros Hz Hu x d Hx. destruct (Hrep x d Hx) as (y & e & Hy & _ & -> & _). eauto.
  - intros a l Ha. destruct (Hlk a l Ha) as [?|[(x & d & s' & Hx & Hdn & Hs' & Hf & ?)|?]]; auto.
    right; left. destruct (decide (x = k)) as [->|Hne].
    + exists k, b', s'. rewrite lookup_insert_eq, Ei, Eb. simplify_eq. done.
    + exists x, d, s'. by rewrite lookup_insert_ne.
  - intros x d s' [[<- <-]|[_ Hx]]%lookup_insert_Some Hdn; [rewrite Ei; by apply Fm|by apply (Hmb x d s')].
Qed.

(** A holder under another name. *)
Lemma inv_rename U R h j k b :
  inv U R h → R !! j = Some b → R !! k = None → k < brk h →
  inv U (<[k := b]> (delete j R)) h.
Proof.
  intros Hi Hj Hk Hkb.
  pose proof Hi as [Hbr Hkey Hmm Hin Hsts Hg Hbk Hsame Hdiff Hcnt Hdead Hso Hsep Hlk Hmb].
  assert (∀ x d, <[k := b]> (delete j R) !! x = Some d → ∃ y, R !! y = Some d) as Hrep.
  { intros x d [[<- <-]|[_ [_ Hx]%lookup_delete_Some]]%lookup_insert_Some; eauto. }
  assert (∀ i, owners (<[k := b]> (delete j R)) i = owners R i) as Hown.
  { intros i. rewrite (owners_delete R j b i Hj).
    rewrite owners_insert; [done|]. apply lookup_delete_None. by right. }
  split; try done.
  - intros x d Hx. split; [|by destruct (Hrep x d Hx) as [y Hy]; eapply Hkey].
    apply lookup_insert_Some in Hx as [[<- _]|[_ [_ Hx]%lookup_delete_Some]]; [done|by eapply Hkey].
  - intros x d [y Hy]%Hrep. eauto.
  - intros x d [y Hy]%Hrep. eauto.
  - intros x x' d d' [y Hy]%Hrep [y' Hy']%Hrep. eauto.
  - intros x x' d d' [y Hy]%Hrep [y' Hy']%Hrep. eauto.
  - intros i s Hs. rewrite Hown. by apply Hcnt.
  - intros q st Hq. destruct (Hso q st Hq) as [? ? ? ? Hd Hfr]. split; cbn; try done.
    intros Hz Hu x d [y Hy]%Hrep. eauto.
  - intros a l Ha. destruct (Hlk a l Ha) as [?|[(x & d & s' & Hx & Hdn & Hs' & Hf & ?)|?]]; auto.
    right; left. destruct (decide (x = j)) as [->|Hne].
    + exists k, d, s'. rewrite lookup_insert_eq. simplify_eq. done.
    + exists x, d, s'. rewrite lookup_insert_ne by congruence. by rewrite lookup_delete_ne.
  - intros x d s' [y Hy]%Hrep. eauto.
Qed.

(** A holder of memory that is not managed. *)
Lemma inv_new_unmanaged U R h k b :
  inv U R h → R !! k = None → k < brk h → sharedInfo b = 0 → geo (mem h) b →
  0 ≤ blk (buf_ b) < brk h →
  (∀ j c, R !! j = Some c → sharedInfo c ≠ 0 → blk (buf_ c) ≠ blk (buf_ b)) →
  (∀ p st, stores h !! p = Some st → sblock st ≠ 0 → sblock st ≠ blk (buf_ b)) →
  inv U (<[k := b]> R) h.
Proof.
  intros Hi Hk Hkb Hz Hgeo Hbl Hne Hst.
  pose proof Hi as [Hbr Hkey Hmm Hin Hsts Hg Hbk Hsame Hdiff Hcnt Hdead Hso Hsep Hlk Hmb].
  split; try done.
  - intros x d [[<- <-]|[_ Hx]]%lookup_insert_Some; eauto.
  - intros x d [[<- <-]|[_ Hx]]%lookup_insert_Some; eauto.
  - intros x d [[<- <-]|[_ Hx]]%lookup_insert_Some; [done|eauto].
  - intros x x' d d' [[<- <-]|[_ Hx]]%lookup_insert_Some [[<- <-]|[_ Hx']]%lookup_insert_Some Hd E;
      try congruence. by eapply Hsame.
  - intros x x' d d' [[<- <-]|[_ Hx]]%lookup_insert_Some [[<- <-]|[_ Hx']]%lookup_insert_Some Hd E;
      try congruence; [by eapply Hne|by eapply Hdiff].
  - intros i s Hs. rewrite owners_insert by done.
    rewrite decide_False; [by apply Hcnt|]. pose proof (Hin i s Hs). lia.
  - intros q st Hq. destruct (Hso q st Hq) as [? ? ? ? Hd Hfr]. split; cbn; try done.
    intros Hz' Hu x d [[<- <-]|[_ Hx]]%lookup_insert_Some; [|eauto].
    by apply not_eq_sym, (Hst q).
  - intros a l Ha. destruct (Hlk a l Ha) as [?|[(x & d & s' & Hx & ? & ?)|?]]; auto.
    right; left. exists x, d, s'. rewrite lookup_insert_ne by congruence. done.
  - intros x d s' [[<- <-]|[_ Hx]]%lookup_insert_Some; [done|eauto].
Qed.

(** Writing into a block. *)
Lemma inv_write U R h a l l' :
  inv U R h → mem h !! a = Some l → length l' = length l →
  inv U R (set_mem (<[a := l']> (mem h)) h).
Proof.
  intros Hi Ha Hlen.
  pose proof Hi as [Hbr Hkey Hmm Hin Hsts Hg Hbk Hsame Hdiff Hcnt Hdead Hso Hsep Hlk Hmb].
  assert (∀ x, is_Some (mem h !! x) → is_Some (<[a := l']> (mem h) !! x)) as Hsome.
  { intros x Hx. apply lookup_insert_is_Some'. by right. }
  split; cbn; try done.
  - intros x lx [[<- _]|[_ Hx]]%lookup_insert_Some; eauto.
  - intros k b Hk. destruct (Hg k b Hk) as [? ? ? ? Hm]. split; [done..|].
    intros Hc. destruct (Hm Hc) as (lx & Hx & ?). destruct (decide (blk (buf_ b) = a)) as [E|Hne].
    + rewrite E in Hx. assert (lx = l) as -> by congruence. exists l'.
      rewrite E, lookup_insert_eq, Hlen. by split.
    + exists lx. by rewrite lookup_insert_ne.
  - intros k b Hk Hn. destruct (Hbk k b Hk Hn) as (s & Hs & B1 & B2 & B3). exists s.
    split; [done|]. unfold backs. split_and!; [done..|]. revert B3.
    destruct (freeFn s); intros B3; [|exact B3..]. destruct B3. split; [done|]. by apply Hsome.
  - intros q st Hq. destruct (Hso q st Hq) as [? ? ? Hbl Hd Hfr]. split; cbn; try done.
    intros Hz. by apply Hsome, Hbl.
  - intros x lx [[<- _]|[_ Hx]]%lookup_insert_Some; eauto.
Qed.
