(* ===== verification/IOBufChain.v ===== *)
(** The circular doubly linked chains of IOBuf objects: what prependChain,
    unlink, pop and separateChain do to the lists of elements, and that the
    walks round a chain end. *)
From S2P Require Import Prelude IOBuf IOBufInv.
Import IOBuf.

Definition next_of (h : heap) (x : Z) : option Z := next_ <$> bufs h !! x.
Definition prev_of (h : heap) (x : Z) : option Z := prev_ <$> bufs h !! x.
Definition link (h : heap) (x y : Z) : Prop := next_of h x = Some y ∧ prev_of h y = Some x.

(** From [x] through the elements [l] to [y]. *)
Fixpoint path (h : heap) (x : Z) (l : list Z) (y : Z) : Prop :=
  match l with [] => link h x y | z :: l => link h x z ∧ path h z l y end.

(** [p] is followed by [l] in its chain. *)
Definition chain (h : heap) (p : Z) (l : list Z) : Prop := path h p l p ∧ NoDup (p :: l).

Fixpoint lst (x : Z) (l : list Z) : Z := match l with [] => x | z :: l => lst z l end.

(** Only links of elements of [S] differ. *)
Record relinks (S : list Z) (h h' : heap) : Prop := {
  rl_rest : h' = set_bufs (bufs h') h;
  rl_holders : holders h' = holders h;
  rl_others : ∀ q, q ∉ S → bufs h' !! q = bufs h !! q
}.

Lemma relinks_refl S h : relinks S h h.
Proof. by destruct h. Qed.

Lemma relinks_trans S h1 h2 h3 : relinks S h1 h2 → relinks S h2 h3 → relinks S h1 h3.
Proof.
  intros [E1 H1 O1] [E2 H2 O2]. split; [|congruence|intros q Hq; by rewrite O2, O1].
  rewrite E2, E1. done.
Qed.

Lemma relinks_mono S S' h h' : S ⊆ S' → relinks S h h' → relinks S' h h'.
Proof. intros HS [E H O]. split; [done..|]. set_solver. Qed.

Lemma relinks_inv U S h h' :
  relinks S h h' → inv U (holders h) h → inv U (holders h') h'.
Proof.
  intros [E H _] Hi. rewrite H, E. destruct Hi as [? ? ? ? ? ? ? ? ? ? ? Hso ? ? ?]. split; try done.
  intros p st Hp. by destruct (Hso p st Hp).
Qed.

Lemma relinks_rest S h h' :
  relinks S h h' → mem h' = mem h ∧ infos h' = infos h ∧ stores h' = stores h ∧ brk h' = brk h.
Proof. intros [E _ _]. by rewrite E. Qed.

Lemma holders_lookup h p b : bufs h !! p = Some b → holders h !! p = Some (strip b).
Proof. intros Hp. unfold holders. by rewrite lookup_fmap, Hp. Qed.

Lemma holders_inv h p c : holders h !! p = Some c → ∃ b, bufs h !! p = Some b ∧ c = strip b.
Proof. unfold holders. rewrite lookup_fmap. intros (b & -> & ?)%fmap_Some. eauto. Qed.

Lemma holders_relink h p b n q :
  bufs h !! p = Some b → strip <$> <[p := with_links n q b]> (bufs h) = holders h.
Proof.
  intros Hp. unfold holders. rewrite fmap_insert. apply insert_id.
  by rewrite lookup_fmap, Hp.
Qed.

Lemma next_of_some h x y : next_of h x = Some y → ∃ b, bufs h !! x = Some b ∧ next_ b = y.
Proof. unfold next_of. intros (b & ? & ?)%fmap_Some. eauto. Qed.
Lemma prev_of_some h x y : prev_of h x = Some y → ∃ b, bufs h !! x = Some b ∧ prev_ b = y.
Proof. unfold prev_of. intros (b & ? & ?)%fmap_Some. eauto. Qed.

(** Assigning one link. *)
Lemma wp_set_next S z n (Q : unit → heap → Prop) h :
  is_Some (next_of h z) → z ∈ S →
  (∀ h', relinks S h h' → (∀ x, next_of h' x = if decide (x = z) then Some n else next_of h x) →
     (∀ x, prev_of h' x = prev_of h x) → Q tt h') →
  wp (assign z (with_next n)) Q h.
Proof.
  intros [y (b & Hb & _)%next_of_some] Hz HQ. apply (wp_assign_buf z _ b); [done|].
  apply HQ.
  - split; [done|by apply holders_relink|]. intros q Hq. cbn. apply lookup_insert_ne. by intros ->.
  - intros x. unfold next_of; cbn.
    destruct (decide (x = z)) as [->|Hne]; [by rewrite lookup_insert_eq|by rewrite lookup_insert_ne].
  - intros x. unfold prev_of; cbn.
    destruct (decide (x = z)) as [->|Hne]; [by rewrite lookup_insert_eq, Hb|by rewrite lookup_insert_ne].
Qed.

Lemma wp_set_prev S z n (Q : unit → heap → Prop) h :
  is_Some (prev_of h z) → z ∈ S →
  (∀ h', relinks S h h' → (∀ x, prev_of h' x = if decide (x = z) then Some n else prev_of h x) →
     (∀ x, next_of h' x = next_of h x) → Q tt h') →
  wp (assign z (with_prev n)) Q h.
Proof.
  intros [y (b & Hb & _)%prev_of_some] Hz HQ. apply (wp_assign_buf z _ b); [done|].
  apply HQ.
  - split; [done|by apply holders_relink|]. intros q Hq. cbn. apply lookup_insert_ne. by intros ->.
  - intros x. unfold prev_of; cbn.
    destruct (decide (x = z)) as [->|Hne]; [by rewrite lookup_insert_eq|by rewrite lookup_insert_ne].
  - intros x. unfold next_of; cbn.
    destruct (decide (x = z)) as [->|Hne]; [by rewrite lookup_insert_eq, Hb|by rewrite lookup_insert_ne].
Qed.

(** ** Paths *)

Lemma path_app h x l1 z l2 y :
  path h x (l1 ++ z :: l2) y ↔ path h x l1 z ∧ path h z l2 y.
Proof.
  revert x. induction l1 as [|a l1 IH]; intros x; cbn; [done|]. rewrite IH. naive_solver.
Qed.

Lemma lst_in x l : lst x l ∈ x :: l.
Proof. revert x. induction l as [|z l IH]; intros x; cbn; [set_solver|]. set_solver. Qed.
Lemma lst_app x l1 z l2 : lst x (l1 ++ z :: l2) = lst z l2.
Proof. revert x. induction l1 as [|a l1 IH]; intros x; cbn; auto. Qed.

Lemma path_ends h x l y : path h x l y → next_of h (lst x l) = Some y ∧ prev_of h y = Some (lst x l).
Proof. revert x. induction l as [|z l IH]; intros x; cbn; [done|]. intros [_ ?]. by apply IH. Qed.

Lemma path_first h x l y : path h x l y → next_of h x = Some (default y (head l)).
Proof. destruct l; cbn; [by intros [? _]|by intros [[? _] _]]. Qed.

(** Every element is an object. *)
Lemma path_here h x l y z : path h x l y → z ∈ x :: l → is_Some (next_of h z).
Proof.
  revert x. induction l as [|a l IH]; intros x Hp Hz.
  - destruct Hp as [Hp _]. apply list_elem_of_singleton in Hz as ->. eauto.
  - destruct Hp as [[Hn _] Hp]. apply elem_of_cons in Hz as [->|Hz]; [eauto|]. by apply (IH a).
Qed.

Lemma next_prev_some h z : is_Some (next_of h z) → is_Some (prev_of h z).
Proof. unfold next_of, prev_of. rewrite !fmap_is_Some. done. Qed.

(** The same elements with another end. *)
Lemma path_retarget h h' x l y y' :
  path h x l y → NoDup (x :: l) →
  (∀ z, z ∈ x :: l → z ≠ lst x l → next_of h' z = next_of h z) →
  (∀ z, z ∈ l → prev_of h' z = prev_of h z) →
  next_of h' (lst x l) = Some y' → prev_of h' y' = Some (lst x l) → path h' x l y'.
Proof.
  revert x. induction l as [|a l IH]; intros x Hp Hnd Hn Hv Hl Hl'; cbn in *; [by split|].
  destruct Hp as [[Hn1 Hp1] Hp]. apply NoDup_cons in Hnd as [Hx Hnd]. split.
  - split; [rewrite Hn; [done|set_solver|]|rewrite Hv; [done|set_solver]].
    intros E. apply Hx. rewrite E. apply lst_in.
  - apply IH; try done.
    + intros z Hz. apply Hn. set_solver.
    + intros z Hz. apply Hv. set_solver.
Qed.

Lemma path_frame h h' x l y :
  path h x l y →
  (∀ z, z ∈ x :: l → next_of h' z = next_of h z) →
  (∀ z, z ∈ y :: l → prev_of h' z = prev_of h z) → path h' x l y.
Proof.
  revert x. induction l as [|a l IH]; intros x Hp Hn Hv; cbn in *.
  - destruct Hp. split; [rewrite Hn|rewrite Hv]; (done || set_solver).
  - destruct Hp as [[Hn1 Hp1] Hp]. split.
    + split; [rewrite Hn|rewrite Hv]; (done || set_solver).
    + apply IH; [done| |]; intros z Hz; [apply Hn|apply Hv]; set_solver.
Qed.

Lemma relinks_links S h h' q :
  relinks S h h' → q ∉ S → next_of h' q = next_of h q ∧ prev_of h' q = prev_of h q.
Proof. intros [_ _ O] Hq. unfold next_of, prev_of. by rewrite O. Qed.

(** A chain none of whose elements is touched. *)
Lemma chain_frame S h h' q l :
  relinks S h h' → chain h q l → (∀ x, x ∈ q :: l → x ∉ S) → chain h' q l.
Proof.
  intros Hr [Hp Hnd] HS. split; [|done].
  apply (path_frame h); [done| |]; intros z Hz; eapply relinks_links; eauto.
Qed.

Lemma chain_bufs h h' q l : bufs h' = bufs h → chain h q l → chain h' q l.
Proof.
  intros E [Hp Hnd]. split; [|done].
  apply (path_frame h); [done| |]; intros z _; unfold next_of, prev_of; by rewrite E.
Qed.

(** The same chain seen from the next element. *)
Lemma chain_rotate h p q l : chain h p (q :: l) → chain h q (l ++ [p]).
Proof.
  intros [[Hl Hp] Hnd]. split.
  - apply path_app. by split.
  - apply NoDup_cons in Hnd as [Hn Hnd]. apply NoDup_cons in Hnd as [Hq Hnd].
    apply NoDup_cons. split; [set_solver|]. apply NoDup_app. split_and!; [done| |apply NoDup_singleton].
    set_solver.
Qed.

(** ** The operations *)

Lemma wp_prependChain this A other B (Q : unit → heap → Prop) h :
  chain h this A → chain h other B → (∀ x, x ∈ this :: A → x ∉ other :: B) →
  (∀ h', chain h' this (A ++ other :: B) → relinks (this :: A ++ other :: B) h h' → Q tt h') →
  wp (prependChain this other) Q h.
Proof.
  intros [Hp Hnd] [Hp' Hnd'] Hdis HQ. set (S := this :: A ++ other :: B).
  destruct (path_ends _ _ _ _ Hp) as [Hn1 Hv1], (path_ends _ _ _ _ Hp') as [Hn2 Hv2].
  set (t := lst this A) in *. set (t' := lst other B) in *.
  assert (t ∈ this :: A) as Ht by apply lst_in. assert (t' ∈ other :: B) as Ht' by apply lst_in.
  assert (t ∈ S ∧ t' ∈ S ∧ this ∈ S ∧ other ∈ S) as (S1 & S2 & S3 & S4) by set_solver.
  unfold prependChain.
  destruct (prev_of_some _ _ _ Hv2) as (bo & Hbo & Eo), (prev_of_some _ _ _ Hv1) as (bt & Hbt & Et).
  apply wp_bind, (wp_deref_buf other bo); [done|]. apply wp_bind, (wp_deref_buf this bt); [done|].
  rewrite Eo, Et. apply wp_bind, (wp_set_next S); [eauto|done|]. intros h1 R1 N1 V1.
  apply wp_bind, (wp_set_prev S); [rewrite V1; eauto|done|]. intros h2 R2 V2 N2.
  apply wp_bind, (wp_set_next S); [rewrite N2, N1; case_decide; eauto|done|]. intros h3 R3 N3 V3.
  apply (wp_set_prev S); [rewrite V3, V2, V1; case_decide; eauto|done|]. intros h4 R4 V4 N4.
  assert (t ≠ t') as Htt by (intros E; apply (Hdis t Ht); by rewrite E).
  assert (this ≠ other) as Hto by (intros E; apply (Hdis this); [|rewrite E]; set_solver).
  assert (∀ x, next_of h4 x = if decide (x = t') then Some this else
            if decide (x = t) then Some other else next_of h x) as N.
  { intros x. by rewrite N4, N3, N2, N1. }
  assert (∀ x, prev_of h4 x = if decide (x = this) then Some t' else
            if decide (x = other) then Some t else prev_of h x) as V.
  { intros x. by rewrite V4, V3, V2, V1. }
  apply HQ; [|eapply relinks_trans; [|done]; eapply relinks_trans; [|done];
              by eapply relinks_trans].
  apply NoDup_cons in Hnd as [Hi Hnd], Hnd' as [Hi' Hnd'] .
  split.
  - apply path_app. split.
    + apply (path_retarget h h4 this A this other); [done|by apply NoDup_cons|..].
      * intros z Hz Hne. rewrite N, !decide_False; [done|done|]. intros ->. by apply (Hdis t').
      * intros z Hz. rewrite V, !decide_False; [done| |by intros ->].
        intros ->. apply (Hdis other); [by right|by left].
      * fold t. rewrite N, decide_False, decide_True by done. done.
      * rewrite V, decide_False, decide_True by done. done.
    + apply (path_retarget h h4 other B other this); [done|by apply NoDup_cons|..].
      * intros z Hz Hne. rewrite N, !decide_False; [done| |done]. intros ->. by apply (Hdis t).
      * intros z Hz. rewrite V, !decide_False; [done|by intros ->|].
        intros ->. apply (Hdis this); [by left|by right].
      * fold t'. by rewrite N, decide_True.
      * by rewrite V, decide_True.
  - change (this :: A ++ other :: B) with ((this :: A) ++ other :: B).
    apply NoDup_app. split_and!; [by apply NoDup_cons|done|by apply NoDup_cons].
Qed.

(** Taking the elements [hd :: B] out of a chain. *)
Section cut.
Context (h h' : heap) (this : Z) (A : list Z) (hd : Z) (B C : list Z).
Let t := lst this A.
Let tl := lst hd B.
Let n := default this (head C).
Hypothesis Hch : chain h this (A ++ hd :: B ++ C).

Lemma cut_facts :
  path h this A hd ∧ path h hd B n ∧ (C = [] ∨ ∃ C', C = n :: C' ∧ path h n C' this) ∧
  (∀ x, x ∈ this :: A → x ∉ hd :: B) ∧ (∀ x, x ∈ hd :: B → x ∉ this :: C) ∧
  (∀ x, x ∈ C → x ∉ this :: A) ∧ NoDup (this :: A) ∧ NoDup (hd :: B) ∧ NoDup (this :: A ++ C).
Proof.
  destruct Hch as [Hp Hnd]. apply path_app in Hp as [Hp1 Hp2].
  assert (path h hd B n ∧ (C = [] ∨ ∃ C', C = n :: C' ∧ path h n C' this)) as [Hp3 Hp4].
  { subst n. destruct C as [|c C']; cbn in *.
    - rewrite app_nil_r in Hp2. auto.
    - apply path_app in Hp2 as [? ?]. eauto 10. }
  change (this :: A ++ hd :: B ++ C) with ((this :: A) ++ (hd :: B) ++ C) in Hnd.
  apply NoDup_app in Hnd as (Hnd1 & Hd1 & Hnd2). apply NoDup_app in Hnd2 as (Hnd2 & Hd2 & Hnd3).
  split_and!; try done.
  - intros x Hx Hx'. apply (Hd1 x Hx). set_solver.
  - intros x Hx [->|Hx']%elem_of_cons; [|by apply (Hd2 x)]. apply (Hd1 this); set_solver.
  - intros x Hx Hx'. apply (Hd1 x Hx'). set_solver.
  - change (this :: A ++ C) with ((this :: A) ++ C). apply NoDup_app.
    split_and!; [done| |done]. intros x Hx Hx'. apply (Hd1 x Hx). set_solver.
Qed.

Lemma cut_links : prev_of h hd = Some t ∧ next_of h tl = Some n ∧ n ∈ this :: C ∧
  t ∈ this :: A ∧ tl ∈ hd :: B ∧ is_Some (prev_of h n) ∧ is_Some (next_of h t).
Proof.
  destruct cut_facts as (P1 & P2 & P3 & _). destruct (path_ends _ _ _ _ P1), (path_ends _ _ _ _ P2).
  split_and!; [done|done| |apply lst_in|apply lst_in|eauto|eauto].
  apply elem_of_cons. destruct P3 as [E|(C' & E & _)]; [left; subst n; by rewrite E|].
  right. rewrite E. apply elem_of_cons. by left.
Qed.

Lemma cut_chain :
  (∀ x, next_of h' x = if decide (x = tl) then Some hd else if decide (x = t) then Some n else next_of h x) →
  (∀ x, prev_of h' x = if decide (x = hd) then Some tl else if decide (x = n) then Some t else prev_of h x) →
  chain h' this (A ++ C) ∧ chain h' hd B.
Proof.
  intros N V. destruct cut_facts as (P1 & P2 & P3 & D1 & D2 & D3 & Hnd1 & Hnd2 & Hnd3).
  destruct cut_links as (_ & _ & Hn & Ht & Htl & _).
  assert (t ≠ tl) as Htt by (intros E; apply (D1 t Ht); by rewrite E).
  assert (n ≠ hd) as Hnh by (intros ->; apply (D2 hd); [set_solver|done]).
  assert (path h' this A n) as P1'.
  { apply (path_retarget h h' this A hd n); [done|done|..].
    - intros z Hz Hne. rewrite N, !decide_False; [done|done|]. intros ->. by apply (D1 tl).
    - intros z Hz. rewrite V, !decide_False; [done| |intros ->; apply (D1 hd); set_solver].
      intros ->. apply elem_of_cons in Hn as [->|Hn]; [by apply NoDup_cons in Hnd1 as [? _]|].
      apply (D3 n Hn). set_solver.
    - fold t. by rewrite N, decide_False, decide_True.
    - fold t. by rewrite V, decide_False, decide_True. }
  split; [split; [|done]|split; [|done]].
  - destruct P3 as [HC|(C' & HC & Hp)].
    + assert (n = this) as En by (subst n; by rewrite HC). rewrite HC, app_nil_r. by rewrite En in P1'.
    + rewrite HC. apply path_app. split; [done|].
      rewrite HC in D2, D3, Hnd3.
      assert (n ∉ this :: C') as HnC.
      { change (this :: A ++ n :: C') with ((this :: A) ++ n :: C') in Hnd3.
        apply NoDup_app in Hnd3 as (_ & Hd & Hnd3). apply NoDup_cons in Hnd3 as [? _].
        intros [->|?]%elem_of_cons; [|done]. apply (Hd this); set_solver. }
      apply (path_frame h); [done| |].
      * intros z Hz. rewrite N, !decide_False; [done| |].
        -- intros ->. apply (D3 t); [|done]. set_solver.
        -- intros ->. apply (D2 tl); [done|]. set_solver.
      * intros z Hz. rewrite V, !decide_False; [done|by intros ->|].
        intros ->. apply (D2 hd); set_solver.
  - apply (path_retarget h h' hd B n hd); [done|done|..].
    + intros z Hz Hne. rewrite N, !decide_False; [done| |done]. intros ->. by apply (D1 t).
    + intros z Hz. rewrite V, !decide_False; [done| |].
      * intros ->. apply (D2 n); [set_solver|done].
      * intros ->. by apply NoDup_cons in Hnd2 as [? _].
    + fold tl. by rewrite N, decide_True.
    + fold tl. by rewrite V, decide_True.
Qed.
End cut.

Lemma wp_set_links S z n m (Q : unit → heap → Prop) h :
  is_Some (next_of h z) → z ∈ S →
  (∀ h', relinks S h h' → (∀ x, next_of h' x = if decide (x = z) then Some n else next_of h x) →
     (∀ x, prev_of h' x = if decide (x = z) then Some m else prev_of h x) → Q tt h') →
  wp (assign z (with_links n m)) Q h.
Proof.
  intros [y (b & Hb & _)%next_of_some] Hz HQ. apply (wp_assign_buf z _ b); [done|].
  apply HQ.
  - split; [done|by apply holders_relink|]. intros q Hq. cbn. apply lookup_insert_ne. by intros ->.
  - intros x. unfold next_of; cbn.
    destruct (decide (x = z)) as [->|Hne]; [by rewrite lookup_insert_eq|by rewrite lookup_insert_ne].
  - intros x. unfold prev_of; cbn.
    destruct (decide (x = z)) as [->|Hne]; [by rewrite lookup_insert_eq|by rewrite lookup_insert_ne].
Qed.

Lemma wp_unlink this A q C (Q : unit → heap → Prop) h :
  chain h this (A ++ q :: C) →
  (∀ h', chain h' this (A ++ C) → chain h' q [] → relinks (this :: A ++ q :: C) h h' → Q tt h') →
  wp (unlink q) Q h.
Proof.
  intros Hch HQ. set (S := this :: A ++ q :: C).
  destruct (cut_links h this A q [] C Hch) as (Hv & Hn & HnC & Ht & _ & Hpn & Hnt).
  destruct (cut_facts h this A q [] C Hch) as (_ & _ & _ & D1 & D2 & _).
  cbn [lst] in *. set (t := lst this A) in *. set (n := default this (head C)) in *.
  assert (t ∈ S ∧ n ∈ S ∧ q ∈ S) as (S1 & S2 & S3) by set_solver.
  assert (q ≠ t) as Hqt by (intros E; apply (D1 t Ht); set_solver).
  assert (q ≠ n) as Hqn by (intros E; apply (D2 q); [set_solver|by rewrite E]).
  destruct (next_of_some _ _ _ Hn) as (b & Hb & En). destruct (prev_of_some _ _ _ Hv) as (b' & Hb' & Ev).
  assert (b' = b) as -> by congruence.
  unfold unlink. apply wp_bind, (wp_deref_buf q b); [done|]. rewrite En, Ev.
  apply wp_bind, (wp_set_prev S); [done|done|]. intros h1 R1 V1 N1.
  assert (next_of h1 q = Some n ∧ prev_of h1 q = Some t) as [Hn1 Hv1].
  { by rewrite N1, V1, decide_False. }
  destruct (next_of_some _ _ _ Hn1) as (b1 & Hb1 & En1), (prev_of_some _ _ _ Hv1) as (b1' & Hb1' & Ev1).
  assert (b1' = b1) as -> by congruence.
  apply wp_bind, (wp_deref_buf q b1); [done|]. rewrite En1, Ev1.
  apply wp_bind, (wp_set_next S); [by rewrite N1|done|]. intros h2 R2 N2 V2.
  apply (wp_set_links S); [rewrite N2, N1; case_decide; eauto|done|]. intros h3 R3 N3 V3.
  assert (relinks S h h3) as Hr by (eapply relinks_trans; [|done]; by eapply relinks_trans).
  destruct (cut_chain h h3 this A q [] C Hch) as [Hc1 Hc2].
  - intros x. cbn [lst]. by rewrite N3, N2, N1.
  - intros x. cbn [lst]. by rewrite V3, V2, V1.
  - by apply HQ.
Qed.

Lemma wp_unlink_alone p (Q : unit → heap → Prop) h :
  chain h p [] → (∀ h', chain h' p [] → relinks [p] h h' → Q tt h') → wp (unlink p) Q h.
Proof.
  intros [[Hn Hv] Hnd] HQ.
  destruct (next_of_some _ _ _ Hn) as (b & Hb & En). destruct (prev_of_some _ _ _ Hv) as (b' & Hb' & Ev).
  assert (b' = b) as -> by congruence. assert (p ∈ [p]) as Hin by set_solver.
  unfold unlink. apply wp_bind, (wp_deref_buf p b); [done|]. rewrite En, Ev.
  apply wp_bind, (wp_set_prev [p]); [eauto|done|]. intros h1 R1 V1 N1.
  assert (next_of h1 p = Some p ∧ prev_of h1 p = Some p) as [Hn1 Hv1].
  { by rewrite N1, V1, decide_True. }
  destruct (next_of_some _ _ _ Hn1) as (b1 & Hb1 & En1), (prev_of_some _ _ _ Hv1) as (b1' & Hb1' & Ev1).
  assert (b1' = b1) as -> by congruence.
  apply wp_bind, (wp_deref_buf p b1); [done|]. rewrite En1, Ev1.
  apply wp_bind, (wp_set_next [p]); [eauto|done|]. intros h2 R2 N2 V2.
  apply (wp_set_links [p]); [rewrite N2; case_decide; eauto|done|]. intros h3 R3 N3 V3.
  apply HQ; [|eapply relinks_trans; [|done]; by eapply relinks_trans].
  split; [|done]. split; [by rewrite N3, decide_True|by rewrite V3, decide_True].
Qed.

Lemma wp_pop p q l (Q : Z → heap → Prop) h :
  chain h p (q :: l) →
  (∀ h', chain h' q l → chain h' p [] → relinks (p :: q :: l) h h' → Q q h') →
  wp (pop p) Q h.
Proof.
  intros Hch HQ. pose proof (chain_rotate _ _ _ _ Hch) as Hrot.
  destruct Hch as [[[Hn _] _] Hnd]. destruct (next_of_some _ _ _ Hn) as (b & Hb & En).
  unfold pop. apply wp_bind, (wp_deref_buf p b); [done|]. rewrite En.
  apply wp_bind. apply (wp_unlink q l p []); [done|]. intros h' H1 H2 Hr.
  rewrite app_nil_r in H1. apply wp_ret.
  apply NoDup_cons in Hnd as [Hp _].
  rewrite (proj2 (Z.eqb_neq q p)) by set_solver.
  apply HQ; [done..|]. eapply relinks_mono; [|done]. set_solver.
Qed.

Lemma wp_pop_alone p (Q : Z → heap → Prop) h :
  chain h p [] → (∀ h', chain h' p [] → relinks [p] h h' → Q 0 h') → wp (pop p) Q h.
Proof.
  intros Hch HQ. pose proof Hch as [[Hn _] _]. destruct (next_of_some _ _ _ Hn) as (b & Hb & En).
  unfold pop. apply wp_bind, (wp_deref_buf p b); [done|]. rewrite En.
  apply wp_bind, wp_unlink_alone; [done|]. intros h' H1 Hr. apply wp_ret.
  rewrite Z.eqb_refl. by apply HQ.
Qed.

Lemma wp_separateChain this A hd B C (Q : Z → heap → Prop) h :
  chain h this (A ++ hd :: B ++ C) →
  (∀ h', chain h' this (A ++ C) → chain h' hd B → relinks (this :: A ++ hd :: B ++ C) h h' → Q hd h') →
  wp (separateChain this hd (lst hd B)) Q h.
Proof.
  intros Hch HQ. set (S := this :: A ++ hd :: B ++ C).
  destruct (cut_links h this A hd B C Hch) as (Hv & Hn & HnC & Ht & Htl & Hpn & Hnt).
  destruct (cut_facts h this A hd B C Hch) as (P1 & P2 & _ & D1 & D2 & _).
  set (t := lst this A) in *. set (n := default this (head C)) in *. set (tl := lst hd B) in *.
  assert (t ∈ S ∧ n ∈ S ∧ hd ∈ S ∧ tl ∈ S) as (S1 & S2 & S3 & S4) by set_solver.
  assert (t ≠ tl) as Htt by (intros E; apply (D1 t Ht); by rewrite E).
  assert (hd ≠ n) as Hhn by (intros E; apply (D2 hd); [by left|by rewrite E]).
  unfold separateChain. apply wp_bind, wp_assert.
  { apply negb_true_iff, Z.eqb_neq. intros E. apply (D2 hd); [by left|]. rewrite E. by left. }
  apply wp_bind, wp_assert.
  { apply negb_true_iff, Z.eqb_neq. intros E. apply (D2 tl); [done|]. rewrite E. by left. }
  destruct (prev_of_some _ _ _ Hv) as (b & Hb & Ev). destruct (next_of_some _ _ _ Hn) as (c & Hc & En).
  apply wp_bind, (wp_deref_buf hd b); [done|]. apply wp_bind, (wp_deref_buf tl c); [done|].
  rewrite Ev, En. apply wp_bind, (wp_set_next S); [done|done|]. intros h1 R1 N1 V1.
  assert (prev_of h1 hd = Some t) as Hv1 by (by rewrite V1).
  assert (next_of h1 tl = Some n) as Hn1 by (by rewrite N1, decide_False).
  destruct (prev_of_some _ _ _ Hv1) as (b1 & Hb1 & Ev1). destruct (next_of_some _ _ _ Hn1) as (c1 & Hc1 & En1).
  apply wp_bind, (wp_deref_buf hd b1); [done|]. apply wp_bind, (wp_deref_buf tl c1); [done|].
  rewrite Ev1, En1. apply wp_bind, (wp_set_prev S); [by rewrite V1|done|]. intros h2 R2 V2 N2.
  apply wp_bind, (wp_set_prev S); [rewrite V2, V1; case_decide; eauto|done|]. intros h3 R3 V3 N3.
  apply wp_bind, (wp_set_next S); [rewrite N3, N2, N1; case_decide; eauto|done|]. intros h4 R4 N4 V4.
  apply wp_ret.
  assert (relinks S h h4) as Hr by
    (eapply relinks_trans; [|done]; eapply relinks_trans; [|done]; by eapply relinks_trans).
  destruct (cut_chain h h4 this A hd B C Hch) as [Hc1' Hc2'].
  - intros x. fold t tl n. by rewrite N4, N3, N2, N1.
  - intros x. fold t tl n. by rewrite V4, V3, V2, V1.
  - by apply HQ.
Qed.
