(* ===== verification/IOBufMem.v ===== *)
(** Bytes in blocks, allocation and the release of IOBuf objects: what the
    helpers of the class do to the invariant and to the bytes of the others. *)
From S2P Require Import Prelude IOBuf IOBufInv IOBufChain.
Import IOBuf.

(** ** Bytes *)

Lemma length_slice o n l :
  0 ≤ o → 0 ≤ n → o + n ≤ Z.of_nat (length l) → length (slice o n l) = Z.to_nat n.
Proof. intros. unfold slice. rewrite length_take, length_drop. lia. Qed.

Lemma length_splice o new l :
  0 ≤ o → o + Z.of_nat (length new) ≤ Z.of_nat (length l) → length (splice o new l) = length l.
Proof. intros. unfold splice. rewrite !length_app, length_take, length_drop. lia. Qed.

(** What was written is read back. *)
Lemma slice_splice_same o new l :
  0 ≤ o → o + Z.of_nat (length new) ≤ Z.of_nat (length l) →
  slice o (Z.of_nat (length new)) (splice o new l) = new.
Proof.
  intros. unfold slice, splice. rewrite Nat2Z.id.
  rewrite drop_app_length' by (rewrite length_take; lia). by rewrite take_app_length.
Qed.

(** Bytes before what was written. *)
Lemma slice_splice_before o n o' new l :
  0 ≤ o → 0 ≤ n → o + n ≤ o' → o' + Z.of_nat (length new) ≤ Z.of_nat (length l) →
  slice o n (splice o' new l) = slice o n l.
Proof.
  intros Ho Hn Hle Hl. unfold slice, splice. rewrite drop_app_le by (rewrite length_take; lia).
  rewrite take_app_le by (rewrite length_drop, length_take; lia).
  rewrite skipn_firstn_comm, take_take. f_equal. lia.
Qed.

Lemma slice_app o n m l :
  0 ≤ o → 0 ≤ n → 0 ≤ m → slice o (n + m) l = slice o n l ++ slice (o + n) m l.
Proof.
  intros. unfold slice. rewrite !Z2Nat.inj_add by lia.
  rewrite <-drop_drop. by rewrite take_take_drop.
Qed.

Definition bytes (m : gmap Z (list Z)) (b : iobuf) : list Z :=
  slice (off (data_ b)) (length_ b) (default [] (m !! blk (data_ b))).

Lemma bytes_length m b : geo m b → length (bytes m b) = Z.to_nat (length_ b).
Proof.
  intros [Hl Ho He Hb Hm]. unfold bytes. destruct (decide (length_ b = 0)) as [E|Hne].
  - rewrite E. unfold slice. by rewrite take_0.
  - destruct Hm as (l & Hl' & ?); [lia|]. rewrite Hb, Hl'. cbn. apply length_slice; lia.
Qed.

Lemma bytes_ext m m' b :
  m' !! blk (buf_ b) = m !! blk (buf_ b) → blk (data_ b) = blk (buf_ b) → bytes m' b = bytes m b.
Proof. intros E Hb. unfold bytes. by rewrite Hb, E. Qed.

Lemma in_range_true o n l :
  0 ≤ o → 0 ≤ n → o + n ≤ Z.of_nat (length l) → in_range o n l = true.
Proof. intros. unfold in_range. rewrite !andb_true_iff, !Z.leb_le. lia. Qed.

Lemma wp_load b (Q : list Z → heap → Prop) h :
  geo (mem h) b → Q (bytes (mem h) b) h → wp (load (data_ b) (length_ b)) Q h.
Proof.
  intros [Hl Ho He Hb Hm] HQ. unfold load, bytes in *. wp_step.
  - apply Z.eqb_eq in Heqb0. rewrite Heqb0 in HQ. unfold slice in HQ. rewrite take_0 in HQ.
    by apply wp_ret.
  - apply Z.eqb_neq in Heqb0. destruct Hm as (l & Hl' & ?); [lia|].
    apply wp_bind. eapply wp_intro; [done|].
    apply wp_bind, (wp_lift _ l); [by rewrite Hb, Hl'|].
    rewrite in_range_true by lia. apply wp_ret. by rewrite Hb, Hl' in HQ.
Qed.

Lemma wp_store p bs l (Q : unit → heap → Prop) h :
  mem h !! blk p = Some l → 0 ≤ off p → off p + Z.of_nat (length bs) ≤ Z.of_nat (length l) →
  Q tt (set_mem (<[blk p := splice (off p) bs l]> (mem h)) h) → wp (store p bs) Q h.
Proof.
  intros Hl Ho Hle HQ. unfold store. destruct bs as [|x bs].
  - apply wp_ret. unfold splice in HQ; cbn in HQ.
    rewrite Nat.add_0_r, take_drop, insert_id in HQ by done. by destruct h.
  - apply wp_bind. eapply wp_intro; [done|]. apply wp_bind, (wp_lift _ l); [by rewrite Hl|].
    rewrite in_range_true by (cbn in *; lia). by apply wp_modify.
Qed.

(** Copying an object's bytes to [dst]. *)
Lemma wp_copy dst b l (Q : unit → heap → Prop) h :
  geo (mem h) b → mem h !! blk dst = Some l → 0 ≤ off dst →
  off dst + length_ b ≤ Z.of_nat (length l) →
  Q tt (set_mem (<[blk dst := splice (off dst) (bytes (mem h) b) l]> (mem h)) h) →
  wp (memmove dst (data_ b) (length_ b)) Q h.
Proof.
  intros Hg Hl Ho Hle HQ. unfold memmove. apply wp_bind, wp_load; [done|].
  apply (wp_store _ _ l); [done..| |done]. rewrite bytes_length by done. destruct Hg. lia.
Qed.

(** ** Allocation *)

Section alloc.
Context (uninit : Z → Z → Z) (mem_limit : Z).

Lemma land_round x : Z.land x (Z.lnot 7) = x / 8 * 8.
Proof.
  rewrite <-Z.ldiff_land. change 7 with (Z.ones 3). rewrite Z.ldiff_ones_r by lia.
  rewrite Z.shiftl_mul_pow2, Z.shiftr_div_pow2 by lia. done.
Qed.

Lemma goodExtBufferSize_bounds c :
  0 ≤ c < 2 ^ 61 → c + 24 ≤ goodExtBufferSize c ≤ c + 31.
Proof.
  intros Hc. unfold goodExtBufferSize, sizeof_SharedInfo. rewrite land_round.
  rewrite (u64_small (c + 24)) by lia.
  pose proof (Z.div_mod (c + 24 + 7) 8 ltac:(lia)) as Hd.
  pose proof (Z.mod_pos_bound (c + 24 + 7) 8 ltac:(lia)) as Hm.
  rewrite u64_small by lia. lia.
Qed.

Lemma wp_malloc size n (Q : option Z → heap → Prop) h :
  size ≤ mem_limit →
  Q (Some (brk h)) (set_mem (<[brk h := uninit (brk h) <$> seqZ 0 n]> (mem h))
                      (set_brk (brk h + 8) h)) →
  wp (malloc uninit mem_limit size n) Q h.
Proof.
  intros Hs HQ. unfold malloc. rewrite (proj2 (Z.ltb_ge _ _) Hs).
  unfold fresh. apply wp_bind, wp_bind, wp_gets, wp_bind, wp_modify, wp_ret.
  apply wp_bind, wp_modify, wp_ret. done.
Qed.

(** A buffer nobody refers to yet but the one who allocated it. *)
Definition pending (a i cap : Z) : iobuf :=
  mk_iobuf 0 0 (mk_ptr a 0) (mk_ptr a 0) 0 cap (packFlagsAndSharedInfo 0 i).

Record ext_alloc (U : gset Z) (R : gmap Z iobuf) (h : heap) (c a i cap : Z) (h' : heap) : Prop := {
  ea_inv : inv U (<[i := pending a i cap]> R) h';
  ea_cap : c ≤ cap ≤ c + 7;
  ea_mem : ∃ l, mem h' = <[a := l]> (mem h) ∧ Z.of_nat (length l) = cap;
  ea_new : mem h !! a = None ∧ R !! i = None ∧ brk h ≤ a ∧ brk h ≤ i ∧ 0 < a ∧ i mod 8 = 0 ∧ 0 < i;
  ea_bufs : bufs h' = bufs h;
  ea_stores : stores h' = stores h;
  ea_brk : brk h < brk h';
  ea_infos : infos h' = <[i := mk_shared_info FreeMalloc 0 1 a]> (infos h);
  ea_ne : infos h !! i = None
}.

Lemma inv_fresh_info U R h : inv U R h → ∀ i, brk h ≤ i → infos h !! i = None ∧ R !! i = None ∧
  mem h !! i = None ∧ stores h !! i = None.
Proof.
  intros Hi i Hle. split_and!; apply eq_None_not_Some; intros [x Hx].
  - pose proof (i_infos _ _ _ Hi _ _ Hx). lia.
  - pose proof (i_key _ _ _ Hi _ _ Hx). lia.
  - pose proof (i_mem _ _ _ Hi _ _ Hx). lia.
  - pose proof (i_stores _ _ _ Hi _ _ Hx). lia.
Qed.

(** The block of a storage is older than the break. *)
Lemma inv_sblock U R h p st :
  inv U R h → stores h !! p = Some st → sblock st ≠ 0 → sblock st < brk h.
Proof.
  intros Hi Hp Hne. destruct (so_block _ _ _ _ (i_store _ _ _ Hi _ _ Hp) Hne) as [l Hl].
  pose proof (i_mem _ _ _ Hi _ _ Hl). lia.
Qed.

Lemma pending_word a i cap : i mod 8 = 0 → sharedInfo (pending a i cap) = i ∧ flags (pending a i cap) = 0.
Proof. intros Hi. by apply pack_sharedInfo. Qed.

Lemma pending_inv U R h a i cap l :
  inv U R h → brk h = a → i = a + 8 → Z.of_nat (length l) = cap → cap < 2 ^ 62 →
  inv U (<[i := pending a i cap]> R)
    (set_infos (<[i := mk_shared_info FreeMalloc 0 1 a]> (infos h))
       (set_brk (i + 8) (set_mem (<[a := l]> (mem h)) (set_brk (a + 8) h)))).
Proof.
  intros Hi Hba Hia Hl Hcap. pose proof (i_brk _ _ _ Hi) as [Hb0 Hb8].
  assert (i mod 8 = 0) as Hi8 by (rewrite Hia, <-Hba, Z.add_mod, Hb8 by lia; done).
  destruct (pending_word a i cap Hi8) as [Ew Ef].
  assert ((i + 8) mod 8 = 0) as Hi88 by (rewrite Z.add_mod, Hi8 by lia; done).
  pose proof (inv_fresh_info U R h Hi) as Hfr.
  eapply (inv_set_brk _ _ _ (a + 8)) in Hi as Hi1; [|lia|by rewrite <-Hia].
  eapply (inv_new_block _ _ _ a l) in Hi1 as Hi2; [|apply Hfr; lia|cbn; lia].
  eapply (inv_set_brk _ _ _ (i + 8)) in Hi2 as Hi3; [|cbn; lia|done].
  eapply (inv_claim U _ _ a i (pending a i cap) (mk_shared_info FreeMalloc 0 1 a)); cbn.
  - eapply (inv_new_info _ R _ i (pending a i cap) (mk_shared_info FreeMalloc 0 1 a));
      [exact Hi3| |done|done|done| |by left|].
    + split; rewrite ?Ew; cbn; try done.
      * apply Hfr. lia.
      * lia.
      * split; [apply Hfr; lia|lia].
      * split; cbn; try lia; try done. intros _. exists l. rewrite lookup_insert_eq. split; [done|lia].
      * lia.
      * intros j c Hj E. pose proof (i_key _ _ _ Hi _ _ Hj). lia.
      * intros p st Hp Hne E. pose proof (inv_sblock _ _ _ _ _ Hi Hp Hne). lia.
    + by rewrite Ew.
    + unfold backs; cbn. rewrite Ef, lookup_insert_eq. cbn.
      split_and!; [by right| |done|eauto]. split; [intros _; lia|done].
  - by rewrite lookup_insert_eq.
  - rewrite Ew. lia.
  - by rewrite Ew, lookup_insert_eq.
  - done.
  - done.
Qed.

Lemma wp_allocExtBuffer U R c (Q : Z * Z * Z → heap → Prop) h :
  inv U R h → 0 ≤ c < 2 ^ 61 → c + 31 ≤ mem_limit →
  (∀ a i cap h', ext_alloc U R h c a i cap h' → Q (a, i, cap) h') →
  wp (allocExtBuffer uninit mem_limit c) Q h.
Proof.
  intros Hi Hc Hlim HQ. pose proof (goodExtBufferSize_bounds c Hc) as Hg.
  set (size := goodExtBufferSize c) in *. unfold sizeof_SharedInfo in *.
  pose proof (i_brk _ _ _ Hi) as [Hb0 Hb8].
  pose proof (inv_fresh_info U R h Hi) as Hfr.
  unfold allocExtBuffer. fold size. apply wp_bind, wp_malloc; [lia|].
  unfold initExtBuffer, fresh. apply wp_bind, wp_bind, wp_bind, wp_gets, wp_bind, wp_modify, wp_ret.
  apply wp_bind, wp_modify, wp_ret, wp_ret. cbn [brk set_mem set_brk].
  assert (length (uninit (brk h) <$> seqZ 0 (size - 24)) = Z.to_nat (size - 24)) as Hlen
    by (by rewrite length_fmap, length_seqZ).
  unfold sizeof_SharedInfo.
  apply HQ. split; cbn; try done; try lia.
  - apply pending_inv; (done || lia).
  - eexists. split; [done|]. rewrite Hlen. lia.
  - assert ((brk h + 8) mod 8 = 0) by (rewrite Z.add_mod, Hb8 by lia; done).
    split_and!; (done || lia || (apply Hfr; lia)).
  - apply Hfr. lia.
Qed.

(** Nothing of the holders is touched by allocating. *)
Lemma ext_alloc_frames U R h c a i cap h' :
  inv U R h → ext_alloc U R h c a i cap h' → frames R h h'.
Proof.
  intros Hi [_ _ (l & Hm & _) (Ha & _ & Hle & _) Hb Hs Hbr _ _]. split; [done| | |lia].
  - intros k b Hk. rewrite Hm. rewrite lookup_insert_ne; [done|].
    pose proof (i_key _ _ _ Hi _ _ Hk). lia.
  - intros q. unfold heapobj. by rewrite Hs.
Qed.
End alloc.
