(* ===== verification/IOBufLife.v ===== *)
(** Objects come and go: operator new and delete, create, the destruction of a
    chain, and the frame every operation of the class respects. *)
From S2P Require Import Prelude IOBuf IOBufInv IOBufChain IOBufMem.
Import IOBuf.

(** What holds between two calls. *)
Record ok (U : gset Z) (h : heap) : Prop := {
  ok_inv : inv U (holders h) h;
  ok_objs : ∀ p, heapobj h p → is_Some (bufs h !! p);
  ok_addr : ∀ p b, bufs h !! p = Some b → 0 < p
}.

(** Objects not in [S] keep their fields, their block and their storage. *)
Record affects (S : list Z) (h h' : heap) : Prop := {
  af_bufs : ∀ k, k ∉ S → bufs h' !! k = bufs h !! k;
  af_mem : ∀ k c, k ∉ S → bufs h !! k = Some c → mem h' !! blk (buf_ c) = mem h !! blk (buf_ c);
  af_heap : ∀ k, k ∉ S → heapobj h' k ↔ heapobj h k;
  af_brk : brk h ≤ brk h'
}.

Lemma affects_refl S h : affects S h h.
Proof. by split. Qed.

Lemma affects_trans S h1 h2 h3 : affects S h1 h2 → affects S h2 h3 → affects S h1 h3.
Proof.
  intros [B1 M1 H1 K1] [B2 M2 H2 K2]. split.
  - intros k Hk. by rewrite B2, B1.
  - intros k c Hk Hc. rewrite (M2 k c), (M1 k c); [done..|]. by rewrite B1.
  - intros k Hk. by rewrite H2, H1.
  - lia.
Qed.

Lemma affects_mono S S' h h' : S ⊆ S' → affects S h h' → affects S' h h'.
Proof. intros HS [B M H K]. split; eauto. Qed.

Lemma relinks_affects S h h' : relinks S h h' → affects S h h'.
Proof.
  intros Hr. destruct (relinks_rest _ _ _ Hr) as (Em & Ei & Es & Eb). destruct Hr as [E H O].
  split; [done|by rewrite Em| |by rewrite Eb]. intros k _. unfold heapobj. by rewrite Es.
Qed.

Lemma relinks_heapobj S h h' p : relinks S h h' → heapobj h' p ↔ heapobj h p.
Proof. intros Hr. destruct (relinks_rest _ _ _ Hr) as (_ & _ & Es & _). unfold heapobj. by rewrite Es. Qed.

Lemma holders_dom h p : is_Some (holders h !! p) ↔ is_Some (bufs h !! p).
Proof. unfold holders. by rewrite lookup_fmap, fmap_is_Some. Qed.

Lemma relinks_ok U S h h' : relinks S h h' → ok U h → ok U h'.
Proof.
  intros Hr [Hi Ho Ha]. split; [by eapply relinks_inv| |].
  - intros p Hp. apply holders_dom. rewrite (rl_holders _ _ _ Hr). apply holders_dom, Ho.
    by apply (relinks_heapobj _ _ _ _ Hr).
  - intros p b Hp. assert (is_Some (bufs h !! p)) as [c Hc]; [|by eapply Ha].
    apply holders_dom. rewrite <-(rl_holders _ _ _ Hr). apply holders_dom. eauto.
Qed.

(** The bytes of an object, and of a chain. *)
Definition bytes_at (h : heap) (p : Z) : list Z :=
  match bufs h !! p with Some b => bytes (mem h) b | None => [] end.
Definition contents (h : heap) (l : list Z) : list Z := concat (bytes_at h <$> l).
#[global] Arguments contents _ _ : simpl never.

Lemma ok_geo U h p b : ok U h → bufs h !! p = Some b → geo (mem h) b.
Proof.
  intros Hok Hp. destruct (i_geo _ _ _ (ok_inv _ _ Hok) p (strip b)); [by apply holders_lookup|].
  by split.
Qed.

Lemma affects_bytes U S h h' p :
  ok U h → affects S h h' → p ∉ S → bytes_at h' p = bytes_at h p.
Proof.
  intros Hok [B M _ _] Hp. unfold bytes_at. rewrite B by done.
  destruct (bufs h !! p) as [b|] eqn:E; [|done].
  apply bytes_ext; [by eapply M|]. by apply (geo_blk _ _ (ok_geo U h p b Hok E)).
Qed.

Lemma affects_contents U S h h' l :
  ok U h → affects S h h' → (∀ x, x ∈ l → x ∉ S) → contents h' l = contents h l.
Proof.
  intros Hok Ha HS. unfold contents. f_equal. apply list_fmap_ext. intros i x Hx.
  apply (affects_bytes U S); [done..|]. apply HS. by eapply list_elem_of_lookup_2.
Qed.

Lemma relinks_bytes S h h' p : relinks S h h' → bytes_at h' p = bytes_at h p.
Proof.
  intros Hr. destruct (relinks_rest _ _ _ Hr) as (Em & _). unfold bytes_at. rewrite Em.
  pose proof (rl_holders _ _ _ Hr) as E.
  assert (holders h' !! p = holders h !! p) as E' by congruence. unfold holders in E'.
  rewrite !lookup_fmap in E'. destruct (bufs h' !! p), (bufs h !! p); try done.
  injection E' as E1 E2 E3 E4 E5. unfold bytes. by rewrite E1, E3.
Qed.

Lemma relinks_contents S h h' l : relinks S h h' → contents h' l = contents h l.
Proof.
  intros Hr. unfold contents. f_equal. apply list_fmap_ext. intros i x _. by eapply relinks_bytes.
Qed.

Lemma affects_chain S h h' q l :
  affects S h h' → chain h q l → (∀ x, x ∈ q :: l → x ∉ S) → chain h' q l.
Proof.
  intros [B _ _ _] [Hp Hnd] HS. split; [|done].
  apply (path_frame h); [done| |]; intros z Hz; unfold next_of, prev_of; by rewrite B by auto.
Qed.

(** A chain is no longer than the number of objects. *)
Lemma chain_bufs_in h p l x : chain h p l → x ∈ p :: l → is_Some (bufs h !! x).
Proof.
  intros [Hp _] Hx. destruct (path_here _ _ _ _ _ Hp Hx) as [y (b & Hb & _)%next_of_some]. eauto.
Qed.

Lemma chain_length h p l : chain h p l → (length l < size (bufs h))%nat.
Proof.
  intros Hch. pose proof Hch as [_ Hnd]. rewrite <-size_dom.
  assert (size (list_to_set (p :: l) : gset Z) ≤ size (dom (bufs h)))%nat as Hs.
  { apply subseteq_size. intros x Hx%elem_of_list_to_set. apply elem_of_dom.
    by eapply chain_bufs_in. }
  rewrite size_list_to_set in Hs by done. cbn in Hs. lia.
Qed.

(** ** Storage of objects *)

Lemma store_1_or_3 R h p st : store_ok R h p st → iobuf_in_use st = true →
  (sflags st = 1 ∧ data_in_use st = false) ∨ (sflags st = 3 ∧ data_in_use st = true).
Proof.
  intros [_ Hfl _ _ _ _]. unfold iobuf_in_use, data_in_use.
  assert (sflags st = 1 ∨ sflags st = 2 ∨ sflags st = 3) as [-> |[-> | ->]] by lia; auto. done.
Qed.

Lemma inv_release_keep U R h q st :
  inv U R h → stores h !! q = Some st → sflags st = 3 →
  inv U R (set_stores (<[q := mk_heap_storage (magic st) 2 (sblock st)]> (stores h)) h).
Proof.
  intros Hi Hq Hf. assert (data_in_use st = true) as Hd by (unfold data_in_use; by rewrite Hf).
  pose proof (i_store _ _ _ Hi q st Hq) as Hst.
  assert (sblock st ≠ 0) as Hnz by (intros E; rewrite (so_alone _ _ _ _ Hst E) in Hf; done).
  eapply inv_shrink; [done|split; try done; cbn| | |]; cbn.
  - intros i s Hs. exists s. by destruct (i_count _ _ _ Hi i s Hs).
  - intros p st' [[<- <-]|[_ Hp]]%lookup_insert_Some; eauto.
  - intros k b Hk Hn. destruct (i_backs _ _ _ Hi k b Hk Hn) as (s & ? & _). eauto.
  - intros k b s Hk Hn Hs Hfn st0 Hst0 Hd0.
    destruct (decide (userData s = q)) as [E|Hne].
    + rewrite E in *. exists (mk_heap_storage (magic st) 2 (sblock st)). rewrite lookup_insert_eq.
      assert (st0 = st) as -> by congruence. done.
    + exists st0. by rewrite lookup_insert_ne.
  - intros i s Hs Hz. destruct (i_dead _ _ _ Hi i s Hs Hz) as (? & ? & st0 & Hst0 & ? & ?).
    split_and!; [done..|]. exists st0. cbn. rewrite lookup_insert_ne; [done|].
    intros E. rewrite <-E in *. congruence.
  - intros p st' [[<- <-]|[_ Hp]]%lookup_insert_Some.
    + destruct Hst as [? ? ? ? Hdata ?]. split; cbn; try done.
      intros _. by destruct (Hdata Hd) as (i & s & ? & ?); eauto.
    + by destruct (i_store _ _ _ Hi p st' Hp).
  - intros a l Ha. destruct (i_leak _ _ _ Hi a l Ha) as [?|[?|(p & st' & Hp & <-)]]; auto.
    right; right. destruct (decide (p = q)) as [->|Hne].
    + eexists _, _. rewrite lookup_insert_eq. split; [done|]. cbn. congruence.
    + exists p, st'. by rewrite lookup_insert_ne.
Qed.

(** The storage of an object alone is freed. *)
Lemma inv_release_alone U R h q st :
  inv U R h → stores h !! q = Some st → sflags st = 1 → sblock st = 0 →
  inv U R (set_stores (delete q (stores h)) h).
Proof.
  intros Hi Hq Hf Hz. assert (data_in_use st = false) as Hd by (unfold data_in_use; by rewrite Hf).
  eapply inv_shrink; [done|split; try done; cbn| | |]; cbn.
  - intros i s Hs. exists s. by destruct (i_count _ _ _ Hi i s Hs).
  - intros p st' [_ Hp]%lookup_delete_Some; eauto.
  - intros k b Hk Hn. destruct (i_backs _ _ _ Hi k b Hk Hn) as (s & ? & _). eauto.
  - intros k b s Hk Hn Hs Hfn st0 Hst0 Hd0. exists st0.
    rewrite lookup_delete_ne; [done|]. intros E. rewrite <-E in *. congruence.
  - intros i s Hs Hr. destruct (i_dead _ _ _ Hi i s Hs Hr) as (? & Hh & st0 & Hst0 & Hsb & ?).
    split_and!; [done..|]. exists st0. cbn. rewrite lookup_delete_ne; [done|]. intros E. rewrite <-E in *. congruence.
  - intros p st' [_ Hp]%lookup_delete_Some. by destruct (i_store _ _ _ Hi p st' Hp).
  - intros a l Ha. destruct (i_leak _ _ _ Hi a l Ha) as [?|[?|(p & st' & Hp & <-)]]; auto.
    right; right. exists p, st'. rewrite lookup_delete_ne; [done|]. intros <-.
    assert (st' = st) as -> by congruence. rewrite Hz in Ha.
    pose proof (i_mem _ _ _ Hi _ _ Ha). lia.
Qed.

(** A combined storage is freed with the memory and the SharedInfo in it. *)
Lemma inv_release_combined U R h q st :
  inv U R h → stores h !! q = Some st → sflags st = 1 → sblock st ≠ 0 →
  inv U R (set_infos (filter (fun '(_, s) => host s ≠ sblock st) (infos h))
             (set_mem (delete (sblock st) (mem h)) (set_stores (delete q (stores h)) h))).
Proof.
  intros Hi Hq Hf Hz. assert (data_in_use st = false) as Hd by (unfold data_in_use; by rewrite Hf).
  pose proof (i_store _ _ _ Hi q st Hq) as Hst.
  pose proof (so_free _ _ _ _ Hst Hz Hd) as Hfree.
  assert (∀ i s, infos h !! i = Some s → 0 < refcount s → host s ≠ sblock st) as Hlive.
  { intros i s Hs Hr E. destruct (inv_holder _ _ _ _ _ Hi Hs Hr) as (k & b & Hk & _ & (Hh & _) & _).
    destruct Hh as [Hh|Hh]; [congruence|]. apply (Hfree k b Hk). congruence. }
  assert (∀ k b, R !! k = Some b → sharedInfo b ≠ 0 → ∃ s, infos h !! sharedInfo b = Some s ∧
    host s ≠ sblock st) as Hown.
  { intros k b Hk Hn. destruct (i_backs _ _ _ Hi k b Hk Hn) as (s & Hs & Hh & _).
    exists s. split; [done|]. apply (Hlive _ _ Hs).
    destruct (i_count _ _ _ Hi _ _ Hs) as [-> _]. rewrite (owners_delete R k b _ Hk), decide_True by done. lia. }
  eapply inv_shrink; [done|split; try done; cbn| | |]; cbn.
  - by intros a l [_ ?]%lookup_delete_Some.
  - intros i s [Hs _]%map_lookup_filter_Some. exists s. by destruct (i_count _ _ _ Hi i s Hs).
  - intros p st' [_ Hp]%lookup_delete_Some; eauto.
  - intros k b Hk. cbn. by rewrite lookup_delete_ne by (by apply not_eq_sym, (Hfree k)).
  - intros k b Hk Hn. destruct (Hown k b Hk Hn) as (s & Hs & Hh). exists s.
    by apply map_lookup_filter_Some.
  - intros k b s Hk Hn Hs Hfn st0 Hst0 Hd0. exists st0.
    rewrite lookup_delete_ne; [done|]. intros E. rewrite <-E in *. congruence.
  - intros i s [Hs Hh]%map_lookup_filter_Some Hr.
    destruct (i_dead _ _ _ Hi i s Hs Hr) as (? & Hh0 & st0 & Hst0 & Hsb & ?).
    split_and!; [done..|]. exists st0. cbn. rewrite lookup_delete_ne; [done|]. intros E. rewrite <-E in *. congruence.
  - intros p st' [Hne Hp]%lookup_delete_Some.
    destruct (i_store _ _ _ Hi p st' Hp) as [? ? ? Hbl Hdata ?]. split; cbn; try done.
    + intros Hz'. rewrite lookup_delete_ne; [by apply Hbl|]. intros E. apply Hne.
      by apply (i_sep _ _ _ Hi q p st st').
    + intros Hu. destruct (Hdata Hu) as (i & s & Hs & ? & ? & Hr). exists i, s.
      split_and!; try done. apply map_lookup_filter_Some. split; [done|]. by eapply Hlive.
  - intros a l [Hne Ha]%lookup_delete_Some.
    destruct (i_leak _ _ _ Hi a l Ha) as [?|[(k & b & s & Hk & Hn & Hs & Hfn & Hb)|(p & st' & Hp & <-)]]; auto.
    + right; left. exists k, b, s. split_and!; try done. apply map_lookup_filter_Some.
      split; [done|]. destruct (Hown k b Hk Hn) as (s' & ? & ?). congruence.
    + right; right. exists p, st'. rewrite lookup_delete_ne; [done|]. intros E. rewrite <-E in *. congruence.
Qed.

Lemma wp_operator_delete U R q (Q : unit → heap → Prop) h :
  inv U R h → heapobj h q →
  (∀ h', inv U R h' → bufs h' = bufs h → same_blocks R h h' →
     (∀ k, heapobj h' k ↔ heapobj h k ∧ k ≠ q) → brk h' = brk h → Q tt h') →
  wp (operator_delete q) Q h.
Proof.
  intros Hi (st & Hq & Hu) HQ. unfold operator_delete, releaseStorage.
  pose proof (i_store _ _ _ Hi q st Hq) as Hst.
  apply wp_bind. eapply wp_intro; [done|]. apply wp_bind, (wp_lift _ st); [by rewrite Hq|].
  apply wp_bind, wp_assert; [by apply Z.eqb_eq, (so_magic _ _ _ _ Hst)|].
  destruct (store_1_or_3 _ _ _ _ Hst Hu) as [[Hf Hd]|[Hf Hd]]; rewrite Hf;
    (apply wp_bind, wp_assert; [done|]); cbn -[wp free].
  - apply wp_bind, wp_modify. wp_step.
    + apply Z.eqb_eq in Heqb. apply wp_ret, HQ; try done; [by eapply inv_release_alone|].
      intros k. unfold heapobj; cbn. split.
      * intros (st' & [Hne ?]%lookup_delete_Some & ?). eauto.
      * intros [(st' & ? & ?) Hne]. exists st'. by rewrite lookup_delete_ne.
    + apply Z.eqb_neq in Heqb. destruct (so_block _ _ _ _ Hst Heqb) as [l Hl].
      eapply wp_free; [done|]. cbn. apply HQ; try done; [by eapply inv_release_combined| |].
      * intros k b Hk. cbn. rewrite lookup_delete_ne; [done|].
        by apply not_eq_sym, (so_free _ _ _ _ Hst Heqb Hd k).
      * intros k. unfold heapobj; cbn. split.
        -- intros (st' & [Hne ?]%lookup_delete_Some & ?). eauto.
        -- intros [(st' & ? & ?) Hne]. exists st'. by rewrite lookup_delete_ne.
  - apply wp_modify, HQ; try done; [by apply inv_release_keep|].
    intros k. unfold heapobj; cbn. split.
    + intros (st' & [[<- <-]|[Hne ?]]%lookup_insert_Some & ?); [done|]. eauto.
    + intros [(st' & ? & ?) Hne]. exists st'. by rewrite lookup_insert_ne.
Qed.

(** ** Destruction *)

Lemma wp_delete_one U q b (Q : unit → heap → Prop) h :
  ok U h → bufs h !! q = Some b → heapobj h q →
  (∀ h', ok U h' → bufs h' = delete q (bufs h) → affects [q] h h' → Q tt h') →
  wp (delete_one q) Q h.
Proof.
  intros [Hi Ho Ha] Hq Hh HQ. unfold delete_one. apply wp_bind.
  eapply wp_mono.
  { eapply (wp_decrementRefcount U (holders h) h q (strip b) b Hi); [by apply holders_lookup|done..]. }
  intros _ h1 [Hi1 [Eb Bl Hp Hbr]]. apply wp_bind, wp_modify.
  eapply (wp_operator_delete U (delete q (holders h))).
  - destruct Hi1 as [? ? ? ? ? ? ? ? ? ? ? Hso ? ? ?]. split; try done.
    intros p st Hst. by destruct (Hso p st Hst).
  - by apply Hp.
  - intros h2 Hi2 Eb2 Bl2 Hp2 Hbr2. cbn in *. rewrite Eb in Eb2.
    assert (holders h2 = delete q (holders h)) as Eh.
    { unfold holders. by rewrite Eb2, fmap_delete. }
    apply HQ; [|done|].
    + split; [by rewrite Eh| |].
      * intros p [Hp' Hne]%Hp2. change (heapobj h1 p) in Hp'. rewrite Hp in Hp'.
        rewrite Eb2, lookup_delete_ne by done. by apply Ho.
      * intros p c. rewrite Eb2. intros [_ ?]%lookup_delete_Some. by eapply Ha.
    + split.
      * intros k Hk. rewrite Eb2. apply lookup_delete_ne. set_solver.
      * intros k c Hk Hc. assert (delete q (holders h) !! k = Some (strip c)) as Hd.
        { rewrite lookup_delete_ne by set_solver. by apply holders_lookup. }
        pose proof (Bl2 k _ Hd) as E2. pose proof (Bl k _ Hd) as E1. cbn in E1, E2. congruence.
      * intros k Hk. rewrite Hp2. change (heapobj (set_bufs _ h1) k) with (heapobj h1 k).
        rewrite Hp. set_solver.
      * lia.
Qed.

Lemma chain_head h p l : chain h p l → ∃ b, bufs h !! p = Some b ∧ next_ b = default p (head l).
Proof. intros [Hp _]. by apply next_of_some, path_first with (l := l). Qed.

Lemma bufs_delete_chain h h' p l q :
  chain h p l → bufs h' = delete q (bufs h) → q ∉ p :: l → chain h' p l.
Proof.
  intros [Hp Hnd] E Hq. split; [|done]. apply (path_frame h); [done| |]; intros z Hz;
    unfold next_of, prev_of; rewrite E, lookup_delete_ne; try done; by intros ->.
Qed.

(** The rest of a chain is destroyed. *)
Lemma wp_delete_rest U p l : ∀ fuel (Q : unit → heap → Prop) h,
  ok U h → chain h p l → (∀ x, x ∈ l → heapobj h x) → (length l < fuel)%nat →
  (∀ h', ok U h' → chain h' p [] → affects (p :: l) h h' → (∀ x, x ∈ l → bufs h' !! x = None) →
     bytes_at h' p = bytes_at h p → holders h' !! p = holders h !! p →
     (heapobj h' p ↔ heapobj h p) → Q tt h') →
  wp (delete_rest fuel p) Q h.
Proof.
  induction l as [|q l IH]; intros fuel Q h Hok Hch Hobj Hfuel HQ; destruct fuel as [|fuel]; try (cbn in *; lia).
  - destruct (chain_head _ _ _ Hch) as (b & Hb & En). cbn. apply wp_bind, (wp_deref_buf p b); [done|].
    cbn in En. rewrite En, Z.eqb_refl. apply wp_ret, HQ; try done. by intros x Hx%elem_of_nil.
  - destruct (chain_head _ _ _ Hch) as (b & Hb & En). cbn -[wp]. apply wp_bind, (wp_deref_buf p b); [done|].
    cbn in En. rewrite En. pose proof Hch as [_ Hnd]. apply NoDup_cons in Hnd as [Hpq Hnd].
    apply NoDup_cons in Hnd as [Hql Hnd].
    rewrite (proj2 (Z.eqb_neq q p)) by set_solver.
    apply wp_bind, (wp_unlink p [] q l); [done|]. intros h1 Hc1 Hcq Hr1. cbn in Hc1.
    assert (ok U h1) as Hok1 by (by eapply relinks_ok).
    destruct (chain_bufs_in _ _ _ q Hcq) as [c Hc]; [set_solver|].
    assert (heapobj h1 q) as Hhq by (apply (relinks_heapobj _ _ _ _ Hr1), Hobj; set_solver).
    apply wp_bind, (wp_delete_one U q c); [done..|]. intros h2 Hok2 Eb2 Ha2.
    assert (q ∉ p :: l) as Hqpl by set_solver.
    apply IH; [done|by eapply bufs_delete_chain| |cbn in Hfuel; lia|].
    + intros x Hx. apply (af_heap _ _ _ Ha2); [set_solver|].
      apply (relinks_heapobj _ _ _ _ Hr1), Hobj. set_solver.
    + intros h3 Hok3 Hc3 Ha3 Hg3 Eb3 Eh3 Ho3.
      assert (p ∉ [q]) as Hpn by set_solver.
      apply HQ; try done.
      * eapply affects_trans; [apply relinks_affects; eapply relinks_mono; [|exact Hr1]; set_solver|].
        eapply affects_trans; [eapply affects_mono; [|exact Ha2]; set_solver|].
        eapply affects_mono; [|exact Ha3]; set_solver.
      * intros x [->|Hx]%elem_of_cons; [|by apply Hg3].
        rewrite (af_bufs _ _ _ Ha3), Eb2 by done. apply lookup_delete_eq.
      * rewrite Eb3, (affects_bytes U [q] h1 h2 p) by done. by eapply relinks_bytes.
      * rewrite Eh3, <-(rl_holders _ _ _ Hr1). unfold holders. rewrite !lookup_fmap.
        by rewrite (af_bufs _ _ _ Ha2).
      * rewrite Ho3, (af_heap _ _ _ Ha2) by done. by apply (relinks_heapobj _ _ _ _ Hr1).
Qed.

Lemma wp_chain_fuel p l (Q : nat → heap → Prop) h :
  chain h p l → (∀ n, (length l + 1 < n)%nat → Q n h) → wp chain_fuel Q h.
Proof. intros Hch HQ. apply wp_gets, HQ. pose proof (chain_length _ _ _ Hch). lia. Qed.

(** Destroying the head destroys the whole chain and nothing else. *)
Lemma wp_destroy U p l (Q : unit → heap → Prop) h :
  ok U h → chain h p l → (∀ x, x ∈ p :: l → heapobj h x) →
  (∀ h', ok U h' → affects (p :: l) h h' → (∀ x, x ∈ p :: l → bufs h' !! x = None) → Q tt h') →
  wp (destroy p) Q h.
Proof.
  intros Hok Hch Hobj HQ. unfold destroy. apply wp_bind, (wp_chain_fuel p l); [done|].
  intros n Hn. apply wp_bind, (wp_delete_rest U p l); [done|done| |lia|].
  { intros x Hx. apply Hobj. set_solver. }
  intros h1 Hok1 Hch1 Ha1 Hg1 _ _ Ho1. destruct (chain_bufs_in _ _ _ p Hch1) as [b Hb]; [set_solver|].
  apply (wp_delete_one U p b); [done|done|apply Ho1, Hobj; set_solver|].
  intros h2 Hok2 Eb2 Ha2. apply HQ; [done| |].
  - eapply affects_trans; [done|]. eapply affects_mono; [|done]. set_solver.
  - intros x Hx. destruct (decide (x = p)) as [->|Hne]; [by rewrite Eb2, lookup_delete_eq|].
    rewrite Eb2, lookup_delete_ne by done. apply Hg1. set_solver.
Qed.

(** ** Creation *)

(** A new object [b] at [p], alone in its chain. *)
Record made (U : gset Z) (h : heap) (p : Z) (b : iobuf) (h' : heap) : Prop := {
  md_ok : ok U h';
  md_bufs : bufs h' = <[p := b]> (bufs h);
  md_new : bufs h !! p = None;
  md_links : next_ b = p ∧ prev_ b = p;
  md_affects : affects [p] h h';
  md_heap : heapobj h' p
}.

Lemma made_chain U h p b h' : made U h p b h' → chain h' p [].
Proof.
  intros [_ E _ [Hn Hv] _ _]. split; [|apply NoDup_singleton].
  split; unfold next_of, prev_of; rewrite E, lookup_insert_eq; cbn; by rewrite ?Hn, ?Hv.
Qed.

Lemma made_old U h p b h' q l : made U h p b h' → chain h q l → chain h' q l ∧ p ∉ q :: l.
Proof.
  intros Hm Hch. assert (p ∉ q :: l) as Hp.
  { intros Hp. destruct (chain_bufs_in _ _ _ _ Hch Hp) as [c Hc]. by rewrite (md_new _ _ _ _ _ Hm) in Hc. }
  split; [|done]. eapply affects_chain; [by eapply md_affects|done|]. intros x Hx. set_solver.
Qed.

Lemma inv_bufs U R h x : inv U R h → inv U R (set_bufs x h).
Proof.
  intros [? ? ? ? ? ? ? ? ? ? ? Hso ? ? ?]. split; try done. intros p st Hst. by destruct (Hso p st Hst).
Qed.

Lemma holders_insert p b h : strip <$> <[p := b]> (bufs h) = <[p := strip b]> (holders h).
Proof. apply fmap_insert. Qed.

(** The object of a storage that was made is there. *)
Lemma objs_made h h' p b :
  (∀ q, heapobj h q → is_Some (bufs h !! q)) → bufs h' = <[p := b]> (bufs h) →
  (∀ q, q ≠ p → heapobj h' q → heapobj h q) → ∀ q, heapobj h' q → is_Some (bufs h' !! q).
Proof.
  intros Ho Eb Hh q Hq. rewrite Eb, lookup_insert_is_Some'. destruct (decide (q = p)); [by left|].
  right. apply Ho. by apply Hh.
Qed.

Lemma strip_idem b : strip (strip b) = strip b.
Proof. done. Qed.

Section create.
Context (uninit : Z → Z → Z) (mem_limit : Z).

(** A fresh buffer: empty, with at least the capacity asked for. *)
Record fresh_buffer (c : Z) (h' : heap) (b : iobuf) : Prop := {
  fb_view : data_ b = buf_ b ∧ length_ b = 0 ∧ off (buf_ b) = 0;
  fb_cap : c ≤ capacity_ b ≤ c + 7;
  fb_own : sharedInfo b ≠ 0 ∧ flags b = 0 ∧ ∃ s, infos h' !! sharedInfo b = Some s ∧ refcount s = 1
}.

Lemma wp_createSeparate U c (Q : Z → heap → Prop) h :
  ok U h → 0 ≤ c < 2 ^ 61 → c + 31 ≤ mem_limit →
  (∀ p b h', made U h p b h' → fresh_buffer c h' b → Q p h') →
  wp (createSeparate uninit mem_limit c) Q h.
Proof.
  intros [Hi Ho Ha] Hc Hlim HQ. unfold createSeparate, operator_new, fresh.
  pose proof (inv_fresh_info U _ h Hi) as Hfr. pose proof (i_brk _ _ _ Hi) as [Hb0 Hb8].
  apply wp_bind, wp_bind, wp_bind, wp_gets, wp_bind, wp_modify, wp_ret, wp_bind, wp_modify, wp_ret.
  assert ((brk h + 8) mod 8 = 0) as Hb8' by (rewrite Z.add_mod, Hb8 by lia; done).
  set (p := brk h). set (h1 := set_stores _ _).
  assert (inv U (holders h) h1) as Hi1.
  { apply inv_new_store; [apply inv_set_brk; [done|lia|done]|apply Hfr; lia|cbn; lia]. }
  apply wp_bind, (wp_allocExtBuffer uninit mem_limit U (holders h)); [done..|].
  intros a i cap h2 Hea. apply wp_bind. apply wp_modify, wp_ret.
  pose proof (ext_alloc_frames _ _ _ _ _ _ _ _ Hi1 Hea) as [_ Hbl Hhp Hbr].
  destruct Hea as [Hinv Hcap Hmem (Hm1 & Hm2 & Hm3 & Hm4 & Hm5 & Hm6 & Hm7) Eb Es Ebr Einf Hne].
  set (b := mk_iobuf p p _ _ _ _ _).
  assert (strip b = pending a i cap) as Esb by done.
  destruct (pending_word a i cap Hm6) as [Ew Ef].
  assert (bufs h !! p = None) as Hpn.
  { apply eq_None_not_Some. rewrite <-holders_dom. destruct (Hfr p) as (_ & -> & _); [lia|].
    by intros [? [=]]. }
  cbn in Hm3, Hm4, Ebr, Eb.
  apply (HQ _ b).
  - split; [|by rewrite Eb|done|done| |].
    + split; [| |].
      * unfold holders; cbn. rewrite Eb, holders_insert, Esb. apply inv_bufs.
        replace (<[p := pending a i cap]> (holders h)) with
          (<[p := pending a i cap]> (delete i (<[i := pending a i cap]> (holders h))))
          by by rewrite delete_insert_id.
        apply inv_rename; [done|by rewrite lookup_insert_eq| |lia].
        rewrite lookup_insert_ne by lia. apply Hfr. lia.
      * eapply (objs_made h); [done|by cbn; rewrite Eb|].
        intros q Hq Hq'. change (heapobj h2 q) in Hq'. rewrite Hhp in Hq'. revert Hq'.
        unfold heapobj, h1; cbn. by rewrite lookup_insert_ne.
      * intros q c'. cbn. rewrite Eb. intros [[<- _]|[_ ?]]%lookup_insert_Some; [lia|by eapply Ha].
    + split; cbn; [| | |lia].
      * intros k Hk. rewrite Eb. apply lookup_insert_ne. set_solver.
      * intros k c' Hk Hc'. by apply (Hbl k (strip c')), holders_lookup.
      * intros k Hk. change (heapobj h2 k ↔ heapobj h k). rewrite Hhp. unfold heapobj, h1; cbn.
        rewrite lookup_insert_ne; [done|]. set_solver.
    + change (heapobj h2 p). rewrite Hhp. eexists. cbn. by rewrite lookup_insert_eq.
  - split; [done|done|]. change (sharedInfo b) with (sharedInfo (pending a i cap)).
    change (flags b) with (flags (pending a i cap)). rewrite Ew, Ef. split_and!; [lia|done|].
    eexists. cbn. rewrite Einf, lookup_insert_eq. by split.
Qed.

Lemma wp_createCombined U c (Q : Z → heap → Prop) h :
  ok U h → 0 ≤ c < 2 ^ 61 → c + 96 ≤ mem_limit →
  (∀ p b h', made U h p b h' → fresh_buffer c h' b → Q p h') →
  wp (createCombined uninit mem_limit c) Q h.
Proof.
  intros [Hi Ho Ha] Hc Hlim HQ. unfold createCombined, offsetof_align, fresh.
  pose proof (inv_fresh_info U _ h Hi) as Hfr. pose proof (i_brk _ _ _ Hi) as [Hb0 Hb8].
  rewrite (u64_small (96 + c)) by lia. replace (96 + c - 96) with c by lia.
  apply wp_bind, wp_bind, wp_gets, wp_bind, wp_modify, wp_ret, wp_bind, wp_malloc; [lia|].
  apply wp_bind, wp_bind, wp_gets, wp_bind, wp_modify, wp_ret.
  apply wp_bind, wp_modify, wp_bind, wp_modify.
  cbn [brk set_brk set_mem]. set (p := brk h). set (a := p + 8). set (i := a + 8).
  set (l := uninit a <$> seqZ 0 c).
  assert (length l = Z.to_nat c) as Hl by (subst l; by rewrite length_fmap, length_seqZ).
  assert (i mod 8 = 0) as Hi8.
  { replace i with (brk h + 2 * 8) by lia. rewrite Z.mod_add by lia. done. }
  unfold construct. apply wp_bind, wp_bind, wp_assert; [done|].
  apply wp_bind, wp_assert; [cbn; apply Z.leb_le; lia|]. apply wp_modify, wp_ret.
  set (b := mk_iobuf p p _ _ _ _ _).
  assert (sharedInfo b = i ∧ flags b = 0) as [Ew Ef] by (by apply pack_sharedInfo).
  assert (bufs h !! p = None) as Hpn.
  { apply eq_None_not_Some. rewrite <-holders_dom. destruct (Hfr p) as (_ & -> & _); [lia|].
    by intros [? [=]]. }
  assert (a mod 8 = 0 ∧ (i + 8) mod 8 = 0) as [Ha8 Hi88].
  { split; [replace a with (brk h + 1 * 8) by lia|replace (i + 8) with (brk h + 3 * 8) by lia];
      by rewrite Z.mod_add by lia. }
  apply (HQ p b).
  - split; [|done|done|done| |].
    + split.
      * unfold holders; cbn [bufs set_bufs set_infos set_stores set_brk set_mem].
        rewrite holders_insert. apply inv_bufs.
        eapply (inv_claim_storage U _ _ a p (mk_heap_storage kHeapMagic 3 a)); [|cbn; by rewrite lookup_insert_eq|done].
        eapply (inv_new_info _ _ (set_brk (i + 8) (set_mem (<[a := l]> (mem h)) (set_brk i h))) p (strip b)
          (mk_shared_info FreeInternal p 1 a)); [|..|done|done|done| | |].
        -- apply inv_set_brk; [|cbn; lia|done]. apply (inv_new_block _ _ (set_brk i h)); [apply inv_set_brk; [done|lia|done]| |cbn; lia].
           apply Hfr. lia.
        -- split; change (sharedInfo (strip b)) with (sharedInfo b); rewrite ?Ew; cbn; try done; try lia.
           ++ apply Hfr. lia.
           ++ split; [apply Hfr; lia|lia].
           ++ split; cbn; try lia; try done. intros _. exists l. by rewrite lookup_insert_eq, Hl, Z2Nat.id by lia.
           ++ intros j d Hj. pose proof (i_key _ _ _ Hi _ _ Hj). lia.
           ++ intros q st Hq Hne. pose proof (inv_sblock _ _ _ _ _ Hi Hq Hne). lia.
        -- cbn. change (sharedInfo (strip b)) with (sharedInfo b). by rewrite Ew.
        -- right. exists p. cbn. rewrite lookup_insert_eq.
           split_and!; try done; try lia. apply Hfr; lia.
        -- unfold backs. change (flags (strip b)) with (flags b). rewrite Ef. cbn.
           split_and!; [by right|split; [lia|done]|lia|]. eexists. by rewrite lookup_insert_eq.
      * eapply (objs_made h); [done|done|]. intros q Hq. unfold heapobj; cbn. by rewrite lookup_insert_ne.
      * intros q c'. cbn. intros [[<- _]|[_ ?]]%lookup_insert_Some; [lia|by eapply Ha].
    + split; cbn; [| | |lia].
      * intros k Hk. apply lookup_insert_ne. set_solver.
      * intros k c' Hk Hc'. apply lookup_insert_ne.
        pose proof (i_key _ _ _ Hi _ _ (holders_lookup _ _ _ Hc')). cbn in *. lia.
      * intros k Hk. unfold heapobj; cbn. rewrite lookup_insert_ne; [done|]. set_solver.
    + eexists. cbn. by rewrite lookup_insert_eq.
  - split; [done|cbn; lia|]. rewrite Ew. split_and!; [lia|done|].
    eexists. cbn. rewrite lookup_insert_eq. by split.
Qed.

Lemma wp_create U c (Q : Z → heap → Prop) h :
  ok U h → 0 ≤ c < 2 ^ 61 → c + 96 ≤ mem_limit →
  (∀ p b h', made U h p b h' → fresh_buffer c h' b → Q p h') →
  wp (create uninit mem_limit c) Q h.
Proof.
  intros Hok Hc Hlim HQ. unfold create. wp_step.
  - by apply (wp_createCombined U).
  - apply (wp_createSeparate U); [done|done|lia|done].
Qed.
End create.
