(* ===== verification/IOBufOps.v ===== *)
(** The operations that give an object its own memory: isSharedOne, unshareOne,
    makeManagedOne, coalesce and gather, and the changes of an object's view. *)
From S2P Require Import Prelude IOBuf IOBufInv IOBufChain IOBufMem IOBufLife.
Import IOBuf.

Lemma contents_cons h x l : contents h (x :: l) = bytes_at h x ++ contents h l.
Proof. done. Qed.
Lemma contents_app h l1 l2 : contents h (l1 ++ l2) = contents h l1 ++ contents h l2.
Proof. unfold contents. by rewrite fmap_app, concat_app. Qed.
Lemma contents_ext h h' l : (∀ x, x ∈ l → bytes_at h' x = bytes_at h x) → contents h' l = contents h l.
Proof.
  intros Hx. unfold contents. f_equal. apply list_fmap_ext. intros i x Hi.
  apply Hx. by eapply list_elem_of_lookup_2.
Qed.
(** ** One object changes *)

(** Fields other than the buffer and its SharedInfo. *)
Lemma wp_update U p b b' f (Q : unit → heap → Prop) h :
  ok U h → bufs h !! p = Some b → f b = b' → geo (mem h) b' →
  sharedInfo b' = sharedInfo b → buf_ b' = buf_ b →
  Z.land (flags b') kFlagFreeSharedInfo = Z.land (flags b) kFlagFreeSharedInfo →
  (∀ s, infos h !! sharedInfo b = Some s → 1 < refcount s → Z.land (flags b') kFlagMaybeShared ≠ 0) →
  (ok U (set_bufs (<[p := b']> (bufs h)) h) → affects [p] h (set_bufs (<[p := b']> (bufs h)) h) →
   Q tt (set_bufs (<[p := b']> (bufs h)) h)) →
  wp (assign p f) Q h.
Proof.
  intros [Hi Ho Ha] Hp Hf Hg Es Eb Ef Em HQ. apply (wp_assign_buf p f b); [done|]. rewrite Hf. apply HQ.
  - split.
    + unfold holders; cbn. rewrite holders_insert. apply inv_bufs.
      eapply inv_replace; [done|by apply holders_lookup|..]; try done. by destruct Hg.
    + intros q Hq. cbn. rewrite lookup_insert_is_Some'. right. by apply Ho.
    + intros q c. cbn. intros [[<- _]|[_ ?]]%lookup_insert_Some; [by eapply Ha|by eapply Ha].
  - split; cbn; try done. intros k Hk. apply lookup_insert_ne. set_solver.
Qed.

(** The flags of the view stay. *)
Lemma wp_set_view U p b d n f (Q : unit → heap → Prop) h :
  ok U h → bufs h !! p = Some b → f b = with_view d n b → geo (mem h) (with_view d n b) →
  (ok U (set_bufs (<[p := with_view d n b]> (bufs h)) h) →
   affects [p] h (set_bufs (<[p := with_view d n b]> (bufs h)) h) →
   Q tt (set_bufs (<[p := with_view d n b]> (bufs h)) h)) →
  wp (assign p f) Q h.
Proof.
  intros Hok Hp Hf Hg HQ. apply (wp_update U p b (with_view d n b)); try done.
  intros s Hs Hr. change (flags (with_view d n b)) with (flags b).
  destruct (decide (sharedInfo b = 0)) as [E|Hne].
  - rewrite E in Hs. pose proof (i_infos _ _ _ (ok_inv _ _ Hok) _ _ Hs). lia.
  - by apply (i_maybe _ _ _ (ok_inv _ _ Hok) p (strip b) s); [apply holders_lookup|..].
Qed.

Lemma geo_cap m b : geo m b → 0 ≤ capacity_ b < 2 ^ 62.
Proof. intros []. lia. Qed.

Lemma room_small m b :
  geo m b → headroom b = off (data_ b) - off (buf_ b) ∧
    tailroom b = off (buf_ b) + capacity_ b - (off (data_ b) + length_ b).
Proof. intros []. unfold headroom, tailroom; cbn. rewrite !u64_small by lia. lia. Qed.

(** append: the bytes after the data become data. *)
Lemma wp_append U p b amount (Q : unit → heap → Prop) h :
  ok U h → bufs h !! p = Some b → 0 ≤ amount ≤ tailroom b →
  (let b' := with_view (data_ b) (length_ b + amount) b in
   let h' := set_bufs (<[p := b']> (bufs h)) h in
   ok U h' → affects [p] h h' → Q tt h') →
  wp (append p amount) Q h.
Proof.
  intros Hok Hp Ham HQ. pose proof (ok_geo U h p b Hok Hp) as Hg.
  destruct (room_small _ _ Hg) as [_ Ht]. unfold append.
  apply wp_bind, (wp_deref_buf p b); [done|]. apply wp_bind, wp_assert; [apply Z.leb_le; lia|].
  destruct Hg. rewrite u64_small by lia.
  apply (wp_set_view U p b (data_ b) (length_ b + amount)); try done. split; cbn; (done || lia).
Qed.

Lemma wp_prepend U p b amount (Q : unit → heap → Prop) h :
  ok U h → bufs h !! p = Some b → 0 ≤ amount ≤ headroom b →
  (let b' := with_view (padd (data_ b) (- amount)) (length_ b + amount) b in
   let h' := set_bufs (<[p := b']> (bufs h)) h in
   ok U h' → affects [p] h h' → Q tt h') →
  wp (prepend p amount) Q h.
Proof.
  intros Hok Hp Ham HQ. pose proof (ok_geo U h p b Hok Hp) as Hg.
  destruct (room_small _ _ Hg) as [Hh _]. unfold prepend.
  apply wp_bind, (wp_deref_buf p b); [done|]. apply wp_bind, wp_assert; [apply Z.leb_le; lia|].
  destruct Hg. rewrite u64_small by lia.
  apply (wp_set_view U p b (padd (data_ b) (- amount)) (length_ b + amount)); try done.
  split; cbn; (done || lia).
Qed.

Lemma wp_trimStart U p b amount (Q : unit → heap → Prop) h :
  ok U h → bufs h !! p = Some b → 0 ≤ amount ≤ length_ b →
  (let b' := with_view (padd (data_ b) amount) (length_ b - amount) b in
   let h' := set_bufs (<[p := b']> (bufs h)) h in
   ok U h' → affects [p] h h' → Q tt h') →
  wp (trimStart p amount) Q h.
Proof.
  intros Hok Hp Ham HQ. pose proof (ok_geo U h p b Hok Hp) as Hg. unfold trimStart.
  apply wp_bind, (wp_deref_buf p b); [done|]. apply wp_bind, wp_assert; [apply Z.leb_le; lia|].
  destruct Hg. rewrite u64_small by lia.
  apply (wp_set_view U p b (padd (data_ b) amount) (length_ b - amount)); try done.
  split; cbn; (done || lia).
Qed.

Lemma wp_trimEnd U p b amount (Q : unit → heap → Prop) h :
  ok U h → bufs h !! p = Some b → 0 ≤ amount ≤ length_ b →
  (let b' := with_view (data_ b) (length_ b - amount) b in
   let h' := set_bufs (<[p := b']> (bufs h)) h in
   ok U h' → affects [p] h h' → Q tt h') →
  wp (trimEnd p amount) Q h.
Proof.
  intros Hok Hp Ham HQ. pose proof (ok_geo U h p b Hok Hp) as Hg. unfold trimEnd.
  apply wp_bind, (wp_deref_buf p b); [done|]. apply wp_bind, wp_assert; [apply Z.leb_le; lia|].
  destruct Hg. rewrite u64_small by lia.
  apply (wp_set_view U p b (data_ b) (length_ b - amount)); try done. split; cbn; (done || lia).
Qed.

Lemma wp_clear U p b (Q : unit → heap → Prop) h :
  ok U h → bufs h !! p = Some b →
  (let h' := set_bufs (<[p := with_view (buf_ b) 0 b]> (bufs h)) h in
   ok U h' → affects [p] h h' → Q tt h') →
  wp (clear p) Q h.
Proof.
  intros Hok Hp HQ. pose proof (ok_geo U h p b Hok Hp) as Hg. unfold clear. destruct Hg.
  apply (wp_set_view U p b (buf_ b) 0); try done. split; cbn; (done || lia).
Qed.

(** ** Sharing *)

(** [p] is the only holder of its memory. *)
Definition unique (h : heap) (p : Z) : Prop :=
  ∃ b, bufs h !! p = Some b ∧ sharedInfo b ≠ 0 ∧
    ∀ k c, k ≠ p → bufs h !! k = Some c → sharedInfo c ≠ sharedInfo b.

Lemma unique_alone U h p b k c :
  ok U h → unique h p → bufs h !! p = Some b → k ≠ p → bufs h !! k = Some c →
  blk (buf_ c) ≠ blk (buf_ b).
Proof.
  intros [Hi _ _] (b' & Hb & Hn & Ho) Hp Hne Hc. assert (b' = b) as -> by congruence.
  apply not_eq_sym, (i_diff _ _ _ Hi p k (strip b) (strip c)); try by apply holders_lookup; try done.
  - done.
  - apply not_eq_sym. by apply (Ho k c).
Qed.

Lemma unique_count U h p b s :
  ok U h → bufs h !! p = Some b → sharedInfo b ≠ 0 → infos h !! sharedInfo b = Some s →
  refcount s = 1 → unique h p.
Proof.
  intros [Hi _ _] Hp Hn Hs Hr. exists b. split_and!; [done..|]. intros k c Hne Hc.
  eapply (last_others U (holders h) h p (strip b) s Hi) with (k := k) (c := strip c); try done.
  - by apply holders_lookup.
  - rewrite lookup_delete_ne by done. by apply holders_lookup.
Qed.

(** Uniqueness depends on the objects and their SharedInfo only. *)
Lemma unique_mono h h' p :
  unique h p → (∀ b, bufs h !! p = Some b → ∃ b', bufs h' !! p = Some b' ∧ sharedInfo b' = sharedInfo b) →
  (∀ k c, bufs h' !! k = Some c → ∃ c', bufs h !! k = Some c' ∧ sharedInfo c' = sharedInfo c) →
  unique h' p.
Proof.
  intros (b & Hb & Hn & Ho) H1 H2. destruct (H1 b Hb) as (b' & Hb' & E). exists b'.
  split_and!; [done|congruence|]. intros k c Hne Hc. destruct (H2 k c Hc) as (c' & Hc' & E').
  rewrite <-E', E. by eapply Ho.
Qed.

Lemma clearFlags_maybe b : Z.land (flags (clearFlags kFlagMaybeShared b)) kFlagMaybeShared = 0.
Proof.
  unfold flags, clearFlags; cbn [flagsAndSharedInfo_ with_word].
  rewrite <-!Z.land_assoc. change (Z.land (Z.lnot kFlagMaybeShared) (Z.land kFlagMask kFlagMaybeShared)) with 0.
  apply Z.land_0_r.
Qed.

(** Only flags of elements of [S] differ. *)
Record reflags (S : list Z) (h h' : heap) : Prop := {
  rf_same : ∀ q c, bufs h !! q = Some c →
    ∃ w, bufs h' !! q = Some (with_word w c) ∧ sharedInfo (with_word w c) = sharedInfo c;
  rf_none : ∀ q, bufs h !! q = None → bufs h' !! q = None;
  rf_others : ∀ q, q ∉ S → bufs h' !! q = bufs h !! q;
  rf_rest : mem h' = mem h ∧ infos h' = infos h ∧ stores h' = stores h ∧ brk h' = brk h
}.

Lemma reflags_refl S h : reflags S h h.
Proof. split; try done. intros q c Hc. exists (flagsAndSharedInfo_ c). by destruct c. Qed.

Lemma reflags_trans S h1 h2 h3 : reflags S h1 h2 → reflags S h2 h3 → reflags S h1 h3.
Proof.
  intros [A1 B1 C1 (M1 & I1 & T1 & K1)] [A2 B2 C2 (M2 & I2 & T2 & K2)]. split.
  - intros q c Hc. destruct (A1 q c Hc) as (w & Hw & E). destruct (A2 q _ Hw) as (w' & Hw' & E').
    exists w'. split; [done|]. rewrite <-E. done.
  - eauto.
  - intros q Hq. by rewrite C2, C1.
  - split_and!; congruence.
Qed.

Lemma reflags_mono S S' h h' : S ⊆ S' → reflags S h h' → reflags S' h h'.
Proof. intros HS [A B C D]. split; [done..| |done]. set_solver. Qed.

Lemma reflags_links S h h' q : reflags S h h' → next_of h' q = next_of h q ∧ prev_of h' q = prev_of h q.
Proof.
  intros [A B _ _]. unfold next_of, prev_of. destruct (bufs h !! q) as [c|] eqn:E; [|by rewrite B].
  destruct (A q c E) as (w & -> & _). done.
Qed.
Lemma reflags_bytes S h h' q : reflags S h h' → bytes_at h' q = bytes_at h q.
Proof.
  intros [A B _ (M & _)]. unfold bytes_at. rewrite M. destruct (bufs h !! q) as [c|] eqn:E; [|by rewrite B].
  destruct (A q c E) as (w & -> & _). done.
Qed.
Lemma reflags_contents S h h' l : reflags S h h' → contents h' l = contents h l.
Proof. intros Hr. apply contents_ext. intros x _. by eapply reflags_bytes. Qed.
Lemma reflags_chain S h h' p l : reflags S h h' → chain h p l → chain h' p l.
Proof.
  intros Hr [Hp Hnd]. split; [|done].
  apply (path_frame h); [done| |]; intros z _; by eapply reflags_links.
Qed.
Lemma reflags_heapobj S h h' q : reflags S h h' → heapobj h' q ↔ heapobj h q.
Proof. intros [_ _ _ (_ & _ & T & _)]. unfold heapobj. by rewrite T. Qed.
Lemma reflags_affects S h h' : reflags S h h' → affects S h h'.
Proof.
  intros Hr. split; [by apply rf_others| | |].
  - intros k c _ _. by destruct (rf_rest _ _ _ Hr) as (-> & _).
  - intros k _. by eapply reflags_heapobj.
  - by destruct (rf_rest _ _ _ Hr) as (_ & _ & _ & ->).
Qed.
Lemma reflags_unique S h h' q : reflags S h h' → unique h q → unique h' q.
Proof.
  intros [A B _ _] Hu. eapply unique_mono; [done| |].
  - intros b Hb. destruct (A q b Hb) as (w & ? & ?). eauto.
  - intros k c Hc. destruct (bufs h !! k) as [d|] eqn:E; [|by rewrite B in Hc].
    destruct (A k d E) as (w & Hw & Es). exists d. split; [done|]. congruence.
Qed.

(** The answer is right, and when it is no the object is the only holder. *)
Lemma wp_isSharedOne U p b (Q : bool → heap → Prop) h :
  ok U h → bufs h !! p = Some b →
  ((sharedInfo b = 0 ∨ ∃ s, infos h !! sharedInfo b = Some s ∧ 1 < refcount s) → Q true h) →
  (∀ h', ok U h' → unique h' p → reflags [p] h h' → Q false h') →
  wp (isSharedOne p) Q h.
Proof.
  intros Hok Hp Hyes Hno. unfold isSharedOne. apply wp_bind, (wp_deref_buf p b); [done|].
  wp_step; [apply Z.eqb_eq in Heqb0; apply wp_ret; auto|]. apply Z.eqb_neq in Heqb0.
  pose proof Hok as [Hi _ _].
  destruct (i_backs _ _ _ Hi p (strip b) (holders_lookup _ _ _ Hp) Heqb0) as (s & Hs & Hbk).
  destruct (i_count _ _ _ Hi _ _ Hs) as [Hcnt _]. change (sharedInfo (strip b)) with (sharedInfo b) in *.
  rewrite (owners_delete (holders h) p (strip b)), decide_True in Hcnt by (done || by apply holders_lookup).
  wp_step.
  - apply Z.eqb_eq in Heqb1. apply wp_ret. apply (Hno h); [done| |apply reflags_refl].
    apply (unique_count U h p b s); try done. destruct (decide (1 < refcount s)) as [Hr|]; [|lia].
    by destruct (i_maybe _ _ _ Hi p (strip b) s (holders_lookup _ _ _ Hp) Heqb0 Hs Hr).
  - apply wp_bind, (wp_info_at _ s); [done|]. wp_step; [apply Z.ltb_lt in Heqb2; apply wp_ret; eauto|].
    apply Z.ltb_ge in Heqb2. apply wp_bind.
    assert (sharedInfo (clearFlags kFlagMaybeShared b) = sharedInfo b) as Esi.
    { apply clearFlags_sharedInfo. unfold kFlagMaybeShared. lia. }
    apply (wp_update U p b (clearFlags kFlagMaybeShared b)); try done.
    + destruct (ok_geo U h p b Hok Hp). by split.
    + apply clearFlags_free.
    + intros s' Hs' ?. simplify_eq. lia.
    + intros Hok' _. apply wp_ret. apply Hno; try done.
      * apply (unique_count U _ p (clearFlags kFlagMaybeShared b) s); rewrite ?Esi; try done;
          [cbn; by rewrite lookup_insert_eq|lia].
      * split; cbn; try done.
        -- intros q c Hc. destruct (decide (q = p)) as [->|Hne].
           ++ assert (c = b) as -> by congruence. eexists. by rewrite lookup_insert_eq.
           ++ exists (flagsAndSharedInfo_ c). rewrite lookup_insert_ne by done. by destruct c.
        -- intros q Hq. rewrite lookup_insert_ne; [done|congruence].
        -- intros q Hq. apply lookup_insert_ne. set_solver.
Qed.

(** ** New memory for an object *)

Section alloc.
Context (uninit : Z → Z → Z) (mem_limit : Z).

(** The object as it is after it took the pending buffer. *)
Definition switched (a i d n c : Z) (b : iobuf) : iobuf :=
  with_buffer (mk_ptr a d) (mk_ptr a 0) n c (packFlagsAndSharedInfo 0 i) b.

(** The invariant from the moment the old reference is gone. *)
Lemma switch_inv U (H : gmap Z iobuf) p b a i cap d n c h :
  inv U (delete p (<[i := pending a i cap]> H)) h → H !! p = Some (strip b) → H !! i = None →
  i mod 8 = 0 → 0 < i → p < brk h → (∀ k x, H !! k = Some x → sharedInfo x ≠ i) →
  geo (mem h) (switched a i d n c b) →
  inv U (<[p := strip (switched a i d n c b)]> H) h.
Proof.
  intros Hi Hp Hin Hi8 Hi0 Hpb Hno Hg. assert (p ≠ i) as Hpi by congruence.
  destruct (pending_word a i cap Hi8) as [Ew Ef].
  assert (sharedInfo (strip (switched a i d n c b)) = i ∧ flags (strip (switched a i d n c b)) = 0) as [Ew' Ef'].
  { by apply pack_sharedInfo. }
  assert (owners (delete p (<[i := pending a i cap]> H)) i = 1%nat) as Hone.
  { rewrite (owners_delete_ne _ p (strip b)); [|by rewrite lookup_insert_ne|by eapply Hno].
    rewrite owners_insert, Ew, decide_True by done.
    destruct (decide (owners H i = 0%nat)) as [->|Hz]; [done|].
    destruct (owners_pos H i) as (k & x & Hk & Hx); [lia|]. by destruct (Hno k x). }
  apply (inv_rename _ _ _ i p (pending a i cap)) in Hi as Hi2;
    [|by rewrite lookup_delete_ne, lookup_insert_eq|by rewrite lookup_delete_eq|done].
  assert (<[p := pending a i cap]> (delete i (delete p (<[i := pending a i cap]> H)))
    = <[p := pending a i cap]> H) as E.
  { apply map_eq. intros k. destruct (decide (k = p)) as [->|Hkp]; [by rewrite !lookup_insert_eq|].
    rewrite !lookup_insert_ne by done. destruct (decide (k = i)) as [->|Hki]; [by rewrite lookup_delete_eq|].
    by rewrite !lookup_delete_ne, lookup_insert_ne by done. }
  rewrite E in Hi2.
  apply (inv_replace _ _ _ p (pending a i cap) (strip (switched a i d n c b))) in Hi2;
    [by rewrite insert_insert_eq in Hi2|by rewrite lookup_insert_eq|by destruct Hg|congruence|done|congruence|].
  rewrite Ew. intros s Hs Hr. destruct (i_count _ _ _ Hi _ _ Hs) as [Hc _]. lia.
Qed.

(** Holders know nothing of a SharedInfo made later. *)
Lemma no_holder U R h i k b : inv U R h → infos h !! i = None → i ≠ 0 → R !! k = Some b → sharedInfo b ≠ i.
Proof.
  intros Hi Hn H0 Hk E. destruct (i_backs _ _ _ Hi k b Hk) as (s & Hs & _); [congruence|]. congruence.
Qed.

(** The part shared by unshareOneSlow and coalesceAndReallocate: the reference to
    the old memory is given up and the object takes the new. *)
Lemma wp_switch U p b c a i cap d n nc l h0 h h1 (Q : unit → heap → Prop) :
  ok U h0 → bufs h0 !! p = Some b → ext_alloc U (holders h0) h0 c a i cap h →
  h1 = set_mem (<[a := l]> (mem h)) h → Z.of_nat (length l) = cap →
  0 ≤ d → 0 ≤ n → d + n ≤ nc → nc ≤ cap → cap < 2 ^ 62 →
  (∀ h', ok U h' → bufs h' = <[p := switched a i d n nc b]> (bufs h0) → affects [p] h0 h' →
     mem h' !! a = Some l → unique h' p → (∀ q, heapobj h' q ↔ heapobj h0 q) → Q tt h') →
  wp (_ ← decrementRefcount p; assign p (switched a i d n nc)) Q h1.
Proof.
  intros Hok Hp Hea -> Hl Hd Hn Hnc Hncap Hcap HQ. pose proof Hok as [Hi0 Ho Ha].
  pose proof (ext_alloc_frames _ _ _ _ _ _ _ _ Hi0 Hea) as [_ Hbl Hhp Hbr].
  destruct Hea as [Hinv Hcb (l0 & Hm & Hl0) (Hm1 & Hm2 & Hm3 & Hm4 & Hm5 & Hm6 & Hm7) Eb Es Ebr Einf Hne].
  assert (a ≠ blk (buf_ b)) as Hab.
  { pose proof (i_key _ _ _ Hi0 _ _ (holders_lookup _ _ _ Hp)). cbn in *. lia. }
  assert (inv U (<[i := pending a i cap]> (holders h0)) (set_mem (<[a := l]> (mem h)) h)) as Hi1.
  { apply (inv_write U _ h a l0); [done|by rewrite Hm, lookup_insert_eq|lia]. }
  assert (p < brk h0) as Hpb by by apply (i_key _ _ _ Hi0 _ _ (holders_lookup _ _ _ Hp)).
  assert (p ≠ i) as Hpi by lia.
  apply wp_bind. eapply wp_mono.
  { eapply (wp_decrementRefcount U (<[i := pending a i cap]> (holders h0)) _ p (strip b) b Hi1); [|cbn; by rewrite Eb|done].
    rewrite lookup_insert_ne by done. by apply holders_lookup. }
  intros _ h2 [Hi2 [Eb2 Bl2 Hp2 Hbr2]]. cbn in Eb2, Hbr2.
  assert (mem h2 !! a = Some l) as Ha2.
  { pose proof (Bl2 i (pending a i cap)) as E. cbn in E. rewrite lookup_insert_eq in E. apply E.
    by rewrite lookup_delete_ne, lookup_insert_eq. }
  assert (geo (mem h2) (switched a i d n nc b)) as Hg.
  { split; cbn; try lia; try done. intros _. exists l. split; [done|lia]. }
  apply (wp_assign_buf p _ b); [by rewrite Eb2, Eb|].
  assert (heapobj_same : ∀ q, heapobj (set_bufs (<[p := switched a i d n nc b]> (bufs h2)) h2) q ↔ heapobj h0 q).
  { intros q. change (heapobj h2 q ↔ heapobj h0 q). rewrite Hp2.
    change (heapobj (set_mem _ h) q) with (heapobj h q). apply Hhp. }
  assert (inv U (<[p := strip (switched a i d n nc b)]> (holders h0)) h2) as Hi3.
  { apply (switch_inv U (holders h0) p b a i cap d n nc); try done.
    - by apply holders_lookup.
    - lia.
    - intros k x Hk. eapply (no_holder U (holders h0) h0); [done|done|lia|done]. }
  destruct (pack_sharedInfo 0 i (strip (switched a i d n nc b))) as [Ew _]; [lia|done|done|].
  apply HQ; [|by cbn; rewrite Eb2, Eb| |done| |done].
  - split.
    + unfold holders; cbn. rewrite Eb2, Eb, holders_insert. by apply inv_bufs.
    + intros q Hq. apply heapobj_same in Hq. cbn. rewrite lookup_insert_is_Some'. right.
      rewrite Eb2, Eb. by apply Ho.
    + intros q x. cbn. rewrite Eb2, Eb. intros [[<- _]|[_ ?]]%lookup_insert_Some; by eapply Ha.
  - split; cbn; [|..|intros k Hk; apply heapobj_same|lia].
    + intros k Hk. rewrite lookup_insert_ne by set_solver. by rewrite Eb2, Eb.
    + intros k x Hk Hx. assert (k ≠ p) as Hkp by set_solver.
      pose proof (i_key _ _ _ Hi0 _ _ (holders_lookup _ _ _ Hx)) as Hkey. cbn in Hkey.
      assert (delete p (<[i := pending a i cap]> (holders h0)) !! k = Some (strip x)) as Hkr.
      { rewrite lookup_delete_ne, lookup_insert_ne by (done || lia). by apply holders_lookup. }
      pose proof (Bl2 k (strip x) Hkr) as E2. cbn in E2. rewrite lookup_insert_ne in E2 by lia.
      pose proof (Hbl k (strip x) (holders_lookup _ _ _ Hx)) as E1. cbn in E1. congruence.
  - exists (switched a i d n nc b). cbn [bufs set_bufs].
    change (sharedInfo (switched a i d n nc b)) with (sharedInfo (strip (switched a i d n nc b))). rewrite Ew.
    split_and!; [by rewrite lookup_insert_eq|lia|]. intros k x Hkp. rewrite lookup_insert_ne, Eb2, Eb by done.
    intros Hx. by apply (no_holder U (holders h0) h0 i k (strip x) Hi0 Hne ltac:(lia)), holders_lookup.
Qed.

Lemma bytes_switched a i d n nc b m l bs :
  m !! a = Some (splice d bs l) → n = Z.of_nat (length bs) → 0 ≤ d → d + n ≤ Z.of_nat (length l) →
  bytes m (switched a i d n nc b) = bs.
Proof. intros Hm -> Hd Hle. unfold bytes; cbn. rewrite Hm. cbn. by apply slice_splice_same. Qed.

Lemma wp_unshareOneSlow U p b (Q : unit → heap → Prop) h :
  ok U h → bufs h !! p = Some b → capacity_ b < 2 ^ 61 - 31 → capacity_ b + 31 ≤ mem_limit →
  (∀ h', ok U h' → affects [p] h h' → unique h' p → bytes_at h' p = bytes_at h p →
     (∀ x, next_of h' x = next_of h x) → (∀ x, prev_of h' x = prev_of h x) →
     (∀ q, heapobj h' q ↔ heapobj h q) →
     (∃ b', bufs h' !! p = Some b' ∧ headroom b' = headroom b ∧ tailroom b' = tailroom b) → Q tt h') →
  wp (unshareOneSlow uninit mem_limit p) Q h.
Proof.
  intros Hok Hp Hcap Hlim HQ. pose proof (ok_geo U h p b Hok Hp) as Hg.
  pose proof Hg as [Hg1 Hg2 Hg3 Hg4 Hg5]. destruct (room_small _ _ Hg) as [Eh Et].
  pose proof Hok as [Hi _ _]. unfold unshareOneSlow. apply wp_bind, (wp_deref_buf p b); [done|].
  apply wp_bind, (wp_allocExtBuffer uninit mem_limit U (holders h)); [done|lia|lia|].
  intros a i cap h1 Hea. pose proof (ext_alloc_frames _ _ _ _ _ _ _ _ Hi Hea) as [_ Hbl _ _].
  pose proof (ea_mem _ _ _ _ _ _ _ _ Hea) as (l & Hm & Hl). pose proof (ea_cap _ _ _ _ _ _ _ _ Hea) as Hc.
  assert (geo (mem h1) b) as Hg'.
  { pose proof (Hbl p (strip b) (holders_lookup _ _ _ Hp)) as E. cbn in E.
    split; try done. by rewrite E. }
  assert (bytes (mem h1) b = bytes (mem h) b) as Ebs.
  { apply bytes_ext; [|done]. by apply (Hbl p (strip b)), holders_lookup. }
  apply wp_bind. eapply (wp_copy (mk_ptr a (headroom b)) b l); [done|by rewrite Hm, lookup_insert_eq|cbn; lia..|].
  rewrite Ebs. cbn [blk off].
  assert (length (bytes (mem h) b) = Z.to_nat (length_ b)) as Hlb by by apply bytes_length.
  apply (wp_switch U p b (capacity_ b) a i cap (headroom b) (length_ b) (capacity_ b)
    (splice (headroom b) (bytes (mem h) b) l) h h1); try done; try lia.
  { rewrite length_splice; lia. }
  intros h' Hok' Eb' Haff Hma Hun Hho. apply HQ; try done.
  - unfold bytes_at. rewrite Eb', lookup_insert_eq, Hp. eapply bytes_switched; [done|lia..].
  - intros x. unfold next_of. rewrite Eb'. destruct (decide (x = p)) as [->|Hne];
      [by rewrite lookup_insert_eq, Hp|by rewrite lookup_insert_ne].
  - intros x. unfold prev_of. rewrite Eb'. destruct (decide (x = p)) as [->|Hne];
      [by rewrite lookup_insert_eq, Hp|by rewrite lookup_insert_ne].
  - exists (switched a i (headroom b) (length_ b) (capacity_ b) b). rewrite Eb', lookup_insert_eq.
    split; [done|]. unfold headroom at 1, tailroom at 1; cbn. rewrite !u64_small by lia. lia.
Qed.

(** ** Coalescing *)

Lemma splice_splice o d n l :
  0 ≤ o → o + Z.of_nat (length d) + Z.of_nat (length n) ≤ Z.of_nat (length l) →
  splice (o + Z.of_nat (length d)) n (splice o d l) = splice o (d ++ n) l.
Proof.
  intros Ho Hle. unfold splice. rewrite Z2Nat.inj_add, Nat2Z.id by lia.
  assert (length (take (Z.to_nat o) l) = Z.to_nat o) as Ht by (rewrite length_take; lia).
  replace (take (Z.to_nat o) l ++ d ++ drop (Z.to_nat o + length d) l)
    with ((take (Z.to_nat o) l ++ d) ++ drop (Z.to_nat o + length d) l) by by rewrite <-app_assoc.
  assert (length (take (Z.to_nat o) l ++ d) = Z.to_nat o + length d)%nat as Htd by (rewrite length_app; lia).
  rewrite take_app_length' by lia. rewrite drop_app_ge by lia. rewrite drop_drop, Htd, length_app.
  rewrite <-!app_assoc. f_equal. f_equal. f_equal. f_equal. lia.
Qed.



(** An object whose memory is sound and is not the block [a]. *)
Definition apart (a : Z) (h : heap) (x : Z) : Prop :=
  ∃ b, bufs h !! x = Some b ∧ geo (mem h) b ∧ blk (buf_ b) ≠ a.

Lemma apart_write a l h x : apart a h x → apart a (set_mem (<[a := l]> (mem h)) h) x.
Proof.
  intros (b & Hb & [? ? ? ? Hm] & Hne). exists b. split_and!; [done| |done].
  split; cbn; try done. by rewrite lookup_insert_ne.
Qed.
Lemma apart_bytes a l h x : apart a h x → bytes_at (set_mem (<[a := l]> (mem h)) h) x = bytes_at h x.
Proof.
  intros (b & Hb & Hg & Hne). unfold bytes_at; cbn. rewrite Hb. apply bytes_ext; [|apply Hg].
  by rewrite lookup_insert_ne.
Qed.

Lemma wp_copy_loop a stop A : ∀ x fuel o remaining l (Q : Z * Z → heap → Prop) h,
  path h x A stop → stop ∉ A → (∀ y, y ∈ x :: A → apart a h y) → (length A < fuel)%nat →
  mem h !! a = Some l → 0 ≤ o → Z.of_nat (length (contents h (x :: A))) ≤ remaining →
  o + Z.of_nat (length (contents h (x :: A))) ≤ Z.of_nat (length l) →
  Q (remaining - Z.of_nat (length (contents h (x :: A))), stop)
    (set_mem (<[a := splice o (contents h (x :: A)) l]> (mem h)) h) →
  wp (copy_loop fuel (mk_ptr a o) remaining x stop) Q h.
Proof.
  induction A as [|y A IH]; intros x fuel o remaining l Q h Hp Hstop Hap Hfuel Hl Ho Hrem Hroom HQ;
    (destruct fuel as [|fuel]; [lia|]); cbn -[wp];
    destruct (Hap x ltac:(set_solver)) as (b & Hb & Hg & Hne);
    assert (length (bytes (mem h) b) = Z.to_nat (length_ b)) as Hlb by (by apply bytes_length);
    pose proof (geo_len _ _ Hg) as Hlen;
    (assert (bytes_at h x = bytes (mem h) b) as Hbx by (unfold bytes_at; by rewrite Hb));
    rewrite contents_cons, Hbx in *; rewrite length_app, Hlb in *.
  - destruct Hp as [Hn _]. destruct (next_of_some _ _ _ Hn) as (b' & Hb' & En).
    assert (b' = b) as -> by congruence.
    apply wp_bind, (wp_deref_buf x b); [done|]. apply wp_bind, wp_assert; [apply Z.leb_le; lia|].
    apply wp_bind. eapply wp_copy; [done|done|done|cbn; lia|]. rewrite En, Z.eqb_refl. apply wp_ret.
    cbn [blk off]. change (contents h []) with (@nil Z) in *. rewrite app_nil_r in HQ. cbn [length] in HQ.
    replace (remaining - length_ b) with (remaining - Z.of_nat (Z.to_nat (length_ b) + 0)) by lia. done.
  - destruct Hp as [[Hn _] Hp]. destruct (next_of_some _ _ _ Hn) as (b' & Hb' & En).
    assert (b' = b) as -> by congruence.
    apply wp_bind, (wp_deref_buf x b); [done|]. apply wp_bind, wp_assert; [apply Z.leb_le; lia|].
    apply wp_bind. eapply wp_copy; [done|done|done|cbn; lia|].
    rewrite En, (proj2 (Z.eqb_neq y stop)) by set_solver. cbn [blk off padd].
    set (h1 := set_mem _ h).
    assert (contents h1 (y :: A) = contents h (y :: A)) as Ec.
    { apply contents_ext. intros z Hz. apply apart_bytes, Hap. set_solver. }
    assert (Z.of_nat (length (bytes (mem h) b)) = length_ b) as Hlz by lia.
    apply (IH y fuel (o + length_ b) (remaining - length_ b) (splice o (bytes (mem h) b) l)); rewrite ?Ec.
    + apply (path_frame h); [done|..]; done.
    + set_solver.
    + intros z Hz. apply apart_write, Hap. set_solver.
    + cbn in Hfuel. lia.
    + cbn. by rewrite lookup_insert_eq.
    + lia.
    + lia.
    + rewrite length_splice by lia. lia.
    + replace (remaining - length_ b - Z.of_nat (length (contents h (y :: A)))) with
        (remaining - Z.of_nat (Z.to_nat (length_ b) + length (contents h (y :: A)))) by lia.
      subst h1. cbn [mem set_mem]. rewrite insert_insert_eq.
      rewrite <-splice_splice, Hlz in HQ by lia. exact HQ.
Qed.

Lemma wp_isChained p l (Q : bool → heap → Prop) h :
  chain h p l → Q (negb (bool_decide (l = []))) h → wp (isChained p) Q h.
Proof.
  intros Hch HQ. destruct (chain_head _ _ _ Hch) as (b & Hb & En). pose proof Hch as [Hp Hnd].
  destruct (path_ends _ _ _ _ Hp) as [_ (b' & Hb' & Ev)%prev_of_some].
  assert (b' = b) as -> by congruence. unfold isChained.
  apply wp_bind, (wp_deref_buf p b); [done|]. rewrite En, Ev. apply NoDup_cons in Hnd as [Hpl _].
  destruct l as [|q l]; cbn -[wp] in *.
  - rewrite Z.eqb_refl. apply wp_bind, wp_assert; [done|]. by apply wp_ret.
  - assert (lst q l ≠ p) by (intros <-; apply Hpl, lst_in).
    rewrite (proj2 (Z.eqb_neq q p)), (proj2 (Z.eqb_neq (lst q l) p)) by set_solver.
    apply wp_bind, wp_assert; [done|]. by apply wp_ret.
Qed.

(** Elements between [this] and [stop] are gathered into [this]. *)
Lemma wp_coalesceAndReallocate U this A C nh nl nt b (Q : unit → heap → Prop) h :
  let stop := default this (head C) in
  ok U h → chain h this (A ++ C) → (∀ x, x ∈ A → heapobj h x) → (A ≠ [] ∨ C = []) →
  bufs h !! this = Some b →
  nl = Z.of_nat (length (contents h (this :: A))) → 0 ≤ nh → 0 ≤ nt →
  nl + nh + nt < 2 ^ 61 - 31 → nl + nh + nt + 31 ≤ mem_limit →
  (∀ h' b', ok U h' → chain h' this C → affects (this :: A ++ C) h h' → unique h' this →
     bytes_at h' this = contents h (this :: A) → (∀ x, x ∈ C → bytes_at h' x = bytes_at h x) →
     (∀ x, x ∈ A → bufs h' !! x = None) → (∀ x, x ∉ A → heapobj h' x ↔ heapobj h x) →
     bufs h' !! this = Some b' → headroom b' = nh → nt ≤ tailroom b' → Q tt h') →
  wp (coalesceAndReallocate uninit mem_limit this nh nl stop nt) Q h.
Proof.
  intros stop Hok Hch Hobj Hcase Hb Enl Hnh Hnt Hsum Hlim HQ.
  pose proof Hok as [Hi _ _]. unfold coalesceAndReallocate. rewrite (u64_small (nl + nh + nt)) by lia.
  apply wp_bind, (wp_allocExtBuffer uninit mem_limit U (holders h)); [done|lia|lia|].
  intros a i cap h1 Hea. pose proof (ext_alloc_frames _ _ _ _ _ _ _ _ Hi Hea) as [Eb1 Hbl _ _].
  pose proof (ea_mem _ _ _ _ _ _ _ _ Hea) as (l & Hm & Hl). pose proof (ea_cap _ _ _ _ _ _ _ _ Hea) as Hc.
  pose proof (ea_new _ _ _ _ _ _ _ _ Hea) as (_ & _ & Hab & _).
  assert (chain h1 this (A ++ C)) as Hch1 by by eapply chain_bufs.
  apply wp_bind, (wp_chain_fuel this (A ++ C)); [done|]. intros fuel Hfuel. rewrite length_app in Hfuel.
  assert (∀ x, x ∈ this :: A ++ C → apart a h1 x ∧ bytes_at h1 x = bytes_at h x) as Hap.
  { intros x Hx. destruct (chain_bufs_in _ _ _ _ Hch Hx) as [c Hc']. 
    pose proof (Hbl x (strip c) (holders_lookup _ _ _ Hc')) as E. cbn in E.
    pose proof (ok_geo _ _ _ _ Hok Hc') as [? ? ? Hgb ?].
    pose proof (i_key _ _ _ Hi _ _ (holders_lookup _ _ _ Hc')) as Hk. cbn in Hk. split.
    - exists c. rewrite Eb1. split_and!; [done| |lia]. split; try done. by rewrite E.
    - unfold bytes_at. rewrite Eb1, Hc'. by apply bytes_ext. }
  assert (contents h1 (this :: A) = contents h (this :: A)) as Ec.
  { apply contents_ext. intros x Hx. apply Hap. set_solver. }
  pose proof Hch1 as [Hp1 Hnd]. apply NoDup_cons in Hnd as [Hthis Hnd].
  assert (path h1 this A stop ∧ stop ∉ A) as [HpA HsA].
  { subst stop. destruct C as [|c C']; cbn.
    - rewrite app_nil_r in *. done.
    - apply path_app in Hp1 as [? _]. split; [done|]. apply NoDup_app in Hnd as (_ & Hd & _).
      intros Hin. apply (Hd c Hin). set_solver. }
  apply wp_bind. eapply (wp_copy_loop a stop A this fuel nh nl l); try done; rewrite ?Ec; try lia.
  { intros y Hy. apply Hap. set_solver. }
  { rewrite Hm. apply lookup_insert_eq. }
  rewrite <-Enl, Z.sub_diag. apply wp_bind, wp_assert; [done|].
  (* give up the old memory and take the new *)
  cut (∀ h', ok U h' → bufs h' = <[this := switched a i nh nl cap b]> (bufs h) → affects [this] h h' →
     mem h' !! a = Some (splice nh (contents h (this :: A)) l) → unique h' this →
     (∀ q, heapobj h' q ↔ heapobj h q) →
     wp (chained ← isChained this;
         if chained : bool then
           b ← deref this; c ← deref stop;
           hd ← separateChain this (next_ b) (prev_ c); destroy hd
         else mret tt) Q h').
  { intros Hk.
    apply (wp_seq (decrementRefcount this) (fun _ => assign this (switched a i nh nl cap))).
    apply (wp_switch U this b (nl + nh + nt) a i cap nh nl cap
        (splice nh (contents h (this :: A)) l) h h1); try done; try lia.
    rewrite length_splice; lia. }
  intros h3 Hok3 Eb3 Ha3 Hm3 Hu3 Hho3.
  assert (∀ x, next_of h3 x = next_of h x ∧ prev_of h3 x = prev_of h x) as Hlk.
  { intros x. unfold next_of, prev_of. rewrite Eb3. destruct (decide (x = this)) as [->|Hne];
      [by rewrite lookup_insert_eq, Hb|by rewrite lookup_insert_ne]. }
  assert (chain h3 this (A ++ C)) as Hch3.
  { destruct Hch as [Hp Hnd']. split; [|done]. apply (path_frame h); [done| |]; intros z _; apply Hlk. }
  assert (bytes_at h3 this = contents h (this :: A)) as Hbt.
  { unfold bytes_at. rewrite Eb3, lookup_insert_eq. eapply bytes_switched; [done|done|done|lia]. }
  assert (bufs h3 !! this = Some (switched a i nh nl cap b)) as Hbt3 by by rewrite Eb3, lookup_insert_eq.
  assert (headroom (switched a i nh nl cap b) = nh ∧ nt ≤ tailroom (switched a i nh nl cap b)) as [Hhr Htr].
  { unfold headroom, tailroom; cbn. rewrite !u64_small by lia. lia. }
  apply wp_bind, (wp_isChained this (A ++ C)); [done|].
  destruct A as [|q A'].
  { destruct Hcase as [?| ->]; [done|]. apply wp_ret.
    apply (HQ h3 (switched a i nh nl cap b)); try done; try (by intros x Hx%elem_of_nil). }
  cbn [app]. rewrite bool_decide_false by done. cbn [negb].
  assert (path h3 this (q :: A') stop) as HpA3.
  { apply (path_frame h1); [done| |]; intros z _; unfold next_of, prev_of; rewrite Eb1; apply Hlk. }
  destruct (chain_head _ _ _ Hch3) as (bt & Hbt' & Ent). cbn in Ent.
  destruct (path_ends _ _ _ _ HpA3) as [_ (bs & Hbs & Evs)%prev_of_some]. cbn [lst] in Evs.
  apply wp_bind, (wp_deref_buf this bt); [done|]. apply wp_bind, (wp_deref_buf stop bs); [done|].
  rewrite Ent, Evs.
  apply wp_bind, (wp_separateChain this [] q A' C); [done|]. intros h4 Hc4 Hc4' Hr4. cbn [app] in *.
  assert (ok U h4) as Hok4 by by eapply relinks_ok.
  apply (wp_destroy U q A'); [done|done| |].
  { intros x Hx. apply (relinks_heapobj _ _ _ _ Hr4), Hho3, Hobj, Hx. }
  intros h5 Hok5 Ha5 Hg5.
  assert (∀ x, x ∈ this :: C → x ∉ q :: A') as Hdis.
  { change (q :: A' ++ C) with ((q :: A') ++ C) in Hthis, Hnd. apply NoDup_app in Hnd as (_ & Hd & _).
    intros x [->|Hx]%elem_of_cons Hin; [set_solver|]. by apply (Hd x). }
  assert (this ∉ q :: A') as Htq by (apply Hdis; set_solver).
  assert (∃ b5, bufs h5 !! this = Some b5 ∧ strip b5 = strip (switched a i nh nl cap b)) as (b5 & Hb5 & Es5).
  { rewrite (af_bufs _ _ _ Ha5) by done. pose proof (rl_holders _ _ _ Hr4) as E.
    assert (holders h4 !! this = Some (strip (switched a i nh nl cap b))) as E'.
    { rewrite E. by apply holders_lookup. }
    apply holders_inv in E' as (b4 & ? & ->). eauto. }
  apply (HQ h5 b5); try done.
  - eapply affects_chain; [done|done|done].
  - eapply affects_trans; [eapply affects_mono; [|exact Ha3]; set_solver|].
    eapply affects_trans; [eapply affects_mono; [|by apply relinks_affects]; set_solver|].
    eapply affects_mono; [|done]. set_solver.
  - apply (unique_mono h3); [done| |].
    + intros c Hc'. assert (c = switched a i nh nl cap b) as -> by congruence. exists b5. split; [done|].
      change (sharedInfo (strip b5) = sharedInfo (strip (switched a i nh nl cap b))). by rewrite Es5.
    + intros k c Hk. assert (k ∉ q :: A') as Hkq by (intros Hin; rewrite Hg5 in Hk by done; done).
      rewrite (af_bufs _ _ _ Ha5) in Hk by done.
      apply holders_lookup in Hk. rewrite (rl_holders _ _ _ Hr4) in Hk.
      apply holders_inv in Hk as (c' & ? & E). exists c'. split; [done|].
      change (sharedInfo (strip c') = sharedInfo (strip c)). by rewrite E.
  - rewrite (affects_bytes U (q :: A') h4 h5), <-Hbt by done. by eapply relinks_bytes.
  - intros x Hx. rewrite (affects_bytes U (q :: A') h4 h5) by (done || apply Hdis; set_solver).
    rewrite (relinks_bytes _ _ _ x Hr4). apply (affects_bytes U [this]); [done|done|].
    intros ->%list_elem_of_singleton. apply Hthis. set_solver.
  - intros x Hx. rewrite (af_heap _ _ _ Ha5), (relinks_heapobj _ _ _ _ Hr4) by done. apply Hho3.
  - injection Es5 as E1 E2 _ _ _. rewrite <-Hhr. unfold headroom. by rewrite E1, E2.
  - injection Es5 as E1 E2 E3 E4 _. revert Htr. unfold tailroom, bufferEnd, tail. by rewrite E1, E2, E3, E4.
Qed.

(** A walk that only looks. *)
Lemma wp_walk_pure {T} (f : T → Z → iobuf → M T) (g : T → iobuf → T) stop l : ∀ y fuel acc (Q : T → heap → Prop) h,
  path h y l stop → stop ∉ l → (length l < fuel)%nat → (∀ acc x b, f acc x b = mret (g acc b)) →
  Q (foldl (fun acc x => from_option (g acc) acc (bufs h !! x)) acc l) h →
  wp (walk fuel f acc (default stop (head l)) stop) Q h.
Proof.
  induction l as [|x l IH]; intros y fuel acc Q h Hp Hs Hfuel Hf HQ; (destruct fuel as [|fuel]; [cbn in *; lia|]);
    cbn -[wp].
  - rewrite Z.eqb_refl. by apply wp_ret.
  - rewrite (proj2 (Z.eqb_neq x stop)) by set_solver. destruct Hp as [_ Hp].
    pose proof (path_first _ _ _ _ Hp) as (b & Hb & En)%next_of_some.
    apply wp_bind, (wp_deref_buf x b); [done|]. rewrite Hf. apply wp_bind, wp_ret.
    apply wp_bind, (wp_deref_buf x b); [done|]. rewrite En.
    apply (IH x); [done|set_solver|cbn in *; lia|done|]. cbn in HQ. by rewrite Hb in HQ.
Qed.

(** The length of a chain's data, as a uint64_t. *)
Lemma wp_computeChainDataLength U p l (Q : Z → heap → Prop) h :
  ok U h → chain h p l → Z.of_nat (length (contents h (p :: l))) < 2 ^ 64 →
  Q (Z.of_nat (length (contents h (p :: l)))) h → wp (computeChainDataLength p) Q h.
Proof.
  intros Hok Hch Hlt HQ. pose proof Hch as [Hp Hnd]. apply NoDup_cons in Hnd as [Hpl _].
  destruct (chain_head _ _ _ Hch) as (b & Hb & En). unfold computeChainDataLength.
  apply wp_bind, (wp_deref_buf p b); [done|]. apply wp_bind, (wp_chain_fuel p l); [done|]. intros n Hn.
  rewrite En. apply (wp_walk_pure _ (fun k c => u64 (k + length_ c)) p l p); [done|done|lia|done|].
  assert (∀ q c, bufs h !! q = Some c → Z.of_nat (length (bytes_at h q)) = length_ c ∧ 0 ≤ length_ c) as Hlen.
  { intros q c Hc. pose proof (ok_geo _ _ _ _ Hok Hc) as Hg. pose proof (geo_len _ _ Hg).
    unfold bytes_at. rewrite Hc, bytes_length by done. lia. }
  rewrite contents_cons, length_app in *. destruct (Hlen p b Hb) as [E0 ?].
  assert (∀ x, x ∈ l → is_Some (bufs h !! x)) as Hin.
  { intros x Hx. eapply chain_bufs_in; [done|]. set_solver. }
  assert (∀ acc, 0 ≤ acc → acc + Z.of_nat (length (contents h l)) < 2 ^ 64 →
    foldl (fun acc x => from_option (fun c => u64 (acc + length_ c)) acc (bufs h !! x)) acc l
    = acc + Z.of_nat (length (contents h l))) as Hfold.
  { clear -Hlen Hin. induction l as [|x l IH]; intros acc Ha Hlt.
    - cbn. change (contents h []) with (@nil Z). cbn. lia.
    - cbn [foldl]. destruct (Hin x ltac:(set_solver)) as [c Hc]. rewrite Hc. cbn [from_option option_rect].
      rewrite contents_cons, length_app in *. destruct (Hlen x c Hc). rewrite u64_small by lia.
      rewrite IH; [lia| |lia|lia]. intros y Hy. apply Hin. set_solver. }
  rewrite Hfold by lia. replace (length_ b + Z.of_nat (length (contents h l))) with
    (Z.of_nat (length (bytes_at h p) + length (contents h l))) by lia. done.
Qed.

Lemma chain_last h p l : chain h p l → ∃ b c, bufs h !! p = Some b ∧ prev_ b = lst p l ∧ bufs h !! lst p l = Some c.
Proof.
  intros Hch. pose proof Hch as [Hp _]. destruct (path_ends _ _ _ _ Hp) as [_ (b & Hb & E)%prev_of_some].
  destruct (chain_bufs_in _ _ _ (lst p l) Hch (lst_in _ _)) as [c Hc]. eauto.
Qed.

(** The room a chain has in front and behind. *)
Definition fits (h : heap) (p : Z) (l : list Z) : Prop :=
  ∃ b c, bufs h !! p = Some b ∧ bufs h !! lst p l = Some c ∧
    Z.of_nat (length (contents h (p :: l))) + headroom b + tailroom c < 2 ^ 61 - 31 ∧
    Z.of_nat (length (contents h (p :: l))) + headroom b + tailroom c + 31 ≤ mem_limit.

(** What gathering the first elements [A] of a chain into its head amounts to. *)
Record gathered (U : gset Z) (this : Z) (A C : list Z) (h h' : heap) : Prop := {
  ga_ok : ok U h';
  ga_chain : chain h' this C;
  ga_affects : affects (this :: A ++ C) h h';
  ga_unique : unique h' this;
  ga_bytes : bytes_at h' this = contents h (this :: A);
  ga_rest : ∀ x, x ∈ C → bytes_at h' x = bytes_at h x;
  ga_gone : ∀ x, x ∈ A → bufs h' !! x = None;
  ga_heap : ∀ x, x ∉ A → heapobj h' x ↔ heapobj h x
}.

Lemma wp_coalesce_keep U this A C (Q : unit → heap → Prop) h :
  let stop := default this (head C) in
  ok U h → chain h this (A ++ C) → (∀ x, x ∈ A → heapobj h x) → (A ≠ [] ∨ C = []) →
  fits h this A →
  (∀ h', gathered U this A C h h' → Q tt h') →
  wp (coalesceAndReallocate_keep uninit mem_limit this
        (Z.of_nat (length (contents h (this :: A)))) stop) Q h.
Proof.
  intros stop Hok Hch Hobj Hcase (b & c & Hb & Hc & H1 & H2) HQ. unfold coalesceAndReallocate_keep.
  apply wp_bind, (wp_deref_buf this b); [done|].
  assert (path h this A stop) as HpA.
  { destruct Hch as [Hp _]. subst stop. destruct C as [|x C']; cbn.
    - by rewrite app_nil_r in Hp.
    - by apply path_app in Hp as [? _]. }
  destruct (path_ends _ _ _ _ HpA) as [_ (bs & Hbs & Ev)%prev_of_some].
  apply wp_bind, (wp_deref_buf stop bs); [done|]. rewrite Ev. apply wp_bind, (wp_deref_buf _ c); [done|].
  eapply (wp_coalesceAndReallocate U this A C _ _ _ b); try done.
  - apply u64_range.
  - apply u64_range.
  - intros h' b' G1 G2 G3 G4 G5 G6 G7 G8 _ _ _. apply HQ. by split.
Qed.

Lemma wp_coalesceSlow U this A (Q : unit → heap → Prop) h :
  ok U h → chain h this A → A ≠ [] → (∀ x, x ∈ A → heapobj h x) → fits h this A →
  (∀ h', gathered U this A [] h h' → Q tt h') →
  wp (coalesceSlow uninit mem_limit this) Q h.
Proof.
  intros Hok Hch HA Hobj Hfit HQ. unfold coalesceSlow.
  apply wp_bind, (wp_isChained this A); [done|]. rewrite bool_decide_false by done.
  apply wp_bind, wp_assert; [done|].
  pose proof Hfit as (b & c & _ & _ & H1 & _). pose proof (u64_range (off (data_ b) - off (buf_ b))).
  pose proof (u64_range (off (bufferEnd c) - off (tail c))). unfold headroom, tailroom in H1.
  apply wp_bind, (wp_computeChainDataLength U this A); [done|done|lia|].
  apply wp_bind, (wp_coalesce_keep U this A []); try done; [by rewrite app_nil_r|by right|].
  intros h' Hg. apply wp_bind, (wp_isChained this []); [by eapply ga_chain|].
  apply wp_assert; [done|]. by apply HQ.
Qed.

(** coalesce: one element with all the bytes. *)
Lemma wp_coalesce U this A (Q : ptr * Z → heap → Prop) h :
  ok U h → chain h this A → (∀ x, x ∈ A → heapobj h x) → fits h this A →
  (∀ h' b', ok U h' → chain h' this [] → affects (this :: A) h h' →
     bytes_at h' this = contents h (this :: A) → (∀ x, x ∈ A → bufs h' !! x = None) →
     (∀ x, x ∉ A → heapobj h' x ↔ heapobj h x) →
     bufs h' !! this = Some b' → Q (data_ b', length_ b') h') →
  wp (coalesce uninit mem_limit this) Q h.
Proof.
  intros Hok Hch Hobj Hfit HQ. unfold coalesce.
  apply wp_bind, (wp_isChained this A); [done|]. destruct A as [|q A].
  - cbn -[wp]. apply wp_bind, wp_ret. destruct (chain_head _ _ _ Hch) as (b & Hb & _).
    apply wp_bind, (wp_deref_buf this b); [done|]. apply wp_ret, HQ; try done; try (by intros x Hx%elem_of_nil).
    rewrite contents_cons. change (contents h []) with (@nil Z). by rewrite app_nil_r.
  - rewrite bool_decide_false by done. cbn -[wp].
    apply wp_bind, (wp_coalesceSlow U this (q :: A)); try done.
    intros h' [G1 G2 G3 G4 G5 G6 G7 G8]. destruct (chain_head _ _ _ G2) as (b & Hb & _).
    apply wp_bind, (wp_deref_buf this b); [done|]. apply wp_ret, HQ; try done.
    eapply affects_mono; [|done]. set_solver.
Qed.

Lemma wp_shared_loop U this l : ∀ x fuel (Q : bool → heap → Prop) h,
  ok U h → path h x l this → this ∉ l → (length l < fuel)%nat →
  (∀ r h', ok U h' → reflags (x :: l) h h' →
     (r = false → ∀ q, q ∈ x :: l → unique h' q) → Q r h') →
  wp (unshareChained_loop fuel x this) Q h.
Proof.
  induction l as [|y l IH]; intros x fuel Q h Hok Hp Hs Hfuel HQ; (destruct fuel as [|fuel]; [cbn in *; lia|]); cbn -[wp];
    pose proof (path_first _ _ _ _ Hp) as (b & Hb & En)%next_of_some; cbn in En;
    (apply wp_bind, (wp_isSharedOne U x b); [done|done|by intros _; apply wp_ret, HQ; [done|apply reflags_refl|]|]);
    intros h' Hok' Hu Hr; destruct (rf_same _ _ _ Hr x b Hb) as (w & Hw & _);
    (apply wp_bind, (wp_deref_buf x (with_word w b)); [done|]); cbn [next_ with_word]; rewrite En.
  - rewrite Z.eqb_refl. apply wp_ret, HQ; [done|done|]. intros _ q ->%list_elem_of_singleton. done.
  - rewrite (proj2 (Z.eqb_neq y this)) by set_solver. destruct Hp as [_ Hp].
    apply IH; [done| |set_solver|cbn in *; lia|].
    + apply (path_frame h); [done| |]; intros z _; by eapply reflags_links.
    + intros r h2 Hok2 Hr2 Hu2. apply HQ; [done| |].
      * eapply reflags_trans; (eapply reflags_mono; [|done]); set_solver.
      * intros -> q [->|Hq]%elem_of_cons; [by eapply reflags_unique|by apply Hu2].
Qed.

Lemma reflags_fits S h h' p l : reflags S h h' → fits h p l → fits h' p l.
Proof.
  intros Hr (b & c & Hb & Hc & H1 & H2).
  destruct (rf_same _ _ _ Hr p b Hb) as (w & Hw & _), (rf_same _ _ _ Hr _ c Hc) as (w' & Hw' & _).
  exists (with_word w b), (with_word w' c). rewrite (reflags_contents _ _ _ _ Hr). done.
Qed.

(** unshare: afterwards no other object sees what is written to the chain, its
    bytes are the same, and so are everybody else's. *)
Lemma wp_unshare U this l (Q : unit → heap → Prop) h :
  ok U h → chain h this l → (∀ x, x ∈ l → heapobj h x) → fits h this l →
  (∃ b, bufs h !! this = Some b ∧ capacity_ b < 2 ^ 61 - 31 ∧ capacity_ b + 31 ≤ mem_limit) →
  (∀ h' l', ok U h' → chain h' this l' → l' = l ∨ l' = [] → affects (this :: l) h h' →
     (∀ x, x ∈ this :: l' → unique h' x) → contents h' (this :: l') = contents h (this :: l) → Q tt h') →
  wp (unshare uninit mem_limit this) Q h.
Proof.
  intros Hok Hch Hobj Hfit (b & Hb & Hcap & Hlim) HQ. unfold unshare.
  apply wp_bind, (wp_isChained this l); [done|]. destruct l as [|q l].
  - cbn -[wp]. unfold unshareOne. apply wp_bind, (wp_isSharedOne U this b); [done|done| |].
    + intros _. apply (wp_unshareOneSlow U this b); try done.
      intros h' H1 H2 H3 H4 H5 H6 _ _. apply (HQ h' []); auto.
      * destruct Hch as [Hp Hnd]. split; [|done]. by apply (path_frame h).
      * by intros x ->%list_elem_of_singleton.
      * by rewrite !contents_cons, H4.
    + intros h' H1 H2 H3. apply wp_ret, (HQ h' []); auto.
      * by eapply reflags_chain.
      * by apply reflags_affects.
      * by intros x ->%list_elem_of_singleton.
      * by eapply reflags_contents.
  - rewrite bool_decide_false by done. cbn -[wp]. unfold unshareChained.
    apply wp_bind, (wp_isChained this (q :: l)); [done|]. rewrite bool_decide_false by done.
    apply wp_bind, wp_assert; [done|]. apply wp_bind, (wp_chain_fuel this (q :: l)); [done|]. intros n Hn.
    pose proof Hch as [Hp Hnd]. apply NoDup_cons in Hnd as [Hnt _].
    apply wp_bind, (wp_shared_loop U this (q :: l) this); [done|done|done|cbn in *; lia|].
    intros r h1 Hok1 Hr1 Hu1. destruct r.
    + apply (wp_coalesceSlow U this (q :: l)); [done|by eapply reflags_chain|done| |by eapply reflags_fits|].
      { intros x Hx. by apply (reflags_heapobj _ _ _ _ Hr1), Hobj. }
      intros h2 [G1 G2 G3 G4 G5 G6 G7 G8]. apply (HQ h2 []); auto.
      * eapply affects_trans; [by apply reflags_affects|]. eapply affects_mono; [|done]. set_solver.
      * by intros x ->%list_elem_of_singleton.
      * rewrite contents_cons, G5, (reflags_contents _ _ _ _ Hr1). apply app_nil_r.
    + apply wp_ret, (HQ h1 (q :: l)); auto.
      * by eapply reflags_chain.
      * by apply reflags_affects.
      * by eapply reflags_contents.
Qed.

(** gather: the first elements that make up [maxLength] bytes. *)
Lemma wp_gather_loop U this maxLength l : ∀ x fuel acc (Q : Z * Z → heap → Prop) h,
  ok U h → path h x l this → this ∉ l → (length l < fuel)%nat → 0 ≤ acc →
  acc + Z.of_nat (length (contents h (x :: l))) < 2 ^ 64 →
  maxLength ≤ acc + Z.of_nat (length (contents h (x :: l))) →
  (∀ A C, l = A ++ C → maxLength ≤ acc + Z.of_nat (length (contents h (x :: A))) →
     Q (acc + Z.of_nat (length (contents h (x :: A))), default this (head C)) h) →
  wp (gather_loop fuel acc x this maxLength) Q h.
Proof.
  induction l as [|y l IH]; intros x fuel acc Q h Hok Hp Hs Hfuel Hacc Hlt Hmax HQ;
    (destruct fuel as [|fuel]; [cbn in *; lia|]); cbn -[wp];
    pose proof (path_first _ _ _ _ Hp) as (b & Hb & En)%next_of_some; cbn in En;
    pose proof (ok_geo _ _ _ _ Hok Hb) as Hg; pose proof (geo_len _ _ Hg) as Hl0;
    (assert (Z.of_nat (length (bytes_at h x)) = length_ b) as Hlb
      by (unfold bytes_at; rewrite Hb, bytes_length by done; lia));
    (apply wp_bind, (wp_deref_buf x b); [done|]); rewrite En;
    rewrite (contents_cons h x), length_app in Hlt, Hmax.
  - change (contents h []) with (@nil Z) in *. cbn [length] in *.
    rewrite u64_small by lia. rewrite (proj2 (Z.leb_le _ _)) by lia. apply wp_ret.
    specialize (HQ [] []). rewrite contents_cons, length_app in HQ.
    change (contents h []) with (@nil Z) in HQ. cbn [length head default] in HQ.
    replace (acc + length_ b) with (acc + Z.of_nat (length (bytes_at h x) + 0)) by lia.
    apply HQ; [done|lia].
  - destruct Hp as [_ Hp]. rewrite u64_small by lia. wp_step.
    + apply Z.leb_le in Heqb0. apply wp_ret. specialize (HQ [] (y :: l)).
      rewrite contents_cons, length_app in HQ. change (contents h []) with (@nil Z) in HQ.
      cbn [length head default] in HQ.
      replace (acc + length_ b) with (acc + Z.of_nat (length (bytes_at h x) + 0)) by lia.
      apply HQ; [done|lia].
    + rewrite (proj2 (Z.eqb_neq y this)) by set_solver.
      apply IH; [done|done|set_solver|cbn in *; lia|lia|lia|lia|].
      intros A C -> Hm. specialize (HQ (y :: A) C). rewrite (contents_cons h x), length_app in HQ.
      replace (acc + length_ b + Z.of_nat (length (contents h (y :: A)))) with
        (acc + Z.of_nat (length (bytes_at h x) + length (contents h (y :: A)))) in * by lia.
      apply HQ; [done|lia].
Qed.

Lemma wp_gather U this l maxLength (Q : unit → heap → Prop) h :
  ok U h → chain h this l → (∀ x, x ∈ l → heapobj h x) →
  (∀ A C, l = A ++ C → fits h this A) → maxLength ≤ Z.of_nat (length (contents h (this :: l))) →
  (∀ h' C, ok U h' → chain h' this C → affects (this :: l) h h' →
     contents h' (this :: C) = contents h (this :: l) →
     maxLength ≤ Z.of_nat (length (bytes_at h' this)) → Q tt h') →
  wp (gather uninit mem_limit this maxLength) Q h.
Proof.
  intros Hok Hch Hobj Hfit Hmax HQ. unfold gather.
  apply wp_bind, (wp_isChained this l); [done|]. destruct (chain_head _ _ _ Hch) as (b & Hb & _).
  apply wp_bind, (wp_deref_buf this b); [done|].
  pose proof (ok_geo _ _ _ _ Hok Hb) as Hg. pose proof (geo_len _ _ Hg) as Hl0.
  assert (Z.of_nat (length (bytes_at h this)) = length_ b) as Hlb
      by (unfold bytes_at; rewrite Hb, bytes_length by done; lia).
  wp_step.
  { apply wp_ret, (HQ h l); try done.
    apply orb_true_iff in Heqb0 as [?%negb_true_iff|?%Z.leb_le]; [|lia].
    apply negb_false_iff, bool_decide_eq_true in H. rewrite H, contents_cons in Hmax.
    change (contents h []) with (@nil Z) in Hmax. by rewrite app_nil_r in Hmax. }
  apply orb_false_iff in Heqb0 as [Hc%negb_false_iff Hlt%Z.leb_gt].
  apply negb_true_iff, bool_decide_eq_false in Hc.
  unfold coalesceSlow_max. apply wp_bind, (wp_isChained this l); [done|]. rewrite bool_decide_false by done.
  apply wp_bind, wp_assert; [done|]. apply wp_bind, (wp_deref_buf this b); [done|].
  apply wp_bind, wp_assert; [by apply Z.ltb_lt|]. apply wp_bind, (wp_chain_fuel this l); [done|]. intros n Hn.
  pose proof Hch as [Hp Hnd]. apply NoDup_cons in Hnd as [Hnt _].
  destruct (Hfit l []) as (b1 & c1 & _ & _ & Hf1 & _); [by rewrite app_nil_r|].
  pose proof (u64_range (off (data_ b1) - off (buf_ b1))).
  pose proof (u64_range (off (bufferEnd c1) - off (tail c1))). unfold headroom, tailroom in Hf1.
  apply wp_bind, (wp_gather_loop U this maxLength l); [done|done|done|lia|lia|lia|lia|].
  intros A C -> Hm. rewrite Z.add_0_l in *.
  assert (A ≠ []) as HA.
  { intros ->. rewrite contents_cons in Hm. change (contents h []) with (@nil Z) in Hm.
    rewrite app_nil_r in Hm. lia. }
  apply wp_bind, (wp_coalesce_keep U this A C); [done|done| |by left|by eapply Hfit|].
  { intros x Hx. apply Hobj. set_solver. }
  intros h' [G1 G2 G3 G4 G5 G6 G7 G8]. destruct (chain_head _ _ _ G2) as (b' & Hb' & _).
  apply wp_bind, (wp_deref_buf this b'); [done|].
  pose proof (ok_geo _ _ _ _ G1 Hb') as Hg'. pose proof (geo_len _ _ Hg') as Hl0'.
  assert (Z.of_nat (length (bytes_at h' this)) = length_ b') as Hlb'
      by (unfold bytes_at; rewrite Hb', bytes_length by done; lia).
  rewrite G5 in Hlb'. apply wp_assert; [apply Z.leb_le; lia|].
  apply (HQ h' C); try done.
  - rewrite contents_cons, G5. change (this :: A ++ C) with ((this :: A) ++ C).
    rewrite contents_app. f_equal. by apply contents_ext.
  - by rewrite G5.
Qed.
End alloc.
