(* ===== verification/IOBufClone.v ===== *)
(** clone and cloneOne: new objects on the same memory. *)
From S2P Require Import Prelude IOBuf IOBufInv IOBufChain IOBufMem IOBufLife IOBufOps.
Import IOBuf.

(** An object without memory, alone. *)
Definition blank (p : Z) (b : iobuf) : Prop := sharedInfo b = 0 ∧ next_ b = p ∧ prev_ b = p.

Lemma wp_delete_rest_alone p b n (Q : unit → heap → Prop) h :
  bufs h !! p = Some b → next_ b = p → Q tt h → wp (delete_rest (S n) p) Q h.
Proof.
  intros Hb En HQ. cbn. apply wp_bind, (wp_deref_buf p b); [done|]. rewrite En, Z.eqb_refl. by apply wp_ret.
Qed.

Lemma wp_dec_unmanaged p b (Q : unit → heap → Prop) h :
  bufs h !! p = Some b → sharedInfo b = 0 → Q tt h → wp (decrementRefcount p) Q h.
Proof.
  intros Hb Ei HQ. unfold decrementRefcount. apply wp_bind, (wp_deref_buf p b); [done|].
  rewrite Ei. by apply wp_ret.
Qed.

(** ~IOBuf of a local that gave its memory away. *)
Lemma wp_destroy_local_blank p b (Q : unit → heap → Prop) h :
  bufs h !! p = Some b → blank p b → Q tt (set_bufs (delete p (bufs h)) h) → wp (destroy_local p) Q h.
Proof.
  intros Hb (Ei & En & _) HQ. unfold destroy_local. apply wp_bind, wp_gets.
  apply wp_bind, (wp_delete_rest_alone p b); [done..|]. apply wp_bind, (wp_dec_unmanaged p b); [done..|].
  by apply wp_modify.
Qed.

Definition take_part (o t : iobuf) : iobuf :=
  with_buffer (data_ o) (buf_ o) (length_ o) (capacity_ o) (flagsAndSharedInfo_ o) t.
Definition emptied (o : iobuf) : iobuf := with_buffer nullptr nullptr 0 0 0 o.

(** Moving an object that is alone. *)
Lemma wp_move_alone this other t o (Q : unit → heap → Prop) h :
  this ≠ other → bufs h !! this = Some t → blank this t →
  bufs h !! other = Some o → next_ o = other → prev_ o = other →
  Q tt (set_bufs (<[other := emptied o]> (<[this := take_part o t]> (bufs h))) h) →
  wp (move_assign this other) Q h.
Proof.
  intros Hne Ht (Ei & En & _) Ho Eon Eop HQ. unfold move_assign.
  rewrite (proj2 (Z.eqb_neq _ _) Hne). apply wp_bind, wp_gets.
  apply wp_bind, (wp_delete_rest_alone this t); [done..|].
  apply wp_bind, (wp_dec_unmanaged this t); [done..|].
  apply wp_bind, (wp_deref_buf other o); [done|].
  apply wp_bind, (wp_assign_buf this _ t); [done|].
  apply wp_bind, (wp_assign_buf other _ o); [cbn; by rewrite lookup_insert_ne|].
  set (h' := set_bufs _ _).
  assert (bufs h' !! other = Some (emptied o)) as Hoe by (cbn; by rewrite lookup_insert_eq).
  apply wp_bind, (wp_deref_buf other (emptied o)); [done|]. cbn [next_ emptied with_buffer].
  rewrite Eon, Z.eqb_refl. apply wp_bind, wp_ret.
  apply wp_bind, (wp_deref_buf other (emptied o)); [done|]. cbn [next_ prev_ emptied with_buffer].
  rewrite Eon, Eop, Z.eqb_refl. apply wp_bind, wp_assert; [done|]. apply wp_assert; [done|]. exact HQ.
Qed.

(** A buffer that is not managed belongs to no storage. *)
Lemma unmanaged_not_stored U R h k b p st :
  inv U R h → R !! k = Some b → sharedInfo b = 0 → stores h !! p = Some st → sblock st ≠ 0 →
  sblock st ≠ blk (buf_ b).
Proof.
  intros Hi Hk Hb Hp Hz E. destruct (i_store _ _ _ Hi p st Hp) as [_ _ _ _ Hd Hfr].
  destruct (data_in_use st) eqn:Eu; [|by eapply (Hfr Hz eq_refl k b)].
  destruct (Hd eq_refl) as (i & s & Hs & Hf & Hu & Hr).
  destruct (inv_holder _ _ _ _ _ Hi Hs Hr) as (j & c & Hj & Hc & (_ & _ & B3) & Hi0).
  rewrite Hf in B3. destruct B3 as (_ & st' & Hst' & Hsb & _). rewrite Hu in Hst'.
  assert (st' = st) as -> by congruence.
  destruct (i_diff _ _ _ Hi j k c b Hj Hk); congruence.
Qed.

Lemma owners_le_size R i : (owners R i ≤ size R)%nat.
Proof. unfold owners. apply map_size_filter. Qed.

Lemma size_holders h : size (holders h) = size (bufs h).
Proof. apply map_size_fmap. Qed.

Definition shared_flag (b : iobuf) : iobuf :=
  if sharedInfo b =? 0 then b else setFlags kFlagMaybeShared b.

Lemma setFlags_maybe b : Z.land (flags (setFlags kFlagMaybeShared b)) kFlagMaybeShared ≠ 0.
Proof.
  unfold flags, setFlags; cbn [flagsAndSharedInfo_ with_word].
  rewrite <-Z.land_assoc, Z.land_lor_distr_l. intros [_ E]%Z.lor_eq_0_iff. done.
Qed.

(** The invariant with one more holder of the buffer of [p]. *)
Lemma clone_inv U h p b q o s :
  ok U h → bufs h !! p = Some b → bufs h !! q = Some o → p ≠ q → sharedInfo o = 0 →
  Z.of_nat (size (bufs h)) < 2 ^ 32 - 2 → next_ o = q → prev_ o = q →
  (sharedInfo b ≠ 0 → infos h !! sharedInfo b = Some s) →
  inv U (<[q := strip (take_part (shared_flag b) o)]> (<[p := strip (shared_flag b)]> (holders h)))
    (if sharedInfo b =? 0 then h else
     set_infos (<[sharedInfo b := with_refcount (refcount s + 1) s]> (infos h)) h).
Proof.
  intros [Hi Ho Ha] Hp Hq Hne Eo Hsz En Ev Hs. set (H := holders h) in *.
  assert (H !! p = Some (strip b)) as HHp by by apply holders_lookup.
  assert (H !! q = Some (strip o)) as HHq by by apply holders_lookup.
  assert (inv U (delete q H) h) as Hd by by eapply (inv_drop_unmanaged U H h q (strip o)).
  pose proof (i_key _ _ _ Hi q _ HHq) as [Hqb _].
  assert (delete q H !! p = Some (strip b)) as Hdp by by rewrite lookup_delete_ne.
  pose proof (i_geo _ _ _ Hi p _ HHp) as [G1 G2 G3 G4 G5]. cbn in G1, G2, G3, G4, G5.
  unfold shared_flag. destruct (Z.eqb_spec (sharedInfo b) 0) as [E0|E0].
  - rewrite (insert_id H p (strip b)) by done.
    replace (<[q := _]> H) with (<[q := strip (take_part b o)]> (delete q H)) by apply insert_delete_eq.
    apply inv_new_unmanaged; try done.
    + by rewrite lookup_delete_eq.
    + by apply (i_key _ _ _ Hi p _ HHp).
    + intros j c Hj Hcn. apply (i_diff _ _ _ Hd j p c (strip b)); try done.
      change (sharedInfo c ≠ sharedInfo b). congruence.
    + intros p' st Hst Hz. by apply (unmanaged_not_stored U _ h p (strip b) p' st Hd).
  - set (b1 := setFlags kFlagMaybeShared b).
    assert (sharedInfo b1 = sharedInfo b) as E1 by (apply setFlags_sharedInfo; unfold kFlagMaybeShared; lia).
    assert (inv U (<[p := strip b1]> (delete q H)) h) as Hr.
    { apply (inv_replace _ _ _ p (strip b)); try done.
      - exact (setFlags_free b).
      - intros _ _ _. exact (setFlags_maybe b). }
    replace (<[q := _]> _) with (<[q := strip (take_part b1 o)]> (<[p := strip b1]> (delete q H))).
    2:{ apply map_eq. intros k. destruct (decide (k = q)) as [->|Hkq]; [by rewrite !lookup_insert_eq|].
        rewrite !(lookup_insert_ne _ q) by done. destruct (decide (k = p)) as [->|Hkp]; [by rewrite !lookup_insert_eq|].
        by rewrite !lookup_insert_ne, lookup_delete_ne by done. }
    rewrite <-E1. eapply (inv_share U (<[p := strip b1]> (delete q H)) h p q _ (strip b1)); try done.
    + by rewrite lookup_insert_eq.
    + change (sharedInfo b1 ≠ 0). congruence.
    + change (infos h !! sharedInfo b1 = Some s). rewrite E1. by apply Hs.
    + destruct (i_count _ _ _ Hi (sharedInfo b) s) as [-> _]; [by apply Hs|].
      pose proof (owners_le_size H (sharedInfo b)) as Hle. unfold H in Hle at 2; rewrite size_holders in Hle. lia.
    + rewrite lookup_insert_ne by done. by rewrite lookup_delete_eq.
    + exact (setFlags_maybe b).
    + exact (setFlags_maybe b).
Qed.

Lemma wp_cloneOneInto U p b q o (Q : unit → heap → Prop) h :
  ok U h → bufs h !! p = Some b → bufs h !! q = Some o → p ≠ q → blank q o →
  Z.of_nat (size (bufs h)) < 2 ^ 32 - 2 →
  (∀ h', ok U h' → bufs h' = <[q := take_part (shared_flag b) o]> (<[p := shared_flag b]> (bufs h)) →
     mem h' = mem h → stores h' = stores h → brk h' = brk h + 8 → Q tt h') →
  wp (cloneOneInto p q) Q h.
Proof.
  intros Hok Hp Hq Hne (Eo & En & Ev) Hsz HQ. pose proof Hok as [Hi Ho Ha].
  pose proof (ok_geo _ _ _ _ Hok Hp) as [G1 G2 G3 G4 G5].
  assert (∃ s, sharedInfo b ≠ 0 → infos h !! sharedInfo b = Some s) as [s Hs].
  { destruct (decide (sharedInfo b = 0)) as [E|E]; [by exists (mk_shared_info FreeMalloc 0 0 0)|].
    destruct (i_backs _ _ _ Hi p (strip b) (holders_lookup _ _ _ Hp) E) as (s & ? & _). by exists s. }
  pose proof (clone_inv U h p b q o s Hok Hp Hq Hne Eo Hsz En Ev Hs) as Hinv.
  pose proof (i_brk _ _ _ Hi) as [Hb0 Hb8].
  assert (bufs h !! brk h = None) as Htn.
  { apply eq_None_not_Some. rewrite <-holders_dom. destruct (inv_fresh_info _ _ _ Hi (brk h)) as (_ & -> & _); [lia|].
    by intros [? [=]]. }
  assert (p ≠ brk h ∧ q ≠ brk h) as [Hpt Hqt] by (split; congruence).
  set (b1 := shared_flag b).
  assert (bufs_b1 : data_ b1 = data_ b ∧ buf_ b1 = buf_ b ∧ length_ b1 = length_ b ∧ capacity_ b1 = capacity_ b ∧ sharedInfo b1 = sharedInfo b).
  { subst b1. unfold shared_flag. destruct (sharedInfo b =? 0); [done|].
    split_and!; try done. apply setFlags_sharedInfo. unfold kFlagMaybeShared. lia. }
  destruct bufs_b1 as (F1 & F2 & F3 & F4 & F5).
  unfold cloneOneInto. apply wp_bind, (wp_deref_buf p b); [done|].
  set (h1 := set_bufs (<[p := b1]> (bufs h)) h).
  assert (wp (if sharedInfo b =? 0 then mret tt else assign p (setFlags kFlagMaybeShared)) (fun _ h' => h' = h1) h) as Hset.
  { subst h1 b1. unfold shared_flag. destruct (sharedInfo b =? 0).
    - apply wp_ret. rewrite insert_id by done. by destruct h.
    - apply (wp_assign_buf p _ b); done. }
  apply wp_bind. eapply wp_mono; [exact Hset|]. intros _ h1' ->.
  assert (bufs h1 !! p = Some b1) as Hp1 by (cbn; by rewrite lookup_insert_eq).
  apply wp_bind, (wp_deref_buf p b1); [done|]. unfold fresh.
  apply wp_bind, wp_bind, wp_gets, wp_bind, wp_modify, wp_ret. cbn [brk set_bufs h1].
  set (t := brk h). unfold construct.
  assert (t ≠ q ∧ t ≠ p ∧ bufs h !! t = None) as (Ht1 & Ht2 & Ht3) by (subst t; split_and!; [by apply not_eq_sym..|done]).
  assert (t = brk h) as Et by done. clearbody t.
  apply wp_bind, wp_bind, wp_assert; [rewrite F1, F2; apply Z.leb_le; lia|].
  apply wp_bind, wp_assert; [rewrite F1, F2, F3, F4; apply Z.leb_le; lia|]. apply wp_modify.
  set (tb := mk_iobuf t t (data_ b1) (buf_ b1) (length_ b1) (capacity_ b1) (flagsAndSharedInfo_ b1)).
  cbn [bufs set_bufs set_brk h1].
  apply wp_bind, (wp_move_alone q t o tb); try done.
  { cbn. rewrite lookup_insert_ne, lookup_insert_ne by congruence. done. }
  { cbn. by rewrite lookup_insert_eq. }
  apply wp_bind, (wp_destroy_local_blank t (emptied tb)); [cbn; by rewrite lookup_insert_eq|done|].
  cbn [bufs set_bufs set_brk].
  set (h2 := set_bufs _ _).
  assert (bufs h2 = <[q := take_part b1 o]> (<[p := b1]> (bufs h))) as Eb2.
  { subst h2. cbn [bufs set_bufs]. rewrite delete_insert_eq. rewrite delete_insert_ne by congruence.
    rewrite delete_insert_id; [done|]. rewrite lookup_insert_ne by congruence. done. }
  assert (ok U (set_infos (if sharedInfo b =? 0 then infos h else
    <[sharedInfo b := with_refcount (refcount s + 1) s]> (infos h)) h2)) as Hok2.
  { split.
    - unfold holders. cbn [bufs set_infos]. rewrite Eb2, !fmap_insert.
      assert ((t + 8) mod 8 = 0) as H8 by (rewrite Et, Z.add_mod, Hb8 by lia; done).
      match goal with |- inv U ?R (set_infos ?X h2) =>
        change (inv U R (set_bufs (bufs h2) (set_brk (t + 8) (set_infos X h)))) end.
      apply inv_bufs, inv_set_brk; [|cbn; lia|done].
      revert Hinv. destruct (sharedInfo b =? 0); [by destruct h|done].
    - intros x Hx. cbn [bufs set_infos]. rewrite Eb2, !lookup_insert_is_Some'. right; right. by apply Ho.
    - intros x c. cbn [bufs set_infos]. rewrite Eb2.
      intros [[<- _]|[_ [[<- _]|[_ ?]]%lookup_insert_Some]]%lookup_insert_Some; by eapply Ha. }
  wp_step.
  - apply wp_ret, HQ; try done. cbn. lia.
  - apply Z.eqb_neq in Heqb0. apply wp_bind, (wp_info_at _ s); [by apply Hs|]. apply wp_modify.
    destruct (i_count _ _ _ Hi _ _ (Hs Heqb0)) as [Hcnt Hlt].
    pose proof (owners_le_size (holders h) (sharedInfo b)) as Hle. rewrite size_holders in Hle.
    rewrite u32_small by lia. apply HQ; try done. cbn. lia.
Qed.

(** ** New objects without memory *)

Definition blank_at (q : Z) : iobuf := mk_iobuf q q nullptr nullptr 0 0 0.

Lemma blank_inv U R h q :
  inv U R h → R !! q = None → q < brk h → inv U (<[q := strip (blank_at q)]> R) h.
Proof.
  intros Hi Hq Hqb. pose proof (i_brk _ _ _ Hi) as [Hb _]. apply inv_new_unmanaged; try done.
  intros j c Hj Hc. by apply (managed_blk U R h j).
Qed.

(** make_unique<IOBuf>(). *)
Lemma wp_new_blank {A} U (k : Z → M A) (Q : A → heap → Prop) h :
  ok U h →
  (∀ q h', made U h q (blank_at q) h' → mem h' = mem h → wp (k q) Q h') →
  wp (q ← operator_new; _ ← construct_empty q; k q) Q h.
Proof.
  intros [Hi Ho Ha] HQ. pose proof (inv_fresh_info U _ h Hi) as Hfr. pose proof (i_brk _ _ _ Hi) as [Hb0 Hb8].
  unfold operator_new, fresh, construct_empty, put.
  apply wp_bind, wp_bind, wp_bind, wp_gets, wp_bind, wp_modify, wp_ret, wp_bind, wp_modify, wp_ret.
  apply wp_bind, wp_modify. cbn [bufs set_stores set_brk].
  assert ((brk h + 8) mod 8 = 0) as H8 by (rewrite Z.add_mod, Hb8 by lia; done). set (q := brk h) in *.
  assert (bufs h !! q = None) as Hqn.
  { apply eq_None_not_Some. rewrite <-holders_dom. destruct (Hfr q) as (_ & -> & _); [lia|]. by intros [? [=]]. }
  apply HQ; try done. split; [|done|done|done| |].
  - split.
    + unfold holders; cbn [bufs set_bufs]. rewrite holders_insert. apply inv_bufs, blank_inv.
      * apply inv_new_store; [apply inv_set_brk; [done|lia|exact H8]|apply Hfr; lia|cbn; lia].
      * apply Hfr. lia.
      * cbn. lia.
    + eapply (objs_made h); [done|done|]. intros x Hx. unfold heapobj; cbn. by rewrite lookup_insert_ne.
    + intros x c. cbn. intros [[<- _]|[_ ?]]%lookup_insert_Some; [lia|by eapply Ha].
  - split; cbn; [| | |lia].
    + intros x Hx. apply lookup_insert_ne. set_solver.
    + done.
    + intros x Hx. unfold heapobj; cbn. rewrite lookup_insert_ne; [done|]. set_solver.
  - eexists. cbn. by rewrite lookup_insert_eq.
Qed.

(** A local IOBuf. *)
Lemma wp_local_blank {A} U (k : Z → M A) (Q : A → heap → Prop) h :
  ok U h →
  (∀ t h', ok U h' → bufs h' = <[t := blank_at t]> (bufs h) → bufs h !! t = None → ¬ heapobj h' t →
     affects [t] h h' → mem h' = mem h → stores h' = stores h → wp (k t) Q h') →
  wp (t ← fresh; _ ← construct_empty t; k t) Q h.
Proof.
  intros [Hi Ho Ha] HQ. pose proof (inv_fresh_info U _ h Hi) as Hfr. pose proof (i_brk _ _ _ Hi) as [Hb0 Hb8].
  unfold fresh, construct_empty, put. apply wp_bind, wp_bind, wp_gets, wp_bind, wp_modify, wp_ret.
  apply wp_bind, wp_modify. cbn [bufs set_brk].
  assert ((brk h + 8) mod 8 = 0) as H8 by (rewrite Z.add_mod, Hb8 by lia; done). set (t := brk h) in *.
  destruct (Hfr t) as (_ & Hr & _ & Hst); [lia|].
  assert (bufs h !! t = None) as Htn.
  { apply eq_None_not_Some. rewrite <-holders_dom, Hr. by intros [? [=]]. }
  assert (¬ heapobj h t) as Hnh by (intros (st & E & _); by rewrite Hst in E).
  apply HQ; try done.
  - split.
    + unfold holders; cbn [bufs set_bufs]. rewrite holders_insert. apply inv_bufs, blank_inv.
      * apply inv_set_brk; [done|lia|exact H8].
      * done.
      * cbn. lia.
    + intros x Hx. cbn. rewrite lookup_insert_is_Some'. right. by apply Ho.
    + intros x c. cbn. intros [[<- _]|[_ ?]]%lookup_insert_Some; [lia|by eapply Ha].
  - split; cbn; [|done|done|lia]. intros x Hx. apply lookup_insert_ne. set_solver.
Qed.

(** ** Copies *)

(** [q] is a new object with the bytes of [p]; nothing else changed but a flag. *)
Record cloned (U : gset Z) (p q : Z) (h h' : heap) : Prop := {
  cl_ok : ok U h';
  cl_links : ∀ x, x ≠ q → next_of h' x = next_of h x ∧ prev_of h' x = prev_of h x;
  cl_bytes : ∀ x, x ≠ q → bytes_at h' x = bytes_at h x;
  cl_copy : bytes_at h' q = bytes_at h p;
  cl_mem : mem h' = mem h;
  cl_heap : ∀ x, x ≠ q → heapobj h' x ↔ heapobj h x;
  cl_affects : affects [p; q] h h'
}.

Lemma cloneOneInto_cloned U p b q o h h' :
  ok U h → bufs h !! p = Some b → bufs h !! q = Some o → p ≠ q →
  ok U h' → bufs h' = <[q := take_part (shared_flag b) o]> (<[p := shared_flag b]> (bufs h)) →
  mem h' = mem h → stores h' = stores h → brk h' = brk h + 8 → cloned U p q h h'.
Proof.
  intros Hok Hp Hq Hne Hok' Eb Em Es Ebr.
  assert (data_ (shared_flag b) = data_ b ∧ length_ (shared_flag b) = length_ b ∧
    next_ (shared_flag b) = next_ b ∧ prev_ (shared_flag b) = prev_ b) as (F1 & F2 & F3 & F4).
  { unfold shared_flag. by destruct (_ =? _). }
  split; [done|..].
  - intros x Hx. unfold next_of, prev_of. rewrite Eb, lookup_insert_ne by done.
    destruct (decide (x = p)) as [->|Hxp]; [rewrite lookup_insert_eq, Hp; cbn; by rewrite F3, F4|by rewrite lookup_insert_ne].
  - intros x Hx. unfold bytes_at. rewrite Em, Eb, lookup_insert_ne by done.
    destruct (decide (x = p)) as [->|Hxp]; [|by rewrite lookup_insert_ne].
    rewrite lookup_insert_eq, Hp. unfold bytes. by rewrite F1, F2.
  - unfold bytes_at. rewrite Em, Eb, lookup_insert_eq, Hp. unfold bytes; cbn. by rewrite F1, F2.
  - done.
  - intros x _. unfold heapobj. by rewrite Es.
  - split; [| |intros k _; unfold heapobj; by rewrite Es|lia].
    + intros k Hk. rewrite Eb, !lookup_insert_ne; [done|set_solver..].
    + intros k c _ _. by rewrite Em.
Qed.

Lemma wp_cloneOne U p (Q : Z → heap → Prop) h :
  ok U h → is_Some (bufs h !! p) → Z.of_nat (size (bufs h)) < 2 ^ 32 - 3 →
  (∀ q h', cloned U p q h h' → bufs h !! q = None → chain h' q [] → heapobj h' q →
     size (bufs h') = S (size (bufs h)) → Q q h') →
  wp (cloneOne p) Q h.
Proof.
  intros Hok [b Hp] Hsz HQ. unfold cloneOne.
  apply (wp_new_blank U); [done|]. intros q h1 Hm Em.
  pose proof Hm as [Hok1 Eb1 Hn1 [En Ev] Ha1 Hh1].
  assert (p ≠ q) as Hne by (intros ->; by rewrite Hp in Hn1).
  assert (bufs h1 !! p = Some b) as Hp1 by (by rewrite Eb1, lookup_insert_ne).
  assert (bufs h1 !! q = Some (blank_at q)) as Hq1 by (by rewrite Eb1, lookup_insert_eq).
  assert (size (bufs h1) = S (size (bufs h))) as Es1 by (by rewrite Eb1, map_size_insert_None).
  apply wp_bind, (wp_cloneOneInto U p b q (blank_at q)); try done; [lia|].
  intros h2 Hok2 Eb2 Em2 Es2 Ebr2. apply wp_ret.
  pose proof (cloneOneInto_cloned U p b q _ h1 h2 Hok1 Hp1 Hq1 Hne Hok2 Eb2 Em2 Es2 Ebr2) as [C1 C2 C3 C4 C6 C7 C5].
  assert (∀ x, x ≠ q → bufs h1 !! x = bufs h !! x) as Hold by (intros x Hx; by rewrite Eb1, lookup_insert_ne).
  apply HQ.
  - split; [done|..].
    + intros x Hx. destruct (C2 x Hx) as [-> ->]. unfold next_of, prev_of. by rewrite Hold.
    + intros x Hx. rewrite (C3 x Hx). unfold bytes_at. by rewrite Hold, Em.
    + rewrite C4. unfold bytes_at. by rewrite Hold, Em.
    + congruence.
    + intros x Hx. rewrite (C7 x Hx). apply (af_heap _ _ _ Ha1). set_solver.
    + eapply affects_trans; [eapply affects_mono; [|done]; set_solver|done].
  - done.
  - split; [split|apply NoDup_singleton]; unfold next_of, prev_of; by rewrite Eb2, lookup_insert_eq.
  - destruct Hh1 as (st & Hst & Hu). exists st. by rewrite Es2.
  - rewrite Eb2. rewrite map_size_insert_Some; [rewrite map_size_insert_Some; [done|by eexists]|].
    rewrite lookup_insert_ne by done. by eexists.
Qed.

(** ** Moving a chain *)

(** operator=(IOBuf&&): the rest of the other chain changes its head. *)
Lemma wp_take_links this other x L (Q : unit → heap → Prop) h :
  chain h other (x :: L) → this ∉ other :: x :: L → is_Some (next_of h this) →
  (∀ h', chain h' this (x :: L) → next_of h' other = Some other → prev_of h' other = Some other →
     relinks (this :: other :: x :: L) h h' → Q tt h') →
  wp (_ ← assign this (with_next x);
      _ ← assign x (with_prev this);
      _ ← assign other (with_next other);
      o ← deref other;
      _ ← assign this (with_prev (prev_ o));
      _ ← assign (prev_ o) (with_next this);
      assign other (with_prev other)) Q h.
Proof.
  intros [[[Hn Hv] Hp] Hnd] Hth Hthis HQ. set (S := this :: other :: x :: L).
  destruct (path_ends _ _ _ _ Hp) as [Hzn Hoz]. set (z := lst x L) in *.
  assert (z ∈ x :: L) as Hz by apply lst_in.
  assert (this ≠ other ∧ this ≠ x ∧ this ≠ z ∧ other ≠ x ∧ other ≠ z) as (D1 & D2 & D3 & D4 & D5).
  { apply NoDup_cons in Hnd as [Ho _]. split_and!; intros E; revert Hth Ho; rewrite ?E; set_solver. }
  assert (this ∈ S ∧ other ∈ S ∧ x ∈ S ∧ z ∈ S) as (S1 & S2 & S3 & S4) by set_solver.
  pose proof (next_prev_some _ _ Hthis) as Hthis'.
  apply wp_bind, (wp_set_next S); [done..|]. intros h1 R1 N1 V1.
  apply wp_bind, (wp_set_prev S); [rewrite V1; eauto|done|]. intros h2 R2 V2 N2.
  apply wp_bind, (wp_set_next S); [rewrite N2, N1, decide_False by congruence; eauto|done|]. intros h3 R3 N3 V3.
  assert (prev_of h3 other = Some z) as (bo & Hbo & Eo)%prev_of_some by (by rewrite V3, V2, V1, decide_False).
  apply wp_bind, (wp_deref_buf other bo); [done|]. rewrite Eo.
  apply wp_bind, (wp_set_prev S); [rewrite V3, V2, V1, decide_False by done; done|done|]. intros h4 R4 V4 N4.
  apply wp_bind, (wp_set_next S); [rewrite N4, N3, N2, N1, !decide_False by congruence; eauto|done|]. intros h5 R5 N5 V5.
  apply (wp_set_prev S); [rewrite V5, V4, V3, V2, V1, !decide_False by congruence; eauto|done|]. intros h6 R6 V6 N6.
  assert (∀ y, next_of h6 y = if decide (y = z) then Some this else if decide (y = other) then Some other else
    if decide (y = this) then Some x else next_of h y) as N by (intros y; by rewrite N6, N5, N4, N3, N2, N1).
  assert (∀ y, prev_of h6 y = if decide (y = other) then Some other else if decide (y = this) then Some z else
    if decide (y = x) then Some this else prev_of h y) as V by (intros y; by rewrite V6, V5, V4, V3, V2, V1).
  apply NoDup_cons in Hnd as [Ho Hnd].
  apply HQ.
  - split; [|by apply NoDup_cons; split; [set_solver|]]. split.
    + split; [by rewrite N, !decide_False, decide_True by congruence|].
      by rewrite V, !decide_False, decide_True by congruence.
    + apply (path_retarget h h6 x L other this); [done|done|..].
      * intros y Hy Hne. rewrite N, !decide_False; [done|intros ->; set_solver..|done].
      * intros y Hy. apply NoDup_cons in Hnd as [Hx _]. rewrite V, !decide_False; [done|intros ->; set_solver..].
      * fold z. by rewrite N, decide_True.
      * fold z. by rewrite V, decide_False, decide_True by congruence.
  - by rewrite N, decide_False, decide_True by congruence.
  - by rewrite V, decide_True.
  - do 5 (eapply relinks_trans; [|eassumption]). done.
Qed.

(** What a move and the destruction of the local it left do. *)
Record moved (U : gset Z) (this other : Z) (L : list Z) (h h' : heap) : Prop := {
  mv_ok : ok U h';
  mv_chain : chain h' this L;
  mv_gone : bufs h' !! other = None;
  mv_bytes : bytes_at h' this = bytes_at h other;
  mv_others : ∀ y, y ≠ this → y ≠ other → bytes_at h' y = bytes_at h y;
  mv_mem : mem h' = mem h;
  mv_stores : stores h' = stores h;
  mv_brk : brk h' = brk h;
  mv_frame : ∀ k, k ∉ this :: other :: L → bufs h' !! k = bufs h !! k
}.

Lemma moved_intro U this other t o L h hm h' :
  ok U h → this ≠ other → bufs h !! this = Some t → blank this t → bufs h !! other = Some o →
  ¬ heapobj h other →
  bufs hm = <[other := emptied o]> (<[this := take_part o t]> (bufs h)) →
  h' = set_bufs (bufs h') h →
  holders h' = delete other (holders hm) → bufs h' !! other = None →
  (∀ k, k ∉ this :: other :: L → bufs h' !! k = bufs hm !! k) →
  chain h' this L → moved U this other L h h'.
Proof.
  intros Hok Hne Ht (Et & _) Ho Hnh Ehm Eh' Ehh Hgone Hfr Hch. pose proof Hok as [Hi Hob Had].
  assert (holders h' = <[this := strip (take_part o t)]> (delete other (delete this (holders h)))) as EH.
  { rewrite Ehh. unfold holders. rewrite Ehm, !fmap_insert, delete_insert_eq, delete_insert_ne by congruence.
    rewrite <-insert_delete_eq, delete_delete. done. }
  assert (∀ y, bytes_at h' y = match holders h' !! y with Some b => bytes (mem h) b | None => [] end) as Hby.
  { intros y. unfold bytes_at, holders. assert (mem h' = mem h) as -> by (by rewrite Eh'). rewrite lookup_fmap.
    by destruct (bufs h' !! y). }
  assert (∀ y, bytes_at h y = match holders h !! y with Some b => bytes (mem h) b | None => [] end) as Hby0.
  { intros y. unfold bytes_at, holders. rewrite lookup_fmap. by destruct (bufs h !! y). }
  split; try done; try (rewrite Eh'; done).
  - split.
    + rewrite EH, Eh'. apply inv_bufs. apply holders_lookup in Ht, Ho. apply (inv_rename U _ h other this).
      * by apply (inv_drop_unmanaged U _ h this (strip t)).
      * by rewrite lookup_delete_ne.
      * by rewrite lookup_delete_eq.
      * by apply (i_key _ _ _ Hi this _ Ht).
    + intros y Hy. assert (heapobj h y) as Hy' by (rewrite Eh' in Hy; done).
      apply holders_dom. rewrite EH, lookup_insert_is_Some'.
      destruct (decide (this = y)); [by left|right].
      rewrite !lookup_delete_ne by congruence. by apply holders_dom, Hob.
    + intros y c Hy. destruct (decide (y = this)) as [->|Hyt]; [by eapply Had|].
      assert (is_Some (holders h' !! y)) as Hs by (apply holders_dom; eauto).
      rewrite EH, lookup_insert_ne in Hs by done. destruct Hs as [d [_ [_ Hd]%lookup_delete_Some]%lookup_delete_Some].
      apply holders_inv in Hd as (b & Hb & _). by eapply Had.
  - rewrite Hby, Hby0, EH, lookup_insert_eq. by rewrite (holders_lookup _ _ _ Ho).
  - intros y Hyt Hyo. by rewrite Hby, Hby0, EH, lookup_insert_ne, !lookup_delete_ne by congruence.
  - intros k Hk. rewrite Hfr, Ehm, !lookup_insert_ne; [done|set_solver..].
Qed.

Lemma wp_move_chain U this other t L (Q : unit → heap → Prop) h :
  ok U h → bufs h !! this = Some t → blank this t → chain h other L → this ∉ other :: L →
  ¬ heapobj h other → (∀ h', moved U this other L h h' → Q tt h') →
  wp (_ ← move_assign this other; destroy_local other) Q h.
Proof.
  intros Hok Ht Hbl Hch Hnin Hnh HQ. assert (this ≠ other) as Hne by set_solver.
  destruct (chain_head _ _ _ Hch) as (o & Ho & En). destruct L as [|x L].
  - destruct (chain_last _ _ _ Hch) as (o' & _ & Ho' & Ev & _). assert (o' = o) as -> by congruence.
    apply wp_bind, (wp_move_alone this other t o); try done.
    apply (wp_destroy_local_blank other (emptied o)); [cbn; by rewrite lookup_insert_eq|done|].
    apply HQ. cbn [bufs set_bufs]. apply (moved_intro U this other t o _ h (set_bufs (<[other := emptied o]> (<[this := take_part o t]> (bufs h))) h)); try done.
    + unfold holders; cbn [bufs set_bufs]. by rewrite fmap_delete.
    + cbn. by rewrite lookup_delete_eq.
    + intros k Hk. cbn. rewrite lookup_delete_ne; [done|set_solver].
    + destruct Hbl as (_ & Htn & Htp). split; [|apply NoDup_singleton].
      split; unfold next_of, prev_of; cbn; rewrite lookup_delete_ne, lookup_insert_ne, lookup_insert_eq by done; cbn; congruence.
  - pose proof Hbl as (Et & Htn & Htp). unfold move_assign. rewrite (proj2 (Z.eqb_neq _ _) Hne).
    apply wp_bind, wp_bind, wp_gets, wp_bind, (wp_delete_rest_alone this t); [done..|].
    apply wp_bind, (wp_dec_unmanaged this t); [done..|]. apply wp_bind, (wp_deref_buf other o); [done|].
    apply wp_bind, (wp_assign_buf this _ t); [done|].
    apply wp_bind, (wp_assign_buf other _ o); [cbn; by rewrite lookup_insert_ne|].
    set (hm := set_bufs _ _).
    assert (bufs hm = <[other := emptied o]> (<[this := take_part o t]> (bufs h))) as Ehm by done.
    assert (bufs hm !! other = Some (emptied o)) as Hom by (by rewrite Ehm, lookup_insert_eq).
    apply wp_bind, (wp_deref_buf other (emptied o)); [done|]. cbn [next_ emptied with_buffer].
    cbn in En. rewrite En, (proj2 (Z.eqb_neq x other)); [|destruct Hch as [_ [? _]%NoDup_cons]; set_solver].
    assert (∀ y, next_of hm y = next_of h y ∧ prev_of hm y = prev_of h y) as Hl.
    { intros y. unfold next_of, prev_of. rewrite Ehm. destruct (decide (y = other)) as [->|Hyo].
      - by rewrite lookup_insert_eq, Ho.
      - rewrite lookup_insert_ne by done. destruct (decide (y = this)) as [->|]; [by rewrite lookup_insert_eq, Ht|].
        by rewrite lookup_insert_ne. }
    apply wp_bind, (wp_take_links this other x L).
    { destruct Hch as [Hp Hnd]. split; [|done]. apply (path_frame h); [done|intros; apply Hl..]. }
    { done. }
    { rewrite (proj1 (Hl this)). unfold next_of. rewrite Ht. by eexists. }
    intros h2 Hch2 No Po Hr. destruct (next_of_some _ _ _ No) as (c & Hc & Ecn).
    unfold prev_of in Po. rewrite Hc in Po. injection Po as Ecp.
    apply wp_bind, (wp_deref_buf other c); [done|]. rewrite Ecn, Ecp, Z.eqb_refl.
    apply wp_bind, wp_assert; [done|]. apply wp_assert; [done|].
    assert (strip c = strip (emptied o)) as Esc.
    { pose proof (holders_lookup _ _ _ Hc) as E. rewrite (rl_holders _ _ _ Hr), (holders_lookup _ _ _ Hom) in E. congruence. }
    assert (blank other c) as Hbc.
    { split; [|done]. change (sharedInfo c) with (sharedInfo (strip c)). by rewrite Esc. }
    apply (wp_destroy_local_blank other c); [done..|]. apply HQ.
    eapply (moved_intro U this other t o _ h hm); try done.
    + rewrite (rl_rest _ _ _ Hr). done.
    + unfold holders at 1. cbn [bufs set_bufs]. rewrite fmap_delete. fold (holders h2). by rewrite (rl_holders _ _ _ Hr).
    + cbn. by rewrite lookup_delete_eq.
    + intros k Hk. cbn. rewrite lookup_delete_ne by set_solver. apply (rl_others _ _ _ Hr). set_solver.
    + destruct Hch2 as [Hp2 Hnd2]. split; [|done]. apply (path_frame h2); [done|..];
        intros z Hz; unfold next_of, prev_of; cbn; rewrite lookup_delete_ne; try done; intros ->;
        destruct Hch as [_ [? _]%NoDup_cons]; set_solver.
Qed.

(** ** The copy of a chain *)

Lemma cloned_chain U p q h h' x l : cloned U p q h h' → bufs h !! q = None → chain h x l → chain h' x l.
Proof.
  intros Hc Hq Hch. assert (∀ z, z ∈ x :: l → z ≠ q) as Hz.
  { intros z Hz ->. destruct (chain_bufs_in _ _ _ _ Hch Hz) as [? E]. by rewrite Hq in E. }
  destruct Hch as [Hp Hnd]. split; [|done].
  apply (path_frame h); [done|..]; intros z Hz'; by apply (cl_links _ _ _ _ _ Hc), Hz.
Qed.

(** The objects [L] are new and hold the bytes of [l]; no byte is copied. *)
Record copies (U : gset Z) (l L : list Z) (h h' : heap) : Prop := {
  co_ok : ok U h';
  co_bytes : contents h' L = contents h l;
  co_old : ∀ x, is_Some (bufs h !! x) → is_Some (bufs h' !! x) ∧ bytes_at h' x = bytes_at h x;
  co_new : ∀ x, x ∈ L → bufs h !! x = None;
  co_length : length L = length l;
  co_mem : mem h' = mem h;
  co_heap : ∀ x, is_Some (bufs h !! x) → heapobj h' x ↔ heapobj h x
}.

Lemma bytes_bufs h h' x : bufs h' !! x = bufs h !! x → mem h' = mem h → bytes_at h' x = bytes_at h x.
Proof. intros E1 E2. unfold bytes_at. by rewrite E1, E2. Qed.

Lemma relinks_size S h h' : relinks S h h' → size (bufs h') = size (bufs h).
Proof. intros Hr. rewrite <-!size_holders. by rewrite (rl_holders _ _ _ Hr). Qed.

Lemma relinks_some S h h' x : relinks S h h' → is_Some (bufs h' !! x) ↔ is_Some (bufs h !! x).
Proof. intros Hr. rewrite <-!holders_dom. by rewrite (rl_holders _ _ _ Hr). Qed.

Lemma wp_clone_loop U p tmp l : ∀ pre A fuel (Q : unit → heap → Prop) h,
  ok U h → chain h p (pre ++ l) → chain h tmp A → (∀ x, x ∈ tmp :: A → x ∉ p :: pre ++ l) →
  Z.of_nat (size (bufs h) + length l) < 2 ^ 32 - 2 → (length l < fuel)%nat →
  (∀ L h', copies U l L h h' → chain h' p (pre ++ l) → chain h' tmp (A ++ L) →
     (∀ x, x ∈ L → heapobj h' x) → affects (p :: pre ++ l ++ tmp :: A ++ L) h h' →
     Q tt h') →
  wp (walk fuel (fun _ current _ => q ← cloneOne current; prependChain tmp q) tt (default p (head l)) p) Q h.
Proof.
  induction l as [|x l IH]; intros pre A fuel Q h Hok Hch Ht Hdis Hsz Hfuel HQ; (destruct fuel as [|fuel]; [cbn in *; lia|]);
    cbn -[wp].
  - rewrite Z.eqb_refl. apply wp_ret. apply (HQ []).
    + split; try done. set_solver.
    + done.
    + by rewrite app_nil_r.
    + set_solver.
    + apply affects_refl.
  - assert (x ≠ p) as Hxp by (destruct Hch as [_ [? _]%NoDup_cons]; set_solver).
    rewrite (proj2 (Z.eqb_neq x p)) by done.
    destruct (chain_bufs_in _ _ _ x Hch) as [b Hb]; [set_solver|].
    apply wp_bind, (wp_deref_buf x b); [done|]. apply wp_bind, wp_bind, (wp_cloneOne U); [done|by eexists|cbn [length] in Hsz; lia|].
    intros q h1 Hc1 Hq Hchq Hhq Hs1.
    assert (∀ y, is_Some (bufs h !! y) → y ≠ q) as Hqn by (intros y [? E] ->; by rewrite Hq in E).
    pose proof (cloned_chain _ _ _ _ _ _ _ Hc1 Hq Hch) as Hch1. pose proof (cloned_chain _ _ _ _ _ _ _ Hc1 Hq Ht) as Ht1.
    assert (∀ y, y ∈ tmp :: A → y ≠ q) as Hdq by (intros y Hy; apply Hqn; by apply (chain_bufs_in h tmp A)).
    assert (∀ y, y ∈ p :: pre ++ x :: l → y ≠ q) as Hdp by (intros y Hy; apply Hqn; by apply (chain_bufs_in h p (pre ++ x :: l))).
    apply (wp_prependChain tmp A q []); [done|done|intros y Hy; specialize (Hdq y Hy); set_solver|].
    intros h2 Ht2 Hr2.
    assert (chain h2 p (pre ++ x :: l)) as Hch2.
    { eapply chain_frame; [done|done|]. intros y Hy Hin. specialize (Hdp y Hy).
      assert (y ∈ tmp :: A) by set_solver. by eapply Hdis. }
    assert (ok U h2) as Hok2 by (eapply relinks_ok; [done|apply Hc1]).
    pose proof Hch2 as [Hp2 _]. apply path_app in Hp2 as [_ Hp2].
    pose proof (path_first _ _ _ _ Hp2) as (b2 & Hb2 & En2)%next_of_some.
    apply wp_bind, (wp_deref_buf x b2); [done|]. rewrite En2.
    assert (pre ++ x :: l = (pre ++ [x]) ++ l) as Eapp by (by rewrite <-app_assoc).
    assert (size (bufs h2) = S (size (bufs h))) as Es2 by (rewrite (relinks_size _ _ _ Hr2); done).
    assert (∀ y, is_Some (bufs h !! y) → is_Some (bufs h2 !! y) ∧ bytes_at h2 y = bytes_at h y) as Hold2.
    { intros y Hy. pose proof (Hqn y Hy) as Hyq.
      rewrite (relinks_some _ _ _ _ Hr2), (relinks_bytes _ _ _ _ Hr2), (cl_bytes _ _ _ _ _ Hc1) by done.
      split; [|done]. pose proof (cl_links _ _ _ _ _ Hc1 y Hyq) as [El _]. unfold next_of in El.
      destruct Hy as [c Ec]. rewrite Ec in El. destruct (bufs h1 !! y); [by eexists|done]. }
    apply (IH (pre ++ [x]) (A ++ [q])); try done.
    + by rewrite <-Eapp.
    + rewrite <-Eapp. intros y Hy. destruct (decide (y = q)) as [->|Hyq]; [intros Hin; by apply (Hdp q)|].
      apply Hdis. set_solver.
    + rewrite Es2. cbn [length] in Hsz. lia.
    + cbn in *. lia.
    + intros L h3 [C1 C2 C3 C4 C5 C6 C8] Hch3 Ht3 Hh3 Ha3.
      rewrite <-app_assoc in Ht3. assert (is_Some (bufs h2 !! q)) as Hq2.
      { apply (chain_bufs_in _ _ _ q Ht2). set_solver. }
      apply (HQ (q :: L) h3); [|by rewrite Eapp|done|..].
      * split; [done| | | | |by rewrite C6, (proj1 (relinks_rest _ _ _ Hr2)), (cl_mem _ _ _ _ _ Hc1)|].
        -- rewrite !contents_cons, C2. f_equal.
           ++ rewrite (proj2 (C3 q Hq2)), (relinks_bytes _ _ _ _ Hr2). apply Hc1.
           ++ apply contents_ext. intros y Hy. apply Hold2. apply (chain_bufs_in _ _ _ y Hch). set_solver.
        -- intros y Hy. destruct (Hold2 y Hy) as [Hy2 E2]. destruct (C3 y Hy2) as [Hy3 E3]. split; [done|congruence].
        -- intros y [->|Hy]%elem_of_cons; [done|]. specialize (C4 y Hy).
           destruct (bufs h !! y) eqn:E; [|done]. destruct (Hold2 y) as [[? E'] _]; [by eexists|]. by rewrite C4 in E'.
        -- cbn. by rewrite C5.
        -- intros y Hy. rewrite C8 by by apply Hold2. rewrite (relinks_heapobj _ _ _ _ Hr2).
           by apply (cl_heap _ _ _ _ _ Hc1), Hqn.
      * intros y [->|Hy]%elem_of_cons; [|by apply Hh3]. apply C8; [done|]. by apply (relinks_heapobj _ _ _ _ Hr2).
      * eapply affects_trans; [eapply affects_mono; [|apply Hc1]; clear; set_solver|].
        eapply affects_trans; [eapply affects_mono; [|by apply relinks_affects]; clear; set_solver|].
        eapply affects_mono; [|done]. clear; set_solver.
Qed.

Lemma wp_clone U p l (Q : Z → heap → Prop) h :
  ok U h → chain h p l → Z.of_nat (size (bufs h) + length l) < 2 ^ 32 - 6 →
  (∀ q L h', copies U (p :: l) (q :: L) h h' → chain h' p l → chain h' q L →
     (∀ x, x ∈ q :: L → heapobj h' x) → affects (p :: l ++ q :: L) h h' → Q q h') →
  wp (clone p) Q h.
Proof.
  intros Hok Hch Hsz HQ. unfold clone. apply (wp_new_blank U); [done|]. intros q h1 Hm1 Em1.
  pose proof Hm1 as [Hok1 Eb1 Hq1 [_ _] Ha1 Hhq1].
  destruct (made_old _ _ _ _ _ _ _ Hm1 Hch) as [Hch1 Hqn].
  unfold cloneInto. apply wp_bind. apply (wp_local_blank U); [done|].
  intros t h2 Hok2 Eb2 Ht2 Hnt2 Ha2 Em2 Es2.
  destruct (chain_head _ _ _ Hch) as (b & Hb & En).
  assert (∀ x, is_Some (bufs h !! x) → x ≠ q ∧ x ≠ t) as Hold.
  { intros x [c Hc]. split; intros ->; [by rewrite Hq1 in Hc|].
    rewrite Eb1, lookup_insert_ne in Ht2; [congruence|]. intros ->. by rewrite Hq1 in Hc. }
  destruct (Hold p) as [Hpq Hpt]; [by eexists|].
  assert (q ≠ t) as Hqt by (intros ->; by rewrite Eb1, lookup_insert_eq in Ht2).
  assert (∀ x, is_Some (bufs h !! x) → bufs h2 !! x = bufs h !! x) as E02.
  { intros x [? ?]%Hold. by rewrite Eb2, Eb1, !lookup_insert_ne. }
  assert (bufs h2 !! p = Some b) as Hb2 by (rewrite E02; [done|by eexists]).
  assert (bufs h2 !! t = Some (blank_at t)) as Hbt2 by (by rewrite Eb2, lookup_insert_eq).
  assert (bufs h2 !! q = Some (blank_at q)) as Hbq2 by (by rewrite Eb2, lookup_insert_ne, Eb1, lookup_insert_eq).
  assert (size (bufs h2) = S (S (size (bufs h)))) as Es2'.
  { by rewrite Eb2, map_size_insert_None, Eb1, map_size_insert_None by (rewrite <-?Eb1; done). }
  apply wp_bind, (wp_cloneOneInto U p b t (blank_at t)); try done; [lia|].
  intros h3 Hok3 Eb3 Em3 Es3 Ebr3.
  pose proof (cloneOneInto_cloned U p b t _ h2 h3 Hok2 Hb2 Hbt2 Hpt Hok3 Eb3 Em3 Es3 Ebr3) as Hc.
  assert (chain h3 p l) as Hch3.
  { destruct Hch as [Hp Hnd]. assert (∀ z, z ∈ p :: l → next_of h3 z = next_of h z ∧ prev_of h3 z = prev_of h z) as Hz.
    { intros z Hz%(chain_bufs_in h p l z (conj Hp Hnd)).
      destruct (cl_links _ _ _ _ _ Hc z) as [-> ->]; [by apply Hold|]. unfold next_of, prev_of. by rewrite E02. }
    split; [|done]. apply (path_frame h); [done|intros; by apply Hz..]. }
  assert (chain h3 t []) as Ht3.
  { split; [split|apply NoDup_singleton]; unfold next_of, prev_of; by rewrite Eb3, lookup_insert_eq. }
  pose proof (path_first _ _ _ _ (proj1 Hch3)) as (b3 & Hb3 & En3)%next_of_some.
  apply wp_bind, (wp_deref_buf p b3); [done|]. apply wp_bind, (wp_chain_fuel p l); [done|]. intros n Hn. rewrite En3.
  assert (∀ x, x ∈ p :: l → x ≠ q ∧ x ≠ t) as Hpl by (intros x Hx; apply Hold; by apply (chain_bufs_in h p l)).
  assert (size (bufs h3) = size (bufs h2)) as Es3'.
  { rewrite Eb3, map_size_insert_Some; [rewrite map_size_insert_Some; [done|by eexists]|].
    rewrite lookup_insert_ne by done. by eexists. }
  apply wp_bind, (wp_clone_loop U p t l [] []); [done|done|done| | |lia|].
  { intros x ->%list_elem_of_singleton Hin. by destruct (Hpl t Hin). }
  { rewrite Es3', Es2'. lia. }
  intros L h4 Hco Hch4 Ht4 HhL Ha4. cbn [app] in *.
  assert (bufs h3 !! q = Some (blank_at q)) as Hbq3 by (by rewrite Eb3, !lookup_insert_ne).
  assert (q ∉ t :: L) as HqL.
  { intros [->|Hin]%elem_of_cons; [done|]. by rewrite (co_new _ _ _ _ _ Hco q Hin) in Hbq3. }
  assert (bufs h4 !! q = Some (blank_at q)) as Hbq4.
  { rewrite (af_bufs _ _ _ Ha4); [done|]. intros [->|[Hin|Hin]%elem_of_app]%elem_of_cons; [done| |done].
    by destruct (Hpl q); [set_solver|]. }
  apply (wp_move_chain U q t (blank_at q) L); try done.
  { apply Hco. }
  { rewrite (co_heap _ _ _ _ _ Hco) by (rewrite Eb3, lookup_insert_eq; by eexists). unfold heapobj. by rewrite Es3. }
  intros h5 Hmv. apply wp_ret.
  assert (∀ x, is_Some (bufs h !! x) → is_Some (bufs h3 !! x) ∧ bytes_at h3 x = bytes_at h x) as H03.
  { intros x Hx. destruct (Hold x Hx) as [Hxq Hxt]. rewrite (cl_bytes _ _ _ _ _ Hc x Hxt).
    rewrite (bytes_bufs h h2 x) by (by rewrite ?E02 || congruence). split; [|done].
    rewrite Eb3, lookup_insert_is_Some'. right. rewrite lookup_insert_is_Some'. right. by rewrite E02. }
  assert (∀ x, is_Some (bufs h !! x) → x ∉ q :: t :: L) as HoL.
  { intros x Hx. destruct (Hold x Hx) as [Hxq Hxt]. intros [->|[->|Hin]%elem_of_cons]%elem_of_cons; try done.
    destruct (H03 x Hx) as [[? E] _]. by rewrite (co_new _ _ _ _ _ Hco x Hin) in E. }
  assert (∀ x, is_Some (bufs h !! x) → is_Some (bufs h5 !! x) ∧ bytes_at h5 x = bytes_at h x) as H05.
  { intros x Hx. destruct (Hold x Hx) as [Hxq Hxt]. rewrite (mv_frame _ _ _ _ _ _ Hmv) by by apply HoL.
    rewrite (mv_others _ _ _ _ _ _ Hmv) by done. destruct (H03 x Hx) as [Hx3 <-]. by apply (co_old _ _ _ _ _ Hco). }
  assert (∀ x, heapobj h5 x ↔ heapobj h4 x) as Hh45 by (intros x; unfold heapobj; by rewrite (mv_stores _ _ _ _ _ _ Hmv)).
  assert (∀ x, heapobj h3 x ↔ heapobj h1 x) as Hh13 by (intros x; unfold heapobj; by rewrite Es3, Es2).
  assert (∀ x, is_Some (bufs h !! x) → heapobj h5 x ↔ heapobj h x) as Hh05.
  { intros x Hx. destruct (Hold x Hx). rewrite Hh45, (co_heap _ _ _ _ _ Hco) by by apply H03.
    rewrite Hh13. apply (af_heap _ _ _ Ha1). set_solver. }
  assert (∀ x, x ∈ L → x ≠ q ∧ x ≠ t) as HLq.
  { intros x Hx. destruct Ht4 as [_ [Htl _]%NoDup_cons]. split; intros ->; set_solver. }
  assert (∀ k, k ∉ p :: l ++ q :: L → bufs h5 !! k = bufs h !! k) as Hfr.
  { intros k Hk. destruct (bufs h !! k) as [c|] eqn:Ek.
    - rewrite (mv_frame _ _ _ _ _ _ Hmv) by (apply HoL; by eexists).
      rewrite (af_bufs _ _ _ Ha4); [rewrite Eb3, !lookup_insert_ne, E02; [done|by eexists|set_solver..|]|].
      + destruct (Hold k); [by eexists|congruence].
      + destruct (Hold k); [by eexists|]. set_solver.
    - destruct (decide (k = t)) as [->|Hkt]; [apply (mv_gone _ _ _ _ _ _ Hmv)|].
      rewrite (mv_frame _ _ _ _ _ _ Hmv) by set_solver. rewrite (af_bufs _ _ _ Ha4) by set_solver.
      rewrite Eb3, !lookup_insert_ne, Eb2, Eb1, !lookup_insert_ne; [done|set_solver..]. }
  apply (HQ q L h5).
  - split.
    + apply Hmv.
    + rewrite !contents_cons, (mv_bytes _ _ _ _ _ _ Hmv). f_equal.
      * rewrite (proj2 (co_old _ _ _ _ _ Hco t ltac:(rewrite Eb3, lookup_insert_eq; by eexists))).
        rewrite (cl_copy _ _ _ _ _ Hc). apply bytes_bufs; [by rewrite E02; [|eexists]|congruence].
      * transitivity (contents h4 L); [apply contents_ext; intros x [? ?]%HLq; by apply (mv_others _ _ _ _ _ _ Hmv)|].
        rewrite (co_bytes _ _ _ _ _ Hco). apply contents_ext. intros x Hx. apply H03, (chain_bufs_in h p l x Hch). set_solver.
    + done.
    + intros x [->|Hx]%elem_of_cons; [done|]. destruct (bufs h !! x) eqn:E; [|done].
      destruct (H03 x) as [[? E'] _]; [by eexists|]. by rewrite (co_new _ _ _ _ _ Hco x Hx) in E'.
    + cbn. by rewrite (co_length _ _ _ _ _ Hco).
    + by rewrite (mv_mem _ _ _ _ _ _ Hmv), (co_mem _ _ _ _ _ Hco), Em3, Em2.
    + done.
  - destruct Hch4 as [Hp4 Hnd4]. split; [|done].
    apply (path_frame h4); [done|..]; intros z Hz; unfold next_of, prev_of;
      (rewrite (mv_frame _ _ _ _ _ _ Hmv); [done|]); by apply HoL, (chain_bufs_in h p l).
  - apply Hmv.
  - intros x [->|Hx]%elem_of_cons; apply Hh45; [|by apply HhL].
    apply (co_heap _ _ _ _ _ Hco); [by eexists|]. by apply Hh13.
  - split.
    + done.
    + intros k c _ _. by rewrite (mv_mem _ _ _ _ _ _ Hmv), (co_mem _ _ _ _ _ Hco), Em3, Em2, Em1.
    + intros k Hk. destruct (bufs h !! k) as [c|] eqn:Ek; [apply Hh05; by eexists|].
      split; [intros Hh; destruct (ok_objs _ _ (mv_ok _ _ _ _ _ _ Hmv) k Hh) as [? E]; rewrite Hfr in E by done; congruence|].
      intros Hh. destruct (ok_objs _ _ Hok k Hh) as [? E]. congruence.
    + rewrite (mv_brk _ _ _ _ _ _ Hmv). pose proof (af_brk _ _ _ Ha4). pose proof (af_brk _ _ _ Ha2).
      pose proof (af_brk _ _ _ Ha1). lia.
Qed.
