(* ===== verification/IOBufSpec.v ===== *)
(** What class IOBuf promises: the behaviour of its operations in terms of the
    bytes a chain holds, of who else sees a change, and of the memory that is
    left when every object is gone. *)
From S2P Require Import Prelude IOBuf IOBufInv IOBufChain IOBufMem IOBufLife IOBufOps IOBufClone.
Import IOBuf.

(** ** Writing through an object *)

Lemma wp_advance U p b amount (Q : unit → heap → Prop) h :
  ok U h → bufs h !! p = Some b → 0 ≤ amount ≤ tailroom b → length_ b = 0 →
  (let h' := set_bufs (<[p := with_view (padd (data_ b) amount) 0 b]> (bufs h)) h in
   ok U h' → affects [p] h h' → Q tt h') →
  wp (advance p amount) Q h.
Proof.
  intros Hok Hp Ham Hl HQ. pose proof (ok_geo U h p b Hok Hp) as Hg.
  destruct (room_small _ _ Hg) as [_ Ht]. unfold advance.
  apply wp_bind, (wp_deref_buf p b); [done|]. apply wp_bind, wp_assert; [apply Z.leb_le; lia|].
  destruct Hg. rewrite Hl. apply wp_bind. change (0 <? 0) with false. apply wp_ret.
  apply (wp_set_view U p b (padd (data_ b) amount) 0); try done. split; cbn; (done || lia).
Qed.

(** Writing into the block of an object that has it for itself. *)
Lemma wp_store_own U p b q bs (Q : unit → heap → Prop) h :
  ok U h → bufs h !! p = Some b → unique h p → blk q = blk (buf_ b) →
  off (buf_ b) ≤ off q → off q + Z.of_nat (length bs) ≤ off (buf_ b) + capacity_ b → 0 < capacity_ b →
  (∀ l, mem h !! blk q = Some l → off q + Z.of_nat (length bs) ≤ Z.of_nat (length l) →
   let h' := set_mem (<[blk q := splice (off q) bs l]> (mem h)) h in
   ok U h' → affects [p] h h' → (∀ x, x ≠ p → bytes_at h' x = bytes_at h x) → Q tt h') →
  wp (store q bs) Q h.
Proof.
  intros Hok Hp Hun Hq Ho He Hc HQ. pose proof (ok_geo U h p b Hok Hp) as [G1 G2 G3 G4 G5].
  destruct (G5 Hc) as (l & Hl & Hle). rewrite <-Hq in Hl.
  apply (wp_store q bs l); [done|lia|lia|]. pose proof Hok as [Hi Hob Had].
  assert (∀ k c, k ≠ p → bufs h !! k = Some c → blk (buf_ c) ≠ blk q) as Hne.
  { intros k c Hk Hkc. rewrite Hq. by eapply unique_alone. }
  apply HQ; [done|lia|..].
  - split; [|done|done]. apply (inv_write U (holders h) h (blk q) l); [done|done|]. apply length_splice; lia.
  - split; try done. cbn. intros k c Hk Hkc. rewrite lookup_insert_ne; [done|]. apply not_eq_sym, (Hne k c); [set_solver|done].
  - intros x Hx. unfold bytes_at; cbn. destruct (bufs h !! x) as [c|] eqn:Ex; [|done].
    pose proof (ok_geo U h x c Hok Ex) as Hg. apply bytes_ext; [|apply Hg]. rewrite lookup_insert_ne; [done|].
    by apply not_eq_sym, (Hne x c).
Qed.

Section spec.
Context (uninit : Z → Z → Z) (mem_limit : Z).

Lemma wp_copyBuffer U bs hr tr (Q : Z → heap → Prop) h :
  let n := Z.of_nat (length bs) in
  ok U h → 0 ≤ hr → 0 ≤ tr → hr + n + tr < 2 ^ 61 → hr + n + tr + 96 ≤ mem_limit →
  (∀ p b h', ok U h' → chain h' p [] → heapobj h' p → bufs h !! p = None → bufs h' !! p = Some b →
     bytes_at h' p = bs → unique h' p → headroom b = hr → tr ≤ tailroom b → affects [p] h h' → Q p h') →
  wp (copyBuffer uninit mem_limit bs hr tr) Q h.
Proof.
  intros n Hok Hhr Htr Hsz Hlim HQ. assert (0 ≤ n) as Hn by (subst n; lia). unfold copyBuffer. fold n.
  rewrite u64_small by lia. apply wp_bind, (wp_create uninit mem_limit U); [done|lia|lia|].
  intros p b h1 Hm Hfb. pose proof (made_chain _ _ _ _ _ Hm) as Hch1.
  destruct Hm as [Hok1 Eb1 Hnew [En Ev] Ha1 Hho1].
  destruct Hfb as [(Ed & El & Eo) Hcap (Hsi & _ & s & Hs & Hr1)].
  assert (bufs h1 !! p = Some b) as Hp1 by (by rewrite Eb1, lookup_insert_eq).
  pose proof (ok_geo U h1 p b Hok1 Hp1) as Hg1. destruct (room_small _ _ Hg1) as [_ Ht1].
  rewrite Ed, Eo, El in Ht1.
  apply wp_bind, (wp_advance U p b hr); [done|done|lia|done|]. cbn zeta. intros Hok2 Ha2.
  set (b2 := with_view (padd (data_ b) hr) 0 b) in *. set (h2 := set_bufs _ _) in *.
  assert (bufs h2 !! p = Some b2) as Hp2 by (cbn; by rewrite lookup_insert_eq).
  apply wp_bind, (wp_deref_buf p b2); [done|].
  assert (unique h2 p) as Hun2 by (apply (unique_count U h2 p b2 s); done).
  assert (∀ (Q : unit → heap → Prop), 
    (∀ h3, ok U h3 → affects [p] h2 h3 → bufs h3 = bufs h2 → infos h3 = infos h2 → stores h3 = stores h2 →
       slice hr n (default [] (mem h3 !! blk (data_ b2))) = bs → Q tt h3) →
    wp (store (data_ b2) bs) Q h2) as Hst.
  { intros Q' HQ'. destruct (decide (n = 0)) as [E0|E0].
    - destruct bs; [|subst n; cbn in E0; lia]. apply wp_ret. by apply HQ'.
    - apply (wp_store_own U p b2); try done; cbn; rewrite ?Ed, ?Eo; try lia.
      intros l Hl Hle Hok3 Ha3 _. apply HQ'; try done. cbn. rewrite Ed, lookup_insert_eq. cbn.
      apply slice_splice_same; cbn in Hle; rewrite ?Ed, ?Eo in *; lia. }
  apply wp_bind, Hst. intros h3 Hok3 Ha3 Eb3 Ei3 Es3 Hbs.
  assert (bufs h3 !! p = Some b2) as Hp3 by (by rewrite Eb3).
  pose proof (ok_geo U h3 p b2 Hok3 Hp3) as Hg3. destruct (room_small _ _ Hg3) as [_ Ht3].
  apply wp_bind, (wp_append U p b2 n); [done|done|rewrite Ht3; cbn; rewrite Ed, Eo; lia|]. cbn zeta. intros Hok4 Ha4.
  set (b4 := with_view (data_ b2) (length_ b2 + n) b2) in *. set (h4 := set_bufs (<[p := b4]> (bufs h3)) h3) in *.
  assert (bufs h4 !! p = Some b4) as Hp4 by (cbn; by rewrite lookup_insert_eq).
  pose proof (ok_geo U h4 p b4 Hok4 Hp4) as Hg4. destruct (room_small _ _ Hg4) as [Hh4 Ht4].
  apply wp_ret, (HQ p b4 h4); try done.
  - destruct Hch1 as [[Hl1 Hl2] Hnd]. split; [split|done]; unfold next_of, prev_of; rewrite Hp4; cbn; congruence.
  - unfold heapobj in *. cbn. by rewrite Es3.
  - unfold bytes_at. rewrite Hp4. unfold bytes; cbn. rewrite Ed, Eo in *. cbn in Hbs. rewrite Ed in Hbs. exact Hbs.
  - apply (unique_count U h4 p b4 s); try done. cbn. rewrite Ei3. done.
  - rewrite Hh4; cbn; rewrite Ed; lia.
  - rewrite Ht4; cbn; rewrite Ed, Eo; lia.
  - repeat (eapply affects_trans; [eassumption|]). apply affects_refl.
Qed.

(** ** When every object is gone *)

Lemma no_objects U h : ok U h → bufs h = ∅ →
  stores h = ∅ ∧ infos h = ∅ ∧ ∀ a, is_Some (mem h !! a) → a ∈ U.
Proof.
  intros [Hi Ho _] Eb. assert (holders h = ∅) as EH by (unfold holders; by rewrite Eb, fmap_empty).
  rewrite EH in Hi. assert (∀ i, owners ∅ i = 0%nat) as H0.
  { intros i. destruct (owners ∅ i) eqn:E; [done|]. destruct (owners_pos ∅ i) as (? & ? & [=] & _). lia. }
  assert (stores h = ∅) as Es.
  { apply map_empty. intros p. destruct (stores h !! p) as [st|] eqn:Ep; [|done].
    destruct (i_store _ _ _ Hi p st Ep) as [_ Hf _ _ Hd _]. exfalso.
    destruct (iobuf_in_use st) eqn:E0; [destruct (Ho p) as [? E]; [by exists st|by rewrite Eb in E]|].
    destruct (data_in_use st) eqn:E1.
    - destruct (Hd eq_refl) as (i & s & Hs & _ & _ & Hr). destruct (i_count _ _ _ Hi i s Hs) as [E _].
      rewrite H0 in E. lia.
    - unfold iobuf_in_use, data_in_use in *.
      assert (sflags st = 1 ∨ sflags st = 2 ∨ sflags st = 3) as [E|[E|E]] by lia; by rewrite E in *. }
  split_and!; [done|..].
  - apply map_empty. intros i. destruct (infos h !! i) as [s|] eqn:E; [|done].
    destruct (i_count _ _ _ Hi i s E) as [Hc _]. rewrite H0 in Hc.
    destruct (i_dead _ _ _ Hi i s E Hc) as (_ & _ & st & Hst & _). by rewrite Es in Hst.
  - intros a [l Hl]. destruct (i_leak _ _ _ Hi a l Hl) as [?|[(? & ? & ? & [=] & _)|(p & st & Hp & _)]]; [done|].
    by rewrite Es in Hp.
Qed.

(** ** The claims *)

(** C2. destroying the head of a chain (unique_ptr<IOBuf> going out of scope) never
    faults, in particular frees nothing twice, removes exactly the elements of the
    chain, keeps the bytes of every other object, and when no other object is
    left every block that is not the caller's, every SharedInfo and every
    storage has been freed. *)
Theorem destroy_correct U p l h :
  ok U h → chain h p l → (∀ x, x ∈ p :: l → heapobj h x) →
  wp (destroy p) (fun _ h' =>
    ok U h' ∧ (∀ x, x ∈ p :: l → bufs h' !! x = None) ∧
    (∀ x, x ∉ p :: l → bufs h' !! x = bufs h !! x ∧ bytes_at h' x = bytes_at h x) ∧
    ((∀ x, is_Some (bufs h !! x) → x ∈ p :: l) →
       stores h' = ∅ ∧ infos h' = ∅ ∧ ∀ a, is_Some (mem h' !! a) → a ∈ U)) h.
Proof.
  intros Hok Hch Hobj. apply (wp_destroy U p l); try done. intros h' Hok' Ha Hg. split_and!; [done|done|..].
  - intros x Hx. split; [by apply (af_bufs _ _ _ Ha)|by eapply affects_bytes].
  - intros Hall. apply no_objects; [done|]. apply map_empty. intros x.
    destruct (decide (x ∈ p :: l)) as [Hx|Hx]; [by apply Hg|]. rewrite (af_bufs _ _ _ Ha) by done.
    destruct (bufs h !! x) eqn:E; [|done]. destruct Hx. apply Hall. by eexists.
Qed.

(** copyBuffer(data, size, headroom, minTailroom) returns a new object alone in
    its chain that holds the bytes given, is the only holder of its memory and
    has exactly the headroom and at least the tailroom asked for; no other
    object changes. *)
Theorem copyBuffer_correct U bs hr tr h :
  let n := Z.of_nat (length bs) in
  ok U h → 0 ≤ hr → 0 ≤ tr → hr + n + tr < 2 ^ 61 → hr + n + tr + 96 ≤ mem_limit →
  wp (copyBuffer uninit mem_limit bs hr tr) (fun p h' =>
    ok U h' ∧ bufs h !! p = None ∧ chain h' p [] ∧ heapobj h' p ∧ bytes_at h' p = bs ∧ unique h' p ∧
    (∃ b, bufs h' !! p = Some b ∧ headroom b = hr ∧ tr ≤ tailroom b) ∧
    ∀ x, x ≠ p → bufs h' !! x = bufs h !! x ∧ bytes_at h' x = bytes_at h x) h.
Proof.
  intros n Hok Hhr Htr Hsz Hlim. apply (wp_copyBuffer U bs hr tr); try done.
  intros p b h' H1 H2 H3 H4 H5 H6 H7 H8 H9 Ha. split_and!; try done; [by exists b|].
  intros x Hx. assert (x ∉ [p]) by set_solver. split; [by apply (af_bufs _ _ _ Ha)|by eapply affects_bytes].
Qed.

(** C5. coalesce() of a chain leaves one element with the bytes of all of them in
    order, and returns the range where they are; the other elements are
    destroyed and no object outside the chain changes. *)
Theorem coalesce_correct U p l h :
  ok U h → chain h p l → (∀ x, x ∈ l → heapobj h x) → fits mem_limit h p l →
  wp (coalesce uninit mem_limit p) (fun r h' =>
    ok U h' ∧ chain h' p [] ∧ bytes_at h' p = contents h (p :: l) ∧
    r.2 = Z.of_nat (length (contents h (p :: l))) ∧
    (∃ b, bufs h' !! p = Some b ∧ r.1 = data_ b) ∧
    (∀ x, x ∈ l → bufs h' !! x = None) ∧
    ∀ x, x ∉ p :: l → bufs h' !! x = bufs h !! x ∧ bytes_at h' x = bytes_at h x) h.
Proof.
  intros Hok Hch Hobj Hfit. apply (wp_coalesce uninit mem_limit U p l); try done.
  intros h' b' H1 H2 Ha H4 H5 H6 H7. split_and!; try done.
  - rewrite <-H4. unfold bytes_at. rewrite H7. pose proof (ok_geo _ _ _ _ H1 H7) as Hg.
    rewrite bytes_length by done. cbn. destruct Hg. lia.
  - by exists b'.
  - intros x Hx. split; [by apply (af_bufs _ _ _ Ha)|by eapply affects_bytes].
Qed.

(** gather(maxLength) makes at least maxLength bytes contiguous in the first
    element and keeps the bytes of the chain, in order. *)
Theorem gather_correct U p l maxLength h :
  ok U h → chain h p l → (∀ x, x ∈ l → heapobj h x) → (∀ A C, l = A ++ C → fits mem_limit h p A) →
  maxLength ≤ Z.of_nat (length (contents h (p :: l))) →
  wp (gather uninit mem_limit p maxLength) (fun _ h' =>
    ok U h' ∧ (∃ C, chain h' p C ∧ contents h' (p :: C) = contents h (p :: l)) ∧
    maxLength ≤ Z.of_nat (length (bytes_at h' p)) ∧
    ∀ x, x ∉ p :: l → bufs h' !! x = bufs h !! x ∧ bytes_at h' x = bytes_at h x) h.
Proof.
  intros Hok Hch Hobj Hfit Hmax. apply (wp_gather uninit mem_limit U p l); try done.
  intros h' C H1 H2 Ha H4 H5. split_and!; [done|by exists C|..].
  - done.
  - intros x Hx. split; [by apply (af_bufs _ _ _ Ha)|by eapply affects_bytes].
Qed.

(** C3. clone() makes a chain of new objects with the bytes of the original without
    copying one of them: no block changes and none is allocated. The original
    keeps its elements and its bytes, and the copy outlives it: after the
    original is destroyed the copy still has all the bytes. *)
Theorem clone_outlives U p l h :
  ok U h → chain h p l → (∀ x, x ∈ p :: l → heapobj h x) →
  Z.of_nat (size (bufs h) + length l) < 2 ^ 32 - 6 →
  wp (clone p) (fun q h1 =>
    ok U h1 ∧ mem h1 = mem h ∧ chain h1 p l ∧ contents h1 (p :: l) = contents h (p :: l) ∧
    ∃ L, chain h1 q L ∧ length L = length l ∧ contents h1 (q :: L) = contents h (p :: l) ∧
      (∀ x, x ∈ q :: L → bufs h !! x = None) ∧
      wp (destroy p) (fun _ h2 => ok U h2 ∧ chain h2 q L ∧ contents h2 (q :: L) = contents h (p :: l)) h1) h.
Proof.
  intros Hok Hch Hobj Hsz. apply (wp_clone U p l); try done. intros q L h1 [C1 C2 C3 C4 C5 C6 C7] Hp Hq HhL Ha.
  assert (∀ x, x ∈ p :: l → is_Some (bufs h !! x)) as Hin by (intros x; by apply chain_bufs_in).
  assert (∀ x, x ∈ q :: L → x ∉ p :: l) as Hdis.
  { intros x Hx Hx'. destruct (Hin x Hx') as [? E]. by rewrite (C4 x Hx) in E. }
  split_and!; [done|done|done|apply contents_ext; intros x Hx; by apply C3, Hin|].
  exists L. split_and!; [done|cbn in C5; lia|done|done|].
  apply (wp_destroy U p l); [done|done|intros x Hx; apply C7; auto|].
  intros h2 Hok2 Ha2 _. split_and!; [done|by eapply affects_chain|].
  rewrite <-C2. apply contents_ext. intros x Hx. eapply affects_bytes; [done|done|by apply Hdis].
Qed.

(** C4. unshare() isolates: it keeps the bytes of the chain, afterwards every
    element is the only holder of its memory, no other object changes, and
    whatever is then written over the data of the head is seen by no other
    object. *)
Theorem unshare_isolates U p l h :
  ok U h → chain h p l → (∀ x, x ∈ l → heapobj h x) → fits mem_limit h p l →
  (∃ b, bufs h !! p = Some b ∧ capacity_ b < 2 ^ 61 - 31 ∧ capacity_ b + 31 ≤ mem_limit) →
  wp (unshare uninit mem_limit p) (fun _ h1 =>
    ok U h1 ∧ (∃ l', chain h1 p l' ∧ (∀ x, x ∈ p :: l' → unique h1 x) ∧
      contents h1 (p :: l') = contents h (p :: l)) ∧
    (∀ x, x ∉ p :: l → bufs h1 !! x = bufs h !! x ∧ bytes_at h1 x = bytes_at h x) ∧
    ∀ b bs, bufs h1 !! p = Some b → Z.of_nat (length bs) = length_ b → 0 < length_ b →
      wp (store (data_ b) bs) (fun _ h2 =>
        ok U h2 ∧ bytes_at h2 p = bs ∧ ∀ x, x ≠ p → bytes_at h2 x = bytes_at h1 x) h1) h.
Proof.
  intros Hok Hch Hobj Hfit Hcap. apply (wp_unshare uninit mem_limit U p l); try done.
  intros h1 l' Hok1 Hch1 _ Ha Hun Hct. split_and!; [done|by exists l'| |].
  - intros x Hx. split; [by apply (af_bufs _ _ _ Ha)|by eapply affects_bytes].
  - intros b bs Hb Hlen Hpos. pose proof (ok_geo _ _ _ _ Hok1 Hb) as Hg. pose proof Hg as [G1 G2 G3 G4 G5].
    apply (wp_store_own U p b); try done; [apply Hun; by left|lia..|].
    intros l0 Hl0 Hle. cbn zeta. intros Hok2 _ Hoth. split; [done|split; [|done]].
    unfold bytes_at; cbn. rewrite Hb. unfold bytes; cbn. rewrite lookup_insert_eq. cbn.
    rewrite <-Hlen. apply slice_splice_same; lia.
Qed.
End spec.

(** prependChain appends the other chain to this one, and separateChain of the
    same elements takes it out again: both chains are as before, no byte and no
    object outside the two changes, and in between the bytes are those of this
    chain followed by those of the other. *)
Theorem prepend_separate_roundtrip U this A other B h :
  ok U h → chain h this A → chain h other B → (∀ x, x ∈ this :: A → x ∉ other :: B) →
  wp (prependChain this other) (fun _ h1 =>
    ok U h1 ∧ chain h1 this (A ++ other :: B) ∧
    contents h1 (this :: A ++ other :: B) = contents h (this :: A) ++ contents h (other :: B) ∧
    wp (separateChain this other (lst other B)) (fun r h2 =>
      r = other ∧ ok U h2 ∧ chain h2 this A ∧ chain h2 other B ∧
      (∀ x, bytes_at h2 x = bytes_at h x) ∧
      (∀ x, x ∉ this :: A ++ other :: B → bufs h2 !! x = bufs h !! x)) h1) h.
Proof.
  intros Hok H1 H2 Hdis. apply (wp_prependChain this A other B); try done. intros h1 Hch1 Hr1.
  split_and!; [by eapply relinks_ok|done| |].
  - rewrite <-contents_app. by rewrite (relinks_contents _ _ _ _ Hr1).
  - apply (wp_separateChain this A other B []); [by rewrite app_nil_r|]. rewrite !app_nil_r. intros h2 C1 C2 Hr2.
    pose proof (relinks_trans _ _ _ _ Hr1 Hr2) as Hr. split_and!; [done|by eapply relinks_ok|done|done|..].
    + intros x. by eapply relinks_bytes.
    + apply Hr.
Qed.

(** pop() of a chain of several elements returns the second and leaves the
    first alone; of a chain of one it returns null. No byte changes. *)
Theorem pop_correct U p l h :
  ok U h → chain h p l →
  wp (pop p) (fun r h' => ok U h' ∧ chain h' p [] ∧ (∀ x, bytes_at h' x = bytes_at h x) ∧
    match l with [] => r = 0 | q :: l' => r = q ∧ chain h' q l' end) h.
Proof.
  intros Hok Hch. destruct l as [|q l].
  - apply wp_pop_alone; [done|]. intros h' H1 Hr.
    split_and!; [by eapply relinks_ok|done|intros x; by eapply relinks_bytes|done].
  - apply (wp_pop p q l); [done|]. intros h' H1 H2 Hr.
    split_and!; [by eapply relinks_ok|done|intros x; by eapply relinks_bytes|done..].
Qed.

Lemma slice_drop_take o n l a b :
  0 ≤ o → 0 ≤ a → 0 ≤ b → a + b ≤ n → o + n ≤ Z.of_nat (length l) →
  slice (o + a) (n - a - b) l = take (Z.to_nat (n - a - b)) (drop (Z.to_nat a) (slice o n l)).
Proof.
  intros. unfold slice. rewrite skipn_firstn_comm, take_take, drop_drop. f_equal; [lia|]. f_equal. lia.
Qed.

(** trimStart and trimEnd drop the first and the last bytes of an object and
    touch no other; prepend and append of the same amounts bring back exactly
    the state before. *)
Theorem trim_correct U p b front back h :
  ok U h → bufs h !! p = Some b → 0 ≤ front → 0 ≤ back → front + back ≤ length_ b →
  wp (_ ← trimStart p front; trimEnd p back) (fun _ h1 =>
    ok U h1 ∧ (∀ x, x ≠ p → bufs h1 !! x = bufs h !! x) ∧
    bytes_at h1 p = take (Z.to_nat (length_ b - front - back)) (drop (Z.to_nat front) (bytes_at h p)) ∧
    wp (_ ← prepend p front; append p back) (fun _ h2 => h2 = h) h1) h.
Proof.
  intros Hok Hp Hf Hbk Hle. pose proof (ok_geo _ _ _ _ Hok Hp) as Hg. pose proof Hg as [G1 G2 G3 G4 G5].
  apply wp_bind, (wp_trimStart U p b); [done|done|lia|]. cbn zeta. intros Hok1 _.
  set (b1 := with_view _ _ b) in *. set (h1 := set_bufs _ h) in *.
  assert (bufs h1 !! p = Some b1) as Hp1 by (cbn; by rewrite lookup_insert_eq).
  apply (wp_trimEnd U p b1); [done|done|cbn; lia|]. cbn zeta. intros Hok2 _.
  set (b2 := with_view _ _ b1) in *.
  set (h2 := set_bufs (<[p := b2]> (bufs h)) h).
  assert (set_bufs (<[p := b2]> (bufs h1)) h1 = h2) as E12 by (cbn; by rewrite insert_insert_eq).
  rewrite E12 in Hok2 |- *. assert (bufs h2 !! p = Some b2) as Hp2 by (cbn; by rewrite lookup_insert_eq).
  pose proof (ok_geo _ _ _ _ Hok2 Hp2) as Hg2. destruct (room_small _ _ Hg2) as [Hh2 Ht2].
  cbn in Hh2, Ht2. split_and!; [done| | |].
  - intros x Hx. cbn. by rewrite lookup_insert_ne.
  - unfold bytes_at. rewrite Hp2, Hp. unfold bytes; cbn.
    destruct (decide (length_ b = 0)) as [E0|E0].
    + assert (front = 0 ∧ back = 0) as [-> ->] by lia. rewrite E0. unfold slice. by rewrite !take_0.
    + destruct G5 as (l & Hl & ?); [lia|]. rewrite G4, Hl. cbn. apply slice_drop_take; lia.
  - apply wp_bind, (wp_prepend U p b2); [done|done|rewrite (proj1 (room_small _ _ Hg2)); cbn; lia|].
    cbn zeta. intros Hok3 _. set (b3 := with_view _ _ b2) in *. set (h3 := set_bufs (<[p := b3]> (bufs h2)) h2) in *.
    assert (bufs h3 !! p = Some b3) as Hp3 by (cbn; by rewrite lookup_insert_eq).
    pose proof (ok_geo _ _ _ _ Hok3 Hp3) as Hg3. destruct (room_small _ _ Hg3) as [_ Ht3].
    apply (wp_append U p b3); [done|done|rewrite Ht3; cbn; lia|]. cbn zeta. intros _ _.
    assert (with_view (data_ b3) (length_ b3 + back) b3 = b) as ->.
    { unfold b3, b2, b1, with_view, padd. destruct b as [? ? [? ?] ? ? ? ?]; cbn. f_equal; [f_equal; lia|lia]. }
    cbn. rewrite !insert_insert_eq, insert_id by done. by destruct h.
Qed.

(** ** Witnesses *)

Module Demo.
Definition final {A} (m : M A) (h : heap) : heap := match m h with Ret (_, h') => h' | Err _ => h end.
Definition un : Z → Z → Z := fun _ _ => 0.
Definition lim : Z := 2 ^ 40.

Lemma final_spec {A} (m : M A) Q h : wp m Q h → ∃ a, Q a (final m h) ∧ m h = Ret (a, final m h).
Proof. unfold wp, final. destruct (m h) as [[a h']|]; [|done]. eauto. Qed.

(** Nothing allocated. *)
Definition h0 : heap := mk_heap ∅ ∅ ∅ ∅ 8 [].

Lemma ok0 : ok ∅ h0.
Proof. split; [|by intros p (st & E & _)|done]. unfold h0, holders; cbn. split; try done; cbn. Qed.

Definition make1 : M Z := copyBuffer un lim [1; 2; 3] 2 4.
Definition make2 : M Z := copyBuffer un lim [4; 5] 0 0.
Definition h1 : heap := final make1 h0.
Definition h2 : heap := final make2 h1.
Definition p1 : Z := Eval vm_compute in match make1 h0 with Ret (p, _) => p | _ => 0 end.
Definition p2 : Z := Eval vm_compute in match make2 h1 with Ret (p, _) => p | _ => 0 end.
Definition h3 : heap := final (prependChain p1 p2) h2.

(** One object. *)
Lemma ok1 : ok ∅ h1 ∧ chain h1 p1 [] ∧ heapobj h1 p1.
Proof.
  destruct (final_spec make1 (fun p h => ok ∅ h ∧ chain h p [] ∧ heapobj h p) h0) as (p & H & E).
  { apply (wp_copyBuffer un lim ∅ [1; 2; 3] 2 4); [apply ok0|unfold lim; cbn; lia..|]. done. }
  assert (p = p1) as ->; [|exact H]. vm_compute in E. injection E as <-. done.
Qed.

(** Two objects, each in its own chain. *)
Lemma ok2 : ok ∅ h2 ∧ chain h2 p1 [] ∧ chain h2 p2 [] ∧ heapobj h2 p1 ∧ heapobj h2 p2.
Proof.
  destruct ok1 as (Hok & Hch & Hh).
  destruct (final_spec make2 (fun p h => ok ∅ h ∧ chain h p1 [] ∧ chain h p [] ∧ heapobj h p1 ∧ heapobj h p) h1) as (p & H & E).
  { apply (wp_copyBuffer un lim ∅ [4; 5] 0 0); [done|unfold lim; cbn; lia..|].
    intros p b h' H1 H2 H3 H4 _ _ _ _ _ Ha. assert (p1 ∉ [p]) as Hp.
    { intros E%list_elem_of_singleton. rewrite <-E in H4. vm_compute in H4. done. }
    split_and!; try done; [|by apply (af_heap _ _ _ Ha)].
    eapply affects_chain; [done|done|]. by intros x ->%list_elem_of_singleton. }
  assert (p = p2) as ->; [|exact H]. vm_compute in E. injection E as <-. done.
Qed.

(** The two in one chain. *)
Lemma ok3 : ok ∅ h3 ∧ chain h3 p1 [p2] ∧ ∀ x, x ∈ [p1; p2] → heapobj h3 x.
Proof.
  destruct ok2 as (Hok & C1 & C2 & H1 & H2).
  destruct (final_spec (prependChain p1 p2) (fun _ h => ok ∅ h ∧ chain h p1 [p2] ∧ ∀ x, x ∈ [p1; p2] → heapobj h x) h2)
    as (? & H & _); [|exact H].
  apply (wp_prependChain p1 [] p2 []); [done|done| |].
  { intros x ->%list_elem_of_singleton. by intros ?%list_elem_of_singleton. }
  intros h' Hch Hr. split_and!; [by eapply relinks_ok|done|]. intros x Hx. apply (relinks_heapobj _ _ _ _ Hr).
  apply elem_of_cons in Hx as [E|E%list_elem_of_singleton]; by rewrite E.
Qed.

Lemma tail_obj x : x ∈ [p2] → heapobj h3 x.
Proof. intros ?. apply ok3. by right. Qed.

Lemma fits_all A C : [p2] = A ++ C → fits lim h3 p1 A.
Proof.
  intros E. assert (A = [] ∨ A = [p2]) as [-> | ->].
  { destruct A as [|x [|y A]]; [by left| |discriminate E]. injection E as <- _. by right. }
  all: exists (default (blank_at 0) (bufs h3 !! p1)).
  - exists (default (blank_at 0) (bufs h3 !! p1)).
    split; [vm_compute; reflexivity|split; [vm_compute; reflexivity|split; vm_compute; [reflexivity|discriminate]]].
  - exists (default (blank_at 0) (bufs h3 !! p2)).
    split; [vm_compute; reflexivity|split; [vm_compute; reflexivity|split; vm_compute; [reflexivity|discriminate]]].
Qed.

Lemma all_objects x : is_Some (bufs h3 !! x) → x ∈ [p1; p2].
Proof.
  intros [b Hb%elem_of_map_to_list]. revert Hb. vm_compute (map_to_list (bufs h3)).
  rewrite !elem_of_cons. intros [[= -> _]|[[= -> _]|[]%elem_of_nil]]; vm_compute; (by left) || (by right; left).
Qed.

(** Destroying the chain of two frees everything. *)
Lemma destroy_correct_witness : wp (destroy p1) (fun _ h' => bufs h' !! p1 = None ∧ infos h' = ∅ ∧ stores h' = ∅ ∧ mem h' = ∅) h3.
Proof.
  destruct ok3 as (Hok & Hch & Hh).
  eapply wp_mono; [apply (destroy_correct ∅ p1 [p2] h3 Hok Hch Hh)|].
  intros _ h' (_ & Hg & _ & Hall). destruct (Hall all_objects) as (E1 & E2 & E3).
  split; [apply Hg; by left|split; [done|split; [done|]]]. apply map_empty. intros a.
  destruct (mem h' !! a) eqn:E; [|done]. exfalso. apply (not_elem_of_empty (C := gset Z) a), E3. by eexists.
Defined.

Lemma copyBuffer_correct_witness : wp make1 (fun p h' => chain h' p [] ∧ bytes_at h' p = [1; 2; 3]) h0.
Proof.
  eapply wp_mono; [apply (copyBuffer_correct un lim ∅ [1; 2; 3] 2 4 h0 ok0); unfold lim; cbn; lia|].
  by intros p h' (_ & _ & Hc & _ & Hb & _).
Defined.

Lemma coalesce_correct_witness : wp (coalesce un lim p1) (fun r h' => chain h' p1 [] ∧ bytes_at h' p1 = [1; 2; 3; 4; 5]) h3.
Proof.
  destruct ok3 as (Hok & Hch & Hh).
  eapply wp_mono; [apply (coalesce_correct un lim ∅ p1 [p2] h3 Hok Hch tail_obj (fits_all [p2] [] eq_refl))|].
  intros r h' (_ & Hc & Hb & _). split; [done|]. rewrite Hb. vm_compute. reflexivity.
Defined.

Lemma gather_correct_witness : wp (gather un lim p1 4) (fun _ h' => 4 ≤ Z.of_nat (length (bytes_at h' p1))) h3.
Proof.
  destruct ok3 as (Hok & Hch & Hh).
  eapply wp_mono; [apply (gather_correct un lim ∅ p1 [p2] 4 h3 Hok Hch tail_obj fits_all)|].
  - vm_compute. discriminate.
  - by intros _ h' (_ & _ & Hb & _).
Defined.

Lemma clone_outlives_witness : wp (clone p1) (fun q h' => bufs h3 !! q = None ∧ contents h' [p1; p2] = [1; 2; 3; 4; 5]) h3.
Proof.
  destruct ok3 as (Hok & Hch & Hh).
  eapply wp_mono; [apply (clone_outlives ∅ p1 [p2] h3 Hok Hch Hh)|].
  - vm_compute. reflexivity.
  - intros q h' (_ & _ & _ & Hb & L & _ & _ & _ & Hn & _). split; [apply Hn; by left|]. rewrite Hb. vm_compute. reflexivity.
Defined.

Lemma unshare_isolates_witness : wp (unshare un lim p1) (fun _ h' => ok ∅ h') h3.
Proof.
  destruct ok3 as (Hok & Hch & Hh).
  eapply wp_mono; [apply (unshare_isolates un lim ∅ p1 [p2] h3 Hok Hch tail_obj (fits_all [p2] [] eq_refl))|].
  - exists (default (blank_at 0) (bufs h3 !! p1)). split; [vm_compute; reflexivity|split; vm_compute; [reflexivity|discriminate]].
  - by intros _ h' (Hk & _).
Defined.

Lemma prepend_separate_roundtrip_witness :
  wp (prependChain p1 p2) (fun _ h' => contents h' [p1; p2] = [1; 2; 3; 4; 5]) h2.
Proof.
  destruct ok2 as (Hok & C1 & C2 & H1 & H2).
  eapply wp_mono; [apply (prepend_separate_roundtrip ∅ p1 [] p2 [] h2 Hok C1 C2)|].
  - intros x ->%list_elem_of_singleton. by intros ?%list_elem_of_singleton.
  - intros _ h' (_ & _ & Hb & _). change ([p1; p2]) with (p1 :: [] ++ p2 :: []). rewrite Hb. vm_compute. reflexivity.
Defined.

Lemma pop_correct_witness : wp (pop p1) (fun r h' => r = p2 ∧ chain h' p1 []) h3.
Proof.
  destruct ok3 as (Hok & Hch & Hh).
  eapply wp_mono; [apply (pop_correct ∅ p1 [p2] h3 Hok Hch)|]. by intros r h' (_ & ? & _ & ? & _).
Defined.

Lemma trim_correct_witness : wp (_ ← trimStart p1 1; trimEnd p1 1) (fun _ h' => bytes_at h' p1 = [2]) h3.
Proof.
  destruct ok3 as (Hok & Hch & Hh). set (b := default (blank_at 0) (bufs h3 !! p1)).
  eapply wp_mono; [apply (trim_correct ∅ p1 b 1 1 h3 Hok); [vm_compute; reflexivity|lia|lia|vm_compute; discriminate]|].
  intros _ h' (_ & _ & Hb & _). rewrite Hb. vm_compute. reflexivity.
Defined.
(** moveToString copies the bytes into the string and then forgets the buffer:
    from nothing allocated, a string of 2000 bytes read out of an object which is
    then destroyed leaves no object, no storage and no SharedInfo in use but a
    block of memory. *)
Theorem moveToString_leaks :
  ok ∅ h0 ∧ mem h0 = ∅ ∧
  wp (p ← copyBuffer un lim (replicate 2000 7) 0 4; s ← moveToString un lim p; _ ← destroy p; mret s)
    (fun s h' => s = replicate 2000 7 ∧ bufs h' = ∅ ∧ stores h' = ∅ ∧ size (mem h') = 1%nat) h0.
Proof.
  split; [exact ok0|split; [done|]]. vm_compute. split; [reflexivity|split; [reflexivity|split; reflexivity]].
Qed.
End Demo.
