(* ===== verification/Range.v ===== *)
(** util/Range.h and util/Range.cpp: searching in ranges. A range is the list of its
    elements, an iterator the index it has reached; reading at an iterator outside the
    range and moving one past the end are undefined. None stands for npos. *)
From S2P Require Import Prelude.

Module Range.

(** ** qfind: a needle in a haystack *)

Section qfind.
Context {T : Type} (eq : T → T → bool) (haystack needle : list T).
#[local] Abbreviation len := List.length.

Definition at_ (l : list T) (i : nat) : outcome T := of_option Undefined (l !! i).

(** while (!eq(i[nsize_1], lastNeedle)) if (++i == iEnd) return npos; *)
Fixpoint match_last (fuel i iEnd nsize_1 : nat) (lastNeedle : T) : outcome (option nat) :=
  match fuel with
  | O => Err OutOfFuel
  | S fuel =>
      x ← at_ haystack (i + nsize_1);
      if eq x lastNeedle then Ret (Some i) else
      if (S i =? iEnd)%nat then Ret None else match_last fuel (S i) iEnd nsize_1 lastNeedle
  end.

(** for (j = 0; ; ): true if the needle is at i. *)
Fixpoint pedestrian (fuel i j nsize : nat) : outcome bool :=
  match fuel with
  | O => Err OutOfFuel
  | S fuel =>
      _ ← check (j <? nsize)%nat AssertFailed;
      x ← at_ haystack (i + j);
      y ← at_ needle j;
      if negb (eq x y) then Ret false else
      if (S j =? nsize)%nat then Ret true else pedestrian fuel i (S j) nsize
  end.

(** while (skip <= nsize_1 && !eq(needle[nsize_1 - skip], lastNeedle)) ++skip; *)
Fixpoint skip_loop (fuel skip nsize_1 : nat) (lastNeedle : T) : outcome nat :=
  match fuel with
  | O => Err OutOfFuel
  | S fuel =>
      if (skip <=? nsize_1)%nat then
        y ← at_ needle (nsize_1 - skip);
        if negb (eq y lastNeedle) then skip_loop fuel (S skip) nsize_1 lastNeedle else Ret skip
      else Ret skip
  end.
Definition compute_skip (skip nsize_1 : nat) (lastNeedle : T) : outcome nat :=
  if (skip =? 0)%nat then skip_loop (S nsize_1) 1 nsize_1 lastNeedle else Ret skip.

(** i += n *)
Definition advance (i n : nat) : outcome nat := _ ← check (i + n <=? len haystack)%nat Undefined; Ret (i + n)%nat.

Fixpoint qfind_loop (fuel i iEnd nsize skip : nat) (lastNeedle : T) : outcome (option nat) :=
  match fuel with
  | O => Err OutOfFuel
  | S fuel =>
      if (i <? iEnd)%nat then
        o ← match_last (iEnd - i) i iEnd (nsize - 1) lastNeedle;
        match o with
        | None => Ret None
        | Some i =>
            found ← pedestrian nsize i 0 nsize;
            if found : bool then Ret (Some i) else
            skip ← compute_skip skip (nsize - 1) lastNeedle;
            i ← advance i skip;
            qfind_loop fuel i iEnd nsize skip lastNeedle
        end
      else Ret None
  end.
Definition qfind : outcome (option nat) :=
  let nsize := len needle in
  if (len haystack <? nsize)%nat then Ret None else
  if (nsize =? 0)%nat then Ret (Some 0%nat) else
  lastNeedle ← at_ needle (nsize - 1);
  let iEnd := (len haystack - (nsize - 1))%nat in
  qfind_loop (S iEnd) 0 iEnd nsize 0 lastNeedle.
End qfind.

(** The comparisons of chars. *)
Definition asciiCaseSensitive (lhs rhs : Z) : bool := lhs =? rhs.
Definition asciiCaseInsensitive (lhs rhs : Z) : bool :=
  let k := Z.lxor lhs rhs in
  if k =? 0 then true else
  if negb (k =? 32) then false else
  let k := Z.lor lhs rhs in
  (97 <=? k) && (k <=? 122).

(** ** Single elements *)

Fixpoint find_from {T} (f : T → bool) (l : list T) (i : nat) : option nat :=
  match l with [] => None | x :: l => if f x then Some i else find_from f l (S i) end.

(** qfind(haystack, value) *)
Definition qfind_value {T} `{EqDecision T} (haystack : list T) (needle : T) : option nat :=
  find_from (fun x => bool_decide (x = needle)) haystack 0.
(** rfind: from the last element down. *)
Fixpoint rfind_loop {T} `{EqDecision T} (haystack : list T) (needle : T) (i : nat) : outcome (option nat) :=
  match i with
  | O => Ret None
  | S i => x ← at_ haystack i; if bool_decide (x = needle) then Ret (Some i) else rfind_loop haystack needle i
  end.
Definition rfind {T} `{EqDecision T} (haystack : list T) (needle : T) : outcome (option nat) :=
  rfind_loop haystack needle (List.length haystack).

(** qfind_first_of through std::find_first_of *)
Definition qfind_first_of {T} (eq : T → T → bool) (haystack needles : list T) : option nat :=
  find_from (fun x => existsb (eq x) needles) haystack 0.

(** ** FastByteSet: a set of bytes whose arrays are not initialised *)

Module FastByteSet.
Record byteset := mk_byteset { size_ : Z; sparse_ : list Z; dense_ : list Z }.

(** The constructor: the arrays hold whatever the stack held. *)
Definition empty (sparse dense : list Z) : byteset := mk_byteset 0 sparse dense.

Definition contains (i : Z) (s : byteset) : outcome bool :=
  k ← vget (sparse_ s) i;
  if k <? size_ s then d ← vget (dense_ s) k; Ret (d =? i) else Ret false.

Definition add (i : Z) (s : byteset) : outcome byteset :=
  c ← contains i s;
  if c : bool then Ret s else
  dense ← vset (dense_ s) (size_ s) i;
  sparse ← vset (sparse_ s) i (u8 (size_ s));
  Ret (mk_byteset (u16 (size_ s + 1)) sparse dense).
End FastByteSet.

Section first_byte_of.
(** What the stack holds where the set is. *)
Context (sparse0 dense0 : list Z).

Fixpoint add_all (needles : list Z) (s : FastByteSet.byteset) : outcome FastByteSet.byteset :=
  match needles with [] => Ret s | n :: needles => s ← FastByteSet.add n s; add_all needles s end.
Fixpoint first_in (haystack : list Z) (index : nat) (s : FastByteSet.byteset) : outcome (option nat) :=
  match haystack with
  | [] => Ret None
  | x :: haystack => c ← FastByteSet.contains x s; if c : bool then Ret (Some index) else first_in haystack (S index) s
  end.
Definition qfind_first_byte_of_byteset (haystack needles : list Z) : outcome (option nat) :=
  s ← add_all needles (FastByteSet.empty sparse0 dense0);
  first_in haystack 0 s.

Definition qfind_first_byte_of_nosse (haystack needles : list Z) : outcome (option nat) :=
  let h := List.length haystack in
  let n := List.length needles in
  if (n =? 0)%nat || (h =? 0)%nat then Ret None else
  if ((4 <=? n)%nat && (h <=? 10)%nat) || ((16 <=? n)%nat && (h <=? 64)%nat) || (32 <=? n)%nat
  then qfind_first_byte_of_byteset haystack needles
  else Ret (qfind_first_of asciiCaseSensitive haystack needles).
End first_byte_of.

End Range.
