(* ===== verification/RangeProof.v ===== *)
(** The searches of util/Range.h find what a search position by position finds. *)
From S2P Require Import Prelude Range.

Module RangeProof.
Import Range.
#[local] Abbreviation len := List.length.

(** ** The reference: position by position *)

Fixpoint prefix_eq {T} (eq : T → T → bool) (l n : list T) {struct n} : bool :=
  match n, l with
  | [], _ => true
  | y :: n, x :: l => eq x y && prefix_eq eq l n
  | _ :: _, [] => false
  end.
(** The first of [k] positions from [i] on. *)
Fixpoint search {T} (eq : T → T → bool) (h n : list T) (k i : nat) : option nat :=
  match k with
  | O => None
  | S k => if prefix_eq eq (drop i h) n then Some i else search eq h n k (S i)
  end.
Definition find_sub {T} (eq : T → T → bool) (h n : list T) : option nat := search eq h n (S (len h) - len n) 0.

Section qfind.
Context {T : Type} (eq : T → T → bool).

Lemma prefix_eq_at h n i : prefix_eq eq (drop i h) n = true → ∀ j y, n !! j = Some y → ∃ x, h !! (i + j)%nat = Some x ∧ eq x y = true.
Proof.
  revert i. induction n as [|y n IH]; intros i Hp j z Hj; [done|]. cbn in Hp. destruct (drop i h) as [|x l] eqn:E; [done|].
  apply andb_true_iff in Hp as [Hx Hp]. assert (h !! i = Some x) as Hi by (rewrite <- (Nat.add_0_r i), <- lookup_drop, E; done).
  destruct j as [|j]; cbn in Hj; [injection Hj as <-; exists x; by rewrite Nat.add_0_r|].
  assert (drop (S i) h = l) as El by (rewrite <- Nat.add_1_r, <- drop_drop, E; done).
  rewrite <- El in Hp. destruct (IH (S i) Hp j z Hj) as (x' & Hx' & He). exists x'. split; [|done]. rewrite <- Hx'. f_equal. lia.
Qed.

Context (h n : list T).

Lemma search_skip k i : prefix_eq eq (drop i h) n = false → search eq h n (S k) i = search eq h n k (S i).
Proof. intros E. cbn. by rewrite E. Qed.

Lemma search_skips s : ∀ k i, (∀ t, (t < s)%nat → prefix_eq eq (drop (i + t) h) n = false) → search eq h n k i = search eq h n (k - s) (i + s).
Proof.
  induction s as [|s IH]; intros k i Hs; [by rewrite Nat.sub_0_r, Nat.add_0_r|].
  destruct k as [|k]; [done|]. rewrite search_skip by (rewrite <- (Nat.add_0_r i); apply Hs; lia). rewrite (IH k (S i)).
  - f_equal; lia.
  - intros t Ht. replace (S i + t)%nat with (i + S t)%nat by lia. apply Hs. lia.
Qed.

Lemma pedestrian_spec fuel : ∀ i j, (j + fuel)%nat = len n → (0 < fuel)%nat → (i + len n ≤ len h)%nat →
  pedestrian eq h n fuel i j (len n) = Ret (prefix_eq eq (drop (i + j) h) (drop j n)).
Proof.
  induction fuel as [|fuel IH]; intros i j Hj Hf Hi; [lia|]. cbn [pedestrian].
  rewrite (proj2 (Nat.ltb_lt j (len n))) by lia. cbn [check mbind outcome_bind].
  destruct (lookup_lt_is_Some_2 h (i + j)) as [x Hx]; [lia|]. destruct (lookup_lt_is_Some_2 n j) as [y Hy]; [lia|].
  unfold at_. rewrite Hx, Hy. cbn [of_option mbind outcome_bind]. rewrite (drop_S h x) by done. rewrite (drop_S n y) by done. cbn [prefix_eq].
  destruct (eq x y); [|done]. cbn [negb andb]. destruct (Nat.eqb_spec (S j) (len n)) as [E|E].
  - by rewrite E, (drop_ge n).
  - rewrite IH by lia. do 2 f_equal. f_equal. lia.
Qed.

Section needle.
Context (Htrans : ∀ x y z, x ∈ h → y ∈ n → z ∈ n → eq x y = true → eq x z = true → eq y z = true).
Context (m : nat) (Hm : len n = S m) (last : T) (Hlast : n !! m = Some last).

Lemma last_mismatch i x : h !! (i + m)%nat = Some x → eq x last = false → prefix_eq eq (drop i h) n = false.
Proof.
  intros Hx He. destruct (prefix_eq eq (drop i h) n) eqn:E; [|done].
  destruct (prefix_eq_at _ _ _ E m last Hlast) as (x' & Hx' & He'). congruence.
Qed.

Lemma match_last_spec fuel : ∀ i iEnd, (i + fuel)%nat = iEnd → (0 < fuel)%nat → (iEnd + m)%nat = len h →
  ∃ o, match_last eq h fuel i iEnd m last = Ret o ∧
    match o with
    | None => search eq h n fuel i = None
    | Some i' => (i ≤ i' < iEnd)%nat ∧ search eq h n fuel i = search eq h n (iEnd - i') i' ∧ ∃ x, h !! (i' + m)%nat = Some x ∧ eq x last = true
    end.
Proof.
  induction fuel as [|fuel IH]; intros i iEnd Hi Hf He; [lia|]. cbn [match_last].
  destruct (lookup_lt_is_Some_2 h (i + m)) as [x Hx]; [lia|]. unfold at_ at 1. rewrite Hx. cbn [of_option mbind outcome_bind].
  destruct (eq x last) eqn:Ex.
  - exists (Some i). split; [done|]. split; [lia|]. split; [|eauto]. f_equal. lia.
  - rewrite (search_skip fuel i) by (by eapply last_mismatch). destruct (Nat.eqb_spec (S i) iEnd) as [E|E].
    + exists None. split; [done|]. by assert (fuel = 0%nat) as -> by lia.
    + destruct (IH (S i) iEnd) as (o & Ho & Hs); [lia..|]. exists o. split; [done|]. destruct o as [i'|]; [|done].
      destruct Hs as (Hi' & Hs & Hx'). split; [lia|done].
Qed.

(** The distance to the last char's previous occurrence. *)
Definition skip_ok (s : nat) : Prop :=
  (1 ≤ s ≤ S m)%nat ∧ ∀ t y, (1 ≤ t < s)%nat → n !! (m - t)%nat = Some y → eq y last = false.

Lemma skip_loop_spec fuel : ∀ s, (s + fuel = S (S m))%nat → skip_ok s → ∃ s', skip_loop eq n fuel s m last = Ret s' ∧ skip_ok s'.
Proof.
  induction fuel as [|fuel IH]; intros s Hf [Hs Ht]; [lia|]. cbn [skip_loop]. destruct (Nat.leb_spec s m) as [Hle|Hgt]; [|by exists s].
  destruct (lookup_lt_is_Some_2 n (m - s)) as [y Hy]; [lia|]. unfold at_. rewrite Hy. cbn [of_option mbind outcome_bind].
  destruct (eq y last) eqn:Ey; cbn [negb]; [by exists s|]. apply IH; [lia|]. split; [lia|]. intros t z Hlt Hz.
  destruct (decide (t = s)) as [->|Hne]; [congruence|]. apply (Ht t); [lia|done].
Qed.

Lemma compute_skip_spec s : s = 0%nat ∨ skip_ok s → ∃ s', compute_skip eq n s m last = Ret s' ∧ skip_ok s'.
Proof.
  intros Hs. unfold compute_skip. destruct (Nat.eqb_spec s 0) as [E|E].
  - apply skip_loop_spec; [lia|]. split; [lia|]. intros t y Ht. lia.
  - destruct Hs as [Hs|Hs]; [lia|]. by exists s.
Qed.

(** Inside the skip nothing matches: the haystack's char under the needle's last one
    would have to match an earlier char of the needle. *)
Lemma skip_sound i s x : skip_ok s → h !! (i + m)%nat = Some x → eq x last = true → prefix_eq eq (drop i h) n = false →
  ∀ t, (t < s)%nat → prefix_eq eq (drop (i + t) h) n = false.
Proof.
  intros [Hs Ht] Hx Hex Hp t Hlt. destruct t as [|t]; [by rewrite Nat.add_0_r|].
  destruct (prefix_eq eq (drop (i + S t) h) n) eqn:E; [|done].
  destruct (lookup_lt_is_Some_2 n (m - S t)) as [y Hy]; [lia|]. destruct (prefix_eq_at _ _ _ E _ _ Hy) as (x' & Hx' & He').
  replace (i + S t + (m - S t))%nat with (i + m)%nat in Hx' by lia.
  assert (x' = x) as -> by congruence. pose proof (Htrans x y last ltac:(by eapply list_elem_of_lookup_2) ltac:(by eapply list_elem_of_lookup_2) ltac:(by eapply list_elem_of_lookup_2) He' Hex) as E2. rewrite (Ht (S t) y ltac:(lia) Hy) in E2. done.
Qed.

Lemma qfind_loop_spec fuel : ∀ i iEnd s, (iEnd - i < fuel)%nat → (iEnd + m)%nat = len h → s = 0%nat ∨ skip_ok s →
  qfind_loop eq h n fuel i iEnd (S m) s last = Ret (search eq h n (iEnd - i) i).
Proof.
  induction fuel as [|fuel IH]; intros i iEnd s Hf He Hs; [lia|]. cbn [qfind_loop]. replace (S m - 1)%nat with m by lia.
  destruct (Nat.ltb_spec i iEnd) as [Hlt|Hge]; [|by replace (iEnd - i)%nat with 0%nat by lia].
  destruct (match_last_spec (iEnd - i) i iEnd) as (o & Ho & Hspec); [lia..|]. rewrite Ho. cbn [mbind outcome_bind].
  destruct o as [i'|]; [|by rewrite Hspec]. destruct Hspec as (Hi' & -> & x & Hx & Hex).
  pose proof (pedestrian_spec (S m) i' 0 ltac:(lia) ltac:(lia) ltac:(lia)) as Hped. rewrite Hm in Hped. rewrite Hped. rewrite Nat.add_0_r, drop_0.
  cbn [mbind outcome_bind]. destruct (prefix_eq eq (drop i' h) n) eqn:Ep.
  - replace (iEnd - i')%nat with (S (iEnd - S i'))%nat by lia. cbn. by rewrite Ep.
  - destruct (compute_skip_spec s Hs) as (s' & Hc & Hs'). rewrite Hc. cbn [mbind outcome_bind]. unfold advance. pose proof Hs' as [Hr _].
    rewrite (proj2 (Nat.leb_le (i' + s') (len h))) by lia. cbn [check mbind outcome_bind].
    rewrite (IH (i' + s')%nat iEnd s') by (try lia; auto). rewrite (search_skips s' (iEnd - i') i') by (by eapply skip_sound).
    do 2 f_equal. lia.
Qed.
End needle.
End qfind.

Lemma qfind_spec {T} (eq : T → T → bool) (haystack needle : list T) :
  (∀ x y z, x ∈ haystack → y ∈ needle → z ∈ needle → eq x y = true → eq x z = true → eq y z = true) →
  qfind eq haystack needle = Ret (find_sub eq haystack needle).
Proof.
  intros Ht. unfold qfind, find_sub. destruct (Nat.ltb_spec (len haystack) (len needle)) as [Hlt|Hge].
  { by replace (S (len haystack) - len needle)%nat with 0%nat by lia. }
  destruct (len needle) as [|m] eqn:Hm.
  { apply nil_length_inv in Hm as ->. done. }
  destruct (lookup_lt_is_Some_2 needle m) as [last Hlast]; [lia|]. cbn [Nat.eqb]. replace (S m - 1)%nat with m by lia.
  unfold at_ at 1. rewrite Hlast. cbn [of_option mbind outcome_bind].
  rewrite (qfind_loop_spec eq haystack needle Ht m Hm last Hlast) by (try lia; auto). do 2 f_equal. lia.
Qed.

(** The substring search that compares the last chars first and skips ahead finds
    the first position at which the needle matches, and no position exactly when
    there is none; it reads only inside the two ranges, never moves past the
    end, and ends. The comparison only has to be such that two things that match a
    third match each other. *)
Theorem qfind_correct {T} (eq : T → T → bool) (haystack needle : list T) :
  (∀ x y z, x ∈ haystack → y ∈ needle → z ∈ needle → eq x y = true → eq x z = true → eq y z = true) →
  qfind eq haystack needle = Ret (find_sub eq haystack needle).
Proof. apply qfind_spec. Qed.

(** The case-insensitive comparison is of that kind, on bytes. *)
Definition byte (x : Z) : Prop := 0 ≤ x < 256.
Lemma case_spec x y : byte x → byte y → asciiCaseInsensitive x y = true ↔
  x = y ∨ (97 ≤ x ≤ 122 ∧ y = x - 32) ∨ (97 ≤ y ≤ 122 ∧ x = y - 32).
Proof.
  assert (forallb (fun x => forallb (fun y => Bool.eqb (asciiCaseInsensitive x y)
    ((x =? y) || ((97 <=? x) && (x <=? 122) && (y =? x - 32)) || ((97 <=? y) && (y <=? 122) && (x =? y - 32)))) (seqZ 0 256)) (seqZ 0 256) = true) as Hall by (by vm_compute).
  intros Hx Hy. rewrite forallb_forall in Hall. specialize (Hall x ltac:(apply list_elem_of_In, elem_of_seqZ; unfold byte in *; lia)).
  rewrite forallb_forall in Hall. specialize (Hall y ltac:(apply list_elem_of_In, elem_of_seqZ; unfold byte in *; lia)).
  apply eqb_prop in Hall. rewrite Hall. rewrite !orb_true_iff, !andb_true_iff, !Z.eqb_eq, !Z.leb_le. tauto.
Qed.
Lemma case_trans x y z : byte x → byte y → byte z → asciiCaseInsensitive x y = true → asciiCaseInsensitive x z = true → asciiCaseInsensitive y z = true.
Proof. intros Hx Hy Hz. rewrite !case_spec by done. lia. Qed.

Lemma qfind_correct_case haystack needle : Forall byte haystack → Forall byte needle →
  qfind asciiCaseInsensitive haystack needle = Ret (find_sub asciiCaseInsensitive haystack needle).
Proof.
  intros Hh Hn. rewrite Forall_forall in Hh, Hn. apply qfind_spec. intros x y z Hx Hy Hz. apply case_trans; auto.
Qed.

(** ** Sets of bytes *)

Module FastByteSetProof.
Import FastByteSet.

(** The first [size_] entries of [dense_] are the elements, and [sparse_] has the place
    of each of them; nothing is known of the other entries. *)
Record set_ok (s : byteset) : Prop := {
  so_size : 0 ≤ size_ s;
  so_sparse : len (sparse_ s) = 256%nat ∧ Forall byte (sparse_ s);
  so_dense : len (dense_ s) = 256%nat;
  so_bytes : Forall byte (take (Z.to_nat (size_ s)) (dense_ s));
  so_nodup : NoDup (take (Z.to_nat (size_ s)) (dense_ s));
  so_fits : size_ s ≤ 256;
  so_back : ∀ k x, k < size_ s → 0 ≤ k → dense_ s !! Z.to_nat k = Some x → sparse_ s !! Z.to_nat x = Some k
}.
Definition elems (s : byteset) : list Z := take (Z.to_nat (size_ s)) (dense_ s).

Lemma empty_ok sparse dense : len sparse = 256%nat → len dense = 256%nat → Forall byte sparse → set_ok (empty sparse dense).
Proof. intros. split; cbn; try done; try lia. apply NoDup_nil_2. Qed.

Lemma contains_spec i s : set_ok s → byte i → contains i s = Ret (bool_decide (i ∈ elems s)).
Proof.
  intros [H0 [Hs Hb] Hd He Hnd Hf Hk] Hi. unfold contains, vget. unfold byte in *. rewrite (proj2 (Z.leb_le 0 i)) by lia.
  destruct (lookup_lt_is_Some_2 (sparse_ s) (Z.to_nat i)) as [k Hik]; [lia|]. rewrite Hik. cbn [of_option mbind outcome_bind].
  pose proof (Forall_lookup_1 _ _ _ _ Hb Hik) as Hkb. cbn in Hkb.
  destruct (Z.ltb_spec k (size_ s)) as [Hlt|Hge].
  - rewrite (proj2 (Z.leb_le 0 k)) by lia. destruct (lookup_lt_is_Some_2 (dense_ s) (Z.to_nat k)) as [d Hkd]; [lia|]. rewrite Hkd. cbn.
    f_equal. destruct (Z.eqb_spec d i) as [->|Hne]; symmetry; [apply bool_decide_true|apply bool_decide_false].
    + unfold elems. apply list_elem_of_lookup. exists (Z.to_nat k). rewrite lookup_take_lt by lia. done.
    + unfold elems. intros (j & [Hj Hjlt]%lookup_take_Some)%list_elem_of_lookup.
      pose proof (Hk (Z.of_nat j) i ltac:(lia) ltac:(lia)) as E. rewrite Nat2Z.id in E. specialize (E Hj). rewrite Hik in E. injection E as ->.
      rewrite Nat2Z.id in Hkd. congruence.
  - f_equal. symmetry. apply bool_decide_false. unfold elems. intros (j & [Hj Hjlt]%lookup_take_Some)%list_elem_of_lookup.
    pose proof (Hk (Z.of_nat j) i ltac:(lia) ltac:(lia)) as E. rewrite Nat2Z.id in E. specialize (E Hj). rewrite Hik in E. injection E as ->. lia.
Qed.

(** Distinct bytes are at most 256. *)
Lemma bytes_bound l : NoDup l → Forall byte l → (len l ≤ 256)%nat.
Proof.
  intros Hnd Hb. assert (len l ≤ len (seqZ 0 256))%nat as Hle; [|by rewrite length_seqZ in Hle].
  apply submseteq_length, NoDup_submseteq; [done|]. intros x Hx. apply elem_of_seqZ. rewrite Forall_forall in Hb. apply Hb in Hx. unfold byte in Hx. lia.
Qed.

Lemma add_spec i s : set_ok s → byte i → ∃ s', add i s = Ret s' ∧ set_ok s' ∧ ∀ x, x ∈ elems s' ↔ x = i ∨ x ∈ elems s.
Proof.
  intros Hok Hi. unfold add. rewrite (contains_spec i s Hok Hi). cbn [mbind outcome_bind]. case_bool_decide as Hin.
  { exists s. split; [done|]. split; [done|]. intros x. split; [auto|]. by intros [->|?]. }
  pose proof Hok as [H0 [Hs Hb] Hd He Hnd Hf Hk]. unfold elems in Hin. unfold byte in Hi.
  assert (size_ s < 256) as Hlt.
  { assert (NoDup (i :: take (Z.to_nat (size_ s)) (dense_ s))) as Hnd' by (by constructor).
    apply bytes_bound in Hnd'; [|by constructor]. cbn in Hnd'. rewrite length_take in Hnd'. lia. }
  destruct (vset (dense_ s) (size_ s) i) as [dense|] eqn:Ed.
  2: { unfold vset in Ed. rewrite (proj2 (Z.leb_le _ _)), (proj2 (Z.ltb_lt _ _)) in Ed by lia. done. }
  apply vset_ret in Ed as [_ ->]. cbn [mbind outcome_bind]. destruct (vset (sparse_ s) i (u8 (size_ s))) as [sparse|] eqn:Es.
  2: { unfold vset in Es. rewrite (proj2 (Z.leb_le _ _)), (proj2 (Z.ltb_lt _ _)) in Es by lia. done. }
  apply vset_ret in Es as [_ ->]. cbn [mbind outcome_bind]. rewrite u8_small, u16_small by lia. eexists. split; [done|].
  assert (take (Z.to_nat (size_ s + 1)) (<[Z.to_nat (size_ s) := i]> (dense_ s)) = take (Z.to_nat (size_ s)) (dense_ s) ++ [i]) as Et.
  { replace (Z.to_nat (size_ s + 1)) with (S (Z.to_nat (size_ s))) by lia. rewrite (take_S_r _ _ i) by (apply list_lookup_insert_eq; lia).
    by rewrite take_insert_ge by lia. }
  split.
  - split; cbn; rewrite ?length_insert, ?Et; try done; try lia.
    + split; [done|]. apply Forall_insert; [done|unfold byte; lia].
    + apply Forall_app. split; [done|by apply Forall_singleton].
    + apply NoDup_app. split; [done|]. split; [|apply NoDup_singleton]. intros x Hx ->%list_elem_of_singleton. done.
    + intros k x Hklt Hk0 Hx. destruct (decide (k = size_ s)) as [->|Hne].
      * rewrite list_lookup_insert_eq in Hx by lia. injection Hx as <-. apply list_lookup_insert_eq. lia.
      * rewrite list_lookup_insert_ne in Hx by lia. rewrite list_lookup_insert_ne; [apply Hk; [lia|lia|done]|].
        intros E. assert (x ∈ take (Z.to_nat (size_ s)) (dense_ s)) as Hxin.
        { apply list_elem_of_lookup. exists (Z.to_nat k). rewrite lookup_take_lt by lia. done. }
        rewrite Forall_forall in He. pose proof (He _ Hxin) as Hxb. unfold byte in Hxb. apply Hin. by replace i with x by lia.
  - intros x. unfold elems at 1. cbn. rewrite Et, elem_of_app, list_elem_of_singleton. tauto.
Qed.
End FastByteSetProof.
Import FastByteSetProof.

Lemma add_all_spec needles : ∀ s, set_ok s → Forall byte needles →
  ∃ s', add_all needles s = Ret s' ∧ set_ok s' ∧ ∀ x, x ∈ elems s' ↔ x ∈ needles ∨ x ∈ elems s.
Proof.
  induction needles as [|n needles IH]; intros s Hs Hb; cbn [add_all]; [exists s; set_solver|]. apply Forall_cons in Hb as [Hn Hb].
  destruct (add_spec n s Hs Hn) as (s1 & -> & Hs1 & E1). cbn [mbind outcome_bind].
  destruct (IH s1 Hs1 Hb) as (s2 & -> & Hs2 & E2). exists s2. split; [done|]. split; [done|]. intros x. rewrite E2, E1, elem_of_cons. tauto.
Qed.

Lemma first_in_spec s needles : set_ok s → (∀ x, x ∈ elems s ↔ x ∈ needles) → ∀ haystack i, Forall byte haystack →
  first_in haystack i s = Ret (find_from (fun x => existsb (asciiCaseSensitive x) needles) haystack i).
Proof.
  intros Hs He. induction haystack as [|x haystack IH]; intros i Hb; cbn [first_in find_from]; [done|]. apply Forall_cons in Hb as [Hx Hb].
  rewrite (contains_spec x s Hs Hx). cbn [mbind outcome_bind]. rewrite (bool_decide_ext _ _ (He x)).
  assert (bool_decide (x ∈ needles) = existsb (asciiCaseSensitive x) needles) as ->.
  { apply Bool.eq_iff_eq_true. rewrite bool_decide_eq_true, existsb_exists. unfold asciiCaseSensitive. setoid_rewrite Z.eqb_eq. setoid_rewrite list_elem_of_In.
    split; [eauto|by intros (y & Hy & ->)]. }
  case_match; [done|]. by apply IH.
Qed.

(** Searching for any of several chars finds the first char of the haystack that is
    among them, whichever of the two algorithms the sizes select: the byte set gives
    right answers although its arrays are never initialised, whatever they hold, with
    all 256 bytes in it too, and never reads outside them. *)
Theorem first_byte_of_correct (sparse0 dense0 haystack needles : list Z) :
  len sparse0 = 256%nat → len dense0 = 256%nat → Forall byte sparse0 → Forall byte haystack → Forall byte needles →
  qfind_first_byte_of_nosse sparse0 dense0 haystack needles = Ret (qfind_first_of asciiCaseSensitive haystack needles).
Proof.
  intros Hs Hd Hi Hh Hn. unfold qfind_first_byte_of_nosse. destruct (Nat.eqb_spec (len needles) 0) as [E|E].
  { apply nil_length_inv in E as ->. cbn [orb]. unfold qfind_first_of. f_equal. symmetry. generalize 0%nat. clear. induction haystack; intros i; cbn; auto. }
  destruct (Nat.eqb_spec (len haystack) 0) as [E'|E']; cbn [orb]; [by apply nil_length_inv in E' as ->|].
  case_match; [|done]. unfold qfind_first_byte_of_byteset.
  destruct (add_all_spec needles (FastByteSet.empty sparse0 dense0)) as (s & -> & Hok & He); [by apply empty_ok|done|].
  cbn [mbind outcome_bind]. apply (first_in_spec s needles Hok); [|done]. intros x. rewrite He. unfold elems. cbn. rewrite take_0. set_solver.
Qed.

Module Demo.
Lemma qfind_correct_witness : qfind asciiCaseSensitive [97; 98; 97; 98; 98; 97; 98; 99] [97; 98; 99] = Ret (Some 5%nat).
Proof.
  rewrite (qfind_correct asciiCaseSensitive [97; 98; 97; 98; 98; 97; 98; 99] [97; 98; 99]); [done|].
  unfold asciiCaseSensitive. intros x y z _ _ _ ->%Z.eqb_eq ->%Z.eqb_eq. apply Z.eqb_refl.
Defined.
(** With the other comparison "baB" is found in "aBbAbc". *)
Lemma qfind_case_example : qfind asciiCaseInsensitive [97; 66; 98; 65; 98; 99] [98; 97; 66] = Ret (Some 2%nat).
Proof.
  rewrite (qfind_correct_case [97; 66; 98; 65; 98; 99] [98; 97; 66]); [done|..]; by repeat constructor.
Qed.
Lemma first_byte_of_correct_witness : qfind_first_byte_of_nosse (replicate 256 7) (replicate 256 9) [1; 2; 3] [9; 8; 7; 3] = Ret (Some 2%nat).
Proof.
  rewrite (first_byte_of_correct (replicate 256 7) (replicate 256 9) [1; 2; 3] [9; 8; 7; 3]); try done.
  - apply Forall_replicate. by unfold byte.
  - by repeat constructor.
  - by repeat constructor.
Defined.
End Demo.

End RangeProof.
