(* ===== verification/Cursor.v ===== *)
(** raster/io/Cursor.h: reading through the chains of IOBuf.v. A cursor is a value
    that every operation takes and returns; a buffer the caller passes to be filled
    is returned as the bytes written to it. *)
From S2P Require Import Prelude IOBuf.
Import IOBuf.

Module Cursor.

Record cursor := mk_cursor { crtBuf_ : Z; offset_ : Z; buffer_ : Z }.

Definition new_cursor (buf : Z) : cursor := mk_cursor buf 0 buf.
Definition reset (buf : Z) (c : cursor) : cursor := mk_cursor buf 0 buf.

(** offset_ += n *)
Definition move (n : Z) (c : cursor) : cursor := mk_cursor (crtBuf_ c) (u64 (offset_ c + n)) (buffer_ c).

Definition data (c : cursor) : M ptr := b ← deref (crtBuf_ c); mret (padd (data_ b) (offset_ c)).
Definition length (c : cursor) : M Z := b ← deref (crtBuf_ c); mret (u64 (length_ b - offset_ c)).

Definition underflow {A} : M A := throw (Thrown "out_of_range: underflow").
Definition string_underflow {A} : M A := throw (Thrown "out_of_range: string underflow").
Definition string_overflow {A} : M A := throw (Thrown "length_error: string overflow").
Definition wrap_around {A} : M A := throw (Thrown "out_of_range: wrap-around").

Definition tryAdvanceBuffer (c : cursor) : M (bool * cursor) :=
  b ← deref (crtBuf_ c);
  let nextBuf := next_ b in
  if nextBuf =? buffer_ c then mret (false, mk_cursor (crtBuf_ c) (length_ b) (buffer_ c))
  else mret (true, mk_cursor nextBuf 0 (buffer_ c)).

(** ** Distances *)

(** for (otherBuf = otherBuf->next(); otherBuf != crtBuf_ && otherBuf != other.buffer_; ...) *)
Fixpoint minus_loop (fuel : nat) (len otherBuf stop1 stop2 : Z) : M (Z * Z) :=
  match fuel with
  | O => throw OutOfFuel
  | S fuel =>
      if (otherBuf =? stop1) || (otherBuf =? stop2) then mret (len, otherBuf) else
      b ← deref otherBuf;
      minus_loop fuel (u64 (len + length_ b)) (next_ b) stop1 stop2
  end.
(** *this - other *)
Definition minus (this other : cursor) : M Z :=
  if negb (crtBuf_ other =? crtBuf_ this) then
    b ← deref (crtBuf_ other);
    n ← chain_fuel;
    '(len, otherBuf) ← minus_loop n (u64 (length_ b - offset_ other)) (next_ b) (crtBuf_ this) (buffer_ other);
    if otherBuf =? buffer_ other then wrap_around else mret (u64 (len + offset_ this))
  else if offset_ this <? offset_ other then underflow
  else mret (offset_ this - offset_ other).

(** *this - buf, for an element of the chain *)
Fixpoint minus_buf_loop (fuel : nat) (this : cursor) (buf len curBuf : Z) : M Z :=
  match fuel with
  | O => throw OutOfFuel
  | S fuel =>
      if curBuf =? crtBuf_ this then mret len else
      b ← deref curBuf;
      if (next_ b =? buf) || (next_ b =? buffer_ this) then wrap_around
      else minus_buf_loop fuel this buf (u64 (len + length_ b)) (next_ b)
  end.
Definition minus_buf (this : cursor) (buf : Z) : M Z :=
  n ← chain_fuel;
  len ← minus_buf_loop n this buf 0 buf;
  mret (u64 (len + offset_ this)).

Definition totalLength (c : cursor) : M Z :=
  if crtBuf_ c =? buffer_ c then
    n ← computeChainDataLength (crtBuf_ c);
    mret (u64 (n - offset_ c))
  else
    b ← deref (buffer_ c);
    e ← deref (prev_ b);
    minus (mk_cursor (prev_ b) (length_ e) (prev_ b)) c.

(** while (buf != buffer_) *)
Fixpoint atEnd_loop (fuel : nat) (buf stop : Z) : M bool :=
  match fuel with
  | O => throw OutOfFuel
  | S fuel =>
      if buf =? stop then mret true else
      b ← deref buf;
      if 0 <? length_ b then mret false else atEnd_loop fuel (next_ b) stop
  end.
Definition isAtEnd (c : cursor) : M bool :=
  b ← deref (crtBuf_ c);
  if negb (offset_ c =? length_ b) then mret false else
  hd ← deref (buffer_ c);
  if crtBuf_ c =? prev_ hd then mret true else
  n ← chain_fuel;
  atEnd_loop n (next_ b) (buffer_ c).

Definition cursor_eqb (a b : cursor) : bool := (offset_ a =? offset_ b) && (crtBuf_ a =? crtBuf_ b).

(** ** Skipping and pulling *)

(** for (size_t available; (available = length()) < len; ) *)
Fixpoint skipAtMostSlow (fuel : nat) (c : cursor) (skipped len : Z) : M (Z * cursor) :=
  match fuel with
  | O => throw OutOfFuel
  | S fuel =>
      available ← length c;
      if available <? len then
        let skipped := u64 (skipped + available) in
        '(more, c) ← tryAdvanceBuffer c;
        if negb more then mret (skipped, c) else skipAtMostSlow fuel c skipped (len - available)
      else mret (u64 (skipped + len), move len c)
  end.
Definition skipAtMost (len : Z) (c : cursor) : M (Z * cursor) :=
  available ← length c;
  if len <=? available then mret (len, move len c) else
  n ← chain_fuel; skipAtMostSlow n c 0 len.
Definition skip (len : Z) (c : cursor) : M (unit * cursor) :=
  available ← length c;
  if len <=? available then mret (tt, move len c) else
  n ← chain_fuel;
  '(k, c) ← skipAtMostSlow n c 0 len;
  if negb (k =? len) then underflow else mret (tt, c).

(** memcpy(buf, data(), n) *)
Definition copy_out (c : cursor) (n : Z) : M (list Z) := p ← data c; load p n.

Fixpoint pullAtMostSlow (fuel : nat) (c : cursor) (buf : list Z) (copied len : Z) : M (list Z * Z * cursor) :=
  match fuel with
  | O => throw OutOfFuel
  | S fuel =>
      available ← length c;
      if available <? len then
        bs ← copy_out c available;
        let copied := u64 (copied + available) in
        '(more, c) ← tryAdvanceBuffer c;
        if negb more then mret (buf ++ bs, copied, c)
        else pullAtMostSlow fuel c (buf ++ bs) copied (len - available)
      else bs ← copy_out c len; mret (buf ++ bs, u64 (copied + len), move len c)
  end.
Definition pullAtMost (len : Z) (c : cursor) : M (list Z * Z * cursor) :=
  available ← length c;
  if len <=? available then bs ← copy_out c len; mret (bs, len, move len c) else
  n ← chain_fuel; pullAtMostSlow n c [] 0 len.
Definition pullSlow (len : Z) (c : cursor) : M (list Z * cursor) :=
  n ← chain_fuel;
  '(bs, k, c) ← pullAtMostSlow n c [] 0 len;
  if negb (k =? len) then underflow else mret (bs, c).
Definition pull (len : Z) (c : cursor) : M (list Z * cursor) :=
  available ← length c;
  if len <=? available then bs ← copy_out c len; mret (bs, move len c) else pullSlow len c.

(** ** Reading values *)

(** read<T>(), as the bytes of the value in memory; the host is little-endian, and
    Endian::big reverses them. *)
Definition read (size : Z) (c : cursor) : M (list Z * cursor) :=
  available ← length c;
  if size <=? available then bs ← copy_out c size; mret (bs, move size c) else pullSlow size c.
Definition le_value (bs : list Z) : Z := foldr (fun b v => b + 256 * v) 0 bs.
Definition readLE (size : Z) (c : cursor) : M (Z * cursor) := '(bs, c) ← read size c; mret (le_value bs, c).
Definition readBE (size : Z) (c : cursor) : M (Z * cursor) := '(bs, c) ← read size c; mret (le_value (rev bs), c).

Fixpoint readFixedStringSlow (fuel : nat) (c : cursor) (str : list Z) (len : Z) : M (list Z * cursor) :=
  match fuel with
  | O => throw OutOfFuel
  | S fuel =>
      available ← length c;
      if available <? len then
        bs ← copy_out c available;
        '(more, c) ← tryAdvanceBuffer c;
        if negb more then string_underflow else readFixedStringSlow fuel c (str ++ bs) (len - available)
      else bs ← copy_out c len; mret (str ++ bs, move len c)
  end.
(** [lim] is what a std::string can hold. *)
Definition readFixedString (lim : limits) (len : Z) (c : cursor) : M (list Z * cursor) :=
  _ ← lift (container_reserve lim len);
  available ← length c;
  if len <=? available then bs ← copy_out c len; mret (bs, move len c) else
  n ← chain_fuel; readFixedStringSlow n c [] len.

(** while (i < buflen && buf[i] != termChar), on the bytes from buf[i] on; termChar is
    a signed char and is compared with an unsigned byte. *)
Fixpoint scan (bs : list Z) (termChar i strlen maxLength : Z) : M Z :=
  match bs with
  | [] => mret i
  | b :: bs =>
      if b =? termChar then mret i else
      let i := i + 1 in
      if maxLength <=? u64 (strlen + i) then string_overflow else scan bs termChar i strlen maxLength
  end.
(** for (;;): every round that does not return advances to the next element. *)
Fixpoint readTerminated_loop (fuel : nat) (c : cursor) (str : list Z) (termChar maxLength : Z) : M (list Z * cursor) :=
  match fuel with
  | O => throw OutOfFuel
  | S fuel =>
      buflen ← length c;
      bs ← copy_out c buflen;
      i ← scan bs termChar 0 (Z.of_nat (List.length str)) maxLength;
      let str := str ++ take (Z.to_nat i) bs in
      if i <? buflen then '(_, c) ← skip (u64 (i + 1)) c; mret (str, c) else
      '(_, c) ← skip i c;
      '(more, c) ← tryAdvanceBuffer c;
      if negb more then string_underflow else readTerminated_loop fuel c str termChar maxLength
  end.
Definition readTerminatedString (termChar maxLength : Z) (c : cursor) : M (list Z * cursor) :=
  n ← chain_fuel; readTerminated_loop n c [] termChar maxLength.

(** peek(): what is left of the first element that is not at its end. *)
Fixpoint peek_loop (fuel : nat) (c : cursor) : M (ptr * Z * cursor) :=
  match fuel with
  | O => throw OutOfFuel
  | S fuel =>
      available ← length c;
      if available =? 0 then
        '(more, c) ← tryAdvanceBuffer c;
        if more : bool then peek_loop fuel c else p ← data c; mret (p, available, c)
      else p ← data c; mret (p, available, c)
  end.
Definition peek (c : cursor) : M (ptr * Z * cursor) := n ← chain_fuel; peek_loop n c.

(** ** Cloning *)

(** What is left of the current element, cut to [len] bytes if that is given, in the
    object [buf] the first time and in a new element at the end of its chain later. *)
Definition clone_part (first : bool) (buf : Z) (c : cursor) (len : option Z) : M unit :=
  q ← (if first then _ ← cloneOneInto (crtBuf_ c) buf; mret buf else cloneOne (crtBuf_ c));
  _ ← trimStart q (offset_ c);
  b ← deref q;
  _ ← match len with Some len => trimEnd q (u64 (length_ b - len)) | None => mret tt end;
  if first then mret tt else prependChain buf q.

(** for (int loopCount = 0; true; ++loopCount) *)
Fixpoint cloneAtMost_loop (fuel : nat) (first : bool) (buf : Z) (c : cursor) (copied len : Z) : M (Z * cursor) :=
  match fuel with
  | O => throw OutOfFuel
  | S fuel =>
      available ← length c;
      if len <=? available then
        _ ← clone_part first buf c (Some len);
        mret (u64 (copied + len), move len c)
      else
        _ ← clone_part first buf c None;
        let copied := u64 (copied + available) in
        '(more, c) ← tryAdvanceBuffer c;
        if negb more then mret (copied, c) else cloneAtMost_loop fuel false buf c copied (len - available)
  end.
(** buf = IOBuf(); the rounds are at most the elements of the cursor's chain. *)
Definition cloneAtMost (buf len : Z) (c : cursor) : M (Z * cursor) :=
  tmp ← fresh;
  _ ← construct_empty tmp;
  _ ← move_assign buf tmp;
  _ ← destroy_local tmp;
  n ← chain_fuel;
  cloneAtMost_loop n true buf c 0 len.
(** With a smart pointer, which is filled if it is null. *)
Definition cloneAtMost_ptr (buf : option Z) (len : Z) (c : cursor) : M (Z * Z * cursor) :=
  q ← match buf with Some q => mret q | None => q ← operator_new; _ ← construct_empty q; mret q end;
  '(k, c) ← cloneAtMost q len c;
  mret (q, k, c).
Definition clone_range (buf len : Z) (c : cursor) : M (unit * cursor) :=
  '(k, c) ← cloneAtMost buf len c;
  if negb (k =? len) then underflow else mret (tt, c).

End Cursor.
