(* ===== verification/CursorProof.v ===== *)
(** Cursors read a chain as the sequence of its bytes, however they are spread over
    its elements. *)
From S2P Require Import Prelude IOBuf IOBufInv IOBufChain IOBufMem IOBufLife IOBufOps IOBufSpec Cursor.
Import IOBuf.

Module CursorProof.
Import Cursor.
#[local] Abbreviation len := List.length.

(** ** Computations that only look at the heap *)

(** [m] leaves the heap [h] as it is and ends in [o]. *)
Definition gives {A} (m : M A) (h : heap) (o : outcome A) : Prop :=
  m h = match o with Ret a => Ret (a, h) | Err e => Err e end.

Lemma gives_ret {A} (a : A) h : gives (mret a) h (Ret a).
Proof. done. Qed.
Lemma gives_val {A} (a b : A) h : a = b → gives (mret a) h (Ret b).
Proof. by intros ->. Qed.
Lemma gives_throw {A} e h : gives (throw e : M A) h (Err e).
Proof. done. Qed.
Lemma gives_bind {A B} (m : M A) (f : A → M B) h a o : gives m h (Ret a) → gives (f a) h o → gives (m ≫= f) h o.
Proof. unfold gives, mbind, St_bind. by intros -> ->. Qed.
Lemma gives_bind_err {A B} (m : M A) (f : A → M B) h e : gives m h (Err e) → gives (m ≫= f) h (Err e).
Proof. unfold gives, mbind, St_bind. by intros ->. Qed.
Lemma gives_lift {A} (o : outcome A) h : gives (lift o : M A) h o.
Proof. by destruct o. Qed.
Lemma gives_deref p b h : bufs h !! p = Some b → gives (deref p) h (Ret b).
Proof. intros Hp. unfold gives, deref, mbind, St_bind, get, lift. by rewrite Hp. Qed.
Lemma gives_wp {A} (m : M A) (Q : A → Prop) h : wp m (fun a h' => h' = h ∧ Q a) h → ∃ a, gives m h (Ret a) ∧ Q a.
Proof. intros (a & h' & Hm & -> & HQ)%wp_elim. by exists a. Qed.

Ltac give := eapply gives_bind; [eassumption || apply gives_ret|]; cbn beta match.

(** ** Where a cursor is *)

Section cursor.
Context (U : gset Z) (h : heap) (Hok : ok U h).

Definition avail (c : cursor) : list Z := drop (Z.to_nat (offset_ c)) (bytes_at h (crtBuf_ c)).

(** The cursor is inside an element of the chain of [p], which the elements [B]
    follow. *)
Record at_ (p : Z) (L : list Z) (c : cursor) (B : list Z) : Prop := {
  at_chain : chain h p L;
  at_head : buffer_ c = p;
  at_split : ∃ A, p :: L = A ++ crtBuf_ c :: B;
  at_off : 0 ≤ offset_ c ≤ Z.of_nat (len (bytes_at h (crtBuf_ c)))
}.

Definition rest (c : cursor) (B : list Z) : list Z := avail c ++ contents h B.

Lemma bytes_at_len x b : bufs h !! x = Some b → Z.of_nat (len (bytes_at h x)) = length_ b ∧ 0 ≤ length_ b < 2 ^ 62.
Proof.
  intros Hx. pose proof (ok_geo _ _ _ _ Hok Hx) as Hg. unfold bytes_at. rewrite Hx, bytes_length by done. destruct Hg. lia.
Qed.

Lemma at_new p L : chain h p L → at_ p L (new_cursor p) L.
Proof. intros Hch. split; [done|done|by exists []|cbn; lia]. Qed.

Lemma at_buf p L c B : at_ p L c B → ∃ b, bufs h !! crtBuf_ c = Some b ∧ next_ b = default p (head B) ∧
  Z.of_nat (len (bytes_at h (crtBuf_ c))) = length_ b ∧ 0 ≤ length_ b < 2 ^ 62.
Proof.
  intros [Hch _ [A HA] _]. destruct (chain_bufs_in _ _ _ (crtBuf_ c) Hch) as [b Hb]; [rewrite HA; set_solver|].
  exists b. split; [done|]. split; [|by apply bytes_at_len].
  assert (path h (crtBuf_ c) B p) as Hp.
  { destruct Hch as [Hp _]. destruct A as [|a A]; cbn in HA; injection HA as -> HA; [by rewrite <- HA|].
    rewrite HA in Hp. by apply path_app in Hp as [_ Hp]. }
  apply path_first in Hp as (b' & Hb' & E)%next_of_some. congruence.
Qed.

Lemma avail_length p L c B : at_ p L c B → Z.of_nat (len (avail c)) = Z.of_nat (len (bytes_at h (crtBuf_ c))) - offset_ c.
Proof. intros [_ _ _ Ho]. unfold avail. rewrite length_drop. lia. Qed.

Lemma gives_length p L c B : at_ p L c B → gives (length c) h (Ret (Z.of_nat (len (avail c)))) ∧ Z.of_nat (len (avail c)) < 2 ^ 62.
Proof.
  intros Hc. destruct (at_buf _ _ _ _ Hc) as (b & Hb & _ & Hlen & Hr). pose proof (at_off _ _ _ _ Hc) as Ho.
  pose proof (avail_length _ _ _ _ Hc) as Ha. split; [|lia].
  eapply gives_bind; [by apply gives_deref|]. rewrite Ha, Hlen. rewrite u64_small by lia. done.
Qed.

Lemma gives_copy_out p L c B n : at_ p L c B → 0 ≤ n ≤ Z.of_nat (len (avail c)) → gives (copy_out c n) h (Ret (take (Z.to_nat n) (avail c))).
Proof.
  intros Hc Hn. destruct (at_buf _ _ _ _ Hc) as (b & Hb & _ & Hlen & Hr). pose proof (at_off _ _ _ _ Hc) as Ho.
  pose proof (avail_length _ _ _ _ Hc) as Ha. unfold copy_out, data. eapply gives_bind; [eapply gives_bind; [by apply gives_deref|done]|].
  unfold load. destruct (Z.eqb_spec n 0) as [->|Hn0]; [by rewrite take_0|].
  pose proof (ok_geo _ _ _ _ Hok Hb) as [Hl Hof He Hbl Hm]. destruct Hm as (l & Hl' & Hle); [lia|]. rewrite <- Hbl in Hl'.
  unfold gives, mbind, St_bind, get, lift. cbn [padd blk off]. rewrite Hl'. cbn [of_option].
  rewrite in_range_true by lia. unfold mret, St_ret. do 2 f_equal.
  unfold avail, bytes_at. rewrite Hb. unfold bytes. rewrite Hl'. cbn [default from_option option_rect]. unfold id, slice.
  rewrite Z2Nat.inj_add, <- drop_drop by lia. generalize (drop (Z.to_nat (off (data_ b))) l) as X. intros X.
  rewrite !take_drop_commute, take_take. do 2 f_equal. lia.
Qed.

Lemma at_move p L c B n : at_ p L c B → 0 ≤ n ≤ Z.of_nat (len (avail c)) →
  at_ p L (move n c) B ∧ rest (move n c) B = drop (Z.to_nat n) (rest c B).
Proof.
  intros Hc Hn. destruct (at_buf _ _ _ _ Hc) as (b & Hb & _ & Hlen & Hr). pose proof (avail_length _ _ _ _ Hc) as Ha.
  destruct Hc as [Hch Hh Hs Ho]. unfold move. rewrite u64_small by lia. split.
  - split; cbn; try done. lia.
  - unfold rest, avail. cbn. rewrite (drop_app_le (drop _ _)) by (rewrite length_drop; lia). rewrite drop_drop. do 3 f_equal. lia.
Qed.

Lemma gives_advance p L c B : at_ p L c B → match B with
  | [] => ∃ c', gives (tryAdvanceBuffer c) h (Ret (false, c')) ∧ at_ p L c' [] ∧ avail c' = []
  | x :: B' => ∃ c', gives (tryAdvanceBuffer c) h (Ret (true, c')) ∧ at_ p L c' B' ∧ avail c' = bytes_at h x
  end.
Proof.
  intros Hc. destruct (at_buf _ _ _ _ Hc) as (b & Hb & Hnext & Hlen & Hr). pose proof Hc as [Hch Hh [A HA] Ho].
  destruct B as [|x B']; (eexists; split; [eapply gives_bind; [by apply gives_deref|]; cbn beta|]).
  - rewrite Hnext, Hh. cbn [default head]. rewrite Z.eqb_refl. apply gives_ret.
  - split; [split; cbn; try done; [by exists A|lia]|]. unfold avail. cbn. apply drop_ge. lia.
  - assert (next_ b = x) as -> by exact Hnext. rewrite Hh. assert (x ≠ p) as Hx.
    { intros ->. destruct Hch as [_ Hnd]. rewrite HA in Hnd. destruct A as [|a A]; cbn in HA; injection HA as -> HA.
      - apply NoDup_cons in Hnd as [Hn _]. set_solver.
      - rewrite <- app_comm_cons in Hnd. apply NoDup_cons in Hnd as [Hn _]. set_solver. }
    cbn zeta. rewrite (proj2 (Z.eqb_neq x p) Hx). apply gives_ret.
  - split; [split; cbn; try done; [exists (A ++ [crtBuf_ c]); by rewrite <- (assoc_L (++))|lia]|]. unfold avail. cbn. by rewrite drop_0.
Qed.

Lemma gives_fuel p L c B : at_ p L c B → ∃ n, gives chain_fuel h (Ret n) ∧ (len B < n)%nat.
Proof.
  intros [Hch _ [A HA] _]. apply gives_wp. apply (wp_chain_fuel p L); [done|]. intros n Hn. split; [done|].
  apply (f_equal len) in HA. rewrite length_app in HA. cbn in HA. lia.
Qed.

(** ** Skipping and pulling *)

Definition to_take (n : Z) (l : list Z) : list Z := take (Z.to_nat n) l.
Definition to_drop (n : Z) (l : list Z) : list Z := drop (Z.to_nat n) l.

(** What one round of a loop over the elements sees: either the elements are
    exhausted, or the rest is split at the end of this element. *)
Lemma rest_nil c n : Z.of_nat (len (avail c)) < n → to_take n (rest c []) = avail c ∧ to_drop n (rest c []) = [].
Proof.
  intros Hn. unfold to_take, to_drop, rest. change (contents h []) with (@nil Z). rewrite app_nil_r.
  split; [apply take_ge; lia|apply drop_ge; lia].
Qed.
Lemma rest_cons p L c x B c' n : at_ p L c' B → avail c' = bytes_at h x → Z.of_nat (len (avail c)) < n →
  to_take n (rest c (x :: B)) = avail c ++ to_take (n - Z.of_nat (len (avail c))) (rest c' B) ∧
  to_drop n (rest c (x :: B)) = to_drop (n - Z.of_nat (len (avail c))) (rest c' B).
Proof.
  intros _ Ha Hn. unfold to_take, to_drop, rest. rewrite contents_cons, Ha.
  rewrite take_app, drop_app, take_ge, drop_ge by lia. cbn [app]. rewrite Z2Nat.inj_sub, Nat2Z.id by lia. done.
Qed.
Lemma rest_here p L c B n : at_ p L c B → 0 ≤ n ≤ Z.of_nat (len (avail c)) → to_take n (rest c B) = take (Z.to_nat n) (avail c).
Proof. intros _ Hn. unfold to_take, rest. apply take_app_le. lia. Qed.

Lemma skipSlow_spec B : ∀ p L c fuel skipped n, at_ p L c B → (len B < fuel)%nat → 0 ≤ n → 0 ≤ skipped → skipped + n < 2 ^ 64 →
  ∃ c' B' k, gives (skipAtMostSlow fuel c skipped n) h (Ret (k, c')) ∧ k = skipped + Z.of_nat (len (to_take n (rest c B))) ∧
    at_ p L c' B' ∧ rest c' B' = to_drop n (rest c B).
Proof.
  induction B as [|x B IH]; intros p L c fuel skipped n Hc Hf Hn Hs H64; (destruct fuel as [|fuel]; [lia|]); cbn [skipAtMostSlow];
    destruct (gives_length _ _ _ _ Hc) as [Hlen Hlt]; pose proof (gives_advance _ _ _ _ Hc) as (c' & Hadv & Hc' & Ha');
    (destruct (Z.ltb_spec (Z.of_nat (len (avail c))) n) as [Hlt'|Hge];
    [|destruct (at_move _ _ _ _ n Hc ltac:(lia)) as [Hm Hrm]; eexists _, _, _; split;
      [give; rewrite (proj2 (Z.ltb_ge _ _) Hge), u64_small by lia; apply gives_ret|]; rewrite (rest_here _ _ _ _ _ Hc), length_take by lia;
      split; [lia|done]]).
  - destruct (rest_nil c n Hlt') as [Ht Hd]. rewrite Ht, Hd. eexists c', [], _. split.
    + give. rewrite (proj2 (Z.ltb_lt _ _) Hlt'). give. apply gives_ret.
    + rewrite u64_small by lia. split; [done|]. split; [done|]. unfold rest. by rewrite Ha'.
  - destruct (rest_cons p L c x B c' n Hc' Ha' Hlt') as [Ht Hd]. rewrite Ht, Hd, length_app.
    destruct (IH p L c' fuel (skipped + Z.of_nat (len (avail c))) (n - Z.of_nat (len (avail c)))) as (c2 & B2 & k & Hk & Ek & H2 & Hr2);
      [done|cbn in *; lia|lia|lia|lia|].
    exists c2, B2, k. split; [|split; [lia|done]]. give. rewrite (proj2 (Z.ltb_lt _ _) Hlt'). give. cbn [negb]. by rewrite u64_small by lia.
Qed.

Lemma pullSlow_spec B : ∀ p L c fuel buf copied n, at_ p L c B → (len B < fuel)%nat → 0 ≤ n → 0 ≤ copied → copied + n < 2 ^ 64 →
  ∃ c' B' k bs, gives (pullAtMostSlow fuel c buf copied n) h (Ret (bs, k, c')) ∧ k = copied + Z.of_nat (len (to_take n (rest c B))) ∧
    bs = buf ++ to_take n (rest c B) ∧ at_ p L c' B' ∧ rest c' B' = to_drop n (rest c B).
Proof.
  induction B as [|x B IH]; intros p L c fuel buf copied n Hc Hf Hn Hs H64; (destruct fuel as [|fuel]; [lia|]); cbn [pullAtMostSlow];
    destruct (gives_length _ _ _ _ Hc) as [Hlen Hlt]; pose proof (gives_advance _ _ _ _ Hc) as (c' & Hadv & Hc' & Ha');
    (destruct (Z.ltb_spec (Z.of_nat (len (avail c))) n) as [Hlt'|Hge];
    [|destruct (at_move _ _ _ _ n Hc ltac:(lia)) as [Hm Hrm]; pose proof (gives_copy_out _ _ _ _ n Hc ltac:(lia)) as Hcopy; eexists _, _, _, _; split;
      [give; rewrite (proj2 (Z.ltb_ge _ _) Hge); give; rewrite u64_small by lia; apply gives_ret|]; rewrite (rest_here _ _ _ _ _ Hc), length_take by lia;
      split; [lia|done]]);
    pose proof (gives_copy_out _ _ _ _ (Z.of_nat (len (avail c))) Hc ltac:(lia)) as Hcopy; rewrite Nat2Z.id, take_ge in Hcopy by lia.
  - destruct (rest_nil c n Hlt') as [Ht Hd]. rewrite Ht, Hd. eexists c', [], _, _. split.
    + give. rewrite (proj2 (Z.ltb_lt _ _) Hlt'). give. give. apply gives_ret.
    + rewrite u64_small by lia. split; [done|]. split; [done|]. split; [done|]. unfold rest. by rewrite Ha'.
  - destruct (rest_cons p L c x B c' n Hc' Ha' Hlt') as [Ht Hd]. rewrite Ht, Hd, length_app.
    destruct (IH p L c' fuel (buf ++ avail c) (copied + Z.of_nat (len (avail c))) (n - Z.of_nat (len (avail c)))) as (c2 & B2 & k & bs & Hk & Ek & Eb & H2 & Hr2);
      [done|cbn in *; lia|lia|lia|lia|].
    exists c2, B2, k, bs. split; [|split; [lia|split; [by rewrite Eb, <- (assoc_L (++))|done]]].
    give. rewrite (proj2 (Z.ltb_lt _ _) Hlt'). give. give. cbn [negb]. by rewrite u64_small by lia.
Qed.

(** The first [n] bytes that are left, if there are so many. *)
Lemma take_all n (l : list Z) : 0 ≤ n → (Z.of_nat (len (to_take n l)) =? n) = (n <=? Z.of_nat (len l)).
Proof.
  intros Hn. unfold to_take. rewrite length_take. destruct (Z.leb_spec n (Z.of_nat (len l))); [apply Z.eqb_eq|apply Z.eqb_neq]; lia.
Qed.

Section at_cursor.
Context (p : Z) (L : list Z) (c : cursor) (B : list Z) (Hc : at_ p L c B).
Context (n : Z) (Hn : 0 ≤ n < 2 ^ 64).

Lemma skipAtMost_spec : ∃ c' B' k, gives (skipAtMost n c) h (Ret (k, c')) ∧ k = Z.of_nat (len (to_take n (rest c B))) ∧
  at_ p L c' B' ∧ rest c' B' = to_drop n (rest c B).
Proof.
  destruct (gives_length _ _ _ _ Hc) as [Hlen Hlt]. unfold skipAtMost. destruct (Z.leb_spec n (Z.of_nat (len (avail c)))) as [Hle|Hgt].
  - destruct (at_move _ _ _ _ n Hc ltac:(lia)) as [Hm Hrm]. eexists _, _, _. split; [give; rewrite (proj2 (Z.leb_le _ _) Hle); apply gives_ret|].
    rewrite (rest_here _ _ _ _ _ Hc), length_take by lia. split; [lia|done].
  - destruct (gives_fuel _ _ _ _ Hc) as (fuel & Hfuel & Hf). destruct (skipSlow_spec B p L c fuel 0 n) as (c' & B' & k & Hk & Ek & H'); [done|done|lia..|].
    exists c', B', k. split; [|split; [lia|done]]. give. rewrite (proj2 (Z.leb_gt _ _) Hgt). give. done.
Qed.

(** Operations that throw when bytes are missing: what the slow path of [skip] and
    [pull] gives. *)
Lemma skip_spec : if n <=? Z.of_nat (len (rest c B))
  then ∃ c' B', gives (skip n c) h (Ret (tt, c')) ∧ at_ p L c' B' ∧ rest c' B' = to_drop n (rest c B)
  else gives (skip n c) h (Err (Thrown "out_of_range: underflow")).
Proof.
  destruct (gives_length _ _ _ _ Hc) as [Hlen Hlt]. unfold skip. destruct (Z.leb_spec n (Z.of_nat (len (avail c)))) as [Hle|Hgt].
  - destruct (at_move _ _ _ _ n Hc ltac:(lia)) as [Hm Hrm].
    replace (n <=? Z.of_nat (len (rest c B))) with true by (symmetry; apply Z.leb_le; unfold rest; rewrite length_app; lia).
    eexists _, _. split; [give; rewrite (proj2 (Z.leb_le _ _) Hle); apply gives_ret|done].
  - destruct (gives_fuel _ _ _ _ Hc) as (fuel & Hfuel & Hf). destruct (skipSlow_spec B p L c fuel 0 n) as (c' & B' & k & Hk & Ek & H'); [done|done|lia..|].
    rewrite <- take_all by lia. replace (Z.of_nat (len (to_take n (rest c B)))) with k by lia. destruct (k =? n) eqn:E.
    + exists c', B'. split; [|done]. give. rewrite (proj2 (Z.leb_gt _ _) Hgt). give. give. by rewrite E.
    + give. rewrite (proj2 (Z.leb_gt _ _) Hgt). give. give. by rewrite E.
Qed.

Lemma pullAtMost_spec : ∃ c' B' k, gives (pullAtMost n c) h (Ret (to_take n (rest c B), k, c')) ∧
  k = Z.of_nat (len (to_take n (rest c B))) ∧ at_ p L c' B' ∧ rest c' B' = to_drop n (rest c B).
Proof.
  destruct (gives_length _ _ _ _ Hc) as [Hlen Hlt]. unfold pullAtMost. destruct (Z.leb_spec n (Z.of_nat (len (avail c)))) as [Hle|Hgt].
  - destruct (at_move _ _ _ _ n Hc ltac:(lia)) as [Hm Hrm]. pose proof (gives_copy_out _ _ _ _ n Hc ltac:(lia)) as Hcopy.
    rewrite (rest_here _ _ _ _ _ Hc) by lia. eexists _, _, _. split; [give; rewrite (proj2 (Z.leb_le _ _) Hle); give; apply gives_ret|].
    rewrite length_take. split; [lia|done].
  - destruct (gives_fuel _ _ _ _ Hc) as (fuel & Hfuel & Hf).
    destruct (pullSlow_spec B p L c fuel [] 0 n) as (c' & B' & k & bs & Hk & Ek & -> & H'); [done|done|lia..|].
    exists c', B', k. split; [|split; [lia|done]]. give. rewrite (proj2 (Z.leb_gt _ _) Hgt). give. done.
Qed.

Lemma pullSlow_gives : if n <=? Z.of_nat (len (rest c B))
  then ∃ c' B', gives (pullSlow n c) h (Ret (to_take n (rest c B), c')) ∧ at_ p L c' B' ∧ rest c' B' = to_drop n (rest c B)
  else gives (pullSlow n c) h (Err (Thrown "out_of_range: underflow")).
Proof.
  destruct (gives_fuel _ _ _ _ Hc) as (fuel & Hfuel & Hf). unfold pullSlow.
  destruct (pullSlow_spec B p L c fuel [] 0 n) as (c' & B' & k & bs & Hk & Ek & -> & H'); [done|done|lia..|].
  rewrite <- take_all by lia. replace (Z.of_nat (len (to_take n (rest c B)))) with k by lia. destruct (k =? n) eqn:E.
  - exists c', B'. split; [|done]. give. give. by rewrite E.
  - give. give. by rewrite E.
Qed.

Lemma pull_spec : if n <=? Z.of_nat (len (rest c B))
  then ∃ c' B', gives (pull n c) h (Ret (to_take n (rest c B), c')) ∧ at_ p L c' B' ∧ rest c' B' = to_drop n (rest c B)
  else gives (pull n c) h (Err (Thrown "out_of_range: underflow")).
Proof.
  destruct (gives_length _ _ _ _ Hc) as [Hlen Hlt]. unfold pull. destruct (Z.leb_spec n (Z.of_nat (len (avail c)))) as [Hle|Hgt].
  - destruct (at_move _ _ _ _ n Hc ltac:(lia)) as [Hm Hrm]. pose proof (gives_copy_out _ _ _ _ n Hc ltac:(lia)) as Hcopy.
    replace (n <=? Z.of_nat (len (rest c B))) with true by (symmetry; apply Z.leb_le; unfold rest; rewrite length_app; lia).
    rewrite (rest_here _ _ _ _ _ Hc) by lia. eexists _, _. split; [give; rewrite (proj2 (Z.leb_le _ _) Hle); give; apply gives_ret|done].
  - pose proof pullSlow_gives as Hslow. case_match.
    + destruct Hslow as (c' & B' & Hk & H'). exists c', B'. split; [|done]. give. by rewrite (proj2 (Z.leb_gt _ _) Hgt).
    + give. by rewrite (proj2 (Z.leb_gt _ _) Hgt).
Qed.
End at_cursor.

(** A fixed string is a pull with another message. *)
Lemma fixedSlow_spec B : ∀ p L c fuel str n, at_ p L c B → (len B < fuel)%nat → 0 ≤ n < 2 ^ 64 →
  if n <=? Z.of_nat (len (rest c B))
  then ∃ c' B', gives (readFixedStringSlow fuel c str n) h (Ret (str ++ to_take n (rest c B), c')) ∧ at_ p L c' B' ∧ rest c' B' = to_drop n (rest c B)
  else gives (readFixedStringSlow fuel c str n) h (Err (Thrown "out_of_range: string underflow")).
Proof.
  induction B as [|x B IH]; intros p L c fuel str n Hc Hf Hn; (destruct fuel as [|fuel]; [lia|]); cbn [readFixedStringSlow];
    destruct (gives_length _ _ _ _ Hc) as [Hlen Hlt]; pose proof (gives_advance _ _ _ _ Hc) as (c' & Hadv & Hc' & Ha');
    (destruct (Z.ltb_spec (Z.of_nat (len (avail c))) n) as [Hlt'|Hge];
    [|destruct (at_move _ _ _ _ n Hc ltac:(lia)) as [Hm Hrm]; pose proof (gives_copy_out _ _ _ _ n Hc ltac:(lia)) as Hcopy;
      replace (n <=? Z.of_nat (len (rest c _))) with true by (symmetry; apply Z.leb_le; unfold rest; rewrite length_app; lia);
      rewrite (rest_here _ _ _ _ _ Hc) by lia; eexists _, _; split;
      [give; rewrite (proj2 (Z.ltb_ge _ _) Hge); give; apply gives_ret|done]]);
    pose proof (gives_copy_out _ _ _ _ (Z.of_nat (len (avail c))) Hc ltac:(lia)) as Hcopy; rewrite Nat2Z.id, take_ge in Hcopy by lia.
  - replace (n <=? Z.of_nat (len (rest c []))) with false.
    2: { symmetry. apply Z.leb_gt. unfold rest. change (contents h []) with (@nil Z). rewrite app_nil_r. lia. }
    give. rewrite (proj2 (Z.ltb_lt _ _) Hlt'). give. give. apply gives_throw.
  - destruct (rest_cons p L c x B c' n Hc' Ha' Hlt') as [Ht Hd]. rewrite Ht, Hd.
    replace (n <=? Z.of_nat (len (rest c (x :: B)))) with (n - Z.of_nat (len (avail c)) <=? Z.of_nat (len (rest c' B))).
    2: { unfold rest. rewrite contents_cons, Ha', !length_app. destruct (Z.leb_spec (n - Z.of_nat (len (avail c))) (Z.of_nat (len (bytes_at h x) + len (contents h B))));
         symmetry; [apply Z.leb_le|apply Z.leb_gt]; lia. }
    specialize (IH p L c' fuel (str ++ avail c) (n - Z.of_nat (len (avail c))) Hc' ltac:(cbn in *; lia) ltac:(lia)). case_match.
    + destruct IH as (c2 & B2 & Hk & H2). exists c2, B2. split; [|done]. rewrite (assoc_L (++)).
      give. rewrite (proj2 (Z.ltb_lt _ _) Hlt'). give. give. done.
    + give. rewrite (proj2 (Z.ltb_lt _ _) Hlt'). give. give. done.
Qed.

Lemma fixed_spec p L c B lim n : at_ p L c B → 0 ≤ n < 2 ^ 64 → container_reserve lim n = Ret tt → if n <=? Z.of_nat (len (rest c B))
  then ∃ c' B', gives (readFixedString lim n c) h (Ret (to_take n (rest c B), c')) ∧ at_ p L c' B' ∧ rest c' B' = to_drop n (rest c B)
  else gives (readFixedString lim n c) h (Err (Thrown "out_of_range: string underflow")).
Proof.
  intros Hc Hn Hr. assert (gives (lift (container_reserve lim n)) h (Ret tt)) as Hres by (rewrite Hr; apply gives_lift).
  destruct (gives_length _ _ _ _ Hc) as [Hlen Hlt]. unfold readFixedString. destruct (Z.leb_spec n (Z.of_nat (len (avail c)))) as [Hle|Hgt].
  - destruct (at_move _ _ _ _ n Hc ltac:(lia)) as [Hm Hrm]. pose proof (gives_copy_out _ _ _ _ n Hc ltac:(lia)) as Hcopy.
    replace (n <=? Z.of_nat (len (rest c B))) with true by (symmetry; apply Z.leb_le; unfold rest; rewrite length_app; lia).
    rewrite (rest_here _ _ _ _ _ Hc) by lia. eexists _, _. split; [give; give; rewrite (proj2 (Z.leb_le _ _) Hle); give; apply gives_ret|done].
  - destruct (gives_fuel _ _ _ _ Hc) as (fuel & Hfuel & Hf). pose proof (fixedSlow_spec B p L c fuel [] n Hc Hf Hn) as Hslow. case_match.
    + destruct Hslow as (c' & B' & Hk & H'). exists c', B'. split; [|done]. give. give. rewrite (proj2 (Z.leb_gt _ _) Hgt). give. done.
    + give. give. rewrite (proj2 (Z.leb_gt _ _) Hgt). give. done.
Qed.

(** ** Terminated strings *)

(** The bytes before the first terminator, of which there may be less than
    [maxLength]; [k] were seen before. *)
Fixpoint terminated (l : list Z) (t k maxLength : Z) : outcome (list Z * list Z) :=
  match l with
  | [] => Err (Thrown "out_of_range: string underflow")
  | b :: l =>
      if b =? t then Ret ([], l) else
      if maxLength <=? k + 1 then Err (Thrown "length_error: string overflow") else
      '(s, r) ← terminated l t (k + 1) maxLength; Ret (b :: s, r)
  end.

(** Scanning one element. *)
Lemma scan_spec bs t i k maxLength : 0 ≤ k → 0 ≤ i → k + i + Z.of_nat (len bs) < 2 ^ 64 →
  (gives (scan bs t i k maxLength) h (Err (Thrown "length_error: string overflow")) ∧
   ∀ more, terminated (bs ++ more) t (k + i) maxLength = Err (Thrown "length_error: string overflow")) ∨
  (∃ pre post, bs = pre ++ t :: post ∧ gives (scan bs t i k maxLength) h (Ret (i + Z.of_nat (len pre))) ∧
   ∀ more, terminated (bs ++ more) t (k + i) maxLength = Ret (pre, post ++ more)) ∨
  (gives (scan bs t i k maxLength) h (Ret (i + Z.of_nat (len bs))) ∧
   ∀ more, terminated (bs ++ more) t (k + i) maxLength =
     '(s, r) ← terminated more t (k + i + Z.of_nat (len bs)) maxLength; Ret (bs ++ s, r)).
Proof.
  revert i. induction bs as [|b bs IH]; intros i Hk Hi H64; cbn [scan].
  - right. right. cbn. rewrite !Z.add_0_r. split; [done|]. intros more. by destruct (terminated more t (k + i) maxLength) as [[]|].
  - cbn [app terminated]. destruct (Z.eqb_spec b t) as [->|Hne].
    { right. left. exists [], bs. cbn. rewrite Z.add_0_r. done. }
    cbn [len] in H64. rewrite u64_small, (Z.add_assoc k i 1) by lia. destruct (maxLength <=? k + i + 1) eqn:E.
    { left. split; [apply gives_throw|done]. }
    destruct (IH (i + 1) ltac:(lia) ltac:(lia) ltac:(lia)) as [[Hs Ht]|[(pre & post & -> & Hs & Ht)|[Hs Ht]]]; rewrite (Z.add_assoc k i 1) in Ht.
    + left. split; [done|]. intros more. by rewrite Ht.
    + right. left. exists (b :: pre), post. split; [done|]. split; [|intros more; by rewrite Ht].
      cbn [len]. by replace (i + Z.of_nat (S (len pre))) with (i + 1 + Z.of_nat (len pre)) by lia.
    + right. right. cbn [len]. split; [by replace (i + Z.of_nat (S (len bs))) with (i + 1 + Z.of_nat (len bs)) by lia|].
      intros more. rewrite Ht. replace (k + i + Z.of_nat (S (len bs))) with (k + i + 1 + Z.of_nat (len bs)) by lia.
      by destruct (terminated more t _ maxLength) as [[s' r]|].
Qed.

(** One round of the loop, by what the scan finds. *)
Section round.
Context (p : Z) (L : list Z) (c : cursor) (B : list Z) (Hc : at_ p L c B).
Context (fuel : nat) (str : list Z) (t maxLength : Z).

Lemma gives_all : gives (copy_out c (Z.of_nat (len (avail c)))) h (Ret (avail c)).
Proof.
  pose proof (gives_copy_out _ _ _ _ (Z.of_nat (len (avail c))) Hc ltac:(lia)) as Hcopy. by rewrite Nat2Z.id, take_ge in Hcopy by lia.
Qed.

Lemma round_found pre post : avail c = pre ++ t :: post →
  gives (scan (avail c) t 0 (Z.of_nat (len str)) maxLength) h (Ret (Z.of_nat (len pre))) →
  ∃ c' B', gives (readTerminated_loop (S fuel) c str t maxLength) h (Ret (str ++ pre, c')) ∧ at_ p L c' B' ∧ rest c' B' = post ++ contents h B.
Proof.
  intros Eb Hs. destruct (gives_length _ _ _ _ Hc) as [Hlen Hlt]. pose proof gives_all as Hcopy.
  assert (Z.of_nat (len (avail c)) = Z.of_nat (len pre) + 1 + Z.of_nat (len post)) as El by (rewrite Eb, length_app; cbn; lia).
  pose proof (skip_spec p L c _ Hc (Z.of_nat (len pre) + 1) ltac:(lia)) as Hskip.
  rewrite (proj2 (Z.leb_le _ _)) in Hskip by (unfold rest; rewrite length_app; lia).
  destruct Hskip as (c' & B' & Hskip & Hc' & Hr'). exists c', B'. split; [|split; [done|]].
  - cbn [readTerminated_loop]. give. give. give. rewrite (proj2 (Z.ltb_lt _ _)) by lia. rewrite u64_small by lia. give.
    rewrite Nat2Z.id, Eb, take_app_length. apply gives_ret.
  - rewrite Hr'. unfold to_drop, rest. rewrite Eb. replace (Z.to_nat (Z.of_nat (len pre) + 1)) with (len (pre ++ [t])) by (rewrite length_app; cbn; lia).
    replace ((pre ++ t :: post) ++ contents h B) with ((pre ++ [t]) ++ post ++ contents h B) by (by rewrite <- !(assoc_L (++))).
    apply drop_app_length.
Qed.

Lemma round_all : gives (scan (avail c) t 0 (Z.of_nat (len str)) maxLength) h (Ret (Z.of_nat (len (avail c)))) →
  match B with
  | [] => gives (readTerminated_loop (S fuel) c str t maxLength) h (Err (Thrown "out_of_range: string underflow"))
  | x :: B' => ∃ c', at_ p L c' B' ∧ avail c' = bytes_at h x ∧
      ∀ o, gives (readTerminated_loop fuel c' (str ++ avail c) t maxLength) h o → gives (readTerminated_loop (S fuel) c str t maxLength) h o
  end.
Proof.
  intros Hs. destruct (gives_length _ _ _ _ Hc) as [Hlen Hlt]. pose proof gives_all as Hcopy.
  assert (gives (skip (Z.of_nat (len (avail c))) c) h (Ret (tt, move (Z.of_nat (len (avail c))) c))) as Hskip.
  { unfold skip. give. by rewrite (proj2 (Z.leb_le _ _)) by lia. }
  destruct (at_move _ _ _ _ (Z.of_nat (len (avail c))) Hc ltac:(lia)) as [Hm _]. pose proof (gives_advance _ _ _ _ Hm) as Hadv.
  destruct B as [|x B'].
  - destruct Hadv as (c' & Hadv & _). cbn [readTerminated_loop]. give. give. give. rewrite Z.ltb_irrefl. give. give. apply gives_throw.
  - destruct Hadv as (c' & Hadv & Hc' & Ha'). exists c'. split; [done|]. split; [done|]. intros o Ho.
    cbn [readTerminated_loop]. give. give. give. rewrite Z.ltb_irrefl. give. give. by rewrite Nat2Z.id, take_ge by lia.
Qed.
End round.

Lemma terminated_loop_spec B : ∀ p L c fuel str t maxLength, at_ p L c B → (len B < fuel)%nat →
  Z.of_nat (len str) + Z.of_nat (len (rest c B)) < 2 ^ 64 →
  match terminated (rest c B) t (Z.of_nat (len str)) maxLength with
  | Ret (s, r) => ∃ c' B', gives (readTerminated_loop fuel c str t maxLength) h (Ret (str ++ s, c')) ∧ at_ p L c' B' ∧ rest c' B' = r
  | Err e => gives (readTerminated_loop fuel c str t maxLength) h (Err e)
  end.
Proof.
  induction B as [|x B IH]; intros p L c fuel str t maxLength Hc Hf H64; (destruct fuel as [|fuel]; [lia|]);
    pose proof (gives_length _ _ _ _ Hc) as [Hlen Hlt]; pose proof (gives_all _ _ _ _ Hc) as Hcopy;
    pose proof (fun Hs => round_all p L c _ Hc fuel str t maxLength Hs) as Hall;
    unfold rest at 1 in H64; rewrite length_app in H64;
    (destruct (scan_spec (avail c) t 0 (Z.of_nat (len str)) maxLength) as [[Hs Ht]|[(pre & post & Eb & Hs & Ht)|[Hs Ht]]]; [lia..| | |];
    rewrite Z.add_0_r in Ht; unfold rest at 1; rewrite Ht;
    [cbn [readTerminated_loop]; give; give; by apply gives_bind_err|rewrite Z.add_0_l in Hs; by apply (round_found p L c _ Hc fuel str t maxLength pre post)|]).
  - by apply Hall.
  - destruct (Hall Hs) as (c' & Hc' & Ha' & Hgo). clear Hall. rewrite contents_cons, length_app in H64.
    specialize (IH p L c' fuel (str ++ avail c) t maxLength Hc' ltac:(cbn in *; lia)).
    unfold rest at 1 2 in IH. rewrite Ha', !length_app in IH. rewrite contents_cons. specialize (IH ltac:(lia)). rewrite Nat2Z.inj_add in IH.
    destruct (terminated _ t _ maxLength) as [[s' r]|e]; cbn [mbind outcome_bind].
    + destruct IH as (c2 & B2 & Hk & H2). exists c2, B2. split; [|done]. rewrite (assoc_L (++)). by apply Hgo.
    + by apply Hgo.
Qed.

Lemma readTerminated_spec p L c B t maxLength : at_ p L c B → Z.of_nat (len (rest c B)) < 2 ^ 64 →
  match terminated (rest c B) t 0 maxLength with
  | Ret (s, r) => ∃ c' B', gives (readTerminatedString t maxLength c) h (Ret (s, c')) ∧ at_ p L c' B' ∧ rest c' B' = r
  | Err e => gives (readTerminatedString t maxLength c) h (Err e)
  end.
Proof.
  intros Hc H64. destruct (gives_fuel _ _ _ _ Hc) as (fuel & Hfuel & Hf).
  pose proof (terminated_loop_spec B p L c fuel [] t maxLength Hc Hf ltac:(cbn; lia)) as Hloop. cbn [len] in Hloop.
  change (Z.of_nat 0) with 0 in Hloop. unfold readTerminatedString. destruct (terminated (rest c B) t 0 maxLength) as [[s' r]|e].
  - destruct Hloop as (c' & B' & Hk & H'). exists c', B'. split; [|done]. give. done.
  - give. done.
Qed.

(** ** Distances and the end *)

Lemma path_next w l y : path h w l y → ∃ b, bufs h !! w = Some b ∧ next_ b = default y (head l).
Proof. intros Hp. by apply next_of_some, path_first with (l := l). Qed.

Lemma minus_loop_spec M : ∀ w y B' q fuel k, path h w (M ++ y :: B') q → y ∉ M → q ∉ M → (len M < fuel)%nat →
  0 ≤ k → k + Z.of_nat (len (contents h M)) < 2 ^ 64 →
  gives (minus_loop fuel k (default q (head (M ++ y :: B'))) y q) h (Ret (k + Z.of_nat (len (contents h M)), y)).
Proof.
  induction M as [|x M IH]; intros w y B' q fuel k Hp Hy Hq Hf Hk H64; (destruct fuel as [|fuel]; [lia|]).
  - change (default q (head ([] ++ y :: B'))) with y. cbn [minus_loop]. rewrite Z.eqb_refl. change (contents h []) with (@nil Z). cbn. by rewrite Z.add_0_r.
  - change (default q (head ((x :: M) ++ y :: B'))) with x. cbn [minus_loop]. destruct Hp as [_ Hp].
    rewrite (proj2 (Z.eqb_neq x y)), (proj2 (Z.eqb_neq x q)) by set_solver. cbn [orb].
    destruct (path_next _ _ _ Hp) as (b & Hb & Hn). eapply gives_bind; [by apply gives_deref|]. rewrite Hn.
    destruct (bytes_at_len _ _ Hb) as [El Hr]. rewrite contents_cons, length_app in *. rewrite u64_small by lia.
    replace (k + Z.of_nat (len (bytes_at h x) + len (contents h M))) with (k + length_ b + Z.of_nat (len (contents h M))) by lia.
    apply (IH x); [done|set_solver|set_solver|cbn in *; lia|lia|lia].
Qed.

Lemma at_path p L c B : at_ p L c B → path h (crtBuf_ c) B p ∧ p ∉ B ∧ NoDup (crtBuf_ c :: B).
Proof.
  intros [[Hp Hnd] _ [A HA] _]. rewrite HA in Hnd. destruct A as [|a A]; cbn in HA; injection HA as -> HA.
  - rewrite HA in Hp. split; [done|]. split; [|done]. by apply NoDup_cons in Hnd as [? _].
  - rewrite HA in Hp. apply path_app in Hp as [_ Hp]. split; [done|]. split; [|by apply NoDup_app in Hnd as (_ & _ & ?)].
    rewrite <- app_comm_cons in Hnd. apply NoDup_cons in Hnd as [Hn _]. set_solver.
Qed.

(** From [c] to a place in a later element. *)
Lemma minus_later p L c B M y B' o this : at_ p L c B → B = M ++ y :: B' → crtBuf_ this = y → offset_ this = o → 0 ≤ o →
  Z.of_nat (len (avail c)) + Z.of_nat (len (contents h M)) + o < 2 ^ 64 →
  gives (minus this c) h (Ret (Z.of_nat (len (avail c)) + Z.of_nat (len (contents h M)) + o)).
Proof.
  intros Hc -> Hy Ho Hpos H64. destruct (at_path _ _ _ _ Hc) as (Hp & Hpn & Hnd). destruct (at_buf _ _ _ _ Hc) as (b & Hb & Hn & El & Hr).
  pose proof (avail_length _ _ _ _ Hc) as Ha. pose proof (at_off _ _ _ _ Hc) as Hof. destruct (gives_fuel _ _ _ _ Hc) as (fuel & Hfuel & Hf).
  apply NoDup_cons in Hnd as [Hcn Hnd]. apply NoDup_app in Hnd as (_ & Hdis & Hnd). unfold minus. rewrite Hy, Ho.
  rewrite (proj2 (Z.eqb_neq (crtBuf_ c) y)) by set_solver. cbn [negb]. eapply gives_bind; [by apply gives_deref|]. give.
  assert (buffer_ c = p) as -> by apply Hc. rewrite Hn. rewrite length_app in Hf. rewrite u64_small by lia.
  eapply gives_bind; [apply (minus_loop_spec M (crtBuf_ c)); [done| |set_solver|lia|lia|lia]|].
  { intros Hin. apply (Hdis _ Hin). set_solver. }
  cbn beta match. rewrite (proj2 (Z.eqb_neq y p)) by set_solver. rewrite u64_small by lia. apply gives_val. lia.
Qed.

Lemma totalLength_spec p L c B : at_ p L c B → Z.of_nat (len (contents h (p :: L))) < 2 ^ 64 →
  gives (totalLength c) h (Ret (Z.of_nat (len (rest c B)))).
Proof.
  intros Hc H64. pose proof Hc as [Hch Hh [A HA] Hof]. pose proof (avail_length _ _ _ _ Hc) as Ha.
  assert (Z.of_nat (len (rest c B)) = Z.of_nat (len (avail c)) + Z.of_nat (len (contents h B))) as Er by (unfold rest; rewrite length_app; lia).
  unfold totalLength. rewrite Hh. destruct (Z.eqb_spec (crtBuf_ c) p) as [E|E].
  - assert (B = L) as ->.
    { destruct A as [|a A]; cbn in HA; injection HA as -> HA; [done|]. exfalso. destruct Hch as [_ Hnd]. rewrite HA, E in Hnd.
      apply NoDup_cons in Hnd as [Hn _]. set_solver. }
    rewrite E. destruct (gives_wp (computeChainDataLength p) (fun n => n = Z.of_nat (len (contents h (p :: L)))) h) as (n & Hn & ->).
    { by apply (wp_computeChainDataLength (fun _ _ => 0) U p L). }
    give. rewrite contents_cons, length_app in *. rewrite E in Ha. rewrite u64_small by lia. apply gives_val. lia.
  - destruct (chain_last _ _ _ Hch) as (b & e & Hb & Hprev & He). eapply gives_bind; [by apply gives_deref|]. rewrite Hprev.
    eapply gives_bind; [by apply gives_deref|]. cbn beta. destruct (bytes_at_len _ _ He) as [Ee He'].
    assert (lst p L = lst (crtBuf_ c) B) as El.
    { destruct A as [|a A]; cbn in HA; injection HA as -> HA; [by rewrite HA|]. by rewrite HA, lst_app. }
    assert (contents h (p :: L) = contents h A ++ contents h (crtBuf_ c :: B)) as Eall by (by rewrite HA, contents_app).
    rewrite (contents_cons h (crtBuf_ c)) in Eall. apply (f_equal len) in Eall. rewrite !length_app in Eall.
    destruct B as [|x B' _] using rev_ind.
    + cbn in El. unfold minus. cbn [crtBuf_ offset_]. rewrite El, Z.eqb_refl. cbn [negb]. rewrite El in *.
      rewrite (proj2 (Z.ltb_ge _ _)) by lia. apply gives_val. change (contents h []) with (@nil Z) in Er. cbn in Er. lia.
    + rewrite lst_app in El. cbn in El. rewrite El in *. rewrite contents_app, length_app, (contents_cons h x), length_app in Er, Eall.
      change (contents h []) with (@nil Z) in Er, Eall. cbn in Er, Eall.
      pose proof (minus_later p L c (B' ++ [x]) B' x [] (length_ e) (mk_cursor x (length_ e) x) Hc eq_refl eq_refl eq_refl ltac:(lia) ltac:(lia)) as Hm.
      rewrite Er. replace (Z.of_nat (len (avail c)) + Z.of_nat (len (contents h B') + (len (bytes_at h x) + 0)))
        with (Z.of_nat (len (avail c)) + Z.of_nat (len (contents h B')) + length_ e) by lia. exact Hm.
Qed.

Lemma atEnd_loop_spec B : ∀ w q fuel, path h w B q → q ∉ B → (len B < fuel)%nat →
  gives (atEnd_loop fuel (default q (head B)) q) h (Ret (bool_decide (contents h B = []))).
Proof.
  induction B as [|x B IH]; intros w q fuel Hp Hq Hf; (destruct fuel as [|fuel]; [lia|]).
  - change (default q (head [])) with q. cbn [atEnd_loop]. rewrite Z.eqb_refl. by rewrite bool_decide_true.
  - change (default q (head (x :: B))) with x. cbn [atEnd_loop]. rewrite (proj2 (Z.eqb_neq x q)) by set_solver. destruct Hp as [_ Hp].
    destruct (path_next _ _ _ Hp) as (b & Hb & Hn). eapply gives_bind; [by apply gives_deref|]. destruct (bytes_at_len _ _ Hb) as [El Hr].
    rewrite contents_cons. destruct (Z.ltb_spec 0 (length_ b)).
    + rewrite bool_decide_false; [apply gives_ret|]. intros E%(f_equal len). rewrite length_app in E. cbn in E. lia.
    + rewrite Hn. rewrite (nil_length_inv (bytes_at h x)) by lia. cbn [app]. apply (IH x); [done|set_solver|cbn in *; lia].
Qed.

Lemma isAtEnd_spec p L c B : at_ p L c B → gives (isAtEnd c) h (Ret (bool_decide (rest c B = []))).
Proof.
  intros Hc. destruct (at_path _ _ _ _ Hc) as (Hp & Hpn & Hnd). destruct (at_buf _ _ _ _ Hc) as (b & Hb & Hn & El & Hr).
  pose proof (avail_length _ _ _ _ Hc) as Ha. pose proof Hc as [Hch Hh [A HA] Hof]. unfold isAtEnd.
  eapply gives_bind; [by apply gives_deref|]. cbn beta. destruct (Z.eqb_spec (offset_ c) (length_ b)) as [E|E]; cbn [negb].
  2: { rewrite bool_decide_false; [apply gives_ret|]. unfold rest. intros E'%(f_equal len). rewrite length_app in E'. cbn in E'. lia. }
  unfold rest. rewrite (nil_length_inv (avail c)) by lia. cbn [app]. destruct (chain_last _ _ _ Hch) as (hd & e & Hhd & Hprev & He).
  rewrite Hh. eapply gives_bind; [by apply gives_deref|]. cbn beta. rewrite Hprev.
  assert (lst p L = lst (crtBuf_ c) B) as Elst.
  { destruct A as [|a A]; cbn in HA; injection HA as -> HA; [by rewrite HA|]. by rewrite HA, lst_app. }
  rewrite Elst. destruct B as [|x B].
  - cbn [lst]. rewrite Z.eqb_refl. by rewrite bool_decide_true.
  - rewrite (proj2 (Z.eqb_neq (crtBuf_ c) (lst (crtBuf_ c) (x :: B)))).
    2: { apply NoDup_cons in Hnd as [Hcn _]. intros E'. apply Hcn. rewrite E'. cbn [lst]. apply lst_in. }
    destruct (gives_fuel _ _ _ _ Hc) as (fuel & Hfuel & Hf). give. rewrite Hn. by apply (atEnd_loop_spec (x :: B) (crtBuf_ c)).
Qed.

(** ** From the start of the chain *)

Lemma minus_start p L c B : at_ p L c B → Z.of_nat (len (contents h (p :: L))) < 2 ^ 64 →
  gives (minus c (new_cursor p)) h (Ret (Z.of_nat (len (contents h (p :: L))) - Z.of_nat (len (rest c B)))).
Proof.
  intros Hc H64. pose proof Hc as [Hch Hh [A HA] Hof]. pose proof (avail_length _ _ _ _ Hc) as Ha.
  unfold rest. rewrite length_app. destruct A as [|a A]; cbn in HA; injection HA as E HA.
  - unfold minus. cbn [new_cursor crtBuf_ offset_]. rewrite E, Z.eqb_refl. cbn [negb]. rewrite (proj2 (Z.ltb_ge _ _)) by lia.
    apply gives_val. rewrite HA, contents_cons, length_app. lia.
  - subst a. pose proof (at_new p L Hch) as Hnew. pose proof (avail_length _ _ _ _ Hnew) as Han. cbn [new_cursor crtBuf_ offset_] in Han.
    assert (contents h (p :: L) = bytes_at h p ++ contents h A ++ bytes_at h (crtBuf_ c) ++ contents h B) as Eall
      by (by rewrite HA, contents_cons, contents_app, contents_cons).
    apply (f_equal len) in Eall. rewrite !length_app in Eall.
    pose proof (minus_later p L (new_cursor p) L A (crtBuf_ c) B (offset_ c) c Hnew HA eq_refl eq_refl ltac:(lia) ltac:(lia)) as Hm.
    rewrite Eall. replace (Z.of_nat _ - Z.of_nat _) with (Z.of_nat (len (avail (new_cursor p))) + Z.of_nat (len (contents h A)) + offset_ c) by lia.
    exact Hm.
Qed.

(** operator-(buf) from an element [x] that is not after the cursor's; [y] are the
    elements up to it. *)
Lemma minus_buf_loop_spec this M : ∀ x B fuel p k, path h x (M ++ crtBuf_ this :: B) p → NoDup (x :: M ++ crtBuf_ this :: B) →
  buffer_ this = p → p ∉ M ++ crtBuf_ this :: B → (len M < fuel)%nat → 0 ≤ k →
  k + Z.of_nat (len (bytes_at h x)) + Z.of_nat (len (contents h M)) < 2 ^ 64 →
  gives (minus_buf_loop (S fuel) this p k x) h (Ret (k + Z.of_nat (len (bytes_at h x)) + Z.of_nat (len (contents h M)))).
Proof.
  induction M as [|y M IH]; intros x B fuel p k Hp Hnd Hb Hn Hf Hk H64; cbn [minus_buf_loop];
    (destruct (path_next _ _ _ Hp) as (b & Hbx & Hnext)); (destruct (bytes_at_len _ _ Hbx) as [El Hr]); rewrite Hb;
    (rewrite (proj2 (Z.eqb_neq x (crtBuf_ this))) by (apply NoDup_cons in Hnd as [Hx _]; set_solver));
    (eapply gives_bind; [by apply gives_deref|]); rewrite Hnext.
  - change (default p (list.head ([] ++ crtBuf_ this :: B))) with (crtBuf_ this).
    rewrite (proj2 (Z.eqb_neq (crtBuf_ this) p)) by set_solver. cbn [orb]. destruct fuel as [|fuel]; [cbn in Hf; lia|]. cbn [minus_buf_loop].
    rewrite Z.eqb_refl, u64_small by (change (contents h []) with (@nil Z) in H64; cbn in H64; lia).
    apply gives_val. change (contents h []) with (@nil Z). cbn. lia.
  - change (default p (list.head ((y :: M) ++ crtBuf_ this :: B))) with y.
    rewrite (proj2 (Z.eqb_neq y p)) by set_solver. cbn [orb]. destruct fuel as [|fuel]; [lia|].
    rewrite contents_cons, length_app in *. rewrite u64_small by lia. destruct Hp as [_ Hp].
    replace (k + _ + _) with (k + length_ b + Z.of_nat (len (bytes_at h y)) + Z.of_nat (len (contents h M))) by lia.
    apply (IH y B); [done|by apply NoDup_cons in Hnd as [_ Hnd]|done|set_solver|cbn in *; lia|lia|lia].
Qed.

Lemma minus_buf_start p L c B : at_ p L c B → Z.of_nat (len (contents h (p :: L))) < 2 ^ 64 →
  gives (minus_buf c p) h (Ret (Z.of_nat (len (contents h (p :: L))) - Z.of_nat (len (rest c B)))).
Proof.
  intros Hc H64. pose proof Hc as [Hch Hh [A HA] Hof]. pose proof (avail_length _ _ _ _ Hc) as Ha. unfold minus_buf.
  destruct (gives_fuel _ _ _ _ (at_new p L Hch)) as (fuel & Hfuel & Hf). give. destruct fuel as [|fuel]; [lia|].
  unfold rest. rewrite length_app. destruct A as [|a A]; cbn in HA; injection HA as E HA.
  - cbn [minus_buf_loop]. rewrite E, Z.eqb_refl. rewrite <- E in *. rewrite HA, contents_cons, length_app in *.
    give. rewrite u64_small by lia. apply gives_val. lia.
  - subst a. assert (contents h (p :: L) = bytes_at h p ++ contents h A ++ bytes_at h (crtBuf_ c) ++ contents h B) as Eall
      by (by rewrite HA, contents_cons, contents_app, contents_cons).
    apply (f_equal len) in Eall. rewrite !length_app in Eall. destruct Hch as [Hp Hnd]. rewrite HA in Hp, Hnd, Hf.
    rewrite length_app in Hf. cbn in Hf. pose proof Hnd as [Hpn _]%NoDup_cons.
    eapply gives_bind; [by apply (minus_buf_loop_spec c A p B fuel p 0); [..|lia|lia|lia]|]. cbn beta. rewrite u64_small by lia. apply gives_val. lia.
Qed.

(** ** Peeking *)

Lemma gives_data p L c B : at_ p L c B →
  ∃ q, gives (data c) h (Ret q) ∧ gives (load q (Z.of_nat (len (avail c)))) h (Ret (avail c)).
Proof.
  intros Hc. pose proof (gives_all _ _ _ _ Hc) as Hcopy. destruct (at_buf _ _ _ _ Hc) as (b & Hb & _).
  assert (gives (data c) h (Ret (padd (data_ b) (offset_ c)))) as Hd by (eapply gives_bind; [by apply gives_deref|done]).
  eexists. split; [exact Hd|]. unfold copy_out in Hcopy. unfold gives, mbind, St_bind in *. by rewrite Hd in Hcopy.
Qed.

Lemma peek_loop_spec B : ∀ p L c fuel, at_ p L c B → (len B < fuel)%nat →
  ∃ q c' B', gives (peek_loop fuel c) h (Ret (q, Z.of_nat (len (avail c')), c')) ∧ gives (data c') h (Ret q) ∧
    gives (load q (Z.of_nat (len (avail c')))) h (Ret (avail c')) ∧
    (avail c' = [] → contents h B' = []) ∧ at_ p L c' B' ∧ rest c' B' = rest c B.
Proof.
  induction B as [|x B IH]; intros p L c fuel Hc Hf; (destruct fuel as [|fuel]; [lia|]); cbn [peek_loop];
    destruct (gives_length _ _ _ _ Hc) as [Hlen Hlt]; pose proof (gives_advance _ _ _ _ Hc) as (c' & Hadv & Hc' & Ha');
    (destruct (Z.eqb_spec (Z.of_nat (len (avail c))) 0) as [E|E];
    [|destruct (gives_data _ _ _ _ Hc) as (q & Hq & Hl); exists q, c; eexists; split;
      [give; rewrite (proj2 (Z.eqb_neq _ _) E); give; apply gives_ret|]; split; [done|]; split; [done|]; split; [by intros E'; rewrite E' in E|done]]);
    pose proof (nil_length_inv (avail c) ltac:(lia)) as Hnil.
  - destruct (gives_data _ _ _ _ Hc') as (q & Hq & Hl). exists q, c', []. rewrite Ha' in *. split; [|split; [done|split; [done|split; [done|split; [done|]]]]].
    + give. rewrite E. cbn [Z.eqb]. give. give. apply gives_ret.
    + unfold rest. by rewrite Ha', Hnil.
  - destruct (IH p L c' fuel Hc' ltac:(cbn in *; lia)) as (q & c2 & B2 & Hk & Hd & Hl & He & H2 & Hr2). exists q, c2, B2.
    split; [give; rewrite E; cbn [Z.eqb]; by give|]. split; [done|]. split; [done|]. split; [done|]. split; [done|].
    rewrite Hr2. unfold rest. by rewrite Ha', Hnil, contents_cons.
Qed.

End cursor.
End CursorProof.
