(* ===== verification/CursorSpec.v ===== *)
(** The contract of a cursor: what is left to read is a list of bytes, and every
    operation of raster/io/Cursor.h is an operation on that list. *)
From S2P Require Import Prelude IOBuf IOBufInv IOBufChain IOBufMem IOBufLife IOBufOps IOBufSpec Cursor CursorProof.
Import IOBuf.

Module CursorSpec.
Import Cursor CursorProof.
#[local] Abbreviation len := List.length.

Inductive op :=
| OSkip (n : Z) | OSkipAtMost (n : Z)
| OPull (n : Z) | OPullAtMost (n : Z)
| OReadLE (size : Z) | OReadBE (size : Z)
| OFixed (n : Z) | OTerminated (termChar maxLength : Z)
| OPeek | OTotalLength | OIsAtEnd.

Inductive res := RUnit | RSize (n : Z) | RBytes (bs : list Z) | RBytesSize (bs : list Z) (n : Z) | RBool (b : bool).

Section client.
(** What a std::string can hold. *)
Context (lim : limits).

(** One call of a client. *)
Definition exec (o : op) (c : cursor) : M (res * cursor) :=
  match o with
  | OSkip n => '(_, c) ← skip n c; mret (RUnit, c)
  | OSkipAtMost n => '(k, c) ← skipAtMost n c; mret (RSize k, c)
  | OPull n => '(bs, c) ← pull n c; mret (RBytes bs, c)
  | OPullAtMost n => '(bs, k, c) ← pullAtMost n c; mret (RBytesSize bs k, c)
  | OReadLE size => '(v, c) ← readLE size c; mret (RSize v, c)
  | OReadBE size => '(v, c) ← readBE size c; mret (RSize v, c)
  | OFixed n => '(s, c) ← readFixedString lim n c; mret (RBytes s, c)
  | OTerminated t m => '(s, c) ← readTerminatedString t m c; mret (RBytes s, c)
  | OPeek => '(p, n, c) ← peek c; bs ← load p n; mret (RBytes bs, c)
  | OTotalLength => n ← totalLength c; mret (RSize n, c)
  | OIsAtEnd => b ← isAtEnd c; mret (RBool b, c)
  end.
Fixpoint run (os : list op) (c : cursor) : M (list res * cursor) :=
  match os with
  | [] => mret ([], c)
  | o :: os => '(r, c) ← exec o c; '(rs, c) ← run os c; mret (r :: rs, c)
  end.

(** ** The same on the bytes that are left *)

Definition exactly (n : Z) (l : list Z) (err : string) : outcome (list Z * list Z) :=
  if n <=? Z.of_nat (len l) then Ret (to_take n l, to_drop n l) else Err (Thrown err).

(** peek() is free in how much it shows; every other operation has one result. *)
Definition spec (o : op) (l : list Z) (out : outcome (res * list Z)) : Prop :=
  match o with
  | OSkip n => out = '(_, r) ← exactly n l "out_of_range: underflow"; Ret (RUnit, r)
  | OSkipAtMost n => out = Ret (RSize (Z.min n (Z.of_nat (len l))), to_drop n l)
  | OPull n => out = '(bs, r) ← exactly n l "out_of_range: underflow"; Ret (RBytes bs, r)
  | OPullAtMost n => out = Ret (RBytesSize (to_take n l) (Z.min n (Z.of_nat (len l))), to_drop n l)
  | OReadLE n => out = '(bs, r) ← exactly n l "out_of_range: underflow"; Ret (RSize (le_value bs), r)
  | OReadBE n => out = '(bs, r) ← exactly n l "out_of_range: underflow"; Ret (RSize (le_value (rev bs)), r)
  | OFixed n => out = (_ ← container_reserve lim n; '(bs, r) ← exactly n l "out_of_range: string underflow"; Ret (RBytes bs, r))
  | OTerminated t m => out = '(s, r) ← terminated l t 0 m; Ret (RBytes s, r)
  | OPeek => ∃ bs more, l = bs ++ more ∧ (bs = [] → l = []) ∧ out = Ret (RBytes bs, l)
  | OTotalLength => out = Ret (RSize (Z.of_nat (len l)), l)
  | OIsAtEnd => out = Ret (RBool (bool_decide (l = [])), l)
  end.
(** A sequence of calls stops at the first exception. *)
Inductive spec_run : list op → list Z → outcome (list res * list Z) → Prop :=
| spec_nil l : spec_run [] l (Ret ([], l))
| spec_err o os l e : spec o l (Err e) → spec_run (o :: os) l (Err e)
| spec_step o os l r l' out : spec o l (Ret (r, l')) → spec_run os l' out →
    spec_run (o :: os) l ('(rs, l2) ← out; Ret (r :: rs, l2)).

Definition size_ok (n : Z) : Prop := 0 ≤ n < 2 ^ 64.
Definition op_ok (o : op) : Prop :=
  match o with
  | OSkip n | OSkipAtMost n | OPull n | OPullAtMost n | OReadLE n | OReadBE n | OFixed n => size_ok n
  | OTerminated _ m => size_ok m
  | OPeek | OTotalLength | OIsAtEnd => True
  end.

(** ** Refinement *)

Section refines.
Context (U : gset Z) (h : heap) (Hok : ok U h) (p : Z) (L : list Z).
Context (H64 : Z.of_nat (len (contents h (p :: L))) < 2 ^ 64).

(** What a call may do at [c]: an outcome that the specification allows on the bytes
    that are left, with the cursor where the specification's list says. *)
Definition meets {A} (m : M (A * cursor)) (out : outcome (A * list Z)) : Prop :=
  match out with
  | Ret (a, l') => ∃ c' B', gives m h (Ret (a, c')) ∧ at_ h p L c' B' ∧ rest h c' B' = l'
  | Err e => gives m h (Err e)
  end.

Lemma meets_bind {A B} (m : M (A * cursor)) (out : outcome (A * list Z)) (f : A → B) :
  meets m out → meets ('(a, c) ← m; mret (f a, c)) ('(a, l) ← out; Ret (f a, l)).
Proof.
  destruct out as [[a l]|e]; cbn.
  - intros (c' & B' & Hm & H'). exists c', B'. split; [|done]. eapply gives_bind; [done|]. apply gives_ret.
  - intros Hm. by apply gives_bind_err.
Qed.

Lemma meets_exactly (m : M (list Z * cursor)) n l err :
  (if n <=? Z.of_nat (len l) then ∃ c' B', gives m h (Ret (to_take n l, c')) ∧ at_ h p L c' B' ∧ rest h c' B' = to_drop n l
   else gives m h (Err (Thrown err))) → meets m (exactly n l err).
Proof. unfold exactly. by destruct (n <=? _). Qed.

Lemma rest_bound c B : at_ h p L c B → Z.of_nat (len (rest h c B)) ≤ Z.of_nat (len (contents h (p :: L))).
Proof.
  intros Hc. pose proof (avail_length h _ _ _ _ Hc) as Ha. destruct Hc as [_ _ [A ->] Ho].
  unfold rest. rewrite contents_app, contents_cons, !length_app. lia.
Qed.

Lemma read_pull n c : read n c = pull n c.
Proof. done. Qed.

Lemma exec_meets o c B : at_ h p L c B → op_ok o → ∃ out, spec o (rest h c B) out ∧ meets (exec o c) out.
Proof.
  intros Hc Ho. pose proof (rest_bound _ _ Hc) as Hb. destruct o; cbn [spec exec]; cbn in Ho; unfold size_ok in Ho.
  - eexists. split; [done|]. pose proof (skip_spec U h Hok p L c B Hc n Ho) as Hs. unfold exactly. case_match.
    + destruct Hs as (c' & B' & Hk & H'). exists c', B'. split; [|done]. eapply gives_bind; [done|]. apply gives_ret.
    + by apply gives_bind_err.
  - eexists. split; [done|]. destruct (skipAtMost_spec U h Hok p L c B Hc n Ho) as (c' & B' & k & Hk & -> & H').
    exists c', B'. split; [|done]. eapply gives_bind; [done|]. apply gives_val. unfold to_take. rewrite length_take. do 2 f_equal. lia.
  - eexists. split; [done|]. apply meets_bind, meets_exactly, (pull_spec U h Hok p L c B Hc n Ho).
  - eexists. split; [done|]. destruct (pullAtMost_spec U h Hok p L c B Hc n Ho) as (c' & B' & k & Hk & -> & H').
    exists c', B'. split; [|done]. eapply gives_bind; [done|]. apply gives_val. unfold to_take. rewrite length_take. do 2 f_equal. lia.
  - eexists. split; [|apply meets_bind, (meets_bind (read size c) (exactly size (rest h c B) "out_of_range: underflow") le_value), meets_exactly, (pull_spec U h Hok p L c B Hc size Ho)].
    by destruct exactly as [[]|].
  - eexists. split; [|apply meets_bind, (meets_bind (read size c) (exactly size (rest h c B) "out_of_range: underflow") (fun bs => le_value (rev bs))), meets_exactly, (pull_spec U h Hok p L c B Hc size Ho)].
    by destruct exactly as [[]|].
  - eexists. split; [done|]. destruct (container_reserve lim n) as [[]|e] eqn:Er; [by apply meets_bind, meets_exactly, (fixed_spec U h Hok p L c B lim n Hc Ho)|].
    apply gives_bind_err. unfold readFixedString. apply gives_bind_err. rewrite Er. apply gives_lift.
  - eexists. split; [done|]. apply meets_bind. pose proof (readTerminated_spec U h Hok p L c B termChar maxLength Hc ltac:(lia)) as Ht.
    by destruct terminated as [[]|].
  - destruct (gives_fuel h p L c B Hc) as (fuel & Hfuel & Hf).
    destruct (peek_loop_spec U h Hok B p L c fuel Hc Hf) as (q & c' & B' & Hk & _ & Hl & He & Hc' & Hr).
    exists (Ret (RBytes (avail h c'), rest h c B)). split.
    + exists (avail h c'), (contents h B'). split; [by rewrite <- Hr|]. split; [|done]. intros E. rewrite <- Hr. unfold rest. by rewrite E, He.
    + exists c', B'. split; [|done]. eapply gives_bind; [eapply gives_bind; [exact Hfuel|exact Hk]|]. eapply gives_bind; [done|]. apply gives_ret.
  - eexists. split; [done|]. exists c, B. split; [|done]. eapply gives_bind; [by apply (totalLength_spec U h Hok p L c B)|]. apply gives_ret.
  - eexists. split; [done|]. exists c, B. split; [|done]. eapply gives_bind; [by apply (isAtEnd_spec U h Hok p L c B)|]. apply gives_ret.
Qed.

Lemma run_meets os : ∀ c B, at_ h p L c B → Forall op_ok os → ∃ out, spec_run os (rest h c B) out ∧ meets (run os c) out.
Proof.
  induction os as [|o os IH]; intros c B Hc Hos; cbn [run].
  - eexists. split; [constructor|]. by exists c, B.
  - apply Forall_cons in Hos as [Ho Hos]. destruct (exec_meets o c B Hc Ho) as ([[r l]|e] & Hs & Hm).
    + destruct Hm as (c' & B' & Hm & Hc' & <-). destruct (IH c' B' Hc' Hos) as (out & Hs' & Hm').
      eexists. split; [by eapply spec_step|]. apply (meets_bind _ _ (cons r)) in Hm'. unfold meets in *.
      destruct out as [[rs l2]|e]; cbn [mbind outcome_bind] in *.
      * destruct Hm' as (c2 & B2 & Hg & H2). exists c2, B2. split; [|done]. by eapply gives_bind.
      * by eapply gives_bind.
    + eexists. split; [by apply spec_err|]. by apply gives_bind_err.
Qed.
End refines.
End client.

(** C10. A cursor on a chain of buffers behaves as a cursor on the concatenation of its
    bytes: any sequence of skip, skipAtMost, pull, pullAtMost, readLE, readBE,
    readFixedString, readTerminatedString, peek, totalLength and isAtEnd, with any
    sizes, gives the results that the specification on the byte list allows, or the
    exception of the first call that fails there (out_of_range, the length_error of a
    terminator that does not come, and for readFixedString the length_error or bad_alloc
    of reserving more than a std::string can hold, whatever that is; appending to a string
    the bytes that readTerminatedString found is assumed to find memory); the heap is not changed, nothing is
    read outside the buffers, and no loop runs out of elements. At the end the bytes
    left are the specification's, and both distances from the start (to a cursor and
    to the first element) are the number of bytes consumed. *)
Theorem cursor_refines (lim : limits) (U : gset Z) (h : heap) (p : Z) (L : list Z) (os : list op) :
  ok U h → chain h p L → Z.of_nat (len (contents h (p :: L))) < 2 ^ 64 → Forall op_ok os →
  ∃ out, spec_run lim os (contents h (p :: L)) out ∧
    match out with
    | Ret (rs, l) => ∃ c', gives (run lim os (new_cursor p)) h (Ret (rs, c')) ∧ gives (totalLength c') h (Ret (Z.of_nat (len l))) ∧
        let consumed := Z.of_nat (len (contents h (p :: L))) - Z.of_nat (len l) in
        gives (minus c' (new_cursor p)) h (Ret consumed) ∧ gives (minus_buf c' p) h (Ret consumed)
    | Err e => gives (run lim os (new_cursor p)) h (Err e)
    end.
Proof.
  intros Hok Hch H64 Hos. pose proof (at_new h p L Hch) as Hnew.
  destruct (run_meets lim U h Hok p L H64 os _ _ Hnew Hos) as (out & Hs & Hm). exists out.
  unfold rest, avail in Hs. cbn [new_cursor offset_ crtBuf_] in Hs. rewrite drop_0, <- contents_cons in Hs. split; [done|].
  unfold meets in Hm. destruct out as [[rs l]|e]; [|done]. destruct Hm as (c' & B' & Hm & Hc' & <-). exists c'. split; [done|].
  split; [by apply (totalLength_spec U h Hok p L c' B')|]. split; [by apply (minus_start U h Hok p L c' B')|by apply (minus_buf_start U h Hok p L c' B')].
Qed.
Module Demo.
Import IOBufSpec.Demo.
(** Reads that cross from the first element, [1; 2; 3], to the second, [4; 5]. *)
Definition os : list op := [OReadBE 2; OPeek; OFixed 2; OTotalLength; OTerminated 5 9; OIsAtEnd].

Definition lims : limits := mk_limits (2 ^ 62) 1000.

Lemma cursor_refines_witness : contents h3 [p1; p2] = [1; 2; 3; 4; 5] ∧
  ∃ rs l c', spec_run lims os (contents h3 [p1; p2]) (Ret (rs, l)) ∧ gives (run lims os (new_cursor p1)) h3 (Ret (rs, c')) ∧
    rs = [RSize 258; RBytes [3]; RBytes [3; 4]; RSize 1; RBytes []; RBool true].
Proof.
  split; [by vm_compute|]. destruct ok3 as (Hok & Hch & _).
  destruct (cursor_refines lims ∅ h3 p1 [p2] os Hok Hch) as ([[rs l]|e] & Hs & Hm); [by vm_compute|by repeat constructor| |].
  - destruct Hm as (c' & Hm & _). exists rs, l, c'. split; [exact Hs|]. split; [exact Hm|]. vm_compute in Hm. congruence.
  - exfalso. vm_compute in Hm. discriminate Hm.
Defined.
End Demo.

End CursorSpec.
