(* ===== verification/Spooky.v ===== *)
(** util/SpookyHashV2.h and SpookyHashV2.cpp: a hash of 128 bits, of a message in one piece and of
    a message that arrives in pieces.  Memory is a list of bytes; a load of a word reads eight of
    them, the least first, and is undefined where they do not exist.  The macro
    ALLOW_UNALIGNED_READS is 1 in the source, so its other branches are not compiled. *)
From S2P Require Import Prelude.

Module Spooky.

(** ** Mixing *)

Definition Rot64 (x k : Z) : Z := Z.lor (u64 (Z.shiftl x k)) (Z.shiftr x (64 - k)).

(** Twelve variables of type uint64_t. *)
Record vars := mk_vars { v0 : Z; v1 : Z; v2 : Z; v3 : Z; v4 : Z; v5 : Z; v6 : Z; v7 : Z; v8 : Z; v9 : Z; v10 : Z; v11 : Z }.

(** The twelve words at [data]. *)
Record block := mk_block { b0 : Z; b1 : Z; b2 : Z; b3 : Z; b4 : Z; b5 : Z; b6 : Z; b7 : Z; b8 : Z; b9 : Z; b10 : Z; b11 : Z }.

Definition Mix (data : block) (s : vars) : vars :=
  let 'mk_block d0 d1 d2 d3 d4 d5 d6 d7 d8 d9 d10 d11 := data in
  let 'mk_vars s0 s1 s2 s3 s4 s5 s6 s7 s8 s9 s10 s11 := s in
  let s0 := u64 (s0 + d0) in let s2 := Z.lxor s2 s10 in let s11 := Z.lxor s11 s0 in let s0 := Rot64 s0 11 in let s11 := u64 (s11 + s1) in
  let s1 := u64 (s1 + d1) in let s3 := Z.lxor s3 s11 in let s0 := Z.lxor s0 s1 in let s1 := Rot64 s1 32 in let s0 := u64 (s0 + s2) in
  let s2 := u64 (s2 + d2) in let s4 := Z.lxor s4 s0 in let s1 := Z.lxor s1 s2 in let s2 := Rot64 s2 43 in let s1 := u64 (s1 + s3) in
  let s3 := u64 (s3 + d3) in let s5 := Z.lxor s5 s1 in let s2 := Z.lxor s2 s3 in let s3 := Rot64 s3 31 in let s2 := u64 (s2 + s4) in
  let s4 := u64 (s4 + d4) in let s6 := Z.lxor s6 s2 in let s3 := Z.lxor s3 s4 in let s4 := Rot64 s4 17 in let s3 := u64 (s3 + s5) in
  let s5 := u64 (s5 + d5) in let s7 := Z.lxor s7 s3 in let s4 := Z.lxor s4 s5 in let s5 := Rot64 s5 28 in let s4 := u64 (s4 + s6) in
  let s6 := u64 (s6 + d6) in let s8 := Z.lxor s8 s4 in let s5 := Z.lxor s5 s6 in let s6 := Rot64 s6 39 in let s5 := u64 (s5 + s7) in
  let s7 := u64 (s7 + d7) in let s9 := Z.lxor s9 s5 in let s6 := Z.lxor s6 s7 in let s7 := Rot64 s7 57 in let s6 := u64 (s6 + s8) in
  let s8 := u64 (s8 + d8) in let s10 := Z.lxor s10 s6 in let s7 := Z.lxor s7 s8 in let s8 := Rot64 s8 55 in let s7 := u64 (s7 + s9) in
  let s9 := u64 (s9 + d9) in let s11 := Z.lxor s11 s7 in let s8 := Z.lxor s8 s9 in let s9 := Rot64 s9 54 in let s8 := u64 (s8 + s10) in
  let s10 := u64 (s10 + d10) in let s0 := Z.lxor s0 s8 in let s9 := Z.lxor s9 s10 in let s10 := Rot64 s10 22 in let s9 := u64 (s9 + s11) in
  let s11 := u64 (s11 + d11) in let s1 := Z.lxor s1 s9 in let s10 := Z.lxor s10 s11 in let s11 := Rot64 s11 46 in let s10 := u64 (s10 + s0) in
  mk_vars s0 s1 s2 s3 s4 s5 s6 s7 s8 s9 s10 s11.

Definition EndPartial (h : vars) : vars :=
  let 'mk_vars h0 h1 h2 h3 h4 h5 h6 h7 h8 h9 h10 h11 := h in
  let h11 := u64 (h11 + h1) in let h2 := Z.lxor h2 h11 in let h1 := Rot64 h1 44 in
  let h0 := u64 (h0 + h2) in let h3 := Z.lxor h3 h0 in let h2 := Rot64 h2 15 in
  let h1 := u64 (h1 + h3) in let h4 := Z.lxor h4 h1 in let h3 := Rot64 h3 34 in
  let h2 := u64 (h2 + h4) in let h5 := Z.lxor h5 h2 in let h4 := Rot64 h4 21 in
  let h3 := u64 (h3 + h5) in let h6 := Z.lxor h6 h3 in let h5 := Rot64 h5 38 in
  let h4 := u64 (h4 + h6) in let h7 := Z.lxor h7 h4 in let h6 := Rot64 h6 33 in
  let h5 := u64 (h5 + h7) in let h8 := Z.lxor h8 h5 in let h7 := Rot64 h7 10 in
  let h6 := u64 (h6 + h8) in let h9 := Z.lxor h9 h6 in let h8 := Rot64 h8 13 in
  let h7 := u64 (h7 + h9) in let h10 := Z.lxor h10 h7 in let h9 := Rot64 h9 38 in
  let h8 := u64 (h8 + h10) in let h11 := Z.lxor h11 h8 in let h10 := Rot64 h10 53 in
  let h9 := u64 (h9 + h11) in let h0 := Z.lxor h0 h9 in let h11 := Rot64 h11 42 in
  let h10 := u64 (h10 + h0) in let h1 := Z.lxor h1 h10 in let h0 := Rot64 h0 54 in
  mk_vars h0 h1 h2 h3 h4 h5 h6 h7 h8 h9 h10 h11.

Definition End_ (data : block) (h : vars) : vars :=
  let 'mk_block d0 d1 d2 d3 d4 d5 d6 d7 d8 d9 d10 d11 := data in
  let 'mk_vars h0 h1 h2 h3 h4 h5 h6 h7 h8 h9 h10 h11 := h in
  let h0 := u64 (h0 + d0) in let h1 := u64 (h1 + d1) in let h2 := u64 (h2 + d2) in let h3 := u64 (h3 + d3) in
  let h4 := u64 (h4 + d4) in let h5 := u64 (h5 + d5) in let h6 := u64 (h6 + d6) in let h7 := u64 (h7 + d7) in
  let h8 := u64 (h8 + d8) in let h9 := u64 (h9 + d9) in let h10 := u64 (h10 + d10) in let h11 := u64 (h11 + d11) in
  EndPartial (EndPartial (EndPartial (mk_vars h0 h1 h2 h3 h4 h5 h6 h7 h8 h9 h10 h11))).

Definition ShortMix (h : Z * Z * Z * Z) : Z * Z * Z * Z :=
  let '(h0, h1, h2, h3) := h in
  let h2 := Rot64 h2 50 in let h2 := u64 (h2 + h3) in let h0 := Z.lxor h0 h2 in
  let h3 := Rot64 h3 52 in let h3 := u64 (h3 + h0) in let h1 := Z.lxor h1 h3 in
  let h0 := Rot64 h0 30 in let h0 := u64 (h0 + h1) in let h2 := Z.lxor h2 h0 in
  let h1 := Rot64 h1 41 in let h1 := u64 (h1 + h2) in let h3 := Z.lxor h3 h1 in
  let h2 := Rot64 h2 54 in let h2 := u64 (h2 + h3) in let h0 := Z.lxor h0 h2 in
  let h3 := Rot64 h3 48 in let h3 := u64 (h3 + h0) in let h1 := Z.lxor h1 h3 in
  let h0 := Rot64 h0 38 in let h0 := u64 (h0 + h1) in let h2 := Z.lxor h2 h0 in
  let h1 := Rot64 h1 37 in let h1 := u64 (h1 + h2) in let h3 := Z.lxor h3 h1 in
  let h2 := Rot64 h2 62 in let h2 := u64 (h2 + h3) in let h0 := Z.lxor h0 h2 in
  let h3 := Rot64 h3 34 in let h3 := u64 (h3 + h0) in let h1 := Z.lxor h1 h3 in
  let h0 := Rot64 h0 5 in let h0 := u64 (h0 + h1) in let h2 := Z.lxor h2 h0 in
  let h1 := Rot64 h1 36 in let h1 := u64 (h1 + h2) in let h3 := Z.lxor h3 h1 in
  (h0, h1, h2, h3).

Definition ShortEnd (h : Z * Z * Z * Z) : Z * Z * Z * Z :=
  let '(h0, h1, h2, h3) := h in
  let h3 := Z.lxor h3 h2 in let h2 := Rot64 h2 15 in let h3 := u64 (h3 + h2) in
  let h0 := Z.lxor h0 h3 in let h3 := Rot64 h3 52 in let h0 := u64 (h0 + h3) in
  let h1 := Z.lxor h1 h0 in let h0 := Rot64 h0 26 in let h1 := u64 (h1 + h0) in
  let h2 := Z.lxor h2 h1 in let h1 := Rot64 h1 51 in let h2 := u64 (h2 + h1) in
  let h3 := Z.lxor h3 h2 in let h2 := Rot64 h2 28 in let h3 := u64 (h3 + h2) in
  let h0 := Z.lxor h0 h3 in let h3 := Rot64 h3 9 in let h0 := u64 (h0 + h3) in
  let h1 := Z.lxor h1 h0 in let h0 := Rot64 h0 47 in let h1 := u64 (h1 + h0) in
  let h2 := Z.lxor h2 h1 in let h1 := Rot64 h1 54 in let h2 := u64 (h2 + h1) in
  let h3 := Z.lxor h3 h2 in let h2 := Rot64 h2 32 in let h3 := u64 (h3 + h2) in
  let h0 := Z.lxor h0 h3 in let h3 := Rot64 h3 25 in let h0 := u64 (h0 + h3) in
  let h1 := Z.lxor h1 h0 in let h0 := Rot64 h0 63 in let h1 := u64 (h1 + h0) in
  (h0, h1, h2, h3).

(** ** Memory *)

Definition sc_numVars : nat := 12.
Definition sc_blockSize : nat := 96.
Definition sc_bufSize : nat := 192.
Definition sc_const : Z := 0xdeadbeefdeadbeef.

Definition word_of (bs : list Z) : Z := foldr (fun b v => b + 256 * v) 0 bs.

(** u.p8[i], u.p32[i] and u.p64[i], with [p] the byte that the pointer has reached. *)
Definition load (n : nat) (mem : list Z) (p : nat) : outcome Z :=
  if (p + n <=? length mem)%nat then Ret (word_of (take n (drop p mem))) else Err Undefined.
Definition load8 mem p := load 1 mem p.
Definition load32 mem p := load 4 mem p.
Definition load64 mem p := load 8 mem p.

Definition load_block (mem : list Z) (p : nat) : outcome block :=
  d0 ← load64 mem (p + 0);
  d1 ← load64 mem (p + 8);
  d2 ← load64 mem (p + 16);
  d3 ← load64 mem (p + 24);
  d4 ← load64 mem (p + 32);
  d5 ← load64 mem (p + 40);
  d6 ← load64 mem (p + 48);
  d7 ← load64 mem (p + 56);
  d8 ← load64 mem (p + 64);
  d9 ← load64 mem (p + 72);
  d10 ← load64 mem (p + 80);
  d11 ← load64 mem (p + 88);
  Ret (mk_block d0 d1 d2 d3 d4 d5 d6 d7 d8 d9 d10 d11).

(** memcpy(&mem[p], src, n) and memset(&mem[p], x, n). *)
Definition store (mem : list Z) (p : nat) (bytes : list Z) : outcome (list Z) :=
  if (p + length bytes <=? length mem)%nat
  then Ret (take p mem ++ bytes ++ drop (p + length bytes) mem) else Err Undefined.
Definition fetch (mem : list Z) (p n : nat) : outcome (list Z) :=
  if (p + n <=? length mem)%nat then Ret (take n (drop p mem)) else Err Undefined.

(** ** Short *)

(** for (; u.p64 < end; u.p64 += 4), with the number of turns. *)
Fixpoint Short_loop (n : nat) (mem : list Z) (p : nat) (h : Z * Z * Z * Z) : outcome (nat * (Z * Z * Z * Z)) :=
  match n with
  | O => Ret (p, h)
  | S n =>
      let '(a, b, c, d) := h in
      x0 ← load64 mem p; x1 ← load64 mem (p + 8);
      let '(a, b, c, d) := ShortMix (a, b, u64 (c + x0), u64 (d + x1)) in
      x2 ← load64 mem (p + 16); x3 ← load64 mem (p + 24);
      Short_loop n mem (p + 32) (u64 (a + x2), u64 (b + x3), c, d)
  end.

(** x += p8[i] << k, when the switch is entered at or above this case. *)
Definition add_byte (entered : bool) (mem : list Z) (p : nat) (k x : Z) : outcome Z :=
  if entered then b ← load8 mem p; Ret (u64 (x + u64 (Z.shiftl b k))) else Ret x.

(** The switch, whose cases fall through. *)
Definition Short_tail (mem : list Z) (p remainder : nat) (c d : Z) : outcome (Z * Z) :=
  (if 12 <=? remainder then
     d ← add_byte (15 <=? remainder) mem (p + 14) 48 d;
     d ← add_byte (14 <=? remainder) mem (p + 13) 40 d;
     d ← add_byte (13 <=? remainder) mem (p + 12) 32 d;
     x ← load32 mem (p + 8);
     y ← load64 mem p;
     Ret (u64 (c + y), u64 (d + x))
   else if 8 <=? remainder then
     d ← add_byte (11 <=? remainder) mem (p + 10) 16 d;
     d ← add_byte (10 <=? remainder) mem (p + 9) 8 d;
     d ← add_byte (9 <=? remainder) mem (p + 8) 0 d;
     y ← load64 mem p;
     Ret (u64 (c + y), d)
   else if 4 <=? remainder then
     c ← add_byte (7 <=? remainder) mem (p + 6) 48 c;
     c ← add_byte (6 <=? remainder) mem (p + 5) 40 c;
     c ← add_byte (5 <=? remainder) mem (p + 4) 32 c;
     x ← load32 mem p;
     Ret (u64 (c + x), d)
   else if 1 <=? remainder then
     c ← add_byte (3 <=? remainder) mem (p + 2) 16 c;
     c ← add_byte (2 <=? remainder) mem (p + 1) 8 c;
     c ← add_byte true mem p 0 c;
     Ret (c, d)
   else Ret (u64 (c + sc_const), u64 (d + sc_const)))%nat.

Definition Short (mem : list Z) (length_ : nat) (hash1 hash2 : Z) : outcome (Z * Z) :=
  let remainder := (length_ mod 32)%nat in
  '(p, (a, b, c, d), remainder) ←
    (if (15 <? length_)%nat then
       '(p, (a, b, c, d)) ← Short_loop (length_ / 32) mem 0 (hash1, hash2, sc_const, sc_const);
       if (16 <=? remainder)%nat then
         x0 ← load64 mem p; x1 ← load64 mem (p + 8);
         Ret (p + 16, ShortMix (a, b, u64 (c + x0), u64 (d + x1)), remainder - 16)%nat
       else Ret (p, (a, b, c, d), remainder)
     else Ret (0%nat, (hash1, hash2, sc_const, sc_const), remainder));
  let d := u64 (d + u64 (Z.shiftl (Z.of_nat length_) 56)) in
  '(c, d) ← Short_tail mem p remainder c d;
  let '(a, b, _, _) := ShortEnd (a, b, c, d) in
  Ret (a, b).

(** ** Hash128 *)

(** while (u.p64 < end), with the number of turns. *)
Fixpoint Mix_loop (n : nat) (mem : list Z) (p : nat) (h : vars) : outcome vars :=
  match n with
  | O => Ret h
  | S n => data ← load_block mem p; Mix_loop n mem (p + sc_blockSize) (Mix data h)
  end.

Definition start_vars (seed1 seed2 : Z) : vars :=
  mk_vars seed1 seed2 sc_const seed1 seed2 sc_const seed1 seed2 sc_const seed1 seed2 sc_const.

(** The last partial block in [buf], whose first bytes are the message's: fill it with zeros,
    put the length of the rest at its end, and finish. *)
Definition finish (buf : list Z) (p remainder : nat) (h : vars) : outcome (list Z * (Z * Z)) :=
  buf ← store buf (p + remainder) (replicate (sc_blockSize - remainder) 0);
  buf ← store buf (p + (sc_blockSize - 1)) [u8 (Z.of_nat remainder)];
  data ← load_block buf p;
  let h := End_ data h in
  Ret (buf, (v0 h, v1 h)).

(** [garbage] is what the array buf holds at first. *)
Definition Hash128 (garbage message : list Z) (length_ : nat) (hash1 hash2 : Z) : outcome (Z * Z) :=
  if (length_ <? sc_bufSize)%nat then Short message length_ hash1 hash2 else
  let n := (length_ / sc_blockSize)%nat in
  h ← Mix_loop n message 0 (start_vars hash1 hash2);
  let end_ := (n * sc_blockSize)%nat in
  let remainder := (length_ - end_)%nat in
  bytes ← fetch message end_ remainder;
  buf ← store garbage 0 bytes;
  '(_, h) ← finish buf 0 remainder h;
  Ret h.

Definition Hash64 (garbage message : list Z) (length_ : nat) (seed : Z) : outcome Z :=
  '(hash1, _) ← Hash128 garbage message length_ seed seed; Ret hash1.
Definition Hash32 (garbage message : list Z) (length_ : nat) (seed : Z) : outcome Z :=
  '(hash1, _) ← Hash128 garbage message length_ seed seed; Ret (u32 hash1).

(** ** A hash of pieces *)

Record hasher := mk_hasher {
  m_data : list Z;         (* 192 bytes *)
  m_state : vars;
  m_length : Z;
  m_remainder : nat        (* a uint8_t *)
}.

(** Init leaves the other members as they are. *)
Definition Init (s : hasher) (seed1 seed2 : Z) : hasher :=
  let 'mk_vars _ _ h2 h3 h4 h5 h6 h7 h8 h9 h10 h11 := m_state s in
  mk_hasher (m_data s) (mk_vars seed1 seed2 h2 h3 h4 h5 h6 h7 h8 h9 h10 h11) 0 0.

Definition Update (s : hasher) (message : list Z) (length_ : nat) : outcome hasher :=
  let newLength := (length_ + m_remainder s)%nat in
  if (newLength <? sc_bufSize)%nat then
    bytes ← fetch message 0 length_;
    data ← store (m_data s) (m_remainder s) bytes;
    Ret (mk_hasher data (m_state s) (u64 (Z.of_nat length_ + m_length s)) newLength)
  else
    let h := if m_length s <? Z.of_nat sc_bufSize then start_vars (v0 (m_state s)) (v1 (m_state s)) else m_state s in
    let total := u64 (Z.of_nat length_ + m_length s) in
    '(data, h, p, length_) ←
      (if (m_remainder s =? 0)%nat then Ret (m_data s, h, 0%nat, length_) else
       let prefix := (sc_bufSize - m_remainder s)%nat in
       bytes ← fetch message 0 prefix;
       data ← store (m_data s) (m_remainder s) bytes;
       x ← load_block data 0;
       let h := Mix x h in
       x ← load_block data sc_blockSize;
       let h := Mix x h in
       Ret (data, h, prefix, length_ - prefix)%nat);
    let n := (length_ / sc_blockSize)%nat in
    h ← Mix_loop n message p h;
    let end_ := (p + n * sc_blockSize)%nat in
    let remainder := (length_ - n * sc_blockSize)%nat in
    bytes ← fetch message end_ remainder;
    data ← store data 0 bytes;
    Ret (mk_hasher data h total remainder).

(** The hash, and the object: m_data is changed behind the bytes that count. *)
Definition Final (s : hasher) : outcome (hasher * (Z * Z)) :=
  if m_length s <? Z.of_nat sc_bufSize then
    h ← Short (m_data s) (Z.to_nat (m_length s)) (v0 (m_state s)) (v1 (m_state s));
    Ret (s, h)
  else
    '(p, h, remainder) ←
      (if (sc_blockSize <=? m_remainder s)%nat then
         x ← load_block (m_data s) 0;
         Ret (sc_blockSize, Mix x (m_state s), m_remainder s - sc_blockSize)%nat
       else Ret (0%nat, m_state s, m_remainder s));
    '(data, h) ← finish (m_data s) p remainder h;
    Ret (mk_hasher data (m_state s) (m_length s) (m_remainder s), h).

End Spooky.
