(* ===== verification/SpookyProof.v ===== *)
(** A message hashed in pieces has the hash of the whole message, however it is cut, whatever the
    uninitialised arrays hold, and also when hashes are taken in between; no load or store leaves
    its array. *)
From S2P Require Import Prelude Spooky.

Module SpookyProof.
Import Spooky.
#[local] Abbreviation len := List.length.
#[local] Opaque Mix End_ ShortMix ShortEnd.
#[local] Arguments Nat.div : simpl never.
#[local] Arguments Nat.modulo : simpl never.

(** ** Memory *)

Lemma load_ret n mem p : (p + n ≤ len mem)%nat → load n mem p = Ret (word_of (take n (drop p mem))).
Proof. intros. unfold load. by rewrite (proj2 (Nat.leb_le _ _)). Qed.
Lemma fetch_ret (mem : list Z) p n : (p + n ≤ len mem)%nat → fetch mem p n = Ret (take n (drop p mem)).
Proof. intros. unfold fetch. by rewrite (proj2 (Nat.leb_le _ _)). Qed.
Lemma store_ret mem p bs : (p + len bs ≤ len mem)%nat → store mem p bs = Ret (take p mem ++ bs ++ drop (p + len bs) mem).
Proof. intros. unfold store. by rewrite (proj2 (Nat.leb_le _ _)). Qed.
Lemma length_stored (mem : list Z) p bs : (p + len bs ≤ len mem)%nat → len (take p mem ++ bs ++ drop (p + len bs) mem) = len mem.
Proof. intros. rewrite !length_app, length_take, length_drop. lia. Qed.

(** The block made of 96 bytes. *)
Definition word (bs : list Z) (i : nat) : Z := word_of (take 8 (drop (8 * i) bs)).
Definition block_of (bs : list Z) : block :=
  mk_block (word bs 0) (word bs 1) (word bs 2) (word bs 3) (word bs 4) (word bs 5)
           (word bs 6) (word bs 7) (word bs 8) (word bs 9) (word bs 10) (word bs 11).

Lemma load_block_ret mem p : (p + 96 ≤ len mem)%nat → load_block mem p = Ret (block_of (take 96 (drop p mem))).
Proof.
  intros Hp. unfold load_block, load64. rewrite !load_ret by lia. cbn [mbind outcome_bind]. unfold block_of, word.
  assert (∀ i, (i + 8 ≤ 96)%nat → word_of (take 8 (drop i (take 96 (drop p mem)))) = word_of (take 8 (drop (p + i) mem))) as H.
  { intros i Hi. rewrite skipn_firstn_comm, drop_drop, take_take. do 2 f_equal; lia. }
  rewrite !H by lia. done.
Qed.

(** Mixing the first [n] blocks of some bytes. *)
Fixpoint mixes (n : nat) (bs : list Z) (h : vars) : vars :=
  match n with
  | O => h
  | S n => mixes n (drop 96 bs) (Mix (block_of (take 96 bs)) h)
  end.

Lemma Mix_loop_ret n mem p h : (p + n * 96 ≤ len mem)%nat → Mix_loop n mem p h = Ret (mixes n (drop p mem) h).
Proof.
  revert p h. induction n as [|n IH]; intros p h Hp; [done|]. cbn [Mix_loop mixes]. rewrite load_block_ret by lia.
  cbn [mbind outcome_bind]. unfold sc_blockSize. rewrite IH by lia. by rewrite drop_drop.
Qed.

Lemma mixes_add n k bs h : mixes (n + k) bs h = mixes k (drop (n * 96) bs) (mixes n bs h).
Proof.
  revert bs h. induction n as [|n IH]; intros bs h; [done|]. cbn [mixes Nat.add]. rewrite IH, drop_drop. do 2 f_equal; lia.
Qed.
Lemma mixes_take n k bs h : (n * 96 ≤ k)%nat → mixes n (take k bs) h = mixes n bs h.
Proof.
  revert k bs h. induction n as [|n IH]; intros k bs h Hk; [done|]. cbn [mixes].
  rewrite take_take. replace (96 `min` k)%nat with 96%nat by lia. rewrite skipn_firstn_comm. apply IH. lia.
Qed.
Lemma mixes_app n bs cs h : (n * 96 ≤ len bs)%nat → mixes n (bs ++ cs) h = mixes n bs h.
Proof. intros. rewrite <- (mixes_take n (len bs)), take_app_length by done. done. Qed.

(** ** Short *)

(** It reads only the bytes of the message. *)
Section Short.
Context (mem mem' : list Z) (n : nat).
Hypothesis Hn : (n ≤ len mem)%nat.
Hypothesis Hn' : (n ≤ len mem')%nat.
Hypothesis Heq : take n mem = take n mem'.

Lemma load_agrees k p : (p + k ≤ n)%nat → ∃ x, load k mem p = Ret x ∧ load k mem' p = Ret x.
Proof.
  intros Hp. rewrite !load_ret by lia. eexists. split; [done|]. do 2 f_equal.
  assert (∀ m : list Z, take k (drop p m) = take k (drop p (take n m))) as H.
  { intros m. rewrite skipn_firstn_comm, take_take. f_equal. lia. }
  by rewrite (H mem'), (H mem), Heq.
Qed.

(** Step over the loads of both runs. *)
Ltac loads := repeat match goal with
  | |- context [load ?k mem ?p] =>
      let x := fresh "x" in let E := fresh "E" in let E' := fresh "E" in
      destruct (load_agrees k p) as (x & E & E'); [lia|]; rewrite E, E'; cbn [mbind outcome_bind]
  end.

Lemma Short_loop_agrees k p h : (p + k * 32 ≤ n)%nat →
  ∃ h', Short_loop k mem p h = Ret ((p + k * 32)%nat, h') ∧ Short_loop k mem' p h = Ret ((p + k * 32)%nat, h').
Proof.
  revert p h. induction k as [|k IH]; intros p [[[a b] c] d] Hp; [eexists; cbn; rewrite Nat.add_0_r; eauto|].
  cbn [Short_loop]. unfold load64. loads.
  destruct (ShortMix _) as [[[a' b'] c'] d'].
  match goal with |- context [Short_loop k mem (p + 32) ?h] => destruct (IH (p + 32)%nat h) as (h' & F & F'); [lia|] end.
  rewrite F, F'. replace (p + 32 + k * 32)%nat with (p + S k * 32)%nat by lia. eauto.
Qed.

Lemma Short_tail_agrees p r c d : (p + r ≤ n)%nat → (r < 16)%nat →
  ∃ x, Short_tail mem p r c d = Ret x ∧ Short_tail mem' p r c d = Ret x.
Proof.
  intros Hp Hr. unfold Short_tail, add_byte, load8, load32, load64.
  repeat match goal with |- context [(?k <=? r)%nat] => destruct (Nat.leb_spec k r); cbn [mbind outcome_bind]; loads end; eauto.
Qed.

Lemma Short_agrees s1 s2 : ∃ x, Short mem n s1 s2 = Ret x ∧ Short mem' n s1 s2 = Ret x.
Proof.
  unfold Short. assert (n mod 32 < 32)%nat by (apply Nat.mod_upper_bound; lia).
  assert (n = 32 * (n / 32) + n mod 32)%nat by (apply Nat.div_mod_eq). destruct (Nat.ltb_spec 15 n).
  - destruct (Short_loop_agrees (n / 32) 0 (s1, s2, sc_const, sc_const)) as ([[[a b] c] d] & E & E'); [lia|].
    rewrite E, E'. cbn [mbind outcome_bind]. destruct (Nat.leb_spec 16 (n mod 32)).
    + unfold load64. loads. destruct (ShortMix _) as [[[a' b'] c'] d'].
      edestruct (Short_tail_agrees (0 + n / 32 * 32 + 16) (n mod 32 - 16)) as (y & -> & ->); [lia|lia|].
      destruct y as [c1 d1]. cbn. destruct (ShortEnd _) as [[[]]]. eauto.
    + cbn [mbind outcome_bind]. edestruct (Short_tail_agrees (0 + n / 32 * 32) (n mod 32)) as (y & -> & ->); [lia|lia|].
      destruct y as [c1 d1]. cbn. destruct (ShortEnd _) as [[[]]]. eauto.
  - cbn [mbind outcome_bind]. edestruct (Short_tail_agrees 0 (n mod 32)) as (y & -> & ->); [lia|lia|].
    destruct y as [c1 d1]. cbn. destruct (ShortEnd _) as [[[]]]. eauto.
Qed.
End Short.

(** ** The last block *)

Definition final_block (tail : list Z) : list Z :=
  tail ++ replicate (95 - len tail) 0 ++ [u8 (Z.of_nat (len tail))].

Lemma finish_ret buf p tail h : (p + 96 ≤ len buf)%nat → (len tail < 96)%nat → take (len tail) (drop p buf) = tail →
  ∃ buf', finish buf p (len tail) h =
      Ret (buf', (v0 (End_ (block_of (final_block tail)) h), v1 (End_ (block_of (final_block tail)) h))) ∧
    len buf' = len buf ∧ take (p + len tail) buf' = take (p + len tail) buf.
Proof.
  intros Hp Hr Ht. unfold finish, sc_blockSize. set (r := len tail) in *.
  set (buf1 := take (p + r) buf ++ replicate (96 - r) 0 ++ drop (p + r + (96 - r)) buf).
  assert (store buf (p + r) (replicate (96 - r) 0) = Ret buf1) as ->.
  { rewrite store_ret; rewrite length_replicate; [done|lia]. }
  assert (len buf1 = len buf) as El1.
  { subst buf1. rewrite !length_app, length_take, length_replicate, length_drop. lia. }
  cbn [mbind outcome_bind]. change (96 - 1)%nat with 95%nat.
  set (buf2 := take (p + 95) buf1 ++ [u8 (Z.of_nat r)] ++ drop (p + 95 + 1) buf1).
  assert (store buf1 (p + 95) [u8 (Z.of_nat r)] = Ret buf2) as -> by (rewrite store_ret by (cbn; lia); done).
  cbn [mbind outcome_bind]. assert (len buf2 = len buf) as El2.
  { subst buf2. rewrite !length_app, length_take, length_drop. cbn. lia. }
  assert (buf2 = take (p + r) buf ++ replicate (95 - r) 0 ++ [u8 (Z.of_nat r)] ++ drop (p + 96) buf) as E2.
  { subst buf2. subst buf1. replace (96 - r)%nat with (95 - r + 1)%nat by lia. rewrite replicate_add, <- !app_assoc.
    replace (p + r + (95 - r + 1))%nat with (p + 96)%nat by lia.
    assert (len (take (p + r) buf) = (p + r)%nat) as Hl by (rewrite length_take; lia).
    rewrite take_app_ge by lia. rewrite Hl. replace (p + 95 - (p + r))%nat with (95 - r)%nat by lia.
    rewrite take_app_length' by (by rewrite length_replicate). rewrite <- app_assoc. do 3 f_equal.
    rewrite drop_app_ge, Hl by lia. replace (p + 95 + 1 - (p + r))%nat with (95 - r + 1)%nat by lia.
    rewrite drop_app_ge by (rewrite length_replicate; lia). rewrite length_replicate.
    by replace (95 - r + 1 - (95 - r))%nat with 1%nat by lia. }
  rewrite load_block_ret by lia. cbn [mbind outcome_bind]. exists buf2. split; [|split; [done|]].
  - assert (take 96 (drop p buf2) = final_block tail) as ->; [|done].
    assert (drop p (take (p + r) buf) = tail) as Hd by (by rewrite skipn_firstn_comm, Nat.add_sub_swap, Nat.sub_diag by lia).
    rewrite E2, drop_app_le, Hd by (rewrite length_take; lia). unfold final_block. fold r.
    rewrite !app_assoc. rewrite take_app_length'; [done|].
    rewrite !length_app, length_replicate. cbn. lia.
  - rewrite E2. rewrite take_app_length'; [done|]. rewrite length_take; lia.
Qed.

(** The hash of a long message, by blocks. *)
Definition long_hash (s1 s2 : Z) (t : list Z) : Z * Z :=
  let n := (len t / 96)%nat in
  let h := End_ (block_of (final_block (drop (n * 96) t))) (mixes n t (start_vars s1 s2)) in
  (v0 h, v1 h).

Lemma Hash128_long garbage t s1 s2 : (192 ≤ len t)%nat → len garbage = 96%nat →
  Hash128 garbage t (len t) s1 s2 = Ret (long_hash s1 s2 t).
Proof.
  intros Hl Hg. unfold Hash128, sc_bufSize, sc_blockSize. rewrite (proj2 (Nat.ltb_ge _ _)) by done.
  set (n := (len t / 96)%nat). assert (len t = 96 * n + len t mod 96)%nat by (apply Nat.div_mod_eq).
  assert (len t mod 96 < 96)%nat by (apply Nat.mod_upper_bound; lia).
  rewrite Mix_loop_ret by lia. cbn [mbind outcome_bind]. rewrite fetch_ret by lia. cbn [mbind outcome_bind].
  rewrite take_ge by (rewrite length_drop; lia). set (tail := drop (n * 96) t).
  assert (len tail = (len t - n * 96)%nat) as El by (subst tail; by rewrite length_drop).
  rewrite store_ret by lia. cbn [mbind outcome_bind take app]. rewrite <- El.
  match goal with |- context [finish ?buf 0 _ ?h] => destruct (finish_ret buf 0 tail h) as (b & E & _) end.
  - rewrite take_0, !length_app, length_drop. cbn. lia.
  - lia.
  - rewrite drop_0, take_0. cbn [app]. by rewrite take_app_length.
  - rewrite E. done.
Qed.

(** ** The object *)

(** [n] blocks of the text so far are mixed, the rest of it is in m_data. *)
Definition mixed (s1 s2 : Z) (t : list Z) (data : list Z) (h : vars) (r : nat) : Prop :=
  ∃ n, len t = (n * 96 + r)%nat ∧ h = mixes n t (start_vars s1 s2) ∧ take r data = drop (n * 96) t.

Record hashes (s1 s2 : Z) (t : list Z) (s : hasher) : Prop := {
  hs_data : len (m_data s) = 192%nat;
  hs_length : m_length s = Z.of_nat (len t);
  hs_remainder : (m_remainder s < 192)%nat;
  hs_short : (len t < 192)%nat → m_remainder s = len t ∧ take (len t) (m_data s) = t ∧ v0 (m_state s) = s1 ∧ v1 (m_state s) = s2;
  hs_long : (192 ≤ len t)%nat → mixed s1 s2 t (m_data s) (m_state s) (m_remainder s)
}.

Lemma Init_hashes s s1 s2 : len (m_data s) = 192%nat → hashes s1 s2 [] (Init s s1 s2).
Proof.
  intros Hd. unfold Init. destruct (m_state s). split; cbn; [done|done|lia|done|lia].
Qed.

(** Before a long update, short messages included. *)
Lemma hashes_mixed s1 s2 t s : hashes s1 s2 t s →
  mixed s1 s2 t (m_data s) (if m_length s <? 192 then start_vars (v0 (m_state s)) (v1 (m_state s)) else m_state s) (m_remainder s).
Proof.
  intros [_ Hl _ Hs Hg]. destruct (Z.ltb_spec (m_length s) 192).
  - destruct Hs as (-> & Ht & -> & ->); [lia|]. exists O. cbn [mixes Nat.mul Nat.add]. by rewrite drop_0.
  - apply Hg. lia.
Qed.

Lemma mixed_app s1 s2 t data h r bs data' : mixed s1 s2 t data h r → (r + len bs ≤ len data')%nat →
  take (r + len bs) data' = take r data ++ bs → mixed s1 s2 (t ++ bs) data' h (r + len bs).
Proof.
  intros (n & Hl & -> & Ht) Hd Ht'. exists n. rewrite length_app, mixes_app, Ht', Ht, drop_app_le by lia. split; [lia|done].
Qed.

(** Two full blocks in m_data. *)
Lemma mixed_two s1 s2 t data h : mixed s1 s2 t data h 192 → len data = 192%nat →
  mixed s1 s2 t data (Mix (block_of (take 96 (drop 96 data))) (Mix (block_of (take 96 (drop 0 data))) h)) 0.
Proof.
  intros (n & Hl & -> & Ht) Hd. rewrite take_ge in Ht by lia. exists (n + 2)%nat. split; [lia|]. split.
  - rewrite mixes_add, <- Ht. cbn [mixes]. by rewrite drop_0.
  - rewrite take_0, drop_ge by lia. done.
Qed.

(** The blocks of a message and what is left of it. *)
Lemma mixed_blocks s1 s2 t data data' h k bs : mixed s1 s2 t data h 0 → (k * 96 ≤ len bs)%nat →
  take (len bs - k * 96) data' = drop (k * 96) bs → mixed s1 s2 (t ++ bs) data' (mixes k bs h) (len bs - k * 96).
Proof.
  intros (n & Hl & -> & _) Hk Ht. rewrite Nat.add_0_r in Hl. exists (n + k)%nat. rewrite length_app. split; [lia|]. split.
  - rewrite mixes_add, <- Hl, drop_app_length. f_equal. by rewrite mixes_app by lia.
  - rewrite Ht, Nat.mul_add_distr_r, <- Hl. by rewrite drop_app_add.
Qed.

(** The end of a long update: the whole blocks of the message from [p] on, and the rest. *)
Lemma blocks_hashes s1 s2 t data h p k message total : mixed s1 s2 t data h 0 → len data = 192%nat →
  (p + k ≤ len message)%nat → (192 ≤ len t + k)%nat → total = Z.of_nat (len t + k) →
  ∃ s', (let n := (k / 96)%nat in
    h ← Mix_loop n message p h;
    bytes ← fetch message (p + n * 96) (k - n * 96);
    data ← store data 0 bytes;
    Ret (mk_hasher data h total (k - n * 96))) = Ret s' ∧ hashes s1 s2 (t ++ take k (drop p message)) s'.
Proof.
  intros Hm Hd Hp H192 ->. assert (k = 96 * (k / 96) + k mod 96)%nat by (apply Nat.div_mod_eq).
  assert (k mod 96 < 96)%nat by (apply Nat.mod_upper_bound; lia). set (n := (k / 96)%nat) in *. cbn zeta.
  rewrite Mix_loop_ret by lia. cbn [mbind outcome_bind]. rewrite fetch_ret by lia. cbn [mbind outcome_bind].
  set (bs := take k (drop p message)). assert (len bs = k) as Ebs by (subst bs; rewrite length_take, length_drop; lia).
  assert (take (k - n * 96) (drop (p + n * 96) message) = drop (n * 96) bs) as ->
    by (subst bs; by rewrite skipn_firstn_comm, drop_drop).
  rewrite store_ret by (rewrite length_drop; lia). cbn [mbind outcome_bind]. eexists. split; [done|].
  assert (len (drop (n * 96) bs) = (k - n * 96)%nat) as Edr by (rewrite length_drop; lia).
  assert (len (t ++ bs) = (len t + k)%nat) as Elt by (rewrite length_app; lia).
  split; cbn [m_data m_length m_remainder m_state]; rewrite ?Elt; [|done|lia|lia|intros _].
  - rewrite length_stored by lia. done.
  - rewrite <- (mixes_take n k (drop p message)) by lia. fold bs. rewrite <- Ebs.
    apply (mixed_blocks s1 s2 t data); [done|lia|]. rewrite take_0. cbn [app]. apply take_app_length'. lia.
Qed.

Lemma Update_hashes s1 s2 t s message k : hashes s1 s2 t s → (k ≤ len message)%nat → Z.of_nat (len t + k) < 2 ^ 64 →
  ∃ s', Update s message k = Ret s' ∧ hashes s1 s2 (t ++ take k message) s'.
Proof.
  intros Hs Hk H64. assert (Hmx := hashes_mixed _ _ _ _ Hs). destruct Hs as [Hd Hl Hr Hsh Hlg]. unfold Update, sc_bufSize.
  assert (len (t ++ take k message) = (len t + k)%nat) as Elt by (rewrite length_app, length_take; lia).
  assert (u64 (Z.of_nat k + m_length s) = Z.of_nat (len t + k)) as -> by (rewrite u64_small; lia).
  destruct (Nat.ltb_spec (k + m_remainder s) 192) as [Hsm|Hbig].
  - rewrite fetch_ret, drop_0 by lia. cbn [mbind outcome_bind]. rewrite store_ret by (rewrite length_take; lia). cbn [mbind outcome_bind].
    eexists. split; [done|]. set (data := take (m_remainder s) (m_data s) ++ _).
    assert (len data = 192%nat) as Ed by (subst data; rewrite length_stored; [done|rewrite length_take; lia]).
    assert (take (m_remainder s + k) data = take (m_remainder s) (m_data s) ++ take k message) as Et.
    { subst data. rewrite app_assoc. apply take_app_length'. rewrite length_app, !length_take. lia. }
    split; cbn [m_data m_length m_remainder m_state]; [done|by rewrite Elt|lia| |].
    + intros Hlt. destruct Hsh as (Er & Ht & E1 & E2); [lia|]. split; [lia|]. split; [|done].
      rewrite Elt, <- Er, Et, Er, Ht. done.
    + intros Hge. rewrite Elt in Hge. destruct (decide (192 ≤ len t)%nat); [|destruct Hsh; lia].
      replace (k + m_remainder s)%nat with (m_remainder s + len (take k message))%nat by (rewrite length_take; lia).
      eapply mixed_app; [by apply Hlg|rewrite length_take; lia|]. rewrite length_take_le by lia. exact Et.
  - unfold sc_blockSize. set (h := if m_length s <? Z.of_nat 192 then _ else _).
    destruct (Nat.eqb_spec (m_remainder s) 0) as [E0|].
    + rewrite E0 in Hmx. cbn [mbind outcome_bind].
      destruct (blocks_hashes s1 s2 t (m_data s) h 0 k message (Z.of_nat (len t + k))) as (s' & E & Hs'); [exact Hmx|done|lia|lia|done|].
      rewrite drop_0 in Hs'. eauto.
    + remember (192 - m_remainder s)%nat as q eqn:Hq. rewrite fetch_ret, drop_0 by lia. cbn [mbind outcome_bind].
      assert (len (take q message) = q) as Eq by (rewrite length_take; lia).
      rewrite store_ret by lia. cbn [mbind outcome_bind]. set (data := take (m_remainder s) (m_data s) ++ _).
      assert (len data = 192%nat) as Ed by (subst data; rewrite length_stored; [done|lia]).
      rewrite load_block_ret by lia. cbn [mbind outcome_bind]. rewrite load_block_ret by lia. cbn [mbind outcome_bind].
      assert (mixed s1 s2 (t ++ take q message) data h (m_remainder s + len (take q message))) as Hm2.
      { apply (mixed_app _ _ _ (m_data s)); [exact Hmx|lia|]. subst data. rewrite app_assoc. apply take_app_length'.
        rewrite length_app, !length_take. lia. }
      replace (m_remainder s + len (take q message))%nat with 192%nat in Hm2 by lia. apply mixed_two in Hm2; [|done].
      destruct (blocks_hashes _ _ _ _ _ q (k - q) message (Z.of_nat (len t + k)) Hm2) as (s' & E & Hs'); [done|lia|rewrite length_app; lia|f_equal; rewrite length_app; lia|].
      exists s'. split; [exact E|]. rewrite <- app_assoc in Hs'.
      assert (take q message ++ take (k - q) (drop q message) = take k message) as Ek by (rewrite take_take_drop; f_equal; lia).
      by rewrite Ek in Hs'.
Qed.


(** The hash of a text, by the function on whole messages. *)
Definition hash_of (s1 s2 : Z) (t : list Z) : outcome (Z * Z) := Hash128 (replicate 96 0) t (len t) s1 s2.

Lemma Hash128_garbage garbage t s1 s2 : len garbage = 96%nat → Hash128 garbage t (len t) s1 s2 = hash_of s1 s2 t.
Proof.
  intros Hg. unfold hash_of. destruct (decide (len t < 192)%nat).
  - unfold Hash128. by rewrite (proj2 (Nat.ltb_lt _ _)).
  - rewrite !Hash128_long; (done || lia).
Qed.

Lemma Final_hashes s1 s2 t s : hashes s1 s2 t s →
  ∃ s' h, Final s = Ret (s', h) ∧ hash_of s1 s2 t = Ret h ∧ hashes s1 s2 t s'.
Proof.
  intros Hs. destruct Hs as [Hd Hl Hr Hsh Hlg] eqn:Ehs. clear Ehs. unfold Final, hash_of. change (Z.of_nat sc_bufSize) with 192.
  destruct (Z.ltb_spec (m_length s) 192).
  - destruct Hsh as (Er & Ht & E1 & E2); [lia|]. rewrite Hl, Nat2Z.id, E1, E2. unfold Hash128, sc_bufSize.
    rewrite (proj2 (Nat.ltb_lt _ _)) by lia.
    destruct (Short_agrees (m_data s) t (len t) ltac:(lia) ltac:(lia) ltac:(by rewrite Ht, take_ge) s1 s2) as (x & E & ->).
    rewrite E. cbn. eauto.
  - rewrite Hash128_long by (rewrite ?length_replicate; lia). destruct Hlg as (n & El & Est & Etk); [lia|].
    assert (∃ p tail h, (if (sc_blockSize <=? m_remainder s)%nat then
         x ← load_block (m_data s) 0;
         Ret (sc_blockSize, Mix x (m_state s), m_remainder s - sc_blockSize)%nat
       else Ret (0%nat, m_state s, m_remainder s)) = Ret (p, h, len tail) ∧ (len tail < 96)%nat ∧ (p + 96 ≤ 192)%nat ∧
       (p + len tail = m_remainder s)%nat ∧ take (len tail) (drop p (m_data s)) = tail ∧
       tail = drop (len t / 96 * 96) t ∧ h = mixes (len t / 96) t (start_vars s1 s2)) as (p & tail & h & -> & Htl & Hp & Hpr & Htd & Et & Eh).
    { unfold sc_blockSize. destruct (Nat.leb_spec 96 (m_remainder s)).
      - assert (len t / 96 = S n)%nat as Ediv by (symmetry; apply (Nat.div_unique _ _ _ (m_remainder s - 96)); lia).
        rewrite load_block_ret by lia. cbn [mbind outcome_bind].
        assert (len (drop (S n * 96) t) = (m_remainder s - 96)%nat) as Edr by (rewrite length_drop; lia).
        exists 96%nat, (drop (S n * 96) t), (Mix (block_of (take 96 (drop 0 (m_data s)))) (m_state s)). rewrite Edr, Ediv.
        split_and!; try lia; try done.
        + replace (S n * 96)%nat with (n * 96 + 96)%nat by lia. rewrite <- drop_drop, <- Etk. by rewrite skipn_firstn_comm.
        + replace (S n) with (n + 1)%nat by lia. rewrite mixes_add, <- Etk. cbn [mixes]. rewrite take_take, drop_0, Est.
          by replace (96 `min` m_remainder s)%nat with 96%nat by lia.
      - assert (len t / 96 = n)%nat as Ediv by (symmetry; apply (Nat.div_unique _ _ _ (m_remainder s)); lia).
        assert (len (drop (n * 96) t) = m_remainder s) as Edr by (rewrite length_drop; lia).
        exists 0%nat, (drop (n * 96) t), (m_state s). rewrite Edr, Ediv, drop_0. split_and!; (done || lia). }
    cbn [mbind outcome_bind]. destruct (finish_ret (m_data s) p tail h ltac:(lia) Htl Htd) as (b & -> & Hbl & Hbt).
    cbn [mbind outcome_bind]. eexists _, _. split; [done|]. split; [by rewrite Et, Eh|].
    rewrite Hpr in Hbt. split; cbn [m_data m_length m_remainder m_state]; [lia|done|lia|lia|]. intros _. exists n. by rewrite Hbt.
Qed.

(** ** Any use of a hasher *)

Inductive op := OpUpdate (piece : list Z) | OpFinal.

(** The hashes that the calls of Final return. *)
Fixpoint run (ops : list op) (s : hasher) : outcome (list (Z * Z)) :=
  match ops with
  | [] => Ret []
  | OpUpdate piece :: ops => s ← Update s piece (len piece); run ops s
  | OpFinal :: ops => '(s, h) ← Final s; hs ← run ops s; Ret (h :: hs)
  end.

(** What they promise: the hash of all that was added so far, in one call. *)
Fixpoint promised (garbage : list Z) (s1 s2 : Z) (ops : list op) (t : list Z) : outcome (list (Z * Z)) :=
  match ops with
  | [] => Ret []
  | OpUpdate piece :: ops => promised garbage s1 s2 ops (t ++ piece)
  | OpFinal :: ops => h ← Hash128 garbage t (len t) s1 s2; hs ← promised garbage s1 s2 ops t; Ret (h :: hs)
  end.

Definition added (o : op) : list Z := match o with OpUpdate piece => piece | OpFinal => [] end.

Lemma run_hashes garbage s1 s2 ops t s : len garbage = 96%nat → hashes s1 s2 t s →
  Z.of_nat (len (t ++ concat (map added ops))) < 2 ^ 64 →
  ∃ hs, run ops s = Ret hs ∧ promised garbage s1 s2 ops t = Ret hs.
Proof.
  intros Hg. revert t s. induction ops as [|[piece|] ops IH]; intros t s Hs H64; cbn [run promised map concat added] in *; [eauto| |].
  - destruct (Update_hashes s1 s2 t s piece (len piece) Hs) as (s' & -> & Hs'); [lia|rewrite !length_app in H64; lia|].
    rewrite take_ge in Hs' by lia. cbn [mbind outcome_bind]. apply IH; [done|]. by rewrite <- app_assoc.
  - destruct (Final_hashes s1 s2 t s Hs) as (s' & h & -> & Eh & Hs'). rewrite Hash128_garbage, Eh by done. cbn [mbind outcome_bind].
    destruct (IH t s' Hs') as (hs & -> & ->); [done|]. cbn. eauto.
Qed.

(** C15: A hash taken of a message in pieces is the hash of the whole message: after Init, for
    any sequence of Update and Final, every Final returns what Hash128 returns for all the pieces
    so far; taking a hash does not disturb the following ones, the bytes that the arrays hold at
    first do not matter, and no access leaves an array. *)
Theorem spooky_incremental (garbage : list Z) (s0 : hasher) (s1 s2 : Z) (ops : list op) :
  len garbage = 96%nat → len (m_data s0) = 192%nat → Z.of_nat (len (concat (map added ops))) < 2 ^ 64 →
  ∃ hs, run ops (Init s0 s1 s2) = Ret hs ∧ promised garbage s1 s2 ops [] = Ret hs.
Proof. intros Hg Hd H64. apply (run_hashes garbage s1 s2 ops [] (Init s0 s1 s2) Hg); [by apply Init_hashes|done]. Qed.

Module Demo.
Definition uninit : hasher := mk_hasher (replicate 192 7) (mk_vars 1 2 3 4 5 6 7 8 9 10 11 12) 99 3.
Definition ops : list op :=
  [OpUpdate (replicate 100 1); OpFinal; OpUpdate (replicate 120 2); OpFinal; OpUpdate []; OpUpdate (replicate 300 3); OpFinal].
Lemma spooky_incremental_witness : ∃ hs, run ops (Init uninit 5 6) = Ret hs ∧ promised (replicate 96 1) 5 6 ops [] = Ret hs.
Proof. apply (spooky_incremental (replicate 96 1) uninit 5 6 ops); [reflexivity|reflexivity|vm_compute; reflexivity]. Defined.
End Demo.

End SpookyProof.
