(* ===== verification/BufHash.v ===== *)
(** The function objects IOBufHash and IOBufEqual of io/IOBuf.cpp, that make chains of buffers
    the keys of hash tables: cursors of Cursor.v over the chains of IOBuf.v, and the hash of
    Spooky.v.  The two agree with each other, and both see only the bytes of a chain. *)
From S2P Require Import Prelude IOBuf IOBufInv IOBufChain IOBufMem IOBufLife IOBufOps IOBufSpec Cursor CursorProof CursorSpec Spooky SpookyProof.
Import IOBuf.

Module BufHash.
Import Cursor.
#[local] Abbreviation len := List.length.

(** for (;;): every turn but the last takes at least one byte; [fuel] is the number of bytes. *)
Fixpoint IOBufHash_loop (fuel : nat) (hasher : Spooky.hasher) (c : cursor) : M Spooky.hasher :=
  '(p, n, c) ← peek c;
  if n =? 0 then mret hasher else
  match fuel with
  | O => throw OutOfFuel
  | S fuel =>
      bytes ← load p n;
      hasher ← lift (Spooky.Update hasher bytes (Z.to_nat n));
      '(_, c) ← skip n c;
      IOBufHash_loop fuel hasher c
  end.

(** [raw] is what the object hasher holds before Init. *)
Definition IOBufHash (raw : Spooky.hasher) (buf : Z) : M Z :=
  let cursor := new_cursor buf in
  total ← totalLength cursor;
  hasher ← IOBufHash_loop (Z.to_nat total) (Spooky.Init raw 0 0) cursor;
  '(_, (h1, h2)) ← lift (Spooky.Final hasher);
  mret h1.

Fixpoint IOBufEqual_loop (fuel : nat) (ca cb : cursor) : M bool :=
  '(pa, na, ca) ← peek ca;
  '(pb, nb, cb) ← peek cb;
  if (na =? 0) && (nb =? 0) then mret true else
  if (na =? 0) || (nb =? 0) then mret false else
  match fuel with
  | O => throw OutOfFuel
  | S fuel =>
      let n := Z.min na nb in
      _ ← assert_ (0 <? n);
      xa ← load pa n;
      xb ← load pb n;
      if negb (bool_decide (xa = xb)) then mret false else
      '(_, ca) ← skip n ca;
      '(_, cb) ← skip n cb;
      IOBufEqual_loop fuel ca cb
  end.
Definition IOBufEqual (a b : Z) : M bool :=
  let ca := new_cursor a in
  let cb := new_cursor b in
  total ← totalLength ca;
  IOBufEqual_loop (Z.to_nat total) ca cb.

(** ** Proofs *)

Import CursorProof CursorSpec.

Section Chains.
Context (U : gset Z) (h : heap) (Hok : ok U h).

Lemma peek_spec p L c B : at_ h p L c B → ∃ q c' B',
  gives (peek c) h (Ret (q, Z.of_nat (len (avail h c')), c')) ∧
  (∀ n, 0 ≤ n ≤ Z.of_nat (len (avail h c')) → gives (load q n) h (Ret (take (Z.to_nat n) (avail h c')))) ∧
  (avail h c' = [] → rest h c B = []) ∧ at_ h p L c' B' ∧ rest h c' B' = rest h c B.
Proof.
  intros Hc. destruct (gives_fuel h p L c B Hc) as (n & Hn & Hf).
  destruct (peek_loop_spec U h Hok B p L c n Hc Hf) as (q & c' & B' & Hk & Hd & Hl & He & Hc' & Hr). exists q, c', B'.
  split; [eapply gives_bind; [exact Hn|exact Hk]|]. split; [|split; [|done]].
  - intros k Hk'. pose proof (gives_copy_out U h Hok p L c' B' k Hc' Hk') as Hcopy. unfold copy_out in Hcopy.
    unfold gives, mbind, St_bind in *. by rewrite Hd in Hcopy.
  - intros E. rewrite <- Hr. unfold rest. by rewrite E, (He E).
Qed.

Lemma skip_within p L c B n : at_ h p L c B → 0 ≤ n ≤ Z.of_nat (len (avail h c)) → ∃ c' B',
  gives (skip n c) h (Ret (tt, c')) ∧ at_ h p L c' B' ∧ rest h c' B' = drop (Z.to_nat n) (rest h c B).
Proof.
  intros Hc Hn. destruct (gives_length U h Hok p L c B Hc) as [_ H62].
  pose proof (skip_spec U h Hok p L c B Hc n ltac:(lia)) as Hs.
  rewrite (proj2 (Z.leb_le _ _)) in Hs by (unfold rest; rewrite length_app; lia). exact Hs.
Qed.

(** Hashing what is left of a chain. *)
Lemma IOBufHash_loop_spec fuel p L c B t s : at_ h p L c B → SpookyProof.hashes 0 0 t s →
  (len (rest h c B) ≤ fuel)%nat → Z.of_nat (len t + len (rest h c B)) < 2 ^ 64 →
  ∃ s', gives (IOBufHash_loop fuel s c) h (Ret s') ∧ SpookyProof.hashes 0 0 (t ++ rest h c B) s'.
Proof.
  revert c B t s. induction fuel as [|fuel IH]; intros c B t s Hc Hs Hf H64;
    destruct (peek_spec p L c B Hc) as (q & c' & B' & Hpeek & Hload & Hnil & Hc' & Hr); cbn [IOBufHash_loop];
    destruct (Z.eqb_spec (Z.of_nat (len (avail h c'))) 0) as [E|E].
  1, 3: exists s; split; [eapply gives_bind; [exact Hpeek|]; cbn beta iota; rewrite E; by apply gives_ret|];
    rewrite Hnil by (apply nil_length_inv; lia); by rewrite app_nil_r.
  { assert (len (rest h c' B') ≤ 0)%nat by (rewrite Hr; lia). unfold rest in *. rewrite length_app in *. lia. }
  set (n := Z.of_nat (len (avail h c'))) in *.
  destruct (skip_within p L c' B' n Hc' ltac:(lia)) as (c2 & B2 & Hskip & Hc2 & Hr2).
  assert (Hlen : (len (avail h c') ≤ len (rest h c B))%nat) by (rewrite <- Hr; unfold rest; rewrite length_app; lia).
  pose proof (Hload n ltac:(lia)) as Hl. rewrite take_ge in Hl by lia.
  destruct (SpookyProof.Update_hashes 0 0 t s (avail h c') (Z.to_nat n) Hs ltac:(lia) ltac:(lia)) as (s1 & Hu & Hs1).
  rewrite take_ge in Hs1 by lia.
  assert (Edrop : rest h c2 B2 = contents h B') by (rewrite Hr2; unfold rest; rewrite drop_app_length'; [done|lia]).
  assert (Elen : len (rest h c B) = (len (avail h c') + len (contents h B'))%nat) by (rewrite <- Hr; unfold rest; by rewrite length_app).
  destruct (IH c2 B2 (t ++ avail h c') s1 Hc2 Hs1) as (s' & Hrun & Hs').
  { rewrite Edrop. lia. }
  { rewrite length_app, Edrop. lia. }
  exists s'. split.
  - eapply gives_bind; [exact Hpeek|]. cbn beta iota. rewrite (proj2 (Z.eqb_neq _ _) E). eapply gives_bind; [exact Hl|].
    eapply gives_bind; [unfold gives, lift; by rewrite Hu|]. eapply gives_bind; [exact Hskip|]. exact Hrun.
  - rewrite Edrop, <- app_assoc in Hs'. rewrite <- Hr. exact Hs'.
Qed.

(** Comparing what is left of two chains. *)
Lemma rest_end p L c B : at_ h p L c B → Z.of_nat (len (avail h c)) ≠ 0 → rest h c B ≠ [].
Proof. intros _ Hn E. unfold rest in E. apply app_eq_nil in E as [E _]. by rewrite E in Hn. Qed.

Lemma take_rest c B n : (n ≤ len (avail h c))%nat → take n (rest h c B) = take n (avail h c).
Proof. intros Hn. by apply take_app_le. Qed.

(** Lists with the same first [n] elements are equal exactly when the rests are. *)
Lemma prefix_eq n (l k : list Z) :
  bool_decide (l = k) = (if negb (bool_decide (take n l = take n k)) then false else bool_decide (drop n l = drop n k)).
Proof.
  destruct (decide (take n l = take n k)) as [Et|Et].
  - rewrite (bool_decide_eq_true_2 _ Et). cbn [negb]. apply bool_decide_ext. split; [by intros ->|].
    intros Ed. by rewrite <- (take_drop n l), <- (take_drop n k), Et, Ed.
  - rewrite (bool_decide_eq_false_2 _ Et). cbn [negb]. apply bool_decide_eq_false_2. by intros ->.
Qed.

Lemma IOBufEqual_loop_spec fuel p L q K ca A cb B : at_ h p L ca A → at_ h q K cb B → (len (rest h ca A) ≤ fuel)%nat →
  gives (IOBufEqual_loop fuel ca cb) h (Ret (bool_decide (rest h ca A = rest h cb B))).
Proof.
  revert ca A cb B. induction fuel as [|fuel IH]; intros ca A cb B Ha Hb Hf;
    destruct (peek_spec p L ca A Ha) as (xa & ca' & A' & Hpa & Hla & Hna & Ha' & Hra);
    destruct (peek_spec q K cb B Hb) as (xb & cb' & B' & Hpb & Hlb & Hnb & Hb' & Hrb); cbn [IOBufEqual_loop];
    (eapply gives_bind; [exact Hpa|]; cbn beta iota; eapply gives_bind; [exact Hpb|]; cbn beta iota);
    rewrite <- Hra in *; rewrite <- Hrb in *; pose proof (rest_end _ _ _ _ Ha') as Hxa; pose proof (rest_end _ _ _ _ Hb') as Hxb;
    destruct (Z.eqb_spec (Z.of_nat (len (avail h ca'))) 0) as [Ea|Ea], (Z.eqb_spec (Z.of_nat (len (avail h cb'))) 0) as [Eb|Eb]; cbn [andb orb];
    try (rewrite Hna by (apply nil_length_inv; lia)); try (rewrite Hnb by (apply nil_length_inv; lia)); try apply gives_ret;
    try (apply gives_val; symmetry; apply bool_decide_eq_false_2; naive_solver).
  { exfalso. apply (Hxa Ea), nil_length_inv. lia. }
  remember (Z.min (Z.of_nat (len (avail h ca'))) (Z.of_nat (len (avail h cb')))) as n eqn:En. cbn zeta.
  eapply gives_bind; [unfold assert_; rewrite (proj2 (Z.ltb_lt 0 n)) by lia; apply gives_ret|].
  eapply gives_bind; [apply Hla; lia|]. eapply gives_bind; [apply Hlb; lia|].
  rewrite (prefix_eq (Z.to_nat n) (rest h ca' A')), !take_rest by lia. destruct (negb _); [apply gives_ret|].
  destruct (skip_within p L ca' A' n Ha' ltac:(lia)) as (c1 & A1 & Hs1 & Hc1 & Hr1).
  destruct (skip_within q K cb' B' n Hb' ltac:(lia)) as (c2 & B2 & Hs2 & Hc2 & Hr2).
  eapply gives_bind; [exact Hs1|]. eapply gives_bind; [exact Hs2|]. rewrite <- Hr1, <- Hr2. apply (IH c1 A1 c2 B2 Hc1 Hc2).
  rewrite Hr1, length_drop. lia.
Qed.

Lemma rest_new p L : rest h (new_cursor p) L = contents h (p :: L).
Proof. unfold rest, avail. cbn [new_cursor offset_ crtBuf_]. by rewrite drop_0, contents_cons. Qed.

Lemma IOBufHash_spec raw garbage p L : chain h p L → Z.of_nat (len (contents h (p :: L))) < 2 ^ 64 →
  len (Spooky.m_data raw) = 192%nat → len garbage = 96%nat → ∃ hash, gives (IOBufHash raw p) h (Ret hash) ∧
    Spooky.Hash64 garbage (contents h (p :: L)) (len (contents h (p :: L))) 0 = Ret hash.
Proof.
  intros Hch H64 Hraw Hg. pose proof (at_new h p L Hch) as Hc. pose proof (totalLength_spec U h Hok p L _ _ Hc H64) as Ht.
  rewrite rest_new in Ht.
  destruct (IOBufHash_loop_spec (len (contents h (p :: L))) p L (new_cursor p) L [] (Spooky.Init raw 0 0) Hc) as (s & Hl & Hs);
    [by apply SpookyProof.Init_hashes|by rewrite rest_new|by rewrite rest_new|].
  rewrite rest_new in Hs. cbn [app] in Hs. destruct (SpookyProof.Final_hashes _ _ _ _ Hs) as (s' & [h1 h2] & Hf & Hh & _).
  exists h1. unfold Spooky.Hash64. rewrite SpookyProof.Hash128_garbage, Hh by done. split; [|done].
  eapply gives_bind; [exact Ht|]. rewrite Nat2Z.id. eapply gives_bind; [exact Hl|].
  eapply gives_bind; [unfold gives, lift; by rewrite Hf|]. apply gives_ret.
Qed.

Lemma IOBufEqual_spec p q L K : chain h p L → chain h q K → Z.of_nat (len (contents h (p :: L))) < 2 ^ 64 →
  gives (IOBufEqual p q) h (Ret (bool_decide (contents h (p :: L) = contents h (q :: K)))).
Proof.
  intros Hp Hq H64. pose proof (at_new h p L Hp) as Hc. pose proof (at_new h q K Hq) as Hd.
  pose proof (totalLength_spec U h Hok p L _ _ Hc H64) as Ht. eapply gives_bind; [exact Ht|].
  rewrite Nat2Z.id, <- !rest_new. by apply (IOBufEqual_loop_spec _ p L q K).
Qed.
End Chains.

(** C12: The hash and the comparison of chains see only their bytes. Whatever chains of buffers
    [p] and [q] start, in a sound heap: IOBufEqual tells whether the concatenations of their
    bytes are equal, IOBufHash gives Hash64 with the seed 0 of the concatenation, whatever the
    hasher held before; so chains that compare equal have equal hashes, however the bytes are
    spread over their elements.  Both leave the heap as it is, read nothing outside the buffers,
    violate no assertion and end. *)
Theorem iobuf_hash_correct (U : gset Z) (h : heap) (p q : Z) (L K : list Z) (raw : Spooky.hasher) (garbage : list Z) :
  ok U h → chain h p L → chain h q K →
  Z.of_nat (len (contents h (p :: L))) < 2 ^ 64 → Z.of_nat (len (contents h (q :: K))) < 2 ^ 64 →
  len (Spooky.m_data raw) = 192%nat → len garbage = 96%nat →
  gives (IOBufEqual p q) h (Ret (bool_decide (contents h (p :: L) = contents h (q :: K)))) ∧
  ∃ hash, gives (IOBufHash raw p) h (Ret hash) ∧
    Spooky.Hash64 garbage (contents h (p :: L)) (len (contents h (p :: L))) 0 = Ret hash ∧
    (contents h (p :: L) = contents h (q :: K) → gives (IOBufHash raw q) h (Ret hash)).
Proof.
  intros Hok Hp Hq H64 H64' Hraw Hg. split; [by apply (IOBufEqual_spec U)|].
  destruct (IOBufHash_spec U h Hok raw garbage p L Hp H64 Hraw Hg) as (hash & Hh & E). exists hash. split; [done|]. split; [done|].
  intros Ec. destruct (IOBufHash_spec U h Hok raw garbage q K Hq H64' Hraw Hg) as (hash' & Hh' & E').
  rewrite <- Ec in E'. congruence.
Qed.

Module Demo.
Import IOBufSpec.Demo.
Lemma iobuf_hash_correct_witness : contents h3 [p1; p2] = [1; 2; 3; 4; 5] ∧ gives (IOBufEqual p1 p1) h3 (Ret true) ∧
  ∃ hash, gives (IOBufHash SpookyProof.Demo.uninit p1) h3 (Ret hash) ∧
    Spooky.Hash64 (replicate 96 0) [1; 2; 3; 4; 5] 5 0 = Ret hash.
Proof.
  assert (E : contents h3 [p1; p2] = [1; 2; 3; 4; 5]) by by vm_compute. destruct ok3 as (Hok & Hch & _).
  destruct (iobuf_hash_correct ∅ h3 p1 p1 [p2] [p2] SpookyProof.Demo.uninit (replicate 96 0) Hok Hch Hch) as (He & hash & Hh & Hs & _);
    [by rewrite E|by rewrite E|done|done|].
  rewrite bool_decide_eq_true_2 in He by done. rewrite E in Hs. split; [exact E|]. split; [exact He|]. exists hash. split; [exact Hh|exact Hs].
Defined.
End Demo.

End BufHash.
