(* ===== verification/Appender.v ===== *)
(** raster/io/Cursor.h, the writing side: classes Appender and Writable. The bytes a
    caller passes in its own memory are a list; those that a cursor reads are loaded
    from the chain when they are pushed. *)
From S2P Require Import Prelude IOBuf Cursor.
Import IOBuf.

Module Appender.
#[local] Abbreviation len l := (Z.of_nat (List.length l)).

Record appender := mk_appender { abuffer_ : Z; acrtBuf_ : Z; growth_ : Z }.

Definition overflow {A} : M A := throw (Thrown "out_of_range: overflow").
Definition cant_grow {A} : M A := throw (Thrown "out_of_range: can't grow buffer chain").

Definition new_appender (buf growth : Z) : M appender := b ← deref buf; mret (mk_appender buf (prev_ b) growth).

Definition writableData (a : appender) : M ptr := b ← deref (acrtBuf_ a); mret (tail b).
Definition room (a : appender) : M Z := b ← deref (acrtBuf_ a); mret (tailroom b).
Definition append (a : appender) (n : Z) : M unit := IOBuf.append (acrtBuf_ a) n.

(** memcpy(writableData(), buf, n) *)
Definition copy_in (a : appender) (bs : list Z) : M unit := p ← writableData a; store p bs.

Section alloc.
Context (uninit : Z → Z → Z) (mem_limit : Z).

(** buffer_->prependChain(IOBuf::create(n)); crtBuf_ = buffer_->prev(); *)
Definition grow (n : Z) (a : appender) : M appender :=
  q ← create uninit mem_limit n;
  _ ← prependChain (abuffer_ a) q;
  b ← deref (abuffer_ a);
  mret (mk_appender (abuffer_ a) (prev_ b) (growth_ a)).

Definition ensure (n : Z) (a : appender) : M appender :=
  available ← room a;
  if n <=? available then mret a else
  if growth_ a =? 0 then cant_grow else
  grow (Z.max n (growth_ a)) a.

Definition tryGrowChain (a : appender) : M (bool * appender) :=
  b ← deref (acrtBuf_ a);
  _ ← assert_ (next_ b =? abuffer_ a);
  if growth_ a =? 0 then mret (false, a) else
  a ← grow (growth_ a) a;
  mret (true, a).

(** for (;;): after the first round every round writes at least one byte, since the
    new element has room for growth_ > 0. *)
Fixpoint pushAtMost_loop (fuel : nat) (a : appender) (buf : list Z) (copied : Z) : M (Z * appender) :=
  match fuel with
  | O => throw OutOfFuel
  | S fuel =>
      available ← room a;
      if len buf <=? available then
        _ ← copy_in a buf;
        _ ← append a (len buf);
        mret (u64 (copied + len buf), a)
      else
        _ ← copy_in a (take (Z.to_nat available) buf);
        _ ← append a available;
        let copied := u64 (copied + available) in
        '(more, a) ← tryGrowChain a;
        if negb more then mret (copied, a)
        else pushAtMost_loop fuel a (drop (Z.to_nat available) buf) copied
  end.
Definition pushAtMost (buf : list Z) (a : appender) : M (Z * appender) :=
  pushAtMost_loop (2 + List.length buf) a buf 0.

Definition push (buf : list Z) (a : appender) : M appender :=
  '(k, a) ← pushAtMost buf a;
  if negb (k =? len buf) then overflow else mret a.

(** write<T>(): the bytes of the value in memory, on a little-endian host. *)
Fixpoint le_bytes (size : nat) (v : Z) : list Z :=
  match size with O => [] | S size => v mod 256 :: le_bytes size (v / 256) end.
Definition write (bs : list Z) (a : appender) : M appender := push bs a.
Definition writeLE (size v : Z) (a : appender) : M appender := write (le_bytes (Z.to_nat size) v) a.
Definition writeBE (size v : Z) (a : appender) : M appender := write (rev (le_bytes (Z.to_nat size) v)) a.

(** pushAtMost(cursor, len): every round that goes on takes at least one byte. *)
Fixpoint pushCursor_loop (fuel : nat) (c : Cursor.cursor) (a : appender) (written n : Z) : M (Z * appender) :=
  match fuel with
  | O => throw OutOfFuel
  | S fuel =>
      '(crtData, available, c) ← Cursor.peek c;
      if available =? 0 then mret (written, a) else
      if n <=? available then
        bs ← load crtData n;
        a ← push bs a;
        '(_, c) ← Cursor.skip n c;
        mret (u64 (written + n), a)
      else
        bs ← load crtData available;
        a ← push bs a;
        '(_, c) ← Cursor.skip available c;
        pushCursor_loop fuel c a (u64 (written + available)) (n - available)
  end.
Definition pushCursorAtMost (c : Cursor.cursor) (n : Z) (a : appender) : M (Z * appender) :=
  pushCursor_loop (S (Z.to_nat n)) c a 0 n.
Definition pushCursor (c : Cursor.cursor) (n : Z) (a : appender) : M appender :=
  '(k, a) ← pushCursorAtMost c n a;
  if negb (k =? n) then overflow else mret a.

End alloc.
End Appender.
