(* ===== verification/AppenderProof.v ===== *)
(** Appending to a chain: what an Appender writes is what the chain holds after what it
    held before, and no other object notices. *)
From S2P Require Import Prelude IOBuf IOBufInv IOBufChain IOBufMem IOBufLife IOBufOps IOBufSpec Cursor CursorProof Appender.
Import IOBuf.

Module AppenderProof.
Import CursorProof Appender.
#[local] Abbreviation len l := (Z.of_nat (List.length l)).

(** ** Where an appender is *)

(** It writes to the last element of the chain of [p], whose memory nobody shares. *)
Record writing (U : gset Z) (h : heap) (p : Z) (L : list Z) (a : appender) : Prop := {
  wr_ok : ok U h;
  wr_chain : chain h p L;
  wr_buffer : abuffer_ a = p;
  wr_crt : acrtBuf_ a = lst p L;
  wr_own : unique h (lst p L)
}.

(** From [h] to [h'] the chain has got the elements [N] and the bytes [bs]. *)
Record appended (U : gset Z) (h : heap) (p : Z) (L : list Z) (a : appender) (bs : list Z)
    (h' : heap) (N : list Z) (a' : appender) : Prop := {
  ap_writing : writing U h' p (L ++ N) a';
  ap_growth : growth_ a' = growth_ a;
  ap_new : ∀ x, x ∈ N → bufs h !! x = None ∧ heapobj h' x;
  ap_contents : contents h' (p :: L ++ N) = contents h (p :: L) ++ bs;
  ap_heap : ∀ x, heapobj h x → heapobj h' x;
  ap_fields : ∀ x b, bufs h !! x = Some b →
    ∃ b', bufs h' !! x = Some b' ∧ data_ b' = data_ b ∧ buf_ b' = buf_ b ∧ capacity_ b' = capacity_ b;
  ap_affects : affects (p :: L ++ N) h h'
}.

Lemma appended_refl U h p L a : writing U h p L a → appended U h p L a [] h [] a.
Proof. intros Hw. split; rewrite ?app_nil_r; try done; [set_solver|eauto]. Qed.

Lemma appended_trans U h1 h2 h3 p L a1 a2 a3 b1 b2 N1 N2 :
  appended U h1 p L a1 b1 h2 N1 a2 → appended U h2 p (L ++ N1) a2 b2 h3 N2 a3 →
  appended U h1 p L a1 (b1 ++ b2) h3 (N1 ++ N2) a3.
Proof.
  intros [W1 G1 N1' C1 H1 F1 A1] [W2 G2 N2' C2 H2 F2 A2]. rewrite <- (assoc_L (++)) in W2, C2, A2.
  assert (∀ x, x ∈ N2 → bufs h1 !! x = None) as Hnew.
  { intros x Hx. destruct (N2' x Hx) as [Hn _]. destruct (decide (x ∈ p :: L ++ N1)) as [Hin|Hout].
    - destruct (chain_bufs_in h2 p (L ++ N1) x (wr_chain _ _ _ _ _ W1) Hin) as [b Hb]. congruence.
    - by rewrite (af_bufs _ _ _ A1) in Hn. }
  split; [done|congruence| |by rewrite C2, C1, <- (assoc_L (++))|auto| |].
  - intros x [Hx|Hx]%elem_of_app; [destruct (N1' x Hx); auto|]. split; [auto|by apply N2'].
  - intros x b Hb. destruct (F1 x b Hb) as (c1 & Hc1 & E1 & E2 & E3). destruct (F2 x c1 Hc1) as (c2 & Hc2 & E4 & E5 & E6).
    exists c2. split; [done|]. by rewrite E4, E5, E6.
  - eapply affects_trans; [eapply affects_mono; [|exact A1]|exact A2]. set_solver.
Qed.

(** ** One element *)

Lemma lst_split x l : ∃ A, x :: l = A ++ [lst x l].
Proof.
  revert x. induction l as [|y l IH]; intros x; cbn [lst]; [by exists []|]. destruct (IH y) as [A HA]. exists (x :: A). cbn. by rewrite <- HA.
Qed.

Lemma contents_last h p L : ∃ A, p :: L = A ++ [lst p L] ∧ contents h (p :: L) = contents h A ++ bytes_at h (lst p L).
Proof.
  destruct (lst_split p L) as [A HA]. exists A. split; [done|]. rewrite HA at 1. rewrite contents_app, contents_cons.
  change (contents h []) with (@nil Z). by rewrite app_nil_r.
Qed.

(** The fields that links, sharing and storage depend on are the same. *)
Lemma chain_same_links h h' p L : chain h p L → (∀ x, next_of h' x = next_of h x ∧ prev_of h' x = prev_of h x) → chain h' p L.
Proof. intros [Hp Hnd] Hs. split; [|done]. apply (path_frame h); [done|..]; intros z _; apply Hs. Qed.

Section here.
Context (U : gset Z) (h : heap) (p : Z) (L : list Z) (a : appender) (b : iobuf).
Context (Hw : writing U h p L a) (Hb : bufs h !! lst p L = Some b).

Lemma wp_crt {A} (f : iobuf → M A) (Q : A → heap → Prop) : wp (f b) Q h → wp (b ← deref (acrtBuf_ a); f b) Q h.
Proof. intros Hf. apply wp_bind. rewrite (wr_crt _ _ _ _ _ Hw). by apply (wp_deref_buf (lst p L) b). Qed.

Lemma wp_room (Q : Z → heap → Prop) : Q (tailroom b) h → wp (room a) Q h.
Proof. intros HQ. apply wp_crt. by apply wp_ret. Qed.

Lemma tailroom_range : 0 ≤ tailroom b < 2 ^ 62.
Proof.
  pose proof (ok_geo U h _ b (wr_ok _ _ _ _ _ Hw) Hb) as Hg. destruct (room_small _ _ Hg) as [_ ->]. destruct Hg. lia.
Qed.

(** Writing [bs] after the data and marking it as data. *)
Lemma wp_write_here bs n (Q : unit → heap → Prop) : len bs = n → n ≤ tailroom b →
  (∀ h' b', appended U h p L a bs h' [] a → bufs h' !! lst p L = Some b' → tailroom b' = tailroom b - len bs → Q tt h') →
  wp (_ ← copy_in a bs; append a n) Q h.
Proof.
  intros <- Hbs HQ. pose proof Hw as [Hok Hch Ebuf Ecrt Hun]. set (q := lst p L) in *.
  pose proof (ok_geo U h q b Hok Hb) as Hg. destruct (room_small _ _ Hg) as [_ Ht].
  assert (∀ (Q : unit → heap → Prop),
    (∀ h1, ok U h1 → affects [q] h h1 → bufs h1 = bufs h → stores h1 = stores h → infos h1 = infos h →
       bytes (mem h1) b = bytes (mem h) b → slice (off (data_ b) + length_ b) (len bs) (default [] (mem h1 !! blk (data_ b))) = bs → Q tt h1) →
    wp (copy_in a bs) Q h) as Hst.
  { intros Q' HQ'. unfold copy_in, writableData. apply wp_bind, wp_crt, wp_ret. destruct bs as [|x bs'] eqn:Ebs.
    - apply wp_ret. apply HQ'; try done.
    - rewrite <- Ebs in *. assert (0 < len bs) by (rewrite Ebs; cbn; lia). destruct Hg as [G1 G2 G3 G4 G5].
      apply (wp_store_own U q b); try done; cbn; try lia.
      intros l Hl Hle Hok1 Ha1 _. apply HQ'; try done; cbn in *.
      + unfold bytes. rewrite Hl, lookup_insert_eq. cbn. apply slice_splice_before; lia.
      + rewrite lookup_insert_eq. cbn. apply slice_splice_same; lia. }
  apply wp_bind, Hst. intros h1 Hok1 Ha1 Eb1 Es1 Ei1 Hold Hnew. unfold append. rewrite Ecrt.
  assert (bufs h1 !! q = Some b) as Hb1 by (by rewrite Eb1).
  apply (wp_append U q b (len bs)); [done|done|lia|]. cbn zeta. intros Hok2 Ha2.
  set (b2 := with_view (data_ b) (length_ b + len bs) b) in *. set (h2 := set_bufs _ h1) in *.
  assert (bufs h2 !! q = Some b2) as Hb2 by (cbn; by rewrite lookup_insert_eq).
  pose proof (ok_geo U h2 q b2 Hok2 Hb2) as Hg2. destruct (room_small _ _ Hg2) as [_ Ht2].
  assert (affects [q] h h2) as Ha by (by eapply affects_trans).
  apply (HQ h2 b2); [|done|rewrite Ht2, Ht; cbn; lia].
  assert (chain h2 p L) as Hch2.
  { apply (chain_same_links h); [done|]. intros x. unfold next_of, prev_of. cbn. rewrite Eb1.
    destruct (decide (x = q)) as [->|Hx]; [by rewrite lookup_insert_eq, Hb|by rewrite lookup_insert_ne]. }
  split; rewrite ?app_nil_r; [|done|set_solver| | | |].
  - split; try done. apply (unique_mono h); [done| |].
    + intros c Hc. exists b2. split; [done|]. injection (eq_trans (eq_sym Hc) Hb) as ->. done.
    + intros k c. cbn. rewrite Eb1. intros [[<- <-]|[_ Hk]]%lookup_insert_Some; [by exists b|by exists c].
  - destruct (lst_split p L) as [A HA]. fold q in HA. rewrite HA, !contents_app, !contents_cons. change (contents _ []) with (@nil Z). rewrite !app_nil_r.
    rewrite (affects_contents U [q] h h2 A Hok Ha).
    2: { intros x Hx ->%list_elem_of_singleton. destruct Hch as [_ Hnd]. rewrite HA in Hnd. apply NoDup_app in Hnd as (_ & Hd & _).
         apply (Hd _ Hx). set_solver. }
    rewrite <- (assoc_L (++)). f_equal. unfold bytes_at. rewrite Hb2, Hb. destruct Hg as [G1 G2 G3 G4 G5].
    change (mem h2) with (mem h1). rewrite <- Hold. unfold bytes. cbn [data_ length_ b2 with_view].
    rewrite slice_app by lia. by f_equal.
  - intros x. unfold heapobj. cbn. by rewrite Es1.
  - intros x c Hc. cbn. rewrite Eb1. destruct (decide (x = q)) as [->|Hx].
    + rewrite lookup_insert_eq. exists b2. split; [done|]. injection (eq_trans (eq_sym Hc) Hb) as ->. done.
    + rewrite lookup_insert_ne by done. eauto.
  - eapply affects_mono; [|exact Ha]. intros x ->%list_elem_of_singleton. apply lst_in.
Qed.
End here.

(** ** Growing *)

Section alloc.
Context (uninit : Z → Z → Z) (mem_limit : Z) (U : gset Z).

(** A size that IOBuf::create can provide. *)
Definition affordable (n : Z) : Prop := 0 ≤ n < 2 ^ 61 ∧ n + 96 ≤ mem_limit.

Lemma wp_grow n h p L a (Q : appender → heap → Prop) : writing U h p L a → affordable n →
  (∀ h' q b a', appended U h p L a [] h' [q] a' → bufs h' !! q = Some b → n ≤ tailroom b ∧ capacity_ b ≤ n + 7 → Q a' h') →
  wp (grow uninit mem_limit n a) Q h.
Proof.
  intros [Hok Hch Ebuf Ecrt Hun] [Hn Hlim] HQ. unfold grow. rewrite Ebuf.
  apply wp_bind, (wp_create uninit mem_limit U); [done|lia|lia|]. intros q b h1 Hm Hfb.
  pose proof (made_chain _ _ _ _ _ Hm) as Hq1. destruct (made_old _ _ _ _ _ p L Hm Hch) as [Hp1 Hnin].
  destruct Hm as [Hok1 Eb1 Hnew _ Ha1 Hho1].
  apply wp_bind, (wp_prependChain p L q []); [done|done| |].
  { intros x Hx ->%list_elem_of_singleton. done. }
  intros h2 Hch2 Hr2. destruct (chain_last _ _ _ Hch2) as (hd & e & Hhd & Hprev & He).
  apply wp_bind, (wp_deref_buf p hd); [done|]. rewrite Hprev. apply wp_ret.
  assert (lst p (L ++ [q]) = q) as El by apply lst_app. rewrite El in *.
  assert (ok U h2) as Hok2 by (by eapply relinks_ok).
  assert (strip e = strip b) as Es.
  { pose proof (rl_holders _ _ _ Hr2) as E. assert (holders h2 !! q = Some (strip e)) as E2 by (by apply holders_lookup).
    rewrite E in E2. assert (holders h1 !! q = Some (strip b)) as E1 by (apply holders_lookup; by rewrite Eb1, lookup_insert_eq). congruence. }
  assert (sharedInfo e = sharedInfo b ∧ tailroom e = tailroom b) as [Esh Etl].
  { injection Es as E1 E2 E3 E4 E5. unfold sharedInfo, tailroom, tail, bufferEnd. by rewrite E1, E2, E3, E4, E5. }
  destruct Hfb as [(Ed & Elen & Eo) Hcap (Hsi & _ & s & Hs & Hr)].
  destruct (relinks_rest _ _ _ Hr2) as (_ & Ei2 & Es2 & _).
  apply (HQ h2 q e); [|done|].
  - split; [|done| | | | |].
    + split; rewrite ?El; try done. apply (unique_count U h2 q e s); try done; rewrite ?Esh, ?Ei2; done.
    + intros x ->%list_elem_of_singleton. split; [done|]. by apply (relinks_heapobj _ _ _ _ Hr2).
    + rewrite app_nil_r. change (p :: L ++ [q]) with ((p :: L) ++ [q]).
      rewrite contents_app, !(relinks_contents _ _ _ _ Hr2), (affects_contents U [q] h h1 (p :: L) Hok Ha1) by (intros x Hx ->%list_elem_of_singleton; done).
      rewrite (contents_cons h1 q). change (contents h1 []) with (@nil Z). unfold bytes_at. rewrite Eb1, lookup_insert_eq. unfold bytes, slice.
      rewrite Elen. cbn. by rewrite app_nil_r.
    + intros x Hx. apply (relinks_heapobj _ _ _ _ Hr2). destruct (decide (x = q)) as [->|Hne]; [done|]. apply (af_heap _ _ _ Ha1); [set_solver|done].
    + intros x c Hc. assert (bufs h1 !! x = Some c) as Hc1 by (rewrite Eb1, lookup_insert_ne by congruence; done).
      assert (holders h2 !! x = Some (strip c)) as Hh by (rewrite (rl_holders _ _ _ Hr2); by apply holders_lookup).
      unfold holders in Hh. apply lookup_fmap_Some in Hh as (c' & E & Hc'). exists c'. split; [done|]. by injection E.
    + eapply affects_trans; [eapply affects_mono; [|exact Ha1]|]; [set_solver|]. by apply relinks_affects in Hr2.
  - assert (capacity_ e = capacity_ b) as Ecap by (by injection Es). rewrite Etl, Ecap. split; [|lia]. assert (bufs h1 !! q = Some b) as Hb1 by (by rewrite Eb1, lookup_insert_eq).
    destruct (room_small _ _ (ok_geo U h1 q b Hok1 Hb1)) as [_ ->]. rewrite Ed, Elen, Eo. lia.
Qed.

Lemma wp_ensure n h p L a (Q : appender → heap → Prop) : writing U h p L a → growth_ a ≠ 0 → affordable (Z.max n (growth_ a)) → 
  (∀ h' N a' b, appended U h p L a [] h' N a' → bufs h' !! lst p (L ++ N) = Some b → n ≤ tailroom b →
     (N = [] ∧ h' = h) ∨ ((∃ b0, bufs h !! lst p L = Some b0 ∧ tailroom b0 < n) ∧ (∃ q, N = [q]) ∧ capacity_ b ≤ Z.max n (growth_ a) + 7) → Q a' h') →
  wp (ensure uninit mem_limit n a) Q h.
Proof.
  intros Hw Hg Hn HQ. destruct (chain_last _ _ _ (wr_chain _ _ _ _ _ Hw)) as (_ & b & _ & _ & Hb).
  unfold ensure. apply wp_bind, (wp_room U h p L a b Hw Hb). destruct (Z.leb_spec n (tailroom b)).
  - apply wp_ret, (HQ h [] a b); [by apply appended_refl|by rewrite app_nil_r|done|by left].
  - rewrite (proj2 (Z.eqb_neq _ _) Hg). apply (wp_grow (Z.max n (growth_ a)) h p L); [done|done|].
    intros h' q b' a' Ha Hb' [Ht Hcap]. apply (HQ h' [q] a' b'); [done|by rewrite lst_app|lia|]. right. split; [eauto|]. split; [eauto|done].
Qed.

Lemma wp_tryGrow h p L a (Q : bool * appender → heap → Prop) : writing U h p L a → (growth_ a ≠ 0 → affordable (growth_ a)) →
  (growth_ a = 0 → Q (false, a) h) →
  (growth_ a ≠ 0 → ∀ h' q b a', appended U h p L a [] h' [q] a' → bufs h' !! q = Some b → growth_ a ≤ tailroom b ≤ growth_ a + 7 → Q (true, a') h') →
  wp (tryGrowChain uninit mem_limit a) Q h.
Proof.
  intros Hw Hn H0 H1. destruct (chain_last _ _ _ (wr_chain _ _ _ _ _ Hw)) as (_ & b & _ & _ & Hb). unfold tryGrowChain.
  apply (wp_crt U h p L a b Hw Hb), wp_bind, wp_assert.
  { pose proof (wr_chain _ _ _ _ _ Hw) as [Hp _]. destruct (path_ends _ _ _ _ Hp) as [(c & Hc & <-)%next_of_some _].
    apply Z.eqb_eq. rewrite (wr_buffer _ _ _ _ _ Hw). congruence. }
  destruct (Z.eqb_spec (growth_ a) 0) as [E|E]; [apply wp_ret; auto|].
  apply wp_bind, (wp_grow (growth_ a) h p L); [done|auto|]. intros h' q b' a' Ha Hb' [Ht Hcap]. apply wp_ret. eapply H1; [done..|].
  destruct (room_small _ _ (ok_geo U h' q b' (wr_ok _ _ _ _ _ (ap_writing _ _ _ _ _ _ _ _ _ Ha)) Hb')) as [_ Et].
  destruct (ok_geo U h' q b' (wr_ok _ _ _ _ _ (ap_writing _ _ _ _ _ _ _ _ _ Ha)) Hb'). lia.
Qed.

(** ** Pushing bytes *)

(** As many as fit, if the chain may not grow. *)
Definition pushed (a : appender) (b : iobuf) (bs : list Z) : list Z :=
  if growth_ a =? 0 then take (Z.to_nat (tailroom b)) bs else bs.

(** The last element ends with no more room than it had, or than a new one has. *)
Definition roomy (h : heap) (q n : Z) : Prop := ∃ c, bufs h !! q = Some c ∧ tailroom c ≤ n.
Definition pushed_end (a : appender) (b : iobuf) (h' : heap) (p : Z) (L N : list Z) : Prop :=
  (growth_ a = 0 → N = []) ∧ roomy h' (lst p (L ++ N)) (Z.max (tailroom b) (growth_ a + 7)).

Lemma wp_pushAtMost_loop fuel : ∀ h p L a b bs k (Q : Z * appender → heap → Prop),
  writing U h p L a → bufs h !! lst p L = Some b → 0 ≤ growth_ a → (growth_ a ≠ 0 → affordable (growth_ a)) →
  (List.length bs + (if (0 <? tailroom b)%Z then 0 else 1) < fuel)%nat → 0 ≤ k → k + len bs < 2 ^ 64 →
  (∀ h' N a', appended U h p L a (pushed a b bs) h' N a' → pushed_end a b h' p L N → Q (k + len (pushed a b bs), a') h') →
  wp (pushAtMost_loop uninit mem_limit fuel a bs k) Q h.
Proof.
  induction fuel as [|fuel IH]; intros h p L a b bs k Q Hw Hb Hg Haff Hf Hk H64 HQ; [lia|]. cbn [pushAtMost_loop].
  pose proof (tailroom_range U h p L a b Hw Hb) as Ht. apply wp_bind, (wp_room U h p L a b Hw Hb).
  destruct (Z.leb_spec (len bs) (tailroom b)) as [Hle|Hgt].
  - apply wp_seq, (wp_write_here U h p L a b Hw Hb); [done|done|]. intros h' b' Ha Hb' Ht'. rewrite u64_small by lia. apply wp_ret.
    assert (pushed a b bs = bs) as E by (unfold pushed; destruct (growth_ a =? 0); [apply take_ge; lia|done]). rewrite E in HQ. eapply HQ; [done|]. split; [done|]. rewrite app_nil_r. exists b'. split; [done|lia].
  - assert (len (take (Z.to_nat (tailroom b)) bs) = tailroom b) as El by (rewrite length_take; lia).
    apply wp_seq, (wp_write_here U h p L a b Hw Hb); [done|lia|]. intros h1 b1 Ha1 Hb1 Ht1.
    rewrite u64_small by lia. pose proof (ap_writing _ _ _ _ _ _ _ _ _ Ha1) as Hw1. rewrite app_nil_r in Hw1.
    apply wp_bind, (wp_tryGrow h1 p L a); [done|done|..].
    + intros E. apply wp_ret. unfold pushed in HQ. rewrite E in HQ. cbn [Z.eqb] in HQ. rewrite El in HQ. eapply HQ; [done|]. split; [done|]. rewrite app_nil_r. exists b1. split; [done|lia].
    + intros E h2 q b2 a2 Ha2 Hb2 Ht2. cbn [negb]. pose proof (ap_writing _ _ _ _ _ _ _ _ _ Ha2) as Hw2.
      pose proof (ap_growth _ _ _ _ _ _ _ _ _ Ha2) as Eg.
      apply (IH h2 p (L ++ [q]) a2 b2); [done|by rewrite lst_app|by rewrite Eg|by rewrite Eg| |lia|rewrite length_drop; lia|].
      { rewrite (proj2 (Z.ltb_lt 0 (tailroom b2))) by lia. rewrite length_drop. destruct (0 <? tailroom b) eqn:E0; [apply Z.ltb_lt in E0|]; lia. }
      intros h' N a' Ha' [_ (c & Hc & Hcr)]. rewrite Eg in Hcr. assert (pushed a2 b2 (drop (Z.to_nat (tailroom b)) bs) = drop (Z.to_nat (tailroom b)) bs) as Ep.
      { unfold pushed. rewrite Eg, (proj2 (Z.eqb_neq _ _) E). done. }
      rewrite Ep in *. replace (k + tailroom b + len (drop (Z.to_nat (tailroom b)) bs)) with (k + len (pushed a b bs)).
      2: { unfold pushed. rewrite (proj2 (Z.eqb_neq _ _) E), length_drop. lia. }
      apply (HQ h' ([] ++ [q] ++ N)); [|split; [done|]; exists c; rewrite <- app_assoc in Hc; split; [done|lia]]. unfold pushed. rewrite (proj2 (Z.eqb_neq _ _) E).
      rewrite <- (take_drop (Z.to_nat (tailroom b)) bs) at 1. eapply appended_trans; [exact Ha1|]. rewrite app_nil_r.
      change (drop (Z.to_nat (tailroom b)) bs) with ([] ++ drop (Z.to_nat (tailroom b)) bs). by eapply appended_trans.
Qed.

Section push.
Context (h : heap) (p : Z) (L : list Z) (a : appender) (Hw : writing U h p L a).
Context (Hg : 0 ≤ growth_ a) (Haff : growth_ a ≠ 0 → affordable (growth_ a)).

Lemma wp_pushAtMost b bs (Q : Z * appender → heap → Prop) : bufs h !! lst p L = Some b → len bs < 2 ^ 64 →
  (∀ h' N a', appended U h p L a (pushed a b bs) h' N a' → pushed_end a b h' p L N → Q (len (pushed a b bs), a') h') →
  wp (pushAtMost uninit mem_limit bs a) Q h.
Proof.
  intros Hb H64 HQ. unfold pushAtMost. apply (wp_pushAtMost_loop (2 + List.length bs) h p L a b); try done; try lia.
  destruct (0 <? tailroom b); lia.
Qed.

Lemma wp_push bs (Q : appender → heap → Prop) : growth_ a ≠ 0 → len bs < 2 ^ 64 →
  (∀ h' N a', appended U h p L a bs h' N a' → Q a' h') → wp (push uninit mem_limit bs a) Q h.
Proof.
  intros E H64 HQ. destruct (chain_last _ _ _ (wr_chain _ _ _ _ _ Hw)) as (_ & b & _ & _ & Hb). unfold push.
  apply wp_bind, (wp_pushAtMost b bs); [done|done|]. intros h' N a' Ha _. unfold pushed in Ha |- *.
  rewrite (proj2 (Z.eqb_neq _ _) E) in *. rewrite Z.eqb_refl. apply wp_ret. by eapply HQ.
Qed.
End push.

(** ** Pushing from a cursor *)

Lemma wp_gives {A} (m : M A) h a (Q : A → heap → Prop) : gives m h (Ret a) → Q a h → wp m Q h.
Proof. unfold gives, wp. by intros ->. Qed.

(** The cursor reads a chain that has no element of the written one. *)
Definition elsewhere (p : Z) (L : list Z) (q : Z) (K : list Z) : Prop := ∀ x, x ∈ q :: K → x ∉ p :: L.

Lemma at_frame h h' p L a bs N a' q K c B : appended U h p L a bs h' N a' → ok U h → elsewhere p L q K → at_ h q K c B →
  at_ h' q K c B ∧ avail h' c = avail h c ∧ rest h' c B = rest h c B ∧ elsewhere p (L ++ N) q K.
Proof.
  clear uninit mem_limit. intros Ha Hok He [Hch Hh [A HA] Hof]. pose proof (ap_affects _ _ _ _ _ _ _ _ _ Ha) as Haf.
  assert (elsewhere p (L ++ N) q K) as He'.
  { intros x Hx [Hin|Hin]%(elem_of_app (p :: L) N); [by eapply He|]. destruct (ap_new _ _ _ _ _ _ _ _ _ Ha x Hin) as [Hn _].
    destruct (chain_bufs_in _ _ _ _ Hch Hx) as [b Hb]. congruence. }
  assert (∀ x, x ∈ Cursor.crtBuf_ c :: B → x ∉ p :: L ++ N) as Hsub by (intros x Hx; apply He'; rewrite HA; set_solver).
  assert (bytes_at h' (Cursor.crtBuf_ c) = bytes_at h (Cursor.crtBuf_ c)) as Eb by (eapply affects_bytes; [done|done|]; apply Hsub; set_solver).
  split; [|split; [unfold avail; by rewrite Eb|split; [|done]]].
  - split; [by eapply affects_chain|done|eauto|by rewrite Eb].
  - unfold rest, avail. rewrite Eb. f_equal. eapply affects_contents; [done..|]. intros x Hx. apply Hsub. set_solver.
Qed.

Lemma gives_load_part h q K c B ptr n : ok U h → at_ h q K c B → gives (Cursor.data c) h (Ret ptr) → 0 ≤ n ≤ len (avail h c) →
  gives (load ptr n) h (Ret (take (Z.to_nat n) (avail h c))).
Proof.
  intros Hok Hc Hd Hn. pose proof (gives_copy_out U h Hok q K c B n Hc Hn) as Hcopy. unfold Cursor.copy_out in Hcopy.
  unfold gives, mbind, St_bind in *. by rewrite Hd in Hcopy.
Qed.

(** One round: the next [m] bytes of the cursor's element are pushed and skipped. *)
Lemma wp_push_part {T} h p L a q K c B ptr m (f : Cursor.cursor → appender → M T) (Q : T → heap → Prop) :
  writing U h p L a → growth_ a ≠ 0 → 0 ≤ growth_ a → affordable (growth_ a) → elsewhere p L q K → at_ h q K c B →
  gives (Cursor.data c) h (Ret ptr) → 0 ≤ m ≤ len (avail h c) →
  (∀ h' N a' c', appended U h p L a (to_take m (rest h c B)) h' N a' → at_ h' q K c' B →
     rest h' c' B = to_drop m (rest h c B) → elsewhere p (L ++ N) q K → wp (f c' a') Q h') →
  wp (bs ← load ptr m; a ← push uninit mem_limit bs a; '(_, c) ← Cursor.skip m c; f c a) Q h.
Proof.
  intros Hw Hg Hg0 Haff He Hc Hd Hm HQ. pose proof (wr_ok _ _ _ _ _ Hw) as Hok. destruct (gives_length U h Hok q K c B Hc) as [_ Hlt].
  apply wp_bind, (wp_gives _ _ _ _ (gives_load_part h q K c B ptr m Hok Hc Hd Hm)).
  rewrite <- (rest_here h q K c B m Hc Hm). apply wp_bind, (wp_push h p L a Hw Hg0); [done|done| |].
  { unfold to_take. rewrite length_take. lia. }
  intros h1 N a1 Ha1. destruct (at_frame h h1 p L a _ N a1 q K c B Ha1 Hok He Hc) as (Hc1 & Ea & Er & He1).
  pose proof (wr_ok _ _ _ _ _ (ap_writing _ _ _ _ _ _ _ _ _ Ha1)) as Hok1. destruct (gives_length U h1 Hok1 q K c B Hc1) as [Hlen1 _].
  assert (gives (Cursor.skip m c) h1 (Ret (tt, Cursor.move m c))) as Hskip.
  { eapply gives_bind; [exact Hlen1|]. by rewrite Ea, (proj2 (Z.leb_le _ _)) by lia. }
  apply wp_bind, (wp_gives _ _ _ _ Hskip). cbn beta match. destruct (at_move U h1 Hok1 q K c B m Hc1) as [Hc2 Hr2]; [by rewrite Ea|].
  apply (HQ h1 N a1); [done|done| |done]. unfold to_drop. by rewrite Hr2, Er.
Qed.

Lemma wp_pushCursor_loop fuel : ∀ h p L a q K c B k n (Q : Z * appender → heap → Prop),
  writing U h p L a → growth_ a ≠ 0 → 0 ≤ growth_ a → affordable (growth_ a) → elsewhere p L q K → at_ h q K c B →
  (Z.to_nat n < fuel)%nat → 0 ≤ n → 0 ≤ k → k + n < 2 ^ 64 →
  (∀ h' N a', appended U h p L a (to_take n (rest h c B)) h' N a' → Q (k + len (to_take n (rest h c B)), a') h') →
  wp (pushCursor_loop uninit mem_limit fuel c a k n) Q h.
Proof.
  induction fuel as [|fuel IH]; intros h p L a q K c B k n Q Hw Hg Hg0 Haff He Hc Hf Hn Hk H64 HQ; [lia|]. cbn [pushCursor_loop].
  pose proof (wr_ok _ _ _ _ _ Hw) as Hok. destruct (gives_fuel h q K c B Hc) as (cf & Hcf & Hlt).
  destruct (peek_loop_spec U h Hok B q K c cf Hc Hlt) as (ptr & c1 & B1 & Hpk & Hd & _ & Hend & Hc1 & Hr1). rewrite <- Hr1 in HQ.
  assert (gives (Cursor.peek c) h (Ret (ptr, len (avail h c1), c1))) as Hpeek by (by eapply gives_bind).
  apply wp_bind, (wp_gives _ _ _ _ Hpeek). cbn beta match. destruct (gives_length U h Hok q K c1 B1 Hc1) as [Hlen Hlt1].
  destruct (Z.eqb_spec (len (avail h c1)) 0) as [E0|E0].
  { pose proof (nil_length_inv (avail h c1) ltac:(lia)) as E. assert (rest h c1 B1 = []) as Er by (unfold rest; by rewrite E, Hend).
    rewrite Er in HQ. unfold to_take in HQ. rewrite take_nil, Z.add_0_r in HQ. apply wp_ret, (HQ h []), appended_refl, Hw. }
  destruct (Z.leb_spec n (len (avail h c1))) as [Hle|Hgt].
  - apply (wp_push_part h p L a q K c1 B1 ptr n (fun _ a => mret (u64 (k + n), a))); try done.
    intros h' N a' c' Ha _ _ _. apply wp_ret. rewrite u64_small by lia. assert (len (to_take n (rest h c1 B1)) = n) as El.
    { unfold to_take, rest. rewrite length_take, length_app. lia. }
    rewrite El in HQ. by eapply HQ.
  - apply (wp_push_part h p L a q K c1 B1 ptr (len (avail h c1))
      (fun c a => pushCursor_loop uninit mem_limit fuel c a (u64 (k + len (avail h c1))) (n - len (avail h c1)))); try done; [lia|].
    intros h' N a' c' Ha Hc' Hr' He'. pose proof (ap_growth _ _ _ _ _ _ _ _ _ Ha) as Eg.
    assert (to_take n (rest h c1 B1) = to_take (len (avail h c1)) (rest h c1 B1) ++ to_take (n - len (avail h c1)) (rest h' c' B1)) as Et.
    { rewrite Hr'. unfold to_take, to_drop. rewrite Nat2Z.id, Z2Nat.inj_sub, Nat2Z.id by lia.
      rewrite take_take_drop. f_equal. lia. }
    assert (len (to_take (len (avail h c1)) (rest h c1 B1)) = len (avail h c1)) as El.
    { unfold to_take, rest. rewrite length_take, length_app. lia. }
    rewrite u64_small by lia. eapply (IH h' p (L ++ N) a' q K c' B1); rewrite ?Eg; try done; try lia; [by eapply ap_writing|].
    intros h2 N2 a2 Ha2. rewrite <- El at 1. rewrite <- (Z.add_assoc k), <- Nat2Z.inj_add, <- length_app, <- Et.
    apply (HQ h2 (N ++ N2)). rewrite Et. by eapply appended_trans.
Qed.

Lemma wp_pushCursorAtMost h p L a q K c B n (Q : Z * appender → heap → Prop) :
  writing U h p L a → growth_ a ≠ 0 → 0 ≤ growth_ a → affordable (growth_ a) → elsewhere p L q K → at_ h q K c B → 0 ≤ n < 2 ^ 64 →
  (∀ h' N a', appended U h p L a (to_take n (rest h c B)) h' N a' → Q (len (to_take n (rest h c B)), a') h') →
  wp (pushCursorAtMost uninit mem_limit c n a) Q h.
Proof. intros. unfold pushCursorAtMost. eapply (wp_pushCursor_loop _ h p L a q K c B); try done; lia. Qed.

End alloc.

End AppenderProof.
