(* ===== verification/AppenderSpec.v ===== *)
(** Writing with an Appender and reading with a Cursor: the two halves of
    raster/io/Cursor.h undo each other, however the bytes are spread over elements. *)
From S2P Require Import Prelude IOBuf IOBufInv IOBufChain IOBufMem IOBufLife IOBufOps IOBufSpec.
From S2P Require Import Cursor CursorProof CursorSpec Appender AppenderProof.
Import IOBuf.

Module AppenderSpec.
Import CursorProof CursorSpec Appender AppenderProof.
#[local] Abbreviation len l := (Z.of_nat (List.length l)).

(** ** Values and their bytes *)

Lemma length_le_bytes n v : List.length (le_bytes n v) = n.
Proof. revert v. induction n as [|n IH]; intros v; cbn; [done|]. by rewrite IH. Qed.

Lemma le_value_bytes n : ∀ v, 0 ≤ v < 256 ^ Z.of_nat n → Cursor.le_value (le_bytes n v) = v.
Proof.
  induction n as [|n IH]; intros v Hv; cbn [le_bytes]; [cbn in *; lia|].
  rewrite Nat2Z.inj_succ, Z.pow_succ_r in Hv by lia.
  change (Cursor.le_value (v mod 256 :: le_bytes n (v / 256))) with (v mod 256 + 256 * Cursor.le_value (le_bytes n (v / 256))).
  rewrite IH; [pose proof (Z_div_mod_eq_full v 256); lia|]. split; [apply Z.div_pos; lia|apply Z.div_lt_upper_bound; lia].
Qed.

(** What a client writes: integers of [size] bytes in either order, strings, and bytes. *)
Inductive field := FLE (size v : Z) | FBE (size v : Z) | FString (bs : list Z) | FBytes (bs : list Z).

Definition encode (f : field) : list Z :=
  match f with
  | FLE size v => le_bytes (Z.to_nat size) v
  | FBE size v => rev (le_bytes (Z.to_nat size) v)
  | FString bs | FBytes bs => bs
  end.
(** A std::string, with its limits [sl], can hold what is read back into it. *)
Definition field_ok (sl : limits) (f : field) : Prop :=
  match f with
  | FLE size v | FBE size v => 0 ≤ size < 2 ^ 61 ∧ 0 ≤ v < 256 ^ size
  | FString bs => reservable sl (len bs)
  | FBytes bs => True
  end.

(** The call that reads it back, and its result. *)
Definition read_op (f : field) : op :=
  match f with FLE size _ => OReadLE size | FBE size _ => OReadBE size | FString bs => OFixed (len bs) | FBytes bs => OPull (len bs) end.
Definition read_res (f : field) : res :=
  match f with FLE _ v | FBE _ v => RSize v | FString bs | FBytes bs => RBytes bs end.

Lemma exactly_app n l1 l2 err : len l1 = n → exactly n (l1 ++ l2) err = Ret (l1, l2).
Proof.
  intros <-. unfold exactly, to_take, to_drop. rewrite (proj2 (Z.leb_le _ _)) by (rewrite length_app; lia).
  rewrite Nat2Z.id, take_app_length, drop_app_length. done.
Qed.

Lemma spec_read_field sl f l out : field_ok sl f → spec sl (read_op f) (encode f ++ l) out → out = Ret (read_res f, l).
Proof.
  destruct f as [size v|size v|bs|bs]; cbn [field_ok read_op encode read_res spec].
  - intros [Hs Hv] ->. rewrite exactly_app by (rewrite length_le_bytes; lia). cbn. by rewrite le_value_bytes by (by rewrite Z2Nat.id by lia).
  - intros [Hs Hv] ->. rewrite exactly_app by (rewrite length_rev, length_le_bytes; lia). cbn.
    by rewrite rev_involutive, le_value_bytes by (by rewrite Z2Nat.id by lia).
  - intros Hm ->. rewrite container_reserve_ok by done. cbn. by rewrite exactly_app.
  - intros _ ->. by rewrite exactly_app.
Qed.

Lemma spec_read_all sl fs : ∀ l out, Forall (field_ok sl) fs → spec_run sl (read_op <$> fs) (concat (encode <$> fs) ++ l) out →
  out = Ret (read_res <$> fs, l).
Proof.
  induction fs as [|f fs IH]; intros l out Hok Hs; cbn in Hs |- *; [by inversion Hs|].
  apply Forall_cons in Hok as [Hf Hok]. rewrite <- (assoc_L (++)) in Hs. inversion Hs as [|? ? ? e He|? ? ? r l' out' Hr Hs']; subst.
  - apply spec_read_field in He; done.
  - apply spec_read_field in Hr; [|done]. injection Hr as -> ->. by apply IH in Hs' as ->.
Qed.

(** ** Writing a record of fields *)

Section alloc.
Context (uninit : Z → Z → Z) (mem_limit : Z).

(** A client that makes room for some fields before it writes them. *)
Inductive wop := WField (f : field) | WEnsure (n : Z).
Definition write_op (o : wop) (a : appender) : M appender :=
  match o with
  | WField (FLE size v) => writeLE uninit mem_limit size v a
  | WField (FBE size v) => writeBE uninit mem_limit size v a
  | WField (FString bs) | WField (FBytes bs) => push uninit mem_limit bs a
  | WEnsure n => ensure uninit mem_limit n a
  end.
Fixpoint write_all (os : list wop) (a : appender) : M appender :=
  match os with [] => mret a | o :: os => a ← write_op o a; write_all os a end.

Definition fields (os : list wop) : list field := omap (fun o => match o with WField f => Some f | _ => None end) os.
Definition wop_ok (sl : limits) (growth : Z) (o : wop) : Prop :=
  match o with WField f => field_ok sl f ∧ len (encode f) < 2 ^ 64 | WEnsure n => affordable mem_limit (Z.max n growth) end.

Lemma wp_write_all U sl os : ∀ h p L a (Q : appender → heap → Prop),
  writing U h p L a → 0 < growth_ a → affordable mem_limit (growth_ a) → Forall (wop_ok sl (growth_ a)) os →
  (∀ h' N a', appended U h p L a (concat (encode <$> fields os)) h' N a' → Q a' h') → wp (write_all os a) Q h.
Proof.
  induction os as [|o os IH]; intros h p L a Q Hw Hg Haff Hos HQ; cbn [write_all].
  { apply wp_ret, (HQ h []), appended_refl, Hw. }
  apply Forall_cons in Hos as [Ho Hos].
  assert (∀ bs h1 N1 a1, appended U h p L a bs h1 N1 a1 → concat (encode <$> fields (o :: os)) = bs ++ concat (encode <$> fields os) →
    wp (write_all os a1) Q h1) as Hgo.
  { intros bs h1 N1 a1 Ha E. pose proof (ap_growth _ _ _ _ _ _ _ _ _ Ha) as Eg.
    apply (IH h1 p (L ++ N1)); rewrite ?Eg; try done; [by eapply ap_writing|].
    intros h' N a' Ha'. apply (HQ h' (N1 ++ N)). rewrite E. by eapply appended_trans. }
  assert (∀ bs, len bs < 2 ^ 64 → concat (encode <$> fields (o :: os)) = bs ++ concat (encode <$> fields os) →
    wp (a ← push uninit mem_limit bs a; write_all os a) Q h) as Hpush.
  { intros bs H64 E. apply wp_bind, (wp_push uninit mem_limit U h p L a Hw); [lia|done|lia|done|]. intros h1 N1 a1 Ha. by eapply Hgo. }
  destruct o as [[size v|size v|bs|bs]|n]; cbn in Ho; unfold write_op.
  1-4: by apply Hpush; [apply Ho|].
  apply wp_bind, (wp_ensure uninit mem_limit U n h p L); [done|lia|done|]. intros h1 N1 a1 b1 Ha _ _ _. by eapply Hgo.
Qed.

Lemma wp_new_appender U h p L growth (Q : appender → heap → Prop) : ok U h → chain h p L → unique h (lst p L) →
  (∀ a, writing U h p L a → growth_ a = growth → Q a h) → wp (new_appender p growth) Q h.
Proof.
  intros Hok Hch Hun HQ. destruct (chain_last _ _ _ Hch) as (b & _ & Hb & Hprev & _). unfold new_appender.
  apply wp_bind, (wp_deref_buf p b); [done|]. apply wp_ret, HQ; [|done]. by split.
Qed.

(** C13. Whatever a client writes through an Appender (little-endian and big-endian
    integers, strings that a std::string can reserve room for, and bytes, with calls of ensure between them, and with any positive
    growth), a Cursor that skips what the chain held before reads back, field by field;
    the chain's bytes are the old ones followed by the encodings, the elements added are
    new, every object outside the chain and its bytes are unchanged, and no
    call faults or throws. The last element must not share its memory. *)
Theorem appender_roundtrip U sl p L growth os h :
  ok U h → chain h p L → unique h (lst p L) → 0 < growth → affordable mem_limit growth → Forall (wop_ok sl growth) os →
  len (contents h (p :: L)) + len (concat (encode <$> fields os)) < 2 ^ 64 →
  wp (a ← new_appender p growth; write_all os a) (fun _ h' => ok U h' ∧ ∃ N, chain h' p (L ++ N) ∧
    (∀ x, x ∈ N → bufs h !! x = None) ∧
    contents h' (p :: L ++ N) = contents h (p :: L) ++ concat (encode <$> fields os) ∧
    (∀ x, x ∉ p :: L ++ N → bufs h' !! x = bufs h !! x ∧ bytes_at h' x = bytes_at h x) ∧
    ∃ c, gives (run sl (OSkip (len (contents h (p :: L))) :: (read_op <$> fields os)) (Cursor.new_cursor p)) h'
      (Ret (RUnit :: (read_res <$> fields os), c))) h.
Proof.
  intros Hok Hch Hun Hg Haff Hos H64. apply wp_bind, (wp_new_appender U h p L growth); [done..|]. intros a Hw Eg.
  apply (wp_write_all U sl os h p L a); rewrite ?Eg; [done..|]. intros h' N a' Ha.
  destruct (ap_writing _ _ _ _ _ _ _ _ _ Ha) as [Hok' Hch' _ _ _]. split; [done|]. exists N. split; [done|].
  split; [intros x Hx; by apply (ap_new _ _ _ _ _ _ _ _ _ Ha)|]. pose proof (ap_contents _ _ _ _ _ _ _ _ _ Ha) as Ec.
  pose proof (ap_affects _ _ _ _ _ _ _ _ _ Ha) as Haf. split; [done|].
  split; [intros x Hx; split; [by apply (af_bufs _ _ _ Haf)|by apply (affects_bytes U (p :: L ++ N))]|].
  assert (Forall op_ok (OSkip (len (contents h (p :: L))) :: (read_op <$> fields os))) as Hops.
  { constructor; [cbn; unfold size_ok; lia|]. apply Forall_fmap. clear -Hos. induction Hos as [|[f|n] os Ho Hos IH]; cbn; [done| |done].
    constructor; [|done]. destruct Ho as [Ho Hl]. destruct f; cbn in *; unfold size_ok; lia. }
  destruct (run_meets sl U h' Hok' p (L ++ N) ltac:(rewrite Ec, length_app; lia) _ _ _ (at_new h' p (L ++ N) Hch') Hops) as (out & Hs & Hm).
  unfold rest, avail in Hs. cbn [Cursor.new_cursor Cursor.offset_ Cursor.crtBuf_] in Hs. rewrite drop_0, <- contents_cons, Ec in Hs.
  assert (Forall (field_ok sl) (fields os)) as Hfs.
  { clear -Hos. induction Hos as [|[f|n] os Ho Hos IH]; cbn; [done| |done]. constructor; [apply Ho|done]. }
  inversion Hs as [|? ? ? e He|? ? ? r l' out' Hr Hs']; subst; cbn [spec] in *; rewrite exactly_app in * by done; cbn in *; [done|].
  injection Hr as -> ->. rewrite <- (app_nil_r (concat _)) in Hs'. apply spec_read_all in Hs' as ->; [|done].
  destruct Hm as (c & _ & Hm & _). by exists c.
Qed.

(** Copying from a cursor: pushAtMost(cursor, n) appends the next n bytes that the
    cursor would read, or all that are left, whatever the elements they lie in on
    either side, and returns how many; the chain that is read is unchanged. *)
Theorem pushCursor_correct U sl p L growth q K os n c h :
  ok U h → chain h p L → unique h (lst p L) → 0 < growth → affordable mem_limit growth →
  chain h q K → (∀ x, x ∈ q :: K → x ∉ p :: L) → len (contents h (q :: K)) < 2 ^ 64 → Forall op_ok os → 0 ≤ n < 2 ^ 64 →
  (∃ rs, gives (run sl os (Cursor.new_cursor q)) h (Ret (rs, c))) →
  ∃ rest, (∃ done, contents h (q :: K) = done ++ rest) ∧ gives (Cursor.totalLength c) h (Ret (len rest)) ∧
  wp (a ← new_appender p growth; pushCursorAtMost uninit mem_limit c n a) (fun r h' => r.1 = Z.min n (len rest) ∧
    ok U h' ∧ ∃ N, chain h' p (L ++ N) ∧ contents h' (p :: L ++ N) = contents h (p :: L) ++ take (Z.to_nat n) rest ∧
    chain h' q K ∧ contents h' (q :: K) = contents h (q :: K)) h.
Proof.
  intros Hok Hch Hun Hg Haff Hq He H64 Hos Hn (rs & Hrun).
  destruct (run_meets sl U h Hok q K H64 os _ _ (at_new h q K Hq) Hos) as (out & _ & Hm). unfold meets in Hm.
  destruct out as [[rs' l]|e]; [|unfold gives in *; congruence]. destruct Hm as (c' & B & Hm & Hc & <-).
  assert (c' = c) as -> by (unfold gives in *; congruence). exists (rest h c B). split; [|split].
  - destruct Hc as [_ _ [A ->] _]. exists (contents h A ++ take (Z.to_nat (Cursor.offset_ c)) (bytes_at h (Cursor.crtBuf_ c))).
    unfold rest, avail. rewrite contents_app, contents_cons, <- (assoc_L (++)). f_equal. by rewrite (assoc_L (++)), take_drop.
  - by apply (totalLength_spec U h Hok q K c B).
  - apply wp_bind, (wp_new_appender U h p L growth); [done..|]. intros a Hw Eg.
    apply (wp_pushCursorAtMost uninit mem_limit U h p L a q K c B n); rewrite ?Eg; [done|lia|lia|done|done|done|done|].
    intros h' N a' Ha. unfold to_take in *. rewrite length_take. split; [cbn; lia|].
    destruct (ap_writing _ _ _ _ _ _ _ _ _ Ha) as [Hok' Hch' _ _ _]. split; [done|]. exists N. split; [done|].
    split; [by apply (ap_contents _ _ _ _ _ _ _ _ _ Ha)|].
    destruct (at_frame U h h' p L a _ N a' q K _ K Ha Hok He (at_new h q K Hq)) as (Hn' & Ea & Er & _).
    split; [by apply Hn'|]. unfold rest, avail in Er. cbn [Cursor.new_cursor Cursor.offset_ Cursor.crtBuf_] in Er.
    by rewrite !drop_0, <- !contents_cons in Er.
Qed.

(** An Appender that may not grow (growth 0) writes what fits in the last element and
    no more: pushAtMost returns the number of bytes written and adds no element, push
    throws if it could not write everything, and ensure throws if there is no room. *)
Theorem appender_no_growth U p L b bs n h :
  ok U h → chain h p L → unique h (lst p L) → bufs h !! lst p L = Some b → len bs < 2 ^ 64 →
  wp (a ← new_appender p 0; pushAtMost uninit mem_limit bs a) (fun r h' => r.1 = Z.min (len bs) (tailroom b) ∧
    ok U h' ∧ chain h' p L ∧ contents h' (p :: L) = contents h (p :: L) ++ take (Z.to_nat (tailroom b)) bs) h ∧
  (tailroom b < len bs → (a ← new_appender p 0; push uninit mem_limit bs a) h = Err (Thrown "out_of_range: overflow")) ∧
  (tailroom b < n → (a ← new_appender p 0; ensure uninit mem_limit n a) h = Err (Thrown "out_of_range: can't grow buffer chain")).
Proof.
  intros Hok Hch Hun Hb H64.
  assert (∃ a, new_appender p 0 h = Ret (a, h) ∧ writing U h p L a ∧ growth_ a = 0) as (a & Ea & Hw & Eg).
  { destruct (wp_elim (new_appender p 0) (fun a h' => h' = h ∧ writing U h p L a ∧ growth_ a = 0) h) as (a & h' & Ha & -> & H'); [|eauto].
    by apply (wp_new_appender U h p L 0). }
  pose proof (tailroom_range U h p L a b Hw Hb) as Ht.
  assert (wp (pushAtMost uninit mem_limit bs a) (fun r h' => r.1 = Z.min (len bs) (tailroom b) ∧
    ok U h' ∧ chain h' p L ∧ contents h' (p :: L) = contents h (p :: L) ++ take (Z.to_nat (tailroom b)) bs) h) as Hpush.
  { apply (wp_pushAtMost uninit mem_limit U h p L a Hw ltac:(lia) ltac:(done) b bs _ Hb H64). intros h' N a' Ha [HN _]. rewrite (HN Eg) in Ha.
    unfold pushed in *. rewrite Eg in *. cbn [Z.eqb] in *. rewrite length_take. split; [cbn; lia|]. destruct Ha as [[] _ _ Hc _ _ _].
    rewrite app_nil_r in *. done. }
  split; [|split].
  - apply wp_bind. by eapply wp_intro.
  - intros Hlt. apply wp_elim in Hpush as (r & h' & Hp & Hr & _). unfold mbind, St_bind. rewrite Ea. unfold push, mbind, St_bind. rewrite Hp.
    destruct r as [k a']. cbn in Hr |- *. rewrite Hr. by rewrite (proj2 (Z.eqb_neq _ _)) by lia.
  - intros Hlt. unfold mbind, St_bind. rewrite Ea. unfold ensure. unfold mbind, St_bind.
    destruct (wp_elim (room a) (fun k h' => k = tailroom b ∧ h' = h) h) as (k & h' & -> & -> & ->); [by apply (wp_room U h p L a b)|].
    rewrite (proj2 (Z.leb_gt _ _)) by lia. by rewrite Eg.
Qed.
End alloc.

Module Demo.
Import IOBufSpec.Demo.

(** The second element of the chain of two is the only holder of its memory. *)
Lemma own2 : unique h3 p2.
Proof.
  assert (∃ b, bufs h3 !! p2 = Some b ∧ sharedInfo b ≠ 0 ∧ ∃ c, bufs h3 !! p1 = Some c ∧ sharedInfo c ≠ sharedInfo b) as (b & Hb & Hs & c & Hc & Hne).
  { eexists. split; [by vm_compute|]. split; [by vm_compute|]. eexists. split; [by vm_compute|]. by vm_compute. }
  exists b. split; [done|]. split; [done|]. intros k c' Hk Hc'. apply (mk_is_Some _ _) in Hc' as Hk'. apply all_objects, elem_of_cons in Hk' as [E|E%list_elem_of_singleton]; [|by destruct Hk].
  rewrite E in Hc'. rewrite Hc in Hc'. by injection Hc' as <-.
Qed.

(** Growth of three bytes. *)
Definition wos : list wop := [WField (FBE 4 1000); WField (FString [7; 8]); WField (FBytes [9]); WEnsure 2; WField (FLE 2 513)].
Definition sl : limits := mk_limits 1000 100.

Lemma appender_roundtrip_witness : wp (a ← new_appender p1 3; write_all un lim wos a)
  (fun _ h' => ∃ N c, contents h' (p1 :: [p2] ++ N) = [1; 2; 3; 4; 5; 0; 0; 3; 232; 7; 8; 9; 1; 2] ∧
     gives (run sl [OSkip 5; OReadBE 4; OFixed 2; OPull 1; OReadLE 2] (Cursor.new_cursor p1)) h' (Ret ([RUnit; RSize 1000; RBytes [7; 8]; RBytes [9]; RSize 513], c))) h3.
Proof.
  destruct ok3 as (Hok & Hch & _). eapply wp_mono.
  - apply (appender_roundtrip un lim ∅ sl p1 [p2] 3 wos h3 Hok Hch own2); [done|unfold affordable, lim; lia| |by vm_compute].
    repeat (apply Forall_cons; split); [..|done]; vm_compute; split_and!; done.
  - intros _ h' (_ & N & _ & _ & Ec & _ & c & Hrun). exists N, c. split; [rewrite Ec; by vm_compute|].
    replace (len (contents h3 [p1; p2])) with 5 in Hrun by (by vm_compute). exact Hrun.
Defined.

Lemma appender_no_growth_witness :
  (a ← new_appender p1 0; push un lim (repeat 1 100) a) h3 = Err (Thrown "out_of_range: overflow").
Proof.
  destruct ok3 as (Hok & Hch & _). assert (∃ b, bufs h3 !! p2 = Some b ∧ tailroom b < 100) as (b & Hb & Ht).
  { eexists. split; [by vm_compute|]. by vm_compute. }
  apply (appender_no_growth un lim ∅ p1 [p2] b (repeat 1 100) 0 h3 Hok Hch own2 Hb); [by vm_compute|]. rewrite repeat_length. lia.
Defined.

(** Before they were linked: the last two bytes of the first object, after the bytes of
    the second. *)
Lemma own2' : unique h2 p2.
Proof.
  assert (∃ b, bufs h2 !! p2 = Some b ∧ sharedInfo b ≠ 0 ∧ ∃ c, bufs h2 !! p1 = Some c ∧ sharedInfo c ≠ sharedInfo b) as (b & Hb & Hs & c & Hc & Hne).
  { eexists. split; [by vm_compute|]. split; [by vm_compute|]. eexists. split; [by vm_compute|]. by vm_compute. }
  exists b. split; [done|]. split; [done|]. intros k c' Hk Hc'. assert (k = p1) as ->; [|congruence].
  apply elem_of_map_to_list in Hc'. revert Hk Hc'. vm_compute (map_to_list (bufs h2)). rewrite !elem_of_cons.
  intros Hk [E|[E|[]%elem_of_nil]]; apply (f_equal fst) in E; cbn [fst] in E; (rewrite E; reflexivity) || (destruct Hk; rewrite E; reflexivity).
Qed.

Lemma pushCursor_correct_witness : ∃ c, run sl [OSkip 1] (Cursor.new_cursor p1) h2 = Ret ([RUnit], c, h2) ∧
  wp (a ← new_appender p2 3; pushCursorAtMost un lim c 9 a) (fun r h' => r.1 = 2) h2.
Proof.
  destruct ok2 as (Hok & C1 & C2 & _). exists (Cursor.mk_cursor p1 1 p1). assert (run sl [OSkip 1] (Cursor.new_cursor p1) h2 = Ret ([RUnit], Cursor.mk_cursor p1 1 p1, h2)) as Hrun by (by vm_compute).
  split; [exact Hrun|]. destruct (pushCursor_correct un lim ∅ sl p2 [] 3 p1 [] [OSkip 1] 9 (Cursor.mk_cursor p1 1 p1) h2 Hok C2 own2') as (l & _ & Hl & Hwp).
  - done.
  - unfold affordable, lim; lia.
  - exact C1.
  - intros x ->%list_elem_of_singleton E%list_elem_of_singleton. by vm_compute in E.
  - by vm_compute.
  - apply Forall_singleton. cbn. unfold size_ok. lia.
  - lia.
  - exists [RUnit]. exact Hrun.
  - eapply wp_mono; [exact Hwp|]. intros r h' [Hr _]. rewrite Hr. assert (Cursor.totalLength (Cursor.mk_cursor p1 1 p1) h2 = Ret (2, h2)) as E by (by vm_compute).
    unfold gives in Hl. rewrite E in Hl.
    apply (f_equal (fun o => match o with Ret (k, _) => k | Err _ => 0 end)) in Hl. cbn beta match in Hl. rewrite <- Hl. reflexivity.
Defined.
End Demo.
End AppenderSpec.
