(* ===== verification/Serializer.v ===== *)
(** serializer/Serializer.h, the binary protocol: values of arithmetic types, strings,
    vectors, sets, maps, pairs and structs of RDD_SERIALIZER, written to a string or to a
    chain of buffers and read back from a range of bytes. *)
From S2P Require Import Prelude IOBuf Cursor Appender.
Import IOBuf.

Module Serializer.
#[local] Abbreviation len l := (Z.of_nat (List.length l)).

(** ** The C++ types that have a serialize function, and their values *)

(** The fields of a struct are a [TField] each, and [TEnd] after the last. A bool, whose
    byte has only two valid values, is not among the arithmetic types here. *)
Inductive ty :=
| TUInt (size : nat) | TSInt (size : nat) | TFloat (size : nat)
| TString
| TVector (t : ty) | TSet (t : ty) | TMap (k v : ty)
| TPair (a b : ty)
| TField (a rest : ty) | TEnd.

(** A std::set is the sequence of its elements in order, a std::map that of its entries; a
    floating-point number is its bits. *)
Fixpoint den (t : ty) : Type :=
  match t with
  | TUInt _ | TSInt _ | TFloat _ => Z
  | TString => list Z
  | TVector t | TSet t => list (den t)
  | TMap k v => list (den k * den v)
  | TPair a b | TField a b => den a * den b
  | TEnd => unit
  end.

(** *** operator< of the types that std::set and std::map compare *)

(** std::lexicographical_compare *)
Fixpoint lexi {A} (lt : A → A → bool) (l m : list A) : bool :=
  match l, m with
  | _, [] => false
  | [], _ :: _ => true
  | x :: l, y :: m => if lt x y then true else if lt y x then false else lexi lt l m
  end.
Definition pair_less {A B} (lt1 : A → A → bool) (lt2 : B → B → bool) (x y : A * B) : bool :=
  lt1 x.1 y.1 || (negb (lt1 y.1 x.1) && lt2 x.2 y.2).
Fixpoint less (t : ty) : den t → den t → bool :=
  match t with
  | TUInt _ | TSInt _ => Z.ltb
  | TString => lexi Z.ltb
  | TVector t | TSet t => lexi (less t)
  | TMap k v => lexi (pair_less (less k) (less v))
  | TPair a b => pair_less (less a) (less b)
  | TFloat _ | TField _ _ | TEnd => fun _ _ => false
  end.

(** The types that can be keys here: a struct has no operator<, and floating-point
    numbers are left out, for a NaN is not ordered. *)
Fixpoint key (t : ty) : bool :=
  match t with
  | TUInt _ | TSInt _ | TString => true
  | TVector t | TSet t => key t
  | TMap a b | TPair a b => key a && key b
  | TFloat _ | TField _ _ | TEnd => false
  end.
Fixpoint valid (t : ty) : bool :=
  match t with
  | TSInt n => (0 <? n)%nat
  | TUInt _ | TFloat _ | TString | TEnd => true
  | TVector t => valid t
  | TSet t => key t && valid t
  | TMap k v => key k && valid k && valid v
  | TPair a b | TField a b => valid a && valid b
  end.

(** value.insert(v) of a std::set and value.emplace(k, v) of a std::map: an equivalent
    element that is there already stays. *)
Fixpoint insert_by {A} (lt : A → A → bool) (x : A) (l : list A) : list A :=
  match l with
  | [] => [x]
  | y :: r => if lt x y then x :: l else if lt y x then y :: insert_by lt x r else l
  end.
Definition fst_less {A B} (lt : A → A → bool) (x y : A * B) : bool := lt x.1 y.1.

(** ** Writing *)

(** The interface of what is written to. *)
Class Out (O : Type) := append : list Z → O → M O.

(** std::string *)
#[global] Instance string_out : Out (list Z) := fun bs out => mret (out ++ bs).

(** class IOBufOuter *)
Definition outer_append (uninit : Z → Z → Z) (mem_limit : Z) (bs : list Z) (out : Appender.appender) : M Appender.appender :=
  '(_, out) ← Appender.pushAtMost uninit mem_limit bs out; mret out.
Definition IOBufOuter (uninit : Z → Z → Z) (mem_limit : Z) : Out Appender.appender := outer_append uninit mem_limit.

Section write.
Context {O : Type} `{!Out O}.

Definition serialize_n (n : Z) (out : O) : M O := append (Appender.le_bytes 4 (u32 n)) out.
Fixpoint serialize_all {A} (ser : A → O → M O) (l : list A) (out : O) : M O :=
  match l with [] => mret out | x :: l => out ← ser x out; serialize_all ser l out end.
Definition serialize_pair {A B} (ser1 : A → O → M O) (ser2 : B → O → M O) (x : A * B) (out : O) : M O :=
  out ← ser1 x.1 out; ser2 x.2 out.
Fixpoint serialize (t : ty) : den t → O → M O :=
  match t with
  | TUInt n | TSInt n | TFloat n => fun v => append (Appender.le_bytes n v)
  | TString => fun v out => out ← serialize_n (len v) out; append v out
  | TVector t | TSet t => fun v out => out ← serialize_n (len v) out; serialize_all (serialize t) v out
  | TMap a b => fun v out => out ← serialize_n (len v) out; serialize_all (serialize_pair (serialize a) (serialize b)) v out
  | TPair a b | TField a b => serialize_pair (serialize a) (serialize b)
  | TEnd => fun _ => mret
  end.
End write.

(** ** Reading: how many bytes were read, and the value *)

(** memcpy(&value, in.data() + pos, n): [in] is not asked for its size. *)
Definition copy (input : list Z) (pos n : Z) : outcome (list Z) :=
  _ ← check ((0 <=? pos) && (pos + n <=? len input)) Undefined;
  Ret (take (Z.to_nat n) (drop (Z.to_nat pos) input)).
Definition signed (n : nat) (x : Z) : Z := if x <? 256 ^ Z.of_nat n / 2 then x else x - 256 ^ Z.of_nat n.

Definition unserialize_n (input : list Z) (pos : Z) : outcome (Z * Z) :=
  bs ← copy input pos 4; Ret (4, Cursor.le_value bs).
(** for (uint32_t i = 0; i < n; i++): what is read at p is put in the container. *)
Fixpoint unserialize_all {A} (un : Z → outcome (Z * A)) (put : A → list A → list A) (n : nat) (p : Z) (value : list A) : outcome (Z * list A) :=
  match n with
  | O => Ret (p, value)
  | S n => '(k, v) ← un p; unserialize_all un put n (u32 (p + k)) (put v value)
  end.
(** Of a container: [room] is what is done for n elements before the first is read. *)
Definition unserialize_list {A} (room : Z → outcome unit) (un : Z → outcome (Z * A)) (put : A → list A → list A) (input : list Z) (pos : Z) : outcome (Z * list A) :=
  '(k, n) ← unserialize_n input pos;
  _ ← room n;
  '(p, value) ← unserialize_all un put (Z.to_nat n) (u32 (pos + k)) [];
  Ret (u32 (p - pos), value).
Definition unserialize_pair {A B} (un1 : Z → outcome (Z * A)) (un2 : Z → outcome (Z * B)) (pos : Z) : outcome (Z * (A * B)) :=
  '(k1, x) ← un1 pos;
  let p := u32 (pos + k1) in
  '(k2, y) ← un2 p;
  Ret (u32 (u32 (p + k2) - pos), (x, y)).
Definition push_back {A} (v : A) (value : list A) : list A := value ++ [v].
Definition no_room (n : Z) : outcome unit := Ret tt.

(** [lim t] are the limits of a std::vector of elements of type [t], which reserve(n) must keep. *)
Fixpoint unserialize (lim : ty → limits) (t : ty) (input : list Z) (pos : Z) : outcome (Z * den t) :=
  match t with
  | TUInt n | TFloat n => bs ← copy input pos (Z.of_nat n); Ret (Z.of_nat n, Cursor.le_value bs)
  | TSInt n => bs ← copy input pos (Z.of_nat n); Ret (Z.of_nat n, signed n (Cursor.le_value bs))
  | TString =>
      '(k, n) ← unserialize_n input pos;
      let p := u32 (pos + k) in
      bs ← copy input p n;
      Ret (u32 (n + 4), bs)
  | TVector t => unserialize_list (container_reserve (lim t)) (unserialize lim t input) push_back input pos
  | TSet t => unserialize_list no_room (unserialize lim t input) (insert_by (less t)) input pos
  | TMap a b => unserialize_list no_room (unserialize_pair (unserialize lim a input) (unserialize lim b input)) (insert_by (fst_less (less a))) input pos
  | TPair a b | TField a b => unserialize_pair (unserialize lim a input) (unserialize lim b input) pos
  | TEnd => Ret (0, tt)
  end.

(** struct { std::map<std::string, std::vector<int16_t>> m; std::set<uint8_t> s; } *)
Definition demo_ty : ty := TField (TMap TString (TVector (TSInt 2))) (TField (TSet (TUInt 1)) TEnd).
Definition demo_value : den demo_ty := ([([97], [-1; 300]); ([97; 98], [])], ([3; 200], tt)).
End Serializer.
