(* ===== verification/SerializerProof.v ===== *)
(** The binary protocol of serializer/Serializer.h: a value that is written is read back; what
    is read is a value of its type, whatever the bytes; a message that is cut short makes
    the reader read past its end. *)
From Stdlib Require Import Sorting.Sorted.
From S2P Require Import Prelude IOBuf IOBufLife IOBufOps Cursor Appender AppenderProof AppenderSpec Serializer.
Import IOBuf.

Module SerializerProof.
Import Appender AppenderProof AppenderSpec Serializer.
#[local] Abbreviation len l := (Z.of_nat (List.length l)).

(** ** The order of keys *)

Record order {A} (lt : A → A → bool) : Prop := {
  ord_asym : ∀ x y, lt x y = true → lt y x = false;
  ord_trans : ∀ x y z, lt x y = true → lt y z = true → lt x z = true;
  ord_total : ∀ x y, lt x y = false → lt y x = false → x = y
}.

Lemma ord_irrefl {A} (lt : A → A → bool) x : order lt → lt x x = false.
Proof. intros H. destruct (lt x x) eqn:E; [|done]. pose proof (ord_asym lt H _ _ E). congruence. Qed.

Lemma order_Z : order Z.ltb.
Proof. split; intros *; rewrite ?Z.ltb_lt, ?Z.ltb_ge; lia. Qed.

Lemma order_lexi {A} (lt : A → A → bool) : order lt → order (lexi lt).
Proof.
  intros H. split.
  - intros x. induction x as [|a x IH]; intros [|b y]; cbn; try done.
    destruct (lt a b) eqn:E1, (lt b a) eqn:E2; try done; [|apply IH]. by rewrite (ord_asym lt H _ _ E1) in E2.
  - intros x. induction x as [|a x IH]; intros [|b y] [|c z]; cbn; try done.
    destruct (lt a b) eqn:E1.
    + intros _. destruct (lt b c) eqn:E2; [by rewrite (ord_trans lt H _ _ _ E1 E2)|]. destruct (lt c b) eqn:E3; [done|].
      rewrite (ord_total lt H _ _ E2 E3) in E1. by rewrite E1.
    + destruct (lt b a) eqn:E1'; [done|]. rewrite (ord_total lt H _ _ E1 E1'). destruct (lt b c); [done|]. destruct (lt c b); [done|]. apply IH.
  - intros x. induction x as [|a x IH]; intros [|b y]; cbn; try done.
    destruct (lt a b) eqn:E1, (lt b a) eqn:E2; try done. intros Hx Hy. by rewrite (ord_total lt H _ _ E1 E2), (IH y Hx Hy).
Qed.

Lemma order_pair {A B} (lt1 : A → A → bool) (lt2 : B → B → bool) : order lt1 → order lt2 → order (pair_less lt1 lt2).
Proof.
  intros H1 H2. split; unfold pair_less; intros [a b] [c d]; cbn.
  - destruct (lt1 a c) eqn:E1, (lt1 c a) eqn:E2; cbn; try done; [|apply (ord_asym lt2 H2)]. by rewrite (ord_asym lt1 H1 _ _ E1) in E2.
  - intros [e f]; cbn. destruct (lt1 a c) eqn:E1; cbn.
    + intros _. destruct (lt1 c e) eqn:E2; cbn; [by rewrite (ord_trans lt1 H1 _ _ _ E1 E2)|]. destruct (lt1 e c) eqn:E3; cbn; [done|].
      rewrite (ord_total lt1 H1 _ _ E2 E3) in E1. by rewrite E1.
    + destruct (lt1 c a) eqn:E1'; cbn; [done|]. rewrite (ord_total lt1 H1 _ _ E1 E1').
      destruct (lt1 c e); cbn; [done|]. destruct (lt1 e c); cbn; [done|]. apply (ord_trans lt2 H2).
  - destruct (lt1 a c) eqn:E1, (lt1 c a) eqn:E2; cbn; try done. intros Hx Hy.
    by rewrite (ord_total lt1 H1 _ _ E1 E2), (ord_total lt2 H2 _ _ Hx Hy).
Qed.

Lemma order_less t : key t = true → order (less t).
Proof.
  induction t as [n|n|n| |t IH|t IH|a IHa b IHb|a IHa b IHb|a IHa b IHb|]; cbn [key less]; try done;
    rewrite ?andb_true_iff; intros Hk; try apply order_lexi; try apply order_Z; auto.
  - apply order_pair; naive_solver.
  - apply order_pair; naive_solver.
Qed.

(** ** Sorted containers *)

Definition below {A} (lt : A → A → bool) (x y : A) : Prop := lt x y = true.
Notation sorted lt := (StronglySorted (below lt)).

(** Inserting what is above all elements adds it at the end. *)
Lemma insert_last {A} (lt : A → A → bool) l x : (∀ y, y ∈ l → lt y x = true ∧ lt x y = false) → insert_by lt x l = l ++ [x].
Proof.
  induction l as [|y l IH]; intros H; [done|]. cbn. destruct (H y) as [E1 E2]; [set_solver|]. rewrite E2, E1, IH; [done|]. set_solver.
Qed.

Lemma insert_in {A} (lt : A → A → bool) x l y : y ∈ insert_by lt x l → y = x ∨ y ∈ l.
Proof. induction l as [|z l IH]; cbn; [set_solver|]. destruct (lt x z); [set_solver|]. destruct (lt z x); set_solver. Qed.

Lemma insert_sorts {A} (lt : A → A → bool) x l : (∀ x y z, lt x y = true → lt y z = true → lt x z = true) → sorted lt l → sorted lt (insert_by lt x l).
Proof.
  intros Ht. induction 1 as [|y l Hl IH Hy]; cbn; [repeat constructor|]. destruct (lt x y) eqn:E1.
  - constructor; [by constructor|]. constructor; [done|]. eapply Forall_impl; [exact Hy|]. intros z Hz. by apply (Ht x y z).
  - destruct (lt y x) eqn:E2; [|by constructor]. constructor; [done|]. apply list.Forall_forall. intros z Hz.
    apply insert_in in Hz as [->|Hz]; [done|]. rewrite list.Forall_forall in Hy. by apply Hy.
Qed.

Lemma insert_Forall {A} (P : A → Prop) lt x l : P x → Forall P l → Forall P (insert_by lt x l).
Proof. intros Hx. induction 1 as [|y l Hy Hl IH]; cbn; [by repeat constructor|]. destruct (lt x y); [by repeat constructor|]. destruct (lt y x); by constructor. Qed.

(** ** Values of a type, and their bytes *)

Definition byte (b : Z) : Prop := 0 ≤ b < 256.
Fixpoint typed (t : ty) : den t → Prop :=
  match t with
  | TUInt n | TFloat n => fun v => 0 ≤ v < 256 ^ Z.of_nat n
  | TSInt n => fun v => - (256 ^ Z.of_nat n / 2) ≤ v < 256 ^ Z.of_nat n / 2
  | TString => Forall byte
  | TVector t => Forall (typed t)
  | TSet t => fun v => Forall (typed t) v ∧ sorted (less t) v
  | TMap a b => fun v => Forall (fun x => typed a x.1 ∧ typed b x.2) v ∧ sorted (fst_less (less a)) v
  | TPair a b | TField a b => fun v => typed a v.1 ∧ typed b v.2
  | TEnd => fun _ => True
  end.

(** No container has 2^32 elements or more, and a vector can reserve as many as it has. *)
Definition few {A} (l : list A) : Prop := len l < 2 ^ 32.
Fixpoint counted (lim : ty → limits) (t : ty) : den t → Prop :=
  match t with
  | TUInt _ | TSInt _ | TFloat _ => fun _ => True
  | TString => few
  | TVector t => fun v => (few v ∧ reservable (lim t) (len v)) ∧ Forall (counted lim t) v
  | TSet t => fun v => few v ∧ Forall (counted lim t) v
  | TMap a b => fun v => few v ∧ Forall (fun x => counted lim a x.1 ∧ counted lim b x.2) v
  | TPair a b | TField a b => fun v => counted lim a v.1 ∧ counted lim b v.2
  | TEnd => fun _ => True
  end.

Definition header (n : Z) : list Z := le_bytes 4 (u32 n).
Fixpoint encoding (t : ty) : den t → list Z :=
  match t with
  | TUInt n | TSInt n | TFloat n => le_bytes n
  | TString => fun v => header (len v) ++ v
  | TVector t | TSet t => fun v => header (len v) ++ flat_map (encoding t) v
  | TMap a b => fun v => header (len v) ++ flat_map (fun x => encoding a x.1 ++ encoding b x.2) v
  | TPair a b | TField a b => fun v => encoding a v.1 ++ encoding b v.2
  | TEnd => fun _ => []
  end.

Lemma header_length n : len (header n) = 4.
Proof. unfold header. by rewrite length_le_bytes. Qed.
Lemma le_value_wraps n : ∀ v, Cursor.le_value (le_bytes n v) = v mod 256 ^ Z.of_nat n.
Proof.
  induction n as [|n IH]; intros v; [by rewrite Z.mod_1_r|]. cbn [le_bytes].
  change (Cursor.le_value (?a :: ?l)) with (a + 256 * Cursor.le_value l). rewrite IH.
  rewrite Nat2Z.inj_succ, Z.pow_succ_r, Z.rem_mul_r by lia. done.
Qed.
Lemma le_value_header n : 0 ≤ n < 2 ^ 32 → Cursor.le_value (header n) = n.
Proof. intros H. unfold header. rewrite le_value_wraps. change (256 ^ Z.of_nat 4) with (2 ^ 32). by rewrite u32_small, Z.mod_small. Qed.
Lemma half_pow n : (0 < n)%nat → 256 ^ Z.of_nat n = 2 * (256 ^ Z.of_nat n / 2).
Proof.
  intros Hn. destruct n as [|n]; [lia|]. rewrite Nat2Z.inj_succ, Z.pow_succ_r by lia.
  replace (256 * 256 ^ Z.of_nat n) with ((128 * 256 ^ Z.of_nat n) * 2) by lia. rewrite Z.div_mul by lia. lia.
Qed.
Lemma signed_bytes n v : (0 < n)%nat → - (256 ^ Z.of_nat n / 2) ≤ v < 256 ^ Z.of_nat n / 2 → signed n (Cursor.le_value (le_bytes n v)) = v.
Proof.
  intros Hn Hv. pose proof (half_pow n Hn) as H2. rewrite le_value_wraps. unfold signed.
  destruct (Z.leb_spec 0 v).
  - rewrite Z.mod_small by lia. by rewrite (proj2 (Z.ltb_lt _ _)) by lia.
  - rewrite <- (Z.mod_add _ 1), Z.mod_small by lia. rewrite (proj2 (Z.ltb_ge _ _)); lia.
Qed.

(** ** Reading what was written *)

(** The bytes [bs] are at [pos]. *)
Definition at_ (input : list Z) (pos : Z) (bs : list Z) : Prop := ∃ pre post, input = pre ++ bs ++ post ∧ pos = len pre.
Lemma at_app input pos a b : at_ input pos (a ++ b) → at_ input pos a ∧ at_ input (pos + len a) b.
Proof.
  intros (pre & post & -> & ->). split; [exists pre, (b ++ post); by rewrite <- app_assoc|]. exists (pre ++ a), post. rewrite length_app, <- !app_assoc. split; [done|lia].
Qed.
Lemma at_pos input pos bs : at_ input pos bs → 0 ≤ pos.
Proof. intros (pre & post & _ & ->). lia. Qed.
Lemma copy_at input pos bs n : at_ input pos bs → n = len bs → copy input pos n = Ret bs.
Proof.
  intros (pre & post & -> & ->) ->. unfold copy. rewrite !length_app.
  rewrite (proj2 (Z.leb_le 0 _)), (proj2 (Z.leb_le (_ + _) _)) by lia. cbn. by rewrite !Nat2Z.id, drop_app_length, take_app_length.
Qed.
Lemma unserialize_n_at input pos n : at_ input pos (header n) → 0 ≤ n < 2 ^ 32 → unserialize_n input pos = Ret (4, n).
Proof. intros Ha Hn. unfold unserialize_n. rewrite (copy_at input pos (header n)) by (done || by rewrite header_length). cbn [mbind outcome_bind]. by rewrite le_value_header. Qed.

(** A reader reads back what [enc] writes. *)
Definition reads {A} (un : list Z → Z → outcome (Z * A)) (enc : A → list Z) (x : A) : Prop :=
  ∀ input pos, at_ input pos (enc x) → pos + len (enc x) < 2 ^ 32 → un input pos = Ret (len (enc x), x).

Lemma read_all {A} (un : list Z → Z → outcome (Z * A)) put enc input l : Forall (reads un enc) l → ∀ p acc,
  at_ input p (flat_map enc l) → p + len (flat_map enc l) < 2 ^ 32 →
  unserialize_all (un input) put (length l) p acc = Ret (p + len (flat_map enc l), foldl (fun acc x => put x acc) acc l).
Proof.
  induction 1 as [|x l Hx Hl IH]; intros p acc Ha Hp; cbn in *; [by rewrite Z.add_0_r|].
  rewrite length_app in *. pose proof (at_pos _ _ _ Ha). destruct (at_app _ _ _ _ Ha) as [H1 H2]. rewrite Hx by (done || lia). cbn.
  rewrite u32_small by lia. rewrite IH by (done || lia). do 2 f_equal. lia.
Qed.

Lemma read_list {A} room (un : list Z → Z → outcome (Z * A)) put enc l input pos : Forall (reads un enc) l → few l → room (len l) = Ret tt →
  foldl (fun acc x => put x acc) [] l = l → at_ input pos (header (len l) ++ flat_map enc l) → pos + len (header (len l) ++ flat_map enc l) < 2 ^ 32 →
  unserialize_list room (un input) put input pos = Ret (len (header (len l) ++ flat_map enc l), l).
Proof.
  intros Hl Hf Hroom Hput Ha Hp. destruct (at_app _ _ _ _ Ha) as [H1 H2]. rewrite length_app in *. pose proof (header_length (len l)) as Hh.
  pose proof (at_pos _ _ _ Ha). rewrite Hh in H2. unfold unserialize_list. unfold few in Hf. rewrite (unserialize_n_at _ _ (len l)) by (done || lia). cbn. rewrite Hroom. cbn.
  rewrite u32_small, Nat2Z.id by lia. rewrite (read_all un put enc) by (done || lia). cbn. rewrite u32_small by lia. rewrite Hput. do 2 f_equal. lia.
Qed.

Lemma read_pair {A B} (un1 : list Z → Z → outcome (Z * A)) (un2 : list Z → Z → outcome (Z * B)) enc1 enc2 x :
  reads un1 enc1 x.1 → reads un2 enc2 x.2 → reads (fun input => unserialize_pair (un1 input) (un2 input)) (fun x => enc1 x.1 ++ enc2 x.2) x.
Proof.
  intros Hx1 Hx2 input pos Ha Hp. destruct (at_app _ _ _ _ Ha) as [H1 H2]. rewrite length_app in *. pose proof (at_pos _ _ _ Ha).
  unfold unserialize_pair. rewrite Hx1 by (done || lia). cbn. rewrite (u32_small (pos + _)) by lia. rewrite Hx2 by (done || lia). cbn.
  rewrite u32_small by (rewrite u32_small; lia). rewrite u32_small by lia. destruct x. cbn in *. do 2 f_equal. lia.
Qed.

Lemma put_back {A} (l : list A) : ∀ acc, foldl (fun acc x => push_back x acc) acc l = acc ++ l.
Proof. induction l as [|x l IH]; intros acc; cbn; [by rewrite app_nil_r|]. rewrite IH. unfold push_back. by rewrite <- app_assoc. Qed.
Lemma put_sorted {A} (lt : A → A → bool) (l : list A) : (∀ x y, lt x y = true → lt y x = false) → ∀ acc, sorted lt (acc ++ l) →
  foldl (fun acc x => insert_by lt x acc) acc l = acc ++ l.
Proof.
  intros Has. induction l as [|x l IH]; intros acc Hs; cbn; [by rewrite app_nil_r|].
  rewrite insert_last.
  - rewrite IH, <- app_assoc; [done|]. by rewrite <- app_assoc.
  - intros y Hy. assert (lt y x = true) as E; [|auto]. clear IH. induction acc as [|z acc IH]; [set_solver|]. cbn in Hs.
    inversion Hs as [|? ? Hs' Hz]; subst. apply elem_of_cons in Hy as [->|Hy]; [|by apply IH].
    rewrite Forall_app in Hz. destruct Hz as [_ Hz]. by inversion Hz.
Qed.

Lemma unserialize_reads lim t : valid t = true → ∀ v, typed t v → counted lim t v → reads (unserialize lim t) (encoding t) v.
Proof.
  induction t as [n|n|n| |t IH|t IH|a IHa b IHb|a IHa b IHb|a IHa b IHb|]; cbn [valid typed counted encoding den]; rewrite ?andb_true_iff; intros Hv v Ht Hc.
  1,3: intros input pos Ha Hp; cbn [unserialize]; rewrite (copy_at input pos (le_bytes n v)) by (done || by rewrite length_le_bytes);
    cbn [mbind outcome_bind]; by rewrite le_value_bytes, length_le_bytes.
  - intros input pos Ha Hp. cbn [unserialize]. rewrite (copy_at input pos (le_bytes n v)) by (done || by rewrite length_le_bytes).
    cbn [mbind outcome_bind]. apply Nat.ltb_lt in Hv. by rewrite signed_bytes, length_le_bytes.
  - intros input pos Ha Hp. cbn [unserialize]. destruct (at_app _ _ _ _ Ha) as [H1 H2]. rewrite length_app in *.
    pose proof (header_length (len v)) as Hh. pose proof (at_pos _ _ _ Ha). unfold few in Hc. rewrite Hh in H2.
    rewrite (unserialize_n_at _ _ (len v)) by (done || lia). cbn. rewrite !u32_small by lia.
    rewrite (copy_at _ _ v) by done. cbn.
    do 2 f_equal. lia.
  - intros input pos Ha Hp. destruct Hc as [[Hf Hm] Hc]. apply (read_list (container_reserve (lim t)) (unserialize lim t)); try done; [|by apply container_reserve_ok|apply put_back].
    clear Hf Hm Ha Hp. induction Ht; inversion Hc; subst; constructor; auto.
  - intros input pos Ha Hp. destruct Hc as [Hf Hc], Ht as [Ht Hs], Hv as [Hk Hv]. apply (read_list no_room (unserialize lim t)); try done.
    + clear Hs Hf Ha Hp. induction Ht; inversion Hc; subst; constructor; auto.
    + apply put_sorted; [|done]. apply (order_less t Hk).
  - intros input pos Ha Hp. destruct Hc as [Hf Hc], Ht as [Ht Hs], Hv as [[Hk Hva] Hvb].
    apply (read_list no_room (fun input => unserialize_pair (unserialize lim a input) (unserialize lim b input)) _ (fun x => encoding a x.1 ++ encoding b x.2)); try done.
    + clear Hs Hf Ha Hp. induction Ht as [|x l Hx Hl IH]; inversion Hc as [|? ? [] ?]; subst; constructor; [|by auto].
      destruct Hx. apply read_pair; auto.
    + apply put_sorted; [|done]. unfold fst_less. intros x y. apply (order_less a Hk).
  - destruct Hc, Ht, Hv. by apply read_pair; auto.
  - destruct Hc, Ht, Hv. by apply read_pair; auto.
  - intros input pos _ _. by destruct v.
Qed.

(** ** Whatever is read is a value of its type *)

Lemma bytes_value_range bs : Forall byte bs → 0 ≤ Cursor.le_value bs < 256 ^ len bs.
Proof.
  unfold byte. induction 1 as [|b bs Hb Hbs IH]; [cbn; lia|]. change (Cursor.le_value (b :: bs)) with (b + 256 * Cursor.le_value bs).
  cbn [length]. rewrite Nat2Z.inj_succ, Z.pow_succ_r by lia. lia.
Qed.
Lemma copy_ret input pos n bs : Forall byte input → 0 ≤ n → copy input pos n = Ret bs → Forall byte bs ∧ len bs = n.
Proof.
  intros Hi Hn H. unfold copy in H. inv_ret. rewrite andb_true_iff, !Z.leb_le in *. split; [by apply Forall_take, Forall_drop|].
  rewrite length_take, length_drop. lia.
Qed.
Lemma signed_range n x : (0 < n)%nat → 0 ≤ x < 256 ^ Z.of_nat n → - (256 ^ Z.of_nat n / 2) ≤ signed n x < 256 ^ Z.of_nat n / 2.
Proof. intros Hn Hx. pose proof (half_pow n Hn). unfold signed. destruct (Z.ltb_spec x (256 ^ Z.of_nat n / 2)); lia. Qed.

Lemma all_invariant {A} (un : Z → outcome (Z * A)) put (P : A → Prop) (I : list A → Prop) :
  (∀ p k v, un p = Ret (k, v) → P v) → (∀ v l, P v → I l → I (put v l)) →
  ∀ n p acc p' l, I acc → unserialize_all un put n p acc = Ret (p', l) → I l.
Proof.
  intros HP HI n. induction n as [|n IH]; intros p acc p' l Ha H; cbn in H; [by simplify_eq|].
  apply bind_ret_inv in H as ([k v] & Hu & H). eapply IH; [|exact H]. eauto.
Qed.
Lemma list_invariant {A} room (un : Z → outcome (Z * A)) put (P : A → Prop) (I : list A → Prop) input pos k l :
  (∀ p k v, un p = Ret (k, v) → P v) → (∀ v l, P v → I l → I (put v l)) → I [] → unserialize_list room un put input pos = Ret (k, l) → I l.
Proof.
  intros HP HI H0 H. unfold unserialize_list in H. apply bind_ret_inv in H as ([? n] & _ & H). apply bind_ret_inv in H as (? & _ & H). apply bind_ret_inv in H as ([p l'] & H & E).
  injection E as _ ->. by eapply all_invariant.
Qed.
Lemma pair_parts {A B} (un1 : Z → outcome (Z * A)) (un2 : Z → outcome (Z * B)) pos k x :
  unserialize_pair un1 un2 pos = Ret (k, x) → ∃ k1 p k2, un1 pos = Ret (k1, x.1) ∧ un2 p = Ret (k2, x.2).
Proof.
  unfold unserialize_pair. intros H. apply bind_ret_inv in H as ([k1 a] & H1 & H). apply bind_ret_inv in H as ([k2 b] & H2 & H).
  injection H as _ <-. eauto.
Qed.

Lemma typed_reads lim t input : valid t = true → Forall byte input → ∀ pos k v, unserialize lim t input pos = Ret (k, v) → typed t v.
Proof.
  intros Hv Hi. induction t as [n|n|n| |t IH|t IH|a IHa b IHb|a IHa b IHb|a IHa b IHb|]; cbn [valid unserialize typed den] in *; rewrite ?andb_true_iff in Hv; intros pos k v H.
  1,3: apply bind_ret_inv in H as (bs & H & E); injection E as <- <-; destruct (copy_ret _ _ _ _ Hi (Zle_0_nat n) H) as [Hb <-]; by apply bytes_value_range.
  - apply bind_ret_inv in H as (bs & H & E). injection E as <- <-. destruct (copy_ret _ _ _ _ Hi (Zle_0_nat n) H) as [Hb Hl].
    apply signed_range; [by apply Nat.ltb_lt|]. rewrite <- Hl. by apply bytes_value_range.
  - apply bind_ret_inv in H as ([k1 n] & H1 & H). apply bind_ret_inv in H as (bs & H & E). injection E as <- <-.
    unfold unserialize_n in H1. apply bind_ret_inv in H1 as (b4 & H4 & E). injection E as <- <-.
    destruct (copy_ret _ _ 4 _ Hi ltac:(lia) H4) as [Hb _]. by apply (copy_ret input _ _ _ Hi (proj1 (bytes_value_range _ Hb)) H).
  - apply (list_invariant _ (unserialize lim t input) push_back (typed t) (Forall (typed t)) _ _ _ _ (IH Hv)) in H; [done| |done].
    intros x l Hx Hl. apply Forall_app. auto.
  - destruct Hv as [Hk Hv]. eapply (list_invariant _ _ _ (typed t) (fun l => Forall (typed t) l ∧ sorted (less t) l)); [by apply IH| |by repeat constructor|exact H].
    intros x l Hx [Hl Hs]. split; [by apply insert_Forall|]. apply insert_sorts; [|done]. apply (order_less t Hk).
  - destruct Hv as [[Hk Ha] Hb]. eapply (list_invariant _ _ _ (fun x => typed a x.1 ∧ typed b x.2) (fun l => Forall _ l ∧ sorted (fst_less (less a)) l));
      [|intros x l Hx [Hl Hs]|by repeat constructor|exact H].
    + intros p k' x Hx. apply pair_parts in Hx as (? & ? & ? & H1 & H2). eauto.
    + split; [by apply insert_Forall|]. apply insert_sorts; [|done]. unfold fst_less. intros x1 x2 x3. apply (order_less a Hk).
  - apply pair_parts in H as (? & ? & ? & H1 & H2). destruct Hv. eauto.
  - apply pair_parts in H as (? & ? & ? & H1 & H2). destruct Hv. eauto.
  - done.
Qed.

(** ** A message that is cut short *)

(** Of the bytes [bs] at [pos] the last ones are missing. *)
Definition cut (input : list Z) (pos : Z) (bs : list Z) : Prop :=
  ∃ pre b1 b2, bs = b1 ++ b2 ∧ b2 ≠ [] ∧ input = pre ++ b1 ∧ pos = len pre.
Lemma cut_app input pos a b : cut input pos (a ++ b) → cut input pos a ∨ (at_ input pos a ∧ cut input (pos + len a) b).
Proof.
  intros (pre & b1 & b2 & E & Hne & -> & ->). destruct (decide (length a ≤ length b1))%nat as [Hl|Hl].
  - right. assert (b1 = a ++ drop (length a) b1) as E1.
    { rewrite <- (take_drop (length a) b1) at 1. f_equal. pose proof (f_equal (take (length a)) E) as Et.
      by rewrite take_app_length, take_app_le in Et. }
    rewrite E1 in E |- *. rewrite <- app_assoc in E. apply app_inv_head in E. split; [exists pre, (drop (length a) b1); done|].
    exists (pre ++ a), (drop (length a) b1), b2. rewrite length_app, <- app_assoc. split_and!; try done. lia.
  - left. exists pre, b1, (drop (length b1) a). split_and!; try done.
    + rewrite <- (take_drop (length b1) a) at 1. f_equal. pose proof (f_equal (take (length b1)) E) as Et.
      by rewrite take_app_length, take_app_le in Et by lia.
    + intros H%(f_equal length). rewrite length_drop in H. cbn in H. lia.
Qed.
Lemma copy_cut input pos bs n : cut input pos bs → n = len bs → copy input pos n = Err Undefined.
Proof.
  intros (pre & b1 & b2 & -> & Hne & -> & ->) ->. unfold copy. rewrite !length_app. destruct b2; [done|]. cbn [length].
  rewrite (proj2 (Z.leb_gt (_ + _) _)) by lia. by rewrite andb_false_r.
Qed.
Lemma unserialize_n_cut input pos n : cut input pos (header n) → unserialize_n input pos = Err Undefined.
Proof. intros Hc. unfold unserialize_n. by rewrite (copy_cut input pos (header n)) by (done || by rewrite header_length). Qed.

Definition strands {A} (un : list Z → Z → outcome (Z * A)) (enc : A → list Z) (x : A) : Prop :=
  ∀ input pos, cut input pos (enc x) → 0 ≤ pos → pos + len (enc x) < 2 ^ 32 → un input pos = Err Undefined.

Lemma strand_all {A} (un : list Z → Z → outcome (Z * A)) put enc input l : Forall (fun x => reads un enc x ∧ strands un enc x) l → ∀ p acc,
  cut input p (flat_map enc l) → 0 ≤ p → p + len (flat_map enc l) < 2 ^ 32 → unserialize_all (un input) put (length l) p acc = Err Undefined.
Proof.
  induction 1 as [|x l [Hr Hx] Hl IH]; intros p acc Ha H0 Hp; cbn in *.
  - destruct Ha as (? & b1 & b2 & E & Hne & _). by destruct b1, b2.
  - rewrite length_app in *. destruct (cut_app _ _ _ _ Ha) as [H1|[H1 H2]]; [by rewrite Hx by (done || lia)|].
    rewrite Hr by (done || lia). cbn. rewrite u32_small by lia. apply IH; [done|lia|lia].
Qed.
Lemma strand_list {A} room (un : list Z → Z → outcome (Z * A)) put enc l input pos : Forall (fun x => reads un enc x ∧ strands un enc x) l → few l → room (len l) = Ret tt →
  cut input pos (header (len l) ++ flat_map enc l) → 0 ≤ pos → pos + len (header (len l) ++ flat_map enc l) < 2 ^ 32 →
  unserialize_list room (un input) put input pos = Err Undefined.
Proof.
  intros Hl Hf Hroom Ha H0 Hp. rewrite length_app in *. pose proof (header_length (len l)) as Hh. unfold unserialize_list, few in *.
  destruct (cut_app _ _ _ _ Ha) as [H1|[H1 H2]]; [by rewrite (unserialize_n_cut _ _ (len l))|].
  rewrite (unserialize_n_at _ _ (len l)) by (done || lia). cbn. rewrite Hroom. cbn. rewrite u32_small, Nat2Z.id by lia. rewrite Hh in H2.
  by rewrite (strand_all un put enc) by (done || lia).
Qed.
Lemma strand_pair {A B} (un1 : list Z → Z → outcome (Z * A)) (un2 : list Z → Z → outcome (Z * B)) enc1 enc2 x :
  reads un1 enc1 x.1 → strands un1 enc1 x.1 → strands un2 enc2 x.2 →
  strands (fun input => unserialize_pair (un1 input) (un2 input)) (fun x => enc1 x.1 ++ enc2 x.2) x.
Proof.
  intros Hr Hx1 Hx2 input pos Ha H0 Hp. rewrite length_app in *. unfold unserialize_pair.
  destruct (cut_app _ _ _ _ Ha) as [H1|[H1 H2]]; [by rewrite Hx1 by (done || lia)|].
  rewrite Hr by (done || lia). cbn. rewrite u32_small by lia. by rewrite Hx2 by (done || lia).
Qed.

Lemma Forall_both {A} (P Q R S : A → Prop) l : (∀ x, P x → Q x → R x) → (∀ x, P x → Q x → S x) → Forall P l → Forall Q l → Forall (fun x => R x ∧ S x) l.
Proof. intros HR HS HP. induction HP; inversion 1; subst; constructor; auto. Qed.

Lemma unserialize_strands lim t : valid t = true → ∀ v, typed t v → counted lim t v → strands (unserialize lim t) (encoding t) v.
Proof.
  assert (HR := unserialize_reads lim).
  induction t as [n|n|n| |t IH|t IH|a IHa b IHb|a IHa b IHb|a IHa b IHb|]; intros Hv v Ht Hc; pose proof Hv as Hv'; pose proof Ht as Ht'; pose proof Hc as Hc';
    cbn [valid typed counted den] in Hv, v, Ht, Hc; rewrite ?andb_true_iff in Hv.
  1-3: intros input pos Ha H0 Hp; cbn [unserialize encoding] in *; by rewrite (copy_cut input pos (le_bytes n v)) by (done || by rewrite length_le_bytes).
  - intros input pos Ha H0 Hp. cbn [unserialize encoding] in *. rewrite length_app in *. pose proof (header_length (len v)) as Hh. unfold few in Hc.
    destruct (cut_app _ _ _ _ Ha) as [H1|[H1 H2]]; [by rewrite (unserialize_n_cut _ _ (len v))|]. rewrite Hh in H2.
    rewrite (unserialize_n_at _ _ (len v)) by (done || lia). cbn. rewrite !u32_small by lia. by rewrite (copy_cut _ _ v).
  - intros input pos Ha H0 Hp. destruct Hc as [[Hf Hm] Hc]. apply (strand_list (container_reserve (lim t)) (unserialize lim t) _ (encoding t) v); try done; [|by apply container_reserve_ok].
    eapply Forall_both; [| |exact Ht|exact Hc]; auto.
  - intros input pos Ha H0 Hp. destruct Hc as [Hf Hc], Ht as [Ht _], Hv. apply (strand_list no_room (unserialize lim t) _ (encoding t) v); try done.
    eapply Forall_both; [| |exact Ht|exact Hc]; auto.
  - intros input pos Ha H0 Hp. destruct Hc as [Hf Hc], Ht as [Ht _], Hv as [[_ Hva] Hvb].
    apply (strand_list no_room (fun input => unserialize_pair (unserialize lim a input) (unserialize lim b input)) _ (fun x => encoding a x.1 ++ encoding b x.2) v); try done.
    eapply Forall_both; [| |exact Ht|exact Hc]; intros x [] []; [apply read_pair|apply strand_pair]; auto.
  - destruct Hc, Ht, Hv. apply strand_pair; auto.
  - destruct Hc, Ht, Hv. apply strand_pair; auto.
  - intros input pos (? & b1 & b2 & E & Hne & _). by destruct b1, b2.
Qed.
End SerializerProof.
