(* ===== verification/SerializerSpec.v ===== *)
(** Serialized values through an interface of what is written to: a string, or a chain of
    buffers that is coalesced and read back. *)
From Stdlib Require Import Sorting.Sorted.
From S2P Require Import Prelude IOBuf IOBufInv IOBufChain IOBufMem IOBufLife IOBufOps IOBufSpec.
From S2P Require Import Cursor Appender AppenderProof AppenderSpec Serializer SerializerProof.
Import IOBuf.

Module SerializerSpec.
Import Appender AppenderProof AppenderSpec Serializer SerializerProof.
#[local] Abbreviation len l := (Z.of_nat (List.length l)).

(** ** What an output promises: append adds the bytes after those it holds *)
Class OutLaw (O : Type) `{Out O} (holds : O → heap → list Z → Prop) : Prop :=
  append_law : ∀ o h c bs, holds o h c → len bs < 2 ^ 64 → wp (Serializer.append bs o) (fun o' h' => holds o' h' (c ++ bs)) h.

Section law.
Context {O : Type} `{Hlaw : OutLaw O holds}.

Definition writes {A} (ser : A → O → M O) (enc : A → list Z) (x : A) : Prop :=
  ∀ o h c, holds o h c → len (enc x) < 2 ^ 64 → wp (ser x o) (fun o' h' => holds o' h' (c ++ enc x)) h.

Lemma write_n n o h c : holds o h c → wp (serialize_n n o) (fun o' h' => holds o' h' (c ++ header n)) h.
Proof. intros Ho. apply (append_law o h c); [done|]. change (len (header n) < 2 ^ 64). rewrite header_length. lia. Qed.

Lemma write_elems {A} (ser : A → O → M O) enc l : (∀ x, writes ser enc x) → ∀ o h c, holds o h c → len (flat_map enc l) < 2 ^ 64 →
  wp (serialize_all ser l o) (fun o' h' => holds o' h' (c ++ flat_map enc l)) h.
Proof.
  intros Hs. induction l as [|x l IH]; intros o h c Ho Hl; cbn in *; [apply wp_ret; by rewrite app_nil_r|].
  rewrite length_app in Hl. eapply wp_bind, wp_mono; [apply (Hs x); [done|lia]|]. intros o1 h1 Ho1. rewrite app_assoc. apply IH; [done|lia].
Qed.
Lemma write_list {A} (ser : A → O → M O) enc l o h c : (∀ x, writes ser enc x) → holds o h c → len (header (len l) ++ flat_map enc l) < 2 ^ 64 →
  wp (o ← serialize_n (len l) o; serialize_all ser l o) (fun o' h' => holds o' h' (c ++ header (len l) ++ flat_map enc l)) h.
Proof.
  intros Hs Ho Hl. rewrite length_app in Hl. eapply wp_bind, wp_mono; [apply (write_n (len l)); done|]. intros o1 h1 Ho1.
  rewrite app_assoc. apply write_elems; [done|done|lia].
Qed.
Lemma write_pair {A B} (ser1 : A → O → M O) (ser2 : B → O → M O) enc1 enc2 x : (∀ y, writes ser1 enc1 y) → (∀ y, writes ser2 enc2 y) →
  writes (serialize_pair ser1 ser2) (fun x => enc1 x.1 ++ enc2 x.2) x.
Proof.
  intros H1 H2 o h c Ho Hl. rewrite length_app in Hl. eapply wp_bind, wp_mono; [apply H1; [done|lia]|]. intros o1 h1 Ho1.
  rewrite app_assoc. apply H2; [done|lia].
Qed.

Lemma serialize_writes t : ∀ v, writes (serialize t) (encoding t) v.
Proof.
  induction t as [n|n|n| |t IH|t IH|a IHa b IHb|a IHa b IHb|a IHa b IHb|]; intros v o h c Ho Hl.
  1-3: by apply append_law.
  - cbn [encoding] in *. rewrite length_app in Hl. eapply wp_bind, wp_mono; [apply (write_n (len v)); done|]. intros o1 h1 Ho1.
    rewrite app_assoc. apply append_law; [done|lia].
  - by apply (write_list _ (encoding t) v).
  - by apply (write_list _ (encoding t) v).
  - apply (write_list _ (fun x => encoding a x.1 ++ encoding b x.2) v); [|done|done]. intros x. by apply write_pair.
  - by apply write_pair.
  - by apply write_pair.
  - apply wp_ret. cbn. by rewrite app_nil_r.
Qed.

(** A value written to any output that keeps the law is read back where it was written. *)
Lemma serialize_reads lim t v o h c : valid t = true → typed t v → counted lim t v → len c + len (encoding t v) < 2 ^ 32 → holds o h c →
  wp (serialize t v o) (fun o' h' => ∃ bs, holds o' h' (c ++ bs) ∧ len bs = len (encoding t v) ∧ ∀ post, unserialize lim t ((c ++ bs) ++ post) (len c) = Ret (len bs, v)) h.
Proof.
  intros Hv Ht Hc Hl Ho. eapply wp_mono; [apply serialize_writes; [done|lia]|]. intros o' h' Ho'. exists (encoding t v). split; [done|]. split; [done|].
  intros post. apply unserialize_reads; try done. exists c, post. by rewrite <- app_assoc.
Qed.
End law.

(** ** std::string keeps the law *)
Definition string_holds (h0 : heap) (o : list Z) (h : heap) (c : list Z) : Prop := o = c ∧ h = h0.
#[global] Instance string_law h0 : OutLaw (list Z) (string_holds h0).
Proof. intros o h c bs [-> ->] _. by apply wp_ret. Qed.

Lemma serialize_string t v h : len (encoding t v) < 2 ^ 64 → serialize t v [] h = Ret (encoding t v, h).
Proof.
  intros Hl. pose proof (serialize_writes (holds := string_holds h) t v [] h [] (conj eq_refl eq_refl) Hl) as Hw.
  unfold wp in Hw. destruct (serialize t v [] h) as [[o' h']|]; [|done]. by destruct Hw as [-> ->].
Qed.

(** ** IOBufOuter keeps it, if the chain may grow *)
Section outer.
Context (uninit : Z → Z → Z) (mem_limit : Z) (U : gset Z) (h0 : heap) (p : Z) (L : list Z) (a0 : appender).
Context (Hg : 0 < growth_ a0) (Haff : affordable mem_limit (growth_ a0)) (R : Z) (HR : growth_ a0 + 7 ≤ R).
Definition outer_holds (a : appender) (h : heap) (c : list Z) : Prop :=
  ∃ bs N, c = contents h0 (p :: L) ++ bs ∧ appended U h0 p L a0 bs h N a ∧ roomy h (lst p (L ++ N)) R.

Lemma outer_law : OutLaw (H := IOBufOuter uninit mem_limit) appender outer_holds.
Proof.
  intros a h c bs (bs0 & N & -> & Ha & (b' & Hb' & Hr)) Hl. pose proof (ap_growth _ _ _ _ _ _ _ _ _ Ha) as Eg. pose proof (ap_writing _ _ _ _ _ _ _ _ _ Ha) as Hw.
  destruct (chain_last _ _ _ (wr_chain _ _ _ _ _ Hw)) as (_ & b & _ & _ & Hb).
  apply wp_bind, (wp_pushAtMost uninit mem_limit U h p (L ++ N) a Hw ltac:(lia) ltac:(by rewrite Eg) b bs _ Hb Hl).
  assert (b = b') as <- by congruence. intros h' N' a' Ha' [_ (c & Hc & Hcr)]. apply wp_ret. assert (pushed a b bs = bs) as Ep by (unfold pushed; by rewrite (proj2 (Z.eqb_neq _ _)) by lia).
  rewrite Ep in Ha'. exists (bs0 ++ bs), (N ++ N'). split; [by rewrite app_assoc|]. split; [by eapply appended_trans|].
  exists c. rewrite app_assoc. split; [done|]. lia.
Qed.
End outer.

Section claims.
Context (uninit : Z → Z → Z) (mem_limit : Z).

(** The chain can be coalesced when [n] more bytes are in it: the new buffer has the headroom of the
    first element, all bytes, and the tailroom of the last one, which may be one that was added. *)
Definition coalescible (h : heap) (p : Z) (L : list Z) (growth n : Z) : Prop :=
  ∃ b c, bufs h !! p = Some b ∧ bufs h !! lst p L = Some c ∧
    let size := len (contents h (p :: L)) + n + headroom b + Z.max (tailroom c) (growth + 7) in
    size < 2 ^ 61 - 31 ∧ size + 31 ≤ mem_limit.

Lemma coalescible_fits U h p L a bs h' N a' growth c : chain h p L → appended U h p L a bs h' N a' → bufs h !! lst p L = Some c →
  roomy h' (lst p (L ++ N)) (Z.max (tailroom c) (growth + 7)) → coalescible h p L growth (len bs) → fits mem_limit h' p (L ++ N).
Proof.
  intros Hch Ha Hc (c' & Hc' & Hr) (b & c0 & Hb & Hc0 & Hs1 & Hs2). assert (c0 = c) as -> by congruence.
  destruct (ap_fields _ _ _ _ _ _ _ _ _ Ha p b Hb) as (b' & Hb' & E1 & E2 & E3).
  assert (headroom b' = headroom b) as Eh by (unfold headroom; by rewrite E1, E2).
  exists b', c'. rewrite (ap_contents _ _ _ _ _ _ _ _ _ Ha), length_app, Eh. split_and!; [done|done|lia|lia].
Qed.

(** C27. A value goes through a chain of buffers: a value of a serializable type (numbers, strings, and vectors, sets, maps,
    pairs and structs of them, however nested), serialized through an IOBufOuter at the end of a chain, is
    there after what the chain held; coalescing the chain then succeeds, and reading at the old length
    gives the value back and the number of its bytes. The growth of the IOBufOuter must be positive, every element of the
    chain past the first must be an object of the heap, the last must not share its memory,
    the message with what the chain held must be shorter than 2^32 bytes, there must be memory for an
    element of that growth and for the coalesced chain, and a vector must be able to reserve its elements. *)
Theorem buffers_roundtrip U lim p L growth t v h :
  ok U h → chain h p L → (∀ x, x ∈ L → heapobj h x) → unique h (lst p L) → 0 < growth → affordable mem_limit growth →
  valid t = true → typed t v → counted lim t v → len (contents h (p :: L)) + len (encoding t v) < 2 ^ 32 →
  coalescible h p L growth (len (encoding t v)) →
  wp (a ← new_appender p growth; _ ← serialize (Out0 := IOBufOuter uninit mem_limit) t v a; coalesce uninit mem_limit p) (fun _ h' =>
    ok U h' ∧ chain h' p [] ∧ ∃ bs, bytes_at h' p = contents h (p :: L) ++ bs ∧
      unserialize lim t (bytes_at h' p) (len (contents h (p :: L))) = Ret (len bs, v)) h.
Proof.
  intros Hok Hch Hobj Hun Hg Haff Hv Ht Hc Hl Hco. apply wp_bind, (wp_new_appender U h p L growth); [done..|]. intros a Hw <-.
  destruct (chain_last _ _ _ Hch) as (_ & c & _ & _ & Hlast). eapply wp_bind, wp_mono.
  - apply (serialize_reads (Hlaw := outer_law uninit mem_limit U h p L a Hg Haff (Z.max (tailroom c) (growth_ a + 7)) ltac:(lia)) lim t v a h (contents h (p :: L))); try done.
    exists [], []. rewrite app_nil_r. split; [done|]. split; [by apply appended_refl|]. rewrite app_nil_r. exists c. split; [done|lia].
  - intros a' h' (bs & (bs' & N & E & Ha & Hr) & Hb & Hu). apply app_inv_head in E as <-. destruct (ap_writing _ _ _ _ _ _ _ _ _ Ha) as [Hok' Hch' _ _ _].
    apply (wp_coalesce uninit mem_limit U p (L ++ N)); [done|done| |by eapply coalescible_fits; rewrite ?Hb|].
    + intros x [Hx|Hx]%elem_of_app; [apply (ap_heap _ _ _ _ _ _ _ _ _ Ha), (Hobj x Hx)|by apply (ap_new _ _ _ _ _ _ _ _ _ Ha)].
    + intros h2 b2 Hok2 Hch2 _ Hby _ _ _. split; [done|]. split; [done|]. exists bs. rewrite Hby, (ap_contents _ _ _ _ _ _ _ _ _ Ha).
      split; [done|]. specialize (Hu []). by rewrite app_nil_r in Hu.
Qed.
End claims.

(** Whatever the bytes, what unserialize returns is a value of the type it was asked for: numbers within
    their width, strings of bytes, the elements of a set and the keys of a map in strictly
    increasing order, hence without duplicates, and so on in depth. *)
Theorem unserialize_typed lim t input pos k v :
  valid t = true → Forall byte input → unserialize lim t input pos = Ret (k, v) → typed t v.
Proof. intros. by eapply typed_reads. Qed.

(** The reader does not look at the size of its input: every message that is cut short, by one byte or by more, makes
    unserialize read past the end of the range it was given. *)
Theorem unserialize_truncated lim t v h :
  valid t = true → typed t v → counted lim t v → len (encoding t v) < 2 ^ 32 →
  ∃ bs, serialize t v [] h = Ret (bs, h) ∧ unserialize lim t bs 0 = Ret (len bs, v) ∧
    ∀ k, (k < length bs)%nat → unserialize lim t (take k bs) 0 = Err Undefined.
Proof.
  intros Hv Ht Hc Hl. exists (encoding t v). split; [apply serialize_string; lia|]. split.
  - apply unserialize_reads; [done..| |lia]. exists [], []. by rewrite app_nil_r.
  - intros k Hk. apply (unserialize_strands lim t Hv v Ht Hc); [|lia|lia]. exists [], (take k (encoding t v)), (drop k (encoding t v)).
    split_and!; try done; [by rewrite take_drop|]. intros E%(f_equal length). rewrite length_drop in E. cbn in E. lia.
Qed.

(** With a growth of 0 the bytes that find no room are dropped and nothing says so: append ignores
    what pushAtMost returns. *)
Lemma outer_drops uninit mem_limit U p L b bs h :
  ok U h → chain h p L → unique h (lst p L) → bufs h !! lst p L = Some b → len bs < 2 ^ 64 →
  wp (a ← new_appender p 0; outer_append uninit mem_limit bs a) (fun _ h' =>
    contents h' (p :: L) = contents h (p :: L) ++ take (Z.to_nat (tailroom b)) bs) h.
Proof.
  intros Hok Hch Hun Hb Hl. apply wp_bind, (wp_new_appender U h p L 0); [done..|]. intros a Hw Eg.
  apply wp_bind, (wp_pushAtMost uninit mem_limit U h p L a Hw ltac:(lia) ltac:(by rewrite Eg) b bs _ Hb Hl). intros h' N a' Ha [HN _]. apply wp_ret.
  rewrite (HN Eg) in Ha. pose proof (ap_contents _ _ _ _ _ _ _ _ _ Ha) as Ec. rewrite app_nil_r in Ec. unfold pushed in Ec. by rewrite Eg in Ec.
Qed.

(** ** Witnesses *)
Module Demo.
Import IOBufSpec.Demo AppenderSpec.Demo.

(** A vector may have up to 2^60 elements; there is memory for 100. *)
Definition lims (t : ty) : limits := mk_limits (2 ^ 60) 100.
Lemma demo_ok : valid demo_ty = true ∧ typed demo_ty demo_value ∧ counted lims demo_ty demo_value ∧ len (encoding demo_ty demo_value) = 33.
Proof.
  split; [done|]. split; [|split; [|done]].
  - cbn. unfold byte, below, fst_less. split_and!; try done; repeat (constructor; try done); cbn; lia.
  - cbn. unfold few, reservable. cbn. repeat first [lia | done | split | apply Forall_cons | apply Forall_nil; done].
Qed.

Lemma buffers_roundtrip_witness :
  wp (a ← new_appender p1 3; _ ← serialize (Out0 := IOBufOuter un lim) demo_ty demo_value a; coalesce un lim p1) (fun _ h' =>
    ∃ k, unserialize lims demo_ty (bytes_at h' p1) 5 = Ret (k, demo_value)) h3.
Proof.
  destruct ok3 as (Hok & Hch & Hobj), demo_ok as (Hv & Ht & Hc & Hl). eapply wp_mono.
  - apply (buffers_roundtrip un lim ∅ lims p1 [p2] 3 demo_ty demo_value h3 Hok Hch); [|exact own2|done|unfold affordable, lim; lia|done|done|done|..]; rewrite ?Hl.
    + intros x Hx. apply Hobj. set_solver.
    + by vm_compute.
    + eexists _, _. split; [by vm_compute|]. split; [by vm_compute|].
      vm_compute (len (contents h3 [p1; p2]) + 33 + headroom _ + Z.max (tailroom _) (3 + 7)). unfold lim. cbn zeta. lia.
  - intros _ h' (_ & _ & bs & _ & E). exists (len bs).
    by replace (len (contents h3 [p1; p2])) with 5 in E by (by vm_compute).
Defined.

(** A set and a map whose elements come in no order and twice. *)
Definition odd_bytes : list Z := [4; 0; 0; 0; 200; 3; 200; 7].
Lemma unserialize_typed_witness : typed (TSet (TUInt 1)) [3; 7; 200] ∧ unserialize lims (TSet (TUInt 1)) odd_bytes 0 = Ret (8, [3; 7; 200]).
Proof.
  assert (unserialize lims (TSet (TUInt 1)) odd_bytes 0 = Ret (8, [3; 7; 200])) as E by (by vm_compute). split; [|done].
  apply (unserialize_typed lims (TSet (TUInt 1)) odd_bytes 0 8); [done| |done].
  apply (Forall_impl (fun x => (0 <=? x) && (x <? 256) = true)); [|intros x [? ?]%andb_true_iff; split; lia]. by repeat constructor.
Defined.

Lemma unserialize_truncated_witness : ∃ bs, serialize demo_ty demo_value [] h3 = Ret (bs, h3) ∧ unserialize lims demo_ty (take 32 bs) 0 = Err Undefined.
Proof.
  destruct demo_ok as (Hv & Ht & Hc & Hl).
  destruct (unserialize_truncated lims demo_ty demo_value h3 Hv Ht Hc ltac:(rewrite Hl; lia)) as (bs & Hs & Hu & Hk).
  exists bs. split; [done|]. apply Hk. rewrite serialize_string in Hs by (rewrite Hl; lia).
  apply (f_equal (fun o => match o with Ret (b, _) => length b | Err _ => 0%nat end)) in Hs. cbn [fst] in Hs. rewrite <- Hs. by apply Nat.ltb_lt.
Defined.
End Demo.
End SerializerSpec.
