(* ===== verification/Protocol.v ===== *)
(** raster/net/Protocol.cpp and Protocol.h, raster/protocol/binary/Encoding.h and Protocol.h,
    Socket::recv and Socket::send, and the part of raster/io/TypedIOBuf.h they use: moving
    the bytes of a connection between its buffers and its socket, and the frames of the
    binary protocol.

    The kernel is the interface [Net]. A computation works on the heap of the buffers, on
    the event of the connection and on the network. *)
From S2P Require Import Prelude TimedHeap Event IOBuf Range Cursor Appender.
Import IOBuf.

(** What recv(2) and send(2) may fail with, as far as the code looks at it. *)
Inductive errno := EINTR | EWOULDBLOCK | ECONNRESET | EOTHER.

(** recv(2), send(2) and the clock. [signals] bounds how often the next call is
    interrupted; the loops on EINTR run that often at most. A call moves less than 2^31 bytes
    (Linux: at most 0x7ffff000), so that the int in which the code keeps the result holds it. *)
Class Net (N : Type) := {
  sys_recv : N → Z → N * (errno + list Z);
  sys_send : N → list Z → N * (errno + Z);
  clock : N → Z;
  signals : N → nat
}.

Module Protocol.
#[local] Abbreviation len l := (Z.of_nat (List.length l)).

Definition CHUNK_SIZE : Z := 4096.

Record world (N : Type) := mk_world { wheap : heap; wevent : event; wnet : N }.
Arguments mk_world {N} _ _ _.
Arguments wheap {N} _.
Arguments wevent {N} _.
Arguments wnet {N} _.

Section protocol.
Context {N : Type} `{Net N}.
Abbreviation P := (St (world N)).

(** A computation on the heap. *)
Definition buf {A} (m : M A) : P A := fun w =>
  match m (wheap w) with Ret (a, h) => Ret (a, mk_world h (wevent w) (wnet w)) | Err e => Err e end.
Definition event_get : P event := gets wevent.
Definition event_set (f : event → event) : P unit := modify (fun w => mk_world (wheap w) (f (wevent w)) (wnet w)).
Definition set_net (n : N) : P unit := modify (fun w => mk_world (wheap w) (wevent w) n).

Definition with_rlen (n : Z) (e : event) : event := with_buffers (rbuf_ e) (wbuf_ e) n (wlen_ e) e.
Definition with_wlen (n : Z) (e : event) : event := with_buffers (rbuf_ e) (wbuf_ e) (rlen_ e) n e.

(** ** Socket *)

(** while (true) { r = ::recv(...); if (r == -1 && errno == EINTR) continue; return r; } *)
Fixpoint recv_loop (fuel : nat) (n : Z) : P (errno + list Z) :=
  match fuel with
  | O => throw OutOfFuel
  | S fuel =>
      s ← gets wnet;
      let '(s, r) := sys_recv s n in
      _ ← set_net s;
      match r with inl EINTR => recv_loop fuel n | _ => mret r end
  end.
(** The bytes are stored where the caller says. *)
Definition recv (p : ptr) (n : Z) : P (errno + Z) :=
  s ← gets wnet;
  r ← recv_loop (S (signals s)) n;
  match r with
  | inl e => mret (inl e)
  | inr bs => _ ← buf (store p bs); mret (inr (len bs))
  end.
Fixpoint send_loop (fuel : nat) (bs : list Z) : P (errno + Z) :=
  match fuel with
  | O => throw OutOfFuel
  | S fuel =>
      s ← gets wnet;
      let '(s, r) := sys_send s bs in
      _ ← set_net s;
      match r with inl EINTR => send_loop fuel bs | _ => mret r end
  end.
Definition send (p : ptr) (n : Z) : P (errno + Z) :=
  bs ← buf (load p n);
  s ← gets wnet;
  send_loop (S (signals s)) bs.

(** ** Protocol *)

Section alloc.
Context (uninit : Z → Z → Z) (mem_limit : Z).

(** if (r < 0): the return value for an error of recv. *)
Definition recv_error (e : errno) : P Z :=
  match e with
  | EWOULDBLOCK =>
      ev ← event_get;
      now ← gets (fun w => clock (wnet w));
      if isReadTimeout now ev then _ ← event_set (setType now TIMEOUT); mret (-1) else mret 1
  | ECONNRESET => mret 2
  | _ => mret (-1)
  end.

(** while (event->rlen() > 0): every round that goes on reads at least one byte. *)
Fixpoint readData_loop (fuel : nat) (a : Appender.appender) : P Z :=
  match fuel with
  | O => throw OutOfFuel
  | S fuel =>
      e ← event_get;
      if 0 <? rlen_ e then
        p ← buf (Appender.writableData a);
        r ← recv p (rlen_ e);
        match r with
        | inl err => recv_error err
        | inr r =>
            if r =? 0 then mret 2 else
            _ ← buf (Appender.append a r);
            _ ← event_set (fun e => with_rlen (u64 (rlen_ e - r)) e);
            readData_loop fuel a
        end
      else mret 0
  end.
Definition readData (rbuf : Z) : P Z :=
  a ← buf (Appender.new_appender rbuf CHUNK_SIZE);
  e ← event_get;
  a ← buf (Appender.ensure uninit mem_limit (rlen_ e) a);
  readData_loop (S (Z.to_nat (rlen_ e))) a.

(** while (true), until the bytes are in what was read; [fuel] bounds the number of calls
    of recv. *)
Fixpoint readDataUntil_loop (fuel : nat) (rbuf : Z) (bytes : list Z) (a : Appender.appender) : P Z :=
  match fuel with
  | O => throw OutOfFuel
  | S fuel =>
      n ← buf (Appender.room a);
      a ← (if n =? 0 then buf (Appender.ensure uninit mem_limit CHUNK_SIZE a) else mret a);
      p ← buf (Appender.writableData a);
      n ← buf (Appender.room a);
      r ← recv p n;
      match r with
      | inl err => recv_error err
      | inr r =>
          if r =? 0 then mret 2 else
          _ ← buf (Appender.append a r);
          '(d, n) ← buf (coalesce uninit mem_limit rbuf);
          bs ← buf (load d n);
          o ← lift (Range.qfind Range.asciiCaseSensitive bs bytes);
          match o with Some _ => mret 0 | None => readDataUntil_loop fuel rbuf bytes a end
      end
  end.
Definition readDataUntil (fuel : nat) (rbuf : Z) (bytes : list Z) : P Z :=
  a ← buf (Appender.new_appender rbuf CHUNK_SIZE);
  readDataUntil_loop fuel rbuf bytes a.

(** while (!cursor.isAtEnd()): every round that goes on sends at least one byte. *)
Fixpoint writeData_loop (fuel : nat) (c : Cursor.cursor) : P Z :=
  match fuel with
  | O => throw OutOfFuel
  | S fuel =>
      atEnd ← buf (Cursor.isAtEnd c);
      if negb atEnd then
        '(p, n, c) ← buf (Cursor.peek c);
        r ← send p n;
        match r with
        | inl EWOULDBLOCK =>
            ev ← event_get;
            now ← gets (fun w => clock (wnet w));
            if isWriteTimeout now ev then _ ← event_set (setType now TIMEOUT); mret (-1) else mret 1
        | inl _ => mret (-1)
        | inr r =>
            '(_, c) ← buf (Cursor.skip r c);
            _ ← event_set (fun e => with_wlen (u64 (wlen_ e + r)) e);
            writeData_loop fuel c
        end
      else mret 0
  end.
(** The bytes left bound the number of rounds. *)
Definition writeData (wbuf : Z) : P Z :=
  e ← event_get;
  '(_, c) ← buf (Cursor.skip (wlen_ e) (Cursor.new_cursor wbuf));
  n ← buf (Cursor.totalLength c);
  writeData_loop (S (Z.to_nat n)) c.

(** HBinaryProtocol<H>: a header of [headerSize] bytes, from which the subclass finds the
    length of the body; a length over BODYLEN_LIMIT is only logged. *)
Definition HBinary_readData (headerSize : Z) (bodyLength : list Z → Z) (rbuf : Z) : P Z :=
  e ← buf (empty rbuf);
  _ ← (if e : bool then event_set (with_rlen headerSize) else mret tt);
  r ← readData rbuf;
  n ← buf (computeChainDataLength rbuf);
  if (n =? headerSize) && (r =? 0) then
    b ← buf (deref rbuf);
    header ← buf (load (data_ b) headerSize);
    _ ← event_set (with_rlen (bodyLength header));
    readData rbuf
  else mret r.

(** ZlibBinaryProtocol *)
Definition Zlib_readData (fuel : nat) (rbuf : Z) : P Z := readDataUntil fuel rbuf [0; 0; 255; 255].

(** BinaryProtocol: the header is the length in network order. *)
Definition ntohl (bs : list Z) : Z := Cursor.le_value (rev bs).
Definition htonl (n : Z) : list Z := rev (Appender.le_bytes 4 n).
Definition Binary_readData (rbuf : Z) : P Z := HBinary_readData 4 ntohl rbuf.

End alloc.
End protocol.

(** ** Encoding *)

Section encoding.
Context (uninit : Z → Z → Z) (mem_limit : Z).

(** TypedIOBuf<uint32_t>(buf).push(data): [size()] elements are there, one is added. *)
Definition typed_tailroom (b : iobuf) : Z := u32 (tailroom b) / 4.
Definition typed_headroom (b : iobuf) : Z := u32 (headroom b) / 4.
Definition typed_length (b : iobuf) : Z := u32 (length_ b) / 4.
Definition smul (n : Z) : M Z := _ ← assert_ (n * 4 <? 2 ^ 32); mret (u32 (n * 4)).
Definition typed_push (p : Z) (data : list Z) : M unit :=
  b ← deref p;
  _ ← (if typed_tailroom b <? 1 then
         h ← smul (typed_headroom b);
         t ← smul (Z.max 1 (u32 (3 + typed_length b / 2)));
         reserve uninit mem_limit p h t
       else mret tt);
  b ← deref p;
  _ ← store (tail b) data;
  n ← smul 1;
  IOBuf.append p n.

Definition encodeData (p : Z) (obuf : list Z) : M bool :=
  let n := u32 (len obuf) in
  _ ← typed_push p (htonl n);
  a ← Appender.new_appender p CHUNK_SIZE;
  '(_, a) ← Appender.pushAtMost uninit mem_limit (take (Z.to_nat n) obuf) a;
  mret true.

(** The range that is returned, as its bytes. *)
Definition decodeData (p : Z) : M (list Z) :=
  '(d, n) ← coalesce uninit mem_limit p;
  b ← deref p;
  _ ← load (data_ b) 4;
  if n <? 4 then throw (Thrown "out_of_range: index out of range") else
  load (padd d 4) (n - 4).

End encoding.
End Protocol.
