(* ===== verification/ProtocolProof.v ===== *)
(** Bytes between buffers and sockets: readData and writeData over any network that
    delivers the bytes sent, in order, in pieces of any size. *)
From S2P Require Import Prelude TimedHeap Event IOBuf IOBufInv IOBufChain IOBufMem IOBufLife IOBufOps IOBufSpec.
From S2P Require Import Cursor CursorProof Appender AppenderProof AppenderSpec Protocol.
Import IOBuf.

(** A reliable stream: [pending] are the bytes that were sent and not yet received. *)
Class StreamNet (N : Type) `{Net N} := {
  pending : N → list Z;
  recv_data s n s' bs : 0 < n → sys_recv s n = (s', inr bs) → Z.of_nat (length bs) ≤ n ∧ pending s = bs ++ pending s';
  recv_fail s n s' e : sys_recv s n = (s', inl e) → pending s' = pending s ∧ (e = EINTR → (signals s' < signals s)%nat);
  send_data s bs s' k : bs ≠ [] → sys_send s bs = (s', inr k) →
    0 < k ≤ Z.of_nat (length bs) ∧ pending s' = pending s ++ take (Z.to_nat k) bs;
  send_fail s bs s' e : sys_send s bs = (s', inl e) → pending s' = pending s ∧ (e = EINTR → (signals s' < signals s)%nat)
}.

Module ProtocolProof.
Import CursorProof Appender AppenderProof AppenderSpec Protocol.
#[local] Abbreviation len l := (Z.of_nat (List.length l)).

Section net.
Context {N : Type} `{StreamNet N}.

Lemma wp_buf {A} (m : M A) (Q : A → world N → Prop) w :
  wp m (fun a h => Q a (mk_world h (wevent w) (wnet w))) (wheap w) → wp (buf m) Q w.
Proof. unfold wp, buf. by destruct (m (wheap w)) as [[a h]|]. Qed.

Lemma wp_bind_inv {W A B} (m : St W A) (f : A → St W B) (Q : B → W → Prop) w : wp (m ≫= f) Q w → wp m (fun a => wp (f a) Q) w.
Proof. unfold wp, mbind, St_bind. by destruct (m w) as [[a w']|]. Qed.

(** ** Socket *)

Lemma wp_recv_loop fuel : ∀ n (Q : errno + list Z → world N → Prop) w, 0 < n → (signals (wnet w) < fuel)%nat →
  (∀ e s', pending s' = pending (wnet w) → Q (inl e) (mk_world (wheap w) (wevent w) s')) →
  (∀ bs s', len bs ≤ n → pending (wnet w) = bs ++ pending s' → Q (inr bs) (mk_world (wheap w) (wevent w) s')) →
  wp (recv_loop fuel n) Q w.
Proof.
  induction fuel as [|fuel IH]; intros n Q w Hn Hf He Hd; [lia|]. cbn [recv_loop]. apply wp_bind, wp_gets.
  destruct (sys_recv (wnet w) n) as [s' [e|bs]] eqn:Es; apply wp_bind, wp_modify.
  - destruct (recv_fail _ _ _ _ Es) as [Ep Hi]. destruct e; try by apply wp_ret, He.
    apply IH; cbn; [done|specialize (Hi eq_refl); lia|intros; apply He; congruence|intros; apply Hd; [done|congruence]].
  - destruct (recv_data _ _ _ _ Hn Es) as [Hl Ep]. by apply wp_ret, Hd.
Qed.

Lemma wp_send_loop fuel : ∀ bs (Q : errno + Z → world N → Prop) w, bs ≠ [] → (signals (wnet w) < fuel)%nat →
  (∀ e s', pending s' = pending (wnet w) → Q (inl e) (mk_world (wheap w) (wevent w) s')) →
  (∀ k s', 0 < k ≤ len bs → pending s' = pending (wnet w) ++ take (Z.to_nat k) bs → Q (inr k) (mk_world (wheap w) (wevent w) s')) →
  wp (send_loop fuel bs) Q w.
Proof.
  induction fuel as [|fuel IH]; intros bs Q w Hn Hf He Hd; [lia|]. cbn [send_loop]. apply wp_bind, wp_gets.
  destruct (sys_send (wnet w) bs) as [s' [e|k]] eqn:Es; apply wp_bind, wp_modify.
  - destruct (send_fail _ _ _ _ Es) as [Ep Hi]. destruct e; try by apply wp_ret, He.
    apply IH; cbn; [done|specialize (Hi eq_refl); lia|intros; apply He; congruence|intros; apply Hd; [done|congruence]].
  - destruct (send_data _ _ _ _ Hn Es) as [Hl Ep]. by apply wp_ret, Hd.
Qed.

(** ** Reading *)

(** The chain can be appended to. *)
Record ready (U : gset Z) (h : heap) (p : Z) (L : list Z) (b : iobuf) : Prop := {
  rd_ok : ok U h;
  rd_chain : chain h p L;
  rd_own : unique h (lst p L);
  rd_last : bufs h !! lst p L = Some b
}.

(** The bytes [bs] and the elements [M] were added. *)
Record grown (U : gset Z) (h : heap) (p : Z) (L : list Z) (bs : list Z) (h' : heap) (K : list Z) (b' : iobuf) : Prop := {
  gr_ready : ready U h' p (L ++ K) b';
  gr_new : ∀ x, x ∈ K → bufs h !! x = None ∧ heapobj h' x;
  gr_contents : contents h' (p :: L ++ K) = contents h (p :: L) ++ bs;
  gr_heap : ∀ x, heapobj h x → heapobj h' x;
  gr_fields : ∀ x b, bufs h !! x = Some b →
    ∃ b', bufs h' !! x = Some b' ∧ data_ b' = data_ b ∧ buf_ b' = buf_ b ∧ capacity_ b' = capacity_ b;
  gr_affects : affects (p :: L ++ K) h h'
}.

Lemma appended_grown U h p L a bs h' K a' b' : appended U h p L a bs h' K a' → bufs h' !! lst p (L ++ K) = Some b' → grown U h p L bs h' K b'.
Proof. intros [[] ? ? ? ? ? ?] Hb. by split. Qed.

Lemma ready_writing U h p L b a : ready U h p L b → abuffer_ a = p → acrtBuf_ a = lst p L → writing U h p L a.
Proof. intros [] ? ?. by split. Qed.

(** What readData may return, with [left] bytes to read when it does. *)
Definition read_result (r left : Z) : Prop := (r = 0 ∧ left = 0) ∨ ((r = -1 ∨ r = 1 ∨ r = 2) ∧ 0 < left).

Lemma wp_recv_error e (Q : Z → world N → Prop) w :
  (∀ r ev', r = -1 ∨ r = 1 ∨ r = 2 → rlen_ ev' = rlen_ (wevent w) → wlen_ ev' = wlen_ (wevent w) → Q r (mk_world (wheap w) ev' (wnet w))) →
  wp (recv_error e) Q w.
Proof.
  intros HQ. assert (w = mk_world (wheap w) (wevent w) (wnet w)) as Ew by (by destruct w).
  destruct e; cbn [recv_error]; try (apply wp_ret; rewrite Ew; apply HQ; auto).
  apply wp_bind, wp_gets, wp_bind, wp_gets. wp_step; [apply wp_bind, wp_modify, wp_ret, HQ; auto|apply wp_ret; rewrite Ew; apply HQ; auto].
Qed.

Lemma grown_refl U h p L b : ready U h p L b → grown U h p L [] h [] b.
Proof. intros Hr. split; rewrite ?app_nil_r; try done; [set_solver|eauto]. Qed.

Lemma grown_trans U h1 h2 h3 p L c1 c2 b2 b3 K1 K2 :
  grown U h1 p L c1 h2 K1 b2 → grown U h2 p (L ++ K1) c2 h3 K2 b3 → grown U h1 p L (c1 ++ c2) h3 (K1 ++ K2) b3.
Proof.
  intros [R1 N1 C1 H1 F1 A1] [R2 N2 C2 H2 F2 A2].
  set (a1 := mk_appender p (lst p L) 0). set (a2 := mk_appender p (lst p (L ++ K1)) 0). set (a3 := mk_appender p (lst p ((L ++ K1) ++ K2)) 0).
  assert (appended U h1 p L a1 c1 h2 K1 a2) as P1 by (split; try done; by eapply ready_writing).
  assert (appended U h2 p (L ++ K1) a2 c2 h3 K2 a3) as P2 by (split; try done; by eapply ready_writing).
  eapply appended_grown; [by eapply appended_trans|]. rewrite (assoc_L (++)). apply R2.
Qed.

(** recv stores [bs] at the tail, and append makes it data. *)
Lemma wp_store_append U h p L b a bs (Q : unit → heap → Prop) : ready U h p L b → abuffer_ a = p → acrtBuf_ a = lst p L → len bs ≤ tailroom b →
  (∀ h' b', grown U h p L bs h' [] b' → tailroom b' = tailroom b - len bs → Q tt h') →
  wp (store (tail b) bs) (fun _ => wp (append a (len bs)) Q) h.
Proof.
  intros Hr E1 E2 Hl HQ. pose proof (ready_writing U h p L b a Hr E1 E2) as Hw. pose proof (rd_last _ _ _ _ _ Hr) as Hb.
  assert (wp (_ ← copy_in a bs; append a (len bs)) Q h) as Hwp.
  { apply (wp_write_here U h p L a b Hw Hb); [done|done|]. intros h' b' Ha Hb' Ht. apply (HQ h' b'); [|done].
    eapply appended_grown; [done|]. by rewrite app_nil_r. }
  apply wp_bind_inv in Hwp. unfold copy_in in Hwp. apply wp_bind_inv in Hwp. unfold writableData in Hwp.
  apply wp_bind_inv in Hwp. rewrite E2 in Hwp. unfold wp at 1 in Hwp. by rewrite (gives_deref _ _ _ Hb) in Hwp.
Qed.

Lemma wp_readData_loop U fuel : ∀ p L b a (Q : Z → world N → Prop) w, ready U (wheap w) p L b → abuffer_ a = p → acrtBuf_ a = lst p L →
  0 ≤ rlen_ (wevent w) ≤ tailroom b → (Z.to_nat (rlen_ (wevent w)) < fuel)%nat →
  (∀ r bs b' w', grown U (wheap w) p L bs (wheap w') [] b' → pending (wnet w) = bs ++ pending (wnet w') →
     rlen_ (wevent w') = rlen_ (wevent w) - len bs → wlen_ (wevent w') = wlen_ (wevent w) → tailroom b' = tailroom b - len bs →
     read_result r (rlen_ (wevent w')) → Q r w') →
  wp (readData_loop fuel a) Q w.
Proof.
  induction fuel as [|fuel IH]; intros p L b a Q w Hr E1 E2 Hrl Hf HQ; [lia|]. cbn [readData_loop]. apply wp_bind, wp_gets.
  pose proof (rd_last _ _ _ _ _ Hr) as Hb. assert (w = mk_world (wheap w) (wevent w) (wnet w)) as Ew by (by destruct w).
  destruct (Z.ltb_spec 0 (rlen_ (wevent w))) as [Hpos|Hz].
  2: { apply wp_ret, (HQ 0 [] b); try done; [by apply grown_refl|cbn; lia|cbn; lia|left; lia]. }
  apply wp_bind, wp_buf, (wp_crt U (wheap w) p L a b); [by eapply ready_writing|done|]. apply wp_ret. rewrite <- Ew.
  unfold recv. apply wp_bind, wp_bind, wp_gets, wp_bind, wp_recv_loop; [done|lia|..].
  - intros e s' Ep. apply wp_ret, wp_recv_error. cbn. intros r ev' Hres Erl Ewl.
    apply (HQ r [] b); cbn; rewrite ?Erl; try done; [by apply grown_refl|lia|lia|right; lia].
  - intros bs s' Hlen Ep. destruct (Z.eqb_spec (len bs) 0) as [E0|E0].
    + assert (bs = []) as -> by (destruct bs; [done|cbn in E0; lia]). apply wp_bind, wp_buf, wp_ret, wp_ret. cbn.
      apply wp_ret, (HQ 2 [] b); cbn; try done; [by apply grown_refl|lia|lia|right; lia].
    + apply wp_bind, wp_buf. cbn [wheap wevent wnet].
      eapply wp_mono; [apply (wp_store_append U (wheap w) p L b a bs (fun _ h' => wp (readData_loop fuel a) Q
        (mk_world h' (with_rlen (u64 (rlen_ (wevent w) - len bs)) (wevent w)) s'))); [done|done|done|lia|]|].
      * intros h' b' Hg Ht. pose proof (gr_ready _ _ _ _ _ _ _ _ Hg) as Hr'. rewrite app_nil_r in Hr'. rewrite u64_small.
        2: { pose proof (tailroom_range U (wheap w) p L a b ltac:(by eapply ready_writing) Hb). lia. }
        apply (IH p L b'); cbn; try done; [lia|lia|].
        intros r bs' b2 w' Hg' Ep' Erl Ewl Ht' Hres. apply (HQ r (bs ++ bs') b2 w'); try done.
        -- change (@nil Z) with (@nil Z ++ []). eapply grown_trans; [exact Hg|]. by rewrite app_nil_r.
        -- by rewrite Ep, Ep', (assoc_L (++)).
        -- rewrite Erl, length_app. lia.
        -- rewrite Ht', Ht, length_app. lia.
      * intros [] h1 Hap. apply wp_ret. rewrite (proj2 (Z.eqb_neq _ _) E0). apply wp_bind, wp_buf. cbn [wheap wevent wnet].
        eapply wp_mono; [exact Hap|]. intros [] h' Hgo. apply wp_bind, wp_modify. exact Hgo.
Qed.

Section alloc.
Context (uninit : Z → Z → Z) (mem_limit : Z).

Lemma wp_readData U p L b (Q : Z → world N → Prop) w : ready U (wheap w) p L b → 0 ≤ rlen_ (wevent w) →
  affordable mem_limit (Z.max (rlen_ (wevent w)) CHUNK_SIZE) →
  (∀ r bs K b' w', grown U (wheap w) p L bs (wheap w') K b' → pending (wnet w) = bs ++ pending (wnet w') →
     rlen_ (wevent w') = rlen_ (wevent w) - len bs → wlen_ (wevent w') = wlen_ (wevent w) → rlen_ (wevent w') ≤ tailroom b' →
     (K = [] ∧ tailroom b' = tailroom b - len bs) ∨ (tailroom b < rlen_ (wevent w) ∧ (∃ q, K = [q]) ∧ capacity_ b' ≤ Z.max (rlen_ (wevent w)) CHUNK_SIZE + 7) →
     read_result r (rlen_ (wevent w')) → Q r w') →
  wp (readData uninit mem_limit p) Q w.
Proof.
  intros Hr Hrl Haff HQ. unfold readData. pose proof Hr as [Hok Hch Hun Hb].
  apply wp_bind, wp_buf, (wp_new_appender U (wheap w) p L CHUNK_SIZE); [done..|]. intros a Hw Eg.
  apply wp_bind, wp_gets, wp_bind, wp_buf. cbn [wheap wevent wnet].
  apply (wp_ensure uninit mem_limit U (rlen_ (wevent w)) (wheap w) p L a); [done|by rewrite Eg|by rewrite Eg|].
  intros h1 K a1 b1 Ha Hb1 Ht1 Hcase. rewrite Eg in Hcase. pose proof (appended_grown _ _ _ _ _ _ _ _ _ _ Ha Hb1) as Hg1.
  destruct (ap_writing _ _ _ _ _ _ _ _ _ Ha) as [_ _ E1 E2 _].
  apply (wp_readData_loop U _ p (L ++ K) b1); cbn; [by apply (gr_ready _ _ _ _ _ _ _ _ Hg1)|done|done|lia|lia|].
  intros r bs b' w' Hg Ep Erl Ewl Ht Hres. apply (HQ r bs K b' w'); try done.
  - rewrite <- (app_nil_r K), <- (app_nil_l bs). by eapply grown_trans.
  - lia.
  - destruct Hcase as [[-> ->]|((b0 & Hb0 & Hlt) & Hq & Hcap)].
    + left. split; [done|]. rewrite app_nil_r in Hb1. rewrite Hb in Hb1. by injection Hb1 as <-.
    + right. rewrite Hb in Hb0. injection Hb0 as <-. split; [done|]. split; [done|].
      destruct (gr_fields _ _ _ _ _ _ _ _ Hg _ _ Hb1) as (c & Hc & _ & _ & Ec).
      pose proof (rd_last _ _ _ _ _ (gr_ready _ _ _ _ _ _ _ _ Hg)) as Hb'. rewrite app_nil_r in Hb'. cbn in Hc. congruence.
Qed.

(** ** Frames *)

Definition byte (x : Z) : Prop := 0 ≤ x < 256.

Lemma le_value_range l : Forall byte l → 0 ≤ Cursor.le_value l < 256 ^ len l.
Proof.
  induction 1 as [|x l Hx Hl IH]; [by cbn|].
  change (Cursor.le_value (x :: l)) with (x + 256 * Cursor.le_value l). cbn [List.length]. rewrite Nat2Z.inj_succ, Z.pow_succ_r by lia.
  unfold byte in Hx. lia.
Qed.

Lemma ntohl_range l : Forall byte l → len l = 4 → 0 ≤ ntohl l < 2 ^ 32.
Proof.
  intros Hb Hl. unfold ntohl. pose proof (le_value_range (rev l)) as Hr. rewrite length_rev, Hl in Hr.
  change (2 ^ 32) with (256 ^ 4). apply Hr. by apply Forall_rev.
Qed.

(** empty(): no element has bytes. *)
Lemma empty_loop_spec U h (Hok : ok U h) B : ∀ x p fuel, path h x B p → p ∉ B → (List.length B < fuel)%nat →
  gives (empty_loop fuel x p) h (Ret (bool_decide (contents h (x :: B) = []))).
Proof.
  induction B as [|y B IH]; intros x p fuel Hp Hn Hf; (destruct fuel as [|fuel]; [lia|]); cbn [empty_loop];
    destruct (path_next _ _ _ _ Hp) as (b & Hb & Hnext); (eapply gives_bind; [by apply gives_deref|]);
    destruct (bytes_at_len U h Hok x b Hb) as [El Hr];
    (destruct (Z.eqb_spec (length_ b) 0) as [E|E]; cbn [negb];
     [|rewrite bool_decide_false; [apply gives_ret|]; rewrite contents_cons; intros E'%(f_equal List.length); rewrite length_app in E'; cbn in E'; lia]);
    rewrite contents_cons, (nil_length_inv (bytes_at h x)) by lia; cbn [app]; rewrite Hnext.
  - change (default p (list.head [])) with p. rewrite Z.eqb_refl. rewrite bool_decide_true; [apply gives_ret|done].
  - change (default p (list.head (y :: B))) with y. rewrite (proj2 (Z.eqb_neq y p)) by set_solver. destruct Hp as [_ Hp].
    apply IH; [done|set_solver|cbn in *; lia].
Qed.

Lemma wp_empty U h p L (Q : bool → heap → Prop) : ok U h → chain h p L → Q (bool_decide (contents h (p :: L) = [])) h → wp (empty p) Q h.
Proof.
  intros Hok Hch HQ. destruct (gives_fuel h p L _ L (at_new h p L Hch)) as (fuel & Hfuel & Hf).
  apply (wp_gives _ _ (bool_decide (contents h (p :: L) = []))); [|done]. eapply gives_bind; [exact Hfuel|].
  destruct Hch as [Hp Hnd]. apply NoDup_cons in Hnd as [Hn _]. by apply (empty_loop_spec U h Hok).
Qed.

Definition body_length (l : list Z) : Z := ntohl (take 4 l).
(** All of a frame. *)
Definition complete (l : list Z) : Prop := 4 ≤ len l ∧ len l = 4 + body_length l.
Definition cap_bound : Z := 2 ^ 32 + 4103.

(** The connection has received [l] of a frame: the header goes to the first element, the
    body there or in one more. *)
Record receiving (U : gset Z) (h : heap) (p : Z) (l : list Z) (rlen : Z) (L : list Z) (b : iobuf) : Prop := {
  rc_ready : ready U h p L b;
  rc_heap : ∀ x, x ∈ p :: L → heapobj h x;
  rc_caps : ∀ x c, x ∈ p :: L → bufs h !! x = Some c → capacity_ c ≤ cap_bound;
  rc_contents : contents h (p :: L) = l;
  rc_phase : (len l < 4 ∧ L = [] ∧ 4 - len l ≤ tailroom b ∧ (l ≠ [] → rlen = 4 - len l)) ∨
    (4 ≤ len l ∧ rlen = 4 + body_length l - len l ∧ 0 ≤ rlen ≤ tailroom b ∧ (body_length l = 0 → L = []))
}.

(** What it has after the growth of the chain. *)
Lemma grown_keeps U h p L bs h' K b' : grown U h p L bs h' K b' → (∀ x, x ∈ p :: L → heapobj h x) →
  (∀ x c, x ∈ p :: L → bufs h !! x = Some c → capacity_ c ≤ cap_bound) → chain h p L →
  (K = [] ∨ (∃ q, K = [q]) ∧ capacity_ b' ≤ cap_bound) →
  (∀ x, x ∈ p :: L ++ K → heapobj h' x) ∧ (∀ x c, x ∈ p :: L ++ K → bufs h' !! x = Some c → capacity_ c ≤ cap_bound).
Proof.
  intros Hg Hho Hcap Hch HK. split.
  - intros x [Hx|Hx]%(elem_of_app (p :: L) K); [by apply (gr_heap _ _ _ _ _ _ _ _ Hg), Hho|by apply (gr_new _ _ _ _ _ _ _ _ Hg)].
  - intros x c [Hx|Hx]%(elem_of_app (p :: L) K) Hc.
    + destruct (chain_bufs_in _ _ _ _ Hch Hx) as [c0 Hc0]. destruct (gr_fields _ _ _ _ _ _ _ _ Hg x c0 Hc0) as (c' & Hc' & _ & _ & E).
      assert (c' = c) as -> by congruence. rewrite E. by apply (Hcap x).
    + destruct HK as [->|[[q ->] Hb']]; [set_solver|]. apply list_elem_of_singleton in Hx as ->.
      pose proof (rd_last _ _ _ _ _ (gr_ready _ _ _ _ _ _ _ _ Hg)) as Hl. rewrite lst_app in Hl. cbn in Hl. congruence.
Qed.

Lemma body_length_app l bs : 4 ≤ len l → body_length (l ++ bs) = body_length l.
Proof. intros Hl. unfold body_length. by rewrite take_app_le by lia. Qed.
Lemma body_length_range l : Forall byte l → 4 ≤ len l → 0 ≤ body_length l < 2 ^ 32.
Proof. intros Hb Hl. apply ntohl_range; [by apply Forall_take|rewrite length_take; lia]. Qed.

Context (Hmem : cap_bound + 96 ≤ mem_limit).

Lemma affordable_body n : 0 ≤ n ≤ 2 ^ 32 → affordable mem_limit (Z.max n CHUNK_SIZE).
Proof. intros Hn. unfold affordable, cap_bound, CHUNK_SIZE in *. lia. Qed.

Section receive.
Context (U : gset Z) (p : Z).

(** Reading the body, or the rest of it, once the header is there. *)
Lemma wp_read_body l L b (Q : Z → world N → Prop) w : receiving U (wheap w) p l (rlen_ (wevent w)) L b ∨
    (ready U (wheap w) p [] b ∧ heapobj (wheap w) p ∧ (∀ c, bufs (wheap w) !! p = Some c → capacity_ c ≤ cap_bound) ∧ contents (wheap w) [p] = l ∧
     L = [] ∧ rlen_ (wevent w) = 4 + body_length l - len l) →
  4 ≤ len l → Forall byte l → 0 ≤ rlen_ (wevent w) →
  (∀ r bs L' b' w', receiving U (wheap w') p (l ++ bs) (rlen_ (wevent w')) L' b' → pending (wnet w) = bs ++ pending (wnet w') →
     wlen_ (wevent w') = wlen_ (wevent w) → affects (p :: L') (wheap w) (wheap w') → read_result r (rlen_ (wevent w')) →
     rlen_ (wevent w') = rlen_ (wevent w) - len bs → Q r w') →
  wp (readData uninit mem_limit p) Q w.
Proof.
  intros Hrc Hl Hby Hrl HQ. pose proof (body_length_range l Hby Hl) as Hn.
  assert (ready U (wheap w) p L b ∧ (∀ x, x ∈ p :: L → heapobj (wheap w) x) ∧
    (∀ x c, x ∈ p :: L → bufs (wheap w) !! x = Some c → capacity_ c ≤ cap_bound) ∧ contents (wheap w) (p :: L) = l ∧
    rlen_ (wevent w) = 4 + body_length l - len l ∧ (body_length l = 0 → L = []) ∧ (L = [] ∨ rlen_ (wevent w) ≤ tailroom b)) as (Hr & Hho & Hcap & Hc & Erl & Hz & Hroom).
  { destruct Hrc as [[Hr Hho Hcap Hc Hph]|(Hr & Hho & Hcap & Hc & -> & Erl)].
    - destruct Hph as [[? _]|(_ & Erl & Hrng & Hz)]; [lia|]. split_and!; auto. right. lia.
    - split_and!; [done|by intros x ->%list_elem_of_singleton|intros x c ->%list_elem_of_singleton; apply Hcap|done|done|done|by left]. }
  clear Hrc. pose proof (tailroom_range U (wheap w) p L (mk_appender p (lst p L) 0) b ltac:(by eapply ready_writing) (rd_last _ _ _ _ _ Hr)) as Ht.
  apply (wp_readData U p L b); [done|done|apply affordable_body; lia|].
  intros r bs K b' w' Hg Ep Erl' Ewl Hroom' Hcase Hres.
  assert (K = [] ∨ (∃ q, K = [q]) ∧ capacity_ b' ≤ cap_bound) as HK.
  { destruct Hcase as [[-> _]|(_ & Hq & Hcb)]; [by left|]. right. split; [done|]. unfold cap_bound, CHUNK_SIZE in *. lia. }
  destruct (grown_keeps U _ _ _ _ _ _ _ Hg Hho Hcap (rd_chain _ _ _ _ _ Hr) HK) as [Hho' Hcap'].
  assert (0 ≤ rlen_ (wevent w')) as Hpos by (destruct Hres; lia).
  apply (HQ r bs (L ++ K) b' w'); try done; [|by apply (gr_affects _ _ _ _ _ _ _ _ Hg)].
  split; [by apply (gr_ready _ _ _ _ _ _ _ _ Hg)|done|done|by rewrite (gr_contents _ _ _ _ _ _ _ _ Hg), Hc|].
  right. rewrite body_length_app, length_app by done. split_and!; [lia|lia|lia|lia|]. intros E0. rewrite (Hz E0). cbn.
  destruct Hcase as [[-> _]|(Hlt & _)]; [done|]. lia.
Qed.

(** The header is complete: the body's length is taken from it. *)
Lemma wp_header l b (Q : Z → world N → Prop) w : ready U (wheap w) p [] b → heapobj (wheap w) p →
  (∀ c, bufs (wheap w) !! p = Some c → capacity_ c ≤ cap_bound) → contents (wheap w) [p] = l → len l = 4 → Forall byte l →
  (∀ r bs L' b' w', receiving U (wheap w') p (l ++ bs) (rlen_ (wevent w')) L' b' → pending (wnet w) = bs ++ pending (wnet w') →
     wlen_ (wevent w') = wlen_ (wevent w) → (r = 0 ↔ complete (l ++ bs)) → Q r w') →
  wp (b ← buf (deref p); header ← buf (load (data_ b) 4); _ ← event_set (with_rlen (ntohl header)); readData uninit mem_limit p) Q w.
Proof.
  intros Hr Hho Hcap Hc Hl Hby HQ. pose proof (rd_last _ _ _ _ _ Hr) as Hb. cbn in Hb. pose proof (rd_ok _ _ _ _ _ Hr) as Hok.
  assert (bytes_at (wheap w) p = l) as Ebs by (rewrite <- Hc, contents_cons; change (contents (wheap w) []) with (@nil Z); by rewrite app_nil_r).
  destruct (bytes_at_len U (wheap w) Hok p b Hb) as [Elen _]. rewrite Ebs, Hl in Elen. assert (take 4 l = l) as Et by (apply take_ge; lia).
  assert (body_length l = ntohl l) as Ebl by (unfold body_length; by rewrite Et). pose proof (body_length_range l Hby ltac:(lia)) as Hn.
  apply wp_bind, wp_buf, (wp_deref_buf p b); [done|]. apply wp_bind, wp_buf. cbn [wheap wevent wnet]. rewrite Elen at 1.
  apply wp_load; [by apply (ok_geo U (wheap w) p)|]. unfold bytes_at in Ebs. rewrite Hb in Ebs. rewrite Ebs.
  apply wp_bind, wp_modify. cbn [wheap wevent wnet].
  apply (wp_read_body l [] b); cbn; [right; split_and!; try done; lia|lia|done|lia|].
  intros r bs L' b' w' Hrc Ep Ewl _ Hres Erl. apply (HQ r bs L' b' w'); [done|done|done|].
  unfold complete. rewrite body_length_app, length_app by lia. destruct Hres; split; lia.
Qed.

Lemma wp_Binary_readData l L b (Q : Z → world N → Prop) w : receiving U (wheap w) p l (rlen_ (wevent w)) L b →
  Forall byte (l ++ pending (wnet w)) → len (l ++ pending (wnet w)) < 2 ^ 64 →
  (∀ r bs L' b' w', receiving U (wheap w') p (l ++ bs) (rlen_ (wevent w')) L' b' → pending (wnet w) = bs ++ pending (wnet w') →
     wlen_ (wevent w') = wlen_ (wevent w) → (r = 0 ↔ complete (l ++ bs)) → Q r w') →
  wp (Binary_readData uninit mem_limit p) Q w.
Proof.
  intros Hrc Hby H64 HQ. pose proof Hrc as [Hr Hho Hcap Hc Hph]. unfold Binary_readData, HBinary_readData.
  apply wp_bind, wp_buf, (wp_empty U (wheap w) p L); [apply Hr|apply Hr|]. assert (w = mk_world (wheap w) (wevent w) (wnet w)) as Ew by (by destruct w).
  rewrite <- Ew, Hc. apply Forall_app in Hby as [Hbl Hbp]. rewrite length_app in H64.
  destruct Hph as [(Hl & -> & Hroom & Hrl)|(Hl & Hrl & Hrng & Hz)].
  - assert (∀ Q' : unit → world N → Prop,
      (∀ ev1, rlen_ ev1 = 4 - len l → wlen_ ev1 = wlen_ (wevent w) → Q' tt (mk_world (wheap w) ev1 (wnet w))) →
      wp (if bool_decide (l = []) then event_set (with_rlen 4) else mret tt) Q' w) as Hset.
    { intros Q' HQ'. case_bool_decide as E; [apply wp_modify, HQ'; [by rewrite E|done]|]. apply wp_ret. rewrite Ew. apply HQ'; auto. }
    apply wp_bind, Hset. intros ev1 Erl Ewl. apply wp_bind, (wp_readData U p [] b); cbn [wheap wevent wnet]; [done|lia|apply affordable_body; lia|].
    intros r bs K b1 w1 Hg Ep Erl1 Ewl1 _ Hcase Hres. destruct Hcase as [[-> Ht1]|[? _]]; [|lia].
    assert (Forall byte (l ++ bs)) as Hb1 by (apply Forall_app; split; [done|]; rewrite Ep in Hbp; by apply Forall_app in Hbp as [? _]).
    destruct (grown_keeps U _ _ _ _ _ _ _ Hg Hho Hcap (rd_chain _ _ _ _ _ Hr) ltac:(by left)) as [Hho1 Hcap1].
    pose proof (gr_contents _ _ _ _ _ _ _ _ Hg) as Hc1. pose proof (gr_ready _ _ _ _ _ _ _ _ Hg) as Hr1. cbn in Hc1, Hr1, Hho1, Hcap1. rewrite Hc in Hc1.
    rewrite Ep, length_app in H64. apply wp_bind, wp_buf, (wp_computeChainDataLength uninit U p []);
      [apply Hr1|apply Hr1|rewrite Hc1, length_app; lia|]. rewrite Hc1. assert (w1 = mk_world (wheap w1) (wevent w1) (wnet w1)) as <- by (by destruct w1).
    destruct (Z.eqb_spec (len (l ++ bs)) 4) as [E4|E4]; [destruct (Z.eqb_spec r 0) as [Er|Er]|]; cbn [andb].
    + apply (wp_header (l ++ bs) b1); try done; [apply Hho1; set_solver|intros c; apply Hcap1; set_solver|].
      intros r' bs' L' b' w' Hrc' Ep' Ewl' Hres'. rewrite <- (assoc_L (++)) in Hrc', Hres'.
      apply (HQ r' (bs ++ bs') L' b' w'); [done|by rewrite Ep, Ep', (assoc_L (++))|congruence|done].
    + rewrite length_app in E4. destruct Hres; lia.
    + rewrite length_app in E4. apply wp_ret, (HQ r bs [] b1 w1); [|done|congruence|].
      * split; [done|done|done|done|]. left. rewrite length_app. split_and!; [destruct Hres; lia|done|lia|intros; lia].
      * unfold complete. rewrite length_app. destruct Hres; lia.
  - rewrite bool_decide_false by (intros ->; cbn in Hl; lia). apply wp_bind, wp_ret, wp_bind.
    apply (wp_read_body l L b); [by left|done|done|lia|]. intros r bs L1 b1 w1 Hrc1 Ep Ewl1 _ Hres Erl1.
    assert (Forall byte (l ++ bs)) as Hb1 by (apply Forall_app; split; [done|]; rewrite Ep in Hbp; by apply Forall_app in Hbp as [? _]).
    pose proof Hrc1 as [Hr1 Hho1 Hcap1 Hc1 Hph1]. rewrite Ep, length_app in H64.
    apply wp_bind, wp_buf, (wp_computeChainDataLength uninit U p L1); [apply Hr1|apply Hr1|rewrite Hc1, length_app; lia|]. rewrite Hc1.
    assert (w1 = mk_world (wheap w1) (wevent w1) (wnet w1)) as <- by (by destruct w1).
    rewrite length_app in Hph1. destruct Hph1 as [[? _]|(_ & Erl2 & _ & Hz1)]; [lia|]. rewrite body_length_app in Erl2, Hz1 by done.
    destruct ((len (l ++ bs) =? 4) && (r =? 0)) eqn:Econd.
    + apply andb_true_iff in Econd as [E4%Z.eqb_eq ->%Z.eqb_eq]. rewrite length_app in E4. assert (L1 = []) as -> by (apply Hz1; destruct Hres; lia).
      apply (wp_header (l ++ bs) b1); try done; [apply Hho1; set_solver|intros c; apply Hcap1; set_solver|rewrite length_app; lia|].
      intros r' bs' L' b' w' Hrc' Ep' Ewl' Hres'. rewrite <- (assoc_L (++)) in Hrc', Hres'.
      apply (HQ r' (bs ++ bs') L' b' w'); [done|by rewrite Ep, Ep', (assoc_L (++))|congruence|done].
    + apply wp_ret, (HQ r bs L1 b1 w1); [done|done|congruence|]. unfold complete. rewrite body_length_app, length_app by done. destruct Hres; split; lia.
Qed.
End receive.
End alloc.

End net.
End ProtocolProof.
