(* ===== verification/ProtocolSpec.v ===== *)
(** A frame from one process to another: what was given to encodeData is what decodeData
    gives, whatever the sizes of the pieces in which the two sockets take and deliver it
    and however the calls of writeData and readData interleave. *)
From S2P Require Import Prelude TimedHeap Event IOBuf IOBufInv IOBufChain IOBufMem IOBufLife IOBufOps IOBufClone IOBufSpec.
From S2P Require Import Range RangeProof Cursor CursorProof Appender AppenderProof AppenderSpec Protocol ProtocolProof.
Import IOBuf.

Module ProtocolSpec.
Import CursorProof Appender AppenderProof AppenderSpec Protocol ProtocolProof.
#[local] Abbreviation len l := (Z.of_nat (List.length l)).

Section net.
Context {N : Type} `{StreamNet N}.

(** ** Writing *)

(** [wlen_] bytes of [f] were written. *)
Definition write_result (r left : Z) : Prop := (r = 0 ∧ left = 0) ∨ ((r = -1 ∨ r = 1) ∧ 0 < left).

Lemma wp_writeData_loop U p L f fuel : ∀ c B (Q : Z → world N → Prop) w, ok U (wheap w) → at_ (wheap w) p L c B →
  0 ≤ wlen_ (wevent w) → rest (wheap w) c B = drop (Z.to_nat (wlen_ (wevent w))) f → wlen_ (wevent w) ≤ len f → len f < 2 ^ 64 →
  (List.length (rest (wheap w) c B) < fuel)%nat →
  (∀ r bs w', wheap w' = wheap w → wlen_ (wevent w') = wlen_ (wevent w) + len bs → rlen_ (wevent w') = rlen_ (wevent w) →
     bs = take (List.length bs) (drop (Z.to_nat (wlen_ (wevent w))) f) → pending (wnet w') = pending (wnet w) ++ bs →
     write_result r (len f - wlen_ (wevent w')) → Q r w') →
  wp (writeData_loop fuel c) Q w.
Proof.
  induction fuel as [|fuel IH]; intros c B Q w Hok Hc Hwl Hrest Hle H64 Hf HQ; [lia|]. cbn [writeData_loop].
  assert (w = mk_world (wheap w) (wevent w) (wnet w)) as Ew by (by destruct w).
  apply wp_bind, wp_buf, (wp_gives _ _ _ _ (isAtEnd_spec U (wheap w) Hok p L c B Hc)). rewrite <- Ew.
  assert (len (rest (wheap w) c B) = len f - wlen_ (wevent w)) as Hlen by (rewrite Hrest, length_drop; lia).
  case_bool_decide as Hend; cbn [negb].
  { apply wp_ret, (HQ 0 []); cbn; try done; [lia|by rewrite app_nil_r|left]. rewrite Hend in Hlen. cbn in Hlen. lia. }
  destruct (gives_fuel (wheap w) p L c B Hc) as (cf & Hcf & Hlt).
  destruct (peek_loop_spec U (wheap w) Hok B p L c cf Hc Hlt) as (ptr & c1 & B1 & Hpk & _ & Hld & Hnil & Hc1 & Hr1).
  assert (gives (Cursor.peek c) (wheap w) (Ret (ptr, len (avail (wheap w) c1), c1))) as Hpeek by (by eapply gives_bind).
  apply wp_bind, wp_buf, (wp_gives _ _ _ _ Hpeek). rewrite <- Ew. cbn beta match.
  apply wp_bind, wp_bind, wp_buf, (wp_gives _ _ _ _ Hld). rewrite <- Ew. apply wp_bind, wp_gets.
  assert (avail (wheap w) c1 ≠ []) as Hne.
  { intros E. apply Hend. rewrite <- Hr1. unfold rest. by rewrite E, Hnil. }
  apply wp_send_loop; [done|lia|..].
  - intros e s' Ep. assert (∀ r ev', r = -1 ∨ r = 1 → rlen_ ev' = rlen_ (wevent w) → wlen_ ev' = wlen_ (wevent w) → Q r (mk_world (wheap w) ev' s')) as HQ'.
    { intros r ev' Hres Erl Ewl. apply (HQ r []); cbn; rewrite ?Ewl; try done; [lia|by rewrite app_nil_r|right; split; [done|]].
      destruct (rest (wheap w) c B); [done|cbn in Hlen; lia]. }
    destruct e; cbn; try (apply wp_ret, HQ'; auto). apply wp_bind, wp_gets, wp_bind, wp_gets.
    wp_step; [apply wp_bind, wp_modify, wp_ret, HQ'; auto|apply wp_ret, HQ'; auto].
  - intros k s' Hk Ep.
    destruct (gives_length U (wheap w) Hok p L c1 B1 Hc1) as [Hl1 Hlt1].
    destruct (at_move U (wheap w) Hok p L c1 B1 k Hc1 ltac:(lia)) as [Hc2 Hr2].
    assert (gives (Cursor.skip k c1) (wheap w) (Ret (tt, Cursor.move k c1))) as Hskip.
    { eapply gives_bind; [exact Hl1|]. by rewrite (proj2 (Z.leb_le _ _)) by lia. }
    cbn beta match. apply wp_bind, wp_buf, (wp_gives _ _ _ _ Hskip). cbn beta match. apply wp_bind, wp_modify. cbn [wheap wevent wnet].
    assert (len (avail (wheap w) c1) ≤ len (rest (wheap w) c B)) as Hav by (rewrite <- Hr1; unfold rest; rewrite length_app; lia).
    rewrite u64_small by lia. rewrite Hr1, Hrest, drop_drop in Hr2.
    apply (IH (Cursor.move k c1) B1); cbn; [done|done|lia| |lia|done| |].
    + rewrite Hr2. f_equal. lia.
    + rewrite Hr2, length_drop. lia.
    + intros r bs w' Eh Ewl Erl Ebs Epd Hres.
      assert (take (Z.to_nat k) (avail (wheap w) c1) = take (Z.to_nat k) (drop (Z.to_nat (wlen_ (wevent w))) f)) as Ek.
      { rewrite <- Hrest, <- Hr1. unfold rest. by rewrite take_app_le by lia. }
      apply (HQ r (take (Z.to_nat k) (avail (wheap w) c1) ++ bs)); [done| |done| | |done].
      * rewrite Ewl, length_app, length_take. lia.
      * rewrite length_app, length_take, Nat.min_l by lia. rewrite Ek, <- take_take_drop. f_equal. rewrite drop_drop.
        rewrite Ebs at 1. do 2 f_equal. lia.
      * by rewrite Epd, Ep, (assoc_L (++)).
Qed.

Lemma wp_writeData U p L f (Q : Z → world N → Prop) w : ok U (wheap w) → chain (wheap w) p L → contents (wheap w) (p :: L) = f →
  len f < 2 ^ 64 → 0 ≤ wlen_ (wevent w) ≤ len f →
  (∀ r bs w', wheap w' = wheap w → wlen_ (wevent w') = wlen_ (wevent w) + len bs → rlen_ (wevent w') = rlen_ (wevent w) →
     bs = take (List.length bs) (drop (Z.to_nat (wlen_ (wevent w))) f) → pending (wnet w') = pending (wnet w) ++ bs →
     write_result r (len f - wlen_ (wevent w')) → Q r w') →
  wp (writeData p) Q w.
Proof.
  intros Hok Hch Hf H64 Hwl HQ. unfold writeData. apply wp_bind, wp_gets. assert (w = mk_world (wheap w) (wevent w) (wnet w)) as Ew by (by destruct w).
  pose proof (at_new (wheap w) p L Hch) as Hnew. assert (rest (wheap w) (Cursor.new_cursor p) L = f) as Er.
  { unfold rest, avail. cbn. by rewrite drop_0, <- contents_cons. }
  pose proof (skip_spec U (wheap w) Hok p L _ L Hnew (wlen_ (wevent w)) ltac:(lia)) as Hs. rewrite Er, (proj2 (Z.leb_le _ _)) in Hs by lia.
  destruct Hs as (c & B & Hskip & Hc & Hr). apply wp_bind, wp_buf, (wp_gives _ _ _ _ Hskip). rewrite <- Ew. cbn beta match.
  apply wp_bind, wp_buf, (wp_gives _ _ _ _ (totalLength_spec U (wheap w) Hok p L c B Hc ltac:(by rewrite Hf))). rewrite <- Ew.
  apply (wp_writeData_loop U p L f _ c B); try done; lia.
Qed.
End net.

(** ** Encoding and decoding *)

Section encoding.
Context (uninit : Z → Z → Z) (mem_limit : Z) (U : gset Z).

Definition frame (body : list Z) : list Z := htonl (len body) ++ body.
#[global] Arguments frame _ : simpl never.

Lemma length_htonl n : List.length (htonl n) = 4%nat.
Proof. unfold htonl. by rewrite length_rev, length_le_bytes. Qed.
Lemma ntohl_htonl n : 0 ≤ n < 2 ^ 32 → ntohl (htonl n) = n.
Proof. intros Hn. unfold ntohl, htonl. rewrite rev_involutive. by apply le_value_bytes. Qed.
Lemma byte_le_bytes n v : Forall byte (le_bytes n v).
Proof. revert v. induction n as [|n IH]; intros v; cbn; constructor; [apply Z.mod_pos_bound; lia|done]. Qed.
Lemma byte_frame body : Forall byte body → Forall byte (frame body).
Proof. intros Hb. apply Forall_app. split; [apply Forall_rev, byte_le_bytes|done]. Qed.
Lemma length_frame body : len (frame body) = 4 + len body.
Proof. unfold frame. rewrite length_app, length_htonl. lia. Qed.
Lemma body_length_frame body l r : len body < 2 ^ 32 → l ++ r = frame body → 4 ≤ len l → body_length l = len body.
Proof.
  intros Hb E Hl. unfold body_length. assert (take 4 l = htonl (len body)) as ->; [|apply ntohl_htonl; lia].
  assert (take 4 (l ++ r) = take 4 (frame body)) as E4 by (by rewrite E). rewrite take_app_le in E4 by lia. rewrite E4.
  unfold frame. by rewrite take_app_le, take_ge by (rewrite length_htonl; lia).
Qed.
(** A prefix of the frame that claims to be a frame is the frame. *)
Lemma complete_frame body l r : len body < 2 ^ 32 → l ++ r = frame body → complete l ↔ l = frame body.
Proof.
  intros Hb E. pose proof (length_frame body) as Hlf. rewrite <- E, length_app in Hlf. split.
  - intros [Hl Hc]. rewrite (body_length_frame body l r Hb E Hl) in Hc. assert (r = []) as -> by (destruct r; [done|cbn in Hlf; lia]). by rewrite app_nil_r in E.
  - intros El. rewrite El in *. split; [rewrite length_frame; lia|]. rewrite (body_length_frame body (frame body) r) by (done || rewrite length_frame; lia).
    by rewrite length_frame.
Qed.

Lemma wp_encodeData h p b body (Q : bool → heap → Prop) : ready U h p [] b → 4 ≤ tailroom b < 2 ^ 32 → len body < 2 ^ 32 →
  affordable mem_limit CHUNK_SIZE → (∀ h' K b', grown U h p [] (frame body) h' K b' → Q true h') → wp (encodeData uninit mem_limit p body) Q h.
Proof.
  intros Hr Ht Hb Haff HQ. unfold encodeData. rewrite u32_small by lia. rewrite take_ge by lia.
  pose proof (rd_last _ _ _ _ _ Hr) as Hp. cbn in Hp. apply wp_bind. unfold typed_push.
  apply wp_bind, (wp_deref_buf p b); [done|]. unfold typed_tailroom. rewrite u32_small by lia.
  rewrite (proj2 (Z.ltb_ge _ _)) by (apply Z.div_le_lower_bound; lia). apply wp_bind, wp_ret.
  apply wp_bind, (wp_deref_buf p b); [done|]. apply wp_bind.
  eapply wp_mono; [apply (wp_store_append U h p [] b (mk_appender p p CHUNK_SIZE) (htonl (len body))
    (fun _ h1 => ∀ Q', (∀ h' K b', grown U h p [] (frame body) h' K b' → Q' true h') →
       wp (a ← new_appender p CHUNK_SIZE; '(_, a) ← pushAtMost uninit mem_limit body a; mret true) Q' h1)); try done; [rewrite length_htonl; lia|]|].
  - intros h1 b1 Hg _ Q' HQ'. pose proof (gr_ready _ _ _ _ _ _ _ _ Hg) as Hr1. cbn in Hr1. pose proof Hr1 as [Hok1 Hch1 Hun1 Hb1].
    apply wp_bind, (wp_new_appender U h1 p [] CHUNK_SIZE); [done..|]. intros a Hw Eg.
    apply wp_bind, (wp_pushAtMost uninit mem_limit U h1 p [] a Hw) with (b := b1); rewrite ?Eg; [done|done|done|lia|].
    intros h2 K a2 Ha _. unfold pushed in Ha. rewrite Eg in Ha. cbn [Z.eqb CHUNK_SIZE] in Ha. cbn beta match. apply wp_ret.
    destruct (chain_last _ _ _ (wr_chain _ _ _ _ _ (ap_writing _ _ _ _ _ _ _ _ _ Ha))) as (_ & b2 & _ & _ & Hb2).
    apply (HQ' h2 K b2). rewrite <- (app_nil_l K). eapply grown_trans; [exact Hg|]. by eapply appended_grown.
  - intros [] h1 Hap. unfold smul. apply wp_bind, wp_bind, wp_assert; [done|]. apply wp_ret.
    change (u32 (1 * 4)) with 4. replace (len (htonl (len body))) with 4 in Hap by (by rewrite length_htonl).
    eapply wp_mono; [exact Hap|]. intros [] h2 Hgo. by apply Hgo.
Qed.

(** Loading a part of an object's data. *)
Lemma wp_load_part h p b o n (Q : list Z → heap → Prop) : ok U h → chain h p [] → bufs h !! p = Some b → 0 ≤ o → 0 ≤ n → o + n ≤ length_ b →
  Q (take (Z.to_nat n) (drop (Z.to_nat o) (bytes_at h p))) h → wp (load (padd (data_ b) o) n) Q h.
Proof.
  intros Hok Hch Hb Ho Hn Hle HQ. destruct (bytes_at_len U h Hok p b Hb) as [El _].
  assert (at_ h p [] (Cursor.mk_cursor p o p) []) as Hc by (split; [done|done|by exists []|cbn; lia]).
  assert (gives (Cursor.data (Cursor.mk_cursor p o p)) h (Ret (padd (data_ b) o))) as Hd by (eapply gives_bind; [by apply gives_deref|apply gives_ret]).
  refine (wp_gives _ _ _ _ (gives_load_part U h p [] _ [] _ n Hok Hc Hd _) HQ).
  split; [done|]. unfold avail. cbn. rewrite length_drop. lia.
Qed.

Context (Hmem : 2 ^ 35 ≤ mem_limit).

Lemma wp_decodeData h p l rlen L b body (Q : list Z → heap → Prop) : receiving U h p l rlen L b → l = frame body → len body < 2 ^ 32 →
  (∀ h', Q body h') → wp (decodeData uninit mem_limit p) Q h.
Proof.
  intros [[Hok Hch Hun Hlast] Hho Hcap Hc _] -> Hb HQ. destruct (chain_head _ _ _ Hch) as (b0 & Hb0 & _). unfold decodeData.
  assert (∀ x c, x ∈ p :: L → bufs h !! x = Some c → headroom c ≤ cap_bound ∧ tailroom c ≤ cap_bound) as Hrooms.
  { intros x c Hx Hxc. pose proof (Hcap x c Hx Hxc) as Hcx. pose proof (ok_geo U h x c Hok Hxc) as Hg. destruct (room_small _ _ Hg) as [-> ->].
    destruct Hg. lia. }
  assert (fits mem_limit h p L) as Hfits.
  { exists b0, b. split; [done|]. split; [done|]. rewrite Hc, length_frame. destruct (Hrooms p b0 ltac:(set_solver) Hb0) as [? _].
    destruct (Hrooms (lst p L) b (lst_in p L) Hlast) as [_ ?]. unfold cap_bound in *. lia. }
  apply wp_bind, (wp_coalesce uninit mem_limit U p L); [done|done|intros x Hx; apply Hho; set_solver|done|].
  intros h1 b1 Hok1 Hch1 _ Ebs _ _ Hb1. rewrite Hc in Ebs. destruct (bytes_at_len U h1 Hok1 p b1 Hb1) as [El _]. rewrite Ebs, length_frame in El.
  cbn beta match. apply wp_bind, (wp_deref_buf p b1); [done|].
  assert (data_ b1 = padd (data_ b1) 0) as Epad by (unfold padd; destruct (data_ b1); cbn; by rewrite Z.add_0_r).
  apply wp_bind. rewrite Epad at 1. apply (wp_load_part h1 p b1 0 4); [done|done|done|lia|lia|lia|].
  rewrite (proj2 (Z.ltb_ge _ _)) by lia. apply (wp_load_part h1 p b1 4 (length_ b1 - 4)); [done|done|done|lia|lia|lia|].
  rewrite Ebs. unfold frame. change (Z.to_nat 4) with 4%nat. rewrite drop_app_ge by (rewrite length_htonl; lia).
  rewrite length_htonl, Nat.sub_diag, drop_0, take_ge by lia. apply HQ.
Qed.
End encoding.

(** ** Two processes *)

Section transfer.
Context {N : Type} `{StreamNet N}.
Context (uninit : Z → Z → Z) (mem_limit : Z).

(** The sender's and the receiver's heap and event, and the network between them. *)
Record sys := mk_sys { s_heap : heap; s_event : event; r_heap : heap; r_event : event; network : N }.

(** The event loops call writeData of the one and readData of the other in some order. *)
Inductive call := CWrite | CRead.
Definition perform (p q : Z) (c : call) (y : sys) : outcome (Z * sys) :=
  match c with
  | CWrite => '(r, w) ← writeData p (mk_world (s_heap y) (s_event y) (network y));
      Ret (r, mk_sys (wheap w) (wevent w) (r_heap y) (r_event y) (wnet w))
  | CRead => '(r, w) ← Binary_readData uninit mem_limit q (mk_world (r_heap y) (r_event y) (network y));
      Ret (r, mk_sys (s_heap y) (s_event y) (wheap w) (wevent w) (wnet w))
  end.
Fixpoint perform_all (p q : Z) (cs : list call) (y : sys) : outcome (list (call * Z) * sys) :=
  match cs with
  | [] => Ret ([], y)
  | c :: cs => '(r, y) ← perform p q c y; '(rs, y) ← perform_all p q cs y; Ret ((c, r) :: rs, y)
  end.

Section invariant.
Context (U1 U2 : gset Z) (p q : Z) (body : list Z).
Context (Hbody : Forall byte body) (Hlen : len body < 2 ^ 32) (Hmem : 2 ^ 35 ≤ mem_limit).
#[local] Abbreviation fr := (frame body).

(** The receiver has [l]; the bytes on their way follow it in the frame. *)
Record flowing (y : sys) (l : list Z) : Prop := {
  fl_send : ok U1 (s_heap y) ∧ ∃ L, chain (s_heap y) p L ∧ contents (s_heap y) (p :: L) = fr;
  fl_wlen : 0 ≤ wlen_ (s_event y) ≤ len fr;
  fl_recv : ∃ L b, receiving U2 (r_heap y) q l (rlen_ (r_event y)) L b;
  fl_bytes : l ++ pending (network y) = take (Z.to_nat (wlen_ (s_event y))) fr
}.

Lemma flowing_prefix y l : flowing y l → ∃ r, l ++ r = fr.
Proof. intros [_ _ _ E]. exists (pending (network y) ++ drop (Z.to_nat (wlen_ (s_event y))) fr). by rewrite (assoc_L (++)), E, take_drop. Qed.

(** What a call does: neither side goes back, and a side says 0 exactly when it is done. *)
Definition progress (c : call) (y : sys) (l : list Z) (r : Z) (y' : sys) (l' : list Z) : Prop :=
  flowing y' l' ∧ (∃ bs, l' = l ++ bs) ∧ wlen_ (s_event y) ≤ wlen_ (s_event y') ∧
  match c with
  | CWrite => (r = 0 ↔ wlen_ (s_event y') = len fr) ∧ l' = l
  | CRead => (r = 0 ↔ l' = fr) ∧ wlen_ (s_event y') = wlen_ (s_event y)
  end.

Lemma perform_write y l : flowing y l → ∃ r y' l', perform p q CWrite y = Ret (r, y') ∧ progress CWrite y l r y' l'.
Proof.
  intros Hfl. pose proof Hfl as [(Hok1 & L & Hch & Hc) Hwl Hrc Hb]. pose proof (length_frame body) as Hlf.
  destruct (wp_elim (writeData p) (fun r w' => ∃ l', progress CWrite y l r (mk_sys (wheap w') (wevent w') (r_heap y) (r_event y) (wnet w')) l')
    (mk_world (s_heap y) (s_event y) (network y))) as (r & w' & Hrun & l' & Hpr).
  - apply (wp_writeData U1 p L fr); cbn [wheap wevent wnet]; [done|done|done|lia|lia|].
    intros r bs w' Eh Ewl _ Ebs Ep Hres. exists l.
    assert (len bs ≤ len fr - wlen_ (s_event y)) as Hbs by (rewrite Ebs, length_take, length_drop; lia).
    split; [|split; [exists []; by rewrite app_nil_r|split; [cbn; lia|split; [|done]]]].
    + split; cbn; [rewrite Eh; eauto|lia|done|]. rewrite Ep, (assoc_L (++)), Hb, Ewl, Z2Nat.inj_add, Nat2Z.id by lia.
      rewrite Ebs at 1. apply take_take_drop.
    + cbn. destruct Hres; lia.
  - cbn [perform]. rewrite Hrun. eauto.
Qed.

Lemma perform_read y l : flowing y l → ∃ r y' l', perform p q CRead y = Ret (r, y') ∧ progress CRead y l r y' l'.
Proof.
  intros Hfl. destruct (flowing_prefix y l Hfl) as (r0 & Epre). pose proof Hfl as [Hs Hwl (L & b & Hrc) Hb]. pose proof (length_frame body) as Hlf.
  assert (Forall byte (l ++ pending (network y))) as Hby by (rewrite Hb; by apply Forall_take, byte_frame).
  destruct (wp_elim (Binary_readData uninit mem_limit q) (fun r w' => ∃ l', progress CRead y l r (mk_sys (s_heap y) (s_event y) (wheap w') (wevent w') (wnet w')) l')
    (mk_world (r_heap y) (r_event y) (network y))) as (r & w' & Hrun & l' & Hpr).
  - apply (wp_Binary_readData uninit mem_limit) with (U := U2) (l := l) (L := L) (b := b); cbn [wheap wevent wnet].
    + unfold cap_bound. lia.
    + done.
    + done.
    + rewrite Hb, length_take. lia.
    + intros r bs L' b' w' Hrc' Ep _ Hres. exists (l ++ bs).
      assert (∃ r1, (l ++ bs) ++ r1 = fr) as (r1 & Er1).
      { exists (pending (wnet w') ++ drop (Z.to_nat (wlen_ (s_event y))) fr). rewrite Ep in Hb. by rewrite <- (assoc_L (++)), (assoc_L (++) bs), (assoc_L (++)), Hb, take_drop. }
      split; [|split; [by exists bs|split; [cbn; lia|split; [|done]]]].
      * split; cbn; [done|done|eauto|]. by rewrite <- (assoc_L (++)), <- Ep.
      * rewrite Hres. by apply (complete_frame body _ r1).
  - cbn [perform]. rewrite Hrun. eauto.
Qed.

Lemma perform_all_flowing cs : ∀ y l, flowing y l → ∃ rs y' l', perform_all p q cs y = Ret (rs, y') ∧ flowing y' l' ∧
  (∃ bs, l' = l ++ bs) ∧ wlen_ (s_event y) ≤ wlen_ (s_event y') ∧
  (wlen_ (s_event y) ≠ len fr → (CWrite, 0) ∈ rs ↔ wlen_ (s_event y') = len fr) ∧ (l ≠ fr → (CRead, 0) ∈ rs ↔ l' = fr).
Proof.
  induction cs as [|c cs IH]; intros y l Hfl.
  { exists [], y, l. split; [done|]. split; [done|]. split; [exists []; by rewrite app_nil_r|]. split; [done|].
    split; intros Hne; (split; [by intros ?%elem_of_nil|done]). }
  assert (∃ r y1 l1, perform p q c y = Ret (r, y1) ∧ progress c y l r y1 l1) as (r & y1 & l1 & Hc & Hfl1 & (bs1 & E1) & Hw1 & Hr)
    by (destruct c; [by apply perform_write|by apply perform_read]).
  destruct (IH y1 l1 Hfl1) as (rs & y2 & l2 & Hcs & Hfl2 & (bs2 & E2) & Hw2 & Hd1 & Hd2).
  exists ((c, r) :: rs), y2, l2. cbn [perform_all]. rewrite Hc. cbn [mbind outcome_bind]. rewrite Hcs. cbn [mbind outcome_bind].
  split; [done|]. split; [done|]. split; [exists (bs1 ++ bs2); by rewrite E2, E1, (assoc_L (++))|]. split; [lia|].
  assert (l1 = fr → l2 = fr) as Hstay.
  { intros El. destruct (flowing_prefix y2 l2 Hfl2) as (r2 & Er2). rewrite E2, El, <- (assoc_L (++)) in Er2.
    apply (f_equal List.length) in Er2. rewrite !length_app in Er2. rewrite E2, El. rewrite (nil_length_inv bs2) by lia. by rewrite app_nil_r. }
  pose proof (fl_wlen _ _ Hfl1) as Hb1. pose proof (fl_wlen _ _ Hfl2) as Hb2. rewrite !elem_of_cons. split; intros Hne.
  - destruct c; destruct Hr as [Hr Hsame].
    + destruct (decide (wlen_ (s_event y1) = len fr)) as [E|E]; [|rewrite <- (Hd1 E)].
      * split; [lia|]. intros _. left. f_equal. symmetry. by apply Hr.
      * split; [|auto]. intros [[= Er]|Hin]; [|done]. exfalso. apply E, Hr. done.
    + rewrite <- (Hd1 ltac:(lia)). split; [by intros [[=]|Hin]|auto].
  - destruct c; destruct Hr as [Hr Hsame].
    + rewrite <- (Hd2 ltac:(congruence)). split; [by intros [[=]|Hin]|auto].
    + destruct (decide (l1 = fr)) as [E|E]; [|rewrite <- (Hd2 E)].
      * split; [auto|]. intros _. left. f_equal. symmetry. by apply Hr.
      * split; [|auto]. intros [[= Er]|Hin]; [|done]. exfalso. apply E, Hr. done.
Qed.
End invariant.

(** A connection's buffer as Event::reset makes it. *)
Lemma wp_create_chunk U (Q : Z → heap → Prop) h : ok U h → 2 ^ 35 ≤ mem_limit →
  (∀ p b h', ready U h' p [] b → heapobj h' p → contents h' [p] = [] → CHUNK_SIZE ≤ tailroom b → capacity_ b ≤ CHUNK_SIZE + 7 → Q p h') →
  wp (create uninit mem_limit CHUNK_SIZE) Q h.
Proof.
  intros Hok Hmem HQ. apply (wp_create uninit mem_limit U); [done|unfold CHUNK_SIZE; lia|unfold CHUNK_SIZE; lia|]. intros p b h' Hm Hfb.
  pose proof (made_chain _ _ _ _ _ Hm) as Hch. destruct Hm as [Hok' Eb _ _ _ Hho]. destruct Hfb as [(Ed & El & Eo) Hcap (Hs & _ & i & Hi & Hr)].
  assert (bufs h' !! p = Some b) as Hb by (by rewrite Eb, lookup_insert_eq). destruct (room_small _ _ (ok_geo U h' p b Hok' Hb)) as [_ Et].
  apply (HQ p b h'); [|done| |rewrite Et, Ed, El, Eo; lia|lia].
  - split; [done|done|by eapply (unique_count U)|done].
  - rewrite contents_cons. change (contents h' []) with (@nil Z). rewrite app_nil_r. apply nil_length_inv.
    destruct (bytes_at_len U h' Hok' p b Hb) as [E _]. lia.
Qed.

Definition sender (body : list Z) : M Z := p ← create uninit mem_limit CHUNK_SIZE; _ ← encodeData uninit mem_limit p body; mret p.
Definition receiver : M Z := create uninit mem_limit CHUNK_SIZE.

(** C1. A message crosses the network whole. The sender encodes [body] into a fresh buffer, the
    receiver has a fresh buffer; then the calls of writeData and of
    BinaryProtocol::readData interleave in any order, any number of times, over a
    stream that takes and delivers bytes in pieces of any size, with errors and
    interruptions in between. Every such sequence of calls returns. What the receiver
    holds, followed by what is on its way, is always what the sender has written of
    the frame (the length in network order, then the body). A call of writeData
    has returned 0 exactly if the whole frame was written; a call of readData has returned 0
    exactly if the receiver holds the whole frame, and then decodeData gives
    the body. *)
Theorem frame_transfer U1 U2 hs hr es er s body cs :
  ok U1 hs → ok U2 hr → Forall byte body → len body < 2 ^ 32 → 2 ^ 35 ≤ mem_limit → pending s = [] → wlen_ es = 0 →
  ∃ p hs1 q hr1, sender body hs = Ret (p, hs1) ∧ receiver hr = Ret (q, hr1) ∧
  ∃ rs y, perform_all p q cs (mk_sys hs1 es hr1 er s) = Ret (rs, y) ∧
    ∃ L, chain (r_heap y) q L ∧
      contents (r_heap y) (q :: L) ++ pending (network y) = take (Z.to_nat (wlen_ (s_event y))) (frame body) ∧
      ((CWrite, 0) ∈ rs ↔ wlen_ (s_event y) = len (frame body)) ∧
      ((CRead, 0) ∈ rs ↔ contents (r_heap y) (q :: L) = frame body) ∧
      ((CRead, 0) ∈ rs → wp (decodeData uninit mem_limit q) (fun bs _ => bs = body) (r_heap y)).
Proof.
  intros Hok1 Hok2 Hby Hlen Hmem Hp0 Hw0. pose proof (length_frame body) as Hlf.
  destruct (wp_elim (sender body) (fun p h' => ok U1 h' ∧ ∃ L, chain h' p L ∧ contents h' (p :: L) = frame body) hs) as (p & hs1 & Hs & Hok1' & L1 & Hch1 & Hc1).
  { apply wp_bind, (wp_create_chunk U1); [done|done|]. intros p b h' Hr Hho Hc Ht Hcap.
    pose proof (ok_geo U1 h' p b (rd_ok _ _ _ _ _ Hr) (rd_last _ _ _ _ _ Hr)) as Hg. destruct (room_small _ _ Hg) as [_ Et].
    apply wp_bind, (wp_encodeData uninit mem_limit U1 h' p b); [done| |done|unfold affordable, CHUNK_SIZE; lia|].
    { unfold CHUNK_SIZE in *. destruct Hg. lia. }
    intros h2 K b2 Hg2. apply wp_ret. pose proof (gr_ready _ _ _ _ _ _ _ _ Hg2) as [? ? ? ?]. split; [done|]. exists K. split; [done|].
    pose proof (gr_contents _ _ _ _ _ _ _ _ Hg2) as E. rewrite Hc in E. exact E. }
  destruct (wp_elim receiver (fun q h' => ∃ b, receiving U2 h' q [] (rlen_ er) [] b) hr) as (q & hr1 & Hr & b & Hrc).
  { apply (wp_create_chunk U2); [done|done|]. intros q b h' Hr Hho Hc Ht Hcap. exists b. split; [done| | |done|].
    - by intros x ->%list_elem_of_singleton.
    - intros x c ->%list_elem_of_singleton Hb. pose proof (rd_last _ _ _ _ _ Hr) as Hb'. cbn in Hb'. assert (c = b) as -> by congruence. unfold cap_bound, CHUNK_SIZE in *. lia.
    - left. split_and!; [cbn; lia|done|unfold CHUNK_SIZE in *; cbn; lia|done]. }
  exists p, hs1, q, hr1. split; [done|]. split; [done|].
  destruct (perform_all_flowing U1 U2 p q body Hby Hlen Hmem cs (mk_sys hs1 es hr1 er s) []) as (rs & y & l & Hrun & Hfl & _ & _ & Hd1 & Hd2).
  { split; cbn; [eauto|lia|eauto|]. rewrite Hp0, Hw0. done. }
  exists rs, y. split; [done|]. destruct Hfl as [_ Hwl (L & b' & Hrc') Hb]. exists L. pose proof Hrc' as [[_ Hch _ _] _ _ Hc _].
  split; [done|]. rewrite Hc. split; [done|]. assert ((CRead, 0) ∈ rs ↔ l = frame body) as Hiff.
  { apply Hd2. intros E. apply (f_equal List.length) in E. cbn [List.length] in E. lia. }
  split; [apply Hd1; cbn; lia|]. split; [done|]. intros Hin. apply Hiff in Hin.
  by eapply (wp_decodeData uninit mem_limit U2 Hmem _ q l (rlen_ (r_event y)) L b').
Qed.
End transfer.

(** ** Reading until a mark *)

Section until.
Context {N : Type} `{StreamNet N}.
Context (uninit : Z → Z → Z) (mem_limit : Z).

Lemma err_bind {W A B} (m : St W A) (f : A → St W B) e w : wp m (fun a w' => f a w' = Err e) w → (m ≫= f) w = Err e.
Proof. unfold wp, mbind, St_bind. by destruct (m w) as [[a w']|]. Qed.

Lemma recv_now n s' bs (Q : errno + list Z → world N → Prop) w fuel : sys_recv (wnet w) n = (s', inr bs) →
  Q (inr bs) (mk_world (wheap w) (wevent w) s') → wp (recv_loop (S fuel) n) Q w.
Proof. intros E HQ. cbn [recv_loop]. apply wp_bind, wp_gets. rewrite E. apply wp_bind, wp_modify. by apply wp_ret. Qed.

Lemma deref_gone x h : bufs h !! x = None → deref x h = Err Undefined.
Proof. intros E. unfold deref, mbind, St_bind, get, lift. by rewrite E. Qed.

(** readDataUntil uses a destroyed buffer. If the chain has more than one element, some bytes arrive
    and the mark is not among what was read so far, then coalesce has destroyed the element
    that the appender writes to, and the next round of the loop accesses it. *)
Theorem readDataUntil_dangling U p L b bytes s' bs fuel w :
  ready U (wheap w) p L b → L ≠ [] → (∀ x, x ∈ L → heapobj (wheap w) x) → fits mem_limit (wheap w) p L → 0 < tailroom b →
  sys_recv (wnet w) (tailroom b) = (s', inr bs) → bs ≠ [] →
  RangeProof.find_sub Range.asciiCaseSensitive (contents (wheap w) (p :: L) ++ bs) bytes = None →
  readDataUntil uninit mem_limit (S (S fuel)) p bytes w = Err Undefined.
Proof.
  intros Hr HL Hho Hfits Ht Hrecv Hbs Hfind. pose proof Hr as [Hok Hch Hun Hb]. destruct (recv_data _ _ _ _ Ht Hrecv) as [Hlen _].
  assert (w = mk_world (wheap w) (wevent w) (wnet w)) as Ew by (by destruct w). assert (len bs ≠ 0) as Hne by (destruct bs; cbn; [done|lia]).
  unfold readDataUntil. apply err_bind, wp_buf, (wp_new_appender U (wheap w) p L CHUNK_SIZE); [done..|]. intros a Hw _. rewrite <- Ew.
  pose proof (wr_crt _ _ _ _ _ Hw) as Ecrt. remember (S fuel) as k eqn:Ek. cbn [readDataUntil_loop].
  apply err_bind, wp_buf, (wp_room U (wheap w) p L a b Hw Hb). rewrite <- Ew. rewrite (proj2 (Z.eqb_neq (tailroom b) 0)) by lia. apply err_bind, wp_ret.
  apply err_bind, wp_buf, (wp_crt U (wheap w) p L a b Hw Hb), wp_ret. rewrite <- Ew.
  apply err_bind, wp_buf, (wp_room U (wheap w) p L a b Hw Hb). rewrite <- Ew.
  apply err_bind. unfold recv. apply wp_bind, wp_gets, wp_bind, (recv_now _ _ _ _ _ _ Hrecv), wp_bind, wp_buf. cbn [wheap wevent wnet].
  eapply wp_mono; [apply (wp_store_append U (wheap w) p L b a bs (fun _ h1 => ∃ b1, grown U (wheap w) p L bs h1 [] b1 ∧ tailroom b1 = tailroom b - len bs));
    [done|apply Hw|done|lia|by eauto]|]. intros [] h1 Hap. apply wp_ret. rewrite (proj2 (Z.eqb_neq _ _) Hne).
  apply err_bind, wp_buf. cbn [wheap wevent wnet]. eapply wp_mono; [exact Hap|]. intros [] h2 (b1 & Hg & Ht1). clear h1 Hap.
  pose proof (gr_ready _ _ _ _ _ _ _ _ Hg) as Hr2. rewrite app_nil_r in Hr2. pose proof (gr_contents _ _ _ _ _ _ _ _ Hg) as Hc2. rewrite app_nil_r in Hc2.
  assert (fits mem_limit h2 p L) as Hfits2.
  { destruct Hfits as (c0 & c1 & Hc0 & Hc1 & Hf1 & Hf2). assert (c1 = b) as -> by congruence.
    destruct (gr_fields _ _ _ _ _ _ _ _ Hg p c0 Hc0) as (c0' & Hc0' & E1 & E2 & E3). exists c0', b1. split; [done|]. split; [apply Hr2|].
    assert (headroom c0' = headroom c0) as -> by (unfold headroom; by rewrite E1, E2). rewrite Hc2, length_app. lia. }
  apply err_bind, wp_buf, (wp_coalesce uninit mem_limit U p L); [apply Hr2|apply Hr2|intros x Hx; by apply (gr_heap _ _ _ _ _ _ _ _ Hg), Hho|done|].
  cbn [wheap wevent wnet]. intros h3 b3 Hok3 Hch3 _ Ebs Hgone _ Hb3. cbn beta match. apply err_bind, wp_buf. cbn [wheap wevent wnet].
  apply wp_load; [by apply (ok_geo U h3 p)|]. unfold bytes_at in Ebs. rewrite Hb3 in Ebs. rewrite Ebs, Hc2.
  apply err_bind, (wp_lift _ (RangeProof.find_sub Range.asciiCaseSensitive (contents (wheap w) (p :: L) ++ bs) bytes)).
  { apply RangeProof.qfind_spec. unfold Range.asciiCaseSensitive. intros x y z _ _ _ ->%Z.eqb_eq ->%Z.eqb_eq. apply Z.eqb_refl. }
  rewrite Hfind, Ek. cbn [readDataUntil_loop]. unfold mbind at 1, St_bind at 1, buf at 1. cbn [wheap]. unfold room, mbind, St_bind.
  rewrite Ecrt, deref_gone; [done|]. apply Hgone. destruct L as [|x L]; [done|]. cbn [lst]. apply lst_in.
Qed.
End until.

(** ** A network *)

(** The bytes on their way, and how each of the next system calls goes: interrupted (below 0),
    not ready (0), or at most so many bytes. *)
Module Pipe.
Record pipe := mk_pipe { inflight : list Z; plan : list Z; time : Z }.
Definition next (s : pipe) : Z := default 1 (head (plan s)).
Definition tick (l : list Z) (s : pipe) : pipe := mk_pipe l (List.tl (plan s)) (time s + 1).

#[export] Instance pipe_net : Net pipe := {
  sys_recv s n :=
    if next s <? 0 then (tick (inflight s) s, inl EINTR) else
    if (next s =? 0) || bool_decide (inflight s = []) then (tick (inflight s) s, inl EWOULDBLOCK) else
    let k := Z.to_nat (Z.min (next s) n) in
    (tick (drop k (inflight s)) s, inr (take k (inflight s)));
  sys_send s bs :=
    if next s <? 0 then (tick (inflight s) s, inl EINTR) else
    if next s =? 0 then (tick (inflight s) s, inl EWOULDBLOCK) else
    let k := Z.min (next s) (len bs) in
    (tick (inflight s ++ take (Z.to_nat k) bs) s, inr k);
  clock := time;
  signals s := List.length (plan s)
}.

Lemma tick_signals l s : next s < 0 → (List.length (plan (tick l s)) < List.length (plan s))%nat.
Proof. unfold next, tick. destruct (plan s); cbn; lia. Qed.

#[export] Instance pipe_stream : StreamNet pipe.
Proof.
  refine {| pending := inflight |}; cbn.
  - intros s n s' bs Hn. destruct (Z.ltb_spec (next s) 0); [done|]. destruct (Z.eqb_spec (next s) 0); [done|]. cbn [orb]. case_bool_decide; [done|].
    intros [= <- <-]. rewrite length_take. cbn. split; [lia|by rewrite take_drop].
  - intros s n s' e. destruct (Z.ltb_spec (next s) 0); [intros [= <- <-]; split; [done|intros _; by apply tick_signals]|].
    destruct (_ || _); intros [= <- <-]. by split.
  - intros s bs s' k Hbs. destruct (Z.ltb_spec (next s) 0); [done|]. destruct (Z.eqb_spec (next s) 0); [done|]. intros [= <- <-]. cbn.
    destruct bs; [done|]. cbn [List.length]. split; [lia|done].
  - intros s bs s' e. destruct (Z.ltb_spec (next s) 0); [intros [= <- <-]; split; [done|intros _; by apply tick_signals]|].
    destruct (Z.eqb_spec (next s) 0); intros [= <- <-]. by split.
Defined.
End Pipe.

Module Demo.
Import IOBufSpec.Demo Pipe.

Definition ev0 : event := WakerEvent 3.
(** The first call is interrupted, then five bytes are taken; the receiver gets them in three pieces,
    finds nothing for a while, and the rest follows. *)
Definition net0 : pipe := mk_pipe [] [-1; 5; 0; 3; 1; 1; 0; 0; 9; 2; 0; 9] 0.
Definition cs0 : list call := [CWrite; CRead; CRead; CWrite; CRead; CRead].

Definition outcome_of (o : outcome (list (call * Z) * sys (N := pipe))) : list (call * Z) := match o with Ret (rs, _) => rs | Err _ => [] end.

Lemma frame_transfer_witness : ∃ p hs1 q hr1 rs y, sender un (2 ^ 36) [10; 20; 30; 40] h0 = Ret (p, hs1) ∧ receiver un (2 ^ 36) h0 = Ret (q, hr1) ∧
  perform_all un (2 ^ 36) p q cs0 (mk_sys hs1 ev0 hr1 ev0 net0) = Ret (rs, y) ∧ (CRead, 0) ∈ rs ∧
  wp (decodeData un (2 ^ 36) q) (fun bs _ => bs = [10; 20; 30; 40]) (r_heap y).
Proof.
  destruct (frame_transfer un (2 ^ 36) ∅ ∅ h0 h0 ev0 ev0 net0 [10; 20; 30; 40] cs0 ok0 ok0) as (p & hs1 & q & hr1 & Hs & Hr & rs & y & Hrun & L & _ & _ & _ & _ & Hdec).
  - repeat constructor; done.
  - by vm_compute.
  - lia.
  - done.
  - done.
  - exists p, hs1, q, hr1, rs, y. split; [exact Hs|]. split; [exact Hr|]. split; [exact Hrun|].
    assert ((CRead, 0) ∈ rs) as Hin; [|split; [exact Hin|exact (Hdec Hin)]].
    assert (rs = outcome_of (match sender un (2 ^ 36) [10; 20; 30; 40] h0, receiver un (2 ^ 36) h0 with
      | Ret (p, hs1), Ret (q, hr1) => perform_all un (2 ^ 36) p q cs0 (mk_sys hs1 ev0 hr1 ev0 net0) | _, _ => Err Undefined end)) as -> by (by rewrite Hs, Hr, Hrun).
    by apply (list_elem_of_lookup_2 _ 5).
Defined.

(** The chain of two, from its second element on: the last one has room. *)
Lemma turned : chain h3 p2 [p1] ∧ unique h3 p1 ∧ fits lim h3 p2 [p1] ∧ ∃ b, bufs h3 !! p1 = Some b ∧ 0 < tailroom b.
Proof.
  assert (∃ b c, bufs h3 !! p1 = Some b ∧ bufs h3 !! p2 = Some c ∧ sharedInfo b ≠ 0 ∧ sharedInfo c ≠ sharedInfo b ∧ 0 < tailroom b ∧
    len (contents h3 [p2; p1]) + headroom c + tailroom b < 1000) as (b & c & Hb & Hc & Hs & Hne & Ht & Hsz).
  { exists (default (blank_at 0) (bufs h3 !! p1)), (default (blank_at 0) (bufs h3 !! p2)).
    split; [vm_compute; reflexivity|]. split; [vm_compute; reflexivity|]. split; [vm_compute; discriminate|]. split; [vm_compute; discriminate|].
    split; vm_compute; reflexivity. }
  split; [|split; [|split]].
  - split; [repeat split; vm_compute; reflexivity|]. apply NoDup_cons. split; [|apply NoDup_singleton].
    intros E%list_elem_of_singleton. by vm_compute in E.
  - exists b. split; [done|]. split; [done|]. intros k c' Hk Hc'. apply (mk_is_Some _ _) in Hc' as Hk'. apply all_objects, elem_of_cons in Hk' as [E|E%list_elem_of_singleton]; [by destruct Hk|].
    rewrite E in Hc'. rewrite Hc in Hc'. by injection Hc' as <-.
  - exists c, b. split; [done|]. split; [done|]. unfold lim. lia.
  - eauto.
Qed.

(** One byte arrives. *)
Lemma readDataUntil_dangling_witness :
  Zlib_readData un lim 2 p2 (mk_world h3 ev0 (mk_pipe [7] [1] 0)) = Err Undefined.
Proof.
  destruct ok3 as (Hok & _ & Hho). destruct turned as (Hch & Hun & Hfits & b & Hb & Ht).
  apply (readDataUntil_dangling un lim ∅ p2 [p1] b [0; 0; 255; 255] (mk_pipe [] [] 1) [7] 0 (mk_world h3 ev0 (mk_pipe [7] [1] 0))).
  - split; [exact Hok|exact Hch|exact Hun|exact Hb].
  - done.
  - intros x ->%list_elem_of_singleton. apply Hho. left.
  - exact Hfits.
  - exact Ht.
  - cbn. rewrite Z.min_l by lia. done.
  - done.
  - by vm_compute.
Defined.
End Demo.
End ProtocolSpec.
