(* ===== verification/Base64.v ===== *)
(** util/Base64-inl.h: the base64 codec. The output string is resized first and
    then filled by index, so that a write past its end would be a fault of the
    model; strings are lists of unsigned chars. *)
From S2P Require Import Prelude.

Module Base64.

Inductive Base64EncodeMode := COMMON | URI.

Definition kPad : Z := 61.

(** output[j] = c *)
Definition put (out : list Z) (j : nat) (c : Z) : outcome (list Z) :=
  if decide (j < length out)%nat then Ret (<[j := c]> out) else Err Undefined.

(** kBase64EncTable: A-Z a-z 0-9. *)
Definition kBase64EncTable : list Z := seqZ 65 26 ++ seqZ 97 26 ++ seqZ 48 10.

Definition encode (mode : Base64EncodeMode) (i : Z) : outcome Z :=
  if i =? 0x3e then Ret (match mode with URI => 45 | COMMON => 43 end) else
  if i =? 0x3f then Ret (match mode with URI => 95 | COMMON => 47 end) else
  of_option Undefined (kBase64EncTable !! Z.to_nat i).

(** while (leftbits >= 6): at most two rounds, leftbits is below 14. *)
Fixpoint encode_bits (fuel : nat) (mode : Base64EncodeMode) (leftchar leftbits : Z) (out : list Z) (j : nat)
    : outcome (Z * list Z * nat) :=
  match fuel with
  | O => Err OutOfFuel
  | S fuel =>
      if 6 <=? leftbits then
        let leftbits := leftbits - 6 in
        c ← encode mode (Z.land (Z.shiftr leftchar leftbits) 0x3f);
        out ← put out j c;
        encode_bits fuel mode leftchar leftbits out (S j)
      else Ret (leftbits, out, j)
  end.

Fixpoint encode_loop (mode : Base64EncodeMode) (input : list Z) (leftchar leftbits : Z) (out : list Z) (j : nat)
    : outcome (Z * Z * list Z * nat) :=
  match input with
  | [] => Ret (leftchar, leftbits, out, j)
  | x :: input =>
      let leftchar := Z.lor (u32 (Z.shiftl leftchar 8)) x in
      '(leftbits, out, j) ← encode_bits 3 mode leftchar (leftbits + 8) out j;
      encode_loop mode input leftchar leftbits out j
  end.

(** What is left after the last byte. *)
Definition encode_rest (mode : Base64EncodeMode) (leftchar leftbits : Z) (out : list Z) (j : nat) : outcome (list Z) :=
  if leftbits =? 2 then
    c ← encode mode (Z.shiftl (Z.land leftchar 0x3) 4);
    out ← put out j c; out ← put out (S j) kPad; put out (S (S j)) kPad
  else if leftbits =? 4 then
    c ← encode mode (Z.shiftl (Z.land leftchar 0xf) 2);
    out ← put out j c; put out (S j) kPad
  else Ret out.

(** output.resize(n) of an empty string. *)
Definition resize (lim : limits) (n : Z) : outcome (list Z) :=
  _ ← container_reserve lim n; Ret (replicate (Z.to_nat n) 0).

Definition base64Encode (lim : limits) (input : list Z) (mode : Base64EncodeMode) : outcome (list Z * bool) :=
  let n := Z.of_nat (length input) in
  out ← resize lim (u64 (u64 (n + 2) / 3 * 4));
  '(leftchar, leftbits, out, j) ← encode_loop mode input 0 0 out 0;
  out ← encode_rest mode leftchar leftbits out j;
  Ret (out, true).

Definition kBase64DecTable : list Z := [
  -1;-1;-1;-1; -1;-1;-1;-1; -1;-1;-1;-1; -1;-1;-1;-1;
  -1;-1;-1;-1; -1;-1;-1;-1; -1;-1;-1;-1; -1;-1;-1;-1;
  -1;-1;-1;-1; -1;-1;-1;-1; -1;-1;-1;62; -1;62;-1;63;
  52;53;54;55; 56;57;58;59; 60;61;-1;-1; -1; 0;-1;-1;
  -1; 0; 1; 2;  3; 4; 5; 6;  7; 8; 9;10; 11;12;13;14;
  15;16;17;18; 19;20;21;22; 23;24;25;-1; -1;-1;-1;63;
  -1;26;27;28; 29;30;31;32; 33;34;35;36; 37;38;39;40;
  41;42;43;44; 45;46;47;48; 49;50;51;-1; -1;-1;-1;-1].

Definition decode (c : Z) : outcome Z := of_option Undefined (kBase64DecTable !! Z.to_nat c).

Fixpoint decode_bits (fuel : nat) (value bits : Z) (out : list Z) (j : nat) : outcome (Z * list Z * nat) :=
  match fuel with
  | O => Err OutOfFuel
  | S fuel =>
      if 8 <=? bits then
        let bits := bits - 8 in
        out ← put out j (Z.land (Z.shiftr value bits) 0xff);
        decode_bits fuel value bits out (S j)
      else Ret (bits, out, j)
  end.

Fixpoint decode_loop (input : list Z) (value bits : Z) (out : list Z) (j : nat) : outcome (Z * list Z * nat) :=
  match input with
  | [] => Ret (bits, out, j)
  | c :: input =>
      if 0x7f <? c then decode_loop input value bits out j else
      if c =? kPad then Ret (0, out, j) else
      d ← decode c;
      if u8 d =? 255 then decode_loop input value bits out j else
      let value := Z.lor (u32 (Z.shiftl value 6)) (u8 d) in
      '(bits, out, j) ← decode_bits 2 value (bits + 6) out j;
      decode_loop input value bits out j
  end.

Definition base64Decode (lim : limits) (input : list Z) : outcome (list Z * bool) :=
  let n := Z.of_nat (length input) in
  out ← resize lim (u64 (u64 (n + 3) / 4 * 3));
  '(bits, out, j) ← decode_loop input 0 0 out 0;
  Ret (take j out, bits =? 0).

Definition demo_lim : limits := mk_limits (2 ^ 62) 1000.
Example enc_man : base64Encode demo_lim [77; 97; 110; 33] COMMON = Ret ([84;87;70;117;73;81;61;61], true).
Proof. reflexivity. Qed.
Example dec_man : base64Decode demo_lim [84;87;70;117;73;81;61;61] = Ret ([77; 97; 110; 33], true).
Proof. reflexivity. Qed.

(** ** Machine arithmetic of the two loops *)

Definition byte_list (l : list Z) : Prop := Forall (fun x => 0 ≤ x < 256) l.

Lemma shift_in x k a : 0 ≤ k ≤ 32 → 0 ≤ a < 2 ^ k → Z.lor (u32 (Z.shiftl x k)) a = u32 (x * 2 ^ k + a).
Proof.
  intros Hk Ha. rewrite Z.shiftl_mul_pow2 by lia. unfold u32.
  assert ((x * 2 ^ k) mod 2 ^ 32 = (x mod 2 ^ (32 - k)) * 2 ^ k) as E.
  { replace (2 ^ 32) with (2 ^ (32 - k) * 2 ^ k) by (rewrite <-Z.pow_add_r by lia; f_equal; lia).
    apply Z.mul_mod_distr_r; apply Z.pow_nonzero; lia. }
  rewrite Z.add_mod, E by lia. rewrite (Z.mod_small a) by (pose proof (Z.pow_le_mono_r 2 k 32); lia).
  assert (0 ≤ x mod 2 ^ (32 - k) < 2 ^ (32 - k)) as Hr by (apply Z.mod_pos_bound, Z.pow_pos_nonneg; lia).
  rewrite (Z.mod_small (_ + a)).
  2:{ assert (2 ^ 32 = 2 ^ (32 - k) * 2 ^ k) as -> by (rewrite <-Z.pow_add_r by lia; f_equal; lia). nia. }
  symmetry. apply Z.add_nocarry_lor. apply Z.bits_inj'. intros n Hn.
  rewrite Z.land_spec, Z.bits_0. destruct (Z.lt_ge_cases n k).
  - rewrite Z.mul_pow2_bits_low by lia. done.
  - destruct (decide (a = 0)) as [->|]; [by rewrite Z.bits_0, andb_false_r|].
    rewrite (Z.bits_above_log2 a n), andb_false_r; [done|lia|]. apply Z.log2_lt_pow2; [lia|]. pose proof (Z.pow_le_mono_r 2 k n). lia.
Qed.

Lemma shift_out x k m : 0 ≤ k → 0 ≤ m → k + m ≤ 32 →
  Z.land (Z.shiftr (u32 x) k) (Z.ones m) = (x / 2 ^ k) mod 2 ^ m.
Proof.
  intros Hk Hm Hkm. rewrite Z.land_ones, Z.shiftr_div_pow2 by lia. unfold u32.
  apply Z.bits_inj'. intros n Hn. destruct (Z.lt_ge_cases n m).
  - rewrite !Z.mod_pow2_bits_low by lia. rewrite !Z.div_pow2_bits by lia. rewrite Z.mod_pow2_bits_low by lia. done.
  - by rewrite !Z.mod_pow2_bits_high by lia.
Qed.

(** ** The alphabet *)

Definition sym (mode : Base64EncodeMode) (i : Z) : Z := match encode mode i with Ret c => c | Err _ => 0 end.

Lemma encode_sym mode i : 0 ≤ i < 64 →
  encode mode i = Ret (sym mode i) ∧ 0 ≤ sym mode i ≤ 0x7f ∧ sym mode i ≠ kPad ∧ decode (sym mode i) = Ret i.
Proof.
  intros Hi. assert (i ∈ seqZ 0 64) as Hin by (apply elem_of_seqZ; lia).
  revert i Hi Hin. cut (Forall (fun i => encode mode i = Ret (sym mode i) ∧ 0 ≤ sym mode i ≤ 0x7f ∧ sym mode i ≠ kPad ∧
    decode (sym mode i) = Ret i) (seqZ 0 64)); [intros H i _ Hi; by eapply Forall_forall in H|].
  destruct mode; vm_compute; repeat constructor; try done.
Qed.

(** ** Filling the output *)

Lemma put_next w x r c : put (w ++ x :: r) (length w) c = Ret ((w ++ [c]) ++ r).
Proof.
  unfold put. rewrite decide_True by (rewrite length_app; cbn; lia).
  rewrite insert_app_r_alt, Nat.sub_diag by lia. cbn. by rewrite <-app_assoc.
Qed.

Lemma length_snoc {A} (w : list A) c : S (length w) = length (w ++ [c]).
Proof. rewrite length_app. cbn. lia. Qed.

(** The four sextets of three bytes. *)
Definition enc3 (a b c : Z) : list Z := [a / 4; (a mod 4) * 16 + b / 16; (b mod 16) * 4 + c / 64; c mod 64].

Lemma sextets lc a b c : 0 ≤ a < 256 → 0 ≤ b < 256 → 0 ≤ c < 256 →
  let l1 := Z.lor (u32 (Z.shiftl lc 8)) a in
  let l2 := Z.lor (u32 (Z.shiftl l1 8)) b in
  let l3 := Z.lor (u32 (Z.shiftl l2 8)) c in
  Z.land (Z.shiftr l1 2) 0x3f = a / 4 ∧ Z.land (Z.shiftr l2 4) 0x3f = (a mod 4) * 16 + b / 16 ∧
  Z.land (Z.shiftr l3 6) 0x3f = (b mod 16) * 4 + c / 64 ∧ Z.land (Z.shiftr l3 0) 0x3f = c mod 64 ∧
  Z.land l1 0x3 = a mod 4 ∧ Z.land l2 0xf = b mod 16.
Proof.
  intros Ha Hb Hc. cbn zeta. rewrite !(shift_in _ 8) by lia.
  change 0x3f with (Z.ones 6). change 0x3 with (Z.ones 2). change 0xf with (Z.ones 4).
  rewrite !shift_out by lia. rewrite !Z.land_ones by lia. unfold u32.
  split_and!; Z.div_mod_to_equations; lia.
Qed.

(** One round of the inner loop. *)
Lemma encode_bits_step fuel mode lc lb w x r v : 6 ≤ lb → 0 ≤ v < 64 →
  Z.land (Z.shiftr lc (lb - 6)) 0x3f = v →
  encode_bits (S fuel) mode lc lb (w ++ x :: r) (length w) =
  encode_bits fuel mode lc (lb - 6) ((w ++ [sym mode v]) ++ r) (length (w ++ [sym mode v])).
Proof.
  intros Hlb Hv E. cbn [encode_bits]. rewrite (proj2 (Z.leb_le 6 lb)) by lia. cbn zeta. rewrite E.
  destruct (encode_sym mode v Hv) as [-> _]. cbn [mbind outcome_bind]. rewrite put_next. cbn [mbind outcome_bind].
  by rewrite length_snoc with (c := sym mode v).
Qed.

Lemma encode_bits_stop fuel mode lc lb out j : lb < 6 → encode_bits (S fuel) mode lc lb out j = Ret (lb, out, j).
Proof. intros Hlb. cbn. by rewrite (proj2 (Z.leb_gt 6 lb)). Qed.

Definition syms (mode : Base64EncodeMode) (l : list Z) : list Z := sym mode <$> l.

(** One, two and three bytes from a state with no bits left over. *)
Lemma encode_one mode a rest lc w x r : 0 ≤ a < 256 →
  encode_loop mode (a :: rest) lc 0 (w ++ x :: r) (length w) =
  encode_loop mode rest (Z.lor (u32 (Z.shiftl lc 8)) a) 2
    ((w ++ syms mode [a / 4]) ++ r) (length (w ++ syms mode [a / 4])).
Proof.
  intros Ha. destruct (sextets lc a 0 0 Ha) as (E1 & _); [lia..|]. cbn [encode_loop].
  rewrite (encode_bits_step 2 _ _ _ _ _ _ (a / 4)); [|lia|Z.div_mod_to_equations; lia|done].
  rewrite encode_bits_stop by lia. done.
Qed.

Lemma encode_two mode a b rest lc w x y r : 0 ≤ a < 256 → 0 ≤ b < 256 →
  encode_loop mode (a :: b :: rest) lc 0 (w ++ x :: y :: r) (length w) =
  encode_loop mode rest (Z.lor (u32 (Z.shiftl (Z.lor (u32 (Z.shiftl lc 8)) a) 8)) b) 4
    ((w ++ syms mode [a / 4; (a mod 4) * 16 + b / 16]) ++ r)
    (length (w ++ syms mode [a / 4; (a mod 4) * 16 + b / 16])).
Proof.
  intros Ha Hb. destruct (sextets lc a b 0 Ha Hb) as (_ & E2 & _); [lia|]. rewrite encode_one by done.
  cbn [encode_loop].
  rewrite (encode_bits_step 2 _ _ _ _ _ _ ((a mod 4) * 16 + b / 16)); [|lia|Z.div_mod_to_equations; lia|done].
  rewrite encode_bits_stop by lia. cbn [mbind outcome_bind]. rewrite <-!app_assoc. done.
Qed.

Lemma encode_three mode a b c rest lc w x y z t r : 0 ≤ a < 256 → 0 ≤ b < 256 → 0 ≤ c < 256 →
  ∃ lc', encode_loop mode (a :: b :: c :: rest) lc 0 (w ++ x :: y :: z :: t :: r) (length w) =
  encode_loop mode rest lc' 0 ((w ++ syms mode (enc3 a b c)) ++ r) (length (w ++ syms mode (enc3 a b c))).
Proof.
  intros Ha Hb Hc. destruct (sextets lc a b c Ha Hb Hc) as (_ & _ & E3 & E4 & _). eexists. rewrite encode_two by done.
  cbn [encode_loop].
  rewrite (encode_bits_step 2 _ _ _ _ _ _ ((b mod 16) * 4 + c / 64)); [|lia|Z.div_mod_to_equations; lia|done].
  rewrite (encode_bits_step 1 _ _ _ _ _ _ (c mod 64)); [|lia|Z.div_mod_to_equations; lia|done].
  rewrite encode_bits_stop by lia. cbn [mbind outcome_bind]. rewrite <-!app_assoc. cbn. reflexivity.
Qed.

(** What the encoder writes: four characters for three bytes. *)
Fixpoint encoded (mode : Base64EncodeMode) (l : list Z) : list Z :=
  match l with
  | a :: b :: c :: l => syms mode (enc3 a b c) ++ encoded mode l
  | [a; b] => syms mode [a / 4; (a mod 4) * 16 + b / 16; (b mod 16) * 4] ++ [kPad]
  | [a] => syms mode [a / 4; (a mod 4) * 16] ++ [kPad; kPad]
  | [] => []
  end.

(** Induction three elements at a time. *)
Lemma list_ind3 (P : list Z → Prop) :
  P [] → (∀ a, P [a]) → (∀ a b, P [a; b]) → (∀ a b c l, P l → P (a :: b :: c :: l)) → ∀ l, P l.
Proof.
  intros H0 H1 H2 H3. fix IH 1. intros [|a [|b [|c l]]]; [exact H0|apply H1|apply H2|apply H3, IH].
Qed.

Lemma groups_step n : ((S (S (S n)) + 2) / 3 * 4)%nat = S (S (S (S ((n + 2) / 3 * 4)))).
Proof. replace (S (S (S n)) + 2)%nat with (1 * 3 + (n + 2))%nat by lia. rewrite Nat.div_add_l by lia. lia. Qed.

Lemma encode_all mode l : byte_list l → ∀ lc w,
  ('(lc, lb, out, j) ← encode_loop mode l lc 0 (w ++ replicate ((length l + 2) / 3 * 4) 0) (length w);
   encode_rest mode lc lb out j) = Ret (w ++ encoded mode l).
Proof.
  induction l as [|a|a b|a b c l IH] using list_ind3; intros Hl lc w; unfold byte_list in Hl; rewrite ?Forall_cons in Hl.
  - done.
  - destruct Hl as [Ha _]. destruct (sextets lc a 0 0 Ha) as (_ & _ & _ & _ & E & _); [lia..|].
    change (replicate _ 0) with [0; 0; 0; 0]. rewrite encode_one by done. cbn [encode_loop mbind outcome_bind].
    unfold encode_rest. change (2 =? 2) with true. cbn match. rewrite E.
    destruct (encode_sym mode (Z.shiftl (a mod 4) 4)) as [-> _].
    { rewrite Z.shiftl_mul_pow2 by lia. Z.div_mod_to_equations; lia. }
    cbn [mbind outcome_bind]. rewrite put_next. cbn [mbind outcome_bind]. rewrite length_snoc with (c := sym mode (Z.shiftl (a mod 4) 4)).
    rewrite put_next. cbn [mbind outcome_bind]. rewrite length_snoc with (c := kPad). rewrite put_next.
    cbn [encoded syms fmap list_fmap app]. rewrite Z.shiftl_mul_pow2 by lia. by rewrite <-!app_assoc.
  - destruct Hl as (Ha & Hb & _). destruct (sextets lc a b 0 Ha Hb) as (_ & _ & _ & _ & _ & E); [lia|].
    change (replicate _ 0) with [0; 0; 0; 0]. rewrite encode_two by done. cbn [encode_loop mbind outcome_bind].
    unfold encode_rest. change (4 =? 2) with false. change (4 =? 4) with true. cbn match. rewrite E.
    destruct (encode_sym mode (Z.shiftl (b mod 16) 2)) as [-> _].
    { rewrite Z.shiftl_mul_pow2 by lia. Z.div_mod_to_equations; lia. }
    cbn [mbind outcome_bind]. rewrite put_next. cbn [mbind outcome_bind]. rewrite length_snoc with (c := sym mode (Z.shiftl (b mod 16) 2)).
    rewrite put_next. cbn [encoded syms fmap list_fmap app]. rewrite Z.shiftl_mul_pow2 by lia. by rewrite <-!app_assoc.
  - destruct Hl as (Ha & Hb & Hc & Hl). cbn [length]. rewrite groups_step. cbn [replicate].
    destruct (encode_three mode a b c l lc w 0 0 0 0 (replicate ((length l + 2) / 3 * 4) 0) Ha Hb Hc) as [lc' ->].
    rewrite IH by done. by rewrite <-app_assoc.
Qed.

(** A string can hold [n] characters. *)
Definition room (lim : limits) (n : nat) : Prop := Z.of_nat n < 2 ^ 63 ∧ reservable lim (Z.of_nat n).
Lemma resize_ok lim n m : 0 ≤ n < 2 ^ 64 → n = Z.of_nat m → reservable lim (Z.of_nat m) → resize lim (u64 n) = Ret (replicate m 0).
Proof. intros Hn -> Hr. unfold resize. rewrite u64_small by done. rewrite container_reserve_ok by done. cbn. by rewrite Nat2Z.id. Qed.
Lemma resize_encoded lim (l : list Z) : room lim ((length l + 2) / 3 * 4) →
  resize lim (u64 (u64 (Z.of_nat (length l) + 2) / 3 * 4)) = Ret (replicate ((length l + 2) / 3 * 4) 0).
Proof.
  intros [Hl Hr]. pose proof (Nat2Z.inj_div (length l + 2) 3) as Ed. assert (Z.of_nat (length l) < 2 ^ 63) by (Z.div_mod_to_equations; lia).
  rewrite (u64_small (_ + 2)) by lia. apply resize_ok; [Z.div_mod_to_equations; lia|lia|done].
Qed.
Lemma resize_decoded lim (l : list Z) : room lim ((length l + 3) / 4 * 3) →
  resize lim (u64 (u64 (Z.of_nat (length l) + 3) / 4 * 3)) = Ret (replicate ((length l + 3) / 4 * 3) 0).
Proof.
  intros [Hl Hr]. pose proof (Nat2Z.inj_div (length l + 3) 4) as Ed. assert (Z.of_nat (length l) + 3 < 2 ^ 64) by (Z.div_mod_to_equations; lia).
  rewrite (u64_small (_ + 3)) by lia. apply resize_ok; [Z.div_mod_to_equations; lia|lia|done].
Qed.

Lemma base64Encode_encoded lim mode l : byte_list l → room lim ((length l + 2) / 3 * 4) → base64Encode lim l mode = Ret (encoded mode l, true).
Proof.
  intros Hl Hr. pose proof (encode_all mode l Hl 0 []) as E. unfold base64Encode. rewrite resize_encoded by done. cbn [mbind outcome_bind]. cbn [app length] in E.
  destruct (encode_loop _ _ _ _ _ _) as [[[[lc lb] out] j]|]; cbn in E |- *; [|done]. by rewrite E.
Qed.

(** ** Decoding *)

Lemma decode_sym mode v rest value bits out j : 0 ≤ v < 64 →
  decode_loop (sym mode v :: rest) value bits out j =
  ('(bits, out, j) ← decode_bits 2 (u32 (value * 64 + v)) (bits + 6) out j;
   decode_loop rest (u32 (value * 64 + v)) bits out j).
Proof.
  intros Hv. destruct (encode_sym mode v Hv) as (_ & Hr & Hp & Hd). cbn [decode_loop].
  rewrite (proj2 (Z.ltb_ge _ _)) by lia. rewrite (proj2 (Z.eqb_neq _ _)) by done. rewrite Hd. cbn [mbind outcome_bind].
  assert (u8 v = v) as -> by (apply Z.mod_small; lia). rewrite (proj2 (Z.eqb_neq _ _)) by lia.
  by rewrite (shift_in _ 6) by lia.
Qed.

Lemma decode_bits_step fuel value bits w x r v : 8 ≤ bits → Z.land (Z.shiftr value (bits - 8)) 0xff = v →
  decode_bits (S fuel) value bits (w ++ x :: r) (length w) =
  decode_bits fuel value (bits - 8) ((w ++ [v]) ++ r) (length (w ++ [v])).
Proof.
  intros Hb E. cbn [decode_bits]. rewrite (proj2 (Z.leb_le 8 bits)) by lia. cbn zeta. rewrite E, put_next.
  cbn [mbind outcome_bind]. by rewrite length_snoc with (c := v).
Qed.

Lemma decode_bits_stop fuel value bits out j : bits < 8 → decode_bits (S fuel) value bits out j = Ret (bits, out, j).
Proof. intros Hb. cbn. by rewrite (proj2 (Z.leb_gt 8 bits)). Qed.

(** The bytes of three symbols, of which the third may be the last. *)
Lemma decode_two mode p q rest value w x r : 0 ≤ p < 64 → 0 ≤ q < 64 →
  decode_loop (sym mode p :: sym mode q :: rest) value 0 (w ++ x :: r) (length w) =
  decode_loop rest (u32 (u32 (value * 64 + p) * 64 + q)) 4
    ((w ++ [p * 4 + q / 16]) ++ r) (length (w ++ [p * 4 + q / 16])).
Proof.
  intros Hp Hq. rewrite decode_sym, decode_bits_stop by lia. cbn [mbind outcome_bind].
  rewrite decode_sym by done. rewrite (decode_bits_step 1 _ _ _ _ _ (p * 4 + q / 16)); [|lia|].
  - rewrite decode_bits_stop by lia. done.
  - change 0xff with (Z.ones 8). rewrite shift_out by lia. unfold u32. Z.div_mod_to_equations; lia.
Qed.

Lemma decode_three mode p q s rest value w x y r : 0 ≤ p < 64 → 0 ≤ q < 64 → 0 ≤ s < 64 →
  let bs := [p * 4 + q / 16; (q mod 16) * 16 + s / 4] in
  decode_loop (sym mode p :: sym mode q :: sym mode s :: rest) value 0 (w ++ x :: y :: r) (length w) =
  decode_loop rest (u32 (u32 (u32 (value * 64 + p) * 64 + q) * 64 + s)) 2 ((w ++ bs) ++ r) (length (w ++ bs)).
Proof.
  intros Hp Hq Hs bs. rewrite decode_two, decode_sym by done.
  rewrite (decode_bits_step 1 _ _ _ _ _ ((q mod 16) * 16 + s / 4)); [|lia|].
  - rewrite decode_bits_stop by lia. cbn [mbind outcome_bind]. rewrite <-!app_assoc. done.
  - change 0xff with (Z.ones 8). rewrite shift_out by lia. unfold u32. Z.div_mod_to_equations; lia.
Qed.

Lemma decode_four mode p q s t rest value w x y z r : 0 ≤ p < 64 → 0 ≤ q < 64 → 0 ≤ s < 64 → 0 ≤ t < 64 →
  let bs := [p * 4 + q / 16; (q mod 16) * 16 + s / 4; (s mod 4) * 64 + t] in
  ∃ value', decode_loop (sym mode p :: sym mode q :: sym mode s :: sym mode t :: rest) value 0
    (w ++ x :: y :: z :: r) (length w) = decode_loop rest value' 0 ((w ++ bs) ++ r) (length (w ++ bs)).
Proof.
  intros Hp Hq Hs Ht bs. eexists. rewrite decode_three, decode_sym by done.
  rewrite (decode_bits_step 1 _ _ _ _ _ ((s mod 4) * 64 + t)); [|lia|].
  - rewrite decode_bits_stop by lia. cbn [mbind outcome_bind]. rewrite <-!app_assoc. reflexivity.
  - change 0xff with (Z.ones 8). rewrite shift_out by lia. unfold u32. Z.div_mod_to_equations; lia.
Qed.

Lemma decode_encoded mode l : byte_list l → ∀ value w r, (length l <= length r)%nat →
  ∃ r', decode_loop (encoded mode l) value 0 (w ++ r) (length w) = Ret (0, (w ++ l) ++ r', length (w ++ l)).
Proof.
  induction l as [|a|a b|a b c l IH] using list_ind3; intros Hl value w r Hr; unfold byte_list in Hl;
    rewrite ?Forall_cons in Hl; cbn [length] in Hr.
  - exists r. cbn. by rewrite app_nil_r.
  - destruct Hl as [Ha _]. destruct r as [|x r]; [cbn in Hr; lia|]. exists r. cbn [encoded syms fmap list_fmap app].
    rewrite decode_two by (Z.div_mod_to_equations; lia).
    assert (a / 4 * 4 + a mod 4 * 16 / 16 = a) as -> by (Z.div_mod_to_equations; lia). done.
  - destruct Hl as (Ha & Hb & _). destruct r as [|x [|y r]]; [cbn in Hr; lia..|]. exists r.
    cbn [encoded syms fmap list_fmap app]. rewrite decode_three by (Z.div_mod_to_equations; lia).
    match goal with |- context [_ ++ [?p; ?q]] =>
      assert (p = a) as -> by (Z.div_mod_to_equations; lia); assert (q = b) as -> by (Z.div_mod_to_equations; lia) end. done.
  - destruct Hl as (Ha & Hb & Hc & Hl). destruct r as [|x [|y [|z r]]]; [cbn in Hr; lia..|].
    cbn [encoded syms enc3 fmap list_fmap app].
    destruct (decode_four mode (a / 4) (a mod 4 * 16 + b / 16) (b mod 16 * 4 + c / 64) (c mod 64) (encoded mode l)
      value w x y z r) as [value' E]; [Z.div_mod_to_equations; lia..|]. rewrite E. clear E.
    match goal with |- context [_ ++ [?p; ?q; ?s]] =>
      assert (p = a) as -> by (Z.div_mod_to_equations; lia); assert (q = b) as -> by (Z.div_mod_to_equations; lia);
      assert (s = c) as -> by (Z.div_mod_to_equations; lia) end.
    destruct (IH Hl value' (w ++ [a; b; c]) r) as [r' E]; [cbn in Hr; lia|]. exists r'. rewrite E.
    by rewrite <-!app_assoc.
Qed.

Lemma length_encoded mode l : length (encoded mode l) = ((length l + 2) / 3 * 4)%nat.
Proof.
  induction l as [|a|a b|a b c l IH] using list_ind3; [done..|]. cbn [length]. rewrite groups_step, <-IH. done.
Qed.

Lemma room_decode lim mode l : room lim ((length l + 2) / 3 * 4) →
  room lim ((length (encoded mode l) + 3) / 4 * 3).
Proof.
  rewrite length_encoded. set (k := ((length l + 2) / 3)%nat). pose proof (Nat.div_mod_eq (length l + 2) 3). fold k in H.
  rewrite (Nat.add_comm _ 3), Nat.div_add by lia. change (3 / 4)%nat with 0%nat. intros [Hl [H1 H2]]. split; [|split]; lia.
Qed.

(** C31. base64Decode is a left inverse of base64Encode in both modes: every string of bytes
    whose encoding a string can hold is encoded without fault into four characters for
    each three bytes begun, and decoding them gives the bytes back and reports success. *)
Theorem base64_roundtrip lim mode l : byte_list l → room lim ((length l + 2) / 3 * 4) →
  ∃ e, base64Encode lim l mode = Ret (e, true) ∧ length e = ((length l + 2) / 3 * 4)%nat ∧
       base64Decode lim e = Ret (l, true).
Proof.
  intros Hl Hroom. exists (encoded mode l). split_and!; [by apply base64Encode_encoded|apply length_encoded|].
  destruct (decode_encoded mode l Hl 0 [] (replicate ((length (encoded mode l) + 3) / 4 * 3) 0)) as [r' E].
  { rewrite length_replicate, length_encoded. 
    pose proof (Nat.div_mod_eq (length l + 2) 3). pose proof (Nat.mod_upper_bound (length l + 2) 3 ltac:(lia)).
    rewrite (Nat.add_comm _ 3), Nat.div_add by lia. change (3 / 4)%nat with 0%nat. lia. }
  unfold base64Decode. rewrite resize_decoded by by apply room_decode. cbn [mbind outcome_bind]. cbn [app length] in E. rewrite E. cbn. by rewrite take_app_length.
Qed.

Lemma base64_roundtrip_witness : base64Decode demo_lim [84; 87; 69; 61] = Ret ([77; 97], true).
Proof.
  destruct (base64_roundtrip demo_lim COMMON [77; 97]) as (e & E & _ & D); [repeat constructor; lia|split; cbn; [lia|split; cbn; lia]|].
  vm_compute in E. injection E as <-. exact D.
Defined.

(** ** Any input *)

Lemma put_ok out j c : (j < length out)%nat → ∃ out', put out j c = Ret out' ∧ length out' = length out.
Proof. intros Hj. unfold put. rewrite decide_True by done. eexists. split; [done|]. apply length_insert. Qed.

Lemma decode_bits_ok value bits out j : 0 ≤ bits < 14 → (Z.of_nat j * 8 + bits < Z.of_nat (length out) * 8 + 8) →
  ∃ bits' out' j', decode_bits 2 value bits out j = Ret (bits', out', j') ∧ 0 ≤ bits' < 8 ∧
    length out' = length out ∧ Z.of_nat j' * 8 + bits' = Z.of_nat j * 8 + bits.
Proof.
  intros Hb Hj. destruct (decide (8 ≤ bits)) as [H8|H8].
  - cbn [decode_bits]. rewrite (proj2 (Z.leb_le 8 bits)) by done.
    destruct (put_ok out j (Z.land (Z.shiftr value (bits - 8)) 0xff)) as (out' & -> & El); [lia|].
    cbn [mbind outcome_bind]. rewrite (proj2 (Z.leb_gt 8 (bits - 8))) by lia.
    eexists _, _, _. split_and!; [done|lia|lia|done|lia].
  - rewrite decode_bits_stop by lia. eexists _, _, _. split_and!; [done|lia|lia|done|lia].
Qed.

Lemma decode_table c : 0 ≤ c ≤ 0x7f → ∃ d, decode c = Ret d.
Proof.
  intros Hc. unfold decode. destruct (lookup_lt_is_Some_2 kBase64DecTable (Z.to_nat c)) as [d Hd].
  - change (length kBase64DecTable) with 128%nat. lia.
  - rewrite Hd. by eexists.
Qed.

Lemma decode_loop_ok input : byte_list input → ∀ value bits out j, 0 ≤ bits < 8 →
  Z.of_nat j * 8 + bits + 6 * Z.of_nat (length input) < Z.of_nat (length out) * 8 + 8 →
  ∃ bits' out' j', decode_loop input value bits out j = Ret (bits', out', j') ∧
    length out' = length out ∧ (j' <= length out')%nat.
Proof.
  induction 1 as [|c input Hc Hin IH]; intros value bits out j Hb Hj; cbn [decode_loop length] in *.
  - eexists _, _, _. split_and!; [done|done|lia].
  - destruct (Z.ltb_spec 0x7f c); [apply IH; lia|].
    destruct (Z.eqb_spec c kPad); [eexists _, _, _; split_and!; [done|done|lia]|].
    destruct (decode_table c) as [d ->]; [lia|]. cbn [mbind outcome_bind].
    destruct (Z.eqb_spec (u8 d) 255); [apply IH; lia|].
    destruct (decode_bits_ok (Z.lor (u32 (Z.shiftl value 6)) (u8 d)) (bits + 6) out j) as (b' & o' & j' & -> & Hb' & El & Ej); [lia|lia|].
    cbn [mbind outcome_bind]. rewrite <-El. apply IH; lia.
Qed.

(** base64Decode accepts any string: whatever bytes it is given, no access is out
    of range, and the result fits the space it set aside. *)
Theorem base64Decode_safe lim l : byte_list l → room lim ((length l + 3) / 4 * 3) →
  ∃ r b, base64Decode lim l = Ret (r, b) ∧ (length r <= (length l + 3) / 4 * 3)%nat.
Proof.
  intros Hl Hroom. destruct (decode_loop_ok l Hl 0 0 (replicate ((length l + 3) / 4 * 3) 0) 0) as (b & o & j & E & El & Hj).
  - lia.
  - rewrite length_replicate. pose proof (Nat.div_mod_eq (length l + 3) 4). pose proof (Nat.mod_upper_bound (length l + 3) 4 ltac:(lia)). lia.
  - unfold base64Decode. rewrite resize_decoded by done. cbn [mbind outcome_bind]. rewrite E. cbn [mbind outcome_bind]. eexists _, _. split; [done|]. rewrite length_take, El, length_replicate. lia.
Qed.

Lemma base64Decode_safe_witness : ∃ r b, base64Decode demo_lim [255; 61; 7; 84] = Ret (r, b) ∧ (length r <= 3)%nat.
Proof. apply (base64Decode_safe demo_lim [255; 61; 7; 84]); [repeat constructor; lia|split; cbn; [lia|split; cbn; lia]]. Defined.
End Base64.
