(* ===== verification/CacheMap.v ===== *)
(** util/EvictingCacheMap.h: the least-recently-used cache. Its nodes live in a
    heap of their own and are threaded through an index (an intrusive hash set)
    and a list in order of use. The index is an interface, IntrusiveIndex, which
    states what boost::intrusive::unordered_set promises; the list of
    boost::intrusive is a list of nodes. The prune hook is the caller's: it
    changes the caller's world and may throw. *)
From S2P Require Import Prelude.

(** ** What the index promises *)

Class IntrusiveIndex (K : Type) (I : Type) := {
  ix_empty : I;
  ix_find : K → I → option Z;
  ix_insert : K → Z → I → I;
  ix_erase : K → I → I;
  ix_size : I → nat
}.

Class IntrusiveIndexLaws (K I : Type) `{IntrusiveIndex K I} := {
  ix_find_empty : ∀ k, ix_find k ix_empty = None;
  ix_find_insert : ∀ k a i, ix_find k i = None → ix_find k (ix_insert k a i) = Some a;
  ix_find_insert_ne : ∀ k k' a i, k ≠ k' → ix_find k' (ix_insert k a i) = ix_find k' i;
  ix_find_erase : ∀ k i, ix_find k (ix_erase k i) = None;
  ix_find_erase_ne : ∀ k k' i, k ≠ k' → ix_find k' (ix_erase k i) = ix_find k' i;
  ix_size_empty : ix_size ix_empty = 0%nat;
  ix_size_insert : ∀ k a i, ix_find k i = None → ix_size (ix_insert k a i) = S (ix_size i);
  ix_size_erase : ∀ k i, is_Some (ix_find k i) → S (ix_size (ix_erase k i)) = ix_size i
}.

(** A finite map is such an index. *)
#[global] Instance gmap_index {K} `{Countable K} : IntrusiveIndex K (gmap K Z) := {
  ix_empty := ∅;
  ix_find k m := m !! k;
  ix_insert k a m := if m !! k then m else <[k := a]> m;
  ix_erase k m := delete k m;
  ix_size m := size m
}.

#[global] Instance gmap_index_laws {K} `{Countable K} : IntrusiveIndexLaws K (gmap K Z).
Proof.
  split; cbn.
  - done.
  - intros k a i ->. by rewrite lookup_insert_eq.
  - intros k k' a i Hne. destruct (i !! k); [done|by rewrite lookup_insert_ne].
  - intros k i. by rewrite lookup_delete_eq.
  - intros k k' i Hne. by rewrite lookup_delete_ne.
  - done.
  - intros k a i E. rewrite E. by rewrite map_size_insert_None.
  - intros k i [a E]. rewrite map_size_delete_Some by eauto. assert (size i ≠ 0%nat); [|lia].
    intros E0%map_size_empty_inv. by rewrite E0 in E.
Qed.

Module EvictingCacheMap.
Section cache.
Context {K V W I : Type} `{EqDecision K} `{IntrusiveIndex K I}.

(** A hook: what it makes of the caller's world, and whether it throws. *)
Definition PruneHookCall : Type := K → V → W → W * bool.

Record Node := mk_Node { key : K; value : V }.

Record cache := mk_cache {
  nodes : gmap Z Node;              (* allocated nodes *)
  nextNode : Z;                     (* where operator new puts the next one *)
  pruneHook_ : option PruneHookCall;
  index_ : I;
  lru_ : list Z;                    (* most recently used first *)
  maxSize_ : Z;
  clearSize_ : Z
}.

Definition set_nodes x c := mk_cache x (nextNode c) (pruneHook_ c) (index_ c) (lru_ c) (maxSize_ c) (clearSize_ c).
Definition set_index x c := mk_cache (nodes c) (nextNode c) (pruneHook_ c) x (lru_ c) (maxSize_ c) (clearSize_ c).
Definition set_lru x c := mk_cache (nodes c) (nextNode c) (pruneHook_ c) (index_ c) x (maxSize_ c) (clearSize_ c).

(** EvictingCacheMap(maxSize, clearSize) *)
Definition create (maxSize clearSize : Z) : cache := mk_cache ∅ 1 None ix_empty [] maxSize clearSize.

(** index_.size() and index_.empty() *)
Definition size (c : cache) : Z := Z.of_nat (ix_size (index_ c)).
Definition empty (c : cache) : bool := size c =? 0.

Definition findInIndex (k : K) (c : cache) : option Z := ix_find k (index_ c).
Definition exists_ (k : K) (c : cache) : bool := if findInIndex k c then true else false.

(** An iterator is the node it points to. *)
Definition node_at (a : Z) (c : cache) : outcome Node := of_option Undefined (nodes c !! a).

(** lru_.erase(lru_.iterator_to( *node)) and lru_.push_front( *node) *)
Definition lru_erase (a : Z) (c : cache) : cache := set_lru (filter (fun x => x ≠ a) (lru_ c)) c.
Definition lru_push_front (a : Z) (c : cache) : cache := set_lru (a :: lru_ c) c.

Definition find (k : K) (c : cache) : option Z * cache :=
  match findInIndex k c with
  | None => (None, c)
  | Some it => (Some it, lru_push_front it (lru_erase it c))
  end.

Definition get (k : K) (c : cache) : outcome (V * cache) :=
  let '(it, c) := find k c in
  match it with
  | None => Err (Thrown "out_of_range")
  | Some a => n ← node_at a c; Ret (value n, c)
  end.

Definition findWithoutPromotion (k : K) (c : cache) : option Z := findInIndex k c.

Definition getWithoutPromotion (k : K) (c : cache) : outcome V :=
  match findWithoutPromotion k c with
  | None => Err (Thrown "out_of_range")
  | Some a => n ← node_at a c; Ret (value n)
  end.

(** The node is freed on return. *)
Definition erase (k : K) (c : cache) : outcome (bool * cache) :=
  match findInIndex k c with
  | None => Ret (false, c)
  | Some a =>
      n ← node_at a c;
      let c := lru_erase a c in
      let c := set_index (ix_erase (key n) (index_ c)) c in
      Ret (true, set_nodes (delete a (nodes c)) c)
  end.

(** pruneWithFailSafeOption: the loop is bounded by the list as well as by
    pruneSize. The exception of a hook ends it. *)
Fixpoint prune_loop (n : nat) (ph : option PruneHookCall) (failSafe : bool) (c : cache) (w : W)
    : outcome (cache * W * bool) :=
  match n with
  | O => Ret (c, w, false)
  | S n =>
      match list.last (lru_ c) with
      | None => Ret (c, w, false)
      | Some a =>
          nd ← node_at a c;
          let c := lru_erase a c in
          let c := set_index (ix_erase (key nd) (index_ c)) c in
          let c := set_nodes (delete a (nodes c)) c in
          match ph with
          | None => prune_loop n ph failSafe c w
          | Some f =>
              let '(w, throws) := f (key nd) (value nd) w in
              if throws && negb failSafe then Ret (c, w, true) else prune_loop n ph failSafe c w
          end
      end
  end.

Definition pruneWithFailSafeOption (pruneSize : Z) (pruneHook : option PruneHookCall) (failSafe : bool)
    (c : cache) (w : W) : outcome (cache * W * bool) :=
  prune_loop (Z.to_nat pruneSize) (match pruneHook with None => pruneHook_ c | Some f => Some f end) failSafe c w.

Definition prune (pruneSize : Z) (pruneHook : option PruneHookCall) (c : cache) (w : W) :=
  pruneWithFailSafeOption pruneSize pruneHook false c w.

Definition clear (pruneHook : option PruneHookCall) (c : cache) (w : W) := prune (size c) pruneHook c w.

Definition setPruneHook (f : option PruneHookCall) (c : cache) : cache :=
  mk_cache (nodes c) (nextNode c) f (index_ c) (lru_ c) (maxSize_ c) (clearSize_ c).

Definition setClearSize (n : Z) (c : cache) : cache :=
  mk_cache (nodes c) (nextNode c) (pruneHook_ c) (index_ c) (lru_ c) (maxSize_ c) n.

Definition getMaxSize (c : cache) : Z := maxSize_ c.

(** An exception of the hook leaves maxSize_ as it was. The difference does not
    wrap: the condition says that maxSize < size(). *)
Definition setMaxSize (maxSize : Z) (pruneHook : option PruneHookCall) (c : cache) (w : W)
    : outcome (cache * W * bool) :=
  '(c, w, threw) ←
    (if negb (maxSize =? 0) && (maxSize <? size c)
     then prune (Z.max (size c - maxSize) (clearSize_ c)) pruneHook c w
     else Ret (c, w, false));
  if threw : bool then Ret (c, w, true) else
  Ret (mk_cache (nodes c) (nextNode c) (pruneHook_ c) (index_ c) (lru_ c) maxSize (clearSize_ c), w, false).

Definition set (k : K) (v : V) (promote : bool) (pruneHook : option PruneHookCall) (c : cache) (w : W)
    : outcome (cache * W * bool) :=
  match findInIndex k c with
  | Some a =>
      n ← node_at a c;
      let c := set_nodes (<[a := mk_Node (key n) v]> (nodes c)) c in
      Ret (if promote then lru_push_front a (lru_erase a c) else c, w, false)
  | None =>
      let a := nextNode c in
      let c := mk_cache (<[a := mk_Node k v]> (nodes c)) (a + 1) (pruneHook_ c) (ix_insert k a (index_ c))
                 (lru_ c) (maxSize_ c) (clearSize_ c) in
      let c := lru_push_front a c in
      if (0 <? maxSize_ c) && (maxSize_ c <? size c) then prune (clearSize_ c) pruneHook c w
      else Ret (c, w, false)
  end.

(** ~EvictingCacheMap *)
Definition destroy (c : cache) (w : W) : outcome (cache * W * bool) :=
  let c := setPruneHook None c in
  pruneWithFailSafeOption (size c) None true c w.

(** ** The specification: a list of pairs, most recently used first *)

Record lru := mk_lru {
  items : list (K * V);
  s_hook : option PruneHookCall;
  s_max : Z;
  s_clear : Z
}.

Fixpoint assoc (k : K) (l : list (K * V)) : option V :=
  match l with [] => None | (k', v) :: l => if decide (k' = k) then Some v else assoc k l end.
Definition without (k : K) (l : list (K * V)) : list (K * V) := filter (fun kv => kv.1 ≠ k) l.
Definition replaced (k : K) (v : V) (l : list (K * V)) : list (K * V) :=
  (fun kv => if decide (kv.1 = k) then (kv.1, v) else kv) <$> l.

(** Eviction, least recently used first: [r] is the list from its other end. *)
Fixpoint evict (n : nat) (ph : option PruneHookCall) (failSafe : bool) (r : list (K * V)) (w : W)
    : list (K * V) * W * bool :=
  match n, r with
  | O, _ | _, [] => (r, w, false)
  | S n, (k, v) :: r =>
      match ph with
      | None => evict n ph failSafe r w
      | Some f => let '(w, throws) := f k v w in
                  if throws && negb failSafe then (r, w, true) else evict n ph failSafe r w
      end
  end.

Definition with_items (l : list (K * V)) (s : lru) : lru := mk_lru l (s_hook s) (s_max s) (s_clear s).

Definition s_prune (n : Z) (ph : option PruneHookCall) (s : lru) (w : W) : lru * W * bool :=
  let '(r, w, t) := evict (Z.to_nat n) (match ph with None => s_hook s | Some f => Some f end) false
                      (reverse (items s)) w in
  (with_items (reverse r) s, w, t).

Inductive op :=
| OGet (k : K) | OPeek (k : K) | OExists (k : K) | OErase (k : K)
| OSet (k : K) (v : V) (promote : bool) (ph : option PruneHookCall)
| OPrune (n : Z) (ph : option PruneHookCall) | OClear (ph : option PruneHookCall)
| OSetMaxSize (n : Z) (ph : option PruneHookCall) | OSetClearSize (n : Z) | OSetPruneHook (ph : option PruneHookCall)
| OSize.

(** What a call returns; [RThrown] is out_of_range, [RHook b] says whether a hook's
    exception left the call. *)
Inductive res := RValue (v : V) | RThrown | RBool (b : bool) | RHook (b : bool) | RNum (n : Z) | RUnit.

Definition s_exec (o : op) (s : lru) (w : W) : res * lru * W :=
  match o with
  | OGet k => match assoc k (items s) with
              | Some v => (RValue v, with_items ((k, v) :: without k (items s)) s, w)
              | None => (RThrown, s, w)
              end
  | OPeek k => (match assoc k (items s) with Some v => RValue v | None => RThrown end, s, w)
  | OExists k => (RBool (if assoc k (items s) then true else false), s, w)
  | OErase k => match assoc k (items s) with
                | Some _ => (RBool true, with_items (without k (items s)) s, w)
                | None => (RBool false, s, w)
                end
  | OSet k v promote ph =>
      match assoc k (items s) with
      | Some _ => (RHook false, with_items (if promote then (k, v) :: without k (items s)
                                            else replaced k v (items s)) s, w)
      | None =>
          let s := with_items ((k, v) :: items s) s in
          if (0 <? s_max s) && (s_max s <? Z.of_nat (length (items s)))
          then let '(s, w, t) := s_prune (s_clear s) ph s w in (RHook t, s, w)
          else (RHook false, s, w)
      end
  | OPrune n ph => let '(s, w, t) := s_prune n ph s w in (RHook t, s, w)
  | OClear ph => let '(s, w, t) := s_prune (Z.of_nat (length (items s))) ph s w in (RHook t, s, w)
  | OSetMaxSize n ph =>
      let '(s, w, t) :=
        if negb (n =? 0) && (n <? Z.of_nat (length (items s)))
        then s_prune (Z.max (Z.of_nat (length (items s)) - n) (s_clear s)) ph s w else (s, w, false) in
      if t : bool then (RHook true, s, w) else (RHook false, mk_lru (items s) (s_hook s) n (s_clear s), w)
  | OSetClearSize n => (RUnit, mk_lru (items s) (s_hook s) (s_max s) n, w)
  | OSetPruneHook ph => (RUnit, mk_lru (items s) ph (s_max s) (s_clear s), w)
  | OSize => (RNum (Z.of_nat (length (items s))), s, w)
  end.

(** The calls of the class. *)
Definition exec (o : op) (c : cache) (w : W) : outcome (res * cache * W) :=
  match o with
  | OGet k => match get k c with
              | Ret (v, c) => Ret (RValue v, c, w)
              | Err (Thrown _) => Ret (RThrown, c, w)
              | Err e => Err e
              end
  | OPeek k => match getWithoutPromotion k c with
               | Ret v => Ret (RValue v, c, w)
               | Err (Thrown _) => Ret (RThrown, c, w)
               | Err e => Err e
               end
  | OExists k => Ret (RBool (exists_ k c), c, w)
  | OErase k => '(b, c) ← erase k c; Ret (RBool b, c, w)
  | OSet k v promote ph => '(c, w, t) ← set k v promote ph c w; Ret (RHook t, c, w)
  | OPrune n ph => '(c, w, t) ← prune n ph c w; Ret (RHook t, c, w)
  | OClear ph => '(c, w, t) ← clear ph c w; Ret (RHook t, c, w)
  | OSetMaxSize n ph => '(c, w, t) ← setMaxSize n ph c w; Ret (RHook t, c, w)
  | OSetClearSize n => Ret (RUnit, setClearSize n c, w)
  | OSetPruneHook ph => Ret (RUnit, setPruneHook ph c, w)
  | OSize => Ret (RNum (size c), c, w)
  end.

Fixpoint run (os : list op) (c : cache) (w : W) : outcome (list res * cache * W) :=
  match os with
  | [] => Ret ([], c, w)
  | o :: os => '(r, c, w) ← exec o c w; '(rs, c, w) ← run os c w; Ret (r :: rs, c, w)
  end.
Fixpoint s_run (os : list op) (s : lru) (w : W) : list res * lru * W :=
  match os with
  | [] => ([], s, w)
  | o :: os => let '(r, s, w) := s_exec o s w in let '(rs, s, w) := s_run os s w in (r :: rs, s, w)
  end.
End cache.

(** ** Refinement *)

Section refinement.
Context {K V W I : Type} `{EqDecision K} `{Hix : IntrusiveIndex K I} `{!IntrusiveIndexLaws K I}.
Implicit Types (c : @cache K V W I) (m : gmap Z (@Node K V)).

Definition pair_of (n : @Node K V) : K * V := (key n, value n).
Definition view m (l : list Z) : list (K * V) := omap (fun a => pair_of <$> m !! a) l.
#[local] Arguments view : simpl never.
#[local] Arguments without : simpl never.
Definition abs c : @lru K V W := mk_lru (view (nodes c) (lru_ c)) (pruneHook_ c) (maxSize_ c) (clearSize_ c).

(** Every node is in the list once and in the index under its key. *)
Record wf c : Prop := {
  wf_nodup : NoDup (lru_ c);
  wf_nodes : ∀ a, is_Some (nodes c !! a) ↔ a ∈ lru_ c;
  wf_next : ∀ a n, nodes c !! a = Some n → a < nextNode c;
  wf_index : ∀ k a, ix_find k (index_ c) = Some a ↔ ∃ n, nodes c !! a = Some n ∧ key n = k;
  wf_size : ix_size (index_ c) = length (lru_ c)
}.

Lemma view_cons m a n l : m !! a = Some n → view m (a :: l) = pair_of n :: view m l.
Proof. intros E. unfold view. cbn. by rewrite E. Qed.

Lemma view_app m l l' : view m (l ++ l') = view m l ++ view m l'.
Proof. apply omap_app. Qed.

Lemma view_length m l : (∀ a, a ∈ l → is_Some (m !! a)) → length (view m l) = length l.
Proof.
  induction l as [|a l IH]; intros Hin; [done|]. destruct (Hin a) as [n Hn]; [by left|].
  rewrite (view_cons m a n l Hn). cbn. rewrite IH; [done|]. intros b Hb. apply Hin. by right.
Qed.

Lemma view_ext m m' l : (∀ a, a ∈ l → m' !! a = m !! a) → view m' l = view m l.
Proof.
  induction l as [|a l IH]; intros Hin; [done|]. unfold view in *. cbn. rewrite Hin by by left. rewrite IH; [done|].
  intros b Hb. apply Hin. by right.
Qed.

Lemma filter_notin (a : Z) (l : list Z) : a ∉ l → filter (fun x => x ≠ a) l = l.
Proof. induction l as [|b l IH]; intros Hn; [done|]. rewrite filter_cons_True by set_solver. f_equal. apply IH. set_solver. Qed.

(** Keys tell nodes apart. *)
Lemma wf_key c a b n n' : wf c → nodes c !! a = Some n → nodes c !! b = Some n' → key n = key n' → a = b.
Proof.
  intros Hwf Ha Hb E. assert (ix_find (key n) (index_ c) = Some a) as E1 by (apply (wf_index c Hwf); eauto).
  assert (ix_find (key n) (index_ c) = Some b) as E2 by (apply (wf_index c Hwf); eauto). congruence.
Qed.

Lemma view_without c a n l : wf c → nodes c !! a = Some n → (∀ x, x ∈ l → is_Some (nodes c !! x)) →
  view (nodes c) (filter (fun x => x ≠ a) l) = without (key n) (view (nodes c) l).
Proof.
  intros Hwf Ha. induction l as [|x l IH]; intros Hin; [done|].
  destruct (Hin x) as [nx Hx]; [by left|]. rewrite (view_cons _ x nx l Hx). unfold without. destruct (decide (x = a)) as [->|Hne].
  - rewrite filter_cons_False by (intros H; by apply H). rewrite filter_cons_False; [apply IH; intros y Hy; apply Hin; by right|].
    assert (nx = n) as -> by congruence. intros E. by apply E.
  - rewrite filter_cons_True by done. rewrite filter_cons_True.
    + rewrite (view_cons _ x nx _ Hx). f_equal. apply IH. intros y Hy. apply Hin. by right.
    + cbn. intros E. apply Hne. by eapply wf_key.
Qed.

Lemma view_assoc c k : wf c → assoc k (view (nodes c) (lru_ c)) =
  (a ← ix_find k (index_ c); value <$> nodes c !! a).
Proof.
  intros Hwf. assert (∀ l, (∀ a, a ∈ l → is_Some (nodes c !! a)) →
    (∀ a n, nodes c !! a = Some n → key n = k → a ∈ l → assoc k (view (nodes c) l) = Some (value n)) ∧
    ((∀ a n, nodes c !! a = Some n → a ∈ l → key n ≠ k) → assoc k (view (nodes c) l) = None)) as Hl.
  { induction l as [|x l IH]; intros Hin; [split; [intros a n _ _ []%elem_of_nil|done]|].
    destruct (Hin x) as [nx Hx]; [by left|]. rewrite (view_cons _ x nx l Hx). cbn.
    destruct IH as [IH1 IH2]; [intros y Hy; apply Hin; by right|]. split.
    - intros a n Ha Hk Hal. destruct (decide (key nx = k)) as [E|E].
      + f_equal. assert (x = a) as -> by (apply (wf_key c x a nx n); congruence). congruence.
      + apply (IH1 a n); [done..|]. apply elem_of_cons in Hal as [->|]; [congruence|done].
    - intros Hno. rewrite decide_False; [|apply (Hno x); [done|by left]]. apply IH2.
      intros a n Ha Hal. apply (Hno a); [done|by right]. }
  destruct (Hl (lru_ c)) as [H1 H2]; [by intros a Ha; apply wf_nodes|].
  destruct (ix_find k (index_ c)) as [a|] eqn:E; cbn.
  - apply (wf_index c Hwf) in E as (n & Hn & Hk). rewrite Hn. cbn. apply (H1 a); [done..|]. apply (wf_nodes c Hwf). eauto.
  - apply H2. intros a n Ha _ Hk. assert (ix_find k (index_ c) = Some a) by (apply (wf_index c Hwf); eauto). congruence.
Qed.

Lemma assoc_abs c k : wf c → assoc k (items (abs c)) = (a ← ix_find k (index_ c); value <$> nodes c !! a).
Proof. apply view_assoc. Qed.

Lemma abs_length c : wf c → Z.of_nat (length (items (abs c))) = size c.
Proof.
  intros Hwf. cbn. rewrite view_length; [|by intros a Ha; apply wf_nodes]. unfold size. by rewrite (wf_size c Hwf).
Qed.

Lemma erase_perm (a : Z) (l : list Z) : NoDup l → a ∈ l → l ≡ₚ a :: filter (fun x => x ≠ a) l.
Proof.
  induction 1 as [|b l Hb Hnd IH]; intros Hin; [by apply elem_of_nil in Hin|].
  destruct (decide (b = a)) as [->|Hne].
  - rewrite filter_cons_False by (intros E; by apply E). by rewrite filter_notin.
  - rewrite filter_cons_True by done. rewrite Permutation_swap. f_equiv. apply IH. set_solver.
Qed.

(** Only the order of use matters to [wf] as a permutation. *)
Lemma wf_reorder c l : wf c → l ≡ₚ lru_ c → wf (set_lru l c).
Proof.
  intros [H1 H2 H3 H4 H5] Hp. split; cbn; try done.
  - by rewrite Hp.
  - intros a. rewrite Hp. apply H2.
  - by rewrite Hp.
Qed.

Lemma wf_in c a n : wf c → nodes c !! a = Some n → a ∈ lru_ c.
Proof. intros Hwf Ha. apply (wf_nodes c Hwf). eauto. Qed.

Lemma wf_promote c a n : wf c → nodes c !! a = Some n →
  wf (lru_push_front a (lru_erase a c)) ∧
  abs (lru_push_front a (lru_erase a c)) = with_items (pair_of n :: without (key n) (items (abs c))) (abs c).
Proof.
  intros Hwf Ha. change (lru_push_front a (lru_erase a c)) with (set_lru (a :: filter (fun x => x ≠ a) (lru_ c)) c).
  split.
  - apply wf_reorder; [done|]. symmetry. apply erase_perm; [apply Hwf|by eapply wf_in].
  - unfold abs, with_items; cbn. f_equal. rewrite (view_cons _ a n _ Ha). f_equal.
    apply view_without; [done..|]. intros x. apply (wf_nodes c Hwf).
Qed.

(** What erase and the loop of prune do to one node. *)
Definition drop_node (a : Z) (n : @Node K V) c : cache :=
  set_nodes (delete a (nodes c)) (set_index (ix_erase (key n) (index_ c)) (lru_erase a c)).

Lemma wf_drop c a n : wf c → nodes c !! a = Some n →
  wf (drop_node a n c) ∧ abs (drop_node a n c) = with_items (without (key n) (items (abs c))) (abs c).
Proof.
  intros Hwf Ha. pose proof Hwf as [H1 H2 H3 H4 H5]. pose proof (wf_in c a n Hwf Ha) as Hin. split.
  - split; cbn.
    + by apply NoDup_filter.
    + intros b. rewrite lookup_delete_is_Some, list_elem_of_filter, H2. naive_solver.
    + intros b nb [_ Hb]%lookup_delete_Some. by eapply H3.
    + intros k b. destruct (decide (key n = k)) as [<-|Hk].
      * rewrite ix_find_erase. split; [done|]. intros (nb & [Hne Hb]%lookup_delete_Some & E).
        destruct Hne. by eapply (wf_key c a b n nb).
      * rewrite ix_find_erase_ne by done. rewrite H4. split; intros (nb & Hb & E); exists nb; split; try done.
        -- rewrite lookup_delete_ne; [done|]. intros ->. congruence.
        -- by apply lookup_delete_Some in Hb as [_ ?].
    + assert (S (ix_size (ix_erase (key n) (index_ c))) = ix_size (index_ c)) as E.
      { apply ix_size_erase. exists a. apply H4. eauto. }
      pose proof (Permutation_length (erase_perm a (lru_ c) H1 Hin)) as El. cbn in El. lia.
  - unfold abs, with_items; cbn. f_equal.
    transitivity (view (nodes c) (filter (fun x => x ≠ a) (lru_ c))); [|apply view_without; [done..|intros x; apply H2]].
    apply view_ext. intros x [Hx _]%list_elem_of_filter. by rewrite lookup_delete_ne.
Qed.

Lemma wf_new c k v : wf c → ix_find k (index_ c) = None →
  let a := nextNode c in
  let c' := lru_push_front a (mk_cache (<[a := mk_Node k v]> (nodes c)) (a + 1) (pruneHook_ c)
              (ix_insert k a (index_ c)) (lru_ c) (maxSize_ c) (clearSize_ c)) in
  wf c' ∧ abs c' = with_items ((k, v) :: items (abs c)) (abs c).
Proof.
  intros Hwf Hk a c'. pose proof Hwf as [H1 H2 H3 H4 H5].
  assert (nodes c !! a = None) as Ha.
  { destruct (nodes c !! a) as [n|] eqn:E; [|done]. pose proof (H3 a n E). lia. }
  assert (a ∉ lru_ c) as Hal by (intros [n E]%H2; by rewrite Ha in E). split.
  - split; cbn.
    + by apply NoDup_cons.
    + intros b. rewrite lookup_insert_is_Some', elem_of_cons, H2. naive_solver.
    + intros b n [[<- _]|[_ Hb]]%lookup_insert_Some; [lia|]. pose proof (H3 b n Hb). lia.
    + intros k' b. destruct (decide (k = k')) as [<-|Hne].
      * rewrite ix_find_insert by done. split; [intros [= <-]; eexists; by rewrite lookup_insert_eq|].
        intros (n & [[<- _]|[_ Hb]]%lookup_insert_Some & E); [done|].
        assert (ix_find k (index_ c) = Some b) by (apply H4; eauto). congruence.
      * rewrite ix_find_insert_ne by done. rewrite H4. split; intros (n & Hb & E).
        -- exists n. rewrite lookup_insert_ne; [done|]. congruence.
        -- apply lookup_insert_Some in Hb as [[<- <-]|[_ Hb]]; [done|eauto].
    + rewrite ix_size_insert by done. by rewrite H5.
  - unfold abs, with_items; cbn. f_equal. erewrite view_cons by apply lookup_insert_eq. f_equal.
    apply view_ext. intros b Hb. rewrite lookup_insert_ne; [done|]. by intros ->.
Qed.

Lemma wf_assign c a n v : wf c → nodes c !! a = Some n →
  let c' := set_nodes (<[a := mk_Node (key n) v]> (nodes c)) c in
  wf c' ∧ abs c' = with_items (replaced (key n) v (items (abs c))) (abs c).
Proof.
  intros Hwf Ha c'. pose proof Hwf as [H1 H2 H3 H4 H5]. split.
  - split; cbn; try done.
    + intros b. rewrite lookup_insert_is_Some', H2. pose proof (wf_in c a n Hwf Ha). naive_solver.
    + intros b nb [[<- _]|[_ Hb]]%lookup_insert_Some; by eapply H3.
    + intros k b. rewrite H4. split; intros (nb & Hb & E).
      * destruct (decide (b = a)) as [->|Hne]; [|exists nb; by rewrite lookup_insert_ne].
        eexists. rewrite lookup_insert_eq. split; [done|]. cbn. congruence.
      * apply lookup_insert_Some in Hb as [[<- <-]|[_ Hb]]; eauto.
  - unfold abs, with_items; cbn. f_equal.
    assert (∀ l, (∀ x, x ∈ l → is_Some (nodes c !! x)) →
      view (<[a := mk_Node (key n) v]> (nodes c)) l = replaced (key n) v (view (nodes c) l)) as Hl.
    { induction l as [|x l IH]; intros Hin; [done|]. destruct (Hin x) as [nx Hx]; [by left|].
      rewrite (view_cons _ x nx l Hx). cbn. destruct (decide (x = a)) as [->|Hne].
      - erewrite view_cons by apply lookup_insert_eq. assert (nx = n) as -> by congruence.
        rewrite decide_True by done. cbn. f_equal. apply IH. intros y Hy. apply Hin. by right.
      - rewrite (view_cons _ x nx) by (by rewrite lookup_insert_ne). rewrite decide_False.
        + f_equal. apply IH. intros y Hy. apply Hin. by right.
        + intros E. apply Hne. by apply (wf_key c x a nx n). }
    apply Hl. intros x. apply H2.
Qed.

(** Dropping the last node takes the last pair away. *)
Lemma drop_last c a l n : wf c → lru_ c = l ++ [a] → nodes c !! a = Some n →
  reverse (items (abs c)) = pair_of n :: reverse (items (abs (drop_node a n c))).
Proof.
  intros Hwf El Ha. rewrite (proj2 (wf_drop c a n Hwf Ha)). cbn [items with_items abs].
  rewrite <-(view_without c a n); [|done|done|intros x; apply (wf_nodes c Hwf)]. rewrite El, list.filter_app.
  pose proof (wf_nodup c Hwf) as Hnd. rewrite El in Hnd. apply NoDup_app in Hnd as (_ & Hd & _).
  rewrite filter_notin; [|intros Hin; apply (Hd a Hin); by left].
  rewrite filter_cons_False by (intros E; by apply E). rewrite filter_nil, app_nil_r, view_app, reverse_app.
  by rewrite (view_cons _ a n [] Ha).
Qed.

Lemma prune_refines n ph fs : ∀ c w, wf c →
  ∃ c', wf c' ∧ let '(r, w', t) := evict n ph fs (reverse (items (abs c))) w in
    prune_loop n ph fs c w = Ret (c', w', t) ∧ abs c' = with_items (reverse r) (abs c).
Proof.
  assert (∀ c, abs c = with_items (reverse (reverse (items (abs c)))) (abs c)) as Hid.
  { intros c. by rewrite reverse_involutive. }
  induction n as [|n IH]; intros c w Hwf; [by exists c|]. cbn [prune_loop].
  destruct (list.last (lru_ c)) as [a|] eqn:El.
  - apply last_Some in El as [l El]. destruct (proj2 (wf_nodes c Hwf a)) as [nd Ha]; [rewrite El; set_solver|].
    unfold node_at. rewrite Ha. cbn [of_option mbind outcome_bind].
    change (set_nodes _ _) with (drop_node a nd c). rewrite (drop_last c a l nd Hwf El Ha). cbn [evict pair_of].
    destruct (wf_drop c a nd Hwf Ha) as [Hwf' Ed].
    assert (∀ r, with_items r (abs (drop_node a nd c)) = with_items r (abs c)) as Hw by (intros r; by rewrite Ed).
    destruct ph as [f|].
    + destruct (f (key nd) (value nd) w) as [w1 t1]. destruct (t1 && negb fs) eqn:Et.
      * exists (drop_node a nd c). split; [done|]. split; [done|]. rewrite <-Hw. apply Hid.
      * destruct (IH (drop_node a nd c) w1 Hwf') as (c' & H1 & H2). exists c'. split; [done|].
        revert H2. destruct (evict n _ fs _ w1) as [[r w'] t]. by rewrite Hw.
    + destruct (IH (drop_node a nd c) w Hwf') as (c' & H1 & H2). exists c'. split; [done|].
      revert H2. destruct (evict n _ fs _ w) as [[r w'] t]. by rewrite Hw.
  - apply last_None in El. exists c. split; [done|]. unfold abs; cbn. rewrite El. cbn. split; [done|]. by unfold with_items; cbn.
Qed.

Lemma prune_spec n ph c w : wf c → ∃ c', wf c' ∧
  let '(s, w', t) := s_prune n ph (abs c) w in prune n ph c w = Ret (c', w', t) ∧ abs c' = s.
Proof.
  intros Hwf. unfold prune, pruneWithFailSafeOption, s_prune.
  destruct (prune_refines (Z.to_nat n) (match ph with None => pruneHook_ c | Some f => Some f end) false c w Hwf) as (c' & H1 & H2).
  exists c'. split; [done|]. cbn [s_hook abs]. by destruct (evict _ _ _ _ w) as [[r w'] t].
Qed.

Lemma set_refines k v promote ph c w : wf c → ∃ c', wf c' ∧
  let '(r, s, w') := s_exec (OSet k v promote ph) (abs c) w in
  exec (OSet k v promote ph) c w = Ret (r, c', w') ∧ abs c' = s.
Proof.
  intros Hwf. cbn [s_exec exec]. rewrite (assoc_abs c k Hwf). unfold set, findInIndex.
  destruct (ix_find k (index_ c)) as [a|] eqn:E; cbn [mbind option_bind].
  - apply (wf_index c Hwf) in E as (n & Hn & Hk). unfold node_at. rewrite Hn. cbn.
    destruct (wf_assign c a n v Hwf Hn) as [Hwf1 E1]. set (c1 := set_nodes _ c) in *. rewrite <-Hk.
    destruct promote; [|exists c1; done].
    destruct (wf_promote c1 a (mk_Node (key n) v) Hwf1) as [Hwf2 E2]; [cbn; by rewrite lookup_insert_eq|].
    eexists. split; [exact Hwf2|]. split; [done|]. rewrite E2, E1. unfold with_items, pair_of; cbn. f_equal. f_equal.
    unfold without, replaced. generalize (view (nodes c) (lru_ c)) as l.
    induction l as [|[k' v'] l IH]; [done|]. cbn [fmap list_fmap].
    destruct (decide ((k', v').1 = key n)) as [Ek|Ek]; [by rewrite !filter_cons_False by (cbn in *; naive_solver)|].
    rewrite !filter_cons_True by done. by f_equal.
  - destruct (wf_new c k v Hwf E) as [Hwf1 E1]. cbn zeta in *. set (c1 := lru_push_front _ _) in *.
    rewrite <-E1. rewrite <-(abs_length c1 Hwf1).
    change (s_max (with_items _ _)) with (maxSize_ c1). change (maxSize_ c1) with (s_max (abs c1)).
    destruct (_ && _); [|exists c1; done].
    destruct (prune_spec (clearSize_ c1) ph c1 w Hwf1) as (c' & H1 & H2). exists c'. split; [done|].
    change (s_clear (abs c1)) with (clearSize_ c1). destruct (s_prune _ _ (abs c1) w) as [[s w'] t]. destruct H2 as [-> <-]. done.
Qed.

Lemma cache_exec_refines o c w : wf c → ∃ c', wf c' ∧
  let '(r, s, w') := s_exec o (abs c) w in exec o c w = Ret (r, c', w') ∧ abs c' = s.
Proof.
  intros Hwf. destruct o as [k|k|k|k|k v pr ph|n ph|ph|n ph|n|ph|].
  - cbn [s_exec exec]. rewrite (assoc_abs c k Hwf). unfold get, find, findInIndex.
    destruct (ix_find k (index_ c)) as [a|] eqn:E; cbn [mbind option_bind]; [|by exists c].
    apply (wf_index c Hwf) in E as (n & Hn & <-). rewrite Hn. cbn. unfold node_at; cbn. rewrite Hn. cbn.
    destruct (wf_promote c a n Hwf Hn) as [H1 H2]. eexists. split; [exact H1|]. split; [done|]. exact H2.
  - exists c. split; [done|]. cbn [s_exec exec]. rewrite (assoc_abs c k Hwf). split; [|done].
    unfold getWithoutPromotion, findWithoutPromotion, findInIndex.
    destruct (ix_find k (index_ c)) as [a|] eqn:E; cbn [mbind option_bind]; [|done].
    apply (wf_index c Hwf) in E as (n & Hn & <-). unfold node_at. by rewrite Hn.
  - exists c. split; [done|]. cbn [s_exec exec]. rewrite (assoc_abs c k Hwf). unfold exists_, findInIndex. split; [|done].
    destruct (ix_find k (index_ c)) as [a|] eqn:E; cbn [mbind option_bind]; [|done].
    apply (wf_index c Hwf) in E as (n & Hn & <-). by rewrite Hn.
  - cbn [s_exec exec]. rewrite (assoc_abs c k Hwf). unfold erase, findInIndex.
    destruct (ix_find k (index_ c)) as [a|] eqn:E; cbn [mbind option_bind outcome_bind]; [|by exists c].
    apply (wf_index c Hwf) in E as (n & Hn & <-). unfold node_at. rewrite Hn. cbn.
    destruct (wf_drop c a n Hwf Hn) as [H1 H2]. exists (drop_node a n c). split; [done|]. split; [done|]. exact H2.
  - by apply set_refines.
  - cbn [s_exec exec]. destruct (prune_spec n ph c w Hwf) as (c' & H1 & H2). exists c'. split; [done|].
    destruct (s_prune n ph (abs c) w) as [[s w'] t]. by destruct H2 as [-> <-].
  - cbn [s_exec exec]. unfold clear. rewrite (abs_length c Hwf).
    destruct (prune_spec (size c) ph c w Hwf) as (c' & H1 & H2). exists c'. split; [done|].
    destruct (s_prune (size c) ph (abs c) w) as [[s w'] t]. by destruct H2 as [-> <-].
  - cbn [s_exec exec]. unfold setMaxSize. rewrite (abs_length c Hwf). destruct (_ && _).
    + destruct (prune_spec (Z.max (size c - n) (clearSize_ c)) ph c w Hwf) as (c' & H1 & H2).
      change (s_clear (abs c)) with (clearSize_ c).
      destruct (s_prune _ ph (abs c) w) as [[s w'] t]. destruct H2 as [-> <-]. cbn. destruct t; [by exists c'|].
      eexists. split; [|done]. by destruct H1.
    + eexists. split; [|done]. by destruct Hwf.
  - eexists. split; [|done]. by destruct Hwf.
  - eexists. split; [|done]. by destruct Hwf.
  - exists c. split; [done|]. cbn [s_exec exec]. by rewrite (abs_length c Hwf).
Qed.

Lemma wf_create ms cs : wf (create ms cs).
Proof.
  split; cbn; try done; [constructor|intros a; rewrite lookup_empty; set_solver| |apply ix_size_empty].
  intros k a. rewrite ix_find_empty. split; [done|]. by intros (? & ? & _).
Qed.

(** C37. Refinement: whatever sequence of calls is made on a new cache, no call faults,
    and every result, the list of pairs in the order of their use, every call of
    a prune hook and every exception a hook lets out are those of the
    specification: a list of pairs with the most recently used first from whose
    end pairs are evicted. *)
Theorem cache_refines os maxSize clearSize w : ∃ c', wf c' ∧
  let '(rs, s, w') := s_run os (mk_lru [] None maxSize clearSize) w in
  run os (create maxSize clearSize) w = Ret (rs, c', w') ∧ abs c' = s.
Proof.
  set (c0 := create maxSize clearSize). change (mk_lru [] None maxSize clearSize) with (abs c0).
  generalize (wf_create maxSize clearSize : wf c0). generalize c0 as c. clear c0.
  revert w. induction os as [|o os IH]; intros w c Hwf; [by exists c|]. cbn [run s_run].
  destruct (cache_exec_refines o c w Hwf) as (c1 & Hwf1 & H1). destruct (s_exec o (abs c) w) as [[r s] w1].
  destruct H1 as [-> <-]. cbn [mbind outcome_bind]. destruct (IH w1 c1 Hwf1) as (c2 & Hwf2 & H2). exists c2. split; [done|].
  destruct (s_run os (abs c1) w1) as [[rs s2] w2]. by destruct H2 as [-> <-].
Qed.

(** ** The bound *)

Lemma evict_length n (ph : option (@PruneHookCall K V W)) fs r w : let '(r', _, t) := evict n ph fs r w in
  (length r' <= length r)%nat ∧ (n ≠ 0%nat → r ≠ [] → (length r' < length r)%nat) ∧
  (t = false → (length r' <= length r - n)%nat).
Proof.
  revert r w. induction n as [|n IH]; intros r w; cbn; [split_and!; (done || lia)|].
  destruct r as [|[k v] r]; [cbn; split_and!; (done || lia)|]. destruct ph as [f|].
  - destruct (f k v w) as [w1 t1]. destruct (t1 && negb fs); [cbn; split_and!; (done || lia)|].
    specialize (IH r w1). destruct (evict n _ fs r w1) as [[r' w'] t]. cbn. destruct IH as (? & _ & IH3).
    split_and!; [lia|lia|]. intros Ht. specialize (IH3 Ht). lia.
  - specialize (IH r w). destruct (evict n _ fs r w) as [[r' w'] t]. cbn. destruct IH as (? & _ & IH3).
    split_and!; [lia|lia|]. intros Ht. specialize (IH3 Ht). lia.
Qed.

Definition bounded (s : @lru K V W) : Prop :=
  1 ≤ s_clear s ∧ 0 ≤ s_max s ∧ (s_max s = 0 ∨ Z.of_nat (length (items s)) ≤ s_max s).

(** The calls that keep the parameters sensible. *)
Definition sensible (o : @op K V W) : Prop :=
  match o with OSetMaxSize n _ => 0 ≤ n | OSetClearSize n => 1 ≤ n | _ => True end.

Lemma s_prune_length n ph (s : @lru K V W) w : let '(s', _, t) := s_prune n ph s w in
  (length (items s') <= length (items s))%nat ∧ (1 ≤ n → items s ≠ [] → (length (items s') < length (items s))%nat) ∧
  (t = false → 0 ≤ n → Z.of_nat (length (items s')) ≤ Z.max 0 (Z.of_nat (length (items s)) - n)) ∧
  s_max s' = s_max s ∧ s_clear s' = s_clear s.
Proof.
  unfold s_prune. pose proof (evict_length (Z.to_nat n) (match ph with None => s_hook s | Some f => Some f end) false
    (reverse (items s)) w) as H. destruct (evict _ _ _ _ w) as [[r w'] t]. cbn. rewrite !length_reverse in *.
  destruct H as (H1 & H2 & H3). split_and!; [done| | |done|done].
  - intros Hn Hs. apply H2; [lia|]. intros E. apply Hs. apply (f_equal reverse) in E. by rewrite reverse_involutive in E.
  - intros Ht Hn. specialize (H3 Ht). lia.
Qed.

Lemma without_length k (l : list (K * V)) : (length (without k l) <= length l)%nat.
Proof. apply length_filter. Qed.

Lemma assoc_without k v (l : list (K * V)) : assoc k l = Some v → (length (without k l) < length l)%nat.
Proof.
  induction l as [|[k' v'] l IH]; [done|]. cbn. unfold without in *. case_decide as E.
  - intros _. rewrite filter_cons_False by (cbn; naive_solver). pose proof (without_length k l). unfold without in *. lia.
  - intros H. rewrite filter_cons_True by done. cbn. specialize (IH H). lia.
Qed.

Lemma exec_bounded o (s : @lru K V W) w : bounded s → sensible o → bounded (s_exec o s w).1.2.
Proof.
  intros (B1 & B2 & B3) Ho. destruct o as [k|k|k|k|k v pr ph|n ph|ph|n ph|n|ph|]; cbn [s_exec]; try done.
  - destruct (assoc k (items s)) eqn:E; cbn; [|done]. split_and!; [done|done|]. cbn.
    pose proof (assoc_without k v (items s) E). lia.
  - destruct (assoc k (items s)) eqn:E; cbn; [|done]. split_and!; [done|done|]. cbn.
    pose proof (without_length k (items s)). lia.
  - destruct (assoc k (items s)) eqn:E; cbn [fst snd].
    + split_and!; [done|done|]. cbn. destruct pr; [pose proof (assoc_without k v0 (items s) E); cbn; lia|].
      unfold replaced. by rewrite length_fmap.
    + destruct (_ && _) eqn:Ec.
      * apply andb_prop in Ec as [Ec1%Z.ltb_lt Ec2%Z.ltb_lt]. cbn in Ec1, Ec2.
        pose proof (s_prune_length (s_clear (with_items ((k, v) :: items s) s)) ph (with_items ((k, v) :: items s) s) w) as H.
        destruct (s_prune _ _ _ w) as [[s' w'] t]. destruct H as (_ & H2 & _ & H4 & H5). cbn in *.
        split_and!; [lia|lia|]. right. specialize (H2 B1 ltac:(done)). lia.
      * split_and!; [done|done|]. cbn. apply andb_false_iff in Ec as [Ec%Z.ltb_ge|Ec%Z.ltb_ge]; cbn in Ec; lia.
  - pose proof (s_prune_length n ph s w) as H. destruct (s_prune n ph s w) as [[s' w'] t].
    destruct H as (H1 & _ & _ & H4 & H5). cbn. split_and!; lia.
  - pose proof (s_prune_length (Z.of_nat (length (items s))) ph s w) as H. destruct (s_prune _ ph s w) as [[s' w'] t].
    destruct H as (H1 & _ & _ & H4 & H5). cbn. split_and!; lia.
  - cbn in Ho. destruct (_ && _) eqn:Ec.
    + apply andb_prop in Ec as [Ec1%negb_true_iff%Z.eqb_neq Ec2%Z.ltb_lt].
      pose proof (s_prune_length (Z.max (Z.of_nat (length (items s)) - n) (s_clear s)) ph s w) as H.
      destruct (s_prune _ ph s w) as [[s' w'] t]. destruct H as (H1 & H2 & H3 & H4 & H5).
      destruct t; cbn; split_and!; cbn; try lia; try done.
    + cbn. split_and!; cbn; [done|done|]. apply andb_false_iff in Ec as [Ec%negb_false_iff%Z.eqb_eq|Ec%Z.ltb_ge]; lia.
Qed.

(** The bound: as long as clear sizes are at least 1, a cache with a maximum size
    never has more entries than it between calls, also when prune hooks throw. *)
Theorem cache_bounded os maxSize clearSize w :
  0 ≤ maxSize → 1 ≤ clearSize → Forall sensible os →
  ∃ rs (c' : cache) w', run os (create maxSize clearSize) w = Ret (rs, c', w') ∧
    (maxSize_ c' = 0 ∨ size c' ≤ maxSize_ c').
Proof.
  intros Hm Hc Hos. set (c0 := create maxSize clearSize : @cache K V W I).
  assert (bounded (abs c0)) as Hb by (split_and!; [done|done|right; exact Hm]).
  generalize (wf_create maxSize clearSize : wf c0). clearbody c0. revert w c0 Hb.
  induction Hos as [|o os Ho Hos IH]; intros w c Hb Hwf.
  - exists [], c, w. split; [done|]. destruct Hb as (_ & _ & Hb). by rewrite (abs_length c Hwf) in Hb.
  - cbn [run]. pose proof (exec_bounded o (abs c) w Hb Ho) as Hb1.
    destruct (cache_exec_refines o c w Hwf) as (c1 & Hwf1 & H1). destruct (s_exec o (abs c) w) as [[r s] w1].
    destruct H1 as [-> E]. cbn in Hb1. rewrite <-E in Hb1. cbn [mbind outcome_bind].
    destruct (IH w1 c1 Hb1 Hwf1) as (rs & c2 & w2 & -> & H2). exists (r :: rs), c2, w2. done.
Qed.

(** The destructor frees every node, whatever the hooks were. *)
Theorem destroy_frees c w : wf c → ∃ c', destroy c w = Ret (c', w, false) ∧ nodes c' = ∅ ∧ lru_ c' = [].
Proof.
  intros Hwf. unfold destroy, pruneWithFailSafeOption. set (c1 := setPruneHook None c).
  assert (wf c1) as Hwf1 by (by destruct Hwf).
  destruct (prune_refines (Z.to_nat (size c1)) None true c1 w Hwf1) as (c' & Hwf' & H).
  assert (∀ n (r : list (K * V)), evict n None true r w = (drop n r, w, false)) as Hev.
  { induction n as [|n IH]; intros r; [done|]. destruct r as [|[k v] r]; [done|]. apply IH. }
  rewrite Hev in H. destruct H as [E1 E2]. exists c'. change (pruneHook_ c1) with (@None (@PruneHookCall K V W)). split; [done|].
  rewrite <-(abs_length c1 Hwf1), Nat2Z.id in E2. rewrite drop_ge in E2 by (by rewrite length_reverse).
  assert (lru_ c' = []) as El.
  { pose proof (abs_length c' Hwf') as E. rewrite E2 in E. cbn in E. unfold size in E. rewrite (wf_size c' Hwf') in E.
    destruct (lru_ c'); [done|cbn in E; lia]. }
  split; [|done]. apply map_empty. intros a. destruct (nodes c' !! a) as [n|] eqn:Ea; [|done].
  pose proof (wf_in c' a n Hwf' Ea) as Hin. rewrite El in Hin. by apply elem_of_nil in Hin.
Qed.
End refinement.

(** ** Witnesses *)

Section demo.
Definition log_hook : @PruneHookCall Z Z (list Z) := fun k v w => (k :: w, false).
Definition demo_ops : list (@op Z Z (list Z)) :=
  [OSetPruneHook (Some log_hook); OSet 1 10 true None; OSet 2 20 true None; OGet 1; OSet 3 30 true None; OPeek 2; OSize].

Example cache_demo_run : ∃ c : @cache Z Z (list Z) (gmap Z Z), run demo_ops (create 2 1) [] =
  Ret ([RUnit; RHook false; RHook false; RValue 10; RHook false; RThrown; RNum 2], c, [2]).
Proof. eexists. vm_compute. reflexivity. Qed.

Lemma cache_refines_witness : ∃ c' : @cache Z Z (list Z) (gmap Z Z), wf c' ∧
  let '(rs, s, w') := s_run demo_ops (mk_lru [] None 2 1) [] in
  run demo_ops (create 2 1) [] = Ret (rs, c', w') ∧ abs c' = s.
Proof. apply (cache_refines demo_ops 2 1 []). Defined.

Lemma cache_bounded_witness : ∃ rs (c' : @cache Z Z (list Z) (gmap Z Z)) w',
  run demo_ops (create 2 1) [] = Ret (rs, c', w') ∧ (maxSize_ c' = 0 ∨ size c' ≤ maxSize_ c').
Proof. apply (cache_bounded demo_ops 2 1 []); [lia|lia|repeat constructor]. Defined.

Lemma destroy_frees_witness : ∃ c' : @cache Z Z (list Z) (gmap Z Z), destroy (create 2 1) [] = Ret (c', [], false) ∧ nodes c' = ∅ ∧ lru_ c' = [].
Proof. apply (destroy_frees (create 2 1 : @cache Z Z (list Z) (gmap Z Z)) []). apply wf_create. Defined.
End demo.
End EvictingCacheMap.
