(* ===== verification/Arena.v ===== *)
(** util/Arena.h and Arena.cpp: memory handed out from blocks, and given back all at once. What malloc returns is an
    argument of the calls; the model keeps the blocks that were obtained. *)
From S2P Require Import Prelude.

Module Arena.

(** sizeof(Block): a link, aligned to 16. *)
Definition BLOCK_OVERHEAD : Z := 16.
Definition MIN_BLOCK_SIZE : Z := 4096 - BLOCK_OVERHEAD.

(** A block: where malloc put it, and how many bytes malloc gave. *)
Record block := mk_block { mem : Z; msize : Z }.
Definition start (b : block) : Z := mem b + BLOCK_OVERHEAD.

Record arena := mk_arena {
  blocks_ : list block;
  ptr_ : Z;
  end_ : Z;
  totalAllocatedSize_ : Z;
  bytesUsed_ : Z;
  minBlockSize_ : Z
}.
Definition new (minBlockSize : Z) : arena := mk_arena [] 0 0 0 0 minBlockSize.

(** size_t roundUp(size_t size) const *)
Definition roundUp (size : Z) : Z := Z.land (u64 (size + 15)) (u64 (Z.lnot 15)).

(** Block::allocate(size): [m] is what malloc(sizeof(Block) + size) returns. The sum is a size_t; a Block does
    not fit into fewer bytes than its size. *)
Definition block_request (size : Z) : Z := u64 (BLOCK_OVERHEAD + size).
Definition block_allocate (m : option Z) (size : Z) : outcome (block * Z) :=
  match m with
  | None => Err (Thrown "bad_alloc")
  | Some a =>
      _ ← check (BLOCK_OVERHEAD <=? block_request size) Undefined;
      Ret (mk_block a (block_request size), size)
  end.

(** void* allocateSlow(size_t size) *)
Definition allocateSlow (m : option Z) (size : Z) (a : arena) : outcome (Z * arena) :=
  if minBlockSize_ a <? size then
    '(b, n) ← block_allocate m size;
    Ret (start b, mk_arena (blocks_ a ++ [b]) (ptr_ a) (end_ a) (u64 (totalAllocatedSize_ a + (n + BLOCK_OVERHEAD))) (bytesUsed_ a) (minBlockSize_ a))
  else
    '(b, n) ← block_allocate m (minBlockSize_ a);
    Ret (start b, mk_arena (b :: blocks_ a) (start b + size) (start b + n) (u64 (totalAllocatedSize_ a + (n + BLOCK_OVERHEAD))) (bytesUsed_ a) (minBlockSize_ a)).

(** void* allocate(size_t size) *)
Definition allocate (m : option Z) (size : Z) (a : arena) : outcome (Z * arena) :=
  let size := roundUp size in
  let a := mk_arena (blocks_ a) (ptr_ a) (end_ a) (totalAllocatedSize_ a) (u64 (bytesUsed_ a + size)) (minBlockSize_ a) in
  if size <=? u64 (end_ a - ptr_ a) then
    Ret (ptr_ a, mk_arena (blocks_ a) (ptr_ a + size) (end_ a) (totalAllocatedSize_ a) (bytesUsed_ a) (minBlockSize_ a))
  else allocateSlow m size a.

Definition totalSize (sizeof_Arena : Z) (a : arena) : Z := u64 (totalAllocatedSize_ a + sizeof_Arena).
Definition bytesUsed (a : arena) : Z := bytesUsed_ a.

(** ~Arena(): the blocks are freed from the front. *)
Definition destroy (a : arena) : list Z := map mem (blocks_ a).

(** A client: calls of allocate in a row, with the pieces it got. *)
Definition piece : Type := Z * Z.
Fixpoint allocates (calls : list (option Z * Z)) (a : arena) (got : list piece) : outcome (list piece * arena) :=
  match calls with
  | [] => Ret (got, a)
  | (m, size) :: calls => '(p, a) ← allocate m size a; allocates calls a (got ++ [(p, size)])
  end.

(** ** What malloc promises: 16-byte alignment, and memory that is not in use *)
Definition block_end (b : block) : Z := mem b + msize b.
Definition block_ok (b : block) : Prop := 0 < mem b ∧ mem b mod 16 = 0 ∧ 0 ≤ msize b ∧ block_end b < 2 ^ 64.
Definition blocks_apart (x y : block) : Prop := block_end x ≤ mem y ∨ block_end y ≤ mem x.
(** How much allocate asks malloc for, if it asks. *)
Definition wanted (size : Z) (a : arena) : Z := block_request (Z.max (roundUp size) (minBlockSize_ a)).
Definition malloc_ok (m : option Z) (size : Z) (a : arena) : Prop :=
  match m with
  | None => True
  | Some x => block_ok (mk_block x (wanted size a)) ∧ Forall (blocks_apart (mk_block x (wanted size a))) (blocks_ a)
  end.
Fixpoint mallocs_ok (calls : list (option Z * Z)) (a : arena) : Prop :=
  match calls with
  | [] => True
  | (m, size) :: calls => malloc_ok m size a ∧ match allocate m size a with Ret (_, a) => mallocs_ok calls a | Err _ => True end
  end.
(** Sizes whose rounding and header do not overflow, see [arena_wraps]. *)
Definition size_ok (size : Z) : Prop := 1 ≤ size ≤ 2 ^ 64 - 32.
Definition min_ok (minBlockSize : Z) : Prop := 0 ≤ minBlockSize < 2 ^ 64 - 16.

Lemma roundUp_eq size : 0 ≤ size < 2 ^ 64 - 15 → roundUp size = 16 * ((size + 15) / 16).
Proof.
  intros Hs. unfold roundUp. rewrite (u64_small (size + 15)) by lia.
  replace (u64 (Z.lnot 15)) with (Z.land (Z.ones 64) (Z.lnot 15)) by reflexivity. rewrite Z.land_assoc, Z.land_ones, Z.mod_small by lia.
  change 15 with (Z.ones 4) at 2. rewrite <- Z.ldiff_land, Z.ldiff_ones_r by lia. rewrite Z.shiftl_mul_pow2, Z.shiftr_div_pow2 by lia. change (2 ^ 4) with 16. lia.
Qed.
Lemma roundUp_fits size : size_ok size → size ≤ roundUp size ∧ roundUp size mod 16 = 0 ∧ 16 ≤ roundUp size ≤ 2 ^ 64 - 32.
Proof.
  intros H. unfold size_ok in H. rewrite roundUp_eq by lia. pose proof (Z.div_mod (size + 15) 16). pose proof (Z.mod_pos_bound (size + 15) 16).
  split; [lia|]. split; [rewrite Z.mul_comm; apply Z.mod_mul; lia|]. lia.
Qed.

Lemma block_request_eq n : 0 ≤ n < 2 ^ 64 - 16 → block_request n = 16 + n.
Proof. intros Hn. unfold block_request, BLOCK_OVERHEAD. rewrite u64_small; lia. Qed.

(** ** The invariant *)
Definition apart (x y : piece) : Prop := x.1 + x.2 ≤ y.1 ∨ y.1 + y.2 ≤ x.1.
Fixpoint all_apart (l : list piece) : Prop := match l with [] => True | x :: l => Forall (apart x) l ∧ all_apart l end.
Definition inside (x : piece) (b : block) : Prop := start b ≤ x.1 ∧ x.1 + x.2 ≤ block_end b.

Record ok (a : arena) (got : list piece) : Prop := {
  ok_min : min_ok (minBlockSize_ a);
  ok_blocks : Forall block_ok (blocks_ a);
  ok_pieces : Forall (fun x => x.1 mod 16 = 0 ∧ 1 ≤ x.2 ∧ ∃ b, b ∈ blocks_ a ∧ inside x b) got;
  ok_apart : all_apart got;
  (** The bytes from ptr_ to end_ are of a block, if there are any, and of no piece. *)
  ok_free : ptr_ a mod 16 = 0 ∧ (ptr_ a = 0 ∧ end_ a = 0 ∨ ∃ b, b ∈ blocks_ a ∧ start b ≤ ptr_ a ≤ end_ a ∧ end_ a = block_end b);
  ok_unused : Forall (fun x => x.1 + x.2 ≤ ptr_ a ∨ end_ a ≤ x.1) got
}.

Lemma all_apart_snoc l x : all_apart l → Forall (fun y => apart y x) l → all_apart (l ++ [x]).
Proof.
  induction l as [|y l IH]; cbn; [by repeat constructor|]. intros [Hy Hl] Hx. inversion Hx; subst. split; [|by apply IH].
  apply Forall_app. split; [done|]. constructor; [done|constructor].
Qed.

(** A piece in a new block is apart from every old one. *)
Lemma new_block_apart a got b x : ok a got → block_ok b → Forall (blocks_apart b) (blocks_ a) → inside x b → Forall (fun y => apart y x) got.
Proof.
  intros H [Hb _] Hap [H1 H2]. eapply Forall_impl; [apply (ok_pieces _ _ H)|]. intros y (_ & _ & c & Hc & H3 & H4).
  rewrite list.Forall_forall in Hap. pose proof (Hap c Hc) as Hbc. pose proof (ok_blocks _ _ H) as Hbs. rewrite list.Forall_forall in Hbs. destruct (Hbs c Hc).
  unfold apart, blocks_apart, block_end, start, BLOCK_OVERHEAD in *. lia.
Qed.

Lemma aligned_start b : block_ok b → start b mod 16 = 0.
Proof. intros (_ & H & _). unfold start, BLOCK_OVERHEAD. replace (mem b + 16) with (mem b + 1 * 16) by lia. by rewrite Z.mod_add. Qed.

Section step.
Context (a : arena) (got : list piece) (size : Z).
Hypothesis H : ok a got.
Hypothesis Hs : size_ok size.

Lemma add_piece a' p : ok a' got → p mod 16 = 0 → (∃ b, b ∈ blocks_ a' ∧ inside (p, size) b) → Forall (fun y => apart y (p, size)) got →
  p + size ≤ ptr_ a' ∨ end_ a' ≤ p → ok a' (got ++ [(p, size)]).
Proof.
  intros [H1 H2 H3 H4 H5 H6] Hp Hin Hap Hu. split; try done.
  - apply Forall_app. split; [done|]. constructor; [|constructor]. split; [done|]. split; [apply Hs|done].
  - by apply all_apart_snoc.
  - apply Forall_app. split; [done|]. by constructor.
Qed.

(** From what is left of the current block. *)
Lemma take_free : roundUp size <= end_ a - ptr_ a → ok (mk_arena (blocks_ a) (ptr_ a + roundUp size) (end_ a) (totalAllocatedSize_ a) (u64 (bytesUsed_ a + roundUp size)) (minBlockSize_ a)) (got ++ [(ptr_ a, size)]).
Proof.
  intros Hle. destruct (roundUp_fits size Hs) as (Hr & Hm & Hb). destruct H as [H1 H2 H3 H4 [H5 H5'] H6]. destruct H5' as [[E1 E2]|(b & Hbk & Hpe & He)]; [lia|].
  apply add_piece; cbn [ptr_ end_ blocks_]; [|done| | |lia].
  - split; cbn; try done.
    + split; [rewrite Z.add_mod, H5, Hm by lia; done|]. right. exists b. split; [done|]. lia.
    + eapply Forall_impl; [exact H6|]. cbn. lia.
  - exists b. split; [done|]. unfold inside. cbn. lia.
  - eapply Forall_impl; [exact H6|]. unfold apart. cbn. intros [p n] Hx. cbn in *. destruct Hs. lia.
Qed.

(** From a block of its own, and from a new current block. *)
Lemma take_large m : minBlockSize_ a < roundUp size → let b := mk_block m (16 + roundUp size) in block_ok b → Forall (blocks_apart b) (blocks_ a) →
  ∀ t u, ok (mk_arena (blocks_ a ++ [b]) (ptr_ a) (end_ a) t u (minBlockSize_ a)) (got ++ [(start b, size)]).
Proof.
  intros Hlt b Hb Hap t u. destruct (roundUp_fits size Hs) as (Hr & _). assert (inside (start b, size) b) as Hin by (unfold inside, block_end, start, BLOCK_OVERHEAD; cbn; lia).
  pose proof (new_block_apart a got b _ H Hb Hap Hin) as Hnew. destruct H as [H1 H2 H3 H4 [H5 H5'] H6]. apply add_piece; cbn [ptr_ end_ blocks_]; [|by apply aligned_start| |done|].
  - split; cbn; try done.
    + apply Forall_app. split; [done|]. by constructor.
    + eapply Forall_impl; [exact H3|]. intros x (? & ? & c & Hc & ?). split; [done|]. split; [done|]. exists c. split; [set_solver|done].
    + split; [done|]. destruct H5' as [?|(c & Hc & ?)]; [by left|right]. exists c. split; [set_solver|done].
  - exists b. split; [set_solver|done].
  - destruct H5' as [[E1 E2]|(c & Hc & Hpe & E2)]; [right; destruct Hb; unfold start, BLOCK_OVERHEAD; cbn in *; lia|].
    rewrite list.Forall_forall in Hap. pose proof (Hap c Hc) as Hbc. rewrite list.Forall_forall in H2. destruct (H2 c Hc), Hb.
    unfold blocks_apart, block_end, start, BLOCK_OVERHEAD in *. cbn in *. lia.
Qed.
Lemma take_block m : roundUp size ≤ minBlockSize_ a → let b := mk_block m (16 + minBlockSize_ a) in block_ok b → Forall (blocks_apart b) (blocks_ a) →
  ∀ t u, ok (mk_arena (b :: blocks_ a) (start b + roundUp size) (start b + minBlockSize_ a) t u (minBlockSize_ a)) (got ++ [(start b, size)]).
Proof.
  intros Hle b Hb Hap t u. destruct (roundUp_fits size Hs) as (Hr & Hm & _). assert (inside (start b, size) b) as Hin by (unfold inside, block_end, start, BLOCK_OVERHEAD; cbn; lia).
  pose proof (new_block_apart a got b _ H Hb Hap Hin) as Hnew. pose proof H as [H1 H2 H3 H4 _ _]. apply add_piece; cbn [ptr_ end_ blocks_]; [|by apply aligned_start| |done|lia].
  - split; cbn; try done.
    + by constructor.
    + eapply Forall_impl; [exact H3|]. intros x (? & ? & c & Hc & ?). split; [done|]. split; [done|]. exists c. split; [set_solver|done].
    + split; [rewrite Z.add_mod, aligned_start, Hm by (done || lia); done|]. right. exists b. split; [set_solver|]. unfold block_end, start, BLOCK_OVERHEAD. cbn. destruct Hs. lia.
    + pose proof (new_block_apart a got b (start b, minBlockSize_ a) H Hb Hap) as Hfree. eapply Forall_impl; [apply Hfree; unfold inside, block_end, start, BLOCK_OVERHEAD; cbn; lia|].
      unfold apart. cbn. destruct Hs. lia.
  - exists b. split; [set_solver|done].
Qed.

Lemma allocate_ok m : malloc_ok m size a →
  (m = None ∧ allocate m size a = Err (Thrown "bad_alloc")) ∨ ∃ p a', allocate m size a = Ret (p, a') ∧ ok a' (got ++ [(p, size)]).
Proof.
  intros Hm. destruct (roundUp_fits size Hs) as (Hr & _ & Hb). unfold allocate. cbn [ptr_ end_ blocks_].
  assert (u64 (end_ a - ptr_ a) = end_ a - ptr_ a) as ->.
  { apply u64_small. destruct (ok_free _ _ H) as [_ [[E1 E2]|(b & Hbk & Hpe & He)]]; [lia|]. pose proof (ok_blocks _ _ H) as Hbs.
    rewrite list.Forall_forall in Hbs. destruct (Hbs b Hbk) as (? & _ & _ & ?). unfold start, BLOCK_OVERHEAD in *. lia. }
  destruct (Z.leb_spec (roundUp size) (end_ a - ptr_ a)); [right; eexists _, _; split; [done|by apply take_free]|].
  unfold allocateSlow. cbn [minBlockSize_ blocks_ ptr_ end_ totalAllocatedSize_ bytesUsed_]. destruct m as [x|]; [right|left; split; [done|]; by destruct (_ <? _)].
  destruct Hm as [Hbk Hap]. unfold wanted in *. pose proof (ok_min _ _ H) as Hmin. unfold min_ok in Hmin.
  destruct (Z.ltb_spec (minBlockSize_ a) (roundUp size)).
  - rewrite Z.max_l, block_request_eq in * by lia. unfold block_allocate. rewrite block_request_eq, (proj2 (Z.leb_le _ _)) by (unfold BLOCK_OVERHEAD; lia).
    eexists _, _. split; [reflexivity|]. by apply take_large.
  - rewrite Z.max_r, block_request_eq in * by lia. unfold block_allocate. rewrite block_request_eq, (proj2 (Z.leb_le _ _)) by (unfold BLOCK_OVERHEAD; lia).
    eexists _, _. split; [reflexivity|]. by apply take_block.
Qed.
End step.

Lemma new_ok minBlockSize : min_ok minBlockSize → ok (new minBlockSize) [].
Proof. intros Hm. split; cbn; try done; try constructor; auto. Qed.

Lemma allocates_ok calls : Forall (fun c => size_ok c.2) calls → ∀ a got, ok a got → mallocs_ok calls a →
  (allocates calls a got = Err (Thrown "bad_alloc") ∧ None ∈ map fst calls) ∨
  ∃ got' a', allocates calls a got = Ret (got ++ got', a') ∧ map snd got' = map snd calls ∧ ok a' (got ++ got').
Proof.
  induction 1 as [|[m size] calls Hs _ IH]; intros a got Hok Hm; [right; exists [], a; by rewrite app_nil_r|]. cbn in *. destruct Hm as [Hm1 Hm2].
  destruct (allocate_ok a got size Hok Hs m Hm1) as [[-> E]|(p & a1 & E & Hok1)]; rewrite E in *; cbn; [left; split; [done|set_solver]|].
  destruct (IH a1 _ Hok1 Hm2) as [[-> Hin]|(got' & a' & -> & Hg & Hok')]; [left; split; [done|set_solver]|right].
  exists ((p, size) :: got'), a'. rewrite <- app_assoc in Hok'. cbn in *. rewrite <- app_assoc. cbn. rewrite Hg. done.
Qed.

(** C38. The pieces of memory that an arena hands out: with blocks of any size below 2^64 - 16, and whatever aligned and unused memory of the size asked for malloc returns, calls of
    allocate in any number and of any sizes from 1 to 2^64 - 32 return pieces of the sizes asked for, each aligned to 16 bytes and
    within the memory of one block behind its header, and no two of them overlap; the only other end is bad_alloc, when malloc fails. *)
Theorem arena_pieces minBlockSize calls :
  min_ok minBlockSize → Forall (fun c => size_ok c.2) calls → mallocs_ok calls (new minBlockSize) →
  (allocates calls (new minBlockSize) [] = Err (Thrown "bad_alloc") ∧ None ∈ map fst calls) ∨
  ∃ got a, allocates calls (new minBlockSize) [] = Ret (got, a) ∧ map snd got = map snd calls ∧ all_apart got ∧
    Forall (fun x => x.1 mod 16 = 0 ∧ ∃ b, b ∈ blocks_ a ∧ inside x b) got.
Proof.
  intros Hmin Hs Hm. destruct (allocates_ok calls Hs (new minBlockSize) [] (new_ok _ Hmin) Hm) as [?|(got & a & E & Hg & Hok)]; [by left|right].
  exists got, a. split; [done|]. split; [done|]. split; [apply (ok_apart _ _ Hok)|]. eapply Forall_impl; [apply (ok_pieces _ _ Hok)|]. naive_solver.
Qed.

(** A size within 15 bytes of the largest size_t is rounded up to zero: the piece has no bytes, and no memory is
    asked for. *)
Theorem roundUp_wraps : roundUp (2 ^ 64 - 1) = 0 ∧ allocate None (2 ^ 64 - 1) (new MIN_BLOCK_SIZE) = Ret (0, new MIN_BLOCK_SIZE).
Proof. split; vm_compute; reflexivity. Qed.

(** From 2^64 - 31 to 2^64 - 16 the size of the header is added with overflow: malloc is asked for fewer bytes than
    a header has, and its success is the beginning of writes outside the memory it gave. *)
Theorem arena_wraps size x : 2 ^ 64 - 31 ≤ size ≤ 2 ^ 64 - 16 →
  block_request (roundUp size) = 0 ∧ allocate (Some x) size (new MIN_BLOCK_SIZE) = Err Undefined.
Proof.
  intros Hs. assert (E : roundUp size = 2 ^ 64 - 16) by (rewrite roundUp_eq by lia; pose proof (Z.div_mod (size + 15) 16); pose proof (Z.mod_pos_bound (size + 15) 16); lia).
  unfold allocate. rewrite E. by split; vm_compute.
Qed.

(** Three pieces in a block of 64 bytes and in a second one, and a large one. *)
Definition demo_calls : list (option Z * Z) := [(Some 4096, 20); (None, 32); (Some 8192, 1); (Some 16384, 1000)].
Lemma arena_pieces_witness : ∃ a, allocates demo_calls (new 64) [] = Ret ([(4112, 20); (4144, 32); (8208, 1); (16400, 1000)], a) ∧
  all_apart [(4112, 20); (4144, 32); (8208, 1); (16400, 1000)].
Proof.
  assert (mallocs_ok demo_calls (new 64)) as Hm.
  { vm_compute. intuition (try discriminate); repeat constructor; vm_compute; intuition discriminate. }
  destruct (arena_pieces 64 demo_calls) as [[E _]|(got & a & E & _ & Ha & _)]; [unfold min_ok; lia|repeat constructor; vm_compute; congruence|done|vm_compute in E; discriminate E|].
  exists a. assert (got = [(4112, 20); (4144, 32); (8208, 1); (16400, 1000)]) as ->; [|by split].
  vm_compute in E. congruence.
Defined.
End Arena.
