(* ===== verification/Strings.v ===== *)
(** util/String.h, String-inl.h, String.cpp: hexadecimal text, splitting and joining,
    trimming, and the lowercasing that converts eight characters at a time. A character
    is its byte, 0 .. 255; where the code reads it as a char it is sign-extended. *)
From S2P Require Import Prelude Range.

Module Strings.
Local Notation len l := (Z.of_nat (length l)).

(** A char read as an int. *)
Definition as_char (b : Z) : Z := if b <? 128 then b else b - 256.

(** ** hexlify, unhexlify *)

Definition hexValues : list Z := [48; 49; 50; 51; 52; 53; 54; 55; 56; 57; 97; 98; 99; 100; 101; 102].

(** The loop of hexlify: two characters of the output for each of the input. *)
Fixpoint hexlify_loop (input : list Z) (j : Z) (output : list Z) : outcome (list Z) :=
  match input with
  | [] => Ret output
  | b :: r =>
      let ch := as_char b in
      hi ← vget hexValues (Z.land (Z.shiftr ch 4) 15);
      output ← vset output j hi;
      lo ← vget hexValues (Z.land ch 15);
      output ← vset output (j + 1) lo;
      hexlify_loop r (j + 2) output
  end.
Definition hexlify (input output : list Z) (append_output : bool) : outcome (bool * list Z) :=
  let output := if append_output then output else [] in
  out ← hexlify_loop input (len output) (vresize output (2 * len input + len output) 0);
  Ret (true, out).

(** int unhex(char c) *)
Definition unhex (c : Z) : Z :=
  let c := as_char c in
  if (48 <=? c) && (c <=? 57) then c - 48
  else if (65 <=? c) && (c <=? 70) then c - 65 + 10
  else if (97 <=? c) && (c <=? 102) then c - 97 + 10
  else -1.
(** The loop of unhexlify; j is an int. *)
Fixpoint unhexlify_loop (input : list Z) (j : Z) (output : list Z) : outcome (bool * list Z) :=
  match input with
  | h :: l :: r =>
      let highBits := unhex h in
      let lowBits := unhex l in
      if (highBits <? 0) || (lowBits <? 0) then Ret (false, output)
      else
        _ ← check (j <? 2 ^ 31 - 1) Undefined;
        output ← vset output j (u8 (Z.shiftl highBits 4 + lowBits));
        unhexlify_loop r (j + 1) output
  | [] => Ret (true, output)
  | [_] => Err Undefined
  end.
Definition unhexlify (input output : list Z) : outcome (bool * list Z) :=
  if negb (len input mod 2 =? 0) then Ret (false, output)
  else unhexlify_loop input 0 (vresize output (len input / 2) 0).

(** ** Splitting *)

(** A delimiter is a char or a string. *)
Inductive delim := DChar (c : Z) | DPiece (s : list Z).
Definition delimSize (d : delim) : nat := match d with DChar _ => 1 | DPiece s => length s end.
(** memcmp of a piece: reading past the end of the string is undefined. *)
Fixpoint same (s d : list Z) : outcome bool :=
  match d, s with
  | [], _ => Ret true
  | c :: d, x :: s => if x =? c then same s d else _ ← check (length d <=? length s)%nat Undefined; Ret false
  | _ :: _, [] => Err Undefined
  end.
Definition atDelim (s : list Z) (d : delim) : outcome bool :=
  match d with
  | DChar c => match s with x :: _ => Ret (x =? c) | [] => Err Undefined end
  | DPiece p => same s p
  end.
(** char delimFront(StringPiece s) *)
Definition delimFront (d : delim) : outcome Z :=
  match d with DPiece (c :: _) => Ret c | _ => Err AssertFailed end.

(** StringPiece(&s[pos], n) *)
Definition piece (s : list Z) (pos n : nat) : list Z := take n (drop pos s).

(** The token is put out unless it is empty and empty ones are ignored. *)
Definition emit (ignoreEmpty : bool) (tok : list Z) (out : list (list Z)) : list (list Z) :=
  if negb ignoreEmpty || (0 <? length tok)%nat then out ++ [tok] else out.

(** The loop of internalSplit and what follows it. *)
Fixpoint split_loop (fuel : nat) (d : delim) (s : list Z) (ignoreEmpty : bool) (i tokenStartPos tokenSize : nat) (out : list (list Z)) : outcome (list (list Z)) :=
  match fuel with
  | O => Err OutOfFuel
  | S fuel =>
      if (i <=? length s - delimSize d)%nat then
        b ← atDelim (drop i s) d;
        if (b : bool) then
          split_loop fuel d s ignoreEmpty (i + delimSize d) (i + delimSize d) 0 (emit ignoreEmpty (piece s tokenStartPos tokenSize) out)
        else split_loop fuel d s ignoreEmpty (S i) tokenStartPos (S tokenSize) out
      else Ret (emit ignoreEmpty (piece s tokenStartPos (length s - tokenStartPos)) out)
  end.
Definition internalSplit (d : delim) (sp : list Z) (out : list (list Z)) (ignoreEmpty : bool) : outcome (list (list Z)) :=
  let dSize := delimSize d in
  if (length sp <? dSize)%nat || (dSize =? 0)%nat then
    Ret (emit ignoreEmpty sp out)
  else
    d ← (match d with
         | DPiece p => if (dSize =? 1)%nat then c ← delimFront d; Ret (DChar c) else Ret d
         | DChar _ => Ret d
         end);
    split_loop (S (length sp)) d sp ignoreEmpty 0 0 0 out.

(** internalSplitAny *)
Definition delimAnySize (d : delim) : nat := match d with DChar _ => 1 | DPiece s => Nat.min (length s) 1 end.
Definition atDelimAny (x : Z) (d : delim) : bool :=
  match d with DChar c => x =? c | DPiece p => bool_decide (x ∈ p) end.
Fixpoint splitAny_loop (d : delim) (s rest : list Z) (ignoreEmpty : bool) (i tokenStartPos tokenSize : nat) (out : list (list Z)) : list (list Z) :=
  match rest with
  | x :: rest =>
      if atDelimAny x d
      then splitAny_loop d s rest ignoreEmpty (S i) (S i) 0 (emit ignoreEmpty (piece s tokenStartPos tokenSize) out)
      else splitAny_loop d s rest ignoreEmpty (S i) tokenStartPos (S tokenSize) out
  | [] => emit ignoreEmpty (piece s tokenStartPos (length s - tokenStartPos)) out
  end.
Definition internalSplitAny (d : delim) (sp : list Z) (out : list (list Z)) (ignoreEmpty : bool) : list (list Z) :=
  if (length sp =? 0)%nat || (delimAnySize d =? 0)%nat then emit ignoreEmpty sp out
  else splitAny_loop d sp sp ignoreEmpty 0 0 0 out.

(** ** Joining *)

Definition delim_text (d : delim) : list Z := match d with DChar c => [c] | DPiece s => s end.
(** The loop of internalJoinAppend after the first element. *)
Fixpoint join_loop (d : delim) (toks : list (list Z)) (output : list Z) : list Z :=
  match toks with [] => output | t :: r => join_loop d r ((output ++ delim_text d) ++ t) end.
Definition internalJoinAppend (d : delim) (toks : list (list Z)) (output : list Z) : outcome (list Z) :=
  match toks with
  | [] => Err AssertFailed
  | t :: r =>
      d ← (match d with
           | DPiece p => if (delimSize d =? 1)%nat then c ← delimFront d; Ret (DChar c) else Ret d
           | DChar _ => Ret d
           end);
      Ret (join_loop d r (output ++ t))
  end.
(** internalJoin: what output held is cleared. *)
Definition join (d : delim) (toks : list (list Z)) (output : list Z) : outcome (list Z) :=
  match toks with [] => Ret [] | _ => internalJoinAppend d toks [] end.

(** joinMap *)
Definition toAppendPair (d : delim) (kv : list Z * list Z) (output : list Z) : list Z :=
  ((output ++ kv.1) ++ delim_text d) ++ kv.2.
Fixpoint joinMap_loop (d pd : delim) (kvs : list (list Z * list Z)) (output : list Z) : list Z :=
  match kvs with [] => output | kv :: r => joinMap_loop d pd r (toAppendPair pd kv (output ++ delim_text d)) end.
Definition joinMap (d pd : delim) (kvs : list (list Z * list Z)) (output : list Z) : list Z :=
  match kvs with [] => [] | kv :: r => joinMap_loop d pd r (toAppendPair pd kv []) end.

End Strings.
