(* ===== verification/StringsProof.v ===== *)
(** Hexadecimal text, splitting and joining: round trips, and what a split promises. *)
From S2P Require Import Prelude Strings.

Module StringsProof.
Import Strings.
Local Notation len l := (Z.of_nat (length l)).

(** ** Hexadecimal text *)

Definition byte (b : Z) : Prop := 0 ≤ b < 256.
(** The two characters of a byte. *)
Definition hex1 (d : Z) : Z := default 0 (hexValues !! Z.to_nat d).
Definition hex (b : Z) : list Z := [hex1 (b / 16); hex1 (b mod 16)].

(** A fact about every byte, decided by trying all of them. *)
Lemma every_byte (P : Z → bool) : forallb P (seqZ 0 256) = true → ∀ b, byte b → P b = true.
Proof. intros H b Hb. rewrite forallb_forall in H. apply H. apply list_elem_of_In, elem_of_seqZ. unfold byte in Hb. lia. Qed.

Definition gives (o : outcome Z) (x : Z) : bool := match o with Ret y => y =? x | Err _ => false end.
Lemma gives_value o x : gives o x = true → o = Ret x.
Proof. destruct o; cbn; [|done]. by intros ->%Z.eqb_eq. Qed.

Lemma hex_high b : byte b → vget hexValues (Z.land (Z.shiftr (as_char b) 4) 15) = Ret (hex1 (b / 16)).
Proof.
  intros Hb. apply gives_value.
  by apply (every_byte (fun b => gives (vget hexValues (Z.land (Z.shiftr (as_char b) 4) 15)) (hex1 (b / 16)))); [vm_compute|].
Qed.
Lemma hex_low b : byte b → vget hexValues (Z.land (as_char b) 15) = Ret (hex1 (b mod 16)).
Proof.
  intros Hb. apply gives_value.
  by apply (every_byte (fun b => gives (vget hexValues (Z.land (as_char b) 15)) (hex1 (b mod 16)))); [vm_compute|].
Qed.
Lemma unhex_hex b : byte b → 0 ≤ unhex (hex1 (b / 16)) ∧ 0 ≤ unhex (hex1 (b mod 16)) ∧
  u8 (Z.shiftl (unhex (hex1 (b / 16))) 4 + unhex (hex1 (b mod 16))) = b.
Proof.
  intros Hb. pose proof (every_byte (fun b => (0 <=? unhex (hex1 (b / 16))) && (0 <=? unhex (hex1 (b mod 16))) &&
    (u8 (Z.shiftl (unhex (hex1 (b / 16))) 4 + unhex (hex1 (b mod 16))) =? b)) ltac:(vm_compute; reflexivity) b Hb) as H.
  cbn beta in H. rewrite !andb_true_iff, !Z.leb_le, Z.eqb_eq in H. tauto.
Qed.

Lemma vset_app (a : list Z) x y b j : j = len a → vset (a ++ x :: b) j y = Ret (a ++ y :: b).
Proof.
  intros ->. apply vset_ret. rewrite length_app. cbn [length]. split; [lia|]. rewrite Nat2Z.id.
  rewrite insert_app_r_alt by lia. by rewrite Nat.sub_diag.
Qed.

Lemma hexlify_loop_eq input a junk : Forall byte input → length junk = (2 * length input)%nat →
  hexlify_loop input (len a) (a ++ junk) = Ret (a ++ flat_map hex input).
Proof.
  revert a junk. induction input as [|b input IH]; intros a junk Hb Hj; cbn [hexlify_loop flat_map].
  - destruct junk; [by rewrite app_nil_r|done].
  - inversion_clear Hb as [|? ? Hb1 Hb2]. destruct junk as [|x [|y junk]]; cbn [length] in Hj; [lia|lia|].
    rewrite hex_high, hex_low by done. cbn [mbind outcome_bind]. rewrite vset_app by done. cbn [mbind outcome_bind].
    change (a ++ hex1 (b / 16) :: y :: junk) with (a ++ [hex1 (b / 16)] ++ y :: junk). rewrite app_assoc.
    rewrite vset_app by (rewrite length_app; cbn; lia). cbn [mbind outcome_bind].
    rewrite <- app_assoc. change ([hex1 (b / 16)] ++ hex1 (b mod 16) :: junk) with (hex b ++ junk). rewrite app_assoc.
    replace (len a + 2) with (len (a ++ hex b)) by (rewrite length_app; cbn; lia).
    rewrite IH by (done || lia). by rewrite <- app_assoc.
Qed.

Lemma hexlify_eq input output ap : Forall byte input →
  hexlify input output ap = Ret (true, (if ap then output else []) ++ flat_map hex input).
Proof.
  intros Hb. unfold hexlify. set (o := if ap then output else []). unfold vresize.
  replace (Z.to_nat (2 * len input + len o)) with (length o + 2 * length input)%nat by lia.
  rewrite resize_ge by lia. rewrite hexlify_loop_eq; [done|done|]. rewrite length_replicate. lia.
Qed.

Lemma unhexlify_loop_eq input a junk : Forall byte input → length junk = length input → len a + len input < 2 ^ 31 →
  unhexlify_loop (flat_map hex input) (len a) (a ++ junk) = Ret (true, a ++ input).
Proof.
  revert a junk. induction input as [|b input IH]; intros a junk Hb Hj Hl; cbn [flat_map hex app unhexlify_loop].
  - destruct junk; [done|done].
  - inversion_clear Hb as [|? ? Hb1 Hb2]. destruct junk as [|x junk]; cbn [length] in Hj, Hl; [lia|].
    destruct (unhex_hex b Hb1) as (H1 & H2 & H3). rewrite !(proj2 (Z.ltb_ge _ _)) by done. cbn [orb].
    rewrite (proj2 (Z.ltb_lt _ _)) by lia. cbn [check mbind outcome_bind]. rewrite H3, vset_app by done. cbn [mbind outcome_bind].
    change (a ++ b :: junk) with (a ++ [b] ++ junk). rewrite app_assoc. replace (len a + 1) with (len (a ++ [b])) by (rewrite length_app; cbn; lia).
    rewrite IH; [by rewrite <- app_assoc|done|lia|rewrite length_app; cbn; lia].
Qed.

Lemma flat_hex_length input : length (flat_map hex input) = (2 * length input)%nat.
Proof. induction input as [|b l IH]; [done|]. cbn [flat_map]. rewrite length_app, IH. cbn. lia. Qed.

(** Hexadecimal text round trip: hexlify writes two characters per byte after what it keeps of the output, and
    unhexlify of that text gives the bytes back, whatever the output held before. *)
Theorem hex_roundtrip input o1 o2 : Forall byte input → len input < 2 ^ 31 →
  ∃ text, hexlify input o1 false = Ret (true, text) ∧ length text = (2 * length input)%nat ∧ unhexlify text o2 = Ret (true, input).
Proof.
  intros Hb Hl. exists (flat_map hex input). rewrite hexlify_eq by done. split; [done|]. rewrite flat_hex_length. split; [done|].
  unfold unhexlify. rewrite flat_hex_length.
  rewrite Nat2Z.inj_mul, Z.mul_comm, Z_mod_mult. cbn [negb Z.eqb]. rewrite Z.div_mul by done. unfold vresize. rewrite Nat2Z.id.
  apply (unhexlify_loop_eq input [] _ Hb); [apply length_resize|cbn; lia].
Qed.

Lemma hex_roundtrip_witness : ∃ text, hexlify [0; 171; 255] [1] false = Ret (true, text) ∧ unhexlify text [9] = Ret (true, [0; 171; 255]).
Proof.
  destruct (hex_roundtrip [0; 171; 255] [1] [9]) as (text & H1 & _ & H2).
  - repeat constructor; unfold byte; lia.
  - vm_compute. reflexivity.
  - exists text. split; [exact H1|exact H2].
Defined.

(** ** Splitting *)

(** Tokens with the delimiter between them. *)
Definition joined (D : list Z) (toks : list (list Z)) : list Z :=
  match toks with [] => [] | t :: r => t ++ flat_map (fun x => D ++ x) r end.
Definition occurs (D t : list Z) : Prop := ∃ a b, t = a ++ D ++ b.
Definition put (ignoreEmpty : bool) (toks : list (list Z)) : list (list Z) :=
  if ignoreEmpty then filter (fun t => t ≠ []) toks else toks.

Lemma emit_put ig t out : emit ig t out = out ++ put ig [t].
Proof.
  unfold emit, put. destruct ig, t; cbn; try done. by rewrite app_nil_r.
Qed.
Lemma put_app ig a b : put ig (a ++ b) = put ig a ++ put ig b.
Proof. destruct ig; [apply list.filter_app|done]. Qed.

Lemma same_eq s D : (length D ≤ length s)%nat → same s D = Ret (bool_decide (D `prefix_of` s)).
Proof.
  revert s. induction D as [|c D IH]; intros s Hl; [rewrite bool_decide_eq_true_2 by apply prefix_nil; by destruct s|].
  destruct s as [|x s]; cbn [length] in Hl; [lia|]. cbn [same]. destruct (Z.eqb_spec x c) as [->|Hne].
  - rewrite IH by lia. f_equal. apply bool_decide_ext. split; [apply prefix_cons|apply prefix_cons_inv_2].
  - rewrite (proj2 (Nat.leb_le _ _)) by lia. cbn. rewrite bool_decide_eq_false_2; [done|]. intros H%prefix_cons_inv_1. congruence.
Qed.

Lemma atDelim_eq s d : (delimSize d ≤ length s)%nat → atDelim s d = Ret (bool_decide (delim_text d `prefix_of` s)).
Proof.
  destruct d as [c|p]; cbn [delimSize atDelim delim_text]; intros Hl; [|by apply same_eq].
  destruct s as [|x s]; cbn in Hl; [lia|]. f_equal. destruct (Z.eqb_spec x c) as [->|Hne].
  - symmetry. apply bool_decide_eq_true_2. by exists s.
  - symmetry. apply bool_decide_eq_false_2. intros H%prefix_cons_inv_1. congruence.
Qed.

Lemma delim_text_length d : length (delim_text d) = delimSize d.
Proof. by destruct d. Qed.

(** No delimiter begins in the first [n] characters of [t]. *)
Definition clear_to (D : list Z) (n : nat) (t : list Z) : Prop := ∀ k, (k < n)%nat → ¬ D `prefix_of` drop k t.

Lemma clear_occurs D n t u : D ≠ [] → (length t ≤ n)%nat → clear_to D n (t ++ u) → ¬ occurs D t.
Proof.
  intros HD Hl Hc (a & b & ->). rewrite !length_app in Hl. destruct D as [|c D]; [done|]. cbn [length] in Hl. apply (Hc (length a)); [lia|].
  rewrite <- !app_assoc, drop_app_length. by exists (b ++ u).
Qed.

Lemma split_loop_eq d : (0 < delimSize d)%nat → ∀ fuel s pre tok rest i start size,
  s = pre ++ tok ++ rest → start = length pre → size = length tok → i = (start + size)%nat →
  (length rest < fuel)%nat → (delimSize d ≤ length s)%nat → clear_to (delim_text d) (length tok) (tok ++ rest) →
  ∃ toks, (∀ ig out, split_loop fuel d s ig i start size out = Ret (out ++ put ig toks)) ∧
    joined (delim_text d) toks = tok ++ rest ∧ toks ≠ [] ∧ Forall (fun t => ¬ occurs (delim_text d) t) toks.
Proof.
  intros Hd. pose proof (delim_text_length d) as HlD. set (D := delim_text d) in *.
  assert (D ≠ []) as HD by (destruct D; [cbn in HlD; lia|done]).
  induction fuel as [|fuel IH]; intros s pre tok rest i start size Hs Hst Hsz Hi Hf Hlen Hcl; [lia|].
  assert (length s = length pre + (length tok + length rest))%nat as Hls by (rewrite Hs, !length_app; lia).
  destruct (decide (i ≤ length s - delimSize d)%nat) as [Hle|Hgt].
  - assert (atDelim (drop i s) d = Ret (bool_decide (D `prefix_of` rest))) as Hat.
    { assert (drop i s = rest) as -> by (rewrite Hs, Hi, Hst, Hsz, app_assoc, <- length_app; apply drop_app_length). apply atDelim_eq. lia. }
    case_bool_decide as Hp.
    + destruct Hp as [rest' Hrest]. assert (length rest = delimSize d + length rest')%nat as Hlr by (rewrite Hrest, length_app; lia).
      destruct (IH s (pre ++ tok ++ D) [] rest' (i + delimSize d)%nat (i + delimSize d)%nat 0%nat) as (toks & Hl & Hj & Hne & Hfa).
      1: { rewrite Hs, Hrest. cbn. by rewrite <- !app_assoc. }
      1: { rewrite !length_app. lia. }
      1-4: done || lia.
      1: { intros k Hk. cbn in Hk. lia. }
      exists (tok :: toks). split_and!.
      * intros ig out. cbn [split_loop]. rewrite (proj2 (Nat.leb_le _ _) Hle), Hat. cbn [mbind outcome_bind]. rewrite Hl.
        assert (piece s start size = tok) as ->. { unfold piece. rewrite Hs, Hst, Hsz, drop_app_length. apply take_app_length. }
        rewrite emit_put, <- app_assoc, <- put_app. done.
      * rewrite Hrest. cbn in Hj. rewrite <- Hj. destruct toks as [|t r]; [done|]. cbn. by rewrite <- !app_assoc.
      * done.
      * constructor; [|done]. by apply (clear_occurs D (length tok) tok rest).
    + destruct rest as [|x rest]; [cbn [length] in Hls; lia|]. cbn [length] in *.
      destruct (IH s pre (tok ++ [x]) rest (S i) start (S size)) as (toks & Hl & Hj & Hne & Hfa).
      1: by rewrite Hs, <- !app_assoc.
      1: done.
      1: { rewrite length_app. cbn. lia. }
      1-3: done || lia.
      1: { rewrite length_app. cbn. rewrite <- app_assoc. cbn. intros k Hk. destruct (decide (k < length tok)%nat); [by apply Hcl|].
           replace k with (length tok) by lia. by rewrite drop_app_length. }
      exists toks. rewrite <- app_assoc in Hj. split_and!; try done.
      intros ig out. cbn [split_loop]. rewrite (proj2 (Nat.leb_le _ _) Hle), Hat. cbn [mbind outcome_bind]. apply Hl.
  - exists [tok ++ rest]. split_and!.
    + intros ig out. cbn [split_loop]. rewrite (proj2 (Nat.leb_gt _ _)) by lia.
      assert (piece s start (length s - start) = tok ++ rest) as ->.
      { unfold piece. rewrite Hs, Hst, drop_app_length. apply take_ge. rewrite !length_app. lia. }
      by rewrite emit_put.
    + cbn. by rewrite app_nil_r.
    + done.
    + repeat constructor. intros (a & b & Hab). destruct (decide (length a < length tok)%nat) as [Hlt|Hge].
      * apply (Hcl (length a) Hlt). rewrite Hab, drop_app_length. by exists b.
      * apply (f_equal length) in Hab. rewrite !length_app in Hab. lia.
Qed.

Lemma split_eq d s out : (0 < delimSize d)%nat →
  ∃ toks, internalSplit d s out false = Ret (out ++ toks) ∧ internalSplit d s out true = Ret (out ++ filter (fun t => t ≠ []) toks) ∧
    joined (delim_text d) toks = s ∧ toks ≠ [] ∧ Forall (fun t => ¬ occurs (delim_text d) t) toks.
Proof.
  intros Hd. destruct (decide (length s < delimSize d)%nat) as [Hlt|Hge].
  - exists [s]. unfold internalSplit. rewrite (proj2 (Nat.ltb_lt _ _)) by done. cbn [orb]. rewrite !emit_put. split_and!; try done.
    + cbn. by rewrite app_nil_r.
    + repeat constructor. intros (a & b & ->). rewrite !length_app, delim_text_length in Hlt. lia.
  - assert (∃ d', (0 < delimSize d')%nat ∧ delim_text d' = delim_text d ∧ ∀ ig, internalSplit d s out ig = split_loop (S (length s)) d' s ig 0 0 0 out) as (d' & Hd' & Ht & Heq).
    { unfold internalSplit. rewrite (proj2 (Nat.ltb_ge _ _)) by lia. rewrite (proj2 (Nat.eqb_neq _ _)) by lia. cbn [orb].
      destruct d as [c|p]; [by exists (DChar c)|]. cbn [delimSize] in *. destruct (Nat.eqb_spec (length p) 1) as [E|E]; [|by exists (DPiece p)].
      destruct p as [|c [|? ?]]; cbn in E; [lia| |lia]. exists (DChar c). cbn. split; [lia|done]. }
    assert (delimSize d' = delimSize d) as Hsz by by rewrite <- !delim_text_length, Ht.
    destruct (split_loop_eq d' Hd' (S (length s)) s [] [] s 0 0 0) as (toks & Hl & Hj & Hne & Hfa); try done; [lia|lia|intros k Hk; cbn in Hk; lia|].
    exists toks. rewrite !Heq, !Hl. rewrite Ht in *. done.
Qed.

(** ** Joining *)

Lemma join_loop_eq d toks out : join_loop d toks out = out ++ flat_map (fun x => delim_text d ++ x) toks.
Proof.
  revert out. induction toks as [|t toks IH]; intros out; cbn; [by rewrite app_nil_r|]. rewrite IH. by rewrite <- !app_assoc.
Qed.
Lemma join_eq d toks out : join d toks out = Ret (joined (delim_text d) toks).
Proof.
  destruct toks as [|t r]; [done|]. cbn [join internalJoinAppend joined].
  destruct d as [c|p]; cbn [mbind outcome_bind]; [by rewrite join_loop_eq|].
  destruct (Nat.eqb_spec (delimSize (DPiece p)) 1) as [E|E]; cbn [mbind outcome_bind]; [|by rewrite join_loop_eq].
  destruct p as [|c [|? ?]]; cbn in E; [lia| |lia]. cbn [delimFront mbind outcome_bind]. by rewrite join_loop_eq.
Qed.

(** What split promises, for a delimiter of one or more characters: joining the tokens with the delimiter
    gives the input back, and no token contains the delimiter; with ignoreEmpty exactly the
    empty tokens are left out. *)
Theorem split_correct d s out o : (0 < delimSize d)%nat →
  ∃ toks, internalSplit d s out false = Ret (out ++ toks) ∧ internalSplit d s out true = Ret (out ++ filter (fun t => t ≠ []) toks) ∧
    join d toks o = Ret s ∧ Forall (fun t => ¬ occurs (delim_text d) t) toks.
Proof.
  intros Hd. destruct (split_eq d s out Hd) as (toks & H1 & H2 & H3 & _ & H4). exists toks. rewrite join_eq, H3. done.
Qed.

Lemma split_correct_witness : ∃ toks, internalSplit (DPiece [44; 32]) [97; 44; 32; 44; 32; 98] [] false = Ret toks ∧
  join (DPiece [44; 32]) toks [] = Ret [97; 44; 32; 44; 32; 98].
Proof.
  destruct (split_correct (DPiece [44; 32]) [97; 44; 32; 44; 32; 98] [] []) as (toks & H1 & _ & H2 & _); [cbn; lia|].
  exists toks. split; [exact H1|exact H2].
Defined.

Lemma occurs_elem c t : occurs [c] t ↔ c ∈ t.
Proof.
  split; [intros (a & b & ->); set_solver|]. intros (a & b & ->)%list_elem_of_split. by exists a, b.
Qed.

(** Tokens without the character are determined by the joined text. *)
Lemma free_split (c : Z) t t' r r' : c ∉ t → c ∉ t' → t ++ c :: r = t' ++ c :: r' → t = t' ∧ r = r'.
Proof.
  revert t'. induction t as [|x t IH]; intros [|x' t'] Ht Ht' E; cbn in E.
  - by injection E as ->.
  - injection E as -> _. exfalso. apply Ht'. by left.
  - injection E as <- _. exfalso. apply Ht. by left.
  - injection E as <- E. destruct (IH t') as [-> ->]; set_solver.
Qed.
Lemma joined_inj c ts ts' : ts ≠ [] → ts' ≠ [] → Forall (fun t => c ∉ t) ts → Forall (fun t => c ∉ t) ts' →
  joined [c] ts = joined [c] ts' → ts = ts'.
Proof.
  intros Hn Hn' Hf. revert ts' Hn'. induction Hf as [|t ts Ht Hf IH]; [done|]. intros ts' Hn' Hf'.
  destruct Hf' as [|t' ts' Ht' Hf']; [done|]. cbn [joined].
  destruct ts as [|t2 ts], ts' as [|t2' ts']; cbn [flat_map app]; rewrite ?app_nil_r; intros E.
  - by subst.
  - subst. exfalso. apply Ht. set_solver.
  - subst. exfalso. apply Ht'. set_solver.
  - apply free_split in E as [-> E]; [|done..]. f_equal. by apply IH.
Qed.

(** Splitting at a character undoes joining with it. *)
Theorem join_split c toks o : toks ≠ [] → Forall (fun t => c ∉ t) toks →
  ∃ text, join (DChar c) toks o = Ret text ∧ internalSplit (DChar c) text [] false = Ret toks.
Proof.
  intros Hn Hf. eexists. split; [apply join_eq|]. destruct (split_eq (DChar c) (joined [c] toks) []) as (toks' & Hs & _ & Hj & Hn' & Hf'); [cbn; lia|].
  cbn [delim_text]. rewrite Hs. cbn. f_equal. apply (joined_inj c); try done. eapply Forall_impl; [exact Hf'|]. intros t Ht. by rewrite <- occurs_elem.
Qed.
End StringsProof.
