(* ===== verification/LowerProof.v ===== *)
(** That toLowerAscii lowers each character as if one by one: the word arithmetic keeps to its
    lanes (no carry from a byte to the next), every word is read at its alignment and within the
    string, and the loops end. *)
From S2P Require Import Prelude Strings StringsProof Lower.

Module LowerProof.
Import Strings StringsProof Lower.
Local Notation len l := (Z.of_nat (length l)).

(** * Words as lists of byte lanes *)
Lemma split_byte x : x = x mod 256 + 256 * (x / 256).
Proof. pose proof (Z.div_mod x 256). lia. Qed.
Lemma lane_mod a A : byte a → (a + 256 * A) mod 256 = a.
Proof. unfold byte. intros H. rewrite (Z.mul_comm 256), Z.mod_add, Z.mod_small by lia. done. Qed.
Lemma lane_div a A : byte a → (a + 256 * A) / 256 = A.
Proof. unfold byte. intros H. rewrite (Z.mul_comm 256), Z.div_add, Z.div_small by lia. lia. Qed.

Lemma land_lane a b A B : byte a → byte b →
  Z.land (a + 256 * A) (b + 256 * B) = Z.land a b + 256 * Z.land A B.
Proof.
  intros Ha Hb. rewrite (split_byte (Z.land _ _)). f_equal.
  - rewrite <- (Z.land_ones _ 8) by lia.
    rewrite <- (Z.land_diag (Z.ones 8)), <- Z.land_assoc, (Z.land_assoc (b + _)), (Z.land_comm (Z.land (b + _) _)).
    rewrite Z.land_assoc, !Z.land_ones by lia. change (2 ^ 8) with 256. by rewrite !lane_mod.
  - f_equal. change 256 with (2 ^ 8) at 3. rewrite <- Z.shiftr_div_pow2 by lia.
    rewrite Z.shiftr_land, !Z.shiftr_div_pow2 by lia. change (2 ^ 8) with 256. by rewrite !lane_div.
Qed.

Lemma land_byte a b : byte a → byte b → byte (Z.land a b).
Proof.
  unfold byte. intros Ha Hb. assert (0 ≤ Z.land a b) by (apply Z.land_nonneg; lia).
  split; [lia|]. rewrite <- (Z.mod_small a 256), <- (Z.land_ones _ 8), <- Z.land_assoc, Z.land_comm by lia.
  rewrite <- Z.land_assoc, (Z.land_comm b a), (Z.land_comm (Z.ones 8)), Z.land_ones by lia. apply Z.mod_pos_bound. lia.
Qed.

(** Shifted by two, a lane's bit 5 comes from its own bit 7. *)
Lemma shift_lane a A M : byte a → Z.land (Z.shiftr (a + 256 * A) 2) (32 + 256 * M) =
  Z.land (Z.shiftr a 2) 32 + 256 * Z.land (Z.shiftr A 2) M.
Proof.
  unfold byte. intros Ha. rewrite !Z.shiftr_div_pow2 by lia. change (2 ^ 2) with 4.
  assert (Hs : (a + 256 * A) / 4 = (a / 4 + 64 * (A mod 4)) + 256 * (A / 4)).
  { replace (a + 256 * A) with (a + (64 * A) * 4) by lia. rewrite Z.div_add by lia.
    rewrite (Z.div_mod A 4) at 1 by lia. lia. }
  rewrite Hs, land_lane by (unfold byte; lia || (pose proof (Z.mod_pos_bound A 4); pose proof (Z.div_lt_upper_bound a 4 64); pose proof (Z.div_pos a 4); lia)).
  f_equal. change 32 with (Z.land 32 (Z.ones 6)) at 1.
  rewrite (Z.land_comm 32), Z.land_assoc, Z.land_ones by lia. change (2 ^ 6) with 64.
  rewrite (Z.mul_comm 64), Z.mod_add, Z.mod_small; [done|split; [apply Z.div_pos; lia|apply Z.div_lt_upper_bound; lia]|lia].
Qed.

Lemma load_land xs ys : Forall byte xs → Forall byte ys → length xs = length ys →
  Z.land (load xs) (load ys) = load (zip_with Z.land xs ys).
Proof.
  intros Hx. revert ys. induction Hx as [|x xs Hx Hxs IH]; intros [|y ys] Hy Hl; try done.
  inversion Hy; subst. cbn. rewrite land_lane by done. rewrite IH; auto.
Qed.
Lemma load_add xs ys : length xs = length ys → load xs + load ys = load (zip_with Z.add xs ys).
Proof.
  revert ys. induction xs as [|x xs IH]; intros [|y ys] Hl; try done. cbn. rewrite <- IH by (cbn in Hl; lia). lia.
Qed.
Lemma load_shift xs : Forall byte xs → Z.land (Z.shiftr (load xs) 2) (load (repeat 32 (length xs))) =
  load (map (λ x, Z.land (Z.shiftr x 2) 32) xs).
Proof. induction 1 as [|x xs Hx Hxs IH]; [done|]. cbn -[Z.land Z.shiftr]. rewrite shift_lane by done. by rewrite IH. Qed.
Lemma load_bound xs : Forall byte xs → 0 ≤ load xs < 256 ^ len xs.
Proof.
  unfold byte. induction 1 as [|x xs Hx Hxs IH]; [cbn; lia|].
  cbn [load length]. rewrite Nat2Z.inj_succ, Z.pow_succ_r by lia. lia.
Qed.
Lemma load_not xs : load (map (λ x, 255 - x) xs) = 256 ^ len xs - 1 - load xs.
Proof. induction xs as [|x xs IH]; [done|]. cbn [load map length]. rewrite IH, Nat2Z.inj_succ, Z.pow_succ_r by lia. lia. Qed.
Lemma store_load xs : Forall byte xs → store (length xs) (load xs) = xs.
Proof. induction 1 as [|x xs Hx Hxs IH]; [done|]. cbn. rewrite lane_mod, lane_div by done. by rewrite IH. Qed.

(** * The word functions, at any number of lanes *)
Definition lower_word (n : nat) (c : Z) : Z :=
  let rep b := load (repeat b n) in
  let wrap x := x mod 256 ^ Z.of_nat n in
  let r := wrap (Z.land c (rep 0x7f) + rep 0x25) in
  let r := wrap (Z.land r (rep 0x7f) + rep 0x1a) in
  let r := Z.land r (wrap (Z.lnot c)) in
  wrap (c + Z.land (Z.shiftr r 2) (rep 0x20)).
Lemma lower32_word c : toLowerAscii32 c = lower_word 4 c.
Proof. reflexivity. Qed.
Lemma lower64_word c : toLowerAscii64 c = lower_word 8 c.
Proof. reflexivity. Qed.

(** What happens within one lane; [f] below is its last value. *)
Definition lane1 (b : Z) : Z := Z.land b 0x7f + 0x25.
Definition lane2 (b : Z) : Z := Z.land (lane1 b) 0x7f + 0x1a.
Definition lane3 (b : Z) : Z := Z.land (lane2 b) (255 - b).
Definition lane4 (b : Z) : Z := b + Z.land (Z.shiftr (lane3 b) 2) 0x20.

Definition is_byte (b : Z) : bool := (0 <=? b) && (b <? 256).
Lemma is_byte_byte b : is_byte b = true → byte b.
Proof. unfold is_byte, byte. rewrite andb_true_iff. lia. Qed.
Lemma lanes b : byte b → byte (lane1 b) ∧ byte (lane2 b) ∧ byte (lane3 b) ∧ lane4 b = lower b ∧ byte (lower b) ∧ toLowerAscii8 b = lower b.
Proof.
  intros Hb. pose proof (every_byte (λ b, is_byte (lane1 b) && is_byte (lane2 b) && is_byte (lane3 b) && (lane4 b =? lower b) &&
    is_byte (lower b) && (toLowerAscii8 b =? lower b)) ltac:(vm_compute; reflexivity) b Hb) as H.
  cbn beta in H. rewrite !andb_true_iff, !Z.eqb_eq in H. destruct H as [[[[[? ?] ?] ?] ?] ?].
  auto 10 using is_byte_byte.
Qed.

Lemma zip_repeat (g : Z → Z → Z) (f : Z → Z) k bs : zip_with g (map f bs) (repeat k (length bs)) = map (λ b, g (f b) k) bs.
Proof. induction bs as [|b bs IH]; [done|]. cbn. by rewrite IH. Qed.
Lemma zip_map (g : Z → Z → Z) (f h : Z → Z) bs : zip_with g (map f bs) (map h bs) = map (λ b, g (f b) (h b)) bs.
Proof. induction bs as [|b bs IH]; [done|]. cbn. by rewrite IH. Qed.
Lemma bytes_repeat k n : byte k → Forall byte (repeat k n).
Proof. intros H. induction n; cbn; auto. Qed.
Lemma bytes_map (f : Z → Z) bs : Forall byte bs → (∀ b, byte b → byte (f b)) → Forall byte (map f bs).
Proof. intros H Hf. induction H; cbn; auto. Qed.

Section word.
Context (bs : list Z) (Hbs : Forall byte bs).
Notation n := (length bs).

Lemma wrap_load (f : Z → Z) : (∀ b, byte b → byte (f b)) → load (map f bs) mod 256 ^ len bs = load (map f bs).
Proof. intros Hf. apply Z.mod_small. pose proof (load_bound _ (bytes_map f bs Hbs Hf)) as H. by rewrite length_map in H. Qed.
Lemma land_rep (f : Z → Z) k : byte k → (∀ b, byte b → byte (f b)) →
  Z.land (load (map f bs)) (load (repeat k n)) = load (map (λ b, Z.land (f b) k) bs).
Proof.
  intros Hk Hf. rewrite load_land, zip_repeat; [done|by apply bytes_map|by apply bytes_repeat|].
  by rewrite length_map, repeat_length.
Qed.
Lemma add_rep (f : Z → Z) k : load (map f bs) + load (repeat k n) = load (map (λ b, f b + k) bs).
Proof. rewrite load_add, zip_repeat; [done|]. by rewrite length_map, repeat_length. Qed.
Lemma wrap_not : Z.lnot (load bs) mod 256 ^ len bs = load (map (λ b, 255 - b) bs).
Proof.
  rewrite load_not. unfold Z.lnot. rewrite <- (Z.mod_add _ 1), Z.mod_small; pose proof (load_bound bs Hbs); unfold Z.pred; lia.
Qed.

Lemma lower_word_lanes : lower_word n (load bs) = load (map lower bs).
Proof.
  assert (L := lanes). unfold lower_word. rewrite wrap_not.
  pose proof (land_rep (λ b, b) 0x7f) as H1. rewrite map_id in H1. rewrite H1 by (done || unfold byte; lia). clear H1.
  rewrite add_rep. change (λ b, Z.land b 127 + 37) with lane1. rewrite wrap_load by (intros b Hb; apply (L b Hb)).
  rewrite land_rep by ((intros b Hb; apply (L b Hb)) || unfold byte; lia).
  rewrite add_rep. change (λ b, Z.land (lane1 b) 127 + 26) with lane2. rewrite wrap_load by (intros b Hb; apply (L b Hb)).
  rewrite load_land, zip_map;
    [|apply bytes_map; [done|]; intros b Hb; apply (L b Hb)|apply bytes_map; [done|]; unfold byte; lia|by rewrite !length_map].
  change (λ b, Z.land (lane2 b) (255 - b)) with lane3.
  pose proof (load_shift (map lane3 bs)) as H2. rewrite length_map, map_map in H2.
  rewrite H2 by (apply bytes_map; [done|]; intros b Hb; apply (L b Hb)).
  rewrite <- (map_id bs) at 1. rewrite load_add, zip_map by (by rewrite !length_map).
  change (λ b, b + Z.land (Z.shiftr (lane3 b) 2) 32) with lane4.
  rewrite wrap_load by (intros b Hb; destruct (L b Hb) as (_ & _ & _ & -> & ? & _); done).
  f_equal. apply map_ext_Forall. eapply Forall_impl; [done|]. intros b Hb. apply (L b Hb).
Qed.
End word.

(** * The loops: the string lowered up to an offset *)
Definition lowered (o : nat) (s : list Z) : list Z := map lower (take o s) ++ drop o s.
Lemma lowered_length o s : length (lowered o s) = length s.
Proof. unfold lowered. rewrite length_app, length_map, length_take, length_drop. lia. Qed.
Lemma lowered_all s : lowered (length s) s = map lower s.
Proof. unfold lowered. by rewrite firstn_all, drop_all, app_nil_r. Qed.
Lemma lowered_take o s : (o ≤ length s)%nat → take o (lowered o s) = map lower (take o s).
Proof. intros H. unfold lowered. apply take_app_length'. rewrite length_map, length_take. lia. Qed.
Lemma lowered_drop o k s : (o ≤ length s)%nat → drop (o + k) (lowered o s) = drop (o + k) s.
Proof. intros H. unfold lowered. rewrite drop_app_ge by (rewrite length_map, length_take; lia).
  rewrite length_map, length_take, drop_drop. f_equal. lia. Qed.

(** A word function that lowers each of its [n] lanes. *)
Definition lowers (n : nat) (f : Z → Z) : Prop :=
  (0 < n)%nat ∧ ∀ bs, Forall byte bs → length bs = n → store n (f (load bs)) = map lower bs.
Lemma word_lowers n : (0 < n)%nat → lowers n (lower_word n).
Proof.
  intros Hn. split; [done|]. intros bs Hb <-. rewrite lower_word_lanes by done.
  rewrite <- (length_map lower bs) at 1. apply store_load, bytes_map; [done|]. intros b Hb'. apply (lanes b Hb').
Qed.
Lemma lowers32 : lowers 4 toLowerAscii32.
Proof. apply (word_lowers 4). lia. Qed.
Lemma lowers64 : lowers 8 toLowerAscii64.
Proof. apply (word_lowers 8). lia. Qed.

Section string.
Context (addr : Z) (s : list Z) (Hs : Forall byte s).

Lemma at_char_lowered o : (o < length s)%nat → at_char (lowered o s) o = Ret (lowered (S o) s).
Proof.
  intros Ho. unfold at_char. destruct (lookup_lt_is_Some_2 s o Ho) as [c Hc].
  assert (Hl : lowered o s = map lower (take o s) ++ c :: drop (S o) s) by (unfold lowered; by rewrite (drop_S s c o Hc)).
  assert (Ht : length (map lower (take o s)) = o) by (rewrite length_map, length_take; lia).
  rewrite Hl, list_lookup_middle by done. cbn. f_equal.
  rewrite insert_app_r_alt by lia. rewrite Ht, Nat.sub_diag. unfold lowered. rewrite (take_S_r s o c Hc), map_app, <- app_assoc. cbn.
  assert (byte c) by (by eapply (Forall_lookup_1 _ s)). by destruct (lanes c) as (_ & _ & _ & _ & _ & ->).
Qed.

Lemma at_word_lowered n f o : lowers n f → (addr + Z.of_nat o) mod Z.of_nat n = 0 → (o + n ≤ length s)%nat →
  at_word n f addr (lowered o s) o = Ret (lowered (o + n) s).
Proof.
  intros [Hn Hf] Ha Ho. unfold at_word. rewrite Ha, lowered_length, Z.eqb_refl, (proj2 (Nat.leb_le _ _) Ho). cbn. f_equal.
  rewrite lowered_take, lowered_drop by lia. pose proof (lowered_drop o 0 s) as Hd. rewrite Nat.add_0_r in Hd. rewrite Hd by lia.
  rewrite Hf; [|by apply Forall_take, Forall_drop|rewrite length_take, length_drop; lia].
  unfold lowered. rewrite app_assoc, <- map_app. by rewrite take_take_drop.
Qed.

Lemma lower_chars_lowered fuel o n : (n ≤ length s)%nat → (o ≤ n)%nat → (n - o ≤ fuel)%nat →
  lower_chars fuel (lowered o s) o n = Ret (n, lowered n s).
Proof.
  intros Hn. revert o. induction fuel as [|fuel IH]; intros o Ho Hf; cbn -[Nat.ltb]; (destruct (Nat.ltb_spec o n); [|by replace o with n by lia]); [lia|].
  rewrite at_char_lowered by lia. cbn. apply IH; lia.
Qed.

Lemma lower_words_lowered fuel n f o : lowers n f → (o ≤ length s)%nat → (length s - o ≤ fuel)%nat →
  (addr + Z.of_nat o) mod Z.of_nat n = 0 ∨ (length s < o + n)%nat →
  ∃ o', lower_words fuel n f addr (lowered o s) o = Ret (o', lowered o' s) ∧ (o' ≤ length s)%nat ∧ (length s < o' + n)%nat ∧
    Z.divide (Z.of_nat n) (Z.of_nat o' - Z.of_nat o).
Proof.
  intros Hw. assert (Hn := proj1 Hw). revert o. induction fuel as [|fuel IH]; intros o Ho Hf Ha; cbn -[Nat.leb]; rewrite lowered_length;
    (destruct (Nat.leb_spec (o + n) (length s)); [|exists o; split; [done|]; split; [lia|]; split; [lia|]; exists 0; lia]); [lia|].
  destruct Ha as [Ha|]; [|lia]. rewrite at_word_lowered by done. cbn. destruct (IH (o + n)%nat) as (o' & -> & ? & ? & k & Hk); [lia|lia| |].
  - left. rewrite Nat2Z.inj_add, Z.add_assoc, <- (Z.mul_1_l (Z.of_nat n)) at 1. rewrite Z.mod_add by lia. done.
  - exists o'. split; [done|]. split; [lia|]. split; [lia|]. exists (k + 1). lia.
Qed.

(** The head: characters up to an address aligned for four, then perhaps one word of four. *)
Lemma head_aligned n : 0 ≤ addr → n = Nat.min (Z.to_nat (Z.land addr 3)) (length s) →
  let o := if (n =? 0)%nat then 0%nat else Nat.min (4 - n) (length s) in
  (o ≤ length s)%nat ∧ ((addr + Z.of_nat o) mod 4 = 0 ∨ o = length s).
Proof.
  intros Ha ->. change 3 with (Z.ones 2). rewrite Z.land_ones by lia. change (2 ^ 2) with 4.
  pose proof (Z.mod_pos_bound addr 4). pose proof (Z.div_mod addr 4).
  destruct (Nat.eqb_spec (Nat.min (Z.to_nat (addr mod 4)) (length s)) 0); cbn zeta; split; try lia.
  - destruct (decide (addr mod 4 = 0)); [left; rewrite Z.add_0_r; lia|right; lia].
  - destruct (decide (4 ≤ length s + Z.to_nat (addr mod 4) ∧ Z.to_nat (addr mod 4) ≤ length s))%nat; [left|right; lia].
    apply Z.mod_divide; [lia|]. exists (addr / 4 + 1). lia.
Qed.

Lemma toLowerAscii_lower : 0 ≤ addr → toLowerAscii addr s = Ret (map lower s).
Proof.
  intros Ha. unfold toLowerAscii. set (n := Nat.min _ _).
  destruct (head_aligned n Ha eq_refl) as [Ho Hal]. set (o := if (n =? 0)%nat then _ else _) in *.
  assert (H1 : (if (n =? 0)%nat then Ret (0%nat, s) else lower_chars (length s) s 0 (Nat.min (4 - n) (length s))) = Ret (o, lowered o s)).
  { subst o. destruct (n =? 0)%nat; [done|]. apply (lower_chars_lowered (length s) 0); lia. }
  rewrite H1. cbn [mbind outcome_bind]. clearbody o. clear H1 n.
  assert (H2 : ∃ o2, (if negb (Z.land (addr + Z.of_nat o) 7 =? 0) && (o + 4 <=? length s)%nat
    then str ← at_word 4 toLowerAscii32 addr (lowered o s) o; Ret ((o + 4)%nat, str) else Ret (o, lowered o s)) = Ret (o2, lowered o2 s) ∧
    (o2 ≤ length s)%nat ∧ ((addr + Z.of_nat o2) mod 8 = 0 ∨ (length s < o2 + 8)%nat) ∧ ((addr + Z.of_nat o2) mod 4 = 0 ∨ (length s < o2 + 4)%nat)).
  { change 7 with (Z.ones 3). rewrite Z.land_ones by lia. change (2 ^ 3) with 8.
    pose proof (Z.div_mod (addr + Z.of_nat o) 4). pose proof (Z.div_mod (addr + Z.of_nat o) 8).
    destruct (Z.eqb_spec ((addr + Z.of_nat o) mod 8) 0); cbn -[Nat.leb]; [exists o; split; [done|]; intuition lia|].
    destruct (Nat.leb_spec (o + 4) (length s)); [|exists o; split; [done|]; intuition lia].
    destruct Hal as [Hal|]; [|lia]. rewrite at_word_lowered by (done || apply lowers32). exists (o + 4)%nat. split; [done|].
    rewrite Nat2Z.inj_add. split; [lia|]. split; left; [|replace (addr + (Z.of_nat o + Z.of_nat 4)) with (addr + Z.of_nat o + 1 * 4) by lia; rewrite Z.mod_add; lia].
    pose proof (Z.mod_pos_bound (addr + Z.of_nat o) 8). apply Z.mod_divide; [lia|].
    exists ((addr + Z.of_nat o) / 8 + 1). lia. }
  destruct H2 as (o2 & -> & Ho2 & H8 & H4). cbn [mbind outcome_bind]. clear o Ho Hal.
  destruct (lower_words_lowered (length s) 8 toLowerAscii64 o2) as (o3 & -> & Ho3 & Hr3 & k & Hk); [apply lowers64|lia|lia|done|].
  cbn [mbind outcome_bind].
  destruct (lower_words_lowered (length s) 4 toLowerAscii32 o3) as (o4 & -> & Ho4 & _); [apply lowers32|lia|lia| |].
  { destruct H4 as [H4|]; [left|right; lia]. replace (addr + Z.of_nat o3) with (addr + Z.of_nat o2 + (2 * k) * Z.of_nat 4) by lia.
    rewrite Z.mod_add; [done|lia]. }
  cbn [mbind outcome_bind]. rewrite lower_chars_lowered by lia. cbn. by rewrite lowered_all.
Qed.
End string.

(** C32. toLowerAscii, working on eight characters at a time, lowers each of the string's
    characters as if one by one, whatever the address it starts at: the bits of one character
    never carry into the next, no word is read or written off its alignment or past the end of the
    string, and the loops end. Bytes outside A to Z, those above 127 included, stay. *)
Theorem toLowerAscii_correct (addr : Z) (str : list Z) :
  Forall byte str → 0 ≤ addr → toLowerAscii addr str = Ret (map lower str).
Proof. intros. by apply toLowerAscii_lower. Qed.

Lemma toLowerAscii_correct_witness : toLowerAscii 1003 [72; 69; 76; 76; 79; 32; 193; 91; 64; 90] =
  Ret (map lower [72; 69; 76; 76; 79; 32; 193; 91; 64; 90]).
Proof. apply toLowerAscii_correct; [repeat constructor; vm_compute; intuition discriminate|lia]. Defined.
End LowerProof.
