(* ===== verification/Uuid.v ===== *)
(** util/Uuid.h and Uuid.cpp: time-based UUIDs. What the system gives (readings of the clock, random bytes, the
    hardware address) is an argument; the readings of gettimeofday are a list, from which each
    call takes as many as it asks for.  Module UuidProof has what they promise. *)
From Stdlib Require Import Sorting.Sorted.
From S2P Require Import Prelude Base64 Strings StringsProof.

Module Uuid.
Local Notation len l := (Z.of_nat (length l)).

Record uuid := mk_uuid { time_low : Z; time_mid : Z; time_hi_and_version : Z; clock_seq : Z; node : list Z }.

(** void uuidPack(const struct uuid *uu, uuid_t ptr) *)
Definition uuidPack (uu : uuid) : list Z :=
  let tmp := time_low uu in
  let out3 := u8 tmp in let tmp := Z.shiftr tmp 8 in
  let out2 := u8 tmp in let tmp := Z.shiftr tmp 8 in
  let out1 := u8 tmp in let tmp := Z.shiftr tmp 8 in
  let out0 := u8 tmp in
  let tmp := time_mid uu in
  let out5 := u8 tmp in let tmp := Z.shiftr tmp 8 in
  let out4 := u8 tmp in
  let tmp := time_hi_and_version uu in
  let out7 := u8 tmp in let tmp := Z.shiftr tmp 8 in
  let out6 := u8 tmp in
  let tmp := clock_seq uu in
  let out9 := u8 tmp in let tmp := Z.shiftr tmp 8 in
  let out8 := u8 tmp in
  [out0; out1; out2; out3; out4; out5; out6; out7; out8; out9] ++ take 6 (node uu).

(** tmp = (tmp << 8) | *ptr++, of a uint32_t. *)
Definition shift_byte (tmp b : Z) : Z := Z.lor (u32 (Z.shiftl tmp 8)) b.
(** void uuidUnpack(const uuid_t in, struct uuid *uu) *)
Definition uuidUnpack (input : list Z) : option uuid :=
  match input with
  | b0 :: b1 :: b2 :: b3 :: b4 :: b5 :: b6 :: b7 :: b8 :: b9 :: ptr =>
      Some (mk_uuid (shift_byte (shift_byte (shift_byte b0 b1) b2) b3) (u16 (shift_byte b4 b5)) (u16 (shift_byte b6 b7)) (u16 (shift_byte b8 b9)) (take 6 ptr))
  | _ => None
  end.

(** ** The clock *)

Record timeval := mk_timeval { tv_sec : Z; tv_usec : Z }.
Definition tv_lt (a b : timeval) : bool := (tv_sec a <? tv_sec b) || ((tv_sec a =? tv_sec b) && (tv_usec a <? tv_usec b)).
Definition tv_eq (a b : timeval) : bool := (tv_sec a =? tv_sec b) && (tv_usec a =? tv_usec b).
Definition MAX_ADJUSTMENT : Z := 10.

(** The variables of getClock that a thread keeps. *)
Record clock := mk_clock { adjustment : Z; last : timeval; seq_ : Z }.
Definition clock0 : clock := mk_clock 0 (mk_timeval 0 0) 0.

(** clock_reg, for a reading and an adjustment. *)
Definition clock_reg (tv : timeval) (adj : Z) : Z :=
  let r := u64 (tv_usec tv * 10 + adj) in
  let r := u64 (r + u64 (u64 (tv_sec tv) * 10000000)) in
  u64 (r + u64 (u64 (Z.shiftl 0x01B21DD2 32) + 0x13814000)).

(** try_again: up to the end of the if. The reading, the new state and the readings left. *)
Fixpoint try_again (c : clock) (times : list timeval) : option (timeval * clock * list timeval) :=
  match times with
  | [] => None
  | tv :: times =>
      if tv_lt tv (last c) then Some (tv, mk_clock 0 tv (Z.land (seq_ c + 1) 0x3FFF), times)
      else if tv_eq tv (last c) then
        if MAX_ADJUSTMENT <=? adjustment c then try_again c times
        else Some (tv, mk_clock (adjustment c + 1) (last c) (seq_ c), times)
      else Some (tv, mk_clock 0 tv (seq_ c), times)
  end.

(** if (num && ( *num > 1)) *)
Definition reserve (num : option Z) (c : clock) : clock :=
  match num with
  | Some n =>
      if 1 <? n then
        let adj := adjustment c + n - 1 in
        let usec := tv_usec (last c) + Z.quot adj 10 in
        mk_clock (Z.rem adj 10) (mk_timeval (tv_sec (last c) + Z.quot usec 1000000) (Z.rem usec 1000000)) (seq_ c)
      else c
  | None => c
  end.

(** getClock: clock_high, clock_low and the sequence number. [rnd] are the bytes that
    randomGetBytes gives for clock_seq. *)
Definition getClock (rnd : Z) (num : option Z) (c : clock) (times : list timeval) : option ((Z * Z * Z) * clock * list timeval) :=
  '(c, times) ← (if (tv_sec (last c) =? 0) && (tv_usec (last c) =? 0) then
                   match times with
                   | [] => None
                   | tv :: times => Some (mk_clock (adjustment c) (mk_timeval (tv_sec tv - 1) (tv_usec tv)) (Z.land (u16 rnd) 0x3FFF), times)
                   end
                 else Some (c, times));
  '(tv, c, times) ← try_again c times;
  let reg := clock_reg tv (adjustment c) in
  let c := reserve num c in
  Some ((u32 (Z.shiftr reg 32), u32 reg, seq_ c), c, times).

(** ** Generating *)

(** What the system gives: getNodeId's address if it finds one, and random bytes. *)
Record system := mk_system { node_id : option (list Z); node_random : list Z; seq_random : Z }.
Definition init_node (s : system) : list Z :=
  match node_id s with
  | Some a => a
  | None => match node_random s with [] => [] | b :: r => Z.lor b 0x01 :: r end
  end.

(** The static variables: node_id of the process, once it is set, and the clock and the variables of
    uuidGenerateTime of the thread. *)
Record vars := mk_vars { saved_node : option (list Z); thread_clock : clock; num_ : Z; uu_ : uuid; last_time : Z }.
Definition vars0 : vars := mk_vars None clock0 0 (mk_uuid 0 0 0 0 []) 0.

Definition internalUuidGenerateTime (s : system) (num : option Z) (v : vars) (times : list timeval) : option (list Z * vars * list timeval) :=
  let nd := default (init_node s) (saved_node v) in
  '(clock_mid, clock_low, seq, c, times) ← getClock (seq_random s) num (thread_clock v) times;
  let uu := mk_uuid clock_low (u16 clock_mid) (Z.lor (Z.land (Z.shiftr clock_mid 16) 0x0FFF) 0x1000) (Z.lor seq 0x8000) nd in
  Some (uuidPack uu, mk_vars (Some nd) c (num_ v) (uu_ v) (last_time v), times).

(** int uuidGenerateTime(uuid_t out), at the time [now]. *)
Definition uuidGenerateTime (s : system) (now : Z) (v : vars) (times : list timeval) : option (list Z * vars * list timeval) :=
  let num := if (0 <? num_ v) && (last_time v + 1 <? now) then 0 else num_ v in
  let num := if num <=? 0 then 0 else num in
  if 0 <? num then
    let low := u32 (time_low (uu_ v) + 1) in
    let mid := if low =? 0 then u16 (time_mid (uu_ v) + 1) else time_mid (uu_ v) in
    let hi := if (low =? 0) && (mid =? 0) then u16 (time_hi_and_version (uu_ v) + 1) else time_hi_and_version (uu_ v) in
    let uu := mk_uuid low mid hi (clock_seq (uu_ v)) (node (uu_ v)) in
    Some (uuidPack uu, mk_vars (saved_node v) (thread_clock v) (num - 1) uu (last_time v), times)
  else internalUuidGenerateTime s None (mk_vars (saved_node v) (thread_clock v) num (uu_ v) (last_time v)) times.

(** std::string uuidGenerateTime() from the bytes on. *)
Definition hex_part (n : nat) (sp out : list Z) : outcome (list Z * list Z) :=
  '(_, out) ← Strings.hexlify (take n sp) out true; Ret (drop n sp, out).
Definition uuid_text (uu : list Z) : outcome (list Z) :=
  '(sp, out) ← hex_part 4 uu [];
  '(sp, out) ← hex_part 2 sp (out ++ [45]);
  '(sp, out) ← hex_part 2 sp (out ++ [45]);
  '(sp, out) ← hex_part 2 sp (out ++ [45]);
  '(sp, out) ← hex_part 6 sp (out ++ [45]);
  Ret out.

(** generateUuid(upstreamUuid, prefix) *)
Definition generateUuid (upstream prefix text : list Z) : list Z :=
  match upstream with [] => prefix ++ [58] ++ text | _ => upstream end.

(** [n] calls in a row. *)
Fixpoint generate (s : system) (now : Z) (n : nat) (v : vars) (times : list timeval) : option (list (list Z) * vars) :=
  match n with
  | O => Some ([], v)
  | S n =>
      '(out, v, times) ← uuidGenerateTime s now v times;
      '(outs, v) ← generate s now n v times;
      Some (out :: outs, v)
  end.
End Uuid.

(** ** What UUIDs promise *)

Module UuidProof.
Import StringsProof Uuid.
Local Notation len l := (Z.of_nat (length l)).

#[global] Instance timeval_eq_dec : EqDecision timeval.
Proof. solve_decision. Defined.

(** ** Packing *)

Definition uuid_ok (uu : uuid) : Prop :=
  0 ≤ time_low uu < 2 ^ 32 ∧ 0 ≤ time_mid uu < 2 ^ 16 ∧ 0 ≤ time_hi_and_version uu < 2 ^ 16 ∧ 0 ≤ clock_seq uu < 2 ^ 16 ∧ length (node uu) = 6%nat.

Lemma shift_byte_add tmp b : 0 ≤ tmp < 2 ^ 24 → 0 ≤ b < 256 → shift_byte tmp b = 256 * tmp + b.
Proof. intros Ht Hb. unfold shift_byte. rewrite Base64.shift_in by lia. rewrite u32_small; lia. Qed.
Lemma u8_parts x : u8 x + 256 * Z.shiftr x 8 = x.
Proof. unfold u8. rewrite Z.shiftr_div_pow2 by lia. pose proof (Z.div_mod x (2 ^ 8)). lia. Qed.
Lemma shiftr_range x k : 0 ≤ x < 2 ^ k → 8 ≤ k → 0 ≤ Z.shiftr x 8 < 2 ^ (k - 8).
Proof.
  intros Hx Hk. rewrite Z.shiftr_div_pow2 by lia. split; [apply Z.div_pos; lia|]. apply Z.div_lt_upper_bound; [lia|].
  rewrite <- Z.pow_add_r by lia. replace (8 + (k - 8)) with k by lia. lia.
Qed.

(** Two bytes and four bytes, shifted out and in. *)
Lemma two_bytes x : 0 ≤ x < 2 ^ 16 → shift_byte (u8 (Z.shiftr x 8)) (u8 x) = x.
Proof.
  intros Hx. pose proof (shiftr_range x 16 Hx ltac:(lia)) as H1. pose proof (u8_range x). change (16 - 8) with 8 in H1.
  rewrite (u8_small (Z.shiftr x 8)) by done. rewrite shift_byte_add by lia. rewrite <- (u8_parts x) at 3. lia.
Qed.
Lemma four_bytes x : 0 ≤ x < 2 ^ 32 →
  shift_byte (shift_byte (shift_byte (u8 (Z.shiftr (Z.shiftr (Z.shiftr x 8) 8) 8)) (u8 (Z.shiftr (Z.shiftr x 8) 8))) (u8 (Z.shiftr x 8))) (u8 x) = x.
Proof.
  intros Hx. pose proof (shiftr_range x 32 Hx ltac:(lia)) as H1. change (32 - 8) with 24 in H1. pose proof (shiftr_range _ 24 H1 ltac:(lia)) as H2.
  change (24 - 8) with 16 in H2. rewrite two_bytes by done. pose proof (u8_range (Z.shiftr x 8)). pose proof (u8_range x).
  rewrite (shift_byte_add (Z.shiftr (Z.shiftr x 8) 8)) by lia. pose proof (u8_parts (Z.shiftr x 8)). rewrite shift_byte_add by (apply u8_range || lia). pose proof (u8_parts x). lia.
Qed.

(** Packing a UUID in its sixteen bytes and unpacking them gives every field back. *)
Lemma uuid_roundtrip uu : uuid_ok uu → length (uuidPack uu) = 16%nat ∧ uuidUnpack (uuidPack uu) = Some uu.
Proof.
  intros (H1 & H2 & H3 & H4 & H5). destruct uu as [lo mi hi sq nd]; cbn [time_low time_mid time_hi_and_version clock_seq node] in *.
  unfold uuidPack. cbn [time_low time_mid time_hi_and_version clock_seq node]. rewrite take_ge by lia. split; [cbn; lia|].
  cbn [app uuidUnpack]. rewrite four_bytes, !two_bytes, !u16_small, take_ge by (done || lia). done.
Qed.

(** ** The time in a UUID *)

Definition OFFSET : Z := 0x01B21DD213814000.
Definition micros (tv : timeval) : Z := tv_sec tv * 1000000 + tv_usec tv.
Definition tv_ok (tv : timeval) : Prop := 1 ≤ tv_sec tv < 10 ^ 11 ∧ 0 ≤ tv_usec tv < 1000000.
Definition ticks (tv : timeval) (adj : Z) : Z := 10 * micros tv + adj + OFFSET.

Lemma clock_reg_ticks tv adj : tv_ok tv → 0 ≤ adj ≤ 10 → clock_reg tv adj = ticks tv adj ∧ 0 ≤ ticks tv adj < 2 ^ 60.
Proof.
  intros [Hs Hu] Ha. unfold ticks, micros, OFFSET. split; [|lia]. unfold clock_reg. cbv zeta.
  change (u64 (u64 (Z.shiftl 28450258 32) + 327237632)) with 0x01B21DD213814000.
  rewrite (u64_small (tv_sec tv)), (u64_small (tv_sec tv * _)), (u64_small (tv_usec tv * _ + _)) by lia.
  rewrite (u64_small (_ + tv_sec tv * _)), u64_small by lia. lia.
Qed.
Lemma micros_inj a b : tv_ok a → tv_ok b → micros a = micros b → a = b.
Proof. destruct a, b. unfold tv_ok, micros. cbn. intros ? ? ?. f_equal; lia. Qed.

(** The sixty bits of the time, from the bytes. *)
Definition stamp (bs : list Z) : Z :=
  match uuidUnpack bs with
  | Some uu => time_low uu + 2 ^ 32 * (time_mid uu + 2 ^ 16 * Z.land (time_hi_and_version uu) 0xFFF)
  | None => 0
  end.

Lemma set_bit k x : 0 ≤ k ≤ 31 → 0 ≤ x < 2 ^ k → Z.lor x (2 ^ k) = 2 ^ k + x.
Proof.
  intros Hk Hx. pose proof (Z.pow_le_mono_r 2 k 31). pose proof (Z.pow_pos_nonneg 2 k).
  pose proof (Base64.shift_in 1 k x ltac:(lia) Hx) as H1. rewrite Z.shiftl_mul_pow2, Z.mul_1_l in H1 by lia.
  rewrite (u32_small (2 ^ k)), (u32_small (2 ^ k + x)) in H1 by lia. by rewrite Z.lor_comm.
Qed.

Lemma stamp_pack reg sq nd : 0 ≤ reg < 2 ^ 60 → 0 ≤ sq < 2 ^ 14 → length nd = 6%nat →
  let mid := u32 (Z.shiftr reg 32) in
  stamp (uuidPack (mk_uuid (u32 reg) (u16 mid) (Z.lor (Z.land (Z.shiftr mid 16) 0x0FFF) 0x1000) (Z.lor sq 0x8000) nd)) = reg.
Proof.
  intros Hr Hs Hn mid. assert (Hmid : mid = reg / 2 ^ 32 ∧ 0 ≤ mid < 2 ^ 28).
  { assert (0 ≤ reg / 2 ^ 32 < 2 ^ 28) by (split; [apply Z.div_pos; lia|apply Z.div_lt_upper_bound; lia]).
    subst mid. rewrite Z.shiftr_div_pow2, u32_small; lia. }
  destruct Hmid as [Em Hm]. clearbody mid.
  assert (Hh : 0 ≤ mid / 2 ^ 16 < 2 ^ 12) by (split; [apply Z.div_pos; lia|apply Z.div_lt_upper_bound; lia]).
  change 0x0FFF with (Z.ones 12). rewrite Z.shiftr_div_pow2, Z.land_ones, (Z.mod_small (mid / 2 ^ 16)) by lia.
  change 0x1000 with (2 ^ 12). change 0x8000 with (2 ^ 15). rewrite !set_bit by lia.
  unfold stamp. destruct (uuid_roundtrip (mk_uuid (u32 reg) (u16 mid) (2 ^ 12 + mid / 2 ^ 16) (2 ^ 15 + sq) nd)) as [_ ->].
  { split_and!; cbn; try (apply u32_range || apply u16_range); lia. }
  cbn [time_low time_mid time_hi_and_version]. change 0xFFF with (Z.ones 12). rewrite Z.land_ones by lia.
  replace (2 ^ 12 + mid / 2 ^ 16) with (mid / 2 ^ 16 + 1 * 2 ^ 12) by lia. rewrite Z.mod_add, Z.mod_small by lia.
  unfold u32, u16. pose proof (Z.div_mod mid (2 ^ 16)). pose proof (Z.div_mod reg (2 ^ 32)). lia.
Qed.

(** ** A thread's calls *)

(** How often a reading occurs. *)
Definition occ (tv : timeval) (l : list timeval) : Z := len (filter (fun x => x = tv) l).
Definition not_after (a b : timeval) : Prop := micros a ≤ micros b.

Record steady (c : clock) (times : list timeval) : Prop := {
  st_last : tv_ok (last c);
  st_adj : 0 ≤ adjustment c;
  st_seq : 0 ≤ seq_ c < 2 ^ 14;
  st_ok : Forall tv_ok times;
  st_order : StronglySorted not_after (last c :: times);
  st_room : adjustment c + occ (last c) times ≤ 9;
  st_few : ∀ tv, occ tv times ≤ 10
}.

Lemma reading_cons tv x l : occ tv (x :: l) = (if decide (x = tv) then 1 else 0) + occ tv l.
Proof. unfold occ. rewrite filter_cons. destruct (decide (x = tv)); cbn [length]; lia. Qed.
Lemma tv_lt_micros a b : tv_ok a → tv_ok b → tv_lt a b = (micros a <? micros b).
Proof.
  unfold tv_ok, tv_lt, micros. intros ? ?. destruct (Z.ltb_spec (tv_sec a) (tv_sec b)), (Z.eqb_spec (tv_sec a) (tv_sec b)), (Z.ltb_spec (tv_usec a) (tv_usec b));
    cbn; symmetry; rewrite ?Z.ltb_lt, ?Z.ltb_ge; lia.
Qed.
Lemma tv_eq_spec a b : tv_eq a b = bool_decide (a = b).
Proof.
  destruct a, b. unfold tv_eq. cbn. case_bool_decide as E; [injection E as -> ->; by rewrite !Z.eqb_refl|].
  apply andb_false_iff. rewrite !Z.eqb_neq. destruct (decide (tv_sec0 = tv_sec1)); [right|by left]. intros ->. by subst.
Qed.

(** One call takes one reading and moves the time forward. *)
Lemma getClock_step rnd c tv times : steady c (tv :: times) → ∃ c',
  let reg := ticks (last c') (adjustment c') in
  getClock rnd None c (tv :: times) = Some ((u32 (Z.shiftr reg 32), u32 reg, seq_ c'), c', times) ∧
  steady c' times ∧ ticks (last c) (adjustment c) < reg < 2 ^ 60.
Proof.
  intros [Hl Ha Hq Hok Hs Hr Hf]. inversion Hok as [|? ? Htv Hok']; subst. inversion Hs as [|? ? Hs' Hall]; subst. inversion Hall as [|? ? Hle Hall']; subst.
  assert (Hi : (tv_sec (last c) =? 0) && (tv_usec (last c) =? 0) = false) by (destruct Hl; rewrite (proj2 (Z.eqb_neq _ _)) by lia; done).
  pose proof (Hf tv) as Hf1. rewrite reading_cons in Hr, Hf1. rewrite (decide_True (P := tv = tv)) in Hf1 by done.
  assert (Hf' : ∀ x, occ x times ≤ 10) by (intros x; specialize (Hf x); rewrite reading_cons in Hf; destruct (decide (tv = x)); lia).
  unfold not_after in Hle. assert (Hn : 0 ≤ occ (last c) times) by (unfold occ; lia).
  unfold getClock. rewrite Hi. cbn [mbind option_bind try_again]. rewrite tv_lt_micros, tv_eq_spec by done.
  rewrite (proj2 (Z.ltb_ge _ _)) by lia. destruct (decide (tv = last c)) as [->|Hne].
  - rewrite bool_decide_eq_true_2 by done. unfold MAX_ADJUSTMENT. rewrite (proj2 (Z.leb_gt _ _)) by lia. cbn [mbind option_bind reserve seq_ adjustment].
    destruct (clock_reg_ticks (last c) (adjustment c + 1) Hl ltac:(lia)) as [-> Hb].
    exists (mk_clock (adjustment c + 1) (last c) (seq_ c)). cbn [last adjustment seq_]. split; [done|]. split; [|unfold ticks in *; lia].
    split; cbn; try done; lia.
  - rewrite bool_decide_eq_false_2 by done. cbn [mbind option_bind reserve seq_ adjustment].
    assert (micros (last c) ≠ micros tv) by (intros E; apply Hne; symmetry; by apply micros_inj).
    destruct (clock_reg_ticks tv 0 Htv ltac:(lia)) as [-> Hb].
    exists (mk_clock 0 tv (seq_ c)). cbn [last adjustment seq_]. split; [done|]. split; [|unfold ticks in *; lia].
    split; cbn; try done; lia.
Qed.

Lemma generate_steady s now n : length (init_node s) = 6%nat → ∀ v times,
  steady (thread_clock v) times → num_ v = 0 → length (default (init_node s) (saved_node v)) = 6%nat → (n ≤ length times)%nat →
  ∃ outs v', generate s now n v times = Some (outs, v') ∧ length outs = n ∧
    StronglySorted Z.lt (ticks (last (thread_clock v)) (adjustment (thread_clock v)) :: map stamp outs).
Proof.
  intros Hnode. induction n as [|n IH]; intros v times Hst Hnum Hnd Hn; [exists [], v; cbn; repeat constructor|].
  destruct times as [|tv times]; [cbn in Hn; lia|]. destruct (getClock_step (seq_random s) _ _ _ Hst) as (c' & Hg & Hst' & Hlt & H60).
  cbn [generate]. unfold uuidGenerateTime, internalUuidGenerateTime. rewrite Hnum. cbn [Z.ltb Z.leb Z.compare andb thread_clock saved_node].
  rewrite Hg. cbn [mbind option_bind]. set (nd := default _ _) in *. set (v1 := mk_vars (Some nd) c' _ _ _).
  destruct (IH v1 times Hst' eq_refl) as (outs & v' & Hgen & Hlen & Hsort); [done|cbn in Hn; lia|]. rewrite Hgen. cbn [mbind option_bind].
  eexists _, v'. split; [done|]. split; [cbn; lia|]. cbn [map]. subst v1. cbn [thread_clock] in Hsort.
  rewrite stamp_pack; [|split; [|exact H60]; destruct Hst' as [Hl Ha _ _ _ Hr _]; pose proof (clock_reg_ticks _ (adjustment c') Hl); unfold occ in Hr; lia|apply Hst'|done].
  constructor; [done|]. constructor; [done|]. inversion Hsort as [|? ? _ Hall]; subst. eapply Forall_impl; [exact Hall|]. intros x Hx. cbn in *. lia.
Qed.

Lemma sorted_distinct {A} (f : A → Z) l : StronglySorted Z.lt (map f l) → NoDup l.
Proof.
  induction l as [|x l IH]; intros H; [constructor|]. inversion H as [|? ? Hl Hx]; subst. constructor; [|auto].
  intros Hin. rewrite list.Forall_forall in Hx. specialize (Hx (f x)). assert (f x ∈ map f l) as Hm by (apply list_elem_of_fmap; eauto). specialize (Hx Hm). lia.
Qed.

(** The first call sets the clock a second back from its first reading. *)
Definition first_clock (s : system) (tv : timeval) : clock :=
  mk_clock 0 (mk_timeval (tv_sec tv - 1) (tv_usec tv)) (Z.land (u16 (seq_random s)) 0x3FFF).
Lemma generate_first s now n tv times : 2 ≤ tv_sec tv →
  generate s now (S n) vars0 (tv :: times) = generate s now (S n) (mk_vars None (first_clock s tv) 0 (uu_ vars0) 0) times.
Proof.
  intros Hs. assert (getClock (seq_random s) None clock0 (tv :: times) = getClock (seq_random s) None (first_clock s tv) times) as E.
  { unfold getClock at 2. cbn [first_clock last tv_sec tv_usec]. rewrite (proj2 (Z.eqb_neq (tv_sec tv - 1) 0)) by lia. done. }
  cbn [generate]. unfold uuidGenerateTime, internalUuidGenerateTime. cbn [vars0 num_ thread_clock saved_node uu_ last_time andb Z.ltb Z.leb Z.compare].
  by rewrite E.
Qed.

Lemma first_steady s tv times : 2 ≤ tv_sec tv → Forall tv_ok (tv :: times) → StronglySorted not_after (tv :: times) → (∀ x, occ x times ≤ 10) →
  steady (first_clock s tv) times.
Proof.
  intros Hs Hok Hord Hf. inversion Hok as [|? ? Htv Hok']; subst. inversion Hord as [|? ? Hord' Hall]; subst.
  assert (Hm : micros (last (first_clock s tv)) = micros tv - 1000000) by (unfold micros; cbn; lia).
  split; cbn [first_clock adjustment last seq_]; try done.
  - destruct Htv. split; cbn; lia.
  - change 0x3FFF with (Z.ones 14). rewrite Z.land_ones by lia. apply Z.mod_pos_bound. lia.
  - constructor; [done|]. eapply Forall_impl; [exact Hall|]. unfold not_after. intros x Hx. cbn [first_clock last] in Hm. lia.
  - assert (occ (last (first_clock s tv)) times = 0) as E; [|cbn [first_clock last] in E; lia]. unfold occ.
    destruct (filter (fun x => x = last (first_clock s tv)) times) as [|x l] eqn:E; [done|].
    assert (x ∈ x :: l) as Hx by set_solver. rewrite <- E in Hx. apply list_elem_of_filter in Hx as [-> Hx].
    rewrite list.Forall_forall in Hall. specialize (Hall _ Hx). unfold not_after in Hall. lia.
Qed.

(** The UUIDs that a thread makes differ from each other: n calls, from the first one on, return n
    UUIDs, no two of them equal, as long as the clock does not go back and no reading of it comes more than ten
    times. (Times are those of the years up to 5138, for which the sixty bits are enough.) *)
Theorem uuids_distinct s now n tv times :
  length (init_node s) = 6%nat → Forall (fun t => tv_ok t ∧ 2 ≤ tv_sec t) (tv :: times) → StronglySorted not_after (tv :: times) →
  (∀ x, occ x times ≤ 10) → (n ≤ length times)%nat →
  ∃ outs v, generate s now n vars0 (tv :: times) = Some (outs, v) ∧ length outs = n ∧ NoDup outs.
Proof.
  intros Hnode Hok Hord Hf Hn. destruct n as [|n]; [exists [], vars0; repeat constructor|].
  assert (2 ≤ tv_sec tv) as H2 by (inversion Hok; naive_solver). rewrite generate_first by done.
  destruct (generate_steady s now (S n) Hnode (mk_vars None (first_clock s tv) 0 (uu_ vars0) 0) times) as (outs & v & -> & Hl & Hs); try done.
  - apply first_steady; try done. eapply Forall_impl; [exact Hok|]. by intros ? [? _].
  - exists outs, v. split; [done|]. split; [done|]. inversion Hs; subst. by eapply sorted_distinct.
Qed.

(** The eleventh call within a microsecond, whose adjustment is ten, and the first call of the next one return
    the same UUID. *)
Definition demo_system : system := mk_system None [2; 3; 4; 5; 6; 7] 0x1234.
Definition at_us (u : Z) : timeval := mk_timeval 1500000000 u.
Theorem uuid_repeats : ∃ outs v u, generate demo_system 0 12 vars0 (at_us 6 :: repeat (at_us 7) 11 ++ [at_us 8]) = Some (outs, v) ∧
  outs !! 10%nat = Some u ∧ outs !! 11%nat = Some u.
Proof. eexists _, _, _. split; [vm_compute; reflexivity|]. split; reflexivity. Qed.

Lemma uuids_distinct_witness : ∃ outs v, generate demo_system 0 11 vars0 (at_us 6 :: repeat (at_us 7) 10 ++ [at_us 8]) = Some (outs, v) ∧ NoDup outs.
Proof.
  destruct (uuids_distinct demo_system 0 11 (at_us 6) (repeat (at_us 7) 10 ++ [at_us 8])) as (outs & v & Hg & _ & Hd);
    [reflexivity| | | |apply Nat.leb_le; reflexivity|exists outs, v; exact (conj Hg Hd)].
  - repeat constructor; unfold tv_ok; cbn; lia.
  - repeat constructor; unfold not_after, micros; cbn; lia.
  - intros x. unfold occ. cbn [repeat app]. rewrite !filter_cons, filter_nil. repeat case_decide; subst; cbn; try lia; try done.
Defined.

(** ** The text *)
Lemma hex_part_eq n sp out : Forall byte (take n sp) → hex_part n sp out = Ret (drop n sp, out ++ flat_map hex (take n sp)).
Proof. intros H. unfold hex_part. by rewrite hexlify_eq. Qed.
(** The bytes in hexadecimal, with a dash after the fourth, the sixth, the eighth and the tenth. *)
Theorem uuid_text_eq uu : Forall byte uu → length uu = 16%nat →
  uuid_text uu = Ret (flat_map hex (take 4 uu) ++ [45] ++ flat_map hex (take 2 (drop 4 uu)) ++ [45] ++ flat_map hex (take 2 (drop 6 uu)) ++ [45] ++
    flat_map hex (take 2 (drop 8 uu)) ++ [45] ++ flat_map hex (drop 10 uu)).
Proof.
  intros Hb Hl. unfold uuid_text. rewrite !hex_part_eq by (by repeat (apply Forall_take || apply Forall_drop)). cbn [mbind outcome_bind].
  repeat (rewrite hex_part_eq by (by repeat (apply Forall_take || apply Forall_drop)); cbn [mbind outcome_bind]).
  rewrite !drop_drop. rewrite (take_ge (drop _ uu) 6) by (rewrite length_drop; lia). by rewrite <- !app_assoc.
Qed.
End UuidProof.
