(* ===== verification/Threads.v ===== *)
(** Threads that share memory: a piece of code is the sequence of its accesses to
    the shared state, each of which happens at once; a system interleaves the
    accesses of its threads in the order of a schedule.  Threads in a given place of
    their code are counted by [count]. *)
From S2P Require Import Prelude.

(** The accesses still to be made by a call that will return an [R]. *)
Inductive prog (S R : Type) : Type :=
| PRet (r : R)
| PAct (f : S → outcome (S * prog S R)).
Arguments PRet {S R} r.
Arguments PAct {S R} f.

(** Running a call alone. *)
Fixpoint alone {S R} (fuel : nat) (p : prog S R) (s : S) : outcome (R * S) :=
  match fuel, p with
  | _, PRet r => Ret (r, s)
  | O, _ => Err OutOfFuel
  | S fuel, PAct f => '(s, p) ← f s; alone fuel p s
  end.

(** A thread: the calls it has yet to make, the one it is in, and what the
    finished ones returned. *)
Record thread (S O R : Type) := mk_thread {
  todo : list O;
  cur : option (O * prog S R);
  results : list (O * R)
}.
Arguments mk_thread {S O R}.
Arguments todo {S O R}.
Arguments cur {S O R}.
Arguments results {S O R}.

Section thread_step.
Context {S O R : Type} (code : O → prog S R).

(** What is left of a call after an access. *)
Definition after (o : O) (p : prog S R) (t : thread S O R) : thread S O R :=
  match p with
  | PRet r => mk_thread (todo t) None (results t ++ [(o, r)])
  | PAct _ => mk_thread (todo t) (Some (o, p)) (results t)
  end.

(** The next access of a thread; a thread that has nothing to do stands still. *)
Definition thread_step (t : thread S O R) (s : S) : outcome (S * thread S O R) :=
  match cur t with
  | Some (o, PAct f) => '(s, p) ← f s; Ret (s, after o p t)
  | Some (o, PRet r) => Ret (s, mk_thread (todo t) None (results t ++ [(o, r)]))
  | None =>
      match todo t with
      | [] => Ret (s, t)
      | o :: os => Ret (s, after o (code o) (mk_thread os None (results t)))
      end
  end.
End thread_step.

(** ** Counting threads: the elements that satisfy a test, and replacing one of them *)
Definition count {A} (f : A → bool) (l : list A) : Z := Z.of_nat (length (filter (fun x => f x = true) l)).

Lemma count_cons {A} (f : A → bool) x l : count f (x :: l) = Z.b2z (f x) + count f l.
Proof. unfold count. rewrite filter_cons. destruct (f x); cbn [Z.b2z]; case_decide; try done; cbn [length]; lia. Qed.

Lemma count_insert {A} (f : A → bool) l i x y : l !! i = Some x →
  count f (<[i := y]> l) = count f l - Z.b2z (f x) + Z.b2z (f y).
Proof.
  revert i. induction l as [|z l IH]; intros [|i] Hi; try done.
  - injection Hi as ->. change (<[0%nat := y]> (x :: l)) with (y :: l). rewrite !count_cons. lia.
  - change (<[S i := y]> (z :: l)) with (z :: <[i := y]> l). rewrite !count_cons, (IH i Hi). lia.
Qed.

Lemma count_nonneg {A} (f : A → bool) l : 0 ≤ count f l.
Proof. unfold count. lia. Qed.

Lemma count_pos {A} (f : A → bool) l i x : l !! i = Some x → f x = true → 0 < count f l.
Proof.
  intros Hi Hf. unfold count. assert (x ∈ filter (fun x => f x = true) l) as Hin.
  { apply list_elem_of_filter. split; [done|by eapply list_elem_of_lookup_2]. }
  destruct (filter _ l); [by apply elem_of_nil in Hin|cbn; lia].
Qed.

Lemma count_zero {A} (f : A → bool) l : (∀ x, x ∈ l → f x = false) → count f l = 0.
Proof.
  induction l as [|x l IH]; intros H; [done|]. rewrite count_cons, H by by left. cbn. apply IH. intros y Hy. apply H. by right.
Qed.

Lemma count_disjoint {A} (f g : A → bool) l : (∀ x, f x = true → g x = false) → count f l + count g l ≤ Z.of_nat (length l).
Proof.
  intros H. induction l as [|x l IH]; [done|]. rewrite !count_cons. cbn [length].
  specialize (H x). destruct (f x); [rewrite H by done|]; [|destruct (g x)]; cbn [Z.b2z]; lia.
Qed.
