(* ===== verification/Queue.v ===== *)
(** util/ProducerConsumerQueue.h: the queue of one producer and one consumer
    without locks. The methods are given access by access, so that the two
    threads interleave at every access to the indices and to a slot; the accesses
    are those of a sequentially consistent memory. A slot is raw memory ([None])
    or holds a constructed record. *)
From S2P Require Import Prelude Threads.

Module ProducerConsumerQueue.
Section queue.
Context {T : Type}.

Record queue := mk_queue {
  size_ : Z;
  records_ : list (option T);
  readIndex_ : Z;
  writeIndex_ : Z
}.

(** ProducerConsumerQueue(size) *)
Definition create (size : Z) : outcome queue :=
  _ ← check (2 <=? size) AssertFailed;
  Ret (mk_queue size (replicate (Z.to_nat size) None) 0 0).

Definition with_records x q := mk_queue (size_ q) x (readIndex_ q) (writeIndex_ q).
Definition with_readIndex x q := mk_queue (size_ q) (records_ q) x (writeIndex_ q).
Definition with_writeIndex x q := mk_queue (size_ q) (records_ q) (readIndex_ q) x.

(** currentIndex + 1, and 0 at the end. *)
Definition nextRecord (i : Z) (q : queue) : Z := if u32 (i + 1) =? size_ q then 0 else u32 (i + 1).

(** new (&records_[i]) T(v), a read of records_[i], and its destruction. *)
Definition construct_at (i : Z) (v : T) (q : queue) : outcome queue :=
  match records_ q !! Z.to_nat i with
  | Some None => Ret (with_records (<[Z.to_nat i := Some v]> (records_ q)) q)
  | _ => Err Undefined
  end.
Definition record_at (i : Z) (q : queue) : outcome T :=
  match records_ q !! Z.to_nat i with Some (Some v) => Ret v | _ => Err Undefined end.
Definition destroy_at (i : Z) (q : queue) : outcome queue :=
  match records_ q !! Z.to_nat i with
  | Some (Some _) => Ret (with_records (<[Z.to_nat i := None]> (records_ q)) q)
  | _ => Err Undefined
  end.

(** What a call returns. *)
Inductive res := RBool (b : bool) | RValue (v : option T) | RNum (n : Z).
Notation code := (prog queue res).

(** bool write(v) *)
Definition write_store (next : Z) : code :=
  PAct (fun q => Ret (with_writeIndex next q, PRet (RBool true))).
Definition write_construct (v : T) (currentWrite next : Z) : code :=
  PAct (fun q => q ← construct_at currentWrite v q; Ret (q, write_store next)).
Definition write_check (v : T) (currentWrite : Z) : code :=
  PAct (fun q => let next := nextRecord currentWrite q in
    Ret (q, if negb (next =? readIndex_ q) then write_construct v currentWrite next else PRet (RBool false))).
Definition write (v : T) : code := PAct (fun q => Ret (q, write_check v (writeIndex_ q))).

(** bool read(T&): the value read, if there is one. *)
Definition read_store (next : Z) (r : res) : code := PAct (fun q => Ret (with_readIndex next q, PRet r)).
Definition read_destroy (currentRead : Z) (v : T) : code :=
  PAct (fun q => q' ← destroy_at currentRead q; Ret (q', read_store (nextRecord currentRead q) (RValue (Some v)))).
Definition read_move (currentRead : Z) : code :=
  PAct (fun q => v ← record_at currentRead q; Ret (q, read_destroy currentRead v)).
Definition read_check (currentRead : Z) : code :=
  PAct (fun q => Ret (q, if currentRead =? writeIndex_ q then PRet (RValue None) else read_move currentRead)).
Definition read : code := PAct (fun q => Ret (q, read_check (readIndex_ q))).

(** void popFront(): [r] is what the caller has of the front record. *)
Definition popFront_destroy (currentRead : Z) (r : res) : code :=
  PAct (fun q => q' ← destroy_at currentRead q; Ret (q', read_store (nextRecord currentRead q) r)).
Definition popFront_check (currentRead : Z) (r : res) : code :=
  PAct (fun q => _ ← check (negb (currentRead =? writeIndex_ q)) AssertFailed; Ret (q, popFront_destroy currentRead r)).
Definition popFront (r : res) : code := PAct (fun q => Ret (q, popFront_check (readIndex_ q) r)).

(** T* frontPtr(), used in place: the record is read through the pointer and then
    popped. *)
Definition front_use (currentRead : Z) : code :=
  PAct (fun q => v ← record_at currentRead q; Ret (q, popFront (RValue (Some v)))).
Definition front_check (currentRead : Z) : code :=
  PAct (fun q => Ret (q, if currentRead =? writeIndex_ q then PRet (RValue None) else front_use currentRead)).
Definition frontPtr : code := PAct (fun q => Ret (q, front_check (readIndex_ q))).

Definition isEmpty_check (r : Z) : code := PAct (fun q => Ret (q, PRet (RBool (r =? writeIndex_ q)))).
Definition isEmpty : code := PAct (fun q => Ret (q, isEmpty_check (readIndex_ q))).

Definition isFull_check (w : Z) : code := PAct (fun q => Ret (q, PRet (RBool (nextRecord w q =? readIndex_ q)))).
Definition isFull : code := PAct (fun q => Ret (q, isFull_check (writeIndex_ q))).

(** int ret = write - read; if (ret < 0) ret += size_; *)
Definition s32 (x : Z) : Z := let y := u32 x in if y <? 2 ^ 31 then y else y - 2 ^ 32.
Definition sizeGuess_sub (w : Z) : code :=
  PAct (fun q => let ret := s32 (w - readIndex_ q) in
                 Ret (q, PRet (RNum (if ret <? 0 then s32 (ret + size_ q) else ret)))).
Definition sizeGuess : code := PAct (fun q => Ret (q, sizeGuess_sub (writeIndex_ q))).

(** ~ProducerConsumerQueue: the records left are destroyed. *)
Fixpoint destroy_loop (fuel : nat) (readIndex endIndex : Z) (q : queue) : outcome queue :=
  match fuel with
  | O => Err OutOfFuel
  | S fuel =>
      if readIndex =? endIndex then Ret q else
      q ← destroy_at readIndex q;
      let readIndex := readIndex + 1 in
      destroy_loop fuel (if readIndex =? size_ q then 0 else readIndex) endIndex q
  end.
Definition destroy (q : queue) : outcome queue :=
  destroy_loop (S (Z.to_nat (size_ q))) (readIndex_ q) (writeIndex_ q) q.

(** ** Two threads *)

(** What the producer and the consumer may call. *)
Inductive pop_ := PWrite (v : T) | PFull | PSize.
Inductive cop := CRead | CFront | CEmpty | CSize.

Definition pcode (o : pop_) : code := match o with PWrite v => write v | PFull => isFull | PSize => sizeGuess end.
Definition ccode (o : cop) : code :=
  match o with CRead => read | CFront => frontPtr | CEmpty => isEmpty | CSize => sizeGuess end.

Record system := mk_system {
  shared : queue;
  producer : thread queue pop_ res;
  consumer : thread queue cop res
}.

(** One access, of the producer or of the consumer. *)
Definition tick (who : bool) (y : system) : outcome system :=
  if who
  then '(q, t) ← thread_step pcode (producer y) (shared y); Ret (mk_system q t (consumer y))
  else '(q, t) ← thread_step ccode (consumer y) (shared y); Ret (mk_system q (producer y) t).

Fixpoint run (schedule : list bool) (y : system) : outcome system :=
  match schedule with [] => Ret y | b :: l => y ← tick b y; run l y end.

Definition start (size : Z) (ps : list pop_) (cs : list cop) : outcome system :=
  q ← create size; Ret (mk_system q (mk_thread ps None []) (mk_thread cs None [])).

(** The values the producer was told were queued, and those the consumer got. *)
Definition accepted (y : system) : list T :=
  omap (fun '(o, r) => match o, r with PWrite v, RBool true => Some v | _, _ => None end) (results (producer y)).
Definition received (y : system) : list T :=
  omap (fun '(o, r) => match r with RValue (Some v) => Some v | _ => None end) (results (consumer y)).
End queue.
End ProducerConsumerQueue.
