(* ===== verification/QueueProof.v ===== *)
(** The queue of one producer and one consumer, proved: whatever the interleaving,
    no slot is misused, the consumer gets what the producer queued in that order,
    and no call waits for the other thread. *)
From S2P Require Import Prelude Threads Queue.
Import ProducerConsumerQueue.

Section proof.
Context {T : Type}.
Implicit Types (q : @queue T) (l : list T) (v : T).
Notation code := (prog (@queue T) (@res T)).

(** How far [i] is after [r] round the ring. *)
Definition dist (n r i : Z) : Z := if i <? r then i - r + n else i - r.

(** What slot [i] holds: the queued record at that distance, nothing if the
    consumer took it out already ([hole]), the record the producer is about to
    publish ([extra]), or nothing. *)
Definition content (n r w : Z) l (hole : bool) (extra : option T) (i : Z) : option T :=
  let k := dist n r i in
  if k <? Z.of_nat (length l)
  then if hole && (k =? 0) then None else l !! Z.to_nat k
  else if i =? w then extra else None.

(** The points of a producer's call, with the number of steps it has left. *)
Inductive pstate (n w len : Z) : option (@pop_ T * code) → option T → nat → Prop :=
| PS_idle : pstate n w len None None 0
| PS_write v : pstate n w len (Some (PWrite v, write v)) None 4
| PS_check v : pstate n w len (Some (PWrite v, write_check v w)) None 3
| PS_construct v next : len < n - 1 → next = (if w + 1 =? n then 0 else w + 1) →
    pstate n w len (Some (PWrite v, write_construct v w next)) None 2
| PS_store v next : len < n - 1 → next = (if w + 1 =? n then 0 else w + 1) →
    pstate n w len (Some (PWrite v, write_store next)) (Some v) 1
| PS_full : pstate n w len (Some (PFull, isFull)) None 2
| PS_full_check : pstate n w len (Some (PFull, isFull_check w)) None 1
| PS_size : pstate n w len (Some (PSize, sizeGuess)) None 2
| PS_size_sub : pstate n w len (Some (PSize, sizeGuess_sub w)) None 1.

(** The points of a consumer's call. *)
Inductive cstate (n r : Z) l : option (cop * code) → bool → nat → Prop :=
| CS_idle : cstate n r l None false 0
| CS_read : cstate n r l (Some (CRead, read)) false 5
| CS_read_check : cstate n r l (Some (CRead, read_check r)) false 4
| CS_read_move : l ≠ [] → cstate n r l (Some (CRead, read_move r)) false 3
| CS_read_destroy v : head l = Some v → cstate n r l (Some (CRead, read_destroy r v)) false 2
| CS_store o v next : head l = Some v → next = (if r + 1 =? n then 0 else r + 1) →
    cstate n r l (Some (o, read_store next (RValue (Some v)))) true 1
| CS_front : cstate n r l (Some (CFront, frontPtr)) false 7
| CS_front_check : cstate n r l (Some (CFront, front_check r)) false 6
| CS_front_use : l ≠ [] → cstate n r l (Some (CFront, front_use r)) false 5
| CS_pop v : head l = Some v → cstate n r l (Some (CFront, popFront (RValue (Some v)))) false 4
| CS_pop_check v : head l = Some v → cstate n r l (Some (CFront, popFront_check r (RValue (Some v)))) false 3
| CS_pop_destroy v : head l = Some v → cstate n r l (Some (CFront, popFront_destroy r (RValue (Some v)))) false 2
| CS_empty : cstate n r l (Some (CEmpty, isEmpty)) false 2
| CS_empty_check : cstate n r l (Some (CEmpty, isEmpty_check r)) false 1
| CS_size : cstate n r l (Some (CSize, sizeGuess)) false 2
| CS_size_sub w : cstate n r l (Some (CSize, sizeGuess_sub w)) false 1.

(** The shared part. *)
Record ring (n : Z) q l (hole : bool) (extra : option T) : Prop := {
  rg_n : 2 ≤ n < 2 ^ 32 - 1;
  rg_size : size_ q = n;
  rg_len : Z.of_nat (length (records_ q)) = n;
  rg_r : 0 ≤ readIndex_ q < n;
  rg_w : 0 ≤ writeIndex_ q < n;
  rg_full : Z.of_nat (length l) ≤ n - 1;
  rg_dist : dist n (readIndex_ q) (writeIndex_ q) = Z.of_nat (length l);
  rg_slots : ∀ i, 0 ≤ i < n →
    records_ q !! Z.to_nat i = Some (content n (readIndex_ q) (writeIndex_ q) l hole extra i)
}.

Lemma next_small n i q : 2 ≤ n < 2 ^ 32 - 1 → size_ q = n → 0 ≤ i < n →
  nextRecord i q = if i + 1 =? n then 0 else i + 1.
Proof. intros Hn Hs Hi. unfold nextRecord. rewrite Hs. assert (u32 (i + 1) = i + 1) as -> by (apply Z.mod_small; lia). done. Qed.

Ltac ring_cases := repeat match goal with
  | |- context [?a <? ?b] => destruct (Z.ltb_spec a b)
  | |- context [?a =? ?b] => destruct (Z.eqb_spec a b)
  | H : context [?a <? ?b] |- _ => destruct (Z.ltb_spec a b)
  | H : context [?a =? ?b] |- _ => destruct (Z.eqb_spec a b)
  end.

(** The producer constructs its record. *)
Lemma ring_construct n q l hole v : ring n q l hole None →
  ∃ q', construct_at (writeIndex_ q) v q = Ret q' ∧ ring n q' l hole (Some v) ∧
    readIndex_ q' = readIndex_ q ∧ writeIndex_ q' = writeIndex_ q.
Proof.
  intros [Hn Hs Hl Hr Hw Hf Hd Hsl]. unfold construct_at. rewrite (Hsl (writeIndex_ q) Hw).
  assert (content n (readIndex_ q) (writeIndex_ q) l hole None (writeIndex_ q) = None) as ->.
  { unfold content. rewrite Hd. ring_cases; (done || lia). }
  eexists. split; [done|]. split; [|done]. split; cbn; try done.
  - by rewrite length_insert.
  - intros i Hi. destruct (decide (i = writeIndex_ q)) as [->|Hne].
    + rewrite list_lookup_insert_eq by lia. f_equal. unfold content. rewrite Hd. ring_cases; (done || lia).
    + rewrite list_lookup_insert_ne by lia. rewrite (Hsl i Hi). unfold content. ring_cases; (done || lia).
Qed.

(** The producer publishes it. *)
Lemma ring_publish n q l hole v : ring n q l hole (Some v) → Z.of_nat (length l) < n - 1 →
  (hole = true → l ≠ []) →
  ring n (with_writeIndex (if writeIndex_ q + 1 =? n then 0 else writeIndex_ q + 1) q) (l ++ [v]) hole None.
Proof.
  intros [Hn Hs Hl Hr Hw Hf Hd Hsl] Hlt Hh. unfold dist in *. split; cbn; try done; rewrite ?length_app; cbn [length].
  - ring_cases; lia.
  - lia.
  - unfold dist. ring_cases; lia.
  - intros i Hi. rewrite (Hsl i Hi). f_equal. unfold content. rewrite length_app. cbn [length].
    assert (0 ≤ dist n (readIndex_ q) i < n) as Hk by (unfold dist; ring_cases; lia).
    destruct (Z.ltb_spec (dist n (readIndex_ q) i) (Z.of_nat (length l))).
    + rewrite (proj2 (Z.ltb_lt _ (Z.of_nat (length l + 1)))) by lia. destruct (hole && _); [done|].
      rewrite lookup_app_l by lia. done.
    + destruct (Z.eqb_spec i (writeIndex_ q)) as [E|E].
      * assert (dist n (readIndex_ q) i = Z.of_nat (length l)) as Ek by (unfold dist; rewrite E; ring_cases; lia).
        rewrite Ek. rewrite (proj2 (Z.ltb_lt _ _)) by lia.
        assert (hole && (Z.of_nat (length l) =? 0) = false) as ->.
        { destruct hole; [|done]. apply Z.eqb_neq. specialize (Hh eq_refl). destruct l; [done|cbn; lia]. }
        rewrite lookup_app_r by lia. rewrite Nat2Z.id, Nat.sub_diag. done.
      * assert (dist n (readIndex_ q) i ≠ Z.of_nat (length l)) as Ek by (unfold dist; ring_cases; lia).
        rewrite (proj2 (Z.ltb_ge _ (Z.of_nat (length l + 1)))) by lia. by destruct (_ =? _).
Qed.

(** The consumer looks at the front record and destroys it. *)
Lemma ring_front n q l extra : ring n q l false extra → ∀ v, head l = Some v →
  record_at (readIndex_ q) q = Ret v.
Proof.
  intros [Hn Hs Hl Hr Hw Hf Hd Hsl] v Hv. unfold record_at. rewrite (Hsl (readIndex_ q) Hr).
  unfold content, dist. rewrite Z.ltb_irrefl, Z.sub_diag. destruct l as [|x l]; [done|]. cbn in *. by simplify_eq.
Qed.

Lemma ring_destroy n q l extra v : ring n q l false extra → head l = Some v →
  ∃ q', destroy_at (readIndex_ q) q = Ret q' ∧ ring n q' l true extra ∧
    readIndex_ q' = readIndex_ q ∧ writeIndex_ q' = writeIndex_ q.
Proof.
  intros Hrg Hv. pose proof (ring_front _ _ _ _ Hrg v Hv) as Hfr. destruct Hrg as [Hn Hs Hl Hr Hw Hf Hd Hsl].
  unfold record_at in Hfr. unfold destroy_at. destruct (records_ q !! Z.to_nat (readIndex_ q)) as [[x|]|]; try done.
  eexists. split; [done|]. split; [|done]. split; cbn; try done.
  - by rewrite length_insert.
  - intros i Hi. assert (dist n (readIndex_ q) (readIndex_ q) = 0) as D0 by (unfold dist; rewrite Z.ltb_irrefl; lia).
    assert (0 < Z.of_nat (length l)) as Hpos by (destruct l; [done|cbn; lia]).
    destruct (decide (i = readIndex_ q)) as [->|Hne].
    + rewrite list_lookup_insert_eq by lia. unfold content. rewrite D0. by rewrite (proj2 (Z.ltb_lt _ _)).
    + rewrite list_lookup_insert_ne by lia. rewrite (Hsl i Hi). unfold content.
      assert (dist n (readIndex_ q) i =? 0 = false) as -> by (apply Z.eqb_neq; unfold dist; ring_cases; lia). done.
Qed.

(** The consumer gives the slot back. *)
Lemma ring_release n q v l extra : ring n q (v :: l) true extra →
  ring n (with_readIndex (if readIndex_ q + 1 =? n then 0 else readIndex_ q + 1) q) l false extra.
Proof.
  intros [Hn Hs Hl Hr Hw Hf Hd Hsl]. cbn [length] in *. unfold dist in Hd. split; cbn; try done.
  - ring_cases; lia.
  - lia.
  - unfold dist. ring_cases; lia.
  - intros i Hi. rewrite (Hsl i Hi). f_equal. unfold content. cbn [length].
    set (r' := if readIndex_ q + 1 =? n then 0 else readIndex_ q + 1).
    destruct (decide (i = readIndex_ q)) as [->|Hne].
    + assert (dist n (readIndex_ q) (readIndex_ q) = 0) as -> by (unfold dist; rewrite Z.ltb_irrefl; lia).
      assert (dist n r' (readIndex_ q) = n - 1) as -> by (unfold dist, r'; ring_cases; lia).
      rewrite (proj2 (Z.ltb_lt 0 _)) by lia. rewrite (proj2 (Z.ltb_ge (n - 1) _)) by lia.
      destruct (Z.eqb_spec (readIndex_ q) (writeIndex_ q)); [|done]. exfalso. ring_cases; lia.
    + assert (dist n (readIndex_ q) i = dist n r' i + 1 ∧ 0 ≤ dist n r' i) as [-> Hk] by (unfold dist, r'; ring_cases; lia).
      destruct (Z.ltb_spec (dist n r' i) (Z.of_nat (length l))).
      * rewrite (proj2 (Z.ltb_lt _ _)) by lia. rewrite (proj2 (Z.eqb_neq _ 0)) by lia. cbn [andb].
        by replace (Z.to_nat (dist n r' i + 1)) with (S (Z.to_nat (dist n r' i))) by lia.
      * by rewrite (proj2 (Z.ltb_ge _ _)) by lia.
Qed.

(** ** The system *)

Definition pending {O R} (t : thread (@queue T) O R) : list O :=
  (fst <$> results t) ++ match cur t with Some (o, _) => [o] | None => [] end ++ todo t.

Record sys_inv (n : Z) (ps : list (@pop_ T)) (cs : list cop) (pb cb : nat) (y : system) l hole extra : Prop := {
  si_ring : ring n (shared y) l hole extra;
  si_prod : ∃ k, pstate n (writeIndex_ (shared y)) (Z.of_nat (length l)) (cur (producer y)) extra k ∧
              (5 * length (todo (producer y)) + k <= pb)%nat;
  si_cons : ∃ k, cstate n (readIndex_ (shared y)) l (cur (consumer y)) hole k ∧
              (8 * length (todo (consumer y)) + k <= cb)%nat;
  si_fifo : accepted y = received y ++ l;
  si_pdone : pending (producer y) = ps;
  si_cdone : pending (consumer y) = cs
}.

Lemma pstate_mono n w len len' c e k : pstate n w len c e k → len' ≤ len → pstate n w len' c e k.
Proof. intros []; econstructor; (done || lia). Qed.

Lemma cstate_app n r l v c h k : cstate n r l c h k → cstate n r (l ++ [v]) c h k.
Proof. intros []; econstructor; try done; by destruct l. Qed.

Lemma cstate_hole n r l c h k : cstate n r l c h k → h = true → l ≠ [].
Proof. intros [] Eh; try done. by destruct l. Qed.

Lemma omap_snoc {A B} (f : A → option B) (xs : list A) a :
  omap f (xs ++ [a]) = omap f xs ++ match f a with Some b => [b] | None => [] end.
Proof. rewrite omap_app. cbn. by destruct (f a). Qed.

(** The rest of an invariant after an access: [k] counts the accesses left. *)
Ltac settle := split; unfold pending, accepted, received; cbn;
  rewrite ?fmap_app, <-?app_assoc, ?omap_snoc, ?app_nil_r; try done; eauto;
  try (eexists; split; [by econstructor; eauto|lia]).

(** A producer's access. *)
Lemma tick_producer n ps cs pb cb y l hole extra : sys_inv n ps cs pb cb y l hole extra →
  ∃ y' l' extra', tick true y = Ret y' ∧ sys_inv n ps cs (pred pb) cb y' l' hole extra'.
Proof.
  intros [Hrg (k & Hp & Hk) (ck & Hc & Hck) Hfifo Hpd Hcd]. destruct y as [q [ptodo pcur pres] ct].
  unfold accepted, received in Hfifo. unfold pending in Hpd, Hcd. cbn in *. pose proof Hrg as [Hn Hs _ Hr Hw Hf Hd _].
  inversion Hp; subst; unfold tick, thread_step; cbn [producer cur shared todo results consumer mbind outcome_bind].
  - destruct ptodo as [|o os]; cbn [length] in Hk.
    + eexists _, l, None. split; [done|]. settle.
    + eexists _, l, None. split; [done|]. destruct o as [v| |]; settle.
  - eexists _, l, None. split; [done|]. settle.
  - unfold write_check. cbn [mbind outcome_bind]. rewrite (next_small _ _ _ Hn eq_refl Hw).
    destruct (Z.eqb_spec (if writeIndex_ q + 1 =? size_ q then 0 else writeIndex_ q + 1) (readIndex_ q)) as [E|E]; cbn.
    + eexists _, l, None. split; [done|]. settle.
    + eexists _, l, None. split; [done|]. settle. eexists. split; [constructor; [|done]|lia].
      unfold dist in Hd. ring_cases; lia.
  - unfold write_construct. destruct (ring_construct _ _ _ _ v Hrg) as (q' & -> & Hrg' & Er & Ew). cbn [mbind outcome_bind].
    eexists _, l, (Some v). split; [done|]. settle; [rewrite Ew|rewrite Er]; eexists; (split; [by try econstructor|lia]).
  - unfold write_store. cbn [mbind outcome_bind]. eexists _, (l ++ [v]), None. split; [done|]. settle.
    + apply ring_publish; [done|lia|]. by eapply cstate_hole.
    + eexists. split; [by apply cstate_app|done].
    + rewrite Hfifo. by rewrite <-app_assoc.
  - eexists _, l, None. split; [done|]. settle.
  - eexists _, l, None. split; [done|]. settle.
  - eexists _, l, None. split; [done|]. settle.
  - eexists _, l, None. split; [done|]. settle.
Qed.

(** A consumer's access. *)
Lemma tick_consumer n ps cs pb cb y l hole extra : sys_inv n ps cs pb cb y l hole extra →
  ∃ y' l' hole', tick false y = Ret y' ∧ sys_inv n ps cs pb (pred cb) y' l' hole' extra.
Proof.
  intros [Hrg (k & Hp & Hk) (ck & Hc & Hck) Hfifo Hpd Hcd]. destruct y as [q pt [ctodo ccur cres]].
  unfold accepted, received in Hfifo. unfold pending in Hpd, Hcd. cbn in *. pose proof Hrg as [Hn Hs _ Hr Hw Hf Hd _].
  assert (l ≠ [] → ∃ v, head l = Some v) as Hhd by (destruct l; [done|eauto]).
  assert (l = [] ↔ readIndex_ q = writeIndex_ q) as Hemp.
  { unfold dist in Hd. split; [intros ->; cbn in Hd; ring_cases; lia|]. intros E. destruct l; [done|].
    cbn in Hd. ring_cases; lia. }
  inversion Hc; subst; unfold tick, thread_step; cbn [producer cur shared todo results consumer mbind outcome_bind].
  - destruct ctodo as [|o os]; cbn [length] in Hck.
    + eexists _, l, false. split; [done|]. settle.
    + eexists _, l, false. split; [done|]. destruct o; settle.
  - eexists _, l, false. split; [done|]. settle.
  - unfold read_check. cbn [mbind outcome_bind]. destruct (Z.eqb_spec (readIndex_ q) (writeIndex_ q)) as [E|E].
    + eexists _, l, false. split; [done|]. settle.
    + eexists _, l, false. split; [done|]. settle. eexists. split; [constructor; intros ->; by apply E, Hemp|lia].
  - destruct (Hhd H) as [v Hv]. unfold read_move. rewrite (ring_front _ _ _ _ Hrg v Hv). cbn [mbind outcome_bind].
    eexists _, l, false. split; [done|]. settle.
  - unfold read_destroy. destruct (ring_destroy _ _ _ _ v Hrg H) as (q' & -> & Hrg' & Er & Ew). cbn [mbind outcome_bind].
    rewrite (next_small _ _ _ Hn eq_refl Hr).
    eexists _, l, true. split; [done|]. settle; [rewrite Ew; eauto|rewrite Er]. eexists. split; [by econstructor|lia].
  - unfold read_store. cbn [mbind outcome_bind]. destruct l as [|x l]; [done|]. cbn in H. injection H as ->.
    eexists _, l, false. split; [done|]. settle.
    + by eapply ring_release.
    + eexists. split; [eapply pstate_mono; [done|cbn; lia]|done].
    + rewrite <-app_assoc. exact Hfifo.
  - eexists _, l, false. split; [done|]. settle.
  - unfold front_check. cbn [mbind outcome_bind]. destruct (Z.eqb_spec (readIndex_ q) (writeIndex_ q)) as [E|E].
    + eexists _, l, false. split; [done|]. settle.
    + eexists _, l, false. split; [done|]. settle. eexists. split; [constructor; intros ->; by apply E, Hemp|lia].
  - destruct (Hhd H) as [v Hv]. unfold front_use. rewrite (ring_front _ _ _ _ Hrg v Hv). cbn [mbind outcome_bind].
    eexists _, l, false. split; [done|]. settle.
  - eexists _, l, false. split; [done|]. settle.
  - unfold popFront_check. rewrite (proj2 (Z.eqb_neq (readIndex_ q) (writeIndex_ q))) by (intros E; apply Hemp in E; by subst).
    cbn [negb check mbind outcome_bind]. eexists _, l, false. split; [done|]. settle.
  - unfold popFront_destroy. destruct (ring_destroy _ _ _ _ v Hrg H) as (q' & -> & Hrg' & Er & Ew). cbn [mbind outcome_bind].
    rewrite (next_small _ _ _ Hn eq_refl Hr).
    eexists _, l, true. split; [done|]. settle; [rewrite Ew; eauto|rewrite Er]. eexists. split; [by econstructor|lia].
  - eexists _, l, false. split; [done|]. settle.
  - eexists _, l, false. split; [done|]. settle.
  - eexists _, l, false. split; [done|]. settle.
  - eexists _, l, false. split; [done|]. settle.
Qed.

Lemma run_inv n ps cs sched : ∀ pb cb y l hole extra, sys_inv n ps cs pb cb y l hole extra →
  ∃ y' l' hole' extra', run sched y = Ret y' ∧
    sys_inv n ps cs (pb - length (filter (fun b => b = true) sched))
      (cb - length (filter (fun b => b = false) sched)) y' l' hole' extra'.
Proof.
  induction sched as [|b sched IH]; intros pb cb y l hole extra Hi.
  - exists y, l, hole, extra. split; [done|]. by rewrite !Nat.sub_0_r.
  - cbn [run]. destruct b.
    + destruct (tick_producer _ _ _ _ _ _ _ _ _ Hi) as (y1 & l1 & e1 & -> & H1). cbn [mbind outcome_bind].
      destruct (IH _ _ _ _ _ _ H1) as (y2 & l2 & h2 & e2 & -> & H2). exists y2, l2, h2, e2. split; [done|].
      rewrite filter_cons_True by done. rewrite filter_cons_False by done. cbn [length].
      by replace (pb - S (length (filter (fun b => b = true) sched)))%nat with
        (pred pb - length (filter (fun b => b = true) sched))%nat by lia.
    + destruct (tick_consumer _ _ _ _ _ _ _ _ _ Hi) as (y1 & l1 & h1 & -> & H1). cbn [mbind outcome_bind].
      destruct (IH _ _ _ _ _ _ H1) as (y2 & l2 & h2 & e2 & -> & H2). exists y2, l2, h2, e2. split; [done|].
      rewrite filter_cons_False by done. rewrite filter_cons_True by done. cbn [length].
      by replace (cb - S (length (filter (fun b => b = false) sched)))%nat with
        (pred cb - length (filter (fun b => b = false) sched))%nat by lia.
Qed.

Lemma start_inv n ps cs : 2 ≤ n < 2 ^ 32 - 1 →
  ∃ y, start n ps cs = Ret y ∧ sys_inv n ps cs (5 * length ps) (8 * length cs) y [] false None.
Proof.
  intros Hn. unfold start, create. rewrite (proj2 (Z.leb_le 2 n)) by lia. cbn. eexists. split; [done|].
  split; try done; cbn; try (eexists; split; [constructor|lia]). split; cbn; try lia.
  - by rewrite length_replicate, Z2Nat.id by lia.
  - intros i Hi. rewrite lookup_replicate_2 by lia. unfold content. cbn. unfold dist. ring_cases; (done || lia).
Qed.

(** C26. For every size and every interleaving of a producer and a consumer no access
    of the queue is to a slot that is raw when a record is expected or the
    other way round, no assertion fails, the records the consumer got followed
    by those still queued are exactly those the producer was told were queued,
    in that order, and at most size - 1 records are queued. *)
Theorem queue_fifo n (ps : list (@pop_ T)) cs sched : 2 ≤ n < 2 ^ 32 - 1 →
  ∃ y0 y l, start n ps cs = Ret y0 ∧ run sched y0 = Ret y ∧
    accepted y = received y ++ l ∧ Z.of_nat (length l) ≤ n - 1.
Proof.
  intros Hn. destruct (start_inv n ps cs Hn) as (y0 & E0 & H0).
  destruct (run_inv _ _ _ sched _ _ _ _ _ _ H0) as (y & l & h & e & E & H). exists y0, y, l.
  split_and!; [done|done|apply H|apply (si_ring _ _ _ _ _ _ _ _ _ H)].
Qed.

(** The calls are wait-free: a producer that has made five steps for each of its
    calls, and a consumer that has made eight, has finished them all, in order,
    whatever the other thread did meanwhile. *)
Theorem queue_wait_free n (ps : list (@pop_ T)) cs sched : 2 ≤ n < 2 ^ 32 - 1 →
  ∃ y0 y : @system T, start n ps cs = Ret y0 ∧ run sched y0 = Ret y ∧
    ((5 * length ps <= length (filter (fun b => b = true) sched))%nat → fst <$> results (producer y) = ps) ∧
    ((8 * length cs <= length (filter (fun b => b = false) sched))%nat → fst <$> results (consumer y) = cs).
Proof.
  intros Hn. destruct (start_inv n ps cs Hn) as (y0 & E0 & H0).
  destruct (run_inv _ _ _ sched _ _ _ _ _ _ H0) as (y & l & h & e & E & H). exists y0, y.
  destruct H as [_ (k & Hp & Hk) (ck & Hc & Hck) _ Hpd Hcd]. split_and!; [done|done|..]; intros Hle.
  - rewrite <-Hpd. unfold pending. destruct (todo (producer y)) as [|? ?]; [|cbn in Hk; lia].
    inversion Hp; subst; try lia. by rewrite app_nil_r.
  - rewrite <-Hcd. unfold pending. destruct (todo (consumer y)) as [|? ?]; [|cbn in Hck; lia].
    inversion Hc; subst; try lia. by rewrite app_nil_r.
Qed.
End proof.

Definition demo_ps : list (@pop_ Z) := [PWrite 1; PWrite 2; PWrite 3].
Definition demo_cs : list cop := [CRead; CFront].
Definition demo_sched : list bool := [true; true; true; false; true; false; true; true; false; false; false; true; false; false].

Lemma queue_fifo_witness : ∃ y0 y l, start 2 demo_ps demo_cs = Ret y0 ∧ run demo_sched y0 = Ret y ∧
  accepted y = received y ++ l ∧ Z.of_nat (length l) ≤ 1.
Proof. apply (queue_fifo 2 demo_ps demo_cs demo_sched). lia. Defined.

Lemma queue_wait_free_witness : ∃ y0 y : @system Z, start 2 demo_ps demo_cs = Ret y0 ∧ run (replicate 15 true) y0 = Ret y ∧
  fst <$> results (producer y) = demo_ps.
Proof.
  destruct (queue_wait_free 2 demo_ps demo_cs (replicate 15 true)) as (y0 & y & H1 & H2 & H3 & _); [lia|].
  exists y0, y. split; [exact H1|split; [exact H2|]]. apply H3. vm_compute. lia.
Defined.
