(* ===== verification/Locks.v ===== *)
(** util/RWSpinLock.h and util/SpinLock.h: the two spin locks as state machines of
    any number of threads. A step is one access to the lock's word; the loops of
    lock() and lock_shared() are the steps that lead back to their beginning, the
    pauses and the yield between two rounds touch nothing shared. *)
From S2P Require Import Prelude Threads.

(** ** RWSpinLock *)

Module RWSpinLock.

Definition READER : Z := 2.
Definition WRITER : Z := 1.

(** An int32_t. *)
Definition s32 (x : Z) : Z := let y := u32 x in if y <? 2 ^ 31 then y else y - 2 ^ 32.
Definition fetch_add (d bits : Z) : Z := s32 (bits + d).

(** bool try_lock(): the compare-and-exchange. *)
Definition try_lock (bits : Z) : Z * bool := if bits =? 0 then (WRITER, true) else (bits, false).
(** bool try_lock_shared(): the first access, and whether the lock was taken; if
    not, the second access takes the reader back. *)
Definition try_lock_shared (bits : Z) : Z * bool := (fetch_add READER bits, Z.land bits WRITER =? 0).
Definition try_lock_shared_back (bits : Z) : Z := fetch_add (- READER) bits.
Definition unlock (bits : Z) : Z := fetch_add (- WRITER) bits.
Definition unlock_shared (bits : Z) : Z := fetch_add (- READER) bits.

(** Where a thread is: in no call, about to try for the lock ([once]: in a try_
    method; otherwise in the loop), holding it, or about to take a reader back. *)
Inductive pc := Idle | WantWrite (once : bool) | Writing | WantRead (once : bool) | BackOff (once : bool) | Reading.

(** One access of one thread. *)
Inductive tstep : Z → pc → Z → pc → Prop :=
| T_lock b once : tstep b Idle b (WantWrite once)
| T_lock_shared b once : tstep b Idle b (WantRead once)
| T_try b b' ok once : try_lock b = (b', ok) →
    tstep b (WantWrite once) b' (if ok then Writing else if once then Idle else WantWrite false)
| T_try_shared b b' ok once : try_lock_shared b = (b', ok) →
    tstep b (WantRead once) b' (if ok then Reading else BackOff once)
| T_back b once : tstep b (BackOff once) (try_lock_shared_back b) (if once then Idle else WantRead false)
| T_unlock b : tstep b Writing (unlock b) Idle
| T_unlock_shared b : tstep b Reading (unlock_shared b) Idle.

Record state := mk_state { bits_ : Z; pcs : list pc }.

Inductive step : state → state → Prop :=
| step_at s i c b' c' : pcs s !! i = Some c → tstep (bits_ s) c b' c' →
    step s (mk_state b' (<[i := c']> (pcs s))).

(** RWSpinLock() with [n] threads. *)
Definition init (n : nat) : state := mk_state 0 (replicate n Idle).
Definition reachable (n : nat) (s : state) : Prop := rtc step (init n) s.

Definition is_writing (c : pc) : bool := match c with Writing => true | _ => false end.
Definition is_reading (c : pc) : bool := match c with Reading => true | _ => false end.
Definition is_back (c : pc) : bool := match c with BackOff _ => true | _ => false end.

(** The word counts the readers, also those that will back off, and the writer. *)
Record inv (n : nat) (s : state) : Prop := {
  inv_len : length (pcs s) = n;
  inv_bits : bits_ s = 2 * (count is_reading (pcs s) + count is_back (pcs s)) + count is_writing (pcs s);
  inv_one : count is_writing (pcs s) ≤ 1;
  inv_excl : 0 < count is_writing (pcs s) → count is_reading (pcs s) = 0
}.

Lemma s32_small x : 0 ≤ x < 2 ^ 31 → s32 x = x.
Proof. intros H. unfold s32, u32. rewrite Z.mod_small by lia. by rewrite (proj2 (Z.ltb_lt _ _)) by lia. Qed.

Lemma land_writer b : Z.land b WRITER = b mod 2.
Proof. change WRITER with (Z.ones 1). by rewrite Z.land_ones by lia. Qed.

Lemma step_inv n s s' : Z.of_nat n < 2 ^ 28 → step s s' → inv n s → inv n s'.
Proof.
  intros Hn Hs [Hlen Hb Hone Hex]. destruct Hs as [[b ps] i c b' c' Hi Ht]. cbn [pcs bits_] in *.
  pose proof (count_disjoint is_reading is_back ps ltac:(by intros [])) as Hd.
  pose proof (count_nonneg is_reading ps). pose proof (count_nonneg is_back ps).
  pose proof (count_nonneg is_writing ps). rewrite Hlen in Hd.
  assert (is_writing c = true → 0 < count is_writing ps) as Pw by by eapply count_pos.
  assert (is_reading c = true → 0 < count is_reading ps) as Pr by by eapply count_pos.
  assert (is_back c = true → 0 < count is_back ps) as Pb by by eapply count_pos.
  assert (∀ c', length (<[i := c']> ps) = n) as Hl' by (intros; by rewrite length_insert).
  inversion Ht as [|? []|? ? ? [] Htry|? ? ? [] Htry|? []| |]; clear Ht; subst; cbn [is_writing is_reading is_back Z.b2z] in *;
    try (unfold try_lock in Htry; match type of Htry with context [?x =? 0] => destruct (Z.eqb_spec x 0) end);
    try (unfold try_lock_shared in Htry; injection Htry as <- <-); simplify_eq;
    rewrite ?land_writer; try match goal with |- context [?x mod 2 =? 0] => destruct (Z.eqb_spec (x mod 2) 0) end;
    (split; cbn [pcs bits_]; [done|..]); rewrite ?(count_insert _ _ _ _ _ Hi);
    cbn [is_writing is_reading is_back Z.b2z];
    unfold try_lock_shared_back, unlock, unlock_shared, fetch_add, READER, WRITER;
    rewrite ?s32_small; Z.div_mod_to_equations; lia.
Qed.

Lemma init_inv n : inv n (init n).
Proof.
  assert (∀ f, f Idle = false → count f (replicate n Idle) = 0) as H0.
  { intros f Hf. apply count_zero. by intros x [-> _]%elem_of_replicate. }
  split; cbn; [apply length_replicate|rewrite !H0 by done; done..].
Qed.

Lemma reachable_inv n s : Z.of_nat n < 2 ^ 28 → reachable n s → inv n s.
Proof.
  intros Hn Hs. unfold reachable in Hs. revert Hs. generalize (init_inv n). generalize (init n) as s0.
  intros s0 H0 Hs. induction Hs as [|s1 s2 s3 H12 _ IH]; [done|]. apply IH. by eapply step_inv.
Qed.

(** C28. Mutual exclusion: with any number of threads below 2^28 and any interleaving of
    lock, try_lock, unlock, lock_shared, try_lock_shared and unlock_shared, at
    most one thread holds the lock for writing, and then none holds it for
    reading; when no thread is in a call or holds the lock the word is 0 again,
    so that no count is ever lost. *)
Theorem rw_mutual_exclusion n s : Z.of_nat n < 2 ^ 28 → reachable n s →
  count is_writing (pcs s) ≤ 1 ∧
  (0 < count is_writing (pcs s) → count is_reading (pcs s) = 0) ∧
  ((∀ c, c ∈ pcs s → c = Idle) → bits_ s = 0).
Proof.
  intros Hn Hs. destruct (reachable_inv n s Hn Hs) as [_ Hb H1 H2]. split_and!; [done|done|].
  intros Hidle. rewrite Hb. by rewrite !count_zero by (intros x ->%Hidle; done).
Qed.

(** Threads that back off do so alone. *)
Lemma back_off n s : Z.of_nat n < 2 ^ 28 → inv n s → ∃ s', rtc step s s' ∧ inv n s' ∧
  count is_back (pcs s') = 0 ∧ count is_writing (pcs s') = count is_writing (pcs s) ∧
  count is_reading (pcs s') = count is_reading (pcs s) ∧
  ∀ i c, pcs s !! i = Some c → is_back c = false → pcs s' !! i = Some c.
Proof.
  intros Hn. remember (Z.to_nat (count is_back (pcs s))) as k eqn:Ek. revert s Ek.
  induction k as [|k IH]; intros s Ek Hi; pose proof (count_nonneg is_back (pcs s)) as H0.
  - exists s. split_and!; try done. lia.
  - assert (∃ i c, pcs s !! i = Some c ∧ is_back c = true) as (i & c & Hc & Hb).
    { unfold count in Ek. destruct (filter (fun x => is_back x = true) (pcs s)) as [|c l] eqn:E; [done|].
      assert (c ∈ filter (fun x => is_back x = true) (pcs s)) as [Hb [i Hc]%list_elem_of_lookup]%list_elem_of_filter
        by (rewrite E; by left). eauto. }
    destruct c as [| | | |once|]; try done.
    set (c' := if once then Idle else WantRead false).
    assert (step s (mk_state (try_lock_shared_back (bits_ s)) (<[i := c']> (pcs s)))) as Hst by (econstructor; [done|constructor]).
    assert (is_back c' = false ∧ is_writing c' = false ∧ is_reading c' = false) as (B1 & B2 & B3) by (by subst c'; destruct once).
    destruct (IH (mk_state (try_lock_shared_back (bits_ s)) (<[i := c']> (pcs s)))) as (s' & Hr & Hi' & E1 & E2 & E3 & Hk).
    { cbn [pcs]. rewrite (count_insert _ _ _ _ _ Hc), B1. cbn [is_back Z.b2z]. lia. }
    { by apply (step_inv _ _ _ Hn Hst). }
    cbn [pcs] in *.
    rewrite (count_insert _ _ _ _ _ Hc), B2 in E2. rewrite (count_insert _ _ _ _ _ Hc), B3 in E3. cbn in E2, E3.
    exists s'. split_and!; [by eapply rtc_l|done|done|lia|lia|].
    intros j d Hj Hd. apply Hk; [|done]. rewrite list_lookup_insert_ne; [done|]. intros <-. rewrite Hc in Hj. injection Hj as <-. done.
Qed.

(** The lock is never lost: whenever no thread holds it, a thread that is trying to
    lock it for writing can get it after finitely many steps. *)
Theorem rw_no_deadlock n s i once : Z.of_nat n < 2 ^ 28 → reachable n s →
  count is_writing (pcs s) = 0 → count is_reading (pcs s) = 0 → pcs s !! i = Some (WantWrite once) →
  ∃ s', rtc step s s' ∧ pcs s' !! i = Some Writing.
Proof.
  intros Hn Hs Hw Hr Hi. destruct (back_off n s Hn (reachable_inv n s Hn Hs)) as (s1 & Hst & Hi1 & E1 & E2 & E3 & Hk).
  pose proof (inv_bits _ _ Hi1) as Hb. rewrite E1, E2, E3, Hw, Hr in Hb. cbn in Hb.
  specialize (Hk i _ Hi eq_refl).
  exists (mk_state WRITER (<[i := Writing]> (pcs s1))). split.
  - eapply rtc_r; [done|]. eapply (step_at s1 i _ WRITER Writing); [done|].
    apply (T_try _ WRITER true once). unfold try_lock. by rewrite Hb.
  - cbn. apply list_lookup_insert_eq. by eapply lookup_lt_Some.
Qed.
End RWSpinLock.

Module RWDemo.
Import RWSpinLock.
(** Thread 0 writes; thread 1 has tried to read and must back off; thread 2 waits. *)
Definition contended : state := mk_state 3 [Writing; BackOff false; WantWrite false].

Lemma contended_reachable : reachable 3 contended.
Proof.
  eapply rtc_l; [apply (step_at _ 0%nat Idle 0 (WantWrite false)); [done|constructor]|].
  eapply rtc_l; [eapply (step_at _ 0%nat (WantWrite false) 1 Writing); [done|apply (T_try _ _ true false); done]|].
  eapply rtc_l; [apply (step_at _ 1%nat Idle 1 (WantRead false)); [done|constructor]|].
  eapply rtc_l; [eapply (step_at _ 1%nat (WantRead false) 3 (BackOff false)); [done|apply (T_try_shared _ _ false false); done]|].
  eapply rtc_l; [apply (step_at _ 2%nat Idle 3 (WantWrite false)); [done|constructor]|].
  apply rtc_refl.
Qed.

Lemma rw_mutual_exclusion_witness : count is_reading (pcs contended) = 0.
Proof. apply (rw_mutual_exclusion 3 contended); [lia|apply contended_reachable|vm_compute; reflexivity]. Defined.

(** The same after the writer is gone. *)
Definition released : state := mk_state 2 [Idle; BackOff false; WantWrite false].

Lemma rw_no_deadlock_witness : ∃ s', rtc step released s' ∧ pcs s' !! 2%nat = Some Writing.
Proof.
  apply (rw_no_deadlock 3 released 2 false); [lia| |reflexivity..].
  eapply rtc_r; [apply contended_reachable|]. apply (step_at contended 0%nat Writing 2 Idle); [done|].
  apply (T_unlock 3).
Defined.
End RWDemo.

(** ** ReadHolder and WriteHolder *)

Module Holder.
Section holder.
Context {L : Type} `{EqDecision L}.

(** The calls a holder makes on locks. *)
Inductive call := LockShared (l : L) | UnlockShared (l : L) | Lock (l : L) | Unlock (l : L).
Inductive kind := Read | Write.
Definition acquire (k : kind) (l : L) : call := match k with Read => LockShared l | Write => Lock l end.
Definition release (k : kind) (l : L) : call := match k with Read => UnlockShared l | Write => Unlock l end.

Definition on (f : L → call) (o : option L) : list call := match o with Some l => [f l] | None => [] end.

(** A holder is its lock_; each operation says what the holders are afterwards and
    which calls were made. *)
Definition construct (k : kind) (lock : option L) : option L * list call := (lock, on (acquire k) lock).
Definition move_construct (other : option L) : option L * option L := (other, None).
Definition assign (this other : option L) : option L * option L := (other, this).
Definition destroy (k : kind) (this : option L) : list call := on (release k) this.
Definition reset (k : kind) (lock this : option L) : option L * list call :=
  if decide (lock = this) then (this, []) else (lock, on (release k) this ++ on (acquire k) lock).
Definition swap (this other : option L) : option L * option L := (other, this).

(** A program over a set of holders. *)
Inductive op := ONew (h : nat) (lock : option L) | OMove (h from : nat) | OAssign (h from : nat)
  | OReset (h : nat) (lock : option L) | OSwap (h other : nat) | ODestroy (h : nat).

Definition hexec (k : kind) (o : op) (m : gmap nat (option L)) : outcome (gmap nat (option L) * list call) :=
  match o with
  | ONew h lock =>
      match m !! h with
      | Some _ => Err Undefined
      | None => let '(x, cs) := construct k lock in Ret (<[h := x]> m, cs)
      end
  | OMove h from =>
      match m !! h, m !! from with
      | None, Some y => let '(x, y) := move_construct y in Ret (<[h := x]> (<[from := y]> m), [])
      | _, _ => Err Undefined
      end
  | OAssign h from =>
      match m !! h, m !! from with
      | Some x, Some y => let '(x, y) := assign x y in Ret (<[h := x]> (<[from := y]> m), [])
      | _, _ => Err Undefined
      end
  | OSwap h other =>
      match m !! h, m !! other with
      | Some x, Some y => let '(x, y) := swap x y in Ret (<[h := x]> (<[other := y]> m), [])
      | _, _ => Err Undefined
      end
  | OReset h lock =>
      match m !! h with
      | Some x => let '(x, cs) := reset k lock x in Ret (<[h := x]> m, cs)
      | None => Err Undefined
      end
  | ODestroy h =>
      match m !! h with Some x => Ret (delete h m, destroy k x) | None => Err Undefined end
  end.

Fixpoint hrun (k : kind) (os : list op) (m : gmap nat (option L)) : outcome (gmap nat (option L) * list call) :=
  match os with
  | [] => Ret (m, [])
  | o :: os => '(m, cs) ← hexec k o m; '(m, cs') ← hrun k os m; Ret (m, cs ++ cs')
  end.

(** How often a lock is held after the calls, each of which must be legal: only a
    lock that is held is released. *)
Fixpoint balance (k : kind) (l : L) (n : nat) (cs : list call) : option nat :=
  match cs with
  | [] => Some n
  | LockShared l' :: cs => match k with Write => None | Read => balance k l (if decide (l' = l) then S n else n) cs end
  | Lock l' :: cs => match k with Read => None | Write => balance k l (if decide (l' = l) then S n else n) cs end
  | UnlockShared l' :: cs =>
      match k with Write => None | Read =>
        if decide (l' = l) then match n with O => None | S n => balance k l n cs end else balance k l n cs end
  | Unlock l' :: cs =>
      match k with Read => None | Write =>
        if decide (l' = l) then match n with O => None | S n => balance k l n cs end else balance k l n cs end
  end.

Definition held (l : L) (m : gmap nat (option L)) : nat := base.size (filter (fun p => p.2 = Some l) m).

Lemma balance_app k l n cs cs' : balance k l n (cs ++ cs') = (n' ← balance k l n cs; balance k l n' cs').
Proof.
  revert n. induction cs as [|c cs IH]; intros n; [done|]. cbn. destruct c, k; try done; repeat case_decide; try apply IH;
    destruct n; (done || apply IH).
Qed.

Lemma balance_acquire k l n o : balance k l n (on (acquire k) o) = Some (if decide (o = Some l) then S n else n).
Proof. destruct o as [l'|]; [|by rewrite decide_False]. destruct k; cbn; repeat case_decide; (done || congruence). Qed.

Lemma balance_release k l n o : balance k l (if decide (o = Some l) then S n else n) (on (release k) o) = Some n.
Proof. destruct o as [l'|]; [|by rewrite decide_False]. destruct k; cbn; repeat case_decide; (done || congruence). Qed.

Lemma held_delete l m h x : m !! h = Some x → held l m = if decide (x = Some l) then S (held l (delete h m)) else held l (delete h m).
Proof.
  intros Hh. unfold held. rewrite <-(insert_delete_id m h x Hh) at 1. case_decide as E.
  - rewrite map_filter_insert_True by done. rewrite map_size_insert_None; [done|]. apply map_lookup_filter_None_2. left. by rewrite lookup_delete_eq.
  - rewrite map_filter_insert_False by done. by rewrite delete_delete_eq.
Qed.

Lemma held_insert l m h x : held l (<[h := x]> m) = if decide (x = Some l) then S (held l (delete h m)) else held l (delete h m).
Proof. rewrite (held_delete l (<[h := x]> m) h x) by apply lookup_insert_eq. by rewrite delete_insert_eq. Qed.

Lemma held_swap l m h o x y : m !! h = Some x → m !! o = Some y → held l (<[h := y]> (<[o := x]> m)) = held l m.
Proof.
  intros Hh Ho. destruct (decide (h = o)) as [->|Hne].
  - assert (x = y) as -> by congruence. by rewrite insert_insert_eq, insert_id.
  - rewrite held_insert, delete_insert_ne, held_insert by done. rewrite (held_delete l m h x Hh).
    rewrite (held_delete l (delete h m) o y) by (by rewrite lookup_delete_ne). repeat case_decide; done.
Qed.

Lemma hexec_balanced k o m m' cs l : hexec k o m = Ret (m', cs) → balance k l (held l m) cs = Some (held l m').
Proof.
  destruct o as [h lock|h from|h from|h lock|h other|h]; cbn.
  - destruct (m !! h) eqn:E; [done|]. intros [= <- <-]. rewrite balance_acquire, held_insert. by rewrite delete_id.
  - destruct (m !! h) eqn:E; [done|]. destruct (m !! from) as [y|] eqn:E'; [|done]. intros [= <- <-]. cbn. f_equal.
    assert (h ≠ from) by congruence. rewrite held_insert, delete_insert_ne, delete_id by done.
    rewrite held_insert, (held_delete l m from y E'). by rewrite (decide_False (P := None = Some l)).
  - destruct (m !! h) eqn:E; [|done]. destruct (m !! from) as [y|] eqn:E'; [|done]. intros [= <- <-]. cbn. f_equal. symmetry. by apply held_swap.
  - destruct (m !! h) as [x|] eqn:E; [|done]. unfold reset. case_decide as Er; intros [= <- <-].
    + cbn. by rewrite insert_id.
    + rewrite balance_app, (held_delete l m h x E), balance_release. cbn [mbind option_bind]. by rewrite balance_acquire, held_insert.
  - destruct (m !! h) eqn:E; [|done]. destruct (m !! other) as [y|] eqn:E'; [|done]. intros [= <- <-]. cbn. f_equal. symmetry. by apply held_swap.
  - destruct (m !! h) as [x|] eqn:E; [|done]. intros [= <- <-]. by rewrite (held_delete l m h x E), balance_release.
Qed.

(** Holders are balanced: whatever is done with ReadHolder objects (construction,
    move, assignment, reset, swap, destruction), or with WriteHolder objects, a
    lock is released only while one of them holds it, and at every moment it has
    been acquired as many times more than released as there are holders of it;
    so when all are destroyed everything acquired has been released. *)
Theorem holders_balanced k os m cs l : hrun k os ∅ = Ret (m, cs) → balance k l 0 cs = Some (held l m).
Proof.
  assert (∀ m0, hrun k os m0 = Ret (m, cs) → balance k l (held l m0) cs = Some (held l m)) as H; [|intros E; rewrite <-(H ∅ E); unfold held; by rewrite map_filter_empty].
  revert cs. induction os as [|o os IH]; intros cs m0; cbn; [by intros [= -> <-]|].
  intros E. inv_ret. destruct r as [m1 cs1]. inv_ret. destruct r as [m2 cs2]. inv_ret.
  rewrite balance_app, (hexec_balanced k o m0 m1 cs1 l Hr). cbn [mbind option_bind]. by apply IH.
Qed.
End holder.

Lemma holders_balanced_witness : balance Read 7 0 [LockShared 7; UnlockShared 7; LockShared 8] = Some 0%nat.
Proof.
  change 0%nat with (held 7 (<[1%nat := Some 8]> (<[0%nat := None]> ∅))) at 2.
  apply (holders_balanced Read [ONew 0 (Some 7); OMove 1 0; OReset 1 (Some 8)] _ _ 7). vm_compute. reflexivity.
Defined.
End Holder.

(** ** SpinLock *)

Module SpinLock.
Definition FREE : Z := 0.
Definition LOCKED : Z := 1.

(** The accesses of MicroSpinLock to its byte. *)
Definition cas (compare newVal b : Z) : Z * bool := if b =? compare then (newVal, true) else (b, false).
Definition try_lock (b : Z) : Z * bool := cas FREE LOCKED b.

(** lock() spins on a load and then tries; unlock() checks and then stores. The guard
    is a lock() in its constructor and an unlock() in its destructor. *)
Inductive pc := Out | Spin | Try (once : bool) | In | Release.

Inductive tstep : Z → pc → Z → outcome pc → Prop :=
| T_lock b : tstep b Out b (Ret Spin)
| T_try_lock b : tstep b Out b (Ret (Try true))
| T_load b : tstep b Spin b (Ret (if b =? FREE then Try false else Spin))
| T_cas b b' ok once : try_lock b = (b', ok) →
    tstep b (Try once) b' (Ret (if ok then In else if once then Out else Spin))
| T_check b : tstep b In b (if b =? LOCKED then Ret Release else Err AssertFailed)
| T_store b : tstep b Release FREE (Ret Out).

Record state := mk_state { lock_ : Z; pcs : list pc }.

(** [Err] is a failed check in some thread. *)
Inductive step : state → outcome state → Prop :=
| step_at s i c b' r : pcs s !! i = Some c → tstep (lock_ s) c b' r →
    step s (c' ← r; Ret (mk_state b' (<[i := c']> (pcs s)))).

Inductive reachable (n : nat) : outcome state → Prop :=
| R_init : reachable n (Ret (mk_state FREE (replicate n Out)))
| R_step s o : reachable n (Ret s) → step s o → reachable n o.

Definition holds (c : pc) : bool := match c with In | Release => true | _ => false end.

Definition inv (o : outcome state) : Prop :=
  match o with
  | Ret s => lock_ s = count holds (pcs s) ∧ count holds (pcs s) ≤ 1
  | Err _ => False
  end.

(** SpinLock excludes: in every interleaving at most one thread is between a lock()
    or successful try_lock() and the end of its unlock(), the word says whether
    there is one, and the check in unlock() never fails. *)
Theorem spin_mutual_exclusion n o : reachable n o →
  ∃ s, o = Ret s ∧ count holds (pcs s) ≤ 1 ∧ lock_ s = count holds (pcs s).
Proof.
  intros Hr. assert (inv o) as Hi; [|by destruct o as [s|]; [exists s; destruct Hi|]].
  induction Hr as [|s o Hr IH Hs].
  - cbn. rewrite count_zero; [done|]. by intros x [-> _]%elem_of_replicate.
  - destruct IH as [Hl Hc]. destruct Hs as [[b ps] i c b' r Hi Ht]. cbn [lock_ pcs] in *.
    pose proof (count_nonneg holds ps). assert (holds c = true → 0 < count holds ps) as Hp by by eapply count_pos.
    inversion Ht as [| | |? ? ? once Htry| |]; subst; cbn [holds] in *.
    all: try (unfold try_lock, cas, FREE, LOCKED in Htry; match type of Htry with context [?x =? 0] => destruct (Z.eqb_spec x 0) end; simplify_eq).
    all: try (destruct (Z.eqb_spec (count holds ps) LOCKED) as [E|E]; unfold LOCKED in *; [|specialize (Hp eq_refl); lia]).
    all: try destruct once; try (destruct (count holds ps =? FREE)).
    all: cbn; rewrite (count_insert _ _ _ _ _ Hi); cbn; unfold FREE; try (specialize (Hp eq_refl)); lia.
Qed.

Lemma spin_mutual_exclusion_witness : ∃ s, (Ret (mk_state LOCKED [In; Spin]) : outcome state) = Ret s ∧
  count holds (pcs s) ≤ 1 ∧ lock_ s = count holds (pcs s).
Proof.
  apply (spin_mutual_exclusion 2).
  apply (R_step _ (mk_state LOCKED [In; Out])); [|exact (step_at (mk_state LOCKED [In; Out]) 1%nat Out LOCKED (Ret Spin) eq_refl (T_lock LOCKED))].
  apply (R_step _ (mk_state FREE [Try true; Out])).
  - apply (R_step _ (mk_state FREE [Out; Out])); [apply R_init|].
    exact (step_at (mk_state FREE [Out; Out]) 0%nat Out FREE (Ret (Try true)) eq_refl (T_try_lock FREE)).
  - exact (step_at (mk_state FREE [Try true; Out]) 0%nat (Try true) LOCKED (Ret In) eq_refl (T_cas FREE LOCKED true true eq_refl)).
Defined.
End SpinLock.
