(* ===== verification/Baton.v ===== *)
(** util/Baton.h and Futex.h: a hand-off from one thread to another, as a state machine. A step is one access to
    state_ or one call of futex(2), of the thread that posts or of the one that waits; the
    calls of futex that threads of earlier lifetimes have still to make are steps too. *)
From S2P Require Import Prelude.

Module Baton.

Definition INIT : Z := 0.
Definition EARLY_DELIVERY : Z := 1.
Definition WAITING : Z := 2.
Definition LATE_DELIVERY : Z := 3.
Definition TIMED_OUT : Z := 4.
Definition PreBlockAttempts : nat := 300.

(** Where a thread is in post(): [before] is its variable. *)
Inductive ppc :=
| PLoad               (* before the load *)
| PCas                (* before the compare_exchange of INIT *)
| PStore              (* before the store of LATE_DELIVERY *)
| PWake               (* before futexWake *)
| PDone.

(** Which call the waiting thread makes after its calls of try_wait. *)
Inductive call := Wait | TimedWait.

Inductive wpc :=
| WTry (n : nat)      (* n calls of try_wait to come, then the call *)
| WSpin (k : nat)     (* in spinWaitForEarlyDelivery, k attempts left *)
| WEarly              (* before the load in the assert after it *)
| WCas                (* before the compare_exchange of INIT by WAITING *)
| WSleep              (* before futexWait *)
| WAsleep             (* in futexWait, asleep *)
| WLoad               (* before the load after it *)
| WTimeout            (* before the store of TIMED_OUT *)
| WRet (b : bool).    (* returned; wait() counts as true *)

Record baton := mk_baton {
  state_ : Z;
  poster : ppc;
  waiter : wpc;
  kind : call;
  stale : nat;        (* calls of futexWake that earlier lifetimes have still to make *)
  posted : bool       (* history: a delivery was stored in this lifetime *)
}.

Definition set_poster c s := mk_baton (state_ s) c (waiter s) (kind s) (stale s) (posted s).
Definition set_waiter c s := mk_baton (state_ s) (poster s) c (kind s) (stale s) (posted s).
Definition store v s := mk_baton v (poster s) (waiter s) (kind s) (stale s) (posted s).
Definition deliver v s := mk_baton v (poster s) (waiter s) (kind s) (stale s) true.

(** Baton(), for a thread that calls try_wait [n] times and then [c]. *)
Definition new (n : nat) (c : call) : baton := mk_baton INIT PLoad (WTry n) c 0 false.

Definition assert_that (b : bool) : outcome unit := check b AssertFailed.

(** futexWake(1): the waiter, if it sleeps, is woken. *)
Definition wake (s : baton) : baton := match waiter s with WAsleep => set_waiter WLoad s | _ => s end.

(** post() after [before] was read again, or was not INIT: up to the next access. *)
Definition post_late (before : Z) (s : baton) : outcome baton :=
  _ ← assert_that ((before =? WAITING) || (before =? TIMED_OUT));
  if before =? TIMED_OUT then Ret (set_poster PDone s)
  else _ ← assert_that (before =? WAITING); Ret (set_poster PStore s).
(** void post() *)
Definition post (s : baton) : option (outcome baton) :=
  match poster s with
  | PLoad => Some (
      let before := state_ s in
      _ ← assert_that ((before =? INIT) || (before =? WAITING) || (before =? TIMED_OUT));
      if before =? INIT then Ret (set_poster PCas s) else post_late before s)
  | PCas =>
      if state_ s =? INIT then Some (Ret (set_poster PDone (deliver EARLY_DELIVERY s)))
      else Some (post_late (state_ s) s)
  | PStore => Some (Ret (set_poster PWake (deliver LATE_DELIVERY s)))
  | PWake => Some (Ret (set_poster PDone (wake s)))
  | PDone => None
  end.

(** bool try_wait() *)
Definition try_wait (s : baton) : outcome bool :=
  _ ← assert_that ((state_ s =? INIT) || (state_ s =? EARLY_DELIVERY));
  Ret (state_ s =? EARLY_DELIVERY).

(** The waiting thread: try_wait, then wait() or timed_wait(deadline). *)
Definition wait (s : baton) : option (outcome baton) :=
  match waiter s with
  | WTry (S n) => Some (b ← try_wait s; Ret (set_waiter (if (b : bool) then WRet true else WTry n) s))
  | WTry O => Some (Ret (set_waiter (WSpin PreBlockAttempts) s))
  | WSpin (S k) => Some (b ← try_wait s; Ret (set_waiter (if (b : bool) then WEarly else WSpin k) s))
  | WSpin O => Some (Ret (set_waiter WCas s))
  | WEarly => Some (_ ← assert_that (state_ s =? EARLY_DELIVERY); Ret (set_waiter (WRet true) s))
  | WCas =>
      if state_ s =? INIT then Some (Ret (set_waiter WSleep (store WAITING s)))
      else Some (_ ← assert_that (state_ s =? EARLY_DELIVERY); Ret (set_waiter (WRet true) s))
  | WSleep => Some (Ret (set_waiter (if state_ s =? WAITING then WAsleep else WLoad) s))
  | WAsleep => None
  | WLoad => Some (
      _ ← assert_that ((state_ s =? WAITING) || (state_ s =? LATE_DELIVERY));
      Ret (set_waiter (if state_ s =? LATE_DELIVERY then WRet true else WSleep) s))
  | WTimeout => Some (Ret (set_waiter (WRet false) (store TIMED_OUT s)))
  | WRet _ => None
  end.

(** futexWait returning without a wake, and at the deadline of timed_wait. *)
Definition interrupt (s : baton) : option (outcome baton) :=
  match waiter s with WAsleep => Some (Ret (set_waiter WLoad s)) | _ => None end.
Definition timeout (s : baton) : option (outcome baton) :=
  match waiter s, kind s with WAsleep, TimedWait => Some (Ret (set_waiter WTimeout s)) | _, _ => None end.

(** void reset(), by the waiting thread after its call returned, when a delivery was made or a poster saw the
    timeout; another lifetime begins. A poster that has still to wake goes on. *)
Definition reset (n : nat) (c : call) (s : baton) : option (outcome baton) :=
  match waiter s, poster s with
  | WRet _, PWake => Some (_ ← assert_that (negb (state_ s =? WAITING)); Ret (mk_baton INIT PLoad (WTry n) c (S (stale s)) false))
  | WRet _, PDone => Some (_ ← assert_that (negb (state_ s =? WAITING)); Ret (mk_baton INIT PLoad (WTry n) c (stale s) false))
  | _, _ => None
  end.
(** The futexWake of an earlier lifetime. *)
Definition stale_wake (s : baton) : option (outcome baton) :=
  match stale s with
  | S k => Some (Ret (wake (mk_baton (state_ s) (poster s) (waiter s) (kind s) k (posted s))))
  | O => None
  end.

Inductive label := LPost | LWait | LInterrupt | LTimeout | LStale | LReset (n : nat) (c : call).
Definition exec (l : label) (s : baton) : option (outcome baton) :=
  match l with
  | LPost => post s
  | LWait => wait s
  | LInterrupt => interrupt s
  | LTimeout => timeout s
  | LStale => stale_wake s
  | LReset n c => reset n c s
  end.
Inductive step : baton → baton → Prop := step_exec l s s' : exec l s = Some (Ret s') → step s s'.
Definition reachable (s : baton) : Prop := ∃ n c, rtc step (new n c) s.

(** The waiting thread alone, [n] times. *)
Fixpoint waits (n : nat) (s : baton) : option (outcome baton) :=
  match n with
  | O => Some (Ret s)
  | S n => match wait s with Some (Ret s') => waits n s' | r => r end
  end.
End Baton.
