(* ===== verification/BatonProof.v ===== *)
(** That a Baton hands over: no interleaving fails an assertion, loses the wake-up or lets
    a wait return before the post. *)
From S2P Require Import Prelude Baton.

Module BatonProof.
Import Baton.

(** Where the two threads can be, by the value of state_. *)
Definition before_wait (w : wpc) : Prop := match w with WTry _ | WSpin _ | WCas => True | _ => False end.
Definition blocking (w : wpc) : Prop := match w with WSleep | WAsleep | WLoad | WTimeout => True | _ => False end.
Definition by_state (s : baton) : Prop :=
  (state_ s = INIT ∧ posted s = false ∧ before_wait (waiter s) ∧ (poster s = PLoad ∨ poster s = PCas)) ∨
  (state_ s = EARLY_DELIVERY ∧ posted s = true ∧ (before_wait (waiter s) ∨ waiter s = WEarly ∨ waiter s = WRet true) ∧ poster s = PDone) ∨
  (state_ s = WAITING ∧ posted s = false ∧ blocking (waiter s) ∧ (poster s = PLoad ∨ poster s = PCas ∨ poster s = PStore)) ∨
  (state_ s = LATE_DELIVERY ∧ posted s = true ∧ (blocking (waiter s) ∨ ∃ b, waiter s = WRet b) ∧
     (poster s = PWake ∨ (poster s = PDone ∧ waiter s ≠ WAsleep))) ∨
  (state_ s = TIMED_OUT ∧ waiter s = WRet false).
Definition good (s : baton) : Prop :=
  by_state s ∧ (waiter s = WTimeout ∨ waiter s = WRet false → kind s = TimedWait).

Ltac baton_cases :=
  repeat match goal with
  | H : _ ∨ _ |- _ => destruct H
  | H : _ ∧ _ |- _ => destruct H
  | H : ∃ _, _ |- _ => destruct H
  end; subst.

Lemma good_step l s : good s → match exec l s with Some (Ret s') => good s' | Some (Err _) => False | None => True end.
Proof.
  destruct s as [st p w k sl po]. unfold good, by_state. cbn [state_ poster waiter kind posted]. intros [Hs Hk].
  destruct l as [| | | | |n c]; cbn [exec]; unfold post, wait, interrupt, timeout, stale_wake, reset; cbn [state_ poster waiter kind posted stale].
  - destruct p, w; baton_cases; cbn in *; simplify_eq; try done; split; naive_solver.
  - destruct w as [[|?]|[|?]| | | | | | |?]; baton_cases; cbn in *; simplify_eq; try done; split; naive_solver.
  - destruct w; baton_cases; cbn in *; simplify_eq; try done; split; naive_solver.
  - destruct w, k; baton_cases; cbn in *; simplify_eq; try done; split; naive_solver.
  - destruct sl; [done|]. unfold wake. destruct w; baton_cases; cbn in *; simplify_eq; try done; split; naive_solver.
  - destruct w, p; baton_cases; cbn in *; simplify_eq; try done; split; naive_solver.
Qed.

Lemma good_new n c : good (new n c).
Proof. split; [left; by cbn; auto|]. cbn. naive_solver. Qed.
Lemma reachable_good s : reachable s → good s.
Proof.
  intros (n & c & H). assert (good (new n c)) as Hg by apply good_new. induction H as [|s1 s2 s3 [l s s' He] _ IH]; [done|].
  apply IH. pose proof (good_step l s Hg) as Hs. by rewrite He in Hs.
Qed.

(** After the post the waiting thread gets through by itself. *)
Definition arrives (s : baton) : Prop := ∃ n s', (n ≤ 3)%nat ∧ waits n s = Some (Ret s') ∧ waiter s' = WRet true.
Lemma good_arrives s : good s → poster s = PDone → (∀ b, waiter s ≠ WRet b) → waiter s ≠ WTimeout → arrives s.
Proof.
  destruct s as [st p w k sl po]. unfold good, by_state, arrives. cbn [state_ poster waiter kind posted]. intros [Hs _] -> Hr Ht.
  baton_cases; try done.
  - destruct w as [[|n]|[|n]| | | | | | |b]; try done; [exists 3%nat|exists 1%nat|exists 2%nat|exists 2%nat|exists 1%nat]; eexists; (split; [lia|]); (split; [reflexivity|done]).
  - exists 1%nat. eexists. split; [lia|]. by split; [reflexivity|].
  - by destruct (Hr true).
  - destruct w; try done; [exists 2%nat|exists 1%nat]; eexists; (split; [lia|]); (split; [reflexivity|done]).
  - by destruct (Hr x).
  - by destruct (Hr false).
Qed.

(** C30. A Baton hands over once per lifetime: in every interleaving of the poster, the waiting thread (any number of
    calls of try_wait, then wait or timed_wait), interrupted sleeps, deadlines, resets and the late wake-ups of earlier
    lifetimes, no assertion of post, wait, timed_wait, try_wait or reset fails; a call that reports a delivery
    returns only after the post stored it, and only timed_wait can report none; and no wake-up is
    lost: once post has returned, a waiting thread that has not run into its deadline is awake and
    returns, with success, within three more accesses of its own. *)
Theorem baton_handoff s : reachable s →
  (∀ l e, exec l s ≠ Some (Err e)) ∧
  (waiter s = WRet true → posted s = true) ∧
  (waiter s = WRet false → kind s = TimedWait) ∧
  (poster s = PDone → (∀ b, waiter s ≠ WRet b) → waiter s ≠ WTimeout → arrives s).
Proof.
  intros Hr. pose proof (reachable_good s Hr) as Hg. split; [|split; [|split]].
  - intros l e He. pose proof (good_step l s Hg) as Hs. by rewrite He in Hs.
  - destruct Hg as [Hs _]. intros Hw. unfold by_state in Hs. rewrite Hw in Hs. baton_cases; naive_solver.
  - intros Hw. apply Hg. by right.
  - by apply good_arrives.
Qed.

(** Executing labels in a row. *)
Definition follow (ls : list label) (s : baton) : outcome baton :=
  foldl (fun o l => s ← o; match exec l s with Some r => r | None => Err Undefined end) (Ret s) ls.
Lemma follow_reachable ls : ∀ s s', follow ls s = Ret s' → rtc step s s'.
Proof.
  unfold follow. induction ls as [|l ls IH] using rev_ind; intros s s' H; [by injection H as <-|].
  rewrite foldl_app in H. cbn in H. apply bind_ret_inv in H as (s1 & H1 & H2). eapply rtc_r; [by apply IH|].
  destruct (exec l s1) as [[]|] eqn:E; simplify_eq. by econstructor.
Qed.
(** try_wait once, spin, sleep; the post comes, and then its wake-up; a second lifetime gets the
    wake-up of the first. *)
Definition demo_run : list label := repeat LWait 305 ++ [LPost; LPost; LInterrupt; LWait; LReset 0 TimedWait] ++ repeat LWait 304 ++ [LStale; LPost].
Lemma baton_handoff_witness : ∃ s, follow demo_run (new 1 Wait) = Ret s ∧ waiter s = WLoad ∧ poster s = PStore ∧ ∀ l e, exec l s ≠ Some (Err e).
Proof.
  destruct (follow demo_run (new 1 Wait)) as [s|] eqn:E; [|vm_compute in E; discriminate E].
  exists s. split; [done|]. split; [vm_compute in E; by injection E as <-|]. split; [vm_compute in E; by injection E as <-|].
  apply (baton_handoff s). exists 1%nat, Wait. by eapply follow_reachable.
Defined.
End BatonProof.
