(* ===== verification/Pool.v ===== *)
(** concurrency/ThreadPool.h, ThreadPool.cpp, CPUThreadPool.h, CPUThreadPool.cpp and
    util/BlockingQueue.h, Sem.h: a pool of threads that take tasks from a queue, as a
    state machine. A step is one access to shared data (a critical section of a mutex, or
    one operation on an atomic or on a semaphore) of one of the pool's threads, of the
    one thread that controls the pool, or of any thread that adds a task. *)
From S2P Require Import Prelude Threads.

(** ** GenericBlockingQueue *)

Module BlockingQueue.

(** sem_post(3) fails when the value would exceed this. *)
Definition SEM_VALUE_MAX : Z := 2 ^ 31 - 1.

Record t (A : Type) := mk { queue_ : list A; sem_ : Z }.
Arguments mk {A}.
Arguments queue_ {A}.
Arguments sem_ {A}.

Definition empty {A} : t A := mk [] 0.

(** void post() const of Sem. *)
Definition post (v : Z) : outcome Z :=
  if v <? SEM_VALUE_MAX then Ret (v + 1) else Err (Thrown "failed to post sem").

(** void add(T item), under the lock. *)
Definition add {A} (item : A) (q : t A) : outcome (t A) :=
  v ← post (sem_ q); Ret (mk (queue_ q ++ [item]) v).

(** One round of take() under the lock: the first item, if there is one. *)
Definition take {A} (q : t A) : option (A * t A) :=
  match queue_ q with [] => None | x :: r => Some (x, mk r (sem_ q)) end.

(** sem_.wait() between two rounds: blocked at 0. *)
Definition wait {A} (q : t A) : option (t A) :=
  if 0 <? sem_ q then Some (mk (queue_ q) (sem_ q - 1)) else None.

Definition size {A} (q : t A) : Z := Z.of_nat (length (queue_ q)).

End BlockingQueue.

(** ** The pool *)

Module Pool.

(** struct CPUTask: its functions are named by a number; what they do to the pool is to
    add tasks, a step that can happen at any time. *)
Record CPUTask := mk_task {
  func_ : nat;
  enqueueTime_ : Z;
  expiration_ : Z;
  expireCallback_ : option nat;
  poison : bool
}.
#[global] Instance CPUTask_eq_dec : EqDecision CPUTask.
Proof. solve_decision. Defined.

(** CPUTask(f, expiration, expireCallback) and CPUTask(), at the time [now]. *)
Definition new_task (now : Z) (f : nat) (expiration : Z) (cb : option nat) : CPUTask :=
  mk_task f now expiration cb false.
Definition poison_task (now : Z) : CPUTask := mk_task 0 now 0 None true.

Record Stats := mk_stats { expired : bool; waitTime : Z; runTime : Z }.

(** Where a thread of the pool is in CPUThreadPool::threadRun. *)
Inductive wpc :=
| WNew                                  (* made, not yet created *)
| WInit                                 (* before startupBaton.post() *)
| WTake                                 (* in take(), before a round *)
| WSem                                  (* in take(), in sem_.wait() *)
| WGot (t : CPUTask)                    (* task taken *)
| WRun (t : CPUTask) (st : Stats) (startTime : Z)  (* in runTask, in the task's function *)
| WRan                                  (* before the test of threadsToStop_ *)
| WTest                                 (* before the test of isJoin_ *)
| WDec                                  (* before --threadsToStop_ *)
| WInc                                  (* before threadsToStop_++ *)
| WObs                                  (* before observers are told *)
| WStop                                 (* before stoppedThreads_.add(thread) *)
| WDone.                                (* returned *)

(** struct Thread: its address orders shared pointers to it. *)
Record Thread := mk_thread { addr : Z; pc : wpc; idle : bool; startup : bool }.

(** Operations of the controlling thread. *)
Inductive op := SetNumThreads (n : nat) | Stop | Join | AddObserver (o : nat) | RemoveObserver (o : nat).

(** Where the controlling thread is. [goal] is the size its last check asks for. *)
Inductive cpc :=
| CIdle
| CAdd (n goal : nat)                          (* addThreads(n) *)
| CSpawn (todo news : list nat) (goal : nat)   (* its second loop *)
| CSort (news : list nat) (goal : nat)         (* std::sort *)
| CStart (todo news : list nat) (goal : nat)   (* startupBaton.wait() *)
| CRemove (n : nat) (join : bool) (goal : nat) (* removeThreads(n, isJoin) *)
| CFlag (n : nat) (join : bool) (goal : nat)   (* isJoin_ = isJoin *)
| CStop (n goal : nat)                         (* stopThreads(n) *)
| CSet (n goal : nat)                          (* threadsToStop_ = n *)
| CPoison (k n goal : nat)                     (* k poisons to add *)
| CTake (k goal : nat)                         (* k threads to take from stoppedThreads_ *)
| CSem (k goal : nat)                          (* the same, S k threads, in sem_.wait() *)
| CErase (w k goal : nat)                      (* handle.join() and erase *)
| CEmpty (goal : nat)                          (* CHECK(stoppedThreads_.size() == 0) *)
| CGoal (goal : nat).                          (* CHECK(threads_.size() == goal) *)

(** What observers and tasks see. *)
Inductive event :=
| Called (f : nat) (startTime : Z)                    (* task.func_() *)
| Expired (f : nat) (cb : option nat) (startTime : Z) (* task.expireCallback_(), if there is one *)
| Reported (s : Stats)
| ThreadStarted (o w : nat)
| ThreadStopped (o w : nat).

Record pool := mk_pool {
  taskQueue_ : BlockingQueue.t CPUTask;
  threadsToStop_ : Z;
  isJoin_ : option bool;              (* None: not yet initialised *)
  stoppedThreads_ : BlockingQueue.t nat;
  workers : list Thread;              (* every thread object, by number *)
  threads_ : list nat;
  observers_ : list nat;
  ctl : cpc;
  ops : list op;                      (* the controlling thread's calls to come *)
  log : list event;
  added : list CPUTask;               (* history: tasks put in the queue, in order *)
  taken : list CPUTask                (* history: tasks taken from it, in order *)
}.

Definition set_queue q s := mk_pool q (threadsToStop_ s) (isJoin_ s) (stoppedThreads_ s) (workers s) (threads_ s) (observers_ s) (ctl s) (ops s) (log s) (added s) (taken s).
Definition set_toStop v s := mk_pool (taskQueue_ s) v (isJoin_ s) (stoppedThreads_ s) (workers s) (threads_ s) (observers_ s) (ctl s) (ops s) (log s) (added s) (taken s).
Definition set_isJoin v s := mk_pool (taskQueue_ s) (threadsToStop_ s) v (stoppedThreads_ s) (workers s) (threads_ s) (observers_ s) (ctl s) (ops s) (log s) (added s) (taken s).
Definition set_stopped v s := mk_pool (taskQueue_ s) (threadsToStop_ s) (isJoin_ s) v (workers s) (threads_ s) (observers_ s) (ctl s) (ops s) (log s) (added s) (taken s).
Definition set_workers v s := mk_pool (taskQueue_ s) (threadsToStop_ s) (isJoin_ s) (stoppedThreads_ s) v (threads_ s) (observers_ s) (ctl s) (ops s) (log s) (added s) (taken s).
Definition set_threads v s := mk_pool (taskQueue_ s) (threadsToStop_ s) (isJoin_ s) (stoppedThreads_ s) (workers s) v (observers_ s) (ctl s) (ops s) (log s) (added s) (taken s).
Definition set_observers v s := mk_pool (taskQueue_ s) (threadsToStop_ s) (isJoin_ s) (stoppedThreads_ s) (workers s) (threads_ s) v (ctl s) (ops s) (log s) (added s) (taken s).
Definition set_ctl v s := mk_pool (taskQueue_ s) (threadsToStop_ s) (isJoin_ s) (stoppedThreads_ s) (workers s) (threads_ s) (observers_ s) v (ops s) (log s) (added s) (taken s).
Definition set_ops v s := mk_pool (taskQueue_ s) (threadsToStop_ s) (isJoin_ s) (stoppedThreads_ s) (workers s) (threads_ s) (observers_ s) (ctl s) v (log s) (added s) (taken s).
Definition tell es s := mk_pool (taskQueue_ s) (threadsToStop_ s) (isJoin_ s) (stoppedThreads_ s) (workers s) (threads_ s) (observers_ s) (ctl s) (ops s) (log s ++ es) (added s) (taken s).
Definition set_pc (i : nat) (th : Thread) (c : wpc) s :=
  set_workers (<[i := mk_thread (addr th) c (idle th) (startup th)]> (workers s)) s.

(** taskQueue_.add(t), and the thread number [w] taking a task. *)
Definition enqueue (t : CPUTask) s : outcome pool :=
  q ← BlockingQueue.add t (taskQueue_ s);
  Ret (mk_pool q (threadsToStop_ s) (isJoin_ s) (stoppedThreads_ s) (workers s) (threads_ s) (observers_ s) (ctl s) (ops s) (log s) (added s ++ [t]) (taken s)).
Definition dequeue (t : CPUTask) (q : BlockingQueue.t CPUTask) s : pool :=
  mk_pool q (threadsToStop_ s) (isJoin_ s) (stoppedThreads_ s) (workers s) (threads_ s) (observers_ s) (ctl s) (ops s) (log s) (added s) (taken s ++ [t]).

Definition RDDCHECK (b : bool) : outcome unit := check b AssertFailed.

(** runTask up to the call of the task's function: whether it has expired. *)
Definition task_start (now : Z) (t : CPUTask) : Stats * list event :=
  let w := u64 (now - enqueueTime_ t) in
  if (0 <? expiration_ t) && (expiration_ t <=? w)
  then (mk_stats true w 0, [Expired (func_ t) (expireCallback_ t) now])
  else (mk_stats false w 0, [Called (func_ t) now]).
(** runTask after it. *)
Definition task_stats (now startTime : Z) (st : Stats) : Stats :=
  if expired st then st else mk_stats false (waitTime st) (u64 (now - startTime)).

(** One access of thread [i]; None: blocked, or nothing to do. *)
Definition work (i : nat) (now : Z) (s : pool) : option (outcome pool) :=
  th ← workers s !! i;
  match pc th with
  | WNew | WDone => None
  | WInit => Some (Ret (set_workers (<[i := mk_thread (addr th) WTake (idle th) true]> (workers s)) s))
  | WTake =>
      Some (Ret (match BlockingQueue.take (taskQueue_ s) with
                 | Some (t, q) => set_pc i th (WGot t) (dequeue t q s)
                 | None => set_pc i th WSem s
                 end))
  | WSem => q ← BlockingQueue.wait (taskQueue_ s); Some (Ret (set_pc i th WTake (set_queue q s)))
  | WGot t =>
      if poison t then
        Some (RDDCHECK (0 <? threadsToStop_ s);;
              Ret (set_pc i th WObs (set_toStop (threadsToStop_ s - 1) s)))
      else
        let (st, es) := task_start now t in
        Some (Ret (tell es (set_workers (<[i := mk_thread (addr th) (WRun t st now) false (startup th)]> (workers s)) s)))
  | WRun t st startTime =>
      let st' := task_stats now startTime st in
      Some (Ret (tell [Reported st'] (set_workers (<[i := mk_thread (addr th) WRan true (startup th)]> (workers s)) s)))
  | WRan => Some (Ret (set_pc i th (if 0 <? threadsToStop_ s then WTest else WTake) s))
  | WTest =>
      Some (j ← of_option Undefined (isJoin_ s); Ret (set_pc i th (if (j : bool) then WTake else WDec) s))
  | WDec =>
      let v := threadsToStop_ s - 1 in
      Some (Ret (set_pc i th (if 0 <=? v then WStop else WInc) (set_toStop v s)))
  | WInc => Some (Ret (set_pc i th WTake (set_toStop (threadsToStop_ s + 1) s)))
  | WObs => Some (Ret (set_pc i th WStop (tell (map (fun o => ThreadStopped o i) (observers_ s)) s)))
  | WStop => Some (q ← BlockingQueue.add i (stoppedThreads_ s); Ret (set_pc i th WDone (set_stopped q s)))
  end.

(** std::sort of shared pointers, by address. *)
Definition address (s : pool) (w : nat) : Z := from_option addr 0 (workers s !! w).
Fixpoint insert_sorted (s : pool) (w : nat) (l : list nat) : list nat :=
  match l with
  | [] => [w]
  | x :: r => if address s w <? address s x then w :: l else x :: insert_sorted s w r
  end.
Definition sort (s : pool) (l : list nat) : list nat := foldr (insert_sorted s) [] l.

(** std::equal_range of a sorted vector: the first element not before [w], and the first
    one after it. *)
Definition lower_bound (s : pool) (l : list nat) (w : nat) : nat :=
  length (filter (fun x => address s x < address s w) l).
Definition upper_bound (s : pool) (l : list nat) (w : nat) : nat :=
  length (filter (fun x => address s x ≤ address s w) l).

Definition started (s : pool) (w : nat) : bool := from_option startup false (workers s !! w).
Definition returned (s : pool) (w : nat) : bool :=
  match pc <$> (workers s !! w) with Some WDone => true | _ => false end.

(** The beginning of a call of the controlling thread. *)
Definition begin (o : op) (s : pool) : pool :=
  let current := length (threads_ s) in
  match o with
  | SetNumThreads n =>
      if (current <? n)%nat then set_ctl (CAdd (n - current) n) s
      else if (n <? current)%nat then set_ctl (CRemove (current - n) true n) s
      else set_ctl (CGoal n) s
  | Stop => set_ctl (CRemove current false 0) s
  | Join => set_ctl (CRemove current true 0) s
  | AddObserver o =>
      tell (map (ThreadStarted o) (threads_ s)) (set_observers (observers_ s ++ [o]) s)
  | RemoveObserver o =>
      tell (map (ThreadStopped o) (threads_ s))
        (set_observers (match list_find (eq o) (observers_ s) with
                        | Some (j, _) => delete j (observers_ s) | None => observers_ s end) s)
  end.

(** One access of the controlling thread. [addrs] are the addresses of new thread
    objects, where it makes some: they are distinct, and those of no thread of the pool. *)
Definition control (now : Z) (addrs : list Z) (s : pool) : option (outcome pool) :=
  match ctl s with
  | CIdle => match ops s with [] => None | o :: r => Some (Ret (begin o (set_ops r s))) end
  | CAdd n goal =>
      if decide (length addrs = n ∧ NoDup addrs ∧ Forall (fun a => a ∉ map (address s) (threads_ s)) addrs) then
        let news := seq (length (workers s)) n in
        Some (Ret (set_ctl (CSpawn news news goal)
          (set_workers (workers s ++ map (fun a => mk_thread a WNew true false) addrs) s)))
      else None
  | CSpawn (w :: todo) news goal =>
      th ← workers s !! w;
      Some (Ret (set_ctl (CSpawn todo news goal) (set_threads (threads_ s ++ [w]) (set_pc w th WInit s))))
  | CSpawn [] news goal => Some (Ret (set_ctl (CSort news goal) s))
  | CSort news goal => Some (Ret (set_ctl (CStart news news goal) (set_threads (sort s (threads_ s)) s)))
  | CStart (w :: todo) news goal =>
      if started s w then Some (Ret (set_ctl (CStart todo news goal) s)) else None
  | CStart [] news goal =>
      Some (Ret (set_ctl (CGoal goal) (tell (o ← observers_ s; map (ThreadStarted o) news) s)))
  | CRemove n join goal =>
      Some (RDDCHECK (BlockingQueue.size (stoppedThreads_ s) =? 0);; Ret (set_ctl (CFlag n join goal) s))
  | CFlag n join goal => Some (Ret (set_ctl (CStop n goal) (set_isJoin (Some join) s)))
  | CStop n goal =>
      Some (RDDCHECK (BlockingQueue.size (stoppedThreads_ s) =? 0);; Ret (set_ctl (CSet n goal) s))
  | CSet n goal => Some (Ret (set_ctl (CPoison n n goal) (set_toStop (Z.of_nat n) s)))
  | CPoison (S k) n goal => Some (s' ← enqueue (poison_task now) s; Ret (set_ctl (CPoison k n goal) s'))
  | CPoison O n goal => Some (Ret (set_ctl (CTake n goal) s))
  | CTake (S k) goal =>
      Some (Ret (match BlockingQueue.take (stoppedThreads_ s) with
                 | Some (w, q) => set_ctl (CErase w k goal) (set_stopped q s)
                 | None => set_ctl (CSem k goal) s
                 end))
  | CTake O goal => Some (Ret (set_ctl (CEmpty goal) s))
  | CSem k goal => q ← BlockingQueue.wait (stoppedThreads_ s); Some (Ret (set_ctl (CTake (S k) goal) (set_stopped q s)))
  | CErase w k goal =>
      if returned s w then
        let lo := lower_bound s (threads_ s) w in
        Some (RDDCHECK (lo <? length (threads_ s))%nat;; RDDCHECK (S lo =? upper_bound s (threads_ s) w)%nat;;
              Ret (set_ctl (CTake k goal) (set_threads (delete lo (threads_ s)) s)))
      else None
  | CEmpty goal =>
      Some (RDDCHECK (BlockingQueue.size (stoppedThreads_ s) =? 0);; Ret (set_ctl (CGoal goal) s))
  | CGoal goal =>
      Some (RDDCHECK (Z.of_nat (length (threads_ s)) =? Z.of_nat goal);; Ret (set_ctl CIdle s))
  end.

(** void add(func, expiration, expireCallback), by any thread, and add(func). *)
Definition add (now : Z) (f : nat) (expiration : Z) (cb : option nat) (s : pool) : outcome pool :=
  enqueue (new_task now f expiration cb) s.
Definition add0 (now : Z) (f : nat) (s : pool) : outcome pool := add now f 0 None s.

Inductive label :=
| LWork (i : nat) (now : Z)
| LControl (now : Z) (addrs : list Z)
| LAdd (now : Z) (f : nat) (expiration : Z) (cb : option nat).

Definition exec (l : label) (s : pool) : option (outcome pool) :=
  match l with
  | LWork i now => work i now s
  | LControl now addrs => control now addrs s
  | LAdd now f expiration cb => Some (add now f expiration cb s)
  end.

(** CPUThreadPool(n), after which the controlling thread makes the calls [os]. *)
Definition init (n : nat) (os : list op) : pool :=
  mk_pool BlockingQueue.empty 0 None BlockingQueue.empty [] [] [] (CAdd n n) os [] [] [].

Inductive step : pool → pool → Prop :=
| step_exec l s s' : exec l s = Some (Ret s') → step s s'.
Definition reachable (n : nat) (os : list op) (s : pool) : Prop := rtc step (init n os) s.

(** ThreadPool::getStats. *)
Record PoolStats := mk_pstats { threadCount : Z; idleThreadCount : Z; activeThreadCount : Z; pendingTaskCount : Z; totalTaskCount : Z }.
Definition is_idle (s : pool) (w : nat) : bool := from_option idle false (workers s !! w).
Definition getStats (s : pool) : PoolStats :=
  let active := count (fun w => negb (is_idle s w)) (threads_ s) in
  let pending := BlockingQueue.size (taskQueue_ s) in
  mk_pstats (Z.of_nat (length (threads_ s))) (count (is_idle s) (threads_ s)) active pending (pending + active).

End Pool.
