(* ===== verification/PoolProof.v ===== *)
(** The thread pool: the invariant of its counters, queues and thread list, kept by
    every step of every thread. *)
From S2P Require Import Prelude Threads Pool.

Module PoolProof.
Import Pool.

(** ** Counting threads by where they are *)

Definition cnt (f : wpc → bool) (s : pool) : Z := count (fun th => f (pc th)) (workers s).

Definition alive (c : wpc) : bool := match c with WNew | WObs | WStop | WDone => false | _ => true end.
Definition dying (c : wpc) : bool := match c with WObs | WStop => true | _ => false end.
Definition is_done (c : wpc) : bool := match c with WDone => true | _ => false end.
Definition taking (c : wpc) : bool := match c with WTake => true | _ => false end.
Definition poisoned (c : wpc) : bool := match c with WGot t => poison t | _ => false end.
Definition testing (c : wpc) : bool := match c with WTest => true | _ => false end.
Definition leaving (c : wpc) : bool := match c with WDec => true | _ => false end.
Definition undoing (c : wpc) : bool := match c with WInc => true | _ => false end.

(** Poisons in the queue and in the hands of a thread. *)
Definition poisons (s : pool) : Z := count poison (BlockingQueue.queue_ (taskQueue_ s)) + cnt poisoned s.
Definition nstopped (s : pool) : Z := BlockingQueue.size (stoppedThreads_ s).
Definition nthreads (s : pool) : Z := Z.of_nat (length (threads_ s)).

(** What the controlling thread still has to do: poisons to add, threads to take back. *)
Definition left (c : cpc) : Z :=
  match c with CPoison k _ _ => Z.of_nat k | CStop n _ | CSet n _ => Z.of_nat n | _ => 0 end.
Definition rem (c : cpc) : Z :=
  match c with
  | CStop n _ | CSet n _ | CPoison _ n _ => Z.of_nat n
  | CTake k _ | CErase _ k _ => Z.of_nat k
  | CSem k _ => Z.of_nat k + 1
  | _ => 0
  end.
(** The stop has been announced by isJoin_ but not by threadsToStop_. *)
Definition unset (c : cpc) : bool := match c with CStop _ _ | CSet _ _ => true | _ => false end.
Definition erasing (c : cpc) : list nat := match c with CErase w _ _ => [w] | _ => [] end.
Definition ctaking (c : cpc) : Z := match c with CTake _ _ => 1 | _ => 0 end.

(** Stop() is the last call, if it is made. *)
Definition stop_last (os : list op) : Prop := ∀ i, os !! i = Some Stop → S i = length os.

Definition goal_ok (s : pool) : Prop :=
  match ctl s with
  | CIdle => True
  | CAdd n g => nthreads s + Z.of_nat n = Z.of_nat g
  | CSpawn todo _ g => nthreads s + Z.of_nat (length todo) = Z.of_nat g
  | CSort _ g | CStart _ _ g | CGoal g | CEmpty g => nthreads s = Z.of_nat g
  | CRemove n _ g | CFlag n _ g | CStop n g | CSet n g | CPoison _ n g => nthreads s = Z.of_nat g + Z.of_nat n
  | CTake k g => nthreads s = Z.of_nat g + Z.of_nat k
  | CSem k g | CErase _ k g => nthreads s = Z.of_nat g + Z.of_nat k + 1
  end.

(** While no stop() has begun. *)
Definition joining (s : pool) : Prop :=
  (if unset (ctl s) then threadsToStop_ s = 0 else threadsToStop_ s = poisons s + left (ctl s)) ∧
  (if unset (ctl s) then poisons s = 0 ∧ cnt dying s = 0 ∧ nstopped s = 0
   else rem (ctl s) = threadsToStop_ s + cnt dying s + nstopped s) ∧
  cnt leaving s = 0 ∧ cnt undoing s = 0 ∧
  (isJoin_ s = None → threadsToStop_ s = 0 ∧ cnt testing s = 0 ∧ unset (ctl s) = false).

(** After isJoin_ was set to false. *)
Definition stopping (s : pool) : Prop :=
  ops s = [] ∧
  (if unset (ctl s) then threadsToStop_ s = - cnt undoing s ∧ poisons s = 0 ∧ cnt dying s = 0 ∧ nstopped s = 0 else cnt alive s ≤ threadsToStop_ s) ∧
  cnt alive s ≤ poisons s + left (ctl s) ∧
  rem (ctl s) = cnt alive s + cnt dying s + nstopped s ∧
  match ctl s with CAdd _ _ | CSpawn _ _ _ | CSort _ _ | CStart _ _ _ | CRemove _ _ _ | CFlag _ _ _ => False | _ => True end.

Record inv (s : pool) : Prop := {
  i_fifo : added s = taken s ++ BlockingQueue.queue_ (taskQueue_ s);
  i_sem : 0 ≤ BlockingQueue.sem_ (taskQueue_ s) ≤ Z.of_nat (length (added s));
  i_wake : BlockingQueue.size (taskQueue_ s) ≤ BlockingQueue.sem_ (taskQueue_ s) + cnt taking s;
  i_ssem : 0 ≤ BlockingQueue.sem_ (stoppedThreads_ s) ≤ cnt is_done s;
  i_swake : nstopped s ≤ BlockingQueue.sem_ (stoppedThreads_ s) + ctaking (ctl s);
  i_threads : nthreads s = cnt alive s + cnt dying s + nstopped s + Z.of_nat (length (erasing (ctl s)));
  i_goal : goal_ok s;
  i_mode : if decide (isJoin_ s = Some false) then stopping s else joining s;
  i_last : stop_last (ops s);
  i_stop : match ctl s with CRemove n false g | CFlag n false g => ops s = [] ∧ g = 0%nat | _ => True end
}.

Lemma cnt_nonneg f s : 0 ≤ cnt f s.
Proof. apply count_nonneg. Qed.

Lemma cnt_pos (f : wpc → bool) s i th : workers s !! i = Some th → f (pc th) = true → 0 < cnt f s.
Proof. intros Hi Hf. by apply (count_pos _ _ i th). Qed.

Lemma cnt_insert (f : wpc → bool) ws i th th' : ws !! i = Some th →
  count (fun th => f (pc th)) (<[i := th']> ws) =
  count (fun th => f (pc th)) ws - Z.b2z (f (pc th)) + Z.b2z (f (pc th')).
Proof. intros Hi. by rewrite (count_insert _ _ _ th). Qed.

Lemma count_app {A} (f : A → bool) l k : count f (l ++ k) = count f l + count f k.
Proof. induction l as [|x l IH]; [done|]. cbn [app]. rewrite !count_cons, IH. lia. Qed.

Lemma count_new (f : wpc → bool) l : f WNew = false →
  count (fun th => f (pc th)) (map (fun a => mk_thread a WNew true false) l) = 0.
Proof. intros Hf. induction l as [|x l IH]; [done|]. cbn [map]. rewrite count_cons, IH. cbn [pc]. by rewrite Hf. Qed.

Lemma dying_alive s : cnt alive s + cnt dying s + cnt is_done s ≤ Z.of_nat (length (workers s)).
Proof.
  unfold cnt. induction (workers s) as [|th l IH]; [done|]. rewrite !count_cons. cbn [length].
  destruct (pc th); cbn [alive dying is_done Z.b2z]; lia.
Qed.

Lemma poisoned_alive s : cnt poisoned s ≤ cnt alive s.
Proof.
  unfold cnt. induction (workers s) as [|th l IH]; [done|]. rewrite !count_cons.
  destruct (pc th); cbn [poisoned alive Z.b2z]; try lia. destruct (poison _); cbn [Z.b2z]; lia.
Qed.

(** ** Steps of the pool's threads *)

Ltac counts Hi :=
  unfold cnt, set_pc, set_workers, set_toStop, set_queue, set_stopped, tell, dequeue, set_ctl, set_threads, set_isJoin, set_ops, set_observers in *;
  cbn [workers taskQueue_ threadsToStop_ isJoin_ stoppedThreads_ threads_ observers_ ctl ops log added taken] in *;
  rewrite ?(cnt_insert _ _ _ _ _ Hi) in *;
  cbn [pc addr idle startup alive dying is_done taking poisoned testing leaving undoing Z.b2z] in *.

(** The ways an access can have happened. *)
Ltac inv_exec H :=
  repeat match type of H with
  | Some (Ret (match ?x with _ => _ end)) = _ => destruct x as [[]|] eqn:?
  | Some (Ret _) = _ => injection H as <-
  | (if ?b then _ else _) = _ => destruct b eqn:?; try done
  | (let (_, _) := ?x in _) = _ => destruct x eqn:?
  | Some _ = Some _ => injection H as H; inv_ret
  | _ ≫= _ = Some _ => apply bind_Some in H as (? & ? & H)
  end.

(** A step of a thread leaves what the controlling thread decides. *)
Lemma inv_frame s s' : inv s →
  ctl s' = ctl s → ops s' = ops s → isJoin_ s' = isJoin_ s → threads_ s' = threads_ s →
  added s' = taken s' ++ BlockingQueue.queue_ (taskQueue_ s') →
  0 ≤ BlockingQueue.sem_ (taskQueue_ s') ≤ Z.of_nat (length (added s')) →
  BlockingQueue.size (taskQueue_ s') ≤ BlockingQueue.sem_ (taskQueue_ s') + cnt taking s' →
  0 ≤ BlockingQueue.sem_ (stoppedThreads_ s') ≤ cnt is_done s' →
  nstopped s' ≤ BlockingQueue.sem_ (stoppedThreads_ s') + ctaking (ctl s) →
  cnt alive s' + cnt dying s' + nstopped s' = cnt alive s + cnt dying s + nstopped s →
  (if decide (isJoin_ s = Some false) then stopping s → stopping s' else joining s → joining s') →
  inv s'.
Proof.
  intros [I1 I2 I3 I4 I5 I6 I7 I8 I9 I10] E1 E2 E3 E4 F1 F2 F3 F4 F5 F6 F7.
  split; rewrite ?E1, ?E2, ?E3; try done.
  - unfold nthreads in *. rewrite E4, I6. lia.
  - unfold goal_ok, nthreads in *. by rewrite E1, E4.
  - destruct (decide _); auto.
Qed.

Ltac pool_arith Hi Hc :=
  unfold poisons, nstopped, BlockingQueue.size, cnt, set_pc, set_workers, set_toStop, set_queue, set_stopped, tell, dequeue;
  cbn [workers taskQueue_ threadsToStop_ isJoin_ stoppedThreads_ threads_ observers_ ctl ops log added taken
       BlockingQueue.queue_ BlockingQueue.sem_];
  rewrite ?(cnt_insert _ _ _ _ _ Hi), ?Hc;
  cbn [pc alive dying is_done taking poisoned testing leaving undoing Z.b2z].

Ltac pool_mode Hi Hc :=
  destruct (decide _) as [Hj|Hj]; unfold stopping, joining; pool_arith Hi Hc;
  [intros (S1 & S2 & S3 & S4 & S5) | intros (J1 & J2 & J3 & J4 & J5)];
  rewrite ?count_cons in *; destruct (unset _) eqn:Hu; split_and!; try assumption; try lia;
  try (let Hn := fresh in intros Hn; match goal with J : _ = None → _ |- _ => destruct (J Hn) as (? & ? & ?) end);
  split_and?; try assumption; try lia.

Lemma work_inv i now s s' : work i now s = Some (Ret s') → inv s → inv s'.
Proof.
  intros Hw Hinv. pose proof Hinv as [I1 I2 I3 I4 I5 I6 _ I8 _ _]. unfold work in Hw.
  destruct (workers s !! i) as [th|] eqn:Hi; [|done]. cbn in Hw.
  pose proof (fun f => cnt_pos f s i th Hi) as Hpos.
  pose proof (Hpos alive) as Pa. pose proof (Hpos dying) as Pd. pose proof (Hpos poisoned) as Pp. pose proof (Hpos leaving) as Pl.
  pose proof (Hpos undoing) as Pu. pose proof (Hpos testing) as Pt. pose proof (Hpos taking) as Pk. clear Hpos.
  pose proof (cnt_nonneg alive s). pose proof (cnt_nonneg dying s). pose proof (cnt_nonneg poisoned s).
  pose proof (cnt_nonneg taking s). pose proof (cnt_nonneg leaving s). pose proof (cnt_nonneg undoing s).
  pose proof (count_nonneg poison (BlockingQueue.queue_ (taskQueue_ s))) as Hcp.
  destruct s as [[q v] ts jn [sq sv] ws thr ob ct os lg ad tk].
  unfold BlockingQueue.take, BlockingQueue.wait, BlockingQueue.add, BlockingQueue.post in Hw.
  unfold nstopped, nthreads, BlockingQueue.size in *.
  unfold cnt, poisons in *. cbn [workers taskQueue_ threadsToStop_ isJoin_ stoppedThreads_ threads_ observers_ ctl ops log added taken BlockingQueue.queue_ BlockingQueue.sem_] in *.
  destruct (pc th) eqn:Hc; cbn [alive dying is_done taking poisoned testing leaving undoing] in *; try done.
  - injection Hw as <-. apply (inv_frame _ _ Hinv); try done; try (pool_arith Hi Hc; lia). pool_mode Hi Hc.
  - injection Hw as <-. destruct q as [|t q]; apply (inv_frame _ _ Hinv); try done; try (pool_arith Hi Hc; cbn [length] in *; lia).
    + pool_mode Hi Hc.
    + cbn. by rewrite I1, <- app_assoc.
    + rewrite count_cons in *. pool_mode Hi Hc.
  - destruct (Z.ltb_spec 0 v) as [Hv|]; cbn in Hw; [|done]. injection Hw as <-.
    apply (inv_frame _ _ Hinv); try done; try (pool_arith Hi Hc; lia). pool_mode Hi Hc.
  - destruct (poison t) eqn:Hp.
    + destruct (Z.ltb_spec 0 ts) as [Hv|]; cbn in Hw; [|done]. injection Hw as <-.
      specialize (Pp eq_refl).
      apply (inv_frame _ _ Hinv); try done; try (pool_arith Hi Hc; rewrite ?Hp; cbn [Z.b2z]; lia).
      pool_mode Hi Hc; rewrite ?Hp in *; cbn [Z.b2z] in *; lia.
    + destruct (task_start now t) as [st es]. injection Hw as <-.
      apply (inv_frame _ _ Hinv); try done; try (pool_arith Hi Hc; rewrite ?Hp; cbn [Z.b2z]; lia).
      pool_mode Hi Hc; rewrite ?Hp in *; cbn [Z.b2z] in *; lia.
  - injection Hw as <-. apply (inv_frame _ _ Hinv); try done; try (pool_arith Hi Hc; lia). pool_mode Hi Hc.
  - injection Hw as <-. destruct (Z.ltb_spec 0 ts); apply (inv_frame _ _ Hinv); try done; try (pool_arith Hi Hc; lia); pool_mode Hi Hc.
  - destruct jn as [[]|]; cbn in Hw; [..|done]; injection Hw as <-;
      apply (inv_frame _ _ Hinv); try done; try (pool_arith Hi Hc; lia); pool_mode Hi Hc; congruence.
  - injection Hw as <-. destruct (Z.leb_spec 0 (ts - 1)); apply (inv_frame _ _ Hinv); try done; try (pool_arith Hi Hc; lia); pool_mode Hi Hc.
  - injection Hw as <-. apply (inv_frame _ _ Hinv); try done; try (pool_arith Hi Hc; lia). pool_mode Hi Hc.
  - injection Hw as <-. apply (inv_frame _ _ Hinv); try done; try (pool_arith Hi Hc; lia). pool_mode Hi Hc.
  - destruct (Z.ltb_spec sv BlockingQueue.SEM_VALUE_MAX); cbn in Hw; [|done]. injection Hw as <-.
    apply (inv_frame _ _ Hinv); try done; try (pool_arith Hi Hc; rewrite ?length_app; cbn [length]; lia).
    pool_mode Hi Hc; rewrite ?length_app; cbn [length]; lia.
Qed.

(** ** Steps of the controlling thread *)

(** Threads made but not yet created are new. *)
Definition spawn_ok (s : pool) : Prop :=
  match ctl s with
  | CSpawn todo _ _ => NoDup todo ∧ ∀ w, w ∈ todo → pc <$> (workers s !! w) = Some WNew
  | _ => True
  end.

Lemma stop_last_tail o os : stop_last (o :: os) → stop_last os ∧ (o = Stop → os = []).
Proof.
  intros H. split.
  - intros i Hi. specialize (H (S i) Hi). cbn in H. lia.
  - intros ->. specialize (H 0%nat eq_refl). destruct os; [done|cbn in H; lia].
Qed.

Ltac pool_simp :=
  unfold begin, set_pc, set_workers, set_toStop, set_queue, set_stopped, set_threads, set_isJoin, set_ops, set_observers, set_ctl, tell, dequeue,
    stopping, joining, goal_ok, poisons, nstopped, nthreads, BlockingQueue.size, cnt in *;
  cbn [workers taskQueue_ threadsToStop_ isJoin_ stoppedThreads_ threads_ observers_ ctl ops log added taken
       BlockingQueue.queue_ BlockingQueue.sem_ unset left rem erasing ctaking length app] in *.

Lemma begin_inv o s os : ctl s = CIdle → ops s = o :: os → inv s → inv (begin o (set_ops os s)).
Proof.
  intros Hc Ho [I1 I2 I3 I4 I5 I6 I7 I8 I9 I10].
  destruct s as [[q v] ts jn [sq sv] ws thr ob ct os' lg ad tk]. cbn in Hc, Ho. subst ct os'.
  destruct (stop_last_tail _ _ I9) as [Hl Hst]. cbn [isJoin_] in I8.
  destruct (decide (jn = Some false)) as [Hj|Hj]; [by destruct I8 as [? _]|].
  pool_simp. destruct o as [n| | |o|o]; pool_simp; try (destruct (Nat.ltb_spec (length thr) n)); try (destruct (Nat.ltb_spec n (length thr)));
    (split; pool_simp; [try done; try lia..|]); try done; try lia; try (by destruct (decide _)); auto.
Qed.

Lemma length_insert_sorted s w l : length (insert_sorted s w l) = S (length l).
Proof. induction l as [|x l IH]; [done|]. cbn. destruct (_ <? _); cbn; lia. Qed.

Lemma length_sort s l : length (sort s l) = length l.
Proof. induction l as [|x l IH]; [done|]. change (sort s (x :: l)) with (insert_sorted s x (sort s l)). rewrite length_insert_sorted, IH. done. Qed.

(** The two modes, after a step of the controlling thread. *)
Ltac ctl_mode I8 :=
  let S2 := fresh "S2" in let S3 := fresh "S3" in
  destruct (decide _) as [?|?]; [destruct I8 as (? & S2 & S3 & ? & ?)|destruct I8 as (? & ? & ? & ? & ?)]; try done; split_and!; try done; try lia;
  try (let Hn := fresh in intros Hn; match goal with J : _ = None → _ |- _ => destruct (J Hn) as (? & ? & ?) end; split_and!; try done; try lia).
Ltac ctl_case I8 := split; pool_simp; try done; try lia; try ctl_mode I8.

Lemma control_inv now addrs s s' : spawn_ok s → control now addrs s = Some (Ret s') → inv s → inv s'.
Proof.
  intros Hsp Hw Hinv. unfold control in Hw. destruct (ctl s) as [|n g|[|w todo] news g|news g|[|w todo] news g|n j g|n j g|n g|n g|[|k] n g|[|k] g|k g|w k g|g|g] eqn:Hc.
  1: { destruct (ops s) as [|o os] eqn:Ho; [done|]. injection Hw as <-. by apply begin_inv. }
  all: destruct Hinv as [I1 I2 I3 I4 I5 I6 I7 I8 I9 I10]; unfold spawn_ok in Hsp; rewrite Hc in *.
  all: pose proof (cnt_nonneg alive s); pose proof (cnt_nonneg dying s); pose proof (cnt_nonneg undoing s); pose proof (poisoned_alive s).
  all: pose proof (cnt_nonneg poisoned s); pose proof (count_nonneg poison (BlockingQueue.queue_ (taskQueue_ s))).
  all: destruct s as [[q v] ts jn [sq sv] ws thr ob ct os lg ad tk]; cbn [ctl] in Hc; subst ct.
  all: pool_simp.
  - case_decide as Ha; [|done]. injection Hw as <-.
    split; pool_simp; rewrite ?count_app, ?count_new, ?length_seq by done; try done; try lia.
    all: rewrite ?Z.add_0_r; try done; try lia. ctl_mode I8.
  - injection Hw as <-. ctl_case I8.
  - destruct Hsp as [Hnd Hnew]. destruct (ws !! w) as [th|] eqn:Hi; [|done]. cbn in Hw. injection Hw as <-.
    specialize (Hnew w ltac:(by left)). rewrite Hi in Hnew. injection Hnew as Hpc.
    split; pool_simp; rewrite ?(cnt_insert _ _ _ _ _ Hi), ?Hpc; cbn [pc alive dying is_done taking poisoned testing leaving undoing Z.b2z];
      rewrite ?length_app; cbn [length]; try done; try lia.
    destruct (decide _) as [Hj|Hj]; [by destruct I8 as (_ & _ & _ & _ & [])|destruct I8 as (J1 & J2 & J3 & J4 & J5)]; split_and!; try done; try lia.
    intros Hn; destruct (J5 Hn) as (? & ? & ?); split_and!; try done; try lia.
  - injection Hw as <-. ctl_case I8; rewrite length_sort; lia.
  - injection Hw as <-. ctl_case I8.
  - destruct (started _ w); [|done]. injection Hw as <-. ctl_case I8.
  - destruct (Z.eqb_spec (Z.of_nat (length sq)) 0); [|done]. cbn in Hw. injection Hw as <-. ctl_case I8.
  - injection Hw as <-. destruct (decide (jn = Some false)) as [?|Hj]; [by destruct I8 as (_ & _ & _ & _ & [])|].
    destruct I8 as (J1 & J2 & J3 & J4 & J5). destruct j; (split; pool_simp; [try done; try lia..|]); try done; try lia.
    + rewrite decide_False by done. split_and!; try done; lia.
    + destruct I10 as [-> ->]. rewrite decide_True by done. split_and!; try done; lia.
  - destruct (Z.eqb_spec (Z.of_nat (length sq)) 0); [|done]. cbn in Hw. injection Hw as <-. ctl_case I8.
  - injection Hw as <-. ctl_case I8.
  - injection Hw as <-. ctl_case I8.
  - unfold enqueue, BlockingQueue.add, BlockingQueue.post in Hw. pool_simp.
    destruct (v <? _); cbn in Hw; [|done]. injection Hw as <-.
    split; pool_simp; rewrite ?length_app, ?count_app, ?count_cons; cbn [length poison poison_task Z.b2z]; try done; try lia.
    + by rewrite I1, app_assoc.
    + change (count poison []) with 0. ctl_mode I8.
  - injection Hw as <-. assert (Z.of_nat (length sq) = 0) by (destruct (decide _); lia). ctl_case I8.
  - injection Hw as <-. unfold BlockingQueue.take. pool_simp. destruct sq as [|w sq]; pool_simp; ctl_case I8.
  - unfold BlockingQueue.wait in Hw. pool_simp. destruct (Z.ltb_spec 0 sv); cbn in Hw; [|done]. injection Hw as <-. ctl_case I8.
  - destruct (returned _ w); [|done].
    match type of Hw with context [(?lo <? length thr)%nat] => set (lo' := lo) in Hw; destruct (Nat.ltb_spec lo' (length thr)) as [Hlt|] end; [|done].
    injection Hw as Hw. apply bind_ret_inv in Hw as (? & _ & Hw). injection Hw as <-.
    apply lookup_lt_is_Some_2 in Hlt as Hlo. pose proof (length_delete _ _ Hlo).
    ctl_case I8.
  - destruct (Z.eqb_spec (Z.of_nat (length sq)) 0); [|done]. cbn in Hw. injection Hw as <-. ctl_case I8.
  - destruct (Z.eqb_spec (Z.of_nat (length thr)) (Z.of_nat g)); [|done]. cbn in Hw. injection Hw as <-. ctl_case I8.
Qed.

Lemma enqueue_inv t s s' : poison t = false → enqueue t s = Ret s' → inv s → inv s'.
Proof.
  intros Hp Hw Hinv. pose proof Hinv as [I1 I2 I3 I4 I5 I6 _ I8 _ _].
  unfold enqueue, BlockingQueue.add, BlockingQueue.post in Hw.
  destruct s as [[q v] ts jn [sq sv] ws thr ob ct os lg ad tk]. pool_simp.
  destruct (v <? _); cbn in Hw; [|done]. injection Hw as <-.
  apply (inv_frame _ _ Hinv); pool_simp; rewrite ?length_app, ?count_app, ?count_cons, ?Hp; cbn [length]; try done; try lia.
  - by rewrite I1, app_assoc.
  - change (count poison []) with 0. destruct (decide _); intros; destruct (unset ct); cbn [Z.b2z]; rewrite ?Z.add_0_r; done.
Qed.
End PoolProof.
