(* ===== verification/PoolSafe.v ===== *)
(** The thread pool: the invariant of its list of threads, and that no check of the pool
    fails. *)
From S2P Require Import Prelude Threads Pool PoolProof.
From Stdlib Require Import Sorted.

Module PoolSafe.
Import Pool PoolProof.

(** ** The sorted vector of threads *)

Section sorted.
Context (s : pool).
Local Notation lt := (fun x y => address s x < address s y).

Lemma insert_sorted_perm w l : insert_sorted s w l ≡ₚ w :: l.
Proof. induction l as [|x l IH]; [done|]. cbn. destruct (_ <? _); [done|]. rewrite IH. apply Permutation_swap. Qed.

Lemma sort_perm l : sort s l ≡ₚ l.
Proof.
  induction l as [|x l IH]; [done|]. change (sort s (x :: l)) with (insert_sorted s x (sort s l)).
  by rewrite insert_sorted_perm, IH.
Qed.

Lemma insert_sorted_sorted w l : address s w ∉ map (address s) l → StronglySorted lt l → StronglySorted lt (insert_sorted s w l).
Proof.
  induction l as [|x l IH]; intros Hn Hs; cbn; [by repeat constructor|].
  inversion_clear Hs as [|? ? Hl Hx]. destruct (Z.ltb_spec (address s w) (address s x)).
  - repeat constructor; try done. eapply Forall_impl; [exact Hx|]. cbn. lia.
  - cbn in Hn. apply not_elem_of_cons in Hn as [Hne Hn]. constructor; [by apply IH|].
    rewrite insert_sorted_perm. constructor; [lia|done].
Qed.

Lemma sort_sorted l : NoDup (map (address s) l) → StronglySorted lt (sort s l).
Proof.
  induction l as [|x l IH]; intros Hn; [constructor|]. cbn in Hn. apply NoDup_cons in Hn as [Hx Hn].
  change (sort s (x :: l)) with (insert_sorted s x (sort s l)).
  apply insert_sorted_sorted; [|by apply IH]. by rewrite sort_perm.
Qed.

(** std::equal_range finds exactly the thread looked for. *)
Lemma equal_range_sorted l w : StronglySorted lt l → w ∈ l →
  l !! lower_bound s l w = Some w ∧ upper_bound s l w = S (lower_bound s l w).
Proof.
  unfold lower_bound, upper_bound. induction l as [|x l IH]; intros Hs Hin; [by apply elem_of_nil in Hin|].
  inversion_clear Hs as [|? ? Hl Hx]. rewrite !filter_cons. apply elem_of_cons in Hin as [->|Hin].
  - rewrite decide_False, decide_True by lia. cbn [length].
    assert (∀ P (HP : ∀ y, Decision (P y)), (∀ y, P y → address s y ≤ address s x) → filter P l = []) as Hf.
    { intros P HP Himp. clear -Hx Himp. induction Hx as [|y l Hy _ IH]; [done|]. rewrite filter_cons, decide_False; [done|]. intros Hyp%Himp. lia. }
    rewrite !Hf by (cbn; lia). done.
  - rewrite Forall_forall in Hx. specialize (Hx w Hin). rewrite !decide_True by lia. cbn [length].
    destruct (IH Hl Hin) as [H1 H2]. rewrite H2. by split.
Qed.
End sorted.

(** ** The invariant *)

Definition pending (s : pool) : list nat := BlockingQueue.queue_ (stoppedThreads_ s) ++ erasing (ctl s).

Record sinv (s : pool) : Prop := {
  s_thr : ∀ w, w ∈ threads_ s → ∃ th, workers s !! w = Some th ∧ pc th ≠ WNew;
  s_live : ∀ w th, workers s !! w = Some th → alive (pc th) || dying (pc th) = true → w ∈ threads_ s;
  s_pend : ∀ w, w ∈ pending s → returned s w = true ∧ w ∈ threads_ s;
  s_pend_nodup : NoDup (pending s);
  s_nodup : NoDup (map (address s) (threads_ s));
  s_sorted : match ctl s with CSpawn _ _ _ | CSort _ _ => True
             | _ => StronglySorted (fun x y => address s x < address s y) (threads_ s) end;
  s_spawn : spawn_ok s;
  s_spawn_nodup : match ctl s with CSpawn todo _ _ => NoDup (map (address s) (todo ++ threads_ s)) | _ => True end;
  s_news : match ctl s with
           | CSpawn todo news _ => ∀ w, w ∈ news → w ∈ todo ∨ w ∈ threads_ s
           | CSort news _ | CStart news _ _ => ∀ w, w ∈ news → w ∈ threads_ s
           | _ => True
           end;
  s_init : ∀ w th, workers s !! w = Some th → startup th = true ∨ pc th = WNew ∨ pc th = WInit
}.

Lemma address_insert s s' i th th' : workers s !! i = Some th → workers s' = <[i := th']> (workers s) → addr th' = addr th →
  ∀ w, address s' w = address s w.
Proof.
  intros Hi Hw Ha w. unfold address. rewrite Hw. destruct (decide (w = i)) as [->|].
  - rewrite list_lookup_insert_eq by by eapply lookup_lt_Some. rewrite Hi. done.
  - by rewrite list_lookup_insert_ne.
Qed.

Lemma sorted_ext (s s' : pool) l : (∀ w, address s' w = address s w) →
  StronglySorted (fun x y => address s x < address s y) l → StronglySorted (fun x y => address s' x < address s' y) l.
Proof. intros Ha. induction 1; constructor; [done|]. eapply Forall_impl; [done|]. cbn. intros. by rewrite !Ha. Qed.

(** A step of a thread of the pool. *)
Lemma sinv_frame s s' i th th' : sinv s → workers s !! i = Some th → workers s' = <[i := th']> (workers s) →
  threads_ s' = threads_ s → ctl s' = ctl s → addr th' = addr th → pc th ≠ WNew → pc th ≠ WDone → pc th' ≠ WNew →
  (startup th' = true ∨ pc th' = WInit) →
  stoppedThreads_ s' = stoppedThreads_ s ∨
  BlockingQueue.queue_ (stoppedThreads_ s') = BlockingQueue.queue_ (stoppedThreads_ s) ++ [i] ∧ pc th' = WDone →
  sinv s'.
Proof.
  intros [S1 S2 S3 S4 S5 S6 S7 S8 S9 S10] Hi Hw Ht Hc Ha N1 N2 N3 Hst Hq.
  pose proof (address_insert _ _ _ _ _ Hi Hw Ha) as Hadd.
  assert (∀ l, map (address s') l = map (address s) l) as Hmap by (intros; by apply map_ext).
  pose proof (lookup_lt_Some _ _ _ Hi) as Hlt.
  assert (i ∉ pending s) as Hni.
  { intros [Hr _]%S3. unfold returned in Hr. rewrite Hi in Hr. cbn in Hr. by destruct (pc th). }
  assert (∀ w, w ∈ pending s → returned s' w = true ∧ w ∈ threads_ s) as Hpend.
  { intros w Hin. destruct (S3 w Hin) as [Hr ?]. split; [|done]. unfold returned in *.
    rewrite Hw, list_lookup_insert_ne by naive_solver. done. }
  assert (i ∈ threads_ s) as Hit by (apply (S2 i th Hi); by destruct (pc th)).
  split; rewrite ?Ht, ?Hc, ?Hmap; try done.
  - intros w Hin. destruct (decide (w = i)) as [->|]; rewrite Hw; [rewrite list_lookup_insert_eq by done; eauto|].
    rewrite list_lookup_insert_ne by done. by apply S1.
  - intros w t. rewrite Hw. destruct (decide (w = i)) as [->|]; [done|]. rewrite list_lookup_insert_ne by done. apply S2.
  - unfold pending. rewrite Hc. destruct Hq as [->|[-> Hd]]; [done|]. intros w. rewrite !elem_of_app, list_elem_of_singleton.
    intros [[?| ->]|?]; [apply Hpend; unfold pending; set_solver| |apply Hpend; unfold pending; set_solver].
    split; [|done]. unfold returned. rewrite Hw, list_lookup_insert_eq by done. cbn. by rewrite Hd.
  - unfold pending. rewrite Hc. destruct Hq as [->|[-> Hd]]; [done|].
    rewrite <- app_assoc, (Permutation_app_comm [i]), app_assoc. apply NoDup_app. split_and!; [done| |apply NoDup_singleton].
    intros x Hx ->%list_elem_of_singleton. done.
  - destruct (ctl s); try done; eapply sorted_ext; eauto.
  - unfold spawn_ok in *. rewrite Hc. destruct (ctl s); try done. destruct S7 as [? S7]. split; [done|]. intros w Hin.
    rewrite Hw. destruct (decide (w = i)) as [->|]; [|rewrite list_lookup_insert_ne by done; by apply S7].
    specialize (S7 i Hin). rewrite Hi in S7. cbn in S7. congruence.
  - destruct (ctl s); try done. by rewrite Hmap.
  - intros w t. rewrite Hw. destruct (decide (w = i)) as [->|]; [rewrite list_lookup_insert_eq by done; intros [= <-]; tauto|].
    rewrite list_lookup_insert_ne by done. apply S10.
Qed.

Lemma work_sinv i now s s' : work i now s = Some (Ret s') → sinv s → sinv s'.
Proof.
  intros Hw Hs. unfold work in Hw. destruct (workers s !! i) as [th|] eqn:Hi; [|done]. cbn in Hw.
  pose proof (s_init _ Hs _ _ Hi) as Hin.
  assert (∀ c, pc th ≠ WNew → pc th ≠ WInit → startup (mk_thread (addr th) c (idle th) (startup th)) = true ∨ pc (mk_thread (addr th) c (idle th) (startup th)) = WInit) as Hst by naive_solver.
  destruct (pc th) eqn:Hc; try done.
  all: inv_exec Hw.
  all: try (eapply (sinv_frame _ _ i th); [done|done|reflexivity|done|done|done|by rewrite Hc|by rewrite Hc|try done|try (by (left + right + apply Hst)); naive_solver|try (by left)]).
  all: try (by repeat case_match).
  right. unfold BlockingQueue.add in *. inv_ret. done.
Qed.

(** A step of the controlling thread that changes neither threads nor their list. *)
Definition plain (c : cpc) : bool := match c with CSpawn _ _ _ | CSort _ _ | CStart _ _ _ => false | _ => true end.
Lemma sinv_ctl s s' : sinv s → workers s' = workers s → threads_ s' = threads_ s → pending s' ≡ₚ pending s →
  match ctl s with CSpawn _ _ _ | CSort _ _ => False | _ => True end → plain (ctl s') = true → sinv s'.
Proof.
  intros [S1 S2 S3 S4 S5 S6 S7 S8 S9 S10] Hw Ht Hq Hc Hp.
  assert (∀ w, address s' w = address s w) as Ha by (intros; unfold address; by rewrite Hw).
  assert (∀ w, returned s' w = returned s w) as Hr by (intros; unfold returned; by rewrite Hw).
  split; rewrite ?Hw, ?Ht, ?Hq; try done.
  - intros w. rewrite Hq, Hr. apply S3.
  - erewrite map_ext; [exact S5|done].
  - assert (StronglySorted (fun x y => address s x < address s y) (threads_ s)) as Hs by by destruct (ctl s).
    destruct (ctl s'); try done; by eapply sorted_ext.
  - unfold spawn_ok. by destruct (ctl s').
  - by destruct (ctl s').
  - by destruct (ctl s').
Qed.

Lemma lookup_new s addrs w th : (workers s ++ map (fun a => mk_thread a WNew true false) addrs) !! w = Some th →
  workers s !! w = Some th ∨ (length (workers s) ≤ w)%nat ∧ pc th = WNew.
Proof.
  rewrite lookup_app_Some. intros [?|[Hle Hw]]; [by left|right]. split; [done|].
  rewrite list_lookup_fmap in Hw. destruct (addrs !! _); [|done]. by injection Hw as <-.
Qed.

(** addThreads: the new thread objects. *)
Lemma make_sinv s addrs n g : sinv s → ctl s = CAdd n g → length addrs = n → NoDup addrs →
  Forall (fun a => a ∉ map (address s) (threads_ s)) addrs →
  sinv (set_ctl (CSpawn (seq (length (workers s)) n) (seq (length (workers s)) n) g)
         (set_workers (workers s ++ map (fun a => mk_thread a WNew true false) addrs) s)).
Proof.
  intros Hs Hc Hl Hnd Hfresh. set (s' := set_ctl _ _).
  assert (∀ w, (w < length (workers s))%nat → workers s' !! w = workers s !! w) as Hold by (intros; by apply lookup_app_l).
  assert (∀ w, w ∈ threads_ s → (w < length (workers s))%nat) as Hthr.
  { intros w (th & Hw & _)%(s_thr _ Hs). by eapply lookup_lt_Some. }
  assert (map (address s') (threads_ s) = map (address s) (threads_ s)) as Hmap.
  { apply map_ext_in. intros w Hin%list_elem_of_In. unfold address. by rewrite Hold by by apply Hthr. }
  assert (map (address s') (seq (length (workers s)) n) = addrs) as Hnew.
  { apply list_eq. intros i. rewrite list_lookup_fmap. destruct (decide (i < n)%nat) as [Hi|Hi].
    - rewrite lookup_seq_lt by done. cbn [fmap option_fmap option_map]. unfold address. cbn [s' set_ctl set_workers workers].
      rewrite lookup_app_r by lia. rewrite list_lookup_fmap. replace (length (workers s) + i - length (workers s))%nat with i by lia.
      destruct (addrs !! i) eqn:E; [done|]. apply lookup_ge_None in E. lia.
    - rewrite lookup_seq_ge by lia. symmetry. apply lookup_ge_None. lia. }
  assert (erasing (ctl s) = [] ∧ erasing (ctl s') = []) as [He He'] by by rewrite Hc.
  split; try done; cbn [threads_ set_ctl set_workers s'].
  - intros w Hin. destruct (s_thr _ Hs w Hin) as (th & Hw & ?). exists th. split; [|done]. change (workers s' !! w = Some th). by rewrite Hold by by apply Hthr.
  - intros w th [Hw|[_ ->]]%lookup_new; [by apply (s_live _ Hs)|done].
  - unfold pending. rewrite He'. intros w Hin. destruct (s_pend _ Hs w) as [Hr ?]; [by unfold pending; rewrite He|]. split; [|done].
    unfold returned in *. by rewrite Hold by by apply Hthr.
  - pose proof (s_pend_nodup _ Hs) as Hp. unfold pending in *. by rewrite He in Hp.
  - rewrite Hmap. apply (s_nodup _ Hs).
  - unfold spawn_ok. cbn. split; [apply NoDup_seq|]. intros w [H1 H2]%elem_of_seq.
    rewrite lookup_app_r by lia. rewrite list_lookup_fmap.
    destruct (addrs !! _) eqn:E; [done|]. apply lookup_ge_None in E. lia.
  - change (NoDup (map (address s') (seq (length (workers s)) n ++ threads_ s))). rewrite map_app, Hnew, Hmap. apply NoDup_app. split_and!; [done| |apply (s_nodup _ Hs)].
    intros a Ha. rewrite Forall_forall in Hfresh. by apply Hfresh.
  - cbn. auto.
  - intros w th [Hw|[_ ->]]%lookup_new; [by apply (s_init _ Hs w)|tauto].
Qed.

(** addThreads: createThread and push_back. *)
Lemma spawn_sinv s w todo news g th : sinv s → ctl s = CSpawn (w :: todo) news g → workers s !! w = Some th →
  sinv (set_ctl (CSpawn todo news g) (set_threads (threads_ s ++ [w]) (set_pc w th WInit s))).
Proof.
  intros [S1 S2 S3 S4 S5 S6 S7 S8 S9 S10] Hc Hw. unfold spawn_ok, pending in *. rewrite Hc in *. destruct S7 as [Hnd Hnew].
  set (s' := set_ctl _ _).
  assert (workers s' = <[w := mk_thread (addr th) WInit (idle th) (startup th)]> (workers s)) as Hws by done.
  pose proof (address_insert _ _ _ _ _ Hw Hws eq_refl) as Ha.
  assert (∀ l, map (address s') l = map (address s) l) as Hmap by (intros; by apply map_ext).
  assert (NoDup (map (address s) (todo ++ threads_ s ++ [w]))) as Hperm.
  { assert (todo ++ threads_ s ++ [w] ≡ₚ (w :: todo) ++ threads_ s) as -> by (rewrite app_assoc, <- Permutation_cons_append; done). done. }
  apply NoDup_cons in Hnd as [Hnw Hnd].
  assert (∀ x, x ≠ w → workers s' !! x = workers s !! x) as Hne by (intros; by apply list_lookup_insert_ne).
  assert (workers s' !! w = Some (mk_thread (addr th) WInit (idle th) (startup th))) as Heq
    by (apply list_lookup_insert_eq; by eapply lookup_lt_Some).
  specialize (Hnew w ltac:(by left)) as Hpc. rewrite Hw in Hpc. injection Hpc as Hpc.
  split; cbn [threads_ s' set_ctl set_threads ctl]; fold s'; try done.
  - intros x. rewrite elem_of_app, list_elem_of_singleton. intros Hx. destruct (decide (x = w)) as [->|]; [eauto|].
    destruct Hx as [Hx|]; [|done]. rewrite Hne by done. by apply S1.
  - intros x t Hx Hl. rewrite elem_of_app, list_elem_of_singleton. destruct (decide (x = w)) as [->|]; [by right|left].
    rewrite Hne in Hx by done. by eapply S2.
  - intros x Hx. destruct (S3 x Hx) as [Hr ?]. split; [|set_solver]. unfold returned in *.
    rewrite Hne; [done|]. intros ->. rewrite Hw in Hr. cbn in Hr. by rewrite Hpc in Hr.
  - rewrite Hmap. rewrite map_app in Hperm. by apply NoDup_app in Hperm as (_ & _ & ?).
  - unfold spawn_ok. cbn. split; [done|]. intros x Hx. fold s'. change (pc <$> workers s' !! x = Some WNew). rewrite Hne by (by intros ->). apply Hnew. by right.
  - by rewrite Hmap.
  - intros x Hx. destruct (S9 x Hx) as [[->|?]%elem_of_cons|?]; set_solver.
  - intros x t Hx. destruct (decide (x = w)) as [->|]; [rewrite Heq in Hx; injection Hx as <-; tauto|]. rewrite Hne in Hx by done. by eapply S10.
Qed.

(** removeThreads: a stopped thread leaves the list. *)
Lemma erase_lookup s w k g : sinv s → ctl s = CErase w k g →
  threads_ s !! lower_bound s (threads_ s) w = Some w ∧ upper_bound s (threads_ s) w = S (lower_bound s (threads_ s) w) ∧ returned s w = true.
Proof.
  intros Hs Hc. destruct (s_pend _ Hs w) as [Hr Hin]; [unfold pending; rewrite Hc; cbn; set_solver|].
  pose proof (s_sorted _ Hs) as Hso. rewrite Hc in Hso. destruct (equal_range_sorted s _ w Hso Hin). by split_and!.
Qed.

Lemma erase_sinv s w k g : sinv s → ctl s = CErase w k g →
  sinv (set_ctl (CTake k g) (set_threads (delete (lower_bound s (threads_ s) w) (threads_ s)) s)).
Proof.
  intros Hs Hc. destruct (erase_lookup _ _ _ _ Hs Hc) as (Hlo & _ & Hret). destruct Hs as [S1 S2 S3 S4 S5 S6 S7 S8 S9 S10].
  unfold pending in *. rewrite Hc in *. cbn [erasing] in *.
  set (lo := lower_bound _ _ _) in *. set (s' := set_ctl _ _).
  assert (threads_ s ≡ₚ w :: delete lo (threads_ s)) as Hp by by apply delete_Permutation.
  assert (NoDup (map (address s) (w :: delete lo (threads_ s)))) as Hnd by by rewrite <- Hp.
  cbn [map] in Hnd. apply NoDup_cons in Hnd as [Hnw Hnd].
  apply NoDup_app in S4 as (Hq & Hqw & _).
  split; cbn [threads_ s' set_ctl set_threads ctl workers]; try done.
  - intros x Hx. apply S1. rewrite Hp. by right.
  - intros x th Hx Hl. specialize (S2 x th Hx Hl). rewrite Hp in S2. apply elem_of_cons in S2 as [->|?]; [|done].
    unfold returned in Hret. rewrite Hx in Hret. cbn in Hret. by destruct (pc th).
  - intros x Hx. unfold pending in Hx. cbn [ctl s' set_ctl erasing stoppedThreads_ set_threads] in Hx. rewrite app_nil_r in Hx. destruct (S3 x) as [Hr Hin]; [set_solver|]. split; [done|].
    rewrite Hp in Hin. apply elem_of_cons in Hin as [->|?]; [|done]. exfalso. apply (Hqw w Hx). by left.
  - unfold pending. cbn [ctl s' set_ctl erasing stoppedThreads_ set_threads]. by rewrite app_nil_r.
  - rewrite delete_take_drop. rewrite <- (take_drop_middle _ _ _ Hlo) in S6. fold lo in S6. clear -S6. revert S6.
    generalize (take lo (threads_ s)) as a, (drop (S lo) (threads_ s)) as b. intros a b. induction a as [|x a IH]; cbn.
    + by inversion_clear 1.
    + intros H. inversion_clear H as [|? ? Hs Hx]. constructor; [by apply IH|]. rewrite Forall_app in *. cbn in Hx. destruct Hx as [? Hx].
      split; [done|by inversion_clear Hx].
Qed.

Lemma control_sinv now addrs s s' : control now addrs s = Some (Ret s') → sinv s → sinv s'.
Proof.
  intros Hw Hs. unfold control in Hw. destruct (ctl s) as [|n g|[|w todo] news g|news g|[|w todo] news g|n j g|n j g|n g|n g|[|k] n g|[|k] g|k g|w k g|g|g] eqn:Hc.
  1: { destruct (ops s) as [|o os] eqn:Ho; [done|]. injection Hw as <-. apply (sinv_ctl s); rewrite ?Hc; try done;
       unfold begin, pending; destruct o; cbn; rewrite ?Hc; repeat case_match; done. }
  1: { case_decide as Ha; [|done]. destruct Ha as (? & ? & ?). injection Hw as <-. by apply make_sinv. }
  all: inv_exec Hw.
  all: try (apply (sinv_ctl s); unfold pending; rewrite ?Hc; cbn; rewrite ?Hc; done).
  - destruct Hs as [S1 S2 S3 S4 S5 S6 S7 S8 S9 S10]. unfold pending in *. rewrite Hc in *.
    split; try done. cbn. intros w Hin. destruct (S9 w Hin) as [H|?]; [by apply elem_of_nil in H|done].
  - by eapply spawn_sinv.
  - destruct Hs as [S1 S2 S3 S4 S5 S6 S7 S8 S9 S10]. unfold pending in *. rewrite Hc in *.
    assert (∀ w, w ∈ sort s (threads_ s) ↔ w ∈ threads_ s) as Hin by (intros; by rewrite sort_perm).
    split; cbn; try done; try (setoid_rewrite Hin; done).
    + change (NoDup (map (address s) (sort s (threads_ s)))). by rewrite sort_perm.
    + by apply (sort_sorted s).
  - destruct Hs as [S1 S2 S3 S4 S5 S6 S7 S8 S9 S10]. unfold pending in *. rewrite Hc in *.
    split; try done. cbn. intros x Hx. apply S9. by right.
  - unfold enqueue in *. inv_ret. apply (sinv_ctl s); unfold pending; rewrite ?Hc; done.
  - unfold BlockingQueue.take in *. case_match eqn:Hq; [done|]. simplify_eq. apply (sinv_ctl s); unfold pending; rewrite ?Hc, ?Hq; try done.
    cbn. rewrite app_nil_r. by rewrite <- Permutation_cons_append.
  - unfold BlockingQueue.wait in *. case_match; [|done]. simplify_eq. apply (sinv_ctl s); unfold pending; rewrite ?Hc; done.
  - by apply erase_sinv with (g := g).
Qed.

Lemma enqueue_sinv t s s' : enqueue t s = Ret s' → sinv s → sinv s'.
Proof.
  unfold enqueue. intros Hw [S1 S2 S3 S4 S5 S6 S7 S8 S9 S10]. inv_ret. by split.
Qed.

Lemma pool_init_inv n os : stop_last os → inv (init n os) ∧ sinv (init n os).
Proof.
  intros Ho. split; split; cbn; try done; try (by intros ? ?%elem_of_nil); try constructor. 
  all: try done.
Qed.

Lemma pool_step_inv s s' : step s s' → inv s ∧ sinv s → inv s' ∧ sinv s'.
Proof.
  intros [l ? ? He] [Hi Hs]. destruct l as [i now|now addrs|now f e cb]; cbn in He.
  - split; [by eapply work_inv|by eapply work_sinv].
  - split; [by eapply control_inv; [apply s_spawn|..]|by eapply control_sinv].
  - injection He as He. split; [by eapply enqueue_inv; [|exact He|]|by eapply enqueue_sinv].
Qed.

Lemma pool_reachable_inv n os s : stop_last os → reachable n os s → inv s ∧ sinv s.
Proof.
  intros Ho Hr. unfold reachable in Hr. revert Hr. generalize (pool_init_inv n os Ho). generalize (init n os) as s0.
  intros s0 H0 Hr. induction Hr as [|s1 s2 s3 H12 _ IH]; [done|]. apply IH. by eapply pool_step_inv.
Qed.

(** ** Runs *)

(** The state after a sequence of accesses. *)
Fixpoint run (ls : list label) (s : pool) : option pool :=
  match ls with
  | [] => Some s
  | l :: r => match exec l s with Some (Ret s') => run r s' | _ => None end
  end.

Lemma run_steps ls s s' : run ls s = Some s' → rtc step s s'.
Proof.
  revert s. induction ls as [|l ls IH]; intros s; cbn; [by intros [= <-]|].
  destruct (exec l s) as [[s1|]|] eqn:He; try done. intros H. eapply rtc_l; [by eapply step_exec|by apply IH].
Qed.

(** Accesses of the thread [i], and of the controlling thread. *)
Definition works (i n : nat) : list label := replicate n (LWork i 0).
Definition controls (n : nat) : list label := replicate n (LControl 0 []).
(** The constructor of a pool of one thread, run to its end. *)
Definition built (a : Z) : list label := LControl 0 [a] :: controls 3 ++ works 0 1 ++ controls 3.

(** A pool of one thread to which a task is added; join() begins, and returns. *)
Definition demo_added : list label := built 7 ++ [LAdd 0 1 0 None] ++ controls 1.
Definition demo_joined : list label := works 0 4 ++ controls 5 ++ works 0 4 ++ controls 6.
End PoolSafe.
