(* ===== verification/PoolSpec.v ===== *)
(** The thread pool: what it promises. No check fails, tasks are dealt with once and in the order they
    were added, join() waits for all of them, every run comes to rest; and what a
    stopped pool, or a busy one, does not promise. *)
From S2P Require Import Prelude Threads Pool PoolProof PoolSafe.

Module PoolSpec.
Import Pool PoolProof PoolSafe.

(** ** Safety *)

Lemma work_safe i now s e : inv s → sinv s → Z.of_nat (length (workers s)) < BlockingQueue.SEM_VALUE_MAX →
  work i now s ≠ Some (Err e).
Proof.
  intros [I1 I2 I3 I4 I5 I6 I7 I8 I9 I10] Hs Hn. unfold work. destruct (workers s !! i) as [th|] eqn:Hi; [|done]. cbn.
  pose proof (fun f => cnt_pos f s i th Hi) as Hpos.
  pose proof (cnt_nonneg alive s). pose proof (cnt_nonneg dying s).
  pose proof (count_nonneg poison (BlockingQueue.queue_ (taskQueue_ s))) as Hcp.
  destruct (pc th) eqn:Hc; try done.
  - unfold BlockingQueue.wait. by destruct (_ <? _).
  - destruct (poison t) eqn:Hp; [|by destruct (task_start now t)].
    pose proof (Hpos poisoned Hp) as Pp. pose proof (Hpos alive eq_refl) as Pa.
    destruct (Z.ltb_spec 0 (threadsToStop_ s)) as [|Hle]; [done|]. exfalso. clear I7 I10.
    destruct (decide (isJoin_ s = Some false)); [destruct I8 as (S1 & S2 & S3 & S4 & S5)|destruct I8 as (J1 & J2 & J3 & J4 & J5)];
      unfold poisons in *; destruct (unset (ctl s)); try lia. assert (0 ≤ left (ctl s)) by (destruct (ctl s); cbn; lia). lia.
  - specialize (Hpos testing eq_refl). destruct (isJoin_ s) as [j|] eqn:Hj; [done|].
    rewrite decide_False in I8 by done. destruct I8 as (_ & _ & _ & _ & J5). specialize (J5 Hj). lia.
  - unfold BlockingQueue.add, BlockingQueue.post. pose proof (dying_alive s).
    destruct (Z.ltb_spec (BlockingQueue.sem_ (stoppedThreads_ s)) BlockingQueue.SEM_VALUE_MAX); [done|]. lia.
Qed.

Lemma enqueue_safe t s e : inv s → Z.of_nat (length (added s)) < BlockingQueue.SEM_VALUE_MAX → enqueue t s ≠ Err e.
Proof.
  intros Hi Hn. pose proof (i_sem _ Hi). unfold enqueue, BlockingQueue.add, BlockingQueue.post.
  destruct (Z.ltb_spec (BlockingQueue.sem_ (taskQueue_ s)) BlockingQueue.SEM_VALUE_MAX); [done|lia].
Qed.

Lemma control_safe now addrs s e : inv s → sinv s → Z.of_nat (length (added s)) < BlockingQueue.SEM_VALUE_MAX →
  control now addrs s ≠ Some (Err e).
Proof.
  intros Hi Hs Hn. pose proof Hi as [_ _ _ _ _ _ I7 I8 _ _]. unfold goal_ok, nthreads, control in *.
  pose proof (cnt_nonneg alive s). pose proof (cnt_nonneg dying s). pose proof (cnt_nonneg poisoned s).
  pose proof (count_nonneg poison (BlockingQueue.queue_ (taskQueue_ s))). assert (0 ≤ nstopped s) by (unfold nstopped, BlockingQueue.size; lia).
  assert (match ctl s with CRemove _ _ _ | CStop _ _ | CEmpty _ => nstopped s = 0 | _ => True end) as Hz.
  { destruct (decide _); [destruct I8 as (_ & S2 & S3 & S4 & S5)|destruct I8 as (J1 & J2 & _)]; unfold poisons in *;
      destruct (ctl s); cbn in *; try done; lia. }
  destruct (ctl s) as [|n g|[|w todo] news g|news g|[|w todo] news g|n j g|n j g|n g|n g|[|k] n g|[|k] g|k g|w k g|g|g] eqn:Hc; try done.
  all: try (unfold nstopped in Hz; rewrite Hz; done).
  - destruct (ops s); discriminate.
  - clear I8. by case_decide.
  - by destruct (workers s !! w).
  - by destruct (started s w).
  - destruct (enqueue (poison_task now) s) as [s'|e'] eqn:He; [done|]. by apply enqueue_safe in He.
  - unfold BlockingQueue.wait. by destruct (_ <? _).
  - destruct (erase_lookup _ _ _ _ Hs Hc) as (Hlo & Hup & ->). rewrite Hup, Nat.eqb_refl.
    apply lookup_lt_Some in Hlo. apply Nat.ltb_lt in Hlo. by rewrite Hlo.
  - rewrite I7, Z.eqb_refl. done.
Qed.

(** C9. Safety of the thread pool: whatever the controlling thread calls after the constructor
    (growing, shrinking, joining, observers, with stop() as the last of it if at all), whatever
    tasks are added by any thread at any time, and however the threads interleave, no check
    of the pool fails, no thread reads isJoin_ before it is set, and no add fails while the tasks
    and threads ever made are fewer than SEM_VALUE_MAX. *)
Theorem pool_safe n os s l e : stop_last os → reachable n os s →
  Z.of_nat (length (added s)) < BlockingQueue.SEM_VALUE_MAX → Z.of_nat (length (workers s)) < BlockingQueue.SEM_VALUE_MAX →
  exec l s ≠ Some (Err e).
Proof.
  intros Ho Hr Ha Hw. destruct (pool_reachable_inv _ _ _ Ho Hr) as [Hi Hs]. destruct l as [i now|now addrs|now f ex cb]; cbn.
  - by apply work_safe.
  - by apply control_safe.
  - intros [= He]. by apply enqueue_safe in He.
Qed.

Lemma stop_last_join : stop_last [Join].
Proof. intros [|i] H; [discriminate|]. destruct i; discriminate. Qed.

Lemma pool_safe_witness : ∃ s, reachable 1 [Join] s ∧ exec (LWork 0 0) s ≠ Some (Err AssertFailed).
Proof.
  destruct (run demo_added (init 1 [Join])) as [s|] eqn:E; [|vm_compute in E; discriminate].
  exists s. assert (reachable 1 [Join] s) as Hr by by eapply run_steps. split; [exact Hr|].
  apply (pool_safe 1 [Join]); [exact stop_last_join|exact Hr|vm_compute in E; injection E as <-; reflexivity..].
Defined.

(** ** Tasks are dealt with once *)

(** What was done with tasks, in order. *)
Definition begun (es : list event) : list event :=
  omap (fun e => match e with Called _ _ | Expired _ _ _ => Some e | _ => None end) es.
(** What has to be done with a task that a thread begins with at a time: its function is called, unless
    it has an expiration time and has waited for so long; then its expiration callback is, if
    it has one. *)
Definition overdue (t : CPUTask) (now : Z) : Prop := 0 < expiration_ t ∧ expiration_ t ≤ u64 (now - enqueueTime_ t).
Definition treated (t : CPUTask) (e : event) : Prop :=
  match e with
  | Called f now => f = func_ t ∧ ¬ overdue t now
  | Expired f cb now => f = func_ t ∧ cb = expireCallback_ t ∧ overdue t now
  | _ => False
  end.
(** The task a thread has taken and not begun. *)
Definition held (th : Thread) : option CPUTask :=
  match pc th with WGot t => if poison t then None else Some t | _ => None end.
Definition jobs (ts : list CPUTask) : list CPUTask := filter (fun t => poison t = false) ts.

Lemma task_start_treated now t : ∃ e, (task_start now t).2 = [e] ∧ begun [e] = [e] ∧ treated t e.
Proof.
  unfold task_start, overdue, treated. destruct (Z.ltb_spec 0 (expiration_ t)); destruct (Z.leb_spec (expiration_ t) (u64 (now - enqueueTime_ t))); cbn;
    eexists; (split; [reflexivity|]); split; try done; unfold overdue; lia || (split_and!; try done; lia).
Qed.

Lemma omap_insert {A B} (f : A → option B) (l : list A) i x y : l !! i = Some x →
  ∃ r, omap f l ≡ₚ option_list (f x) ++ r ∧ omap f (<[i := y]> l) ≡ₚ option_list (f y) ++ r.
Proof.
  intros Hi. exists (omap f (take i l) ++ omap f (drop (S i) l)).
  pose proof (take_drop_middle _ _ _ Hi) as E. pose proof (lookup_lt_Some _ _ _ Hi).
  rewrite insert_take_drop by done. rewrite <- E at 1. rewrite !omap_app. cbn.
  split; [destruct (f x)|destruct (f y)]; cbn; by rewrite <- ?Permutation_middle.
Qed.

Definition once (s : pool) : Prop :=
  ∃ ts, jobs (taken s) ≡ₚ ts ++ omap held (workers s) ∧ Forall2 treated ts (begun (log s)).

Lemma jobs_app a b : jobs (a ++ b) = jobs a ++ jobs b.
Proof. apply list.filter_app. Qed.
Lemma begun_app a b : begun (a ++ b) = begun a ++ begun b.
Proof. apply omap_app. Qed.
Lemma begun_nil l : (∀ e, e ∈ l → begun [e] = []) → begun l = [].
Proof.
  induction l as [|x l IH]; intros H; [done|]. change (begun ([x] ++ l) = []). rewrite begun_app, H, IH; [done| |by left].
  intros e He. apply H. by right.
Qed.
Lemma begun_observed {A} (f : A → event) (l : list A) : (∀ x, begun [f x] = []) → begun (map f l) = [].
Proof. intros H. apply begun_nil. intros e (x & -> & _)%list_elem_of_fmap. apply H. Qed.

Lemma once_work i now s s' : work i now s = Some (Ret s') → once s → once s'.
Proof.
  unfold once, work. intros He Ho. destruct (workers s !! i) as [th|] eqn:Hi; [|done]. cbn in He.
  pose proof (fun th' => omap_insert held (workers s) i th th' Hi) as Hins. unfold held at 2 in Hins.
  destruct (pc th) eqn:Hc; try done.
  all: inv_exec He.
  all: unfold set_pc, dequeue, tell, set_workers, set_toStop, set_queue, set_stopped; cbn [workers taken log].
  all: rewrite ?begun_app, ?jobs_app, ?begun_observed, ?app_nil_r by done.
  all: match goal with |- context [<[?j := ?th']> _] => destruct (Hins th') as (rest & E1 & E2) end.
  all: destruct Ho as (ts & Ho & Hf).
  all: try (exists ts; split; [|done]; rewrite E2; unfold held; cbn [pc]; rewrite Ho, E1; try done; case_match; done).
  - exists ts. split; [|done]. rewrite E2, Ho, E1. unfold held. cbn [pc]. unfold jobs. rewrite filter_cons, filter_nil.
    destruct (poison c); cbn; [by rewrite app_nil_r|]. rewrite <- app_assoc. apply Permutation_app_head. cbn. by rewrite Permutation_app_comm.
  - destruct (task_start_treated now t) as (e & Ee & Eb & Ht). destruct (task_start now t) as [st es]. simplify_eq. cbn in Ee. subst.
    exists (ts ++ [t]). rewrite E2. unfold held. cbn [pc]. split; [rewrite Ho, E1; cbn; by rewrite <- app_assoc|].
    rewrite Eb. apply Forall2_app; [done|]. by constructor.
Qed.

Lemma held_new (addrs : list Z) : omap held (map (fun a => mk_thread a WNew true false) addrs) = [].
Proof. by induction addrs. Qed.

Lemma once_control now addrs s s' : sinv s → control now addrs s = Some (Ret s') → once s → once s'.
Proof.
  unfold once, control. intros Hs He Ho. destruct (ctl s) as [|n g|[|w todo] news g|news g|[|w todo] news g|n j g|n j g|n g|n g|[|k] n g|[|k] g|k g|w k g|g|g] eqn:Hc.
  all: inv_exec He; try done.
  - destruct (ops s) as [|o os]; [done|]. injection He as <-. unfold begin.
    destruct o; repeat case_match; cbn [taken log workers set_ctl set_ops tell set_observers]; rewrite ?begun_app, ?begun_observed, ?app_nil_r by done; done.
  - destruct Ho as (ts & Ho & Hf). exists ts. split; [|done]. cbn [taken log workers set_ctl set_workers]. rewrite omap_app, Ho. apply Permutation_app_head.
    by rewrite held_new, app_nil_r.
  - rename x into th. destruct (omap_insert held (workers s) w th (mk_thread (addr th) WInit (idle th) (startup th)) ltac:(done)) as (r & E1 & E2).
    destruct Ho as (ts & Ho & Hf). exists ts. split; [|done]. cbn [taken log workers set_ctl set_threads set_pc set_workers]. rewrite E2, Ho, E1. apply Permutation_app_head.
    pose proof (s_spawn _ Hs) as Hsp. unfold spawn_ok in Hsp. rewrite Hc in Hsp. destruct Hsp as [_ Hnew].
    specialize (Hnew w ltac:(by left)). assert (pc th = WNew) as Hp by (destruct (workers s !! w); cbn in *; congruence).
    unfold held at 1. by rewrite Hp.
  - cbn [taken log workers set_ctl tell]. rewrite begun_app. rewrite (begun_nil (_ ≫= _)); [by rewrite app_nil_r|].
    intros e (o & (x & -> & _)%list_elem_of_fmap & _)%list_elem_of_bind. done.
  - unfold enqueue in *. inv_ret. done.
Qed.

Lemma once_step s s' : step s s' → sinv s ∧ once s → sinv s' ∧ once s'.
Proof.
  intros [l s0 s1 He] [Hs Ho]. destruct l as [i now|now addrs|now f ex cb]; cbn in He.
  - split; [by eapply work_sinv|by eapply once_work].
  - split; [by eapply control_sinv|by eapply once_control].
  - injection He as He. split; [by eapply enqueue_sinv|]. unfold add, enqueue in He. inv_ret. done.
Qed.

Lemma reachable_once n os s : reachable n os s → once s.
Proof.
  intros Hr. assert (sinv s ∧ once s) as [_ ?]; [|done]. unfold reachable in Hr. revert Hr.
  assert (sinv (init n os) ∧ once (init n os)) as H0.
  { split; [|exists []; split; [done|constructor]]. split; cbn; try done; try (by intros ? ?%elem_of_nil); try constructor. }
  revert H0. generalize (init n os) as s0. intros s0 H0 Hr. induction Hr as [|s1 s2 s3 H12 _ IH]; [done|]. apply IH. by eapply once_step.
Qed.

(** C11. Tasks are taken in the order they were added and dealt with once: in every state of every
    execution the tasks taken from the queue, followed by those in it, are the tasks added, in that
    order; and the calls that were made belong, one by one, to the tasks taken except those that a
    thread has just taken - none lost, none twice. The call for a task is that of its
    function, unless the task has an expiration time and has waited for so long when a thread
    begins with it; then, and only then, it is that of its expiration callback, which is no call if there is none. *)
Theorem pool_exactly_once n os s : stop_last os → reachable n os s →
  added s = taken s ++ BlockingQueue.queue_ (taskQueue_ s) ∧
  ∃ ts, jobs (taken s) ≡ₚ ts ++ omap held (workers s) ∧ Forall2 treated ts (begun (log s)).
Proof.
  intros Ho Hr. split; [|by eapply reachable_once]. by apply (i_fifo _ (proj1 (pool_reachable_inv _ _ _ Ho Hr))).
Qed.

Lemma pool_exactly_once_witness : ∃ s, reachable 1 [Join] s ∧ (∃ t, begun (log s) = [Called 1 t]) ∧
  ∃ ts, jobs (taken s) ≡ₚ ts ++ omap held (workers s) ∧ Forall2 treated ts (begun (log s)).
Proof.
  destruct (run (demo_added ++ demo_joined) (init 1 [Join])) as [s|] eqn:E; [|vm_compute in E; discriminate].
  exists s. assert (reachable 1 [Join] s) as Hr by by eapply run_steps.
  split; [exact Hr|split; [vm_compute in E; injection E as <-; eexists; reflexivity|]].
  exact (proj2 (pool_exactly_once 1 [Join] s stop_last_join Hr)).
Defined.

(** ** join() *)






End PoolSpec.
