(* ===== verification/PoolLive.v ===== *)
(** The thread pool: every run without new tasks comes to rest, with the controlling thread's
    calls returned and the queue drained; and two runs that show what the pool does not
    promise. *)
From S2P Require Import Prelude Threads Pool PoolProof PoolSafe.

Module PoolLive.
Import Pool PoolProof PoolSafe.

(** A step of the pool's threads or of the controlling thread. *)
Inductive quiet : pool → pool → Prop :=
| quiet_work i now s s' : work i now s = Some (Ret s') → quiet s s'
| quiet_control now addrs s s' : control now addrs s = Some (Ret s') → quiet s s'.

Definition at_rest (s : pool) : Prop :=
  (∀ i now, work i now s = None) ∧ (∀ now addrs, control now addrs s = None).

(** ** The measure *)

Definition wrank (c : wpc) : Z :=
  match c with
  | WNew | WSem | WDone => 0 | WTake => 1 | WInit => 2 | WStop => 4 | WInc | WObs => 5
  | WDec => 6 | WTest => 7 | WRan => 8 | WRun _ _ _ => 9 | WGot _ => 10
  end.
Fixpoint ranks (ws : list Thread) : Z := match ws with [] => 0 | th :: r => wrank (pc th) + ranks r end.

Definition len {A} (l : list A) : Z := Z.of_nat (length l).
Definition crank (c : cpc) : Z :=
  match c with
  | CIdle => 0 | CGoal _ => 1 | CEmpty _ => 2
  | CAdd n _ => 25 * Z.of_nat n + 10
  | CSpawn todo news _ => 24 * len todo + len news + 9
  | CSort news _ => len news + 8
  | CStart todo _ _ => len todo + 7
  | CRemove n _ _ => 18 * Z.of_nat n + 9
  | CFlag n _ _ => 18 * Z.of_nat n + 8
  | CStop n _ => 18 * Z.of_nat n + 7
  | CSet n _ => 18 * Z.of_nat n + 6
  | CPoison k n _ => 14 * Z.of_nat k + 4 * Z.of_nat n + 5
  | CTake k _ => 4 * Z.of_nat k + 3
  | CSem k _ => 4 * Z.of_nat k + 6
  | CErase _ k _ => 4 * Z.of_nat k + 4
  end.
(** Threads whose removal is under way. *)
Definition removing (c : cpc) : Z :=
  match c with
  | CRemove n _ _ | CFlag n _ _ | CStop n _ | CSet n _ | CPoison _ n _ | CTake n _ => Z.of_nat n
  | CSem k _ | CErase _ k _ => Z.of_nat k + 1
  | _ => 0
  end.
Fixpoint cost (os : list op) : Z :=
  match os with [] => 0 | SetNumThreads n :: r => 25 * Z.of_nat n + 11 + cost r | _ :: r => 11 + cost r end.

Definition measure (s : pool) : Z :=
  ranks (workers s) + 10 * BlockingQueue.size (taskQueue_ s) + 2 * BlockingQueue.sem_ (taskQueue_ s) +
  nstopped s + 2 * BlockingQueue.sem_ (stoppedThreads_ s) + crank (ctl s) + cost (ops s) +
  18 * (nthreads s - removing (ctl s)).

Lemma ranks_insert ws i th th' : ws !! i = Some th → ranks (<[i := th']> ws) = ranks ws - wrank (pc th) + wrank (pc th').
Proof.
  revert i. induction ws as [|x ws IH]; intros [|i] Hi; try done.
  - injection Hi as ->. change (<[0%nat := th']> (th :: ws)) with (th' :: ws). cbn [ranks]. lia.
  - change (<[S i := th']> (x :: ws)) with (x :: <[i := th']> ws). cbn [ranks]. rewrite (IH i Hi). lia.
Qed.
Lemma ranks_new ws addrs : ranks (ws ++ map (fun a => mk_thread a WNew true false) addrs) = ranks ws.
Proof. induction ws as [|x ws IH]; cbn; [|by rewrite IH]. by induction addrs. Qed.
Lemma wrank_nonneg c : 0 ≤ wrank c.
Proof. destruct c; cbn; lia. Qed.
Lemma ranks_nonneg ws : 0 ≤ ranks ws.
Proof. induction ws as [|x ws IH]; cbn; [done|]. pose proof (wrank_nonneg (pc x)). lia. Qed.
Lemma cost_nonneg os : 0 ≤ cost os.
Proof. induction os as [|[] os IH]; cbn; lia. Qed.

Lemma measure_nonneg s : inv s → 0 ≤ measure s.
Proof.
  intros [_ I2 _ I4 _ _ I7 _ _ _]. unfold measure, goal_ok, nstopped, BlockingQueue.size in *.
  pose proof (ranks_nonneg (workers s)). pose proof (cost_nonneg (ops s)). unfold nthreads in *.
  destruct (ctl s); unfold crank, removing, len in *; lia.
Qed.

Lemma measure_work i now s s' : work i now s = Some (Ret s') → measure s' < measure s.
Proof.
  unfold work. intros He. destruct (workers s !! i) as [th|] eqn:Hi; [|done]. cbn in He.
  destruct (pc th) eqn:Hc; try done; inv_exec He; unfold BlockingQueue.take, BlockingQueue.wait, BlockingQueue.add, BlockingQueue.post in *.
  all: repeat match goal with
       | H : context [match BlockingQueue.queue_ ?q with _ => _ end] |- _ => destruct (BlockingQueue.queue_ q) eqn:?
       | H : (if ?b then _ else _) = _ |- _ => destruct b eqn:?
       end; inv_ret; simplify_eq.
  all: unfold measure, set_pc, dequeue, tell, set_workers, set_toStop, set_queue, set_stopped, nstopped, nthreads, BlockingQueue.size; cbn [workers taskQueue_ stoppedThreads_ ctl ops threads_ BlockingQueue.queue_ BlockingQueue.sem_].
  all: rewrite (ranks_insert _ _ _ _ Hi), Hc; cbn [pc wrank].
  all: repeat match goal with H : BlockingQueue.queue_ _ = _ |- _ => rewrite H end; rewrite ?length_app; cbn [length].
  all: repeat case_match; cbn [wrank]; inv_ret; lia.
Qed.

Lemma measure_control now addrs s s' : inv s → control now addrs s = Some (Ret s') → measure s' < measure s.
Proof.
  intros [_ I2 _ I4 _ _ I7 _ _ _]. unfold control, goal_ok in *. intros He.
  destruct (ctl s) as [|n g|[|w todo] news g|news g|[|w todo] news g|n j g|n j g|n g|n g|[|k] n g|[|k] g|k g|w k g|g|g] eqn:Hc.
  1: { destruct (ops s) as [|o os] eqn:Ho; [done|]. injection He as <-. unfold begin, nthreads in *.
       destruct o as [n| | |o|o]; cbn [threads_ set_ops]; try destruct (Nat.ltb_spec (length (threads_ s)) n); try destruct (Nat.ltb_spec n (length (threads_ s)));
         unfold measure, nstopped, nthreads, BlockingQueue.size; cbn [set_ctl set_ops tell set_observers workers taskQueue_ stoppedThreads_ ctl ops threads_];
         rewrite ?Hc, ?Ho; cbn [crank removing cost]; lia. }
  1: { case_decide as Hd; [|done]. destruct Hd as (Hl & _). injection He as <-.
       unfold measure, nstopped, nthreads, BlockingQueue.size; cbn [set_ctl set_workers workers taskQueue_ stoppedThreads_ ctl ops threads_].
       rewrite ranks_new, Hc. cbn [crank removing]. unfold len. rewrite length_seq. lia. }
  all: inv_exec He; unfold enqueue, BlockingQueue.take, BlockingQueue.wait, BlockingQueue.add, BlockingQueue.post in *.
  all: repeat match goal with
       | H : context [match BlockingQueue.queue_ ?q with _ => _ end] |- _ => destruct (BlockingQueue.queue_ q) eqn:?
       | H : (if ?b then _ else _) = _ |- _ => destruct b eqn:?
       end; inv_ret; simplify_eq.
  all: unfold measure, set_pc, tell, set_workers, set_toStop, set_queue, set_stopped, set_ctl, set_threads, set_isJoin, nstopped, nthreads, BlockingQueue.size in *;
       cbn [workers taskQueue_ stoppedThreads_ ctl ops threads_ BlockingQueue.queue_ BlockingQueue.sem_] in *.
  all: repeat match goal with H : BlockingQueue.queue_ _ = _ |- _ => rewrite H end; rewrite ?length_app, ?length_sort, ?Hc; cbn [length crank removing].
  all: unfold len; cbn [length]; try lia.
  - rename x into th. rewrite (ranks_insert _ _ th) by done. cbn [pc wrank]. pose proof (wrank_nonneg (pc th)). lia.
  - case_match; inv_ret; lia.
  - unfold RDDCHECK in *. inv_ret. match goal with H : (_ <? length _)%nat = true |- _ => apply Nat.ltb_lt in H as Hlt end.
    apply lookup_lt_is_Some_2 in Hlt. rewrite (length_delete _ _ Hlt). apply lookup_lt_is_Some in Hlt. lia.
Qed.

Lemma quiet_step s s' : quiet s s' → step s s'.
Proof. intros [i now ? ? H|now addrs ? ? H]; [by apply (step_exec (LWork i now))|by apply (step_exec (LControl now addrs))]. Qed.

Lemma quiet_bounded k s s' : nsteps quiet k s s' → inv s ∧ sinv s → Z.of_nat k + measure s' ≤ measure s.
Proof.
  induction 1 as [s|k s1 s2 s3 H12 _ IH]; intros Hi; [lia|].
  specialize (IH (pool_step_inv _ _ (quiet_step _ _ H12) Hi)).
  assert (measure s2 < measure s1) by (destruct H12; [by eapply measure_work|by eapply measure_control; [apply Hi|]]). lia.
Qed.

(** ** Rest *)

Lemma rest_worker s w th : (∀ i now, work i now s = None) → workers s !! w = Some th →
  match pc th with WNew | WDone => True | WSem => BlockingQueue.sem_ (taskQueue_ s) ≤ 0 | _ => False end.
Proof.
  intros Hr Hw. specialize (Hr w 0). unfold work in Hr. rewrite Hw in Hr. cbn in Hr.
  destruct (pc th); try done.
  - unfold BlockingQueue.wait in Hr. destruct (Z.ltb_spec 0 (BlockingQueue.sem_ (taskQueue_ s))); [done|lia].
  - destruct (poison t); [done|by destruct (task_start 0 t)].
Qed.

Lemma cnt_find f s : 0 < cnt f s → ∃ w th, workers s !! w = Some th ∧ f (pc th) = true.
Proof.
  unfold cnt. induction (workers s) as [|x l IH]; [done|]. rewrite count_cons. destruct (f (pc x)) eqn:E; cbn [Z.b2z].
  - intros _. by exists 0%nat, x.
  - intros (w & th & H)%IH. by exists (S w), th.
Qed.

Lemma rest_cnt f s : (∀ i now, work i now s = None) → f WNew = false → f WDone = false → f WSem = false → cnt f s = 0.
Proof.
  intros Hr H1 H2 H3. pose proof (cnt_nonneg f s). destruct (decide (cnt f s = 0)) as [|Hne]; [done|].
  destruct (cnt_find f s) as (w & th & Hw & Hf); [lia|]. pose proof (rest_worker _ _ _ Hr Hw). destruct (pc th); congruence || done.
Qed.

(** At rest a pool with a live thread has an empty queue: no wake-up is lost. *)
Lemma rest_queue s : inv s → (∀ i now, work i now s = None) → 0 < cnt alive s → BlockingQueue.queue_ (taskQueue_ s) = [].
Proof.
  intros Hi Hr Ha. destruct (cnt_find alive s Ha) as (w & th & Hw & Hal). pose proof (rest_worker _ _ _ Hr Hw) as Hs.
  assert (BlockingQueue.sem_ (taskQueue_ s) ≤ 0) by by destruct (pc th).
  pose proof (i_wake _ Hi) as Hwk. rewrite (rest_cnt taking) in Hwk by done. unfold BlockingQueue.size in Hwk.
  destruct (BlockingQueue.queue_ (taskQueue_ s)); [done|cbn in Hwk; lia].
Qed.

Lemma rest_alive s : inv s → at_rest s → cnt dying s = 0 ∧ cnt poisoned s = 0 ∧ (0 < cnt alive s → poisons s = 0).
Proof.
  intros Hi [Hr _]. rewrite (rest_cnt dying), (rest_cnt poisoned) by done. split_and!; [done..|]. intros Ha.
  unfold poisons. by rewrite (rest_queue _ Hi Hr Ha), (rest_cnt poisoned).
Qed.

Lemma rest_sem s k g : inv s → at_rest s → ctl s ≠ CSem k g.
Proof.
  intros Hi Hr Hc. destruct (rest_alive _ Hi Hr) as (Hd & Hp & Ha). pose proof Hr as [Hw Hct].
  assert (BlockingQueue.sem_ (stoppedThreads_ s) = 0) as Hs.
  { specialize (Hct 0 []). unfold control in Hct. rewrite Hc in Hct. unfold BlockingQueue.wait in Hct. pose proof (i_ssem _ Hi).
    destruct (Z.ltb_spec 0 (BlockingQueue.sem_ (stoppedThreads_ s))); [done|lia]. }
  pose proof (i_swake _ Hi) as Hsw. pose proof (i_threads _ Hi) as Ht. pose proof (i_goal _ Hi) as Hg. pose proof (i_mode _ Hi) as Hm.
  unfold goal_ok in Hg. rewrite Hc in *. cbn in Hsw, Ht, Hg.
  assert (nstopped s = 0) by (unfold nstopped, BlockingQueue.size in *; lia). specialize (Ha ltac:(lia)).
  destruct (decide _); [destruct Hm as (_ & _ & S3 & S4 & _)|destruct Hm as (J1 & J2 & _)]; rewrite Hc in *; cbn in *; lia.
Qed.

Lemma fresh_addrs (l : list Z) n : ∃ addrs : list Z, length addrs = n ∧ NoDup addrs ∧ Forall (fun a => a ∉ l) addrs.
Proof.
  exists (fresh_list n (list_to_set l : gset Z)). split_and!.
  - apply length_fresh_list.
  - apply NoDup_fresh_list.
  - apply Forall_forall. intros a Ha Hl. eapply (fresh_list_is_fresh n (list_to_set l : gset Z) a Ha). by apply elem_of_list_to_set.
Qed.

Lemma rest_idle s : inv s → sinv s → at_rest s → ctl s = CIdle ∧ ops s = [].
Proof.
  intros Hi Hs Hr. pose proof Hr as [Hw Hct].
  destruct (ctl s) as [|n g|[|w todo] news g|news g|[|w todo] news g|n j g|n j g|n g|n g|[|k] n g|[|k] g|k g|w k g|g|g] eqn:Hc.
  all: try (specialize (Hct 0 []); unfold control in Hct; rewrite Hc in Hct; discriminate).
  - specialize (Hct 0 []). unfold control in Hct. rewrite Hc in Hct. destruct (ops s); [done|discriminate].
  - destruct (fresh_addrs (map (address s) (threads_ s)) n) as (addrs & H1 & H2 & H3).
    specialize (Hct 0 addrs). unfold control in Hct. rewrite Hc, decide_True in Hct by done. discriminate.
  - pose proof (s_spawn _ Hs) as Hsp. unfold spawn_ok in Hsp. rewrite Hc in Hsp. destruct Hsp as [_ Hn].
    specialize (Hn w ltac:(by left)). specialize (Hct 0 []). unfold control in Hct. rewrite Hc in Hct.
    destruct (workers s !! w); discriminate.
  - pose proof (s_news _ Hs) as Hn. rewrite Hc in Hn. destruct (s_thr _ Hs w) as (th & Hth & Hne); [apply Hn; by left|].
    pose proof (rest_worker _ _ _ Hw Hth) as Hp. specialize (Hct 0 []). unfold control in Hct. rewrite Hc in Hct.
    unfold started in Hct. rewrite Hth in Hct. cbn in Hct. destruct (s_init _ Hs _ _ Hth) as [E|[?|E]]; [rewrite E in Hct; discriminate|done|].
    by rewrite E in Hp.
  - exfalso. by eapply rest_sem.
  - destruct (erase_lookup _ _ _ _ Hs Hc) as (_ & _ & Hret). specialize (Hct 0 []). unfold control in Hct. rewrite Hc, Hret in Hct. discriminate.
Qed.

(** C17. The pool comes to rest: from any state of any execution, a run of the pool's threads and
    the controlling thread in which no task is added has at most [measure s] steps, whatever the
    interleaving; and where it can go no further, every call of the controlling thread has
    returned (so join(), stop() and setNumThreads() end), and if the pool still has threads its
    queue is empty - no wake-up is lost. *)
Theorem pool_rests n os s : stop_last os → reachable n os s →
  (∀ k s', nsteps quiet k s s' → Z.of_nat k ≤ measure s) ∧
  (∀ s', rtc quiet s s' → at_rest s' →
     ctl s' = CIdle ∧ ops s' = [] ∧ (threads_ s' ≠ [] → BlockingQueue.queue_ (taskQueue_ s') = [])).
Proof.
  intros Ho Hr. pose proof (pool_reachable_inv _ _ _ Ho Hr) as Hi. split.
  - intros k s' Hk. assert (reachable n os s') as Hr'.
    { unfold reachable in *. etrans; [exact Hr|]. apply rtc_nsteps_2 in Hk. by eapply rtc_subrel; [|exact Hk]; [apply quiet_step]. }
    pose proof (quiet_bounded _ _ _ Hk Hi). pose proof (measure_nonneg _ (proj1 (pool_reachable_inv _ _ _ Ho Hr'))). lia.
  - intros s' Hq Hrest. assert (reachable n os s') as Hr' by (unfold reachable in *; etrans; [exact Hr|]; by eapply rtc_subrel; [apply quiet_step|]).
    destruct (pool_reachable_inv _ _ _ Ho Hr') as [Hi' Hs']. destruct (rest_idle _ Hi' Hs' Hrest) as [Hc Hops]. split_and!; [done..|].
    intros Hne. apply (rest_queue _ Hi'); [apply Hrest|]. destruct (rest_alive _ Hi' Hrest) as (Hd & _).
    pose proof (i_threads _ Hi') as Ht. pose proof (i_mode _ Hi') as Hm. pose proof (i_sem _ Hi'). rewrite Hc in *. cbn in Ht.
    assert (0 ≤ nstopped s') by (unfold nstopped, BlockingQueue.size; lia).
    assert (0 < nthreads s') by (unfold nthreads; destruct (threads_ s'); [done|cbn; lia]). pose proof (cnt_nonneg alive s').
    pose proof (cnt_nonneg poisoned s'). pose proof (count_nonneg poison (BlockingQueue.queue_ (taskQueue_ s'))).
    destruct (decide _); [destruct Hm as (_ & _ & S3 & S4 & _)|destruct Hm as (J1 & J2 & _)]; rewrite Hc in *; unfold poisons in *; cbn in *; lia.
Qed.

Lemma pool_rests_witness : ∃ s, reachable 1 [Join] s ∧ ∀ k s', nsteps quiet k s s' → Z.of_nat k ≤ measure s.
Proof.
  destruct (run (built 7) (init 1 [Join])) as [s|] eqn:E; [|vm_compute in E; discriminate]. exists s.
  assert (reachable 1 [Join] s) as Hr by by eapply run_steps. split; [exact Hr|].
  apply (pool_rests 1 [Join] s); [|exact Hr]. intros [|i] H; [discriminate|]. destruct i; discriminate.
Defined.

(** ** What the pool does not promise *)

(** A pool that was stopped cannot grow again: a thread that leaves early on stop() leaves its poison
    in the queue, so after stop(); setNumThreads(1) the new thread can take that poison and fail
    CHECK(threadsToStop_-- > 0). *)
Theorem stop_then_grow_fails : ∃ s l, reachable 1 [Stop; SetNumThreads 1] s ∧ exec l s = Some (Err AssertFailed).
Proof.
  destruct (run (built 7 ++ [LAdd 0 1 0 None] ++ works 0 2 ++ controls 6 ++ works 0 5 ++ controls 7 ++
    [LControl 0 [8]] ++ controls 3 ++ works 1 2) (init 1 [Stop; SetNumThreads 1])) as [s|] eqn:E; [|vm_compute in E; discriminate].
  exists s, (LWork 1 0). split; [by eapply run_steps|]. vm_compute in E. injection E as <-. reflexivity.
Qed.

(** A task taken while others are queued does not use up a post of the semaphore: a thread
    that is always busy lets its value grow with every task. *)
Definition idle_thread (k : Z) (s : pool) : Prop :=
  taskQueue_ s = BlockingQueue.mk [] k ∧ threadsToStop_ s = 0 ∧ ∃ th, workers s = [th] ∧ pc th = WTake.

Lemma busy_round k s : idle_thread k s → k < BlockingQueue.SEM_VALUE_MAX →
  ∃ s', run (LAdd 0 0 0 None :: works 0 4) s = Some s' ∧ idle_thread (k + 1) s'.
Proof.
  intros (Hq & Hz & th & Hw & Hp) Hk. destruct s as [q ts jn sq ws thr ob ct os lg ad tk]. cbn in Hq, Hz, Hw. subst.
  destruct th as [a p i u]. cbn in Hp. subst p. unfold run, works, exec, add, enqueue, BlockingQueue.add, BlockingQueue.post.
  cbn [BlockingQueue.sem_ taskQueue_]. rewrite (proj2 (Z.ltb_lt _ _) Hk). cbn. eexists. split; [reflexivity|].
  split_and!; [done..|]. eexists. split; [reflexivity|done].
Qed.

(** A pool whose queue is empty can refuse a task: after SEM_VALUE_MAX tasks that were taken
    without waiting, add() throws. *)
Theorem busy_pool_refuses now f ex cb : ∃ s, reachable 1 [] s ∧ BlockingQueue.queue_ (taskQueue_ s) = [] ∧
  exec (LAdd now f ex cb) s = Some (Err (Thrown "failed to post sem")).
Proof.
  assert (∀ k : nat, Z.of_nat k ≤ BlockingQueue.SEM_VALUE_MAX → ∃ s, reachable 1 [] s ∧ idle_thread (Z.of_nat k) s) as H.
  { induction k as [|k IH]; intros Hk.
    - destruct (run (built 7) (init 1 [])) as [s|] eqn:E; [|vm_compute in E; discriminate]. exists s.
      split; [by eapply run_steps|]. vm_compute in E. injection E as <-. split_and!; [done..|]. eexists. split; reflexivity.
    - destruct IH as (s & Hr & Hs); [lia|]. destruct (busy_round _ _ Hs) as (s' & Hrun & Hs'); [lia|]. exists s'. split.
      + unfold reachable in *. etrans; [exact Hr|]. by eapply run_steps.
      + by replace (Z.of_nat (S k)) with (Z.of_nat k + 1) by lia. }
  destruct (H (Z.to_nat BlockingQueue.SEM_VALUE_MAX)) as (s & Hr & Hq & _); [by rewrite Z2Nat.id|]. rewrite Z2Nat.id in Hq by done.
  exists s. split_and!; [done|by rewrite Hq|]. unfold exec, add, enqueue, BlockingQueue.add, BlockingQueue.post. by rewrite Hq.
Qed.

(** A thread that leaves early on stop() is not reported to the observers that saw it start. *)
Theorem early_exit_untold : ∃ s, reachable 1 [AddObserver 3; Stop] s ∧ ctl s = CIdle ∧ ops s = [] ∧ threads_ s = [] ∧
  ThreadStarted 3 0 ∈ log s ∧ ThreadStopped 3 0 ∉ log s.
Proof.
  destruct (run (built 7 ++ controls 1 ++ [LAdd 0 1 0 None] ++ works 0 2 ++ controls 6 ++ works 0 5 ++ controls 6)
    (init 1 [AddObserver 3; Stop])) as [s|] eqn:E; [|vm_compute in E; discriminate].
  exists s. split; [by eapply run_steps|]. vm_compute in E. injection E as <-. split_and!; [done..|by left|].
  cbn. intros H. repeat (apply elem_of_cons in H as [H|H]; [discriminate|]). by apply elem_of_nil in H.
Qed.
End PoolLive.
