(* ===== verification/Conv.v ===== *)
(** util/Conv.h and util/Conv.cpp: conversions between integers and decimal
    strings, between integer types, and from strings to bool. A string is the
    list of its chars as unsigned bytes; a StringPiece that a function advances
    is passed in and the rest of it is returned. *)
From S2P Require Import Prelude.

Module Conv.

(** ** Integer types and the conversions of the language *)

Record itype := mk_itype { it_bits : Z; it_signed : bool }.

Definition int8_t := mk_itype 8 true.
Definition int16_t := mk_itype 16 true.
Definition int32_t := mk_itype 32 true.
Definition int64_t := mk_itype 64 true.
Definition uint8_t := mk_itype 8 false.
Definition uint16_t := mk_itype 16 false.
Definition uint32_t := mk_itype 32 false.
Definition uint64_t := mk_itype 64 false.
Definition itypes := [int8_t; int16_t; int32_t; int64_t; uint8_t; uint16_t; uint32_t; uint64_t].

(** std::numeric_limits<T>::min() and max(). *)
Definition tmin (t : itype) : Z := if it_signed t then - 2 ^ (it_bits t - 1) else 0.
Definition tmax (t : itype) : Z := if it_signed t then 2 ^ (it_bits t - 1) - 1 else 2 ^ it_bits t - 1.

(** static_cast<T>(x). *)
Definition cast (t : itype) (x : Z) : Z :=
  let y := x mod 2 ^ it_bits t in
  if it_signed t && (2 ^ (it_bits t - 1) <=? y) then y - 2 ^ it_bits t else y.

Definition make_unsigned (t : itype) : itype := mk_itype (it_bits t) false.

(** Integral promotion, then the usual arithmetic conversions: the type in which
    two operands are compared. *)
Definition promote (t : itype) : itype := if it_bits t <? 32 then int32_t else t.
Definition common (s t : itype) : itype :=
  let s := promote s in let t := promote t in
  if it_bits s =? it_bits t then mk_itype (it_bits s) (it_signed s && it_signed t)
  else if it_bits s <? it_bits t then t else s.
Definition cmp_le (s t : itype) (x y : Z) : bool := cast (common s t) x <=? cast (common s t) y.

Definition Overflow := Thrown "Overflow".
Definition NegativeOverflow := Thrown "Negative overflow".

(** to<Tgt>(value), from one integral type to another. The two conditions marked
    static compare constants of both types; the checks compare the value after the
    usual arithmetic conversions. *)
Definition to_integral (src tgt : itype) (value : Z) : outcome Z :=
  _ ← (if negb (cmp_le src tgt (tmax src) (tmax tgt))
       then check (cmp_le src tgt value (tmax tgt)) Overflow else Ret tt);
  _ ← (if it_signed src && (negb (it_signed tgt) || (it_bits tgt <? it_bits src))
       then check (cmp_le tgt src (tmin tgt) value) NegativeOverflow else Ret tt);
  Ret (cast tgt value).

(** ** Integers to decimal strings *)

Definition powersOf10 : list Z := (fun i : nat => 10 ^ Z.of_nat i) <$> seq 0 20.

(** __builtin_clzll, undefined on 0. *)
Definition clzll (v : Z) : outcome Z := if v =? 0 then Err Undefined else Ret (63 - Z.log2 v).

(** The x86-64 branch. *)
Definition digits10 (v : Z) : outcome Z :=
  if v =? 0 then Ret 1 else
  leadingZeroes ← clzll v;
  let bits := 63 - leadingZeroes in
  let minLength := u32 (1 + Z.shiftr (bits * 77) 8) in
  p ← vget powersOf10 minLength;
  Ret (minLength + (if p <=? v then 1 else 0)).

(** The branch of the other architectures; a 64-bit value needs five rounds. *)
Fixpoint digits10_loop (fuel : nat) (v result : Z) : outcome Z :=
  match fuel with
  | O => Err OutOfFuel
  | S fuel =>
      if v <? 10 then Ret result else
      if v <? 100 then Ret (result + 1) else
      if v <? 1000 then Ret (result + 2) else
      if v <? 10000 then Ret (result + 3) else
      digits10_loop fuel (v / 10000) (u32 (result + 4))
  end.
Definition digits10_portable (v : Z) : outcome Z := digits10_loop 5 v 1.

(** while (v >= 10): pos is a uint32_t. *)
Fixpoint uint64ToBuffer_loop (fuel : nat) (v pos : Z) (buffer : list Z) : outcome (list Z) :=
  match fuel with
  | O => Err OutOfFuel
  | S fuel =>
      if 10 <=? v then
        let q := v / 10 in
        let r := u32 (v mod 10) in
        buffer ← vset buffer pos (48 + r);
        uint64ToBuffer_loop fuel q (u32 (pos - 1)) buffer
      else vset buffer pos (u32 v + 48)
  end.
Definition uint64ToBufferUnsafe (v : Z) (buffer : list Z) : outcome (Z * list Z) :=
  result ← digits10 v;
  buffer ← uint64ToBuffer_loop 20 v (u32 (result - 1)) buffer;
  Ret (result, buffer).

(** char buffer[20], whose contents are indeterminate. *)
Definition append_digits (v : Z) (garbage : list Z) (result : list Z) : outcome (list Z) :=
  '(n, buffer) ← uint64ToBufferUnsafe v garbage;
  Ret (result ++ take (Z.to_nat n) buffer).

(** toAppend of a signed and of an unsigned type of at least four bytes. *)
Definition toAppend_signed (value : Z) (garbage result : list Z) : outcome (list Z) :=
  if value <? 0 then append_digits (u64 (- u64 value)) garbage (result ++ [45])
  else append_digits (u64 value) garbage result.
Definition toAppend_unsigned (value : Z) (garbage result : list Z) : outcome (list Z) :=
  append_digits (u64 value) garbage result.

(** toAppend of any integral type: the ones below four bytes are widened. *)
Definition toAppend (t : itype) (value : Z) (garbage result : list Z) : outcome (list Z) :=
  if it_bits t <? 32 then
    let intermediate := if it_signed t then int64_t else uint64_t in
    if it_signed t then toAppend_signed (cast intermediate value) garbage result
    else toAppend_unsigned (cast intermediate value) garbage result
  else if it_signed t then toAppend_signed value garbage result
  else toAppend_unsigned value garbage result.

(** The signed branch negates at the value's own type, which is undefined for the
    least value. *)
Definition estimateSpaceNeeded_wide (t : itype) (value : Z) : outcome Z :=
  if it_signed t && (value <? 0) then
    if value =? tmin t then Err Undefined else
    n ← digits10 (u64 (- value)); Ret (1 + n)
  else digits10 (u64 value).
Definition estimateSpaceNeeded (t : itype) (value : Z) : outcome Z :=
  if it_bits t <? 32 then
    let intermediate := if it_signed t then int64_t else uint64_t in
    estimateSpaceNeeded_wide intermediate (cast intermediate value)
  else estimateSpaceNeeded_wide t value.

(** ** Decimal strings to integers *)

Definition isspace (c : Z) : bool := (c =? 32) || ((9 <=? c) && (c <=? 13)).
Definition isdigit (c : Z) : bool := (48 <=? c) && (c <=? 57).
Definition tolower (c : Z) : Z := if (65 <=? c) && (c <=? 90) then c + 32 else c.

Fixpoint findFirstNonDigit (s : list Z) : list Z * list Z :=
  match s with
  | [] => ([], [])
  | c :: s' =>
      if 10 <=? u32 (c - 48) then ([], s)
      else let '(m, rest) := findFirstNonDigit s' in (c :: m, rest)
  end.

Definition OOR : Z := 10000.
Definition shift1 : list Z := replicate 48 OOR ++ [0; 1; 2; 3; 4; 5; 6; 7; 8; 9] ++ replicate 198 OOR.
Definition shift10 : list Z := replicate 48 OOR ++ [0; 10; 20; 30; 40; 50; 60; 70; 80; 90] ++ replicate 198 OOR.
Definition shift100 : list Z :=
  replicate 48 OOR ++ [0; 100; 200; 300; 400; 500; 600; 700; 800; 900] ++ replicate 198 OOR.
Definition shift1000 : list Z :=
  replicate 48 OOR ++ [0; 1000; 2000; 3000; 4000; 5000; 6000; 7000; 8000; 9000] ++ replicate 198 OOR.

(** table[static_cast<size_t>(c)]: char is signed, so that a char above 127 is an
    index far past the table. *)
Definition shift (table : list Z) (c : Z) : outcome Z :=
  vget table (if c <? 128 then c else u64 (c - 256)).

(** std::numeric_limits<T>::digits10 and MaxString<T>::value, of the unsigned types. *)
Definition limit_digits10 (bits : Z) : Z :=
  if bits =? 8 then 2 else if bits =? 16 then 4 else if bits =? 32 then 9 else 19.
Definition MaxString (bits : Z) : list Z :=
  if bits =? 8 then [50; 53; 53]
  else if bits =? 16 then [54; 53; 53; 51; 53]
  else if bits =? 32 then [52; 50; 57; 52; 57; 54; 55; 50; 57; 53]
  else [49; 56; 52; 52; 54; 55; 52; 52; 48; 55; 51; 55; 48; 57; 53; 53; 49; 54; 49; 53].

(** strncmp(a, b, n), on a string a that need not be terminated but has n chars. *)
Fixpoint strncmp (a b : list Z) (n : nat) : Z :=
  match n with
  | O => 0
  | S n =>
      let x := nth 0 a 0 in let y := nth 0 b 0 in
      if x =? y then if x =? 0 then 0 else strncmp (drop 1 a) (drop 1 b) n
      else x - y
  end.

(** for (++b;; ++b): the string without its leading zeros. *)
Fixpoint skip_zeros (s : list Z) : list Z :=
  match s with
  | c :: s' => if c =? 48 then skip_zeros s' else s
  | [] => []
  end.

(** The part after the overflow check: four digits a round, then what is left. *)
Fixpoint digits_to_rounds (bits : Z) (result : Z) (size : Z) (s : list Z) : outcome Z :=
  match s with
  | c0 :: c1 :: c2 :: c3 :: s' =>
      let result := (result * 10000) mod 2 ^ bits in
      r0 ← shift shift1000 c0; r1 ← shift shift100 c1;
      r2 ← shift shift10 c2; r3 ← shift shift1 c3;
      let sum := r0 + r1 + r2 + r3 in
      _ ← check (sum <? OOR) AssertFailed;
      digits_to_rounds bits ((result + sum) mod 2 ^ bits) size s'
  | [c0; c1; c2] =>
      r0 ← shift shift100 c0; r1 ← shift shift10 c1; r2 ← shift shift1 c2;
      let sum := r0 + r1 + r2 in
      _ ← check (sum <? OOR) AssertFailed;
      Ret ((result * 1000 + sum) mod 2 ^ bits)
  | [c0; c1] =>
      r0 ← shift shift10 c0; r1 ← shift shift1 c1;
      let sum := r0 + r1 in
      _ ← check (sum <? OOR) AssertFailed;
      Ret ((result * 100 + sum) mod 2 ^ bits)
  | [c0] =>
      sum ← shift shift1 c0;
      _ ← check (sum <? OOR) AssertFailed;
      Ret ((result * 10 + sum) mod 2 ^ bits)
  | [] =>
      _ ← check (0 <? size) (Thrown "Found no digits to convert in input");
      Ret result
  end.

(** The recursive call is made on a string that does not start with a zero, so that
    it is the last. *)
Fixpoint digits_to_rec (fuel : nat) (bits : Z) (s : list Z) : outcome Z :=
  match fuel with
  | O => Err OutOfFuel
  | S fuel =>
      let size := Z.of_nat (length s) in
      if limit_digits10 bits + 1 <=? size then
        match s with
        | 48 :: s' => match skip_zeros s' with [] => Ret 0 | s'' => digits_to_rec fuel bits s'' end
        | _ =>
            _ ← check ((size =? limit_digits10 bits + 1) && (strncmp s (MaxString bits) (length s) <=? 0))
                      (Thrown "Numeric overflow upon conversion");
            digits_to_rounds bits 0 size s
        end
      else digits_to_rounds bits 0 size s
  end.
Definition digits_to (bits : Z) (s : list Z) : outcome Z := digits_to_rec 2 bits s.

(** to<Tgt>(b, e) for unsigned and for signed Tgt. *)
Definition to_range_unsigned (t : itype) (s : list Z) : outcome Z := digits_to (it_bits t) s.
Definition to_range_signed (t : itype) (s : list Z) : outcome Z :=
  match s with
  | [] => Err (Thrown "Empty input string in conversion to integral")
  | c :: s' =>
      if negb (isdigit c) && (c =? 45) then
        r ← to_range_unsigned (make_unsigned t) s';
        let result := cast t (- r) in
        _ ← check (result <=? 0) NegativeOverflow;
        Ret result
      else
        s ← (if negb (isdigit c) then
               _ ← check (c =? 43) (Thrown "Invalid lead character"); Ret s'
             else Ret s);
        r ← to_range_unsigned (make_unsigned t) s;
        let result := cast t r in
        _ ← check (0 <=? result) Overflow;
        Ret result
  end.

(** for (;; ++b): the first char that is not white space. *)
Fixpoint skip_spaces (what : string) (s : list Z) : outcome (list Z) :=
  match s with
  | [] => Err (Thrown what)
  | c :: s' => if isspace c then skip_spaces what s' else Ret s
  end.

Definition NoDigits : string := "No digits found in input string".

(** to<Tgt>(StringPiece * src). *)
Definition to_piece (t : itype) (src : list Z) : outcome (Z * list Z) :=
  b ← skip_spaces NoDigits src;
  '(negative, m) ←
    (match b with
    | c :: b' =>
        if it_signed t && negb (isdigit c) then
          if c =? 45 then Ret (true, b')
          else _ ← check (c =? 43) (Thrown "Invalid leading character in conversion to integral");
               Ret (false, b')
        else Ret (false, b)
    | [] => Err Undefined
    end : outcome (bool * list Z));
  match m with
  | [] => Err (Thrown NoDigits)
  | c :: m' =>
      _ ← check (isdigit c) (Thrown "Non-digit character found");
      let '(ds, rest) := findFirstNonDigit m' in
      r ← digits_to (it_bits t) (c :: ds);
      if negb (it_signed t) then Ret (r, rest)
      else if (negative : bool) then
        let result := cast t (- r) in
        _ ← check (result <=? 0) NegativeOverflow;
        Ret (result, rest)
      else
        let result := cast t r in
        _ ← check (0 <=? result) Overflow;
        Ret (result, rest)
  end.

Definition enforceWhitespace (s : list Z) : outcome unit :=
  check (forallb isspace s) (Thrown "Non-whitespace: ").

(** to<Tgt>(StringPiece src). *)
Definition to_string_integral (t : itype) (src : list Z) : outcome Z :=
  '(result, rest) ← to_piece t src;
  _ ← enforceWhitespace rest;
  Ret result.

(** ** Strings to bool *)

(** bool_str_cmp: the rest of the string after value, if it starts with value in
    either case. *)
Fixpoint bool_str_cmp (s value : list Z) {struct value} : option (list Z) :=
  match value with
  | [] => Some s
  | v :: value =>
      match s with
      | p :: s => if tolower p =? v then bool_str_cmp s value else None
      | [] => None
      end
  end.

(** case '0': case '1': at most one 1, after zeros only. *)
Fixpoint bool_digits (result : bool) (s : list Z) : outcome (bool * list Z) :=
  match s with
  | c :: s' =>
      if isdigit c then
        _ ← check (negb result && ((c =? 48) || (c =? 49)))
                  (Thrown "Integer overflow when parsing bool: must be 0 or 1");
        bool_digits (c =? 49) s'
      else Ret (result, s)
  | [] => Ret (result, [])
  end.

Definition bool_word (result : bool) (word b : list Z) : outcome (bool * list Z) :=
  Ret (result, match bool_str_cmp b word with Some rest => rest | None => drop 1 b end).

Definition InvalidBool := Thrown "Invalid value for bool".

Definition str_to_bool (src : list Z) : outcome (bool * list Z) :=
  b ← skip_spaces "No non-whitespace characters found in input string" src;
  match b with
  | [] => Err Undefined
  | c :: _ =>
      if (c =? 48) || (c =? 49) then bool_digits false b
      else if (c =? 121) || (c =? 89) then bool_word true [121; 101; 115] b
      else if (c =? 110) || (c =? 78) then bool_word false [110; 111] b
      else if (c =? 116) || (c =? 84) then bool_word true [116; 114; 117; 101] b
      else if (c =? 102) || (c =? 70) then bool_word false [102; 97; 108; 115; 101] b
      else if (c =? 111) || (c =? 79) then
        match bool_str_cmp b [111; 110] with
        | Some rest => Ret (true, rest)
        | None =>
            match bool_str_cmp b [111; 102; 102] with
            | Some rest => Ret (false, rest)
            | None => Err InvalidBool
            end
        end
      else Err InvalidBool
  end.
Definition to_bool (src : list Z) : outcome bool :=
  '(result, rest) ← str_to_bool src;
  _ ← enforceWhitespace rest;
  Ret result.

End Conv.
