(* ===== verification/ConvProof.v ===== *)
(** Proofs about util/Conv.h: the number of digits, the decimal printer, the
    decimal parser with its overflow checks, and the integer casts. *)
From S2P Require Import Prelude Conv.

Module ConvProof.
Import Conv.

(** ** Decimal notation: the specification *)

(** The number a string of digits denotes. *)
Definition dec_value_from (a : Z) (s : list Z) : Z := foldl (fun a c => a * 10 + (c - 48)) a s.
Definition dec_value (s : list Z) : Z := dec_value_from 0 s.

(** The last n digits of v. *)
Fixpoint dec (n : nat) (v : Z) : list Z :=
  match n with O => [] | S n => dec n (v / 10) ++ [48 + v mod 10] end.

Definition digit (c : Z) : Prop := 48 ≤ c ≤ 57.

(** v is written with n digits. *)
Definition is_len (v n : Z) : Prop := 1 ≤ n ∧ v < 10 ^ n ∧ (n = 1 ∨ 10 ^ (n - 1) ≤ v).

(** The decimal notation of a signed number. *)
Definition decimal (x : Z) (n : nat) : list Z := if x <? 0 then 45 :: dec n (- x) else dec n x.

Lemma is_len_unique v n m : is_len v n → is_len v m → n = m.
Proof.
  intros (Hn & Hv & H1) (Hm & Hv' & H2). destruct (Z.lt_trichotomy n m) as [H|[H|H]]; [|done|].
  - destruct H2 as [->|H2]; [lia|]. pose proof (Z.pow_le_mono_r 10 n (m - 1)). lia.
  - destruct H1 as [->|H1]; [lia|]. pose proof (Z.pow_le_mono_r 10 m (n - 1)). lia.
Qed.

Lemma is_len_div v n k : 0 ≤ v → 1 ≤ k → 10 ^ k ≤ v → is_len (v / 10 ^ k) n → is_len v (n + k).
Proof.
  intros Hv Hk Hle (Hn & Hlt & H1). assert (0 < 10 ^ k) by lia. split; [lia|].
  rewrite Z.pow_add_r by lia. split.
  - pose proof (Z.div_mod v (10 ^ k)). pose proof (Z.mod_pos_bound v (10 ^ k)).
    pose proof (Z.mul_le_mono_nonneg_r (v / 10 ^ k + 1) (10 ^ n) (10 ^ k)). lia.
  - right. destruct H1 as [->|H1].
    + replace (1 + k - 1) with k by lia. done.
    + replace (n + k - 1) with (n - 1 + k) by lia. rewrite Z.pow_add_r by lia.
      pose proof (Z.mul_div_le v (10 ^ k)). pose proof (Z.mul_le_mono_nonneg_r (10 ^ (n - 1)) (v / 10 ^ k) (10 ^ k)). lia.
Qed.

Lemma is_len_div10 v n : is_len v n → 10 ≤ v → is_len (v / 10) (n - 1).
Proof.
  intros (Hn & Hlt & H1) Hv. assert (2 ≤ n).
  { destruct (Z.eq_dec n 1) as [->|]; [change (10 ^ 1) with 10 in Hlt|]; lia. }
  split; [lia|]. replace n with (1 + (n - 1)) in Hlt at 1 by lia.
  rewrite Z.pow_add_r in Hlt by lia. change (10 ^ 1) with 10 in Hlt.
  split; [apply Z.div_lt_upper_bound; lia|]. destruct H1 as [?|H1]; [lia|]. destruct (Z.eq_dec n 2); [left; lia|]. right.
  apply Z.div_le_lower_bound; [lia|]. rewrite <- (Z.pow_succ_r 10) by lia. by replace (Z.succ (n - 1 - 1)) with (n - 1) by lia.
Qed.

Lemma length_dec n v : length (dec n v) = n.
Proof. revert v. induction n; intros v; [done|]. cbn [dec]. rewrite length_app, IHn. cbn. lia. Qed.

Lemma dec_digits n v : Forall digit (dec n v).
Proof.
  revert v. induction n; intros v; [constructor|]. cbn [dec]. apply Forall_app. split; [done|].
  repeat constructor; pose proof (Z.mod_pos_bound v 10); lia.
Qed.

Lemma dec_value_app a s c : dec_value_from a (s ++ [c]) = dec_value_from a s * 10 + (c - 48).
Proof. unfold dec_value_from. by rewrite foldl_app. Qed.

Lemma dec_value_dec n v : 0 ≤ v < 10 ^ Z.of_nat n → dec_value (dec n v) = v.
Proof.
  revert v. induction n as [|n IH]; intros v Hv; [cbn in *; lia|]. cbn [dec]. unfold dec_value. rewrite dec_value_app.
  rewrite Nat2Z.inj_succ, Z.pow_succ_r in Hv by lia. change (dec_value_from 0 ?s) with (dec_value s). rewrite IH.
  - pose proof (Z.div_mod v 10). lia.
  - split; [apply Z.div_pos; lia|]. apply Z.div_lt_upper_bound; lia.
Qed.

Lemma dec_value_from_eq a s : dec_value_from a s = a * 10 ^ Z.of_nat (length s) + dec_value s.
Proof.
  unfold dec_value. revert a. induction s as [|c s IH] using rev_ind; intros a; [cbn; lia|].
  rewrite !dec_value_app, IH, length_app. cbn [length]. replace (Z.of_nat (length s + 1)) with (Z.succ (Z.of_nat (length s))) by lia.
  rewrite Z.pow_succ_r by lia. lia.
Qed.

Lemma dec_value_cons c s : dec_value (c :: s) = (c - 48) * 10 ^ Z.of_nat (length s) + dec_value s.
Proof. unfold dec_value at 1. cbn. fold (dec_value_from (0 * 10 + (c - 48)) s). rewrite dec_value_from_eq. lia. Qed.

Lemma dec_value_bound s : Forall digit s → 0 ≤ dec_value s < 10 ^ Z.of_nat (length s).
Proof.
  induction 1 as [|c s Hc Hs IH]; [cbn; lia|]. rewrite dec_value_cons. unfold digit in Hc.
  cbn [length]. rewrite Nat2Z.inj_succ, Z.pow_succ_r by lia. nia.
Qed.

(** ** digits10 *)

Lemma log2_table k : 0 ≤ k < 64 →
  let m := 1 + Z.shiftr (k * 77) 8 in
  1 ≤ m ≤ 19 ∧ (m = 1 ∨ 10 ^ (m - 1) ≤ 2 ^ k) ∧ 2 ^ (k + 1) ≤ 10 ^ (m + 1).
Proof.
  intros Hk m.
  assert (forallb (fun k => let m := 1 + Z.shiftr (k * 77) 8 in
    (1 <=? m) && (m <=? 19) && ((m =? 1) || (10 ^ (m - 1) <=? 2 ^ k)) && (2 ^ (k + 1) <=? 10 ^ (m + 1))) (seqZ 0 64) = true)
    as H by (vm_compute; reflexivity).
  rewrite forallb_forall in H. specialize (H k). cbn zeta in H. fold m in H.
  destruct (andb_prop _ _ (H ltac:(apply list_elem_of_In, elem_of_seqZ; lia))) as [H1 H2].
  apply andb_prop in H1 as [H1 H3]. apply andb_prop in H1 as [H1 H4]. lia.
Qed.

Lemma powersOf10_lookup m : 0 ≤ m < 20 → vget powersOf10 m = Ret (10 ^ m).
Proof.
  intros Hm. apply vget_ret. split; [lia|]. unfold powersOf10. rewrite list_lookup_fmap, lookup_seq_lt by lia.
  cbn. do 2 f_equal. lia.
Qed.

Lemma digits10_len v : 0 ≤ v < 2 ^ 64 → ∃ n, digits10 v = Ret n ∧ is_len v n ∧ n ≤ 20.
Proof.
  intros Hv. unfold digits10, clzll. destruct (Z.eqb_spec v 0) as [->|Hv0].
  { exists 1. split; [done|]. unfold is_len. split; [|lia]. split; [lia|]. split; [reflexivity|by left]. }
  cbn [mbind outcome_bind]. replace (63 - (63 - Z.log2 v)) with (Z.log2 v) by lia.
  assert (0 ≤ Z.log2 v < 64) as Hk. { split; [apply Z.log2_nonneg|]. apply Z.log2_lt_pow2; lia. }
  destruct (Z.log2_spec v) as [Hlo Hhi]; [lia|].
  destruct (log2_table (Z.log2 v) Hk) as (Hm & H1 & H2). set (m := 1 + Z.shiftr (Z.log2 v * 77) 8) in *.
  autorewrite with raster. rewrite powersOf10_lookup by lia. cbn [mbind outcome_bind].
  rewrite <- Z.add_1_r in Hhi. destruct (Z.leb_spec (10 ^ m) v) as [Hp|Hp].
  - exists (m + 1). split; [done|]. split; [|lia]. split; [lia|]. split; [lia|]. right. by replace (m + 1 - 1) with m by lia.
  - exists m. split; [by rewrite Z.add_0_r|]. split; [|lia]. split; [lia|]. split; [done|]. lia.
Qed.

Lemma digits10_loop_len fuel v r : 0 ≤ v < 10 ^ (4 * Z.of_nat fuel) → 0 ≤ r → r + 4 * Z.of_nat fuel < 2 ^ 32 →
  (v = 0 → fuel ≠ 0%nat) →
  ∃ n, digits10_loop fuel v r = Ret (r + n - 1) ∧ is_len v n.
Proof.
  revert v r. induction fuel as [|fuel IH]; intros v r Hv Hr Hf H0;
    [change (10 ^ _) with 1 in Hv; lia|]. cbn [digits10_loop].
  destruct (Z.ltb_spec v 10); [exists 1; split; [f_equal; lia|by split; [|split; [|left]]]|].
  destruct (Z.ltb_spec v 100); [exists 2; split; [f_equal; lia|by split; [|split; [|right]]]|].
  destruct (Z.ltb_spec v 1000); [exists 3; split; [f_equal; lia|by split; [|split; [|right]]]|].
  destruct (Z.ltb_spec v 10000); [exists 4; split; [f_equal; lia|by split; [|split; [|right]]]|].
  destruct (IH (v / 10000) (r + 4)) as (n & Hn & Hlen); [|lia|lia|pose proof (Z.div_le_lower_bound v 10000 1); lia|].
  { split; [apply Z.div_pos; lia|]. apply Z.div_lt_upper_bound; [lia|].
    replace (4 * Z.of_nat (S fuel)) with (4 + 4 * Z.of_nat fuel) in Hv by lia.
    rewrite Z.pow_add_r in Hv by lia.
    change (10 ^ 4) with 10000 in Hv. lia. }
  exists (n + 4). rewrite u32_small by lia. rewrite Hn. split; [f_equal; lia|].
  apply (is_len_div v n 4); [lia|lia|lia|done].
Qed.

(** The number of digits that the printer reserves, computed with one count of
    leading zeros and a table of powers of ten, is for every 64-bit value the number
    that the loop of the other architectures computes, and it is the length of the
    decimal notation. *)
Theorem digits10_equiv v : 0 ≤ v < 2 ^ 64 →
  ∃ n, digits10 v = Ret n ∧ digits10_portable v = Ret n ∧ is_len v n ∧ n ≤ 20.
Proof.
  intros Hv. destruct (digits10_len v Hv) as (n & Hn & Hlen & Hle).
  destruct (digits10_loop_len 5 v 1) as (m & Hm & Hlen'); [cbn in *; lia|lia|lia|done|].
  exists n. rewrite (is_len_unique _ _ _ Hlen Hlen') in *. split; [done|]. split; [|done].
  unfold digits10_portable. rewrite Hm. f_equal. lia.
Qed.
Lemma digits10_equiv_witness : ∃ n, digits10 1000 = Ret n ∧ digits10_portable 1000 = Ret n ∧ is_len 1000 n ∧ n ≤ 20.
Proof. apply (digits10_equiv 1000). lia. Defined.

(** ** The decimal printer *)

Lemma buffer_loop_spec fuel v n buffer : is_len v n → 0 ≤ v → n ≤ Z.of_nat fuel → n ≤ Z.of_nat (length buffer) → n < 2 ^ 32 →
  uint64ToBuffer_loop fuel v (n - 1) buffer = Ret (dec (Z.to_nat n) v ++ drop (Z.to_nat n) buffer).
Proof.
  revert v n buffer. induction fuel as [|fuel IH]; intros v n buffer Hlen Hv Hf Hb H32; [destruct Hlen; lia|].
  cbn [uint64ToBuffer_loop]. pose proof (Z.mod_pos_bound v 10).
  assert (1 ≤ n) as Hn by apply Hlen. set (k := Z.to_nat (n - 1)). assert (Z.to_nat n = S k) as -> by lia.
  assert (∀ c, vset buffer (n - 1) c = Ret (<[k := c]> buffer)) as Hset by (intros c; apply vset_ret; split; [lia|done]).
  assert (∀ c, drop k (<[k := c]> buffer) = c :: drop (S k) buffer) as Hdrop.
  { intros c. rewrite (drop_S _ c) by (apply list_lookup_insert_eq; lia). f_equal. by rewrite drop_insert_lt by lia. }
  destruct (Z.leb_spec 10 v) as [H10|H10]; rewrite Hset; cbn [mbind outcome_bind].
  - assert (is_len (v / 10) (n - 1)) as Hl' by by apply is_len_div10. assert (1 ≤ n - 1) by apply Hl'.
    rewrite (u32_small (n - 1 - 1)) by lia. rewrite (IH _ _ _ Hl'); [|apply Z.div_pos; lia|lia|rewrite length_insert; lia|lia].
    f_equal. cbn [dec]. fold k. rewrite Hdrop, u32_small by lia. by rewrite <- (assoc_L (++)).
  - assert (k = 0%nat) as Hk.
    { destruct Hlen as (_ & _ & [|Hle]); [lia|]. destruct (Z.eq_dec n 1); [lia|].
      pose proof (Z.pow_le_mono_r 10 1 (n - 1)). lia. }
    specialize (Hdrop (u32 v + 48)). rewrite Hk in *. cbn [dec]. f_equal. rewrite drop_0 in Hdrop. rewrite Hdrop.
    rewrite u32_small, Z.mod_small by lia. cbn. f_equal. lia.
Qed.

Lemma append_digits_spec v garbage result : 0 ≤ v < 2 ^ 64 → length garbage = 20%nat →
  ∃ n : nat, is_len v (Z.of_nat n) ∧ digits10 v = Ret (Z.of_nat n) ∧
    append_digits v garbage result = Ret (result ++ dec n v).
Proof.
  intros Hv Hg. destruct (digits10_len v Hv) as (n & Hn & Hlen & Hle). assert (1 ≤ n) by apply Hlen.
  exists (Z.to_nat n). rewrite Z2Nat.id by lia. split; [done|]. split; [done|].
  unfold append_digits, uint64ToBufferUnsafe. rewrite Hn. cbn [mbind outcome_bind]. rewrite u32_small by lia.
  rewrite buffer_loop_spec; [|done|lia|lia|lia|lia]. cbn [mbind outcome_bind].
  by rewrite take_app_length' by by rewrite length_dec.
Qed.

(** ** The decimal parser *)

Lemma shift_digit k tbl c : digit c →
  (tbl = shift1 ∧ k = 1) ∨ (tbl = shift10 ∧ k = 10) ∨ (tbl = shift100 ∧ k = 100) ∨ (tbl = shift1000 ∧ k = 1000) →
  shift tbl c = Ret ((c - 48) * k).
Proof.
  unfold digit. intros Hc Ht.
  assert (c = 48 ∨ c = 49 ∨ c = 50 ∨ c = 51 ∨ c = 52 ∨ c = 53 ∨ c = 54 ∨ c = 55 ∨ c = 56 ∨ c = 57) as Hc' by lia.
  destruct_or?; destruct_and?; subst; vm_compute; reflexivity.
Qed.
Lemma shift1_digit c : digit c → shift shift1 c = Ret (c - 48).
Proof. intros H. rewrite (shift_digit 1 _ c H); [f_equal; lia|auto]. Qed.
Lemma shift10_digit c : digit c → shift shift10 c = Ret ((c - 48) * 10).
Proof. intros H. apply (shift_digit 10 _ c H); auto. Qed.
Lemma shift100_digit c : digit c → shift shift100 c = Ret ((c - 48) * 100).
Proof. intros H. apply (shift_digit 100 _ c H); auto. Qed.
Lemma shift1000_digit c : digit c → shift shift1000 c = Ret ((c - 48) * 1000).
Proof. intros H. apply (shift_digit 1000 _ c H); auto 6. Qed.

(** Fold the look-ups of digits and the asserts. *)
Ltac run_digits :=
  repeat first
    [ rewrite shift1_digit by done | rewrite shift10_digit by done
    | rewrite shift100_digit by done | rewrite shift1000_digit by done
    | match goal with |- context [check (?s <? OOR) AssertFailed] =>
        replace (s <? OOR) with true by (symmetry; apply Z.ltb_lt; unfold digit, OOR in *; lia) end
    | progress cbn [mbind outcome_bind check] ].

Lemma dec_value_from_ge a s : 0 ≤ a → Forall digit s → a ≤ dec_value_from a s.
Proof.
  intros Ha Hs. revert a Ha. induction Hs as [|c s Hc Hs IH]; intros a Ha; [cbn; lia|].
  unfold dec_value_from in *. cbn [foldl]. unfold digit in Hc. specialize (IH (a * 10 + (c - 48))). lia.
Qed.

Lemma rounds_spec bits size s result : Forall digit s → 0 ≤ result → 0 < bits →
  dec_value_from result s < 2 ^ bits → 0 < size ->
  digits_to_rounds bits result size s = Ret (dec_value_from result s).
Proof.
  intros Hs Hr Hb. remember (length s) as n eqn:Hn. revert s Hs result Hr Hn.
  induction (lt_wf n) as [n _ IH]; intros s Hs result Hr Hn Hlt Hsize.
  assert (0 < 2 ^ bits) by lia.
  destruct s as [|c0 [|c1 [|c2 [|c3 s]]]]; cbn [digits_to_rounds].
  - by rewrite (proj2 (Z.ltb_lt 0 size)).
  - repeat apply Forall_cons in Hs as [? Hs]. run_digits. rewrite Z.mod_small; cbn in *; [done|]. unfold digit in *. lia.
  - repeat apply Forall_cons in Hs as [? Hs]. run_digits. cbn in *. unfold digit in *. rewrite Z.mod_small; [f_equal; lia|lia].
  - repeat apply Forall_cons in Hs as [? Hs]. run_digits. cbn in *. unfold digit in *. rewrite Z.mod_small; [f_equal; lia|lia].
  - repeat apply Forall_cons in Hs as [? Hs]. run_digits. unfold dec_value_from in *. cbn [foldl] in *.
    change (foldl _ ?a s) with (dec_value_from a s) in *.
    set (a := (((result * 10 + (c0 - 48)) * 10 + (c1 - 48)) * 10 + (c2 - 48)) * 10 + (c3 - 48)) in *.
    assert (0 ≤ a ∧ result * 10000 ≤ a) as [Ha Ha'] by (unfold digit in *; lia).
    pose proof (dec_value_from_ge a s Ha Hs). rewrite (Z.mod_small (result * 10000)) by lia.
    replace (result * 10000 + _) with a by lia. rewrite Z.mod_small by lia.
    apply (IH (length s)); [subst n; cbn; lia|done|done|done|done|done].
Qed.

Lemma strncmp_le a b : length a = length b → Forall digit a → Forall digit b →
  (strncmp a b (length a) <=? 0) = (dec_value a <=? dec_value b).
Proof.
  intros Hl Ha. revert b Hl. induction Ha as [|x a Hx Ha IH]; intros [|y b] Hl Hb; cbn in Hl; [done|lia|lia|].
  apply Forall_cons in Hb as [Hy Hb]. cbn [length strncmp nth drop]. rewrite !dec_value_cons.
  replace (length b) with (length a) by lia. unfold digit in Hx, Hy.
  destruct (Z.eqb_spec x y) as [->|Hne].
  - rewrite (proj2 (Z.eqb_neq y 0)) by lia. rewrite !drop_0, IH by (done || lia).
    set (p := (y - 48) * _). destruct (Z.leb_spec (dec_value a) (dec_value b)), (Z.leb_spec (p + dec_value a) (p + dec_value b)); (done || lia).
  - pose proof (dec_value_bound a Ha). pose proof (dec_value_bound b Hb). replace (length b) with (length a) in * by lia.
    set (p := 10 ^ Z.of_nat (length a)) in *.
    destruct (Z.leb_spec (x - y) 0), (Z.leb_spec ((x - 48) * p + dec_value a) ((y - 48) * p + dec_value b)); (done || nia).
Qed.

Definition width (bits : Z) : Prop := bits = 8 ∨ bits = 16 ∨ bits = 32 ∨ bits = 64.

Lemma max_string bits : width bits →
  dec_value (MaxString bits) = 2 ^ bits - 1 ∧ Forall digit (MaxString bits) ∧
  Z.of_nat (length (MaxString bits)) = limit_digits10 bits + 1 ∧
  10 ^ limit_digits10 bits < 2 ^ bits ∧ 2 ^ bits ≤ 10 ^ (limit_digits10 bits + 1) ∧ 0 < limit_digits10 bits.
Proof.
  intros [-> | [-> | [-> | ->]]];
    (split; [vm_compute; reflexivity|]; split; [repeat (constructor; [unfold digit; lia|]); constructor|];
     split; [vm_compute; reflexivity|]; split; [vm_compute; reflexivity|]; split; [vm_compute; discriminate|vm_compute; reflexivity]).
Qed.

Lemma skip_zeros_spec s : Forall digit s →
  Forall digit (skip_zeros s) ∧ dec_value (skip_zeros s) = dec_value s ∧ head (skip_zeros s) ≠ Some 48.
Proof.
  induction 1 as [|c s Hc Hs IH]; [done|]. cbn [skip_zeros].
  destruct (Z.eqb_spec c 48) as [->|Hne].
  - rewrite dec_value_cons, Z.sub_diag, Z.mul_0_l, Z.add_0_l. done.
  - split; [by constructor|]. split; [done|]. cbn. congruence.
Qed.

Definition NumericOverflow := Thrown "Numeric overflow upon conversion".

(** The last call: no leading zero, or too short to overflow. *)
Lemma digits_to_last fuel bits s : width bits → Forall digit s → s ≠ [] → head s ≠ Some 48 →
  digits_to_rec (S fuel) bits s = if dec_value s <? 2 ^ bits then Ret (dec_value s) else Err NumericOverflow.
Proof.
  intros Hw Hs Hne Hhd. destruct (max_string bits Hw) as (Hval & Hdig & Hmax & Hlo & Hhi & Hpos).
  assert (0 < bits) by (destruct Hw as [-> | [-> | [-> | ->]]]; lia).
  pose proof (dec_value_bound s Hs) as Hb. destruct s as [|c s]; [done|]. cbn [digits_to_rec].
  set (size := Z.of_nat (length (c :: s))) in *. assert (0 < size) by (subst size; cbn; lia).
  assert (dec_value (c :: s) < 2 ^ bits → digits_to_rounds bits 0 size (c :: s) = Ret (dec_value (c :: s))) as Hgo.
  { intros. by apply rounds_spec. }
  destruct (Z.leb_spec (limit_digits10 bits + 1) size) as [Hle|Hgt].
  2: { assert (dec_value (c :: s) < 2 ^ bits) as Hlt. { pose proof (Z.pow_le_mono_r 10 size (limit_digits10 bits)). lia. }
       rewrite (proj2 (Z.ltb_lt _ _) Hlt). by apply Hgo. }
  assert (c ≠ 48) as Hc by (cbn in Hhd; congruence).
  transitivity (_ ← check ((size =? limit_digits10 bits + 1) && (strncmp (c :: s) (MaxString bits) (length (c :: s)) <=? 0)) NumericOverflow;
    digits_to_rounds bits 0 size (c :: s)).
  { destruct c as [|p|p]; try done. repeat (destruct p as [p|p|]; try done). }
  destruct (Z.eqb_spec size (limit_digits10 bits + 1)) as [Heq|Hneq]; cbn [andb].
  - rewrite strncmp_le by (done || lia). rewrite Hval.
    destruct (Z.leb_spec (dec_value (c :: s)) (2 ^ bits - 1)), (Z.ltb_spec (dec_value (c :: s)) (2 ^ bits)); try lia; [|done].
    cbn [check mbind outcome_bind]. by apply Hgo.
  - destruct (Z.ltb_spec (dec_value (c :: s)) (2 ^ bits)) as [Hlt|]; [|done]. exfalso.
    rewrite dec_value_cons in Hlt. apply Forall_cons in Hs as [Hd Hs]. pose proof (dec_value_bound s Hs). unfold digit in Hd.
    pose proof (Z.pow_le_mono_r 10 (limit_digits10 bits + 1) (Z.of_nat (length s))) as Hp. subst size. cbn [length] in *. nia.
Qed.

Lemma digits_to_spec bits s : width bits → Forall digit s → s ≠ [] →
  digits_to bits s = if dec_value s <? 2 ^ bits then Ret (dec_value s) else Err NumericOverflow.
Proof.
  intros Hw Hs Hne. unfold digits_to. destruct (decide (head s = Some 48)) as [Hz|Hz]; [|by apply digits_to_last].
  destruct (max_string bits Hw) as (_ & _ & _ & Hlo & _ & Hpos).
  assert (0 < bits) by (destruct Hw as [-> | [-> | [-> | ->]]]; lia).
  destruct s as [|c s]; [done|]. injection Hz as ->. pose proof Hs as [Hd Hs0]%Forall_cons.
  destruct (skip_zeros_spec s Hs0) as (Hs' & Hv & Hhd). assert (dec_value (48 :: s) = dec_value s) as He by (rewrite dec_value_cons; lia).
  cbn [digits_to_rec]. destruct (Z.leb_spec (limit_digits10 bits + 1) (Z.of_nat (length (48 :: s)))) as [Hle|Hgt].
  - rewrite He, <- Hv. destruct (skip_zeros s) as [|c' s'] eqn:E; [by rewrite (proj2 (Z.ltb_lt 0 _)) by lia|].
    exact (digits_to_last 0 bits (c' :: s') Hw Hs' ltac:(done) Hhd).
  - pose proof (dec_value_bound (48 :: s) Hs). pose proof (Z.pow_le_mono_r 10 (Z.of_nat (length (48 :: s))) (limit_digits10 bits)).
    assert (dec_value (48 :: s) < 2 ^ bits) as Hlt by lia. rewrite (proj2 (Z.ltb_lt _ _) Hlt).
    apply rounds_spec; (done || cbn; lia).
Qed.

(** Parsing a string of digits into an unsigned type of any width: a string that
    denotes a number of the type gives that number, whatever its leading zeros, and a
    string that denotes a larger one, the comparison with the greatest value as a
    string and its length included, throws; no digit is looked up outside a table,
    no assert fails and the arithmetic does not wrap. *)
Theorem digits_to_correct bits s : width bits → Forall digit s →
  digits_to bits s =
    if decide (s = []) then Err (Thrown "Found no digits to convert in input")
    else if dec_value s <? 2 ^ bits then Ret (dec_value s) else Err NumericOverflow.
Proof.
  intros Hw Hs. case_decide as Hne; [subst|by apply digits_to_spec]. by destruct Hw as [-> | [-> | [-> | ->]]].
Qed.
Lemma digits_to_correct_witness : digits_to 8 [48; 48; 50; 53; 53] = Ret 255 ∧ digits_to 8 [48; 50; 53; 54] = Err NumericOverflow.
Proof.
  split.
  - rewrite (digits_to_correct 8 [48; 48; 50; 53; 53]); [reflexivity|by left|repeat constructor; lia].
  - rewrite (digits_to_correct 8 [48; 50; 53; 54]); [reflexivity|by left|repeat constructor; lia].
Defined.

(** ** Integer casts *)

Lemma itypes_cases t : t ∈ itypes →
  t = int8_t ∨ t = int16_t ∨ t = int32_t ∨ t = int64_t ∨ t = uint8_t ∨ t = uint16_t ∨ t = uint32_t ∨ t = uint64_t.
Proof. unfold itypes. set_solver. Qed.

Lemma itype_width t : t ∈ itypes → width (it_bits t).
Proof. intros H%itypes_cases. unfold width. by destruct_or? H; subst t; cbn; auto. Qed.

Lemma cast_in_range t x : t ∈ itypes → tmin t ≤ x ≤ tmax t → cast t x = x.
Proof.
  intros H%itypes_cases Hx. unfold cast.
  destruct_or? H; subst t; cbn in *; repeat case_match; Z.div_mod_to_equations; lia.
Qed.

#[global] Instance itype_eq_dec : EqDecision itype.
Proof. solve_decision. Defined.

Lemma cast_negative t x : it_signed t = false → t ∈ itypes → - 2 ^ it_bits t ≤ x < 0 → cast t x = x + 2 ^ it_bits t.
Proof.
  intros Hu H%itypes_cases Hx. unfold cast. rewrite Hu. cbn [andb].
  destruct_or? H; subst t; cbn in *; Z.div_mod_to_equations; lia.
Qed.

(** Evaluate the conversions of one pair of types, on a value whose sign is known. *)
Ltac eval_casts x :=
  repeat match goal with
  | |- context [common ?s ?t] => let c := eval vm_compute in (common s t) in change (common s t) with c
  | |- context [tmax ?t] => let c := eval vm_compute in (tmax t) in change (tmax t) with c
  | |- context [tmin ?t] => let c := eval vm_compute in (tmin t) in change (tmin t) with c
  end;
  repeat match goal with
  | |- context [cast ?t ?v] => assert_fails (unify v x); let c := eval vm_compute in (cast t v) in change (cast t v) with c
  end;
  repeat match goal with
  | |- context [cast ?c x] =>
      first [ rewrite (cast_in_range c x); [|by apply (bool_decide_unpack _)|cbn; lia]
            | rewrite (cast_negative c x); [|done|by apply (bool_decide_unpack _)|cbn; lia] ]
  end.

(** C40. The checked conversion between integer types returns the value exactly when
    the target type has it and throws on the side it is out of range, except for a
    negative value converted to an unsigned type of at least 32 bits and at least
    the source's width: the check compares after the conversion of the value to that
    unsigned type, never fails, and the value wraps around. *)
Theorem to_integral_spec src tgt x : src ∈ itypes → tgt ∈ itypes → tmin src ≤ x ≤ tmax src →
  to_integral src tgt x =
    if it_signed src && negb (it_signed tgt) && (32 <=? it_bits tgt) && (it_bits src <=? it_bits tgt) && (x <? 0)
    then Ret (x + 2 ^ it_bits tgt)
    else if tmax tgt <? x then Err Overflow
    else if x <? tmin tgt then Err NegativeOverflow
    else Ret x.
Proof.
  intros Hs%itypes_cases Ht%itypes_cases Hx. unfold to_integral, cmp_le. destruct (Z.ltb_spec x 0);
  destruct_or? Hs; subst src; destruct_or? Ht; subst tgt; cbn in Hx; try lia; eval_casts x;
    unfold check; cbn -[Z.pow Z.add cast]; repeat case_match; cbn -[Z.pow Z.add cast] in *;
    first [done | lia | f_equal; apply cast_in_range; [by apply (bool_decide_unpack _)|cbn; lia]].
Qed.
Lemma to_integral_spec_witness :
  to_integral int32_t uint32_t (-1) = Ret 4294967295 ∧ to_integral int8_t uint8_t (-1) = Err NegativeOverflow.
Proof.
  split.
  - rewrite (to_integral_spec int32_t uint32_t (-1)); [reflexivity|unfold itypes; set_solver|unfold itypes; set_solver|cbn; lia].
  - rewrite (to_integral_spec int8_t uint8_t (-1)); [reflexivity|unfold itypes; set_solver|unfold itypes; set_solver|cbn; lia].
Defined.

(** ** Strings to bool *)

Definition spaces (s : list Z) : Prop := Forall (fun c => isspace c = true) s.

Definition word (w s : list Z) : Prop := map tolower s = w.

(** The strings that denote a truth value. *)
Inductive bool_token : bool → list Z → Prop :=
| tok_zero n : bool_token false (replicate (S n) 48)
| tok_one n : bool_token true (replicate n 48 ++ [49])
| tok_y s : word [121] s ∨ word [121; 101; 115] s → bool_token true s
| tok_n s : word [110] s ∨ word [110; 111] s → bool_token false s
| tok_t s : word [116] s ∨ word [116; 114; 117; 101] s → bool_token true s
| tok_f s : word [102] s ∨ word [102; 97; 108; 115; 101] s → bool_token false s
| tok_on s : word [111; 110] s → bool_token true s
| tok_off s : word [111; 102; 102] s → bool_token false s.

Lemma skip_spaces_inv what s s' : skip_spaces what s = Ret s' → ∃ sp, s = sp ++ s' ∧ spaces sp.
Proof.
  revert s'. induction s as [|c s IH]; intros s' H; cbn in H; [done|].
  destruct (isspace c) eqn:Hc; [|injection H as <-; exists []; split; [done|constructor]].
  destruct (IH _ H) as (sp & -> & Hsp). exists (c :: sp). split; [done|]. by constructor.
Qed.

Lemma bool_str_cmp_inv s value rest : bool_str_cmp s value = Some rest → ∃ tok, s = tok ++ rest ∧ word value tok.
Proof.
  revert s. induction value as [|v value IH]; intros s H; cbn in H; [injection H as H; subst; by exists []|].
  destruct s as [|p s]; [done|]. destruct (Z.eqb_spec (tolower p) v) as [<-|]; [|done].
  destruct (IH _ H) as (tok & -> & <-). by exists (p :: tok).
Qed.

Lemma bool_digits_inv s n b rest : bool_digits false s = Ret (b, rest) → n ≠ 0%nat ∨ (∃ c s', s = c :: s' ∧ isdigit c = true) →
  ∃ tok, s = tok ++ rest ∧ bool_token b (replicate n 48 ++ tok).
Proof.
  assert (∀ n b s, n ≠ 0%nat → Ret (false, s) = Ret (b, rest) → ∃ tok, s = tok ++ rest ∧ bool_token b (replicate n 48 ++ tok)) as Hend.
  { intros [|k] b' s' Hk [= <- ->]; [done|]. exists []. split; [done|]. rewrite app_nil_r. constructor. }
  revert n. induction s as [|c s IH]; intros n H Hn; cbn in H; [apply Hend; [|done]; naive_solver|].
  destruct (isdigit c) eqn:Hd; [|apply Hend; [destruct Hn as [?|(? & ? & [= <- <-] & ?)]; congruence|done]].
  destruct (Z.eqb_spec c 48) as [->|H48]; cbn in H.
  - destruct (IH (S n) H ltac:(auto)) as (tok & -> & Htok). exists (48 :: tok). split; [done|].
    replace (replicate n 48 ++ 48 :: tok) with (replicate (S n) 48 ++ tok); [done|].
    by rewrite (cons_middle 48 (replicate n 48) tok), replicate_S_end, <- (assoc_L (++)).
  - destruct (Z.eqb_spec c 49) as [->|]; cbn in H; [|done].
    assert (b = true ∧ s = rest) as [-> ->].
    { destruct s as [|c' s]; cbn in H; [by injection H as <- <-|]. destruct (isdigit c'); [done|]. by injection H as <- <-. }
    exists [49]. split; [done|]. constructor.
Qed.

(** A word or its first letter. *)
Lemma bool_word_inv r w c s b rest : bool_word r w (c :: s) = Ret (b, rest) → head w = Some (tolower c) →
  b = r ∧ ∃ tok, c :: s = tok ++ rest ∧ (word (take 1 w) tok ∨ word w tok).
Proof.
  unfold bool_word. intros [= -> <-] Hw. split; [done|]. destruct (bool_str_cmp (c :: s) w) eqn:E.
  - apply bool_str_cmp_inv in E as (tok & -> & Htok). exists tok. auto.
  - exists [c]. split; [done|]. left. destruct w as [|w0 w]; [done|]. injection Hw as ->. done.
Qed.

(** Parsing a truth value, when it does not throw, takes optional white space and
    one of the tokens (zeros with at most a one at their end, or y, yes, n, no, t,
    true, f, false, on, off in any case) from the front of the string, returns what
    the token denotes, and leaves the rest. *)
Theorem str_to_bool_sound src b rest : str_to_bool src = Ret (b, rest) →
  ∃ sp tok, src = sp ++ tok ++ rest ∧ spaces sp ∧ bool_token b tok.
Proof.
  unfold str_to_bool. intros H. inv_ret. apply skip_spaces_inv in Hr as (sp & -> & Hsp).
  destruct r as [|c s]; [done|]. exists sp. cut (∃ tok, c :: s = tok ++ rest ∧ bool_token b tok).
  { intros (tok & -> & Htok). by exists tok. }
  destruct ((c =? 48) || (c =? 49)) eqn:E.
  { apply (bool_digits_inv _ 0 b rest H). right. exists c, s. split; [done|]. unfold isdigit. lia. }
  assert (∀ r w, bool_word r w (c :: s) = Ret (b, rest) → head w = Some (tolower c) →
    (∀ tok, word (take 1 w) tok ∨ word w tok → bool_token r tok) → ∃ tok, c :: s = tok ++ rest ∧ bool_token b tok) as Hword.
  { intros r w Hb Hhd Htok. destruct (bool_word_inv _ _ _ _ _ _ Hb Hhd) as (-> & tok & -> & Hw). eauto. }
  assert (∀ u l, (c =? l) || (c =? u) = true → 65 ≤ u ≤ 90 → l = u + 32 → Some l = Some (tolower c)) as Hcase.
  { intros u l Hc Hu Hl. unfold tolower. f_equal. destruct ((65 <=? c) && (c <=? 90)) eqn:?; lia. }
  repeat match type of H with (if ?e then _ else _) = _ => let E := fresh "E" in destruct e eqn:E end;
    try (apply (Hword _ _ H); [cbn [head]; eapply Hcase; [eassumption|lia|lia]|constructor; done]); [|done].
  destruct (bool_str_cmp (c :: s) [111; 110]) eqn:Eon; [|destruct (bool_str_cmp (c :: s) [111; 102; 102]) eqn:Eoff; [|done]];
    injection H as <- ->; [apply bool_str_cmp_inv in Eon as (tok & -> & Htok)|apply bool_str_cmp_inv in Eoff as (tok & -> & Htok)];
    exists tok; split; [done| |done|]; by constructor.
Qed.
Lemma str_to_bool_sound_witness : ∃ sp tok, [32; 89; 69; 83; 44] = sp ++ tok ++ [44] ∧ spaces sp ∧ bool_token true tok.
Proof. apply (str_to_bool_sound [32; 89; 69; 83; 44] true [44]). reflexivity. Defined.

(** ** Round trip *)

Lemma isspace_range c : isspace c = true → 9 ≤ c ≤ 32 ∧ isdigit c = false.
Proof. unfold isspace, isdigit. intros [H|H]%orb_prop; lia. Qed.

Lemma digit_classes c : digit c → isdigit c = true ∧ isspace c = false.
Proof. unfold digit, isdigit, isspace. lia. Qed.

Lemma skip_spaces_app what sp c s : spaces sp → isspace c = false → skip_spaces what (sp ++ c :: s) = Ret (c :: s).
Proof. intros Hsp Hc. induction Hsp as [|x sp Hx Hsp IH]; cbn; [by rewrite Hc|by rewrite Hx]. Qed.

Lemma findFirstNonDigit_app ds sp : Forall digit ds → spaces sp → findFirstNonDigit (ds ++ sp) = (ds, sp).
Proof.
  intros Hds Hsp. induction Hds as [|c ds Hc Hds IH]; cbn [app].
  - destruct Hsp as [|c sp Hc Hsp]; [done|]. cbn [findFirstNonDigit]. apply isspace_range in Hc as [Hc _].
    rewrite (proj2 (Z.leb_le 10 (u32 (c - 48)))); [done|]. unfold u32. Z.div_mod_to_equations. lia.
  - cbn [findFirstNonDigit]. unfold digit in Hc. rewrite u32_small by lia.
    rewrite (proj2 (Z.leb_gt 10 (c - 48))) by lia. by rewrite IH.
Qed.

(** What the parser does on the notation of a number among white space. *)
Lemma to_piece_decimal t x n sp sp' : t ∈ itypes → tmin t ≤ x ≤ tmax t → is_len (Z.abs x) (Z.of_nat n) →
  spaces sp → spaces sp' → to_piece t (sp ++ decimal x n ++ sp') = Ret (x, sp').
Proof.
  intros Ht Hx (Hn & Hlt & _) Hsp Hsp'. pose proof (itype_width t Ht) as Hw.
  assert (Z.abs x < 2 ^ it_bits t) as Hr.
  { apply itypes_cases in Ht. clear -Ht Hx. destruct_or? Ht; subst t; cbn in *; lia. }
  assert (∀ v, 0 ≤ v → Z.abs x = v → ∃ c ds, dec n v = c :: ds ∧ digit c ∧ Forall digit ds ∧
    digits_to (it_bits t) (c :: ds) = Ret v) as Hdec.
  { intros v Hv Hxv. pose proof (dec_digits n v) as Hd. pose proof (length_dec n v) as Hl.
    assert (dec_value (dec n v) = v) as Hval by (apply dec_value_dec; lia).
    pose proof (digits_to_spec (it_bits t) (dec n v) Hw Hd) as Hto.
    destruct (dec n v) as [|c ds]; [cbn in Hl; lia|]. exists c, ds. apply Forall_cons in Hd as [Hc Hd].
    rewrite Hval, (proj2 (Z.ltb_lt v _)) in Hto by lia. split_and!; [done..|]. by apply Hto. }
  unfold decimal, to_piece. destruct (Z.ltb_spec x 0) as [Hneg|Hpos].
  - destruct (Hdec (- x)) as (c & ds & -> & Hc & Hds & Hto); [lia|lia|]. cbn [app].
    assert (it_signed t = true) as Hs.
    { unfold tmin in Hx. destruct (it_signed t); [done|lia]. }
    rewrite skip_spaces_app by done. cbn [mbind outcome_bind]. rewrite Hs. change (isdigit 45) with false.
    cbn [andb negb mbind outcome_bind Z.eqb Pos.eqb]. destruct (digit_classes c Hc) as [-> _]. cbn [check mbind outcome_bind].
    rewrite findFirstNonDigit_app by done. rewrite Hto. cbn [mbind outcome_bind negb].
    rewrite Z.opp_involutive, cast_in_range by done. by rewrite (proj2 (Z.leb_le x 0)) by lia.
  - destruct (Hdec x) as (c & ds & -> & Hc & Hds & Hto); [lia|lia|]. cbn [app]. destruct (digit_classes c Hc) as [Hd Hnsp].
    rewrite skip_spaces_app by done. cbn [mbind outcome_bind]. rewrite Hd, andb_false_r. cbn [mbind outcome_bind check].
    rewrite findFirstNonDigit_app by done. rewrite Hd, Hto. cbn [mbind outcome_bind check].
    destruct (it_signed t); cbn [negb]; [|done]. rewrite cast_in_range by done. by rewrite (proj2 (Z.leb_le 0 x)).
Qed.

Lemma toAppend_decimal t x garbage result : t ∈ itypes → tmin t ≤ x ≤ tmax t → length garbage = 20%nat →
  ∃ n : nat, is_len (Z.abs x) (Z.of_nat n) ∧ digits10 (Z.abs x) = Ret (Z.of_nat n) ∧
    toAppend t x garbage result = Ret (result ++ decimal x n).
Proof.
  intros Ht Hx Hg. assert (- 2 ^ 63 ≤ x < 2 ^ 64 ∧ (it_signed t = true → x < 2 ^ 63) ∧ (it_signed t = false → 0 ≤ x)) as (H64 & Hsg & Hus).
  { apply itypes_cases in Ht. clear -Ht Hx. destruct_or? Ht; subst t; cbn in *; lia. }
  unfold toAppend, toAppend_signed, toAppend_unsigned, decimal.
  assert (cast (if it_signed t then int64_t else uint64_t) x = x) as Hc.
  { apply cast_in_range; [destruct (it_signed t); by apply (bool_decide_unpack _)|]. destruct (it_signed t); cbn; lia. }
  destruct (append_digits_spec (Z.abs x) garbage (if x <? 0 then result ++ [45] else result)) as (n & Hn & Hd & Happ); [lia|done|].
  exists n. split; [done|]. split; [done|]. destruct (it_signed t); cbn in Hc |- *; rewrite ?Hc, ?if_same.
  - destruct (Z.ltb_spec x 0) as [Hneg|Hpos].
    + replace (u64 (- u64 x)) with (- x) by (unfold u64; Z.div_mod_to_equations; lia).
      rewrite Z.abs_neq in Happ by lia. rewrite Happ, <- (assoc_L (++)). by case_match.
    + rewrite Z.abs_eq in Happ by lia. rewrite u64_small by lia. rewrite Happ. by case_match.
  - rewrite Z.abs_eq in Happ by lia. rewrite u64_small by lia. rewrite (proj2 (Z.ltb_ge x 0)) in * by lia.
    rewrite Happ. by case_match.
Qed.

Lemma estimate_decimal t x n : t ∈ itypes → tmin t ≤ x ≤ tmax t → digits10 (Z.abs x) = Ret (Z.of_nat n) →
  ¬ (it_signed t = true ∧ 32 ≤ it_bits t ∧ x = tmin t) →
  estimateSpaceNeeded t x = Ret (Z.of_nat (length (decimal x n))).
Proof.
  intros Ht Hx Hd Hmin. assert (- 2 ^ 63 ≤ x < 2 ^ 64 ∧ (it_signed t = true → x < 2 ^ 63) ∧ (it_signed t = false → 0 ≤ x) ∧
    (it_signed t = true → it_bits t < 32 → - 2 ^ 63 < x)) as (H64 & Hsg & Hus & Hsm).
  { apply itypes_cases in Ht. clear -Ht Hx. destruct_or? Ht; subst t; cbn in *; lia. }
  unfold estimateSpaceNeeded, estimateSpaceNeeded_wide, decimal.
  assert (cast (if it_signed t then int64_t else uint64_t) x = x) as Hc.
  { apply cast_in_range; [destruct (it_signed t); by apply (bool_decide_unpack _)|]. destruct (it_signed t); cbn; lia. }
  destruct (it_signed t) eqn:Hs; rewrite Hc; cbn [it_signed int64_t uint64_t andb].
  - destruct (Z.ltb_spec x 0) as [Hneg|Hpos].
    + rewrite Z.abs_neq in Hd by lia. rewrite u64_small, Hd by lia. cbn [length mbind outcome_bind]. rewrite length_dec.
      destruct (Z.ltb_spec (it_bits t) 32) as [H32|H32].
      * rewrite (proj2 (Z.eqb_neq x (tmin int64_t))) by (cbn; lia). f_equal. lia.
      * rewrite (proj2 (Z.eqb_neq x (tmin t))) by naive_solver. f_equal. lia.
    + rewrite Z.abs_eq in Hd by lia. rewrite u64_small, Hd, length_dec by lia. by case_match.
  - rewrite Z.abs_eq in Hd by lia. rewrite u64_small, (proj2 (Z.ltb_ge x 0)), length_dec by lia. by case_match.
Qed.

(** C39. Round trip of every value of every integer type: what is appended is the
    decimal notation with no leading zero, whatever the local buffer held before,
    the estimate of the space it needs is exact except for the least value of a
    signed type of 32 or 64 bits (whose negation overflows), and parsing the notation,
    also among white space, gives the value back. *)
Theorem to_string_roundtrip t x garbage result sp sp' : t ∈ itypes → tmin t ≤ x ≤ tmax t → length garbage = 20%nat →
  spaces sp → spaces sp' →
  ∃ n : nat, is_len (Z.abs x) (Z.of_nat n) ∧
    toAppend t x garbage result = Ret (result ++ decimal x n) ∧
    to_string_integral t (sp ++ decimal x n ++ sp') = Ret x ∧
    (¬ (it_signed t = true ∧ 32 ≤ it_bits t ∧ x = tmin t) → estimateSpaceNeeded t x = Ret (Z.of_nat (length (decimal x n)))).
Proof.
  intros Ht Hx Hg Hsp Hsp'. destruct (toAppend_decimal t x garbage result Ht Hx Hg) as (n & Hn & Hd & Happ).
  exists n. split; [done|]. split; [done|]. split; [|by apply estimate_decimal].
  unfold to_string_integral. rewrite to_piece_decimal by done. cbn [mbind outcome_bind]. unfold enforceWhitespace.
  rewrite (proj2 (forallb_forall isspace sp')); [done|]. intros c Hc. by apply (proj1 (List.Forall_forall _ _) Hsp').
Qed.
Lemma to_string_roundtrip_witness : ∃ n : nat, is_len 2147483648 (Z.of_nat n) ∧
  toAppend int32_t (-2147483648) (replicate 20 7) [65] = Ret ([65] ++ decimal (-2147483648) n) ∧
  to_string_integral int32_t ([32] ++ decimal (-2147483648) n ++ []) = Ret (-2147483648) ∧
  (¬ (true = true ∧ 32 ≤ 32 ∧ -2147483648 = tmin int32_t) → estimateSpaceNeeded int32_t (-2147483648) = Ret (Z.of_nat (length (decimal (-2147483648) n)))).
Proof.
  apply (to_string_roundtrip int32_t (-2147483648) (replicate 20 7) [65] [32] []);
    [by apply (bool_decide_unpack _)|cbn; lia|done|by repeat constructor|constructor].
Defined.

End ConvProof.
