(* ===== verification/Gen.v ===== *)
(** gen/Core-inl.h, gen/Base.h and gen/Base-inl.h: generators.  A generator is an object
    with two members: [apply] passes its values to a handler until that returns
    false, and [foreach] passes all of them to a body.  Handlers are closures that
    change variables of their surroundings, so a handler here is a function that changes a
    state; the local variables that a member captures by reference are a second
    component of the state that its own closures see.  An exception keeps the state it was
    thrown in, since an operator upstream may catch it and go on.  Move
    semantics is not modelled: a value is passed as a copy. *)
From Stdlib Require Import Sorted.
From S2P Require Import Prelude Conv.

Module Gen.

(** ** Closures *)

(** The body of a closure that runs on the variables [S]. *)
Definition act (S A : Type) : Type := S → outcome A * S.

#[export] Instance act_ret S : MRet (act S) := fun A a s => (Ret a, s).
#[export] Instance act_bind S : MBind (act S) := fun A B f m s =>
  match m s with (Ret a, s') => f a s' | (Err e, s') => (Err e, s') end.

Definition raise {S A} (o : outcome A) : act S A := fun s => (o, s).

(** Run a block with local variables that start at [l]: its result and what they hold at its
    end.  The variables go out of scope when it throws. *)
Definition with_locals {L S A} (l : L) (m : act (L * S) A) : act S (A * L) := fun s =>
  match m (l, s) with
  | (Ret a, (l', s')) => (Ret (a, l'), s')
  | (Err e, (_, s')) => (Err e, s')
  end.

(** Inside such a block: call a closure of the surroundings, read and write the locals. *)
Definition outer {L S A} (m : act S A) : act (L * S) A := fun '(l, s) =>
  let '(r, s') := m s in (r, (l, s')).
Definition get_local {L S} : act (L * S) L := fun '(l, s) => (Ret l, (l, s)).
Definition set_local {L S} (l : L) : act (L * S) unit := fun '(_, s) => (Ret tt, (l, s)).

(** ** GenImpl *)

Record Gen (A : Type) := mk_gen {
  apply : ∀ S : Type, (A → act S bool) → act S bool;
  foreach : ∀ S : Type, (A → act S unit) → act S unit
}.
Arguments apply {A} _ {S} _ _.
Arguments foreach {A} _ {S} _ _.
Arguments mk_gen {A} _ _.

(** GenImpl::foreach, for the classes that do not define their own. *)
Definition GenImpl_foreach {A} (self_apply : ∀ S : Type, (A → act S bool) → act S bool)
    (S : Type) (body : A → act S unit) : act S unit :=
  _ ← self_apply S (fun value => _ ← body value; mret true);
  mret tt.
Definition with_foreach {A} (self_apply : ∀ S : Type, (A → act S bool) → act S bool) : Gen A :=
  mk_gen self_apply (GenImpl_foreach self_apply).

(** Chain, that operator+ makes. *)
Definition Chain {A} (first_ second_ : Gen A) : Gen A := {|
  apply S handler :=
    c ← apply first_ handler;
    if (c : bool) then apply second_ handler else mret false;
  foreach S body :=
    _ ← foreach first_ body;
    foreach second_ body
|}.

(** ** Sources *)

(** The loops of the sources over a container: of ReferencedSource, CopiedSource, RangeSource
    and Group, whose members read the same. *)
Fixpoint container_apply {A S} (values : list A) (handler : A → act S bool) : act S bool :=
  match values with
  | [] => mret true
  | value :: values =>
      c ← handler value;
      if (c : bool) then container_apply values handler else mret false
  end.
Fixpoint container_foreach {A S} (values : list A) (body : A → act S unit) : act S unit :=
  match values with
  | [] => mret tt
  | value :: values => _ ← body value; container_foreach values body
  end.

Definition ReferencedSource {A} (container_ : list A) : Gen A := {|
  apply S handler := container_apply container_ handler;
  foreach S body := container_foreach container_ body
|}.
Definition CopiedSource {A} (copy_ : list A) : Gen A := {|
  apply S handler := container_apply copy_ handler;
  foreach S body := container_foreach copy_ body
|}.
Definition RangeSource {A} (range_ : list A) : Gen A := {|
  apply S handler := container_apply range_ handler;
  foreach S body := container_foreach range_ body
|}.

(** The implementations of Sequence: when to go on and how to step.  An int or a wider signed
    integer must not leave its range; a narrower one is converted back from int. *)
Record SequenceImpl (V : Type) := mk_impl { test : V → bool; step : V → outcome V }.
Arguments test {V} _ _.
Arguments step {V} _ _.

Definition plus (t : Conv.itype) (x y : Z) : outcome Z :=
  if Conv.it_signed t && (32 <=? Conv.it_bits t)
  then _ ← check ((Conv.tmin t <=? x + y) && (x + y <=? Conv.tmax t)) Undefined; Ret (x + y)
  else Ret (Conv.cast t (x + y)).

Arguments plus : simpl never.

Definition RangeImpl (t : Conv.itype) (end_ : Z) : SequenceImpl Z :=
  {| test current := current <? end_; step current := plus t current 1 |}.
Definition RangeWithStepImpl (t : Conv.itype) (end_ step_ : Z) : SequenceImpl Z :=
  {| test current := current <? end_; step current := plus t current step_ |}.
Definition SeqImpl (t : Conv.itype) (end_ : Z) : SequenceImpl Z :=
  {| test current := current <=? end_; step current := plus t current 1 |}.
Definition SeqWithStepImpl (t : Conv.itype) (end_ step_ : Z) : SequenceImpl Z :=
  {| test current := current <=? end_; step current := plus t current step_ |}.
Definition InfiniteImpl (t : Conv.itype) : SequenceImpl Z :=
  {| test current := true; step current := plus t current 1 |}.

(** The loop has no bound in the code: [fuel] is how many values it may visit. *)
Fixpoint Sequence_apply {V S} (fuel : nat) (impl_ : SequenceImpl V) (current : V)
    (handler : V → act S bool) : act S bool :=
  if test impl_ current then
    match fuel with
    | O => raise (Err OutOfFuel)
    | Datatypes.S fuel =>
        c ← handler current;
        if (c : bool) then
          next ← raise (step impl_ current);
          Sequence_apply fuel impl_ next handler
        else mret false
    end
  else mret true.
Fixpoint Sequence_foreach {V S} (fuel : nat) (impl_ : SequenceImpl V) (current : V)
    (body : V → act S unit) : act S unit :=
  if test impl_ current then
    match fuel with
    | O => raise (Err OutOfFuel)
    | Datatypes.S fuel =>
        _ ← body current;
        next ← raise (step impl_ current);
        Sequence_foreach fuel impl_ next body
    end
  else mret tt.
Definition Sequence {V} (fuel : nat) (start_ : V) (impl_ : SequenceImpl V) : Gen V := {|
  apply S handler := Sequence_apply fuel impl_ start_ handler;
  foreach S body := Sequence_foreach fuel impl_ start_ body
|}.

(** A user-defined source: a function that calls its argument on some values in turn and then
    returns or throws.  [None] is the exception Break on its way through that function, which
    cannot name its type and so does not catch it. *)
Record YieldSource (A : Type) := mk_yield { yielded : list A; finish : outcome unit }.
Arguments yielded {A} _.
Arguments finish {A} _.
Arguments mk_yield {A} _ _.

Fixpoint run_source {A S} (values : list A) (finish : outcome unit)
    (body : A → act S (option unit)) : act S (option unit) :=
  match values with
  | [] => u ← raise finish; mret (Some u)
  | value :: values =>
      r ← body value;
      match r with Some _ => run_source values finish body | None => mret None end
  end.
Definition Yield {A} (source_ : YieldSource A) : Gen A := {|
  apply S handler :=
    let body value := c ← handler value; if (c : bool) then mret (Some tt) else mret None in
    r ← run_source (yielded source_) (finish source_) body;
    match r with Some _ => mret true | None => mret false end;
  foreach S body :=
    _ ← run_source (yielded source_) (finish source_) (fun value => u ← body value; mret (Some u));
    mret tt
|}.

Definition Empty {A} : Gen A := {|
  apply S handler := mret true;
  foreach S body := mret tt
|}.
Definition SingleReference {A} (ptr_ : A) : Gen A := {|
  apply S handler := handler ptr_;
  foreach S body := body ptr_
|}.
Definition SingleCopy {A} (value_ : A) : Gen A := {|
  apply S handler := handler value_;
  foreach S body := body value_
|}.

(** ** Operators *)

Definition Map {A B} (pred_ : A → outcome B) (source_ : Gen A) : Gen B := {|
  apply S handler := apply source_ (fun value => v ← raise (pred_ value); handler v);
  foreach S body := foreach source_ (fun value => v ← raise (pred_ value); body v)
|}.

Definition Filter {A} (pred_ : A → outcome bool) (source_ : Gen A) : Gen A := {|
  apply S handler := apply source_ (fun value =>
    b ← raise (pred_ value);
    if (b : bool) then handler value else mret true);
  foreach S body := foreach source_ (fun value =>
    b ← raise (pred_ value);
    if (b : bool) then body value else mret tt)
|}.

Definition Until {A} (pred_ : A → outcome bool) (source_ : Gen A) : Gen A :=
  with_foreach (fun S handler =>
    '(_, cancelled) ← with_locals false (apply source_ (fun value =>
      b ← raise (pred_ value);
      if (b : bool) then mret false else
      c ← outer (handler value);
      if negb c then _ ← set_local true; mret false
      else mret true));
    mret (negb cancelled)).

(** [return --n] converts a size_t to bool. *)
Definition Take {A} (count_ : Z) (source_ : Gen A) : Gen A :=
  with_foreach (fun S handler =>
    if count_ =? 0 then mret false else
    '(_, (_, cancelled)) ← with_locals (count_, false) (apply source_ (fun value =>
      c ← outer (handler value);
      '(n, cancelled) ← get_local;
      if negb c then _ ← set_local (n, true); mret false
      else
        let n := u64 (n - 1) in
        _ ← set_local (n, cancelled);
        mret (negb (n =? 0))));
    mret (negb cancelled)).

(** The closures that Stride passes to its source. *)
Definition Stride_handler {A S} (stride_ : Z) (handler : A → act S bool) (value : A) : act (Z * S) bool :=
  distance ← get_local;
  let distance := u64 (distance + 1) in
  _ ← set_local distance;
  if stride_ <=? distance then
    c ← outer (handler value);
    if negb c then mret false else _ ← set_local 0; mret true
  else mret true.
Definition Stride_body {A S} (stride_ : Z) (body : A → act S unit) (value : A) : act (Z * S) unit :=
  distance ← get_local;
  let distance := u64 (distance + 1) in
  _ ← set_local distance;
  if stride_ <=? distance then _ ← outer (body value); set_local 0
  else mret tt.

(** The constructor refuses 0. *)
Definition Stride {A} (stride_ : Z) (source_ : Gen A) : outcome (Gen A) :=
  if stride_ =? 0 then Err (Thrown "stride must not be 0") else
  Ret {|
    apply S handler :=
      '(c, _) ← with_locals stride_ (apply source_ (Stride_handler stride_ handler));
      mret c;
    foreach S body :=
      _ ← with_locals stride_ (foreach source_ (Stride_body stride_ body));
      mret tt
  |}.

Definition Skip_handler {A S} (count_ : Z) (handler : A → act S bool) (value : A) : act (Z * S) bool :=
  n ← get_local;
  if n <? count_ then _ ← set_local (u64 (n + 1)); mret true else outer (handler value).
Definition Skip_body {A S} (count_ : Z) (body : A → act S unit) (value : A) : act (Z * S) unit :=
  n ← get_local;
  if n <? count_ then set_local (u64 (n + 1)) else outer (body value).
Definition Skip {A} (count_ : Z) (source_ : Gen A) : Gen A := {|
  foreach S body :=
    if count_ =? 0 then foreach source_ body else
    _ ← with_locals 0 (foreach source_ (Skip_body count_ body));
    mret tt;
  apply S handler :=
    if count_ =? 0 then apply source_ handler else
    '(c, _) ← with_locals 0 (apply source_ (Skip_handler count_ handler));
    mret c
|}.

(** The sink Collect with vectors, that Order uses. *)
Definition Collect {A S} (source_ : Gen A) : act S (list A) :=
  '(_, collection) ← with_locals [] (foreach source_ (fun v =>
    collection ← get_local; set_local (collection ++ [v])));
  mret collection.

(** Reservoir sampling; [rng_ i] is the i-th number that the generator of random numbers gives
    during the call. *)
Definition Sample_body {A S} (count_ : Z) (rng_ : nat → Z) (value : A) :
    act ((list A * Z * nat) * S) unit :=
  '(v, n, drawn) ← get_local;
  if Z.of_nat (length v) <? count_ then set_local (v ++ [value], u64 (n + 1), drawn)
  else
    let index := rng_ drawn mod n in
    v ← (if index <? Z.of_nat (length v) then raise (vset v index value) else mret v);
    set_local (v, u64 (n + 1), Datatypes.S drawn).
(** [lim] is what a std::vector of the values can hold. *)
Definition Sample {A} (lim : limits) (count_ : Z) (rng_ : nat → Z) (source_ : Gen A) : Gen A :=
  with_foreach (fun S handler =>
    if count_ =? 0 then mret false else
    _ ← raise (container_reserve lim count_);
    '(_, (v, _, _)) ← with_locals ([], 1, O) (foreach source_ (Sample_body count_ rng_));
    container_apply v handler).

(** std::sort, std::make_heap and std::pop_heap, where the order of equal elements is not
    specified: laws for a comparison that is a strict weak ordering. *)
Definition strict_weak {A} (lt : A → A → bool) : Prop :=
  (∀ a, lt a a = false) ∧
  (∀ a b c, lt a b = true → lt b c = true → lt a c = true) ∧
  (∀ a b c, lt b a = false → lt c b = false → lt c a = false).

Class StdAlgorithms := {
  sort : ∀ {A : Type}, (A → A → bool) → list A → list A;
  sort_permutation {A} (lt : A → A → bool) l : strict_weak lt → sort lt l ≡ₚ l;
  sort_sorted {A} (lt : A → A → bool) l :
    strict_weak lt → StronglySorted (fun a b => lt b a = false) (sort lt l);
  is_heap : ∀ {A : Type}, (A → A → bool) → list A → Prop;
  make_heap : ∀ {A : Type}, (A → A → bool) → list A → list A;
  make_heap_permutation {A} (lt : A → A → bool) l : strict_weak lt → make_heap lt l ≡ₚ l;
  make_heap_heap {A} (lt : A → A → bool) l : strict_weak lt → is_heap lt (make_heap lt l);
  pop_heap : ∀ {A : Type}, (A → A → bool) → list A → list A;
  pop_heap_permutation {A} (lt : A → A → bool) l : strict_weak lt → is_heap lt l → pop_heap lt l ≡ₚ l;
  pop_heap_back {A} (lt : A → A → bool) l h a :
    strict_weak lt → is_heap lt l → pop_heap lt l = h ++ [a] →
    is_heap lt h ∧ ∀ b, b ∈ h → lt a b = false
}.

(** Comparing keys is a strict weak ordering of the values. *)
Lemma strict_weak_on {A K} (sel : A → K) (lt : K → K → bool) : strict_weak lt → strict_weak (fun a b => lt (sel a) (sel b)).
Proof. intros (H1 & H2 & H3). split_and!; eauto. Qed.
Lemma strict_weak_flip {A} (lt : A → A → bool) : strict_weak lt → strict_weak (fun a b => lt b a).
Proof. intros (H1 & H2 & H3). split_and!; eauto. Qed.

(** The order in which an unordered container is visited: its elements are kept in the order of
    their insertion here. *)
Class Iteration := {
  iterate : ∀ {A : Type}, list A → list A;
  iterate_permutation {A} (l : list A) : iterate l ≡ₚ l
}.

Section Ordering.
Context `{StdAlgorithms} {A K : Type} (selector_ : A → K) (comparer_ : K → K → bool).

Definition Order_asVector {S} (source_ : Gen A) : act S (list A) :=
  let comparer a b := comparer_ (selector_ a) (selector_ b) in
  vals ← Collect source_;
  mret (sort comparer vals).

(** while (!heap.empty()): each turn takes one element away. *)
Fixpoint Order_loop {S} (fuel : nat) (heap : list A) (handler : A → act S bool) : act S bool :=
  let comparer a b := comparer_ (selector_ b) (selector_ a) in
  match fuel with
  | O => raise (Err OutOfFuel)
  | Datatypes.S fuel =>
      match heap with
      | [] => mret true
      | _ =>
          let heap := pop_heap comparer heap in
          back ← raise (of_option Undefined (list.last heap));
          c ← handler back;
          if negb c then mret false
          else Order_loop fuel (removelast heap) handler
      end
  end.

Definition Order (source_ : Gen A) : Gen A := {|
  foreach S body := vals ← Order_asVector source_; container_foreach vals body;
  apply S handler :=
    let comparer a b := comparer_ (selector_ b) (selector_ a) in
    vals ← Collect source_;
    let heap := make_heap comparer vals in
    Order_loop (Datatypes.S (length heap)) heap handler
|}.
End Ordering.

(** groups[key].push_back(value). *)
Fixpoint push_group {K A} `{EqDecision K} (key : K) (value : A) (groups : list (K * list A)) :=
  match groups with
  | [] => [(key, [value])]
  | (k, group) :: groups =>
      if decide (k = key) then (k, group ++ [value]) :: groups
      else (k, group) :: push_group key value groups
  end.

(** A Group is its key and its values. *)
Definition GroupBy {A K} `{Iteration} `{EqDecision K} (selector_ : A → outcome K)
    (source_ : Gen A) : Gen (K * list A) :=
  with_foreach (fun S handler =>
    '(_, groups) ← with_locals [] (foreach source_ (fun value =>
      groups ← get_local;
      key ← raise (selector_ value);
      set_local (push_group key value groups)));
    container_apply (iterate groups) handler).

Definition Distinct_handler {A K S} `{EqDecision K} (selector_ : A → outcome K)
    (handler : A → act S bool) (value : A) : act (list K * S) bool :=
  keysSeen ← get_local;
  key ← raise (selector_ value);
  if decide (key ∈ keysSeen) then mret true
  else _ ← set_local (key :: keysSeen); outer (handler value).
Definition Distinct_body {A K S} `{EqDecision K} (selector_ : A → outcome K)
    (body : A → act S unit) (value : A) : act (list K * S) unit :=
  keysSeen ← get_local;
  key ← raise (selector_ value);
  if decide (key ∈ keysSeen) then mret tt
  else _ ← set_local (key :: keysSeen); outer (body value).
Definition Distinct {A K} `{EqDecision K} (selector_ : A → outcome K) (source_ : Gen A) : Gen A := {|
  foreach S body :=
    _ ← with_locals [] (foreach source_ (Distinct_body selector_ body));
    mret tt;
  apply S handler :=
    '(c, _) ← with_locals [] (apply source_ (Distinct_handler selector_ handler));
    mret c
|}.

Definition Batch_handler {A S} (batchSize_ : Z) (handler : list A → act S bool) (value : A) :
    act (list A * S) bool :=
  batch_ ← get_local;
  let batch_ := batch_ ++ [value] in
  _ ← set_local batch_;
  if Z.of_nat (length batch_) =? batchSize_ then
    needMore ← outer (handler batch_);
    _ ← set_local [];
    mret needMore
  else mret true.
(** The constructor refuses 0; [lim] is what a std::vector of the values can hold. *)
Definition Batch {A} (lim : limits) (batchSize_ : Z) (source_ : Gen A) : outcome (Gen (list A)) :=
  if batchSize_ =? 0 then Err (Thrown "Batch size must be non-zero!") else
  Ret (with_foreach (fun S handler =>
    _ ← raise (container_reserve lim batchSize_);
    '(shouldContinue, batch_) ← with_locals [] (apply source_ (Batch_handler batchSize_ handler));
    if shouldContinue && negb (match batch_ with [] => true | _ => false end) then handler batch_
    else mret shouldContinue)).

Definition Concat {A} (source_ : Gen (Gen A)) : Gen A := {|
  apply S handler := apply source_ (fun inner => apply inner handler);
  foreach S body := foreach source_ (fun inner => foreach inner body)
|}.

Definition RangeConcat {A} (source_ : Gen (list A)) : Gen A := {|
  foreach S body := foreach source_ (fun range => container_foreach range body);
  apply S handler := apply source_ (fun range => container_apply range handler)
|}.

(** The exceptions that the catch clause takes are those of the type [Exception], a set of
    messages here; what handler_ may do is answer or throw. *)
Definition GuardImpl {A} (Exception : string → bool) (handler_ : string → A → outcome bool)
    (source_ : Gen A) : Gen A :=
  with_foreach (fun S handler =>
    apply source_ (fun value s =>
      match handler value s with
      | (Ret _, s') => (Ret true, s')
      | (Err (Thrown e), s') =>
          if Exception e then raise (handler_ e value) s' else (Err (Thrown e), s')
      | (Err e, s') => (Err e, s')
      end)).

(** A pointer is null or leads to a value. *)
Definition Dereference {A} (source_ : Gen (option A)) : Gen A := {|
  foreach S body := foreach source_ (fun value =>
    match value with Some v => body v | None => mret tt end);
  apply S handler := apply source_ (fun value =>
    match value with Some v => handler v | None => mret true end)
|}.

(** The address of each value. *)
Definition Indirect {A} (source_ : Gen A) : Gen (option A) := {|
  foreach S body := foreach source_ (fun value => body (Some value));
  apply S handler := apply source_ (fun value => handler (Some value))
|}.

(** handler2, that keeps the answer in [cont]. *)
Definition Cycle_handler {A S} (handler : A → act S bool) (value : A) : act (bool * S) bool :=
  cont ← outer (handler value);
  _ ← set_local cont;
  mret cont.
(** [None] as the limit is Cycle<true>.  The loop has no bound then, nor has it for a
    negative limit: [fuel] is how many rounds it may make. *)
Fixpoint Cycle_loop {A S} (fuel : nat) (limit_ : option Z) (count : Z) (source_ : Gen A)
    (handler : A → act S bool) : act S bool :=
  if match limit_ with None => true | Some limit => negb (count =? limit) end then
    match fuel with
    | O => raise (Err OutOfFuel)
    | Datatypes.S fuel =>
        '(_, cont) ← with_locals false (apply source_ (Cycle_handler handler));
        if negb cont then mret false else
        count ← raise (plus Conv.int64_t count 1);
        Cycle_loop fuel limit_ count source_ handler
    end
  else mret true.
Definition Cycle {A} (fuel : nat) (limit_ : option Z) (source_ : Gen A) : Gen A :=
  with_foreach (fun S handler => Cycle_loop fuel limit_ 0 source_ handler).

(** Interleave and Zip of gen/Combine-inl.h: the iterator into the container is the rest of it. *)
Definition Interleave_handler {A S} (handler : A → act S bool) (value : A) : act (list A * S) bool :=
  iter ← get_local;
  match iter with
  | [] => mret false
  | x :: rest =>
      c ← outer (handler value);
      if negb c then mret false else
      c ← outer (handler x);
      if negb c then mret false else
      _ ← set_local rest; mret true
  end.
Definition Interleave {A} (container_ : list A) (source_ : Gen A) : Gen A :=
  with_foreach (fun S handler =>
    '(c, _) ← with_locals container_ (apply source_ (Interleave_handler handler));
    mret c).
Definition Zip_handler {A B S} (handler : A * B → act S bool) (value : A) : act (list B * S) bool :=
  iter ← get_local;
  match iter with
  | [] => mret false
  | x :: rest =>
      c ← outer (handler (value, x));
      if negb c then mret false else _ ← set_local rest; mret true
  end.
Definition Zip {A B} (container_ : list B) (source_ : Gen A) : Gen (A * B) :=
  with_foreach (fun S handler =>
    '(c, _) ← with_locals container_ (apply source_ (Zip_handler handler));
    mret c).

(** VirtualGen forwards both members to what it wraps. *)
Definition VirtualGen {A} (wrapped_ : Gen A) : Gen A := {|
  apply S handler := apply wrapped_ handler;
  foreach S body := foreach wrapped_ body
|}.

(** ** Sinks *)

Section Sinks.
Context {A S : Type}.

Definition FoldLeft {B} (seed_ : B) (fold_ : B → A → outcome B) (source : Gen A) : act S B :=
  '(_, accum) ← with_locals seed_ (foreach source (fun v =>
    accum ← get_local;
    accum ← raise (fold_ accum v);
    set_local accum));
  mret accum.

Definition First (source : Gen A) : act S (option A) :=
  '(_, accum) ← with_locals None (apply source (fun v =>
    _ ← set_local (Some v); mret false));
  mret accum.

Definition IsEmpty (emptyResult : bool) (source : Gen A) : act S bool :=
  '(_, ans) ← with_locals emptyResult (apply source (fun v =>
    _ ← set_local (negb emptyResult); mret false));
  mret ans.

(** any and all: Filter composed with IsEmpty. *)
Definition any (pred : A → outcome bool) (source : Gen A) : act S bool :=
  IsEmpty false (Filter pred source).
Definition Negate (pred : A → outcome bool) (arg : A) : outcome bool := b ← pred arg; Ret (negb b).
Definition all (pred : A → outcome bool) (source : Gen A) : act S bool :=
  IsEmpty true (Filter (Negate pred) source).

Definition Reduce (reducer_ : A → A → outcome A) (source : Gen A) : act S (option A) :=
  '(_, accum) ← with_locals None (foreach source (fun v =>
    accum ← get_local;
    match accum with
    | Some a => r ← raise (reducer_ a v); set_local (Some r)
    | None => set_local (Some v)
    end));
  mret accum.

Definition Count (source : Gen A) : act S Z :=
  FoldLeft 0 (fun accum v => Ret (u64 (accum + 1))) source.

Definition Contains (eqb : A → A → bool) (needle_ : A) (source : Gen A) : act S bool :=
  c ← apply source (fun value => mret (negb (eqb needle_ value)));
  mret (negb c).

Definition Min {K} (selector_ : A → outcome K) (comparer_ : K → K → bool) (source : Gen A) :
    act S (option A) :=
  '(_, (_, min)) ← with_locals (None, None) (foreach source (fun v =>
    '(minKey, min) ← get_local;
    key ← raise (selector_ v);
    if match minKey with None => true | Some mk => comparer_ key mk end
    then set_local (Some key, Some v) else mret tt));
  mret min.

(** Appending to a vector of the caller. *)
Definition Append (collection_ : list A) (source : Gen A) : act S (list A) :=
  '(_, collection) ← with_locals collection_ (foreach source (fun v =>
    collection ← get_local; set_local (collection ++ [v])));
  mret collection.
End Sinks.

(** Sum of integers of one type. *)
Definition Sum {S} (t : Conv.itype) (source : Gen Z) : act S Z :=
  FoldLeft 0 (fun accum v => plus t accum v) source.

Definition UnwrapOr {A} (opt : option A) (fallback : A) : A :=
  match opt with Some p => p | None => fallback end.
Definition Unwrap {A} (opt : option A) : outcome A :=
  match opt with Some p => Ret p | None => Err (Thrown "Empty Optional cannot be unwrapped") end.

End Gen.
