(* ===== verification/GenProof.v ===== *)
(** Generators as sequences.  The values that a generator passes on and the way it ends form a
    [trace]; [feed] and [each] run a handler or a body over one.  For every class of
    generators: the traces of the source determine the traces of the operator, by a function on
    lists. *)
From Stdlib Require Import Sorted.
From S2P Require Import Prelude Conv Gen.

Module GenProof.
Import Gen.

(** ** Traces *)

(** The values, and what the member returns or throws after the last of them. *)
Notation trace A X := (list A * outcome X)%type.

Fixpoint feed {A S} (l : list A) (e : outcome bool) (h : A → act S bool) : act S bool :=
  match l with
  | [] => raise e
  | a :: l => c ← h a; if (c : bool) then feed l e h else mret false
  end.
Fixpoint each {A S} (l : list A) (e : outcome unit) (b : A → act S unit) : act S unit :=
  match l with
  | [] => raise e
  | a :: l => _ ← b a; each l e b
  end.

(** A member that first reserves room for [n] values. *)
Definition reserved {A X} (lim : limits) (n : Z) (t : trace A X) : trace A X :=
  match container_reserve lim n with Ret _ => t | Err x => ([], Err x) end.

Definition Applies {A} (g : Gen A) (t : trace A bool) : Prop :=
  ∀ S (h : A → act S bool) s, apply g h s = feed t.1 t.2 h s.
Definition Visits {A} (g : Gen A) (t : trace A unit) : Prop :=
  ∀ S (b : A → act S unit) s, foreach g b s = each t.1 t.2 b s.

(** What an operator that does not look at the answer of its source makes of an ending. *)
Definition ended {X} (e : outcome X) : outcome bool := match e with Ret _ => Ret true | Err x => Err x end.
Definition void {X} (e : outcome X) : outcome unit := match e with Ret _ => Ret tt | Err x => Err x end.

Create HintDb gen.
#[export] Hint Unfold mbind mret act_bind act_ret raise with_locals outer get_local set_local : gen.
Ltac act := cbn; autounfold with gen; cbn.

Section Basics.
Context {A B S : Type}.

Lemma feed_ext (l : list A) e (h h' : A → act S bool) s :
  (∀ a s, h a s = h' a s) → feed l e h s = feed l e h' s.
Proof.
  intros E. revert s. induction l as [|a l IH]; intros s; [done|]. act. rewrite E.
  destruct (h' a s) as [[[]|] s']; auto.
Qed.

Lemma each_ext (l : list A) e (b b' : A → act S unit) s :
  (∀ a s, b a s = b' a s) → each l e b s = each l e b' s.
Proof.
  intros E. revert s. induction l as [|a l IH]; intros s; [done|]. act. rewrite E.
  destruct (b' a s) as [[] s']; auto.
Qed.

Lemma feed_app (l k : list A) e (h : A → act S bool) s :
  feed (l ++ k) e h s = (c ← feed l (Ret true) h; if (c : bool) then feed k e h else mret false) s.
Proof.
  revert s. induction l as [|a l IH]; intros s; act; [done|].
  destruct (h a s) as [[[]|] s']; auto.
Qed.

Lemma feed_end (l : list A) e (h : A → act S bool) s :
  feed l e h s = (c ← feed l (Ret true) h; if (c : bool) then raise e else mret false) s.
Proof. rewrite <- (app_nil_r l) at 1. by rewrite feed_app. Qed.

Lemma each_app (l k : list A) e (b : A → act S unit) s :
  each (l ++ k) e b s = (_ ← each l (Ret tt) b; each k e b) s.
Proof.
  revert s. induction l as [|a l IH]; intros s; act; [done|].
  destruct (b a s) as [[] s']; auto.
Qed.

Lemma each_end (l : list A) e (b : A → act S unit) s :
  each l e b s = (_ ← each l (Ret tt) b; raise e) s.
Proof. rewrite <- (app_nil_r l) at 1. by rewrite each_app. Qed.

Lemma container_apply_feed (l : list A) (h : A → act S bool) s : container_apply l h s = feed l (Ret true) h s.
Proof.
  revert s. induction l as [|a l IH]; intros s; act; [done|].
  destruct (h a s) as [[[]|] s']; auto.
Qed.
Lemma container_foreach_each (l : list A) (b : A → act S unit) s : container_foreach l b s = each l (Ret tt) b s.
Proof.
  revert s. induction l as [|a l IH]; intros s; act; [done|].
  destruct (b a s) as [[] s']; auto.
Qed.

Lemma feed_each (l : list A) e (b : A → act S unit) s :
  (_ ← feed l e (fun a => _ ← b a; mret true); mret tt : act S unit) s = each l (void e) b s.
Proof.
  revert s. induction l as [|a l IH]; intros s; act; [by destruct e|].
  destruct (b a s) as [[] s']; act; [apply IH|done].
Qed.
End Basics.

(** The inherited foreach visits what apply passes on. *)
Lemma with_foreach_visits {A} (f : ∀ S : Type, (A → act S bool) → act S bool) t :
  Applies (with_foreach f) t → Visits (with_foreach f) (t.1, void t.2).
Proof.
  intros H S b s. cbn. unfold GenImpl_foreach. rewrite <- feed_each.
  act. specialize (H S). cbn in H. by rewrite H.
Qed.

(** ** What each class does to the traces *)

Section References.
Context {A B : Type}.

Fixpoint mapT {X} (f : A → outcome B) (l : list A) (e : outcome X) : trace B X :=
  match l with
  | [] => ([], e)
  | a :: l => match f a with
              | Ret b => let t := mapT f l e in (b :: t.1, t.2)
              | Err x => ([], Err x)
              end
  end.

Fixpoint filterT {X} (p : A → outcome bool) (l : list A) (e : outcome X) : trace A X :=
  match l with
  | [] => ([], e)
  | a :: l => match p a with
              | Ret true => let t := filterT p l e in (a :: t.1, t.2)
              | Ret false => filterT p l e
              | Err x => ([], Err x)
              end
  end.

Fixpoint untilT (p : A → outcome bool) (l : list A) (e : outcome bool) : trace A bool :=
  match l with
  | [] => ([], ended e)
  | a :: l => match p a with
              | Ret true => ([], Ret true)
              | Ret false => let t := untilT p l e in (a :: t.1, t.2)
              | Err x => ([], Err x)
              end
  end.

Definition takeT (n : nat) (l : list A) (e : outcome bool) : trace A bool :=
  match n with
  | O => ([], Ret false)
  | _ => (take n l, if decide (n ≤ length l)%nat then Ret true else ended e)
  end.

(** One value of every [n]; [skip] are left out first. *)
Fixpoint every (n skip : nat) (l : list A) : list A :=
  match l, skip with
  | [], _ => []
  | a :: l, O => a :: every n (n - 1) l
  | _ :: l, S skip => every n skip l
  end.

Fixpoint distinctT {K X} `{EqDecision K} (f : A → outcome K) (seen : list K) (l : list A) (e : outcome X) : trace A X :=
  match l with
  | [] => ([], e)
  | a :: l => match f a with
              | Ret k => if decide (k ∈ seen) then distinctT f seen l e
                         else let t := distinctT f (k :: seen) l e in (a :: t.1, t.2)
              | Err x => ([], Err x)
              end
  end.

(** Full batches, and at the end what is left. *)
Fixpoint batchT (n : nat) (batch l : list A) (e : outcome bool) : trace (list A) bool :=
  match l with
  | [] => (match e, batch with Ret true, _ :: _ => [batch] | _, _ => [] end, e)
  | a :: l => if decide (length (batch ++ [a]) = n) then let t := batchT n [] l e in ((batch ++ [a]) :: t.1, t.2)
              else batchT n (batch ++ [a]) l e
  end.

Fixpoint concatT {X} (goes : X → bool) (k : A → outcome (trace B X)) (l : list A) (e : outcome X) : trace B X :=
  match l with
  | [] => ([], e)
  | a :: l => match k a with
              | Ret (l', Ret x) => if goes x then let t := concatT goes k l e in (l' ++ t.1, t.2) else (l', Ret x)
              | Ret (l', Err x) => (l', Err x)
              | Err x => ([], Err x)
              end
  end.

Fixpoint interleaveT (c l : list A) (e : outcome bool) : trace A bool :=
  match l, c with
  | [], _ => ([], e)
  | _ :: _, [] => ([], Ret false)
  | a :: l, x :: c => let t := interleaveT c l e in (a :: x :: t.1, t.2)
  end.
Fixpoint zipT (c : list B) (l : list A) (e : outcome bool) : trace (A * B) bool :=
  match l, c with
  | [], _ => ([], e)
  | _ :: _, [] => ([], Ret false)
  | a :: l, x :: c => let t := zipT c l e in ((a, x) :: t.1, t.2)
  end.

Fixpoint seqT {X} (x : X) (fuel : nat) (impl : SequenceImpl A) (current : A) : trace A X :=
  if test impl current then
    match fuel with
    | O => ([], Err OutOfFuel)
    | S fuel => match step impl current with
                | Ret next => let t := seqT x fuel impl next in (current :: t.1, t.2)
                | Err y => ([current], Err y)
                end
    end
  else ([], Ret x).

(** Rounds of a cycle: one after the other, until the limit or out of fuel; an empty round, or a
    round that throws, is the last. *)
Fixpoint cycleT (fuel : nat) (limit : option Z) (count : Z) (l : list A) (e : outcome bool) : trace A bool :=
  if match limit with None => true | Some limit => negb (count =? limit) end then
    match fuel with
    | O => ([], Err OutOfFuel)
    | S fuel => match l, e with
                | _, Err x => (l, Err x)
                | [], Ret _ => ([], Ret false)
                | _, Ret _ => match plus Conv.int64_t count 1 with
                              | Ret count => let t := cycleT fuel limit count l e in (l ++ t.1, t.2)
                              | Err x => (l, Err x)
                              end
                end
    end
  else ([], Ret true).
End References.

(** ** The sources *)

Section Sources.
Context {A : Type}.

Lemma Referenced_traces (l : list A) : Applies (ReferencedSource l) (l, Ret true) ∧ Visits (ReferencedSource l) (l, Ret tt).
Proof. split; intros S h s; [apply container_apply_feed|apply container_foreach_each]. Qed.
Lemma Copied_traces (l : list A) : Applies (CopiedSource l) (l, Ret true) ∧ Visits (CopiedSource l) (l, Ret tt).
Proof. split; intros S h s; [apply container_apply_feed|apply container_foreach_each]. Qed.
Lemma Range_traces (l : list A) : Applies (RangeSource l) (l, Ret true) ∧ Visits (RangeSource l) (l, Ret tt).
Proof. split; intros S h s; [apply container_apply_feed|apply container_foreach_each]. Qed.

Lemma Sequence_traces fuel (start : A) impl :
  Applies (Sequence fuel start impl) (seqT true fuel impl start) ∧
  Visits (Sequence fuel start impl) (seqT tt fuel impl start).
Proof.
  split; intros S h s; cbn; revert start s; induction fuel as [|fuel IH]; intros start s; cbn;
    destruct (test impl start); try done; act.
  - destruct (step impl start) eqn:E; act; destruct (h start s) as [[[]|] s']; act; auto.
  - destruct (step impl start) eqn:E; act; destruct (h start s) as [[] s']; act; auto.
Qed.

Lemma Yield_traces (y : YieldSource A) :
  Applies (Yield y) (yielded y, ended (finish y)) ∧ Visits (Yield y) (yielded y, finish y).
Proof.
  split; intros S h s; cbn; generalize (yielded y) as l; intros l; revert s; induction l as [|a l IH];
    intros s; act; try by destruct (finish y) as [[]|].
  - destruct (h a s) as [[[]|] s']; act; [apply IH|done|done].
  - destruct (h a s) as [[] s']; act; [apply IH|done].
Qed.

Lemma Empty_traces : Applies (@Empty A) ([], Ret true) ∧ Visits (@Empty A) ([], Ret tt).
Proof. done. Qed.

Lemma Single_traces (a : A) : Applies (SingleReference a) ([a], Ret true) ∧ Visits (SingleReference a) ([a], Ret tt).
Proof. split; intros S h s; act; [by destruct (h a s) as [[[]|] s']|by destruct (h a s) as [[[]|] s']]. Qed.
Lemma SingleCopy_traces (a : A) : Applies (SingleCopy a) ([a], Ret true) ∧ Visits (SingleCopy a) ([a], Ret tt).
Proof. split; intros S h s; act; [by destruct (h a s) as [[[]|] s']|by destruct (h a s) as [[[]|] s']]. Qed.
End Sources.

(** ** The operators *)

(** The closures with local variables, run over a trace. *)
Section Locals.
Context {A T : Type}.

(** Forget the locals at the end of a block. *)
Definition dropped {L X} (r : outcome X * (L * T)) : outcome X * T := (r.1, r.2.2).

Lemma with_locals_dropped {L X Y} (l : L) (m : act (L * T) X) (k : X → act T Y) s :
  ('(x, _) ← with_locals l m; k x) s = (let '(r, s) := dropped (m (l, s)) in
    match r with Ret x => k x s | Err e => (Err e, s) end).
Proof. unfold mbind, act_bind, with_locals, dropped. by destruct (m (l, s)) as [[] []]. Qed.

Lemma with_locals_void {L X Y} (l : L) (m : act (L * T) X) (y : Y) s :
  (_ ← with_locals l m; mret y) s = (let '(r, s) := dropped (m (l, s)) in
    match r with Ret _ => (Ret y, s) | Err e => (Err e, s) end).
Proof. unfold mbind, act_bind, with_locals, dropped. by destruct (m (l, s)) as [[] []]. Qed.

Lemma Stride_feed n (l : list A) e (h : A → act T bool) d s : 0 < n < 2 ^ 64 - 1 → 0 ≤ d ≤ n →
  dropped (feed l e (Stride_handler n h) (d, s)) = feed (every (Z.to_nat n) (Z.to_nat (n - 1 - d)) l) e h s.
Proof.
  intros Hn. revert d s. induction l as [|a l IH]; intros d s Hd; act; [done|].
  unfold Stride_handler at 1. act. rewrite u64_small by lia. destruct (Z.leb_spec n (d + 1)).
  - replace (Z.to_nat (n - 1 - d)) with O by lia. act. destruct (h a s) as [[[]|] s']; act; [|done|done].
    rewrite IH by lia. by replace (Z.to_nat (n - 1 - 0)) with (Z.to_nat n - 1)%nat by lia.
  - destruct (Z.to_nat (n - 1 - d)) as [|k] eqn:E; [lia|]. rewrite IH by lia.
    by replace (Z.to_nat (n - 1 - (d + 1))) with k by lia.
Qed.

Lemma Stride_each n (l : list A) e (b : A → act T unit) d s : 0 < n < 2 ^ 64 - 1 → 0 ≤ d ≤ n →
  dropped (each l e (Stride_body n b) (d, s)) = each (every (Z.to_nat n) (Z.to_nat (n - 1 - d)) l) e b s.
Proof.
  intros Hn. revert d s. induction l as [|a l IH]; intros d s Hd; act; [done|].
  unfold Stride_body at 1. act. rewrite u64_small by lia. destruct (Z.leb_spec n (d + 1)).
  - replace (Z.to_nat (n - 1 - d)) with O by lia. act. destruct (b a s) as [[] s']; act; [|done].
    rewrite IH by lia. by replace (Z.to_nat (n - 1 - 0)) with (Z.to_nat n - 1)%nat by lia.
  - destruct (Z.to_nat (n - 1 - d)) as [|k] eqn:E; [lia|]. rewrite IH by lia.
    by replace (Z.to_nat (n - 1 - (d + 1))) with k by lia.
Qed.

Lemma Skip_feed n (l : list A) e (h : A → act T bool) d s : 0 ≤ d ≤ n → n < 2 ^ 64 →
  dropped (feed l e (Skip_handler n h) (d, s)) = feed (drop (Z.to_nat (n - d)) l) e h s.
Proof.
  intros Hd Hn. revert d s Hd. induction l as [|a l IH]; intros d s Hd; act; [by rewrite drop_nil|].
  unfold Skip_handler at 1. act. destruct (Z.ltb_spec d n).
  - rewrite u64_small, IH by lia. replace (Z.to_nat (n - d)) with (S (Z.to_nat (n - (d + 1)))) by lia. done.
  - replace (Z.to_nat (n - d)) with O by lia. act. destruct (h a s) as [[[]|] s']; act; [|done|done].
    rewrite IH by lia. by replace (Z.to_nat (n - d)) with O by lia.
Qed.
Lemma Skip_each n (l : list A) e (b : A → act T unit) d s : 0 ≤ d ≤ n → n < 2 ^ 64 →
  dropped (each l e (Skip_body n b) (d, s)) = each (drop (Z.to_nat (n - d)) l) e b s.
Proof.
  intros Hd Hn. revert d s Hd. induction l as [|a l IH]; intros d s Hd; act; [by rewrite drop_nil|].
  unfold Skip_body at 1. act. destruct (Z.ltb_spec d n).
  - rewrite u64_small, IH by lia. replace (Z.to_nat (n - d)) with (S (Z.to_nat (n - (d + 1)))) by lia. done.
  - replace (Z.to_nat (n - d)) with O by lia. act. destruct (b a s) as [[] s']; act; [|done].
    rewrite IH by lia. by replace (Z.to_nat (n - d)) with O by lia.
Qed.

Lemma Distinct_feed {K} `{EqDecision K} (f : A → outcome K) (l : list A) e (h : A → act T bool) seen s :
  dropped (feed l e (Distinct_handler f h) (seen, s)) = feed (distinctT f seen l e).1 (distinctT f seen l e).2 h s.
Proof.
  revert seen s. induction l as [|a l IH]; intros seen s; act; [done|].
  unfold Distinct_handler at 1. act. destruct (f a) as [k|]; act; [|done]. destruct (decide (k ∈ seen)); [apply IH|].
  act. destruct (h a s) as [[[]|] s']; act; [apply IH|done|done].
Qed.
Lemma Distinct_each {K} `{EqDecision K} (f : A → outcome K) (l : list A) e (b : A → act T unit) seen s :
  dropped (each l e (Distinct_body f b) (seen, s)) = each (distinctT f seen l e).1 (distinctT f seen l e).2 b s.
Proof.
  revert seen s. induction l as [|a l IH]; intros seen s; act; [done|].
  unfold Distinct_body at 1. act. destruct (f a) as [k|]; act; [|done]. destruct (decide (k ∈ seen)); [apply IH|].
  act. destruct (b a s) as [[] s']; act; [apply IH|done].
Qed.

Lemma Batch_feed n (l : list A) e (h : list A → act T bool) batch s : 0 < n →
  ('(c, batch_) ← with_locals batch (feed l e (Batch_handler n h));
   if c && negb (match batch_ with [] => true | _ => false end) then h batch_ else mret c) s
  = feed (batchT (Z.to_nat n) batch l e).1 (batchT (Z.to_nat n) batch l e).2 h s.
Proof.
  intros Hn. revert batch s. induction l as [|a l IH]; intros batch s; act.
  { destruct e as [[]|]; [|done|done]. destruct batch; act; [done|]. by destruct (h _ s) as [[[]|] ?]. }
  unfold Batch_handler at 1. act. destruct (Z.eqb_spec (Z.of_nat (length (batch ++ [a]))) n).
  - rewrite decide_True by lia. act. destruct (h (batch ++ [a]) s) as [[[]|] s']; act; [|done|done]. apply IH.
  - rewrite decide_False by lia. apply IH.
Qed.

Lemma Interleave_feed (l : list A) e (h : A → act T bool) c s :
  dropped (feed l e (Interleave_handler h) (c, s)) = feed (interleaveT c l e).1 (interleaveT c l e).2 h s.
Proof.
  revert c s. induction l as [|a l IH]; intros c s; act; [by destruct c|].
  unfold Interleave_handler at 1. act. destruct c as [|x c]; [done|]. act.
  destruct (h a s) as [[[]|] s']; act; [|done|done]. destruct (h x s') as [[[]|] s'']; act; [apply IH|done|done].
Qed.

Lemma Zip_feed {B} (l : list A) e (h : A * B → act T bool) c s :
  dropped (feed l e (Zip_handler h) (c, s)) = feed (zipT c l e).1 (zipT c l e).2 h s.
Proof.
  revert c s. induction l as [|a l IH]; intros c s; act; [by destruct c|].
  unfold Zip_handler at 1. act. destruct c as [|x c]; [done|]. act.
  destruct (h (a, x) s) as [[[]|] s']; act; [apply IH|done|done].
Qed.

(** One round of a cycle: its answer is lost, the last answer of the handler is kept. *)
Lemma Cycle_feed (l : list A) e (h : A → act T bool) cont s :
  with_locals cont (feed l e (Cycle_handler h)) s =
  (c ← feed l (Ret true) h;
   if (c : bool) then b ← raise e; mret (b, match l with [] => cont | _ => true end) else mret (false, false)) s.
Proof.
  revert cont s. induction l as [|a l IH]; intros cont s; act; [by destruct e|].
  unfold Cycle_handler at 1. act. destruct (h a s) as [[[]|] s']; act; [|done|done].
  specialize (IH true s'). autounfold with gen in IH. rewrite IH. by destruct l.
Qed.
End Locals.

Section Operators.
Context {A B : Type} (g : Gen A) (ta : trace A bool) (tv : trace A unit).
Hypothesis Ha : Applies g ta.
Hypothesis Hv : Visits g tv.

Lemma Map_applies (f : A → outcome B) : Applies (Map f g) (mapT f ta.1 ta.2).
Proof.
  intros T h s. cbn. rewrite Ha. destruct ta as [l e]. cbn. clear -l. revert s.
  induction l as [|a l IH]; intros s; act; [done|]. destruct (f a); [|done]. act.
  destruct (h a0 s) as [[[]|] s']; act; [apply IH|done|done].
Qed.
Lemma Map_visits (f : A → outcome B) : Visits (Map f g) (mapT f tv.1 tv.2).
Proof.
  intros T h s. cbn. rewrite Hv. destruct tv as [l e]. cbn. clear -l. revert s.
  induction l as [|a l IH]; intros s; act; [done|]. destruct (f a); [|done]. act.
  destruct (h a0 s) as [[] s']; act; [apply IH|done].
Qed.

Lemma Filter_applies p : Applies (Filter p g) (filterT p ta.1 ta.2).
Proof.
  intros T h s. cbn. rewrite Ha. destruct ta as [l e]. cbn. clear -l. revert s.
  induction l as [|a l IH]; intros s; act; [done|]. destruct (p a) as [[]|]; act; [|apply IH|done].
  destruct (h a s) as [[[]|] s']; act; [apply IH|done|done].
Qed.
Lemma Filter_visits p : Visits (Filter p g) (filterT p tv.1 tv.2).
Proof.
  intros T h s. cbn. rewrite Hv. destruct tv as [l e]. cbn. clear -l. revert s.
  induction l as [|a l IH]; intros s; act; [done|]. destruct (p a) as [[]|]; act; [|apply IH|done].
  destruct (h a s) as [[] s']; act; [apply IH|done].
Qed.

Lemma Until_applies p : Applies (Until p g) (untilT p ta.1 ta.2).
Proof.
  intros T h s. cbn. act. rewrite Ha. destruct ta as [l e]. cbn. clear -l. revert s.
  induction l as [|a l IH]; intros s; act; [by destruct e|]. destruct (p a) as [[]|]; act; [done| |done].
  destruct (h a s) as [[[]|] s']; act; [|done|done]. rewrite <- IH. done.
Qed.

Lemma Take_applies n : 0 ≤ n < 2 ^ 64 → Applies (Take n g) (takeT (Z.to_nat n) ta.1 ta.2).
Proof.
  intros Hn T h s. cbn. unfold takeT. destruct (Z.eqb_spec n 0) as [->|]; [done|].
  destruct (Z.to_nat n) as [|k] eqn:Ek; [lia|]. act. rewrite Ha. destruct ta as [l e].
  replace n with (Z.of_nat (S k)) by lia. assert (Z.of_nat (S k) < 2 ^ 64) as Hk by lia. cbn [fst snd].
  clear -Hk. revert k s Hk. induction l as [|a l IH]; intros k s Hk; act.
  { rewrite decide_False by lia. by destruct e. }
  destruct (h a s) as [[[]|] s']; act; [|done|done]. rewrite u64_small by lia.
  destruct k as [|k].
  { change (Z.of_nat 1 - 1 =? 0) with true. cbn. rewrite decide_True by lia. by rewrite take_0. }
  replace (Z.of_nat (S (S k)) - 1) with (Z.of_nat (S k)) by lia.
  destruct (Z.eqb_spec (Z.of_nat (S k)) 0); [lia|]. cbn -[Z.of_nat]. specialize (IH k s' ltac:(lia)).
  autounfold with gen in IH. rewrite IH. cbn.
  destruct (decide (S k ≤ length l)%nat), (decide (S (S k) ≤ S (length l))%nat); (done || lia).
Qed.

Lemma Stride_traces n : 0 < n < 2 ^ 64 - 1 → ∃ g', Stride n g = Ret g' ∧
  Applies g' (every (Z.to_nat n) 0 ta.1, ta.2) ∧ Visits g' (every (Z.to_nat n) 0 tv.1, tv.2).
Proof.
  intros Hn. unfold Stride. destruct (Z.eqb_spec n 0); [lia|]. eexists; split; [done|].
  split; intros T h s; cbn [apply foreach].
  - rewrite with_locals_dropped, Ha, Stride_feed by lia. replace (Z.to_nat (n - 1 - n)) with O by lia. cbn.
    by destruct (feed _ _ _ _) as [[] ?].
  - rewrite with_locals_void, Hv, Stride_each by lia. replace (Z.to_nat (n - 1 - n)) with O by lia. cbn.
    by destruct (each _ _ _ _) as [[[]|] ?].
Qed.

Lemma Skip_applies n : 0 ≤ n < 2 ^ 64 → Applies (Skip n g) (drop (Z.to_nat n) ta.1, ta.2).
Proof.
  intros Hn T h s. cbn [apply Skip]. destruct (Z.eqb_spec n 0) as [->|]; [by rewrite Ha|].
  rewrite with_locals_dropped, Ha, Skip_feed by lia. rewrite Z.sub_0_r. cbn. by destruct (feed _ _ _ _) as [[] ?].
Qed.
Lemma Skip_visits n : 0 ≤ n < 2 ^ 64 → Visits (Skip n g) (drop (Z.to_nat n) tv.1, tv.2).
Proof.
  intros Hn T h s. cbn [foreach Skip]. destruct (Z.eqb_spec n 0) as [->|]; [by rewrite Hv|].
  rewrite with_locals_void, Hv, Skip_each by lia. rewrite Z.sub_0_r. cbn. by destruct (each _ _ _ _) as [[[]|] ?].
Qed.

Lemma Distinct_applies {K} `{EqDecision K} (f : A → outcome K) : Applies (Distinct f g) (distinctT f [] ta.1 ta.2).
Proof.
  intros T h s. cbn [apply Distinct]. rewrite with_locals_dropped, Ha, Distinct_feed. by destruct (feed _ _ _ _) as [[] ?].
Qed.
Lemma Distinct_visits {K} `{EqDecision K} (f : A → outcome K) : Visits (Distinct f g) (distinctT f [] tv.1 tv.2).
Proof.
  intros T h s. cbn [foreach Distinct]. rewrite with_locals_void, Hv, Distinct_each. by destruct (each _ _ _ _) as [[[]|] ?].
Qed.

Lemma Batch_applies lim n : 0 < n → ∃ g', Batch lim n g = Ret (with_foreach g') ∧
  Applies (with_foreach g') (reserved lim n (batchT (Z.to_nat n) [] ta.1 ta.2)).
Proof.
  intros Hn. unfold Batch. destruct (Z.eqb_spec n 0); [lia|]. eexists; split; [done|].
  intros T h s. cbn [apply with_foreach]. unfold reserved, raise. unfold mbind at 1, act_bind at 1. destruct (container_reserve lim n); [|done].
  rewrite <- Batch_feed by done. act. by rewrite Ha.
Qed.

Lemma Interleave_applies c : Applies (Interleave c g) (interleaveT c ta.1 ta.2).
Proof.
  intros T h s. cbn [apply Interleave with_foreach]. rewrite with_locals_dropped, Ha, Interleave_feed.
  by destruct (feed _ _ _ _) as [[] ?].
Qed.
Lemma Zip_applies (c : list B) : Applies (Zip c g) (zipT c ta.1 ta.2).
Proof.
  intros T h s. cbn [apply Zip with_foreach]. rewrite with_locals_dropped, Ha, Zip_feed.
  by destruct (feed _ _ _ _) as [[] ?].
Qed.

Lemma Cycle_applies fuel limit : Applies (Cycle fuel limit g) (cycleT fuel limit 0 ta.1 ta.2).
Proof.
  intros T h s. cbn [apply Cycle with_foreach]. generalize 0 as count. intros count. revert count s.
  induction fuel as [|fuel IH]; intros count s; cbn.
  all: destruct (match limit with Some l => negb (count =? l) | None => true end); try done.
  assert (H : with_locals false (apply g (Cycle_handler h)) s = _)
    by (unfold with_locals; rewrite Ha; apply Cycle_feed).
  unfold mbind, act_bind in *. rewrite H. clear H. destruct ta as [l e]. cbn [fst snd] in *.
  destruct e as [b|x]. 2: { replace (match l with [] => (l, Err x) | _ => (l, Err x) end) with (l, @Err bool x) by (by destruct l). cbn [fst snd]. rewrite (feed_end l (Err x)). act. by destruct (feed _ _ _ _) as [[[]|] ?]. }
  destruct l as [|a l]; [done|]. set (k := a :: l) in *.
  destruct (plus Conv.int64_t count 1) as [count'|f] eqn:E; cbn [fst snd].
  - rewrite feed_app. act. destruct (h a s) as [[[]|] s1]; [|done|done].
    destruct (feed l (Ret true) h s1) as [[[]|] s']; [apply IH|done|done].
  - rewrite (feed_end k (Err f)). act. destruct (h a s) as [[[]|] s1]; [|done|done].
    by destruct (feed l (Ret true) h s1) as [[[]|] s'].
Qed.
End Operators.

(** ** Operators that collect first, and sinks *)

Fixpoint foldT {A L} (f : L → A → outcome L) (acc : L) (l : list A) : outcome L :=
  match l with
  | [] => Ret acc
  | a :: l => acc ← f acc a; foldT f acc l
  end.

(** A closure that only changes local variables folds the values. *)
Lemma each_folds {A L T} (f : L → A → outcome L) (body : A → act (L * T) unit) l e acc s :
  (∀ v acc s, dropped (body v (acc, s)) = (void (f acc v), s) ∧ ∀ acc', f acc v = Ret acc' → (body v (acc, s)).2.1 = acc') →
  with_locals acc (each l e body) s = (acc ← foldT f acc l; u ← e; Ret (u, acc), s).
Proof.
  intros Hb. revert acc. induction l as [|a l IH]; intros acc; [by destruct e|].
  specialize (Hb a acc s) as [Hd Hl]. unfold with_locals in *. cbn. unfold mbind at 1, act_bind at 1.
  unfold dropped in Hd. destruct (body a (acc, s)) as [[[]|] [acc1 s1]]; cbn in *;
    destruct (f acc a) as [acc2|]; simplify_eq/=; [|done].
  rewrite (Hl acc2 eq_refl). apply IH.
Qed.

Lemma foldT_ret {A L} (f : L → A → L) acc l : foldT (fun x v => Ret (f x v)) acc l = Ret (foldl f acc l).
Proof. revert acc. induction l; intros acc; cbn; auto. Qed.

Lemma foldT_app {A L} (f : L → A → outcome L) acc l k : foldT f acc (l ++ k) = (acc ← foldT f acc l; foldT f acc k).
Proof. revert acc. induction l as [|a l IH]; intros acc; cbn; [done|]. destruct (f acc a); [apply IH|done]. Qed.

Lemma foldl_snoc {A} (c l : list A) : foldl (fun c v => c ++ [v]) c l = c ++ l.
Proof. revert c. induction l as [|a l IH]; intros c; cbn; [by rewrite app_nil_r|]. by rewrite IH, <- app_assoc. Qed.

Definition folds_by {A L T} (f : L → A → outcome L) (body : A → act (L * T) unit) : Prop :=
  ∀ v acc s, dropped (body v (acc, s)) = (void (f acc v), s) ∧ ∀ acc', f acc v = Ret acc' → (body v (acc, s)).2.1 = acc'.
Ltac pure_closure := intros ???; unfold dropped; act; repeat case_match; simplify_eq/=; naive_solver.

Section Collecting.
Context {A T : Type} (g : Gen A) (tv : trace A unit) (s : T).
Hypothesis Hv : Visits g tv.

(** Collect in local variables, then go on with them. *)
Lemma collects {L X} (f : L → A → outcome L) body (acc : L) (k : L → act T X) : folds_by f body →
  ('(_, acc) ← with_locals acc (foreach g body); k acc) s =
  match foldT f acc tv.1, tv.2 with
  | Ret acc, Ret _ => k acc s
  | Ret _, Err x => (Err x, s)
  | Err x, _ => (Err x, s)
  end.
Proof.
  intros Hb. unfold mbind, act_bind. unfold with_locals. rewrite Hv.
  assert (H := each_folds f body tv.1 tv.2 acc s Hb). unfold with_locals in H. rewrite H.
  destruct (foldT f acc tv.1); [|done]. by destruct tv as [? []].
Qed.

Lemma FoldLeft_spec {B} (seed : B) fold :
  FoldLeft seed fold g s = (acc ← foldT fold seed tv.1; _ ← tv.2; Ret acc, s).
Proof.
  unfold FoldLeft. rewrite (collects fold) by pure_closure. destruct (foldT _ _ _); [|done]. by destruct tv as [? []].
Qed.

Lemma Collect_spec : Collect g s = (_ ← tv.2; Ret tv.1, s).
Proof.
  unfold Collect. rewrite (collects (fun c v => Ret (c ++ [v]))) by pure_closure. rewrite foldT_ret, foldl_snoc.
  by destruct tv as [? []].
Qed.

Lemma Append_spec c : Append c g s = (_ ← tv.2; Ret (c ++ tv.1), s).
Proof.
  unfold Append. rewrite (collects (fun c v => Ret (c ++ [v]))) by pure_closure. rewrite foldT_ret, foldl_snoc.
  by destruct tv as [? []].
Qed.

Lemma Count_spec : Count g s = (_ ← tv.2; Ret (u64 (Z.of_nat (length tv.1))), s).
Proof.
  unfold Count. rewrite FoldLeft_spec, foldT_ret. cbn.
  assert (∀ n, foldl (fun acc _ => u64 (acc + 1)) (u64 n) tv.1 = u64 (n + Z.of_nat (length tv.1))) as H.
  { generalize tv.1 as l. induction l as [|a l IH]; intros n; cbn; [f_equal; lia|].
    replace (u64 (u64 n + 1)) with (u64 (n + 1)) by (unfold u64; by rewrite Z.add_mod_idemp_l by lia).
    rewrite IH. f_equal; lia. }
  specialize (H 0). change (u64 0) with 0 in H. by rewrite H.
Qed.
End Collecting.

(** ** Order, GroupBy, Sample *)

Section OrderTraces.
Context `{StdAlgorithms} {A K : Type} (sel : A → K) (cmp : K → K → bool).
Hypothesis Hcmp : strict_weak cmp.
#[local] Abbreviation over := (fun a b : A => cmp (sel b) (sel a)).

(** The values that popping a heap until it is empty gives. *)
Fixpoint pops (fuel : nat) (heap : list A) : list A :=
  match fuel with
  | O => []
  | S fuel =>
      match heap with
      | [] => []
      | _ => let heap := pop_heap (fun a b => cmp (sel b) (sel a)) heap in
             match list.last heap with
             | Some a => a :: pops fuel (removelast heap)
             | None => []
             end
      end
  end.
Definition heap_order (l : list A) : list A :=
  let heap := make_heap (fun a b => cmp (sel b) (sel a)) l in pops (S (length heap)) heap.

(** Popping a heap that is not empty moves an element to the back. *)
Lemma over_strict_weak : strict_weak over.
Proof. by apply (strict_weak_on sel (fun x y => cmp y x)), strict_weak_flip. Qed.

Lemma pop_heap_split (heap : list A) : heap ≠ [] → is_heap over heap → ∃ h a, pop_heap over heap = h ++ [a] ∧
  heap ≡ₚ a :: h ∧ is_heap over h ∧ (∀ b, b ∈ h → over a b = false).
Proof.
  intros Hne Hh. assert (Hp := pop_heap_permutation over heap over_strict_weak Hh). destruct (pop_heap over heap) as [|a h] eqn:E using rev_ind.
  - apply Permutation_nil_l in Hp. by subst.
  - exists h, a. split; [done|]. split; [rewrite <- Hp; symmetry; apply Permutation_cons_append|].
    by apply (pop_heap_back over heap h a over_strict_weak).
Qed.

Lemma pops_permutation fuel heap : is_heap over heap → (length heap < fuel)%nat → pops fuel heap ≡ₚ heap.
Proof.
  revert heap. induction fuel as [|fuel IH]; intros heap Hh Hf; [lia|]. destruct heap as [|x heap']; [done|].
  set (heap := x :: heap') in *. destruct (pop_heap_split heap) as (h & a & E & Hp & Hh' & _); [done|done|].
  cbn. fold heap. rewrite E, last_snoc, removelast_last, Hp. f_equiv. apply IH; [done|].
  apply Permutation_length in Hp. cbn in *. lia.
Qed.

Lemma Order_loop_feed {T} fuel heap (h : A → act T bool) s : is_heap over heap → (length heap < fuel)%nat →
  Order_loop sel cmp fuel heap h s = feed (pops fuel heap) (Ret true) h s.
Proof.
  revert heap s. induction fuel as [|fuel IH]; intros heap s Hh Hf; [lia|]. destruct heap as [|x heap']; [done|].
  set (heap := x :: heap') in *. destruct (pop_heap_split heap) as (k & a & E & Hp & Hh' & _); [done|done|].
  cbn. fold heap. rewrite E, last_snoc, removelast_last. act. apply Permutation_length in Hp. cbn in Hp.
  destruct (h a s) as [[[]|] s']; cbn; [|done|done]. apply IH; [done|]. cbn in Hf. lia.
Qed.

Context (g : Gen A) (tv : trace A unit).
Hypothesis Hv : Visits g tv.

Lemma Order_applies : Applies (Order sel cmp g)
  (match tv.2 with Ret _ => (heap_order tv.1, Ret true) | Err x => ([], Err x) end).
Proof.
  intros T h s. cbn [apply Order]. unfold mbind at 1, act_bind at 1. rewrite (Collect_spec g tv s Hv).
  destruct tv as [l [[]|]]; [|done]. cbn [fst snd]. apply Order_loop_feed; [|cbn; lia]. apply make_heap_heap, over_strict_weak.
Qed.
Lemma Order_visits : Visits (Order sel cmp g)
  (match tv.2 with Ret _ => (sort (fun a b => cmp (sel a) (sel b)) tv.1, Ret tt) | Err x => ([], Err x) end).
Proof.
  intros T h s. cbn [foreach Order]. unfold Order_asVector. unfold mbind, act_bind. rewrite (Collect_spec g tv s Hv).
  destruct tv as [l [[]|]]; [|done]. cbn. apply container_foreach_each.
Qed.
End OrderTraces.

Section Collected.
Context {A : Type} (g : Gen A) (tv : trace A unit).
Hypothesis Hv : Visits g tv.

Definition groupT {K} `{EqDecision K} (f : A → outcome K) (l : list A) : outcome (list (K * list A)) :=
  foldT (fun groups v => k ← f v; Ret (push_group k v groups)) [] l.

Lemma GroupBy_applies {K} `{Iteration} `{EqDecision K} (f : A → outcome K) : Applies (GroupBy f g)
  (match groupT f tv.1, tv.2 with
   | Ret groups, Ret _ => (iterate groups, Ret true)
   | Ret _, Err x => ([], Err x)
   | Err x, _ => ([], Err x)
   end).
Proof.
  intros T h s. cbn [apply GroupBy with_foreach].
  rewrite (collects g tv s Hv (fun groups v => k ← f v; Ret (push_group k v groups))) by pure_closure.
  unfold groupT. destruct (foldT _ _ _); [|done]. destruct tv as [? []]; [|done]. apply container_apply_feed.
Qed.

(** The reservoir after the values [l]. *)
Definition reservoir (count : Z) (rng : nat → Z) (st : list A * Z * nat) (v : A) : outcome (list A * Z * nat) :=
  let '(r, n, drawn) := st in
  if Z.of_nat (length r) <? count then Ret (r ++ [v], u64 (n + 1), drawn)
  else let index := rng drawn mod n in
       r ← (if index <? Z.of_nat (length r) then vset r index v else Ret r);
       Ret (r, u64 (n + 1), S drawn).

Lemma Sample_applies lim count rng : Applies (Sample lim count rng g)
  (if count =? 0 then ([], Ret false) else reserved lim count
   match foldT (reservoir count rng) ([], 1, O) tv.1, tv.2 with
   | Ret (r, _, _), Ret _ => (r, Ret true)
   | Ret _, Err x => ([], Err x)
   | Err x, _ => ([], Err x)
   end).
Proof.
  intros T h s. cbn [apply Sample with_foreach]. destruct (count =? 0); [done|].
  assert (folds_by (T := T) (reservoir count rng) (Sample_body count rng)) as Hf.
  { intros v [[r n] d] s'. unfold Sample_body, reservoir, dropped. act. destruct (_ <? count); [naive_solver|].
    destruct (_ <? Z.of_nat _); cbn; [|naive_solver]. destruct (vset _ _ _); naive_solver. }
  unfold reserved, raise. unfold mbind, act_bind. destruct (container_reserve lim count); [|done].
  assert (E := collects g tv s Hv _ _ ([], 1, O) (fun '(v, _, _) => container_apply v h) Hf).
  unfold mbind, act_bind in E. etrans; [|etrans; [apply E|]].
  - by destruct (with_locals _ _ s) as [[[? [[]]]|] ?].
  - destruct (foldT _ _ _) as [[[r n] d]|]; [|done]. destruct tv as [? []]; [|done]. apply container_apply_feed.
Qed.
End Collected.

End GenProof.
