(* ===== verification/GenSpec.v ===== *)
(** What pipelines of generators compute.  A pipeline is written down as a [pipe]; [build] makes
    the generator that the operators of the code compose, and [denote] says by functions on lists
    which values its two members pass on and how they end.  [pipe_correct] shows that they agree;
    [pipe_contract] that the members keep the contract which Core-inl.h states; the last
    section proves where operators break it. *)
From Stdlib Require Import Sorted.
From S2P Require Import Prelude Conv Gen GenProof.

Module GenSpec.
Import Gen GenProof.

Section Pipelines.
Context `{StdAlgorithms} `{Iteration}.

Inductive pipe : Type → Type :=
| PFrom {A} (l : list A) : pipe A
| PFromCopy {A} (l : list A) : pipe A
| PFromRange {A} (l : list A) : pipe A
| PSeq {V} (fuel : nat) (start : V) (impl : SequenceImpl V) : pipe V
| PYield {A} (y : YieldSource A) : pipe A
| PEmpty {A} : pipe A
| PJust {A} (a : A) : pipe A
| PJustCopy {A} (a : A) : pipe A
| PChain {A} (p q : pipe A) : pipe A
| PMap {A B} (f : A → outcome B) (p : pipe A) : pipe B
| PFilter {A} (f : A → outcome bool) (p : pipe A) : pipe A
| PUntil {A} (f : A → outcome bool) (p : pipe A) : pipe A
| PTake {A} (n : Z) (p : pipe A) : pipe A
| PStride {A} (n : Z) (p : pipe A) : pipe A
| PSkip {A} (n : Z) (p : pipe A) : pipe A
| PSample {A} (lim : limits) (n : Z) (rng : nat → Z) (p : pipe A) : pipe A
| POrder {A K} (sel : A → K) (cmp : K → K → bool) (p : pipe A) : pipe A
| PGroupBy {A K} (dec : EqDecision K) (f : A → outcome K) (p : pipe A) : pipe (K * list A)
| PDistinct {A K} (dec : EqDecision K) (f : A → outcome K) (p : pipe A) : pipe A
| PBatch {A} (lim : limits) (n : Z) (p : pipe A) : pipe (list A)
| PConcat {A B} (f : A → pipe B) (p : pipe A) : pipe B
| PRangeConcat {A} (p : pipe (list A)) : pipe A
| PDereference {A} (p : pipe (option A)) : pipe A
| PIndirect {A} (p : pipe A) : pipe (option A)
| PCycle {A} (fuel : nat) (limit : option Z) (p : pipe A) : pipe A
| PInterleave {A} (c : list A) (p : pipe A) : pipe A
| PZip {A B} (c : list B) (p : pipe A) : pipe (A * B)
| PVirtual {A} (p : pipe A) : pipe A.

(** The generator that operator| composes, or what a constructor throws. *)
Fixpoint build {T} (p : pipe T) : outcome (Gen T) :=
  match p with
  | PFrom l => Ret (ReferencedSource l)
  | PFromCopy l => Ret (CopiedSource l)
  | PFromRange l => Ret (RangeSource l)
  | PSeq fuel start impl => Ret (Sequence fuel start impl)
  | PYield y => Ret (Yield y)
  | PEmpty => Ret Empty
  | PJust a => Ret (SingleReference a)
  | PJustCopy a => Ret (SingleCopy a)
  | PChain p q => g ← build p; g' ← build q; Ret (Chain g g')
  | PMap f p => g ← build p; Ret (Map f g)
  | PFilter f p => g ← build p; Ret (Filter f g)
  | PUntil f p => g ← build p; Ret (Until f g)
  | PTake n p => g ← build p; Ret (Take n g)
  | PStride n p => g ← build p; Stride n g
  | PSkip n p => g ← build p; Ret (Skip n g)
  | PSample lim n rng p => g ← build p; Ret (Sample lim n rng g)
  | POrder sel cmp p => g ← build p; Ret (Order sel cmp g)
  | PGroupBy dec f p => g ← build p; Ret (GroupBy f g)
  | PDistinct dec f p => g ← build p; Ret (Distinct f g)
  | PBatch lim n p => g ← build p; Batch lim n g
  | PConcat f p => g ← build p; Ret (Concat (Map (fun a => build (f a)) g))
  | PRangeConcat p => g ← build p; Ret (RangeConcat g)
  | PDereference p => g ← build p; Ret (Dereference g)
  | PIndirect p => g ← build p; Ret (Indirect g)
  | PCycle fuel limit p => g ← build p; Ret (Cycle fuel limit g)
  | PInterleave c p => g ← build p; Ret (Interleave c g)
  | PZip c p => g ← build p; Ret (Zip c g)
  | PVirtual p => g ← build p; Ret (VirtualGen g)
  end.

(** The values that apply passes on and its answer at their end; the same for foreach. *)
Record den (A : Type) := mk_den { applied : trace A bool; visited : trace A unit }.
Arguments mk_den {A} _ _.
Arguments applied {A} _.
Arguments visited {A} _.

(** A class that inherits foreach. *)
Definition inherited {A} (t : trace A bool) : den A := mk_den t (t.1, void t.2).

Definition chainT {A X} (goes : X → bool) (t t' : trace A X) : trace A X :=
  match t.2 with
  | Ret x => if goes x then (t.1 ++ t'.1, t'.2) else t
  | Err x => t
  end.

Definition yes (c : bool) : bool := c.
Definition always (_ : unit) : bool := true.

Fixpoint denote {T} (p : pipe T) : outcome (den T) :=
  match p with
  | PFrom l | PFromCopy l | PFromRange l => Ret (mk_den (l, Ret true) (l, Ret tt))
  | PSeq fuel start impl => Ret (mk_den (seqT true fuel impl start) (seqT tt fuel impl start))
  | PYield y => Ret (mk_den (yielded y, ended (finish y)) (yielded y, finish y))
  | PEmpty => Ret (mk_den ([], Ret true) ([], Ret tt))
  | PJust a | PJustCopy a => Ret (mk_den ([a], Ret true) ([a], Ret tt))
  | PChain p q =>
      d ← denote p; d' ← denote q;
      Ret (mk_den (chainT yes (applied d) (applied d')) (chainT always (visited d) (visited d')))
  | PMap f p =>
      d ← denote p;
      Ret (mk_den (mapT f (applied d).1 (applied d).2) (mapT f (visited d).1 (visited d).2))
  | PFilter f p =>
      d ← denote p;
      Ret (mk_den (filterT f (applied d).1 (applied d).2) (filterT f (visited d).1 (visited d).2))
  | PUntil f p => d ← denote p; Ret (inherited (untilT f (applied d).1 (applied d).2))
  | PTake n p => d ← denote p; Ret (inherited (takeT (Z.to_nat n) (applied d).1 (applied d).2))
  | PStride n p =>
      d ← denote p;
      if n =? 0 then Err (Thrown "stride must not be 0") else
      Ret (mk_den (every (Z.to_nat n) 0 (applied d).1, (applied d).2)
                  (every (Z.to_nat n) 0 (visited d).1, (visited d).2))
  | PSkip n p =>
      d ← denote p;
      Ret (mk_den (drop (Z.to_nat n) (applied d).1, (applied d).2)
                  (drop (Z.to_nat n) (visited d).1, (visited d).2))
  | PSample lim n rng p =>
      d ← denote p;
      Ret (inherited (if n =? 0 then ([], Ret false) else reserved lim n
        match foldT (reservoir n rng) ([], 1, O) (visited d).1, (visited d).2 with
        | Ret (r, _, _), Ret _ => (r, Ret true)
        | Ret _, Err x => ([], Err x)
        | Err x, _ => ([], Err x)
        end))
  | POrder sel cmp p =>
      d ← denote p;
      Ret (match (visited d).2 with
           | Ret _ => mk_den (heap_order sel cmp (visited d).1, Ret true)
                             (sort (fun a b => cmp (sel a) (sel b)) (visited d).1, Ret tt)
           | Err x => mk_den ([], Err x) ([], Err x)
           end)
  | PGroupBy dec f p =>
      d ← denote p;
      Ret (inherited (match groupT f (visited d).1, (visited d).2 with
                      | Ret groups, Ret _ => (iterate groups, Ret true)
                      | Ret _, Err x => ([], Err x)
                      | Err x, _ => ([], Err x)
                      end))
  | PDistinct dec f p =>
      d ← denote p;
      Ret (mk_den (distinctT f [] (applied d).1 (applied d).2) (distinctT f [] (visited d).1 (visited d).2))
  | PBatch lim n p =>
      d ← denote p;
      if n =? 0 then Err (Thrown "Batch size must be non-zero!") else
      Ret (inherited (reserved lim n (batchT (Z.to_nat n) [] (applied d).1 (applied d).2)))
  | PConcat f p =>
      d ← denote p;
      Ret (mk_den (concatT yes (fun a => d ← denote (f a); Ret (applied d)) (applied d).1 (applied d).2)
                  (concatT always (fun a => d ← denote (f a); Ret (visited d)) (visited d).1 (visited d).2))
  | PRangeConcat p =>
      d ← denote p;
      Ret (mk_den (concat (applied d).1, (applied d).2) (concat (visited d).1, (visited d).2))
  | PDereference p =>
      d ← denote p;
      Ret (mk_den (omap id (applied d).1, (applied d).2) (omap id (visited d).1, (visited d).2))
  | PIndirect p =>
      d ← denote p;
      Ret (mk_den (Some <$> (applied d).1, (applied d).2) (Some <$> (visited d).1, (visited d).2))
  | PCycle fuel limit p => d ← denote p; Ret (inherited (cycleT fuel limit 0 (applied d).1 (applied d).2))
  | PInterleave c p => d ← denote p; Ret (inherited (interleaveT c (applied d).1 (applied d).2))
  | PZip c p => d ← denote p; Ret (inherited (zipT c (applied d).1 (applied d).2))
  | PVirtual p => denote p
  end.

(** Counts are of type size_t, and std::sort asks for a strict weak ordering.  A stride of 2^64 - 1 is left out, see [stride_wraps]. *)
Fixpoint wf {T} (p : pipe T) : Prop :=
  match p with
  | PFrom _ | PFromCopy _ | PFromRange _ | PSeq _ _ _ | PYield _ | PEmpty | PJust _ | PJustCopy _ => True
  | PChain p q => wf p ∧ wf q
  | PTake n p | PSkip n p | PSample _ n _ p => 0 ≤ n < 2 ^ 64 ∧ wf p
  | PBatch _ n p => 0 ≤ n < 2 ^ 64 ∧ wf p
  | PStride n p => 0 ≤ n < 2 ^ 64 - 1 ∧ wf p
  | PConcat f p => (∀ a, wf (f a)) ∧ wf p
  | PMap _ p => wf p
  | PFilter _ p | PUntil _ p | PDistinct _ _ p | PCycle _ _ p | PInterleave _ p | PVirtual p => wf p
  | POrder _ cmp p => strict_weak cmp ∧ wf p
  | PGroupBy _ _ p => wf p
  | PRangeConcat p => wf p
  | PDereference p => wf p
  | PIndirect p => wf p
  | PZip _ p => wf p
  end.

(** A generator passes on what a denotation says. *)
Definition Denotes {A} (g : Gen A) (d : den A) : Prop := Applies g (applied d) ∧ Visits g (visited d).

Lemma inherits {A} (f : ∀ S : Type, (A → act S bool) → act S bool) t :
  Applies (with_foreach f) t → Denotes (with_foreach f) (inherited t).
Proof. intros Hf. split; [done|]. by apply with_foreach_visits. Qed.

Definition agrees {A} (b : outcome (Gen A)) (o : outcome (den A)) : Prop :=
  match b, o with
  | Ret g, Ret d => Denotes g d
  | Err x, Err y => x = y
  | _, _ => False
  end.

Lemma agrees_bind {A B} (b : outcome (Gen A)) (o : outcome (den A)) (f : Gen A → outcome (Gen B)) (k : den A → outcome (den B)) :
  agrees b o → (∀ g d, Denotes g d → agrees (f g) (k d)) → agrees (mbind f b) (mbind k o).
Proof. destruct b, o; cbn; naive_solver. Qed.

Lemma Chain_denotes {A} (g g' : Gen A) d d' : Denotes g d → Denotes g' d' →
  Denotes (Chain g g') (mk_den (chainT yes (applied d) (applied d')) (chainT always (visited d) (visited d'))).
Proof.
  intros [Ha Hv] [Ha' Hv']. split; intros S h s; cbn; unfold mbind, act_bind, chainT.
  - rewrite Ha. destruct (applied d) as [l [[]|x]]; cbn [fst snd yes]; [rewrite feed_app| |].
    all: rewrite ?(feed_end l (Ret false)), ?(feed_end l (Err x)); unfold mbind, act_bind.
    all: destruct (feed l (Ret true) h s) as [[[]|] s']; cbn; done.
  - rewrite Hv. destruct (visited d) as [l [[]|x]]; cbn [fst snd always].
    all: rewrite ?each_app, ?(each_end l (Err x)); unfold mbind, act_bind.
    all: destruct (each l (Ret tt) h s) as [[[]|] s']; cbn; done.
Qed.

Lemma Concat_denotes {A B} (f : A → outcome (Gen B)) (k : A → outcome (den B)) g d :
  (∀ a, agrees (f a) (k a)) → Denotes g d →
  Denotes (Concat (Map f g))
    (mk_den (concatT yes (fun a => d ← k a; Ret (applied d)) (applied d).1 (applied d).2)
            (concatT always (fun a => d ← k a; Ret (visited d)) (visited d).1 (visited d).2)).
Proof.
  intros Hf [Ha Hv]. split; intros S h s; cbn; [rewrite Ha|rewrite Hv]; clear Ha Hv; [destruct (applied d) as [l e]|destruct (visited d) as [l e]];
    cbn [fst snd]; revert s; induction l as [|a l IH]; intros s; try done; cbn; unfold mbind, act_bind, raise in *;
    specialize (Hf a); destruct (f a) as [g'|], (k a) as [[[l' e'] [k' u']]|]; cbn in *; try done; try (subst; reflexivity);
    destruct Hf as [Ha' Hv'].
  - rewrite Ha'. cbn [applied fst snd]. destruct e' as [[]|x]; cbn [fst snd yes]; [rewrite feed_app| |].
    all: rewrite ?(feed_end l' (Ret false)), ?(feed_end l' (Err x)); unfold mbind, act_bind.
    all: destruct (feed l' (Ret true) h s) as [[[]|] s']; cbn; try done; try apply IH.
  - rewrite Hv'. cbn [visited fst snd]. destruct u' as [[]|x]; cbn [fst snd always].
    all: rewrite ?each_app, ?(each_end k' (Err x)); unfold mbind, act_bind.
    all: destruct (each k' (Ret tt) h s) as [[[]|] s']; cbn; try done; try apply IH.
Qed.

Lemma RangeConcat_denotes {A} (g : Gen (list A)) d : Denotes g d →
  Denotes (RangeConcat g) (mk_den (concat (applied d).1, (applied d).2) (concat (visited d).1, (visited d).2)).
Proof.
  intros [Ha Hv]. split; intros S h s; cbn; [rewrite Ha|rewrite Hv]; clear Ha Hv; [destruct (applied d) as [l e]|destruct (visited d) as [l e]];
    cbn [fst snd]; revert s; induction l as [|a l IH]; intros s; try done; cbn; unfold mbind, act_bind.
  - rewrite container_apply_feed, feed_app. unfold mbind, act_bind.
    destruct (feed a (Ret true) h s) as [[[]|] s']; [apply IH|done|done].
  - rewrite container_foreach_each, each_app. unfold mbind, act_bind.
    destruct (each a _ h s) as [[] s']; [apply IH|done].
Qed.

Lemma Dereference_denotes {A} (g : Gen (option A)) d : Denotes g d →
  Denotes (Dereference g) (mk_den (omap id (applied d).1, (applied d).2) (omap id (visited d).1, (visited d).2)).
Proof.
  intros [Ha Hv]. split; intros S h s; cbn; [rewrite Ha|rewrite Hv]; clear Ha Hv; [destruct (applied d) as [l e]|destruct (visited d) as [l e]];
    cbn [fst snd]; revert s; induction l as [|[a|] l IH]; intros s; try done; cbn; unfold mbind, act_bind; try apply IH.
  - destruct (h a s) as [[[]|] s']; [apply IH|done|done].
  - destruct (h a s) as [[] s']; [apply IH|done].
Qed.

Lemma Indirect_denotes {A} (g : Gen A) d : Denotes g d →
  Denotes (Indirect g) (mk_den (Some <$> (applied d).1, (applied d).2) (Some <$> (visited d).1, (visited d).2)).
Proof.
  intros [Ha Hv]. split; intros S h s; cbn; [rewrite Ha|rewrite Hv]; clear Ha Hv; [destruct (applied d) as [l e]|destruct (visited d) as [l e]];
    cbn [fst snd]; revert s; induction l as [|a l IH]; intros s; try done; cbn; unfold mbind, act_bind.
  - destruct (h (Some a) s) as [[[]|] s']; [apply IH|done|done].
  - destruct (h (Some a) s) as [[] s']; [apply IH|done].
Qed.

Lemma pipe_correct_ {A} (p : pipe A) : wf p → agrees (build p) (denote p).
Proof.
  induction p; cbn [wf]; intros Hw; cbn [build denote].
  - apply Referenced_traces.
  - apply Copied_traces.
  - apply Range_traces.
  - apply Sequence_traces.
  - apply Yield_traces.
  - apply Empty_traces.
  - apply Single_traces.
  - apply SingleCopy_traces.
  - destruct Hw. apply agrees_bind; [by apply IHp1|]. intros g d Hd. apply agrees_bind; [by apply IHp2|].
    intros g' d' Hd'. by apply Chain_denotes.
  - apply agrees_bind; [auto|]. intros g d [Ha Hv]. split; [by apply Map_applies|by apply Map_visits].
  - apply agrees_bind; [auto|]. intros g d [Ha Hv]. split; [by apply Filter_applies|by apply Filter_visits].
  - apply agrees_bind; [auto|]. intros g d [Ha Hv]. by apply inherits, Until_applies.
  - destruct Hw. apply agrees_bind; [auto|]. intros g d [Ha Hv]. by apply inherits, Take_applies.
  - destruct Hw. apply agrees_bind; [auto|]. intros g d [Ha Hv]. destruct (Z.eqb_spec n 0) as [->|]; [done|].
    destruct (Stride_traces g _ _ Ha Hv n) as (g' & -> & ?); [lia|done].
  - destruct Hw. apply agrees_bind; [auto|]. intros g d [Ha Hv]. split; [by apply Skip_applies|by apply Skip_visits].
  - destruct Hw. apply agrees_bind; [auto|]. intros g d [Ha Hv]. by apply inherits, Sample_applies.
  - destruct Hw as [Hcmp Hw]. apply agrees_bind; [auto|]. intros g d [Ha Hv].
    assert (Ho := Order_applies sel cmp Hcmp g _ Hv). assert (Hs := Order_visits sel cmp g _ Hv). cbn.
    by destruct (visited d) as [? []].
  - apply agrees_bind; [auto|]. intros g d [Ha Hv]. by apply inherits, GroupBy_applies.
  - apply agrees_bind; [auto|]. intros g d [Ha Hv]. split; [by apply Distinct_applies|by apply Distinct_visits].
  - destruct Hw. apply agrees_bind; [auto|]. intros g d [Ha Hv]. destruct (Z.eqb_spec n 0) as [->|]; [done|].
    destruct (Batch_applies g _ Ha lim n) as (g' & -> & ?); [lia|]. by apply inherits.
  - destruct Hw. apply agrees_bind; [auto|]. intros g d Hd. apply (Concat_denotes (fun a => build (f a))); auto.
  - apply agrees_bind; [auto|]. intros g d Hd. by apply RangeConcat_denotes.
  - apply agrees_bind; [auto|]. intros g d Hd. by apply Dereference_denotes.
  - apply agrees_bind; [auto|]. intros g d Hd. by apply Indirect_denotes.
  - apply agrees_bind; [auto|]. intros g d [Ha Hv]. by apply inherits, Cycle_applies.
  - apply agrees_bind; [auto|]. intros g d [Ha Hv]. by apply inherits, Interleave_applies.
  - apply agrees_bind; [auto|]. intros g d [Ha Hv]. by apply inherits, Zip_applies.
  - specialize (IHp Hw). destruct (build p), (denote p); cbn in *; try done.
Qed.

(** C7: Every pipeline of the sources and operators of [pipe] (all but guard, which does not pass
    on that a handler stops, see [guard_ignores_stop]), with a stride below 2^64 - 1 (see
    [stride_wraps]), whatever the handler and the variables it changes, passes on the
    values that the functions on lists of [denote] give, in that order, until the handler
    stops it; a constructor that refuses its argument throws, and so do sample and batch
    when the vector they reserve is too large.  What containers take up as they grow is
    assumed to be there. *)
Theorem pipe_correct {A} (p : pipe A) : wf p →
  match build p, denote p with
  | Ret g, Ret d =>
      (∀ S (h : A → act S bool) s, apply g h s = feed (applied d).1 (applied d).2 h s) ∧
      (∀ S (b : A → act S unit) s, foreach g b s = each (visited d).1 (visited d).2 b s)
  | Err x, Err y => x = y
  | _, _ => False
  end.
Proof. apply pipe_correct_. Qed.

(** ** The contract of the members *)

(** Pipelines without the operators that end a sequence on their own account, and without
    order, whose two members may place equal values differently. *)
Fixpoint honest {T} (p : pipe T) : Prop :=
  match p with
  | PFrom _ | PFromCopy _ | PFromRange _ | PSeq _ _ _ | PYield _ | PEmpty | PJust _ | PJustCopy _ => True
  | PTake n _ | PSample _ n _ _ => 0 < n
  | PUntil _ _ => True
  | PGroupBy _ _ _ => True
  | PCycle _ _ _ | PInterleave _ _ | POrder _ _ _ => False
  | PZip _ _ => False
  | PChain p q => honest p ∧ honest q
  | PConcat f p => (∀ a, honest (f a)) ∧ honest p
  | PMap _ p => honest p
  | PFilter _ p | PDistinct _ _ p | PVirtual p | PSkip _ p | PStride _ p => honest p
  | PBatch _ _ p => honest p
  | PRangeConcat p => honest p
  | PDereference p => honest p
  | PIndirect p => honest p
  end.

(** Both members pass on the same values and end the same way; apply ends with false only when
    the handler says so. *)
Definition keeps {A} (d : den A) : Prop := ∃ l e, applied d = (l, ended e) ∧ visited d = (l, e).

Lemma keeps_inherited {A} (t : trace A bool) : t.2 ≠ Ret false → keeps (inherited t).
Proof. destruct t as [l [[]|x]]; intros Hb; [by exists l, (Ret tt)|done|by exists l, (Err x)]. Qed.

Section Keeps.
Context {A B : Type}.

Lemma mapT_keeps (f : A → outcome B) l e :
  mapT f l (ended (X := unit) e) = ((mapT f l e).1, ended (mapT f l e).2).
Proof. induction l as [|a l IH]; cbn; [done|]. destruct (f a); [by rewrite IH|done]. Qed.
Lemma filterT_keeps (f : A → outcome bool) l e :
  filterT f l (ended (X := unit) e) = ((filterT f l e).1, ended (filterT f l e).2).
Proof. induction l as [|a l IH]; cbn; [done|]. destruct (f a) as [[]|]; [by rewrite IH|done|done]. Qed.
Lemma distinctT_keeps {K} `{EqDecision K} (f : A → outcome K) seen l e :
  distinctT f seen l (ended (X := unit) e) = ((distinctT f seen l e).1, ended (distinctT f seen l e).2).
Proof.
  revert seen. induction l as [|a l IH]; intros seen; cbn; [done|]. destruct (f a); [|done].
  destruct (decide _); [done|by rewrite IH].
Qed.
Lemma untilT_true (f : A → outcome bool) l e : (untilT f l e).2 ≠ Ret false.
Proof. induction l as [|a l IH]; cbn; [by destruct e as [[]|]|]. by destruct (f a) as [[]|]. Qed.
Lemma takeT_true n (l : list A) e : n ≠ O → (takeT n l e).2 ≠ Ret false.
Proof. destruct n; [done|]. intros _. cbn. destruct (decide _); [done|]. by destruct e as [[]|]. Qed.
Lemma batchT_end n batch (l : list A) e : (batchT n batch l e).2 = e.
Proof. revert batch. induction l as [|a l IH]; intros batch; cbn; [done|]. destruct (decide _); cbn; apply IH. Qed.
Lemma concatT_keeps (k : A → outcome (den B)) l e : (∀ a d, k a = Ret d → keeps d) →
  let t := concatT always (fun a => d ← k a; Ret (visited d)) l e in
  concatT yes (fun a => d ← k a; Ret (applied d)) l (ended e) = (t.1, ended t.2).
Proof.
  intros Hk. induction l as [|a l IH]; cbn; [done|]. destruct (k a) as [d|] eqn:E; cbn; [|done].
  destruct (Hk a d E) as (l' & e' & -> & ->). destruct e' as [[]|]; cbn; [by rewrite IH|done].
Qed.
End Keeps.

Lemma honest_keeps {A} (p : pipe A) d : honest p → denote p = Ret d → keeps d.
Proof.
  revert d. induction p; cbn [honest denote]; intros d' Hh Hd; try contradiction;
    try match type of Hh with _ ∧ _ => destruct Hh as [Hh1 Hh2] end; inv_ret.
  - by exists l, (Ret tt).
  - by exists l, (Ret tt).
  - by exists l, (Ret tt).
  - exists (seqT tt fuel impl start).1, (seqT tt fuel impl start).2. split; [|by destruct (seqT tt _ _ _)]. cbn.
    revert start. induction fuel as [|fuel IH]; intros start; cbn; destruct (test impl start); try done.
    destruct (step impl start); [|done]. rewrite IH. by destruct (seqT tt _ _ _).
  - by exists (yielded y), (finish y).
  - by exists [], (Ret tt).
  - by exists [a], (Ret tt).
  - by exists [a], (Ret tt).
  - destruct (IHp1 _ Hh1 Hr) as (l & e & Ea & Ev), (IHp2 _ Hh2 Hr0) as (l' & e' & Ea' & Ev'). unfold keeps. cbn.
    rewrite Ea, Ev, Ea', Ev'. unfold chainT. destruct e as [[]|x]; cbn; [eauto|by exists l, (Err x)].
  - destruct (IHp _ Hh Hr) as (l & e & Ea & Ev). unfold keeps. cbn. rewrite Ea, Ev. cbn [fst snd]. rewrite mapT_keeps.
    eexists _, _. split; [done|]. by destruct (mapT _ _ _).
  - destruct (IHp _ Hh Hr) as (l & e & Ea & Ev). unfold keeps. cbn. rewrite Ea, Ev. cbn [fst snd]. rewrite filterT_keeps.
    eexists _, _. split; [done|]. by destruct (filterT _ _ _).
  - apply keeps_inherited, untilT_true.
  - apply keeps_inherited, takeT_true. lia.
  - destruct (n =? 0); [done|]. injection Hd as <-. destruct (IHp _ Hh Hr) as (l & e & Ea & Ev). unfold keeps. cbn.
    rewrite Ea, Ev. by eexists _, e.
  - destruct (IHp _ Hh Hr) as (l & e & Ea & Ev). unfold keeps. cbn. rewrite Ea, Ev. by eexists _, e.
  - apply keeps_inherited. destruct (Z.eqb_spec n 0); [lia|]. unfold reserved. destruct (container_reserve lim n); [|done]. destruct (foldT _ _ _) as [[[]]|]; [|done].
    by destruct (visited r) as [? []].
  - apply keeps_inherited. destruct (groupT _ _); [|done]. by destruct (visited r) as [? []].
  - destruct (IHp _ Hh Hr) as (l & e & Ea & Ev). unfold keeps. cbn. rewrite Ea, Ev. cbn [fst snd]. rewrite distinctT_keeps.
    eexists _, _. split; [done|]. by destruct (distinctT _ _ _ _).
  - destruct (n =? 0); [done|]. injection Hd as <-. destruct (IHp _ Hh Hr) as (l & e & Ea & Ev).
    apply keeps_inherited. unfold reserved. destruct (container_reserve lim n); [|done]. rewrite batchT_end, Ea. by destruct e.
  - destruct (IHp _ Hh2 Hr) as (l & e & Ea & Ev). unfold keeps. cbn [applied visited]. rewrite Ea, Ev. cbn [fst snd].
    rewrite concatT_keeps by eauto. eexists _, _. split; [done|]. by destruct (concatT always _ _ _).
  - destruct (IHp _ Hh Hr) as (l & e & Ea & Ev). unfold keeps. cbn. rewrite Ea, Ev. by eexists _, e.
  - destruct (IHp _ Hh Hr) as (l & e & Ea & Ev). unfold keeps. cbn. rewrite Ea, Ev. by eexists _, e.
  - destruct (IHp _ Hh Hr) as (l & e & Ea & Ev). unfold keeps. cbn. rewrite Ea, Ev. by eexists _, e.
  - by apply IHp.
Qed.

(** C8: The contract of GenImpl, for pipelines without take(0), sample(0), cycle, zip,
    interleave and order: apply and foreach pass on the same values and end with the same
    exception if any, and apply answers false only when the handler did. *)
Theorem pipe_contract {A} (p : pipe A) g : wf p → honest p → build p = Ret g →
  ∃ l e, (∀ S (h : A → act S bool) s, apply g h s = feed l (ended e) h s) ∧
         (∀ S (b : A → act S unit) s, foreach g b s = each l e b s).
Proof.
  intros Hw Hh Hg. assert (Hc := pipe_correct_ p Hw). rewrite Hg in Hc. destruct (denote p) as [d|] eqn:E; [|done].
  destruct (honest_keeps p d Hh E) as (l & e & Ea & Ev), Hc as [Ha Hv]. exists l, e.
  rewrite Ea in Ha. rewrite Ev in Hv. split; intros; [apply Ha|apply Hv].
Qed.

End Pipelines.
Arguments mk_den {A} _ _.
Arguments applied {A} _.
Arguments visited {A} _.
End GenSpec.
