(* ===== verification/GenUse.v ===== *)
(** Generators in use: what the sinks return on a pipeline, that order sorts, what the integer
    sequences hold, that a sample is drawn without replacement; and the operators that break
    the contract of apply, with what that does to a pipeline. *)
From Stdlib Require Import Sorted.
From S2P Require Import Prelude Conv ConvProof Gen GenProof GenSpec.

Module GenUse.
Import Gen GenProof GenSpec.

(** ** Sinks that stop early *)

Section Early.
Context {A T : Type} (g : Gen A) (ta : trace A bool) (s : T).
Hypothesis Ha : Applies g ta.

(** What a pipeline that is asked for one value does: it is not run further. *)
Definition first_of {X} (t : trace A bool) (none : X) (some : A → X) : outcome X :=
  match t.1 with a :: _ => Ret (some a) | [] => _ ← t.2; Ret none end.

Lemma First_spec : First g s = (first_of ta None Some, s).
Proof.
  unfold First. act. rewrite Ha. unfold first_of. destruct ta as [[|a l] e]; cbn; [by destruct e|done].
Qed.

Lemma IsEmpty_spec b : IsEmpty b g s = (first_of ta b (fun _ => negb b), s).
Proof.
  unfold IsEmpty. act. rewrite Ha. unfold first_of. destruct ta as [[|a l] e]; cbn; [by destruct e|done].
Qed.

Lemma Contains_spec eqb needle : ta.2 = Ret true →
  Contains eqb needle g s = (Ret (existsb (eqb needle) ta.1), s).
Proof.
  intros He. unfold Contains. act. rewrite Ha. destruct ta as [l e]. cbn in *. subst e. clear Ha.
  induction l as [|a l IH]; act; [done|]. destruct (eqb needle a); cbn; [done|]. apply IH.
Qed.
End Early.

Lemma filterT_values {A X} (f : A → bool) l (e : outcome X) :
  filterT (fun a => Ret (f a)) l e = (List.filter f l, e).
Proof. induction l as [|a l IH]; cbn; [done|]. rewrite IH. by destruct (f a). Qed.

(** any and all on a sequence that ends. *)
Lemma any_spec {A T} (g : Gen A) l f (s : T) : Applies g (l, Ret true) →
  any (fun a => Ret (f a)) g s = (Ret (existsb f l), s).
Proof.
  intros Ha. unfold any. rewrite (IsEmpty_spec _ _ _ (Filter_applies _ _ Ha _)). cbn [fst snd]. rewrite filterT_values.
  f_equal. unfold first_of. cbn. clear Ha. induction l as [|a l IH]; cbn; [done|]. by destruct (f a).
Qed.
Lemma all_spec {A T} (g : Gen A) l f (s : T) : Applies g (l, Ret true) →
  all (fun a => Ret (f a)) g s = (Ret (forallb f l), s).
Proof.
  intros Ha. unfold all. rewrite (IsEmpty_spec _ _ _ (Filter_applies _ _ Ha _)). cbn [fst snd].
  change (Negate (fun a => Ret (f a))) with (fun a => @Ret bool (negb (f a))). rewrite filterT_values.
  f_equal. unfold first_of. cbn. clear Ha. induction l as [|a l IH]; cbn; [done|]. by destruct (f a).
Qed.

(** ** Reduce and Min *)

Section Folding.
Context {A T : Type} (g : Gen A) (tv : trace A unit) (s : T).
Hypothesis Hv : Visits g tv.

Lemma Reduce_spec (f : A → A → A) : tv.2 = Ret tt →
  Reduce (fun a b => Ret (f a b)) g s = (Ret (match tv.1 with [] => None | a :: l => Some (foldl f a l) end), s).
Proof.
  intros He. unfold Reduce.
  rewrite (collects g tv s Hv (fun acc v => Ret (Some (match acc with Some a => f a v | None => v end)))) by pure_closure.
  rewrite foldT_ret, He. f_equal. f_equal. destruct tv.1 as [|a l]; cbn; [done|]. clear. revert a.
  induction l as [|b l IH]; intros a; cbn; [done|apply IH].
Qed.

Definition least_step {K} (sel : A → K) (lt : K → K → bool) (acc : option A) (v : A) : option A :=
  match acc with None => Some v | Some m => if lt (sel v) (sel m) then Some v else Some m end.

Lemma Min_spec {K} (sel : A → K) (lt : K → K → bool) : tv.2 = Ret tt →
  Min (fun a => Ret (sel a)) lt g s = (Ret (foldl (least_step sel lt) None tv.1), s).
Proof.
  intros He. unfold Min.
  pose (f := fun (acc : option K * option A) (v : A) =>
    if match acc.1 with None => true | Some mk => lt (sel v) mk end then (Some (sel v), Some v) else acc).
  assert (folds_by (T := T) (fun acc v => Ret (f acc v)) (fun v =>
    '(minKey, min) ← get_local; key ← raise (Ret (sel v));
    if match minKey with None => true | Some mk => lt key mk end then set_local (Some key, Some v) else mret tt)) as Hf.
  { intros v [mk m] s'. unfold dropped, f. act. destruct mk as [mk|]; [destruct (lt (sel v) mk)|]; naive_solver. }
  assert (E := collects g tv s Hv _ _ (None, None) (fun '(_, m) => mret m) Hf).
  unfold mbind, act_bind in *. etrans; [|etrans; [apply E|]].
  { by destruct (with_locals _ _ s) as [[[? []]|] ?]. }
  rewrite foldT_ret, He. assert (∀ l m, foldl f (sel <$> m, m) l = (sel <$> foldl (least_step sel lt) m l, foldl (least_step sel lt) m l)) as H.
  { induction l as [|a l IH]; intros m; cbn; [done|]. rewrite <- IH. f_equal. unfold f, least_step. destruct m as [m|]; cbn; [|done].
    by destruct (lt (sel a) (sel m)). }
  specialize (H tv.1 None). cbn in H. by rewrite H.
Qed.
End Folding.

(** The fold of Min picks a least element, the first of them. *)
Lemma least_correct {A K} (sel : A → K) (lt : K → K → bool) l : strict_weak lt →
  match foldl (least_step sel lt) None l with
  | None => l = []
  | Some m => ∃ l1 l2, l = l1 ++ m :: l2 ∧ (∀ x, x ∈ l1 → lt (sel m) (sel x) = true) ∧ (∀ x, x ∈ l2 → lt (sel x) (sel m) = false)
  end.
Proof.
  intros (Hirr & Htr & Hneg). induction l as [|a l IH] using rev_ind; [done|]. rewrite foldl_app. cbn.
  destruct (foldl (least_step sel lt) None l) as [m|]; cbn; [|subst l; exists [], []; set_solver].
  destruct IH as (l1 & l2 & -> & H1 & H2). destruct (lt (sel a) (sel m)) eqn:E.
  - exists (l1 ++ m :: l2), []. split; [done|]. split; [|set_solver]. intros x Hx.
    rewrite elem_of_app, elem_of_cons in Hx. destruct Hx as [Hx|[->|Hx]]; [by eapply Htr; eauto|done|].
    destruct (lt (sel a) (sel x)) eqn:F; [done|]. assert (lt (sel a) (sel m) = false) as G by (eapply Hneg; [apply H2, Hx|done]). congruence.
  - exists l1, (l2 ++ [a]). rewrite <- app_assoc. split; [done|]. split; [done|]. set_solver.
Qed.

Section Uses.
Context `{StdAlgorithms} `{Iteration}.

(** On a pipeline that ends, the sinks return what they say of its values: all of them, the
    first, their number, whether some or all satisfy a predicate, their reduction, and the
    first of the least ones under a strict weak ordering. *)
Theorem sinks_correct {A T} (p : pipe A) g d l (s : T) :
  wf p → honest p → build p = Ret g → denote p = Ret d → visited d = (l, Ret tt) →
  Collect g s = (Ret l, s) ∧
  First g s = (Ret (head l), s) ∧
  Count g s = (Ret (u64 (Z.of_nat (length l))), s) ∧
  (∀ f, any (fun a => Ret (f a)) g s = (Ret (existsb f l), s)) ∧
  (∀ f, all (fun a => Ret (f a)) g s = (Ret (forallb f l), s)) ∧
  (∀ f, Reduce (fun a b => Ret (f a b)) g s = (Ret (match l with [] => None | a :: l => Some (foldl f a l) end), s)) ∧
  (∀ K (sel : A → K) lt, strict_weak lt → ∃ o, Min (fun a => Ret (sel a)) lt g s = (Ret o, s) ∧
     match o with
     | None => l = []
     | Some m => ∃ l1 l2, l = l1 ++ m :: l2 ∧ (∀ x, x ∈ l1 → lt (sel m) (sel x) = true) ∧
                          (∀ x, x ∈ l2 → lt (sel x) (sel m) = false)
     end).
Proof.
  intros Hw Hh Hg Hd El. assert (Hc := pipe_correct_ p Hw). rewrite Hg, Hd in Hc. destruct Hc as [Ha Hv].
  destruct (honest_keeps p d Hh Hd) as (l' & e & Ea & Ev). rewrite El in Ev. injection Ev as <- <-.
  rewrite Ea in Ha. rewrite El in Hv. split_and!.
  - by rewrite (Collect_spec g _ s Hv).
  - rewrite (First_spec g _ s Ha). by destruct l.
  - by rewrite (Count_spec g _ s Hv).
  - intros f. by apply any_spec.
  - intros f. by apply all_spec.
  - intros f. by rewrite (Reduce_spec g _ s Hv).
  - intros K sel lt Hlt. eexists. split; [by rewrite (Min_spec g _ s Hv)|]. by apply least_correct.
Qed.

(** ** Ordering *)

Lemma pops_sorted {A K} (sel : A → K) (cmp : K → K → bool) fuel heap :
  strict_weak cmp → is_heap (fun a b => cmp (sel b) (sel a)) heap → (length heap < fuel)%nat →
  StronglySorted (fun a b => cmp (sel b) (sel a) = false) (pops sel cmp fuel heap).
Proof.
  intros Hw. revert heap. induction fuel as [|fuel IH]; intros heap Hh Hf; [lia|]. destruct heap as [|x heap']; [constructor|].
  set (heap := x :: heap') in *. destruct (pop_heap_split sel cmp Hw heap) as (h & a & E & Hp & Hh' & Hmin); [done|done|].
  cbn. fold heap. rewrite E, last_snoc, removelast_last.
  assert (length h < fuel)%nat by (apply Permutation_length in Hp; cbn in *; lia).
  constructor; [by apply IH|]. apply Forall_forall. intros b Hb. apply Hmin.
  by rewrite pops_permutation in Hb.
Qed.

(** order and orderBy: whatever the source, when it ends both members pass on a permutation
    of its values in which no value comes before one with a smaller key. *)
Theorem order_sorted {A K} (sel : A → K) (cmp : K → K → bool) (p : pipe A) g d l :
  wf (POrder sel cmp p) → build (POrder sel cmp p) = Ret g → denote p = Ret d → visited d = (l, Ret tt) →
  ∃ la lv, la ≡ₚ l ∧ lv ≡ₚ l ∧
    StronglySorted (fun a b => cmp (sel b) (sel a) = false) la ∧
    StronglySorted (fun a b => cmp (sel b) (sel a) = false) lv ∧
    (∀ S (h : A → act S bool) s, apply g h s = feed la (Ret true) h s) ∧
    (∀ S (b : A → act S unit) s, foreach g b s = each lv (Ret tt) b s).
Proof.
  intros Hw Hg Hd El. assert (Hc := proj1 Hw). assert (Hp := pipe_correct_ (POrder sel cmp p) Hw). rewrite Hg in Hp. cbn [denote] in Hp.
  rewrite Hd in Hp. cbn in Hp. rewrite El in Hp. destruct Hp as [Ha Hv].
  exists (heap_order sel cmp l), (sort (fun a b => cmp (sel a) (sel b)) l).
  assert (strict_weak (fun a b : A => cmp (sel b) (sel a))) as Hf by (by apply over_strict_weak).
  split_and!; [|by apply sort_permutation, strict_weak_on| | |apply Ha|apply Hv].
  - unfold heap_order. rewrite pops_permutation by (done || (by apply make_heap_heap) || lia). by apply make_heap_permutation.
  - apply pops_sorted; [done|by apply make_heap_heap|lia].
  - apply sort_sorted. by apply strict_weak_on.
Qed.

(** ** Where the contract is broken *)

Section Deviations.
Context {A : Type} (g g' : Gen A) (d d' : den A).
Hypothesis Hg : Denotes g d.
Hypothesis Hg' : Denotes g' d'.

(** take(0) answers false, so that a chain which is stopped never reaches its second part:
    the first value of take(0) + g' is none, although a vector of it holds those of g'. *)
Theorem take0_hides {T} (s : T) :
  Collect (Chain (Take 0 g) g') s = (_ ← (visited d').2; Ret (visited d').1, s) ∧
  First (Chain (Take 0 g) g') s = (Ret None, s).
Proof.
  assert (Denotes (Take 0 g) (inherited ([], Ret false))) as Ht
    by (apply inherits, (Take_applies g (applied d)); [apply Hg|lia]).
  destruct (Chain_denotes _ _ _ _ Ht Hg') as [Ha Hv]. split; [by rewrite (Collect_spec _ _ s Hv)|]. by rewrite (First_spec _ _ s Ha).
Qed.

(** The same for a zip with a shorter container. *)
Theorem zip_hides {B} (c : list B) (h : Gen (A * B)) (t : trace A bool) (e : den (A * B)) :
  Applies g t → Denotes h e → (length c < length t.1)%nat →
  Applies (Chain (Zip c g) h) (zip t.1 c, Ret false).
Proof.
  intros Ht He Hl. destruct (Chain_denotes _ _ _ _ (inherits _ _ (Zip_applies g _ Ht c)) He) as [Ha _].
  cbn in Ha. assert (zipT c t.1 t.2 = (zip t.1 c, Ret false)) as E.
  { destruct t as [l x]. cbn in *. clear Ha Ht. revert c Hl. induction l as [|a l IH]; intros c Hl; [cbn in Hl; lia|].
    destruct c as [|b c]; [done|]. cbn in *. by rewrite IH by lia. }
  rewrite E in Ha. apply Ha.
Qed.
End Deviations.

(** ** guard *)

Lemma Guard_feed {A T} (Exception : string → bool) (handler : string → A → outcome bool) (l : list A) e (h : A → act T bool) s :
  (∀ a s, ∃ b s', h a s = (Ret b, s')) →
  feed l e (fun value s => match h value s with
    | (Ret _, s') => (Ret true, s')
    | (Err (Thrown x), s') => if Exception x then raise (handler x value) s' else (Err (Thrown x), s')
    | (Err x, s') => (Err x, s')
    end) s
  = feed l e (fun value => _ ← h value; mret true) s.
Proof.
  intros Hh. apply feed_ext. intros a s'. destruct (Hh a s') as (b & s1 & E). unfold mbind, act_bind. by rewrite E.
Qed.

(** A handler that always wants more folds its state over the values. *)
Lemma feed_folds {A T} (l : list A) (h : A → act T bool) (f : T → A → T) s :
  (∀ a s, h a s = (Ret true, f s a)) → feed l (Ret true) h s = (Ret true, foldl f s l).
Proof. intros Hh. revert s. induction l as [|a l IH]; intros s; [done|]. cbn. unfold mbind, act_bind. by rewrite Hh. Qed.

(** guard does not pass on the answer of the handler downstream, so nothing behind it can
    stop the source: the first value of a guarded sequence is its last one, and taking n values
    of it gives all of them. *)
Theorem guard_ignores_stop {A T} (g : Gen A) l Exception handler n (s : T) :
  Applies g (l, Ret true) → 0 < n < 2 ^ 64 →
  First (GuardImpl Exception handler g) s = (Ret (list.last l), s) ∧
  Collect (Take n (GuardImpl Exception handler g)) s = (Ret l, s).
Proof.
  intros Ha Hn. split.
  - unfold First. unfold mbind at 1, act_bind at 1. unfold with_locals. cbn [apply GuardImpl with_foreach]. rewrite Ha.
    rewrite Guard_feed by (intros a [? ?]; by eexists _, _). cbn [fst snd]. clear Ha.
    rewrite (feed_folds _ _ (fun st v => (Some v, st.2))) by (by intros a [? ?]). cbn [foldl].
    assert (∀ o, foldl (fun (st : option A * T) v => (Some v, st.2)) (o, s) l =
      (match list.last l with Some a => Some a | None => o end, s)) as ->.
    { induction l as [|a l IH]; intros o; [done|]. cbn [foldl]. rewrite IH, last_cons. by destruct (list.last l). }
    cbn. by destruct (list.last l).
  - unfold Collect. unfold mbind at 1, act_bind at 1. unfold with_locals at 1. cbn [foreach Take with_foreach].
    unfold GenImpl_foreach. unfold mbind at 1, act_bind at 1. destruct (Z.eqb_spec n 0); [lia|].
    unfold mbind at 1, act_bind at 1. unfold with_locals. cbn [apply GuardImpl with_foreach]. rewrite Ha.
    rewrite Guard_feed by (intros a [[? ?] [? ?]]; cbn; act; by eexists _, _). cbn [fst snd].
    rewrite (feed_folds _ _ (fun st v => ((u64 (st.1.1 - 1), st.1.2), (st.2.1 ++ [v], st.2.2)))) by (by intros a [[? ?] [? ?]]).
    assert (∀ m c, ∃ m', foldl (fun (st : Z * bool * (list A * T)) v => ((u64 (st.1.1 - 1), st.1.2), (st.2.1 ++ [v], st.2.2)))
      (m, false, (c, s)) l = (m', false, (c ++ l, s))) as Hfold.
    { clear Ha. induction l as [|a l IH]; intros m c; cbn; [exists m; by rewrite app_nil_r|].
      destruct (IH (u64 (m - 1)) (c ++ [a])) as [m' ->]. exists m'. by rewrite <- app_assoc. }
    by destruct (Hfold n []) as [m' ->].
Qed.

(** ** Sampling *)

Lemma insert_submseteq {A} (r l : list A) i v : (i < length r)%nat → r ⊆+ l → <[i := v]> r ⊆+ l ++ [v].
Proof.
  intros Hi Hr. destruct (lookup_lt_is_Some_2 r i Hi) as [x Hx]. rewrite insert_take_drop by done.
  rewrite <- (take_drop_middle r i x Hx) in Hr. rewrite <- Permutation_middle, <- Permutation_cons_append.
  apply submseteq_skip. rewrite <- Permutation_middle in Hr. etrans; [|exact Hr]. by apply submseteq_cons.
Qed.

(** Reservoir sampling keeps [count] of the values, or all when there are fewer, without
    drawing one twice, whatever the random numbers. *)
Theorem sample_correct {A} (count : Z) (rng : nat → Z) (l : list A) :
  0 < count < 2 ^ 64 → Z.of_nat (length l) < 2 ^ 64 - 1 → (∀ i, 0 ≤ rng i) →
  ∃ r drawn, foldT (reservoir count rng) ([], 1, O) l = Ret (r, 1 + Z.of_nat (length l), drawn) ∧
    r ⊆+ l ∧ length r = Nat.min (Z.to_nat count) (length l).
Proof.
  intros Hc Hl Hr. induction l as [|v l IH] using rev_ind; [exists [], O; split; [done|]; split; [done|cbn; lia]|].
  rewrite length_app in Hl. cbn in Hl. destruct IH as (r & k & E & Hs & Hlen); [lia|].
  rewrite foldT_app, E. cbn. rewrite length_app. cbn. rewrite u64_small by lia.
  replace (1 + Z.of_nat (length l) + 1) with (1 + Z.of_nat (length l + 1)) by lia.
  destruct (Z.ltb_spec (Z.of_nat (length r)) count).
  - exists (r ++ [v]), k. split; [done|]. split; [by apply submseteq_app|]. rewrite length_app. cbn. lia.
  - assert (0 ≤ rng k mod (1 + Z.of_nat (length l))) by (apply Z.mod_pos_bound; lia).
    destruct (Z.ltb_spec (rng k mod (1 + Z.of_nat (length l))) (Z.of_nat (length r))).
    + unfold vset. rewrite (proj2 (Z.leb_le 0 _)), (proj2 (Z.ltb_lt _ _)) by done. cbn. eexists _, (S k). split; [done|]. split.
      * by apply insert_submseteq; [lia|].
      * rewrite length_insert. lia.
    + cbn. exists r, (S k). split; [done|]. split; [by apply submseteq_inserts_r|lia].
Qed.

(** ** Integer sequences *)

Lemma plus_in_range t x y : t ∈ Conv.itypes → Conv.tmin t ≤ x + y ≤ Conv.tmax t → plus t x y = Ret (x + y).
Proof.
  intros Ht Hr. unfold plus. destruct (_ && _).
  - rewrite (proj2 (Z.leb_le _ _)), (proj2 (Z.leb_le _ _)) by lia. done.
  - by rewrite ConvProof.cast_in_range.
Qed.

(** range(a, b) is a, ..., b - 1: the loop ends, whatever the integer type. *)
Theorem range_values {X} (x : X) t a b fuel : t ∈ Conv.itypes → Conv.tmin t ≤ a → b ≤ Conv.tmax t →
  (Z.to_nat (b - a) ≤ fuel)%nat → seqT x fuel (RangeImpl t b) a = (seqZ a (b - a), Ret x).
Proof.
  intros Ht Ha Hb. revert a Ha. induction fuel as [|fuel IH]; intros a Ha Hf; cbn; destruct (Z.ltb_spec a b); try lia.
  1, 3: rewrite seqZ_nil by lia; done.
  rewrite plus_in_range by (done || lia). rewrite IH by lia. rewrite (seqZ_cons a) by lia. cbn.
  by replace (b - (a + 1)) with (Z.pred (b - a)) by lia.
Qed.

(** seq(a, b) is a, ..., b when b is not the largest value of its type. *)
Theorem seq_values {X} (x : X) t a b fuel : t ∈ Conv.itypes → Conv.tmin t ≤ a → b < Conv.tmax t →
  (Z.to_nat (b + 1 - a) ≤ fuel)%nat → seqT x fuel (SeqImpl t b) a = (seqZ a (b + 1 - a), Ret x).
Proof.
  intros Ht Ha Hb. revert a Ha. induction fuel as [|fuel IH]; intros a Ha Hf; cbn; destruct (Z.leb_spec a b); try lia.
  1, 3: rewrite seqZ_nil by lia; done.
  rewrite plus_in_range by (done || lia). rewrite IH by lia. rewrite (seqZ_cons a) by lia. cbn.
  by replace (b + 1 - (a + 1)) with (Z.pred (b + 1 - a)) by lia.
Qed.

(** seq(a, max) does not end: the step after max wraps round or is undefined. *)
Theorem seq_max_never_ends {X} (x : X) t a fuel : t ∈ Conv.itypes → Conv.tmin t ≤ a ≤ Conv.tmax t →
  (seqT x fuel (SeqImpl t (Conv.tmax t)) a).2 = Err OutOfFuel ∨ (seqT x fuel (SeqImpl t (Conv.tmax t)) a).2 = Err Undefined.
Proof.
  intros Ht. revert a. induction fuel as [|fuel IH]; intros a Ha; cbn; rewrite (proj2 (Z.leb_le a _)) by lia; [by left|].
  destruct (decide (a + 1 ≤ Conv.tmax t)).
  - rewrite plus_in_range by (done || lia). apply IH. lia.
  - replace a with (Conv.tmax t) by lia. assert (plus t (Conv.tmax t) 1 = Err Undefined ∨ plus t (Conv.tmax t) 1 = Ret (Conv.tmin t)) as [->| ->].
    { clear -Ht. unfold Conv.itypes in Ht. rewrite !elem_of_cons in Ht. destruct_or!; subst; try by right; vm_compute. all: try by left; vm_compute.
      by apply elem_of_nil in Ht. }
    + by right.
    + apply IH. lia.
Qed.

Lemma stride_idle {A T} n (l : list A) e (b : A → act T unit) d s : 0 ≤ d → d + Z.of_nat (length l) < n → n < 2 ^ 64 →
  dropped (each l e (Stride_body n b) (d, s)) = (e, s).
Proof.
  revert d. induction l as [|a l IH]; intros d Hd Hn Hu; [done|]. cbn in Hn. act. unfold Stride_body at 1. act.
  rewrite u64_small by lia. destruct (Z.leb_spec n (d + 1)); [lia|]. apply IH; lia.
Qed.

(** A stride of the largest size_t passes on nothing, not even the first value: its counter
    wraps to 0. *)
Theorem stride_wraps {A} (l : list A) : Z.of_nat (length l) < 2 ^ 64 - 1 →
  ∃ g, Stride (2 ^ 64 - 1) (ReferencedSource l) = Ret g ∧ ∀ T (s : T), Collect g s = (Ret [], s).
Proof.
  intros Hl. unfold Stride. rewrite (proj2 (Z.eqb_neq _ _)) by done. eexists. split; [done|]. intros T s.
  unfold Collect. unfold mbind at 1, act_bind at 1. unfold with_locals at 1. cbn [foreach]. rewrite with_locals_void.
  cbn [foreach ReferencedSource]. rewrite container_foreach_each. destruct l as [|a l]; [done|].
  set (body := fun v => _). assert (dropped (each (a :: l) (Ret tt) (Stride_body (2 ^ 64 - 1) body) (2 ^ 64 - 1, ([], s))) = (Ret tt, ([], s))) as ->; [|done].
  rewrite <- (stride_idle (2 ^ 64 - 1) l (Ret tt) body 0 ([], s)) by (cbn in *; lia). reflexivity.
Qed.

End Uses.

(** ** An instance of the library's algorithms *)

Module Insertion.
Fixpoint insert {A} (lt : A → A → bool) (a : A) (l : list A) : list A :=
  match l with
  | [] => [a]
  | b :: l => if lt b a then b :: insert lt a l else a :: b :: l
  end.
Definition isort {A} (lt : A → A → bool) (l : list A) : list A := foldr (insert lt) [] l.

Lemma insert_permutation {A} lt (a : A) l : insert lt a l ≡ₚ a :: l.
Proof. induction l as [|b l IH]; cbn; [done|]. destruct (lt b a); [rewrite IH; apply Permutation_swap|done]. Qed.
Lemma isort_permutation {A} lt (l : list A) : isort lt l ≡ₚ l.
Proof. induction l as [|a l IH]; cbn; [done|]. by rewrite insert_permutation, IH. Qed.
Lemma isort_sorted {A} lt (l : list A) : strict_weak lt → StronglySorted (fun a b => lt b a = false) (isort lt l).
Proof.
  intros (Hi & Ht & Hn). unfold isort. induction l as [|a l IH]; cbn; [constructor|]. revert IH. generalize (foldr (insert lt) [] l) as k.
  induction k as [|b k IHk]; intros Hk; cbn; [by repeat constructor|]. inversion Hk as [|?? Hs Hf]; subst.
  destruct (lt b a) eqn:E.
  - constructor; [by apply IHk|]. rewrite insert_permutation. constructor; [|done].
    destruct (lt a b) eqn:F; [|done]. specialize (Ht _ _ _ E F). by rewrite Hi in Ht.
  - constructor; [done|]. constructor; [done|]. eapply Forall_impl; [exact Hf|]. intros c Hc. by eapply Hn.
Qed.

#[local] Program Instance algorithms : StdAlgorithms := {|
  sort A lt l := isort lt l;
  is_heap A lt l := StronglySorted (fun a b => lt b a = false) l;
  make_heap A lt l := isort lt l;
  pop_heap A lt l := l
|}.
Next Obligation. intros. apply isort_permutation. Qed.
Next Obligation. intros. by apply isort_sorted. Qed.
Next Obligation. intros. apply isort_permutation. Qed.
Next Obligation. intros. by apply isort_sorted. Qed.
Next Obligation. done. Qed.
Next Obligation.
  cbn. intros A lt l h a _ Hs ->. induction h as [|b h IH]; cbn in *; [split; [constructor|set_solver]|].
  inversion Hs as [|?? Hs' Hf]; subst. destruct (IH Hs') as [Hh Hm]. apply Forall_app in Hf as [Hf Ha].
  split; [by constructor|]. intros c [->|Hc]%elem_of_cons; [by inversion Ha|auto].
Qed.

#[local] Program Instance in_order : Iteration := {| iterate A l := l |}.
Next Obligation. done. Qed.

(** seq(1, 10) | filter(even) | batch(2) | rconcat, chained with a vector. *)
Definition example : pipe Z :=
  PChain (PRangeConcat (PBatch (mk_limits (2 ^ 60) 1000) 2 (PFilter (fun x => Ret (Z.even x)) (PSeq 10 1 (SeqImpl Conv.int32_t 10)))))
         (PTake 2 (PFrom [100; 200; 300])).
Definition example_values : list Z := [2; 4; 6; 8; 10; 100; 200].

Lemma pipe_correct_witness : wf example ∧
  match build example, denote example with
  | Ret g, Ret d =>
      (∀ S (h : Z → act S bool) s, apply g h s = feed (applied d).1 (applied d).2 h s) ∧
      (∀ S (b : Z → act S unit) s, foreach g b s = each (visited d).1 (visited d).2 b s)
  | Err x, Err y => x = y
  | _, _ => False
  end.
Proof. assert (wf example) as Hw by (cbn; lia). split; [exact Hw|]. exact (pipe_correct example Hw). Defined.

Lemma pipe_contract_witness : ∃ g l e, build example = Ret g ∧
  (∀ S (h : Z → act S bool) s, apply g h s = feed l (ended e) h s) ∧
  (∀ S (b : Z → act S unit) s, foreach g b s = each l e b s).
Proof.
  assert (wf example) as Hw by (cbn; lia). assert (honest example) as Hh by (cbn; lia).
  destruct (pipe_contract example _ Hw Hh eq_refl) as (l & e & H). eexists _, l, e. split; [reflexivity|exact H].
Defined.

Lemma sinks_correct_witness : ∃ g, build example = Ret g ∧ Collect (S := unit) g tt = (Ret example_values, tt).
Proof.
  assert (wf example) as Hw by (cbn; lia). assert (honest example) as Hh by (cbn; lia). eexists. split; [reflexivity|].
  apply (sinks_correct example _ _ example_values tt Hw Hh eq_refl eq_refl). vm_compute. reflexivity.
Defined.

Lemma Zltb_strict_weak : strict_weak Z.ltb.
Proof. unfold strict_weak. split_and!; intros; rewrite ?Z.ltb_lt, ?Z.ltb_ge in *; lia. Qed.

Lemma order_sorted_witness : ∃ g la lv, build (POrder (fun x => - x) Z.ltb (PFrom [3; 9; 4])) = Ret g ∧
  la ≡ₚ [3; 9; 4] ∧ lv ≡ₚ [3; 9; 4] ∧
  StronglySorted (fun a b => (- b <? - a) = false) la ∧ StronglySorted (fun a b => (- b <? - a) = false) lv ∧
  (∀ S (h : Z → act S bool) s, apply g h s = feed la (Ret true) h s) ∧
  (∀ S (b : Z → act S unit) s, foreach g b s = each lv (Ret tt) b s).
Proof.
  destruct (order_sorted (fun x => - x) Z.ltb (PFrom [3; 9; 4]) _ _ [3; 9; 4] (conj Zltb_strict_weak I) eq_refl eq_refl eq_refl)
    as (la & lv & H). eexists _, la, lv. split; [reflexivity|exact H].
Defined.

Lemma guard_ignores_stop_witness :
  First (S := unit) (GuardImpl (fun _ => true) (fun _ _ => Ret true) (ReferencedSource [1; 2; 3])) tt = (Ret (Some 3), tt) ∧
  Collect (S := unit) (Take 1 (GuardImpl (fun _ => true) (fun _ _ => Ret true) (ReferencedSource [1; 2; 3]))) tt = (Ret [1; 2; 3], tt).
Proof.
  apply (guard_ignores_stop (ReferencedSource [1; 2; 3]) [1; 2; 3]); [|lia].
  apply Referenced_traces.
Defined.
End Insertion.

End GenUse.
