(* ===== verification/GenString.v ===== *)
(** gen/String.h and gen/String-inl.h: generators of text.  A StringPiece is the list of its chars
    as unsigned bytes; the IOBuf in which a StreamSplitter keeps an incomplete line is the bytes it
    holds (reserve makes the room that the following memcpy uses). *)
From S2P Require Import Prelude Range RangeProof Gen GenProof.

Module GenString.
Import Gen.

(** The members advance and subtract of a StringPiece. *)
Definition advance (s : list Z) (n : nat) : outcome (list Z) :=
  if (length s <? n)%nat then Err (Thrown "index out of range") else Ret (drop n s).
Definition subtract (s : list Z) (n : nat) : outcome (list Z) :=
  if (length s <? n)%nat then Err (Thrown "index out of range") else Ret (take (length s - n) s).

(** What the overloads of splitPrefix and SplitStringSource take. *)
Inductive Delimiter :=
| DChar (c : Z)
| DPiece (d : list Z)
| MixedNewlines.

Section Split.
(** What the uninitialised arrays of the byte set hold. *)
Context (sparse0 dense0 : list Z).

Definition kCRLF : list Z := [13; 10].

(** The number of bytes of the delimiter, or 0; the consumed prefix; the rest. *)
Definition splitPrefix (delimiter : Delimiter) (in_ : list Z) : outcome (nat * list Z * list Z) :=
  match delimiter with
  | DChar c =>
      match Range.qfind_value in_ c with
      | Some found =>
          let found := S found in
          rest ← advance in_ found;
          Ret (1%nat, take found in_, rest)
      | None => Ret (0%nat, [], in_)
      end
  | DPiece d =>
      o ← Range.qfind Range.asciiCaseSensitive in_ d;
      match o with
      | Some found =>
          let found := (found + length d)%nat in
          rest ← advance in_ found;
          Ret (length d, take found in_, rest)
      | None => Ret (0%nat, [], in_)
      end
  | MixedNewlines =>
      o ← Range.qfind_first_byte_of_nosse sparse0 dense0 in_ kCRLF;
      match o with
      | Some p =>
          rest ← advance in_ p;
          '(delim_len, rest) ←
            (if bool_decide (take 2 rest = kCRLF) then Ret (2%nat, drop 2 rest)
             else rest ← advance rest 1; Ret (1%nat, rest));
          Ret (delim_len, take (length in_ - length rest) in_, rest)
      | None => Ret (0%nat, [], in_)
      end
  end.

(** while (delim_len = splitPrefix(...)): a turn consumes at least the delimiter. *)
Fixpoint SplitStringSource_loop {S} (fuel : nat) (delimiter : Delimiter) (rest : list Z)
    (body : list Z → act S bool) : act S bool :=
  match fuel with
  | O => raise (Err OutOfFuel)
  | Datatypes.S fuel =>
      '(delim_len, prefix, rest) ← raise (splitPrefix delimiter rest);
      if (delim_len =? 0)%nat then
        match rest with [] => mret true | _ => body rest end
      else
        prefix ← raise (subtract prefix delim_len);
        c ← body prefix;
        if negb c then mret false else SplitStringSource_loop fuel delimiter rest body
  end.
Definition SplitStringSource (source_ : list Z) (delimiter : Delimiter) : Gen (list Z) :=
  with_foreach (fun S body => SplitStringSource_loop (Datatypes.S (length source_)) delimiter source_ body).

End Split.

(** ** StreamSplitter *)

(** The object's buffer_ is the local component of the state. *)
Section StreamSplitter.
Context {S : Type} (delimiter_ maxLength_ : Z) (pieceCb_ : list Z → act S bool).

(** while (!s.empty()): a turn consumes at least one byte. *)
Fixpoint consumeFixedSizeChunks (fuel : nat) (s : list Z) : act (list Z * S) bool :=
  match s with
  | [] => mret true
  | _ =>
      match fuel with
      | O => raise (Err OutOfFuel)
      | Datatypes.S fuel =>
          let num_to_add := Z.of_nat (length s) in
          let num_to_add := if maxLength_ =? 0 then num_to_add else Z.min num_to_add maxLength_ in
          c ← outer (pieceCb_ (take (Z.to_nat num_to_add) s));
          if negb c then mret false else
          s ← raise (advance s (Z.to_nat num_to_add));
          consumeFixedSizeChunks fuel s
      end
  end.

(** The rest of s, unless the callback stops. *)
Definition consumeBufferPlus (s : list Z) (n : Z) : act (list Z * S) (option (list Z)) :=
  _ ← raise (check ((0 <=? n) && (n <=? Z.of_nat (length s))) Undefined);
  buf ← get_local;
  let buf := buf ++ take (Z.to_nat n) s in
  _ ← set_local buf;
  s ← raise (advance s (Z.to_nat n));
  c ← outer (pieceCb_ buf);
  if negb c then mret None else
  _ ← set_local [];
  mret (Some s).

Definition RDDCHECK {T} (b : bool) : act T unit := raise (check b AssertFailed).

Definition flush : act (list Z * S) bool :=
  buffer_ ← get_local;
  _ ← RDDCHECK ((maxLength_ =? 0) || (Z.of_nat (length buffer_) <? maxLength_));
  c ← outer (pieceCb_ buffer_);
  if negb c then mret false else
  _ ← set_local [];
  mret true.

Definition split1 (in_ : list Z) : act (list Z * S) (bool * list Z * list Z) :=
  '(n, prefix, rest) ← raise (splitPrefix [] [] (DChar delimiter_) in_);
  mret (negb (n =? 0)%nat, prefix, rest).

(** What happens when the buffer is not empty: the results of the search that the code goes on
    with, or that the callback stops. *)
Definition consume_buffered (found : bool) (prefix in_ : list Z) :
    act (list Z * S) (option (bool * list Z * list Z)) :=
  buffer_ ← get_local;
  let length_ := Z.of_nat (length buffer_) in
  if found then
    let num_to_add := Z.of_nat (length prefix) in
    num_to_add ← (if maxLength_ =? 0 then mret num_to_add else
      _ ← RDDCHECK (length_ <? maxLength_);
      mret (Z.min (maxLength_ - length_) num_to_add));
    o ← consumeBufferPlus prefix num_to_add;
    match o with
    | None => mret None
    | Some prefix =>
        c ← consumeFixedSizeChunks (length prefix) prefix;
        if negb c then mret None else
        r ← split1 in_;
        mret (Some r)
    end
  else if negb (maxLength_ =? 0) && (maxLength_ <=? length_ + Z.of_nat (length in_)) then
    o ← consumeBufferPlus in_ (maxLength_ - length_);
    match o with
    | None => mret None
    | Some in_ => mret (Some (found, prefix, in_))
    end
  else mret (Some (found, prefix, in_)).

(** while (found): a turn consumes at least the delimiter. *)
Fixpoint consume_lines (fuel : nat) (found : bool) (prefix in_ : list Z) :
    act (list Z * S) (option (list Z)) :=
  if found then
    match fuel with
    | O => raise (Err OutOfFuel)
    | Datatypes.S fuel =>
        c ← consumeFixedSizeChunks (length prefix) prefix;
        if negb c then mret None else
        '(found, prefix, in_) ← split1 in_;
        consume_lines fuel found prefix in_
    end
  else mret (Some in_).

(** while (in.size() >= maxLength_): a turn consumes maxLength_ bytes. *)
Fixpoint consume_rest (fuel : nat) (in_ : list Z) : act (list Z * S) (option (list Z)) :=
  if maxLength_ <=? Z.of_nat (length in_) then
    match fuel with
    | O => raise (Err OutOfFuel)
    | Datatypes.S fuel =>
        c ← outer (pieceCb_ (take (Z.to_nat maxLength_) in_));
        if negb c then mret None else
        in_ ← raise (advance in_ (Z.to_nat maxLength_));
        consume_rest fuel in_
    end
  else mret (Some in_).

(** No more delimiters left: what is too long is consumed, the rest is appended to the buffer. *)
Definition keep_rest (in_ : list Z) : act (list Z * S) bool :=
  o ← (if maxLength_ =? 0 then mret (Some in_)
       else consume_rest (Datatypes.S (length in_)) in_);
  match o with
  | None => mret false
  | Some in_ =>
      buffer_ ← get_local;
      let buffer_ := buffer_ ++ in_ in
      _ ← set_local buffer_;
      _ ← RDDCHECK ((maxLength_ =? 0) || (Z.of_nat (length buffer_) <? maxLength_));
      mret true
  end.

(** operator() *)
Definition StreamSplitter_call (in_ : list Z) : act (list Z * S) bool :=
  '(found, prefix, in_) ← split1 in_;
  buffer_ ← get_local;
  o ← (match buffer_ with
       | [] => mret (Some (found, prefix, in_))
       | _ => consume_buffered found prefix in_
       end);
  match o with
  | None => mret false
  | Some (found, prefix, in_) =>
      o ← consume_lines (Datatypes.S (length in_)) found prefix in_;
      match o with
      | None => mret false
      | Some in_ => keep_rest in_
      end
  end.
End StreamSplitter.

(** The helper streamSplitter: its argument capacity is passed on as maxLength. *)
Definition streamSplitter {S} (delimiter : Z) (pieceCb : list Z → act S bool) (capacity : Z) :
    list Z → act (list Z * S) bool :=
  StreamSplitter_call delimiter capacity pieceCb.

(** The callback of resplit: the delimiter at the end of a piece is removed, and the
    empty piece after the last delimiter is swallowed. *)
Definition resplit_piece {S} (delimiter_ : Z) (body : list Z → act S bool) (s : list Z) : act S bool :=
  match s with
  | [] => mret true
  | _ =>
      back ← raise (of_option Undefined (list.last s));
      if negb (back =? delimiter_) then body s else body (take (length s - 1) s)
  end.

(** The splitter is made by streamSplitter(delimiter, callback), without a maximal length. *)
Definition StringResplitter (delimiter_ : Z) (source_ : Gen (list Z)) : Gen (list Z) :=
  with_foreach (fun S body =>
    '(c, _) ← with_locals [] (
      c ← apply source_ (streamSplitter delimiter_ (resplit_piece delimiter_ body) 0);
      if negb c then mret false else flush 0 (resplit_piece delimiter_ body));
    mret c).

(** UnsplitBuffer and Unsplit: joining strings. *)
Definition UnsplitBuffer {S} (delimiter_ outputBuffer_ : list Z) (source : Gen (list Z)) : act S (list Z) :=
  '(_, (_, out)) ← with_locals (match outputBuffer_ with [] => true | _ => false end, outputBuffer_)
    (foreach source (fun v =>
      '(skipDelim, out) ← get_local;
      if (skipDelim : bool) then set_local (false, out ++ v)
      else set_local (false, out ++ delimiter_ ++ v)));
  mret out.
Definition Unsplit {S} (delimiter_ : list Z) (source : Gen (list Z)) : act S (list Z) :=
  UnsplitBuffer delimiter_ [] source.

End GenString.
