(* ===== verification/GenStringProof.v ===== *)
(** StreamSplitter refines an automaton that reads one byte at a time ([scan]): however a text is
    cut before it is passed on, the callback gets the same pieces.  Splitting a text, splitting it
    as it arrives and joining the pieces are inverse to each other. *)
From S2P Require Import Prelude Range RangeProof Gen GenProof GenString.

Module GenStringProof.
Import Gen GenProof GenString.

Lemma not_in_take {A} (x : A) n l : x ∉ l → x ∉ take n l.
Proof. intros Hx Hin. apply Hx. rewrite <- (take_drop n l). set_solver. Qed.
Lemma not_in_drop {A} (x : A) n l : x ∉ l → x ∉ drop n l.
Proof. intros Hx Hin. apply Hx. rewrite <- (take_drop n l). set_solver. Qed.

Section Scan.
Context (c m : Z).

(** A piece is complete when its last byte is the delimiter or when it is as long as allowed. *)
Definition complete (piece : list Z) (x : Z) : bool :=
  (x =? c) || (negb (m =? 0) && (m <=? Z.of_nat (length piece))).

(** The pieces of a text after the bytes [buf], and the bytes left at its end. *)
Fixpoint scan (buf text : list Z) : list (list Z) * list Z :=
  match text with
  | [] => ([], buf)
  | x :: text =>
      if complete (buf ++ [x]) x then let r := scan [] text in ((buf ++ [x]) :: r.1, r.2)
      else scan (buf ++ [x]) text
  end.

Lemma scan_app buf t u : scan buf (t ++ u) =
  ((scan buf t).1 ++ (scan (scan buf t).2 u).1, (scan (scan buf t).2 u).2).
Proof.
  revert buf. induction t as [|x t IH]; intros buf; cbn; [by destruct (scan buf u)|].
  destruct (complete _ _); [by rewrite IH|apply IH].
Qed.

Lemma scan_delimited buf t : (scan buf (t ++ [c])).2 = [].
Proof. rewrite scan_app. cbn. unfold complete. by rewrite Z.eqb_refl. Qed.

(** What the buffer holds between two calls. *)
Definition pending (buf : list Z) : Prop := c ∉ buf ∧ (m = 0 ∨ Z.of_nat (length buf) < m).

Lemma pending_nil : 0 ≤ m → pending [].
Proof. intros. split; [set_solver|]. cbn. lia. Qed.

Lemma scan_pending buf t : 0 ≤ m → pending buf → pending (scan buf t).2.
Proof.
  intros Hm. revert buf. induction t as [|x t IH]; intros buf Hb; [done|]. cbn. destruct (complete _ _) eqn:E.
  - apply IH, pending_nil, Hm.
  - apply IH. destruct Hb as [Hc Hl]. unfold complete in E. apply orb_false_iff in E as [E1 E2]. apply Z.eqb_neq in E1.
    split; [set_solver|]. destruct (Z.eqb_spec m 0); [by left|right]. cbn in E2. lia.
Qed.

(** Bytes that complete nothing. *)
Lemma scan_quiet buf t : c ∉ t → (m = 0 ∨ Z.of_nat (length buf + length t) < m) → scan buf t = ([], buf ++ t).
Proof.
  revert buf. induction t as [|x t IH]; intros buf Hc Hl; cbn; [by rewrite app_nil_r|].
  assert (complete (buf ++ [x]) x = false) as ->.
  { unfold complete. rewrite length_app. cbn in *. destruct (Z.eqb_spec x c); [set_solver|]. destruct (Z.eqb_spec m 0); [done|]. cbn.
    apply Z.leb_gt. lia. }
  rewrite IH by (set_solver || (rewrite length_app; cbn in *; lia)). by rewrite <- app_assoc.
Qed.

(** Bytes of which the last one completes a piece. *)
Lemma scan_piece buf t x u : c ∉ t → (m = 0 ∨ Z.of_nat (length buf + length t) < m) → complete (buf ++ t ++ [x]) x = true →
  scan buf (t ++ x :: u) = ((buf ++ t ++ [x]) :: (scan [] u).1, (scan [] u).2).
Proof.
  intros Hc Hl Hx. rewrite scan_app, scan_quiet by done. cbn. by rewrite <- app_assoc, Hx.
Qed.

(** A piece of the maximal length without a delimiter; a piece with its delimiter. *)
Lemma scan_full buf q u : c ∉ q → Z.of_nat (length buf) < m → Z.of_nat (length buf + length q) = m →
  scan buf (q ++ u) = ((buf ++ q) :: (scan [] u).1, (scan [] u).2).
Proof.
  intros Hc Hb Hq. destruct q as [|x q _] using rev_ind; [cbn in Hq; lia|]. rewrite length_app in Hq. cbn in Hq.
  rewrite <- (app_assoc q). cbn. apply scan_piece; [set_solver|lia|]. unfold complete. rewrite !length_app. cbn.
  destruct (Z.eqb_spec m 0); [lia|]. cbn. rewrite (proj2 (Z.leb_le _ _)) by lia. by rewrite orb_true_r.
Qed.
Lemma scan_line buf p u : c ∉ p → (m = 0 ∨ Z.of_nat (length buf + length p) < m) →
  scan buf (p ++ c :: u) = ((buf ++ p ++ [c]) :: (scan [] u).1, (scan [] u).2).
Proof. intros Hc Hl. apply scan_piece; [done|done|]. unfold complete. by rewrite Z.eqb_refl. Qed.
End Scan.

(** ** The search for the delimiter *)

Lemma qfind_value_spec (l : list Z) c :
  match Range.qfind_value l c with
  | Some i => ∃ p r, l = p ++ c :: r ∧ c ∉ p ∧ length p = i
  | None => c ∉ l
  end.
Proof.
  unfold Range.qfind_value. assert (∀ k, match Range.find_from (fun x => bool_decide (x = c)) l k with
    | Some i => ∃ p r, l = p ++ c :: r ∧ c ∉ p ∧ (k + length p = i)%nat | None => c ∉ l end) as H; [|apply (H O)].
  induction l as [|x l IH]; intros k; cbn; [set_solver|]. destruct (bool_decide_reflect (x = c)) as [->|Hne].
  - exists [], l. split; [done|]. split; [set_solver|cbn; lia].
  - specialize (IH (S k)). destruct (Range.find_from _ l (S k)) as [i|]; [|set_solver].
    destruct IH as (p & r & -> & Hp & Hl). exists (x :: p), r. split; [done|]. split; [set_solver|cbn; lia].
Qed.

(** splitPrefix with a char: the text up to its first delimiter. *)
Lemma splitPrefix_char sp de c in_ :
  (∃ p r, in_ = p ++ c :: r ∧ c ∉ p ∧ splitPrefix sp de (DChar c) in_ = Ret (1%nat, p ++ [c], r)) ∨
  (c ∉ in_ ∧ splitPrefix sp de (DChar c) in_ = Ret (0%nat, [], in_)).
Proof.
  assert (H := qfind_value_spec in_ c). unfold splitPrefix. destruct (Range.qfind_value in_ c) as [i|]; [left|by right].
  destruct H as (p & r & -> & Hp & <-). exists p, r. split; [done|]. split; [done|]. unfold advance.
  rewrite length_app. cbn [length]. destruct (Nat.ltb_spec (length p + S (length r)) (S (length p))); [lia|]. cbn.
  replace (p ++ c :: r) with ((p ++ [c]) ++ r) by (by rewrite <- app_assoc).
  replace (S (length p)) with (length (p ++ [c])) by (rewrite length_app; cbn; lia).
  by rewrite take_app_length, drop_app_length.
Qed.

(** ** The splitter *)

Section Splitter.
Context {S : Type} (c m : Z) (cb : list Z → act S bool).
Hypothesis Hm : 0 ≤ m.

(** A run that leaves [buf] when it is not stopped. *)
Definition leaves {X} (r : outcome X * (list Z * S)) (pieces : list (list Z)) (stop : X) (k : X) (buf : list Z) (s : S) : Prop :=
  match feed pieces (Ret true) cb s with
  | (Ret true, s') => r = (Ret k, (buf, s'))
  | (Ret false, s') => ∃ b, r = (Ret stop, (b, s'))
  | (Err e, s') => ∃ b, r = (Err e, (b, s'))
  end.

Lemma leaves_nil {X} (stop k : X) buf s : leaves (Ret k, (buf, s)) [] stop k buf s.
Proof. done. Qed.

(** One piece, then the rest. *)
Lemma leaves_cons {X} (f : act (list Z * S) X) piece pieces (stop k : X) buf b s :
  (∀ s', leaves (f (b, s')) pieces stop k buf s') →
  leaves ((v ← outer (cb piece); if negb v then mret stop else f) (b, s)) (piece :: pieces) stop k buf s.
Proof.
  intros Hf. unfold leaves. act. destruct (cb piece s) as [[[]|] s'] eqn:E; cbn; [apply Hf|by eexists|by eexists].
Qed.

Lemma advance_take (l : list Z) n : (n ≤ length l)%nat → advance l n = Ret (drop n l).
Proof. intros. unfold advance. destruct (Nat.ltb_spec (length l) n); [lia|done]. Qed.

(** A line longer than allowed begins with a full piece. *)
Lemma scan_long p u : 0 < m → c ∉ p → m ≤ Z.of_nat (length p) →
  scan c m [] (p ++ u) = (take (Z.to_nat m) p :: (scan c m [] (drop (Z.to_nat m) p ++ u)).1, (scan c m [] (drop (Z.to_nat m) p ++ u)).2).
Proof.
  intros H0 Hc Hl. rewrite <- (take_drop (Z.to_nat m) p) at 1. rewrite <- app_assoc.
  rewrite scan_full; [done| |cbn; lia|cbn; rewrite length_take; lia]. by apply not_in_take.
Qed.

Lemma consume_chunks fuel p b s : c ∉ p → (length p < fuel)%nat →
  leaves (consumeFixedSizeChunks m cb fuel (p ++ [c]) (b, s)) (scan c m [] (p ++ [c])).1 false true b s ∧
  (scan c m [] (p ++ [c])).2 = [].
Proof.
  revert p s. induction fuel as [|fuel IH]; intros p s Hc Hf; [lia|].
  destruct (p ++ [c]) as [|y ys] eqn:Ep; [by destruct p|]. cbn [consumeFixedSizeChunks]. rewrite <- Ep. clear y ys Ep.
  destruct (decide (m = 0 ∨ Z.of_nat (length p) < m)) as [Hs|Hlong].
  - rewrite scan_line by done. cbn. split; [|done].
    assert ((if m =? 0 then Z.of_nat (length (p ++ [c])) else Z.of_nat (length (p ++ [c])) `min` m) = Z.of_nat (length (p ++ [c]))) as ->.
    { destruct (Z.eqb_spec m 0); [done|]. rewrite length_app. cbn. lia. }
    rewrite Nat2Z.id, take_ge by lia. apply leaves_cons. intros s'. rewrite advance_take, drop_ge by lia. by destruct fuel.
  - assert (0 < m) as H0 by lia. rewrite (scan_long p [c] H0) by (done || lia). cbn [fst snd].
    destruct (Z.eqb_spec m 0); [lia|]. replace (Z.of_nat (length (p ++ [c])) `min` m) with m by (rewrite length_app; cbn; lia).
    rewrite take_app_le by lia.
    assert (c ∉ drop (Z.to_nat m) p) as Hd by (by apply not_in_drop).
    split; [|by apply (IH (drop (Z.to_nat m) p) s); [|rewrite length_drop; lia]].
    apply leaves_cons. intros s'. rewrite advance_take by (rewrite length_app; lia). rewrite drop_app_le by lia.
    apply (IH (drop (Z.to_nat m) p) s'); [done|rewrite length_drop; lia].
Qed.

(** The end of a text without a delimiter. *)
Lemma consume_tail fuel in_ s b : 0 < m → c ∉ in_ → (length in_ < fuel)%nat →
  leaves (consume_rest m cb fuel in_ (b, s)) (scan c m [] in_).1 None (Some (scan c m [] in_).2) b s.
Proof.
  revert in_ s. induction fuel as [|fuel IH]; intros in_ s H0 Hc Hf; [lia|]. cbn. destruct (Z.leb_spec m (Z.of_nat (length in_))).
  - assert (Es := scan_long in_ [] H0 Hc ltac:(lia)). rewrite !app_nil_r in Es. rewrite Es. cbn [fst snd].
    apply leaves_cons. intros s'. rewrite advance_take by lia. apply IH; [done|by apply not_in_drop|rewrite length_drop; lia].
  - rewrite scan_quiet by (done || (right; cbn; lia)). by apply leaves_nil.
Qed.

(** The loop over the lines: from an empty buffer, all lines of [in_] after the one found. *)
Definition found_line (found : bool) (prefix in_ text : list Z) : Prop :=
  if found then ∃ p, c ∉ p ∧ prefix = p ++ [c] ∧ text = prefix ++ in_ else c ∉ in_ ∧ text = in_.

Lemma split1_spec in_ : ∃ found prefix rest,
  (∀ b (s : S), split1 c in_ (b, s) = (Ret (found, prefix, rest), (b, s))) ∧ found_line found prefix rest in_ ∧
  (length rest ≤ length in_)%nat ∧ (found = true → length rest < length in_)%nat.
Proof.
  unfold split1. destruct (splitPrefix_char [] [] c in_) as [(p & r & -> & Hp & E)|[Hc E]]; rewrite E.
  - exists true, (p ++ [c]), r. split; [done|]. split; [exists p; by rewrite <- app_assoc|]. rewrite length_app. cbn. lia.
  - exists false, [], in_. done.
Qed.

Lemma leaves_bind {X Y} (f : act (list Z * S) X) (k : X → act (list Z * S) Y) st P1 P2 (stop1 k1 : X) (stop2 k2 : Y) b1 b2 s :
  leaves (f st) P1 stop1 k1 b1 s →
  (∀ b s', k stop1 (b, s') = (Ret stop2, (b, s'))) →
  (∀ s', leaves (k k1 (b1, s')) P2 stop2 k2 b2 s') →
  leaves ((x ← f; k x) st) (P1 ++ P2) stop2 k2 b2 s.
Proof.
  unfold leaves. intros H1 Hs H2. rewrite feed_app. unfold mbind, act_bind.
  destruct (feed P1 (Ret true) cb s) as [[[]|] s'].
  - rewrite H1. apply H2.
  - destruct H1 as [b ->]. rewrite Hs. by eexists.
  - by destruct H1 as [b ->]; eexists.
Qed.

Lemma lines_consumed fuel found prefix in_ text b : found_line found prefix in_ text → (length in_ < fuel)%nat →
  ∃ P rest, (∀ s, leaves (consume_lines c m cb fuel found prefix in_ (b, s)) P None (Some rest) b s) ∧
    c ∉ rest ∧ scan c m [] text = (P ++ (scan c m [] rest).1, (scan c m [] rest).2).
Proof.
  revert found prefix in_ text. induction fuel as [|fuel IH]; intros found prefix in_ text Hfl Hf; [lia|].
  destruct found; cbn in Hfl.
  2: { destruct Hfl as [Hc ->]. exists [], in_. split; [done|]. split; [done|]. by destruct (scan c m [] in_). }
  destruct Hfl as (p & Hp & -> & ->). destruct (split1_spec in_) as (f' & pr & rest & Hsp & Hfl & Hle & Hlt).
  assert (∃ P rest', (∀ s, leaves (consume_lines c m cb fuel f' pr rest (b, s)) P None (Some rest') b s) ∧
    c ∉ rest' ∧ scan c m [] in_ = (P ++ (scan c m [] rest').1, (scan c m [] rest').2)) as (P & rest' & HP & Hc & Hs).
  { destruct (decide (length rest < fuel)%nat); [by apply IH|]. destruct f'; [lia|].
    destruct Hfl as [Hc ->]. exists [], rest. split; [by destruct fuel|]. split; [done|]. by destruct (scan c m [] rest). }
  exists ((scan c m [] (p ++ [c])).1 ++ P), rest'. split; [|split; [done|]].
  - intros s. cbn [consume_lines].
    destruct (consume_chunks (length (p ++ [c])) p b s Hp) as [Hch _]; [rewrite length_app; cbn; lia|].
    eapply leaves_bind; [exact Hch|done|]. intros s'. cbn. unfold mbind, act_bind. rewrite Hsp. apply HP.
  - rewrite scan_app, scan_delimited, Hs. cbn. by rewrite app_assoc.
Qed.

(** consumeBufferPlus sends the buffer with [n] bytes more. *)
Lemma buffer_plus in_ n b s : 0 ≤ n ≤ Z.of_nat (length in_) →
  leaves (consumeBufferPlus cb in_ n (b, s)) [b ++ take (Z.to_nat n) in_] None (Some (drop (Z.to_nat n) in_)) [] s.
Proof.
  intros Hn. unfold consumeBufferPlus. rewrite (proj2 (Z.leb_le 0 n)), (proj2 (Z.leb_le n _)) by lia.
  rewrite advance_take by lia. apply (leaves_cons (_ ← set_local []; mret (Some (drop (Z.to_nat n) in_)))). done.
Qed.

(** Completing the pending bytes with a part of a line: the first piece, and the rest of the
    line. *)
Lemma scan_buffered p b in_ : pending c m b → c ∉ p →
  let n := if m =? 0 then Z.of_nat (length (p ++ [c])) else Z.min (m - Z.of_nat (length b)) (Z.of_nat (length (p ++ [c]))) in
  let q := drop (Z.to_nat n) (p ++ [c]) in
  0 ≤ n ≤ Z.of_nat (length (p ++ [c])) ∧ (q = [] ∨ ∃ p', c ∉ p' ∧ q = p' ++ [c]) ∧
  scan c m b ((p ++ [c]) ++ in_) = ((b ++ take (Z.to_nat n) (p ++ [c])) :: (scan c m [] (q ++ in_)).1, (scan c m [] (q ++ in_)).2).
Proof.
  intros [Hb Hlen] Hp n q. assert (length (p ++ [c]) = (length p + 1)%nat) as El by (by rewrite length_app).
  destruct (decide (m = 0 ∨ Z.of_nat (length b + length p) < m)) as [Hs|Hl].
  - assert (n = Z.of_nat (length (p ++ [c]))) as En by (subst n; destruct (Z.eqb_spec m 0); lia). subst q.
    rewrite En, Nat2Z.id, take_ge, drop_ge by lia. split; [lia|]. split; [by left|]. rewrite <- app_assoc. by apply scan_line.
  - assert (n = m - Z.of_nat (length b)) as En by (subst n; destruct (Z.eqb_spec m 0); lia). split; [lia|].
    subst q. rewrite En, take_app_le, drop_app_le by lia. split; [right; eexists; split; [by apply not_in_drop|done]|].
    rewrite <- (take_drop (Z.to_nat (m - Z.of_nat (length b))) p) at 1. rewrite <- !app_assoc.
    apply scan_full; [by apply not_in_take|lia|rewrite length_take; lia].
Qed.

Lemma buffered_found p in_ b : pending c m b → c ∉ p →
  ∃ P found prefix rest, (∀ s, leaves (consume_buffered c m cb true (p ++ [c]) in_ (b, s)) P None (Some (found, prefix, rest)) [] s) ∧
    found_line found prefix rest in_ ∧
    scan c m b ((p ++ [c]) ++ in_) = (P ++ (scan c m [] in_).1, (scan c m [] in_).2).
Proof.
  intros Hb Hp. destruct (split1_spec in_) as (f' & pr & rest & Hsp & Hfl & _).
  destruct (scan_buffered p b in_ Hb Hp) as (Hn & Hq & Hscan). revert Hn Hq Hscan.
  set (n := if m =? 0 then _ else _). set (q := drop (Z.to_nat n) _). intros Hn Hq Hscan.
  exists ([b ++ take (Z.to_nat n) (p ++ [c])] ++ (scan c m [] q).1), f', pr, rest. split; [|split; [done|]].
  - intros s. unfold consume_buffered.
    assert (∀ k : Z → act (list Z * S) (option (bool * list Z * list Z)), (v ← (if m =? 0 then mret (Z.of_nat (length (p ++ [c]))) else
      _ ← RDDCHECK (Z.of_nat (length b) <? m); mret (Z.min (m - Z.of_nat (length b)) (Z.of_nat (length (p ++ [c]))))); k v) (b, s) = k n (b, s)) as Ek.
    { intros k. unfold n. destruct (Z.eqb_spec m 0); [done|]. destruct Hb as [_ [?|Hl]]; [lia|]. unfold RDDCHECK.
      by rewrite (proj2 (Z.ltb_lt _ _) Hl). }
    unfold mbind at 1, act_bind at 1. unfold get_local at 1. rewrite Ek.
    eapply leaves_bind; [by apply buffer_plus|done|]. intros s'. cbn beta iota. fold q.
    rewrite <- (app_nil_r (scan c m [] q).1).
    eapply (leaves_bind _ _ _ _ _ false true); [|done|].
    + destruct Hq as [-> |(p' & Hp' & ->)]; [done|]. apply consume_chunks; [done|rewrite length_app; cbn; lia].
    + intros s1. cbn. unfold mbind, act_bind. rewrite Hsp. done.
  - rewrite Hscan. cbn. destruct Hq as [-> |(p' & Hp' & ->)]; [done|]. by rewrite scan_app, scan_delimited.
Qed.

Lemma buffered_rest prefix in_ b : pending c m b → c ∉ in_ → ∃ P rest b',
  (∀ s, leaves (consume_buffered c m cb false prefix in_ (b, s)) P None (Some (false, prefix, rest)) b' s) ∧ c ∉ rest ∧
  scan c m b in_ = (P ++ (scan c m b' rest).1, (scan c m b' rest).2) ∧
  (b' = [] ∨ b' = b ∧ (m = 0 ∨ Z.of_nat (length b + length rest) < m)).
Proof.
  intros [Hb Hl] Hc. destruct (decide (m ≠ 0 ∧ m ≤ Z.of_nat (length b) + Z.of_nat (length in_))) as [[H0 Hge]|Hn].
  - set (n := m - Z.of_nat (length b)). exists [b ++ take (Z.to_nat n) in_], (drop (Z.to_nat n) in_), [].
    split; [|split; [by apply not_in_drop|split; [|by left]]].
    + intros s. unfold consume_buffered. unfold mbind at 1, act_bind at 1. unfold get_local.
      destruct (Z.eqb_spec m 0); [lia|]. rewrite (proj2 (Z.leb_le m _)) by lia. cbn [andb negb].
      rewrite <- (app_nil_r [_]). eapply leaves_bind; [apply buffer_plus; lia|done|]. done.
    + rewrite <- (take_drop (Z.to_nat n) in_) at 1. apply scan_full; [by apply not_in_take|lia|rewrite length_take; lia].
  - exists [], in_, b. split; [|split; [done|split; [by destruct (scan c m b in_)|right; split; [done|lia]]]].
    intros s. unfold consume_buffered. unfold mbind at 1, act_bind at 1. unfold get_local.
    destruct (Z.eqb_spec m 0); [done|]. rewrite (proj2 (Z.leb_gt m _)) by lia. done.
Qed.

Lemma keep_rest_spec rest b s : pending c m b → c ∉ rest →
  (b = [] ∨ (m = 0 ∨ Z.of_nat (length b + length rest) < m)) →
  leaves (keep_rest m cb rest (b, s)) (scan c m b rest).1 false true (scan c m b rest).2 s.
Proof.
  intros Hb Hc Hq. assert (Hp := scan_pending c m b rest Hm Hb). unfold keep_rest.
  assert (∀ r (s' : S), pending c m (b ++ r) → (buffer_ ← get_local; let buffer_ := buffer_ ++ r in _ ← set_local buffer_;
    _ ← RDDCHECK ((m =? 0) || (Z.of_nat (length buffer_) <? m)); mret true) (b, s') = (Ret true, (b ++ r, s'))) as Hend.
  { intros r s' [_ Hl]. act. unfold RDDCHECK. destruct (Z.eqb_spec m 0); [done|]. by rewrite (proj2 (Z.ltb_lt _ m)) by lia. }
  destruct Hq as [->|Hq].
  - destruct (Z.eqb_spec m 0) as [E|].
    + rewrite scan_quiet in * by (done || by left). apply (leaves_bind _ _ _ [] [] None (Some rest)) with (b1 := []); [done|done|].
      intros s'. rewrite Hend by done. done.
    + rewrite <- (app_nil_r (scan c m [] rest).1). eapply leaves_bind; [apply consume_tail; (done || lia)|done|].
      intros s'. cbn beta iota. rewrite Hend by done. done.
  - rewrite scan_quiet in * by done. apply (leaves_bind _ _ _ [] [] None (Some rest)) with (b1 := b); [|done|].
    + destruct (Z.eqb_spec m 0); [done|]. cbn. rewrite (proj2 (Z.leb_gt m _)) by lia. done.
    + intros s'. rewrite Hend by done. done.
Qed.

(** The rest of a call, once the pending bytes are dealt with. *)
Lemma finish_call found prefix in_ text b : found_line found prefix in_ text → pending c m b →
  (b = [] ∨ found = false ∧ (m = 0 ∨ Z.of_nat (length b + length in_) < m)) → ∀ s,
  leaves ((o ← consume_lines c m cb (Datatypes.S (length in_)) found prefix in_;
    match o with None => mret false | Some in_ => keep_rest m cb in_ end) (b, s))
    (scan c m b text).1 false true (scan c m b text).2 s.
Proof.
  intros Hfl Hb Hq s. destruct Hq as [->|[-> Hq]].
  - destruct (lines_consumed (Datatypes.S (length in_)) found prefix in_ text [] Hfl) as (P & rest & HP & Hc & ->); [lia|].
    cbn [fst snd]. eapply leaves_bind; [apply HP|done|]. intros s'. apply keep_rest_spec; auto.
  - destruct Hfl as [Hc ->]. apply (keep_rest_spec in_ b s); auto.
Qed.

(** A call passes on the pieces that the automaton completes and keeps the rest. *)
Lemma call_spec in_ b s : pending c m b →
  leaves (StreamSplitter_call c m cb in_ (b, s)) (scan c m b in_).1 false true (scan c m b in_).2 s.
Proof.
  intros Hb. unfold StreamSplitter_call. destruct (split1_spec in_) as (f & pr & rest & Hsp & Hfl & _).
  unfold mbind at 1, act_bind at 1. rewrite Hsp. unfold mbind at 1, act_bind at 1. unfold get_local at 1.
  destruct (decide (b = [])) as [->|Hne]; [by apply (finish_call f pr rest in_); auto|].
  replace (match b with [] => mret (Some (f, pr, rest)) | _ => consume_buffered c m cb f pr rest end)
    with (consume_buffered c m cb f pr rest) by (by destruct b).
  destruct f; cbn in Hfl.
  - destruct Hfl as (p & Hp & -> & ->). destruct (buffered_found p rest b Hb Hp) as (P & f & pr & r & HP & Hfl & ->).
    cbn [fst snd]. eapply leaves_bind; [apply HP|done|]. intros s'. apply finish_call; [done|by apply pending_nil|by left].
  - destruct Hfl as [Hc ->]. 
    destruct (buffered_rest pr rest b Hb Hc) as (P & r & b' & HP & Hr & -> & Hq).
    cbn [fst snd]. eapply leaves_bind; [apply HP|done|]. intros s'. apply finish_call; [done| |].
    + destruct Hq as [->|[-> _]]; [by apply pending_nil|done].
    + destruct Hq as [->|[-> ?]]; auto.
Qed.

Lemma calls_spec chunks b s : pending c m b →
  leaves (feed chunks (Ret true) (StreamSplitter_call c m cb) (b, s)) (scan c m b (concat chunks)).1 false true (scan c m b (concat chunks)).2 s.
Proof.
  revert b s. induction chunks as [|x chunks IH]; intros b s Hb; [done|]. cbn [feed concat]. rewrite scan_app. cbn [fst snd].
  eapply leaves_bind; [by apply call_spec|done|]. intros s'. apply IH, scan_pending; done.
Qed.

(** All chunks and then flush. *)
Definition run_splitter (chunks : list (list Z)) (b : list Z) : act S bool :=
  '(v, _) ← with_locals b (v ← feed chunks (Ret true) (StreamSplitter_call c m cb); if (v : bool) then flush m cb else mret false);
  mret v.

Lemma splitter_run chunks b s : pending c m b →
  run_splitter chunks b s = feed ((scan c m b (concat chunks)).1 ++ [(scan c m b (concat chunks)).2]) (Ret true) cb s.
Proof.
  intros Hb. unfold run_splitter. rewrite with_locals_dropped, feed_app. unfold mbind, act_bind.
  assert (H := calls_spec chunks b s Hb). unfold leaves in H. destruct (feed (scan _ _ _ _).1 _ _ _) as [[[]|] s'].
  - rewrite H. assert (Hp := scan_pending c m b (concat chunks) Hm Hb). unfold flush, RDDCHECK. act.
    assert ((m =? 0) || (Z.of_nat (length (scan c m b (concat chunks)).2) <? m) = true) as ->.
    { destruct Hp as [_ Hl]. destruct (Z.eqb_spec m 0); [done|]. apply Z.ltb_lt. lia. }
    act. destruct (cb _ s') as [[[]|] s'']; done.
  - by destruct H as [b' ->].
  - by destruct H as [b' ->].
Qed.
End Splitter.

(** ** What the pieces are *)

Lemma scan_concat c m b t : concat (scan c m b t).1 ++ (scan c m b t).2 = b ++ t.
Proof.
  revert b. induction t as [|x t IH]; intros b; cbn; [by rewrite app_nil_r|]. destruct (complete _ _ _ _); cbn.
  - by rewrite <- app_assoc, IH, <- app_assoc.
  - by rewrite IH, <- app_assoc.
Qed.

(** A complete piece: no delimiter but at its end, not longer than allowed, and for a reason. *)
Definition piece_ok (c m : Z) (p : list Z) : Prop :=
  ∃ q x, p = q ++ [x] ∧ c ∉ q ∧ (m = 0 ∨ Z.of_nat (length p) ≤ m) ∧ (x = c ∨ Z.of_nat (length p) = m).

Lemma scan_pieces c m b t : 0 ≤ m → pending c m b → Forall (piece_ok c m) (scan c m b t).1.
Proof.
  intros Hm. revert b. induction t as [|x t IH]; intros b Hb; cbn; [constructor|].
  destruct (complete _ _ _ _) eqn:E; cbn.
  - constructor; [|by apply IH, pending_nil]. exists b, x. destruct Hb as [Hc Hl]. unfold complete in E. rewrite length_app in *. cbn in *.
    split; [done|]. split; [done|]. split; [lia|]. destruct (Z.eqb_spec x c); [by left|right]. cbn in E.
    apply andb_true_iff in E as [E1 E2]. apply Z.leb_le in E2. destruct (Z.eqb_spec m 0); [done|]. lia.
  - assert (Hp := scan_pending c m b [x] Hm Hb). cbn in Hp. rewrite E in Hp. by apply IH.
Qed.

(** C20: StreamSplitter, from the first call to flush: the pieces its callback gets are
    determined by the text and not by the chunks in which it arrives; joined they are the
    text; no piece is longer than maxLength, a delimiter is the last byte of its piece, and a
    piece before the last ends for no other reason than these; the callback is not called
    again after it has answered false. *)
Theorem stream_splitter_correct (c m : Z) (text : list Z) : 0 ≤ m → ∃ pieces rest,
  concat pieces ++ rest = text ∧ Forall (piece_ok c m) pieces ∧
  c ∉ rest ∧ (m = 0 ∨ Z.of_nat (length rest) < m) ∧
  ∀ S (cb : list Z → act S bool) chunks s, concat chunks = text →
    run_splitter c m cb chunks [] s = feed (pieces ++ [rest]) (Ret true) cb s.
Proof.
  intros Hm. assert (Hp := pending_nil c m Hm). exists (scan c m [] text).1, (scan c m [] text).2. split; [apply scan_concat|].
  split; [by apply scan_pieces|]. destruct (scan_pending c m [] text Hm Hp) as [Hc Hl]. split; [done|]. split; [done|].
  intros S cb chunks s <-. by apply splitter_run.
Qed.

Lemma stream_splitter_correct_witness : 0 ≤ 3 ∧ ∃ pieces rest,
  concat pieces ++ rest = [97; 98; 10; 99; 100; 101; 102] ∧ Forall (piece_ok 10 3) pieces ∧
  10 ∉ rest ∧ (3 = 0 ∨ Z.of_nat (length rest) < 3) ∧
  ∀ S (cb : list Z → act S bool) chunks s, concat chunks = [97; 98; 10; 99; 100; 101; 102] →
    run_splitter 10 3 cb chunks [] s = feed (pieces ++ [rest]) (Ret true) cb s.
Proof. split; [lia|]. apply (stream_splitter_correct 10 3 [97; 98; 10; 99; 100; 101; 102]). lia. Defined.

(** streamSplitter sets the maximal length when it is asked for a capacity. *)
Theorem streamSplitter_capacity : 
  streamSplitter 10 (fun p s => (Ret true, s ++ [p])) 2 [97; 98; 99] ([], []) = (Ret true, ([99], [[97; 98]])).
Proof. reflexivity. Qed.

(** ** split, resplit and unsplit *)

(** The pieces between delimiters; an empty piece at the very end does not count. *)
Fixpoint split_text (c : Z) (buf text : list Z) : list (list Z) :=
  match text with
  | [] => match buf with [] => [] | _ => [buf] end
  | x :: text => if x =? c then buf :: split_text c [] text else split_text c (buf ++ [x]) text
  end.

Lemma split_text_quiet c buf t : c ∉ t → split_text c buf t = match buf ++ t with [] => [] | l => [l] end.
Proof.
  revert buf. induction t as [|x t IH]; intros buf Hc; cbn; [by rewrite app_nil_r; destruct buf|].
  destruct (Z.eqb_spec x c); [set_solver|]. rewrite IH by set_solver. by rewrite <- app_assoc.
Qed.
Lemma split_text_line c buf p t : c ∉ p → split_text c buf (p ++ c :: t) = (buf ++ p) :: split_text c [] t.
Proof.
  revert buf. induction p as [|x p IH]; intros buf Hc; cbn; [by rewrite Z.eqb_refl, app_nil_r|].
  destruct (Z.eqb_spec x c); [set_solver|]. rewrite IH by set_solver. by rewrite <- app_assoc.
Qed.

Lemma resplit_piece_line {S} c (body : list Z → act S bool) p : resplit_piece c body (p ++ [c]) = body p.
Proof.
  unfold resplit_piece. destruct (p ++ [c]) eqn:E; [by destruct p|]. rewrite <- E, last_snoc. cbn. unfold mbind, act_bind, raise.
  rewrite Z.eqb_refl. cbn. rewrite length_app. cbn. replace (length p + 1 - 1)%nat with (length p) by lia. by rewrite take_app_length.
Qed.

Lemma resplit_feed {S} c (body : list Z → act S bool) b t s : c ∉ b →
  feed ((scan c 0 b t).1 ++ [(scan c 0 b t).2]) (Ret true) (resplit_piece c body) s = feed (split_text c b t) (Ret true) body s.
Proof.
  revert b s. induction t as [|x t IH]; intros b s Hb; cbn [scan split_text].
  - cbn [fst snd app feed]. unfold resplit_piece. destruct b as [|y b] using rev_ind; [done|]. clear IHb.
    destruct (b ++ [y]) eqn:E; [by destruct b|]. rewrite <- E, last_snoc. cbn. unfold mbind, act_bind, raise. cbn.
    rewrite (proj2 (Z.eqb_neq y c)) by (intros ->; apply Hb; rewrite <- E; set_solver). done.
  - unfold complete. cbn [Z.eqb negb andb]. rewrite orb_false_r. destruct (Z.eqb_spec x c) as [->|].
    + cbn [fst snd]. rewrite <- app_comm_cons. cbn [feed]. unfold mbind, act_bind. rewrite resplit_piece_line.
      destruct (body b s) as [[[]|] s']; [|done|done]. apply IH. set_solver.
    + apply IH. set_solver.
Qed.

Lemma SplitStringSource_applies sp de c text : Applies (SplitStringSource sp de text (DChar c)) (split_text c [] text, Ret true).
Proof.
  intros S h s. cbn [apply SplitStringSource with_foreach fst snd]. assert (length text < Datatypes.S (length text))%nat as Hf by lia.
  revert Hf s. generalize (Datatypes.S (length text)) as fuel. intros fuel. revert text. induction fuel as [|fuel IH]; intros text Hf s; [lia|].
  cbn [SplitStringSource_loop]. unfold mbind at 1, act_bind at 1. unfold raise at 1.
  destruct (splitPrefix_char sp de c text) as [(p & r & -> & Hp & E)|[Hc E]]; rewrite E.
  - cbn [Nat.eqb]. unfold subtract. rewrite length_app. cbn [length]. destruct (Nat.ltb_spec (length p + 1) 1); [lia|].
    replace (length p + 1 - 1)%nat with (length p) by lia. rewrite take_app_length, split_text_line by done. act.
    destruct (h p s) as [[[]|] s']; cbn; [|done|done]. apply IH. rewrite length_app in Hf. cbn in Hf. lia.
  - cbn [Nat.eqb]. rewrite split_text_quiet by done. destruct text as [|x text]; [done|]. cbn. act. by destruct (h (x :: text) s) as [[[]|] ?].
Qed.

(** Splitting a text at a char gives the pieces between the delimiters, and resplit gives
    the same pieces however the text is cut into the strings that a generator produces. *)
Theorem resplit_correct (sparse0 dense0 : list Z) (c : Z) (g : Gen (list Z)) (chunks : list (list Z)) :
  Applies g (chunks, Ret true) → ∀ S (h : list Z → act S bool) s,
  apply (StringResplitter c g) h s = feed (split_text c [] (concat chunks)) (Ret true) h s ∧
  apply (SplitStringSource sparse0 dense0 (concat chunks) (DChar c)) h s = feed (split_text c [] (concat chunks)) (Ret true) h s.
Proof.
  intros Hg S h s. split; [|apply (SplitStringSource_applies sparse0 dense0 c (concat chunks) S h s)].
  rewrite <- resplit_feed by set_solver. rewrite <- (splitter_run c 0 _ ltac:(lia) chunks [] s) by (by apply pending_nil).
  cbn [apply StringResplitter with_foreach]. unfold run_splitter. rewrite !with_locals_dropped. unfold streamSplitter.
  unfold mbind, act_bind. rewrite Hg. cbn [fst snd].
  destruct (feed chunks _ _ _) as [[[]|] [b s']]; done.
Qed.

(** Joining: the first piece, and every other one behind a delimiter. *)
Definition join_text (d : list Z) (l : list (list Z)) : list Z :=
  match l with [] => [] | x :: l => x ++ concat (map (app d) l) end.

Lemma Unsplit_spec {S} d (g : Gen (list Z)) l (s : S) : Visits g (l, Ret tt) → Unsplit d g s = (Ret (join_text d l), s).
Proof.
  intros Hg. unfold Unsplit, UnsplitBuffer.
  pose (f := fun (st : bool * list Z) v => (false, st.2 ++ (if st.1 then v else d ++ v))).
  assert (folds_by (T := S) (fun st v => Ret (f st v)) (fun v => '(skipDelim, out) ← get_local;
    if (skipDelim : bool) then set_local (false, out ++ v) else set_local (false, out ++ d ++ v))) as Hf.
  { intros v [[] out] s'; unfold dropped, f; act; naive_solver. }
  assert (E := collects g _ s Hg _ _ (true, []) (fun '(_, out) => mret out) Hf).
  unfold mbind, act_bind in *. etrans; [|etrans; [apply E|]].
  { by destruct (with_locals _ _ s) as [[[? []]|] ?]. }
  rewrite foldT_ret. cbn [fst snd]. destruct l as [|x l]; [done|]. cbn [foldl]. change (f (true, []) x) with (false, x).
  assert (∀ out, foldl f (false, out) l = (false, out ++ concat (map (app d) l))) as ->; [|done].
  clear. induction l as [|y l IH]; intros out; cbn [foldl map concat]; [by rewrite app_nil_r|].
  change (f (false, out) y) with (false, out ++ d ++ y). by rewrite IH, <- !app_assoc.
Qed.

Lemma join_pieces c b t : (join_text [c] (split_text c b t) = b ++ t ∨ join_text [c] (split_text c b t) ++ [c] = b ++ t) ∧
  (t ≠ [] → split_text c b t ≠ []).
Proof.
  revert b. induction t as [|x t IH]; intros b; cbn.
  { split; [left|done]. destruct b; cbn; by rewrite ?app_nil_r. }
  destruct (Z.eqb_spec x c) as [->|].
  - split; [|done]. destruct (IH []) as [Hj Hne]. destruct t as [|y t].
    { right. cbn. by rewrite !app_nil_r. }
    specialize (Hne ltac:(done)). destruct (split_text c [] (y :: t)) as [|p ps]; [done|]. cbn [join_text map concat] in *.
    destruct Hj as [Hj|Hj]; [left|right]; rewrite <- ?app_assoc; cbn; do 2 f_equal; [exact Hj|]. rewrite <- app_assoc in Hj. exact Hj.
  - destruct (IH (b ++ [x])) as [Hj Hne]. rewrite <- app_assoc in Hj. split; [exact Hj|]. intros _. destruct t as [|y t]; [|by apply Hne].
    cbn. by destruct b.
Qed.

(** unsplit after split gives the text back, less a delimiter at its very end. *)
Theorem split_unsplit {S} (sparse0 dense0 : list Z) (c : Z) (text : list Z) (s : S) :
  ∃ out, Unsplit [c] (SplitStringSource sparse0 dense0 text (DChar c)) s = (Ret out, s) ∧ (out = text ∨ out ++ [c] = text).
Proof.
  exists (join_text [c] (split_text c [] text)). split; [|apply (join_pieces c [] text)].
  apply Unsplit_spec. apply (with_foreach_visits _ (split_text c [] text, Ret true)), (SplitStringSource_applies sparse0 dense0).
Qed.

Definition record_piece (v : list Z) : act (list (list Z)) bool := fun l => (Ret true, l ++ [v]).
Lemma resplit_correct_witness :
  apply (StringResplitter 10 (ReferencedSource [[97; 10]; [98]; [99; 10; 10; 100]])) record_piece []
    = (Ret true, [[97]; [98; 99]; []; [100]]) ∧
  apply (SplitStringSource [] [] (concat [[97; 10]; [98]; [99; 10; 10; 100]]) (DChar 10)) record_piece []
    = (Ret true, [[97]; [98; 99]; []; [100]]).
Proof.
  exact (resplit_correct [] [] 10 (ReferencedSource [[97; 10]; [98]; [99; 10; 10; 100]]) _ (proj1 (Referenced_traces _)) _ record_piece []).
Defined.

End GenStringProof.
