(* ===== verification/Json.v ===== *)
(** util/json.cpp and the part of util/dynamic it works on: the printer with its
    string escaping, the parser over a moving input, and the comment stripper.
    The order in which an unordered_map iterates and what the double-conversion
    library does are class parameters. *)
From S2P Require Import Prelude Conv.

(** The chars of a literal. *)
Definition chars (s : string) : list Z := (fun a => Z.of_N (Ascii.N_of_ascii a)) <$> String.list_ascii_of_string s.

(** Floating-point numbers: classification, comparison and conversions of the
    language, and the text conversions of double-conversion. *)
Class Doubles (D : Type) := {
  d_finite : D → bool;
  d_lt : D → D → bool;
  d_eq : D → D → bool;
  d_inf : D;
  d_ninf : D;
  d_nan : D;
  d_of_int : Z → D;
  d_to_int : D → Z;
  d_text : D → list Z;                 (** toAppend(double, …) *)
  d_parse : list Z → option D          (** to<double>(StringPiece): throws or a number *)
}.

Module Json.

Section json.
Context {D : Type} `{Doubles D}.

(** ** dynamic *)

(** The entries of an object are listed in the order in which its hash table
    iterates. *)
Inductive dynamic :=
| NULLT
| ARRAY (l : list dynamic)
| BOOL (b : bool)
| DOUBLE (d : D)
| INT64 (z : Z)
| OBJECT (l : list (dynamic * dynamic))
| STRING (s : list Z).

Definition type (v : dynamic) : Z :=
  match v with NULLT => 0 | ARRAY _ => 1 | BOOL _ => 2 | DOUBLE _ => 3 | INT64 _ => 4 | OBJECT _ => 5 | STRING _ => 6 end.
Definition isString (v : dynamic) : bool := match v with STRING _ => true | _ => false end.

(** hash() throws on what cannot be a key. *)
Definition hashable (v : dynamic) : outcome unit :=
  match v with
  | OBJECT _ | ARRAY _ | NULLT => Err (Thrown "TypeError: not null/object/array")
  | _ => Ret tt
  end.

(** operator==, on the types that can be keys. *)
Definition key_eqb (a b : dynamic) : bool :=
  match a, b with
  | BOOL x, BOOL y => eqb x y
  | INT64 x, INT64 y => x =? y
  | DOUBLE x, DOUBLE y => d_eq x y
  | INT64 x, DOUBLE y | DOUBLE y, INT64 x => d_eq (d_of_int x) y
  | STRING x, STRING y => bool_decide (x = y)
  | _, _ => false
  end.

(** std::string's operator<, on unsigned chars. *)
Fixpoint string_lt (a b : list Z) : bool :=
  match a, b with
  | _, [] => false
  | [], _ :: _ => true
  | x :: a, y :: b => if x <? y then true else if y <? x then false else string_lt a b
  end.

(** operator< both ways at once, a < b and b < a: comparing two arrays needs both on
    their elements. *)
Fixpoint dynamic_lt2 (a b : dynamic) : outcome (bool * bool) :=
  if (type a =? 5) || (type b =? 5) then Err (Thrown "TypeError: object") else
  if negb (type a =? type b) then Ret (type a <? type b, type b <? type a) else
  match a, b with
  | BOOL x, BOOL y => Ret (negb x && y, negb y && x)
  | DOUBLE x, DOUBLE y => Ret (d_lt x y, d_lt y x)
  | INT64 x, INT64 y => Ret (x <? y, y <? x)
  | STRING x, STRING y => Ret (string_lt x y, string_lt y x)
  | ARRAY l, ARRAY m =>
      (fix array_lt2 (l : list dynamic) (m : list dynamic) : outcome (bool * bool) :=
         match l, m with
         | [], [] => Ret (false, false)
         | [], _ :: _ => Ret (true, false)
         | _ :: _, [] => Ret (false, true)
         | x :: l, y :: m =>
             '(lt, gt) ← dynamic_lt2 x y;
             if (lt : bool) then Ret (true, false) else if (gt : bool) then Ret (false, true) else array_lt2 l m
         end) l m
  | _, _ => Ret (false, false)
  end.
Definition dynamic_lt (a b : dynamic) : outcome bool := fst <$> dynamic_lt2 a b.

(** std::pair's operator<. *)
Definition pair_lt (a b : dynamic * dynamic) : outcome bool :=
  lt ← dynamic_lt a.1 b.1;
  if (lt : bool) then Ret true else
  gt ← dynamic_lt b.1 a.1;
  if (gt : bool) then Ret false else dynamic_lt a.2 b.2.

(** ** serialization_opts *)

Record serialization_opts := mk_opts {
  allow_non_string_keys : bool;
  javascript_safe : bool;
  pretty_formatting : bool;
  encode_non_ascii : bool;
  validate_utf8 : bool;
  allow_trailing_comma : bool;
  sort_keys : bool;
  skip_invalid_utf8 : bool;
  allow_nan_inf : bool;
  double_fallback : bool;
  parse_numbers_as_strings : bool;
  recursion_limit : Z
}.
Definition default_opts : serialization_opts :=
  mk_opts false false false false false false false false false false false 100.

(** ** UTF-8 *)

Definition bitMask : list Z := [2 ^ 7 - 1; 2 ^ 11 - 1; 2 ^ 16 - 1; 2 ^ 21 - 1].

Definition BadUtf8 := Thrown "rdd::decodeUtf8".

(** skip(), or the exception. *)
Definition utf8_error (skipOnError : bool) (p : list Z) : outcome (Z * list Z) :=
  if skipOnError then match p with [] => Err Undefined | _ :: p' => Ret (0xfffd, p') end
  else Err BadUtf8.

(** for (unsigned int i = 1; i != 3 && p + i < e; ++i), on the bytes from p[i] on. *)
Fixpoint decodeUtf8_loop (skipOnError : bool) (p : list Z) (fst d i : Z) (tail : list Z) : outcome (Z * list Z) :=
  if i =? 3 then utf8_error skipOnError p else
  match tail with
  | [] => utf8_error skipOnError p
  | tmp :: tail =>
      if negb (Z.land tmp 0xC0 =? 0x80) then utf8_error skipOnError p else
      let d := Z.lor (u32 (Z.shiftl d 6)) (Z.land tmp 0x3F) in
      let fst := u8 (Z.shiftl fst 1) in
      if Z.land fst 0x80 =? 0 then
        mask ← vget bitMask i;
        let d := Z.land d mask in
        below ← vget bitMask (i - 1);
        if Z.land d (Z.lnot below) =? 0 then utf8_error skipOnError p else
        if (i =? 2) && (((0xD800 <=? d) && (d <=? 0xDFFF)) || (0x10FFFF <? d)) then utf8_error skipOnError p else
        Ret (d, tail)
      else decodeUtf8_loop skipOnError p fst d (i + 1) tail
  end.

(** Returns the code point and where p points afterwards. *)
Definition decodeUtf8 (p : list Z) (skipOnError : bool) : outcome (Z * list Z) :=
  match p with
  | [] => utf8_error skipOnError p
  | fst :: tail =>
      if Z.land fst 0x80 =? 0 then Ret (fst, tail) else
      if negb (Z.land fst 0xC0 =? 0xC0) then utf8_error skipOnError p else
      decodeUtf8_loop skipOnError p (u8 (Z.shiftl fst 1)) fst 1 tail
  end.

(** Unicode.cpp's codePointToUtf8. *)
Definition codePointToUtf8 (cp : Z) : list Z :=
  if cp <=? 0x7f then [u8 cp]
  else if cp <=? 0x7FF then [u8 (Z.lor 0xC0 (Z.shiftr cp 6)); u8 (Z.lor 0x80 (Z.land 0x3f cp))]
  else if cp <=? 0xFFFF then
    [Z.lor 0xE0 (u8 (Z.shiftr cp 12)); Z.lor 0x80 (u8 (Z.land 0x3f (Z.shiftr cp 6))); u8 (Z.lor 0x80 (Z.land 0x3f cp))]
  else if cp <=? 0x10FFFF then
    [u8 (Z.lor 0xF0 (Z.shiftr cp 18)); u8 (Z.lor 0x80 (Z.land 0x3f (Z.shiftr cp 12)));
     u8 (Z.lor 0x80 (Z.land 0x3f (Z.shiftr cp 6))); u8 (Z.lor 0x80 (Z.land 0x3f cp))]
  else [].

(** ** escapeString *)

Definition hexDigit (c : Z) : Z := u8 (if c <? 10 then c + 48 else c - 10 + 97).

(** One char that does not go through decodeUtf8. *)
Definition escape_char (c : Z) : list Z :=
  if (c =? 92) || (c =? 34) then [92; c]
  else if c <=? 0x1f then
    if c =? 8 then chars "\b"
    else if c =? 12 then chars "\f"
    else if c =? 10 then chars "\n"
    else if c =? 13 then chars "\r"
    else if c =? 9 then chars "\t"
    else chars "\u00" ++ [hexDigit (Z.shiftr (Z.land c 0xf0) 4); hexDigit (Z.land c 0xf)]
  else [c].

Definition escape_code_point (v : Z) : list Z :=
  chars "\u" ++ [hexDigit (Z.shiftr v 12); hexDigit (Z.land (Z.shiftr v 8) 0x0f);
                 hexDigit (Z.land (Z.shiftr v 4) 0x0f); hexDigit (Z.land v 0x0f)].

(** while (p < e): p and q are given by what is left of the input from them on. Every
    round moves p forward, so that the length of the input bounds the rounds. *)
Fixpoint escape_loop (opts : serialization_opts) (fuel : nat) (p q : list Z) (out : list Z) : outcome (list Z) :=
  match fuel with
  | O => Err OutOfFuel
  | S fuel =>
      match p with
      | [] => Ret out
      | c :: p' =>
          let encode (q : list Z) :=
            if encode_non_ascii opts && negb (Z.land c 0x80 =? 0) then
              '(v, p) ← decodeUtf8 p (skip_invalid_utf8 opts);
              escape_loop opts fuel p q (out ++ escape_code_point v)
            else escape_loop opts fuel p' q (out ++ escape_char c) in
          if (validate_utf8 opts || skip_invalid_utf8 opts) && negb (encode_non_ascii opts) then
            if bool_decide (length p < length q)%nat then Err AssertFailed else
            if bool_decide (length q = length p) then
              '(v, q) ← decodeUtf8 q (skip_invalid_utf8 opts);
              if skip_invalid_utf8 opts && (v =? 0xfffd)
              then escape_loop opts fuel q q (out ++ [0xEF; 0xBF; 0xBD])
              else encode q
            else encode q
          else encode q
      end
  end.
Definition escapeString (input out : list Z) (opts : serialization_opts) : outcome (list Z) :=
  out ← escape_loop opts (S (length input)) input input (out ++ [34]);
  Ret (out ++ [34]).

(** ** Printer *)

Record Printer := mk_printer { out_ : list Z; indentLevel_ : option Z }.

Definition append (s : list Z) : St Printer unit := modify (fun p => mk_printer (out_ p ++ s) (indentLevel_ p)).
Definition indent : St Printer unit :=
  modify (fun p => mk_printer (out_ p) ((fun n => u32 (n + 1)) <$> indentLevel_ p)).
Definition outdent : St Printer unit :=
  modify (fun p => mk_printer (out_ p) ((fun n => u32 (n - 1)) <$> indentLevel_ p)).
Definition newline : St Printer unit :=
  l ← gets indentLevel_;
  match l with
  | Some n => append (10 :: replicate (Z.to_nat (u32 (n * 2))) 32)
  | None => mret tt
  end.
Definition mapColon : St Printer unit :=
  l ← gets indentLevel_;
  append (match l with Some _ => chars " : " | None => chars ":" end).

Section printer.
Variable opts : serialization_opts.

(** toAppend(intval), with a fresh local buffer. *)
Definition print_int (z : Z) : St Printer unit :=
  intval ← (if javascript_safe opts then
              if z =? d_to_int (d_of_int z) then mret (d_to_int (d_of_int z)) else throw (Thrown "to<>: loss of precision")
            else mret z);
  p ← get;
  out ← lift (Conv.toAppend Conv.int64_t intval (replicate 20 0) (out_ p));
  modify (fun p => mk_printer out (indentLevel_ p)).

Definition print_double (d : D) : St Printer unit :=
  if negb (allow_nan_inf opts) && negb (d_finite d) then throw (Thrown "rdd::toJson: JSON object value was a NaN or INF")
  else append (d_text d).

Definition print_string (s : list Z) : St Printer unit :=
  p ← get;
  out ← lift (escapeString s (out_ p) opts);
  modify (fun p => mk_printer out (indentLevel_ p)).

(** An entry, with what prints its key and its value. *)
Definition entry : Type := (dynamic * dynamic) * (St Printer unit * St Printer unit).

Definition printKV (e : entry) : St Printer unit :=
  let '((k, _), (printKey, printValue)) := e in
  if negb (allow_non_string_keys opts) && negb (isString k) then throw (Thrown "rdd::toJson: JSON object key was not a string")
  else _ ← printKey; _ ← mapColon; printValue.

(** for (++begin; begin != end; ++begin) *)
Fixpoint print_rest (l : list (St Printer unit)) : St Printer unit :=
  match l with
  | [] => mret tt
  | m :: l => _ ← append [44]; _ ← newline; _ ← m; print_rest l
  end.

Definition printKVPairs (l : list entry) : St Printer unit :=
  match l with
  | [] => throw Undefined
  | e :: l => _ ← printKV e; print_rest (printKV <$> l)
  end.

(** std::sort by the pairs' operator<. *)
Fixpoint sort_insert (e : entry) (l : list entry) : outcome (list entry) :=
  match l with
  | [] => Ret [e]
  | e' :: l' => lt ← pair_lt e'.1 e.1; if (lt : bool) then l'' ← sort_insert e l'; Ret (e' :: l'') else Ret (e :: l)
  end.
Fixpoint sort (l : list entry) : outcome (list entry) :=
  match l with
  | [] => Ret []
  | e :: l => l ← sort l; sort_insert e l
  end.

Definition printObject (l : list entry) : St Printer unit :=
  match l with
  | [] => append (chars "{}")
  | _ =>
      _ ← append [123]; _ ← indent; _ ← newline;
      _ ← (if sort_keys opts then items ← lift (sort l); printKVPairs items else printKVPairs l);
      _ ← outdent; _ ← newline; append [125]
  end.

Definition printArray (l : list (St Printer unit)) : St Printer unit :=
  match l with
  | [] => append (chars "[]")
  | m :: l =>
      _ ← append [91]; _ ← indent; _ ← newline;
      _ ← m; _ ← print_rest l;
      _ ← outdent; _ ← newline; append [93]
  end.

(** operator() *)
Fixpoint print (v : dynamic) : St Printer unit :=
  match v with
  | DOUBLE d => print_double d
  | INT64 z => print_int z
  | BOOL b => append (if b then chars "true" else chars "false")
  | NULLT => append (chars "null")
  | STRING s => print_string s
  | OBJECT l =>
      printObject ((fix entries (l : list (dynamic * dynamic)) : list entry :=
        match l with [] => [] | (k, x) :: l => ((k, x), (print k, print x)) :: entries l end) l)
  | ARRAY l => printArray (List.map print l)
  end.
End printer.

Definition serialize (dyn : dynamic) (opts : serialization_opts) : outcome (list Z) :=
  '(_, p) ← print opts dyn (mk_printer [] (if pretty_formatting opts then Some 0 else None));
  Ret (out_ p).
Definition toJson (dyn : dynamic) : outcome (list Z) := serialize dyn default_opts.
Definition toPrettyJson (dyn : dynamic) : outcome (list Z) :=
  serialize dyn (mk_opts false false true false false false false false false false false 100).

End json.
Arguments dynamic : clear implicits.
End Json.
