(* ===== verification/JsonParse.v ===== *)
(** util/json.cpp, the reading side: the input buffer, the recursive-descent parser
    and the comment stripper. *)
From S2P Require Import Prelude Conv Json.

(** The hash table of an object: where it puts a new entry in its order of iteration, and whether a
    lookup of the key of [e] comes across the entry [e'] where their hashes differ. *)
Class HashOrder (A : Type) := {
  place : list A → A → list A;
  place_permutation l e : Permutation (place l e) (e :: l);
  meets : list A → A → A → bool
}.

Module JsonParse.
Import Json.

(** ** Input *)

Definition EOF : Z := -1.

Record Input := mk_input { range_ : list Z; lineNum_ : Z; current_ : Z; currentRecursionLevel_ : Z }.

(** char is signed: range_.front() as an int. *)
Definition storeCurrent (r : list Z) : Z :=
  match r with [] => EOF | c :: _ => if c <? 128 then c else c - 256 end.
Definition new_input (range : list Z) : Input := mk_input range 0 (storeCurrent range) 0.

(** Every change of range_ is followed by storeCurrent(). *)
Definition set_range (r : list Z) : St Input unit :=
  modify (fun i => mk_input r (lineNum_ i) (storeCurrent r) (currentRecursionLevel_ i)).

Definition error {A} (what : string) : St Input A := throw (Thrown what).

(** The prefix that satisfies the predicate, whose state is s, the rest, and the
    number of line ends in the prefix. *)
Fixpoint skip_prefix {S} (p : S → Z → bool * S) (s : S) (r : list Z) : list Z * list Z * Z :=
  match r with
  | [] => ([], [], 0)
  | c :: r' =>
      let '(b, s) := p s c in
      if (b : bool) then
        let '(pre, rest, n) := skip_prefix p s r' in (c :: pre, rest, if c =? 10 then n + 1 else n)
      else ([], r, 0)
  end.
Definition skipWhile {S} (p : S → Z → bool * S) (s : S) : St Input (list Z) :=
  r ← gets range_;
  let '(pre, rest, n) := skip_prefix p s r in
  _ ← modify (fun i => mk_input (range_ i) (u32 (lineNum_ i + n)) (current_ i) (currentRecursionLevel_ i));
  _ ← set_range rest;
  mret pre.

Definition is_digit (c : Z) : bool := (48 <=? c) && (c <=? 57).
Definition skipDigits : St Input (list Z) := skipWhile (fun (_ : unit) c => (is_digit c, tt)) tt.
Definition skipMinusAndDigits : St Input (list Z) :=
  skipWhile (fun (firstChar : bool) c => (is_digit c || (firstChar && (c =? 45)), false)) true.

(** String.cpp's ltrimWhitespace. *)
Definition is_oddspace (c : Z) : bool := (c =? 10) || (c =? 9) || (c =? 13).
Fixpoint ltrimWhitespace (sp : list Z) : list Z :=
  match sp with
  | c :: sp' => if (c =? 32) || is_oddspace c then ltrimWhitespace sp' else sp
  | [] => []
  end.
Definition skipWhitespace : St Input unit := r ← gets range_; set_range (ltrimWhitespace r).

(** operator++: pop_front asserts that the range is not empty. *)
Definition incr : St Input unit :=
  r ← gets range_;
  match r with [] => throw AssertFailed | _ :: r' => set_range r' end.

Definition expect (c : Z) : St Input unit :=
  x ← gets current_;
  if negb (x =? c) then error "expected char" else incr.

(** What is left after a prefix. *)
Fixpoint strip_prefix (str r : list Z) : option (list Z) :=
  match str, r with
  | [], _ => Some r
  | x :: str, y :: r => if x =? y then strip_prefix str r else None
  | _ :: _, [] => None
  end.
Definition consume (str : list Z) : St Input bool :=
  r ← gets range_;
  match strip_prefix str r with
  | Some r' => _ ← set_range r'; mret true
  | None => mret false
  end.

Section parser.
Context {D : Type} `{Doubles D} `{HashOrder (dynamic D * dynamic D)}.
Variable opts : serialization_opts.
Implicit Types ret : list (dynamic D).

Definition incrementRecursionLevel : St Input unit :=
  l ← gets currentRecursionLevel_;
  if recursion_limit opts <? l then error "recursion limit exceeded"
  else modify (fun i => mk_input (range_ i) (lineNum_ i) (current_ i) (u32 (l + 1))).
Definition decrementRecursionLevel : St Input unit :=
  modify (fun i => mk_input (range_ i) (lineNum_ i) (current_ i) (u32 (currentRecursionLevel_ i - 1))).

(** A lookup finds the first entry that it comes across and whose key is equal: keys of one type that are
    equal have the same hash, but an integer and a double that are equal have not, so that it
    is up to the table whether they are compared. *)
Definition finds (obj : list (dynamic D * dynamic D)) (e e' : dynamic D * dynamic D) : bool :=
  key_eqb e'.1 e.1 && ((type e'.1 =? type e.1) || meets obj e e').
Fixpoint assign (found : dynamic D * dynamic D → bool) (v : dynamic D) (l : list (dynamic D * dynamic D)) : option (list (dynamic D * dynamic D)) :=
  match l with
  | [] => None
  | e :: l => if found e then Some ((e.1, v) :: l) else (fun l => e :: l) <$> assign found v l
  end.
(** dynamic::insert *)
Definition insert (k v : dynamic D) (obj : list (dynamic D * dynamic D)) : outcome (list (dynamic D * dynamic D)) :=
  _ ← hashable k;
  Ret (default (place obj (k, v)) (assign (finds obj (k, v)) v obj)).

(** ** Numbers *)

Definition maxInt : list Z := chars "9223372036854775807".
Definition minInt : list Z := chars "-9223372036854775808".

(** to<double>(StringPiece) *)
Definition to_double (s : list Z) : St Input D := lift (of_option (Thrown "to<double>") (d_parse s)).

(** What follows the integral part: the fraction, unless there is none, and the
    exponent. *)
Definition parse_fraction (wasE : bool) : St Input unit :=
  _ ← (if wasE then mret tt else _ ← incr; _ ← skipDigits; mret tt);
  c ← gets current_;
  if (c =? 101) || (c =? 69) then
    _ ← incr;
    c ← gets current_;
    _ ← (if (c =? 43) || (c =? 45) then incr else mret tt);
    _ ← skipDigits; mret tt
  else mret tt.

Definition parseNumber : St Input (dynamic D) :=
  c ← gets current_;
  let negative := c =? 45 in
  inf ← (if negative then consume (chars "-Infinity") else mret false);
  if (inf : bool) then
    mret (if parse_numbers_as_strings opts then STRING (chars "-Infinity") else DOUBLE d_ninf)
  else
  start ← gets range_;
  integral ← skipMinusAndDigits;
  if negative && (length integral <? 2)%nat then error "expected digits after `-'" else
  c ← gets current_;
  let wasE := (c =? 101) || (c =? 69) in
  if negb (c =? 46) && negb wasE && parse_numbers_as_strings opts then mret (STRING integral) else
  if negb (c =? 46) && negb wasE then
    if (negb (double_fallback opts) || (length integral <? length maxInt)%nat)
       || (negb negative && (length integral =? length maxInt)%nat && negb (string_lt maxInt integral))
       || (negative && (length integral =? length minInt)%nat && negb (string_lt minInt integral))
    then val ← lift (Conv.to_string_integral Conv.int64_t integral); _ ← skipWhitespace; mret (INT64 val)
    else val ← to_double integral; _ ← skipWhitespace; mret (DOUBLE val)
  else
  _ ← parse_fraction wasE;
  rest ← gets range_;
  let fullNum := take (length start - length rest) start in
  if parse_numbers_as_strings opts then mret (STRING fullNum)
  else val ← to_double fullNum; mret (DOUBLE val).

(** ** Strings *)

Definition hexVal (c : Z) : St Input Z :=
  if (48 <=? c) && (c <=? 57) then mret (c - 48)
  else if (97 <=? c) && (c <=? 102) then mret (c - 97 + 10)
  else if (65 <=? c) && (c <=? 70) then mret (c - 65 + 10)
  else error "invalid hex digit".

(** hexVal of the current char, then ++in. *)
Definition hex_step : St Input Z := c ← gets current_; v ← hexVal c; _ ← incr; mret v.
Definition readHex : St Input Z :=
  r ← gets range_;
  if (length r <? 4)%nat then error "expected 4 hex digits" else
  a ← hex_step; b ← hex_step; c ← hex_step; d ← hex_step;
  mret (u16 (u16 (u16 (u16 (a * 4096) + b * 256) + c * 16) + d)).

Definition decodeUnicodeEscape : St Input (list Z) :=
  codePoint ← readHex;
  codePoint ←
    (if (0xd800 <=? codePoint) && (codePoint <=? 0xdbff) then
       u ← consume (chars "\u");
       if negb u then error "expected another unicode escape for second half of surrogate pair" else
       second ← readHex;
       if (0xdc00 <=? second) && (second <=? 0xdfff)
       then mret (u32 (0x10000 + Z.shiftl (Z.land codePoint 0x3ff) 10 + Z.land second 0x3ff))
       else error "second character in surrogate pair is invalid"
     else if (0xdc00 <=? codePoint) && (codePoint <=? 0xdfff)
       then error "invalid unicode code point (in range [0xdc00,0xdfff])"
     else mret codePoint);
  mret (codePointToUtf8 codePoint).

(** The escape after a backslash: what it stands for. *)
Definition parse_escape : St Input (list Z) :=
  c ← gets current_;
  if c =? 34 then _ ← incr; mret [34]
  else if c =? 92 then _ ← incr; mret [92]
  else if c =? 47 then _ ← incr; mret [47]
  else if c =? 98 then _ ← incr; mret [8]
  else if c =? 102 then _ ← incr; mret [12]
  else if c =? 110 then _ ← incr; mret [10]
  else if c =? 114 then _ ← incr; mret [13]
  else if c =? 116 then _ ← incr; mret [9]
  else if c =? 117 then _ ← incr; decodeUnicodeEscape
  else error "unknown escape in string".

(** for (;;): a round that does not end the loop consumes a char at least. *)
Fixpoint parseString_loop (fuel : nat) (ret : list Z) : St Input (list Z) :=
  match fuel with
  | O => throw OutOfFuel
  | S fuel =>
      range ← skipWhile (fun (_ : unit) c => (negb (c =? 34) && negb (c =? 92), tt)) tt;
      let ret := ret ++ range in
      c ← gets current_;
      if c =? 34 then _ ← incr; mret ret
      else if c =? 92 then _ ← incr; s ← parse_escape; parseString_loop fuel (ret ++ s)
      else if c =? EOF then error "unterminated string"
      else if c =? 0 then error "null byte in string"
      else _ ← incr; parseString_loop fuel (ret ++ [u8 c])
  end.
Definition parseString : St Input (list Z) :=
  c ← gets current_;
  _ ← assert_ (c =? 34);
  _ ← incr;
  r ← gets range_;
  parseString_loop (S (length r)) [].

(** ** Arrays and objects, given the parser of values *)

Section containers.
Variable parseValue : St Input (dynamic D).

Fixpoint parseArray_loop (fuel : nat) ret : St Input (list (dynamic D)) :=
  match fuel with
  | O => throw OutOfFuel
  | S fuel =>
      c ← gets current_;
      if allow_trailing_comma opts && (c =? 93) then mret ret else
      v ← parseValue;
      let ret := ret ++ [v] in
      _ ← skipWhitespace;
      c ← gets current_;
      if negb (c =? 44) then mret ret else
      _ ← incr; _ ← skipWhitespace;
      parseArray_loop fuel ret
  end.
Definition parseArray : St Input (dynamic D) :=
  c ← gets current_;
  _ ← assert_ (c =? 91);
  _ ← incr; _ ← skipWhitespace;
  c ← gets current_;
  if c =? 93 then _ ← incr; mret (ARRAY []) else
  r ← gets range_;
  ret ← parseArray_loop (S (length r)) [];
  _ ← expect 93;
  mret (ARRAY ret).

(** key : value *)
Definition parse_entry : St Input (dynamic D * dynamic D) :=
  c ← gets current_;
  key ← (if c =? 34 then k ← parseString; mret (STRING k)
         else if negb (allow_non_string_keys opts) then error "expected string for object key name"
         else parseValue);
  _ ← skipWhitespace; _ ← expect 58; _ ← skipWhitespace;
  v ← parseValue;
  mret (key, v).
Fixpoint parseObject_loop (fuel : nat) (ret : list (dynamic D * dynamic D)) : St Input (list (dynamic D * dynamic D)) :=
  match fuel with
  | O => throw OutOfFuel
  | S fuel =>
      c ← gets current_;
      if allow_trailing_comma opts && (c =? 125) then mret ret else
      e ← parse_entry;
      ret ← lift (insert e.1 e.2 ret);
      _ ← skipWhitespace;
      c ← gets current_;
      if negb (c =? 44) then mret ret else
      _ ← incr; _ ← skipWhitespace;
      parseObject_loop fuel ret
  end.
Definition parseObject : St Input (dynamic D) :=
  c ← gets current_;
  _ ← assert_ (c =? 123);
  _ ← incr; _ ← skipWhitespace;
  c ← gets current_;
  if c =? 125 then _ ← incr; mret (OBJECT []) else
  r ← gets range_;
  ret ← parseObject_loop (S (length r)) [];
  _ ← expect 125;
  mret (OBJECT ret).

(** The last alternatives of parseValue. *)
Definition parse_literal : St Input (dynamic D) :=
  b ← consume (chars "true"); if (b : bool) then mret (BOOL true) else
  b ← consume (chars "false"); if (b : bool) then mret (BOOL false) else
  b ← consume (chars "null"); if (b : bool) then mret NULLT else
  b ← consume (chars "Infinity");
  if (b : bool) then mret (if parse_numbers_as_strings opts then STRING (chars "Infinity") else DOUBLE d_inf) else
  b ← consume (chars "NaN");
  if (b : bool) then mret (if parse_numbers_as_strings opts then STRING (chars "NaN") else DOUBLE d_nan) else
  error "expected json value".

(** The guard's destructor runs when the value is returned; an exception ends the
    parse. *)
Definition parseValue_body : St Input (dynamic D) :=
  _ ← incrementRecursionLevel;
  _ ← skipWhitespace;
  c ← gets current_;
  v ← (if c =? 91 then parseArray
       else if c =? 123 then parseObject
       else if c =? 34 then s ← parseString; mret (STRING s)
       else if (c =? 45) || is_digit c then parseNumber
       else parse_literal);
  _ ← decrementRecursionLevel;
  mret v.
End containers.

(** Every nested call is made after a char was consumed. *)
Fixpoint parseValue (fuel : nat) : St Input (dynamic D) :=
  match fuel with
  | O => throw OutOfFuel
  | S fuel => parseValue_body (parseValue fuel)
  end.

Definition parseJson (range : list Z) : outcome (dynamic D) :=
  '(v, i) ← (ret ← parseValue (S (length range));
             _ ← skipWhitespace;
             r ← gets range_;
             c ← gets current_;
             if negb (bool_decide (r = [])) && negb (c =? 0) then error "parsing didn't consume all input"
             else mret ret) (new_input range);
  Ret v.
End parser.

(** ** stripComments *)

Inductive State := None_ | InString | InlineComment | LineComment.

(** for (size_t i = 0; i < jsonC.size(); ++i), on what is left of the text. *)
Fixpoint strip (state : State) (s : list Z) : outcome (list Z) :=
  match s with
  | [] => Ret []
  | c :: s' =>
      match state with
      | None_ =>
          match c, s' with
          | 47, 42 :: s'' => strip InlineComment s''
          | 47, 47 :: s'' => strip LineComment s''
          | _, _ => r ← strip (if c =? 34 then InString else None_) s'; Ret (c :: r)
          end
      | InString =>
          if c =? 92 then
            match s' with
            | [] => Err (Thrown "Invalid JSONC: string is not terminated")
            | c' :: s'' => r ← strip InString s''; Ret (c :: c' :: r)
            end
          else r ← strip (if c =? 34 then None_ else InString) s'; Ret (c :: r)
      | InlineComment =>
          match c, s' with
          | 42, 47 :: s'' => strip None_ s''
          | _, _ => strip InlineComment s'
          end
      | LineComment => strip (if c =? 10 then None_ else LineComment) s'
      end
  end.
Definition stripComments (jsonC : list Z) : outcome (list Z) := strip None_ jsonC.

End JsonParse.
