(* ===== verification/JsonSafe.v ===== *)
(** The JSON parser on arbitrary bytes: it ends, it reads only what is there, and
    what it returns nests no deeper than the recursion limit. *)
From S2P Require Import Prelude Conv ConvProof Json JsonParse.

Module JsonSafe.
Import Json JsonParse.

(** ** Computations that may throw: [wpe m Q w] *)

(** Run from [w], [m] returns with [Q], or throws an exception of the program; it
    does not fault and does not run out of fuel. *)
Definition wpe {W A} (m : St W A) (Q : A → W → Prop) (w : W) : Prop :=
  match m w with Ret (a, w') => Q a w' | Err (Thrown _) => True | Err _ => False end.

Section wpe.
Context {W : Type}.

Lemma wpe_ret {A} (a : A) (Q : A → W → Prop) w : Q a w → wpe (mret a) Q w.
Proof. done. Qed.
Lemma wpe_throw {A} what (Q : A → W → Prop) w : wpe (throw (Thrown what)) Q w.
Proof. done. Qed.
Lemma wpe_bind {A B} (m : St W A) (f : A → St W B) Q w : wpe m (fun a => wpe (f a) Q) w → wpe (m ≫= f) Q w.
Proof. unfold wpe, mbind, St_bind. by destruct (m w) as [[a w']|[]]. Qed.
Lemma wpe_mono {A} (m : St W A) (P Q : A → W → Prop) w : wpe m P w → (∀ a w', P a w' → Q a w') → wpe m Q w.
Proof. unfold wpe. destruct (m w) as [[a w']|[]]; auto. Qed.
Lemma wpe_gets {A} (f : W → A) Q w : Q (f w) w → wpe (gets f) Q w.
Proof. done. Qed.
Lemma wpe_modify (f : W → W) (Q : unit → W → Prop) w : Q tt (f w) → wpe (modify f) Q w.
Proof. done. Qed.
Lemma wpe_assert b (Q : unit → W → Prop) w : b = true → Q tt w → wpe (assert_ b) Q w.
Proof. by intros ->. Qed.
Lemma wpe_lift {A} (o : outcome A) (Q : A → W → Prop) w :
  match o with Ret a => Q a w | Err (Thrown _) => True | Err _ => False end → wpe (lift o) Q w.
Proof. unfold wpe, lift. by destruct o as [|[]]. Qed.
End wpe.

Ltac wpe_step :=
  lazymatch goal with
  | |- wpe (mbind _ _) _ _ => apply wpe_bind
  | |- wpe (gets _) _ _ => apply wpe_gets
  | |- wpe (modify _) _ _ => apply wpe_modify
  | |- wpe (mret _) _ _ => apply wpe_ret
  | |- wpe (error _) _ _ => apply wpe_throw
  | |- wpe (throw (Thrown _)) _ _ => apply wpe_throw
  | |- wpe (if ?b then _ else _) _ _ => destruct b eqn:?
  end.
Ltac wpe_run :=
  repeat (lazymatch goal with |- wpe (if _ then _ else _) _ _ => fail | _ => wpe_step end; cbn beta).
Ltac wpe_steps := repeat (wpe_step; cbn beta).

(** ** The input *)

Definition synced (i : Input) : Prop := current_ i = storeCurrent (range_ i).
Definition size (i : Input) : nat := length (range_ i).

(** [i'] is [i] after some chars, at least [n], were consumed. *)
Definition after (n : nat) (i i' : Input) : Prop :=
  synced i' ∧ (size i' + n <= size i)%nat ∧ currentRecursionLevel_ i' = currentRecursionLevel_ i.

Lemma after_refl i : synced i → after 0 i i.
Proof. intros Hi. split; [done|]. split; [lia|done]. Qed.
Lemma after_trans n m k i i' i'' : after n i i' → after m i' i'' → (k <= n + m)%nat → after k i i''.
Proof. intros (? & ? & ?) (? & ? & ?) ?. split; [done|]. split; [lia|congruence]. Qed.
Lemma after_synced n i i' : after n i i' → synced i'.
Proof. by intros [? _]. Qed.

Create HintDb json.
#[local] Hint Resolve after_refl after_synced : json.

(** Run a step with its specification and go on behind it. *)
Ltac wpe_use H := eapply wpe_mono; [eapply H; eauto with json|]; cbn beta.

Lemma storeCurrent_some r c : storeCurrent r = c → c ≠ EOF → r ≠ [].
Proof. by destruct r; intros <-. Qed.

Lemma set_range_spec r i : (length r <= size i)%nat → wpe (set_range r) (fun _ i' => after (size i - length r) i i') i.
Proof. intros Hr. apply wpe_modify. unfold after, synced, size in *. cbn. lia. Qed.

Lemma incr_spec i : synced i → current_ i ≠ EOF → wpe incr (fun _ i' => after 1 i i') i.
Proof.
  intros Hi Hc. unfold incr. wpe_steps. rewrite Hi in Hc.
  destruct (range_ i) as [|c r] eqn:E; [done|].
  eapply wpe_mono; [apply set_range_spec; unfold size; rewrite E; cbn; lia|].
  intros _ i' (? & Hs & ?). split; [done|]. unfold size in *. rewrite E in *. cbn in *. split; [lia|done].
Qed.

Lemma expect_spec c i : synced i → c ≠ EOF → wpe (expect c) (fun _ i' => after 1 i i') i.
Proof.
  intros Hi Hc. unfold expect. wpe_steps. apply negb_false_iff, Z.eqb_eq in Heqb. apply incr_spec; [done|congruence].
Qed.

Lemma skip_prefix_spec {S} (p : S → Z → bool * S) s r : let '(pre, rest, _) := skip_prefix p s r in r = pre ++ rest.
Proof.
  revert s. induction r as [|c r IH]; intros s; cbn; [done|]. destruct (p s c) as [b s']. destruct b; [|done].
  specialize (IH s'). destruct (skip_prefix p s' r) as [[pre rest] n]. by rewrite IH.
Qed.

Lemma skipWhile_spec {S} (p : S → Z → bool * S) s i : synced i →
  wpe (skipWhile p s) (fun pre i' => after 0 i i' ∧ ∃ rest n, skip_prefix p s (range_ i) = (pre, rest, n) ∧ range_ i' = rest) i.
Proof.
  intros Hi. unfold skipWhile. wpe_steps. pose proof (skip_prefix_spec p s (range_ i)) as Hp.
  destruct (skip_prefix p s (range_ i)) as [[pre rest] n]. wpe_steps.
  split; [|by exists rest, n]. unfold after, synced, size in *. cbn. rewrite Hp, length_app. lia.
Qed.

Lemma ltrim_length r : (length (ltrimWhitespace r) <= length r)%nat.
Proof. induction r as [|c r IH]; cbn; [done|]. case_match; cbn; lia. Qed.

Lemma skipWhitespace_spec i : synced i → wpe skipWhitespace (fun _ i' => after 0 i i') i.
Proof.
  intros Hi. unfold skipWhitespace. wpe_steps. wpe_use set_range_spec; [apply ltrim_length|].
  intros _ i' (? & ? & ?). split; [done|]. split; [lia|done].
Qed.

Lemma strip_prefix_length str r r' : strip_prefix str r = Some r' → (length r' + length str = length r)%nat.
Proof.
  revert r. induction str as [|x str IH]; intros r H; destruct r as [|y r]; cbn in *; try done; [by injection H as <-|injection H as <-; cbn; lia|].
  case_match; [|done]. specialize (IH _ H). lia.
Qed.

Lemma consume_spec str i : synced i → wpe (consume str) (fun b i' => after 0 i i' ∧ (b = false → i' = i)) i.
Proof.
  intros Hi. unfold consume. wpe_steps. destruct (strip_prefix str (range_ i)) as [r'|] eqn:E; wpe_steps.
  - apply strip_prefix_length in E. split; [|done]. unfold after, synced, size in *. cbn. lia.
  - split; [by apply after_refl|done].
Qed.

(** ** Numbers *)

Lemma minus_and_digits r pre rest n :
  skip_prefix (fun (firstChar : bool) c => (is_digit c || (firstChar && (c =? 45)), false)) true r = (pre, rest, n) →
  pre = [] ∨ ∃ c ds, pre = c :: ds ∧ (ConvProof.digit c ∨ c = 45) ∧ Forall ConvProof.digit ds.
Proof.
  assert (∀ r pre rest n, skip_prefix (fun (firstChar : bool) c => (is_digit c || (firstChar && (c =? 45)), false)) false r = (pre, rest, n) →
    Forall ConvProof.digit pre) as Hds.
  { clear. induction r as [|c r IH]; intros pre rest n H; cbn in H; [by injection H as <- <- <-|].
    rewrite orb_false_r in H. destruct (is_digit c) eqn:Hc; [|by injection H as <- <- <-].
    destruct (skip_prefix _ false r) as [[pre' rest'] n']. injection H as <- <- <-.
    constructor; [unfold is_digit, ConvProof.digit in *; lia|]. by eapply IH. }
  destruct r as [|c r]; cbn; intros H; [injection H as <- <- <-; by left|].
  destruct (is_digit c || (c =? 45)) eqn:Hc; [|injection H as <- <- <-; by left]. right.
  specialize (Hds r). destruct (skip_prefix _ false r) as [[pre' rest'] n']. injection H as <- <- <-.
  exists c, pre'. split; [done|]. split; [|by eapply Hds].
  unfold is_digit, ConvProof.digit in *. apply orb_prop in Hc as [Hc|Hc]; lia.
Qed.

Definition no_fault {A} (o : outcome A) : Prop := match o with Ret _ | Err (Thrown _) => True | Err _ => False end.

Lemma no_fault_bind {A B} (o : outcome A) (f : A → outcome B) : no_fault o → (∀ a, o = Ret a → no_fault (f a)) → no_fault (o ≫= f).
Proof. destruct o as [a|e]; cbn; auto. Qed.
Lemma no_fault_check b what : no_fault (check b (Thrown what)).
Proof. by destruct b. Qed.

(** Parsing what skipMinusAndDigits returned. *)
Lemma to_int_no_fault t c ds : t ∈ Conv.itypes → ConvProof.digit c ∨ c = 45 → Forall ConvProof.digit ds →
  no_fault (Conv.to_string_integral t (c :: ds)).
Proof.
  intros Ht Hc Hds. unfold Conv.to_string_integral. apply no_fault_bind.
  2: { intros [r rest] _. apply no_fault_bind; [apply no_fault_check|done]. }
  unfold Conv.to_piece. cbn [Conv.skip_spaces].
  assert (Conv.isspace c = false) as -> by (destruct Hc as [Hc| ->]; [by apply ConvProof.digit_classes|done]).
  cbn [mbind outcome_bind].
  assert (∀ m (neg : bool), Forall ConvProof.digit m → no_fault (match m with
    | [] => Err (Thrown Conv.NoDigits)
    | c :: m' =>
        _ ← check (Conv.isdigit c) (Thrown "Non-digit character found");
        let '(ds, rest) := Conv.findFirstNonDigit m' in
        r ← Conv.digits_to (Conv.it_bits t) (c :: ds);
        if negb (Conv.it_signed t) then Ret (r, rest)
        else if neg then
          let result := Conv.cast t (- r) in
          _ ← check (result <=? 0) Conv.NegativeOverflow; Ret (result, rest)
        else
          let result := Conv.cast t r in
          _ ← check (0 <=? result) Conv.Overflow; Ret (result, rest)
    end)) as Hm.
  { intros [|x m] neg Hm; [done|]. apply no_fault_bind; [apply no_fault_check|]. intros _ _.
    rewrite <- (app_nil_r m). rewrite ConvProof.findFirstNonDigit_app; [|by apply Forall_cons in Hm as [_ Hm]|constructor].
    rewrite ConvProof.digits_to_spec by (done || by apply ConvProof.itype_width).
    apply no_fault_bind; [by case_match|]. intros r _. destruct (negb _); [done|].
    destruct neg; cbn zeta; (apply no_fault_bind; [apply no_fault_check|done]). }
  destruct Hc as [Hc| ->].
  - rewrite (proj1 (ConvProof.digit_classes c Hc)), andb_false_r. cbn [mbind outcome_bind]. apply (Hm (c :: ds) false). by constructor.
  - destruct (Conv.it_signed t) eqn:Hs; cbn -[Conv.NoDigits].
    + specialize (Hm ds true Hds). exact Hm.
    + done.
Qed.

(** ** Strings *)

Lemma hexVal_spec c i : wpe (hexVal c) (fun _ i' => i' = i ∧ 48 ≤ c) i.
Proof. unfold hexVal. wpe_steps; split; (done || lia). Qed.

Lemma hex_step_spec i : synced i → wpe hex_step (fun _ i' => after 1 i i') i.
Proof.
  intros Hi. unfold hex_step. wpe_steps. wpe_use hexVal_spec. intros v ? [-> Hc]. wpe_steps.
  wpe_use incr_spec; [unfold EOF; lia|]. done.
Qed.

Lemma readHex_spec i : synced i → wpe readHex (fun _ i' => after 4 i i') i.
Proof.
  intros Hi. unfold readHex. wpe_steps.
  wpe_use hex_step_spec. intros a i1 H1. wpe_steps. wpe_use hex_step_spec. intros b i2 H2. wpe_steps.
  wpe_use hex_step_spec. intros c i3 H3. wpe_steps. wpe_use hex_step_spec. intros d i4 H4. wpe_steps.
  eapply (after_trans 1 3); [done| |lia]. eapply (after_trans 1 2); [done| |lia]. eapply (after_trans 1 1); [done|done|lia].
Qed.

Lemma decodeUnicodeEscape_spec i : synced i → wpe decodeUnicodeEscape (fun _ i' => after 0 i i') i.
Proof.
  intros Hi. unfold decodeUnicodeEscape. wpe_steps. wpe_use readHex_spec. intros cp i1 H1. wpe_steps.
  - wpe_use consume_spec. intros u i2 [H2 _]. wpe_steps. wpe_use readHex_spec. intros second i3 H3. wpe_steps.
    eapply (after_trans 4 4); [done| |lia]. eapply (after_trans 0 4); [done|done|lia].
  - eapply (after_trans 4 0); [done| |lia]. by eapply after_refl, after_synced.
Qed.

Lemma parse_escape_spec i : synced i → wpe parse_escape (fun _ i' => after 0 i i') i.
Proof.
  intros Hi. unfold parse_escape. apply wpe_bind, wpe_gets.
  assert (∀ c (Q : St Input (list Z)), (current_ i =? c) = true → c ≠ EOF →
    (∀ i', synced i' → wpe Q (fun _ i'' => after 0 i' i'') i') → wpe (_ ← incr; Q) (fun _ i' => after 0 i i') i) as Hesc.
  { intros c Q Hc HE HQ. wpe_steps. wpe_use incr_spec; [unfold EOF in *; lia|]. intros _ i1 H1.
    eapply wpe_mono; [apply HQ; eauto with json|]. cbn. intros _ i2 H2. eapply (after_trans 1 0); [done|done|lia]. }
  repeat match goal with |- wpe (if current_ i =? ?c then _ else _) _ _ => destruct (current_ i =? c) eqn:?;
    [apply (Hesc c); [done|done|intros; first [by apply decodeUnicodeEscape_spec | wpe_steps; by apply after_refl]]|] end.
  wpe_steps.
Qed.

(** What the loop over a string stops at. *)
Lemma skip_string_stop r pre rest n :
  skip_prefix (fun (_ : unit) c => (negb (c =? 34) && negb (c =? 92), tt)) tt r = (pre, rest, n) →
  rest = [] ∨ ∃ c rest', rest = c :: rest' ∧ (c = 34 ∨ c = 92).
Proof.
  revert pre rest n. induction r as [|c r IH]; intros pre rest n H; cbn in H; [injection H as <- <- <-; by left|].
  destruct (negb (c =? 34) && negb (c =? 92)) eqn:Hc.
  - destruct (skip_prefix _ tt r) as [[pre' rest'] n']. injection H as <- <- <-. by eapply IH.
  - injection H as <- <- <-. right. exists c, r. split; [done|]. lia.
Qed.

Lemma parseString_loop_spec fuel ret i : synced i → (size i < fuel)%nat →
  wpe (parseString_loop fuel ret) (fun _ i' => after 0 i i') i.
Proof.
  revert ret i. induction fuel as [|fuel IH]; intros ret i Hi Hf; [lia|]. cbn [parseString_loop]. wpe_steps.
  wpe_use (@skipWhile_spec unit). intros pre i1 [H1 (rest & n & Hp & Hr)]. wpe_steps.
  - wpe_use incr_spec; [unfold EOF; lia|]. intros _ i2 H2. wpe_steps. eapply (after_trans 0 1); [done|done|lia].
  - wpe_use incr_spec; [unfold EOF; lia|]. intros _ i2 H2. wpe_steps.
    wpe_use parse_escape_spec. intros s i3 H3. assert (after 1 i i3) as H13.
    { eapply (after_trans 0 1); [done| |lia]. eapply (after_trans 1 0); [done|done|lia]. }
    eapply wpe_mono; [apply IH; [eauto with json|]|].
    + destruct H13 as (_ & ? & _). lia.
    + cbn. intros _ i4 H4. eapply (after_trans 1 0); [done|done|lia].
  - exfalso. pose proof (after_synced _ _ _ H1) as Hs. unfold synced in Hs. rewrite Hr in Hs.
    destruct (skip_string_stop _ _ _ _ Hp) as [->|(c & rest' & -> & Hc)]; rewrite Hs in *; [done|].
    destruct Hc; subst c; done.
Qed.

Lemma parseString_spec i : synced i → current_ i = 34 → wpe parseString (fun _ i' => after 0 i i') i.
Proof.
  intros Hi Hc. unfold parseString. wpe_steps. apply wpe_assert; [by apply Z.eqb_eq|]. wpe_steps.
  wpe_use incr_spec; [by rewrite Hc|]. intros _ i1 H1. wpe_steps.
  eapply wpe_mono; [apply parseString_loop_spec; [eauto with json|unfold size; lia]|]. cbn. intros _ i2 H2.
  eapply (after_trans 1 0); [done|done|lia].
Qed.

(** ** Values *)

Section values.
Context {D : Type} `{Doubles D} `{HashOrder (dynamic D * dynamic D)}.
Variable opts : serialization_opts.

(** [v] nests at most [n] values inside each other, itself included. *)
Fixpoint nested (n : nat) (v : dynamic D) : Prop :=
  match n with
  | O => False
  | S n =>
      match v with
      | ARRAY l => Forall (nested n) l
      | OBJECT l => Forall (fun e => nested n e.1 ∧ nested n e.2) l
      | _ => True
      end
  end.

Lemma after_0 n i i' : after n i i' → after 0 i i'.
Proof. intros (? & ? & ?). split; [done|]. split; [lia|done]. Qed.
Lemma after_0_trans n m i i' i'' : after n i i' → after m i' i'' → after 0 i i''.
Proof. intros ? ?. eapply after_trans; [done|done|lia]. Qed.
#[local] Hint Resolve after_0 after_0_trans : json.

Lemma skipDigits_spec i : synced i → wpe skipDigits (fun _ i' => after 0 i i') i.
Proof. intros Hi. unfold skipDigits. wpe_use (@skipWhile_spec unit). by intros ? ? [? _]. Qed.

Lemma parse_fraction_spec wasE i : synced i → wasE = true ∨ current_ i = 46 → wpe (parse_fraction wasE) (fun _ i' => after 0 i i') i.
Proof.
  intros Hi Hc. unfold parse_fraction. apply wpe_bind.
  assert (wpe (if wasE then mret tt else _ ← incr; _ ← skipDigits; mret tt) (fun _ i' => after 0 i i') i) as Hfrac.
  { destruct wasE; wpe_run; [by apply after_refl|]. wpe_use incr_spec; [destruct Hc as [|Hc]; [done|by rewrite Hc]|].
    intros _ i1 H1. wpe_run. wpe_use skipDigits_spec. intros ds i2 H2. wpe_run. eauto with json. }
  wpe_use Hfrac. intros _ i1 H1. wpe_run. wpe_step; wpe_run; [|done].
  wpe_use incr_spec; [unfold EOF; lia|]. intros _ i2 H2. wpe_run.
  assert (wpe (if (current_ i2 =? 43) || (current_ i2 =? 45) then incr else mret tt) (fun _ i' => after 0 i2 i') i2) as Hsign.
  { wpe_step; wpe_run; [|eauto with json]. wpe_use incr_spec; [unfold EOF; lia|]. eauto with json. }
  wpe_use Hsign. intros _ i3 H3. wpe_run. wpe_use skipDigits_spec. intros ds i4 H4. wpe_run. eauto with json.
Qed.

Lemma parseNumber_spec n i : synced i → wpe (parseNumber opts) (fun v i' => after 0 i i' ∧ nested (S n) v) i.
Proof.
  intros Hi. unfold parseNumber. wpe_run.
  assert (wpe (if current_ i =? 45 then consume (chars "-Infinity") else mret false) (fun b i' => after 0 i i') i) as Hinf.
  { wpe_steps; [|by apply after_refl]. wpe_use consume_spec. by intros ? ? [? _]. }
  wpe_use Hinf. intros inf i1 H1. destruct inf; [wpe_run; split; [done|by destruct (parse_numbers_as_strings opts)]|]. wpe_run.
  wpe_use (@skipWhile_spec bool). intros integral i2 [H2 (rest & k & Hp & Hr)].
  assert (after 0 i i2) as H02 by eauto with json. wpe_step; [by wpe_run|]. wpe_run. wpe_step; [by wpe_run|].
  wpe_step; [wpe_step; wpe_run; apply wpe_lift|].
  - destruct (minus_and_digits _ _ _ _ Hp) as [->|(c & ds & -> & Hc & Hds)]; [done|].
    pose proof (to_int_no_fault Conv.int64_t c ds ltac:(by apply (bool_decide_unpack _)) Hc Hds) as Hnf.
    destruct (Conv.to_string_integral _ _) as [val|[]]; try done.
    wpe_run. wpe_use skipWhitespace_spec. intros _ i3 H3. wpe_run. split; [eauto with json|done].
  - destruct (d_parse integral); [|done]. cbn.
    wpe_run. wpe_use skipWhitespace_spec. intros _ i3 H3. wpe_run. split; [eauto with json|done].
  - wpe_run. wpe_use parse_fraction_spec; [lia|]. intros _ i3 H3. wpe_run. wpe_step; wpe_run; [split; [eauto with json|done]|].
    apply wpe_lift. destruct (d_parse _); [|done]. cbn. wpe_run. split; [eauto with json|done].
Qed.

(** What a parser of values promises at recursion level [l]: called on an input of
    less than [fuel] chars, it consumes some and returns a value that nests within the
    limit. *)
Definition value_parser (pv : St Input (dynamic D)) (fuel : nat) (l : Z) (n : nat) : Prop :=
  ∀ i, synced i → (size i < fuel)%nat → currentRecursionLevel_ i = l → wpe pv (fun v i' => after 0 i i' ∧ nested n v) i.

Section containers.
Variables (pv : St Input (dynamic D)) (fuel : nat) (l : Z) (n : nat).
Hypothesis Hpv : value_parser pv fuel l n.

Lemma parse_value_in i0 i : after 0 i0 i → (size i0 < fuel)%nat → currentRecursionLevel_ i0 = l →
  wpe pv (fun v i' => after 0 i0 i' ∧ nested n v) i.
Proof.
  intros (Hs & Hsz & Hl) Hf Hl0. eapply wpe_mono; [apply Hpv; [done|lia|congruence]|].
  cbn. intros v i' [Hi' Hv]. split; [|done]. eapply after_0_trans; [|done]. split; [done|]. split; [done|done].
Qed.

Lemma parseArray_loop_spec k ret i : synced i → (size i < fuel)%nat → (size i < k)%nat → currentRecursionLevel_ i = l →
  Forall (nested n) ret → wpe (parseArray_loop opts pv k ret) (fun ret' i' => after 0 i i' ∧ Forall (nested n) ret') i.
Proof.
  revert ret i. induction k as [|k IH]; intros ret i Hi Hf Hk Hl Hret; [lia|]. cbn [parseArray_loop]. wpe_run.
  wpe_step; wpe_run; [eauto with json|]. wpe_use (parse_value_in i). intros v i1 [H1 Hv]. wpe_run.
  wpe_use skipWhitespace_spec. intros _ i2 H2. wpe_run. assert (Forall (nested n) (ret ++ [v])) as Hret' by (apply Forall_app; eauto).
  wpe_step; wpe_run; [eauto with json|]. wpe_use incr_spec; [unfold EOF; lia|]. intros _ i3 H3. wpe_run.
  wpe_use skipWhitespace_spec. intros _ i4 H4. assert (after 1 i i4) as H14.
  { apply (after_trans 0 1 1 i i2); [eauto with json| |lia]. eapply (after_trans 1 0); [done|done|lia]. }
  eapply wpe_mono; [apply IH; [eauto with json|destruct H14 as (? & ? & ?); (lia || congruence)..|done]|].
  cbn. intros ret' i5 [H5 Hr]. eauto with json.
Qed.

Lemma parseArray_spec i : synced i → (size i <= fuel)%nat → currentRecursionLevel_ i = l → current_ i = 91 →
  wpe (parseArray opts pv) (fun v i' => after 0 i i' ∧ nested (S n) v) i.
Proof.
  intros Hi Hf Hl Hc. unfold parseArray. wpe_run. apply wpe_assert; [by apply Z.eqb_eq|]. wpe_run.
  wpe_use incr_spec; [by rewrite Hc|]. intros _ i1 H1. wpe_run. wpe_use skipWhitespace_spec. intros _ i2 H2.
  assert (after 1 i i2) as H12 by (eapply (after_trans 1 0); [done|done|lia]). wpe_run.
  wpe_step; wpe_run.
  - wpe_use incr_spec; [unfold EOF; lia|]. intros _ i3 H3. wpe_run. split; [eauto with json|]. cbn. constructor.
  - eapply wpe_mono; [apply parseArray_loop_spec; [eauto with json|destruct H12 as (? & ? & ?); unfold size in *; (lia || congruence)..|done]|].
    cbn. intros ret i3 [H3 Hret]. wpe_run. wpe_use expect_spec. intros _ i4 H4. wpe_run. eauto with json.
Qed.

Lemma parse_entry_spec i : synced i → (size i < fuel)%nat → currentRecursionLevel_ i = l →
  wpe (parse_entry opts pv) (fun e i' => after 0 i i' ∧ nested n e.1 ∧ nested n e.2) i.
Proof.
  intros Hi Hf Hl. unfold parse_entry. wpe_run.
  assert (wpe (if current_ i =? 34 then k ← parseString; mret (STRING k)
    else if negb (allow_non_string_keys opts) then error "expected string for object key name" else pv)
    (fun k i' => after 0 i i' ∧ ((0 < n)%nat → nested n k)) i) as Hkey.
  { wpe_step; wpe_run.
    - wpe_use parseString_spec; [lia|]. intros s i1 H1. wpe_run. split; [done|]. by destruct n; [lia|].
    - wpe_step; wpe_run. wpe_use (parse_value_in i). by intros k i1 [? ?]. }
  wpe_use Hkey. intros key i1 [H1 Hk]. wpe_run. wpe_use skipWhitespace_spec. intros _ i2 H2. wpe_run.
  wpe_use expect_spec. intros _ i3 H3. wpe_run. wpe_use skipWhitespace_spec. intros _ i4 H4. wpe_run.
  wpe_use (parse_value_in i). intros v i5 [H5 Hv]. wpe_run.
  split; [done|]. split; [|done]. apply Hk. destruct n; [done|lia].
Qed.

Lemma insert_nested (k v : dynamic D) obj obj' : nested n k → nested n v →
  Forall (fun e => nested n e.1 ∧ nested n e.2) obj → insert k v obj = Ret obj' →
  Forall (fun e => nested n e.1 ∧ nested n e.2) obj'.
Proof.
  intros Hk Hv Hobj Hins. unfold insert in Hins. inv_ret. destruct (assign _ v obj) as [l'|] eqn:Ha; cbn.
  - revert l' Ha. generalize (finds obj (k, v)) as found. intros found. clear -Hv Hobj. induction Hobj as [|e obj [He1 He2] Hobj IH]; intros l' Ha; cbn in Ha; [done|].
    destruct (found e); [injection Ha as <-; by constructor|]. apply fmap_Some in Ha as (l1 & Ha & ->). constructor; [done|by apply IH].
  - eapply Permutation_Forall; [symmetry; apply place_permutation|]. by constructor.
Qed.

Lemma insert_no_fault (k v : dynamic D) obj : no_fault (insert k v obj).
Proof. unfold insert. by destruct k. Qed.

Lemma parseObject_loop_spec k ret i : synced i → (size i < fuel)%nat → (size i < k)%nat → currentRecursionLevel_ i = l →
  Forall (fun e => nested n e.1 ∧ nested n e.2) ret →
  wpe (parseObject_loop opts pv k ret) (fun ret' i' => after 0 i i' ∧ Forall (fun e => nested n e.1 ∧ nested n e.2) ret') i.
Proof.
  revert ret i. induction k as [|k IH]; intros ret i Hi Hf Hk Hl Hret; [lia|]. cbn [parseObject_loop]. wpe_run.
  wpe_step; wpe_run; [eauto with json|]. wpe_use parse_entry_spec. intros e i1 (H1 & Hke & Hve). wpe_run.
  apply wpe_lift. pose proof (insert_no_fault e.1 e.2 ret) as Hnf. destruct (insert e.1 e.2 ret) as [ret'|[]] eqn:Hins; try done.
  pose proof (insert_nested _ _ _ _ Hke Hve Hret Hins) as Hret'. wpe_run.
  wpe_use skipWhitespace_spec. intros _ i2 H2. wpe_run.
  wpe_step; wpe_run; [eauto with json|]. wpe_use incr_spec; [unfold EOF; lia|]. intros _ i3 H3. wpe_run.
  wpe_use skipWhitespace_spec. intros _ i4 H4. assert (after 1 i i4) as H14.
  { apply (after_trans 0 1 1 i i2); [eauto with json| |lia]. eapply (after_trans 1 0); [done|done|lia]. }
  eapply wpe_mono; [apply IH; [eauto with json|destruct H14 as (? & ? & ?); (lia || congruence)..|done]|].
  cbn. intros ret'' i5 [H5 Hr]. eauto with json.
Qed.

Lemma parseObject_spec i : synced i → (size i <= fuel)%nat → currentRecursionLevel_ i = l → current_ i = 123 →
  wpe (parseObject opts pv) (fun v i' => after 0 i i' ∧ nested (S n) v) i.
Proof.
  intros Hi Hf Hl Hc. unfold parseObject. wpe_run. apply wpe_assert; [by apply Z.eqb_eq|]. wpe_run.
  wpe_use incr_spec; [by rewrite Hc|]. intros _ i1 H1. wpe_run. wpe_use skipWhitespace_spec. intros _ i2 H2.
  assert (after 1 i i2) as H12 by (eapply (after_trans 1 0); [done|done|lia]). wpe_run.
  wpe_step; wpe_run.
  - wpe_use incr_spec; [unfold EOF; lia|]. intros _ i3 H3. wpe_run. split; [eauto with json|]. cbn. constructor.
  - eapply wpe_mono; [apply parseObject_loop_spec; [eauto with json|destruct H12 as (? & ? & ?); unfold size in *; (lia || congruence)..|done]|].
    cbn. intros ret i3 [H3 Hret]. wpe_run. wpe_use expect_spec. intros _ i4 H4. wpe_run. eauto with json.
Qed.
End containers.

Lemma parse_literal_spec n i : synced i → wpe (parse_literal opts) (fun v i' => after 0 i i' ∧ nested (S n) v) i.
Proof.
  intros Hi. unfold parse_literal.
  repeat (wpe_run; wpe_use consume_spec; intros ? ? [? ?]; wpe_step;
    [wpe_run; split; [done|by destruct (parse_numbers_as_strings opts)]|];
    match goal with Hb : false = false → _ = i |- _ => rewrite (Hb eq_refl) in * end).
  wpe_run.
Qed.

(** The level counter is at most the limit plus one, so that it does not wrap. *)
Lemma parseValue_spec fuel l n : 0 ≤ l → l + Z.of_nat n = recursion_limit opts + 1 → recursion_limit opts < 2 ^ 32 - 1 →
  value_parser (parseValue opts fuel) fuel l n.
Proof.
  revert l n. induction fuel as [|fuel IH]; intros l n Hl Hn Hlim i Hi Hf Hil; [lia|]. cbn [parseValue]. unfold parseValue_body.
  apply wpe_bind. unfold incrementRecursionLevel. wpe_run. wpe_step; [by wpe_run|]. wpe_run. rewrite Hil in *.
  rewrite u32_small by lia. destruct n as [|n]; [lia|].
  set (i0 := mk_input (range_ i) (lineNum_ i) (current_ i) (l + 1)). assert (synced i0) as Hi0 by done.
  wpe_use skipWhitespace_spec. intros _ i1 H1.
  assert (value_parser (parseValue opts fuel) fuel (l + 1) n) as Hpv by (apply IH; lia).
  assert (size i1 <= fuel)%nat as Hsz by (destruct H1 as (_ & Hs & _); unfold size in *; cbn in *; lia).
  assert (currentRecursionLevel_ i1 = l + 1) as Hl1 by apply H1.
  assert (∀ m, wpe m (fun v i' => after 0 i1 i' ∧ nested (S n) v) i1 →
    wpe (v ← m; _ ← decrementRecursionLevel; mret v) (fun v i' => after 0 i i' ∧ nested (S n) v) i1) as Hdone.
  { intros m Hm. wpe_run. eapply wpe_mono; [exact Hm|]. cbn. intros v i2 [H2 Hv]. unfold decrementRecursionLevel. wpe_run.
    split; [|done]. destruct H1 as (_ & Hs1 & _), H2 as (Hs2 & Hs3 & Hl2). unfold after, synced, size in *. cbn in *.
    rewrite Hl2, Hl1, u32_small by lia. split; [done|]. split; lia. }
  apply wpe_bind, wpe_gets. apply Hdone. assert (synced i1) as Hi1 by eauto with json. clear Hdone.
  wpe_step; [by apply (parseArray_spec _ fuel (l + 1) n); [|..|apply Z.eqb_eq]|].
  wpe_step; [by apply (parseObject_spec _ fuel (l + 1) n); [|..|apply Z.eqb_eq]|].
  wpe_step; [wpe_run; wpe_use parseString_spec; [by apply Z.eqb_eq|]; intros; wpe_run; done|].
  wpe_step; [by apply parseNumber_spec|by apply parse_literal_spec].
Qed.

(** C23. On any bytes and with any options the parser ends, and it ends by returning a
    value or by throwing: no char outside the text is read, no assertion fails and
    no loop runs out of the chars that bound it. The values it returns nest at
    most as deep as the recursion limit allows. *)
Theorem parseJson_safe range : 0 ≤ recursion_limit opts < 2 ^ 32 - 1 →
  match parseJson opts range with
  | Ret v => nested (Z.to_nat (recursion_limit opts + 1)) v
  | Err e => ∃ what, e = Thrown what
  end.
Proof.
  intros Hlim. unfold parseJson.
  assert (wpe (ret ← parseValue opts (S (length range)); _ ← skipWhitespace; r ← gets range_; c ← gets current_;
    if negb (bool_decide (r = [])) && negb (c =? 0) then error "parsing didn't consume all input" else mret ret)
    (fun v _ => nested (Z.to_nat (recursion_limit opts + 1)) v) (new_input range)) as Hwp.
  { wpe_run. eapply wpe_mono; [apply (parseValue_spec _ 0 (Z.to_nat (recursion_limit opts + 1))); [lia|lia|lia|done|unfold size; cbn; lia|done]|].
    cbn. intros v i [Hi Hv]. wpe_run. wpe_use skipWhitespace_spec. intros _ i2 H2. wpe_run. wpe_step; wpe_run. done. }
  revert Hwp. unfold wpe. match goal with |- match ?o with _ => _ end → _ => destruct o as [[v i]|[]] end; cbn [mbind outcome_bind]; eauto; done.
Qed.
End values.

(** ** An instance of the parameters *)

Module Demo.
(** Numbers without a fraction, written with one, and a table that iterates from the
    newest entry. *)
#[export] Instance doubles_Z : Doubles Z := {|
  d_finite := fun _ => true; d_lt := Z.ltb; d_eq := Z.eqb; d_inf := 2 ^ 1024; d_ninf := - 2 ^ 1024; d_nan := 0;
  d_of_int := fun z => z; d_to_int := fun d => d; d_text := fun d => ConvProof.dec 20 d ++ [46; 48];
  d_parse := fun s => match Conv.digits_to 64 (skip_prefix (fun (_ : unit) c => (is_digit c, tt)) tt s).1.1 with Ret d => Some d | Err _ => None end |}.
#[export] Instance newest_first A : HashOrder A := {| place l e := e :: l; place_permutation l e := Permutation_refl (e :: l); meets _ _ _ := false |}.

Definition deep : serialization_opts := mk_opts false false false false false false false false false false false 1.

Lemma parseJson_safe_witness :
  match parseJson (D := Z) deep (chars "[[[]]]") with
  | Ret v => nested 2 v
  | Err e => ∃ what, e = Thrown what
  end.
Proof. apply (parseJson_safe (D := Z) deep (chars "[[[]]]")). cbn. lia. Defined.
End Demo.

End JsonSafe.
