(* ===== verification/JsonText.v ===== *)
(** JSON strings: UTF-8, escaping and its inverse. *)
From S2P Require Import Prelude Base64 Conv ConvProof Json JsonParse JsonSafe.

Module JsonText.
Import Json JsonParse JsonSafe.

(** ** UTF-8 *)

(** A code point of the basic plane that is not half of a surrogate pair. *)
Definition bmp (cp : Z) : Prop := 0 ≤ cp ≤ 0xFFFF ∧ ¬ (0xD800 ≤ cp ≤ 0xDFFF).

(** A sequence of encoded code points of the basic plane. *)
Inductive utf8 : list Z → Prop :=
| utf8_nil : utf8 []
| utf8_cons cp s : bmp cp → utf8 s → utf8 (codePointToUtf8 cp ++ s).

Lemma land_mask x n : 0 ≤ n → Z.land x (2 ^ n - 1) = x mod 2 ^ n.
Proof. intros Hn. rewrite <- Z.land_ones by lia. f_equal. by rewrite Z.ones_equiv, Z.sub_1_r. Qed.

(** Facts about single bytes, by evaluating all of them. *)
Lemma byte_case (P : Z → bool) n : forallb P (seqZ 0 n) = true → ∀ b, 0 ≤ b < n → P b = true.
Proof. intros HP b Hb. rewrite forallb_forall in HP. apply HP, list_elem_of_In, elem_of_seqZ. lia. Qed.

Lemma cont_byte b : 0 ≤ b < 64 → Z.lor 0x80 b = 0x80 + b ∧ Z.land (0x80 + b) 0xC0 = 0x80 ∧ Z.land (0x80 + b) 0x3F = b.
Proof.
  intros Hb. pose proof (byte_case (fun b => (Z.lor 0x80 b =? 0x80 + b) && (Z.land (0x80 + b) 0xC0 =? 0x80) && (Z.land (0x80 + b) 0x3F =? b))
    64 ltac:(vm_compute; reflexivity) b Hb) as Hall. cbn beta in Hall. lia.
Qed.

Lemma lead2_byte a : 0 ≤ a < 32 → Z.lor 0xC0 a = 0xC0 + a ∧ Z.land (0xC0 + a) 0x80 ≠ 0 ∧ Z.land (0xC0 + a) 0xC0 = 0xC0 ∧
  Z.land (u8 (Z.shiftl (u8 (Z.shiftl (0xC0 + a) 1)) 1)) 0x80 = 0.
Proof.
  intros Hb. pose proof (byte_case (fun a => (Z.lor 0xC0 a =? 0xC0 + a) && negb (Z.land (0xC0 + a) 0x80 =? 0) && (Z.land (0xC0 + a) 0xC0 =? 0xC0) &&
    (Z.land (u8 (Z.shiftl (u8 (Z.shiftl (0xC0 + a) 1)) 1)) 0x80 =? 0)) 32 ltac:(vm_compute; reflexivity) a Hb) as Hall. cbn beta in Hall. lia.
Qed.

Lemma lead3_byte a : 0 ≤ a < 16 → Z.lor 0xE0 a = 0xE0 + a ∧ Z.land (0xE0 + a) 0x80 ≠ 0 ∧ Z.land (0xE0 + a) 0xC0 = 0xC0 ∧
  Z.land (u8 (Z.shiftl (u8 (Z.shiftl (0xE0 + a) 1)) 1)) 0x80 ≠ 0 ∧
  Z.land (u8 (Z.shiftl (u8 (Z.shiftl (u8 (Z.shiftl (0xE0 + a) 1)) 1)) 1)) 0x80 = 0.
Proof.
  intros Hb. pose proof (byte_case (fun a => (Z.lor 0xE0 a =? 0xE0 + a) && negb (Z.land (0xE0 + a) 0x80 =? 0) && (Z.land (0xE0 + a) 0xC0 =? 0xC0) &&
    negb (Z.land (u8 (Z.shiftl (u8 (Z.shiftl (0xE0 + a) 1)) 1)) 0x80 =? 0) &&
    (Z.land (u8 (Z.shiftl (u8 (Z.shiftl (u8 (Z.shiftl (0xE0 + a) 1)) 1)) 1)) 0x80 =? 0)) 16 ltac:(vm_compute; reflexivity) a Hb) as Hall. cbn beta in Hall. lia.
Qed.

(** The six low bits and the rest. *)
Lemma low_bits x : Z.land 0x3f x = x mod 64.
Proof. rewrite Z.land_comm. by apply (land_mask x 6). Qed.

Lemma utf8_one cp : 0 ≤ cp ≤ 0x7f → codePointToUtf8 cp = [cp].
Proof. intros Hcp. unfold codePointToUtf8. rewrite (proj2 (Z.leb_le cp 0x7f)) by lia. by rewrite u8_small by lia. Qed.

Lemma utf8_two cp : 0x80 ≤ cp ≤ 0x7FF → codePointToUtf8 cp = [0xC0 + cp / 64; 0x80 + cp mod 64].
Proof.
  intros Hcp. unfold codePointToUtf8. rewrite (proj2 (Z.leb_gt cp 0x7f)), (proj2 (Z.leb_le cp 0x7FF)) by lia.
  rewrite low_bits, Z.shiftr_div_pow2 by lia. change (2 ^ 6) with 64.
  destruct (lead2_byte (cp / 64)) as [-> _]; [Z.div_mod_to_equations; lia|].
  destruct (cont_byte (cp mod 64)) as [-> _]; [Z.div_mod_to_equations; lia|].
  rewrite !u8_small by (Z.div_mod_to_equations; lia). done.
Qed.

Lemma utf8_three cp : 0x800 ≤ cp ≤ 0xFFFF →
  codePointToUtf8 cp = [0xE0 + cp / 64 / 64; 0x80 + cp / 64 mod 64; 0x80 + cp mod 64].
Proof.
  intros Hcp. unfold codePointToUtf8.
  rewrite (proj2 (Z.leb_gt cp 0x7f)), (proj2 (Z.leb_gt cp 0x7FF)), (proj2 (Z.leb_le cp 0xFFFF)) by lia.
  rewrite !low_bits, !Z.shiftr_div_pow2 by lia. change (2 ^ 6) with 64. change (2 ^ 12) with (64 * 64). rewrite <- Z.div_div by lia.
  rewrite (u8_small (cp / 64 / 64)), (u8_small (cp / 64 mod 64)) by (Z.div_mod_to_equations; lia).
  destruct (lead3_byte (cp / 64 / 64)) as [-> _]; [Z.div_mod_to_equations; lia|].
  destruct (cont_byte (cp / 64 mod 64)) as [-> _]; [Z.div_mod_to_equations; lia|].
  destruct (cont_byte (cp mod 64)) as [-> _]; [Z.div_mod_to_equations; lia|].
  by rewrite u8_small by (Z.div_mod_to_equations; lia).
Qed.

(** What is above a mask. *)
Lemma above_mask d n m : 0 ≤ n ≤ m → 0 ≤ d < 2 ^ m → (Z.land d (Z.lnot (2 ^ n - 1)) =? 0) = (d <? 2 ^ n).
Proof.
  intros Hn Hd. assert (Z.land d (Z.lnot (2 ^ n - 1)) = 2 ^ n * (d / 2 ^ n)) as ->.
  { rewrite <- Z.ldiff_land. replace (2 ^ n - 1) with (Z.ones n) by (rewrite Z.ones_equiv; lia).
    rewrite Z.ldiff_ones_r by lia. rewrite Z.shiftl_mul_pow2, Z.shiftr_div_pow2 by lia. lia. }
  pose proof (Z.div_mod d (2 ^ n)). pose proof (Z.mod_pos_bound d (2 ^ n)).
  destruct (Z.ltb_spec d (2 ^ n)); [rewrite Z.div_small by lia|]; [lia|].
  apply Z.eqb_neq. pose proof (Z.div_le_lower_bound d (2 ^ n) 1). nia.
Qed.

Lemma decode_encode cp s skip : bmp cp → decodeUtf8 (codePointToUtf8 cp ++ s) skip = Ret (cp, s).
Proof.
  intros [Hcp Hsur]. destruct (decide (cp ≤ 0x7f)) as [H1|H1]; [|destruct (decide (cp ≤ 0x7FF)) as [H2|H2]].
  - rewrite utf8_one by lia. cbn [app decodeUtf8]. pose proof (byte_case (fun c => Z.land c 0x80 =? 0) 128 ltac:(vm_compute; reflexivity) cp ltac:(lia)) as ->. done.
  - rewrite utf8_two by lia. cbn [app decodeUtf8].
    assert (0 ≤ cp / 64 < 32 ∧ 0 ≤ cp mod 64 < 64) as [Ha Hb] by (Z.div_mod_to_equations; lia).
    destruct (lead2_byte _ Ha) as (_ & Hl1%Z.eqb_neq & -> & Hl3). rewrite Hl1. cbn [negb Z.eqb Pos.eqb decodeUtf8_loop].
    destruct (cont_byte _ Hb) as (_ & -> & ->). rewrite Hl3. cbn [negb Z.eqb Pos.eqb].
    rewrite Base64.shift_in by lia. change (vget bitMask 1) with (Ret (2 ^ 11 - 1)). change (vget bitMask (1 - 1)) with (Ret (2 ^ 7 - 1)).
    cbn [mbind outcome_bind]. rewrite land_mask by lia. rewrite u32_small by (Z.div_mod_to_equations; lia).
    replace (((0xC0 + cp / 64) * 2 ^ 6 + cp mod 64) mod 2 ^ 11) with cp by (Z.div_mod_to_equations; lia).
    rewrite (above_mask cp 7 11) by lia. by rewrite (proj2 (Z.ltb_ge cp (2 ^ 7))) by lia.
  - rewrite utf8_three by lia. cbn [app decodeUtf8].
    assert (0 ≤ cp / 64 / 64 < 16 ∧ 0 ≤ cp / 64 mod 64 < 64 ∧ 0 ≤ cp mod 64 < 64) as (Ha & Hb & Hc) by (Z.div_mod_to_equations; lia).
    destruct (lead3_byte _ Ha) as (_ & Hl1%Z.eqb_neq & -> & Hl3%Z.eqb_neq & Hl4). rewrite Hl1. cbn [negb Z.eqb Pos.eqb decodeUtf8_loop].
    destruct (cont_byte _ Hb) as (_ & -> & ->). rewrite Hl3. cbn [negb Z.eqb Pos.eqb decodeUtf8_loop]. change (1 + 1) with 2. cbn [Z.eqb Pos.eqb].
    destruct (cont_byte _ Hc) as (_ & -> & ->). rewrite Hl4. cbn [negb Z.eqb Pos.eqb].
    rewrite !Base64.shift_in by lia. change (vget bitMask 2) with (Ret (2 ^ 16 - 1)). change (vget bitMask (2 - 1)) with (Ret (2 ^ 11 - 1)).
    cbn [mbind outcome_bind]. rewrite land_mask by lia.
    rewrite (u32_small ((0xE0 + cp / 64 / 64) * 2 ^ 6 + cp / 64 mod 64)) by lia. rewrite u32_small by lia.
    replace ((((0xE0 + cp / 64 / 64) * 2 ^ 6 + cp / 64 mod 64) * 2 ^ 6 + cp mod 64) mod 2 ^ 16) with cp by (Z.div_mod_to_equations; lia).
    rewrite (above_mask cp 11 16) by lia. rewrite (proj2 (Z.ltb_ge cp (2 ^ 11))) by lia.
    destruct (Z.leb_spec 0xD800 cp), (Z.leb_spec cp 0xDFFF), (Z.ltb_spec 0x10FFFF cp); cbn [andb orb]; (done || lia).
Qed.

Lemma lead4_byte a : 0 ≤ a < 5 → Z.lor 0xF0 a = 0xF0 + a ∧ Z.land (0xF0 + a) 0x80 ≠ 0 ∧ Z.land (0xF0 + a) 0xC0 = 0xC0 ∧
  Z.land (u8 (Z.shiftl (u8 (Z.shiftl (0xF0 + a) 1)) 1)) 0x80 ≠ 0 ∧
  Z.land (u8 (Z.shiftl (u8 (Z.shiftl (u8 (Z.shiftl (0xF0 + a) 1)) 1)) 1)) 0x80 ≠ 0.
Proof.
  intros Hb. pose proof (byte_case (fun a => (Z.lor 0xF0 a =? 0xF0 + a) && negb (Z.land (0xF0 + a) 0x80 =? 0) && (Z.land (0xF0 + a) 0xC0 =? 0xC0) &&
    negb (Z.land (u8 (Z.shiftl (u8 (Z.shiftl (0xF0 + a) 1)) 1)) 0x80 =? 0) &&
    negb (Z.land (u8 (Z.shiftl (u8 (Z.shiftl (u8 (Z.shiftl (0xF0 + a) 1)) 1)) 1)) 0x80 =? 0)) 5 ltac:(vm_compute; reflexivity) a Hb) as Hall.
  cbn beta in Hall. lia.
Qed.

Lemma utf8_four cp : 0x10000 ≤ cp ≤ 0x10FFFF →
  codePointToUtf8 cp = [0xF0 + cp / 64 / 64 / 64; 0x80 + cp / 64 / 64 mod 64; 0x80 + cp / 64 mod 64; 0x80 + cp mod 64].
Proof.
  intros Hcp. unfold codePointToUtf8.
  rewrite (proj2 (Z.leb_gt cp 0x7f)), (proj2 (Z.leb_gt cp 0x7FF)), (proj2 (Z.leb_gt cp 0xFFFF)), (proj2 (Z.leb_le cp 0x10FFFF)) by lia.
  rewrite !low_bits, !Z.shiftr_div_pow2 by lia. change (2 ^ 6) with 64. change (2 ^ 12) with (64 * 64). change (2 ^ 18) with (64 * 64 * 64).
  rewrite <- !Z.div_div by lia.
  destruct (lead4_byte (cp / 64 / 64 / 64)) as [-> _]; [Z.div_mod_to_equations; lia|].
  destruct (cont_byte (cp / 64 / 64 mod 64)) as [-> _]; [Z.div_mod_to_equations; lia|].
  destruct (cont_byte (cp / 64 mod 64)) as [-> _]; [Z.div_mod_to_equations; lia|].
  destruct (cont_byte (cp mod 64)) as [-> _]; [Z.div_mod_to_equations; lia|].
  by rewrite !u8_small by (Z.div_mod_to_equations; lia).
Qed.

(** Decoding UTF-8 gives every code point of the basic plane back and leaves what
    follows it. Above the basic plane it refuses every code point: the loop stops
    after the third byte, although the four-byte form is listed as valid. *)
Theorem decodeUtf8_planes cp s :
  (bmp cp → decodeUtf8 (codePointToUtf8 cp ++ s) false = Ret (cp, s)) ∧
  (0x10000 ≤ cp ≤ 0x10FFFF → decodeUtf8 (codePointToUtf8 cp ++ s) false = Err BadUtf8).
Proof.
  split; [by apply decode_encode|]. intros Hcp. rewrite utf8_four by lia. cbn [app decodeUtf8].
  assert (0 ≤ cp / 64 / 64 / 64 < 5 ∧ 0 ≤ cp / 64 / 64 mod 64 < 64 ∧ 0 ≤ cp / 64 mod 64 < 64 ∧ 0 ≤ cp mod 64 < 64) as (Ha & Hb & Hc & Hd)
    by (Z.div_mod_to_equations; lia).
  destruct (lead4_byte _ Ha) as (_ & Hl1%Z.eqb_neq & -> & Hl3%Z.eqb_neq & Hl4%Z.eqb_neq). rewrite Hl1. cbn [negb Z.eqb Pos.eqb decodeUtf8_loop].
  destruct (cont_byte _ Hb) as (_ & -> & ->). rewrite Hl3. cbn [negb Z.eqb Pos.eqb decodeUtf8_loop]. change (1 + 1) with 2. cbn [Z.eqb Pos.eqb].
  destruct (cont_byte _ Hc) as (_ & -> & ->). rewrite Hl4. done.
Qed.
Lemma decodeUtf8_planes_witness :
  decodeUtf8 [0xE4; 0xBD; 0xA0; 33] false = Ret (0x4f60, [33]) ∧ decodeUtf8 [0xF0; 0x9F; 0x98; 0x80] false = Err BadUtf8.
Proof.
  split.
  - apply (proj1 (decodeUtf8_planes 0x4f60 [33])). unfold bmp. lia.
  - apply (proj2 (decodeUtf8_planes 0x1F600 [])). lia.
Defined.

(** ** The input at a known position *)

(** [r] is left, at recursion level [l]. *)
Definition at_ (r : list Z) (l : Z) (i : Input) : Prop := synced i ∧ range_ i = r ∧ currentRecursionLevel_ i = l.

(** [c] as the parser sees it when [r] starts with it. *)
Lemma at_current c r l i : at_ (c :: r) l i → 0 ≤ c < 128 → current_ i = c.
Proof. intros (Hs & Hr & _) Hc. rewrite Hs, Hr. cbn. by rewrite (proj2 (Z.ltb_lt c 128)) by lia. Qed.

Lemma set_range_at r r' l i : at_ r l i → wp (set_range r') (fun _ => at_ r' l) i.
Proof. by intros (_ & _ & Hl). Qed.
Lemma incr_at c r l i : at_ (c :: r) l i → wp incr (fun _ => at_ r l) i.
Proof. intros Hi. unfold incr. wp_steps. destruct Hi as (_ & -> & Hl). done. Qed.
Lemma skipWhitespace_at r l i : at_ r l i → wp skipWhitespace (fun _ => at_ (ltrimWhitespace r) l) i.
Proof. intros Hi. unfold skipWhitespace. wp_steps. destruct Hi as (_ & -> & Hl). done. Qed.
Lemma expect_at c r l i : at_ (c :: r) l i → 0 ≤ c < 128 → wp (expect c) (fun _ => at_ r l) i.
Proof.
  intros Hi Hc. unfold expect. apply wp_bind, wp_gets. rewrite (at_current _ _ _ _ Hi Hc), Z.eqb_refl. by eapply incr_at.
Qed.
Lemma consume_at str r r' l i : at_ r l i → strip_prefix str r = Some r' → wp (consume str) (fun b i' => b = true ∧ at_ r' l i') i.
Proof. intros (Hs & Hr & Hl) Hp. unfold consume. wp_steps. rewrite Hr, Hp. done. Qed.
Lemma consume_not str r l i : at_ r l i → strip_prefix str r = None → wp (consume str) (fun b i' => b = false ∧ i' = i) i.
Proof. intros (Hs & Hr & Hl) Hp. unfold consume. wp_steps. by rewrite Hr, Hp. Qed.
Lemma skipWhile_at {S} (p : S → Z → bool * S) s r pre rest n l i : at_ r l i → skip_prefix p s r = (pre, rest, n) →
  wp (skipWhile p s) (fun x i' => x = pre ∧ at_ rest l i') i.
Proof. intros (Hs & Hr & Hl) Hp. unfold skipWhile. wp_steps. rewrite Hr, Hp. done. Qed.

Ltac wp_use H := eapply wp_mono; [eapply H; eauto|]; cbn beta.
(** Bind without deciding conditions. *)
Ltac wp_run :=
  repeat (lazymatch goal with |- wp (if _ then _ else _) _ _ => fail | _ => wp_step end; cbn beta).

(** ** Escapes *)

Lemma hex_digit d r l i : 0 ≤ d < 16 → at_ (hexDigit d :: r) l i → wp hex_step (fun v i' => v = d ∧ at_ r l i') i.
Proof.
  intros Hd Hi. unfold hex_step. wp_run.
  pose proof (byte_case (fun d => (48 <=? hexDigit d) && (hexDigit d <=? 102) && (if hexDigit d <=? 57 then hexDigit d - 48 =? d else (97 <=? hexDigit d) && (hexDigit d - 97 + 10 =? d)))
    16 ltac:(vm_compute; reflexivity) d Hd) as Hall. cbn beta in Hall.
  rewrite (at_current _ _ _ _ Hi) by lia. unfold hexVal.
  destruct (Z.leb_spec (hexDigit d) 57); [rewrite (proj2 (Z.leb_le 48 _)) by lia|rewrite andb_false_r, (proj2 (Z.leb_le 97 _)), (proj2 (Z.leb_le (hexDigit d) 102)) by lia];
    cbn [andb]; wp_run; wp_use incr_at; intros _ i1 H1; wp_run; (split; [lia|done]).
Qed.

(** Four hex digits stand for their number. *)
Lemma readHex_at a b c d r l i : 0 ≤ a < 16 → 0 ≤ b < 16 → 0 ≤ c < 16 → 0 ≤ d < 16 →
  at_ ([hexDigit a; hexDigit b; hexDigit c; hexDigit d] ++ r) l i →
  wp readHex (fun v i' => v = a * 4096 + b * 256 + c * 16 + d ∧ at_ r l i') i.
Proof.
  intros Ha Hb Hc Hd Hi. unfold readHex. wp_run. destruct Hi as (Hs & Hr & Hl). rewrite Hr. cbn [app length Nat.ltb Nat.leb].
  assert (at_ (hexDigit a :: hexDigit b :: hexDigit c :: hexDigit d :: r) l i) as Hi by done.
  wp_run. wp_use (hex_digit a). intros ? i1 [-> H1]. wp_run. wp_use (hex_digit b). intros ? i2 [-> H2]. wp_run.
  wp_use (hex_digit c). intros ? i3 [-> H3]. wp_run. wp_use (hex_digit d). intros ? i4 [-> H4]. wp_run.
  split; [|done]. rewrite (u16_small (a * 4096)) by lia. rewrite (u16_small (a * 4096 + b * 256)) by lia.
  rewrite (u16_small (_ + c * 16)) by lia. rewrite u16_small by lia. lia.
Qed.

Definition plain (c : Z) : Prop := c ≠ 34 ∧ c ≠ 92.

(** [e], after a backslash, stands for [m]. *)
Definition escape_seq (e m : list Z) : Prop :=
  (∃ c e', e = c :: e' ∧ Forall plain e') ∧
  ∀ r l i, at_ (e ++ r) l i → wp parse_escape (fun m' i' => m' = m ∧ at_ r l i') i.

Lemma escape_simple c m : (c, m) ∈ [(34, 34); (92, 92); (47, 47); (98, 8); (102, 12); (110, 10); (114, 13); (116, 9)] → escape_seq [c] [m].
Proof.
  intros Hc. split; [exists c, []; split; [done|constructor]|]. intros r l i Hi. unfold parse_escape. wp_run.
  rewrite (at_current c r l i Hi) by (set_unfold; naive_solver lia).
  set_unfold in Hc. destruct_or? Hc; simplify_eq; cbn [Z.eqb Pos.eqb]; wp_run; wp_use incr_at; intros _ i1 H1; wp_run; done.
Qed.

Lemma escape_hex a b c d : 0 ≤ a < 16 → 0 ≤ b < 16 → 0 ≤ c < 16 → 0 ≤ d < 16 → bmp (a * 4096 + b * 256 + c * 16 + d) →
  escape_seq [117; hexDigit a; hexDigit b; hexDigit c; hexDigit d] (codePointToUtf8 (a * 4096 + b * 256 + c * 16 + d)).
Proof.
  intros Ha Hb Hc Hd [Hcp Hsur].
  assert (∀ x, 0 ≤ x < 16 → plain (hexDigit x)) as Hplain.
  { intros x Hx. pose proof (byte_case (fun x => negb (hexDigit x =? 34) && negb (hexDigit x =? 92)) 16 ltac:(vm_compute; reflexivity) x Hx) as Hall.
    cbn beta in Hall. unfold plain. lia. }
  split; [eexists _, _; split; [done|repeat constructor; by apply Hplain]|].
  intros r l i Hi. unfold parse_escape. wp_run. rewrite (at_current _ _ _ _ Hi) by lia. cbn [Z.eqb Pos.eqb]. wp_run.
  wp_use incr_at. intros _ i1 H1. unfold decodeUnicodeEscape. wp_run.
  wp_use (readHex_at a b c d r l). intros v i2 [-> H2]. set (cp := a * 4096 + b * 256 + c * 16 + d) in *. wp_run.
  destruct (Z.leb_spec 0xd800 cp), (Z.leb_spec cp 0xdbff); cbn [andb]; try lia; wp_run;
    destruct (Z.leb_spec 0xdc00 cp), (Z.leb_spec cp 0xdfff); cbn [andb]; try lia; by wp_run.
Qed.

Lemma escape_code_point_seq cp : bmp cp → ∃ e, escape_code_point cp = 92 :: e ∧ escape_seq e (codePointToUtf8 cp).
Proof.
  intros Hcp. pose proof Hcp as [Hr _]. unfold escape_code_point. eexists. split; [reflexivity|].
  rewrite !Z.shiftr_div_pow2 by lia. change 0x0f with (2 ^ 4 - 1). rewrite !land_mask by lia.
  assert (cp / 2 ^ 12 * 4096 + (cp / 2 ^ 8) mod 2 ^ 4 * 256 + (cp / 2 ^ 4) mod 2 ^ 4 * 16 + cp mod 2 ^ 4 = cp) as Heq by (Z.div_mod_to_equations; lia).
  rewrite <- Heq at 5. apply escape_hex; try (Z.div_mod_to_equations; lia). by rewrite Heq.
Qed.

Lemma escape_control c : 0 ≤ c ≤ 0x1f →
  ∃ e, chars "\u00" ++ [hexDigit (Z.shiftr (Z.land c 0xf0) 4); hexDigit (Z.land c 0xf)] = 92 :: e ∧ escape_seq e [c].
Proof.
  intros Hc. eexists. split; [reflexivity|]. rewrite <- (utf8_one c) by lia.
  pose proof (byte_case (fun c => (Z.shiftr (Z.land c 0xf0) 4 =? c / 16) && (Z.land c 0xf =? c mod 16)) 32 ltac:(vm_compute; reflexivity) c ltac:(lia)) as Hall.
  cbn beta in Hall. apply andb_prop in Hall as [->%Z.eqb_eq ->%Z.eqb_eq].
  assert (0 * 4096 + 0 * 256 + c / 16 * 16 + c mod 16 = c) as Heq by (Z.div_mod_to_equations; lia). rewrite <- Heq at 3.
  apply (escape_hex 0 0 (c / 16) (c mod 16)); try (Z.div_mod_to_equations; lia). rewrite Heq. unfold bmp. lia.
Qed.

(** ** Strings between their quotes *)

(** [b] is the body of a literal that stands for [s]: runs of plain chars with
    escapes between them. *)
Inductive body : list Z → list Z → Prop :=
| body_end p : Forall plain p → body p p
| body_escape p e m b s : Forall plain p → escape_seq e m → body b s → body (p ++ 92 :: e ++ b) (p ++ m ++ s).

Lemma body_plain c b s : plain c → body b s → body (c :: b) (c :: s).
Proof.
  intros Hc [p Hp|p e m b' s' Hp He Hb]; [by apply body_end; constructor|].
  apply (body_escape (c :: p)); [by constructor|done|done].
Qed.
Lemma body_plains p b s : Forall plain p → body b s → body (p ++ b) (p ++ s).
Proof. intros Hp Hb. induction Hp; [done|]. by apply body_plain. Qed.
Lemma body_seq e m b s : escape_seq e m → body b s → body (92 :: e ++ b) (m ++ s).
Proof. apply (body_escape []). constructor. Qed.

Lemma skip_plain p r : Forall plain p → match r with [] => True | c :: _ => ¬ plain c end →
  ∃ n, skip_prefix (fun (_ : unit) c => (negb (c =? 34) && negb (c =? 92), tt)) tt (p ++ r) = (p, r, n).
Proof.
  intros Hp Hr. induction Hp as [|c p Hc Hp [n IH]]; cbn [app].
  - destruct r as [|c r]; [by exists 0|]. cbn [skip_prefix]. exists 0.
    replace (negb (c =? 34) && negb (c =? 92)) with false; [done|]. unfold plain in Hr. lia.
  - cbn [skip_prefix]. replace (negb (c =? 34) && negb (c =? 92)) with true by (unfold plain in Hc; lia). rewrite IH. eauto.
Qed.

Lemma parseString_loop_at b s : body b s → ∀ fuel ret r l i, (length b < fuel)%nat → at_ (b ++ 34 :: r) l i →
  wp (parseString_loop fuel ret) (fun s' i' => s' = ret ++ s ∧ at_ r l i') i.
Proof.
  induction 1 as [p Hp|p e m b s Hp He Hb IH]; intros fuel ret r l i Hf Hi; (destruct fuel as [|fuel]; [lia|]); cbn [parseString_loop]; wp_run.
  - destruct (skip_plain p (34 :: r) Hp) as [n Hskip]; [unfold plain; lia|].
    wp_use (@skipWhile_at unit). intros ? i1 [-> H1]. wp_run. rewrite (at_current _ _ _ _ H1) by lia. cbn [Z.eqb Pos.eqb]. wp_run.
    wp_use incr_at. intros _ i2 H2. by wp_run.
  - destruct (skip_plain p (92 :: e ++ b ++ 34 :: r) Hp) as [n Hskip]; [unfold plain; lia|].
    rewrite <- !(assoc_L (++)) in Hi. cbn [app] in Hi. rewrite <- (assoc_L (++)) in Hi.
    wp_use (@skipWhile_at unit). intros ? i1 [-> H1]. wp_run. rewrite (at_current _ _ _ _ H1) by lia. cbn [Z.eqb Pos.eqb]. wp_run.
    wp_use incr_at. intros _ i2 H2. wp_run. destruct He as [_ He]. wp_use He. intros ? i3 [-> H3].
    eapply wp_mono; [eapply IH; [|done]|].
    + rewrite length_app in Hf. cbn in Hf. rewrite length_app in Hf. lia.
    + cbn. intros ? i4 [-> H4]. split; [|done]. by rewrite <- !(assoc_L (++)).
Qed.

(** The text [t] is a literal of the string [s]. *)
Definition literal (s t : list Z) : Prop := ∃ b, t = 34 :: b ++ [34] ∧ body b s.

Lemma parseString_at s t r l i : literal s t → at_ (t ++ r) l i → wp parseString (fun s' i' => s' = s ∧ at_ r l i') i.
Proof.
  intros (b & -> & Hb) Hi. unfold parseString. wp_run. cbn [app] in Hi. rewrite <- (assoc_L (++)) in Hi.
  apply wp_assert; [by rewrite (at_current _ _ _ _ Hi) by lia|]. wp_run. wp_use incr_at. intros _ i1 H1. wp_run.
  eapply wp_mono; [eapply (parseString_loop_at b s Hb); [|done]|by cbn].
  destruct H1 as (_ & -> & _). rewrite length_app. lia.
Qed.

(** ** What the printer writes is such a literal *)

Section escape.
Variable opts : serialization_opts.

Definition utf8_mode : bool := encode_non_ascii opts || validate_utf8 opts || skip_invalid_utf8 opts.

(** The strings the options accept unchanged: any bytes, or encoded code points of
    the basic plane when the printer decodes. *)
Definition accepted (s : list Z) : Prop :=
  if utf8_mode then utf8 s else Forall (fun c => 0 ≤ c < 256) s.

Lemma escape_char_body c b s : 0 ≤ c < 256 → body b s → body (escape_char c ++ b) (c :: s).
Proof.
  intros Hc Hb. unfold escape_char. destruct (Z.eqb_spec c 92) as [->|H92].
  { by apply (body_seq [92] [92]); [apply escape_simple; set_solver|]. }
  destruct (Z.eqb_spec c 34) as [->|H34].
  { by apply (body_seq [34] [34]); [apply escape_simple; set_solver|]. }
  cbn [orb]. destruct (Z.leb_spec c 0x1f); [|by apply body_plain].
  repeat match goal with |- context [c =? ?k] => destruct (Z.eqb_spec c k) as [->|?];
    [by eapply (body_seq [_] [_]); [apply escape_simple; set_solver|]|] end.
  destruct (escape_control c) as (e & -> & He); [lia|]. by apply (body_seq e [c]).
Qed.

Lemma encode_bytes cp : bmp cp → Forall (fun c => 0 ≤ c < 256) (codePointToUtf8 cp) ∧
  (0x80 ≤ cp → Forall (fun c => 0x80 ≤ c < 256) (codePointToUtf8 cp)) ∧ codePointToUtf8 cp ≠ [].
Proof.
  intros [Hcp _]. destruct (decide (cp ≤ 0x7f)) as [H1|H1]; [|destruct (decide (cp ≤ 0x7FF)) as [H2|H2]];
    [rewrite utf8_one by lia|rewrite utf8_two by lia|rewrite utf8_three by lia];
    (split; [|split; [intros ?|done]]); repeat constructor; Z.div_mod_to_equations; lia.
Qed.

Lemma escape_chars_body m b s : Forall (fun c => 0 ≤ c < 256) m → body b s → body (flat_map escape_char m ++ b) (m ++ s).
Proof.
  intros Hm Hb. induction Hm as [|c m Hc Hm IH]; [done|]. cbn [flat_map]. rewrite <- (assoc_L (++)). by apply escape_char_body.
Qed.

(** While p is behind q, bytes are written one by one. *)
Lemma escape_catch_up m f s out : encode_non_ascii opts = false →
  escape_loop opts (length m + f) (m ++ s) s out = escape_loop opts f s s (out ++ flat_map escape_char m).
Proof.
  intros Henc. revert out. induction m as [|c m IH]; intros out; cbn [length Nat.add app flat_map]; [by rewrite app_nil_r|].
  cbn [escape_loop]. rewrite Henc. cbn [andb negb]. rewrite IH, <- (assoc_L (++)).
  rewrite bool_decide_false by (cbn; rewrite length_app; lia). rewrite bool_decide_false by (cbn; rewrite length_app; lia).
  by case_match.
Qed.

Lemma high_bit c : 0x80 ≤ c < 256 → (Z.land c 0x80 =? 0) = false.
Proof.
  intros Hc. pose proof (byte_case (fun b => negb (Z.land (0x80 + b) 0x80 =? 0)) 128 ltac:(vm_compute; reflexivity) (c - 0x80) ltac:(lia)) as Hall.
  cbn beta in Hall. replace (0x80 + (c - 0x80)) with c in Hall by lia. by apply negb_true_iff.
Qed.
Lemma low_bit c : 0 ≤ c < 0x80 → (Z.land c 0x80 =? 0) = true.
Proof. intros Hc. exact (byte_case (fun b => Z.land b 0x80 =? 0) 128 ltac:(vm_compute; reflexivity) c Hc). Qed.

Lemma escape_bytes s : utf8_mode = false → Forall (fun c => 0 ≤ c < 256) s → ∀ fuel q out, (length s < fuel)%nat →
  ∃ b, escape_loop opts fuel s q out = Ret (out ++ b) ∧ body b s.
Proof.
  unfold utf8_mode. intros Hmode Hs.
  destruct (encode_non_ascii opts) eqn:Henc, (validate_utf8 opts) eqn:Hval, (skip_invalid_utf8 opts) eqn:Hskip; try done.
  induction Hs as [|c s Hc Hs IH]; intros [|fuel] q out Hf; cbn in Hf; try lia; cbn [escape_loop].
  { exists []. split; [by rewrite app_nil_r|]. by apply body_end. }
  rewrite Henc, Hval, Hskip. cbn [andb orb negb]. destruct (IH fuel q (out ++ escape_char c)) as (b & -> & Hb); [lia|].
  exists (escape_char c ++ b). split; [by rewrite <- (assoc_L (++))|]. by apply escape_char_body.
Qed.

Lemma escape_encoded s : encode_non_ascii opts = true → utf8 s → ∀ fuel q out, (length s < fuel)%nat →
  ∃ b, escape_loop opts fuel s q out = Ret (out ++ b) ∧ body b s.
Proof.
  intros Henc Hs. induction Hs as [|cp s Hcp Hs IH]; intros [|fuel] q out Hf; try lia.
  { exists []. split; [by rewrite app_nil_r|]. by apply body_end. }
  destruct (encode_bytes cp Hcp) as (Hb & Hhi & Hne). pose proof (decode_encode cp s (skip_invalid_utf8 opts) Hcp) as Hdec.
  destruct (codePointToUtf8 cp) as [|c m] eqn:E; [done|]. cbn [app escape_loop]. rewrite Henc, andb_false_r. cbn [andb].
  rewrite length_app in Hf. cbn in Hf. destruct (decide (0x80 ≤ cp)) as [Hge|Hlt].
  - rewrite high_bit by (by specialize (Hhi Hge); apply Forall_cons in Hhi as [? _]). cbn [negb].
    cbn [app] in Hdec. rewrite Hdec. cbn [mbind outcome_bind]. destruct (escape_code_point_seq cp Hcp) as (e & -> & He).
    destruct (IH fuel q (out ++ 92 :: e)) as (b & -> & Hbody); [lia|]. exists (92 :: e ++ b).
    split; [by rewrite <- (assoc_L (++))|]. rewrite E in He. by apply (body_seq e (c :: m)).
  - destruct Hcp as [Hr _]. rewrite utf8_one in E by lia. injection E as <- <-. rewrite low_bit by lia. cbn [negb app].
    destruct (IH fuel q (out ++ escape_char cp)) as (b & -> & Hbody); [lia|]. exists (escape_char cp ++ b).
    split; [by rewrite <- (assoc_L (++))|]. apply escape_char_body; [lia|done].
Qed.

Lemma escape_validated s : encode_non_ascii opts = false → validate_utf8 opts || skip_invalid_utf8 opts = true → utf8 s →
  ∀ fuel out, (length s < fuel)%nat → ∃ b, escape_loop opts fuel s s out = Ret (out ++ b) ∧ body b s.
Proof.
  intros Henc Hval Hs. induction Hs as [|cp s Hcp Hs IH]; intros [|fuel] out Hf; try lia.
  { exists []. split; [by rewrite app_nil_r|]. by apply body_end. }
  destruct (encode_bytes cp Hcp) as (Hb & Hhi & Hne). pose proof (decode_encode cp s (skip_invalid_utf8 opts) Hcp) as Hdec.
  rewrite length_app in Hf. assert (0 < length (codePointToUtf8 cp))%nat by (destruct (codePointToUtf8 cp); [done|cbn; lia]).
  destruct (codePointToUtf8 cp) as [|c m] eqn:E; [done|]. cbn [app escape_loop]. rewrite Henc, Hval. cbn [andb negb].
  rewrite bool_decide_false by lia. rewrite bool_decide_true by done. cbn [app] in Hdec.
  rewrite Hdec. cbn [mbind outcome_bind]. destruct (skip_invalid_utf8 opts && (cp =? 0xfffd)) eqn:Hfffd.
  - apply andb_prop in Hfffd as [_ ->%Z.eqb_eq]. destruct (IH fuel (out ++ [0xEF; 0xBF; 0xBD])) as (b & -> & Hbody); [cbn in Hf; lia|].
    exists ([0xEF; 0xBF; 0xBD] ++ b). split; [by rewrite <- (assoc_L (++))|]. vm_compute in E. injection E as <- <-.
    apply (body_plains [0xEF; 0xBF; 0xBD]); [repeat constructor; done|done].
  - replace fuel with (length m + (fuel - length m))%nat by (cbn in Hf; lia). rewrite escape_catch_up by done.
    destruct (IH (fuel - length m)%nat ((out ++ escape_char c) ++ flat_map escape_char m)) as (b & -> & Hbody); [cbn in Hf; lia|].
    exists (flat_map escape_char (c :: m) ++ b). split; [cbn [flat_map]; by rewrite <- !(assoc_L (++))|]. by apply (escape_chars_body (c :: m)).
Qed.

Lemma escapeString_literal s out : accepted s → ∃ t, escapeString s out opts = Ret (out ++ t) ∧ literal s t.
Proof.
  intros Hs. assert (∃ b, escape_loop opts (S (length s)) s s (out ++ [34]) = Ret ((out ++ [34]) ++ b) ∧ body b s) as (b & Hloop & Hb).
  { unfold accepted in Hs. destruct utf8_mode eqn:Hmode; [|apply escape_bytes; [done|done|lia]].
    destruct (encode_non_ascii opts) eqn:Henc; [apply escape_encoded; [done|done|lia]|].
    apply escape_validated; [done| |done|lia]. unfold utf8_mode in Hmode. by rewrite Henc in Hmode. }
  unfold escapeString. rewrite Hloop. exists (34 :: b ++ [34]). cbn [mbind outcome_bind]. split; [|by exists b].
  by rewrite <- !(assoc_L (++)).
Qed.
End escape.

End JsonText.
