(* ===== verification/JsonProof.v ===== *)
(** The JSON round trip: what the printer writes, with any of its options, the parser
    reads back, and the comment stripper leaves alone. *)
From S2P Require Import Prelude Conv ConvProof Json JsonParse JsonSafe JsonText.

Module JsonProof.
Import Json JsonParse JsonSafe JsonText.

(** ** White space *)

Definition space (c : Z) : bool := (c =? 32) || is_oddspace c.
Definition spaces (ws : list Z) : Prop := Forall (fun c => space c = true) ws.

Lemma ltrim_spaces ws r : spaces ws → ltrimWhitespace (ws ++ r) = ltrimWhitespace r.
Proof. intros Hws. induction Hws as [|c ws Hc Hws IH]; cbn; [done|]. unfold space in Hc. by rewrite Hc. Qed.
Lemma ltrim_stop c r : space c = false → ltrimWhitespace (c :: r) = c :: r.
Proof. intros Hc. cbn. unfold space in Hc. by rewrite Hc. Qed.

(** What may follow a value. *)
Definition delim (r : list Z) : Prop :=
  match r with [] => True | c :: _ => c = 44 ∨ c = 58 ∨ c = 93 ∨ c = 125 ∨ space c = true end.

Lemma delim_spaces ws c r : spaces ws → delim (c :: r) → delim (ws ++ c :: r).
Proof. intros [|x ws' Hx Hws] Hc; [done|]. cbn. auto. Qed.

(** The first char of a value's text. *)
Definition good_head (t : list Z) : Prop :=
  ∃ c t', t = c :: t' ∧ 0 ≤ c < 128 ∧ space c = false ∧ c ≠ 44 ∧ c ≠ 93 ∧ c ≠ 125.

Lemma good_head_ltrim t r : good_head t → ltrimWhitespace (t ++ r) = t ++ r.
Proof. intros (c & t' & -> & _ & Hc & _). by apply ltrim_stop. Qed.

(** A list of texts after a comma each, with white space between. *)
Inductive tail_items {A} (P : A → list Z → Prop) : list A → list Z → Prop :=
| tail_nil : tail_items P [] []
| tail_cons a t ws l u : P a t → spaces ws → tail_items P l u → tail_items P (a :: l) (44 :: ws ++ t ++ u).

Lemma tail_delim {A} (P : A → list Z → Prop) l u ws c r : tail_items P l u → spaces ws → delim (c :: r) → delim (u ++ ws ++ c :: r).
Proof. intros [|a t ws' l' u' _ _ _] Hws Hc; [by apply delim_spaces|]. cbn. auto. Qed.

Lemma tail_items_impl {A} (P Q : A → list Z → Prop) l u : tail_items P l u → (∀ a t, P a t → Q a t) → tail_items Q l u.
Proof. intros Hu HPQ. induction Hu; constructor; auto. Qed.

(** ** Texts without comments *)

(** Stripping comments goes over [t] without changing it or its own state. *)
Definition neutral (t : list Z) : Prop := ∀ u, strip None_ (t ++ u) = (fun r => t ++ r) <$> strip None_ u.

Lemma neutral_nil : neutral [].
Proof. intros u. cbn. by destruct (strip None_ u). Qed.
Lemma neutral_app a b : neutral a → neutral b → neutral (a ++ b).
Proof.
  intros Ha Hb u. rewrite <- (assoc_L (++)), Ha, Hb. destruct (strip None_ u); [|done]. cbn. f_equal. by rewrite (assoc_L (++)).
Qed.
Lemma neutral_char c : c ≠ 34 → c ≠ 47 → neutral [c].
Proof.
  intros H34 H47 u. transitivity (r ← strip None_ u; Ret (c :: r)); [|by destruct (strip None_ u)].
  cbn [app strip]. rewrite (proj2 (Z.eqb_neq c 34)) by done.
  destruct c as [|c|c]; try done. repeat (destruct c as [c|c|]; try done).
Qed.
Lemma neutral_chars t : Forall (fun c => c ≠ 34 ∧ c ≠ 47) t → neutral t.
Proof. intros Ht. induction Ht as [|c t [? ?] Ht IH]; [apply neutral_nil|]. apply (neutral_app [c] t); [by apply neutral_char|done]. Qed.
Lemma neutral_cons c t : c ≠ 34 → c ≠ 47 → neutral t → neutral (c :: t).
Proof. intros ? ? Ht. apply (neutral_app [c]); [by apply neutral_char|done]. Qed.

Lemma strip_plain p u : Forall plain p → strip InString (p ++ u) = (fun r => p ++ r) <$> strip InString u.
Proof.
  intros Hp. induction Hp as [|c p [H34 H92] Hp IH]; [cbn; by destruct (strip InString u)|]. cbn [app strip].
  rewrite (proj2 (Z.eqb_neq c 34)), (proj2 (Z.eqb_neq c 92)), IH by done. by destruct (strip InString u).
Qed.
Lemma strip_body b s u : body b s → strip InString (b ++ u) = (fun r => b ++ r) <$> strip InString u.
Proof.
  intros Hb. induction Hb as [p Hp|p e m b s Hp [(c & e' & -> & He') _] Hb IH]; [by apply strip_plain|].
  rewrite <- (assoc_L (++)), strip_plain by done. cbn [app strip Z.eqb Pos.eqb]. rewrite <- (assoc_L (++)), strip_plain, IH by done.
  destruct (strip InString u); [|done]. cbn. f_equal. rewrite <- (assoc_L (++)). cbn [app]. by rewrite <- (assoc_L (++)).
Qed.
Lemma neutral_literal s t : literal s t → neutral t.
Proof.
  intros (b & -> & Hb) u. cbn [app]. rewrite <- (assoc_L (++)). cbn [app].
  transitivity (r ← strip InString (b ++ 34 :: u); Ret (34 :: r)); [done|]. rewrite (strip_body b s) by done. cbn [strip Z.eqb Pos.eqb].
  destruct (strip None_ u); [|done]. cbn. by rewrite <- (assoc_L (++)).
Qed.
Lemma neutral_spaces ws : spaces ws → neutral ws.
Proof.
  intros Hws. apply neutral_chars. eapply Forall_impl; [exact Hws|]. cbn. unfold space, is_oddspace. lia.
Qed.
Lemma neutral_tail {A} l u : tail_items (fun (_ : A) t => neutral t) l u → neutral u.
Proof.
  induction 1 as [|a t ws l u Ht Hws Hu IH]; [apply neutral_nil|].
  apply neutral_cons; [done|done|]. apply neutral_app; [by apply neutral_spaces|]. by apply neutral_app.
Qed.

(** ** Texts of numbers with a fraction or an exponent *)

Notation digits ds := (Forall ConvProof.digit ds).
Inductive exponent : list Z → Prop :=
| exponent_none : exponent []
| exponent_some e sg ds : e = 101 ∨ e = 69 → sg = [] ∨ sg = [43] ∨ sg = [45] → digits ds → exponent (e :: sg ++ ds).
Inductive after_integral : list Z → Prop :=
| after_point ds ex : digits ds → exponent ex → after_integral (46 :: ds ++ ex)
| after_e e ex : exponent (e :: ex) → after_integral (e :: ex).
Inductive fractional : list Z → Prop :=
| fractional_text sg ds u : sg = [] ∨ sg = [45] → ds ≠ [] → digits ds → after_integral u → fractional (sg ++ ds ++ u).

Lemma exponent_char e ex : exponent (e :: ex) → e = 101 ∨ e = 69.
Proof. by inversion 1. Qed.

(** What ends a number. *)
Definition stops (r : list Z) : Prop := match r with [] => True | c :: _ => is_digit c = false ∧ 0 ≤ c < 128 end.
Lemma stops_exponent ex r : exponent ex → delim r → stops (ex ++ r).
Proof.
  intros [|e sg ds [->| ->] _ _] Hr; cbn; [|done..]. destruct r as [|c r]; [done|]. cbn in *. unfold is_digit, space, is_oddspace in *. lia.
Qed.
Lemma skip_digits ds r : digits ds → stops r → ∃ n, skip_prefix (fun (_ : unit) c => (is_digit c, tt)) tt (ds ++ r) = (ds, r, n).
Proof.
  intros Hds Hr. induction Hds as [|c ds Hc Hds IH]; cbn [app].
  - destruct r as [|c r]; [by exists 0|]. cbn [skip_prefix]. destruct Hr as [-> _]. by exists 0.
  - cbn [skip_prefix]. unfold ConvProof.digit, is_digit in *. replace ((48 <=? c) && (c <=? 57)) with true by lia. destruct IH as [n ->]. eauto.
Qed.
Lemma skip_signed sg ds r : sg = [] ∨ sg = [45] → ds ≠ [] → digits ds → stops r → ∃ n,
  skip_prefix (fun (firstChar : bool) c => (is_digit c || (firstChar && (c =? 45)), false)) true ((sg ++ ds) ++ r) = (sg ++ ds, r, n).
Proof.
  intros Hsg Hne Hds Hr. assert (∀ f, (ds ≠ [] ∨ f = false) → ∃ n,
    skip_prefix (fun (firstChar : bool) c => (is_digit c || (firstChar && (c =? 45)), false)) f (ds ++ r) = (ds, r, n)) as Hskip.
  { clear Hne Hsg. induction Hds as [|c ds Hc Hds IH]; intros f Hf; cbn [app].
    - destruct Hf as [|Hf]; [done|]. subst f. destruct r as [|c r]; [by exists 0|]. cbn [skip_prefix]. destruct Hr as [-> _]. by exists 0.
    - cbn [skip_prefix]. unfold ConvProof.digit, is_digit in *. replace ((48 <=? c) && (c <=? 57)) with true by lia. cbn [orb].
      destruct (IH false) as [n ->]; [by right|]. eauto. }
  destruct Hsg as [->| ->]; [apply Hskip; by left|]. cbn [app skip_prefix]. destruct (Hskip false) as [n Hn]; [by right|]. rewrite Hn. cbn. eauto.
Qed.

(** The text of a number begins with a digit, or with a minus and a digit. *)
Definition number_head (t : list Z) : Prop := ∃ c u, t = c :: u ∧ (c = 45 ∧ (∃ d t', u = d :: t' ∧ ConvProof.digit d) ∨ ConvProof.digit c).
Lemma number_not_infinity t r l i : number_head t → at_ (t ++ r) l i →
  wp (if current_ i =? 45 then consume (chars "-Infinity") else mret false) (fun b i' => b = false ∧ i' = i) i.
Proof.
  intros (c & u & -> & Hhd) Hi. case_match; [|by wp_run]. eapply consume_not; [done|]. cbn [app].
  change (chars "-Infinity") with [45; 73; 110; 102; 105; 110; 105; 116; 121].
  destruct Hhd as [(-> & d & t' & -> & Hd)|Hd].
  - cbn [strip_prefix app]. rewrite Z.eqb_refl. unfold ConvProof.digit in Hd. by rewrite (proj2 (Z.eqb_neq 73 d)) by lia.
  - cbn [strip_prefix]. unfold ConvProof.digit in Hd. by rewrite (proj2 (Z.eqb_neq 45 c)) by lia.
Qed.
Lemma number_negative t r l i : number_head t → at_ (t ++ r) l i → (current_ i =? 45) && (length t <? 2)%nat = false.
Proof.
  intros (c & u & -> & Hhd) Hi. apply andb_false_iff. destruct Hhd as [(_ & d & t' & -> & _)|Hd]; [by right|left].
  unfold ConvProof.digit in Hd. cbn in Hi. rewrite (at_current _ _ _ _ Hi) by lia. lia.
Qed.
Lemma signed_head sg ds : sg = [] ∨ sg = [45] → ds ≠ [] → digits ds → number_head (sg ++ ds).
Proof.
  intros Hsg Hne Hds. destruct Hds as [|d ds Hd Hds]; [done|]. destruct Hsg as [->| ->]; cbn; eexists _, _; (split; [done|]); [by right|left; eauto].
Qed.
Lemma number_good_head t : number_head t → good_head t.
Proof. intros (c & u & -> & Hc). exists c, u. assert (c = 45 ∨ ConvProof.digit c) by naive_solver. unfold ConvProof.digit, space, is_oddspace in *. split; [done|]. lia. Qed.

Lemma skipDigits_at ds r l i : digits ds → stops r → at_ (ds ++ r) l i → wp skipDigits (fun _ => at_ r l) i.
Proof. intros Hds Hr Hi. destruct (skip_digits ds r Hds Hr) as [n Hn]. unfold skipDigits. wp_use (@skipWhile_at unit). by intros _ ? [_ ?]. Qed.

(** What is read after the fraction. *)
Lemma exponent_at ex r l i : exponent ex → delim r → at_ (ex ++ r) l i →
  wp (c ← gets current_;
      if (c =? 101) || (c =? 69) then
        _ ← incr; c ← gets current_; _ ← (if (c =? 43) || (c =? 45) then incr else mret tt); _ ← skipDigits; mret tt
      else mret tt) (fun _ => at_ r l) i.
Proof.
  intros Hex Hr Hi. pose proof (stops_exponent [] r exponent_none Hr) as Hs. apply wp_bind, wp_gets. destruct Hex as [|e sg ds He Hsg Hds].
  - assert (current_ i ≠ 101 ∧ current_ i ≠ 69) as [H1 H2].
    { destruct Hi as (Hsy & Hr1 & _). rewrite Hsy, Hr1. destruct r as [|c r]; [done|]. cbn in *. unfold space, is_oddspace in Hr. destruct (Z.ltb_spec c 128); lia. }
    rewrite (proj2 (Z.eqb_neq (current_ i) 101)), (proj2 (Z.eqb_neq (current_ i) 69)) by done. by apply wp_ret.
  - cbn [app] in Hi. rewrite (at_current _ _ _ _ Hi) by lia. replace ((e =? 101) || (e =? 69)) with true by lia. wp_run.
    wp_use incr_at. intros _ i1 H1. wp_run.
    assert (wp (if (current_ i1 =? 43) || (current_ i1 =? 45) then incr else mret tt) (fun _ => at_ (ds ++ r) l) i1) as Hsign.
    { rewrite <- app_assoc in H1. destruct Hsg as [->|[->| ->]]; cbn [app] in H1.
      - assert (current_ i1 ≠ 43 ∧ current_ i1 ≠ 45) as [? ?].
        { destruct Hds as [|d ds Hd Hds]; cbn [app] in H1.
          - destruct H1 as (Hsy & Hr1 & _). rewrite Hsy, Hr1. destruct r as [|c r]; [done|]. cbn in *. unfold space, is_oddspace in Hr. destruct (Z.ltb_spec c 128); lia.
          - unfold ConvProof.digit in Hd. rewrite (at_current _ _ _ _ H1) by lia. lia. }
        rewrite (proj2 (Z.eqb_neq (current_ i1) 43)), (proj2 (Z.eqb_neq (current_ i1) 45)) by done. by apply wp_ret.
      - rewrite (at_current _ _ _ _ H1) by lia. by eapply incr_at.
      - rewrite (at_current _ _ _ _ H1) by lia. by eapply incr_at. }
    wp_use Hsign. intros _ i2 H2. wp_run. wp_use skipDigits_at. intros _ i3 H3. by wp_run.
Qed.

Lemma parse_fraction_at u r l i : after_integral u → delim r → at_ (u ++ r) l i →
  (current_ i = 46 ∨ (current_ i =? 101) || (current_ i =? 69) = true) ∧
  wp (parse_fraction ((current_ i =? 101) || (current_ i =? 69))) (fun _ => at_ r l) i.
Proof.
  intros Hu Hr Hi. destruct Hu as [ds ex Hds Hex|e ex Hex]; cbn [app] in Hi.
  - rewrite (at_current _ _ _ _ Hi) by lia. split; [by left|]. cbn [Z.eqb Pos.eqb orb]. unfold parse_fraction. apply wp_bind. wp_run.
    wp_use incr_at. intros _ i1 H1. wp_run. rewrite <- app_assoc in H1. pose proof (stops_exponent ex r Hex Hr).
    wp_use skipDigits_at. intros _ i2 H2. wp_run. by apply (exponent_at ex).
  - pose proof Hex as Hex'. inversion Hex' as [|? ? ? He]; subst. rewrite (at_current _ _ _ _ Hi) by lia.
    replace ((e =? 101) || (e =? 69)) with true by lia. split; [by right|]. unfold parse_fraction. apply wp_bind, wp_ret. by apply (exponent_at (e :: sg ++ ds)).
Qed.

Section roundtrip.
Context {D : Type} `{Doubles D} `{HashOrder (dynamic D * dynamic D)}.

(** Equality of values up to the order of the entries of objects: operator==. *)
Inductive deq : dynamic D → dynamic D → Prop :=
| deq_null : deq NULLT NULLT
| deq_bool b : deq (BOOL b) (BOOL b)
| deq_double d : deq (DOUBLE d) (DOUBLE d)
| deq_int z : deq (INT64 z) (INT64 z)
| deq_string s : deq (STRING s) (STRING s)
| deq_array l m : Forall2 deq l m → deq (ARRAY l) (ARRAY m)
| deq_object l l' m : Permutation l l' → Forall2 (fun e e' => e.1 = e'.1 ∧ deq e.2 e'.2) l' m → deq (OBJECT l) (OBJECT m).

Section parse.
Variable popts : serialization_opts.
Hypothesis Hnum : parse_numbers_as_strings popts = false.
Hypothesis Hfall : double_fallback popts = false.
Hypothesis Hlim : 0 ≤ recursion_limit popts < 2 ^ 32 - 1.

(** After a value: at most the white space before [r] was skipped. *)
Definition done_at (v : dynamic D) (r : list Z) (l : Z) (v' : dynamic D) (i' : Input) : Prop :=
  deq v v' ∧ ∃ r', at_ r' l i' ∧ ltrimWhitespace r' = ltrimWhitespace r.

(** [t] is a text of [v], which nests at most [n] values. *)
Definition value_text (n : nat) (v : dynamic D) (t : list Z) : Prop :=
  good_head t ∧
  ∀ fuel r l i, (length t < fuel)%nat → at_ (t ++ r) l i → delim r → 0 ≤ l → l + Z.of_nat n ≤ recursion_limit popts + 1 →
    wp (parseValue popts fuel) (done_at v r l) i.

(** The guard and the leading white space. *)
Lemma parseValue_wrap fuel n v c t r l i : good_head (c :: t) → at_ ((c :: t) ++ r) l i → 0 ≤ l → l + Z.of_nat (S n) ≤ recursion_limit popts + 1 →
  (∀ i1, at_ ((c :: t) ++ r) (l + 1) i1 →
    wp (if c =? 91 then parseArray popts (parseValue popts fuel)
        else if c =? 123 then parseObject popts (parseValue popts fuel)
        else if c =? 34 then s ← parseString; mret (STRING s)
        else if (c =? 45) || is_digit c then parseNumber popts
        else parse_literal popts) (done_at v r (l + 1)) i1) →
  wp (parseValue popts (S fuel)) (done_at v r l) i.
Proof.
  intros Hg Hi Hl Hn Hbody. cbn [parseValue]. unfold parseValue_body, incrementRecursionLevel. apply wp_bind, wp_bind, wp_gets.
  pose proof Hi as (Hs & Hr & Hlv). rewrite Hlv. rewrite (proj2 (Z.ltb_ge (recursion_limit popts) l)) by lia. wp_run.
  rewrite u32_small by lia. set (i0 := mk_input _ _ _ _). assert (at_ ((c :: t) ++ r) (l + 1) i0) as Hi0 by (split; [done|split; [done|done]]).
  wp_use skipWhitespace_at. rewrite (good_head_ltrim _ _ Hg). intros _ i1 H1. apply wp_bind, wp_gets, wp_bind.
  assert (current_ i1 = c) as Hc.
  { destruct Hg as (c' & t' & [= <- <-] & Hc & _). by eapply at_current. }
  rewrite Hc. eapply wp_mono; [by apply Hbody|]. cbn beta. intros v' i2 [Hv (r' & (Hs2 & Hr2 & Hl2) & Ht)].
  unfold decrementRecursionLevel. wp_run. split; [done|]. exists r'. split; [|done].
  split; [done|]. split; [done|]. cbn. rewrite Hl2, u32_small by lia. lia.
Qed.

(** ** Scalars *)

Lemma skip_number x k r : (1 <= k)%nat → delim r → ∃ n,
  skip_prefix (fun (firstChar : bool) c => (is_digit c || (firstChar && (c =? 45)), false)) true (ConvProof.decimal x k ++ r)
  = (ConvProof.decimal x k, r, n).
Proof.
  intros Hk Hr. assert (∀ ds f, Forall ConvProof.digit ds → (ds ≠ [] ∨ f = false) → ∃ n,
    skip_prefix (fun (firstChar : bool) c => (is_digit c || (firstChar && (c =? 45)), false)) f (ds ++ r) = (ds, r, n)) as Hds.
  { intros ds f Hds. revert f. induction Hds as [|c ds Hc Hds IH]; intros f Hf; cbn [app].
    - destruct Hf as [|Hf]; [done|]. subst f. destruct r as [|c r]; [by exists 0|]. cbn [skip_prefix]. exists 0.
      replace (is_digit c || _) with false; [done|]. cbn in Hr. unfold is_digit, space, is_oddspace in *. lia.
    - cbn [skip_prefix]. unfold ConvProof.digit, is_digit in *. replace ((48 <=? c) && (c <=? 57)) with true by lia. cbn [orb].
      destruct (IH false) as [n ->]; [by right|]. eauto. }
  unfold ConvProof.decimal. pose proof (ConvProof.length_dec k (- x)). pose proof (ConvProof.length_dec k x). case_match.
  - cbn [app skip_prefix]. destruct (Hds (ConvProof.dec k (- x)) false) as [n Hn]; [apply ConvProof.dec_digits|by right|].
    rewrite Hn. cbn. eauto.
  - apply Hds; [apply ConvProof.dec_digits|]. left. intros E. rewrite E in *. cbn in *. lia.
Qed.

Lemma decimal_head x k : (1 <= k)%nat → ∃ c t, ConvProof.decimal x k = c :: t ∧ (c = 45 ∧ (∃ d t', t = d :: t' ∧ ConvProof.digit d) ∨ ConvProof.digit c).
Proof.
  intros Hk. assert (∀ v, ∃ d t', ConvProof.dec k v = d :: t' ∧ ConvProof.digit d) as Hd.
  { intros v. pose proof (ConvProof.dec_digits k v) as Hf. pose proof (ConvProof.length_dec k v).
    destruct (ConvProof.dec k v) as [|d t']; [cbn in *; lia|]. exists d, t'. apply Forall_cons in Hf as [? _]. done. }
  unfold ConvProof.decimal. case_match.
  - eexists _, _. split; [done|]. left. split; [done|]. apply Hd.
  - destruct (Hd x) as (d & t' & -> & Hdig). exists d, t'. split; [done|]. by right.
Qed.

Lemma parseNumber_at x k r l i : ConvProof.is_len (Z.abs x) (Z.of_nat k) → - 2 ^ 63 ≤ x < 2 ^ 63 →
  at_ (ConvProof.decimal x k ++ r) l i → delim r → wp (parseNumber popts) (done_at (INT64 x) r l) i.
Proof.
  intros Hk Hx Hi Hr. assert ((1 <= k)%nat) as Hk1 by (destruct Hk; lia). unfold parseNumber. apply wp_bind, wp_gets, wp_bind.
  destruct (decimal_head x k Hk1) as (c & t & E & Hhd).
  assert (number_head (ConvProof.decimal x k)) as Hnh by (by exists c, t).
  eapply wp_mono; [by eapply number_not_infinity|]. cbn beta. intros inf i0 [-> ->]. apply wp_bind, wp_gets, wp_bind.
  destruct (skip_number x k r Hk1 Hr) as [n Hskip]. wp_use (@skipWhile_at bool). intros integral i1 [-> H1].
  rewrite (number_negative _ _ _ _ Hnh Hi).
  apply wp_bind, wp_gets.
  assert (current_ i1 ≠ 46 ∧ current_ i1 ≠ 101 ∧ current_ i1 ≠ 69) as (H46 & H101 & H69).
  { destruct H1 as (Hs & Hr1 & _). rewrite Hs, Hr1. destruct r as [|c' r']; [done|]. cbn [delim storeCurrent] in Hr |- *.
    unfold space, is_oddspace in Hr. destruct (Z.ltb_spec c' 128); lia. }
  rewrite (proj2 (Z.eqb_neq (current_ i1) 46)), (proj2 (Z.eqb_neq (current_ i1) 101)), (proj2 (Z.eqb_neq (current_ i1) 69)), Hnum, Hfall by done.
  cbn [negb andb orb]. apply wp_bind. apply (wp_lift _ x).
  { pose proof (ConvProof.to_piece_decimal Conv.int64_t x k [] []) as Hto. cbn [app] in Hto. rewrite app_nil_r in Hto.
    unfold Conv.to_string_integral. rewrite Hto; [done|by apply (bool_decide_unpack _)|cbn; lia|done|constructor|constructor]. }
  wp_run. wp_use skipWhitespace_at. intros _ i2 H2. wp_run. split; [constructor|]. eexists. split; [done|].
  clear. induction r as [|c r IH]; [done|]. cbn. destruct ((c =? 32) || is_oddspace c) eqn:E; [done|]. cbn. by rewrite E.
Qed.

Lemma ltrim_idem r : ltrimWhitespace (ltrimWhitespace r) = ltrimWhitespace r.
Proof. induction r as [|c r IH]; [done|]. cbn. destruct ((c =? 32) || is_oddspace c) eqn:E; [done|]. cbn. by rewrite E. Qed.

Lemma int_text n x k : ConvProof.is_len (Z.abs x) (Z.of_nat k) → - 2 ^ 63 ≤ x < 2 ^ 63 → value_text (S n) (INT64 x) (ConvProof.decimal x k).
Proof.
  intros Hk Hx. assert (1 <= k)%nat as Hk1 by (destruct Hk; lia). destruct (decimal_head x k Hk1) as (c & t & E & Hhd).
  assert (c = 45 ∨ ConvProof.digit c) as Hc by naive_solver. unfold ConvProof.digit in Hc.
  assert (good_head (c :: t)) as Hg.
  { exists c, t. split; [done|]. unfold space, is_oddspace. lia. }
  rewrite E. split; [done|]. intros [|fuel] r l i Hf Hi Hr Hl Hn; [lia|]. apply (parseValue_wrap fuel n _ c t r); [done..|].
  intros i1 H1. rewrite (proj2 (Z.eqb_neq c 91)), (proj2 (Z.eqb_neq c 123)), (proj2 (Z.eqb_neq c 34)) by lia.
  replace ((c =? 45) || is_digit c) with true by (unfold is_digit; lia). apply (parseNumber_at x k); [done|done|by rewrite E|done].
Qed.

(** A number with a fraction or an exponent is read as a double. *)
Lemma parseDouble_at t d r l i : fractional t → d_parse t = Some d → at_ (t ++ r) l i → delim r → wp (parseNumber popts) (done_at (DOUBLE d) r l) i.
Proof.
  intros [sg ds u Hsg Hne Hds Hu] Hd Hi Hr. unfold parseNumber. apply wp_bind, wp_gets, wp_bind. rewrite (assoc_L (++)) in Hi, Hd.
  pose proof (signed_head sg ds Hsg Hne Hds) as Hnh. rewrite <- (assoc_L (++)) in Hi.
  eapply wp_mono; [by eapply number_not_infinity|]. cbn beta. intros inf i0 [-> ->]. apply wp_bind, wp_gets, wp_bind.
  assert (stops (u ++ r)) as Hst by (destruct Hu as [|e ex' [->| ->]%exponent_char]; done).
  destruct (skip_signed sg ds (u ++ r) Hsg Hne Hds Hst) as [n Hskip]. wp_use (@skipWhile_at bool). intros integral i1 [-> H1].
  rewrite (number_negative _ _ _ _ Hnh Hi). apply wp_bind, wp_gets. destruct (parse_fraction_at u r l i1 Hu Hr H1) as [Hc Hwp]. rewrite Hnum.
  replace (negb (current_ i1 =? 46) && negb ((current_ i1 =? 101) || (current_ i1 =? 69))) with false.
  2: { symmetry. destruct Hc as [->| ->]; [done|]. by rewrite andb_false_r. }
  apply wp_bind. eapply wp_mono; [exact Hwp|]. cbn beta. intros _ i2 H2. apply wp_bind, wp_gets.
  assert (take (length (range_ i) - length (range_ i2)) (range_ i) = (sg ++ ds) ++ u) as ->.
  { destruct Hi as (_ & -> & _), H2 as (_ & -> & _). rewrite (assoc_L (++)), length_app. rewrite Nat.add_sub. apply take_app_length. }
  apply wp_bind. unfold to_double. eapply wp_lift; [by rewrite Hd|]. apply wp_ret. split; [constructor|]. by exists r.
Qed.

Lemma double_text n d t : fractional t → d_parse t = Some d → value_text (S n) (DOUBLE d) t.
Proof.
  intros Ht Hd. assert (number_head t) as Hnh.
  { destruct Ht as [sg ds u Hsg Hne Hds _]. destruct (signed_head sg ds Hsg Hne Hds) as (c & t & E & Hc). rewrite (assoc_L (++)), E. exists c, (t ++ u).
    split; [done|]. destruct Hc as [(-> & x & t' & -> & Hx)|Hc]; [left|by right]. split; [done|]. by exists x, (t' ++ u). }
  pose proof (number_good_head t Hnh) as Hg. split; [done|]. destruct Hnh as (c & t' & -> & Hc).
  assert (c = 45 ∨ ConvProof.digit c) as Hc' by naive_solver. unfold ConvProof.digit in Hc'.
  intros [|fuel] r l i Hf Hi Hr Hl Hn; [lia|]. apply (parseValue_wrap fuel n _ c t' r); [done..|].
  intros i1 H1. rewrite (proj2 (Z.eqb_neq c 91)), (proj2 (Z.eqb_neq c 123)), (proj2 (Z.eqb_neq c 34)) by lia.
  replace ((c =? 45) || is_digit c) with true by (unfold is_digit; lia). by apply (parseDouble_at (c :: t')).
Qed.

Lemma string_text n s t : literal s t → value_text (S n) (STRING s) t.
Proof.
  intros Hlit. pose proof Hlit as (b & E & Hb). assert (good_head (34 :: b ++ [34])) as Hg by (exists 34, (b ++ [34]); split; [done|split; [lia|split; [done|lia]]]).
  rewrite E. split; [done|]. intros [|fuel] r l i Hf Hi Hr Hl Hn; [lia|]. apply (parseValue_wrap fuel n _ 34 (b ++ [34]) r); [done..|].
  intros i1 H1. cbn [Z.eqb Pos.eqb]. wp_run. rewrite <- E in H1. wp_use parseString_at. intros s' i2 [-> H2]. wp_run.
  split; [constructor|]. by exists r.
Qed.

Lemma literal_text n v t : (v, t) ∈ [(BOOL true, chars "true"); (BOOL false, chars "false"); (NULLT, chars "null")] → value_text (S n) v t.
Proof.
  change (chars "true") with [116; 114; 117; 101]. change (chars "false") with [102; 97; 108; 115; 101]. change (chars "null") with [110; 117; 108; 108].
  intros Hv. assert (∃ c t', t = c :: t' ∧ good_head t ∧ (c = 116 ∨ c = 102 ∨ c = 110)) as (c & t' & -> & Hg & Hc).
  { set_unfold in Hv. destruct_or? Hv; simplify_eq; (eexists _, _; split; [reflexivity|]; split; [|auto]);
    (eexists _, _; split; [reflexivity|]; split; [lia|split; [done|lia]]). }
  split; [done|]. intros [|fuel] r l i Hf Hi Hr Hl Hn; [lia|]. apply (parseValue_wrap fuel n _ c t' r); [done..|].
  intros i1 H1. rewrite (proj2 (Z.eqb_neq c 91)), (proj2 (Z.eqb_neq c 123)), (proj2 (Z.eqb_neq c 34)) by lia.
  replace ((c =? 45) || is_digit c) with false by (unfold is_digit; lia). clear Hc Hg Hi. unfold parse_literal.
  set_unfold in Hv. destruct_or? Hv; simplify_eq; wp_run;
    repeat first
      [ eapply wp_mono; [eapply consume_at; [done|reflexivity]|]; cbn beta; intros ? i2 [-> H2]; wp_run; split; [constructor|]; by exists r
      | eapply wp_mono; [eapply consume_not; [done|reflexivity]|]; cbn beta; intros ? i2 [-> ->]; wp_run ].
Qed.

(** ** Arrays *)

Lemma parseArray_loop_at n vs : ∀ v t u ws r fuel k ret l i, value_text n v t → tail_items (value_text n) vs u → spaces ws →
  (length t + length u < k)%nat → (length t + length u < fuel)%nat → at_ (t ++ u ++ ws ++ 93 :: r) l i → 0 ≤ l → l + Z.of_nat n ≤ recursion_limit popts + 1 →
  wp (parseArray_loop popts (parseValue popts fuel) k ret)
    (fun ret' i' => (∃ vs', ret' = ret ++ vs' ∧ Forall2 deq (v :: vs) vs') ∧ at_ (93 :: r) l i') i.
Proof.
  induction vs as [|v2 vs IH]; intros v t u ws r fuel k ret l i [Hg Hp] Hu Hws Hk Hf Hi Hl Hn; (destruct k as [|k]; [lia|]); cbn [parseArray_loop];
    apply wp_bind, wp_gets; (assert (current_ i ≠ 93) as Hc by
      (destruct Hg as (c & t' & -> & Hc & Hg); cbn [app] in Hi; rewrite (at_current _ _ _ _ Hi); lia));
    rewrite (proj2 (Z.eqb_neq (current_ i) 93)), andb_false_r by done; apply wp_bind;
    (assert (delim (u ++ ws ++ 93 :: r)) as Hd by (eapply tail_delim; [done|done|cbn; auto]));
    (eapply wp_mono; [eapply Hp; [lia|done|done|done|done]|]); cbn beta; intros v' i1 [Hv (r' & H1 & Ht)]; wp_run;
    wp_use skipWhitespace_at; rewrite Ht; intros _ i2 H2; wp_run; inversion Hu as [|? t2 ws2 ? u2 Hp2 Hws2 Hu2]; subst.
  - cbn [app] in H2. rewrite ltrim_spaces, ltrim_stop in H2 by done. rewrite (at_current _ _ _ _ H2) by lia. cbn [Z.eqb Pos.eqb negb]. wp_run.
    split; [|done]. exists [v']. split; [done|]. by repeat constructor.
  - cbn [app] in H2. rewrite ltrim_stop in H2 by done. rewrite (at_current _ _ _ _ H2) by lia. cbn [Z.eqb Pos.eqb negb]. wp_run.
    wp_use incr_at. intros _ i3 H3. wp_run. wp_use skipWhitespace_at.
    rewrite <- !(assoc_L (++)), ltrim_spaces, good_head_ltrim by (done || by apply Hp2). intros _ i4 H4.
    cbn in Hk, Hf. rewrite !length_app in Hk, Hf. eapply wp_mono; [eapply (IH v2 t2 u2 ws r); [done|done|done|lia|lia|done|done|done]|].
    cbn beta. intros ret' i5 [(vs' & -> & Hvs') H5]. split; [|done]. exists (v' :: vs'). split; [by rewrite <- (assoc_L (++))|]. by constructor.
Qed.

(** The text of a non-empty array. *)
Lemma array_text n v vs ws t u ws' : spaces ws → value_text n v t → tail_items (value_text n) vs u → spaces ws' →
  value_text (S n) (ARRAY (v :: vs)) (91 :: ws ++ t ++ u ++ ws' ++ [93]).
Proof.
  intros Hws Ht Hu Hws'. assert (good_head (91 :: ws ++ t ++ u ++ ws' ++ [93])) as Hg by (eexists _, _; split; [done|split; [lia|split; [done|lia]]]).
  split; [done|]. intros [|fuel] r l i Hf Hi Hr Hl Hn; [lia|]. eapply (parseValue_wrap fuel n _ 91); [done..|].
  intros i1 H1. cbn [Z.eqb Pos.eqb]. cbn in Hf. rewrite !length_app in Hf. unfold parseArray. wp_run. cbn [app] in H1.
  apply wp_assert; [by rewrite (at_current _ _ _ _ H1) by lia|]. wp_run. wp_use incr_at. intros _ i2 H2. wp_run.
  wp_use skipWhitespace_at. rewrite <- !(assoc_L (++)), ltrim_spaces, good_head_ltrim by (done || by apply Ht). intros _ i3 H3. wp_run.
  assert (current_ i3 ≠ 93) as Hc.
  { destruct Ht as [(c & t' & -> & Hc & Hg') _]. cbn [app] in H3. rewrite (at_current _ _ _ _ H3); lia. }
  rewrite (proj2 (Z.eqb_neq (current_ i3) 93)) by done. wp_run.
  eapply wp_mono; [eapply (parseArray_loop_at n vs v t u ws' r); [done|done|done| | |done|lia|lia]|].
  - destruct H3 as (_ & -> & _). rewrite !length_app. cbn. lia.
  - cbn in Hf. lia.
  - cbn beta. intros ret i4 [(vs' & -> & Hvs') H4]. wp_run. wp_use expect_at; [lia|]. intros _ i5 H5. wp_run.
    split; [by constructor|]. by exists r.
Qed.

Lemma empty_array_text n : value_text (S n) (ARRAY []) [91; 93].
Proof.
  assert (good_head [91; 93]) as Hg by (eexists _, _; split; [done|split; [lia|split; [done|lia]]]).
  split; [done|]. intros [|fuel] r l i Hf Hi Hr Hl Hn; [lia|]. eapply (parseValue_wrap fuel n _ 91); [done..|].
  intros i1 H1. cbn [Z.eqb Pos.eqb]. unfold parseArray. wp_run. cbn [app] in H1.
  apply wp_assert; [by rewrite (at_current _ _ _ _ H1) by lia|]. wp_run. wp_use incr_at. intros _ i2 H2. wp_run.
  wp_use skipWhitespace_at. rewrite ltrim_stop by done. intros _ i3 H3. wp_run.
  rewrite (at_current _ _ _ _ H3) by lia. cbn [Z.eqb Pos.eqb]. wp_run. wp_use incr_at. intros _ i4 H4. wp_run.
  split; [by repeat constructor|]. by exists r.
Qed.

(** ** Objects *)

(** [t] is a text of an entry: a key, a colon, a value. *)
Definition entry_text (n : nat) (e : dynamic D * dynamic D) (t : list Z) : Prop :=
  ∃ k kt ws ws' vt, e.1 = STRING k ∧ literal k kt ∧ spaces ws ∧ spaces ws' ∧ value_text n e.2 vt ∧ t = kt ++ ws ++ 58 :: ws' ++ vt.

Lemma entry_head n e t : entry_text n e t → ∃ t', t = 34 :: t'.
Proof. intros (k & kt & ws & ws' & vt & _ & (b & -> & _) & _ & _ & _ & ->). by eexists. Qed.

Lemma entry_good_head n e t : entry_text n e t → good_head t.
Proof. intros [t' ->]%entry_head. exists 34, t'. split; [done|split; [lia|split; [done|lia]]]. Qed.

Lemma parse_entry_at n e t fuel r l i : entry_text n e t → (length t < fuel)%nat → at_ (t ++ r) l i → delim r → 0 ≤ l →
  l + Z.of_nat n ≤ recursion_limit popts + 1 →
  wp (parse_entry popts (parseValue popts fuel))
    (fun e' i' => (e.1 = e'.1 ∧ deq e.2 e'.2) ∧ ∃ r', at_ r' l i' ∧ ltrimWhitespace r' = ltrimWhitespace r) i.
Proof.
  intros (k & kt & ws & ws' & vt & Hk & Hlit & Hws & Hws' & [Hg Hv] & ->) Hf Hi Hr Hl Hn. unfold parse_entry. wp_run.
  pose proof Hlit as (b & Eb & _). rewrite <- !(assoc_L (++)) in Hi. cbn [app] in Hi. rewrite <- (assoc_L (++)) in Hi.
  assert (current_ i = 34) as -> by (rewrite Eb in Hi; by eapply at_current; [done|lia]). cbn [Z.eqb Pos.eqb]. wp_run.
  wp_use parseString_at. intros k' i1 [-> H1]. wp_run. wp_use skipWhitespace_at. rewrite ltrim_spaces, ltrim_stop by done. intros _ i2 H2. wp_run.
  wp_use expect_at; [lia|]. intros _ i3 H3. wp_run. wp_use skipWhitespace_at. rewrite ltrim_spaces, good_head_ltrim by done. intros _ i4 H4. wp_run.
  rewrite !length_app in Hf. cbn in Hf. rewrite length_app in Hf.
  eapply wp_mono; [eapply Hv; [lia|done|done|done|done]|]. cbn beta. intros v' i5 [Hd Hr']. wp_run. done.
Qed.

Definition keys (l : list (dynamic D * dynamic D)) : list (dynamic D) := fst <$> l.

(** A new key is placed. *)
Lemma insert_fresh k v (obj : list (dynamic D * dynamic D)) : STRING k ∉ keys obj →
  insert (STRING k) v obj = Ret (place obj (STRING k, v)).
Proof.
  intros Hk. unfold insert. cbn [hashable mbind outcome_bind]. replace (assign _ v obj) with (@None (list (dynamic D * dynamic D))); [done|]. symmetry.
  assert (∀ e, e ∈ obj → finds obj (STRING k, v) e = false) as Hf.
  { intros [k' v'] Hin. unfold finds. destruct k'; try done. cbn. rewrite bool_decide_eq_false_2; [done|]. intros ->. apply Hk.
    apply list_elem_of_fmap. by exists (STRING k, v'). }
  revert Hf. generalize (finds obj (STRING k, v)) as found. intros found. clear. induction obj as [|e obj IH]; intros Hf; [done|]. cbn.
  rewrite Hf by (by left). rewrite IH; [done|]. intros e' He'. apply Hf. by right.
Qed.

Definition entry_deq (e e' : dynamic D * dynamic D) : Prop := e.1 = e'.1 ∧ deq e.2 e'.2.

Lemma parseObject_loop_at n es : ∀ e t u ws r fuel k ret l i, entry_text n e t → tail_items (entry_text n) es u → spaces ws →
  NoDup (keys (ret ++ e :: es)) →
  (length t + length u < k)%nat → (length t + length u < fuel)%nat → at_ (t ++ u ++ ws ++ 125 :: r) l i → 0 ≤ l → l + Z.of_nat n ≤ recursion_limit popts + 1 →
  wp (parseObject_loop popts (parseValue popts fuel) k ret)
    (fun ret' i' => (∃ es', Permutation ret' (ret ++ es') ∧ Forall2 entry_deq (e :: es) es') ∧ at_ (125 :: r) l i') i.
Proof.
  induction es as [|e2 es IH]; intros e t u ws r fuel k ret l i He Hu Hws Hnd Hk Hf Hi Hl Hn; (destruct k as [|k]; [lia|]); cbn [parseObject_loop];
    apply wp_bind, wp_gets; (assert (current_ i = 34) as -> by
      (destruct (entry_head _ _ _ He) as [t' Et]; rewrite Et in Hi; by eapply at_current; [done|lia]));
    cbn [Z.eqb Pos.eqb]; rewrite andb_false_r; apply wp_bind;
    (assert (delim (u ++ ws ++ 125 :: r)) as Hd by (eapply tail_delim; [done|done|cbn; auto]));
    (eapply wp_mono; [eapply parse_entry_at; [done|lia|done|done|done|done]|]); cbn beta; intros e' i1 [Hv (r' & H1 & Ht)]; apply wp_bind;
    pose proof He as (key & _ & _ & _ & _ & Hkey & _); destruct e' as [k' v'], e as [k0 v0]; cbn in Hkey, Hv; subst k0; destruct Hv as [<- Hv]; cbn [fst snd];
    (rewrite insert_fresh by (unfold keys in *; rewrite fmap_app in Hnd; apply NoDup_app in Hnd as (_ & Hfresh & _); intros Hin;
      apply (Hfresh _ Hin), list_elem_of_here));
    (eapply wp_lift; [done|]); wp_run;
    wp_use skipWhitespace_at; rewrite Ht; intros _ i2 H2; wp_run; inversion Hu as [|? t2 ws2 ? u2 Hp2 Hws2 Hu2]; subst.
  - cbn [app] in H2. rewrite ltrim_spaces, ltrim_stop in H2 by done. rewrite (at_current _ _ _ _ H2) by lia. cbn [Z.eqb Pos.eqb negb]. wp_run.
    split; [|done]. exists [(STRING key, v')]. split; [|by repeat constructor].
    rewrite place_permutation. by rewrite Permutation_cons_append.
  - cbn [app] in H2. rewrite ltrim_stop in H2 by done. rewrite (at_current _ _ _ _ H2) by lia. cbn [Z.eqb Pos.eqb negb]. wp_run.
    wp_use incr_at. intros _ i3 H3. wp_run. wp_use skipWhitespace_at.
    rewrite <- !(assoc_L (++)), ltrim_spaces, good_head_ltrim by (done || by eapply entry_good_head). intros _ i4 H4.
    cbn in Hk, Hf. rewrite !length_app in Hk, Hf.
    eapply wp_mono; [eapply (IH e2 t2 u2 ws r); [done|done|done| |lia|lia|done|done|done]|].
    + unfold keys in *. rewrite fmap_app in *. rewrite place_permutation. cbn in *. by rewrite Permutation_middle.
    + cbn beta. intros ret' i5 [(es' & Hperm & Hes') H5]. split; [|done]. exists ((STRING key, v') :: es'). split; [|by constructor].
      rewrite Hperm, place_permutation. by rewrite <- Permutation_middle.
Qed.

Lemma empty_object_text n : value_text (S n) (OBJECT []) [123; 125].
Proof.
  assert (good_head [123; 125]) as Hg by (eexists _, _; split; [done|split; [lia|split; [done|lia]]]).
  split; [done|]. intros [|fuel] r l i Hf Hi Hr Hl Hn; [lia|]. eapply (parseValue_wrap fuel n _ 123); [done..|].
  intros i1 H1. cbn [Z.eqb Pos.eqb]. unfold parseObject. wp_run. cbn [app] in H1.
  apply wp_assert; [by rewrite (at_current _ _ _ _ H1) by lia|]. wp_run. wp_use incr_at. intros _ i2 H2. wp_run.
  wp_use skipWhitespace_at. rewrite ltrim_stop by done. intros _ i3 H3. wp_run.
  rewrite (at_current _ _ _ _ H3) by lia. cbn [Z.eqb Pos.eqb]. wp_run. wp_use incr_at. intros _ i4 H4. wp_run.
  split; [by apply (deq_object [] [] []); constructor|]. by exists r.
Qed.

(** The text of a non-empty object, whose entries may be written in any order. *)
Lemma object_text n l0 e es ws t u ws' : Permutation l0 (e :: es) → NoDup (keys l0) →
  spaces ws → entry_text n e t → tail_items (entry_text n) es u → spaces ws' →
  value_text (S n) (OBJECT l0) (123 :: ws ++ t ++ u ++ ws' ++ [125]).
Proof.
  intros Hperm Hnd Hws Ht Hu Hws'.
  assert (good_head (123 :: ws ++ t ++ u ++ ws' ++ [125])) as Hg by (eexists _, _; split; [done|split; [lia|split; [done|lia]]]).
  split; [done|]. intros [|fuel] r l i Hf Hi Hr Hl Hn; [lia|]. eapply (parseValue_wrap fuel n _ 123); [done..|].
  intros i1 H1. cbn [Z.eqb Pos.eqb]. cbn in Hf. rewrite !length_app in Hf. unfold parseObject. wp_run. cbn [app] in H1.
  apply wp_assert; [by rewrite (at_current _ _ _ _ H1) by lia|]. wp_run. wp_use incr_at. intros _ i2 H2. wp_run.
  wp_use skipWhitespace_at. destruct (entry_head _ _ _ Ht) as [t' Et].
  rewrite <- !(assoc_L (++)), ltrim_spaces, good_head_ltrim by (done || by eapply entry_good_head). intros _ i3 H3. wp_run.
  assert (current_ i3 = 34) as -> by (rewrite Et in H3; by eapply at_current; [done|lia]). cbn [Z.eqb Pos.eqb]. wp_run.
  eapply wp_mono; [eapply (parseObject_loop_at n es e t u ws' r); [done|done|done| | | |done|lia|lia]|].
  - cbn [app]. unfold keys in *. by rewrite <- Hperm.
  - destruct H3 as (_ & -> & _). rewrite !length_app. cbn. lia.
  - cbn in Hf. lia.
  - cbn beta. intros ret i4 [(es' & Hret & Hes') H4]. cbn [app] in Hret. wp_run. wp_use expect_at; [lia|]. intros _ i5 H5. wp_run.
    split; [|by exists r]. symmetry in Hret. apply Forall2_flip in Hes'.
    destruct (Permutation_Forall2 Hret Hes') as (l' & Hl' & HF). apply (deq_object _ l').
    + by rewrite Hperm.
    + by apply Forall2_flip.
Qed.

(** ** The printer *)

Variable sopts : serialization_opts.

Definition level_ok (p : Printer) : Prop := match indentLevel_ p with None => True | Some n => 0 ≤ n < 2 ^ 32 end.

(** [m] appends a text with [P] and leaves the indentation as it was. *)
Definition prints (m : St Printer unit) (P : list Z → Prop) : Prop :=
  ∀ p, level_ok p → wp m (fun _ p' => ∃ t, p' = mk_printer (out_ p ++ t) (indentLevel_ p) ∧ P t) p.

Lemma prints_append s : prints (append s) (fun t => t = s).
Proof. intros p Hp. apply wp_modify. by exists s. Qed.
Lemma prints_mono m (P Q : list Z → Prop) : prints m P → (∀ t, P t → Q t) → prints m Q.
Proof. intros Hm HPQ p Hp. eapply wp_mono; [by apply Hm|]. cbn. intros _ p' (t & -> & Ht). eauto. Qed.
Lemma prints_bind m m' (P Q : list Z → Prop) : prints m P → prints m' Q → prints (_ ← m; m') (fun t => ∃ a b, t = a ++ b ∧ P a ∧ Q b).
Proof.
  intros Hm Hm' p Hp. apply wp_bind. eapply wp_mono; [by apply Hm|]. cbn beta. intros _ p' (a & -> & Ha).
  eapply wp_mono; [by apply Hm'|]. cbn. intros _ p'' (b & -> & Hb). exists (a ++ b). rewrite (assoc_L (++)). eauto 6.
Qed.
Lemma prints_newline : prints newline spaces.
Proof.
  intros p Hp. unfold newline. apply wp_bind, wp_gets. destruct (indentLevel_ p) as [n|] eqn:E.
  - apply wp_modify. eexists. split; [by rewrite E|]. constructor; [done|]. by apply Forall_replicate.
  - apply wp_ret. exists []. rewrite app_nil_r, <- E. split; [by destruct p|constructor].
Qed.
Lemma prints_colon : prints mapColon (fun t => ∃ ws ws', spaces ws ∧ spaces ws' ∧ t = ws ++ 58 :: ws').
Proof.
  intros p Hp. unfold mapColon. apply wp_bind, wp_gets, wp_modify. destruct (indentLevel_ p) as [n|] eqn:E;
    (eexists; split; [done|]); [exists [32], [32]|exists [], []]; by repeat constructor.
Qed.

(** What is printed one level deeper. *)
Lemma prints_indented m (P : list Z → Prop) : prints m P → prints (_ ← indent; _ ← m; outdent) P.
Proof.
  intros Hm p Hp. apply wp_bind, wp_modify, wp_bind. eapply wp_mono; [apply Hm|]; cbn beta.
  { unfold level_ok in *. cbn. destruct (indentLevel_ p); [|done]. cbn. apply u32_range. }
  intros _ p' (t & -> & Ht). apply wp_modify. exists t. split; [|done]. cbn. f_equal.
  unfold level_ok in Hp. destruct (indentLevel_ p) as [n|]; [|done]. cbn. f_equal. unfold u32. Z.div_mod_to_equations. lia.
Qed.

Lemma prints_rest {A} (P : A → list Z → Prop) l ms : Forall2 (fun a m => prints m (P a)) l ms → prints (print_rest ms) (tail_items P l).
Proof.
  induction 1 as [|a m l ms Hm _ IH]; cbn [print_rest].
  - intros p Hp. apply wp_ret. exists []. rewrite app_nil_r. split; [by destruct p|constructor].
  - eapply prints_mono; [eapply prints_bind; [apply prints_append|eapply prints_bind; [apply prints_newline|eapply prints_bind; [exact Hm|exact IH]]]|].
    cbn beta. intros t (? & ? & -> & -> & ws & ? & -> & Hws & ta & u & -> & Ha & Hu). exact (tail_cons P a ta ws l u Ha Hws Hu).
Qed.

(** Opening, the items one level deeper, closing. *)
Lemma prints_bracket (o c : Z) (m : St Printer unit) (P : list Z → Prop) : prints m P →
  prints (_ ← append [o]; _ ← indent; _ ← newline; _ ← m; _ ← outdent; _ ← newline; append [c])
    (fun t => ∃ ws x ws', t = o :: ws ++ x ++ ws' ++ [c] ∧ spaces ws ∧ spaces ws' ∧ P x).
Proof.
  intros Hm p Hp. pose proof (prints_bind _ _ _ _ prints_newline Hm) as Hnm. apply prints_indented in Hnm.
  pose proof (prints_bind _ _ _ _ (prints_append [o]) (prints_bind _ _ _ _ Hnm (prints_bind _ _ _ _ prints_newline (prints_append [c]))) p Hp) as Hall.
  apply wp_elim in Hall as (? & p' & Hrun & ? & -> & ? & ? & -> & -> & ? & ? & -> & (ws & x & -> & Hws & Hx) & ws' & ? & -> & Hws' & ->).
  eapply (wp_intro _ _ _ tt (mk_printer (out_ p ++ o :: (ws ++ x) ++ ws' ++ [c]) (indentLevel_ p)));
    [|eexists; split; [reflexivity|]; exists ws, x, ws'; split_and!; [by rewrite <- (assoc_L (++))|done..]].
  revert Hrun. unfold mbind, St_bind. cbn. set (p1 := mk_printer _ _). destruct (newline p1) as [[[] p2]|]; [|done].
  destruct (m p2) as [[[] p3]|]; [|done]. cbn. destruct x0. done.
Qed.

(** ** Sorting *)

Lemma string_lt_total a b : a ≠ b → string_lt a b = true ∨ string_lt b a = true.
Proof.
  revert b. induction a as [|x a IH]; intros [|y b] Hne; cbn; [done|by left|by right|].
  destruct (Z.ltb_spec x y); [by left|]. destruct (Z.ltb_spec y x); [by right|]. apply IH. intros ->. apply Hne. f_equal. lia.
Qed.

Definition string_key (e : @entry D) : Prop := ∃ k, e.1.1 = STRING k.

Lemma pair_lt_strings (e e' : @entry D) : string_key e → string_key e' → e.1.1 ≠ e'.1.1 → ∃ b, pair_lt e.1 e'.1 = Ret b.
Proof.
  intros [k Hk] [k' Hk'] Hne. unfold pair_lt, dynamic_lt. rewrite Hk, Hk' in *. cbn. destruct (string_lt k k') eqn:E1; [eauto|].
  cbn. destruct (string_lt k' k) eqn:E2; [eauto|]. exfalso. destruct (string_lt_total k k') as [?|?]; congruence.
Qed.

Lemma sort_insert_spec (e : @entry D) l : string_key e → Forall string_key l → e.1.1 ∉ (fun e => e.1.1) <$> l →
  ∃ l', sort_insert e l = Ret l' ∧ Permutation l' (e :: l).
Proof.
  intros He Hl. induction Hl as [|e' l He' Hl IH]; intros Hn; cbn [sort_insert]; [eauto|].
  cbn in Hn. apply not_elem_of_cons in Hn as [Hne Hn]. destruct (pair_lt_strings e' e) as [b ->]; [done|done|done|].
  cbn [mbind outcome_bind]. destruct b; [|eauto]. destruct (IH Hn) as (l' & -> & Hp). cbn. eexists. split; [done|].
  rewrite Hp. constructor.
Qed.

Lemma sort_spec (l : list (@entry D)) : Forall string_key l → NoDup ((fun e => e.1.1) <$> l) →
  ∃ l', sort l = Ret l' ∧ Permutation l' l.
Proof.
  intros Hl. induction Hl as [|e l He Hl IH]; intros Hnd; cbn [sort]; [eauto|]. cbn in Hnd. apply NoDup_cons in Hnd as [Hn Hnd].
  destruct (IH Hnd) as (l' & -> & Hp). cbn [mbind outcome_bind].
  destruct (sort_insert_spec e l') as (l'' & -> & Hp'); [done|by rewrite Hp|by rewrite Hp|]. eexists. split; [done|]. by rewrite Hp', Hp.
Qed.

(** ** Values *)

(** The values that the options print and that can be read back: they nest at most
    [n] deep, their integers are 64-bit ones (and, if so asked, exact as doubles), the
    keys of an object are distinct strings, and a double is finite and its text has a fraction or an exponent and
    is read back as it (1.0 is written as 1, which is read back as an integer). *)
Fixpoint printable (n : nat) (v : dynamic D) : Prop :=
  match n with
  | O => False
  | S n =>
      match v with
      | NULLT | BOOL _ => True
      | DOUBLE d => d_finite d = true ∧ fractional (d_text d) ∧ d_parse (d_text d) = Some d
      | INT64 z => - 2 ^ 63 ≤ z < 2 ^ 63 ∧ (javascript_safe sopts = true → d_to_int (d_of_int z) = z)
      | STRING s => accepted sopts s
      | ARRAY l => Forall (printable n) l
      | OBJECT l => NoDup (keys l) ∧ Forall (fun e => (∃ k, e.1 = STRING k ∧ accepted sopts k) ∧ printable n e.2) l
      end
  end.

Lemma fractional_neutral t : fractional t → neutral t.
Proof.
  intros [sg ds u Hsg _ Hds Hu]. apply neutral_chars.
  assert (∀ ds, digits ds → Forall (fun c => c ≠ 34 ∧ c ≠ 47) ds) as Hd by (intros ds' H'; eapply Forall_impl; [exact H'|]; unfold ConvProof.digit; cbn; lia).
  assert (∀ ex, exponent ex → Forall (fun c => c ≠ 34 ∧ c ≠ 47) ex) as He.
  { intros ex' [|e sg' ds' [->| ->] [->|[->| ->]] Hds']; cbn; repeat (constructor; try done); by apply Hd. }
  apply Forall_app. split; [by destruct Hsg as [->| ->]; repeat constructor|]. apply Forall_app. split; [by apply Hd|].
  destruct Hu as [ds' ex' Hds' Hex|e ex' Hex]; [|by apply He]. constructor; [done|]. apply Forall_app. auto.
Qed.

Definition text_ok (n : nat) (v : dynamic D) (t : list Z) : Prop := value_text n v t ∧ neutral t.
Definition entry_ok (n : nat) (e : dynamic D * dynamic D) (t : list Z) : Prop := entry_text n e t ∧ neutral t.

Lemma digits_neutral x k : neutral (ConvProof.decimal x k).
Proof.
  apply neutral_chars. assert (∀ v, Forall (fun c => c ≠ 34 ∧ c ≠ 47) (ConvProof.dec k v)) as Hd.
  { intros v. eapply Forall_impl; [apply ConvProof.dec_digits|]. unfold ConvProof.digit. cbn. lia. }
  unfold ConvProof.decimal. case_match; [|done]. by constructor.
Qed.

Lemma prints_int n z : - 2 ^ 63 ≤ z < 2 ^ 63 → (javascript_safe sopts = true → d_to_int (d_of_int z) = z) →
  prints (print_int sopts z) (text_ok (S n) (INT64 z)).
Proof.
  intros Hz Hjs p Hp. unfold print_int. apply wp_bind.
  assert (wp (if javascript_safe sopts then
      if z =? d_to_int (d_of_int z) then mret (d_to_int (d_of_int z)) else throw (Thrown "to<>: loss of precision")
    else mret z) (fun z' p' => z' = z ∧ p' = p) p) as Hval.
  { destruct (javascript_safe sopts); [|by apply wp_ret]. rewrite Hjs, Z.eqb_refl by done. by apply wp_ret. }
  eapply wp_mono; [exact Hval|]. cbn beta. intros z' p' [-> ->]. apply wp_bind, (wp_gets (fun p => p)), wp_bind.
  destruct (ConvProof.toAppend_decimal Conv.int64_t z (replicate 20 0) (out_ p)) as (k & Hk & _ & Happ); [by apply (bool_decide_unpack _)|cbn; lia|done|].
  eapply wp_lift; [exact Happ|]. apply wp_modify. eexists. split; [done|]. split; [by apply int_text|apply digits_neutral].
Qed.

Lemma prints_string s : accepted sopts s → prints (print_string sopts s) (literal s).
Proof.
  intros Hs p Hp. unfold print_string. apply wp_bind, (wp_gets (fun p => p)), wp_bind.
  destruct (escapeString_literal sopts s (out_ p) Hs) as (t & Ht & Hlit). eapply wp_lift; [exact Ht|]. apply wp_modify. eauto.
Qed.

Lemma text_ok_literal n v t : (v, t) ∈ [(BOOL true, chars "true"); (BOOL false, chars "false"); (NULLT, chars "null")] → text_ok (S n) v t.
Proof.
  intros Hv. split; [by apply literal_text|]. apply neutral_chars.
  set_unfold in Hv. destruct_or? Hv; simplify_eq; vm_compute; repeat constructor; congruence.
Qed.

Lemma tail_text_ok {A} (P : A → list Z → Prop) l u : tail_items (fun a t => P a t ∧ neutral t) l u → tail_items P l u ∧ neutral u.
Proof.
  intros Hu. split; [eapply tail_items_impl; [done|by intros ? ? []]|].
  eapply (neutral_tail l). eapply tail_items_impl; [done|by intros ? ? []].
Qed.

Lemma neutral_bracket o c ws t u ws' : o ≠ 34 → o ≠ 47 → c ≠ 34 → c ≠ 47 → spaces ws → spaces ws' → neutral t → neutral u →
  neutral (o :: ws ++ (t ++ u) ++ ws' ++ [c]).
Proof.
  intros. apply neutral_cons; [done|done|]. apply neutral_app; [by apply neutral_spaces|].
  apply neutral_app; [by apply neutral_app|]. apply neutral_app; [by apply neutral_spaces|by apply neutral_char].
Qed.

Lemma prints_array n l ms : Forall2 (fun v m => prints m (text_ok n v)) l ms → prints (printArray ms) (text_ok (S n) (ARRAY l)).
Proof.
  intros [|v m vs ms' Hm Hms]; unfold printArray.
  - eapply prints_mono; [apply prints_append|]. intros t ->. split; [apply empty_array_text|by apply neutral_chars; repeat constructor].
  - pose proof (prints_bracket 91 93 _ _ (prints_bind _ _ _ _ Hm (prints_rest _ _ _ Hms))) as Hb. intros p Hp. specialize (Hb p Hp).
    apply wp_elim in Hb as ([] & p' & Hrun & t & -> & ws & ? & ws' & -> & Hws & Hws' & t1 & u & -> & [Ht Hn] & [Hu Hn']%tail_text_ok).
    eapply (wp_intro _ _ _ tt (mk_printer (out_ p ++ 91 :: ws ++ (t1 ++ u) ++ ws' ++ [93]) (indentLevel_ p)));
      [|eexists; split; [reflexivity|]; split; [rewrite <- (assoc_L (++)); by apply array_text|by apply neutral_bracket]].
    rewrite <- Hrun. unfold mbind, St_bind. cbn. set (p1 := mk_printer _ _). destruct (newline p1) as [[[] p2]|]; [|done].
    destruct (m p2) as [[[] p3]|]; [|done]. by destruct (print_rest ms' p3) as [[[] p4]|].
Qed.

(** An entry whose key and value print as they should. *)
Definition good_entry (n : nat) (e : @entry D) : Prop :=
  ∃ k, e.1.1 = STRING k ∧ prints e.2.1 (literal k) ∧ prints e.2.2 (text_ok n e.1.2).

Lemma prints_kv n e : good_entry n e → prints (printKV sopts e) (entry_ok n e.1).
Proof.
  intros (k & Hk & Hpk & Hpv). destruct e as [[k0 v] [mk mv]]. cbn in *. subst k0. cbn. rewrite andb_false_r.
  eapply prints_mono; [eapply prints_bind; [exact Hpk|eapply prints_bind; [apply prints_colon|exact Hpv]]|].
  cbn beta. intros t (kt & ? & -> & Hlit & ? & vt & -> & (ws & ws' & Hws & Hws' & ->) & [Hv Hn]). split.
  - exists k, kt, ws, ws', vt. split_and!; try done. by rewrite <- (assoc_L (++)).
  - apply neutral_app; [by eapply neutral_literal|]. apply neutral_app; [|done].
    apply neutral_app; [by apply neutral_spaces|]. apply neutral_cons; [done|done|by apply neutral_spaces].
Qed.

(** The text of the entries, in some order. *)
Definition entries_text (n : nat) (l : list (dynamic D * dynamic D)) (t : list Z) : Prop :=
  ∃ e es t1 u, Permutation l (e :: es) ∧ t = t1 ++ u ∧ entry_ok n e t1 ∧ tail_items (entry_ok n) es u.

Lemma prints_pairs n l : l ≠ [] → Forall (good_entry n) l → prints (printKVPairs sopts l) (entries_text n (fst <$> l)).
Proof.
  intros Hne Hl. destruct Hl as [|e l He Hl]; [done|]. cbn [printKVPairs].
  assert (Forall2 (fun e' m => prints m (entry_ok n e')) (fst <$> l) (printKV sopts <$> l)) as Hrest.
  { apply Forall2_fmap. apply Forall_Forall2_diag. eapply Forall_impl; [exact Hl|]. intros e'. apply prints_kv. }
  eapply prints_mono; [eapply prints_bind; [by apply prints_kv|exact (prints_rest (entry_ok n) _ _ Hrest)]|].
  cbn beta. intros t (t1 & u & -> & Ht & Hu). exists e.1, (fst <$> l), t1, u. done.
Qed.

Lemma prints_items n l : l ≠ [] → Forall (good_entry n) l → NoDup (keys (fst <$> l)) →
  prints (if sort_keys sopts then items ← lift (sort l); printKVPairs sopts items else printKVPairs sopts l) (entries_text n (fst <$> l)).
Proof.
  intros Hne Hl Hnd. destruct (sort_keys sopts); [|by apply prints_pairs].
  destruct (sort_spec l) as (l' & Hsort & Hperm).
  { eapply Forall_impl; [exact Hl|]. intros e (k & Hk & _). by exists k. }
  { unfold keys in Hnd. by rewrite <- list_fmap_compose in Hnd. }
  intros p Hp. apply wp_bind. eapply wp_lift; [exact Hsort|].
  eapply wp_mono; [apply (prints_pairs n l'); [|by rewrite Hperm|done]|].
  { intros ->. apply Hne. by apply Permutation_nil. }
  cbn beta. intros _ p' (t & -> & e & es & t1 & u & Hp' & Ht). eexists. split; [done|]. exists e, es, t1, u. split; [|done].
  by rewrite <- Hperm.
Qed.

Lemma prints_object n l : Forall (good_entry n) l → NoDup (keys (fst <$> l)) → prints (printObject sopts l) (text_ok (S n) (OBJECT (fst <$> l))).
Proof.
  intros Hl Hnd. unfold printObject. destruct l as [|e l'] eqn:E.
  { eapply prints_mono; [apply prints_append|]. intros t ->. split; [apply empty_object_text|by apply neutral_chars; repeat constructor]. }
  rewrite <- E in *. eapply prints_mono; [apply (prints_bracket 123 125), (prints_items n); [by rewrite E|done|done]|].
  cbn beta. intros t (ws & ? & ws' & -> & Hws & Hws' & e1 & es & t1 & u & Hperm & -> & [Ht Hn] & [Hu Hn']%tail_text_ok). split.
  - rewrite <- (assoc_L (++)). by eapply object_text.
  - by apply neutral_bracket.
Qed.

Definition entries (l : list (dynamic D * dynamic D)) : list (@entry D) := (fun e => (e, (print sopts e.1, print sopts e.2))) <$> l.

Lemma print_object_entries l : print sopts (OBJECT l) = printObject sopts (entries l).
Proof. cbn [print]. f_equal. induction l as [|[k x] l IH]; [done|]. cbn. by f_equal. Qed.

Lemma prints_value n v : printable n v → prints (print sopts v) (text_ok n v).
Proof.
  revert v. induction n as [|n IH]; intros v Hv; [done|].
  destruct v as [|l|b|d|z|l|s]; cbn [printable] in Hv; cbn [print].
  - eapply prints_mono; [apply prints_append|]. intros t ->. apply text_ok_literal. set_solver.
  - apply prints_array. change (List.map (print sopts) l) with (print sopts <$> l). apply Forall2_fmap_r, Forall_Forall2_diag.
    eapply Forall_impl; [exact Hv|]. intros v. apply IH.
  - eapply prints_mono; [apply prints_append|]. intros t ->. apply text_ok_literal. destruct b; set_solver.
  - destruct Hv as (Hf & Ht & Hd). unfold print_double. rewrite Hf, andb_false_r. eapply prints_mono; [apply prints_append|]. intros t ->.
    split; [by apply double_text|by apply fractional_neutral].
  - destruct Hv as [Hz Hjs]. by apply prints_int.
  - change (prints (print sopts (OBJECT l)) (text_ok (S n) (OBJECT l))). rewrite print_object_entries.
    assert (fst <$> entries l = l) as El by (unfold entries; rewrite <- list_fmap_compose; apply list_fmap_id).
    destruct Hv as [Hnd Hl]. rewrite <- El at 2. apply prints_object; [|by rewrite El].
    unfold entries. apply Forall_fmap. eapply Forall_impl; [exact Hl|]. intros e [(k & Hk & Hacc) Hv]. exists k. cbn.
    split; [done|]. split; [rewrite Hk; by apply prints_string|by apply IH].
  - eapply prints_mono; [by apply prints_string|]. intros t Ht. split; [by apply string_text|by eapply neutral_literal].
Qed.

(** The whole text. *)
Lemma serialize_text n v : printable n v → ∃ t, serialize v sopts = Ret t ∧ text_ok n v t.
Proof.
  intros Hv. unfold serialize. set (p0 := mk_printer _ _).
  destruct (wp_elim _ _ _ (prints_value n v Hv p0 ltac:(by subst p0; unfold level_ok; cbn; destruct (pretty_formatting sopts)))) as (? & p' & Hrun & t & -> & Ht).
  rewrite Hrun. cbn. eauto.
Qed.

Lemma parse_text n v t : value_text n v t → Z.of_nat n ≤ recursion_limit popts + 1 → ∃ v', parseJson popts t = Ret v' ∧ deq v v'.
Proof.
  intros [Hg Ht] Hn. unfold parseJson.
  assert (at_ (t ++ []) 0 (new_input t)) as Hi by (rewrite app_nil_r; done).
  specialize (Ht (S (length t)) [] 0 (new_input t) ltac:(lia) Hi I ltac:(lia) ltac:(lia)).
  apply wp_elim in Ht as (v' & i' & Hrun & Hv & r' & (Hs & Hr & _) & Hr').
  unfold mbind at 1, outcome_bind. unfold mbind at 1, St_bind. rewrite Hrun. unfold skipWhitespace.
  unfold mbind, St_bind, gets. cbn. rewrite Hr, Hr'. cbn. eauto.
Qed.

End parse.

(** C16. Round trip of the values below: whatever the printing options, the value is written to a
    text, and parsing that text gives the value back, up to the order of the
    entries of objects, provided the recursion limit allows its depth. The values are null, booleans, 64-bit
    integers (exact as doubles, if javascript_safe asks for that), strings (UTF-8, where the options make the printer
    decode it), finite doubles whose text has a fraction or an exponent and converts back to them, and arrays and
    objects of such values, with distinct strings as keys. Other values need not come back: 1.0 is written as 1, which is
    an integer, and keys that are not strings are left out here. The parser must have neither
    parse_numbers_as_strings nor double_fallback set. *)
Theorem json_roundtrip sopts popts n v :
  parse_numbers_as_strings popts = false → double_fallback popts = false → 0 ≤ recursion_limit popts < 2 ^ 32 - 1 →
  Z.of_nat n ≤ recursion_limit popts + 1 → printable sopts n v →
  ∃ t v', serialize v sopts = Ret t ∧ parseJson popts t = Ret v' ∧ deq v v'.
Proof.
  intros Hnum Hfall Hlim Hn Hv. destruct (serialize_text popts Hnum Hfall Hlim sopts n v Hv) as (t & Hser & [Ht _]).
  destruct (parse_text popts n v t Ht Hn) as (v' & Hparse & Hd). eauto.
Qed.

(** ** Comments *)

(** [c] can stand inside an inline comment. *)
Fixpoint no_close (c : list Z) : Prop :=
  match c with
  | [] => True
  | x :: c' => (x = 42 → head c' ≠ Some 47) ∧ no_close c'
  end.

Lemma strip_inline c u : no_close c → strip InlineComment (c ++ 42 :: 47 :: u) = strip None_ u.
Proof.
  induction c as [|x c IH]; [done|]. intros [Hx Hc]. rewrite <- IH by done. cbn [app strip].
  destruct (decide (x = 42)) as [->|Hne].
  - destruct c as [|y c]; [done|]. cbn [app]. assert (y ≠ 47) by (intros ->; by apply Hx).
    destruct y as [|y|y]; try done. repeat (destruct y as [y|y|]; try done).
  - destruct x as [|x|x]; try done. repeat (destruct x as [x|x|]; try done).
Qed.

Lemma strip_line c u : Forall (fun x => x ≠ 10) c → strip LineComment (c ++ 10 :: u) = strip None_ u.
Proof. intros Hc. induction Hc as [|x c Hx Hc IH]; [done|]. cbn [app strip]. by rewrite (proj2 (Z.eqb_neq x 10)). Qed.

(** Stripping comments removes an inline comment before a printed value and a line
    comment after it and leaves the value's text as it is, whatever its strings
    contain: slashes, asterisks and quotes inside them are not taken for comments. *)
Theorem stripComments_json sopts n v c c' : printable sopts n v → no_close c → Forall (fun x => x ≠ 10) c' →
  ∃ t, serialize v sopts = Ret t ∧ stripComments t = Ret t ∧
    stripComments (chars "/*" ++ c ++ chars "*/" ++ t ++ chars "//" ++ c' ++ [10]) = Ret t.
Proof.
  intros Hv Hc Hc'. destruct (serialize_text default_opts eq_refl eq_refl ltac:(cbn; lia) sopts n v Hv) as (t & Hser & [_ Ht]).
  exists t. split; [done|]. unfold stripComments. split.
  - rewrite <- (app_nil_r t) at 1. rewrite Ht. cbn. by rewrite app_nil_r.
  - change (chars "/*") with [47; 42]. change (chars "*/") with [42; 47]. change (chars "//") with [47; 47]. cbn [app].
    transitivity (strip InlineComment (c ++ 42 :: 47 :: t ++ 47 :: 47 :: c' ++ [10])); [done|]. rewrite strip_inline, Ht by done.
    transitivity ((fun r => t ++ r) <$> strip LineComment (c' ++ [10])); [done|]. rewrite strip_line by done. cbn. by rewrite app_nil_r.
Qed.
End roundtrip.

Module Demo.
Import JsonSafe.Demo.

(** An object with a string of every kind of char, sorted, pretty-printed and with
    its non-ASCII chars escaped. *)
Definition demo : dynamic Z :=
  OBJECT [(STRING [98], ARRAY [INT64 (-12); DOUBLE 15; NULLT; BOOL true; STRING [1; 34; 92; 10; 47; 42; 228; 189; 160]]); (STRING [97], OBJECT [])].
Definition fancy : serialization_opts := mk_opts false true true true false false true false false false false 100.

Lemma utf8_ascii c s : 0 ≤ c ≤ 0x7f → utf8 s → utf8 (c :: s).
Proof. intros Hc Hs. change (c :: s) with ([c] ++ s). rewrite <- (utf8_one c) by lia. apply (utf8_cons c s); [unfold bmp; lia|done]. Qed.

Lemma demo_printable : printable fancy 3 demo.
Proof.
  assert (utf8 [1; 34; 92; 10; 47; 42; 228; 189; 160]).
  { repeat (apply utf8_ascii; [lia|]). apply (utf8_cons 0x4f60 []); [unfold bmp; lia|constructor]. }
  assert (utf8 [97] ∧ utf8 [98]) as [? ?] by (split; (apply utf8_ascii; [lia|constructor])).
  assert (printable (D := Z) fancy 1 (DOUBLE 15)).
  { split; [done|]. split; [|by vm_compute]. change (d_text 15) with ([] ++ ConvProof.dec 20 15 ++ [46; 48]).
    constructor; [by left|done|apply ConvProof.dec_digits|]. apply (after_point [48] []); [by repeat constructor|constructor]. }
  cbn [printable demo]. split; [repeat constructor; set_solver|]. repeat (apply Forall_cons; split); try done; try (split; [eexists; split; [done|]; done|]).
  - repeat (apply Forall_cons; split); try done.
  - split; [constructor|done].
Qed.

Lemma json_roundtrip_witness : ∃ t v', serialize demo fancy = Ret t ∧ parseJson default_opts t = Ret v' ∧ deq demo v'.
Proof. apply (json_roundtrip fancy default_opts 3 demo); [done|done|cbn; lia|cbn; lia|apply demo_printable]. Defined.

Lemma stripComments_json_witness : ∃ t, serialize demo fancy = Ret t ∧ stripComments t = Ret t ∧
  stripComments (chars "/*" ++ [42; 32] ++ chars "*/" ++ t ++ chars "//" ++ [34] ++ [10]) = Ret t.
Proof. apply (stripComments_json fancy 3 demo [42; 32] [34]); [apply demo_printable|done|by repeat constructor]. Defined.
End Demo.
End JsonProof.
