(* ===== verification/Uconv.v ===== *)
(** enc/uconv.h and enc/uconv.cpp: conversions between GBK, UTF-16 code units and UTF-8.  An array
    that is passed as a pointer and a size is a list; a pointer into it is an index, and an access
    outside it is undefined.  A char is its byte, [schar] its value as a signed char.  The
    pointers passed are not null. *)
From S2P Require Import Prelude UconvTables.

Module Uconv.
Import UconvTables.
#[local] Abbreviation len := List.length.

(** ** Tables *)

(** The entry at an index of the array that the rows of [width] entries make up. No access of the code
    is outside of its array: an index of gGBKToUnicodeTable is a uint16_t that was compared with
    MAX_GBK_LENGTH, one of gUnicodeToGBKTable is a uint16_t and that array has 65536 entries, and one of
    gPsedoUtf8 was compared with 0 and MAX_PSEDO_UTF8. UconvSpec.entries_exist shows that within
    these bounds the entry is one of the array and never the default below. *)
Definition row (width : Z) (rows : list (list Z)) (i : Z) : Z :=
  nth (Z.to_nat (i mod width)) (nth (Z.to_nat (i / width)) rows []) 0.
Definition gGBKToUnicodeTable (i : Z) : Z := row 0xbf gGBKToUnicodeTable_rows i.
Definition gUnicodeToGBKTable (i : Z) : Z := row 256 gUnicodeToGBKTable_rows i.
Definition gPsedoUtf8 (i : Z) : Z := row 64 gPsedoUtf8_rows i.

Definition MAX_GBK_LENGTH : Z := 24066.
Definition MAX_PSEDO_UTF8 : Z := 1024.
Definition FIRST_CHAR_OFFSET : Z := 0x0081.
Definition SECOND_CHAR_OFFSET : Z := 0x0040.

(** ** Macros *)

Definition schar (b : Z) : Z := if b <? 128 then b else b - 256.
Definition to_int (x : Z) : Z := if x <? 2 ^ 31 then x else x - 2 ^ 32.

Definition UCS2_NO_MAPPING : Z := 0xfffd.
Definition IS_ASCII (a : Z) : bool := Z.land 0xff80 a =? 0.
Definition GBK_EURO : Z := 0x80.
Definition IS_GBK_EURO (c : Z) : bool := c =? 0x80.
Definition UCS2_EURO : Z := 0x20ac.
Definition IS_UCS2_EURO (c : Z) : bool := c =? 0x20ac.
Definition UINT8_IN_RANGE (min c max : Z) : bool := (min <=? c) && (c <=? max).
Definition LEGAL_GBK_FIRST_BYTE (c : Z) : bool := UINT8_IN_RANGE 0x81 c 0xFE.
Definition LEGAL_GBK_SECOND_BYTE (c : Z) : bool := UINT8_IN_RANGE 0x40 c 0x7E || UINT8_IN_RANGE 0x80 c 0xFE.
Definition IS_UTF8_1ST_OF_1 (x : Z) : bool := Z.land x (Z.lnot 0x7F) =? 0x00.
Definition IS_UTF8_1ST_OF_2 (x : Z) : bool :=
  (Z.land x (Z.lnot 0x1F) =? 0xC0) && negb (x =? 0xC0) && negb (x =? 0xC1).
Definition IS_UTF8_1ST_OF_3 (x : Z) : bool := Z.land x (Z.lnot 0x0F) =? 0xE0.
Definition IS_UTF8_1ST_OF_4 (x : Z) : bool := Z.land x (Z.lnot 0x07) =? 0xF0.
Definition IS_UTF8_2ND_THRU_6TH (x : Z) : bool := Z.land x (Z.lnot 0x3F) =? 0x80.
Definition IS_PSEDOUTF8 (x : Z) : bool := (x <? MAX_PSEDO_UTF8) && (0 <? x) && negb (gPsedoUtf8 x =? 0).

(** The enumeration of flags; [flag flags f] is flags & f. *)
Definition UCONV_INVCHAR_IGNORE : Z := 0.
Definition UCONV_INVCHAR_REPLACE : Z := 1.
Definition UCONV_INVCHAR_ERROR : Z := 2.
Definition UCONV_INVCHAR_ENTITES : Z := 4.
Definition flag (flags f : Z) : bool := negb (Z.land flags f =? 0).

(** Writing bytes from an index on, one after the other. *)
Fixpoint put (dst : list Z) (at_ : Z) (bytes : list Z) : outcome (list Z) :=
  match bytes with
  | [] => Ret dst
  | b :: bytes => dst ← vset dst at_ b; put dst (at_ + 1) bytes
  end.

(** ** GBK to UTF-16 *)

Definition gbk_char_to_unicode (a b : Z) : Z :=
  let idx := u16 ((a - FIRST_CHAR_OFFSET) * 0x00bf + b - SECOND_CHAR_OFFSET) in
  if idx <? MAX_GBK_LENGTH then gGBKToUnicodeTable idx else UCS2_NO_MAPPING.

(** None: the caller returns -1. *)
Definition CHK_FLG (flags : Z) (dst : list Z) (dl : Z) : outcome (option (list Z)) :=
  if flag flags UCONV_INVCHAR_ERROR then Ret None
  else if flag flags UCONV_INVCHAR_REPLACE then dst ← vset dst dl UCS2_NO_MAPPING; Ret (Some dst)
  else Ret (Some dst).

(** [p] is src minus its first value, which the loop moves apart from i; every turn increments
    i. *)
Fixpoint gbk_to_unicode_loop (fuel : nat) (src : list Z) (src_length dst_size flags : Z)
    (p i dl : Z) (dst : list Z) : outcome (Z * list Z) :=
  if (i <? src_length) && (dl <? dst_size) then
    match fuel with
    | O => Err OutOfFuel
    | S fuel =>
        let next := gbk_to_unicode_loop fuel src src_length dst_size flags in
        c ← vget src p;
        if LEGAL_GBK_FIRST_BYTE c then
          if src_length <=? u32 (i + 1) then Ret (to_int dl, dst) else
          d ← vget src (p + 1);
          if LEGAL_GBK_SECOND_BYTE d then
            dst ← vset dst dl (gbk_char_to_unicode c d);
            next (p + 2) (u32 (i + 2)) (u32 (dl + 1)) dst
          else
            o ← CHK_FLG flags dst dl;
            match o with
            | None => Ret (-1, dst)
            | Some dst => next (p + 1) (u32 (i + 1)) (u32 (dl + 1)) dst
            end
        else
          o ← (if IS_ASCII (schar c) then Some <$> vset dst dl c
               else if IS_GBK_EURO c then Some <$> vset dst dl UCS2_EURO
               else CHK_FLG flags dst dl);
          match o with
          | None => Ret (-1, dst)
          | Some dst => next (p + 1) (u32 (i + 1)) (u32 (dl + 1)) dst
          end
    end
  else Ret (to_int dl, dst).
Definition gbk_to_unicode (src : list Z) (src_length : Z) (dst : list Z) (dst_size flags : Z) : outcome (Z * list Z) :=
  if dst_size =? 0 then Ret (0, dst)
  else gbk_to_unicode_loop (Z.to_nat src_length) src src_length dst_size flags 0 0 0 dst.

(** ** UTF-16 to GBK *)

Definition gHexArray (x : Z) : Z := nth (Z.to_nat x) [48; 49; 50; 51; 52; 53; 54; 55; 56; 57; 65; 66; 67; 68; 69; 70] 0.

(** Both bytes are written, also when there is no mapping. *)
Definition unicode_char_to_gbk (unicode : Z) (dst : list Z) (at_ : Z) : outcome (Z * list Z) :=
  dst ← vset dst at_ (u8 (Z.shiftr (gUnicodeToGBKTable unicode) 8));
  dst ← vset dst (at_ + 1) (Z.land (gUnicodeToGBKTable unicode) 0xff);
  Ret (gUnicodeToGBKTable unicode, dst).

(** &#xXXXX; *)
Definition entity (c : Z) : list Z :=
  [38; 35; 120; gHexArray (Z.land 0x0f (Z.shiftr (Z.shiftr c 8) 4)); gHexArray (Z.land 0x0f (Z.shiftr c 8));
   gHexArray (Z.land 0x0f (Z.shiftr (Z.land c 0xff) 4)); gHexArray (Z.land 0x0f (Z.land c 0xff)); 59].

(** switch (flags) for a code unit without a mapping: the bytes written and how many; None: the
    caller returns -1. *)
Definition invalid_to_gbk (flags replace_char dst_size c di : Z) (dst : list Z) : outcome (option (Z * list Z)) :=
  if flags =? UCONV_INVCHAR_REPLACE then
    if replace_char <? 256 then dst ← put dst di [replace_char]; Ret (Some (1, dst))
    else dst ← put dst di [u8 (Z.shiftr replace_char 8); Z.land replace_char 0xff]; Ret (Some (2, dst))
  else if flags =? UCONV_INVCHAR_ERROR then Ret None
  else if flags =? UCONV_INVCHAR_ENTITES then
    if dst_size <=? u32 (di + 8) then Ret (Some (0, dst))
    else dst ← put dst di (entity c); Ret (Some (8, dst))
  else Ret (Some (0, dst)).

(** What follows the loop: a final NUL. *)
Definition terminate (dst_size di : Z) (dst : list Z) : outcome (Z * list Z) :=
  let di := if dst_size <=? di then dst_size - 1 else di in
  dst ← vset dst di 0;
  Ret (to_int di, dst).

(** The index of dest_next is di, and that of src is i. *)
Fixpoint unicode_to_gbk_loop (fuel : nat) (src : list Z) (src_len dst_size flags replace_char : Z)
    (i di : Z) (dst : list Z) : outcome (Z * list Z) :=
  if (i <? src_len) && (di <? u32 (dst_size - 1)) then
    match fuel with
    | O => Err OutOfFuel
    | S fuel =>
        let next := unicode_to_gbk_loop fuel src src_len dst_size flags replace_char (u32 (i + 1)) in
        c ← vget src i;
        if IS_ASCII c then
          dst ← vset dst di (u8 c);
          next (u32 (di + 1)) dst
        else if dst_size <=? u32 (di + 2) then terminate dst_size di dst
        else
          '(gbk, dst) ← unicode_char_to_gbk c dst di;
          if negb (gbk =? 0) then next (u32 (di + 2)) dst
          else if IS_UCS2_EURO c then
            dst ← vset dst di GBK_EURO;
            next (u32 (di + 1)) dst
          else
            o ← invalid_to_gbk flags replace_char dst_size c di dst;
            match o with
            | None => Ret (-1, dst)
            | Some (n, dst) => next (u32 (di + n)) dst
            end
    end
  else terminate dst_size di dst.
Definition unicode_to_gbk (src : list Z) (src_len : Z) (dest : list Z) (dst_size flags replace_char : Z) :
    outcome (Z * list Z) :=
  if dst_size =? 0 then Ret (0, dest)
  else unicode_to_gbk_loop (Z.to_nat src_len) src src_len dst_size flags replace_char 0 0 dest.

(** ** GBK to UTF-8 *)

(** The bytes of a C string. *)
Fixpoint c_str (s : list Z) : list Z :=
  match s with [] => [] | b :: s => if b =? 0 then [] else b :: c_str s end.

(** for (j = 3;; j--): a code unit has at most three groups of six bits. *)
Fixpoint utf8_groups (fuel : nat) (word : list Z) (j src : Z) : outcome (list Z * Z) :=
  let val := Z.land src 0x3f in
  if src =? 0 then Ret (word, j) else
  match fuel with
  | O => Err OutOfFuel
  | S fuel =>
      word ← vset word j (u8 (Z.lor val 0x80));
      utf8_groups fuel word (j - 1) (Z.shiftr src 6)
  end.

(** The result and the C string at dst; [raw] is what the local array holds.  Code unit 0 leaves
    dst as it is; nothing of it is used then. *)
Definition unicode_char_to_utf8 (raw : list Z) (src : Z) : outcome (Z * list Z) :=
  utf8_word ← vset raw 4 0;
  if src =? 0 then Ret (0, [])
  else if src <? 128 then Ret (1, [src])
  else
    '(utf8_word, j) ← utf8_groups 4 utf8_word 3 src;
    let n := 3 - j in
    if n =? 2 then
      b ← vget utf8_word (j + 1);
      utf8_word ← vset utf8_word (j + 1) (Z.lor b 0xc0);
      Ret (n, c_str (drop (Z.to_nat (j + 1)) utf8_word))
    else if n =? 3 then
      b ← vget utf8_word (j + 1);
      utf8_word ← vset utf8_word (j + 1) (Z.lor b 0xe0);
      Ret (n, c_str (drop (Z.to_nat (j + 1)) utf8_word))
    else Ret (0, []).

(** What strncpy(dst, s, n) writes. *)
Definition strncpy (s : list Z) (n : Z) : list Z :=
  take (Z.to_nat n) s ++ replicate (Z.to_nat n - len s) 0.

(** An invalid byte: return -1, go on with the next one, or, with any other flags, convert
    the last character again and leave src where it is. *)
Inductive on_invalid := Fails | Skips | Repeats.
Definition invalid_gbk (flags : Z) : on_invalid :=
  if flag flags UCONV_INVCHAR_ERROR then Fails
  else if flags =? UCONV_INVCHAR_IGNORE then Skips
  else Repeats.

Fixpoint gbk_to_utf8_loop (fuel : nat) (raw : list Z) (src : list Z) (src_len dst_size flags : Z)
    (p i dl tmp : Z) (dst : list Z) : outcome (Z * list Z) :=
  if (i <? src_len) && (dl <? dst_size) then
    match fuel with
    | O => Err OutOfFuel
    | S fuel =>
        let next := gbk_to_utf8_loop fuel raw src src_len dst_size flags in
        let convert p i tmp :=
          '(n, word) ← unicode_char_to_utf8 raw tmp;
          if dst_size <=? u32 (dl + n) then Ret (to_int dl, dst) else
          dst ← put dst dl (strncpy word n);
          next p (u32 (i + 1)) (u32 (dl + n)) tmp dst in
        let invalid :=
          match invalid_gbk flags with
          | Fails => Ret (-1, dst)
          | Skips => next (p + 1) (u32 (i + 1)) dl tmp dst
          | Repeats => convert p i tmp
          end in
        c ← vget src p;
        if LEGAL_GBK_FIRST_BYTE c then
          if src_len <=? u32 (i + 1) then Ret (to_int dl, dst) else
          d ← vget src (p + 1);
          if LEGAL_GBK_SECOND_BYTE d then convert (p + 2) (u32 (i + 1)) (gbk_char_to_unicode c d)
          else invalid
        else if IS_ASCII (schar c) then convert (p + 1) i c
        else if IS_GBK_EURO c then convert (p + 1) i UCS2_EURO
        else invalid
    end
  else Ret (to_int dl, dst).
Definition gbk_to_utf8 (raw src : list Z) (src_len : Z) (dst : list Z) (dst_size flags : Z) : outcome (Z * list Z) :=
  if dst_size =? 0 then Ret (0, dst)
  else if dst_size <? u32 (src_len / 2 * 3 + 1) then Ret (-1, dst)
  else gbk_to_utf8_loop (Z.to_nat src_len) raw src src_len dst_size flags 0 0 0 0 dst.

(** ** UTF-8 to GBK *)

Definition BytesFromHeader : list Z :=
  replicate 128 1 ++ replicate 64 0 ++ replicate 32 2 ++ replicate 16 3 ++
  [4; 4; 4; 4; 4; 4; 4; 4; 5; 5; 5; 5; 6; 6; 0; 0].
Definition UTF8_HEADER : list Z := [0x00; 0x00; 0xC0; 0xE0; 0xF0; 0xF8; 0xFC].

(** for (; len > 1; len--): the following bytes of a character. *)
Fixpoint utf8_trail (n : nat) (src : list Z) (i tmp : Z) : outcome (Z * Z) :=
  match n with
  | O => Ret (i, tmp)
  | S n =>
      cur ← vget src i;
      utf8_trail n src (u32 (i + 1)) (u16 (Z.lor (Z.shiftl tmp 6) (Z.land cur 0x3F)))
  end.

(** A code unit without a mapping: None returns -1, and the flag tells whether the loop ends. *)
Definition invalid_utf8 (flags rp_char dst_size c dl : Z) (dst : list Z) : outcome (option (bool * Z * list Z)) :=
  if flag flags UCONV_INVCHAR_ENTITES then
    if dst_size <=? u32 (dl + 8) then Ret (Some (true, dl, dst))
    else dst ← put dst dl (entity c); Ret (Some (false, u32 (dl + 8), dst))
  else if flag flags UCONV_INVCHAR_ERROR then Ret None
  else dst ← vset dst dl rp_char; Ret (Some (false, u32 (dl + 1), dst)).

Fixpoint utf8_to_gbk_loop (fuel : nat) (src : list Z) (src_len dst_size flags rp_char : Z)
    (i dl : Z) (dst : list Z) : outcome (Z * list Z) :=
  if (i <? src_len) && (dl <? u32 (dst_size - 1)) then
    match fuel with
    | O => Err OutOfFuel
    | S fuel =>
        let next := utf8_to_gbk_loop fuel src src_len dst_size flags rp_char in
        cur ← vget src i;
        let i := u32 (i + 1) in
        n ← vget BytesFromHeader cur;
        if n =? 0 then next i dl dst
        else if src_len <? u32 (i + n - 1) then terminate dst_size dl dst
        else
          header ← vget UTF8_HEADER n;
          '(i, tmp) ← utf8_trail (Z.to_nat (n - 1)) src i (u16 (Z.land cur (Z.lnot header)));
          if IS_ASCII tmp then
            dst ← vset dst dl (u8 tmp);
            next i (u32 (dl + 1)) dst
          else if dst_size <=? u32 (dl + 2) then terminate dst_size dl dst
          else
            '(gbk, dst) ← unicode_char_to_gbk tmp dst dl;
            if negb (gbk =? 0) then next i (u32 (dl + 2)) dst
            else if IS_UCS2_EURO tmp then
              dst ← vset dst dl GBK_EURO;
              next i (u32 (dl + 1)) dst
            else
              o ← invalid_utf8 flags rp_char dst_size tmp dl dst;
              match o with
              | None => Ret (-1, dst)
              | Some (true, dl, dst) => terminate dst_size dl dst
              | Some (false, dl, dst) => next i dl dst
              end
    end
  else terminate dst_size dl dst.
Definition utf8_to_gbk (src : list Z) (src_len : Z) (dst : list Z) (dst_size flags rp_char : Z) : outcome (Z * list Z) :=
  if dst_size =? 0 then Ret (0, dst)
  else if dst_size <? src_len then Ret (-1, dst)
  else utf8_to_gbk_loop (Z.to_nat src_len) src src_len dst_size flags rp_char 0 0 dst.

(** ** Guessing the encoding *)

(** Two bytes at [p] that are also a GBK character. *)
Definition looks_like_gbk (x y : Z) : bool :=
  (0xC1 <? x) && (x <? 0xD2) && (0x7F <? y) && (y <? 0xC0) &&
  IS_PSEDOUTF8 (u16 ((x - 0xC2) * 64 + (y - 0x80))).

(** The loop with check_last_char: how the scan ended.  [p] is the index of str, which also the
    exits in the middle of a character have moved. *)
Record scan := mk_scan { at_ : Z; flag_ : Z; gbk_or_utf8 : Z; ascii_len : Z }.

Fixpoint is_utf8_last (fuel : nat) (s : list Z) (st : scan) : outcome scan :=
  let '(mk_scan p flag gbk ascii) := st in
  c ← vget s p;
  if c =? 0 then Ret st else
  match fuel with
  | O => Err OutOfFuel
  | S fuel =>
      if IS_UTF8_1ST_OF_1 c then is_utf8_last fuel s (mk_scan (p + 1) flag gbk (u32 (ascii + 1)))
      else if IS_UTF8_1ST_OF_2 c then
        d ← vget s (p + 1);
        if negb (IS_UTF8_2ND_THRU_6TH d) then Ret (mk_scan (p + 1) (if d =? 0 then 2 else flag) gbk ascii)
        else is_utf8_last fuel s (mk_scan (p + 2) 1 (if looks_like_gbk c d then u16 (gbk + 1) else gbk) ascii)
      else if IS_UTF8_1ST_OF_3 c then
        d ← vget s (p + 1);
        if negb (IS_UTF8_2ND_THRU_6TH d) then Ret (mk_scan (p + 1) (if d =? 0 then 2 else flag) gbk ascii) else
        e ← vget s (p + 2);
        if negb (IS_UTF8_2ND_THRU_6TH e) then Ret (mk_scan (p + 1) (if e =? 0 then 2 else 3) gbk ascii)
        else is_utf8_last fuel s (mk_scan (p + 3) 1 gbk ascii)
      else if IS_UTF8_1ST_OF_4 c then
        d ← vget s (p + 1);
        if negb (IS_UTF8_2ND_THRU_6TH d) then Ret (mk_scan (p + 1) (if d =? 0 then 2 else flag) gbk ascii) else
        e ← vget s (p + 2);
        if negb (IS_UTF8_2ND_THRU_6TH e) then Ret (mk_scan (p + 1) (if e =? 0 then 2 else flag) gbk ascii) else
        f ← vget s (p + 3);
        if negb (IS_UTF8_2ND_THRU_6TH f) then Ret (mk_scan (p + 1) (if f =? 0 then 2 else flag) gbk ascii)
        else is_utf8_last fuel s (mk_scan (p + 4) 1 gbk ascii)
      else Ret (mk_scan p 0 gbk ascii)
  end.

(** The other loop; None: return 0. *)
Fixpoint is_utf8_strict (fuel : nat) (s : list Z) (st : scan) : outcome (option scan) :=
  let '(mk_scan p flag gbk ascii) := st in
  c ← vget s p;
  if c =? 0 then Ret (Some st) else
  match fuel with
  | O => Err OutOfFuel
  | S fuel =>
      if IS_UTF8_1ST_OF_1 c then is_utf8_strict fuel s (mk_scan (p + 1) flag gbk (u32 (ascii + 1)))
      else if IS_UTF8_1ST_OF_2 c then
        d ← vget s (p + 1);
        if negb (IS_UTF8_2ND_THRU_6TH d) then Ret None
        else is_utf8_strict fuel s (mk_scan (p + 2) 1 (if looks_like_gbk c d then u16 (gbk + 1) else gbk) ascii)
      else if IS_UTF8_1ST_OF_3 c then
        d ← vget s (p + 1);
        if negb (IS_UTF8_2ND_THRU_6TH d) then Ret None else
        e ← vget s (p + 2);
        if negb (IS_UTF8_2ND_THRU_6TH e) then Ret None
        else is_utf8_strict fuel s (mk_scan (p + 3) 1 gbk ascii)
      else if IS_UTF8_1ST_OF_4 c then
        d ← vget s (p + 1);
        if negb (IS_UTF8_2ND_THRU_6TH d) then Ret None else
        e ← vget s (p + 2);
        if negb (IS_UTF8_2ND_THRU_6TH e) then Ret None else
        f ← vget s (p + 3);
        if negb (IS_UTF8_2ND_THRU_6TH f) then Ret None
        else is_utf8_strict fuel s (mk_scan (p + 4) 1 gbk ascii)
      else Ret None
  end.

(** What the scan says, for a text of [n] bytes. *)
Definition is_utf8_verdict (st : scan) (n : Z) (check_last_char : bool) : Z :=
  let '(mk_scan str flag gbk ascii) := st in
  if negb (gbk =? 0) && (u32 (Z.shiftl gbk 1) =? u32 (n - ascii)) then 0 else
  let '(str, flag) :=
    if (flag =? 2) && (4 <? u32 (n - ascii)) && check_last_char then
      let str := if 0 <? str then str - 1 else str in
      if n <=? u32 (str + 4) then (str, 1) else (str, flag)
    else (str, flag) in
  if flag =? 1 then to_int (u32 str) else 0.
Definition is_utf8 (src : list Z) (n : Z) (check_last_char : bool) : outcome Z :=
  c ← vget src 0;
  if c =? 0 then Ret 0 else
  if check_last_char then
    st ← is_utf8_last (len src) src (mk_scan 0 0 0 0);
    Ret (is_utf8_verdict st n true)
  else
    o ← is_utf8_strict (len src) src (mk_scan 0 0 0 0);
    Ret (match o with None => 0 | Some st => is_utf8_verdict st n false end).

Fixpoint is_gbk_loop (fuel : nat) (src : list Z) (p : Z) : outcome bool :=
  c ← vget src p;
  if c =? 0 then Ret true else
  match fuel with
  | O => Err OutOfFuel
  | S fuel =>
      if LEGAL_GBK_FIRST_BYTE c then
        d ← vget src (p + 1);
        if d =? 0 then Ret true
        else if LEGAL_GBK_SECOND_BYTE d then is_gbk_loop fuel src (p + 2)
        else Ret false
      else if IS_ASCII (schar c) || IS_GBK_EURO c then is_gbk_loop fuel src (p + 1)
      else Ret false
  end.
Definition is_gbk (src : list Z) : outcome bool :=
  c ← vget src 0;
  if c =? 0 then Ret false else is_gbk_loop (len src) src 0.

Fixpoint is_gbk_n_loop (fuel : nat) (src : list Z) (p length : Z) : outcome bool :=
  c ← vget src p;
  if (c =? 0) || negb (0 <? length) then Ret true else
  match fuel with
  | O => Err OutOfFuel
  | S fuel =>
      if LEGAL_GBK_FIRST_BYTE c then
        d ← vget src (p + 1);
        if d =? 0 then Ret true
        else if LEGAL_GBK_SECOND_BYTE d then is_gbk_n_loop fuel src (p + 2) (length - 2)
        else Ret false
      else if IS_ASCII (schar c) || IS_GBK_EURO c then is_gbk_n_loop fuel src (p + 1) (length - 1)
      else Ret false
  end.
Definition is_gbk_n (src : list Z) (length : Z) : outcome bool :=
  c ← vget src 0;
  if c =? 0 then Ret false else is_gbk_n_loop (len src) src 0 length.
End Uconv.
