(* ===== verification/UconvProof.v ===== *)
(** What the conversions of enc/uconv.cpp do: they stay within their arrays for any input, and
    text that has a mapping comes back. *)
From S2P Require Import Prelude UconvTables Uconv.

Module UconvProof.
Import Uconv.
#[local] Abbreviation len := List.length.

(** ** Arrays as what is behind and what is ahead of an index *)

Definition size (l : list Z) : Z := Z.of_nat (len l).

Lemma size_app l k : size (l ++ k) = size l + size k.
Proof. unfold size. rewrite length_app. lia. Qed.
Lemma size_cons x l : size (x :: l) = 1 + size l.
Proof. unfold size. cbn. lia. Qed.
Lemma size_nil : size [] = 0.
Proof. done. Qed.
Lemma size_pos l : 0 ≤ size l.
Proof. unfold size. lia. Qed.
Hint Rewrite size_app size_cons size_nil : size.
Ltac sizes := autorewrite with size in *; repeat match goal with l : list Z |- _ => lazymatch goal with H : 0 ≤ size l |- _ => fail | _ => pose proof (size_pos l) end end; try lia.

Lemma vget_at pre x post : vget (pre ++ x :: post) (size pre) = Ret x.
Proof. apply vget_ret. unfold size. rewrite Nat2Z.id. split; [lia|]. rewrite lookup_app_r by lia. by rewrite Nat.sub_diag. Qed.
Lemma vget_next pre x y post i : i = size pre + 1 → vget (pre ++ x :: y :: post) i = Ret y.
Proof.
  intros ->. rewrite <- (vget_at (pre ++ [x]) y post). rewrite <- app_assoc. f_equal. sizes.
Qed.
Lemma vset_at pre x y post : vset (pre ++ x :: post) (size pre) y = Ret (pre ++ y :: post).
Proof.
  apply vset_ret. unfold size. rewrite Nat2Z.id, length_app. cbn. split; [lia|]. by rewrite insert_app_r_alt, Nat.sub_diag by lia.
Qed.

(** ** GBK to UTF-16 *)

(** The characters of a text: a code unit, or nothing for an invalid byte; half a character at the
    end is dropped. *)
Fixpoint gbk_items (s : list Z) : list (option Z) :=
  match s with
  | [] => []
  | c :: rest =>
      if LEGAL_GBK_FIRST_BYTE c then
        match rest with
        | [] => []
        | d :: rest' =>
            if LEGAL_GBK_SECOND_BYTE d then Some (gbk_char_to_unicode c d) :: gbk_items rest'
            else None :: gbk_items rest
        end
      else if IS_ASCII (schar c) then Some c :: gbk_items rest
      else if IS_GBK_EURO c then Some UCS2_EURO :: gbk_items rest
      else None :: gbk_items rest
  end.

(** What is written over [old]. *)
Fixpoint fill (flags : Z) (items : list (option Z)) (old : list Z) : list Z :=
  match items, old with
  | item :: items, o :: old =>
      match item with
      | Some u => u
      | None => if flag flags UCONV_INVCHAR_REPLACE then UCS2_NO_MAPPING else o
      end :: fill flags items old
  | _, _ => old
  end.
Lemma fill_size flags items old : size (fill flags items old) = size old.
Proof. revert old. induction items as [|[]]; intros [|o old]; cbn; autorewrite with size; try done; by rewrite IHitems. Qed.

Definition bad (item : option Z) : bool := match item with None => true | _ => false end.

(** The result for the items ahead, in the [old] part of the destination. *)
Definition converts (flags : Z) (items : list (option Z)) (pre old : list Z) (o : outcome (Z * list Z)) : Prop :=
  if flag flags UCONV_INVCHAR_ERROR && existsb bad (take (len old) items)
  then ∃ dst, o = Ret (-1, dst) ∧ size dst = size (pre ++ old)
  else o = Ret (size pre + Z.of_nat (len items `min` len old), pre ++ fill flags items old).

Lemma converts_good flags u items pre x old o :
  converts flags items (pre ++ [u]) old o → converts flags (Some u :: items) pre (x :: old) o.
Proof.
  unfold converts. cbn [len take existsb bad orb fill]. destruct (_ && _).
  - intros (dst & -> & Hd). exists dst. split; [done|]. rewrite Hd. sizes.
  - intros ->. rewrite <- app_assoc. do 2 f_equal. sizes.
Qed.
Lemma converts_bad flags items pre x old o (k : list Z → outcome (Z * list Z)) :
  (∀ v, converts flags items (pre ++ [v]) old (k (pre ++ v :: old))) →
  o = (q ← CHK_FLG flags (pre ++ x :: old) (size pre);
       match q with None => Ret (-1, pre ++ x :: old) | Some dst => k dst end) →
  converts flags (None :: items) pre (x :: old) o.
Proof.
  intros Hk ->. unfold CHK_FLG. destruct (flag flags UCONV_INVCHAR_ERROR) eqn:E.
  - unfold converts. rewrite E. cbn. eauto.
  - destruct (flag flags UCONV_INVCHAR_REPLACE) eqn:R.
    + rewrite vset_at. cbn [mbind outcome_bind]. specialize (Hk UCS2_NO_MAPPING). unfold converts in *. rewrite E in *. cbn [andb] in *. rewrite Hk.
      cbn [fill len]. rewrite R, <- app_assoc. do 2 f_equal. sizes.
    + cbn [mbind outcome_bind]. specialize (Hk x). unfold converts in *. rewrite E in *. cbn [andb] in *. rewrite Hk.
      cbn [fill len]. rewrite R, <- app_assoc. do 2 f_equal. sizes.
Qed.

Lemma to_int_small x : x < 2 ^ 31 → to_int x = x.
Proof. intros Hx. unfold to_int. by rewrite (proj2 (Z.ltb_lt _ _) Hx). Qed.

Lemma converts_nil flags pre old : size (pre ++ old) < 2 ^ 31 → converts flags [] pre old (Ret (to_int (size pre), pre ++ old)).
Proof. intros H. unfold converts. rewrite take_nil. cbn. rewrite andb_false_r, to_int_small by sizes. do 2 f_equal. lia. Qed.
Lemma converts_full flags items pre : size (pre ++ []) < 2 ^ 31 → converts flags items pre [] (Ret (to_int (size pre), pre ++ [])).
Proof.
  intros H. unfold converts. cbn [take len existsb]. rewrite andb_false_r, Nat.min_0_r, to_int_small by sizes.
  do 2 f_equal; [lia|]. by destruct items.
Qed.

(** One character further. *)
Lemma shift_src (sp : list Z) c rest : sp ++ c :: rest = (sp ++ [c]) ++ rest.
Proof. by rewrite <- app_assoc. Qed.

Section ToUnicode.
Context (fuel : nat) (flags : Z) (src dst : list Z).
Hypothesis IH : ∀ sp rest pre old, src = sp ++ rest → size (pre ++ old) = size dst → (len rest ≤ fuel)%nat →
  converts flags (gbk_items rest) pre old
    (gbk_to_unicode_loop fuel src (size src) (size dst) flags (size sp) (size sp) (size pre) (pre ++ old)).

Lemma to_unicode_next sp seen rest pre v old p i dl : src = (sp ++ seen) ++ rest → size (pre ++ v :: old) = size dst → (len rest ≤ fuel)%nat →
  p = size (sp ++ seen) → i = size (sp ++ seen) → dl = size pre + 1 →
  converts flags (gbk_items rest) (pre ++ [v]) old
    (gbk_to_unicode_loop fuel src (size src) (size dst) flags p i dl (pre ++ v :: old)).
Proof.
  intros E Ed Hf -> -> ->. rewrite (shift_src pre v old).
  replace (size pre + 1) with (size (pre ++ [v])) by sizes. apply IH; [done| |done]. sizes.
Qed.
End ToUnicode.

Ltac step_src := try done; try (by rewrite <- app_assoc); try (cbn in *; lia);
  try (rewrite ?u32_small; subst; sizes).

Lemma gbk_to_unicode_loop_spec fuel flags src dst : size src < 2 ^ 31 → size dst < 2 ^ 31 → ∀ sp rest pre old,
  src = sp ++ rest → size (pre ++ old) = size dst → (len rest ≤ fuel)%nat →
  converts flags (gbk_items rest) pre old
    (gbk_to_unicode_loop fuel src (size src) (size dst) flags (size sp) (size sp) (size pre) (pre ++ old)).
Proof.
  intros Hs Hd. induction fuel as [|fuel IH]; intros sp rest pre old E Ed Hf; cbn [gbk_to_unicode_loop].
  { destruct rest; [|cbn in Hf; lia]. rewrite E, app_nil_r, Z.ltb_irrefl. apply converts_nil. lia. }
  destruct rest as [|c rest].
  { rewrite E, app_nil_r, Z.ltb_irrefl. apply converts_nil. lia. }
  destruct old as [|x old].
  { rewrite <- Ed at 1. rewrite app_nil_r, Z.ltb_irrefl, andb_false_r. rewrite <- (app_nil_r pre) at 3. apply converts_full. lia. }
  assert (size sp < size src ∧ size pre < size dst) as [H1 H2] by (rewrite E, <- Ed; sizes).
  rewrite (proj2 (Z.ltb_lt _ _) H1), (proj2 (Z.ltb_lt _ _) H2). cbn [andb]. rewrite E at 1. rewrite vget_at. cbn [mbind outcome_bind gbk_items].
  assert (len rest ≤ fuel)%nat by (cbn in Hf; lia).
  destruct (LEGAL_GBK_FIRST_BYTE c) eqn:Ec.
  - destruct rest as [|d rest].
    { rewrite u32_small, (proj2 (Z.leb_le _ _)) by (rewrite E in *; sizes). apply converts_nil. lia. }
    rewrite u32_small, (proj2 (Z.leb_gt _ _)) by (rewrite E in *; sizes). rewrite E at 1. rewrite (vget_next sp c d rest) by done.
    cbn [mbind outcome_bind]. destruct (LEGAL_GBK_SECOND_BYTE d).
    + rewrite vset_at. cbn [mbind outcome_bind]. apply converts_good.
      apply (to_unicode_next fuel flags src dst IH sp [c; d]); step_src.
    + eapply (converts_bad flags (gbk_items (d :: rest))); [|reflexivity]. intros v.
      apply (to_unicode_next fuel flags src dst IH sp [c]); step_src.
  - destruct (IS_ASCII (schar c)); [|destruct (IS_GBK_EURO c)].
    + rewrite vset_at. cbn [fmap outcome_fmap mbind outcome_bind]. apply converts_good.
      apply (to_unicode_next fuel flags src dst IH sp [c]); step_src.
    + rewrite vset_at. cbn [fmap outcome_fmap mbind outcome_bind]. apply converts_good.
      apply (to_unicode_next fuel flags src dst IH sp [c]); step_src.
    + eapply converts_bad; [|reflexivity]. intros v.
      apply (to_unicode_next fuel flags src dst IH sp [c]); step_src.
Qed.

Lemma gbk_to_unicode_spec flags src dst : size src < 2 ^ 31 → size dst < 2 ^ 31 →
  converts flags (gbk_items src) [] dst (gbk_to_unicode src (size src) dst (size dst) flags).
Proof.
  intros Hs Hd. unfold gbk_to_unicode. destruct (Z.eqb_spec (size dst) 0) as [E|E].
  - destruct dst; [|sizes]. by apply (converts_full flags (gbk_items src) []).
  - apply (gbk_to_unicode_loop_spec _ flags src dst Hs Hd [] src [] dst); [done|done|]. unfold size. by rewrite Nat2Z.id.
Qed.

(** ** Text that is written unit by unit *)

(** What happens at a unit when there is room for [room] bytes. *)
Inductive step := Stop | Fail | Emit (bytes : list Z).

Fixpoint emits {A} (at_unit : Z → A → step) (reserve : Z) (units : list A) (room : Z) : option (list Z) :=
  match units with
  | [] => Some []
  | u :: units =>
      if room <=? reserve then Some [] else
      match at_unit room u with
      | Stop => Some []
      | Fail => None
      | Emit bytes => app bytes <$> emits at_unit reserve units (room - size bytes)
      end
  end.

(** The bytes are written behind [pre], a final NUL included; what is behind it is not
    specified. *)
Definition terminated (pre old : list Z) (bytes : option (list Z)) (o : outcome (Z * list Z)) : Prop :=
  match bytes with
  | None => ∃ dst, o = Ret (-1, dst) ∧ size dst = size (pre ++ old)
  | Some bytes => ∃ tail, o = Ret (size (pre ++ bytes), pre ++ bytes ++ 0 :: tail) ∧
      size (pre ++ bytes ++ 0 :: tail) = size (pre ++ old)
  end.

Lemma terminated_emit pre old old' written bytes o : size old = size (written ++ old') →
  terminated (pre ++ written) old' bytes o → terminated pre old (app written <$> bytes) o.
Proof.
  intros Ho. destruct bytes as [bytes|]; cbn.
  - intros (tail & -> & H). exists tail. rewrite <- !app_assoc in *. split; [done|]. rewrite H. sizes.
  - intros (dst & -> & H). exists dst. split; [done|]. rewrite H. sizes.
Qed.

Lemma put_at pre y bytes old : len bytes = len old → put (pre ++ old ++ y) (size pre) bytes = Ret (pre ++ bytes ++ y).
Proof.
  revert pre old. induction bytes as [|b bytes IH]; intros pre [|o old] Hl; try done.
  cbn [put app]. rewrite vset_at. cbn [mbind outcome_bind]. rewrite shift_src.
  replace (size pre + 1) with (size (pre ++ [b])) by sizes. rewrite IH by (cbn in Hl; lia). by rewrite <- app_assoc.
Qed.

Lemma terminate_spec pre old dst_size : dst_size = size (pre ++ old) → size (pre ++ old) < 2 ^ 31 → 0 < size old →
  terminated pre old (Some []) (terminate dst_size (size pre) (pre ++ old)).
Proof.
  intros -> H31 Ho. destruct old as [|x old]; [done|]. unfold terminate. rewrite (proj2 (Z.leb_gt _ _)) by sizes.
  rewrite vset_at. cbn [mbind outcome_bind]. rewrite to_int_small by sizes. exists old. cbn. rewrite app_nil_r. split; [done|]. sizes.
Qed.

(** ** UTF-16 to GBK *)

Definition encode (invalid : Z → Z → step) (room c : Z) : step :=
  let gbk := gUnicodeToGBKTable c in
  if IS_ASCII c then Emit [u8 c]
  else if room <=? 2 then Stop
  else if negb (gbk =? 0) then Emit [u8 (Z.shiftr gbk 8); Z.land gbk 0xff]
  else if IS_UCS2_EURO c then Emit [GBK_EURO]
  else invalid room c.
Definition invalid_unit (flags replace_char room c : Z) : step :=
  if flags =? UCONV_INVCHAR_REPLACE then
    Emit (if replace_char <? 256 then [replace_char] else [u8 (Z.shiftr replace_char 8); Z.land replace_char 0xff])
  else if flags =? UCONV_INVCHAR_ERROR then Fail
  else if flags =? UCONV_INVCHAR_ENTITES then Emit (if room <=? 8 then [] else entity c)
  else Emit [].

(** Room for bytes in front of what is left. *)
Lemma room_split n (old : list Z) : (n ≤ len old)%nat → ∃ w old', old = w ++ old' ∧ len w = n.
Proof. intros Hn. exists (take n old), (drop n old). rewrite take_drop, length_take. split; [done|lia]. Qed.

Lemma put_room (pre written old : list Z) : (len written ≤ len old)%nat →
  ∃ old', put (pre ++ old) (size pre) written = Ret ((pre ++ written) ++ old') ∧ size old = size (written ++ old').
Proof.
  intros (w & old' & -> & Hw)%room_split. exists old'. rewrite (put_at pre old' written w) by done. split; [by rewrite app_assoc|].
  sizes. unfold size. lia.
Qed.

Lemma unicode_char_to_gbk_spec c pre x y old : unicode_char_to_gbk c (pre ++ x :: y :: old) (size pre) =
  Ret (gUnicodeToGBKTable c, pre ++ u8 (Z.shiftr (gUnicodeToGBKTable c) 8) :: Z.land (gUnicodeToGBKTable c) 0xff :: old).
Proof.
  unfold unicode_char_to_gbk. rewrite vset_at. cbn [mbind outcome_bind]. rewrite shift_src.
  replace (size pre + 1) with (size (pre ++ [u8 (Z.shiftr (gUnicodeToGBKTable c) 8)])) by sizes. rewrite vset_at. cbn [mbind outcome_bind].
  by rewrite <- app_assoc.
Qed.

(** One unit: [next] goes on behind what was written, and [inv] treats a unit without a mapping,
    when there is room for more than two bytes. *)
Lemma encode_spec invalid next inv c units pre old dst_size : dst_size = size (pre ++ old) → size (pre ++ old) < 2 ^ 31 → 1 < size old →
  (∀ bytes old', size old = size (bytes ++ old') → 0 < size old' →
    terminated pre old (app bytes <$> emits (encode invalid) 1 units (size old - size bytes)) (next (size pre + size bytes) ((pre ++ bytes) ++ old'))) →
  (∀ old', size old' = size old → 2 < size old → IS_ASCII c = false →
    terminated pre old match invalid (size old) c with
      | Stop => Some []
      | Fail => None
      | Emit bytes => app bytes <$> emits (encode invalid) 1 units (size old - size bytes)
      end (inv (pre ++ old'))) →
  terminated pre old (emits (encode invalid) 1 (c :: units) (size old))
    (if IS_ASCII c then
       dst ← vset (pre ++ old) (size pre) (u8 c);
       next (u32 (size pre + 1)) dst
     else if dst_size <=? u32 (size pre + 2) then terminate dst_size (size pre) (pre ++ old)
     else
       '(gbk, dst) ← unicode_char_to_gbk c (pre ++ old) (size pre);
       if negb (gbk =? 0) then next (u32 (size pre + 2)) dst
       else if IS_UCS2_EURO c then
         dst ← vset dst (size pre) GBK_EURO;
         next (u32 (size pre + 1)) dst
       else inv dst).
Proof.
  intros Es H31 Hr Hnext Hinv. cbn [emits]. rewrite (proj2 (Z.leb_gt _ _) Hr). unfold encode at 1.
  rewrite !u32_small by sizes. destruct (IS_ASCII c) eqn:Ea.
  { destruct old as [|x old]; [done|]. rewrite vset_at. cbn [mbind outcome_bind]. rewrite shift_src. apply (Hnext [u8 c] old); sizes. }
  destruct (Z.leb_spec (size old) 2) as [Hr2|Hr2].
  { rewrite (proj2 (Z.leb_le _ _)) by sizes. apply terminate_spec; [done|lia|lia]. }
  rewrite (proj2 (Z.leb_gt _ _)) by sizes. destruct old as [|x [|y old]]; [done|done|]. rewrite unicode_char_to_gbk_spec. cbn [mbind outcome_bind].
  set (gbk := gUnicodeToGBKTable c). set (x' := u8 _). set (y' := Z.land _ _). destruct (negb (gbk =? 0)).
  { change (pre ++ x' :: y' :: old) with (pre ++ [x'; y'] ++ old). rewrite app_assoc. apply (Hnext [x'; y'] old); sizes. }
  destruct (IS_UCS2_EURO c).
  { rewrite vset_at. cbn [mbind outcome_bind]. rewrite (shift_src pre). apply (Hnext [GBK_EURO] (y' :: old)); sizes. }
  specialize (Hinv (x' :: y' :: old)). destruct (invalid _ c); apply Hinv; sizes.
Qed.

(** A unit without a mapping, when there is room for more than two bytes. *)
Lemma invalid_to_gbk_spec flags replace_char c pre old : size (pre ++ old) < 2 ^ 31 → 2 < size old →
  match invalid_unit flags replace_char (size old) c with
  | Stop => False
  | Fail => invalid_to_gbk flags replace_char (size (pre ++ old)) c (size pre) (pre ++ old) = Ret None
  | Emit written => ∃ old', invalid_to_gbk flags replace_char (size (pre ++ old)) c (size pre) (pre ++ old)
      = Ret (Some (size written, (pre ++ written) ++ old')) ∧ size old = size (written ++ old') ∧ 0 < size old'
  end.
Proof.
  intros H31 Ho. unfold invalid_unit, invalid_to_gbk. destruct (flags =? UCONV_INVCHAR_REPLACE); [|destruct (flags =? UCONV_INVCHAR_ERROR)].
  - destruct (replace_char <? 256).
    + destruct (put_room pre [replace_char] old) as (old' & -> & E); [unfold size in *; cbn; lia|]. exists old'. split; [done|]. sizes.
    + destruct (put_room pre [u8 (Z.shiftr replace_char 8); Z.land replace_char 0xff] old) as (old' & -> & E); [unfold size in *; cbn; lia|].
      exists old'. split; [done|]. sizes.
  - done.
  - destruct (flags =? UCONV_INVCHAR_ENTITES); [|exists old; rewrite app_nil_r; split; [done|sizes]].
    rewrite u32_small by sizes. destruct (Z.leb_spec (size old) 8).
    + rewrite (proj2 (Z.leb_le _ _)) by sizes. exists old. rewrite app_nil_r. split; [done|sizes].
    + rewrite (proj2 (Z.leb_gt _ _)) by sizes. destruct (put_room pre (entity c) old) as (old' & -> & E); [unfold size in *; cbn; lia|].
      exists old'. split; [done|]. unfold entity in *. sizes.
Qed.

Lemma unicode_to_gbk_loop_spec fuel flags replace_char src dst : size src < 2 ^ 31 → size dst < 2 ^ 31 → ∀ sp rest pre old,
  src = sp ++ rest → size (pre ++ old) = size dst → 0 < size old → (len rest ≤ fuel)%nat →
  terminated pre old (emits (encode (invalid_unit flags replace_char)) 1 rest (size old))
    (unicode_to_gbk_loop fuel src (size src) (size dst) flags replace_char (size sp) (size pre) (pre ++ old)).
Proof.
  intros Hs Hd. induction fuel as [|fuel IH]; intros sp rest pre old E Ed Ho Hf; cbn [unicode_to_gbk_loop].
  { destruct rest; [|cbn in Hf; lia]. rewrite E, app_nil_r, Z.ltb_irrefl. apply terminate_spec; [done|lia|done]. }
  destruct rest as [|c rest].
  { rewrite E, app_nil_r, Z.ltb_irrefl. apply terminate_spec; [done|lia|done]. }
  rewrite (proj2 (Z.ltb_lt _ _)) by (rewrite E; sizes). rewrite (u32_small (size dst - 1)) by sizes. cbn [andb].
  destruct (Z.leb_spec (size old) 1) as [Hr|Hr].
  { cbn [emits]. rewrite (proj2 (Z.leb_le _ _) Hr), (proj2 (Z.ltb_ge _ _)) by sizes. apply terminate_spec; [done|lia|done]. }
  rewrite (proj2 (Z.ltb_lt _ _)) by sizes. rewrite E at 1. rewrite vget_at. cbn [mbind outcome_bind].
  assert (Hnext : ∀ bytes old', size old = size (bytes ++ old') → 0 < size old' →
    terminated pre old (app bytes <$> emits (encode (invalid_unit flags replace_char)) 1 rest (size old - size bytes))
      (unicode_to_gbk_loop fuel src (size src) (size dst) flags replace_char (u32 (size sp + 1)) (size pre + size bytes) ((pre ++ bytes) ++ old'))).
  { intros bytes old' Eo Ho'. apply (terminated_emit pre old old'); [done|].
    replace (size old - size bytes) with (size old') by sizes. rewrite !u32_small by (rewrite ?E in *; sizes).
    replace (size sp + 1) with (size (sp ++ [c])) by sizes. rewrite <- (size_app pre bytes).
    apply IH; [by rewrite E, <- app_assoc|sizes|done|cbn in Hf; lia]. }
  apply (encode_spec _ (unicode_to_gbk_loop fuel src (size src) (size dst) flags replace_char (u32 (size sp + 1)))
    (fun dst' => o ← invalid_to_gbk flags replace_char (size dst) c (size pre) dst';
       match o with
       | None => Ret (-1, dst')
       | Some (n, dst') => unicode_to_gbk_loop fuel src (size src) (size dst) flags replace_char (u32 (size sp + 1)) (u32 (size pre + n)) dst'
       end)); [done|lia|done|done|].
  intros old2 E2 Ho2 _. pose proof (invalid_to_gbk_spec flags replace_char c pre old2) as Hinv.
  replace (size (pre ++ old2)) with (size dst) in Hinv by (rewrite <- Ed; sizes). rewrite E2 in Hinv. specialize (Hinv ltac:(lia) ltac:(lia)).
  destruct (invalid_unit flags replace_char (size old) c) as [| |bytes]; [done|..].
  - rewrite Hinv. cbn [mbind outcome_bind]. eexists. split; [done|]. sizes.
  - destruct Hinv as (old' & -> & Eo & Ho'). cbn [mbind outcome_bind]. rewrite (u32_small (size pre + size bytes)) by sizes. apply Hnext; [|done]. sizes.
Qed.

Lemma unicode_to_gbk_spec flags replace_char src dst : size src < 2 ^ 31 → 0 < size dst < 2 ^ 31 →
  terminated [] dst (emits (encode (invalid_unit flags replace_char)) 1 src (size dst))
    (unicode_to_gbk src (size src) dst (size dst) flags replace_char).
Proof.
  intros Hs Hd. unfold unicode_to_gbk. rewrite (proj2 (Z.eqb_neq _ _)) by lia.
  apply (unicode_to_gbk_loop_spec _ flags replace_char src dst Hs ltac:(lia) [] src [] dst); [done|done|lia|]. unfold size. by rewrite Nat2Z.id.
Qed.
End UconvProof.
