(* ===== verification/UconvUtf8.v ===== *)
(** UTF-8 in enc/uconv.cpp: the conversions from and to GBK. *)
From S2P Require Import Prelude Conv Json JsonText UconvTables Uconv UconvProof.

Module UconvUtf8.
Import Uconv UconvProof.
#[local] Abbreviation len := List.length.

(** lia with quotients and remainders. *)
Ltac dlia := Z.div_mod_to_equations; lia.

(** ** One character *)

Definition utf8 (u : Z) : list Z := if u =? 0 then [] else Json.codePointToUtf8 u.

Lemma utf8_1 u : 0 < u < 128 → utf8 u = [u].
Proof. intros Hu. unfold utf8. rewrite (proj2 (Z.eqb_neq _ _)) by lia. apply JsonText.utf8_one. lia. Qed.
Lemma utf8_2 u : 128 ≤ u < 2048 → utf8 u = [0xC0 + u / 64; 0x80 + u mod 64].
Proof. intros Hu. unfold utf8. rewrite (proj2 (Z.eqb_neq _ _)) by lia. apply JsonText.utf8_two. lia. Qed.
Lemma utf8_3 u : 2048 ≤ u < 65536 → utf8 u = [0xE0 + u / 64 / 64; 0x80 + u / 64 mod 64; 0x80 + u mod 64].
Proof. intros Hu. unfold utf8. rewrite (proj2 (Z.eqb_neq _ _)) by lia. apply JsonText.utf8_three. lia. Qed.

(** The bits that mark the bytes. *)
Lemma trail_bits x : 0 ≤ x < 64 → u8 (Z.lor x 0x80) = 0x80 + x.
Proof. intros Hx. pose proof (JsonText.byte_case (fun x => u8 (Z.lor x 0x80) =? 0x80 + x) 64 ltac:(by vm_compute) x Hx) as E. cbn beta in E. lia. Qed.
Lemma lead2_bits x : 0 ≤ x < 32 → Z.lor (0x80 + x) 0xc0 = 0xC0 + x.
Proof. intros Hx. pose proof (JsonText.byte_case (fun x => Z.lor (0x80 + x) 0xc0 =? 0xC0 + x) 32 ltac:(by vm_compute) x Hx) as E. cbn beta in E. lia. Qed.
Lemma lead3_bits x : 0 ≤ x < 16 → Z.lor (0x80 + x) 0xe0 = 0xE0 + x.
Proof. intros Hx. pose proof (JsonText.byte_case (fun x => Z.lor (0x80 + x) 0xe0 =? 0xE0 + x) 16 ltac:(by vm_compute) x Hx) as E. cbn beta in E. lia. Qed.

Lemma utf8_groups_0 fuel word j : utf8_groups fuel word j 0 = Ret (word, j).
Proof. by destruct fuel. Qed.
Lemma utf8_groups_S fuel word j u : u ≠ 0 → utf8_groups (S fuel) word j u =
  (word ← vset word j (0x80 + u mod 64); utf8_groups fuel word (j - 1) (u / 64)).
Proof.
  intros Hu. cbn [utf8_groups]. rewrite (proj2 (Z.eqb_neq _ _)) by done. rewrite (Z.land_comm u), JsonText.low_bits.
  rewrite trail_bits by dlia. by rewrite Z.shiftr_div_pow2 by lia.
Qed.

Lemma c_str_cons b s : b ≠ 0 → c_str (b :: s) = b :: c_str s.
Proof. intros Hb. cbn. by rewrite (proj2 (Z.eqb_neq _ _) Hb). Qed.

Section Word.
Context (a b c d e x : Z).
Lemma vset2 : vset [a; b; c; d; e] 1 x = Ret [a; x; c; d; e].
Proof. done. Qed.
Lemma vset3 : vset [a; b; c; d; e] 2 x = Ret [a; b; x; d; e].
Proof. done. Qed.
Lemma vset4 : vset [a; b; c; d; e] 3 x = Ret [a; b; c; x; e].
Proof. done. Qed.
End Word.

(** unicode_char_to_utf8 is codePointToUtf8 of util/Unicode.cpp, apart from U+0000 and from the
    units whose highest group of six bits is 0. *)
Definition encodable (u : Z) : Prop := 0 ≤ u < 65536 ∧ ¬ (0x800 ≤ u < 0x1000).
Lemma unicode_char_to_utf8_spec raw u : len raw = 5%nat → encodable u → unicode_char_to_utf8 raw u = Ret (size (utf8 u), utf8 u).
Proof.
  intros Hr [Hu Hg]. destruct raw as [|r0 [|r1 [|r2 [|r3 [|r4 [|]]]]]]; try done. unfold unicode_char_to_utf8. cbn [vset]. cbn [mbind outcome_bind].
  change (vset [r0; r1; r2; r3; r4] 4 0) with (Ret [r0; r1; r2; r3; 0]). cbn [mbind outcome_bind].
  destruct (Z.eqb_spec u 0) as [->|H0]; [done|]. destruct (Z.ltb_spec u 128); [by rewrite utf8_1 by lia|].
  rewrite utf8_groups_S by lia. rewrite vset4. cbn [mbind outcome_bind]. rewrite utf8_groups_S by dlia. rewrite vset3.
  cbn [mbind outcome_bind]. destruct (Z.ltb_spec u 2048).
  - replace (u / 64 / 64) with 0 by dlia. rewrite utf8_groups_0, utf8_2 by lia.
    replace (u / 64 mod 64) with (u / 64) by dlia. rewrite <- (lead2_bits (u / 64)) by dlia.
    assert (Z.lor (128 + u / 64) 192 ≠ 0) by (rewrite lead2_bits; dlia). assert (128 + u mod 64 ≠ 0) by dlia.
    remember (128 + u / 64) as x. remember (128 + u mod 64) as y. cbv -[Z.lor c_str]. by rewrite !c_str_cons by done.
  - rewrite utf8_groups_S by dlia. rewrite vset2. cbn [mbind outcome_bind]. replace (u / 64 / 64 / 64) with 0 by dlia.
    rewrite utf8_groups_0, utf8_3 by lia. replace (u / 64 / 64 mod 64) with (u / 64 / 64) by dlia. rewrite <- (lead3_bits (u / 64 / 64)) by dlia.
    assert (Z.lor (128 + u / 64 / 64) 224 ≠ 0) by (rewrite lead3_bits; dlia). assert (128 + u mod 64 ≠ 0) by dlia. assert (128 + u / 64 mod 64 ≠ 0) by dlia.
    remember (128 + u / 64 / 64) as x. remember (128 + u mod 64) as y. remember (128 + u / 64 mod 64) as z.
    cbv -[Z.lor c_str]. by rewrite !c_str_cons by done.
Qed.

(** Those are written as two bytes, which is not UTF-8: U+0915 is E0 A4 95. *)
Lemma unicode_char_to_utf8_short : unicode_char_to_utf8 [0; 0; 0; 0; 0] 0x915 = Ret (2, [0xE4; 0x95]) ∧
  Json.codePointToUtf8 0x915 = [0xE0; 0xA4; 0x95].
Proof. by vm_compute. Qed.

(** ** The tables *)

(** Characters without a mapping, and those whose mapping has another way back. *)
Definition unmapped : list (Z * Z) :=
  [(0xa2, 0xab); (0xa2, 0xac); (0xa2, 0xad); (0xa2, 0xae); (0xa2, 0xaf); (0xa2, 0xb0); (0xa2, 0xe3); (0xa2, 0xe4);
   (0xa2, 0xef); (0xa2, 0xf0); (0xa2, 0xfd); (0xa2, 0xfe)].
Definition mismatched : list (Z * Z) :=
  [(0xa3, 0xa0); (0xfe, 0x5b); (0xfe, 0x6a); (0xfe, 0x6b); (0xfe, 0x6c); (0xfe, 0x6d); (0xfe, 0x6e); (0xfe, 0x6f);
   (0xfe, 0x82); (0xfe, 0x8e); (0xfe, 0x98)].

Definition in_pairs (a b : Z) (l : list (Z * Z)) : bool := existsb (fun '(x, y) => (a =? x) && (b =? y)) l.
Definition entry_ok (a b : Z) : bool :=
  let u := gbk_char_to_unicode a b in
  (128 <=? u) && (u <? 65536) && ((u <? 0x800) || (0x1000 <=? u)) &&
  if in_pairs a b unmapped then u =? UCS2_NO_MAPPING
  else if in_pairs a b mismatched then negb (gUnicodeToGBKTable u =? a * 256 + b) && negb (u =? UCS2_NO_MAPPING)
  else gUnicodeToGBKTable u =? a * 256 + b.
Lemma entries_ok : forallb (fun a => forallb (fun b => negb (LEGAL_GBK_SECOND_BYTE b) || entry_ok a b) (seqZ 0 256)) (seqZ 0x81 126) = true.
Proof. vm_compute. reflexivity. Qed.

Lemma entry_at a b : LEGAL_GBK_FIRST_BYTE a = true → LEGAL_GBK_SECOND_BYTE b = true → entry_ok a b = true.
Proof.
  intros Ha Hb. pose proof entries_ok as H. rewrite forallb_forall in H. unfold LEGAL_GBK_FIRST_BYTE, UINT8_IN_RANGE in Ha.
  assert (In a (seqZ 0x81 126)) as Hia by (apply list_elem_of_In, elem_of_seqZ; lia).
  assert (In b (seqZ 0 256)) as Hib by (apply list_elem_of_In, elem_of_seqZ; unfold LEGAL_GBK_SECOND_BYTE, UINT8_IN_RANGE in Hb; lia).
  specialize (H a Hia). rewrite forallb_forall in H. specialize (H b Hib). by rewrite Hb in H.
Qed.
Lemma entry_unit a b : LEGAL_GBK_FIRST_BYTE a = true → LEGAL_GBK_SECOND_BYTE b = true →
  encodable (gbk_char_to_unicode a b) ∧ 128 ≤ gbk_char_to_unicode a b.
Proof. intros Ha Hb. pose proof (entry_at a b Ha Hb) as H. unfold entry_ok in H. unfold encodable. lia. Qed.

(** ** GBK to UTF-8 *)

(** The code units that the loop converts; [tmp] is the last one. With flags other than
    UCONV_INVCHAR_IGNORE and UCONV_INVCHAR_ERROR the loop stays at an invalid byte. *)
Fixpoint gbk_stream (flags : Z) (s : list Z) (tmp : Z) : list (option Z) :=
  match s with
  | [] => []
  | c :: rest =>
      if LEGAL_GBK_FIRST_BYTE c then
        match rest with
        | [] => []
        | d :: rest' =>
            if LEGAL_GBK_SECOND_BYTE d then
              let u := gbk_char_to_unicode c d in Some u :: gbk_stream flags rest' u
            else
              match invalid_gbk flags with
              | Fails => [None]
              | Skips => gbk_stream flags rest tmp
              | Repeats => replicate (len rest) (Some tmp)
              end
        end
      else if IS_ASCII (schar c) then Some c :: gbk_stream flags rest c
      else if IS_GBK_EURO c then Some UCS2_EURO :: gbk_stream flags rest UCS2_EURO
      else
        match invalid_gbk flags with
        | Fails => [None]
        | Skips => gbk_stream flags rest tmp
        | Repeats => replicate (S (len rest)) (Some tmp)
        end
  end.

Definition encode_utf8 (room : Z) (item : option Z) : step :=
  match item with
  | None => Fail
  | Some u => if room <=? size (utf8 u) then Stop else Emit (utf8 u)
  end.

(** The bytes are written behind [pre], without a NUL. *)
Definition written (pre old : list Z) (bytes : option (list Z)) (o : outcome (Z * list Z)) : Prop :=
  match bytes with
  | None => ∃ dst, o = Ret (-1, dst) ∧ size dst = size (pre ++ old)
  | Some bytes => ∃ tail, o = Ret (size (pre ++ bytes), pre ++ bytes ++ tail) ∧ size (pre ++ bytes ++ tail) = size (pre ++ old)
  end.
Lemma written_stop pre old : size (pre ++ old) < 2 ^ 31 → written pre old (Some []) (Ret (to_int (size pre), pre ++ old)).
Proof. intros H. rewrite to_int_small by sizes. exists old. by rewrite app_nil_r. Qed.
Lemma written_emit pre old old' bs bytes o : size old = size (bs ++ old') →
  written (pre ++ bs) old' bytes o → written pre old (app bs <$> bytes) o.
Proof.
  intros Ho. destruct bytes as [bytes|]; cbn.
  - intros (tail & -> & H). exists tail. rewrite <- !app_assoc in *. split; [done|]. rewrite H. sizes.
  - intros (dst & -> & H). exists dst. split; [done|]. rewrite H. sizes.
Qed.

Lemma strncpy_exact w : strncpy w (size w) = w.
Proof. unfold strncpy, size. rewrite Nat2Z.id, take_ge, Nat.sub_diag by lia. cbn. apply app_nil_r. Qed.

Section ToUtf8.
Context (raw : list Z) (flags : Z) (src dst : list Z).
Hypothesis (Hraw : len raw = 5%nat) (Hs : size src < 2 ^ 31) (Hd : size dst < 2 ^ 31).

(** The end of a turn: one unit is converted, and the loop goes on with [next]. *)
Lemma convert_spec (next : Z → list Z → outcome (Z * list Z)) tmp items pre old : encodable tmp → size (pre ++ old) = size dst →
  (∀ old', size old = size (utf8 tmp ++ old') → 0 < size old' →
     written (pre ++ utf8 tmp) old' (emits encode_utf8 0 items (size old')) (next (size (pre ++ utf8 tmp)) ((pre ++ utf8 tmp) ++ old'))) →
  0 < size old →
  written pre old (emits encode_utf8 0 (Some tmp :: items) (size old))
    ('(n, word) ← unicode_char_to_utf8 raw tmp;
     if size dst <=? u32 (size pre + n) then Ret (to_int (size pre), pre ++ old) else
     dst ← put (pre ++ old) (size pre) (strncpy word n);
     next (u32 (size pre + n)) dst).
Proof.
  intros Ht Ed Hnext Ho. rewrite unicode_char_to_utf8_spec by done. cbn [mbind outcome_bind emits encode_utf8].
  assert (size (utf8 tmp) ≤ 3).
  { destruct Ht as [Ht _]. destruct (decide (tmp = 0)) as [->|]; [done|]. destruct (decide (tmp < 128)); [rewrite utf8_1 by lia; done|].
    destruct (decide (tmp < 2048)); [rewrite utf8_2 by lia; done|rewrite utf8_3 by lia; done]. }
  pose proof (size_pos (utf8 tmp)). rewrite (proj2 (Z.leb_gt (size old) 0)) by lia. rewrite u32_small by sizes.
  destruct (Z.leb_spec (size old) (size (utf8 tmp))).
  - rewrite (proj2 (Z.leb_le _ _)) by sizes. apply written_stop. lia.
  - rewrite (proj2 (Z.leb_gt _ _)) by sizes. rewrite strncpy_exact.
    destruct (put_room pre (utf8 tmp) old) as (old' & -> & Eo); [unfold size in *; lia|]. cbn [mbind outcome_bind].
    apply (written_emit pre old old'); [done|]. replace (size old - size (utf8 tmp)) with (size old') by sizes.
    rewrite <- size_app. apply Hnext; [done|sizes].
Qed.

(** The loop stays at an invalid byte: [k] turns are left. *)
Definition stuck (p : Z) (b : bool) : Prop := ∃ c, vget src p = Ret c ∧ LEGAL_GBK_FIRST_BYTE c = b ∧
  if b then ∃ d, vget src (p + 1) = Ret d ∧ LEGAL_GBK_SECOND_BYTE d = false
  else IS_ASCII (schar c) = false ∧ IS_GBK_EURO c = false.

Lemma stuck_spec fuel : ∀ p b k i tmp pre old, invalid_gbk flags = Repeats → stuck p b → encodable tmp →
  size (pre ++ old) = size dst → 0 < size old → 0 ≤ i → size src - i = Z.of_nat k → (k ≤ fuel)%nat →
  written pre old (emits encode_utf8 0 (replicate (if b then k - 1 else k) (Some tmp)) (size old))
    (gbk_to_utf8_loop fuel raw src (size src) (size dst) flags p i (size pre) tmp (pre ++ old)).
Proof.
  induction fuel as [|fuel IH]; intros p b k i tmp pre old Hr Hst Ht Ed Ho Hi Ek Hk; cbn [gbk_to_utf8_loop].
  - replace k with O by lia. rewrite (proj2 (Z.ltb_ge _ _)) by lia. cbn [andb]. destruct b; apply written_stop; lia.
  - destruct (Z.ltb_spec i (size src)); cbn [andb]; [|replace k with O by lia; destruct b; apply written_stop; lia].
    rewrite (proj2 (Z.ltb_lt _ _)) by sizes. destruct k as [|k]; [lia|].
    pose proof Hst as (c & Hc & Eb & Hbad).
    rewrite Hc. cbn [mbind outcome_bind]. rewrite Eb, Hr. rewrite (u32_small (i + 1)) by lia.
    assert (Hgo : ∀ m, (if b then k - 1 else k)%nat = m → written pre old (emits encode_utf8 0 (Some tmp :: replicate m (Some tmp)) (size old))
      ('(n, word) ← unicode_char_to_utf8 raw tmp;
       if size dst <=? u32 (size pre + n) then Ret (to_int (size pre), pre ++ old) else
       dst0 ← put (pre ++ old) (size pre) (strncpy word n);
       gbk_to_utf8_loop fuel raw src (size src) (size dst) flags p (i + 1) (u32 (size pre + n)) tmp dst0)).
    { intros m <-. apply (convert_spec (fun dl d => gbk_to_utf8_loop fuel raw src (size src) (size dst) flags p (i + 1) dl tmp d)); try done.
      intros old' Eo Ho'. apply IH; try done; [sizes|lia|lia|lia]. }
    destruct b.
    + destruct Hbad as (d & Hd' & Ed'). destruct (Z.leb_spec (size src) (i + 1)).
      * replace k with O by lia. cbn. apply written_stop. lia.
      * rewrite Hd'. cbn [mbind outcome_bind]. rewrite Ed'. destruct k as [|k]; [lia|]. cbn [Nat.sub replicate].
        replace (S k - 0)%nat with (S k) by lia. apply Hgo. lia.
    + destruct Hbad as [-> ->]. cbn [replicate]. by apply Hgo.
Qed.

Lemma stuck_here fuel sp c rest b tmp pre old : src = sp ++ c :: rest → invalid_gbk flags = Repeats → stuck (size sp) b → encodable tmp →
  size (pre ++ old) = size dst → 0 < size old → (len (c :: rest) ≤ S fuel)%nat →
  written pre old (emits encode_utf8 0 (replicate (if b then len rest else S (len rest)) (Some tmp)) (size old))
    (gbk_to_utf8_loop (S fuel) raw src (size src) (size dst) flags (size sp) (size sp) (size pre) tmp (pre ++ old)).
Proof.
  intros E Hr Hst Ht Ed Ho Hf.
  replace (if b then len rest else S (len rest)) with (if b then S (len rest) - 1 else S (len rest))%nat by (destruct b; lia).
  apply stuck_spec; try done; [apply size_pos|]. rewrite E. sizes. unfold size. lia.
Qed.
Lemma written_fail pre old : 0 < size old → written pre old (emits encode_utf8 0 [None] (size old)) (Ret (-1, pre ++ old)).
Proof. intros Ho. cbn. rewrite (proj2 (Z.leb_gt _ _)) by lia. by eexists. Qed.

Lemma ascii_unit c : 0 ≤ c < 256 → IS_ASCII (schar c) = true → encodable c.
Proof.
  intros Hc Ha. pose proof (JsonText.byte_case (fun c => negb (IS_ASCII (schar c)) || (c <? 128)) 256 ltac:(by vm_compute) c Hc) as H.
  cbn beta in H. rewrite Ha in H. unfold encodable. cbn in H. lia.
Qed.

Lemma gbk_to_utf8_loop_spec fuel : Forall (fun c => 0 ≤ c < 256) src → ∀ sp rest tmp pre old,
  src = sp ++ rest → encodable tmp → size (pre ++ old) = size dst → 0 < size old → (len rest ≤ fuel)%nat →
  written pre old (emits encode_utf8 0 (gbk_stream flags rest tmp) (size old))
    (gbk_to_utf8_loop fuel raw src (size src) (size dst) flags (size sp) (size sp) (size pre) tmp (pre ++ old)).
Proof.
  intros Hb. induction fuel as [|fuel IH]; intros sp rest tmp pre old E Ht Ed Ho Hf.
  { destruct rest; [|cbn in Hf; lia]. cbn [gbk_to_utf8_loop]. rewrite E, app_nil_r, Z.ltb_irrefl. apply written_stop. lia. }
  destruct rest as [|c rest].
  { cbn [gbk_to_utf8_loop]. rewrite E, app_nil_r, Z.ltb_irrefl. apply written_stop. lia. }
  assert (Hc : 0 ≤ c < 256) by (rewrite E in Hb; by apply Forall_app in Hb as [_ [Hb _]%Forall_cons]).
  assert (Hsp : size sp < size src) by (rewrite E; sizes).
  assert (Hgo : ∀ seen rest' u p i, sp ++ c :: rest = (sp ++ seen) ++ rest' → encodable u → (len rest' ≤ fuel)%nat →
    p = size (sp ++ seen) → i = size (sp ++ seen) →
    written pre old (emits encode_utf8 0 (Some u :: gbk_stream flags rest' u) (size old))
      ('(n, word) ← unicode_char_to_utf8 raw u;
       if size dst <=? u32 (size pre + n) then Ret (to_int (size pre), pre ++ old) else
       dst0 ← put (pre ++ old) (size pre) (strncpy word n);
       gbk_to_utf8_loop fuel raw src (size src) (size dst) flags p i (u32 (size pre + n)) u dst0)).
  { intros seen rest' u p i E' Hu Hf' -> ->.
    apply (convert_spec (fun dl d => gbk_to_utf8_loop fuel raw src (size src) (size dst) flags _ _ dl u d)); try done.
    intros old' Eo Ho'. apply IH; try done; [by rewrite E|sizes]. }
  assert (Hskip : invalid_gbk flags = Skips → written pre old (emits encode_utf8 0 (gbk_stream flags rest tmp) (size old))
      (gbk_to_utf8_loop fuel raw src (size src) (size dst) flags (size sp + 1) (size sp + 1) (size pre) tmp (pre ++ old))).
  { intros _. replace (size sp + 1) with (size (sp ++ [c])) by sizes.
    apply IH; try done; [by rewrite E, <- app_assoc|cbn in Hf; lia]. }
  assert (Evget : vget src (size sp) = Ret c) by (rewrite E; apply vget_at).
  remember (gbk_to_utf8_loop (S fuel) raw src (size src) (size dst) flags (size sp) (size sp) (size pre) tmp (pre ++ old)) as l eqn:El.
  assert (Elo := El). cbn [gbk_to_utf8_loop] in El. rewrite (proj2 (Z.ltb_lt _ _) Hsp), (proj2 (Z.ltb_lt (size pre) _)) in El by sizes.
  cbn [andb] in El. rewrite Evget in El. cbn [mbind outcome_bind] in El. cbn [gbk_stream]. rewrite (u32_small (size sp + 1)) in El by sizes.
  destruct (LEGAL_GBK_FIRST_BYTE c) eqn:Ec.
  - destruct rest as [|d rest].
    { rewrite (proj2 (Z.leb_le _ _)) in El by (rewrite E; sizes). rewrite El. apply written_stop. lia. }
    assert (Evget2 : vget src (size sp + 1) = Ret d) by (rewrite E; by apply vget_next).
    rewrite (proj2 (Z.leb_gt _ _)) in El by (rewrite E; sizes). rewrite Evget2 in El. cbn [mbind outcome_bind] in El.
    destruct (LEGAL_GBK_SECOND_BYTE d) eqn:Ed'.
    + rewrite El. apply (Hgo [c; d] rest); try done; try (by rewrite <- app_assoc); [by apply entry_unit|cbn in Hf; lia|sizes|].
      rewrite u32_small; rewrite ?E in *; sizes.
    + destruct (invalid_gbk flags) eqn:Ei.
      * rewrite El. by apply written_fail.
      * rewrite El. by apply Hskip.
      * rewrite Elo. apply (stuck_here fuel sp c (d :: rest) true); try done. exists c. split; [done|]. split; [done|]. eauto.
  - destruct (IS_ASCII (schar c)) eqn:Ea; [|destruct (IS_GBK_EURO c) eqn:Ee].
    + rewrite El. apply (Hgo [c] rest); try done; try (by rewrite <- app_assoc); [by apply ascii_unit|cbn in Hf; lia|sizes|sizes].
    + rewrite El. apply (Hgo [c] rest); try done; try (by rewrite <- app_assoc); [unfold encodable, UCS2_EURO; lia|cbn in Hf; lia|sizes|sizes].
    + destruct (invalid_gbk flags) eqn:Ei.
      * rewrite El. by apply written_fail.
      * rewrite El. by apply Hskip.
      * rewrite Elo. apply (stuck_here fuel sp c rest false); try done. exists c. done.
Qed.
End ToUtf8.

Lemma gbk_to_utf8_spec raw flags src dst : len raw = 5%nat → Forall (fun c => 0 ≤ c < 256) src → size src < 2 ^ 31 → 0 < size dst < 2 ^ 31 →
  if size dst <? size src / 2 * 3 + 1 then gbk_to_utf8 raw src (size src) dst (size dst) flags = Ret (-1, dst)
  else written [] dst (emits encode_utf8 0 (gbk_stream flags src 0) (size dst)) (gbk_to_utf8 raw src (size src) dst (size dst) flags).
Proof.
  intros Hraw Hb Hs Hd. pose proof (size_pos src). unfold gbk_to_utf8. rewrite (proj2 (Z.eqb_neq _ _)), u32_small by dlia.
  destruct (size dst <? _); [done|].
  apply (gbk_to_utf8_loop_spec raw flags src dst Hraw Hs ltac:(lia) _ Hb [] src 0 [] dst); try done; [unfold encodable; lia|lia|].
  unfold size. by rewrite Nat2Z.id.
Qed.

(** ** UTF-8 to GBK *)

(** The code units of a text; [need] bytes of a unit are missing, and those before gave [acc]. *)
Fixpoint utf8_units (s : list Z) (need : nat) (acc : Z) : list Z :=
  match s with
  | [] => []
  | c :: s =>
      match need with
      | O =>
          let n := nth (Z.to_nat c) BytesFromHeader 0 in
          let first := u16 (Z.land c (Z.lnot (nth (Z.to_nat n) UTF8_HEADER 0))) in
          if n =? 0 then utf8_units s 0 0
          else if n =? 1 then first :: utf8_units s 0 0
          else utf8_units s (Z.to_nat (n - 1)) first
      | S k =>
          let acc := u16 (Z.lor (Z.shiftl acc 6) (Z.land c 0x3F)) in
          match k with O => acc :: utf8_units s 0 0 | _ => utf8_units s k acc end
      end
  end.

Definition invalid_utf8_unit (flags rp_char room c : Z) : step :=
  if flag flags UCONV_INVCHAR_ENTITES then if room <=? 8 then Stop else Emit (entity c)
  else if flag flags UCONV_INVCHAR_ERROR then Fail
  else Emit [rp_char].

(** The trailing bytes of a unit. *)
Definition trail (acc : Z) (bytes : list Z) : Z :=
  fold_left (fun acc c => u16 (Z.lor (Z.shiftl acc 6) (Z.land c 0x3F))) bytes acc.

Lemma utf8_trail_spec bytes : ∀ sp rest acc, size (sp ++ bytes ++ rest) < 2 ^ 31 →
  utf8_trail (len bytes) (sp ++ bytes ++ rest) (size sp) acc = Ret (size (sp ++ bytes), trail acc bytes).
Proof.
  induction bytes as [|b bytes IH]; intros sp rest acc H31; cbn [utf8_trail len app]; [by rewrite app_nil_r|].
  rewrite vget_at. cbn [mbind outcome_bind]. rewrite u32_small by sizes. rewrite shift_src.
  replace (size sp + 1) with (size (sp ++ [b])) by sizes. rewrite IH by sizes. by rewrite <- app_assoc.
Qed.

Lemma utf8_units_trail bytes rest : ∀ acc, bytes ≠ [] → utf8_units (bytes ++ rest) (len bytes) acc = trail acc bytes :: utf8_units rest 0 0.
Proof.
  induction bytes as [|b [|b' bytes] IH]; intros acc Hne; [done|done|].
  exact (IH (u16 (Z.lor (Z.shiftl acc 6) (Z.land b 0x3F))) ltac:(done)).
Qed.
Lemma utf8_units_cut s : ∀ need acc, (len s < need)%nat → utf8_units s need acc = [].
Proof. induction s as [|c s IH]; intros [|[|k]] acc Hn; try done; cbn in *; try lia. apply IH. lia. Qed.

(** What the table of lengths says of a byte. *)
Lemma header_spec c : 0 ≤ c < 256 → ∃ n, vget BytesFromHeader c = Ret n ∧ nth (Z.to_nat c) BytesFromHeader 0 = n ∧ 0 ≤ n ≤ 6 ∧
  vget UTF8_HEADER n = Ret (nth (Z.to_nat n) UTF8_HEADER 0).
Proof.
  intros Hc. pose proof (JsonText.byte_case (fun c =>
    let n := nth (Z.to_nat c) BytesFromHeader 0 in (0 <=? n) && (n <=? 6)) 256 ltac:(by vm_compute) c Hc) as H. cbn beta zeta in H.
  exists (nth (Z.to_nat c) BytesFromHeader 0). split; [|split; [done|split; [lia|]]].
  - apply vget_ret. split; [lia|]. destruct (nth_lookup_or_length BytesFromHeader (Z.to_nat c) 0) as [->|Hl]; [done|].
    change (len BytesFromHeader) with 256%nat in Hl. lia.
  - apply vget_ret. split; [lia|]. generalize dependent (nth (Z.to_nat c) BytesFromHeader 0). intros n H.
    destruct (nth_lookup_or_length UTF8_HEADER (Z.to_nat n) 0) as [->|Hl]; [done|]. change (len UTF8_HEADER) with 7%nat in Hl. lia.
Qed.

Lemma invalid_utf8_spec flags rp_char c pre old : size (pre ++ old) < 2 ^ 31 → 2 < size old →
  match invalid_utf8_unit flags rp_char (size old) c with
  | Stop => invalid_utf8 flags rp_char (size (pre ++ old)) c (size pre) (pre ++ old) = Ret (Some (true, size pre, pre ++ old))
  | Fail => invalid_utf8 flags rp_char (size (pre ++ old)) c (size pre) (pre ++ old) = Ret None
  | Emit bytes => ∃ old', invalid_utf8 flags rp_char (size (pre ++ old)) c (size pre) (pre ++ old)
      = Ret (Some (false, size pre + size bytes, (pre ++ bytes) ++ old')) ∧ size old = size (bytes ++ old') ∧ 0 < size old'
  end.
Proof.
  intros H31 Ho. unfold invalid_utf8_unit, invalid_utf8. rewrite !u32_small by sizes.
  destruct (flag flags UCONV_INVCHAR_ENTITES); [|destruct (flag flags UCONV_INVCHAR_ERROR); [done|]].
  - destruct (Z.leb_spec (size old) 8); [by rewrite (proj2 (Z.leb_le _ _)) by sizes|]. rewrite (proj2 (Z.leb_gt _ _)) by sizes.
    destruct (put_room pre (entity c) old) as (old' & -> & E); [unfold size in *; cbn; lia|].
    exists old'. split; [done|]. unfold entity in *. sizes.
  - destruct old as [|x old]; [done|]. rewrite vset_at. exists old. rewrite shift_src. split; [done|]. sizes.
Qed.

(** A whole unit, or half a unit at the end. *)
Lemma utf8_units_lead c rest n : nth (Z.to_nat c) BytesFromHeader 0 = n → 0 ≤ n ≤ 6 →
  let first := u16 (Z.land c (Z.lnot (nth (Z.to_nat n) UTF8_HEADER 0))) in
  if n =? 0 then utf8_units (c :: rest) 0 0 = utf8_units rest 0 0
  else if size rest <? n - 1 then utf8_units (c :: rest) 0 0 = []
  else ∃ bytes rest', rest = bytes ++ rest' ∧ len bytes = Z.to_nat (n - 1) ∧
    utf8_units (c :: rest) 0 0 = trail first bytes :: utf8_units rest' 0 0.
Proof.
  intros En Hn first. cbn [utf8_units]. rewrite En. fold first. destruct (Z.eqb_spec n 0); [done|]. destruct (Z.ltb_spec (size rest) (n - 1)).
  - rewrite (proj2 (Z.eqb_neq n 1)) by (pose proof (size_pos rest); lia). apply utf8_units_cut. unfold size in *. lia.
  - destruct (room_split (Z.to_nat (n - 1)) rest) as (bytes & rest' & -> & Hl); [unfold size in *; lia|]. exists bytes, rest'.
    split; [done|]. split; [done|]. destruct (Z.eqb_spec n 1) as [->|].
    + by destruct bytes.
    + rewrite <- Hl. apply utf8_units_trail. intros ->. cbn in Hl. lia.
Qed.

Lemma utf8_to_gbk_loop_spec fuel flags rp_char src dst : Forall (fun c => 0 ≤ c < 256) src → size src < 2 ^ 31 → size dst < 2 ^ 31 →
  ∀ sp rest pre old, src = sp ++ rest → size (pre ++ old) = size dst → 0 < size old → (len rest ≤ fuel)%nat →
  terminated pre old (emits (encode (invalid_utf8_unit flags rp_char)) 1 (utf8_units rest 0 0) (size old))
    (utf8_to_gbk_loop fuel src (size src) (size dst) flags rp_char (size sp) (size pre) (pre ++ old)).
Proof.
  intros Hb Hs Hd. induction fuel as [|fuel IH]; intros sp rest pre old E Ed Ho Hf; cbn [utf8_to_gbk_loop].
  { destruct rest; [|cbn in Hf; lia]. rewrite E, app_nil_r, Z.ltb_irrefl. apply terminate_spec; [done|lia|done]. }
  destruct rest as [|c rest].
  { rewrite E, app_nil_r, Z.ltb_irrefl. apply terminate_spec; [done|lia|done]. }
  rewrite (proj2 (Z.ltb_lt _ _)) by (rewrite E; sizes). rewrite (u32_small (size dst - 1)) by sizes. cbn [andb].
  destruct (Z.leb_spec (size old) 1) as [Hr|Hr].
  { rewrite (proj2 (Z.ltb_ge _ _)) by sizes. assert (Hstop := terminate_spec pre old (size dst) ltac:(lia) ltac:(lia) Ho).
    destruct (utf8_units (c :: rest) 0 0); cbn [emits]; [done|]. by rewrite (proj2 (Z.leb_le _ _) Hr). }
  rewrite (proj2 (Z.ltb_lt _ _)) by sizes. rewrite E at 1. rewrite vget_at. cbn [mbind outcome_bind].
  assert (Hc : 0 ≤ c < 256) by (rewrite E in Hb; by apply Forall_app in Hb as [_ [Hb' _]%Forall_cons]).
  destruct (header_spec c Hc) as (n & -> & En & Hn & Eh). cbn [mbind outcome_bind]. rewrite (u32_small (size sp + 1)) by (rewrite E in Hs; sizes).
  pose proof (utf8_units_lead c rest n En Hn) as Hu. cbn zeta in Hu. destruct (Z.eqb_spec n 0) as [->|Hn0].
  { rewrite Hu. replace (size sp + 1) with (size (sp ++ [c])) by sizes. apply IH; try done; [by rewrite E, <- app_assoc|cbn in Hf; lia]. }
  rewrite (u32_small (size sp + 1 + n - 1)) by (rewrite E in Hs; sizes). destruct (Z.ltb_spec (size rest) (n - 1)).
  { rewrite (proj2 (Z.ltb_lt _ _)) by (rewrite E; sizes). rewrite Hu. by apply terminate_spec; [|lia|]. }
  rewrite (proj2 (Z.ltb_ge _ _)) by (rewrite E; sizes). rewrite Eh. cbn [mbind outcome_bind].
  destruct Hu as (bytes & rest' & -> & Hl & ->). set (first := u16 _).
  pose proof (utf8_trail_spec bytes (sp ++ [c]) rest' first) as Ht. rewrite <- (shift_src sp c), <- E, Hl in Ht.
  replace (size sp + 1) with (size (sp ++ [c])) by sizes. rewrite (Ht Hs). cbn [mbind outcome_bind].
  assert (Hnext : ∀ written old', size old = size (written ++ old') → 0 < size old' →
    terminated pre old (app written <$> emits (encode (invalid_utf8_unit flags rp_char)) 1 (utf8_units rest' 0 0) (size old - size written))
      (utf8_to_gbk_loop fuel src (size src) (size dst) flags rp_char (size ((sp ++ [c]) ++ bytes)) (size pre + size written) ((pre ++ written) ++ old'))).
  { intros written old' Eo Ho'. apply (terminated_emit pre old old'); [done|].
    replace (size old - size written) with (size old') by sizes. rewrite <- (size_app pre written).
    apply IH; [by rewrite E, <- !app_assoc|sizes|done|]. cbn in Hf. rewrite length_app in Hf. lia. }
  apply (encode_spec _ (utf8_to_gbk_loop fuel src (size src) (size dst) flags rp_char (size ((sp ++ [c]) ++ bytes)))
    (fun dst' => o ← invalid_utf8 flags rp_char (size dst) (trail first bytes) (size pre) dst';
       match o with
       | None => Ret (-1, dst')
       | Some (true, dl, dst') => terminate (size dst) dl dst'
       | Some (false, dl, dst') => utf8_to_gbk_loop fuel src (size src) (size dst) flags rp_char (size ((sp ++ [c]) ++ bytes)) dl dst'
       end)); [done|lia|done|done|].
  intros old2 E2 Ho2 _. pose proof (invalid_utf8_spec flags rp_char (trail first bytes) pre old2) as Hinv.
  replace (size (pre ++ old2)) with (size dst) in Hinv by (rewrite <- Ed; sizes). rewrite E2 in Hinv. specialize (Hinv ltac:(lia) ltac:(lia)).
  destruct (invalid_utf8_unit flags rp_char (size old) (trail first bytes)) as [| |written].
  - rewrite Hinv. cbn [mbind outcome_bind]. destruct (terminate_spec pre old2 (size dst)) as (tail & Htl & Es); [sizes|sizes|lia|].
    exists tail. split; [exact Htl|]. rewrite Es. sizes.
  - rewrite Hinv. cbn [mbind outcome_bind]. eexists. split; [done|]. sizes.
  - destruct Hinv as (old' & -> & Eo & Ho'). cbn [mbind outcome_bind]. apply Hnext; [|done]. sizes.
Qed.

Lemma utf8_to_gbk_spec flags rp_char src dst : Forall (fun c => 0 ≤ c < 256) src → size src < 2 ^ 31 → 0 < size dst < 2 ^ 31 →
  if size dst <? size src then utf8_to_gbk src (size src) dst (size dst) flags rp_char = Ret (-1, dst)
  else terminated [] dst (emits (encode (invalid_utf8_unit flags rp_char)) 1 (utf8_units src 0 0) (size dst))
    (utf8_to_gbk src (size src) dst (size dst) flags rp_char).
Proof.
  intros Hb Hs Hd. unfold utf8_to_gbk. rewrite (proj2 (Z.eqb_neq _ _)) by lia. destruct (size dst <? size src); [done|].
  apply (utf8_to_gbk_loop_spec _ flags rp_char src dst Hb Hs ltac:(lia) [] src [] dst); try done; [lia|]. unfold size. by rewrite Nat2Z.id.
Qed.
End UconvUtf8.
