(* ===== verification/UconvSpec.v ===== *)
(** What enc/uconv.h promises: conversions that stay within their arrays whatever the input, and
    text that comes back when it is converted and converted back. *)
From S2P Require Import Prelude Base64 Json JsonText UconvTables Uconv UconvProof UconvUtf8.

Module UconvSpec.
Import UconvTables Uconv UconvProof UconvUtf8.
#[local] Abbreviation len := List.length.

(** ** Text *)

Inductive gbk_char := Ascii (b : Z) | Euro | Han (a b : Z).
Definition bytes_of (c : gbk_char) : list Z := match c with Ascii b => [b] | Euro => [0x80] | Han a b => [a; b] end.
Definition unit_of (c : gbk_char) : Z := match c with Ascii b => b | Euro => UCS2_EURO | Han a b => gbk_char_to_unicode a b end.

(** A character that both tables know. *)
Definition mapped (c : gbk_char) : Prop :=
  match c with
  | Ascii b => 0 ≤ b < 128
  | Euro => True
  | Han a b => LEGAL_GBK_FIRST_BYTE a = true ∧ LEGAL_GBK_SECOND_BYTE b = true ∧
      in_pairs a b unmapped = false ∧ in_pairs a b mismatched = false
  end.
Definition gbk_text (t : list gbk_char) : list Z := concat (map bytes_of t).
Definition units (t : list gbk_char) : list Z := map unit_of t.

Lemma ascii_cases b : 0 ≤ b < 128 → LEGAL_GBK_FIRST_BYTE b = false ∧ IS_ASCII (schar b) = true ∧ IS_ASCII b = true.
Proof.
  intros Hb. pose proof (JsonText.byte_case (fun b => negb (LEGAL_GBK_FIRST_BYTE b) && IS_ASCII (schar b) && IS_ASCII b) 128 ltac:(by vm_compute) b Hb) as H.
  cbn beta in H. rewrite !andb_true_iff, negb_true_iff in H. tauto.
Qed.
Lemma not_ascii u : 128 ≤ u < 65536 → IS_ASCII u = false.
Proof.
  intros Hu. unfold IS_ASCII. apply Z.eqb_neq. intros E. apply (f_equal (fun x => Z.shiftr x 7)) in E.
  rewrite Z.shiftr_land, (Z.land_comm (Z.shiftr _ _)) in E. change (Z.shiftr 0xff80 7) with (Z.ones 9) in E.
  rewrite Z.land_ones, Z.shiftr_div_pow2 in E by lia. change (Z.shiftr 0 7) with 0 in E. change (2 ^ 7) with 128 in E. change (2 ^ 9) with 512 in E.
  Z.div_mod_to_equations. lia.
Qed.

(** What the tables say of a mapped character. *)
Lemma han_unit a b : mapped (Han a b) → let u := gbk_char_to_unicode a b in
  encodable u ∧ 128 ≤ u ∧ gUnicodeToGBKTable u = a * 256 + b ∧ 0x81 ≤ a ≤ 0xFE ∧ 0x40 ≤ b ≤ 0xFE.
Proof.
  intros (Ha & Hb & Hun & Hmis) u. destruct (entry_unit a b Ha Hb) as [He Hu]. split; [done|]. split; [done|].
  pose proof (entry_at a b Ha Hb) as H. unfold entry_ok in H. rewrite Hun, Hmis in H. apply andb_true_iff in H as [_ H].
  unfold LEGAL_GBK_FIRST_BYTE, LEGAL_GBK_SECOND_BYTE, UINT8_IN_RANGE in *. fold u in H. lia.
Qed.

Lemma gbk_items_text t : Forall mapped t → gbk_items (gbk_text t) = map (Some ∘ unit_of) t.
Proof.
  induction 1 as [|c t Hc Ht IH]; [done|]. destruct c as [b| |a b]; cbn [gbk_text map concat bytes_of app gbk_items unit_of compose].
  - destruct (ascii_cases b Hc) as (-> & -> & _). cbn. f_equal. exact IH.
  - cbn. f_equal. exact IH.
  - destruct Hc as (-> & -> & _). cbn. f_equal. exact IH.
Qed.

(** Writing mapped text as GBK: a character, its NUL and a spare byte for the Euro sign. *)
Lemma encode_unit invalid room c : mapped c → size (bytes_of c) + 2 ≤ room → encode invalid room (unit_of c) = Emit (bytes_of c).
Proof.
  destruct c as [b| |a b]; intros Hc Hr; cbn [unit_of bytes_of]; unfold encode.
  - destruct (ascii_cases b Hc) as (_ & _ & ->). cbn in Hc. by rewrite u8_small by lia.
  - cbn [bytes_of] in Hr. rewrite not_ascii by (unfold UCS2_EURO; lia). rewrite (proj2 (Z.leb_gt _ _)) by sizes. by vm_compute.
  - destruct (han_unit a b Hc) as ([Hu _] & H128 & Et & Ha & Hb). rewrite not_ascii by lia. cbn [bytes_of] in Hr. rewrite (proj2 (Z.leb_gt _ _)) by sizes.
    rewrite Et, (proj2 (Z.eqb_neq _ _)) by lia. cbn [negb]. rewrite Z.shiftr_div_pow2 by lia. change 0xff with (Z.ones 8). rewrite Z.land_ones by lia.
    change (2 ^ 8) with 256. do 2 f_equal; [rewrite u8_small; Z.div_mod_to_equations; lia|]. f_equal. Z.div_mod_to_equations. lia.
Qed.
Lemma emits_text invalid t : Forall mapped t → ∀ room, size (gbk_text t) + 2 ≤ room → emits (encode invalid) 1 (units t) room = Some (gbk_text t).
Proof.
  induction 1 as [|c t Hc Ht IH]; intros room Hr; [done|]. cbn [units map emits gbk_text concat] in *. rewrite size_app in Hr. fold (gbk_text t) in *.
  assert (0 ≤ size (bytes_of c) ∧ 0 ≤ size (gbk_text t)) as [] by (split; apply size_pos).
  rewrite (proj2 (Z.leb_gt _ _)) by lia. rewrite encode_unit by (done || lia). fold (units t). by rewrite IH by lia.
Qed.

(** ** UTF-8 *)

Definition utf8_text (t : list gbk_char) : list Z := concat (map (utf8 ∘ unit_of) t).

Lemma unit_encodable c : mapped c → encodable (unit_of c).
Proof.
  destruct c as [b| |a b]; intros Hc; cbn in *; [unfold encodable; lia|unfold encodable, UCS2_EURO; lia|].
  by apply han_unit.
Qed.
Lemma gbk_stream_text flags t : Forall mapped t → ∀ tmp, gbk_stream flags (gbk_text t) tmp = map (Some ∘ unit_of) t.
Proof.
  induction 1 as [|c t Hc Ht IH]; intros tmp; [done|]. destruct c as [b| |a b]; cbn [gbk_text map concat bytes_of app gbk_stream unit_of compose].
  - destruct (ascii_cases b Hc) as (-> & -> & _). cbn. f_equal. apply IH.
  - cbn. f_equal. apply IH.
  - destruct Hc as (-> & -> & _). cbn. f_equal. apply IH.
Qed.
Lemma emits_utf8 t room : size (utf8_text t) < room → emits encode_utf8 0 (map (Some ∘ unit_of) t) room = Some (utf8_text t).
Proof.
  revert room. induction t as [|c t IH]; intros room Hr; [done|]. cbn [utf8_text map concat emits encode_utf8 compose] in *. fold (utf8_text t) in *.
  rewrite size_app in Hr. assert (0 ≤ size (utf8 (unit_of c)) ∧ 0 ≤ size (utf8_text t)) as [] by (split; apply size_pos).
  rewrite !(proj2 (Z.leb_gt _ _)) by lia. by rewrite IH by lia.
Qed.

Lemma join6 x y : 0 ≤ x < 1024 → 0 ≤ y < 64 → u16 (Z.lor (Z.shiftl x 6) y) = x * 64 + y.
Proof.
  intros Hx Hy. pose proof (Base64.shift_in x 6 y ltac:(lia) ltac:(lia)) as H. rewrite Z.shiftl_mul_pow2 in * by lia. change (2 ^ 6) with 64 in *.
  rewrite !u32_small in H by lia. rewrite H. apply u16_small. lia.
Qed.
Lemma lead_lengths : (∀ x, 0 ≤ x < 128 → nth (Z.to_nat x) BytesFromHeader 0 = 1 ∧ Z.land x (Z.lnot 0) = x) ∧
  (∀ x, 0 ≤ x < 32 → nth (Z.to_nat (0xC0 + x)) BytesFromHeader 0 = 2 ∧ Z.land (0xC0 + x) (Z.lnot 0xC0) = x) ∧
  (∀ x, 0 ≤ x < 16 → nth (Z.to_nat (0xE0 + x)) BytesFromHeader 0 = 3 ∧ Z.land (0xE0 + x) (Z.lnot 0xE0) = x).
Proof.
  split_and!; intros x Hx.
  - pose proof (JsonText.byte_case (fun x => (nth (Z.to_nat x) BytesFromHeader 0 =? 1) && (Z.land x (Z.lnot 0) =? x)) 128 ltac:(by vm_compute) x Hx) as H. cbn beta in H. lia.
  - pose proof (JsonText.byte_case (fun x => (nth (Z.to_nat (0xC0 + x)) BytesFromHeader 0 =? 2) && (Z.land (0xC0 + x) (Z.lnot 0xC0) =? x)) 32 ltac:(by vm_compute) x Hx) as H. cbn beta in H. lia.
  - pose proof (JsonText.byte_case (fun x => (nth (Z.to_nat (0xE0 + x)) BytesFromHeader 0 =? 3) && (Z.land (0xE0 + x) (Z.lnot 0xE0) =? x)) 16 ltac:(by vm_compute) x Hx) as H. cbn beta in H. lia.
Qed.

(** Decoding a unit of two or three bytes. *)
Lemma utf8_units_2 x d rest : nth (Z.to_nat (0xC0 + x)) BytesFromHeader 0 = 2 → Z.land (0xC0 + x) (Z.lnot 0xC0) = x → 0 ≤ x < 65536 →
  utf8_units (0xC0 + x :: d :: rest) 0 0 = u16 (Z.lor (Z.shiftl x 6) (Z.land d 0x3F)) :: utf8_units rest 0 0.
Proof.
  intros E1 E2 Hx. rewrite <- (u16_small x) at 2 by lia. rewrite <- E2 at 2. cbn [utf8_units]. by rewrite E1.
Qed.
Lemma utf8_units_3 x d e rest : nth (Z.to_nat (0xE0 + x)) BytesFromHeader 0 = 3 → Z.land (0xE0 + x) (Z.lnot 0xE0) = x → 0 ≤ x < 65536 →
  utf8_units (0xE0 + x :: d :: e :: rest) 0 0 =
    u16 (Z.lor (Z.shiftl (u16 (Z.lor (Z.shiftl x 6) (Z.land d 0x3F))) 6) (Z.land e 0x3F)) :: utf8_units rest 0 0.
Proof.
  intros E1 E2 Hx. rewrite <- (u16_small x) at 2 by lia. rewrite <- E2 at 2. cbn [utf8_units]. by rewrite E1.
Qed.
Lemma utf8_units_utf8 u rest : encodable u → u ≠ 0 → utf8_units (utf8 u ++ rest) 0 0 = u :: utf8_units rest 0 0.
Proof.
  intros [Hu _] H0. destruct lead_lengths as (H1 & H2 & H3).
  destruct (decide (u < 128)); [|destruct (decide (u < 2048))].
  - rewrite utf8_1 by lia. destruct (H1 u ltac:(lia)) as [E1 E2]. cbn [app utf8_units]. rewrite E1.
    change (nth (Z.to_nat 1) UTF8_HEADER 0) with 0. rewrite E2. by rewrite u16_small by lia.
  - rewrite utf8_2 by lia. destruct (H2 (u / 64) ltac:(dlia)) as [E1 E2]. cbn [app]. rewrite (utf8_units_2 _ _ rest E1 E2 ltac:(dlia)).
    destruct (JsonText.cont_byte (u mod 64)) as (_ & _ & ->); [dlia|]. rewrite join6 by dlia. f_equal. dlia.
  - rewrite utf8_3 by lia. destruct (H3 (u / 64 / 64) ltac:(dlia)) as [E1 E2]. cbn [app]. rewrite (utf8_units_3 _ _ _ rest E1 E2 ltac:(dlia)).
    destruct (JsonText.cont_byte (u mod 64)) as (_ & _ & ->); [dlia|]. destruct (JsonText.cont_byte (u / 64 mod 64)) as (_ & _ & ->); [dlia|].
    rewrite (join6 (u / 64 / 64)), join6 by dlia. f_equal. dlia.
Qed.
Lemma utf8_units_text t : Forall mapped t → Forall (fun c => unit_of c ≠ 0) t → utf8_units (utf8_text t) 0 0 = units t.
Proof.
  induction 1 as [|c t Hc Ht IH]; intros H; [done|]. apply Forall_cons in H as [H0 H0']. cbn [utf8_text map concat compose units].
  rewrite utf8_units_utf8 by (done || by apply unit_encodable). f_equal. by apply IH.
Qed.

Definition byte (x : Z) : Prop := 0 ≤ x < 256.
Lemma gbk_text_bytes t : Forall mapped t → Forall byte (gbk_text t).
Proof.
  intros Ht. apply Forall_concat. apply Forall_map. eapply Forall_impl; [exact Ht|]. intros [b| |a b] Hc; cbn; unfold byte.
  - cbn in Hc. repeat constructor; lia.
  - repeat constructor; lia.
  - destruct (han_unit a b Hc) as (_ & _ & _ & ? & ?). repeat constructor; lia.
Qed.
Lemma utf8_bytes u : encodable u → Forall byte (utf8 u).
Proof.
  intros [Hu _]. unfold byte. destruct (decide (u = 0)) as [->|]; [constructor|]. destruct (decide (u < 128)); [|destruct (decide (u < 2048))].
  - rewrite utf8_1 by lia. repeat constructor; lia.
  - rewrite utf8_2 by lia. repeat constructor; dlia.
  - rewrite utf8_3 by lia. repeat constructor; dlia.
Qed.
Lemma utf8_text_bytes t : Forall mapped t → Forall byte (utf8_text t).
Proof.
  intros Ht. apply Forall_concat. apply Forall_map. eapply Forall_impl; [exact Ht|]. intros c Hc. by apply utf8_bytes, unit_encodable.
Qed.

Lemma fill_good flags us old : (len us ≤ len old)%nat → fill flags (map Some us) old = us ++ drop (len us) old.
Proof. revert old. induction us as [|u us IH]; intros [|o old] Hl; cbn in *; try done; try lia. by rewrite IH by lia. Qed.
Lemma no_bad (us : list Z) n : existsb bad (take n (map Some us)) = false.
Proof. revert n. induction us as [|u us IH]; intros [|n]; cbn; auto. Qed.

(** C19: Text of mapped GBK characters comes back from UTF-16 and from UTF-8, whatever the flags
    and what the buffers held. gbk_to_unicode gives one code unit for each character, and
    unicode_to_gbk turns them back into the same bytes, with a NUL behind them.
    Without U+0000 in it, gbk_to_utf8 gives the standard UTF-8 encoding of the units, and
    utf8_to_gbk of that the same bytes. The destinations have to be as large as the
    functions ask for, with two bytes more than the text on the way back. *)
Theorem gbk_roundtrip (t : list gbk_char) (flags flags' replace_char : Z) (raw wide narrow utf : list Z) :
  Forall mapped t → len raw = 5%nat →
  Z.of_nat (len t) ≤ size wide < 2 ^ 31 → size (gbk_text t) + 2 ≤ size narrow < 2 ^ 31 →
  size (gbk_text t) / 2 * 3 + 1 ≤ size utf < 2 ^ 31 → size (utf8_text t) < size utf → size (utf8_text t) ≤ size narrow →
  (∃ rest, gbk_to_unicode (gbk_text t) (size (gbk_text t)) wide (size wide) flags = Ret (size (units t), units t ++ rest)) ∧
  (∃ rest, unicode_to_gbk (units t) (size (units t)) narrow (size narrow) flags' replace_char
     = Ret (size (gbk_text t), gbk_text t ++ 0 :: rest)) ∧
  (Forall (fun c => unit_of c ≠ 0) t →
    utf8_text t = concat (map Json.codePointToUtf8 (units t)) ∧
    (∃ rest, gbk_to_utf8 raw (gbk_text t) (size (gbk_text t)) utf (size utf) flags = Ret (size (utf8_text t), utf8_text t ++ rest)) ∧
    (∃ rest, utf8_to_gbk (utf8_text t) (size (utf8_text t)) narrow (size narrow) flags' replace_char
       = Ret (size (gbk_text t), gbk_text t ++ 0 :: rest))).
Proof.
  intros Ht Hraw Hwide Hnarrow Hutf Hutf' Hback.
  assert (0 ≤ size (gbk_text t) ∧ 0 ≤ size (utf8_text t)) as [Hp1 Hp2] by (split; apply size_pos).
  assert (size (units t) = Z.of_nat (len t)) as Eu by (unfold size, units; by rewrite length_map).
  split_and!.
  - pose proof (gbk_to_unicode_spec flags (gbk_text t) wide ltac:(lia) ltac:(lia)) as H.
    rewrite (gbk_items_text t Ht), <- (map_map unit_of Some) in H. fold (units t) in H. unfold converts in H. rewrite no_bad, andb_false_r in H.
    unfold size in Hwide. rewrite H, fill_good by (unfold units; rewrite length_map; lia). eexists. cbn [app]. do 2 f_equal.
    rewrite Eu, length_map. unfold units. rewrite length_map. change (size []) with 0. lia.
  - pose proof (unicode_to_gbk_spec flags' replace_char (units t) narrow ltac:(unfold size in *; lia) ltac:(lia)) as H.
    rewrite (emits_text _ t Ht) in H by lia. destruct H as (rest & H & _). by exists rest.
  - intros H0. split; [|split].
    + unfold utf8_text, units. rewrite map_map. f_equal. apply map_ext_Forall. eapply Forall_impl; [exact H0|]. intros c Hc. cbn. unfold utf8.
      by rewrite (proj2 (Z.eqb_neq _ _)).
    + pose proof (gbk_to_utf8_spec raw flags (gbk_text t) utf Hraw (gbk_text_bytes t Ht) ltac:(lia) ltac:(lia)) as H.
      rewrite (proj2 (Z.ltb_ge _ _)) in H by lia. rewrite (gbk_stream_text flags t Ht), emits_utf8 in H by done.
      destruct H as (rest & H & _). by exists rest.
    + pose proof (utf8_to_gbk_spec flags' replace_char (utf8_text t) narrow (utf8_text_bytes t Ht) ltac:(lia) ltac:(lia)) as H.
      rewrite (proj2 (Z.ltb_ge _ _)) in H by lia. rewrite (utf8_units_text t Ht H0), (emits_text _ t Ht) in H by lia.
      destruct H as (rest & H & _). by exists rest.
Qed.

(** ** Guessing the encoding of a C string *)

Section Guess.
Context (s junk : list Z).
#[local] Abbreviation text := (s ++ 0 :: junk).

(** [k] bytes are ahead of [p], and then the NUL. *)
Lemma read_at p k : 0 ≤ p → p + Z.of_nat k = size s → ∃ c, vget text p = Ret c ∧ (c ≠ 0 → (0 < k)%nat).
Proof.
  intros Hp Hk. destruct k as [|k].
  - exists 0. split; [|done]. replace p with (size s) by lia. apply vget_at.
  - unfold size in Hk. destruct (lookup_lt_is_Some_2 text (Z.to_nat p)) as [c Hc]; [rewrite length_app; cbn; lia|].
    exists c. split; [|lia]. by apply vget_ret.
Qed.
Lemma read_ahead p k n : 0 ≤ p → p + Z.of_nat k = size s → 0 ≤ n ≤ Z.of_nat k →
  ∃ c, vget text (p + n) = Ret c ∧ (IS_UTF8_2ND_THRU_6TH c = true → n + 1 ≤ Z.of_nat k).
Proof.
  intros Hp Hk Hn. destruct (read_at (p + n) (k - Z.to_nat n)) as (c & Hc & H0); [lia|lia|]. exists c. split; [done|].
  intros Ht. assert (c ≠ 0) by (intros ->; by vm_compute in Ht). specialize (H0 ltac:(done)). lia.
Qed.

(** One step of either scan: enough bytes are ahead of a character that is accepted. *)
Ltac ahead p k n c H := let Hc := fresh in destruct (read_ahead p k n) as (c & Hc & H); [lia|lia|lia|]; rewrite Hc; clear Hc; cbn [mbind outcome_bind].

Lemma is_utf8_last_safe fuel : ∀ st k, 0 ≤ at_ st → at_ st + Z.of_nat k = size s → (k ≤ fuel)%nat →
  ∃ st', is_utf8_last fuel text st = Ret st' ∧ 0 ≤ at_ st' ≤ size s.
Proof.
  induction fuel as [|fuel IH]; intros [p flag gbk ascii] k Hp Hk Hf; cbn [at_] in *; cbn [is_utf8_last].
  - destruct (read_at p k) as (c & -> & Hc); [lia|lia|]. cbn [mbind outcome_bind]. destruct (Z.eqb_spec c 0) as [|Hc0]; [eexists; split; [done|cbn; lia]|].
    specialize (Hc Hc0). lia.
  - destruct (read_at p k) as (c & -> & Hc); [lia|lia|]. cbn [mbind outcome_bind]. destruct (Z.eqb_spec c 0) as [|Hc0]; [eexists; split; [done|cbn; lia]|].
    specialize (Hc Hc0). destruct (IS_UTF8_1ST_OF_1 c); [apply (IH _ (k - 1)%nat); cbn; lia|]. destruct (IS_UTF8_1ST_OF_2 c).
    { ahead p k 1 d Hd. destruct (IS_UTF8_2ND_THRU_6TH d); cbn [negb]; [apply (IH _ (k - 2)%nat); cbn; lia|]. eexists. split; [done|cbn; lia]. }
    destruct (IS_UTF8_1ST_OF_3 c).
    { ahead p k 1 d Hd. destruct (IS_UTF8_2ND_THRU_6TH d); cbn [negb]; [|eexists; split; [done|cbn; lia]].
      ahead p k 2 e He. destruct (IS_UTF8_2ND_THRU_6TH e); cbn [negb]; [apply (IH _ (k - 3)%nat); cbn; lia|]. eexists. split; [done|cbn; lia]. }
    destruct (IS_UTF8_1ST_OF_4 c); [|eexists; split; [done|cbn; lia]].
    ahead p k 1 d Hd. destruct (IS_UTF8_2ND_THRU_6TH d); cbn [negb]; [|eexists; split; [done|cbn; lia]].
    ahead p k 2 e He. destruct (IS_UTF8_2ND_THRU_6TH e); cbn [negb]; [|eexists; split; [done|cbn; lia]].
    ahead p k 3 f Hf3. destruct (IS_UTF8_2ND_THRU_6TH f); cbn [negb]; [apply (IH _ (k - 4)%nat); cbn; lia|]. eexists. split; [done|cbn; lia].
Qed.

(** The strict scan accepts only the whole string. *)
Lemma nul_at_end p k : 0 ≤ p → p + Z.of_nat k = size s → Forall (.≠ 0) s → vget text p = Ret 0 → k = O.
Proof.
  intros Hp Hk Hnz [_ Hc]%vget_ret. destruct k as [|k]; [done|]. exfalso. unfold size in Hk.
  rewrite lookup_app_l in Hc by lia. by apply (Forall_lookup_1 _ _ _ _ Hnz Hc).
Qed.
Lemma is_utf8_strict_safe fuel : Forall (.≠ 0) s → ∀ st k, 0 ≤ at_ st → at_ st + Z.of_nat k = size s → (k ≤ fuel)%nat →
  ∃ o, is_utf8_strict fuel text st = Ret o ∧ ∀ st', o = Some st' → at_ st' = size s.
Proof.
  intros Hnz. induction fuel as [|fuel IH]; intros [p flag gbk ascii] k Hp Hk Hf; cbn [at_] in *; cbn [is_utf8_strict];
    destruct (read_at p k) as (c & Ec & Hc); try lia; rewrite Ec; cbn [mbind outcome_bind];
    (destruct (Z.eqb_spec c 0) as [->|Hc0];
     [pose proof (nul_at_end p k ltac:(lia) ltac:(lia) Hnz Ec); eexists; split; [done|]; intros ? [= <-]; cbn; lia|specialize (Hc Hc0)]); [lia|].
  destruct (IS_UTF8_1ST_OF_1 c); [apply (IH _ (k - 1)%nat); cbn; lia|]. destruct (IS_UTF8_1ST_OF_2 c).
  { ahead p k 1 d Hd. destruct (IS_UTF8_2ND_THRU_6TH d); cbn [negb]; [apply (IH _ (k - 2)%nat); cbn; lia|by eexists]. }
  destruct (IS_UTF8_1ST_OF_3 c).
  { ahead p k 1 d Hd. destruct (IS_UTF8_2ND_THRU_6TH d); cbn [negb]; [|by eexists].
    ahead p k 2 e He. destruct (IS_UTF8_2ND_THRU_6TH e); cbn [negb]; [apply (IH _ (k - 3)%nat); cbn; lia|by eexists]. }
  destruct (IS_UTF8_1ST_OF_4 c); [|by eexists].
  ahead p k 1 d Hd. destruct (IS_UTF8_2ND_THRU_6TH d); cbn [negb]; [|by eexists].
  ahead p k 2 e He. destruct (IS_UTF8_2ND_THRU_6TH e); cbn [negb]; [|by eexists].
  ahead p k 3 f Hf3. destruct (IS_UTF8_2ND_THRU_6TH f); cbn [negb]; [apply (IH _ (k - 4)%nat); cbn; lia|by eexists].
Qed.

Lemma verdict_range st n b : 0 ≤ at_ st ≤ size s → size s < 2 ^ 31 → 0 ≤ is_utf8_verdict st n b ≤ size s.
Proof.
  intros Hat H31. destruct st as [p flag gbk ascii]. unfold is_utf8_verdict. cbn in Hat.
  assert (∀ x, 0 ≤ x ≤ size s → 0 ≤ to_int (u32 x) ≤ size s) by (intros x Hx; rewrite u32_small, to_int_small by lia; lia).
  destruct (_ && _); [lia|]. destruct ((_ =? 2) && _ && b); [|destruct (flag =? 1); [auto|lia]].
  destruct (0 <? p) eqn:E; (destruct (n <=? _); [|destruct (flag =? 1); [|lia]]); cbn [Z.eqb Pos.eqb]; apply H; lia.
Qed.

Lemma is_utf8_safe n b : size s < 2 ^ 31 → Forall (.≠ 0) s → ∃ r, is_utf8 text n b = Ret r ∧ 0 ≤ r ≤ size s ∧ (b = false → r = 0 ∨ r = size s).
Proof.
  intros H31 Hnz. unfold is_utf8. destruct (read_at 0 (len s)) as (c & -> & _); [lia|unfold size; lia|]. cbn [mbind outcome_bind].
  assert (0 ≤ size s) by apply size_pos. destruct (c =? 0); [exists 0; split; [done|]; split; [lia|auto]|].
  assert (len s ≤ len text)%nat by (rewrite length_app; lia). destruct b.
  - destruct (is_utf8_last_safe (len text) (mk_scan 0 0 0 0) (len s)) as (st & -> & Hat); [done|unfold size; cbn; lia|done|].
    eexists. split; [done|]. split; [by apply verdict_range|done].
  - destruct (is_utf8_strict_safe (len text) Hnz (mk_scan 0 0 0 0) (len s)) as ([st|] & -> & Hat); [done|unfold size; cbn; lia|done| |].
    + eexists. split; [done|]. specialize (Hat _ eq_refl). split; [apply verdict_range; lia|]. intros _.
      destruct st as [p flag gbk ascii]. unfold is_utf8_verdict. cbn in Hat. destruct (_ && _); [auto|]. rewrite andb_false_r.
      destruct (flag =? 1); [right|auto]. rewrite u32_small, to_int_small by lia. done.
    + exists 0. cbn. split; [done|]. split; [lia|auto].
Qed.
End Guess.

(** is_gbk accepts text without invalid bytes; half a character at the end is allowed. *)
Lemma is_gbk_loop_spec fuel junk : ∀ rest sp, Forall (.≠ 0) rest → (len rest ≤ fuel)%nat →
  is_gbk_loop fuel (sp ++ rest ++ 0 :: junk) (size sp) = Ret (negb (existsb bad (gbk_items rest))).
Proof.
  induction fuel as [|fuel IH]; intros rest sp Hnz Hf; (destruct rest as [|c rest]; cbn [app is_gbk_loop]; [by rewrite vget_at|]); [cbn in Hf; lia|].
  apply Forall_cons in Hnz as [Hc Hnz]. rewrite vget_at. cbn [mbind outcome_bind gbk_items]. rewrite (proj2 (Z.eqb_neq _ _) Hc).
  assert (Hnext : is_gbk_loop fuel (sp ++ c :: rest ++ 0 :: junk) (size sp + 1) = Ret (negb (existsb bad (gbk_items rest)))).
  { replace (size sp + 1) with (size (sp ++ [c])) by sizes. rewrite shift_src. apply IH; [done|cbn in Hf; lia]. }
  destruct (LEGAL_GBK_FIRST_BYTE c).
  - destruct rest as [|d rest]; cbn [app].
    { rewrite (vget_next sp c 0 junk) by done. done. }
    rewrite (vget_next sp c d) by done. cbn [mbind outcome_bind]. apply Forall_cons in Hnz as [Hd Hnz]. rewrite (proj2 (Z.eqb_neq _ _) Hd).
    destruct (LEGAL_GBK_SECOND_BYTE d); [|done]. cbn [existsb bad orb].
    replace (sp ++ c :: d :: rest ++ 0 :: junk) with ((sp ++ [c; d]) ++ rest ++ 0 :: junk) by (by rewrite <- app_assoc).
    replace (size sp + 2) with (size (sp ++ [c; d])) by sizes. apply IH; [done|cbn in Hf; lia].
  - destruct (IS_ASCII (schar c)); cbn [orb existsb bad]; [exact Hnext|]. destruct (IS_GBK_EURO c); [exact Hnext|done].
Qed.
Lemma is_gbk_spec s junk : Forall (.≠ 0) s → is_gbk (s ++ 0 :: junk) = Ret (negb (bool_decide (s = [])) && negb (existsb bad (gbk_items s))).
Proof.
  intros Hnz. unfold is_gbk. destruct s as [|c s]; [done|]. pose proof Hnz as [Hc _]%Forall_cons. cbn [app]. change (vget (c :: s ++ 0 :: junk) 0) with (Ret c).
  cbn [mbind outcome_bind]. rewrite (proj2 (Z.eqb_neq _ _) Hc).
  rewrite (is_gbk_loop_spec _ junk (c :: s) [] Hnz); [done|]. cbn. rewrite length_app. lia.
Qed.

(** ** Any input *)

(** The result of a conversion into an array that is not left: a count of elements, or -1. *)
Definition within (dst : list Z) (o : outcome (Z * list Z)) : Prop :=
  ∃ r d, o = Ret (r, d) ∧ len d = len dst ∧ -1 ≤ r ≤ size dst.
(** A C string is written. *)
Definition within_c_str (dst : list Z) (o : outcome (Z * list Z)) : Prop :=
  ∃ r d, o = Ret (r, d) ∧ len d = len dst ∧ (r = -1 ∨ 0 ≤ r < size dst ∧ d !! Z.to_nat r = Some 0).

Lemma size_len l k : size l = size k → len l = len k.
Proof. unfold size. lia. Qed.
Lemma converts_within flags items dst o : converts flags items [] dst o → within dst o.
Proof.
  unfold converts. destruct (_ && _).
  - intros (d & -> & E). eexists _, _. split; [done|]. split; [by apply size_len|]. pose proof (size_pos dst). lia.
  - intros ->. eexists _, _. split; [done|]. split; [apply size_len, fill_size|]. change (size []) with 0. unfold size. lia.
Qed.
Lemma written_within dst bytes o : written [] dst bytes o → within dst o.
Proof.
  destruct bytes as [bytes|].
  - intros (tail & -> & E). eexists _, _. split; [done|]. split; [by apply size_len|]. cbn [app] in *. sizes.
  - intros (d & -> & E). eexists _, _. split; [done|]. split; [by apply size_len|]. pose proof (size_pos dst). lia.
Qed.
Lemma terminated_within dst bytes o : terminated [] dst bytes o → within_c_str dst o.
Proof.
  destruct bytes as [bytes|].
  - intros (tail & -> & E). eexists _, _. split; [done|]. split; [by apply size_len|]. right. cbn [app] in *. split; [sizes|].
    unfold size. rewrite Nat2Z.id, lookup_app_r by lia. by rewrite Nat.sub_diag.
  - intros (d & -> & E). eexists _, _. split; [done|]. split; [by apply size_len|]. by left.
Qed.

(** C25: The conversions are safe for any input, flags and sizes below 2^31: none reads or writes
    outside its arrays or the tables, each ends and returns -1 or the number of elements
    written, and what unicode_to_gbk and utf8_to_gbk write is a C string that ends at the
    number they return. For a C string, is_utf8 and is_gbk read no byte behind its NUL;
    is_utf8 returns at most its length, and without check_last_char all or nothing; is_gbk
    tells whether there is a text without invalid bytes. *)
Theorem uconv_safe (text codes raw wide narrow s junk : list Z) (flags replace_char n : Z) (last : bool) :
  Forall byte text → size text < 2 ^ 31 → size codes < 2 ^ 31 → size wide < 2 ^ 31 → 0 < size narrow < 2 ^ 31 → len raw = 5%nat →
  Forall (.≠ 0) s → size s < 2 ^ 31 →
  within wide (gbk_to_unicode text (size text) wide (size wide) flags) ∧
  within_c_str narrow (unicode_to_gbk codes (size codes) narrow (size narrow) flags replace_char) ∧
  within narrow (gbk_to_utf8 raw text (size text) narrow (size narrow) flags) ∧
  within_c_str narrow (utf8_to_gbk text (size text) narrow (size narrow) flags replace_char) ∧
  (∃ r, is_utf8 (s ++ 0 :: junk) n last = Ret r ∧ 0 ≤ r ≤ size s ∧ (last = false → r = 0 ∨ r = size s)) ∧
  is_gbk (s ++ 0 :: junk) = Ret (negb (bool_decide (s = [])) && negb (existsb bad (gbk_items s))).
Proof.
  intros Hb Ht Hc Hw Hn Hraw Hnz Hs. split_and!.
  - by eapply converts_within, gbk_to_unicode_spec.
  - by eapply terminated_within, unicode_to_gbk_spec.
  - pose proof (gbk_to_utf8_spec raw flags text narrow Hraw Hb Ht Hn) as H. destruct (_ <? _); [|by eapply written_within].
    exists (-1), narrow. split; [done|]. split; [done|]. lia.
  - pose proof (utf8_to_gbk_spec flags replace_char text narrow Hb Ht Hn) as H. destruct (_ <? _); [|by eapply terminated_within].
    exists (-1), narrow. auto.
  - by apply is_utf8_safe.
  - by apply is_gbk_spec.
Qed.

(** ** The tables *)

(** The rows are the array. *)
Lemma row_flat (w : nat) rows i : (0 < w)%nat → Forall (fun r => len r = w) rows → 0 ≤ i → row (Z.of_nat w) rows i = nth (Z.to_nat i) (concat rows) 0.
Proof.
  intros Hw Hr. revert i. induction Hr as [|r rows Er Hr IH]; intros i Hi; unfold row; cbn [concat].
  - by destruct (Z.to_nat (i / _)), (Z.to_nat (i mod _)), (Z.to_nat i).
  - destruct (decide (i < Z.of_nat w)).
    + rewrite Z.div_small, Z.mod_small by lia. cbn. by rewrite app_nth1 by lia.
    + rewrite app_nth2 by lia. replace (Z.to_nat i - len r)%nat with (Z.to_nat (i - Z.of_nat w)) by lia. rewrite <- IH by lia. unfold row.
      replace i with ((i - Z.of_nat w) + 1 * Z.of_nat w) at 1 2 by lia. rewrite Z.div_add, Z.mod_add by lia.
      replace (Z.to_nat ((i - Z.of_nat w) / Z.of_nat w + 1)) with (S (Z.to_nat ((i - Z.of_nat w) / Z.of_nat w))); [done|].
      pose proof (Z.div_pos (i - Z.of_nat w) (Z.of_nat w)). lia.
Qed.
Lemma table_shapes :
  (len gGBKToUnicodeTable_rows = 126%nat ∧ Forall (fun r => len r = 191%nat) gGBKToUnicodeTable_rows) ∧
  (len gUnicodeToGBKTable_rows = 256%nat ∧ Forall (fun r => len r = 256%nat) gUnicodeToGBKTable_rows) ∧
  (len gPsedoUtf8_rows = 16%nat ∧ Forall (fun r => len r = 64%nat) gPsedoUtf8_rows).
Proof. split_and!; (by vm_compute) || (apply (bool_decide_eq_true_1 _); by vm_compute). Qed.

(** Within its bounds an access gives an entry of the array. *)
Lemma row_exists (w n : nat) rows i : (0 < w)%nat → len rows = n → Forall (fun r => len r = w) rows → 0 ≤ i < Z.of_nat (n * w) →
  concat rows !! Z.to_nat i = Some (row (Z.of_nat w) rows i).
Proof.
  intros Hw <- Hr Hi. rewrite row_flat by (done || lia). assert (len (concat rows) = (len rows * w)%nat) as El.
  { clear Hi. induction Hr as [|r rows Er Hr IH]; [done|]. cbn. rewrite length_app, IH. lia. }
  destruct (lookup_lt_is_Some_2 (concat rows) (Z.to_nat i)) as [x Hx]; [lia|].
  rewrite Hx. by rewrite (nth_lookup_Some _ _ 0 x Hx).
Qed.
Lemma entries_exist i :
  (0 ≤ i < MAX_GBK_LENGTH → concat gGBKToUnicodeTable_rows !! Z.to_nat i = Some (gGBKToUnicodeTable i)) ∧
  (0 ≤ i < 2 ^ 16 → concat gUnicodeToGBKTable_rows !! Z.to_nat i = Some (gUnicodeToGBKTable i)) ∧
  (0 ≤ i < MAX_PSEDO_UTF8 → concat gPsedoUtf8_rows !! Z.to_nat i = Some (gPsedoUtf8 i)).
Proof.
  destruct table_shapes as ((L1 & F1) & (L2 & F2) & (L3 & F3)). unfold MAX_GBK_LENGTH, MAX_PSEDO_UTF8.
  split_and!; intros Hi; [apply (row_exists 191 126)|apply (row_exists 256 256)|apply (row_exists 64 16)]; (done || lia).
Qed.

Lemma in_pairs_spec a b l : in_pairs a b l = true ↔ (a, b) ∈ l.
Proof.
  unfold in_pairs. rewrite existsb_exists. split.
  - intros ([x y] & Hin & H). assert (a = x ∧ b = y) as [-> ->] by lia. by apply list_elem_of_In.
  - intros Hin. exists (a, b). split; [by apply list_elem_of_In|]. lia.
Qed.

(** C33: cp936map.h and un2gbkmap.h are inverse to each other on all 23940 two-byte characters but
    23: 12 have no code unit, and the entries of 11 do not agree (of these 0xA3A0 is a space on
    purpose, see cp936map.h). *)
Theorem gbk_tables (a b : Z) : LEGAL_GBK_FIRST_BYTE a = true → LEGAL_GBK_SECOND_BYTE b = true →
  (gUnicodeToGBKTable (gbk_char_to_unicode a b) = a * 256 + b ↔ (a, b) ∉ unmapped ++ mismatched) ∧
  (gbk_char_to_unicode a b = UCS2_NO_MAPPING ↔ (a, b) ∈ unmapped).
Proof.
  intros Ha Hb. pose proof (entry_at a b Ha Hb) as H. unfold entry_ok in H. apply andb_true_iff in H as [_ H].
  rewrite elem_of_app, <- !in_pairs_spec. unfold LEGAL_GBK_FIRST_BYTE, UINT8_IN_RANGE in Ha.
  assert (gUnicodeToGBKTable UCS2_NO_MAPPING = 0) as E0 by (by vm_compute).
  assert (0 < a * 256 + b) by (unfold LEGAL_GBK_SECOND_BYTE, UINT8_IN_RANGE in Hb; lia).
  destruct (in_pairs a b unmapped); [|destruct (in_pairs a b mismatched)].
  - apply Z.eqb_eq in H. rewrite H, E0. split; [|done]. split; [lia|intros []; by left].
  - split; [|split; [lia|done]]. split; [lia|intros []; by right].
  - apply Z.eqb_eq in H. rewrite H. split; [split; [intros _ [|]; done|done]|]. split; [|done]. intros E. rewrite E, E0 in H. lia.
Qed.

(** ** Deviations *)

(** gbk_to_utf8 with UCONV_INVCHAR_REPLACE stays at an invalid byte and repeats the last
    character: "a", an invalid byte and "bc" give "aaaa". *)
Lemma gbk_to_utf8_repeats : gbk_to_utf8 [0; 0; 0; 0; 0] [97; 0xFF; 98; 99] 4 (replicate 8 0) 8 UCONV_INVCHAR_REPLACE
  = Ret (4, [97; 97; 97; 97; 0; 0; 0; 0]).
Proof. by vm_compute. Qed.
(** The size that gbk_to_utf8 asks for is too small for an odd number of bytes: a character of two
    bytes and "a" lose the "a", and two Euro signs lose one. *)
Lemma gbk_to_utf8_cut : gbk_to_utf8 [0; 0; 0; 0; 0] [0xB0; 0xA1; 97] 3 (replicate 4 0) 4 UCONV_INVCHAR_ERROR = Ret (3, [229; 149; 138; 0]) ∧
  gbk_to_utf8 [0; 0; 0; 0; 0] [0x80; 0x80] 2 (replicate 4 0) 4 UCONV_INVCHAR_ERROR = Ret (3, [226; 130; 172; 0]).
Proof. by vm_compute. Qed.
(** gbk_to_unicode with UCONV_INVCHAR_IGNORE counts an invalid byte and leaves its element of the
    destination as it was. *)
Lemma gbk_to_unicode_ignore x : gbk_to_unicode [97; 0xFF; 98] 3 [0; x; 0] 3 UCONV_INVCHAR_IGNORE = Ret (3, [97; x; 98]).
Proof. by vm_compute. Qed.
(** is_gbk_n reads the byte behind the [length] bytes that it is given. *)
Lemma is_gbk_n_overrun : is_gbk_n [65] 1 = Err Undefined.
Proof. by vm_compute. Qed.

Module Demo.
Definition t : list gbk_char := [Ascii 72; Han 0xC4 0xE3; Euro; Han 0xBA 0xC3; Ascii 33].
Lemma mapped_t : Forall mapped t.
Proof. unfold t, mapped. repeat constructor; (lia || by vm_compute). Qed.

Lemma gbk_roundtrip_witness : gbk_text t = [72; 0xC4; 0xE3; 0x80; 0xBA; 0xC3; 33] ∧ units t = [72; 0x4F60; 0x20AC; 0x597D; 33] ∧
  ∃ rest, utf8_to_gbk (utf8_text t) 11 (replicate 16 0) 16 UCONV_INVCHAR_ERROR 63 = Ret (7, gbk_text t ++ 0 :: rest).
Proof.
  split; [by vm_compute|]. split; [by vm_compute|].
  destruct (gbk_roundtrip t 0 UCONV_INVCHAR_ERROR 63 [0; 0; 0; 0; 0] (replicate 8 0) (replicate 16 0) (replicate 16 0) mapped_t)
    as (_ & _ & H); try (by vm_compute); try (vm_compute; split; congruence).
  destruct H as (_ & _ & H); [repeat constructor; by vm_compute|exact H].
Defined.
Lemma uconv_safe_witness : within_c_str (replicate 4 7) (utf8_to_gbk [0xE4; 0xBD; 0xA0; 97] 4 (replicate 4 7) 4 0 63) ∧
  is_gbk [0xC4; 0xE3; 0] = Ret true.
Proof.
  assert (Forall byte [0xE4; 0xBD; 0xA0; 97]) as Hb by (rewrite !Forall_cons; unfold byte; repeat split; lia || constructor).
  assert (Forall (.≠ 0) [0xC4; 0xE3]) as Hnz by (rewrite !Forall_cons; repeat split; lia || constructor).
  destruct (uconv_safe [0xE4; 0xBD; 0xA0; 97] [0x4F60] [0; 0; 0; 0; 0] [0; 0] (replicate 4 7) [0xC4; 0xE3] [] 0 63 2 false
    Hb eq_refl eq_refl eq_refl (conj eq_refl eq_refl) eq_refl Hnz eq_refl) as (_ & _ & _ & H & _ & H').
  split; [exact H|exact H'].
Defined.
Lemma gbk_tables_witness : gUnicodeToGBKTable (gbk_char_to_unicode 0xC4 0xE3) = 0xC4E3.
Proof. apply (gbk_tables 0xC4 0xE3); [by vm_compute|by vm_compute|]. apply (bool_decide_eq_true_1 ((0xC4, 0xE3) ∉ unmapped ++ mismatched)). by vm_compute. Defined.
End Demo.
End UconvSpec.
