(* ===== verification/Observable.v ===== *)
(** concurrency/Observable.h and Observer.h: observers that subscribe to events and may
    subscribe and unsubscribe while they are notified.  A closure runs on the world, the
    observable and the calls that observers got, by the monad [act] of Gen.v: an exception
    keeps the state it was thrown in.  A std::map is the list of its pairs in the order of keys;
    a thread-local pointer that is null is the same as one to an empty object.  Module
    ObservableProof has what observers are promised and what they are not. *)
From S2P Require Import Prelude Gen.

Module Observable.
Import Gen.

Section Model.
Context {O V : Type}.

(** ** State *)

Record tls := mk_tls { inCallback_ : bool; newSubscribers_ : list (Z * O); oldSubscribers_ : list Z }.
Record observable := mk_observable {
  nextSubscriptionId_ : Z;
  subscribers_ : list (Z * O);
  enabled : bool;                 (* the Unsubscriber's observable_ is not null *)
  threads : gmap Z tls;           (* the thread-local pointers *)
  readers : gset Z                (* who holds subscribersLock_ for reading *)
}.
Record world := mk_world { self : observable; calls : list (O * V) }.

Definition idle : tls := mk_tls false [] [].
Definition local (t : Z) (s : observable) : tls := default idle (threads s !! t).

Definition with_next n s := mk_observable n (subscribers_ s) (enabled s) (threads s) (readers s).
Definition with_subscribers m s := mk_observable (nextSubscriptionId_ s) m (enabled s) (threads s) (readers s).
Definition with_enabled b s := mk_observable (nextSubscriptionId_ s) (subscribers_ s) b (threads s) (readers s).
Definition with_local t l s :=
  mk_observable (nextSubscriptionId_ s) (subscribers_ s) (enabled s) (<[t := l]> (threads s)) (readers s).
Definition with_readers r s := mk_observable (nextSubscriptionId_ s) (subscribers_ s) (enabled s) (threads s) r.

Definition get_self : act world observable := fun w => (Ret (self w), w).
Definition upd (f : observable → observable) : act world unit := fun w => (Ret tt, mk_world (f (self w)) (calls w)).
Definition call (o : O) (val : V) : act world unit := fun w => (Ret tt, mk_world (self w) (calls w ++ [(o, val)])).
Definition RDDCHECK (b : bool) : act world unit := raise (check b AssertFailed).

(** ** std::map *)

(** insert keeps a pair that is there. *)
Fixpoint map_insert (k : Z) (o : O) (m : list (Z * O)) : list (Z * O) :=
  match m with
  | [] => [(k, o)]
  | (k', o') :: m' => if k <? k' then (k, o) :: m else if k =? k' then m else (k', o') :: map_insert k o m'
  end.
Definition map_erase (k : Z) (m : list (Z * O)) : list (Z * O) := filter (fun kv => kv.1 ≠ k) m.
Definition map_has (k : Z) (m : list (Z * O)) : bool := existsb (fun kv => kv.1 =? k) m.

(** ** Locking *)

(** [RWSpinLock::WriteHolder{&subscribersLock_};] is a temporary: it waits until there is no
    reader and is destroyed at the end of the statement, before the map is changed.  Waiting
    for readers that do not go away never ends. *)
Definition write_holder_temporary : act world unit :=
  s ← get_self;
  if decide (readers s = ∅) then mret tt else raise (Err OutOfFuel).
(** Changing the map while a thread iterates over it is undefined. *)
Definition change_map (f : list (Z * O) → list (Z * O)) : act world unit :=
  s ← get_self;
  if decide (readers s = ∅) then upd (with_subscribers (f (subscribers_ s)))
  else raise (Err Undefined).

(** ** subscribe *)

(** The id of the Subscription that is returned. *)
Definition makeSubscription : act world Z :=
  s ← get_self;
  let id := nextSubscriptionId_ s in
  _ ← upd (with_next (u64 (id + 1)));
  _ ← RDDCHECK (0 <? id);
  mret id.

Definition subscribe (t : Z) (observer : O) : act world Z :=
  id ← makeSubscription;
  s ← get_self;
  let l := local t s in
  _ ← (if inCallback_ l
       then upd (with_local t (mk_tls true (map_insert id observer (newSubscribers_ l)) (oldSubscribers_ l)))
       else _ ← write_holder_temporary; change_map (map_insert id observer));
  mret id.

(** ** unsubscribe *)

Definition unsubscribe (t id : Z) : act world unit :=
  s ← get_self;
  let l := local t s in
  if inCallback_ l then
    if map_has id (newSubscribers_ l)
    then upd (with_local t (mk_tls true (map_erase id (newSubscribers_ l)) (oldSubscribers_ l)))
    else upd (with_local t (mk_tls true (newSubscribers_ l) (oldSubscribers_ l ++ [id])))
  else _ ← write_holder_temporary; change_map (map_erase id).

Definition Unsubscriber_unsubscribe (t id : Z) : act world unit :=
  _ ← RDDCHECK (0 <? id);
  s ← get_self;
  if enabled s then unsubscribe t id else mret tt.
(** ~Observable *)
Definition disable : act world unit := upd (with_enabled false).

(** A Subscription: whether its pointer is set, and its id. *)
Record Subscription := mk_subscription { unsubscriber_ : bool; id_ : Z }.
Definition no_subscription : Subscription := mk_subscription false 0.
Definition Subscription_unsubscribe (t : Z) (sub : Subscription) : act world Subscription :=
  if unsubscriber_ sub && (0 <? id_ sub) then _ ← Unsubscriber_unsubscribe t (id_ sub); mret no_subscription
  else mret sub.
(** operator=(Subscription&&): the target and the source. *)
Definition Subscription_assign (t : Z) (target source : Subscription) : act world (Subscription * Subscription) :=
  _ ← Subscription_unsubscribe t target;
  mret (source, no_subscription).

(** ** forEachObserver *)

Fixpoint each_subscriber (f : O → act world unit) (m : list (Z * O)) : act world unit :=
  match m with
  | [] => mret tt
  | (_, o) :: m => _ ← f o; each_subscriber f m
  end.

Definition enter (t : Z) : act world unit :=
  s ← get_self;
  _ ← RDDCHECK (negb (inCallback_ (local t s)));
  upd (with_local t (mk_tls true (newSubscribers_ (local t s)) (oldSubscribers_ (local t s)))).
Definition lock_reader (t : Z) : act world unit := upd (fun s => with_readers (readers s ∪ {[t]}) s).
Definition unlock_reader (t : Z) : act world unit := upd (fun s => with_readers (readers s ∖ {[t]}) s).
(** The block of the ReadHolder, which unlocks also when an observer throws. *)
Definition read_held (t : Z) (m : act world unit) : act world unit := fun w =>
  let '(r, w) := (_ ← lock_reader t; m) w in
  let '(_, w) := unlock_reader t w in (r, w).
(** What the callbacks of this thread left; here the WriteHolder has a name. *)
Definition merge (t : Z) : act world unit :=
  s ← get_self;
  let l := local t s in
  match newSubscribers_ l, oldSubscribers_ l with
  | [], [] => mret tt
  | added, removed =>
      _ ← write_holder_temporary;
      _ ← change_map (fun m => foldl (fun m id => map_erase id m) (foldl (fun m kv => map_insert kv.1 kv.2 m) m added) removed);
      upd (with_local t (mk_tls (inCallback_ l) [] []))
  end.
Definition leave (t : Z) : act world unit :=
  s ← get_self;
  upd (with_local t (mk_tls false (newSubscribers_ (local t s)) (oldSubscribers_ (local t s)))).

Definition forEachObserver (t : Z) (f : O → act world unit) : act world unit :=
  _ ← enter t;
  _ ← read_held t (s ← get_self; each_subscriber f (subscribers_ s));
  _ ← merge t;
  leave t.

(** ** Subject *)

(** What an observer may do with the subject when it is notified. *)
Inductive reaction := Subscribe (o : O) | Unsubscribe (id : Z) | On (val : V) | Throw (what : string).
Context (react : O → V → list reaction).

(** Subject::on; the depth of nested calls is bounded by [fuel]. *)
Fixpoint on (fuel : nat) (t : Z) (val : V) : act world unit :=
  match fuel with
  | Datatypes.O => raise (Err OutOfFuel)
  | S fuel =>
      let perform (a : reaction) : act world unit :=
        match a with
        | Subscribe o => _ ← subscribe t o; mret tt
        | Unsubscribe id => Unsubscriber_unsubscribe t id
        | On val => on fuel t val
        | Throw what => raise (Err (Thrown what))
        end in
      forEachObserver t (fun o =>
        _ ← call o val;
        foldr (fun a k => _ ← perform a; k) (mret tt) (react o val))
  end.
End Model.
End Observable.

(** ** What observers see: the subscriptions as of the start of an event; changes that they make take
    effect after it. *)

Module ObservableProof.
Import Gen Observable.

Section Spec.
Context {O V : Type} (react : O → V → list (@reaction O V)).

(** ** What is promised *)

(** The subscriptions in the order of their ids, and the next id. *)
Record promise := mk_promise { live : list (Z * O); next : Z }.

Definition add (o : O) (p : promise) : option promise :=
  if next p <? 2 ^ 64 - 1 then Some (mk_promise (live p ++ [(next p, o)]) (next p + 1)) else None.
(** Only ids that were given out can be removed. *)
Definition remove (id : Z) (p : promise) : option promise :=
  if (0 <? id) && (id <? next p) then Some (mk_promise (map_erase id (live p)) (next p)) else None.

(** What an observer does is done to the subscriptions at once, but the event goes to those that
    there were when it began. *)
Definition does (a : @reaction O V) (p : promise) : option promise :=
  match a with Subscribe o => add o p | Unsubscribe id => remove id p | _ => None end.
Fixpoint do_all (l : list (@reaction O V)) (p : promise) : option promise :=
  match l with [] => Some p | a :: l => does a p ≫= do_all l end.

Inductive op := OpSubscribe (o : O) | OpUnsubscribe (id : Z) | OpOn (val : V).
Fixpoint spec_run (ops : list op) (p : promise) (log : list (O * V)) : option (promise * list (O * V)) :=
  match ops with
  | [] => Some (p, log)
  | OpSubscribe o :: ops => p ← add o p; spec_run ops p log
  | OpUnsubscribe id :: ops => p ← remove id p; spec_run ops p log
  | OpOn val :: ops =>
      p' ← do_all (concat (map (fun kv => react kv.2 val) (live p))) p;
      spec_run ops p' (log ++ map (fun kv => (kv.2, val)) (live p))
  end.

(** The calls of one thread. *)
Fixpoint run (t : Z) (ops : list op) : act (@world O V) unit :=
  match ops with
  | [] => mret tt
  | OpSubscribe o :: ops => _ ← subscribe t o; run t ops
  | OpUnsubscribe id :: ops => _ ← Unsubscriber_unsubscribe t id; run t ops
  | OpOn val :: ops => _ ← on react 1 t val; run t ops
  end.

(** ** The map *)

Definition below (n : Z) (m : list (Z * O)) : Prop := Forall (fun kv => 0 < kv.1 < n) m.

Lemma map_insert_last k o (m : list (Z * O)) : below k m → map_insert k o m = m ++ [(k, o)].
Proof.
  induction 1 as [|[k' o'] m Hk Hm IH]; [done|]. cbn in *. rewrite (proj2 (Z.ltb_ge _ _)), (proj2 (Z.eqb_neq _ _)) by lia. by rewrite IH.
Qed.
Lemma below_mono n n' m : n ≤ n' → below n m → below n' m.
Proof. intros Hn Hm. eapply Forall_impl; [exact Hm|]. cbn. lia. Qed.
Lemma below_erase n id m : below n m → below n (map_erase id m).
Proof.
  intros Hm. apply Forall_forall. intros kv [_ Hin]%list_elem_of_filter. by apply (proj1 (Forall_forall _ _) Hm).
Qed.
Lemma map_has_spec id (m : list (Z * O)) : map_has id m = false → Forall (fun kv => kv.1 ≠ id) m.
Proof.
  unfold map_has. induction m as [|kv m IH]; cbn; [constructor|]. intros [H1 H2]%orb_false_iff. constructor; [lia|auto].
Qed.
Lemma map_erase_none id (m : list (Z * O)) : Forall (fun kv => kv.1 ≠ id) m → map_erase id m = m.
Proof. induction 1 as [|kv m Hk Hm IH]; [done|]. unfold map_erase. rewrite filter_cons_True by done. by f_equal. Qed.

(** Ids that ascend from [lo] on. *)
Fixpoint ascend (lo : Z) (m : list (Z * O)) : Prop :=
  match m with [] => True | kv :: m => lo ≤ kv.1 ∧ ascend (kv.1 + 1) m end.
Lemma ascend_mono lo lo' m : lo' ≤ lo → ascend lo m → ascend lo' m.
Proof. destruct m as [|kv m]; [done|]. cbn. intros Hlo [H1 H2]. split; [lia|done]. Qed.
Lemma ascend_erase id m : ∀ lo, ascend lo m → ascend lo (map_erase id m).
Proof.
  induction m as [|kv m IH]; intros lo Hm; [done|]. destruct Hm as [H1 H2]. unfold map_erase. rewrite filter_cons.
  destruct (decide _); cbn; [split; [done|by apply IH]|]. apply (ascend_mono (kv.1 + 1)); [lia|by apply IH].
Qed.
Lemma ascend_snoc k o m : ∀ lo, ascend lo m → lo ≤ k → below k m → ascend lo (m ++ [(k, o)]).
Proof.
  induction m as [|kv m IH]; intros lo Hm Hk Hb; [by split|]. destruct Hm as [H1 H2]. apply Forall_cons in Hb as [Hkv Hb]. cbn in *.
  split; [done|]. apply IH; [done|lia|done].
Qed.
Lemma insert_all added : ∀ lo m, 0 < lo → below lo m → ascend lo added → foldl (fun m kv => map_insert kv.1 kv.2 m) m added = m ++ added.
Proof.
  induction added as [|[k o] added IH]; intros lo m Hlo Hm Ha; cbn [foldl]; [by rewrite app_nil_r|]. destruct Ha as [Hk Ha]. cbn in *.
  rewrite map_insert_last by (by apply (below_mono lo)). rewrite (IH (k + 1)); [by rewrite <- app_assoc|lia| |done].
  apply Forall_app. split; [apply (below_mono lo); [lia|done]|]. constructor; [cbn; lia|constructor].
Qed.
(** Removing many ids. *)
Definition erase_all (removed : list Z) (m : list (Z * O)) : list (Z * O) := foldl (fun m id => map_erase id m) m removed.
Lemma erase_all_app removed m k : erase_all removed (m ++ k) = erase_all removed m ++ erase_all removed k.
Proof. revert m k. induction removed as [|id removed IH]; intros m k; [done|]. cbn. unfold map_erase. rewrite list.filter_app. apply IH. Qed.
Lemma erase_all_none removed m : Forall (fun kv => kv.1 ∉ removed) m → erase_all removed m = m.
Proof.
  induction removed as [|id removed IH]; intros Hm; [done|]. cbn. rewrite map_erase_none; [apply IH|]; (eapply Forall_impl; [exact Hm|]); set_solver.
Qed.

(** ** Inside an event *)

(** The world at rest shows the promise [p] and the calls [log]. *)
Record shows (t : Z) (p : promise) (log : list (O * V)) (w : world) : Prop := {
  sh_subscribers : subscribers_ (self w) = live p;
  sh_next : nextSubscriptionId_ (self w) = next p;
  sh_range : 0 < next p < 2 ^ 64;
  sh_below : below (next p) (live p);
  sh_enabled : enabled (self w) = true;
  sh_local : local t (self w) = idle;
  sh_readers : readers (self w) = ∅;
  sh_calls : calls w = log
}.

(** While the observers of [m], the map at the beginning, are called: what this thread put aside
    and the map make up the promise. *)
Record inside (t : Z) (m : list (Z * O)) (start : Z) (p : promise) (log : list (O * V)) (w : world) : Prop := {
  in_subscribers : subscribers_ (self w) = m;
  in_next : nextSubscriptionId_ (self w) = next p;
  in_range : 0 < start ≤ next p ∧ next p < 2 ^ 64;
  in_below : below start m;
  in_enabled : enabled (self w) = true;
  in_local : ∃ added removed, local t (self w) = mk_tls true added removed ∧
    ascend start added ∧ below (next p) added ∧ Forall (fun kv => kv.1 ∉ removed) added ∧ Forall (fun id => id < next p) removed ∧
    live p = erase_all removed m ++ added;
  in_readers : readers (self w) = {[t]};
  in_calls : calls w = log
}.

Lemma local_with t l s : local t (with_local t l s : @observable O) = l.
Proof. unfold local. cbn. by rewrite lookup_insert_eq. Qed.

Lemma below_app n (m k : list (Z * O)) : below n (m ++ k) ↔ below n m ∧ below n k.
Proof. apply Forall_app. Qed.
Lemma below_erase_all n removed m : below n m → below n (erase_all removed m).
Proof. revert m. induction removed as [|id removed IH]; intros m Hm; [done|]. cbn. by apply IH, below_erase. Qed.

Lemma inside_subscribe t m start p p' log w o : inside t m start p log w → add o p = Some p' →
  ∃ id w', subscribe t o w = (Ret id, w') ∧ inside t m start p' log w'.
Proof.
  intros Hin Hadd. unfold add in Hadd. destruct (Z.ltb_spec (next p) (2 ^ 64 - 1)) as [Hlt|]; [|done]. injection Hadd as <-.
  destruct Hin as [Em En [Hr1 Hr2] Hb He (added & removed & El & Ha & Hba & Hna & Hrm & Elive) Hrd Hc].
  eexists _, _. split.
  - unfold subscribe, makeSubscription, get_self, upd, RDDCHECK, raise. unfold mbind, act_bind. cbn. rewrite En, (proj2 (Z.ltb_lt 0 _)) by lia. cbn.
    change (local t (with_next ?n ?s)) with (local t s). rewrite El. cbn. reflexivity.
  - split; cbn; try done; [by rewrite u64_small by lia|lia|].
    exists (added ++ [(next p, o)]), removed. rewrite local_with, map_insert_last by done. split; [done|]. split_and!.
    + apply ascend_snoc; [done|lia|done].
    + apply below_app. split; [apply (below_mono (next p)); [lia|done]|]. constructor; [cbn; lia|constructor].
    + apply Forall_app. split; [done|]. constructor; [|constructor]. cbn. intros Hin. pose proof (proj1 (Forall_forall _ _) Hrm _ Hin). cbn in *. lia.
    + eapply Forall_impl; [exact Hrm|]. cbn. lia.
    + by rewrite Elive, <- app_assoc.
Qed.

Lemma ascend_from lo m kv : ascend lo m → kv ∈ m → lo ≤ kv.1.
Proof.
  revert lo. induction m as [|x m IH]; intros lo Hm Hin; [by apply not_elem_of_nil in Hin|]. destruct Hm as [H1 H2].
  apply elem_of_cons in Hin as [->|Hin]; [done|]. specialize (IH _ H2 Hin). lia.
Qed.
Lemma Forall_erase (P : Z * O → Prop) id m : Forall P m → Forall P (map_erase id m).
Proof. intros Hm. apply Forall_forall. intros kv [_ Hin]%list_elem_of_filter. by apply (proj1 (Forall_forall _ _) Hm). Qed.

Lemma inside_unsubscribe t m start p p' log w id : inside t m start p log w → remove id p = Some p' →
  ∃ w', Unsubscriber_unsubscribe t id w = (Ret tt, w') ∧ inside t m start p' log w'.
Proof.
  intros Hin Hrem. unfold remove in Hrem. destruct ((0 <? id) && (id <? next p)) eqn:Eid; [|done]. injection Hrem as <-.
  destruct Hin as [Em En [Hr1 Hr2] Hb He (added & removed & El & Ha & Hba & Hna & Hrm & Elive) Hrd Hc].
  unfold Unsubscriber_unsubscribe, RDDCHECK, raise, unsubscribe, get_self, upd. unfold mbind, act_bind. rewrite (proj1 (andb_prop _ _ Eid)). cbn -[map_has map_erase].
  rewrite He. cbn -[map_has map_erase]. rewrite El. cbn -[map_has map_erase].
  destruct (map_has id added) eqn:Eh; eexists; (split; [done|]); (split; cbn; try done); (eexists _, _; rewrite local_with; split; [done|]); split_and!; try done.
  - by apply ascend_erase.
  - by apply below_erase.
  - by apply Forall_erase.
  - rewrite Elive. unfold map_erase at 1. rewrite list.filter_app. f_equal. apply map_erase_none.
    apply existsb_exists in Eh as ([k o] & Hk & Ek). apply list_elem_of_In in Hk. pose proof (ascend_from _ _ _ Ha Hk). cbn in *.
    eapply Forall_impl; [apply below_erase_all, Hb|]. cbn. lia.
  - apply map_has_spec in Eh. apply Forall_forall. intros kv Hkv. pose proof (proj1 (Forall_forall _ _) Hna _ Hkv). pose proof (proj1 (Forall_forall _ _) Eh _ Hkv). cbn in *. set_solver.
  - apply Forall_app. split; [done|]. constructor; [lia|constructor].
  - rewrite Elive. unfold map_erase, erase_all. rewrite list.filter_app, foldl_app. cbn. f_equal. apply map_erase_none. by apply map_has_spec.
Qed.

(** The calls of the observers, whatever they do. *)
Lemma inside_call t m start p log w o val : inside t m start p log w → ∃ w', call o val w = (Ret tt, w') ∧ inside t m start p (log ++ [(o, val)]) w'.
Proof. intros [? ? ? ? ? ? ? Hc]. eexists. split; [done|]. split; cbn; try done. by rewrite Hc. Qed.

Definition perform (t : Z) (a : @reaction O V) : act (@world O V) unit :=
  match a with
  | Subscribe o => _ ← subscribe t o; mret tt
  | Unsubscribe id => Unsubscriber_unsubscribe t id
  | On val => on react 0 t val
  | Throw what => raise (Err (Thrown what))
  end.
Definition notify (t : Z) (val : V) (o : O) : act (@world O V) unit :=
  _ ← call o val;
  foldr (fun a k => _ ← perform t a; k) (mret tt) (react o val).
Lemma on_1 t val : on react 1 t val = forEachObserver t (notify t val).
Proof. done. Qed.

(** Sequences of closures that do not throw. *)
Lemma act_seq {A B} (a : act (@world O V) A) (k : A → act (@world O V) B) w x w' : a w = (Ret x, w') → (a ≫= k) w = k x w'.
Proof. unfold mbind, act_bind. by intros ->. Qed.

Lemma inside_actions t m start log l : ∀ p p' w, inside t m start p log w → do_all l p = Some p' →
  ∃ w', foldr (fun a k => _ ← perform t a; k) (mret tt) l w = (Ret tt, w') ∧ inside t m start p' log w'.
Proof.
  induction l as [|a l IH]; intros p p' w Hin Hdo; cbn [do_all foldr] in *; [injection Hdo as <-; by eexists|].
  destruct (does a p) as [p1|] eqn:Ea; [|done]. cbn in Hdo.
  assert (∃ w1, perform t a w = (Ret tt, w1) ∧ inside t m start p1 log w1) as (w1 & E1 & Hin1).
  { destruct a as [o|id|v|what]; cbn in Ea; try done; cbn [perform].
    - destruct (inside_subscribe t m start p p1 log w o Hin Ea) as (id & w1 & E1 & Hin1). exists w1. split; [|done]. by rewrite (act_seq _ _ _ _ _ E1).
    - by apply (inside_unsubscribe t m start p). }
  destruct (IH p1 p' w1 Hin1 Hdo) as (w' & E & Hin'). exists w'. split; [|done]. by rewrite (act_seq _ _ _ _ _ E1).
Qed.

Lemma do_all_app l k p p' : do_all (l ++ k) p = Some p' → ∃ p1, do_all l p = Some p1 ∧ do_all k p1 = Some p'.
Proof.
  revert p. induction l as [|a l IH]; intros p H; cbn in *; [by eexists|]. destruct (does a p) as [p1|]; [|done]. cbn in *. by apply IH.
Qed.

Lemma inside_each t m start val rest : ∀ log p p' w, inside t m start p log w → do_all (concat (map (fun kv => react kv.2 val) rest)) p = Some p' →
  ∃ w', each_subscriber (notify t val) rest w = (Ret tt, w') ∧ inside t m start p' (log ++ map (fun kv => (kv.2, val)) rest) w'.
Proof.
  induction rest as [|[id o] rest IH]; intros log p p' w Hin Hdo; cbn [map concat each_subscriber] in *.
  - injection Hdo as <-. rewrite app_nil_r. by eexists.
  - apply do_all_app in Hdo as (p1 & Hd1 & Hd2). cbn in Hd1.
    destruct (inside_call t m start p log w o val Hin) as (w1 & E1 & Hin1).
    destruct (inside_actions t m start _ _ p p1 w1 Hin1 Hd1) as (w2 & E2 & Hin2).
    destruct (IH _ _ _ _ Hin2 Hd2) as (w3 & E3 & Hin3). exists w3. cbn. rewrite <- app_assoc in Hin3. split; [|done].
    rewrite (act_seq (notify t val o) _ w tt w2); [done|]. unfold notify. by rewrite (act_seq _ _ _ _ _ E1).
Qed.

(** ** The beginning and the end of an event *)

Lemma enter_lock t p log w : shows t p log w → ∃ w1 w2, enter t w = (Ret tt, w1) ∧ lock_reader t w1 = (Ret tt, w2) ∧
  inside t (live p) (next p) p log w2.
Proof.
  intros [Em En Hr Hb He El Hrd Hc]. unfold enter, lock_reader, get_self, upd, RDDCHECK, raise. unfold mbind, act_bind. cbn. rewrite El. cbn.
  eexists _, _. split; [done|]. split; [done|]. split; cbn; try done; [lia| |rewrite Hrd; set_solver].
  exists [], []. cbn. unfold local at 1. cbn. rewrite lookup_insert_eq. cbn. rewrite app_nil_r. split_and!; try done; constructor.
Qed.

(** What is promised holds of the ids. *)
Lemma inside_live t m start p log w : inside t m start p log w → below (next p) (live p).
Proof.
  intros [_ _ [Hr _] Hb _ (added & removed & _ & _ & Hba & _ & _ & ->) _ _]. apply below_app. split; [|done].
  apply below_erase_all, (below_mono start); [lia|done].
Qed.

Lemma merge_leave t m start p log w : inside t m start p log w →
  ∃ w', (_ ← merge t; leave t) (unlock_reader t w).2 = (Ret tt, w') ∧ shows t p log w'.
Proof.
  intros Hin. assert (Hbl := inside_live _ _ _ _ _ _ Hin).
  destruct Hin as [Em En Hr Hb He (added & removed & El & Ha & Hba & Hna & Hrm & Elive) Hrd Hc].
  assert (Hout : readers (self w) ∖ {[t]} = ∅) by (rewrite Hrd; set_solver).
  assert (Hmap : erase_all removed (foldl (fun m kv => map_insert kv.1 kv.2 m) m added) = live p).
  { rewrite (insert_all added start) by (done || lia). by rewrite erase_all_app, (erase_all_none removed added), Elive by done. }
  unfold merge, leave, write_holder_temporary, change_map, unlock_reader, get_self, upd. unfold mbind, act_bind. cbn -[foldl map_insert].
  change (local t (with_readers ?r ?s)) with (local t s). rewrite El. cbn -[foldl map_insert].
  destruct (added, removed) as [[|a1 added'] [|r1 removed']] eqn:E; injection E as -> ->; cbn -[foldl map_insert];
    rewrite ?Hout; rewrite ?(decide_True _ _ eq_refl); cbn -[foldl map_insert]; rewrite ?Hout; rewrite ?(decide_True _ _ eq_refl); cbn -[foldl map_insert].
  all: eexists; (split; [reflexivity|]); split; cbn -[foldl map_insert]; rewrite ?Em; try done; try lia.
  all: rewrite !local_with; try done. by change (local t (with_readers ?r ?s)) with (local t s); rewrite El.
Qed.

Lemma shows_on t p p' log w val : shows t p log w → do_all (concat (map (fun kv => react kv.2 val) (live p))) p = Some p' →
  ∃ w', on react 1 t val w = (Ret tt, w') ∧ shows t p' (log ++ map (fun kv => (kv.2, val)) (live p)) w'.
Proof.
  intros Hs Hdo. destruct (enter_lock t p log w Hs) as (w1 & w2 & E1 & E2 & Hin).
  destruct (inside_each t _ _ val (live p) log p p' w2 Hin Hdo) as (w3 & E3 & Hin3).
  destruct (merge_leave t _ _ _ _ _ Hin3) as (w4 & E4 & Hs4). exists w4. split; [|done].
  rewrite on_1. unfold forEachObserver. rewrite (act_seq _ _ _ _ _ E1).
  rewrite (act_seq (read_held _ _) _ w1 tt (unlock_reader t w3).2); [exact E4|].
  unfold read_held. rewrite (act_seq _ _ _ _ _ E2). unfold get_self. unfold mbind, act_bind. by rewrite (in_subscribers _ _ _ _ _ _ Hin), E3.
Qed.

(** ** Between events *)

Lemma shows_subscribe t p p' log w o : shows t p log w → add o p = Some p' →
  ∃ w', subscribe t o w = (Ret (next p), w') ∧ shows t p' log w'.
Proof.
  intros [Em En Hr Hb He El Hrd Hc] Hadd. unfold add in Hadd. destruct (Z.ltb_spec (next p) (2 ^ 64 - 1)) as [Hlt|]; [|done]. injection Hadd as <-.
  eexists. split.
  - unfold subscribe, makeSubscription, write_holder_temporary, change_map, get_self, upd, RDDCHECK, raise. unfold mbind, act_bind. cbn.
    rewrite En, (proj2 (Z.ltb_lt 0 _)) by lia. cbn. change (local t (with_next ?n ?s)) with (local t s). rewrite El. cbn.
    rewrite Hrd, (decide_True _ _ eq_refl). cbn. rewrite Hrd, (decide_True _ _ eq_refl). cbn. reflexivity.
  - split; cbn; try done; [by rewrite Em, map_insert_last|by rewrite u64_small by lia|lia|].
    apply below_app. split; [apply (below_mono (next p)); [lia|done]|]. constructor; [cbn; lia|constructor].
Qed.

Lemma shows_unsubscribe t p p' log w id : shows t p log w → remove id p = Some p' →
  ∃ w', Unsubscriber_unsubscribe t id w = (Ret tt, w') ∧ shows t p' log w'.
Proof.
  intros [Em En Hr Hb He El Hrd Hc] Hrem. unfold remove in Hrem. destruct ((0 <? id) && (id <? next p)) eqn:Eid; [|done]. injection Hrem as <-.
  eexists. split.
  - unfold Unsubscriber_unsubscribe, RDDCHECK, raise, unsubscribe, write_holder_temporary, change_map, get_self, upd. unfold mbind, act_bind.
    rewrite (proj1 (andb_prop _ _ Eid)). cbn. rewrite He. cbn. rewrite El. cbn. rewrite Hrd, (decide_True _ _ eq_refl). cbn.
    rewrite Hrd, (decide_True _ _ eq_refl). reflexivity.
  - split; cbn; try done; [by rewrite Em|by apply below_erase].
Qed.

(** C29: One thread that subscribes, unsubscribes and sends events, whose observers may themselves
    subscribe and unsubscribe when they are called, sees the subscriptions promised: an event
    goes to those that there were when it began, in the order in which they subscribed, and what
    its observers changed holds from the next event on (an observer subscribed and unsubscribed
    within an event is never called).  No call throws or waits for ever, and the thread-local
    lists are empty again between events. *)
Theorem observable_refines t ops : ∀ p log p' log' w, shows t p log w → spec_run ops p log = Some (p', log') →
  ∃ w', run t ops w = (Ret tt, w') ∧ shows t p' log' w'.
Proof.
  induction ops as [|o ops IH]; intros p log p' log' w Hs Hr; [injection Hr as <- <-; by eexists|].
  destruct o as [o|id|val]; cbn [spec_run run] in *.
  - destruct (add o p) as [p1|] eqn:E; [|done]. destruct (shows_subscribe t p p1 log w o Hs E) as (w1 & E1 & Hs1).
    rewrite (act_seq _ _ _ _ _ E1). by apply (IH p1 log).
  - destruct (remove id p) as [p1|] eqn:E; [|done]. destruct (shows_unsubscribe t p p1 log w id Hs E) as (w1 & E1 & Hs1).
    rewrite (act_seq _ _ _ _ _ E1). by apply (IH p1 log).
  - destruct (do_all _ p) as [p1|] eqn:E; [|done]. destruct (shows_on t p p1 log w val Hs E) as (w1 & E1 & Hs1).
    rewrite (act_seq _ _ _ _ _ E1). by apply (IH p1 (log ++ map (fun kv => (kv.2, val)) (live p))).
Qed.

(** ** What is not promised *)

(** An event that an observer sends to the subject that calls it fails, and changes nothing. *)
Lemma nested_on_fails fuel t val w : inCallback_ (local t (self w)) = true → on react (S fuel) t val w = (Err AssertFailed, w).
Proof. intros H. cbn. unfold forEachObserver, enter, get_self, RDDCHECK, raise. unfold mbind, act_bind. by rewrite H. Qed.

(** The WriteHolder of subscribe and unsubscribe is gone when the map is changed: a thread that
    begins an event in between iterates over a map that changes under it. *)
Lemma write_holder_does_not_hold t f w : readers (self w) = ∅ →
  ((_ ← write_holder_temporary; _ ← lock_reader t; change_map f) w : outcome unit * @world O V).1 = Err Undefined.
Proof.
  intros H. unfold write_holder_temporary, lock_reader, change_map, get_self, upd, raise. unfold mbind, act_bind. cbn. rewrite H, (decide_True _ _ eq_refl). cbn.
  rewrite H, decide_False by set_solver. done.
Qed.

(** A Subscription that outlives its Observable gives up nothing and does not touch it, and
    giving up twice is giving up once. *)
Lemma outlives t sub (w : @world O V) : enabled (self w) = false → 0 < id_ sub →
  ∃ sub', Subscription_unsubscribe (O := O) (V := V) t sub w = (Ret sub', w) ∧
    Subscription_unsubscribe (O := O) (V := V) t sub' w = (Ret sub', w).
Proof.
  intros He Hid. unfold Subscription_unsubscribe, Unsubscriber_unsubscribe, RDDCHECK, raise, get_self. destruct sub as [[] id]; cbn in *; [|by eexists].
  rewrite (proj2 (Z.ltb_lt 0 _)) by done. unfold mbind, act_bind. cbn. rewrite He. by eexists.
Qed.
End Spec.

(** ** Examples *)

Module Demo.
(** Observers are numbers.  The first subscribes the third when it hears 7, the second
    unsubscribes itself (its id is 2) when it hears 7, and the fourth throws. *)
Definition react (o : Z) (v : Z) : list (@reaction Z Z) :=
  if o =? 10 then if v =? 7 then [Subscribe 30] else []
  else if o =? 20 then if v =? 7 then [Unsubscribe 2] else []
  else if o =? 40 then [Throw "observer"] else [].
Definition empty : @world Z Z := mk_world (mk_observable 1 [] true ∅ ∅) [].

Lemma shows_empty : shows 1 (mk_promise [] 1) [] empty.
Proof. split; try done. constructor. Qed.

(** The event 7 goes to the two observers of its beginning, the event 8 to the first and the third. *)
Lemma observable_refines_witness :
  ∃ w', run react 1 [OpSubscribe 10; OpSubscribe 20; OpOn 7; OpOn 8; OpUnsubscribe 1; OpOn 9] empty = (Ret tt, w') ∧
    shows 1 (mk_promise [(3, 30)] 4) [(10, 7); (20, 7); (10, 8); (30, 8); (30, 9)] w'.
Proof. apply (observable_refines react 1 _ (mk_promise [] 1) []); [exact shows_empty|reflexivity]. Defined.

(** After an observer has thrown, the thread counts as inside an event for ever: the next event
    fails, and who subscribes waits for a merge that does not come. *)
Example throw_breaks_the_thread :
  let w := (run react 1 [OpSubscribe 40; OpOn 1] empty).2 in
  (on react 1 1 2 w).1 = Err AssertFailed ∧
  subscribers_ (self (subscribe 1 50 w).2) = [(1, 40)] ∧ readers (self w) = ∅.
Proof. vm_compute. auto. Qed.

(** Another thread that unsubscribes an observer between the end of the callbacks and the merge
    of the thread that subscribed it unsubscribes nothing. *)
Example lost_unsubscribe :
  let w := (_ ← enter 1; _ ← lock_reader 1; id ← subscribe 1 60; _ ← unlock_reader 1;
            _ ← Unsubscriber_unsubscribe 2 id; _ ← merge 1; leave 1) empty in
  w.1 = Ret tt ∧ subscribers_ (self w.2) = [(1, 60)].
Proof. vm_compute. auto. Qed.

(** A Subscription that is assigned to gives up what it had. *)
Example assign_unsubscribes :
  let w := (_ ← subscribe 1 10; _ ← subscribe 1 20; Subscription_assign 1 (mk_subscription true 1) (mk_subscription true 2)) empty in
  w.1 = Ret (mk_subscription true 2, no_subscription) ∧ subscribers_ (self w.2) = [(2, 20)].
Proof. vm_compute. auto. Qed.
End Demo.
End ObservableProof.
