(* ===== verification/IOPool.v ===== *)
(** concurrency/IOThreadPool.h, IOThreadPool.cpp and what they use of ThreadPool.cpp,
    EventLoop.cpp and EventLoopManager.h: a pool whose threads run event loops, as a state machine.
    A step is one access to shared data of one of the pool's threads, of the one thread that
    controls the pool, or of a thread that is in add.  The pool only shrinks after its
    construction, so its threads are numbered in the order of their addresses.  Module
    EventLoopManager is the table of the threads' event loops. *)
From S2P Require Import Prelude Threads Pool.

Module IOPool.
Import Pool(CPUTask, new_task, task_start, task_stats, Stats).

(** ** State *)

(** Where a thread is in IOThreadPool::threadRun.  [once] is the argument of loopBody, [rest] the
    callbacks that the turn of the loop has still to make. *)
Inductive tpc :=
| TInit                                    (* before eventLoop is set *)
| TPost                                    (* before startupBaton.post() *)
| TWhile                                   (* before the test of shouldRun *)
| TBody (once : bool)                      (* before the test of stop_ *)
| TSwap (once : bool)                      (* before callbacks.swap(callbacks_) *)
| TBatch (once : bool) (rest : list CPUTask)
| TTask (once : bool) (t : CPUTask) (st : Stats) (startTime : Z) (rest : list CPUTask)
| TDecr (once : bool) (rest : list CPUTask) (* before pendingTasks-- *)
| TEvents (once : bool)                    (* in the handlers of timeouts and of the poll *)
| TExit (once : bool)                      (* before stop_ = false *)
| TJoin                                    (* before the test of isJoin_ *)
| TDrain                                   (* before the test of pendingTasks *)
| TStop (joined : bool)                    (* before stoppedThreads_.add; what isJoin_ was *)
| TNull (joined : bool)                    (* before eventLoop = nullptr *)
| TDone (joined : bool).

(** The pointer eventLoop has no initial value. *)
Inductive pointer := Uninit | Null | Loop.

(** struct IOThread, with callbacks_ and stop_ of its event loop. *)
Record IOThread := mk_io {
  shouldRun : bool;
  pendingTasks : Z;
  eventLoop : pointer;
  callbacks_ : list CPUTask;
  stop_ : bool;
  idle : bool;
  startup : bool;
  pc : tpc;
  scheduled : list CPUTask;   (* history: tasks handed to the event loop, in order *)
  ran : list CPUTask          (* history: tasks begun, in order *)
}.

(** A call of add that has not returned: the thread of the pool that made it, if one did, the
    thread it picked and whether that thread's pendingTasks counts the task. *)
Record adder := mk_adder { caller : option nat; target : nat; task : CPUTask; counted : bool }.

Inductive op := Stop | Join | Shrink (n : nat).  (* stop(), join(), setNumThreads(size - n) *)
Inductive cpc :=
| CStart (i : nat)               (* the constructor: startupBaton.wait() *)
| CIdle
| CRemove (n : nat) (join : bool) (goal : nat)
| CFlag (n : nat) (join : bool) (goal : nat)
| CStopT (i n goal : nat)        (* stopThreads, before thread i *)
| CLoop (i n goal : nat)         (* with the lock of thread i *)
| CTake (k goal : nat)
| CSem (k goal : nat)
| CErase (w k goal : nat)
| CEmpty (goal : nat)
| CGoal (goal : nat).

(** What tasks and observers see, and the thread of the pool that calls them: None is the controlling
    thread. *)
Inductive event := Seen (by_ : option nat) (e : Pool.event) | NoThreads.

Record pool := mk_pool {
  workers : list IOThread;
  threads_ : list nat;
  nextThread_ : Z;
  isJoin_ : option bool;
  stoppedThreads_ : BlockingQueue.t nat;
  observers_ : list nat;
  adders : list adder;
  ctl : cpc;
  ops : list op;
  log : list event
}.

Definition set_workers ws s := mk_pool ws (threads_ s) (nextThread_ s) (isJoin_ s) (stoppedThreads_ s) (observers_ s) (adders s) (ctl s) (ops s) (log s).
Definition set_threads l s := mk_pool (workers s) l (nextThread_ s) (isJoin_ s) (stoppedThreads_ s) (observers_ s) (adders s) (ctl s) (ops s) (log s).
Definition set_next n s := mk_pool (workers s) (threads_ s) n (isJoin_ s) (stoppedThreads_ s) (observers_ s) (adders s) (ctl s) (ops s) (log s).
Definition set_isJoin j s := mk_pool (workers s) (threads_ s) (nextThread_ s) j (stoppedThreads_ s) (observers_ s) (adders s) (ctl s) (ops s) (log s).
Definition set_stopped q s := mk_pool (workers s) (threads_ s) (nextThread_ s) (isJoin_ s) q (observers_ s) (adders s) (ctl s) (ops s) (log s).
Definition set_adders a s := mk_pool (workers s) (threads_ s) (nextThread_ s) (isJoin_ s) (stoppedThreads_ s) (observers_ s) a (ctl s) (ops s) (log s).
Definition set_ctl c s := mk_pool (workers s) (threads_ s) (nextThread_ s) (isJoin_ s) (stoppedThreads_ s) (observers_ s) (adders s) c (ops s) (log s).
Definition set_ops o s := mk_pool (workers s) (threads_ s) (nextThread_ s) (isJoin_ s) (stoppedThreads_ s) (observers_ s) (adders s) (ctl s) o (log s).
Definition tell es s := mk_pool (workers s) (threads_ s) (nextThread_ s) (isJoin_ s) (stoppedThreads_ s) (observers_ s) (adders s) (ctl s) (ops s) (log s ++ es).

Definition with_pc c th := mk_io (shouldRun th) (pendingTasks th) (eventLoop th) (callbacks_ th) (stop_ th) (idle th) (startup th) c (scheduled th) (ran th).
Definition with_run b th := mk_io b (pendingTasks th) (eventLoop th) (callbacks_ th) (stop_ th) (idle th) (startup th) (pc th) (scheduled th) (ran th).
Definition with_pending n th := mk_io (shouldRun th) n (eventLoop th) (callbacks_ th) (stop_ th) (idle th) (startup th) (pc th) (scheduled th) (ran th).
Definition with_loop p th := mk_io (shouldRun th) (pendingTasks th) p (callbacks_ th) (stop_ th) (idle th) (startup th) (pc th) (scheduled th) (ran th).
Definition with_callbacks l th := mk_io (shouldRun th) (pendingTasks th) (eventLoop th) l (stop_ th) (idle th) (startup th) (pc th) (scheduled th) (ran th).
Definition with_stop b th := mk_io (shouldRun th) (pendingTasks th) (eventLoop th) (callbacks_ th) b (idle th) (startup th) (pc th) (scheduled th) (ran th).
Definition with_idle b th := mk_io (shouldRun th) (pendingTasks th) (eventLoop th) (callbacks_ th) (stop_ th) b (startup th) (pc th) (scheduled th) (ran th).
Definition with_startup b th := mk_io (shouldRun th) (pendingTasks th) (eventLoop th) (callbacks_ th) (stop_ th) (idle th) b (pc th) (scheduled th) (ran th).
Definition with_scheduled l th := mk_io (shouldRun th) (pendingTasks th) (eventLoop th) (callbacks_ th) (stop_ th) (idle th) (startup th) (pc th) l (ran th).
Definition with_ran l th := mk_io (shouldRun th) (pendingTasks th) (eventLoop th) (callbacks_ th) (stop_ th) (idle th) (startup th) (pc th) (scheduled th) l.
Definition put (w : nat) (th : IOThread) s := set_workers (<[w := th]> (workers s)) s.

Definition RDDCHECK (b : bool) : outcome unit := check b AssertFailed.

(** ** add *)

(** The caller must be in a task or in a handler of its event loop. *)
Definition may_call (c : tpc) : bool := match c with TTask _ _ _ _ _ | TEvents _ => true | _ => false end.

(** pickThread; None: the caller is elsewhere. *)
Definition pickThread (from : option nat) (s : pool) : option (outcome (nat * pool)) :=
  match from with
  | Some w => th ← workers s !! w; if may_call (pc th) then Some (Ret (w, s)) else None
  | None =>
      let i := nextThread_ s mod Z.of_nat (length (threads_ s)) in
      Some (w ← of_option Undefined (threads_ s !! Z.to_nat i); Ret (w, set_next (u64 (nextThread_ s + 1)) s))
  end.

(** Nobody has the pool while it is constructed. *)
Definition constructing (c : cpc) : bool := match c with CStart _ => true | _ => false end.

(** add up to the call of pendingTasks++: the ReadHolder is a temporary and holds nothing. *)
Definition add_begin (from : option nat) (now : Z) (f : nat) (expiration : Z) (cb : option nat) (s : pool) : option (outcome pool) :=
  if constructing (ctl s) then None
  else if decide (threads_ s = []) then Some (Ret (tell [NoThreads] s))
  else
    r ← pickThread from s;
    Some ('(w, s) ← r; Ret (set_adders (adders s ++ [mk_adder from w (new_task now f expiration cb) false]) s)).
(** The next access of the call number [j]: pendingTasks++, then addCallback. *)
Definition add_next (j : nat) (s : pool) : option (outcome pool) :=
  a ← adders s !! j;
  th ← workers s !! target a;
  if counted a then
    Some (match eventLoop th with
          | Loop => Ret (set_adders (delete j (adders s))
                      (put (target a) (with_scheduled (scheduled th ++ [task a]) (with_callbacks (callbacks_ th ++ [task a]) th)) s))
          | _ => Err Undefined
          end)
  else
    Some (Ret (set_adders (<[j := mk_adder (caller a) (target a) (task a) true]> (adders s))
      (put (target a) (with_pending (pendingTasks th + 1) th) s))).

(** ** threadRun *)

(** Thread [w] has no call of add to finish. *)
Definition not_adding (w : nat) (s : pool) : bool := forallb (fun a => negb (bool_decide (caller a = Some w))) (adders s).

(** One access of thread [w]; None: nothing to do. *)
Definition work (w : nat) (now : Z) (s : pool) : option (outcome pool) :=
  th ← workers s !! w;
  match pc th with
  | TDone _ => None
  | TInit => Some (Ret (put w (with_pc TPost (with_loop Loop th)) s))
  | TPost => Some (Ret (put w (with_pc TWhile (with_startup true th)) s))
  | TWhile => Some (Ret (put w (with_pc (if shouldRun th then TBody false else TJoin) th) s))
  | TBody once => Some (Ret (put w (with_pc (if stop_ th then TExit once else TSwap once) th) s))
  | TSwap once => Some (Ret (put w (with_pc (TBatch once (callbacks_ th)) (with_callbacks [] th)) s))
  | TBatch once (t :: rest) =>
      let (st, es) := task_start now t in
      Some (Ret (tell (Seen (Some w) <$> es) (put w (with_pc (TTask once t st now rest) (with_ran (ran th ++ [t]) (with_idle false th))) s)))
  | TBatch once [] => Some (Ret (put w (with_pc (TEvents once) th) s))
  | TTask once t st startTime rest =>
      if not_adding w s
      then Some (Ret (tell [Seen (Some w) (Pool.Reported (task_stats now startTime st))] (put w (with_pc (TDecr once rest) (with_idle true th)) s)))
      else None
  | TDecr once rest => Some (Ret (put w (with_pc (TBatch once rest) (with_pending (pendingTasks th - 1) th)) s))
  | TEvents once =>
      if not_adding w s then Some (Ret (put w (with_pc (if once then TExit once else TBody once) th) s)) else None
  | TExit once => Some (Ret (put w (with_pc (if once then TDrain else TWhile) (with_stop false th)) s))
  | TJoin => Some (j ← of_option Undefined (isJoin_ s); Ret (put w (with_pc (if (j : bool) then TDrain else TStop false) th) s))
  | TDrain => Some (Ret (put w (with_pc (if 0 <? pendingTasks th then TBody true else TStop true) th) s))
  | TStop j => Some (q ← BlockingQueue.add w (stoppedThreads_ s); Ret (set_stopped q (put w (with_pc (TNull j) th) s)))
  | TNull j => Some (Ret (put w (with_pc (TDone j) (with_loop Null th)) s))
  end.

(** ** The controlling thread *)

Definition lower_bound (l : list nat) (w : nat) : nat := length (filter (fun x => (x < w)%nat) l).
Definition upper_bound (l : list nat) (w : nat) : nat := length (filter (fun x => (x ≤ w)%nat) l).
Definition returned (s : pool) (w : nat) : bool := match pc <$> (workers s !! w) with Some (TDone _) => true | _ => false end.

Definition begin (o : op) (s : pool) : pool :=
  let current := length (threads_ s) in
  match o with
  | Stop => set_ctl (CRemove current false 0) s
  | Join => set_ctl (CRemove current true 0) s
  | Shrink n =>
      let goal := (current - n)%nat in
      if (goal <? current)%nat then set_ctl (CRemove (current - goal) true goal) s else set_ctl (CGoal goal) s
  end.

Definition control (s : pool) : option (outcome pool) :=
  match ctl s with
  | CStart i =>
      match threads_ s !! i with
      | Some w => th ← workers s !! w; if startup th then Some (Ret (set_ctl (CStart (S i)) s)) else None
      | None => Some (Ret (set_ctl CIdle s))
      end
  | CIdle => match ops s with [] => None | o :: r => Some (Ret (begin o (set_ops r s))) end
  | CRemove n join goal =>
      Some (RDDCHECK (BlockingQueue.size (stoppedThreads_ s) =? 0);; Ret (set_ctl (CFlag n join goal) s))
  | CFlag n join goal => Some (Ret (set_ctl (CStopT 0 n goal) (set_isJoin (Some join) s)))
  | CStopT i n goal =>
      if (i <? n)%nat then
        Some (w ← of_option Undefined (threads_ s !! i);
              th ← of_option Undefined (workers s !! w);
              Ret (set_ctl (CLoop i n goal)
                (tell ((fun o => Seen None (Pool.ThreadStopped o w)) <$> observers_ s) (put w (with_run false th) s))))
      else Some (Ret (set_ctl (CTake n goal) s))
  | CLoop i n goal =>
      Some (w ← of_option Undefined (threads_ s !! i);
            th ← of_option Undefined (workers s !! w);
            match eventLoop th with
            | Uninit => Err Undefined
            | Null => Ret (set_ctl (CStopT (S i) n goal) s)
            | Loop => Ret (set_ctl (CStopT (S i) n goal) (put w (with_stop true th) s))
            end)
  | CTake (S k) goal =>
      Some (Ret (match BlockingQueue.take (stoppedThreads_ s) with
                 | Some (w, q) => set_ctl (CErase w k goal) (set_stopped q s)
                 | None => set_ctl (CSem k goal) s
                 end))
  | CTake O goal => Some (Ret (set_ctl (CEmpty goal) s))
  | CSem k goal => q ← BlockingQueue.wait (stoppedThreads_ s); Some (Ret (set_ctl (CTake (S k) goal) (set_stopped q s)))
  | CErase w k goal =>
      if returned s w then
        let lo := lower_bound (threads_ s) w in
        Some (RDDCHECK (lo <? length (threads_ s))%nat;; RDDCHECK (S lo =? upper_bound (threads_ s) w)%nat;;
              Ret (set_ctl (CTake k goal) (set_threads (delete lo (threads_ s)) s)))
      else None
  | CEmpty goal =>
      Some (RDDCHECK (BlockingQueue.size (stoppedThreads_ s) =? 0);; Ret (set_ctl (CGoal goal) s))
  | CGoal goal => Some (RDDCHECK (length (threads_ s) =? goal)%nat;; Ret (set_ctl CIdle s))
  end.

(** ** The system *)

Inductive label :=
| LWork (w : nat) (now : Z)
| LControl
| LAdd (from : option nat) (now : Z) (f : nat) (expiration : Z) (cb : option nat)
| LNext (j : nat).

Definition exec (l : label) (s : pool) : option (outcome pool) :=
  match l with
  | LWork w now => work w now s
  | LControl => control s
  | LAdd from now f expiration cb => add_begin from now f expiration cb s
  | LNext j => add_next j s
  end.

(** IOThreadPool(n): n threads that have been created, and the calls that will be made. *)
Definition new_thread : IOThread := mk_io true 0 Uninit [] false true false TInit [] [].
Definition init (n : nat) (obs : list nat) (os : list op) : pool :=
  mk_pool (replicate n new_thread) (seq 0 n) 0 None BlockingQueue.empty obs [] (CStart 0) os [].

(** getPendingTaskCount *)
Definition pending_of (th : IOThread) : Z :=
  if (0 <? pendingTasks th) && negb (idle th) then pendingTasks th - 1 else pendingTasks th.
Definition getPendingTaskCount (s : pool) : Z :=
  foldr (fun w count => count + from_option pending_of 0 (workers s !! w)) 0 (threads_ s).

End IOPool.

(** ** io/event/EventLoopManager.h: the event loop of each thread, and the set of all of them.  Event
    loops are addresses; the heap is the set of those that exist. *)

Module EventLoopManager.

Record EventLoopInfo := mk_info { loop_ : Z; owned_ : bool }.
Record manager := mk_manager {
  localStore_ : gmap Z EventLoopInfo;   (* by thread *)
  loops_ : gset Z;
  heap : gset Z
}.
Definition empty : manager := mk_manager ∅ ∅ ∅.

Definition trackEventLoop (loop : Z) (m : manager) : manager := mk_manager (localStore_ m) ({[loop]} ∪ loops_ m) (heap m).
Definition untrackEventLoop (loop : Z) (m : manager) : manager := mk_manager (localStore_ m) (loops_ m ∖ {[loop]}) (heap m).
(** ~EventLoopInfo *)
Definition destroy_info (i : EventLoopInfo) (h : gset Z) : gset Z := if owned_ i then h ∖ {[loop_ i]} else h.

(** The loop of thread [t]; [fresh] is the address that new gives, if it is called. *)
Definition getEventLoop (fresh t : Z) (m : manager) : Z * manager :=
  match localStore_ m !! t with
  | Some info => (loop_ info, m)
  | None => (fresh, trackEventLoop fresh (mk_manager (<[t := mk_info fresh true]> (localStore_ m)) (loops_ m) ({[fresh]} ∪ heap m)))
  end.
Definition setEventLoop (t loop : Z) (takeOwnership : bool) (m : manager) : outcome manager :=
  match localStore_ m !! t with
  | Some _ => Err (Thrown "EventLoopManager: cannot set a new EventLoop for this thread when one already exists")
  | None => Ret (trackEventLoop loop (mk_manager (<[t := mk_info loop takeOwnership]> (localStore_ m)) (loops_ m) (heap m)))
  end.
Definition clearEventLoop (t : Z) (m : manager) : manager :=
  match localStore_ m !! t with
  | Some info =>
      let m := untrackEventLoop (loop_ info) m in
      mk_manager (delete t (localStore_ m)) (loops_ m) (destroy_info info (heap m))
  | None => m
  end.
(** OnThreadExit of the ThreadLocalPtr. *)
Definition thread_exit (t : Z) (m : manager) : manager :=
  match localStore_ m !! t with
  | Some info => mk_manager (delete t (localStore_ m)) (loops_ m) (destroy_info info (heap m))
  | None => m
  end.

(** ** Which loops are tracked *)

Record inv (m : manager) : Prop := {
  tracked : ∀ x, x ∈ loops_ m ↔ ∃ t i, localStore_ m !! t = Some i ∧ loop_ i = x;
  alive : loops_ m ⊆ heap m;
  distinct : ∀ t t' i i', localStore_ m !! t = Some i → localStore_ m !! t' = Some i' → loop_ i = loop_ i' → t = t'
}.

Inductive op := Get (fresh t : Z) | Set_ (t loop : Z) (own : bool) | Clear (t : Z).
Definition apply (o : op) (m : manager) : manager :=
  match o with
  | Get fresh t => (getEventLoop fresh t m).2
  | Set_ t loop own => match setEventLoop t loop own m with Ret m => m | Err _ => m end
  | Clear t => clearEventLoop t m
  end.
(** new gives memory that is not in use, and a thread is given a loop that exists and is no other's. *)
Definition legal (o : op) (m : manager) : Prop :=
  match o with
  | Get fresh _ => fresh ∉ heap m
  | Set_ _ loop _ => loop ∈ heap m ∧ loop ∉ loops_ m
  | Clear _ => True
  end.

Lemma inv_insert m t i h : inv m → localStore_ m !! t = None → loop_ i ∉ loops_ m → loop_ i ∈ h → heap m ⊆ h →
  inv (trackEventLoop (loop_ i) (mk_manager (<[t := i]> (localStore_ m)) (loops_ m) h)).
Proof.
  intros [Ht Ha Hd] Hn Hl Hh Hs. assert (Hnew : ∀ t' i', localStore_ m !! t' = Some i' → loop_ i' ≠ loop_ i).
  { intros t' i' H E. apply Hl, Ht. eauto. }
  split; cbn.
  - intros x. rewrite elem_of_union, elem_of_singleton, Ht. split.
    + intros [->|(t' & i' & H & <-)]; [exists t, i; by rewrite lookup_insert_eq|]. exists t', i'. by rewrite lookup_insert_ne by congruence.
    + intros (t' & i' & H & <-). apply lookup_insert_Some in H as [[-> ->]|[_ H]]; [by left|right; eauto].
  - set_solver.
  - intros t1 t2 i1 i2 H1 H2 E. apply lookup_insert_Some in H1 as [[<- <-]|[? H1]], H2 as [[<- <-]|[? H2]]; try done; [by destruct (Hnew t2 i2 H2)|by destruct (Hnew t1 i1 H1)|by apply (Hd t1 t2 i1 i2)].
Qed.

(** As long as no thread ends, exactly the loops of the threads are tracked, each of one thread, and
    all of them exist. *)
Lemma apply_inv o m : inv m → legal o m → inv (apply o m).
Proof.
  intros Hi Hl. destruct o as [fresh t|t loop own|t]; cbn in *.
  - unfold getEventLoop. destruct (localStore_ m !! t) as [i|] eqn:E; [done|]. apply (inv_insert m t (mk_info fresh true)); cbn; try done; [|set_solver..].
    intros H. by apply Hl, (alive m Hi).
  - unfold setEventLoop. destruct (localStore_ m !! t) as [i|] eqn:E; [done|]. destruct Hl. by apply (inv_insert m t (mk_info loop own)).
  - unfold clearEventLoop. destruct (localStore_ m !! t) as [i|] eqn:E; [|done]. destruct Hi as [Ht Ha Hd]. split; cbn.
    + intros x. rewrite elem_of_difference, elem_of_singleton, Ht. split.
      * intros [(t' & i' & H & <-) Hne]. exists t', i'. by rewrite lookup_delete_ne by congruence.
      * intros (t' & i' & H & <-). apply lookup_delete_Some in H as [Hne H]. split; [by eauto|]. intros Heq. apply Hne. symmetry. by apply (Hd t' t i' i).
    + unfold destroy_info. destruct (owned_ i); set_solver.
    + intros t1 t2 i1 i2 [_ H1]%lookup_delete_Some [_ H2]%lookup_delete_Some. by apply (Hd t1 t2 i1 i2).
Qed.

(** A thread always gets the same loop. *)
Lemma getEventLoop_again fresh fresh' t m : let '(loop, m') := getEventLoop fresh t m in getEventLoop fresh' t m' = (loop, m').
Proof. unfold getEventLoop. destruct (localStore_ m !! t) as [i|] eqn:E; cbn; [by rewrite E|]. by rewrite lookup_insert_eq. Qed.

(** A thread that ends destroys the loop it owns, which stays tracked: who walks over the set follows a
    dangling pointer. *)
Lemma exit_dangles fresh t m : inv m → localStore_ m !! t = None →
  let m' := thread_exit t (getEventLoop fresh t m).2 in fresh ∈ loops_ m' ∧ fresh ∉ heap m'.
Proof.
  intros Hi Hn. unfold getEventLoop, thread_exit. rewrite Hn. cbn. rewrite lookup_insert_eq. cbn. unfold destroy_info. cbn. set_solver.
Qed.
End EventLoopManager.
