(* ===== verification/IOPoolProof.v ===== *)
(** The pool of event loops: where no call of add from outside overlaps a removal of threads, no
    step fails, tasks of a thread run in order and once, and a join runs them all.  Module IOPoolProof has the invariant and the steps of the
    pool's threads and of add, IOPoolSpec the controlling thread and the theorem. *)
From Stdlib Require Import Sorted.
From S2P Require Import Prelude Threads Pool PoolProof PoolSafe PoolSpec IOPool.

Module IOPoolProof.
Import IOPool.
Import Pool(CPUTask, new_task, task_start, task_stats, Stats).

(** ** Calls in order *)

(** A call of add from outside neither begins during a call of the controlling thread nor is under
    way when one begins.  Tasks and handlers may add at any time. *)
Definition orderly (l : label) (s : pool) : Prop :=
  match l with
  | LAdd None _ _ _ _ => ctl s = CIdle
  | LControl => ctl s = CIdle → Forall (fun a => caller a ≠ None) (adders s)
  | _ => True
  end.
Inductive step (s s' : pool) : Prop :=
| step_exec l : orderly l s → exec l s = Some (Ret s') → step s s'.
Definition reachable (n : nat) (obs : list nat) (os : list op) (s : pool) : Prop := rtc step (init n obs os) s.

(** ** Where a thread is *)

Definition waiting (c : tpc) : list CPUTask :=
  match c with TBatch _ rest | TTask _ _ _ _ rest | TDecr _ rest => rest | _ => [] end.
Definition uncounted (c : tpc) : bool := match c with TDecr _ _ => true | _ => false end.
Definition in_task (c : tpc) : bool := match c with TTask _ _ _ _ _ => true | _ => false end.
Definition loop_at (c : tpc) : pointer := match c with TInit => Uninit | TDone _ => Null | _ => Loop end.
Definition starting (c : tpc) : bool := match c with TInit | TPost => true | _ => false end.
(** After the test of shouldRun has failed. *)
Definition after_run (c : tpc) : bool :=
  match c with
  | TBody o | TSwap o | TBatch o _ | TTask o _ _ _ _ | TDecr o _ | TEvents o | TExit o => o
  | TJoin | TDrain | TStop _ | TNull _ | TDone _ => true
  | _ => false
  end.
Definition past (c : tpc) : bool := match c with TNull _ | TDone _ => true | _ => false end.
Definition finished (c : tpc) : bool := match c with TDone _ => true | _ => false end.
Definition joined (c : tpc) : bool := match c with TStop j | TNull j | TDone j => j | _ => false end.

Definition on_target (w : nat) (a : adder) : bool := counted a && (target a =? w)%nat.

Record thread_ok (adds : list adder) (w : nat) (th : IOThread) : Prop := {
  t_order : scheduled th = ran th ++ waiting (pc th) ++ callbacks_ th;
  t_count : pendingTasks th = Z.of_nat (length (waiting (pc th))) + Z.of_nat (length (callbacks_ th)) +
    Z.b2z (in_task (pc th) || uncounted (pc th)) + count (on_target w) adds;
  t_idle : idle th = negb (in_task (pc th));
  t_loop : eventLoop th = loop_at (pc th);
  t_start : startup th = negb (starting (pc th));
  t_run : after_run (pc th) = true → shouldRun th = false;
  t_joined : joined (pc th) = true → callbacks_ th = []
}.

(** ** The controlling thread *)

Definition flag (ws : list IOThread) (w : nat) : bool := from_option shouldRun true (ws !! w).
Definition gone (ws : list IOThread) (w : nat) : bool := from_option (fun th => past (pc th)) false (ws !! w).
Definition ngone (ws : list IOThread) : Z := count (fun th => past (pc th)) ws.
(** Threads that have been told to stop and not yet been removed. *)
Definition told (ws : list IOThread) (l : list nat) : list nat := filter (fun w => flag ws w = false) l.
Definition erasing (c : cpc) : list nat := match c with CErase w _ _ => [w] | _ => [] end.

Definition stop_ok (ws : list IOThread) (l : list nat) (c : cpc) : Prop :=
  match c with
  | CStart _ | CIdle => told ws l = []
  | CGoal g | CEmpty g => told ws l = [] ∧ length l = g
  | CRemove n _ g | CFlag n _ g => told ws l = [] ∧ length l = (n + g)%nat
  | CStopT i n g => (∀ j w, l !! j = Some w → flag ws w = false ↔ (j < i)%nat) ∧ (i ≤ n)%nat ∧ length l = (n + g)%nat
  | CLoop i n g => (∀ j w, l !! j = Some w → flag ws w = false ↔ (j < S i)%nat) ∧ (i < n)%nat ∧ length l = (n + g)%nat
  | CTake k g => length (told ws l) = k ∧ length l = (k + g)%nat
  | CSem k g | CErase _ k g => length (told ws l) = S k ∧ length l = (S k + g)%nat
  end.

Record cinv (ws : list IOThread) (l : list nat) (c : cpc) (q : BlockingQueue.t nat) : Prop := {
  c_sorted : StronglySorted lt l;
  c_in : ∀ w, w ∈ l → (w < length ws)%nat;
  c_out : ∀ w th, ws !! w = Some th → w ∉ l → finished (pc th) = true;
  c_stop : stop_ok ws l c;
  c_nodup : NoDup (BlockingQueue.queue_ q ++ erasing c);
  c_queue : ∀ w, w ∈ BlockingQueue.queue_ q ++ erasing c ↔ w ∈ l ∧ gone ws w = true;
  c_sem : 0 ≤ BlockingQueue.sem_ q ≤ ngone ws
}.

Definition adder_ok (s : pool) (a : adder) : Prop :=
  match caller a with
  | Some c => c = target a ∧ ∃ th, workers s !! c = Some th ∧ may_call (pc th) = true
  | None => ctl s = CIdle ∧ target a ∈ threads_ s
  end.

(** In stopThreads. *)
Definition flagged (c : cpc) : bool := match c with CStopT _ _ _ | CLoop _ _ _ => true | _ => false end.

Record inv (s : pool) : Prop := {
  i_threads : ∀ w th, workers s !! w = Some th → thread_ok (adders s) w th;
  i_adders : ∀ a, a ∈ adders s → adder_ok s a;
  i_ctl : cinv (workers s) (threads_ s) (ctl s) (stoppedThreads_ s);
  i_join : ∀ w th, workers s !! w = Some th → shouldRun th = false → isJoin_ s ≠ None;
  i_flag : flagged (ctl s) = true → isJoin_ s ≠ None;
  i_start : match ctl s with
            | CStart i => adders s = [] ∧ ∀ j w th, (j < i)%nat → threads_ s !! j = Some w → workers s !! w = Some th → startup th = true
            | _ => ∀ w th, workers s !! w = Some th → startup th = true
            end
}.

(** ** Replacing a thread *)

Section Put.
Context (ws : list IOThread) (w : nat) (th th' : IOThread) (Hw : ws !! w = Some th).

Lemma flag_put x : shouldRun th' = shouldRun th → flag (<[w := th']> ws) x = flag ws x.
Proof using Hw.
  intros H. unfold flag. destruct (decide (x = w)) as [->|Hx]; [|by rewrite list_lookup_insert_ne].
  rewrite list_lookup_insert_eq by (by eapply lookup_lt_Some). by rewrite Hw.
Qed.
Lemma gone_put x : past (pc th') = past (pc th) → gone (<[w := th']> ws) x = gone ws x.
Proof using Hw.
  intros H. unfold gone. destruct (decide (x = w)) as [->|Hx]; [|by rewrite list_lookup_insert_ne].
  rewrite list_lookup_insert_eq by (by eapply lookup_lt_Some). by rewrite Hw.
Qed.
Lemma told_put l : shouldRun th' = shouldRun th → told (<[w := th']> ws) l = told ws l.
Proof using Hw. intros H. apply list_filter_iff. intros x. by rewrite flag_put. Qed.

Lemma stop_ok_put l c : shouldRun th' = shouldRun th → stop_ok ws l c → stop_ok (<[w := th']> ws) l c.
Proof using Hw.
  intros Hr. assert (Hf := fun x => flag_put x Hr). destruct c; cbn [stop_ok]; rewrite ?(told_put l Hr); try done.
  all: intros [H1 H2]; split; [|done]; intros j x Hx; rewrite Hf; by apply H1.
Qed.

Lemma cinv_put l c q : cinv ws l c q → shouldRun th' = shouldRun th → past (pc th') = past (pc th) →
  (finished (pc th) = true → finished (pc th') = true) → cinv (<[w := th']> ws) l c q.
Proof using Hw.
  intros [Hs Hi Ho Hst Hn Hq Hm] Hr Hp Hf. split; try done.
  - intros x. rewrite length_insert. apply Hi.
  - intros x y Hx Hl. apply list_lookup_insert_Some in Hx as [(<- & <- & _)|[_ Hx]]; [|by apply (Ho x y)]. apply Hf. by apply (Ho w th).
  - by apply stop_ok_put.
  - intros x. by rewrite gone_put.
  - unfold ngone in *. rewrite (count_insert _ _ _ th) by done. cbn. rewrite Hp. lia.
Qed.
End Put.

(** A step of a thread. *)
Lemma inv_step s w th th' q : inv s → workers s !! w = Some th → thread_ok (adders s) w th' → shouldRun th' = shouldRun th →
  (startup th = true → startup th' = true) → (may_call (pc th) = true → may_call (pc th') = true ∨ not_adding w s = true) →
  cinv (<[w := th']> (workers s)) (threads_ s) (ctl s) q → inv (set_stopped q (put w th' s)).
Proof.
  intros [Ht Ha Hc Hj Hfl Hst] Hw Hok Hr Hs Hm Hc'. split; cbn; [| |done| |done|].
  - intros x y Hx. apply list_lookup_insert_Some in Hx as [(<- & <- & _)|[_ Hx]]; [done|by apply Ht].
  - intros a Hin. specialize (Ha a Hin). unfold adder_ok in *. destruct (caller a) as [c|] eqn:Ec; [|done].
    destruct Ha as [E (y & Hy & Hmc)]. split; [done|]. cbn. destruct (decide (c = w)) as [->|]; [|rewrite list_lookup_insert_ne by done; by exists y].
    rewrite list_lookup_insert_eq by (by eapply lookup_lt_Some). exists th'. split; [done|]. rewrite Hw in Hy. injection Hy as <-.
    destruct (Hm Hmc) as [|Hna]; [done|]. unfold not_adding in Hna. apply forallb_forall with (x := a) in Hna; [|by apply list_elem_of_In].
    by rewrite Ec, bool_decide_eq_true_2 in Hna by done.
  - intros x y Hx Hy. apply list_lookup_insert_Some in Hx as [(<- & <- & _)|[_ Hx]]; [apply (Hj w th Hw); congruence|by apply (Hj x y)].
  - destruct (ctl s); try (intros x y Hx; apply list_lookup_insert_Some in Hx as [(<- & <- & _)|[_ Hx]]; [apply Hs; by eapply Hst|by eapply Hst]).
    destruct Hst as [E Hst]. split; [done|]. intros j x y Hlt Hl Hx. apply list_lookup_insert_Some in Hx as [(<- & <- & _)|[_ Hx]]; [apply Hs; by eapply (Hst j)|by eapply (Hst j)].
Qed.

Lemma inv_put s w th th' : inv s → workers s !! w = Some th → thread_ok (adders s) w th' →
  shouldRun th' = shouldRun th → (startup th = true → startup th' = true) →
  (may_call (pc th) = true → may_call (pc th') = true ∨ not_adding w s = true) →
  past (pc th') = past (pc th) → (finished (pc th) = true → finished (pc th') = true) → inv (put w th' s).
Proof.
  intros Hi Hw Hok Hr Hs Hm Hp Hf. change (put w th' s) with (set_stopped (stoppedThreads_ s) (put w th' s)).
  apply (inv_step s w th); try done. apply (cinv_put _ _ th); try done. apply Hi.
Qed.

Lemma inv_tell es s : inv s → inv (tell es s).
Proof. by intros [? ? ? ? ? ?]. Qed.

(** ** The pool's threads *)

(** The step to stoppedThreads_. *)
Lemma cinv_stop ws l c q w th th' : ws !! w = Some th → cinv ws l c q → shouldRun th' = shouldRun th → past (pc th) = false → past (pc th') = true →
  Z.of_nat (length ws) ≤ BlockingQueue.SEM_VALUE_MAX →
  ∃ q', BlockingQueue.add w q = Ret q' ∧ cinv (<[w := th']> ws) l c q'.
Proof.
  intros Hw [Hs Hi Ho Hst Hn Hq Hm] Hr Hp Hp' Hlen.
  assert (Hlt : ngone ws + 1 ≤ Z.of_nat (length ws)).
  { assert (H := count_nonneg (fun th => past (pc th)) (<[w := th']> ws)). unfold ngone. clear -Hw Hp.
    revert w Hw. induction ws as [|x ws IH]; intros [|w] Hw; try done; rewrite count_cons; cbn [length].
    - injection Hw as ->. rewrite Hp. cbn. assert (count (λ th, past (pc th)) ws ≤ Z.of_nat (length ws)); [|lia].
      unfold count. assert (H := length_filter (fun th => past (pc th) = true) ws). lia.
    - specialize (IH w Hw). destruct (past (pc x)); cbn; lia. }
  assert (Hin : w ∈ l). { destruct (decide (w ∈ l)) as [|Hn']; [done|]. specialize (Ho w th Hw Hn'). destruct (pc th); done. }
  assert (Hg : gone ws w = false) by (unfold gone; by rewrite Hw).
  assert (Hnq : w ∉ BlockingQueue.queue_ q ++ erasing c) by (intros [_ H]%Hq; congruence).
  assert (Hgone : ∀ x, gone (<[w := th']> ws) x = true ↔ x = w ∨ gone ws x = true).
  { intros x. unfold gone. destruct (decide (x = w)) as [->|Hx]; [|rewrite list_lookup_insert_ne by done; naive_solver].
    rewrite list_lookup_insert_eq by (by eapply lookup_lt_Some). cbn. naive_solver. }
  unfold BlockingQueue.add, BlockingQueue.post. rewrite (proj2 (Z.ltb_lt _ _)) by lia. eexists. split; [done|]. split; try done; cbn [BlockingQueue.queue_ BlockingQueue.sem_].
  - intros x. rewrite length_insert. apply Hi.
  - intros x y Hx Hl. apply list_lookup_insert_Some in Hx as [(<- & <- & _)|[_ Hx]]; [done|by apply (Ho x y)].
  - by apply (stop_ok_put _ _ _ _ Hw).
  - rewrite <- app_assoc. cbn. rewrite <- Permutation_middle. by apply NoDup_cons.
  - intros x. rewrite Hgone. specialize (Hq x). set_solver.
  - unfold ngone in *. rewrite (count_insert _ _ _ th) by done. rewrite Hp, Hp'. cbn. lia.
Qed.

Lemma io_work_inv s w now r : inv s → Z.of_nat (length (workers s)) ≤ BlockingQueue.SEM_VALUE_MAX → work w now s = Some r → ∃ s', r = Ret s' ∧ inv s'.
Proof.
  intros Hi Hlen E. unfold work in E. destruct (workers s !! w) as [th|] eqn:Hw; [|done]. cbn in E.
  pose proof (i_threads s Hi w th Hw) as Hok. destruct Hok as [Ho Hc Hid Hl Hs Hr Hj].
  pose proof (count_nonneg (on_target w) (adders s)) as Hcn.
  destruct (pc th) as [| | |once|once|once [|t rest]|once t st start rest|once rest|once|once| | |j|j|j] eqn:Ep; cbn in E, Ho, Hc, Hid, Hl, Hs, Hr, Hj.
  all: try done.
  14: { injection E as <-. destruct (cinv_stop (workers s) _ _ _ w th (with_pc (TNull j) th) Hw (i_ctl s Hi)) as (q' & E' & Hc'); cbn; try done; [by rewrite Ep|].
        rewrite E'. eexists. split; [reflexivity|]. apply (inv_step s w th); cbn; try done. by rewrite Ep. }
  all: repeat match type of E with
    | context [not_adding ?x ?y] => destruct (not_adding x y) eqn:Ena; [|done]
    | context [task_start ?n ?t] => destruct (task_start n t) as [st es]
    | context [isJoin_ ?y] => destruct (isJoin_ y) as [join|] eqn:Ejoin; [|by destruct (i_join s Hi w th Hw (Hr eq_refl) Ejoin)]
    end; cbn in E.
  all: injection E as <-; eexists; (split; [reflexivity|]); try apply inv_tell; apply (inv_put s w th _ Hi Hw); cbn; rewrite ?Ep; try (left; done || right; done); try done.
  all: try (by intros _; right); repeat match goal with |- context [if ?b then _ else _] => destruct b eqn:? end; try done.
  all: split; cbn in *; try done; try lia; rewrite ?app_nil_r, ?length_app; try done; try lia.
  - by rewrite <- app_assoc.
  - intros _. apply length_zero_iff_nil. lia.
Qed.

(** ** Calls of add *)

Lemma count_delete {A} (f : A → bool) l i x : l !! i = Some x → count f (delete i l) = count f l - Z.b2z (f x).
Proof.
  revert i. induction l as [|y l IH]; intros [|i] Hx; try done.
  - injection Hx as ->. change (delete 0%nat (x :: l)) with l. rewrite count_cons. lia.
  - change (delete (S i) (y :: l)) with (y :: delete i l). rewrite !count_cons, (IH i Hx). lia.
Qed.

(** The thread that a call has picked is in its event loop. *)
Lemma adder_alive s a th : inv s → a ∈ adders s → workers s !! target a = Some th → joined (pc th) = false ∧ eventLoop th = Loop.
Proof.
  intros Hi Ha Hw. pose proof (i_adders s Hi a Ha) as Hok. pose proof (i_threads s Hi _ _ Hw) as Ht. unfold adder_ok in Hok.
  rewrite (t_loop _ _ _ Ht). destruct (caller a) as [c|].
  - destruct Hok as [-> (y & Hy & Hm)]. rewrite Hw in Hy. injection Hy as <-. by destruct (pc th).
  - destruct Hok as [Hc Hin]. assert (Hst := i_start s Hi). rewrite Hc in Hst. specialize (Hst _ _ Hw). rewrite (t_start _ _ _ Ht) in Hst.
    assert (shouldRun th = true).
    { assert (Hs := c_stop _ _ _ _ (i_ctl s Hi)). rewrite Hc in Hs. cbn in Hs. destruct (shouldRun th) eqn:E; [done|].
      assert (Hx : target a ∈ told (workers s) (threads_ s)); [|rewrite Hs in Hx; by apply elem_of_nil in Hx].
      apply list_elem_of_filter. split; [|done]. unfold flag. by rewrite Hw. }
    assert (after_run (pc th) = false) by (destruct (after_run (pc th)) eqn:E; [|done]; apply (t_run _ _ _ Ht) in E; congruence).
    by destruct (pc th).
Qed.

Lemma add_begin_inv s from now f expiration cb r : inv s → orderly (LAdd from now f expiration cb) s →
  add_begin from now f expiration cb s = Some r → ∃ s', r = Ret s' ∧ inv s'.
Proof.
  intros Hi Hor E. unfold add_begin in E. destruct (constructing (ctl s)) eqn:Econ; [done|].
  destruct (decide (threads_ s = [])) as [|Hne]; [injection E as <-; eexists; split; [done|by apply inv_tell]|].
  set (t := new_task now f expiration cb) in *.
  assert (Hgen : ∀ w n, adder_ok s (mk_adder from w t false) → inv (set_adders (adders s ++ [mk_adder from w t false]) (set_next n s))).
  { intros w n Hok. destruct Hi as [Ht Ha Hc Hj Hfl Hst]. split; try done.
    - intros x th Hx. destruct (Ht x th Hx) as [H1 H2 H3 H4 H5 H6 H7]. split; try done. cbn [adders set_adders]. rewrite H2.
      unfold count. rewrite list.filter_app, filter_cons_False by done. by rewrite app_nil_r.
    - cbn. intros a Hin. apply elem_of_app in Hin as [Hin|Hin%list_elem_of_singleton]; [by apply Ha|by subst a].
    - cbn. by destruct (ctl s). }
  destruct from as [w|]; cbn in E.
  - destruct (workers s !! w) as [th|] eqn:Hw; [|done]. cbn in E. destruct (may_call (pc th)) eqn:Em; [|done]. injection E as <-. eexists. split; [done|].
    specialize (Hgen w (nextThread_ s)). replace (set_next (nextThread_ s) s) with s in Hgen by (by destruct s). apply Hgen. split; [done|]. by exists th.
  - cbn in Hor. set (i := Z.to_nat _) in E. destruct (threads_ s !! i) as [w|] eqn:Ew.
    + injection E as <-. eexists. split; [done|]. apply Hgen. split; [done|]. by eapply list_elem_of_lookup_2.
    + apply lookup_ge_None in Ew. assert (length (threads_ s) ≠ 0%nat) by (by destruct (threads_ s)).
      assert (Hmod := Z.mod_pos_bound (nextThread_ s) (Z.of_nat (length (threads_ s))) ltac:(lia)). subst i. lia.
Qed.

(** A step of a call that has picked the thread [w]. *)
Lemma inv_adding s w th th' adds : inv s → workers s !! w = Some th → adders s ≠ [] →
  pc th' = pc th → shouldRun th' = shouldRun th → startup th' = startup th → thread_ok adds w th' →
  (∀ x, x ≠ w → count (on_target x) adds = count (on_target x) (adders s)) → (∀ a, a ∈ adds → adder_ok s a) →
  inv (set_adders adds (put w th' s)).
Proof.
  intros [Ht Ha Hc Hj Hfl Hst] Hw Hne Hpc Hr Hs Hok Hcount Hadds. split; cbn.
  - intros x y Hx. apply list_lookup_insert_Some in Hx as [(<- & <- & _)|[Hn Hx]]; [done|].
    destruct (Ht x y Hx) as [H1 H2 H3 H4 H5 H6 H7]. split; try done. by rewrite Hcount.
  - intros a Hin. specialize (Hadds a Hin). unfold adder_ok in *. destruct (caller a) as [c|]; [|done].
    destruct Hadds as [E (y & Hy & Hm)]. split; [done|]. cbn. destruct (decide (c = w)) as [->|]; [|rewrite list_lookup_insert_ne by done; by exists y].
    rewrite list_lookup_insert_eq by (by eapply lookup_lt_Some). exists th'. split; [done|]. rewrite Hw in Hy. injection Hy as <-. by rewrite Hpc.
  - apply (cinv_put _ _ th); try done; by rewrite Hpc.
  - intros x y Hx Hy. apply list_lookup_insert_Some in Hx as [(<- & <- & _)|[_ Hx]]; [apply (Hj w th Hw); congruence|by apply (Hj x y)].
  - done.
  - destruct (ctl s); [by destruct Hst| |intros x y Hx; apply list_lookup_insert_Some in Hx as [(<- & <- & _)|[_ Hx]]; [rewrite Hs|]; by eapply Hst..].
    intros x y Hx; apply list_lookup_insert_Some in Hx as [(<- & <- & _)|[_ Hx]]; [rewrite Hs|]; by eapply Hst.
Qed.

Lemma add_next_inv s j r : inv s → add_next j s = Some r → ∃ s', r = Ret s' ∧ inv s'.
Proof.
  intros Hi E. unfold add_next in E. destruct (adders s !! j) as [a|] eqn:Ea; [|done]. cbn in E.
  destruct (workers s !! target a) as [th|] eqn:Hw; [|done]. cbn in E.
  assert (Hin : a ∈ adders s) by (by eapply list_elem_of_lookup_2).
  destruct (adder_alive s a th Hi Hin Hw) as [Hjn Hlp]. pose proof (i_threads s Hi _ _ Hw) as [H1 H2 H3 H4 H5 H6 H7].
  assert (Hne : adders s ≠ []) by (by intros Hnil; rewrite Hnil in Hin; apply elem_of_nil in Hin).
  assert (Hon : ∀ x, on_target x a = counted a && (target a =? x)%nat) by done.
  assert (Hnew : ∀ x, on_target x (mk_adder (caller a) (target a) (task a) true) = (target a =? x)%nat) by done.
  destruct (counted a) eqn:Ec; [rewrite Hlp in E|]; injection E as <-; eexists; (split; [reflexivity|]);
    apply (inv_adding s _ th); try done.
  - split; cbn; try done; [by rewrite H1, <- !app_assoc| |by rewrite Hjn].
    rewrite (count_delete _ _ _ a Ea), Hon, Nat.eqb_refl, length_app. cbn. lia.
  - intros x Hx. rewrite (count_delete _ _ _ a Ea), Hon, (proj2 (Nat.eqb_neq _ _)) by done. cbn. lia.
  - intros b Hb. apply (i_adders s Hi). apply list_elem_of_lookup in Hb as [k Hk]. destruct (decide (k < j)%nat).
    + rewrite list_lookup_delete_lt in Hk by done. by eapply list_elem_of_lookup_2.
    + rewrite list_lookup_delete_ge in Hk by lia. by eapply list_elem_of_lookup_2.
  - split; cbn; try done. rewrite (count_insert _ _ _ a _ Ea), Hon, Hnew, Nat.eqb_refl. cbn. lia.
  - intros x Hx. rewrite (count_insert _ _ _ a _ Ea), Hon, Hnew, (proj2 (Nat.eqb_neq _ _)) by done. cbn. lia.
  - intros b Hb. apply list_elem_of_lookup in Hb as [k Hk]. apply list_lookup_insert_Some in Hk as [(<- & <- & _)|[_ Hk]].
    + exact (i_adders s Hi a Hin).
    + apply (i_adders s Hi). by eapply list_elem_of_lookup_2.
Qed.
End IOPoolProof.

(** ** The controlling thread, and what the pool promises *)

Module IOPoolSpec.
Import IOPool IOPoolProof.

(** ** The list of threads *)

Lemma told_nil ws l : told ws l = [] ↔ ∀ w, w ∈ l → flag ws w = true.
Proof.
  unfold told. induction l as [|x l IH]; [split; [intros _ w Hw; by apply elem_of_nil in Hw|done]|]. rewrite filter_cons.
  destruct (decide (flag ws x = false)) as [E|E]; [split; [done|intros H; rewrite H in E by set_solver; done]|].
  rewrite IH. apply not_false_is_true in E. split; [intros H w [->|Hw]%elem_of_cons; auto|set_solver].
Qed.

(** The first [n] threads have been told. *)
Lemma told_prefix ws l n : (n ≤ length l)%nat → (∀ j w, l !! j = Some w → flag ws w = false ↔ (j < n)%nat) → length (told ws l) = n.
Proof.
  revert l. induction n as [|n IH]; intros l Hn H.
  - rewrite (proj2 (told_nil ws l)); [done|]. intros w [j Hj]%list_elem_of_lookup. apply not_false_is_true. intros E%(H j w Hj). lia.
  - destruct l as [|x l]; [cbn in Hn; lia|]. unfold told. rewrite filter_cons_True by (apply (H 0%nat x); [done|lia]). cbn. f_equal. apply IH; [cbn in Hn; lia|].
    intros j w Hj. rewrite (H (S j) w Hj). lia.
Qed.

Lemma equal_range l w : StronglySorted lt l → w ∈ l →
  l !! lower_bound l w = Some w ∧ upper_bound l w = S (lower_bound l w) ∧ delete (lower_bound l w) l = filter (fun x => x ≠ w) l.
Proof.
  unfold lower_bound, upper_bound. induction l as [|x l IH]; intros Hs Hin; [by apply elem_of_nil in Hin|].
  inversion_clear Hs as [|? ? Hl Hx]. rewrite !filter_cons. apply elem_of_cons in Hin as [->|Hin].
  - rewrite (decide_False (P := x ≠ x)) by auto. rewrite decide_False, decide_True by lia. assert (∀ P (HP : ∀ y, Decision (P y)), (∀ y, P y → (y ≤ x)%nat) → filter P l = []) as Hf.
    { intros P HP Himp. clear -Hx Himp. induction Hx as [|y l Hy _ IH]; [done|]. rewrite filter_cons, decide_False; [done|]. intros Hyp%Himp. lia. }
    rewrite !Hf by (cbn; lia). split_and!; try done. cbn. clear -Hx. induction Hx as [|y l Hy _ IH]; [done|]. rewrite filter_cons_True by lia. by rewrite <- IH.
  - rewrite Forall_forall in Hx. specialize (Hx w Hin). rewrite !decide_True by lia. cbn [length].
    destruct (IH Hl Hin) as (H1 & H2 & H3). rewrite H2. split_and!; try done. cbn. f_equal. exact H3.
Qed.

Lemma sorted_filter P {HP : ∀ x : nat, Decision (P x)} l : StronglySorted lt l → StronglySorted lt (filter P l).
Proof.
  induction 1 as [|x l Hl IH Hx]; [constructor|]. rewrite filter_cons. destruct (decide (P x)); [|done]. constructor; [done|].
  apply Forall_forall. intros y [_ Hy]%list_elem_of_filter. by apply (proj1 (Forall_forall _ _) Hx).
Qed.
Lemma sorted_nodup l : StronglySorted lt l → NoDup l.
Proof.
  induction 1 as [|x l Hl IH Hx]; constructor; [|done]. intros Hin. pose proof (proj1 (Forall_forall _ _) Hx x Hin). cbn in *. lia.
Qed.

(** One element less. *)
Lemma length_remove w l : NoDup l → w ∈ l → length l = S (length (filter (fun x : nat => x ≠ w) l)).
Proof.
  induction 1 as [|x l Hx Hn IH]; intros Hin; [by apply elem_of_nil in Hin|]. rewrite filter_cons. apply elem_of_cons in Hin as [->|Hin].
  - rewrite decide_False by auto. cbn. f_equal. clear IH Hn. induction l as [|y l IH]; [done|]. apply not_elem_of_cons in Hx as [H1 H2].
    rewrite filter_cons_True by done. cbn. by rewrite <- IH.
  - rewrite decide_True by (by intros ->). cbn. by rewrite <- IH.
Qed.

(** ** Calls of the controlling thread *)

Lemma cinv_ctl ws l c c' q : cinv ws l c q → erasing c' = erasing c → stop_ok ws l c' → cinv ws l c' q.
Proof. intros [? ? ? ? ? ? ?] He Hs. split; rewrite ?He; done. Qed.

Lemma no_outside s a : inv s → orderly LControl s → a ∈ adders s → caller a ≠ None.
Proof.
  intros Hi Hor Ha Hc. pose proof (i_adders s Hi a Ha) as Hok. unfold adder_ok in Hok. rewrite Hc in Hok. destruct Hok as [E _].
  by apply (proj1 (Forall_forall _ _) (Hor E) a Ha).
Qed.

Lemma inv_control s s' : inv s → orderly LControl s → workers s' = workers s → adders s' = adders s →
  (isJoin_ s' = isJoin_ s ∧ (flagged (ctl s') = true → flagged (ctl s) = true) ∨ isJoin_ s' ≠ None) → constructing (ctl s) = false → constructing (ctl s') = false →
  cinv (workers s) (threads_ s') (ctl s') (stoppedThreads_ s') → inv s'.
Proof.
  intros Hi Hor Ew Ea Ej Hc Hc' Hcinv. pose proof (no_outside s) as Hno. split; rewrite ?Ew, ?Ea; [apply Hi| |done| | |].
  - intros a Ha. pose proof (i_adders s Hi a Ha) as Hok. specialize (Hno a Hi Hor Ha). unfold adder_ok in *. rewrite Ew. by destruct (caller a).
  - intros w th Hw Hr. destruct Ej as [[-> _]|]; [by apply (i_join s Hi w th)|done].
  - intros Hf. destruct Ej as [[-> Hfl]|]; [by apply (i_flag s Hi), Hfl|done].
  - pose proof (i_start s Hi) as Hst. destruct (ctl s), (ctl s'); done.
Qed.

Lemma queue_empty ws l c q : cinv ws l c q → (∀ w th, ws !! w = Some th → past (pc th) = true → shouldRun th = false) →
  told ws l = [] → BlockingQueue.queue_ q = [].
Proof.
  intros Hc Hp Ht. destruct (BlockingQueue.queue_ q) as [|w r] eqn:E; [done|]. exfalso.
  destruct (proj1 (c_queue _ _ _ _ Hc w)) as [Hin Hg]; [rewrite E; set_solver|].
  pose proof (proj1 (told_nil ws l) Ht w Hin) as Hf. unfold flag, gone in *. destruct (ws !! w) as [th|] eqn:Ew; [|done]. cbn in *.
  rewrite (Hp w th Ew Hg) in Hf. done.
Qed.
Lemma past_run s w th : inv s → workers s !! w = Some th → past (pc th) = true → shouldRun th = false.
Proof. intros Hi Hw Hp. apply (t_run _ _ _ (i_threads s Hi w th Hw)). by destruct (pc th). Qed.
Lemma told_all s w : inv s → w ∈ BlockingQueue.queue_ (stoppedThreads_ s) ++ erasing (ctl s) → w ∈ told (workers s) (threads_ s).
Proof.
  intros Hi Hin. apply (c_queue _ _ _ _ (i_ctl s Hi)) in Hin as [Hin Hg]. apply list_elem_of_filter. split; [|done].
  unfold flag, gone in *. destruct (workers s !! w) as [th|] eqn:Ew; [|done]. by apply (past_run s w th).
Qed.

Lemma io_start_inv s i r : inv s → ctl s = CStart i → control s = Some r → ∃ s', r = Ret s' ∧ inv s'.
Proof.
  intros Hi Hc E. unfold control in E. rewrite Hc in E. destruct Hi as [Ht Ha Hcv Hj Hfl Hst]. rewrite Hc in Hst, Hcv. destruct Hst as [Hnil Hst].
  destruct (threads_ s !! i) as [w|] eqn:El.
  - destruct (workers s !! w) as [th|] eqn:Ew; [|done]. cbn in E. destruct (startup th) eqn:Es; [|done]. injection E as <-. eexists. split; [done|]. split; cbn; try done.
    + intros a Hin. rewrite Hnil in Hin. by apply elem_of_nil in Hin.
    + by apply (cinv_ctl _ _ (CStart i)); [| |apply Hcv].
    + split; [done|]. intros j x y Hlt Hx Hy. destruct (decide (j = i)) as [->|]; [congruence|]. by apply (Hst j x y); [lia| |].
  - injection E as <-. eexists. split; [done|]. split; cbn; try done.
    + intros a Hin. rewrite Hnil in Hin. by apply elem_of_nil in Hin.
    + by apply (cinv_ctl _ _ (CStart i)); [| |apply Hcv].
    + intros w th Hw. destruct (decide (w ∈ threads_ s)) as [[j Hj']%list_elem_of_lookup|Hn].
      * apply (Hst j w th); try done. apply lookup_lt_Some in Hj'. apply lookup_ge_None in El. lia.
      * pose proof (c_out _ _ _ _ Hcv w th Hw Hn) as Hf. rewrite (t_start _ _ _ (Ht w th Hw)). by destruct (pc th).
Qed.

Lemma stop_thread_inv s i n g r : inv s → orderly LControl s → ctl s = CStopT i n g → control s = Some r → ∃ s', r = Ret s' ∧ inv s'.
Proof.
  intros Hi Hor Hc E. unfold control in E. rewrite Hc in E. pose proof (i_ctl s Hi) as Hcv. rewrite Hc in Hcv. pose proof (c_stop _ _ _ _ Hcv) as (Hp & Hin & Hlen).
  destruct (Nat.ltb_spec i n) as [Hlt|Hge]; cycle 1.
  { injection E as <-. eexists. split; [done|]. apply (inv_control s _ Hi Hor); cbn; rewrite ?Hc; auto. apply (cinv_ctl _ _ (CStopT i n g)); try done. cbn.
    assert (i = n) as -> by lia. split; [|lia]. apply told_prefix; [lia|done]. }
  destruct (lookup_lt_is_Some_2 (threads_ s) i) as [w Hw]; [lia|]. rewrite Hw in E. cbn in E.
  assert (Hwl : w ∈ threads_ s) by (by eapply list_elem_of_lookup_2).
  destruct (lookup_lt_is_Some_2 (workers s) w) as [th Hth]; [by apply (c_in _ _ _ _ Hcv)|]. rewrite Hth in E. cbn in E. injection E as <-.
  eexists. split; [done|]. set (th' := with_run false th).
  assert (Hpast : ∀ x, gone (<[w := th']> (workers s)) x = gone (workers s) x) by (intros x; by apply (gone_put _ _ th)).
  assert (Hflag : ∀ x, flag (<[w := th']> (workers s)) x = if decide (x = w) then false else flag (workers s) x).
  { intros x. unfold flag. destruct (decide (x = w)) as [->|]; [|by rewrite list_lookup_insert_ne]. by rewrite list_lookup_insert_eq by (by eapply lookup_lt_Some). }
  destruct (i_threads s Hi w th Hth) as [H1 H2 H3 H4 H5 H6 H7]. split; cbn.
  - intros x y Hx. apply list_lookup_insert_Some in Hx as [(<- & <- & _)|[_ Hx]]; [by split|by apply Hi].
  - intros a Ha. pose proof (no_outside s a Hi Hor Ha) as Hno. pose proof (i_adders s Hi a Ha) as Hok. unfold adder_ok in *.
    destruct (caller a) as [c|]; [|done]. destruct Hok as [-> (y & Hy & Hm)]. split; [done|]. cbn.
    destruct (decide (target a = w)) as [<-|]; [|rewrite list_lookup_insert_ne by done; by exists y].
    rewrite list_lookup_insert_eq by (by eapply lookup_lt_Some). exists th'. split; [done|]. by replace y with th in Hm by congruence.
  - destruct Hcv as [Hs Hin' Ho Hst Hn Hq Hm]. split; try done.
    + intros x. rewrite length_insert. apply Hin'.
    + intros x y Hx Hl. apply list_lookup_insert_Some in Hx as [(<- & <- & _)|[_ Hx]]; [done|by apply (Ho x y)].
    + split; [|done]. intros j x Hx. rewrite Hflag. destruct (decide (x = w)) as [->|Hne].
      * assert (j = i) as -> by (by eapply NoDup_lookup; [apply sorted_nodup| |]). split; [lia|done].
      * rewrite (Hp j x Hx). assert (j ≠ i) by congruence. lia.
    + intros x. rewrite Hpast. apply Hq.
    + unfold ngone in *. rewrite (count_insert _ _ _ th) by done. cbn. lia.
  - intros x y Hx Hy. apply (i_flag s Hi). by rewrite Hc.
  - intros _. apply (i_flag s Hi). by rewrite Hc.
  - pose proof (i_start s Hi) as Hst. rewrite Hc in Hst. intros x y Hx. apply list_lookup_insert_Some in Hx as [(<- & <- & _)|[_ Hx]]; [by apply (Hst w th)|by apply (Hst x y)].
Qed.

Lemma stop_loop_inv s i n g r : inv s → orderly LControl s → ctl s = CLoop i n g → control s = Some r → ∃ s', r = Ret s' ∧ inv s'.
Proof.
  intros Hi Hor Hc E. unfold control in E. rewrite Hc in E. pose proof (i_ctl s Hi) as Hcv. rewrite Hc in Hcv. pose proof (c_stop _ _ _ _ Hcv) as (Hp & Hin & Hlen).
  destruct (lookup_lt_is_Some_2 (threads_ s) i) as [w Hw]; [lia|]. rewrite Hw in E. cbn in E.
  assert (Hwl : w ∈ threads_ s) by (by eapply list_elem_of_lookup_2).
  destruct (lookup_lt_is_Some_2 (workers s) w) as [th Hth]; [by apply (c_in _ _ _ _ Hcv)|]. rewrite Hth in E. cbn in E.
  assert (Hgo : ∀ s1, inv s1 → orderly LControl s1 → ctl s1 = ctl s → inv (set_ctl (CStopT (S i) n g) s1)).
  { intros s1 Hi1 Hor1 Hc1. apply (inv_control s1 _ Hi1 Hor1); cbn; rewrite ?Hc1, ?Hc; auto. pose proof (i_ctl s1 Hi1) as Hcv1. rewrite Hc1, Hc in Hcv1.
    apply (cinv_ctl _ _ _ _ _ Hcv1); [done|]. destruct (c_stop _ _ _ _ Hcv1) as (H1 & H2 & H3). cbn. split; [done|lia]. }
  pose proof (i_start s Hi) as Hst. rewrite Hc in Hst. specialize (Hst w th Hth). destruct (i_threads s Hi w th Hth) as [H1 H2 H3 H4 H5 H6 H7].
  destruct (eventLoop th) eqn:El; injection E as <-.
  - destruct (pc th); cbn in *; congruence.
  - eexists. split; [done|]. by apply Hgo.
  - eexists. split; [done|]. apply Hgo; try done. apply (inv_put s w th _ Hi Hth); cbn; auto. split; cbn; auto. by rewrite El.
Qed.

Lemma take_inv s k g r : inv s → orderly LControl s → ctl s = CTake (S k) g → control s = Some r → ∃ s', r = Ret s' ∧ inv s'.
Proof.
  intros Hi Hor Hc E. unfold control in E. rewrite Hc in E. pose proof (i_ctl s Hi) as Hcv. rewrite Hc in Hcv. pose proof (c_stop _ _ _ _ Hcv) as (Ht & Hlen).
  injection E as <-. eexists. split; [done|]. unfold BlockingQueue.take. destruct (BlockingQueue.queue_ (stoppedThreads_ s)) as [|w q] eqn:Eq.
  - apply (inv_control s _ Hi Hor); cbn; rewrite ?Hc; auto. apply (cinv_ctl _ _ _ _ _ Hcv); done.
  - apply (inv_control s _ Hi Hor); cbn; rewrite ?Hc; auto. destruct Hcv as [Hs Hin' Ho Hst Hn Hq Hm]. rewrite Eq in Hn, Hq. cbn in Hn, Hq. rewrite app_nil_r in Hn, Hq.
    split; try done; cbn.
    + by rewrite <- Permutation_cons_append.
    + intros x. rewrite <- Permutation_cons_append. apply Hq.
Qed.

Lemma erase_inv s w k g r : inv s → orderly LControl s → ctl s = CErase w k g → control s = Some r → ∃ s', r = Ret s' ∧ inv s'.
Proof.
  intros Hi Hor Hc E. unfold control in E. rewrite Hc in E. pose proof (i_ctl s Hi) as Hcv. rewrite Hc in Hcv. pose proof (c_stop _ _ _ _ Hcv) as (Ht & Hlen).
  assert (Htold := told_all s w Hi). rewrite Hc in Htold. specialize (Htold ltac:(set_solver)).
  destruct (returned s w) eqn:Er; [|done]. destruct Hcv as [Hs Hin Ho Hst Hn Hq Hm]. assert (Hwl : w ∈ threads_ s) by (apply (Hq w); set_solver).
  destruct (equal_range (threads_ s) w Hs Hwl) as (H1 & H2 & H3).
  rewrite H2, Nat.eqb_refl, (proj2 (Nat.ltb_lt _ _)) in E by (by eapply lookup_lt_Some). cbn in E. injection E as <-. eexists. split; [done|].
  apply (inv_control s _ Hi Hor); cbn; rewrite ?Hc; auto. rewrite H3.
  assert (Hnw : w ∉ BlockingQueue.queue_ (stoppedThreads_ s)) by (cbn in Hn; rewrite <- Permutation_cons_append in Hn; by apply NoDup_cons in Hn as [? _]).
  split; cbn; try done.
  - by apply sorted_filter.
  - intros x [_ Hx]%list_elem_of_filter. by apply Hin.
  - intros x th Hx Hx'. destruct (decide (x = w)) as [->|Hne].
    + unfold returned in Er. rewrite Hx in Er. cbn in Er. by destruct (pc th).
    + apply (Ho x th Hx). intros Hxl. apply Hx'. by apply list_elem_of_filter.
  - split; [|rewrite (length_remove w) in Hlen by (done || by apply sorted_nodup); lia].
    unfold told in *. rewrite (length_remove w) in Ht by (done || by apply sorted_nodup, sorted_filter).
    injection Ht as <-. f_equal. rewrite !list_filter_filter. apply list_filter_iff. naive_solver.
  - rewrite app_nil_r. cbn in Hn. by apply NoDup_app in Hn as [? _].
  - intros x. specialize (Hq x). cbn in Hq. rewrite app_nil_r, list_elem_of_filter. set_solver.
Qed.

(** Between removals nothing is left in stoppedThreads_. *)
Lemma stopped_empty s : inv s → told (workers s) (threads_ s) = [] → BlockingQueue.size (stoppedThreads_ s) =? 0 = true.
Proof.
  intros Hi Ht. unfold BlockingQueue.size. rewrite (queue_empty _ _ _ _ (i_ctl s Hi)); [done| |done]. intros w th. by apply past_run.
Qed.

Lemma io_control_inv s r : inv s → orderly LControl s → control s = Some r → ∃ s', r = Ret s' ∧ inv s'.
Proof.
  intros Hi Hor E. pose proof (i_ctl s Hi) as Hcv. pose proof (c_stop _ _ _ _ Hcv) as Hst. pose proof (stopped_empty s Hi) as Hse.
  assert (Hgo : ∀ s', constructing (ctl s) = false → workers s' = workers s → adders s' = adders s → threads_ s' = threads_ s → stoppedThreads_ s' = stoppedThreads_ s →
    (isJoin_ s' = isJoin_ s ∧ (flagged (ctl s') = true → flagged (ctl s) = true) ∨ isJoin_ s' ≠ None) →
    constructing (ctl s') = false → erasing (ctl s') = erasing (ctl s) → stop_ok (workers s) (threads_ s) (ctl s') → inv s').
  { intros s' Hn Ew Ea El Eq Ej Hc' He Hok. apply (inv_control s s' Hi Hor); try done. rewrite El, Eq. by apply (cinv_ctl _ _ (ctl s)). }
  destruct (ctl s) as [i| |n j g|n j g|i n g|i n g|[|k] g|k g|w k g|g|g] eqn:Hc; [by apply (io_start_inv s i)| | | |by apply (stop_thread_inv s i n g)|by apply (stop_loop_inv s i n g)
    | |by apply (take_inv s k g)| |by apply (erase_inv s w k g)| |]; unfold control in E; rewrite Hc in E; cbn in Hst.
  - destruct (ops s) as [|o os]; [done|]. injection E as <-. eexists. split; [done|]. destruct o as [| |n]; cbn -[Nat.ltb]; [| |destruct (Nat.ltb_spec (length (threads_ s) - n) (length (threads_ s)))];
      apply Hgo; cbn; auto; split; auto; lia.
  - destruct Hst as [Ht Hl]. rewrite (Hse Ht) in E. injection E as <-. eexists. split; [done|]. by apply Hgo; auto.
  - destruct Hst as [Ht Hl]. injection E as <-. eexists. split; [done|]. apply Hgo; cbn; auto. split; [|lia]. intros j' w Hw.
    rewrite (proj1 (told_nil _ _) Ht w) by (by eapply list_elem_of_lookup_2). split; [done|lia].
  - destruct Hst as [Ht Hl]. injection E as <-. eexists. split; [done|]. apply Hgo; cbn; auto. split; [|lia]. by apply length_zero_iff_nil.
  - unfold BlockingQueue.wait in E. destruct (Z.ltb_spec 0 (BlockingQueue.sem_ (stoppedThreads_ s))); [|done]. injection E as <-. eexists. split; [done|].
    apply (inv_control s _ Hi Hor); cbn; rewrite ?Hc; auto. destruct Hcv as [H1 H2 H3 H4 H5 H6 H7]. split; cbn; try done. lia.
  - destruct Hst as [Ht Hl]. rewrite (Hse Ht) in E. injection E as <-. eexists. split; [done|]. by apply Hgo; auto.
  - destruct Hst as [Ht Hl]. rewrite Hl, Nat.eqb_refl in E. injection E as <-. eexists. split; [done|]. by apply Hgo; auto.
Qed.

(** ** Every state *)

Lemma exec_inv l s r : inv s → Z.of_nat (length (workers s)) ≤ BlockingQueue.SEM_VALUE_MAX → orderly l s → exec l s = Some r → ∃ s', r = Ret s' ∧ inv s'.
Proof.
  intros Hi Hn Hor E. destruct l as [w now| |from now f e cb|j]; cbn in E.
  - by apply (io_work_inv s w now).
  - by apply (io_control_inv s).
  - by apply (add_begin_inv s from now f e cb).
  - by apply (add_next_inv s j).
Qed.

(** Case analysis on what a step did. *)
Ltac cases E :=
  repeat (cbn in E; match type of E with
  | Some _ = Some _ => injection E as E
  | Ret _ = Ret _ => injection E as E
  | None = Some _ => discriminate E
  | Err _ = Ret _ => discriminate E
  | context [match ?x with _ => _ end] => destruct x eqn:?
  | context [mbind _ ?x] => destruct x eqn:?
  end); simplify_eq; cbn.
Ltac steps l E :=
  destruct l as [w now| |from now f e cb|j]; cbn in E;
    [unfold work in E|unfold control, begin, RDDCHECK, check in E|unfold add_begin in E|unfold add_next in E].

Lemma pickThread_next from s w s' : pickThread from s = Some (Ret (w, s')) → ∃ n, s' = set_next n s.
Proof. unfold pickThread. intros E. destruct from as [c|]; cases E; [exists (nextThread_ s'); by destruct s'|by eexists]. Qed.

Lemma exec_length l s s' : exec l s = Some (Ret s') → length (workers s') = length (workers s).
Proof.
  intros E. steps l E; cases E; rewrite ?length_insert; try done. by apply pickThread_next in Heqo as [? ->].
Qed.

(** Where stop() is never called, threads leave only after they have drained their loops. *)
Definition early (c : tpc) : bool := match c with TStop false | TNull false | TDone false => true | _ => false end.
Definition halting (c : cpc) : bool := match c with CRemove _ false _ | CFlag _ false _ => true | _ => false end.
Definition no_stop (s : pool) : Prop :=
  Stop ∉ ops s ∧ halting (ctl s) = false ∧ isJoin_ s ≠ Some false ∧ ∀ w th, workers s !! w = Some th → early (pc th) = false.

Lemma exec_no_stop l s s' : no_stop s → exec l s = Some (Ret s') → no_stop s'.
Proof.
  intros (H1 & H2 & H3 & H4) E. unfold no_stop. steps l E; cases E.
  all: try (apply pickThread_next in Heqo as [? ->]).
  all: split_and?; try done.
  all: try (intros x y Hx; apply list_lookup_insert_Some in Hx as [(<- & <- & _)|[_ Hx]]; [cbn; try done|by apply (H4 x y)]).
  all: try (by destruct (isJoin_ s) as [[]|]); try (by destruct join).
  all: try (by apply not_elem_of_cons in H1 as [? ?]).
  all: match goal with
    | H : workers _ !! _ = Some ?th |- early (pc ?th) = false => by apply H4 in H
    | H : workers _ !! _ = Some ?th, Hp : pc ?th = _ |- _ => apply H4 in H; by rewrite Hp in H
    | H : of_option _ (workers _ !! _) = Ret ?th |- early (pc ?th) = false => apply of_option_ret_inv in H; by apply H4 in H
    end.
Qed.

(** The calls that thread [w] made for tasks, in order. *)
Definition calls (w : nat) (es : list event) : list Pool.event :=
  PoolSpec.begun (omap (fun e => match e with Seen (Some v) e => if decide (v = w) then Some e else None | _ => None end) es).
(** They belong to the tasks that the thread has begun, one by one. *)
Definition called (s : pool) : Prop :=
  ∀ w th, workers s !! w = Some th → Forall2 PoolSpec.treated (ran th) (calls w (log s)).

Lemma calls_app w a b : calls w (a ++ b) = calls w a ++ calls w b.
Proof. unfold calls. by rewrite omap_app, PoolSpec.begun_app. Qed.
Lemma calls_other w v es : v ≠ w → calls w (Seen (Some v) <$> es) = [].
Proof. intros Hne. unfold calls. induction es as [|e es IH]; [done|]. cbn in *. by rewrite decide_False by done. Qed.
Lemma calls_told w (f : nat → Pool.event) l : calls w ((fun o => Seen None (f o)) <$> l) = [].
Proof. unfold calls. by induction l. Qed.

Lemma called_put w th s es : called s → Forall2 PoolSpec.treated (ran th) (calls w (log s ++ es)) → (∀ v, v ≠ w → calls v es = []) →
  called (tell es (put w th s)).
Proof.
  intros Hc Hw Hv v th' Hth. cbn [workers log tell put set_workers] in *. apply list_lookup_insert_Some in Hth as [(<- & <- & _)|[Hne Hth]]; [done|].
  rewrite calls_app, Hv, app_nil_r by done. by apply Hc.
Qed.
Lemma called_same w th th' s s' : called s → workers s !! w = Some th → ran th' = ran th → workers s' = <[w := th']> (workers s) →
  log s' = log s → called s'.
Proof.
  intros Hc Hw Hr Ew El v x Hx. rewrite Ew in Hx. rewrite El. apply list_lookup_insert_Some in Hx as [(<- & <- & _)|[_ Hx]]; [rewrite Hr|]; by apply Hc.
Qed.

Lemma exec_called l s s' : called s → exec l s = Some (Ret s') → called s'.
Proof.
  intros Hc E. steps l E; cases E.
  all: try exact Hc.
  all: try match goal with H : of_option _ (workers _ !! _) = Ret _ |- _ => apply of_option_ret_inv in H end.
  all: try match goal with H : workers ?s0 !! ?w = Some ?th |- _ => by eapply (called_same w th _ s0 _ Hc H); [|reflexivity..] end.
  all: try match goal with H : Pool.task_start ?now ?t = _ |- _ =>
    destruct (PoolSpec.task_start_treated now t) as (e & Ee & Eb & Ht); rewrite H in Ee; cbn in Ee; subst; apply called_put; [done| |intros v Hv; by apply (calls_other v w [e])];
    rewrite calls_app; apply Forall2_app; [by apply Hc|]; unfold calls; cbn [omap list_omap fmap list_fmap]; rewrite decide_True, Eb by done; by constructor end.
  all: try (apply called_put; [done| |intros v Hv; by apply (calls_other v w [_])]; rewrite calls_app; unfold calls at 2; cbn; rewrite decide_True, app_nil_r by done; by apply Hc).
  - apply (called_put a (with_run false a0) s _ Hc); [|intros v _; apply calls_told]. rewrite calls_app, calls_told, app_nil_r. by apply (Hc a a0).
  - intros v th Hv. cbn [log tell]. rewrite calls_app, app_nil_r. by apply Hc.
  - by apply pickThread_next in Heqo as [? ->].
Qed.

Lemma io_init_inv n obs os : inv (init n obs os).
Proof.
  assert (Hnew : ∀ w th, replicate n new_thread !! w = Some th → th = new_thread ∧ (w < n)%nat) by (intros w th H; by apply lookup_replicate in H).
  split; cbn; try done.
  - intros w th H. by destruct (Hnew w th H) as [-> _].
  - intros a Ha. by apply elem_of_nil in Ha.
  - split; cbn; try done.
    + generalize 0%nat as k. induction n as [|n IH]; intros k; cbn; constructor; [|apply Forall_forall; intros x Hx%elem_of_seq; lia].
      apply IH. intros w th H. by apply lookup_replicate in H.
    + intros w Hw%elem_of_seq. rewrite length_replicate. lia.
    + intros w th H Hn. destruct (Hnew w th H) as [_ Hlt]. destruct Hn. apply elem_of_seq. lia.
    + apply told_nil. intros w _. unfold flag. destruct (_ !! w) as [th|] eqn:E; [|done]. by destruct (Hnew w th E) as [-> _].
    + constructor.
    + intros w. split; [intros H; by apply elem_of_nil in H|]. intros [_ H]. unfold gone in H. destruct (_ !! w) as [th|] eqn:E; [|done]. by destruct (Hnew w th E) as [-> _].
    + split; [done|]. apply count_nonneg.
  - intros w th H. by destruct (Hnew w th H) as [-> _].
  - split; [done|]. lia.
Qed.

Lemma io_reachable_inv n obs os s : Z.of_nat n ≤ BlockingQueue.SEM_VALUE_MAX → reachable n obs os s →
  inv s ∧ length (workers s) = n ∧ (Stop ∉ os → no_stop s) ∧ called s.
Proof.
  intros Hn Hr. unfold reachable in Hr. assert (H0 : inv (init n obs os) ∧ length (workers (init n obs os)) = n ∧ (Stop ∉ os → no_stop (init n obs os)) ∧ called (init n obs os)).
  { split; [apply io_init_inv|]. split; [apply length_replicate|]. split; [intros Hs; split_and!; try done; cbn|]; intros w th H; apply lookup_replicate in H as [-> _]; [done|constructor]. }
  induction Hr as [s|s s1 s2 [l Hor E] _ IH]; [done|]. apply IH. destruct H0 as (Hi & Hlen & Hs & Hcl).
  destruct (exec_inv l s _ Hi ltac:(lia) Hor E) as (s' & [= <-] & Hi'). split; [done|]. split; [by rewrite (exec_length l s)|]. split; [intros H; by apply (exec_no_stop l s); [apply Hs|]|by apply (exec_called l s)].
Qed.

(** ** What the pool promises *)

(** Tasks that thread [w] has still to run, with those that are run but still counted and those that
    calls of add have counted but not handed over. *)
Definition left_on (s : pool) (w : nat) (th : IOThread) : Z :=
  Z.of_nat (length (waiting (pc th) ++ callbacks_ th)) + Z.b2z (uncounted (pc th)) + count (on_target w) (adders s).

Lemma pending_left s w th : inv s → workers s !! w = Some th → pending_of th = left_on s w th.
Proof.
  intros Hi Hw. destruct (i_threads s Hi w th Hw) as [_ Hc Hid _ _ _ _]. pose proof (count_nonneg (on_target w) (adders s)).
  unfold pending_of, left_on. rewrite Hid, Hc, length_app. destruct (pc th); cbn; rewrite ?andb_false_r, ?andb_true_r; try lia.
  destruct (Z.ltb_spec 0 (Z.of_nat (length rest) + Z.of_nat (length (callbacks_ th)) + 1 + count (on_target w) (adders s))); lia.
Qed.

(** C18: If calls of add from outside do not overlap stop, join and setNumThreads, then in every
    interleaving no check fails and no pointer is null; each thread deals with the tasks handed to it
    once and in order, where the calls that it makes are, one by one, those of the tasks' functions,
    or of the expiration callback, if there is one, of a task that is overdue when it is begun; a thread that setNumThreads or
    join has removed has made the calls for all of its tasks (tasks that its tasks added too); and
    getPendingTaskCount counts the tasks that are left, at most one too many for each thread and
    call that is between two accesses. *)
Theorem iopool_correct n obs os s : Z.of_nat n ≤ BlockingQueue.SEM_VALUE_MAX → reachable n obs os s →
  (∀ l e, orderly l s → exec l s ≠ Some (Err e)) ∧
  (∀ w th, workers s !! w = Some th → ∃ ran,
     scheduled th = ran ++ waiting (pc th) ++ callbacks_ th ∧ Forall2 PoolSpec.treated ran (calls w (log s))) ∧
  (Stop ∉ os → ∀ w th, workers s !! w = Some th → w ∉ threads_ s →
     Forall2 PoolSpec.treated (scheduled th) (calls w (log s)) ∧ Forall (fun a => target a ≠ w) (adders s)) ∧
  getPendingTaskCount s = foldr (fun w c => c + from_option (left_on s w) 0 (workers s !! w)) 0 (threads_ s).
Proof.
  intros Hn Hr. destruct (io_reachable_inv n obs os s Hn Hr) as (Hi & Hlen & Hs & Hcl). split_and!.
  - intros l e Hor E. by destruct (exec_inv l s _ Hi ltac:(lia) Hor E) as (s' & ? & _).
  - intros w th Hw. exists (ran th). split; [apply (i_threads s Hi w th Hw)|by apply Hcl].
  - intros Hos w th Hw Hout. pose proof (c_out _ _ _ _ (i_ctl s Hi) w th Hw Hout) as Hf. destruct (Hs Hos) as (_ & _ & _ & He). specialize (He w th Hw).
    assert (Hj : joined (pc th) = true) by (by destruct (pc th) as [| | | | | | | | | | | | | |[]]). pose proof (i_threads s Hi w th Hw) as Ht. split.
    + rewrite (t_order _ _ _ Ht), (t_joined _ _ _ Ht Hj). specialize (Hcl w th Hw). destruct (pc th); try done; by rewrite !app_nil_r.
    + apply Forall_forall. intros a Ha <-. destruct (adder_alive s a th Hi Ha Hw). congruence.
  - unfold getPendingTaskCount. induction (threads_ s) as [|w l IH]; [done|]. cbn [foldr]. rewrite IH. f_equal.
    destruct (workers s !! w) as [th|] eqn:Hw; [|done]. cbn. by apply pending_left.
Qed.

(** ** Examples *)

Module Demo.
Fixpoint drive (ls : list label) (s : pool) : option (outcome pool) :=
  match ls with
  | [] => Some (Ret s)
  | l :: ls => r ← exec l s; match r with Ret s => drive ls s | Err e => Some (Err e) end
  end.
(** The same, step by step in order. *)
Definition in_order (l : label) (s : pool) : bool :=
  match l with
  | LAdd None _ _ _ _ => match ctl s with CIdle => true | _ => false end
  | LControl => match ctl s with CIdle => forallb (fun a => if caller a is None then false else true) (adders s) | _ => true end
  | _ => true
  end.
Fixpoint follow (ls : list label) (s : pool) : option pool :=
  match ls with
  | [] => Some s
  | l :: ls => if in_order l s then r ← exec l s; match r with Ret s => follow ls s | Err _ => None end else None
  end.
Lemma in_order_spec l s : in_order l s = true → orderly l s.
Proof.
  destruct l as [w now| |[c|] now f e cb|j]; cbn; try done; [|by destruct (ctl s)]. intros H Hc. rewrite Hc in H. apply Forall_forall. intros a Ha E.
  apply forallb_forall with (x := a) in H; [|by apply list_elem_of_In]. by rewrite E in H.
Qed.
Lemma follow_rtc ls : ∀ s s', follow ls s = Some s' → rtc step s s'.
Proof.
  induction ls as [|l ls IH]; intros s s' E; cbn in E; [injection E as <-; apply rtc_refl|]. destruct (in_order l s) eqn:Eo; [|done].
  destruct (exec l s) as [[s1|]|] eqn:E1; try done. cbn in E. eapply rtc_l; [|by apply IH]. apply (step_exec _ _ l); [by apply in_order_spec|done].
Qed.

(** A pool of one thread; task 7 is added, and then the pool is joined. *)
Definition begin_add : list label := [LWork 0 0; LWork 0 0; LControl; LControl; LAdd None 5 7 0 None].
Definition joining : list label := replicate 6 LControl ++ replicate 17 (LWork 0 9) ++ replicate 5 LControl.
Definition schedule : list label := begin_add ++ [LNext 0; LNext 0] ++ joining.
Definition final : pool := default (init 0 [] []) (follow schedule (init 1 [] [Join])).
Lemma final_reachable : reachable 1 [] [Join] final.
Proof. apply (follow_rtc schedule). vm_compute. reflexivity. Qed.
Lemma final_state : threads_ final = [] ∧ ctl final = CIdle ∧ calls 0 (log final) = [Pool.Called 7 9] ∧
  (fun th => Pool.func_ <$> scheduled th) <$> (workers final !! 0%nat) = Some [7%nat].
Proof. vm_compute. auto. Qed.

Lemma iopool_correct_witness :
  threads_ final = [] ∧ calls 0 (log final) = [Pool.Called 7 9] ∧ ∃ th, workers final !! 0%nat = Some th ∧
  Pool.func_ <$> scheduled th = [7%nat] ∧ Forall2 PoolSpec.treated (scheduled th) (calls 0 (log final)).
Proof.
  destruct final_state as (Ht & _ & Hc & Hw). split; [exact Ht|]. split; [exact Hc|]. destruct (workers final !! 0%nat) as [th|] eqn:Ew; [|discriminate Hw].
  exists th. injection Hw as Hw. split; [reflexivity|]. split; [exact Hw|].
  apply (iopool_correct 1 [] [Join] final ltac:(vm_compute; discriminate) final_reachable) with (w := 0%nat); [|exact Ew|rewrite Ht; apply not_elem_of_nil].
  intros [H|H]%elem_of_cons; [discriminate H|by apply elem_of_nil in H].
Defined.

(** A call of add that overlaps the removal hands its task to a null pointer: the ReadHolder of add is a
    temporary, and so are the WriteHolders of stop, join and setNumThreads. *)
Definition joining_empty : list label := replicate 6 LControl ++ replicate 5 (LWork 0 9) ++ replicate 5 LControl.
Example late_add_null : drive (begin_add ++ joining_empty ++ [LNext 0; LNext 0]) (init 1 [] [Join]) = Some (Err Undefined).
Proof. vm_compute. reflexivity. Qed.

(** stop() drops the tasks that have not been run. *)
Example stop_drops_tasks :
  (s ← drive (begin_add ++ [LNext 0; LNext 0] ++ replicate 6 LControl ++ replicate 4 (LWork 0 9) ++ replicate 5 LControl) (init 1 [] [Stop]);
   match s with Ret s => th ← workers s !! 0%nat; Some (threads_ s, ran th, Pool.func_ <$> callbacks_ th) | _ => None end) = Some ([], [], [7%nat]).
Proof. vm_compute. reflexivity. Qed.
End Demo.
End IOPoolSpec.
